(* ===== verification/_CoqProject ===== *)
-Q . S2P
Prelude.v
Cbor.v
Minicbor.v
Hash.v
Op.v
Project.v
Device.v
Entry.v
Stream.v
Branch.v
Envelope.v
Candidate.v
Refold.v
AccountOps.v
FoldTypes.v
Snapshot.v
AuthStore.v
ControlV2.v
Views.v
Keywrap.v
SecretsOps.v
ContentEnvelope.v
Sealing.v
Acceptance.v
Lamport.v
ContentFold.v
ContentSafety.v
Secrets.v
SecretsFold.v
Incarnation.v
SecretsSafety.v
Fold.v
FoldCycle.v
FoldDepth.v
FoldTotal.v
FoldPass.v
FoldReplay.v
FoldRooted.v
FoldSafety.v
FoldPerm.v
FoldOrder.v
AccountProjection.v
Annex.v
AnnexProjection.v
AnnexVerify.v
FoldRegisters.v
FoldFacts.v
AuthRefine.v
Ingest.v
IngestSafety.v
IngestConverge.v
IngestBudget.v
