(* ===== verification/Prelude.v ===== *)
(** * Verification of the rag-rat op-log

    rag-rat keeps a shared memory as a signed, append-only operation log replicated between
    devices without a coordinator.  A device encodes a memory operation as canonical CBOR, signs
    it into a hash-linked entry, and every replica folds the entries it holds into the same
    view.  Accounts add a control log of signed entries, revocation cuts that bound a device's
    chain, and content entries that are accepted, parked, condemned or rejected by a pure
    predicate over what the replica has folded.  This development models that core, the crate
    [crates/rag-rat-oplog] with the hash and edge helpers it calls, and proves what makes
    replicas agree and forgeries useless.

    ** Files, and the code they model (paths under [src/crates/rag-rat-oplog/src] unless said)

    - [Prelude]: the result monad ([?] is its bind), bytes and their integers, machine-width
      bounds, total comparisons, stable sorting by key and set canonicalization.
    - [Cbor]: [cbor.rs], the canonical-CBOR gate, over a cursor; RFC 8949 items and their
      canonical serialization as the specification.
    - [Minicbor]: the [minicbor] library as the class [Minicbor] with the laws [MinicborLaws] and
      an instance that satisfies them; the decoder monad and the readers and writers of [cbor.rs].
    - [Hash]: [crates/rag-rat-base/src/hash.rs] and the fingerprint text of [op.rs]; SHA-256 is a
      parameter with 32-byte digests, and security statements conclude "or here is a collision".
    - [Op]: [op.rs] and the edge keys of [crates/rag-rat-query/src/memory/edges.rs]: the ten memory
      operations, their codec, the wire limits, and retention of unknown operations.
    - [Project]: [project.rs], the fold into nodes, live edges and tombstones, with a register
      specification it refines.
    - [Device]: [device.rs]; ed25519 is the class [Ed25519]; the X25519 small-order blocklist.
    - [Entry]: [entry.rs], signed entries and chain verification.
    - [Stream]: [stream.rs], stream policies and the derivation of stream ids.
    - [Branch]: [account/branch.rs], branch selection among equivocating entries, the backward
      walk and pinned branches, over the interface [ChainLink] of the source.
    - [Envelope]: [account/envelope.rs] with the limits of [account/limits.rs].
    - [Candidate]: [account/cut.rs], [account/registers.rs], [account/candidate.rs] and
      [account/secrets/candidate.rs]: cuts, ancestry, joins, control frontiers, secrets selection.
    - [Refold]: what the two refolds share: reachable heads over a hash-linked log, run lists and
      accepted prefixes ([account/secrets/storage.rs], [account/content/storage.rs]).
    - [AccountOps]: [account/ops.rs] and the account id of [account/id.rs]: the ten control
      operations, their canonicalization and codec.
    - [Snapshot]: the reads a refold makes of the account tables as the class [AuthoritySnapshot],
      and the effect of a transaction: a result, an error that aborts it, or a panic.
    - [AuthStore]: the tables of the authority projection, the rewrite that replaces them after a
      fold, their keyed reads ([account/storage.rs], [account/control_policy.rs], the re-adoption
      work of [table_sync/store.rs]); [stored_snapshot] makes them an [AuthoritySnapshot].
    - [Keywrap]: [account/keywrap.rs], content-key ids and the sealing of a key to a device; X25519,
      HKDF and the AEAD are the classes [X25519], [Hkdf] and [Aead].
    - [SecretsOps]: [account/secrets/ops.rs], the operations of the secrets log.
    - [ContentEnvelope]: [account/content/envelope.rs].
    - [Sealing]: [account/secrets/sealing.rs] and [account/secrets/security_event.rs]: the key a
      stream is sealed under, its recovery from the accepted wraps, the keyring of past keys, the
      rotation test, the live keys a new device needs and the audit log.
    - [FoldTypes]: the data of [account/fold.rs]: outcomes, the classification of an account, the
      roster, owner, stream and grant facts, and the queries that resolve a citation.
    - [Acceptance]: [account/content/candidate.rs] and [account/content/acceptance.rs], over the
      authority facts of [FoldTypes].
    - [Lamport], [ContentFold], [ContentSafety]: the refold of a content stream
      ([account/content/storage.rs]): the clamp of lamport advances, the pass over the rows of a
      stream, and what it accepts.
    - [Secrets], [SecretsFold], [Incarnation], [SecretsSafety]: the acceptance predicate of the
      secrets log ([account/secrets/acceptance.rs]), its refold and the current incarnation of a
      repository ([account/secrets/storage.rs]), and what they decide.
    - [Fold]: the operations of [account/fold.rs], from the verified entries of one account to
      its history: citation depths and strata, condemnation cycles, the conflict resolution of a
      stratum, the replay of effects under the derived cuts, dependency closure, registers, the
      readiness loop and the authority facts.
    - [FoldCycle], [FoldDepth], [FoldTotal], [FoldPass], [FoldReplay], [FoldRooted], [FoldSafety],
      [FoldPerm], [FoldOrder], [FoldRegisters]: the theory of that fold, in this order: the cycle
      search, the citation depth, termination, the stages of a pass, the replay, a whole pass over a
      rooted account, the theorems on the returned history with a concrete account they apply to,
      the stages and then the fold under a reordering of the entries, and the account the registers
      belong to.
    - [AccountProjection]: [derive_account_projection] of [account/storage.rs]: the fold, the branch
      of each author and the closure over cited authority, repeated until what is effective is what
      is accepted.
    - [ControlV2], [Views]: [account/control_v2/ops.rs] and [account/control_v2/views.rs], the wires of
      the second control log and the planning of the replay a revocation needs: which views, in
      which order, within which budgets.
    - [Annex]: [account/annex/ops.rs], the payloads of the third log, whose snapshots have a version.
    - [AnnexProjection]: [account/annex/projection.rs], the canonical bytes of a folded state.
    - [AnnexVerify]: [account/annex/verify.rs] and [select.rs], the reads of the stored snapshots in
      [account/storage.rs], and the claim of [account/annex/author.rs].
    - [FoldFacts], [AuthRefine]: the facts of a fold are well formed; written by [AuthStore] they
      are read back as the fold answers, so that what the secrets refold accepts on the tables is
      authorized by the fold.
    - [Ingest]: [account_ingest] and what it calls in [account/storage.rs], and the queue of
      [account/pre_verify.rs]: the structural checks of an envelope, the keys the stored entries
      certify, the admission budgets, parking, eviction and promotion.
    - [IngestSafety], [IngestConverge], [IngestBudget]: the invariant every ingest keeps, the stores
      envelopes lead to with the rows the refold then loads, and the budgets.

    The parts interact as the code's do: an entry is decoded through [Minicbor] and gated by
    [Cbor], its signature checked through [Device], its operation decoded by [AccountOps] or
    [Op]; [Fold] orders the verified control entries, selects a branch per device with [Branch]
    and bounds it with the cuts of [Candidate]; [Acceptance] asks the resulting facts whether a
    content entry counts; [Project] folds what counts into the memory view.  [Ingest] puts a verified envelope among the rows of its
    account or parks it; the store derives its
    projection of the rows with [AccountProjection], writes the history with [AuthStore] and gives
    the tables to [SecretsFold] and [ContentFold] as their snapshot.  [AnnexVerify] folds again the
    part of a log a snapshot covers and compares the bytes of [AnnexProjection].

    ** How code is represented

    Structs are records and enums inductive types with the source's variants; [Vec<u8>], [String]
    and fixed arrays are byte lists, with the widths the types give stated as invariants such as
    [op_ok], [parts_ok] and [header_wf]; integers are [Z] within their width, with checked and
    saturating arithmetic written out.  [HashMap] and [BTreeMap] are [gmap], sets are [gset].
    A decoder is a state-passing function on the unread bytes; errors are values.  Early returns
    of the acceptance predicate are the error of a result monad.  Loops whose bound is not
    structural run on fuel: the walks use one more unit than the view has entries, the search
    for rooted entries one more than there are candidates, the colour search one more than the
    square of its nodes plus their number, the closure and readiness loops one more than the
    fold has entries, the projection loop one more than there are rows, the closure of its selection
    one more than is selected, the reachability and tip searches of the refolds one more than their
    view has entries, the walk below a watermark one more than there are held entries, the rounds of promotion one
    more than there are parked rows, the ordering
    of views two more than there are views and references together; the theorems state that the result exists, so
    the fuel never runs out ([condemn_cycle_exact], [incarnation_depth_exact],
    [fold_account_terminates] for the fold).

    ** What is proved

    - Canonical bytes: the gate accepts exactly the canonical serializations of bounded nesting (the
      reserved two-byte simple values 24 to 31 included, as in the code), serialization is injective and prefix-free, every wire object (op, entry, stream spec,
      account and content envelope, control op) has exactly one accepted encoding, and encoders
      and decoders are inverse.
    - Convergence: the projection refines its register specification and does not depend on the
      order of entries; branch selection does not depend on the order of candidates or registers;
      the control fold computes one history from one set of entries, whatever their order.
    - Integrity: what verifies is exactly what was signed by the named device; entry hashes and
      chain heads fix contents and histories up to a SHA-256 collision; stream ids pin owner,
      mode and policy.
    - Revocation: ancestry is reachability through valid links, decided verdicts never flip when
      more entries arrive, joins only extend, frontiers resolve to exactly the chains they name.
    - The control fold: it returns on every input and classifies every entry it was given; an
      effective entry rests on effective incarnations, citations and enrollments down to the
      genesis and lies within the cuts the fold derived, a recovery re-root excepted, which is only
      never condemned; a device is enrolled once, epochs are
      dense, the root of a live account is effective; its cycle search and its memoized depth
      compute what they name.
    - Acceptance: an exact characterization of accepted and condemned entries, precedence of
      condemnation over everything undecided, and its finality.
    - Ingest: on every store that envelopes lead to, an ingest returns and forgets nothing; every
      accepted entry carries a signature of the device it names, under a key its account
      certifies; two stores that were sent the same envelopes, in any order, hold the same entries
      and derive the same projection, as long as no budget refused one, and none is parked whose
      signer is known.  No envelopes exceed the budgets, and a removal is still admitted.  SHA-256
      is assumed to be free of collisions among the envelopes submitted, their bodies and keys.
    - Storage: the projection of the rows is coherent (accepted is effective, one dense chain for
      each author, closed under cited authority) and does not depend on their order; the rewrite
      leaves exactly the facts of the fold and no trace on other accounts; the keyed reads answer as
      the queries of the fold, but for two that report a wrong subject before a closed fact; the
      content and secrets refolds return on every store and accept only what the snapshot
      authorizes, in gapless chains, with clocks bounded by the advances; the content refold fails
      only on a key that is not a hash or a read of the snapshot that fails; the incarnation of a
      repository is read, where the pins of its account permit, as the tip of the one chain its
      accepted announcements form.
    - Sealing keys: every device computes the same selection from the same accepted wraps; it
      obtains the key exactly when some wrap for it opens to the signed key id, whatever the other
      wraps hold; the keyring and the live keys are exactly those of the accepted groups, one for a
      key id; the downgrade check fails on a row that does not decode where the tolerant reads skip
      it.
    - Snapshots: two folds have one state hash exactly when they agree on what replicas must agree on;
      a claim is verified exactly when its chains are whole and uncontested among the held entries
      and fold to its hash, in an account that is live over all that is held; an author and the
      readers of the same entries agree, and a coverage too wide for the author has no encoding;
      the selected snapshot is verified, authorized and covers no less than any other.
    - Replay plans: planning returns for every bundle, lists each view after those it needs, and does
      not depend on the order in which the evidence is supplied.
    - Limits: the size and wire-limit predicates are exact.

    Some theorems state where the code differs from its documentation: the fold of ops is not
    idempotent on a duplicated anchor publication, the edge-key separator is not excluded by the
    wire, the canonical gate accepts the reserved two-byte simple values, the tables and the fold
    name different reasons for a closed reference of another device, the covered prefix of a
    verified snapshot need not be live on its own, and the strict evidence check passes over an
    accepted row of unknown operation.

    ** What is not modelled

    A table is a map from its primary key and a transaction a state-passing function; the SQL text,
    its indexes and the CHECK constraints on widths are not modelled (the columns written are
    Rust arrays of those widths).  The refold that ends an ingest is a
    step of its own: it rewrites derived tables, and when it fails the transaction leaves the store as
    it was.  The wall clock is read once for an ingest, not once for each insertion in it.  Of the
    invite reservations only the charge is modelled, not their writes.  The projection of a
    pinned account is not, nor the ingest of content entries with its queue and quotas.  Not modelled
    at all: pins and their installation, the adoption of an enrollment receipt, networking, operating-system randomness, the fold and
    the executor of the second control log ([account/fold/v2.rs], [account/control_v2/executor.rs]),
    checkpoints, the signing and storing of annex entries, the
    replication of rows in table sync, and the indexing, query, CLI and server crates.  The plan
    would continue with the enrollment receipt, the ingest of content, the second control fold,
    checkpoints and table sync. *)

From Stdlib Require Export Strings.Byte.
From stdpp Require Export base tactics strings gmap sorting numbers list.

(** ** Fallible computations

    Rust's [Result<A, E>]; [?] is the bind of the monad. *)

Inductive result (E A : Type) : Type :=
| Ok (a : A)
| Err (e : E).
Arguments Ok {E A} a.
Arguments Err {E A} e.

#[export] Instance result_ret {E} : MRet (result E) := @Ok E.
#[export] Instance result_bind {E} : MBind (result E) :=
  fun A B f m => match m with Ok a => f a | Err e => Err e end.
#[export] Instance result_fmap {E} : FMap (result E) :=
  fun A B f m => match m with Ok a => Ok (f a) | Err e => Err e end.

(** [Option::ok_or]. *)
Definition ok_or {E A} (e : E) (o : option A) : result E A :=
  match o with Some a => Ok a | None => Err e end.

(** [Result::map_err]. *)
Definition map_err {E F A} (f : E → F) (m : result E A) : result F A :=
  match m with Ok a => Ok a | Err e => Err (f e) end.

Definition is_ok {E A} (m : result E A) : bool :=
  match m with Ok _ => true | Err _ => false end.

Lemma result_bind_Ok {E A B} (f : A → result E B) (m : result E A) (b : B) :
  m ≫= f = Ok b ↔ ∃ a, m = Ok a ∧ f a = Ok b.
Proof. destruct m as [a|e]; simpl; naive_solver. Qed.

Lemma ok_or_Ok {E A} (e : E) (o : option A) (a : A) :
  ok_or e o = Ok a ↔ o = Some a.
Proof. destruct o; simpl; naive_solver. Qed.

(** Invert every [Ok] hypothesis of a chain of binds. *)
Ltac inv_ok :=
  repeat match goal with
  | H : Ok _ = Ok _ |- _ => injection H as H; try subst
  | H : Err _ = Ok _ |- _ => discriminate H
  | H : Ok _ = Err _ |- _ => discriminate H
  | H : mret _ = Ok _ |- _ => unfold mret, result_ret in H
  | H : mbind _ _ = Ok _ |- _ => apply result_bind_Ok in H as (? & ? & H)
  | H : _ ≫= _ = Ok _ |- _ => apply result_bind_Ok in H as (? & ? & H)
  | H : ok_or _ _ = Ok _ |- _ => apply ok_or_Ok in H
  | H : (let (_, _) := ?p in _) = Ok _ |- _ => destruct p eqn:?
  | H : match ?p with (_, _) => _ end = Ok _ |- _ => destruct p eqn:?
  end.

(** ** Bytes

    A [u8] is Rocq's 256-constructor [byte]; [b2z] is its value and [z2b] the
    truncating cast [as u8]. *)

Definition b2z (b : byte) : Z := Z.of_N (Byte.to_N b).
Definition z2b (z : Z) : byte :=
  match Byte.of_N (Z.to_N (z `mod` 256)) with Some b => b | None => x00 end.

Lemma b2z_range b : (0 ≤ b2z b < 256)%Z.
Proof.
  unfold b2z. pose proof (Byte.to_N_bounded b). split; [lia|].
  change 256%Z with (Z.of_N 256). lia.
Qed.

Lemma z2b_b2z b : z2b (b2z b) = b.
Proof.
  unfold z2b. pose proof (b2z_range b). rewrite Z.mod_small by lia.
  unfold b2z. rewrite N2Z.id. by rewrite Byte.of_to_N.
Qed.

Lemma b2z_z2b z : b2z (z2b z) = (z `mod` 256)%Z.
Proof.
  unfold z2b. pose proof (Z.mod_pos_bound z 256 ltac:(lia)).
  destruct (Byte.of_N _) as [b|] eqn:E.
  - apply Byte.to_of_N in E. unfold b2z. rewrite E. lia.
  - apply Byte.of_N_None_iff in E. lia.
Qed.

#[export] Instance b2z_inj : Inj (=) (=) b2z.
Proof. intros a b H. rewrite <- (z2b_b2z a), <- (z2b_b2z b). by rewrite H. Qed.

#[export] Instance byte_eq_dec : EqDecision byte := Byte.byte_eq_dec.

#[export] Program Instance byte_countable : Countable byte := {|
  encode b := encode (Byte.to_N b);
  decode p := n ← decode p; Byte.of_N n
|}.
Next Obligation. intros b. cbn beta. rewrite decode_encode. apply Byte.of_to_N. Qed.

Abbreviation bytes := (list byte).

(** The bytes of a string literal. *)
Definition lit (s : string) : bytes := String.list_byte_of_string s.

(** ** Machine integers *)

Definition u8_max : Z := 255.
Definition u16_max : Z := 65535.
Definition u32_max : Z := 4294967295.
Definition u64_max : Z := 18446744073709551615.

Definition is_u64 (z : Z) : bool := bool_decide (0 ≤ z ≤ u64_max)%Z.
Definition is_i64 (z : Z) : bool :=
  bool_decide (-9223372036854775808 ≤ z ≤ 9223372036854775807)%Z.

(** [u64::checked_add] and [u64::checked_sub]. *)
Definition u64_checked_add (a b : Z) : option Z :=
  if bool_decide (a + b ≤ u64_max)%Z then Some (a + b)%Z else None.
Definition u64_checked_sub (a b : Z) : option Z :=
  if bool_decide (b ≤ a)%Z then Some (a - b)%Z else None.

(** [Vec::len] and [slice::len]. *)
Definition len {A} (l : list A) : Z := Z.of_nat (length l).

Lemma len_nonneg {A} (l : list A) : (0 ≤ len l)%Z.
Proof. unfold len. lia. Qed.

Lemma len_app {A} (l k : list A) : len (l ++ k) = (len l + len k)%Z.
Proof. unfold len. rewrite length_app. lia. Qed.

Lemma len_cons {A} (x : A) l : len (x :: l) = (1 + len l)%Z.
Proof. unfold len. simpl. lia. Qed.

(** ** Total orders

    [Ord::cmp]; the laws are the ones a derived [Ord] satisfies. *)

Class Cmp (A : Type) := cmp : A → A → comparison.

Class TotalCmp (A : Type) `{Cmp A} : Prop := {
  cmp_eq_iff (x y : A) : cmp x y = Eq ↔ x = y;
  cmp_opp (x y : A) : cmp y x = CompOpp (cmp x y);
  cmp_lt_trans (x y z : A) : cmp x y = Lt → cmp y z = Lt → cmp x z = Lt;
}.

#[export] Instance Z_cmp : Cmp Z := Z.compare.
#[export] Instance byte_cmp : Cmp byte := fun a b => Z.compare (b2z a) (b2z b).
#[export] Instance pair_cmp `{Cmp A, Cmp B} : Cmp (A * B) :=
  fun p q => match cmp p.1 q.1 with Eq => cmp p.2 q.2 | c => c end.
#[export] Instance list_cmp `{Cmp A} : Cmp (list A) :=
  fix go l k :=
    match l, k with
    | [], [] => Eq
    | [], _ :: _ => Lt
    | _ :: _, [] => Gt
    | x :: l', y :: k' => match cmp x y with Eq => go l' k' | c => c end
    end.

#[export] Instance Z_total_cmp : TotalCmp Z.
Proof.
  split; unfold cmp, Z_cmp; intros.
  - apply Z.compare_eq_iff.
  - apply Z.compare_antisym.
  - rewrite Z.compare_lt_iff in *. lia.
Qed.

#[export] Instance byte_total_cmp : TotalCmp byte.
Proof.
  split; unfold cmp, byte_cmp; intros.
  - rewrite Z.compare_eq_iff. split; [apply (inj b2z)|by intros ->].
  - apply Z.compare_antisym.
  - rewrite Z.compare_lt_iff in *. lia.
Qed.

Lemma cmp_refl `{TotalCmp A} (x : A) : cmp x x = Eq.
Proof. by apply cmp_eq_iff. Qed.

#[export] Instance pair_total_cmp `{TotalCmp A, TotalCmp B} : TotalCmp (A * B).
Proof.
  split; unfold cmp, pair_cmp.
  - intros [a b] [c d]; simpl. destruct (cmp a c) eqn:E.
    + apply cmp_eq_iff in E as ->. rewrite cmp_eq_iff. naive_solver.
    + split; [done|]. intros [= -> ->]. by rewrite cmp_refl in E.
    + split; [done|]. intros [= -> ->]. by rewrite cmp_refl in E.
  - intros [a b] [c d]; simpl. rewrite (cmp_opp a c).
    destruct (cmp a c); simpl; [apply cmp_opp|done|done].
  - intros [a b] [c d] [e f]; simpl.
    destruct (cmp a c) eqn:E1; [| |done]; destruct (cmp c e) eqn:E2; try done;
      repeat match goal with H : cmp _ _ = Eq |- _ => apply cmp_eq_iff in H; subst end;
      rewrite ?cmp_refl, ?E1, ?E2; try done.
    + apply cmp_lt_trans.
    + intros _ _. by rewrite (cmp_lt_trans a c e).
Qed.

#[export] Instance list_total_cmp `{TotalCmp A} : TotalCmp (list A).
Proof.
  split; unfold cmp, list_cmp.
  - intros l. induction l as [|x l IH]; intros [|y k]; try done.
    destruct (cmp x y) eqn:E.
    + apply cmp_eq_iff in E as ->. rewrite IH. naive_solver.
    + split; [done|]. intros [= -> ->]. by rewrite cmp_refl in E.
    + split; [done|]. intros [= -> ->]. by rewrite cmp_refl in E.
  - intros l. induction l as [|x l IH]; intros [|y k]; try done.
    rewrite (cmp_opp x y). destruct (cmp x y); simpl; [apply IH|done|done].
  - intros l. induction l as [|x l IH]; intros [|y k] [|z m]; try done.
    destruct (cmp x y) eqn:E1; [| |done]; destruct (cmp y z) eqn:E2; try done;
      repeat match goal with H : cmp _ _ = Eq |- _ => apply cmp_eq_iff in H; subst end;
      rewrite ?cmp_refl, ?E1, ?E2; try done.
    + apply IH.
    + intros _ _. by rewrite (cmp_lt_trans x y z).
Qed.

Lemma cmp_gt_lt `{TotalCmp A} (x y : A) : cmp x y = Gt ↔ cmp y x = Lt.
Proof. rewrite (cmp_opp x y). by destruct (cmp x y). Qed.

(** The order relations of a [Cmp]: [a ≤ b] and [a < b]. *)
Definition cle `{Cmp A} (x y : A) : Prop := cmp x y ≠ Gt.
Definition clt `{Cmp A} (x y : A) : Prop := cmp x y = Lt.

#[export] Instance cle_dec `{Cmp A} : RelDecision (cle (A:=A)).
Proof. intros x y. unfold cle. destruct (cmp x y); [left|left|right]; congruence. Defined.
#[export] Instance clt_dec `{Cmp A} : RelDecision (clt (A:=A)).
Proof. intros x y. unfold clt. destruct (cmp x y); [right|left|right]; congruence. Defined.

Lemma cle_lt_eq `{TotalCmp A} (x y : A) : cle x y ↔ clt x y ∨ x = y.
Proof.
  unfold cle, clt. rewrite <- cmp_eq_iff. destruct (cmp x y); naive_solver.
Qed.

#[export] Instance cle_refl `{TotalCmp A} : Reflexive (cle (A:=A)).
Proof. intros x. unfold cle. by rewrite cmp_refl. Qed.
#[export] Instance clt_trans `{TotalCmp A} : Transitive (clt (A:=A)).
Proof. intros x y z. apply cmp_lt_trans. Qed.
#[export] Instance clt_irrefl `{TotalCmp A} : Irreflexive (clt (A:=A)).
Proof. intros x Hx. unfold clt in Hx. by rewrite cmp_refl in Hx. Qed.
#[export] Instance cle_trans `{TotalCmp A} : Transitive (cle (A:=A)).
Proof.
  intros x y z. rewrite !cle_lt_eq. intros [Hxy| ->] [Hyz| ->]; auto.
  left. by transitivity y.
Qed.
#[export] Instance cle_antisym `{TotalCmp A} : AntiSymm (=) (cle (A:=A)).
Proof.
  intros x y. rewrite !cle_lt_eq. intros [Hxy|?] [Hyx|?]; subst; auto.
  destruct (clt_irrefl x). by transitivity y.
Qed.
#[export] Instance cle_total `{TotalCmp A} : Total (cle (A:=A)).
Proof.
  intros x y. unfold cle. rewrite (cmp_opp x y). destruct (cmp x y); simpl; auto.
Qed.

Lemma clt_cle `{TotalCmp A} (x y : A) : clt x y → cle x y.
Proof. rewrite cle_lt_eq. auto. Qed.

Lemma not_cle_clt `{TotalCmp A} (x y : A) : ¬ cle x y ↔ clt y x.
Proof. unfold cle, clt. rewrite (cmp_opp x y). destruct (cmp x y); naive_solver. Qed.

Lemma clt_cle_trans `{TotalCmp A} (x y z : A) : clt x y → cle y z → clt x z.
Proof. rewrite cle_lt_eq. intros ? [?| ->]; [by transitivity y|done]. Qed.
Lemma cle_clt_trans `{TotalCmp A} (x y z : A) : cle x y → clt y z → clt x z.
Proof. rewrite cle_lt_eq. intros [?| ->] ?; [by transitivity y|done]. Qed.

Lemma cle_Z (x y : Z) : cle x y ↔ (x ≤ y)%Z.
Proof. unfold cle, cmp, Z_cmp. by rewrite Z.compare_ngt_iff, Z.le_ngt. Qed.
Lemma clt_Z (x y : Z) : clt x y ↔ (x < y)%Z.
Proof. unfold clt, cmp, Z_cmp. apply Z.compare_lt_iff. Qed.

Lemma cle_pair_fst `{TotalCmp A, Cmp B} (p q : A * B) : cle p q → cle p.1 q.1.
Proof. unfold cle, cmp at 1, pair_cmp. by destruct (cmp p.1 q.1). Qed.
Lemma clt_pair_fst `{Cmp A, Cmp B} (p q : A * B) : clt p.1 q.1 → clt p q.
Proof. unfold clt, cmp at 2, pair_cmp. by intros ->. Qed.

(** ** Stable sorting by a key

    [slice::sort_by(|a, b| key(a).cmp(&key(b)))] is stable, so its result is
    determined; insertion sort computes it.  [sort_unstable] is used by the source
    only on whole-element orders, where every sort agrees. *)

Section SortByKey.
Context {A K : Type} `{TotalCmp K} (key : A → K).

Fixpoint insert_by_key (x : A) (l : list A) : list A :=
  match l with
  | [] => [x]
  | y :: l' =>
      match cmp (key x) (key y) with
      | Gt => y :: insert_by_key x l'
      | _ => x :: y :: l'
      end
  end.

Definition sort_by_key (l : list A) : list A := foldr insert_by_key [] l.

Definition sorted_by_key : list A → Prop := StronglySorted (fun x y => cle (key x) (key y)).

Lemma insert_by_key_perm x l : insert_by_key x l ≡ₚ x :: l.
Proof using Type.
  induction l as [|y l IH]; simpl; [done|].
  destruct (cmp (key x) (key y)); try done. rewrite IH. apply Permutation_swap.
Qed.

Lemma sort_by_key_perm l : sort_by_key l ≡ₚ l.
Proof using Type.
  induction l as [|x l IH]; simpl; [done|]. by rewrite insert_by_key_perm, IH.
Qed.

Lemma sort_by_key_len l : len (sort_by_key l) = len l.
Proof using Type. unfold len. by rewrite sort_by_key_perm. Qed.

Lemma insert_by_key_sorted x l : sorted_by_key l → sorted_by_key (insert_by_key x l).
Proof using All.
  unfold sorted_by_key. induction 1 as [|y l Hl IH Hy]; simpl.
  { by repeat constructor. }
  destruct (cmp (key x) (key y)) eqn:E.
  3: { constructor; [done|]. rewrite insert_by_key_perm. constructor; [|done].
       apply clt_cle. by apply cmp_gt_lt. }
  all: assert (cle (key x) (key y)) as Hxy by (unfold cle; congruence).
  all: constructor; [by constructor|constructor; [done|]].
  all: eapply Forall_impl; [exact Hy|]; simpl; intros z Hz; by transitivity (key y).
Qed.

Lemma sort_by_key_sorted l : sorted_by_key (sort_by_key l).
Proof using All.
  induction l as [|x l IH]; [constructor|]. by apply insert_by_key_sorted.
Qed.

Lemma sort_by_key_id l : sorted_by_key l → sort_by_key l = l.
Proof using Type.
  induction 1 as [|x l Hl IH Hx]; simpl; [done|]. fold (sort_by_key l). rewrite IH.
  destruct Hx as [|y l' Hxy]; simpl; [done|].
  unfold cle in Hxy. by destruct (cmp (key x) (key y)).
Qed.

Lemma sort_by_key_idemp l : sort_by_key (sort_by_key l) = sort_by_key l.
Proof using All. apply sort_by_key_id, sort_by_key_sorted. Qed.

(** Two sorts of the same multiset list the same keys in the same order. *)
Lemma sort_by_key_keys l k : l ≡ₚ k → key <$> sort_by_key l = key <$> sort_by_key k.
Proof using All.
  intros Hlk.
  assert (∀ l', StronglySorted cle (key <$> sort_by_key l')) as Hs.
  { intros l'. pose proof (sort_by_key_sorted l') as Hl'.
    induction Hl' as [|x m Hm IH Hx]; simpl; [constructor|].
    constructor; [done|]. by apply Forall_fmap. }
  apply (StronglySorted_unique cle); [done|done|].
  by rewrite !sort_by_key_perm, Hlk.
Qed.
End SortByKey.

#[export] Hint Resolve sort_by_key_sorted : core.

(** [slice::sort_unstable] on a totally ordered element type. *)
Definition sort_unstable `{Cmp A} (l : list A) : list A := sort_by_key id l.

(** [Vec::dedup]: drop each element equal to its predecessor. *)
Fixpoint dedup `{EqDecision A} (l : list A) : list A :=
  match l with
  | [] => []
  | x :: l' =>
      match l' with
      | [] => [x]
      | y :: _ => if decide (x = y) then dedup l' else x :: dedup l'
      end
  end.

(** The canonical set order of a list: sorted, without duplicates. *)
Definition sort_dedup `{Cmp A, EqDecision A} (l : list A) : list A := dedup (sort_unstable l).

Section SortDedup.
Context {A : Type} `{TotalCmp A, EqDecision A}.
Implicit Types (x y : A) (l k : list A).

Lemma elem_of_dedup x l : x ∈ dedup l ↔ x ∈ l.
Proof using Type.
  induction l as [|y [|z l] IH]; simpl in *; [done|done|].
  case_decide; subst; rewrite ?elem_of_cons in *; naive_solver.
Qed.

Lemma elem_of_sort_dedup x l : x ∈ sort_dedup l ↔ x ∈ l.
Proof using Type.
  unfold sort_dedup, sort_unstable. by rewrite elem_of_dedup, sort_by_key_perm.
Qed.

Lemma dedup_length l : (length (dedup l) ≤ length l)%nat.
Proof using Type.
  induction l as [|y [|z l] IH]; simpl in *; [lia|lia|]. case_decide; simpl in *; lia.
Qed.

Lemma sort_dedup_len l : (len (sort_dedup l) ≤ len l)%Z.
Proof using Type.
  rewrite <- (sort_by_key_len id l). unfold len, sort_dedup, sort_unstable.
  pose proof (dedup_length (sort_by_key id l)). lia.
Qed.

Lemma dedup_strict l : StronglySorted cle l → StronglySorted clt (dedup l).
Proof using All.
  induction 1 as [|x l Hl IH Hx]; [constructor|].
  destruct l as [|y l]; [by repeat constructor|].
  simpl. case_decide as Hxy; [done|].
  constructor; [done|]. apply Forall_forall. intros z Hz.
  apply (elem_of_dedup z (y :: l)) in Hz.
  apply Forall_cons in Hx as [Hxy' Hx]. apply cle_lt_eq in Hxy' as [Hlt|?]; [|done].
  apply StronglySorted_inv in Hl as [Hl Hy].
  apply elem_of_cons in Hz as [->|Hz]; [done|].
  rewrite Forall_forall in Hy. eapply clt_cle_trans; [done|]. by apply Hy.
Qed.

Lemma sort_dedup_strict l : StronglySorted clt (sort_dedup l).
Proof using All. apply dedup_strict, (sort_by_key_sorted id). Qed.

Lemma strict_dedup l : StronglySorted clt l → dedup l = l.
Proof using All.
  induction 1 as [|x l Hl IH Hx]; [done|].
  destruct l as [|y l]; [done|]. simpl in *. rewrite IH.
  case_decide as Hxy; [|done]. subst. apply Forall_cons in Hx as [Hx _].
  by destruct (clt_irrefl y).
Qed.

Lemma strict_sorted l : StronglySorted clt l → StronglySorted cle l.
Proof using All.
  induction 1 as [|x l Hl IH Hx]; constructor; [done|].
  eapply Forall_impl; [exact Hx|]. intros y. apply clt_cle.
Qed.

Lemma strict_NoDup l : StronglySorted clt l → NoDup l.
Proof using All.
  induction 1 as [|x l Hl IH Hx]; constructor; [|done].
  intros Hin. rewrite Forall_forall in Hx. destruct (clt_irrefl x). by apply Hx.
Qed.

Lemma sort_dedup_id l : StronglySorted clt l → sort_dedup l = l.
Proof using All.
  intros Hl. unfold sort_dedup, sort_unstable.
  rewrite (sort_by_key_id id); [by apply strict_dedup|by apply strict_sorted].
Qed.

Lemma sort_dedup_idemp l : sort_dedup (sort_dedup l) = sort_dedup l.
Proof using All. apply sort_dedup_id, sort_dedup_strict. Qed.

(** The canonical order depends only on the set of elements. *)
Lemma sort_dedup_ext l k : (∀ x, x ∈ l ↔ x ∈ k) → sort_dedup l = sort_dedup k.
Proof using All.
  intros Hlk. apply (StronglySorted_unique cle).
  - apply strict_sorted, sort_dedup_strict.
  - apply strict_sorted, sort_dedup_strict.
  - apply NoDup_Permutation; [apply strict_NoDup, sort_dedup_strict..|].
    intros x. by rewrite !elem_of_sort_dedup.
Qed.
End SortDedup.

(** Sorting by a key, seen through the key. *)
Lemma fmap_sort_by_key {A K} `{TotalCmp K} (key : A → K) (l : list A) :
  key <$> sort_by_key key l = sort_unstable (key <$> l).
Proof.
  unfold sort_unstable. induction l as [|x l IH]; [done|].
  rewrite fmap_cons. simpl. fold (sort_by_key key l) (sort_by_key id (key <$> l)).
  rewrite <- IH. clear IH. induction (sort_by_key key l) as [|y k IHk]; [done|].
  rewrite fmap_cons. cbn [insert_by_key].
  change (cmp (id (key x)) (id (key y))) with (cmp (key x) (key y)).
  destruct (cmp (key x) (key y)); [reflexivity|reflexivity|].
  rewrite fmap_cons, IHk. reflexivity.
Qed.

(** Mapping a function that keeps the key commutes with sorting. *)
Lemma sort_by_key_fmap {A B K} `{Cmp K} (key : A → K) (key' : B → K) (f : A → B) (l : list A) :
  (∀ x, key' (f x) = key x) → sort_by_key key' (f <$> l) = f <$> sort_by_key key l.
Proof.
  intros Hf. induction l as [|x l IH]; [done|].
  rewrite fmap_cons. simpl. fold (sort_by_key key l) (sort_by_key key' (f <$> l)). rewrite IH. clear IH.
  induction (sort_by_key key l) as [|y k IHk]; [done|]. rewrite fmap_cons. cbn [insert_by_key].
  rewrite !Hf. destruct (cmp (key x) (key y)); [done|done|]. by rewrite IHk.
Qed.

(** A map that is injective between two lists. *)
Lemma fmap_inj_on {A B} (f : A → B) (l k : list A) :
  (∀ x y, x ∈ l → y ∈ k → f x = f y → x = y) → f <$> l = f <$> k → l = k.
Proof.
  revert k. induction l as [|x l IH]; intros [|y k] Hf Heq; try done.
  rewrite !fmap_cons in Heq. injection Heq as Hxy Heq. f_equal; [apply Hf; set_solver|].
  apply IH; [set_solver|done].
Qed.

Lemma sorted_by_key_fmap {A K} (R : relation K) (key : A → K) (l : list A) :
  StronglySorted (fun x y => R (key x) (key y)) l ↔ StronglySorted R (key <$> l).
Proof.
  induction l as [|x l IH]; [split; intros _; simpl; constructor|].
  rewrite fmap_cons. split; intros [Hl Hx]%StronglySorted_inv.
  - constructor; [by apply IH|]. by apply Forall_fmap.
  - constructor; [by apply IH|]. by apply (Forall_fmap key) in Hx.
Qed.

(** Dropping adjacent duplicates commutes with an injective map. *)
Lemma dedup_fmap {A B} `{EqDecision A, EqDecision B} (f : A → B) (l : list A) :
  (∀ x y, x ∈ l → y ∈ l → f x = f y → x = y) → dedup (f <$> l) = f <$> dedup l.
Proof.
  induction l as [|x [|y l] IH]; intros Hf; [done|done|]. rewrite !fmap_cons in *. simpl in *.
  rewrite IH by set_solver. case_decide as Hxy; case_decide as Hxy'; try done.
  - destruct Hxy'. apply Hf; set_solver.
  - subst. done.
Qed.

(** Sorting by an injective key and dropping duplicates depends on the set only. *)
Lemma dedup_sort_by_key_ext {A K} `{EqDecision A, EqDecision K} `{TotalCmp K} (key : A → K) (l k : list A) :
  (∀ x y, key x = key y → x = y) → (∀ x, x ∈ l ↔ x ∈ k) →
  dedup (sort_by_key key l) = dedup (sort_by_key key k).
Proof.
  intros Hinj Hlk. apply (fmap_inj_on key); [auto|].
  rewrite <- !dedup_fmap by auto. rewrite !fmap_sort_by_key. apply sort_dedup_ext. intros x.
  rewrite !list_elem_of_fmap. by setoid_rewrite Hlk.
Qed.

(** ** Boolean filters and insert loops *)

Lemma elem_of_filter_bool {A} (f : A → bool) (l : list A) x : x ∈ List.filter f l ↔ f x = true ∧ x ∈ l.
Proof. rewrite list_elem_of_In, filter_In, <- list_elem_of_In. naive_solver. Qed.

Lemma filter_bool_le {A} (f g : A → bool) (l : list A) :
  (∀ x, x ∈ l → g x = true → f x = true) → (length (List.filter g l) ≤ length (List.filter f l))%nat.
Proof.
  induction l as [|x l IH]; intros Hfg; [done|]. simpl.
  specialize (IH ltac:(intros y Hy; apply Hfg; by right)). pose proof (Hfg x (list_elem_of_here x l)).
  destruct (g x), (f x); simpl; try lia; naive_solver.
Qed.

Lemma filter_bool_lt {A} (f g : A → bool) (l : list A) x :
  (∀ y, y ∈ l → g y = true → f y = true) → x ∈ l → f x = true → g x = false →
  (length (List.filter g l) < length (List.filter f l))%nat.
Proof.
  induction l as [|y l IH]; intros Hfg Hx Hf Hg; [by apply not_elem_of_nil in Hx|]. simpl.
  pose proof (filter_bool_le f g l ltac:(intros z Hz; apply Hfg; by right)).
  apply elem_of_cons in Hx as [->|Hx].
  - rewrite Hf, Hg. simpl. lia.
  - specialize (IH ltac:(intros z Hz; apply Hfg; by right) Hx Hf Hg).
    pose proof (Hfg y (list_elem_of_here y l)). destruct (g y), (f y); simpl; try lia; naive_solver.
Qed.

Lemma filter_bool_ext {A} (f g : A → bool) (l : list A) :
  (∀ x, x ∈ l → f x = g x) → List.filter f l = List.filter g l.
Proof.
  induction l as [|x l IH]; intros Hfg; [done|]. simpl. rewrite (Hfg x) by (by left).
  rewrite IH by (intros y Hy; apply Hfg; by right). done.
Qed.

Lemma filter_bool_perm {A} (f : A → bool) (l k : list A) : l ≡ₚ k → List.filter f l ≡ₚ List.filter f k.
Proof.
  induction 1 as [|x l k _ IH|x y l|l k m _ IH1 _ IH2]; simpl; [done| | |by etrans].
  - destruct (f x); by rewrite IH.
  - destruct (f x), (f y); try done. apply Permutation_swap.
Qed.

Section InsertLoop.
Context {A K V : Type} `{Countable K} (key : A → K) (val : A → V).

Definition insert_all (m : gmap K V) (l : list A) : gmap K V := foldl (fun m x => <[key x := val x]> m) m l.

Lemma insert_all_notin m l k : k ∉ key <$> l → insert_all m l !! k = m !! k.
Proof using Type.
  unfold insert_all. revert m. induction l as [|x l IH]; intros m; [done|]. rewrite fmap_cons, not_elem_of_cons.
  intros [Hx Hl]. simpl. rewrite IH by done. by rewrite lookup_insert_ne.
Qed.

Lemma insert_all_in m l x : NoDup (key <$> l) → x ∈ l → insert_all m l !! key x = Some (val x).
Proof using Type.
  unfold insert_all. revert m. induction l as [|y l IH]; intros m; [by intros _ ?%not_elem_of_nil|].
  rewrite fmap_cons. intros [Hy Hnd]%NoDup_cons [->|Hx]%elem_of_cons; simpl.
  - fold (insert_all (<[key y := val y]> m) l). rewrite insert_all_notin by done. apply lookup_insert_eq.
  - by apply IH.
Qed.

Lemma insert_all_dom m l k : is_Some (insert_all m l !! k) ↔ is_Some (m !! k) ∨ k ∈ key <$> l.
Proof using Type.
  unfold insert_all. revert m. induction l as [|x l IH]; intros m; simpl.
  { split; [by left|]. by intros [?|?%not_elem_of_nil]. }
  rewrite IH, elem_of_cons. destruct (decide (key x = k)) as [->|Hne].
  - rewrite lookup_insert_eq. split; [auto|]. intros _. left. by eexists.
  - rewrite lookup_insert_ne by done. naive_solver.
Qed.

(** With distinct keys the order of the inserts does not matter. *)
Lemma insert_all_perm m l l' : NoDup (key <$> l) → l ≡ₚ l' → insert_all m l = insert_all m l'.
Proof using Type.
  intros Hnd Hp. apply map_eq. intros k. destruct (decide (k ∈ key <$> l)) as [Hk|Hk].
  - apply list_elem_of_fmap in Hk as (x & -> & Hx). rewrite !insert_all_in; try done.
    + by rewrite <- Hp.
    + by rewrite <- Hp.
  - rewrite !insert_all_notin; try done. by rewrite <- Hp.
Qed.
End InsertLoop.

Lemma StronglySorted_weaken {A} (R S : relation A) (l : list A) :
  (∀ x y, R x y → S x y) → StronglySorted R l → StronglySorted S l.
Proof. intros HRS. induction 1; constructor; [done|]. eapply Forall_impl; [done|]. simpl. auto. Qed.

Lemma omap_Forall2 {A B C} (f : A → option C) (g : B → option C) (l : list A) (k : list B) :
  Forall2 (fun a b => f a = g b) l k → omap f l = omap g k.
Proof. induction 1 as [|a b l k Hab _ IH]; [done|]. simpl. rewrite Hab. destruct (g b); [f_equal|]; exact IH. Qed.

(** What a partial map returns of distinct keys has distinct keys. *)
Lemma NoDup_omap_key {A B K} (key : A → K) (key' : B → K) (f : A → option B) (l : list A) :
  (∀ a b, f a = Some b → key' b = key a) → NoDup (key <$> l) → NoDup (key' <$> omap f l).
Proof.
  intros Hf. induction l as [|a l IH]; intros Hnd; [constructor|]. rewrite fmap_cons in Hnd.
  apply NoDup_cons in Hnd as [Hni Hnd]. simpl. destruct (f a) as [b|] eqn:Hb; [|by apply IH].
  rewrite fmap_cons. constructor; [|by apply IH]. rewrite (Hf _ _ Hb).
  intros (b' & Heq & (a' & Ha' & Hb')%list_elem_of_omap)%list_elem_of_fmap. apply Hni. rewrite Heq, (Hf _ _ Hb').
  by apply list_elem_of_fmap_2.
Qed.

(** With distinct keys, equal keys are equal elements. *)
Lemma NoDup_fmap_inj {A B} (f : A → B) (l : list A) x y :
  NoDup (f <$> l) → x ∈ l → y ∈ l → f x = f y → x = y.
Proof.
  induction l as [|z l IH]; [by intros _ ?%not_elem_of_nil|]. rewrite fmap_cons.
  intros [Hz Hnd]%NoDup_cons [->|Hx]%elem_of_cons [->|Hy]%elem_of_cons Heq; [done|..|auto].
  - destruct Hz. rewrite Heq. by apply list_elem_of_fmap_2.
  - destruct Hz. rewrite <- Heq. by apply list_elem_of_fmap_2.
Qed.
