(* ===== verification/Cbor.v ===== *)
(** * Canonical CBOR ([crates/rag-rat-oplog/src/cbor.rs])

    The canonical-CBOR gate every op-log wire object passes through, over a cursor:
    the pair [(bytes, pos)] of the source is the suffix [bytes[pos..]], so advancing
    [pos] drops a prefix, the bounds test [end <= bytes.len()] compares with the length
    of the suffix, and [bytes[start..pos]] is the dropped prefix.  [usize] is 64 bits.
    [require_canonical_cbor] is proved to accept exactly the canonical serializations
    of the RFC 8949 data items of bounded nesting, and serialization to be injective.  As in the
    code, the two-byte simple values 24 to 31, which RFC 8949 reserves, count among the items
    ([reserved_simple_values_pass]). *)

From S2P Require Import Prelude.

Local Open Scope Z_scope.

(** ** Errors

    [CborError::message] of a literal, the formatted messages with their arguments,
    and an error raised inside the [minicbor] decoder. *)

Inductive CborError : Type :=
| Message (m : string)
| ExpectedArray (want got : Z)
| FixedBytes (field : string) (want got : Z)
| UnknownDomain (got want : bytes)
| OverLimit (what : string) (count : Z)
| NotIncreasing (what : string)
| LibraryError.

(** ** [str::from_utf8] *)

Definition in_range (lo hi : Z) (b : byte) : bool := bool_decide (lo ≤ b2z b ≤ hi).
Definition cont : byte → bool := in_range 0x80 0xBF.

(** The well-formed byte sequences of the Unicode standard (table 3-7). *)
Fixpoint utf8_valid (bs : bytes) : bool :=
  match bs with
  | [] => true
  | b0 :: r0 =>
      if in_range 0 0x7F b0 then utf8_valid r0 else
      match r0 with
      | [] => false
      | b1 :: r1 =>
          if in_range 0xC2 0xDF b0 then cont b1 && utf8_valid r1 else
          match r1 with
          | [] => false
          | b2 :: r2 =>
              if in_range 0xE0 0xE0 b0 then in_range 0xA0 0xBF b1 && cont b2 && utf8_valid r2 else
              if in_range 0xE1 0xEC b0 then cont b1 && cont b2 && utf8_valid r2 else
              if in_range 0xED 0xED b0 then in_range 0x80 0x9F b1 && cont b2 && utf8_valid r2 else
              if in_range 0xEE 0xEF b0 then cont b1 && cont b2 && utf8_valid r2 else
              match r2 with
              | [] => false
              | b3 :: r3 =>
                  if in_range 0xF0 0xF0 b0
                  then in_range 0x90 0xBF b1 && cont b2 && cont b3 && utf8_valid r3 else
                  if in_range 0xF1 0xF3 b0
                  then cont b1 && cont b2 && cont b3 && utf8_valid r3 else
                  if in_range 0xF4 0xF4 b0
                  then in_range 0x80 0x8F b1 && cont b2 && cont b3 && utf8_valid r3
                  else false
              end
          end
      end
  end.

(** ** [for _ in 0..n]

    The body runs [n] times, the first error ends the loop; binary recursion on the
    count keeps a hostile 64-bit count executable. *)

Fixpoint pos_for {S E} (n : positive) (body : S → result E S) (s : S) : result E S :=
  match n with
  | xH => body s
  | xO p => pos_for p body s ≫= pos_for p body
  | xI p => (body s ≫= pos_for p body) ≫= pos_for p body
  end.

Definition for_range {S E} (n : Z) (body : S → result E S) (s : S) : result E S :=
  match n with Zpos p => pos_for p body s | _ => Ok s end.

(** ** The header reader *)

Definition require (condition : bool) (message : string) : result CborError unit :=
  if condition then Ok tt else Err (Message message).

Definition read_u8 (bs : bytes) : result CborError (byte * bytes) :=
  match bs with
  | b :: rest => Ok (b, rest)
  | [] => Err (Message "unexpected end of CBOR")
  end.

(** The [fold] of [read_be], in [u64]: [(acc << 8) | byte]. *)
Definition be_fold (bs : bytes) : Z :=
  foldl (fun acc b => Z.lor (Z.land (Z.shiftl acc 8) u64_max) (b2z b)) 0 bs.

Definition read_be (bs : bytes) (n : nat) : result CborError (Z * bytes) :=
  if bool_decide (Z.of_nat n ≤ len bs)
  then Ok (be_fold (take n bs), drop n bs)
  else Err (Message "unexpected end of CBOR").

Definition float_message : string := "float is non-canonical (integer-only wire format)".

Definition read_canonical_header (bs : bytes) : result CborError ((Z * Z) * bytes) :=
  '(first, rest) ← read_u8 bs;
  let major := Z.shiftr (b2z first) 5 in
  let info := Z.land (b2z first) 0x1f in
  '(arg, rest) ←
    (if bool_decide (info ≤ 23) then Ok (info, rest)
     else if bool_decide (info = 24) then
       '(b, rest) ← read_u8 rest;
       let v := b2z b in
       _ ← require (bool_decide (24 ≤ v)) "non-minimal 1-byte CBOR argument";
       Ok (v, rest)
     else if bool_decide (info = 25) then
       _ ← require (bool_decide (major ≠ 7)) float_message;
       '(v, rest) ← read_be rest 2;
       _ ← require (bool_decide (u8_max < v)) "non-minimal 2-byte CBOR argument";
       Ok (v, rest)
     else if bool_decide (info = 26) then
       _ ← require (bool_decide (major ≠ 7)) float_message;
       '(v, rest) ← read_be rest 4;
       _ ← require (bool_decide (u16_max < v)) "non-minimal 4-byte CBOR argument";
       Ok (v, rest)
     else if bool_decide (info = 27) then
       _ ← require (bool_decide (major ≠ 7)) float_message;
       '(v, rest) ← read_be rest 8;
       _ ← require (bool_decide (u32_max < v)) "non-minimal 8-byte CBOR argument";
       Ok (v, rest)
     else Err (Message "reserved or indefinite CBOR length"));
  Ok ((major, arg), rest).

Definition advance_string (bs : bytes) (arg : Z) : result CborError bytes :=
  if bool_decide (arg ≤ len bs) then Ok (drop (Z.to_nat arg) bs)
  else Err (Message "CBOR string runs past end").

(** The bytes between two cursors of one buffer, [bytes[start..pos]]. *)
Definition consumed (before after : bytes) : bytes :=
  take (length before - length after) before.

(** ** The validator *)

Definition MAX_CBOR_DEPTH : nat := 32.

(** [budget] is [MAX_CBOR_DEPTH + 1 - depth]: the source's test
    [depth > MAX_CBOR_DEPTH] is [budget = 0], and [depth + 1] is its predecessor. *)
Fixpoint check_canonical_item (budget : nat) (bs : bytes) : result CborError bytes :=
  match budget with
  | O => Err (Message "CBOR nesting too deep")
  | S budget =>
      '((major, arg), rest) ← read_canonical_header bs;
      match major with
      | 0 | 1 => Ok rest
      | 2 => advance_string rest arg
      | 3 =>
          after ← advance_string rest arg;
          if utf8_valid (consumed rest after) then Ok after
          else Err (Message "invalid UTF-8 in CBOR text string")
      | 4 => for_range arg (check_canonical_item budget) rest
      | 5 =>
          '(after, _) ← for_range arg
            (fun '(rest, prev_key) =>
               after_key ← check_canonical_item budget rest;
               let key := consumed rest after_key in
               if match prev_key with Some prev => bool_decide (cle key prev) | None => false end
               then Err (Message "map keys not sorted or duplicated")
               else
                 after_value ← check_canonical_item budget after_key;
                 Ok (after_value, Some key))
            (rest, None);
          Ok after
      | 6 => check_canonical_item budget rest
      | 7 => Ok rest
      | _ => Err (Message "invalid CBOR major type")
      end
  end.

Definition require_canonical_cbor (bs : bytes) : result CborError unit :=
  rest ← check_canonical_item (S MAX_CBOR_DEPTH) bs;
  match rest with
  | [] => Ok tt
  | _ => Err (Message "trailing bytes after canonical CBOR item")
  end.

(** [fixed_bytes::<N>]: a slice of exactly [n] bytes. *)
Definition fixed_bytes (n : nat) (bs : bytes) (field : string) : result CborError bytes :=
  if bool_decide (length bs = n) then Ok bs
  else Err (FixedBytes field (Z.of_nat n) (len bs)).

(** ** RFC 8949 data items and their canonical serialization *)

(** Big-endian [k]-byte form of [n]. *)
Fixpoint be_bytes (k : nat) (n : Z) : bytes :=
  match k with
  | O => []
  | S k => be_bytes k (n / 256) ++ [z2b n]
  end.

(** The preferred (shortest) header of major type [major] and argument [n]. *)
Definition head (major n : Z) : bytes :=
  if bool_decide (n < 24) then [z2b (major * 32 + n)]
  else if bool_decide (n ≤ u8_max) then z2b (major * 32 + 24) :: be_bytes 1 n
  else if bool_decide (n ≤ u16_max) then z2b (major * 32 + 25) :: be_bytes 2 n
  else if bool_decide (n ≤ u32_max) then z2b (major * 32 + 26) :: be_bytes 4 n
  else z2b (major * 32 + 27) :: be_bytes 8 n.

#[global] Arguments head : simpl never.

Inductive item : Type :=
| Uint (n : Z)
| Nint (n : Z)
| ByteString (b : bytes)
| TextString (b : bytes)
| Array (l : list item)
| MapOf (l : list (item * item))
| Tag (n : Z) (i : item)
| Simple (n : Z).

Fixpoint ser (i : item) : bytes :=
  match i with
  | Uint n => head 0 n
  | Nint n => head 1 n
  | ByteString b => head 2 (len b) ++ b
  | TextString b => head 3 (len b) ++ b
  | Array l => head 4 (len l) ++ mjoin (ser <$> l)
  | MapOf l => head 5 (len l) ++ mjoin ((fun kv => ser kv.1 ++ ser kv.2) <$> l)
  | Tag n i => head 6 n ++ ser i
  | Simple n => head 7 n
  end.

(** Arguments fit 64 bits, text is UTF-8, map keys ascend strictly in byte order, a
    simple value has one byte (RFC 8949 reserves 24 to 31 of them). *)
Inductive item_wf : item → Prop :=
| wf_uint n : 0 ≤ n ≤ u64_max → item_wf (Uint n)
| wf_nint n : 0 ≤ n ≤ u64_max → item_wf (Nint n)
| wf_bytes b : len b ≤ u64_max → item_wf (ByteString b)
| wf_text b : len b ≤ u64_max → utf8_valid b = true → item_wf (TextString b)
| wf_array l : len l ≤ u64_max → Forall item_wf l → item_wf (Array l)
| wf_map l :
    len l ≤ u64_max →
    Forall (fun kv => item_wf kv.1 ∧ item_wf kv.2) l →
    StronglySorted (fun a b => clt (ser a.1) (ser b.1)) l →
    item_wf (MapOf l)
| wf_tag n i : 0 ≤ n ≤ u64_max → item_wf i → item_wf (Tag n i)
| wf_simple n : 0 ≤ n ≤ u8_max → item_wf (Simple n).

(** Nesting levels; a leaf has one. *)
Fixpoint height (i : item) : nat :=
  match i with
  | Array l => S (max_list (height <$> l))
  | MapOf l => S (max_list ((fun kv => Nat.max (height kv.1) (height kv.2)) <$> l))
  | Tag _ i => S (height i)
  | _ => 1
  end.

(** ** Loops *)

Fixpoint nat_for {S E} (n : nat) (body : S → result E S) (s : S) : result E S :=
  match n with
  | O => Ok s
  | Datatypes.S n => body s ≫= nat_for n body
  end.

Lemma nat_for_add {S E} (n m : nat) (body : S → result E S) (s : S) :
  nat_for (n + m) body s = nat_for n body s ≫= nat_for m body.
Proof.
  revert s. induction n as [|n IH]; intros s; simpl; [done|].
  destruct (body s); simpl; [apply IH|done].
Qed.

Lemma pos_for_nat {S E} (p : positive) (body : S → result E S) (s : S) :
  pos_for p body s = nat_for (Pos.to_nat p) body s.
Proof.
  revert s. induction p as [p IH|p IH|]; intros s; cbn [pos_for].
  - rewrite Pos2Nat.inj_xI. simpl. destruct (body s) as [s'|e]; simpl; [|done].
    rewrite Nat.add_0_r, nat_for_add, IH.
    destruct (nat_for (Pos.to_nat p) body s'); simpl; [apply IH|done].
  - rewrite Pos2Nat.inj_xO. simpl. rewrite Nat.add_0_r, nat_for_add, IH.
    destruct (nat_for (Pos.to_nat p) body s); simpl; [apply IH|done].
  - change (Pos.to_nat 1) with 1%nat. simpl. by destruct (body s).
Qed.

Lemma for_range_nat {S E} (n : Z) (body : S → result E S) (s : S) :
  for_range n body s = nat_for (Z.to_nat n) body s.
Proof. destruct n as [|p|p]; [done|apply pos_for_nat|done]. Qed.

Lemma for_range_succ {S E} (n : Z) (body : S → result E S) (s : S) :
  0 ≤ n → for_range (1 + n) body s = body s ≫= for_range n body.
Proof.
  intros Hn. rewrite for_range_nat. replace (Z.to_nat (1 + n)) with (Datatypes.S (Z.to_nat n)) by lia.
  simpl. destruct (body s); simpl; [|done]. by rewrite for_range_nat.
Qed.

(** Induction over a loop that ended normally: one step per iteration. *)
Lemma for_range_ind {S E} (body : S → result E S) (P : nat → S → S → Prop) :
  (∀ s, P 0%nat s s) →
  (∀ n s s1 s2, body s = Ok s1 → P n s1 s2 → P (Datatypes.S n) s s2) →
  ∀ n s s', 0 ≤ n → for_range n body s = Ok s' → P (Z.to_nat n) s s'.
Proof.
  intros H0 HS n s s' Hn. rewrite for_range_nat. revert s.
  induction (Z.to_nat n) as [|k IH]; intros s; simpl.
  - intros [= <-]. apply H0.
  - intros H. inv_ok. eauto.
Qed.

(** ** Headers *)

Lemma length_be_bytes k n : length (be_bytes k n) = k.
Proof. revert n. induction k as [|k IH]; intros n; simpl; [done|]. rewrite length_app, IH. simpl. lia. Qed.

Definition be_value (bs : bytes) : Z := foldl (fun acc b => acc * 256 + b2z b) 0 bs.

Lemma be_value_snoc bs b : be_value (bs ++ [b]) = be_value bs * 256 + b2z b.
Proof. unfold be_value. by rewrite foldl_app. Qed.

Lemma be_value_bound bs : 0 ≤ be_value bs < 256 ^ len bs.
Proof.
  induction bs as [|b bs IH] using rev_ind; [done|].
  rewrite be_value_snoc, len_app. pose proof (b2z_range b). pose proof (len_nonneg bs).
  change (len [b]) with 1. rewrite Z.pow_add_r by lia. lia.
Qed.

Lemma be_fold_value bs : len bs ≤ 8 → be_fold bs = be_value bs.
Proof.
  induction bs as [|b bs IH] using rev_ind; [done|].
  rewrite len_app. change (len [b]) with 1. intros Hlen.
  rewrite be_value_snoc. unfold be_fold in *. rewrite foldl_app. simpl.
  rewrite IH by lia. pose proof (be_value_bound bs) as Hb. pose proof (b2z_range b).
  assert (be_value bs < 256 ^ 7) as Hb'.
  { eapply Z.lt_le_trans; [apply Hb|]. apply Z.pow_le_mono_r; lia. }
  rewrite Z.shiftl_mul_pow2 by lia.
  change u64_max with (Z.ones 64). rewrite Z.land_ones by lia.
  rewrite Z.mod_small by lia.
  assert (Z.land (be_value bs * 2 ^ 8) (b2z b) = 0) as Hdisj.
  { apply Z.bits_inj'. intros i Hi. rewrite Z.land_spec, Z.bits_0.
    destruct (Z.lt_ge_cases i 8).
    - by rewrite Z.mul_pow2_bits_low.
    - rewrite (Z.bits_above_log2 (b2z b)), andb_false_r; [done|lia|].
      destruct (Z.eq_dec (b2z b) 0) as [->|]; [simpl; lia|].
      apply Z.log2_lt_pow2; [lia|]. apply Z.lt_le_trans with (2 ^ 8); [lia|].
      apply Z.pow_le_mono_r; lia. }
  rewrite <- Z.lxor_lor by done. rewrite <- Z.add_nocarry_lxor by done. lia.
Qed.

Lemma be_value_be_bytes k n : 0 ≤ n < 256 ^ Z.of_nat k → be_value (be_bytes k n) = n.
Proof.
  revert n. induction k as [|k IH]; intros n Hn; simpl.
  - change (256 ^ Z.of_nat 0) with 1 in Hn. unfold be_value. simpl. lia.
  - rewrite be_value_snoc, b2z_z2b, IH; [pose proof (Z.div_mod n 256); lia|].
    replace (Z.of_nat (S k)) with (Z.of_nat k + 1) in Hn by lia.
    rewrite Z.pow_add_r in Hn by lia. split; [apply Z.div_pos; lia|].
    apply Z.div_lt_upper_bound; lia.
Qed.

Lemma be_bytes_be_value bs : be_bytes (length bs) (be_value bs) = bs.
Proof.
  induction bs as [|b bs IH] using rev_ind; [done|].
  rewrite length_app, Nat.add_comm. simpl. rewrite be_value_snoc.
  pose proof (b2z_range b) as Hb.
  replace ((be_value bs * 256 + b2z b) / 256) with (be_value bs).
  2: { rewrite Z.div_add_l, Z.div_small by lia. lia. }
  rewrite IH. f_equal. f_equal.
  rewrite <- (z2b_b2z b) at 2. unfold z2b. f_equal. f_equal. f_equal.
  rewrite Z.add_comm, Z.mod_add by lia. done.
Qed.

(** The first byte packs the major type and the additional information. *)
Lemma first_byte b :
  0 ≤ Z.shiftr (b2z b) 5 < 8 ∧ 0 ≤ Z.land (b2z b) 0x1f < 32 ∧
  b = z2b (Z.shiftr (b2z b) 5 * 32 + Z.land (b2z b) 0x1f).
Proof.
  pose proof (b2z_range b) as Hb.
  rewrite Z.shiftr_div_pow2 by lia. change 0x1f with (Z.ones 5). rewrite Z.land_ones by lia.
  change (2 ^ 5) with 32.
  pose proof (Z.div_mod (b2z b) 32 ltac:(lia)). pose proof (Z.mod_pos_bound (b2z b) 32 ltac:(lia)).
  split; [split; [apply Z.div_pos; lia|apply Z.div_lt_upper_bound; lia]|].
  split; [lia|]. rewrite Z.mul_comm, <- Z.div_mod by lia. by rewrite z2b_b2z.
Qed.

Lemma first_byte_fields m i :
  0 ≤ m < 8 → 0 ≤ i < 32 →
  Z.shiftr (b2z (z2b (m * 32 + i))) 5 = m ∧ Z.land (b2z (z2b (m * 32 + i))) 0x1f = i.
Proof.
  intros Hm Hi. rewrite b2z_z2b, (Z.mod_small _ 256) by lia.
  rewrite Z.shiftr_div_pow2 by lia. change 0x1f with (Z.ones 5). rewrite Z.land_ones by lia.
  change (2 ^ 5) with 32. rewrite Z.div_add_l, Z.div_small by lia.
  rewrite (Z.add_comm (m * 32)), Z.mod_add, Z.mod_small by lia. lia.
Qed.

Lemma read_be_Ok bs n v rest :
  (n ≤ 8)%nat →
  read_be bs n = Ok (v, rest) ↔ 0 ≤ v < 256 ^ Z.of_nat n ∧ bs = be_bytes n v ++ rest.
Proof.
  intros Hn. unfold read_be. case_bool_decide as Hlen.
  - assert (length (take n bs) = n) as Hl by (rewrite length_take; unfold len in Hlen; lia).
    rewrite be_fold_value by (unfold len; lia). split.
    + intros [= <- <-].
      pose proof (be_value_bound (take n bs)) as Hv. unfold len in Hv. rewrite Hl in Hv.
      split; [done|]. rewrite <- Hl at 1. by rewrite be_bytes_be_value, take_drop.
    + intros [Hv ->]. rewrite take_app_length', drop_app_length' by (by rewrite length_be_bytes).
      by rewrite be_value_be_bytes.
  - split; [done|]. intros [_ ->]. exfalso. apply Hlen.
    rewrite len_app. pose proof (len_nonneg rest). unfold len at 1. rewrite length_be_bytes. lia.
Qed.

Lemma read_u8_Ok bs b rest : read_u8 bs = Ok (b, rest) ↔ bs = b :: rest.
Proof. destruct bs; naive_solver. Qed.

Lemma require_Ok c m u : require c m = Ok u ↔ c = true.
Proof. unfold require. destruct c, u; naive_solver. Qed.

(** The header a canonical item starts with: a major type and an argument, the
    argument of a simple value being one byte. *)
Definition header_ok (m n : Z) : Prop := 0 ≤ m < 8 ∧ 0 ≤ n ≤ u64_max ∧ (m = 7 → n ≤ u8_max).

Lemma be_bytes_1 n : be_bytes 1 n = [z2b n].
Proof. done. Qed.

Local Opaque be_bytes.

Lemma read_head m n rest :
  header_ok m n → read_canonical_header (head m n ++ rest) = Ok ((m, n), rest).
Proof.
  intros (Hm & Hn & H7). unfold head, read_canonical_header.
  unfold u8_max, u16_max, u32_max, u64_max in *.
  repeat case_bool_decide; simpl;
    match goal with |- context [z2b (m * 32 + ?i)] =>
      destruct (first_byte_fields m i) as [-> ->]; [lia|lia|] end;
    repeat (rewrite ?bool_decide_true by lia; rewrite ?bool_decide_false by lia; simpl).
  - done.
  - rewrite be_bytes_1. simpl.
    pose proof (b2z_z2b n) as Hz. rewrite Z.mod_small in Hz by lia. rewrite Hz.
    rewrite bool_decide_true by lia. done.
  - rewrite (proj2 (read_be_Ok (be_bytes 2 n ++ rest) 2 n rest ltac:(lia))) by (split; [lia|done]).
    simpl. rewrite bool_decide_true by (unfold u8_max; lia). done.
  - rewrite (proj2 (read_be_Ok (be_bytes 4 n ++ rest) 4 n rest ltac:(lia))) by (split; [lia|done]).
    simpl. rewrite bool_decide_true by (unfold u16_max; lia). done.
  - rewrite (proj2 (read_be_Ok (be_bytes 8 n ++ rest) 8 n rest ltac:(lia))) by (split; [lia|done]).
    simpl. rewrite bool_decide_true by (unfold u32_max; lia). done.
Qed.

Lemma head_read bs m n rest :
  read_canonical_header bs = Ok ((m, n), rest) → header_ok m n ∧ bs = head m n ++ rest.
Proof.
  unfold read_canonical_header. intros H. inv_ok.
  match goal with H : read_u8 bs = _ |- _ => apply read_u8_Ok in H as -> end.
  match goal with |- context [Z.shiftr (b2z ?b) 5] => destruct (first_byte b) as (Hm & Hi & Hb);
    set (m := Z.shiftr (b2z b) 5) in *; set (i := Z.land (b2z b) 0x1f) in *; clearbody m i end.
  rewrite Hb. unfold header_ok, head, u64_max.
  repeat case_bool_decide; inv_ok;
    repeat match goal with
    | H : require _ _ = Ok _ |- _ => apply require_Ok, bool_decide_eq_true in H
    | H : read_be _ ?k = Ok _ |- _ => apply (read_be_Ok _ k) in H as [H ->]; [|lia]
    | H : read_u8 _ = Ok _ |- _ => apply read_u8_Ok in H as ->
    | H : i = _ |- _ => rewrite H
    | b : byte |- _ => lazymatch goal with
        _ : 0 ≤ b2z b < 256 |- _ => fail | _ => pose proof (b2z_range b) end
    end;
    unfold u8_max, u16_max, u32_max in *; try lia.
  all: split_and!; try lia; try done.
  rewrite be_bytes_1, z2b_b2z. done.
Qed.

(** ** The validator accepts exactly the serialized well-formed items *)

Lemma consumed_app (a b : bytes) : consumed (a ++ b) b = a.
Proof. unfold consumed. rewrite length_app, Nat.add_sub. by apply take_app_length'. Qed.

Lemma max_list_le (l : list nat) (b : nat) : (max_list l ≤ b)%nat ↔ Forall (fun n => n ≤ b)%nat l.
Proof. induction l as [|n l IH]; simpl; [split; [by constructor|lia]|]. rewrite Forall_cons, <- IH. lia. Qed.

Lemma header_ok_len {A} m (l : list A) : 0 ≤ m < 7 → len l ≤ u64_max → header_ok m (len l).
Proof. intros ??. pose proof (len_nonneg l). unfold header_ok. lia. Qed.

Lemma header_ok_arg m n : 0 ≤ m < 7 → 0 ≤ n ≤ u64_max → header_ok m n.
Proof. unfold header_ok. lia. Qed.

Lemma advance_string_Ok bs n rest :
  0 ≤ n → advance_string bs n = Ok rest ↔ ∃ s, len s = n ∧ bs = s ++ rest.
Proof.
  intros Hn. unfold advance_string. case_bool_decide as Hlen.
  - split.
    + intros [= <-]. exists (take (Z.to_nat n) bs). rewrite take_drop. split; [|done].
      unfold len in *. rewrite length_take. lia.
    + intros (s & <- & ->). by rewrite drop_app_length' by (unfold len; lia).
  - split; [done|]. intros (s & <- & ->). rewrite len_app in Hlen.
    pose proof (len_nonneg rest). lia.
Qed.

(** One key/value pair of a map. *)
Definition ser_pair (kv : item * item) : bytes := ser kv.1 ++ ser kv.2.

Definition map_step (budget : nat) : bytes * option bytes → result CborError (bytes * option bytes) :=
  fun '(rest, prev_key) =>
    after_key ← check_canonical_item budget rest;
    let key := consumed rest after_key in
    if match prev_key with Some prev => bool_decide (cle key prev) | None => false end
    then Err (Message "map keys not sorted or duplicated")
    else
      after_value ← check_canonical_item budget after_key;
      Ok (after_value, Some key).

Section Soundness.
Context (b : nat).
Definition sound_at : Prop :=
  ∀ bs rest, check_canonical_item b bs = Ok rest →
    ∃ i, item_wf i ∧ (height i ≤ b)%nat ∧ bs = ser i ++ rest.
Context (IH : sound_at).

Lemma check_array_sound n s s' :
  0 ≤ n → for_range n (check_canonical_item b) s = Ok s' →
  ∃ l, len l = n ∧ Forall (fun i => item_wf i ∧ (height i ≤ b)%nat) l ∧
       s = mjoin (ser <$> l) ++ s'.
Proof using IH.
  intros Hn H. apply (for_range_ind _ (fun k s s' => ∃ l, length l = k ∧
    Forall (fun i => item_wf i ∧ (height i ≤ b)%nat) l ∧ s = mjoin (ser <$> l) ++ s')) in H
    as (l & Hl & Hwf & Hs); [|by exists []| |done].
  - exists l. split_and!; [unfold len; lia|done|done].
  - intros k s0 s1 s2 Hstep (l & Hl & Hwf & ->).
    apply IH in Hstep as (i & Hi & Hh & ->). exists (i :: l).
    simpl. rewrite <- app_assoc. by repeat constructor; auto.
Qed.

Lemma check_map_sound n s s' p p' :
  0 ≤ n → for_range n (map_step b) (s, p) = Ok (s', p') →
  ∃ l, len l = n ∧ Forall (fun kv => (item_wf kv.1 ∧ item_wf kv.2) ∧
                             (Nat.max (height kv.1) (height kv.2) ≤ b)%nat) l ∧
       StronglySorted (fun x y => clt (ser x.1) (ser y.1)) l ∧
       s = mjoin (ser_pair <$> l) ++ s'.
Proof using IH.
  intros Hn H.
  apply (for_range_ind _ (fun k sp sp' => ∃ l, length l = k ∧
    Forall (fun kv => (item_wf kv.1 ∧ item_wf kv.2) ∧
      (Nat.max (height kv.1) (height kv.2) ≤ b)%nat) l ∧
    StronglySorted (fun x y => clt (ser x.1) (ser y.1)) l ∧
    Forall (fun kv => ∀ prev, sp.2 = Some prev → clt prev (ser kv.1)) l ∧
    sp.1 = mjoin (ser_pair <$> l) ++ sp'.1)) in H
    as (l & Hl & Hwf & Hsort & _ & Hs); [| | |done].
  - exists l. split_and!; [unfold len; lia|done|done|done].
  - intros sp. exists []. split_and!; constructor.
  - intros k [s0 p0] [s1 p1] [s2 p2] Hstep (l & Hl & Hwf & Hsort & Hprev & Hs1).
    simpl in *. inv_ok.
    match goal with H : check_canonical_item _ s0 = _ |- _ => apply IH in H as (ik & ? & ? & ->) end.
    rewrite consumed_app in Hstep.
    destruct (match p0 with Some prev => bool_decide (cle (ser ik) prev) | None => false end) eqn:Hlt;
      [done|]. inv_ok.
    match goal with H : check_canonical_item _ _ = _ |- _ => apply IH in H as (iv & ? & ? & ->) end.
    exists ((ik, iv) :: l). split_and!; simpl.
    + by f_equal.
    + constructor; [|done]. simpl. split; [done|lia].
    + constructor; [done|]. eapply Forall_impl; [exact Hprev|]. simpl. auto.
    + constructor.
      * intros prev ->. apply not_cle_clt. by apply bool_decide_eq_false in Hlt.
      * eapply Forall_impl; [exact Hprev|]. simpl. intros kv Hkv prev ->.
        transitivity (ser ik); [|by apply Hkv].
        apply not_cle_clt. by apply bool_decide_eq_false in Hlt.
    + unfold ser_pair at 2. simpl. by rewrite <- !app_assoc.
Qed.
End Soundness.

Lemma check_map_unfold b arg rest :
  ('(after, _) ← for_range arg (map_step b) (rest, None); Ok after) =
  ('(after, _) ← for_range arg
     (fun '(rest, prev_key) =>
        after_key ← check_canonical_item b rest;
        let key := consumed rest after_key in
        if match prev_key with Some prev => bool_decide (cle key prev) | None => false end
        then Err (Message "map keys not sorted or duplicated")
        else
          after_value ← check_canonical_item b after_key;
          Ok (after_value, Some key))
     (rest, None : option bytes); Ok after).
Proof. done. Qed.

Lemma check_sound b : sound_at b.
Proof.
  induction b as [|b IH]; intros bs rest H; [done|]. simpl in H. inv_ok.
  match goal with H : read_canonical_header _ = Ok ((?m, ?n), _) |- _ =>
    apply head_read in H as [(Hm & Hn & H7) ->]; rename m into major, n into arg end.
  assert (major = 0 ∨ major = 1 ∨ major = 2 ∨ major = 3 ∨ major = 4 ∨ major = 5 ∨ major = 6 ∨
          major = 7) as Hcase by lia.
  destruct Hcase as [->|[->|[->|[->|[->|[->|[->| ->]]]]]]].
  - inv_ok. exists (Uint arg). split_and!; [constructor; auto with lia|simpl; lia|done].
  - inv_ok. exists (Nint arg). split_and!; [constructor; auto with lia|simpl; lia|done].
  - apply advance_string_Ok in H as (s & <- & ->); [|lia].
    exists (ByteString s). split_and!; [constructor; auto with lia|simpl; lia|]. simpl. by rewrite <- app_assoc.
  - inv_ok. match goal with H : advance_string _ _ = _ |- _ =>
      apply advance_string_Ok in H as (s & <- & ->); [|lia] end.
    rewrite consumed_app in H. destruct (utf8_valid s) eqn:Hu; inv_ok.
    exists (TextString s). split_and!; [constructor; auto with lia|simpl; lia|]. simpl. by rewrite <- app_assoc.
  - apply (check_array_sound b IH) in H as (xs & <- & Hl & ->); [|lia].
    apply Forall_and in Hl as [Hw Hh]. exists (Array xs). split_and!; [constructor; auto with lia| |].
    + simpl. apply le_n_S, max_list_le, Forall_fmap. exact Hh.
    + simpl. by rewrite <- app_assoc.
  - rewrite <- check_map_unfold in H. inv_ok.
    match goal with H : for_range _ _ _ = _ |- _ =>
      apply (check_map_sound b IH) in H as (xs & <- & Hl & Hsort & ->); [|lia] end.
    apply Forall_and in Hl as [Hw Hh]. exists (MapOf xs). split_and!; [constructor; auto with lia| |].
    + simpl. apply le_n_S, max_list_le, Forall_fmap. exact Hh.
    + simpl. by rewrite <- app_assoc.
  - apply IH in H as (i & Hi & Hh & ->). exists (Tag arg i).
    split_and!; [constructor; auto with lia|simpl; lia|]. simpl. by rewrite <- app_assoc.
  - inv_ok. exists (Simple arg). split_and!; [constructor; lia|simpl; lia|done].
Qed.

Section Completeness.
Context (b : nat).
Definition complete_at : Prop :=
  ∀ i rest, item_wf i → (height i ≤ b)%nat → check_canonical_item b (ser i ++ rest) = Ok rest.
Context (IH : complete_at).

Lemma check_array_complete l rest :
  Forall item_wf l → Forall (fun i => height i ≤ b)%nat l →
  for_range (len l) (check_canonical_item b) (mjoin (ser <$> l) ++ rest) = Ok rest.
Proof using IH.
  intros Hw Hh. induction l as [|i l IHl]; [done|].
  apply Forall_cons in Hw as [Hi Hw], Hh as [Hhi Hh].
  rewrite len_cons, for_range_succ by apply len_nonneg. simpl. rewrite <- app_assoc, IH by done.
  simpl. by apply IHl.
Qed.

Lemma check_map_complete l prev rest :
  Forall (fun kv => item_wf kv.1 ∧ item_wf kv.2) l →
  Forall (fun kv => Nat.max (height kv.1) (height kv.2) ≤ b)%nat l →
  StronglySorted (fun x y => clt (ser x.1) (ser y.1)) l →
  match prev, l with Some p, kv :: _ => clt p (ser kv.1) | _, _ => True end →
  ∃ p', for_range (len l) (map_step b) (mjoin (ser_pair <$> l) ++ rest, prev) = Ok (rest, p').
Proof using IH.
  intros Hw Hh Hs. revert prev. induction l as [|[k v] l IHl]; intros prev Hp; [by exists prev|].
  apply Forall_cons in Hw as [[Hk Hv] Hw], Hh as [Hhi Hh]. simpl in Hk, Hv, Hhi.
  apply StronglySorted_inv in Hs as [Hs Hlt].
  rewrite len_cons, for_range_succ by apply len_nonneg. simpl.
  change (ser_pair (k, v)) with (ser k ++ ser v). rewrite <- !app_assoc.
  rewrite IH by (done || lia). simpl.
  rewrite consumed_app.
  assert (match prev with Some prev => bool_decide (cle (ser k) prev) | None => false end = false) as ->.
  { destruct prev as [p|]; [|done]. apply bool_decide_eq_false. by apply not_cle_clt. }
  rewrite IH by (done || lia). simpl. apply IHl; [done..|].
  destruct l as [|kv l]; [done|]. by apply Forall_cons in Hlt as [Hlt _].
Qed.
End Completeness.

Lemma check_complete b : complete_at b.
Proof.
  induction b as [|b IH]; intros i rest Hw Hh; [destruct i; simpl in Hh; lia|].
  destruct Hw as [n|n|s|s|l Hl Hw|l Hl Hw Hs|n i|n]; simpl in Hh |- *; rewrite <- ?app_assoc.
  1-7: rewrite read_head by (first [apply header_ok_len|apply header_ok_arg]; lia).
  8: rewrite read_head by (unfold header_ok, u8_max, u64_max in *; lia).
  all: simpl; try done.
  - apply advance_string_Ok; [apply len_nonneg|]. by exists s.
  - rewrite (proj2 (advance_string_Ok (s ++ rest) (len s) rest (len_nonneg s))) by (by exists s).
    simpl. rewrite consumed_app. by match goal with H : utf8_valid s = true |- _ => rewrite H end.
  - apply check_array_complete; [done|done|].
    apply le_S_n, max_list_le in Hh. by apply Forall_fmap in Hh.
  - apply le_S_n, max_list_le in Hh.
    destruct (check_map_complete b IH l None rest Hw) as [p Hp];
      [by apply Forall_fmap in Hh|done|done|].
    pose proof (check_map_unfold b (len l) (mjoin (ser_pair <$> l) ++ rest)) as Hm.
    rewrite Hp in Hm. symmetry in Hm. exact Hm.
  - apply IH; [done|lia].
Qed.

(** Serialization is prefix-free: no accepted encoding extends another. *)
Lemma head_inj m n m' n' r r' :
  header_ok m n → header_ok m' n' → head m n ++ r = head m' n' ++ r' → m = m' ∧ n = n' ∧ r = r'.
Proof.
  intros H H' Heq. pose proof (read_head m n r H) as Hr. rewrite Heq, read_head in Hr by done.
  naive_solver.
Qed.

Section ItemInd.
Context (P : item → Prop).
Context (Huint : ∀ n, P (Uint n)) (Hnint : ∀ n, P (Nint n)).
Context (Hbytes : ∀ b, P (ByteString b)) (Htext : ∀ b, P (TextString b)).
Context (Harray : ∀ l, Forall P l → P (Array l)).
Context (Hmap : ∀ l, Forall (fun kv => P kv.1 ∧ P kv.2) l → P (MapOf l)).
Context (Htag : ∀ n i, P i → P (Tag n i)) (Hsimple : ∀ n, P (Simple n)).

Fixpoint item_nested_ind (i : item) : P i :=
  match i with
  | Uint n => Huint n
  | Nint n => Hnint n
  | ByteString b => Hbytes b
  | TextString b => Htext b
  | Array l => Harray l
      ((fix go l : Forall P l :=
          match l with
          | [] => Forall_nil_2 _
          | i :: l => Forall_cons_2 _ _ _ (item_nested_ind i) (go l)
          end) l)
  | MapOf l => Hmap l
      ((fix go l : Forall (fun kv => P kv.1 ∧ P kv.2) l :=
          match l with
          | [] => Forall_nil_2 _
          | (k, v) :: l =>
              Forall_cons_2 (fun kv => P kv.1 ∧ P kv.2) (k, v) l
                (conj (item_nested_ind k) (item_nested_ind v)) (go l)
          end) l)
  | Tag n i => Htag n i (item_nested_ind i)
  | Simple n => Hsimple n
  end.
End ItemInd.

(** An item at the front of a buffer is determined by the buffer. *)
Definition ser_unique (i : item) : Prop :=
  ∀ j r r', item_wf i → item_wf j → ser i ++ r = ser j ++ r' → i = j ∧ r = r'.

Lemma mjoin_unique {A} (f : A → bytes) (Q : A → Prop) (l l' : list A) r r' :
  length l = length l' →
  Forall (fun x => ∀ y r r', Q y → f x ++ r = f y ++ r' → x = y ∧ r = r') l → Forall Q l' →
  mjoin (f <$> l) ++ r = mjoin (f <$> l') ++ r' → l = l' ∧ r = r'.
Proof.
  revert l'. induction l as [|x l IH]; intros [|y l'] Hlen; try done.
  intros [Hx Hl]%Forall_cons [Hy Hl']%Forall_cons. simpl. rewrite <- !app_assoc. intros Heq.
  apply Hx in Heq as [-> Heq]; [|done]. apply IH in Heq as [-> ->]; auto.
Qed.

Lemma app_inv_len {A} (a b a' b' : list A) : len a = len a' → a ++ b = a' ++ b' → a = a' ∧ b = b'.
Proof. intros Hl. apply app_inj_1. unfold len in Hl. lia. Qed.

Ltac solve_header :=
  first [apply header_ok_len; lia|apply header_ok_arg; lia
        |unfold header_ok, u8_max, u64_max in *; lia].

Lemma ser_prefix_free i : ser_unique i.
Proof.
  induction i as [n|n|b|b|l IH|l IH|n i IH|n] using item_nested_ind;
    intros j r r' Hi Hj; inversion Hi; inversion Hj; subst; simpl; rewrite <- ?app_assoc;
    intros Heq; apply head_inj in Heq as (Hm & Hn & Heq); try solve_header; subst; try done.
  - apply app_inv_len in Heq as [-> ->]; done.
  - apply app_inv_len in Heq as [-> ->]; done.
  - apply (mjoin_unique ser item_wf) in Heq as [-> ->]; [done|unfold len in *; lia| |done].
    rewrite Forall_forall in *. intros x Hx y r1 r2 Hy. apply IH; [done|by auto|done].
  - apply (mjoin_unique ser_pair (fun kv => item_wf kv.1 ∧ item_wf kv.2)) in Heq as [-> ->];
      [done|unfold len in *; lia| |done].
    rewrite Forall_forall in *. intros [k v] Hx [k' v'] r1 r2 [Hk' Hv'].
    unfold ser_pair; simpl in *. rewrite <- !app_assoc. intros Heq'.
    pose proof (IH _ Hx) as [IHk IHv]. simpl in IHk, IHv.
    match goal with H : ∀ x, x ∈ l → item_wf _ ∧ _ |- _ => pose proof (H _ Hx) as [Hk Hv] end.
    apply IHk in Heq' as [-> Heq']; [|done..]. apply IHv in Heq' as [-> ->]; done.
  - apply IH in Heq as [-> ->]; done.
Qed.

Lemma ser_inj i j : item_wf i → item_wf j → ser i = ser j → i = j.
Proof.
  intros Hi Hj Heq. destruct (ser_prefix_free i j [] []) as [-> _]; [done|done| |done].
  by rewrite Heq.
Qed.

Lemma require_canonical_item bs :
  require_canonical_cbor bs = Ok tt → ∃ i, item_wf i ∧ bs = ser i.
Proof.
  unfold require_canonical_cbor. intros H. inv_ok. case_match; [|done]. subst.
  match goal with H : check_canonical_item _ _ = _ |- _ => apply check_sound in H as (i & ? & ? & ->) end.
  exists i. by rewrite app_nil_r.
Qed.

Lemma require_canonical_ser i :
  item_wf i → (height i ≤ S MAX_CBOR_DEPTH)%nat → require_canonical_cbor (ser i) = Ok tt.
Proof.
  intros Hw Hh. unfold require_canonical_cbor. rewrite <- (app_nil_r (ser i)). by rewrite check_complete.
Qed.

Lemma require_canonical_tt bs u : require_canonical_cbor bs = Ok u → require_canonical_cbor bs = Ok tt.
Proof. by destruct u. Qed.

(** An array of scalars and strings is within the nesting limit. *)
Lemma require_canonical_flat l :
  len l ≤ u64_max → Forall (fun i => item_wf i ∧ height i = 1%nat) l →
  require_canonical_cbor (ser (Array l)) = Ok tt.
Proof.
  intros Hl Hwf. apply require_canonical_ser.
  - apply wf_array; [done|]. eapply Forall_impl; [exact Hwf|]. by intros i [? _].
  - assert (max_list (height <$> l) ≤ 1)%nat as Hm.
    { clear Hl. induction Hwf as [|i l [_ Hi] _ IH]; [simpl; lia|].
      change (Nat.max (height i) (max_list (height <$> l)) ≤ 1)%nat. rewrite Hi. lia. }
    simpl. unfold MAX_CBOR_DEPTH. lia.
Qed.

(** C34.  [require_canonical_cbor] accepts exactly the canonical serializations of the
    data items that nest at most [MAX_CBOR_DEPTH] levels below the top: integers, byte and
    UTF-8 text strings, arrays, maps with strictly ascending keys, tags and simple values,
    the reserved 24 to 31 of the two-byte form among them; it neither lets another encoding of them through nor refuses a canonical one. *)
Theorem require_canonical_iff bs :
  require_canonical_cbor bs = Ok tt ↔
  ∃ i, item_wf i ∧ (height i ≤ S MAX_CBOR_DEPTH)%nat ∧ bs = ser i.
Proof.
  unfold require_canonical_cbor. split.
  - intros H. inv_ok. case_match; [|done]. subst.
    match goal with H : check_canonical_item _ _ = _ |- _ => apply check_sound in H as (i & ? & ? & ->) end.
    exists i. by rewrite app_nil_r.
  - intros (i & Hw & Hh & ->). rewrite <- (app_nil_r (ser i)). by rewrite check_complete.
Qed.

(** One logical value has one accepted encoding and one accepted encoding has
    one value: the item a canonical buffer holds is unique, and no accepted buffer is a
    proper prefix of another. *)
Theorem canonical_encoding_unique i j tail :
  item_wf i → item_wf j → ser i ++ tail = ser j → i = j ∧ tail = [].
Proof.
  intros Hi Hj Heq. rewrite <- (app_nil_r (ser j)) in Heq.
  by apply ser_prefix_free in Heq.
Qed.

Lemma canonical_encoding_unique_witness : Uint 7 = Uint 7 ∧ @nil byte = [].
Proof. apply (canonical_encoding_unique (Uint 7) (Uint 7) []); [by constructor|by constructor|reflexivity]. Defined.

(** The gate is wider than RFC 8949: the two-byte encodings of the simple values 24 to
    31, which section 3.3 of the RFC declares not well-formed, pass as canonical items. *)
Theorem reserved_simple_values_pass n :
  24 ≤ n ≤ 31 → require_canonical_cbor [xf8; z2b n] = Ok tt.
Proof.
  intros Hn. assert ([xf8; z2b n] = ser (Simple n)) as ->.
  { cbn [ser]. unfold head. rewrite bool_decide_false by lia. rewrite bool_decide_true by (unfold u8_max; lia).
    by vm_compute. }
  apply require_canonical_ser; [apply wf_simple; unfold u8_max; lia|simpl; unfold MAX_CBOR_DEPTH; lia].
Qed.

Lemma reserved_simple_values_pass_witness : require_canonical_cbor [xf8; x18] = Ok tt.
Proof. apply (reserved_simple_values_pass 24). lia. Defined.
