(* ===== verification/Minicbor.v ===== *)
(** * The [minicbor] codec as an interface

    [minicbor] is a dependency, not part of the repository, so its encoder and decoder
    are parameters: the class [Minicbor] has one operation per call the op-log makes, and
    [MinicborLaws] states what its documentation promises of them on canonical input:
    the encoder writes the preferred (shortest, definite) RFC 8949 form, the decoder reads
    it back and reports a type mismatch or a truncated string as an error.  Nothing but its
    return types is assumed of the decoder on non-canonical input.  [rfc8949] is a concrete codec that
    satisfies the laws, used by the witnesses.

    The second half is [cbor.rs]'s layer over the codec ([VecEncoderExt], [expect_array],
    [expect_definite_len], [decode_str_array], [expect_domain]), proved against the laws. *)

From S2P Require Import Prelude Cbor.

Local Open Scope Z_scope.

(** ** The interface *)

(** A decoder call at a cursor: the value and the advanced cursor, or an error. *)
Definition dec (A : Type) : Type := bytes → option (A * bytes).

Class Minicbor : Type := {
  enc_array : Z → bytes;
  enc_bytes : bytes → bytes;
  enc_str : bytes → bytes;
  enc_u8 : Z → bytes;
  enc_u32 : Z → bytes;
  enc_u64 : Z → bytes;
  enc_i64 : Z → bytes;
  enc_null : bytes;
  (** [Decoder::array]: [Some n] for a definite length, [None] for an indefinite one. *)
  dec_array : dec (option Z);
  dec_bytes : dec bytes;
  dec_str : dec bytes;
  dec_u8 : dec Z;
  dec_u32 : dec Z;
  dec_u64 : dec Z;
  dec_i64 : dec Z;
  dec_null : dec unit;
  (** [Decoder::datatype() == Type::Null]; the cursor does not move. *)
  dec_is_null : bytes → option bool;
}.

Class MinicborLaws `{Minicbor} : Prop := {
  enc_array_spec n : 0 ≤ n ≤ u64_max → enc_array n = head 4 n;
  enc_bytes_spec b : len b ≤ u64_max → enc_bytes b = head 2 (len b) ++ b;
  enc_str_spec s : len s ≤ u64_max → enc_str s = head 3 (len s) ++ s;
  enc_u8_spec n : 0 ≤ n ≤ u8_max → enc_u8 n = head 0 n;
  enc_u32_spec n : 0 ≤ n ≤ u32_max → enc_u32 n = head 0 n;
  enc_u64_spec n : 0 ≤ n ≤ u64_max → enc_u64 n = head 0 n;
  enc_i64_spec n : is_i64 n = true →
    enc_i64 n = if bool_decide (0 ≤ n) then head 0 n else head 1 (-1 - n);
  enc_null_spec : enc_null = head 7 22;

  dec_array_head n r : 0 ≤ n ≤ u64_max → dec_array (head 4 n ++ r) = Some (Some n, r);
  dec_bytes_head b r : len b ≤ u64_max → dec_bytes (head 2 (len b) ++ b ++ r) = Some (b, r);
  dec_str_head s r : len s ≤ u64_max → utf8_valid s = true →
    dec_str (head 3 (len s) ++ s ++ r) = Some (s, r);
  dec_u8_head n r : 0 ≤ n ≤ u8_max → dec_u8 (head 0 n ++ r) = Some (n, r);
  dec_u32_head n r : 0 ≤ n ≤ u32_max → dec_u32 (head 0 n ++ r) = Some (n, r);
  dec_u64_head n r : 0 ≤ n ≤ u64_max → dec_u64 (head 0 n ++ r) = Some (n, r);
  dec_i64_head n r : is_i64 n = true →
    dec_i64 ((if bool_decide (0 ≤ n) then head 0 n else head 1 (-1 - n)) ++ r) = Some (n, r);
  dec_null_head r : dec_null (head 7 22 ++ r) = Some (tt, r);
  dec_is_null_head m n r : header_ok m n →
    dec_is_null (head m n ++ r) = Some (bool_decide (m = 7 ∧ n = 22));

  dec_array_inv m n r o r' : header_ok m n →
    dec_array (head m n ++ r) = Some (o, r') → m = 4 ∧ o = Some n ∧ r' = r;
  dec_bytes_inv m n r b r' : header_ok m n →
    dec_bytes (head m n ++ r) = Some (b, r') → m = 2 ∧ n = len b ∧ r = b ++ r';
  dec_str_inv m n r s r' : header_ok m n →
    dec_str (head m n ++ r) = Some (s, r') →
    m = 3 ∧ n = len s ∧ r = s ++ r' ∧ utf8_valid s = true;
  dec_u8_inv m n r v r' : header_ok m n →
    dec_u8 (head m n ++ r) = Some (v, r') → m = 0 ∧ v = n ∧ r' = r ∧ v ≤ u8_max;
  dec_u32_inv m n r v r' : header_ok m n →
    dec_u32 (head m n ++ r) = Some (v, r') → m = 0 ∧ v = n ∧ r' = r ∧ v ≤ u32_max;
  dec_u64_inv m n r v r' : header_ok m n →
    dec_u64 (head m n ++ r) = Some (v, r') → m = 0 ∧ v = n ∧ r' = r;
  dec_null_inv m n r u r' : header_ok m n →
    dec_null (head m n ++ r) = Some (u, r') → m = 7 ∧ n = 22 ∧ r' = r;

  (** The return types, on any input: [u64] lengths, [&str] text, [&[u8]], [u64], [i64]. *)
  dec_array_type bs n r : dec_array bs = Some (Some n, r) → 0 ≤ n ≤ u64_max;
  dec_str_type bs s r : dec_str bs = Some (s, r) → utf8_valid s = true ∧ len s ≤ u64_max;
  dec_bytes_type bs s r : dec_bytes bs = Some (s, r) → len s ≤ u64_max;
  dec_u64_type bs n r : dec_u64 bs = Some (n, r) → 0 ≤ n ≤ u64_max;
  dec_i64_type bs n r : dec_i64 bs = Some (n, r) → is_i64 n = true;
}.

(** ** A codec that satisfies the laws *)

Section Rfc8949.
Definition rfc_head : dec (Z * Z) :=
  fun bs => match read_canonical_header bs with Ok (h, r) => Some (h, r) | Err _ => None end.

Definition rfc_string (major : Z) (valid : bytes → bool) : dec bytes :=
  fun bs =>
    '(h, r) ← rfc_head bs;
    if bool_decide (h.1 = major) then
      match advance_string r h.2 with
      | Ok after => let s := consumed r after in if valid s then Some (s, after) else None
      | Err _ => None
      end
    else None.

Definition rfc_arg {A} (f : Z * Z → option A) : dec A :=
  fun bs => '(h, r) ← rfc_head bs; a ← f h; Some (a, r).

#[export] Instance rfc8949 : Minicbor := {|
  enc_array := head 4;
  enc_bytes b := head 2 (len b) ++ b;
  enc_str s := head 3 (len s) ++ s;
  enc_u8 := head 0;
  enc_u32 := head 0;
  enc_u64 := head 0;
  enc_i64 n := if bool_decide (0 ≤ n) then head 0 n else head 1 (-1 - n);
  enc_null := head 7 22;
  dec_array := rfc_arg (fun h => if bool_decide (h.1 = 4) then Some (Some h.2) else None);
  dec_bytes := rfc_string 2 (fun _ => true);
  dec_str := rfc_string 3 utf8_valid;
  dec_u8 := rfc_arg (fun h => if bool_decide (h.1 = 0 ∧ h.2 ≤ u8_max) then Some h.2 else None);
  dec_u32 := rfc_arg (fun h => if bool_decide (h.1 = 0 ∧ h.2 ≤ u32_max) then Some h.2 else None);
  dec_u64 := rfc_arg (fun h => if bool_decide (h.1 = 0) then Some h.2 else None);
  dec_i64 := rfc_arg (fun h =>
    let v := if bool_decide (h.1 = 0) then h.2 else -1 - h.2 in
    if bool_decide (h.1 ≤ 1) && is_i64 v then Some v else None);
  dec_null := rfc_arg (fun h => if bool_decide (h.1 = 7 ∧ h.2 = 22) then Some tt else None);
  dec_is_null bs := '(h, _) ← rfc_head bs; Some (bool_decide (h.1 = 7 ∧ h.2 = 22));
|}.

Lemma rfc_head_head m n r : header_ok m n → rfc_head (head m n ++ r) = Some ((m, n), r).
Proof. intros H. unfold rfc_head. by rewrite read_head. Qed.

Lemma rfc_string_head major valid s r :
  0 ≤ major < 7 → len s ≤ u64_max → valid s = true →
  rfc_string major valid (head major (len s) ++ s ++ r) = Some (s, r).
Proof.
  intros Hm Hl Hv. unfold rfc_string. rewrite rfc_head_head by solve_header. simpl.
  rewrite bool_decide_true by done.
  rewrite (proj2 (advance_string_Ok (s ++ r) (len s) r (len_nonneg s))) by (by exists s).
  rewrite consumed_app. by rewrite Hv.
Qed.

Lemma rfc_string_inv major valid m n r s r' :
  header_ok m n → rfc_string major valid (head m n ++ r) = Some (s, r') →
  m = major ∧ n = len s ∧ r = s ++ r' ∧ valid s = true.
Proof.
  intros H. unfold rfc_string. rewrite rfc_head_head by done. simpl.
  case_bool_decide as Hm; [|done].
  destruct (advance_string r n) as [after|] eqn:Ha; [|done].
  apply advance_string_Ok in Ha as (s' & <- & ->); [|apply H].
  rewrite consumed_app. destruct (valid s') eqn:Hv; [|done]. naive_solver.
Qed.

(** Whatever the input, a read starts with a header. *)
Lemma rfc_head_inv bs h r : rfc_head bs = Some (h, r) → header_ok h.1 h.2 ∧ bs = head h.1 h.2 ++ r.
Proof.
  unfold rfc_head. destruct (read_canonical_header bs) as [[[m n] r']|] eqn:E; [|done].
  intros [= <- <-]. by apply head_read in E.
Qed.

Lemma rfc_string_type major valid bs s r :
  rfc_string major valid bs = Some (s, r) → valid s = true ∧ len s ≤ u64_max.
Proof.
  intros H. pose proof H as H'. unfold rfc_string in H'.
  apply bind_Some in H' as ([h r'] & Hh & _). apply rfc_head_inv in Hh as [Hh ->].
  apply rfc_string_inv in H as (_ & Hn & _ & ?); [|done].
  split; [done|]. destruct Hh as (_ & ? & _). lia.
Qed.

Lemma rfc_arg_inv {A} (f : Z * Z → option A) bs a r :
  rfc_arg f bs = Some (a, r) → ∃ h, header_ok h.1 h.2 ∧ f h = Some a.
Proof.
  unfold rfc_arg. intros ([h r'] & Hh & H)%bind_Some. apply rfc_head_inv in Hh as [Hh _].
  apply bind_Some in H as (a' & ? & [= <- <-]). eauto.
Qed.

#[export] Instance rfc8949_laws : MinicborLaws.
Proof.
  split; simpl; try done.
  - intros n r Hn. unfold rfc_arg. by rewrite rfc_head_head by solve_header.
  - intros b r Hb. by apply rfc_string_head.
  - intros s r Hs Hu. by apply rfc_string_head.
  - intros n r Hn. unfold rfc_arg.
    rewrite rfc_head_head by (unfold header_ok, u8_max, u64_max in *; lia). simpl.
    by rewrite bool_decide_true by (split; [done|apply Hn]).
  - intros n r Hn. unfold rfc_arg.
    rewrite rfc_head_head by (unfold header_ok, u32_max, u64_max in *; lia). simpl.
    by rewrite bool_decide_true by (split; [done|apply Hn]).
  - intros n r Hn. unfold rfc_arg. by rewrite rfc_head_head by solve_header.
  - intros n r Hn. unfold rfc_arg, is_i64 in *. apply bool_decide_eq_true in Hn.
    case_bool_decide; rewrite rfc_head_head by (unfold header_ok, u64_max; lia); simpl.
    + by rewrite bool_decide_true.
    + replace (-1 - (-1 - n)) with n by lia. by rewrite bool_decide_true.
  - intros m n r Hh. by rewrite rfc_head_head.
  - intros m n r o r' Hh. unfold rfc_arg. rewrite rfc_head_head by done. simpl.
    case_bool_decide; naive_solver.
  - intros m n r b r' Hh H. apply rfc_string_inv in H; naive_solver.
  - intros m n r s r' Hh H. by apply rfc_string_inv in H.
  - intros m n r v r' Hh. unfold rfc_arg. rewrite rfc_head_head by done. simpl.
    case_bool_decide; naive_solver.
  - intros m n r v r' Hh. unfold rfc_arg. rewrite rfc_head_head by done. simpl.
    case_bool_decide; naive_solver.
  - intros m n r v r' Hh. unfold rfc_arg. rewrite rfc_head_head by done. simpl.
    case_bool_decide; naive_solver.
  - intros m n r u r' Hh. unfold rfc_arg. rewrite rfc_head_head by done. simpl.
    case_bool_decide; naive_solver.
  - intros bs n r (h & (_ & Hr & _) & H)%rfc_arg_inv. case_bool_decide; naive_solver.
  - intros bs s r H. by apply rfc_string_type in H.
  - intros bs s r H. by apply rfc_string_type in H as [_ ?].
  - intros bs n r (h & (_ & Hr & _) & H)%rfc_arg_inv. case_bool_decide; naive_solver.
  - intros bs n r (h & _ & H)%rfc_arg_inv.
    destruct (_ && _) eqn:E; [|done]. simplify_eq. by apply andb_true_iff in E as [_ ?].
Qed.
End Rfc8949.

(** ** The decoder as a state and error monad

    [&mut Decoder] is threaded as the cursor; [?] is the bind. *)

Definition Decoder (A : Type) : Type := bytes → result CborError (A * bytes).

#[export] Instance Decoder_ret : MRet Decoder := fun A a bs => Ok (a, bs).
#[export] Instance Decoder_bind : MBind Decoder :=
  fun A B f d bs => '(a, rest) ← d bs; f a rest.

Definition fail {A} (e : CborError) : Decoder A := fun _ => Err e.

(** Run a decoder from the start of a buffer; the rest is not inspected. *)
Definition run {A} (d : Decoder A) (bs : bytes) : result CborError A := fst <$> d bs.

(** A pure check in the middle of a decoder. *)
Definition lift {A} (m : result CborError A) : Decoder A := fun bs => (fun a => (a, bs)) <$> m.

Lemma Decoder_bind_Ok {A B} (d : Decoder A) (f : A → Decoder B) bs b r :
  (d ≫= f) bs = Ok (b, r) ↔ ∃ a bs', d bs = Ok (a, bs') ∧ f a bs' = Ok (b, r).
Proof.
  unfold mbind, Decoder_bind. rewrite result_bind_Ok. split.
  - intros ([a bs'] & ? & ?). eauto.
  - intros (a & bs' & ? & ?). by exists (a, bs').
Qed.

Lemma Decoder_ret_Ok {A} (a b : A) bs r : (mret a : Decoder A) bs = Ok (b, r) ↔ a = b ∧ bs = r.
Proof. unfold mret, Decoder_ret. naive_solver. Qed.

Lemma lift_Ok {A} (m : result CborError A) bs a r : lift m bs = Ok (a, r) ↔ m = Ok a ∧ bs = r.
Proof. unfold lift. destruct m; simpl; naive_solver. Qed.

Lemma run_Ok {A} (d : Decoder A) bs a : run d bs = Ok a ↔ ∃ r, d bs = Ok (a, r).
Proof. unfold run. destruct (d bs) as [[a' r]|e]; simpl; naive_solver. Qed.

(** Invert a successful run of a decoder. *)
Ltac inv_dec :=
  repeat match goal with
  | H : (_ ≫= _) _ = Ok (_, _) |- _ => apply Decoder_bind_Ok in H as (? & ? & ? & H)
  | H : mret _ _ = Ok (_, _) |- _ => apply Decoder_ret_Ok in H as [? ?]; subst
  | H : lift _ _ = Ok (_, _) |- _ => apply lift_Ok in H as [? ?]; subst
  | H : fail _ _ = Ok _ |- _ => discriminate H
  | H : run _ _ = Ok _ |- _ => apply run_Ok in H as (? & H)
  end.

Section CborLayer.
Context `{MC : Minicbor}.

Definition lib {A} (d : dec A) : Decoder A := fun bs => ok_or LibraryError (d bs).

Definition d_array : Decoder (option Z) := lib dec_array.
Definition d_bytes : Decoder bytes := lib dec_bytes.
Definition d_str : Decoder bytes := lib dec_str.
Definition d_u8 : Decoder Z := lib dec_u8.
Definition d_u32 : Decoder Z := lib dec_u32.
Definition d_u64 : Decoder Z := lib dec_u64.
Definition d_i64 : Decoder Z := lib dec_i64.
Definition d_null : Decoder unit := lib dec_null.
Definition d_is_null : Decoder bool := fun bs => b ← ok_or LibraryError (dec_is_null bs); Ok (b, bs).

Definition put_array : Z → bytes := enc_array.
Definition put_bytes : bytes → bytes := enc_bytes.
Definition put_str : bytes → bytes := enc_str.
Definition put_u8 : Z → bytes := enc_u8.
Definition put_u32 : Z → bytes := enc_u32.
Definition put_u64 : Z → bytes := enc_u64.
Definition put_i64 : Z → bytes := enc_i64.
Definition put_null : bytes := enc_null.

Definition expect_definite_len : Decoder Z :=
  o ← d_array;
  match o with
  | Some n => mret n
  | None => fail (Message "expected a definite-length array")
  end.

Definition expect_array (want : Z) : Decoder unit :=
  got ← expect_definite_len;
  if bool_decide (got = want) then mret tt else fail (ExpectedArray want got).

(** [for _ in 0..n { out.push(read(d)?) }]. *)
Definition read_many {A} (n : Z) (read : Decoder A) : Decoder (list A) :=
  fun bs => for_range n (fun '(out, rest) => '(a, rest) ← read rest; Ok (out ++ [a], rest)) ([], bs).

Definition decode_str_array : Decoder (list bytes) :=
  n ← expect_definite_len; read_many n d_str.

Definition expect_domain (want : bytes) : Decoder unit :=
  got ← d_str;
  if bool_decide (got = want) then mret tt else fail (UnknownDomain got want).

(** [fixed_bytes::<N>(d.bytes()?, field)?]. *)
Definition d_fixed (n : nat) (field : string) : Decoder bytes :=
  bs ← d_bytes; lift (fixed_bytes n bs field).

(** [if d.datatype()? == Type::Null { d.null()?; None } else { Some(read(d)?) }]. *)
Definition decode_opt {A} (read : Decoder A) : Decoder (option A) :=
  null ← d_is_null;
  if (null : bool) then _ ← d_null; mret None else a ← read; mret (Some a).

Definition put_opt {A} (put : A → bytes) (o : option A) : bytes :=
  match o with Some a => put a | None => put_null end.
End CborLayer.

(** ** Reading back what was written

    [reads d w a]: at a cursor that starts with [w], [d] returns [a] and advances past
    [w], whatever follows. *)

Definition reads {A} (d : Decoder A) (w : bytes) (a : A) : Prop :=
  ∀ r, d (w ++ r) = Ok (a, r).

Lemma reads_ret {A} (a : A) : reads (mret a) [] a.
Proof. intros r. done. Qed.

Lemma reads_bind {A B} (d : Decoder A) (f : A → Decoder B) w w' a b :
  reads d w a → reads (f a) w' b → reads (d ≫= f) (w ++ w') b.
Proof.
  intros Hd Hf r. unfold mbind, Decoder_bind. rewrite <- app_assoc, Hd. simpl. apply Hf.
Qed.

Lemma reads_bind_nil {A B} (d : Decoder A) (f : A → Decoder B) w a b :
  reads d w a → f a = mret b → reads (d ≫= f) w b.
Proof.
  intros Hd Hf. rewrite <- (app_nil_r w). eapply reads_bind; [done|]. rewrite Hf. apply reads_ret.
Qed.

(** A decoder that reads both writes cannot tell equal buffers apart. *)
Lemma reads_cancel {A} (d : Decoder A) w w' a a' r r' :
  reads d w a → reads d w' a' → w ++ r = w' ++ r' → a = a' ∧ r = r'.
Proof. intros Hd Hd' Heq. specialize (Hd r). rewrite Heq, Hd' in Hd. naive_solver. Qed.

Lemma reads_det {A} (d : Decoder A) w a a' : reads d w a → reads d w a' → a = a'.
Proof. intros Hd Hd'. by eapply (reads_cancel d w w a a' [] []). Qed.

Lemma reads_read_many {A B} (read : Decoder A) (put : B → bytes) (g : B → A) (l : list B) :
  Forall (fun b => reads read (put b) (g b)) l →
  reads (read_many (len l) read) (mjoin (put <$> l)) (g <$> l).
Proof.
  intros Hl r. unfold read_many.
  assert (∀ out, for_range (len l)
    (fun '(out, rest) => '(a, rest) ← read rest; Ok (out ++ [a], rest))
    (out, mjoin (put <$> l) ++ r) = Ok (out ++ (g <$> l), r)) as H.
  { induction Hl as [|x l Hx Hl IH]; intros out; [simpl; by rewrite app_nil_r|].
    rewrite len_cons, for_range_succ by apply len_nonneg. simpl.
    rewrite <- app_assoc, Hx. simpl. rewrite IH. simpl. by rewrite <- app_assoc. }
  apply H.
Qed.

Section Reads.
Context `{MinicborLaws}.

Lemma reads_array n : 0 ≤ n ≤ u64_max → reads expect_definite_len (put_array n) n.
Proof.
  intros Hn r. unfold expect_definite_len, mbind, Decoder_bind, d_array, lib, put_array.
  by rewrite enc_array_spec, dec_array_head.
Qed.

Lemma reads_expect_array n : 0 ≤ n ≤ u64_max → reads (expect_array n) (put_array n) tt.
Proof.
  intros Hn. eapply reads_bind_nil; [by apply reads_array|]. by rewrite bool_decide_true.
Qed.

Lemma reads_str s : len s ≤ u64_max → utf8_valid s = true → reads d_str (put_str s) s.
Proof.
  intros Hl Hu r. unfold d_str, lib, put_str. rewrite enc_str_spec by done.
  by rewrite <- app_assoc, dec_str_head.
Qed.

Lemma reads_bytes b : len b ≤ u64_max → reads d_bytes (put_bytes b) b.
Proof.
  intros Hl r. unfold d_bytes, lib, put_bytes. rewrite enc_bytes_spec by done.
  by rewrite <- app_assoc, dec_bytes_head.
Qed.

Lemma reads_fixed n field b :
  length b = n → len b ≤ u64_max → reads (d_fixed n field) (put_bytes b) b.
Proof.
  intros Hn Hl r. unfold d_fixed, mbind, Decoder_bind. rewrite reads_bytes by done. simpl.
  unfold lift, fixed_bytes. by rewrite bool_decide_true.
Qed.

Lemma reads_u8 n : 0 ≤ n ≤ u8_max → reads d_u8 (put_u8 n) n.
Proof. intros Hn r. unfold d_u8, lib, put_u8. by rewrite enc_u8_spec, dec_u8_head. Qed.

Lemma reads_u32 n : 0 ≤ n ≤ u32_max → reads d_u32 (put_u32 n) n.
Proof. intros Hn r. unfold d_u32, lib, put_u32. by rewrite enc_u32_spec, dec_u32_head. Qed.

Lemma reads_u64 n : 0 ≤ n ≤ u64_max → reads d_u64 (put_u64 n) n.
Proof. intros Hn r. unfold d_u64, lib, put_u64. by rewrite enc_u64_spec, dec_u64_head. Qed.

Lemma reads_i64 n : is_i64 n = true → reads d_i64 (put_i64 n) n.
Proof. intros Hn r. unfold d_i64, lib, put_i64. by rewrite enc_i64_spec, dec_i64_head. Qed.

Lemma reads_null : reads d_null put_null tt.
Proof. intros r. unfold d_null, lib, put_null. by rewrite enc_null_spec, dec_null_head. Qed.

Lemma reads_domain s : len s ≤ u64_max → utf8_valid s = true → reads (expect_domain s) (put_str s) tt.
Proof.
  intros Hl Hu. eapply reads_bind_nil; [by apply reads_str|]. by rewrite bool_decide_true.
Qed.

Lemma is_null_head m n r : header_ok m n → d_is_null (head m n ++ r) = Ok (bool_decide (m = 7 ∧ n = 22), head m n ++ r).
Proof. intros Hh. unfold d_is_null. by rewrite dec_is_null_head. Qed.

(** A written value of type [A] starts with a header that is not [null]. *)
Definition non_null (w : bytes) : Prop :=
  ∃ m n r, header_ok m n ∧ ¬ (m = 7 ∧ n = 22) ∧ w = head m n ++ r.

Lemma reads_opt {A} (read : Decoder A) (put : A → bytes) (o : option A) :
  (∀ a, o = Some a → reads read (put a) a ∧ non_null (put a)) →
  reads (decode_opt read) (put_opt put o) o.
Proof.
  intros Ho r. unfold decode_opt, mbind at 1, Decoder_bind at 1.
  destruct o as [a|]; simpl.
  - destruct (Ho a eq_refl) as [Hread (m & n & w & Hh & Hn & Hw)].
    assert (d_is_null (put a ++ r) = Ok (false, put a ++ r)) as ->.
    { rewrite Hw, <- app_assoc, is_null_head, bool_decide_false by done. done. }
    simpl. unfold mbind, Decoder_bind. by rewrite Hread.
  - unfold put_null. rewrite enc_null_spec.
    rewrite is_null_head by (unfold header_ok, u8_max, u64_max; lia).
    rewrite bool_decide_true by done.
    change ((_ ← d_null; mret None) (head 7 22 ++ r) = Ok (@None A, r)).
    unfold mbind, Decoder_bind, d_null, lib. by rewrite dec_null_head.
Qed.
End Reads.

(** ** Writes are serialized items *)

Section Writes.
Context `{MinicborLaws}.

Lemma put_str_ser s : len s ≤ u64_max → put_str s = ser (TextString s).
Proof. apply enc_str_spec. Qed.
Lemma put_bytes_ser b : len b ≤ u64_max → put_bytes b = ser (ByteString b).
Proof. apply enc_bytes_spec. Qed.
Lemma put_u64_ser n : 0 ≤ n ≤ u64_max → put_u64 n = ser (Uint n).
Proof. apply enc_u64_spec. Qed.
Lemma put_u8_ser n : 0 ≤ n ≤ u8_max → put_u8 n = ser (Uint n).
Proof. apply enc_u8_spec. Qed.
Lemma put_u32_ser n : 0 ≤ n ≤ u32_max → put_u32 n = ser (Uint n).
Proof. apply enc_u32_spec. Qed.
Lemma put_null_ser : put_null = ser (Simple 22).
Proof. apply enc_null_spec. Qed.

(** An integer item: a negative [n] is stored as [-1 - n]. *)
Definition int_item (n : Z) : item := if bool_decide (0 ≤ n) then Uint n else Nint (-1 - n).

Lemma put_i64_ser n : is_i64 n = true → put_i64 n = ser (int_item n).
Proof. intros Hn. unfold put_i64, int_item. rewrite enc_i64_spec by done. by case_bool_decide. Qed.

Lemma int_item_wf n : is_i64 n = true → item_wf (int_item n).
Proof.
  unfold is_i64, int_item. intros Hn%bool_decide_eq_true.
  case_bool_decide; [apply wf_uint|apply wf_nint]; unfold u64_max; lia.
Qed.

Lemma int_item_inj n m : int_item n = int_item m → n = m.
Proof. unfold int_item. repeat case_bool_decide; intros [=]; lia. Qed.

Lemma put_array_ser l :
  len l ≤ u64_max → put_array (len l) ++ mjoin (ser <$> l) = ser (Array l).
Proof. intros Hl. pose proof (len_nonneg l). simpl. f_equal. apply enc_array_spec. lia. Qed.

(** Two writes at the front of one buffer agree. *)
Lemma put_str_inj s s' r r' :
  len s ≤ u64_max → len s' ≤ u64_max → put_str s ++ r = put_str s' ++ r' → s = s' ∧ r = r'.
Proof.
  intros Hs Hs'. unfold put_str. rewrite !enc_str_spec by done. rewrite <- !app_assoc. intros Heq.
  apply head_inj in Heq as (_ & Hn & Heq); [|solve_header..]. by apply app_inv_len.
Qed.
Lemma put_array_inj n n' r r' :
  0 ≤ n ≤ u64_max → 0 ≤ n' ≤ u64_max → put_array n ++ r = put_array n' ++ r' → n = n' ∧ r = r'.
Proof.
  intros Hs Hs'. unfold put_array. rewrite !enc_array_spec by done. intros Heq.
  apply head_inj in Heq as (_ & Hn & Heq); [done|solve_header..].
Qed.
Lemma put_i64_inj n n' r r' :
  is_i64 n = true → is_i64 n' = true → put_i64 n ++ r = put_i64 n' ++ r' → n = n' ∧ r = r'.
Proof.
  intros Hn Hn'. rewrite !put_i64_ser by done. intros Heq.
  apply ser_prefix_free in Heq as [Heq ->]; [|by apply int_item_wf..].
  split; [by apply int_item_inj|done].
Qed.
Lemma put_opt_inj {A} (P : A → Prop) (put : A → bytes) (o o' : option A) r r' :
  (∀ a, P a → non_null (put a)) →
  (∀ a a' r r', P a → P a' → put a ++ r = put a' ++ r' → a = a' ∧ r = r') →
  (∀ a, o = Some a → P a) → (∀ a, o' = Some a → P a) →
  put_opt put o ++ r = put_opt put o' ++ r' → o = o' ∧ r = r'.
Proof.
  intros Hnn Hinj Ho Ho'. unfold put_opt, put_null. rewrite enc_null_spec.
  destruct o as [a|], o' as [a'|].
  - intros Heq. apply Hinj in Heq as [-> ->]; auto.
  - destruct (Hnn a) as (m & n & w & Hh & Hn & ->); [auto|]. rewrite <- app_assoc. intros Heq.
    apply head_inj in Heq; [naive_solver|done|unfold header_ok, u8_max, u64_max; lia].
  - destruct (Hnn a') as (m & n & w & Hh & Hn & ->); [auto|]. rewrite <- app_assoc. intros Heq.
    apply head_inj in Heq; [naive_solver|unfold header_ok, u8_max, u64_max; lia|done].
  - intros ?%app_inv_head. naive_solver.
Qed.

Lemma non_null_str s : len s ≤ u64_max → non_null (put_str s).
Proof.
  intros Hs. exists 3, (len s), s. split_and!; [solve_header|lia|by apply enc_str_spec].
Qed.
Lemma non_null_bytes s : len s ≤ u64_max → non_null (put_bytes s).
Proof.
  intros Hs. exists 2, (len s), s. split_and!; [solve_header|lia|by apply enc_bytes_spec].
Qed.
Lemma non_null_i64 n : is_i64 n = true → non_null (put_i64 n).
Proof.
  intros Hn. unfold put_i64. rewrite enc_i64_spec by done.
  unfold is_i64 in Hn. apply bool_decide_eq_true in Hn. case_bool_decide.
  - exists 0, n, []. rewrite app_nil_r. split_and!; [unfold header_ok, u64_max; lia|lia|done].
  - exists 1, (-1 - n), []. rewrite app_nil_r. split_and!; [unfold header_ok, u64_max; lia|lia|done].
Qed.
Lemma non_null_array n w : 0 ≤ n ≤ u64_max → non_null (put_array n ++ w).
Proof.
  intros Hn. exists 4, n, w. split_and!; [solve_header|lia|]. f_equal. by apply enc_array_spec.
Qed.
End Writes.

(** ** What a successful read of a canonical buffer says of it *)

(** A nullable byte string. *)
Definition opt_bytes_item (o : option bytes) : item :=
  match o with Some b => ByteString b | None => Simple 22 end.


Section ReadInv.
Context `{MinicborLaws}.

Lemma d_str_ser i s r r' :
  item_wf i → d_str (ser i ++ r) = Ok (s, r') →
  i = TextString s ∧ r' = r ∧ len s ≤ u64_max ∧ utf8_valid s = true.
Proof.
  intros Hi Hd. unfold d_str, lib in Hd. apply ok_or_Ok in Hd.
  destruct Hi; simpl in Hd; rewrite <- ?app_assoc in Hd;
    apply dec_str_inv in Hd as (? & Hn & Heq & Hu); try solve_header; try lia.
  apply app_inv_len in Heq as [-> ->]; naive_solver.
Qed.

Lemma d_bytes_ser i s r r' :
  item_wf i → d_bytes (ser i ++ r) = Ok (s, r') → i = ByteString s ∧ r' = r ∧ len s ≤ u64_max.
Proof.
  intros Hi Hd. unfold d_bytes, lib in Hd. apply ok_or_Ok in Hd.
  destruct Hi; simpl in Hd; rewrite <- ?app_assoc in Hd;
    apply dec_bytes_inv in Hd as (? & Hn & Heq); try solve_header; try lia.
  apply app_inv_len in Heq as [-> ->]; naive_solver.
Qed.

Lemma d_u64_ser i n r r' :
  item_wf i → d_u64 (ser i ++ r) = Ok (n, r') → i = Uint n ∧ r' = r ∧ 0 ≤ n ≤ u64_max.
Proof.
  intros Hi Hd. unfold d_u64, lib in Hd. apply ok_or_Ok in Hd.
  destruct Hi; simpl in Hd; rewrite <- ?app_assoc in Hd;
    apply dec_u64_inv in Hd as (? & Hn & Heq); try solve_header; try lia. naive_solver.
Qed.

Lemma d_u8_ser i n r r' :
  item_wf i → d_u8 (ser i ++ r) = Ok (n, r') → i = Uint n ∧ r' = r ∧ 0 ≤ n ≤ u8_max.
Proof.
  intros Hi Hd. unfold d_u8, lib in Hd. apply ok_or_Ok in Hd.
  destruct Hi; simpl in Hd; rewrite <- ?app_assoc in Hd;
    apply dec_u8_inv in Hd as (? & Hn & Heq & ?); try solve_header; try lia. naive_solver.
Qed.

Lemma d_u32_ser i n r r' :
  item_wf i → d_u32 (ser i ++ r) = Ok (n, r') → i = Uint n ∧ r' = r ∧ 0 ≤ n ≤ u32_max.
Proof.
  intros Hi Hd. unfold d_u32, lib in Hd. apply ok_or_Ok in Hd.
  destruct Hi; simpl in Hd; rewrite <- ?app_assoc in Hd;
    apply dec_u32_inv in Hd as (? & Hn & Heq & ?); try solve_header; try lia. naive_solver.
Qed.

Lemma d_null_ser i u r r' :
  item_wf i → d_null (ser i ++ r) = Ok (u, r') → i = Simple 22 ∧ r' = r.
Proof.
  intros Hi Hd. unfold d_null, lib in Hd. apply ok_or_Ok in Hd.
  destruct Hi; simpl in Hd; rewrite <- ?app_assoc in Hd;
    apply dec_null_inv in Hd as (? & Hn & Heq); try solve_header; try lia. naive_solver.
Qed.

Lemma expect_array_ser i n u r r' :
  item_wf i → expect_array n (ser i ++ r) = Ok (u, r') →
  ∃ l, i = Array l ∧ len l = n ∧ r' = mjoin (ser <$> l) ++ r.
Proof.
  intros Hi Hd. unfold expect_array, expect_definite_len, d_array, lib in Hd. inv_dec. inv_ok.
  match goal with H : dec_array _ = Some _ |- _ => rename H into Ha end.
  destruct Hi; simpl in Ha; rewrite <- ?app_assoc in Ha;
    apply dec_array_inv in Ha as (? & Hn & Heq); try solve_header; try lia.
  subst. inv_dec. case_bool_decide; inv_dec. eauto.
Qed.

(** Reads at a cursor over the rest of an array. *)
Lemma canonical_array bs n u r :
  require_canonical_cbor bs = Ok tt → expect_array n bs = Ok (u, r) →
  ∃ l, Forall item_wf l ∧ len l = n ∧ bs = ser (Array l) ∧ r = mjoin (ser <$> l) ∧ len l ≤ u64_max.
Proof.
  intros (i & Hi & ->)%require_canonical_item Hd. rewrite <- (app_nil_r (ser i)) in Hd.
  apply expect_array_ser in Hd as (l & -> & Hl & ->); [|done]. inversion Hi; subst.
  exists l. by rewrite app_nil_r.
Qed.

Lemma next_str i l s r :
  item_wf i → d_str (mjoin (ser <$> i :: l)) = Ok (s, r) →
  i = TextString s ∧ r = mjoin (ser <$> l) ∧ len s ≤ u64_max ∧ utf8_valid s = true.
Proof. intros Hi Hd. by apply d_str_ser in Hd. Qed.
Lemma next_bytes i l s r :
  item_wf i → d_bytes (mjoin (ser <$> i :: l)) = Ok (s, r) →
  i = ByteString s ∧ r = mjoin (ser <$> l) ∧ len s ≤ u64_max.
Proof. intros Hi Hd. by apply d_bytes_ser in Hd. Qed.
Lemma next_u64 i l n r :
  item_wf i → d_u64 (mjoin (ser <$> i :: l)) = Ok (n, r) →
  i = Uint n ∧ r = mjoin (ser <$> l) ∧ 0 ≤ n ≤ u64_max.
Proof. intros Hi Hd. by apply d_u64_ser in Hd. Qed.
Lemma next_u8 i l n r :
  item_wf i → d_u8 (mjoin (ser <$> i :: l)) = Ok (n, r) →
  i = Uint n ∧ r = mjoin (ser <$> l) ∧ 0 ≤ n ≤ u8_max.
Proof. intros Hi Hd. by apply d_u8_ser in Hd. Qed.
Lemma next_u32 i l n r :
  item_wf i → d_u32 (mjoin (ser <$> i :: l)) = Ok (n, r) →
  i = Uint n ∧ r = mjoin (ser <$> l) ∧ 0 ≤ n ≤ u32_max.
Proof. intros Hi Hd. by apply d_u32_ser in Hd. Qed.
Lemma next_null i l u r :
  item_wf i → d_null (mjoin (ser <$> i :: l)) = Ok (u, r) → i = Simple 22 ∧ r = mjoin (ser <$> l).
Proof. intros Hi Hd. by apply d_null_ser in Hd. Qed.
Lemma next_domain i l want u r :
  item_wf i → expect_domain want (mjoin (ser <$> i :: l)) = Ok (u, r) →
  i = TextString want ∧ r = mjoin (ser <$> l).
Proof.
  intros Hi Hd. unfold expect_domain in Hd. inv_dec.
  match goal with H : d_str _ = _ |- _ => apply next_str in H as (-> & -> & _) end; [|done].
  case_bool_decide; inv_dec. by subst.
Qed.

Lemma next_fixed i l n field b r :
  item_wf i → d_fixed n field (mjoin (ser <$> i :: l)) = Ok (b, r) →
  i = ByteString b ∧ r = mjoin (ser <$> l) ∧ length b = n ∧ len b ≤ u64_max.
Proof.
  intros Hi Hd. unfold d_fixed in Hd. inv_dec.
  match goal with H : d_bytes _ = _ |- _ => apply next_bytes in H as (-> & -> & ?) end; [|done].
  unfold fixed_bytes in *. case_bool_decide; inv_ok; naive_solver.
Qed.

(** [datatype] does not move the cursor. *)
Lemma is_null_stays bs b r : d_is_null bs = Ok (b, r) → r = bs.
Proof. unfold d_is_null. intros Hd. inv_ok. congruence. Qed.

(** The nullable slot of a canonical array. *)
Lemma next_opt_fixed i l n field o r :
  item_wf i → decode_opt (d_fixed n field) (mjoin (ser <$> i :: l)) = Ok (o, r) →
  i = opt_bytes_item o ∧ r = mjoin (ser <$> l) ∧ from_option (fun b => length b = n) True o.
Proof.
  intros Hi Hd. unfold decode_opt in Hd. inv_dec.
  match goal with H : d_is_null _ = Ok (?b, _) |- _ => pose proof (is_null_stays _ _ _ H); subst; destruct b end;
    inv_dec.
  - match goal with H : d_null _ = _ |- _ => apply next_null in H as [-> ->] end; done.
  - match goal with H : d_fixed _ _ _ = _ |- _ => apply next_fixed in H as (-> & -> & ? & _) end; done.
Qed.

End ReadInv.

Lemma len_pos_cons {A} (l : list A) n : len l = n → 0 < n → ∃ x l', l = x :: l' ∧ len l' = n - 1.
Proof. unfold len. destruct l as [|x l]; simpl; intros; [lia|]. exists x, l. split; [done|lia]. Qed.
Lemma len_zero_nil {A} (l : list A) : len l = 0 → l = [].
Proof. unfold len. destruct l; simpl; intros; [done|lia]. Qed.

(** Name the elements of a list whose length is a numeral. *)
Ltac split_len Hl :=
  repeat (apply len_pos_cons in Hl as (? & ? & -> & Hl); [simpl in Hl|lia]);
  apply len_zero_nil in Hl; subst.

(** Match the reads at a cursor with the items of the array it walks. *)
Ltac read_items :=
  repeat match goal with H : Forall item_wf (_ :: _) |- _ => apply Forall_cons in H as [? H] end;
  repeat match goal with
  | H : expect_domain _ (mjoin _) = _ |- _ => apply next_domain in H as (-> & ->); [|done]
  | H : d_fixed _ _ (mjoin _) = _ |- _ => apply next_fixed in H as (-> & -> & ? & ?); [|done]
  | H : decode_opt (d_fixed _ _) (mjoin _) = _ |- _ => apply next_opt_fixed in H as (-> & -> & ?); [|done]
  | H : d_u8 (mjoin _) = _ |- _ => apply next_u8 in H as (-> & -> & ?); [|done]
  | H : d_u32 (mjoin _) = _ |- _ => apply next_u32 in H as (-> & -> & ?); [|done]
  | H : d_u64 (mjoin _) = _ |- _ => apply next_u64 in H as (-> & -> & ?); [|done]
  | H : d_str (mjoin _) = _ |- _ => apply next_str in H as (-> & -> & ? & ?); [|done]
  | H : d_bytes (mjoin _) = _ |- _ => apply next_bytes in H as (-> & -> & ?); [|done]
  end.

(** ** What every successful read satisfies

    [ensures d P]: whatever the input, a value [d] returns satisfies [P]. *)

Definition ensures {A} (d : Decoder A) (P : A → Prop) : Prop :=
  ∀ bs a r, d bs = Ok (a, r) → P a.

Lemma ensures_ret {A} (a : A) (P : A → Prop) : P a → ensures (mret a) P.
Proof. intros Ha bs b r H. inv_dec. done. Qed.

Lemma ensures_fail {A} e (P : A → Prop) : ensures (fail e) P.
Proof. intros bs b r H. inv_dec. Qed.

Lemma ensures_bind {A B} (d : Decoder A) (f : A → Decoder B) (P : A → Prop) (Q : B → Prop) :
  ensures d P → (∀ a, P a → ensures (f a) Q) → ensures (d ≫= f) Q.
Proof. intros Hd Hf bs b r H. inv_dec. eapply Hf; [|done]. by eapply Hd. Qed.

Lemma ensures_True {A} (d : Decoder A) : ensures d (fun _ => True).
Proof. done. Qed.

Lemma ensures_for_range {A} (n : Z) (step : A * bytes → result CborError (A * bytes)) (s : A)
    (P : nat → A → Prop) :
  0 ≤ n → P 0%nat s →
  (∀ k a bs a' bs', P k a → step (a, bs) = Ok (a', bs') → P (S k) a') →
  ensures (fun bs => for_range n step (s, bs)) (P (Z.to_nat n)).
Proof.
  intros Hn Hs Hstep bs a r H.
  set (R m (x y : A * bytes) := ∀ k, P k x.1 → P (k + m)%nat y.1).
  assert (R (Z.to_nat n) (s, bs) (a, r)) as HR; [|by apply (HR 0%nat)].
  revert Hn H. apply (for_range_ind step R); unfold R.
  - intros x k. by rewrite Nat.add_0_r.
  - intros m [x bx] [y b'] z Hxy IH k Hk. rewrite <- Nat.add_succ_comm. apply IH. simpl.
    by eapply Hstep.
Qed.

Lemma ensures_read_many {A} (n : Z) (read : Decoder A) (P : A → Prop) :
  0 ≤ n → ensures read P → ensures (read_many n read) (fun l => Forall P l ∧ len l = n).
Proof.
  intros Hn Hread bs l r H.
  eapply (ensures_for_range n _ [] (fun k l => Forall P l ∧ length l = k)) in H; [|done|done|].
  - destruct H as [? Hl]. split; [done|]. unfold len. lia.
  - intros k a b a' b' [HP Hk] Hs. simpl in Hs. inv_ok. rewrite length_app. simpl.
    split; [|lia]. apply Forall_app. split; [done|]. constructor; [|done]. by eapply Hread.
Qed.

Section Ensures.
Context `{MinicborLaws}.

Lemma ensures_str : ensures d_str (fun s => utf8_valid s = true ∧ len s ≤ u64_max).
Proof. intros bs s r Hd%ok_or_Ok. by apply dec_str_type in Hd. Qed.
Lemma ensures_bytes : ensures d_bytes (fun s => len s ≤ u64_max).
Proof. intros bs s r Hd%ok_or_Ok. by apply dec_bytes_type in Hd. Qed.
Lemma ensures_u64 : ensures d_u64 (fun n => 0 ≤ n ≤ u64_max).
Proof. intros bs s r Hd%ok_or_Ok. by apply dec_u64_type in Hd. Qed.
Lemma ensures_i64 : ensures d_i64 (fun n => is_i64 n = true).
Proof. intros bs s r Hd%ok_or_Ok. by apply dec_i64_type in Hd. Qed.
Lemma ensures_array : ensures expect_definite_len (fun n => 0 ≤ n ≤ u64_max).
Proof.
  intros bs n r Hd. unfold expect_definite_len, d_array, lib in Hd. inv_dec. inv_ok.
  match goal with H : dec_array _ = Some (?o, _) |- _ => destruct o as [m|] end; inv_dec.
  by eapply dec_array_type.
Qed.
Lemma ensures_str_array :
  ensures decode_str_array
    (fun l => Forall (fun s => utf8_valid s = true ∧ len s ≤ u64_max) l ∧ len l ≤ u64_max).
Proof.
  eapply ensures_bind; [apply ensures_array|]. intros n Hn bs l r Hd.
  apply (ensures_read_many n d_str _ (proj1 Hn) ensures_str) in Hd as [? Hlen].
  split; [done|]. rewrite Hlen. apply Hn.
Qed.
Lemma ensures_opt {A} (read : Decoder A) (P : A → Prop) :
  ensures read P → ensures (decode_opt read) (fun o => from_option P True o).
Proof.
  intros Hread. eapply ensures_bind; [apply ensures_True|]. intros [] _.
  - eapply ensures_bind; [apply ensures_True|]. intros _ _. by apply ensures_ret.
  - eapply ensures_bind; [exact Hread|]. intros a Ha. by apply ensures_ret.
Qed.
End Ensures.

#[export] Hint Resolve reads_str reads_bytes reads_u64 reads_i64 reads_null reads_ret
  reads_expect_array reads_array reads_domain : reads.
