(* ===== verification/Hash.v ===== *)
(** * Hashing and hexadecimal ([crates/rag-rat-base/src/hash.rs], fingerprints of [op.rs])

    SHA-256 is a dependency: the class [Sha256] is an arbitrary function with 32-byte
    results.  Security statements are of the form "... or here is a collision", so no
    injectivity of the hash is assumed.  The hexadecimal codec and the parser of device
    fingerprints are the repository's own and are modelled in full. *)

From S2P Require Import Prelude.

Local Open Scope Z_scope.

Class Sha256 : Type := {
  sha256 : bytes → bytes;
  sha256_length b : length (sha256 b) = 32%nat;
}.

(** Two distinct inputs with one digest. *)
Definition collision `{Sha256} : Prop := ∃ a b : bytes, a ≠ b ∧ sha256 a = sha256 b.

(** A concrete 32-byte digest, to instantiate the interface: the last 32 bytes of the
    input, padded in front with the input length. *)
#[export] Program Instance toy_sha256 : Sha256 := {|
  sha256 b := reverse (take 32 (reverse (replicate 31 x00 ++ z2b (len b) :: b)));
|}.
Next Obligation.
  intros b. cbn beta. rewrite length_reverse, length_take, length_reverse, length_app, length_replicate.
  simpl. lia.
Qed.

(** ** Hexadecimal *)

(** One lower-case digit, as [{:02x}] writes it. *)
Definition hex_digit (n : Z) : byte := z2b (if bool_decide (n < 10) then 48 + n else 87 + n).

Definition hex_lower (bs : bytes) : bytes :=
  mjoin ((fun b => [hex_digit (Z.shiftr (b2z b) 4); hex_digit (Z.land (b2z b) 0xf)]) <$> bs).

Definition hex_nibble (b : byte) : option Z :=
  let v := b2z b in
  if bool_decide (48 ≤ v ≤ 57) then Some (v - 48)
  else if bool_decide (97 ≤ v ≤ 102) then Some (v - 97 + 10)
  else if bool_decide (65 ≤ v ≤ 70) then Some (v - 65 + 10)
  else None.

(** [high << 4 | low] in [u8]. *)
Definition pack (high low : Z) : byte := z2b (Z.lor (Z.shiftl high 4) low).

(** The [pairs] loop of [hex_decode]; a leftover byte makes the whole decode [None]. *)
Fixpoint hex_decode (text : bytes) : option bytes :=
  match text with
  | [] => Some []
  | [_] => None
  | high :: low :: rest =>
      h ← hex_nibble high;
      l ← hex_nibble low;
      out ← hex_decode rest;
      Some (pack h l :: out)
  end.

Definition hex_sha256 `{Sha256} (bs : bytes) : bytes := hex_lower (sha256 bs).

Definition hex_sha256_prefix `{Sha256} (bs : bytes) (keep : nat) : bytes :=
  let digest := sha256 bs in hex_lower (take (Nat.min keep (length digest)) digest).

(** ** Device fingerprints *)

Inductive ParseDeviceFingerprintError : Type :=
| Length (actual : Z)
| InvalidHex (index : Z).

(** The digit loop of [DeviceFingerprint::from_str] over the pairs from [index] on. *)
Fixpoint fingerprint_digits (index : Z) (value : bytes) : result ParseDeviceFingerprintError bytes :=
  match value with
  | hi :: lo :: rest =>
      high ← ok_or (InvalidHex (index * 2)) (hex_nibble hi);
      low ← ok_or (InvalidHex (index * 2 + 1)) (hex_nibble lo);
      out ← fingerprint_digits (index + 1) rest;
      Ok (pack high low :: out)
  | _ => Ok []
  end.

Definition fingerprint_from_str (value : bytes) : result ParseDeviceFingerprintError bytes :=
  if bool_decide (len value ≠ 64) then Err (Length (len value))
  else fingerprint_digits 0 value.

Definition fingerprint_display (fp : bytes) : bytes := hex_lower fp.

(** ** Lemmas *)

Lemma nibbles b :
  hex_nibble (hex_digit (Z.shiftr (b2z b) 4)) = Some (Z.shiftr (b2z b) 4) ∧
  hex_nibble (hex_digit (Z.land (b2z b) 0xf)) = Some (Z.land (b2z b) 0xf) ∧
  pack (Z.shiftr (b2z b) 4) (Z.land (b2z b) 0xf) = b.
Proof. destruct b; vm_compute; done. Qed.

(** ASCII lower case, on the digits [A-F]. *)
Definition to_lower (b : byte) : byte :=
  if bool_decide (65 ≤ b2z b ≤ 90) then z2b (b2z b + 32) else b.

Lemma hex_nibble_digit b n : hex_nibble b = Some n → 0 ≤ n < 16 ∧ hex_digit n = to_lower b.
Proof.
  intros H. destruct b; vm_compute in H; try discriminate H;
    injection H as <-; (split; [lia|reflexivity]).
Qed.

Lemma pack_fields h l :
  0 ≤ h < 16 → 0 ≤ l < 16 → b2z (pack h l) = h * 16 + l ∧
  Z.shiftr (b2z (pack h l)) 4 = h ∧ Z.land (b2z (pack h l)) 0xf = l.
Proof.
  intros Hh Hl. unfold pack. rewrite b2z_z2b.
  assert (Z.lor (Z.shiftl h 4) l = h * 16 + l) as ->.
  { assert (Z.land (Z.shiftl h 4) l = 0) as Hd.
    { apply Z.bits_inj'. intros i Hi. rewrite Z.land_spec, Z.bits_0.
      destruct (Z.lt_ge_cases i 4); [by rewrite Z.shiftl_spec_low|].
      rewrite (Z.bits_above_log2 l), andb_false_r; [done|lia|].
      destruct (Z.eq_dec l 0) as [->|]; [simpl; lia|].
      apply Z.log2_lt_pow2; [lia|]. apply Z.lt_le_trans with (2 ^ 4); [lia|].
      apply Z.pow_le_mono_r; lia. }
    rewrite <- Z.lxor_lor, <- Z.add_nocarry_lxor by done.
    rewrite Z.shiftl_mul_pow2 by lia. lia. }
  rewrite (Z.mod_small _ 256) by lia. split; [done|].
  rewrite Z.shiftr_div_pow2 by lia. change 0xf with (Z.ones 4). rewrite Z.land_ones by lia.
  change (2 ^ 4) with 16. rewrite Z.div_add_l, Z.div_small by lia.
  rewrite (Z.add_comm (h * 16)), Z.mod_add, Z.mod_small by lia. lia.
Qed.

Lemma hex_lower_cons b bs :
  hex_lower (b :: bs) =
  hex_digit (Z.shiftr (b2z b) 4) :: hex_digit (Z.land (b2z b) 0xf) :: hex_lower bs.
Proof. done. Qed.

Lemma len_hex_lower bs : len (hex_lower bs) = 2 * len bs.
Proof. induction bs as [|b bs IH]; [done|]. rewrite hex_lower_cons, !len_cons, IH. lia. Qed.

(** [text] read two bytes at a time. *)
Lemma pair_ind (P : bytes → Prop) :
  P [] → (∀ a, P [a]) → (∀ a b l, P l → P (a :: b :: l)) → ∀ l, P l.
Proof.
  intros H0 H1 H2 l. enough (P l ∧ ∀ a, P (a :: l)) as [? _] by done.
  induction l as [|x l [IH IH']]; [auto|]. split; [apply IH'|]. intros a. by apply H2.
Qed.

Lemma hex_decode_lower bs : hex_decode (hex_lower bs) = Some bs.
Proof.
  induction bs as [|b bs IH]; [done|]. rewrite hex_lower_cons. simpl.
  destruct (nibbles b) as (-> & -> & Hp). simpl. rewrite IH. simpl. by rewrite Hp.
Qed.

(** What [hex_decode] accepts is the encoding of its result up to letter case. *)
Lemma hex_decode_sound text bs :
  hex_decode text = Some bs → to_lower <$> text = hex_lower bs.
Proof.
  revert bs. induction text as [|a|a b l IH] using pair_ind; intros bs H; simpl in H; [naive_solver|done|].
  destruct (hex_nibble a) as [h|] eqn:Ha; [|done]. destruct (hex_nibble b) as [k|] eqn:Hb; [|done].
  simpl in H. destruct (hex_decode l) as [out|]; [|done]. simpl in H. injection H as <-.
  apply hex_nibble_digit in Ha as [Hh Ha], Hb as [Hk Hb].
  destruct (pack_fields h k Hh Hk) as (_ & Hhi & Hlo).
  rewrite hex_lower_cons, Hhi, Hlo. rewrite !fmap_cons, Ha, Hb. do 2 f_equal. by apply IH.
Qed.

Lemma fingerprint_digits_decode index value out :
  Nat.Even (length value) →
  fingerprint_digits index value = Ok out ↔ hex_decode value = Some out.
Proof.
  intros Heven. revert index out Heven. induction value as [|a|a b l IH] using pair_ind.
  - naive_solver.
  - intros index out [n Hn]. simpl in Hn. lia.
  - intros index out [n Hn]. simpl in Hn |- *.
    destruct (hex_nibble a) as [h|]; [|done]. destruct (hex_nibble b) as [k|]; [|done]. simpl.
    assert (Nat.Even (length l)) as He by (exists (n - 1)%nat; lia).
    destruct (fingerprint_digits (index + 1) l) as [o|e] eqn:Ho.
    + apply IH in Ho; [|done]. rewrite Ho. simpl. naive_solver.
    + simpl. destruct (hex_decode l) as [o|] eqn:Hd; [|done].
      apply (IH (index + 1) o) in He as [_ He]. rewrite He in Ho; done.
Qed.

Lemma even_64 (value : bytes) : len value = 64 → Nat.Even (length value).
Proof. unfold len. intros. exists 32%nat. lia. Qed.

(** Printing a device fingerprint and parsing it back gives the fingerprint, and
    whatever the parser accepts is the printed form of its result up to letter case: the
    operator-facing hexadecimal form names exactly one device. *)
Theorem fingerprint_roundtrip (fp value : bytes) :
  length fp = 32%nat →
  fingerprint_from_str (fingerprint_display fp) = Ok fp ∧
  (fingerprint_from_str value = Ok fp → to_lower <$> value = fingerprint_display fp).
Proof.
  intros Hfp. unfold fingerprint_from_str, fingerprint_display. split.
  - assert (len (hex_lower fp) = 64) as Hl by (rewrite len_hex_lower; unfold len; lia).
    rewrite bool_decide_false by (rewrite Hl; auto).
    apply fingerprint_digits_decode; [by apply even_64|apply hex_decode_lower].
  - case_bool_decide as Hl; [done|]. intros H. apply hex_decode_sound.
    eapply fingerprint_digits_decode; [|done]. apply even_64.
    destruct (decide (len value = 64)); [done|]. by destruct Hl.
Qed.

Lemma fingerprint_roundtrip_witness :
  fingerprint_from_str (fingerprint_display (replicate 32 xab)) = Ok (replicate 32 xab).
Proof. apply (fingerprint_roundtrip (replicate 32 xab) []). reflexivity. Defined.
