(* ===== verification/Op.v ===== *)
(** * The memory op model and its wire form ([crates/rag-rat-oplog/src/op.rs])

    The frozen op set, its canonical CBOR encoding and its decoder, with the relation set
    and the edge identity of [crates/rag-rat-query/src/memory/edges.rs].  Strings are byte
    lists; [str_ok] and the predicates built from it are the invariants Rust's types carry
    (UTF-8 text, 64-bit lengths and integers). *)

From S2P Require Import Prelude Cbor Minicbor Hash.

Local Open Scope Z_scope.

(** ** Data *)

Definition DOMAIN : bytes := lit "rag-rat/op/1".

(** The newtypes [NodeId(String)], [EdgeKey(String)], [DeviceFingerprint([u8; 32])]. *)
Definition NodeId : Type := bytes.
Definition EdgeKey : Type := bytes.
Definition DeviceFingerprint : Type := bytes.
#[export] Typeclasses Transparent NodeId EdgeKey DeviceFingerprint.

Inductive NodeStatus : Type := Active | Stale | Obsolete | Rejected.

Definition NodeStatus_default : NodeStatus := Active.

Definition NodeStatus_as_db_str (s : NodeStatus) : bytes :=
  lit match s with
      | Active => "active" | Stale => "stale" | Obsolete => "obsolete" | Rejected => "rejected"
      end.

Definition NodeStatus_from_db_str (value : bytes) : option NodeStatus :=
  if bool_decide (value = lit "active") then Some Active
  else if bool_decide (value = lit "stale") then Some Stale
  else if bool_decide (value = lit "obsolete") then Some Obsolete
  else if bool_decide (value = lit "rejected") then Some Rejected
  else None.

Inductive EdgeRelation : Type := DependsOn | RelatesTo | Supersedes | DerivedFrom | Tracks.

Definition EdgeRelation_as_db_str (r : EdgeRelation) : bytes :=
  lit match r with
      | DependsOn => "depends_on" | RelatesTo => "relates_to" | Supersedes => "supersedes"
      | DerivedFrom => "derived_from" | Tracks => "tracks"
      end.

Definition EdgeRelation_from_db_str (value : bytes) : option EdgeRelation :=
  if bool_decide (value = lit "depends_on") then Some DependsOn
  else if bool_decide (value = lit "relates_to") then Some RelatesTo
  else if bool_decide (value = lit "supersedes") then Some Supersedes
  else if bool_decide (value = lit "derived_from") then Some DerivedFrom
  else if bool_decide (value = lit "tracks") then Some Tracks
  else None.

Record NodeContent : Type := mkNodeContent {
  nc_kind : bytes;
  nc_title : bytes;
  nc_body : bytes;
  nc_confidence : bytes;
  nc_source : bytes;
  nc_tags : list bytes;
  nc_payload : option bytes;
}.

(** [NodeContent::canonicalize]: the tags in canonical set order. *)
Definition canonicalize (c : NodeContent) : NodeContent :=
  mkNodeContent (nc_kind c) (nc_title c) (nc_body c) (nc_confidence c) (nc_source c)
    (sort_dedup (nc_tags c)) (nc_payload c).

Record EdgeSpec : Type := mkEdgeSpec {
  es_source_node_id : NodeId;
  es_relation : EdgeRelation;
  es_target_repo_id : bytes;
  es_target_kind : bytes;
  es_target_anchor : bytes;
  es_owner_repo_id : bytes;
}.

(** The text [memory::edge_key] hashes: the four components joined by U+001E. *)
Definition edge_key_preimage (source_node_id relation target_kind target_anchor : bytes) : bytes :=
  source_node_id ++ x1e :: relation ++ x1e :: target_kind ++ x1e :: target_anchor.

Definition memory_edge_key `{Sha256} (source_node_id relation target_kind target_anchor : bytes) : bytes :=
  hex_sha256 (edge_key_preimage source_node_id relation target_kind target_anchor).

(** [EdgeSpec::edge_key]. *)
Definition edge_key `{Sha256} (e : EdgeSpec) : EdgeKey :=
  memory_edge_key (es_source_node_id e) (EdgeRelation_as_db_str (es_relation e))
    (es_target_kind e) (es_target_anchor e).

Record ResolvedAnchor : Type := mkResolvedAnchor {
  ra_target_repo_id : bytes;
  ra_target_node_id : option bytes;
  ra_anchor_status : bytes;
}.

Record PortableAnchor : Type := mkPortableAnchor {
  pa_binding_kind : bytes;
  pa_binding_id : bytes;
  pa_path : option bytes;
  pa_start_line : option Z;
  pa_end_line : option Z;
  pa_commit_hash : option bytes;
  pa_tracker : option bytes;
  pa_project : option bytes;
  pa_item_key : option bytes;
  pa_created_at_ms : Z;
  pa_symbol_kind : option bytes;
  pa_signature_hash : option bytes;
  pa_moniker_tool : option bytes;
  pa_moniker_tool_version : option bytes;
}.

Record AnchorScope : Type := mkAnchorScope {
  as_binding_kind : bytes;
  as_binding_id : bytes;
  as_scope_hash : bytes;
}.

(** The trait [IdentifiedRow]: a wire-set row is keyed by its binding identity. *)
Class IdentifiedRow (T : Type) := identity : T → bytes * bytes.
#[export] Instance PortableAnchor_identity : IdentifiedRow PortableAnchor :=
  fun a => (pa_binding_kind a, pa_binding_id a).
#[export] Instance AnchorScope_identity : IdentifiedRow AnchorScope :=
  fun s => (as_binding_kind s, as_binding_id s).

Definition MAX_ANCHORS_PER_OP : Z := 64.

(** [windows(2).all(|pair| pair[0] != pair[1])]. *)
Fixpoint windows_distinct {A} `{EqDecision A} (l : list A) : bool :=
  match l with
  | x :: ((y :: _) as l') => bool_decide (x ≠ y) && windows_distinct l'
  | _ => true
  end.

Definition identities_unique `{IdentifiedRow T} (items : list T) : bool :=
  if bool_decide (MAX_ANCHORS_PER_OP < len items) then false
  else windows_distinct (sort_unstable (identity <$> items)).

Inductive MemoryOp : Type :=
| NodeCreate (node_id : NodeId) (content : NodeContent)
| NodeUpdate (node_id : NodeId) (content : NodeContent)
| NodeStatusOp (node_id : NodeId) (status : NodeStatus)
| EdgeAdd (edge : EdgeSpec)
| EdgeRemove (key : EdgeKey)
| Rebind (key : EdgeKey) (resolved : ResolvedAnchor)
| NodeAnchors (node_id : NodeId) (anchors : list PortableAnchor)
| NodeSourceHash (node_id : NodeId) (source_text_hash : bytes)
| NodeAnchorScopes (node_id : NodeId) (scopes : list AnchorScope)
| Snapshot.

Definition within_wire_limits (op : MemoryOp) : bool :=
  match op with
  | NodeAnchors _ anchors => identities_unique anchors
  | NodeAnchorScopes _ scopes => identities_unique scopes
  | NodeSourceHash _ _ | NodeCreate _ _ | NodeUpdate _ _ | NodeStatusOp _ _ | EdgeAdd _
  | EdgeRemove _ | Rebind _ _ | Snapshot => true
  end.

Definition kind_tag (op : MemoryOp) : bytes :=
  lit match op with
      | NodeCreate _ _ => "node_create"
      | NodeUpdate _ _ => "node_update"
      | NodeStatusOp _ _ => "node_status"
      | EdgeAdd _ => "edge_add"
      | EdgeRemove _ => "edge_remove"
      | Rebind _ _ => "rebind"
      | NodeAnchors _ _ => "node_anchors"
      | NodeSourceHash _ _ => "node_source_hash"
      | NodeAnchorScopes _ _ => "node_anchor_scopes"
      | Snapshot => "snapshot"
      end.

Record OpMeta : Type := mkOpMeta { om_lamport : Z; om_device : DeviceFingerprint }.

Record Entry : Type := mkEntry { en_meta : OpMeta; en_op : MemoryOp }.

Inductive DecodedOp : Type :=
| Known (op : MemoryOp)
| Unknown (tag : bytes) (raw : bytes).

(** [anyhow] errors: a message, or a message in front of a codec error. *)
Inductive AnyError : Type :=
| Bail (m : string)
| Wrapped (m : string) (e : CborError).

(** ** Encoding

    The encoder appends to one buffer; each definition is what it appends. *)

Section Codec.
Context `{MC : Minicbor}.

Definition encode_opt_str : option bytes → bytes := put_opt put_str.
Definition encode_opt_i64 : option Z → bytes := put_opt put_i64.

Definition encode_content (c : NodeContent) : bytes :=
  let tags := sort_dedup (nc_tags c) in
  put_array 7 ++ put_str (nc_kind c) ++ put_str (nc_title c) ++ put_str (nc_body c) ++
  put_str (nc_confidence c) ++ put_str (nc_source c) ++
  put_array (len tags) ++ mjoin (put_str <$> tags) ++
  encode_opt_str (nc_payload c).

Definition encode_edge_spec (e : EdgeSpec) : bytes :=
  put_array 6 ++ put_str (es_source_node_id e) ++
  put_str (EdgeRelation_as_db_str (es_relation e)) ++ put_str (es_target_repo_id e) ++
  put_str (es_target_kind e) ++ put_str (es_target_anchor e) ++ put_str (es_owner_repo_id e).

Definition encode_resolved (r : ResolvedAnchor) : bytes :=
  put_array 3 ++ put_str (ra_target_repo_id r) ++ encode_opt_str (ra_target_node_id r) ++
  put_str (ra_anchor_status r).

Definition encode_identity_set `{IdentifiedRow T} (write : T → bytes) (items : list T) : bytes :=
  let ordered := sort_by_key identity items in
  put_array (len ordered) ++ mjoin (write <$> ordered).

Definition encode_anchor_scope (s : AnchorScope) : bytes :=
  put_array 3 ++ put_str (as_binding_kind s) ++ put_str (as_binding_id s) ++
  put_str (as_scope_hash s).

Definition encode_anchor (a : PortableAnchor) : bytes :=
  put_array 14 ++ put_str (pa_binding_kind a) ++ put_str (pa_binding_id a) ++
  encode_opt_str (pa_path a) ++ encode_opt_i64 (pa_start_line a) ++
  encode_opt_i64 (pa_end_line a) ++ encode_opt_str (pa_commit_hash a) ++
  encode_opt_str (pa_tracker a) ++ encode_opt_str (pa_project a) ++
  encode_opt_str (pa_item_key a) ++ put_i64 (pa_created_at_ms a) ++
  encode_opt_str (pa_symbol_kind a) ++ encode_opt_str (pa_signature_hash a) ++
  encode_opt_str (pa_moniker_tool a) ++ encode_opt_str (pa_moniker_tool_version a).

Definition encode_anchors : list PortableAnchor → bytes := encode_identity_set encode_anchor.
Definition encode_anchor_scopes : list AnchorScope → bytes :=
  encode_identity_set encode_anchor_scope.

Definition encode_payload (op : MemoryOp) : bytes :=
  match op with
  | NodeCreate node_id content | NodeUpdate node_id content =>
      put_array 2 ++ put_str node_id ++ encode_content content
  | NodeStatusOp node_id status =>
      put_array 2 ++ put_str node_id ++ put_str (NodeStatus_as_db_str status)
  | EdgeAdd edge => encode_edge_spec edge
  | EdgeRemove key => put_str key
  | Rebind key resolved => put_array 2 ++ put_str key ++ encode_resolved resolved
  | NodeAnchors node_id anchors => put_array 2 ++ put_str node_id ++ encode_anchors anchors
  | NodeSourceHash node_id hash => put_array 2 ++ put_str node_id ++ put_str hash
  | NodeAnchorScopes node_id scopes =>
      put_array 2 ++ put_str node_id ++ encode_anchor_scopes scopes
  | Snapshot => put_null
  end.

Definition encode (op : MemoryOp) : bytes :=
  put_array 3 ++ put_str DOMAIN ++ put_str (kind_tag op) ++ encode_payload op.

(** ** Decoding *)

Definition decode_opt_str : Decoder (option bytes) := decode_opt d_str.
Definition decode_opt_i64 : Decoder (option Z) := decode_opt d_i64.

Definition decode_content : Decoder NodeContent :=
  _ ← expect_array 7;
  kind ← d_str;
  title ← d_str;
  body ← d_str;
  confidence ← d_str;
  source ← d_str;
  tags ← decode_str_array;
  payload ← decode_opt_str;
  mret (mkNodeContent kind title body confidence source tags payload).

Definition decode_node_content : Decoder (NodeId * NodeContent) :=
  _ ← expect_array 2;
  node_id ← d_str;
  content ← decode_content;
  mret (node_id, content).

Definition decode_node_status : Decoder (option MemoryOp) :=
  _ ← expect_array 2;
  node_id ← d_str;
  token ← d_str;
  mret (NodeStatusOp node_id <$> NodeStatus_from_db_str token).

Definition decode_edge_spec : Decoder (option EdgeSpec) :=
  _ ← expect_array 6;
  source_node_id ← d_str;
  token ← d_str;
  target_repo_id ← d_str;
  target_kind ← d_str;
  target_anchor ← d_str;
  owner_repo_id ← d_str;
  mret (relation ← EdgeRelation_from_db_str token;
        Some (mkEdgeSpec source_node_id relation target_repo_id target_kind target_anchor
                owner_repo_id)).

Definition decode_resolved : Decoder ResolvedAnchor :=
  _ ← expect_array 3;
  target_repo_id ← d_str;
  target_node_id ← decode_opt_str;
  anchor_status ← d_str;
  mret (mkResolvedAnchor target_repo_id target_node_id anchor_status).

Definition decode_rebind : Decoder (EdgeKey * ResolvedAnchor) :=
  _ ← expect_array 2;
  key ← d_str;
  resolved ← decode_resolved;
  mret (key, resolved).

(** One iteration of the read loop of [decode_identity_set]. *)
Definition identity_step `{IdentifiedRow T} (op : string) (read : Decoder T)
    : list T * bytes → result CborError (list T * bytes) :=
  fun '(out, rest) =>
    '(item, rest) ← read rest;
    if match last out with
       | Some previous => bool_decide (cle (identity item) (identity previous))
       | None => false
       end
    then Err (NotIncreasing op)
    else Ok (out ++ [item], rest).

Definition decode_identity_set `{IdentifiedRow T} (op : string) (read : Decoder T) : Decoder (list T) :=
  n ← expect_definite_len;
  if bool_decide (MAX_ANCHORS_PER_OP < n) then fail (OverLimit op n)
  else fun bs => for_range n (identity_step op read) ([], bs).

Definition decode_anchor_scope : Decoder AnchorScope :=
  _ ← expect_array 3;
  binding_kind ← d_str;
  binding_id ← d_str;
  scope_hash ← d_str;
  mret (mkAnchorScope binding_kind binding_id scope_hash).

Definition decode_anchor : Decoder PortableAnchor :=
  _ ← expect_array 14;
  binding_kind ← d_str;
  binding_id ← d_str;
  path ← decode_opt_str;
  start_line ← decode_opt_i64;
  end_line ← decode_opt_i64;
  commit_hash ← decode_opt_str;
  tracker ← decode_opt_str;
  project ← decode_opt_str;
  item_key ← decode_opt_str;
  created_at_ms ← d_i64;
  symbol_kind ← decode_opt_str;
  signature_hash ← decode_opt_str;
  moniker_tool ← decode_opt_str;
  moniker_tool_version ← decode_opt_str;
  mret (mkPortableAnchor binding_kind binding_id path start_line end_line commit_hash tracker
          project item_key created_at_ms symbol_kind signature_hash moniker_tool
          moniker_tool_version).

Definition decode_anchors : Decoder (list PortableAnchor) :=
  decode_identity_set "node_anchors" decode_anchor.
Definition decode_anchor_scopes : Decoder (list AnchorScope) :=
  decode_identity_set "node_anchor_scopes" decode_anchor_scope.

Definition decode_node_anchors : Decoder (NodeId * list PortableAnchor) :=
  _ ← expect_array 2;
  node_id ← d_str;
  anchors ← decode_anchors;
  mret (node_id, anchors).

(** The [match kind.as_str()] of [decode_envelope]; [None] is an op kind, relation or
    status token this binary does not know. *)
Definition decode_known (kind : bytes) : Decoder (option MemoryOp) :=
  if bool_decide (kind = lit "node_create") then
    '(node_id, content) ← decode_node_content; mret (Some (NodeCreate node_id content))
  else if bool_decide (kind = lit "node_update") then
    '(node_id, content) ← decode_node_content; mret (Some (NodeUpdate node_id content))
  else if bool_decide (kind = lit "node_status") then decode_node_status
  else if bool_decide (kind = lit "edge_add") then
    edge ← decode_edge_spec; mret (EdgeAdd <$> (edge : option EdgeSpec))
  else if bool_decide (kind = lit "edge_remove") then
    key ← d_str; mret (Some (EdgeRemove key))
  else if bool_decide (kind = lit "rebind") then
    '(key, resolved) ← decode_rebind; mret (Some (Rebind key resolved))
  else if bool_decide (kind = lit "node_anchors") then
    '(node_id, anchors) ← decode_node_anchors; mret (Some (NodeAnchors node_id anchors))
  else if bool_decide (kind = lit "node_source_hash") then
    _ ← expect_array 2; node_id ← d_str; hash ← d_str;
    mret (Some (NodeSourceHash node_id hash))
  else if bool_decide (kind = lit "node_anchor_scopes") then
    _ ← expect_array 2; node_id ← d_str; scopes ← decode_anchor_scopes;
    mret (Some (NodeAnchorScopes node_id scopes))
  else if bool_decide (kind = lit "snapshot") then
    _ ← d_null; mret (Some Snapshot)
  else mret None.

(** The envelope header and the payload: the kind and the known op, if any. *)
Definition decode_head : Decoder (bytes * option MemoryOp) :=
  _ ← expect_array 3;
  domain ← d_str;
  if bool_decide (domain ≠ DOMAIN) then fail (UnknownDomain domain DOMAIN)
  else
    kind ← d_str;
    known ← decode_known kind;
    mret (kind, known).

Definition decode_envelope (bs : bytes) : result CborError DecodedOp :=
  '(kind, known) ← run decode_head bs;
  match known with
  | Some op =>
      if bool_decide (encode op ≠ bs) then Err (Message "non-canonical op encoding")
      else Ok (Known op)
  | None =>
      _ ← require_canonical_cbor bs;
      Ok (Unknown kind bs)
  end.

Definition decode (bs : bytes) : result AnyError DecodedOp :=
  map_err (Wrapped "op decode failed") (decode_envelope bs).
End Codec.

(** ** Type invariants *)

Definition str_ok (s : bytes) : Prop := utf8_valid s = true ∧ len s ≤ u64_max.
Definition opt_ok {A} (P : A → Prop) (o : option A) : Prop := from_option P True o.
Definition i64_ok (n : Z) : Prop := is_i64 n = true.

Definition content_ok (c : NodeContent) : Prop :=
  str_ok (nc_kind c) ∧ str_ok (nc_title c) ∧ str_ok (nc_body c) ∧ str_ok (nc_confidence c) ∧
  str_ok (nc_source c) ∧ Forall str_ok (nc_tags c) ∧ len (nc_tags c) ≤ u64_max ∧
  opt_ok str_ok (nc_payload c).

Definition edge_ok (e : EdgeSpec) : Prop :=
  str_ok (es_source_node_id e) ∧ str_ok (es_target_repo_id e) ∧ str_ok (es_target_kind e) ∧
  str_ok (es_target_anchor e) ∧ str_ok (es_owner_repo_id e).

Definition resolved_ok (r : ResolvedAnchor) : Prop :=
  str_ok (ra_target_repo_id r) ∧ opt_ok str_ok (ra_target_node_id r) ∧ str_ok (ra_anchor_status r).

Definition anchor_ok (a : PortableAnchor) : Prop :=
  str_ok (pa_binding_kind a) ∧ str_ok (pa_binding_id a) ∧ opt_ok str_ok (pa_path a) ∧
  opt_ok i64_ok (pa_start_line a) ∧ opt_ok i64_ok (pa_end_line a) ∧
  opt_ok str_ok (pa_commit_hash a) ∧ opt_ok str_ok (pa_tracker a) ∧ opt_ok str_ok (pa_project a) ∧
  opt_ok str_ok (pa_item_key a) ∧ i64_ok (pa_created_at_ms a) ∧ opt_ok str_ok (pa_symbol_kind a) ∧
  opt_ok str_ok (pa_signature_hash a) ∧ opt_ok str_ok (pa_moniker_tool a) ∧
  opt_ok str_ok (pa_moniker_tool_version a).

Definition scope_ok (s : AnchorScope) : Prop :=
  str_ok (as_binding_kind s) ∧ str_ok (as_binding_id s) ∧ str_ok (as_scope_hash s).

Definition op_ok (op : MemoryOp) : Prop :=
  match op with
  | NodeCreate node_id content | NodeUpdate node_id content => str_ok node_id ∧ content_ok content
  | NodeStatusOp node_id _ => str_ok node_id
  | EdgeAdd edge => edge_ok edge
  | EdgeRemove key => str_ok key
  | Rebind key resolved => str_ok key ∧ resolved_ok resolved
  | NodeAnchors node_id anchors =>
      str_ok node_id ∧ Forall anchor_ok anchors ∧ len anchors ≤ u64_max
  | NodeSourceHash node_id hash => str_ok node_id ∧ str_ok hash
  | NodeAnchorScopes node_id scopes =>
      str_ok node_id ∧ Forall scope_ok scopes ∧ len scopes ≤ u64_max
  | Snapshot => True
  end.

(** The canonical representative of an op: what its wire form says, sets in canonical
    order. *)
Definition canonical_op (op : MemoryOp) : MemoryOp :=
  match op with
  | NodeCreate node_id content => NodeCreate node_id (canonicalize content)
  | NodeUpdate node_id content => NodeUpdate node_id (canonicalize content)
  | NodeAnchors node_id anchors => NodeAnchors node_id (sort_by_key identity anchors)
  | NodeAnchorScopes node_id scopes => NodeAnchorScopes node_id (sort_by_key identity scopes)
  | op => op
  end.

(** ** Identity sets *)

Lemma windows_distinct_strict `{TotalCmp A, EqDecision A} (l : list A) :
  StronglySorted cle l → windows_distinct l = true ↔ StronglySorted clt l.
Proof.
  induction 1 as [|x l Hl IH Hx]; [split; [constructor|done]|].
  destruct l as [|y l]; [split; [by repeat constructor|done]|].
  change (bool_decide (x ≠ y) && windows_distinct (y :: l) = true ↔ StronglySorted clt (x :: y :: l)).
  rewrite andb_true_iff, bool_decide_eq_true, IH. apply Forall_cons in Hx as [Hxy Hx].
  split.
  - intros [Hne Hs]. constructor; [done|]. apply cle_lt_eq in Hxy as [Hlt|]; [|done].
    constructor; [done|]. apply StronglySorted_inv in Hs as [_ Hs].
    eapply Forall_impl; [exact Hs|]. intros z Hz. by transitivity y.
  - intros [Hs Hlt]%StronglySorted_inv. split; [|done]. intros ->.
    apply Forall_cons in Hlt as [Hlt _]. by apply clt_irrefl in Hlt.
Qed.

Section IdentitySets.
Context `{IdentifiedRow T}.

(** Rows in strictly ascending identity order: what the decoder demands. *)
Definition strict_rows (l : list T) : Prop :=
  StronglySorted (fun x y => clt (identity x) (identity y)) l.

Lemma identities_unique_iff (items : list T) :
  identities_unique items = true ↔
  len items ≤ MAX_ANCHORS_PER_OP ∧ strict_rows (sort_by_key identity items).
Proof.
  unfold identities_unique, strict_rows. case_bool_decide as Hl; [split; [done|lia]|].
  rewrite windows_distinct_strict by apply (sort_by_key_sorted id).
  rewrite <- fmap_sort_by_key, <- (sorted_by_key_fmap clt). split; [split; [lia|done]|tauto].
Qed.
End IdentitySets.

(** The test of the read loop admits exactly the next row of a strict order. *)
Lemma strict_rows_snoc `{IdentifiedRow T} (l : list T) (x : T) :
  strict_rows l →
  match last l with
  | Some previous => bool_decide (cle (identity x) (identity previous))
  | None => false
  end = false →
  strict_rows (l ++ [x]).
Proof.
  intros Hl Hlast. apply StronglySorted_app_2; [|done|by repeat constructor].
  intros y z Hy ->%list_elem_of_singleton. destruct (last l) as [w|] eqn:Hw.
  - apply last_Some in Hw as [l' ->]. apply bool_decide_eq_false, not_cle_clt in Hlast.
    apply elem_of_app in Hy as [Hy| ->%list_elem_of_singleton]; [|done].
    transitivity (identity w); [|done]. eapply (StronglySorted_app_1_elem_of _ _ _ y w Hl); set_solver.
  - apply last_None in Hw as ->. by apply elem_of_nil in Hy.
Qed.

(** ** Reading an encoded op back *)

Ltac ok_hyps :=
  repeat match goal with
  | H : _ ∧ _ |- _ => destruct H
  end.

Section RoundTrip.
Context `{MinicborLaws}.

Lemma reads_str_ok s : str_ok s → reads d_str (put_str s) s.
Proof. intros [? ?]. by apply reads_str. Qed.

Lemma reads_opt_str o : opt_ok str_ok o → reads decode_opt_str (encode_opt_str o) o.
Proof.
  intros Ho. apply reads_opt. intros s ->. split; [by apply reads_str_ok|].
  apply non_null_str, Ho.
Qed.

Lemma reads_opt_i64 o : opt_ok i64_ok o → reads decode_opt_i64 (encode_opt_i64 o) o.
Proof.
  intros Ho. apply reads_opt. intros n ->. split; [by apply reads_i64|]. by apply non_null_i64.
Qed.

Lemma reads_str_array l :
  Forall str_ok l → len l ≤ u64_max →
  reads decode_str_array (put_array (len l) ++ mjoin (put_str <$> l)) l.
Proof.
  intros Hl Hlen. pose proof (len_nonneg l).
  eapply reads_bind; [by apply reads_array|]. rewrite <- (list_fmap_id l) at 3.
  apply reads_read_many. eapply Forall_impl; [exact Hl|]. apply reads_str_ok.
Qed.

Lemma identity_loop `{IdentifiedRow T} (op : string) (read : Decoder T) (write : T → bytes) l :
  Forall (fun a => reads read (write a) a) l →
  ∀ out r, strict_rows (out ++ l) →
    for_range (len l) (identity_step op read) (out, mjoin (write <$> l) ++ r) = Ok (out ++ l, r).
Proof.
  induction 1 as [|x l Hx Hl IH]; intros out r Hs; [simpl; by rewrite app_nil_r|].
  rewrite len_cons, for_range_succ by apply len_nonneg.
  rewrite fmap_cons. simpl. rewrite <- app_assoc, Hx. simpl.
  assert (match last out with
          | Some previous => bool_decide (cle (identity x) (identity previous))
          | None => false end = false) as ->.
  { destruct (last out) as [y|] eqn:Hy; [|done]. apply last_Some in Hy as [out' ->].
    apply bool_decide_eq_false, not_cle_clt.
    eapply (StronglySorted_app_1_elem_of _ _ _ y x Hs); set_solver. }
  simpl. rewrite IH; rewrite <- app_assoc; done.
Qed.

Lemma reads_identity_set `{IdentifiedRow T} (op : string) (read : Decoder T) (write : T → bytes) l :
  Forall (fun a => reads read (write a) a) l → strict_rows l → len l ≤ MAX_ANCHORS_PER_OP →
  reads (decode_identity_set op read) (put_array (len l) ++ mjoin (write <$> l)) l.
Proof.
  intros Hl Hs Hlen. pose proof (len_nonneg l).
  eapply reads_bind; [apply reads_array; unfold MAX_ANCHORS_PER_OP, u64_max in *; lia|].
  rewrite bool_decide_false by (unfold MAX_ANCHORS_PER_OP in *; lia).
  intros r. by apply identity_loop.
Qed.

Lemma status_str_ok st : str_ok (NodeStatus_as_db_str st).
Proof. by destruct st. Qed.
Lemma relation_str_ok r : str_ok (EdgeRelation_as_db_str r).
Proof. by destruct r. Qed.
Lemma kind_tag_ok op : str_ok (kind_tag op).
Proof. by destruct op. Qed.
Lemma DOMAIN_ok : str_ok DOMAIN.
Proof. done. Qed.

Lemma status_db_str_inv st : NodeStatus_from_db_str (NodeStatus_as_db_str st) = Some st.
Proof. by destruct st. Qed.
Lemma relation_db_str_inv r : EdgeRelation_from_db_str (EdgeRelation_as_db_str r) = Some r.
Proof. by destruct r. Qed.

#[local] Hint Resolve reads_str_ok reads_opt_str reads_opt_i64 reads_str_array status_str_ok
  relation_str_ok kind_tag_ok DOMAIN_ok : reads.
#[local] Hint Extern 1 (0 ≤ _ ∧ _ ≤ u64_max) => (unfold u64_max; lia) : reads.
#[local] Hint Unfold i64_ok : reads.

(** One read of a decoder, matched with the next write. *)
Ltac reads_step :=
  first [ eapply reads_bind_nil; [solve [eauto 4 with reads]|reflexivity]
        | eapply reads_bind; [solve [eauto 4 with reads]|] ].
Ltac solve_reads := ok_hyps; repeat reads_step.

Lemma canonicalize_ok c : content_ok c → content_ok (canonicalize c).
Proof.
  unfold content_ok, canonicalize. simpl. intros Hc. ok_hyps. split_and!; try done.
  - rewrite Forall_forall in *. intros x. rewrite elem_of_sort_dedup. auto.
  - pose proof (sort_dedup_len (nc_tags c)). lia.
Qed.

Lemma reads_content c : content_ok c → reads decode_content (encode_content c) (canonicalize c).
Proof.
  intros Hc%canonicalize_ok. unfold content_ok, canonicalize in *. simpl in Hc.
  unfold encode_content, decode_content.
  rewrite (app_assoc (put_array (len (sort_dedup _)))). solve_reads.
Qed.

Lemma reads_edge_spec e : edge_ok e → reads decode_edge_spec (encode_edge_spec e) (Some e).
Proof.
  unfold edge_ok, encode_edge_spec, decode_edge_spec. intros. ok_hyps.
  do 6 reads_step. eapply reads_bind_nil; [eauto with reads|].
  rewrite relation_db_str_inv. by destruct e.
Qed.

Lemma reads_resolved r : resolved_ok r → reads decode_resolved (encode_resolved r) r.
Proof. unfold resolved_ok, encode_resolved, decode_resolved. destruct r. intros. solve_reads. Qed.

Lemma reads_anchor_scope s : scope_ok s → reads decode_anchor_scope (encode_anchor_scope s) s.
Proof. unfold scope_ok, encode_anchor_scope, decode_anchor_scope. destruct s. intros. solve_reads. Qed.

Lemma reads_anchor a : anchor_ok a → reads decode_anchor (encode_anchor a) a.
Proof. unfold anchor_ok, encode_anchor, decode_anchor. destruct a. simpl. intros. solve_reads. Qed.

Lemma reads_rows `{IdentifiedRow T} (op : string) (read : Decoder T) (write : T → bytes)
    (P : T → Prop) (l : list T) :
  (∀ a, P a → reads read (write a) a) → Forall P l → identities_unique l = true →
  reads (decode_identity_set op read) (encode_identity_set write l) (sort_by_key identity l).
Proof.
  intros Hread HP [Hlen Hs]%identities_unique_iff. apply reads_identity_set; [|done|].
  - rewrite sort_by_key_perm. eapply Forall_impl; [exact HP|done].
  - by rewrite sort_by_key_len.
Qed.

#[local] Hint Resolve reads_content reads_edge_spec reads_resolved : reads.

Lemma reads_anchors l :
  Forall anchor_ok l → identities_unique l = true →
  reads decode_anchors (encode_anchors l) (sort_by_key identity l).
Proof. intros. eapply reads_rows; eauto using reads_anchor. Qed.

Lemma reads_anchor_scopes l :
  Forall scope_ok l → identities_unique l = true →
  reads decode_anchor_scopes (encode_anchor_scopes l) (sort_by_key identity l).
Proof. intros. eapply reads_rows; eauto using reads_anchor_scope. Qed.

#[local] Hint Resolve reads_anchors reads_anchor_scopes : reads.

Lemma reads_node_content node_id c :
  str_ok node_id → content_ok c →
  reads decode_node_content (put_array 2 ++ put_str node_id ++ encode_content c)
    (node_id, canonicalize c).
Proof. intros. unfold decode_node_content. solve_reads. Qed.

Lemma reads_node_status node_id st :
  str_ok node_id →
  reads decode_node_status (put_array 2 ++ put_str node_id ++ put_str (NodeStatus_as_db_str st))
    (Some (NodeStatusOp node_id st)).
Proof.
  intros. unfold decode_node_status. do 2 reads_step. eapply reads_bind_nil; [eauto with reads|].
  by rewrite status_db_str_inv.
Qed.

Lemma reads_rebind key r :
  str_ok key → resolved_ok r →
  reads decode_rebind (put_array 2 ++ put_str key ++ encode_resolved r) (key, r).
Proof. intros. unfold decode_rebind. solve_reads. Qed.

Lemma reads_node_anchors node_id l :
  str_ok node_id → Forall anchor_ok l → identities_unique l = true →
  reads decode_node_anchors (put_array 2 ++ put_str node_id ++ encode_anchors l)
    (node_id, sort_by_key identity l).
Proof. intros. unfold decode_node_anchors. solve_reads. Qed.

#[local] Hint Resolve reads_node_content reads_node_status reads_rebind reads_node_anchors : reads.

(** The arm of [decode_known] an op's tag selects. *)
Lemma decode_known_tag op :
  decode_known (kind_tag op) =
  match op with
  | NodeCreate _ _ => '(n, c) ← decode_node_content; mret (Some (NodeCreate n c))
  | NodeUpdate _ _ => '(n, c) ← decode_node_content; mret (Some (NodeUpdate n c))
  | NodeStatusOp _ _ => decode_node_status
  | EdgeAdd _ => e ← decode_edge_spec; mret (EdgeAdd <$> (e : option EdgeSpec))
  | EdgeRemove _ => k ← d_str; mret (Some (EdgeRemove k))
  | Rebind _ _ => '(k, r) ← decode_rebind; mret (Some (Rebind k r))
  | NodeAnchors _ _ => '(n, l) ← decode_node_anchors; mret (Some (NodeAnchors n l))
  | NodeSourceHash _ _ =>
      _ ← expect_array 2; n ← d_str; h ← d_str; mret (Some (NodeSourceHash n h))
  | NodeAnchorScopes _ _ =>
      _ ← expect_array 2; n ← d_str; l ← decode_anchor_scopes; mret (Some (NodeAnchorScopes n l))
  | Snapshot => _ ← d_null; mret (Some Snapshot)
  end.
Proof. by destruct op. Qed.

Lemma reads_known op :
  op_ok op → within_wire_limits op = true →
  reads (decode_known (kind_tag op)) (encode_payload op) (Some (canonical_op op)).
Proof.
  intros Hok Hlim. rewrite decode_known_tag.
  destruct op; simpl in Hok, Hlim; simpl encode_payload; ok_hyps;
    first [solve [eauto 4 with reads]|solve_reads].
Qed.

Lemma reads_head op :
  op_ok op → within_wire_limits op = true →
  reads decode_head (encode op) (kind_tag op, Some (canonical_op op)).
Proof.
  intros Hok Hlim. pose proof (reads_known op Hok Hlim). unfold decode_head, encode.
  do 2 reads_step. rewrite bool_decide_false by (intros Hne; by apply Hne). solve_reads.
Qed.

(** The wire form only depends on the canonical representative. *)
Lemma encode_canonical_op op : encode (canonical_op op) = encode op.
Proof.
  destruct op; simpl; try done; unfold encode, encode_payload, encode_content, encode_anchors,
    encode_anchor_scopes, encode_identity_set; simpl;
    by rewrite ?sort_dedup_idemp, ?sort_by_key_idemp.
Qed.

Lemma decode_envelope_encode op :
  op_ok op → within_wire_limits op = true →
  decode_envelope (encode op) = Ok (Known (canonical_op op)).
Proof.
  intros Hok Hlim. unfold decode_envelope, run.
  rewrite <- (app_nil_r (encode op)) at 1. rewrite reads_head by done. simpl.
  rewrite bool_decide_false; [done|]. rewrite encode_canonical_op. by intros [].
Qed.
End RoundTrip.

(** ** What a decoded op satisfies *)

Section Decoded.
Context `{MinicborLaws}.

Lemma ensures_str_ok : ensures d_str str_ok.
Proof. apply ensures_str. Qed.
Lemma ensures_opt_str : ensures decode_opt_str (opt_ok str_ok).
Proof. apply ensures_opt, ensures_str. Qed.
Lemma ensures_opt_i64 : ensures decode_opt_i64 (opt_ok i64_ok).
Proof. apply ensures_opt, ensures_i64. Qed.
Lemma ensures_tags : ensures decode_str_array (fun l => Forall str_ok l ∧ len l ≤ u64_max).
Proof. apply ensures_str_array. Qed.

Create HintDb ensures.
#[local] Hint Resolve ensures_str_ok ensures_opt_str ensures_opt_i64 ensures_tags ensures_i64 : ensures.

Ltac ensures_step :=
  lazymatch goal with
  | |- ensures (mret _) _ => apply ensures_ret; simpl
  | |- ensures (_ ≫= _) _ =>
      first [ eapply ensures_bind; [solve [eauto with ensures]|intros ? ?; cbv beta in *]
            | eapply ensures_bind; [apply ensures_True|intros ? _] ]
  end.
Ltac solve_ensures := repeat ensures_step; ok_hyps; try (split_and!; by auto).

Lemma ensures_content : ensures decode_content content_ok.
Proof. unfold decode_content, content_ok. solve_ensures. Qed.
Lemma ensures_edge_spec : ensures decode_edge_spec (opt_ok edge_ok).
Proof.
  unfold decode_edge_spec, edge_ok. repeat ensures_step.
  destruct (EdgeRelation_from_db_str _); simpl; [split_and!|]; done.
Qed.
Lemma ensures_resolved : ensures decode_resolved resolved_ok.
Proof. unfold decode_resolved, resolved_ok. solve_ensures. Qed.
Lemma ensures_anchor : ensures decode_anchor anchor_ok.
Proof. unfold decode_anchor, anchor_ok. solve_ensures. Qed.
Lemma ensures_anchor_scope : ensures decode_anchor_scope scope_ok.
Proof. unfold decode_anchor_scope, scope_ok. solve_ensures. Qed.

(** A decoded identity set is in strict order and within the row limit. *)
Lemma ensures_identity_set `{IdentifiedRow T} (op : string) (read : Decoder T) (P : T → Prop) :
  ensures read P →
  ensures (decode_identity_set op read)
    (fun l => Forall P l ∧ strict_rows l ∧ len l ≤ MAX_ANCHORS_PER_OP).
Proof.
  intros Hread. unfold decode_identity_set. eapply ensures_bind; [apply ensures_array|].
  intros n Hn. cbv beta in Hn. case_bool_decide as Hmax; [apply ensures_fail|]. intros bs l r Hd.
  apply (ensures_for_range n (identity_step op read) []
    (fun k l => Forall P l ∧ strict_rows l ∧ length l = k)) in Hd; [|lia|by repeat constructor|].
  { destruct Hd as (? & ? & Hl). split_and!; [done|done|]. unfold len. rewrite Hl. lia. }
  intros k a b a' b' (HP & Hs & Hk) Hstep. simpl in Hstep. inv_ok.
  destruct (match last a with Some _ => _ | None => _ end) eqn:Hlast in Hstep; inv_ok.
  rewrite length_app. simpl. split_and!; [|by apply strict_rows_snoc|lia].
  apply Forall_app. split; [done|]. constructor; [|done]. by eapply Hread.
Qed.

(** The rows of a decoded set pass the encoder's own limit check. *)
Lemma strict_rows_unique `{IdentifiedRow T} (l : list T) :
  strict_rows l → len l ≤ MAX_ANCHORS_PER_OP → identities_unique l = true.
Proof.
  intros Hs Hl. apply identities_unique_iff. split; [done|].
  rewrite sort_by_key_id; [done|]. unfold strict_rows, sorted_by_key in *.
  induction Hs as [|x l Hl' IH Hx]; constructor.
  - apply IH. rewrite len_cons in Hl. lia.
  - eapply Forall_impl; [exact Hx|]. intros y. apply clt_cle.
Qed.

Lemma ensures_rows `{IdentifiedRow T} (op : string) (read : Decoder T) (P : T → Prop) :
  ensures read P →
  ensures (decode_identity_set op read)
    (fun l => (Forall P l ∧ len l ≤ u64_max) ∧ identities_unique l = true).
Proof.
  intros Hread bs l r Hd. apply (ensures_identity_set op read P Hread) in Hd as (? & ? & ?).
  split_and!; [done| |by apply strict_rows_unique]. unfold MAX_ANCHORS_PER_OP, u64_max in *. lia.
Qed.

#[local] Hint Resolve ensures_content ensures_edge_spec ensures_resolved ensures_anchor
  ensures_anchor_scope ensures_rows : ensures.

(** The type invariant and the wire limits hold of every op the decoder accepts. *)
Definition wire_op (op : MemoryOp) : Prop := op_ok op ∧ within_wire_limits op = true.

Lemma ensures_node_content :
  ensures decode_node_content (fun p => str_ok p.1 ∧ content_ok p.2).
Proof. unfold decode_node_content. solve_ensures. Qed.
Lemma ensures_node_status : ensures decode_node_status (opt_ok wire_op).
Proof.
  unfold decode_node_status. repeat ensures_step.
  destruct (NodeStatus_from_db_str _); simpl; [|done]. split; done.
Qed.
Lemma ensures_rebind : ensures decode_rebind (fun p => str_ok p.1 ∧ resolved_ok p.2).
Proof. unfold decode_rebind. solve_ensures. Qed.
Lemma ensures_node_anchors :
  ensures decode_node_anchors
    (fun p => str_ok p.1 ∧ (Forall anchor_ok p.2 ∧ len p.2 ≤ u64_max) ∧ identities_unique p.2 = true).
Proof. unfold decode_node_anchors, decode_anchors. solve_ensures. Qed.

#[local] Hint Resolve ensures_node_content ensures_node_status ensures_rebind
  ensures_node_anchors : ensures.

Lemma ensures_known kind : ensures (decode_known kind) (opt_ok wire_op).
Proof.
  unfold decode_known, decode_anchor_scopes.
  repeat case_bool_decide; try apply ensures_node_status; repeat ensures_step;
    repeat match goal with p : _ * _ |- _ => destruct p end; repeat ensures_step;
    unfold wire_op; simpl in *; ok_hyps; try (by split_and!).
  - match goal with o : option EdgeSpec |- _ => by destruct o end.
  - done.
Qed.

Lemma decode_envelope_known bs op :
  decode_envelope bs = Ok (Known op) → wire_op op ∧ encode op = bs ∧ canonical_op op = op.
Proof.
  intros Hd. pose proof Hd as Hd'. unfold decode_envelope, decode_head in Hd. inv_ok.
  match goal with H : run _ _ = _ |- _ => rename H into Hrun end.
  match type of Hd with match ?o with _ => _ end = _ => destruct o as [op'|] end; inv_ok; [|done].
  case_bool_decide as Hne; inv_ok.
  assert (wire_op op) as Hop.
  { inv_dec. case_bool_decide; inv_dec. simplify_eq.
    match goal with H : decode_known _ _ = _ |- _ => by apply ensures_known in H end. }
  split_and!; [done|done|].
  rewrite decode_envelope_encode in Hd' by apply Hop. by simplify_eq.
Qed.

Lemma decode_envelope_unknown bs tag raw :
  decode_envelope bs = Ok (Unknown tag raw) → raw = bs ∧ require_canonical_cbor bs = Ok tt.
Proof.
  unfold decode_envelope. intros Hd. inv_ok.
  match type of Hd with match ?o with _ => _ end = _ => destruct o as [op'|] end; inv_ok.
  - case_bool_decide; inv_ok; done.
  - match goal with u : unit |- _ => destruct u end. by simplify_eq.
Qed.

(** Well-typed ops with one wire form have one canonical representative, whether or not
    they are within the wire limits: rows are read back leniently here. *)
Lemma reads_rows_lenient `{IdentifiedRow T} (read : Decoder T) (write : T → bytes)
    (P : T → Prop) (l : list T) :
  (∀ a, P a → reads read (write a) a) → Forall P l → len l ≤ u64_max →
  reads (n ← expect_definite_len; read_many n read) (encode_identity_set write l)
    (sort_by_key identity l).
Proof.
  intros Hread HP Hlen. unfold encode_identity_set.
  assert (Forall P (sort_by_key identity l)) as HPs by by rewrite sort_by_key_perm.
  rewrite <- (sort_by_key_len identity l) in Hlen.
  revert HPs Hlen. generalize (sort_by_key identity l). clear l HP. intros l HP Hlen.
  pose proof (len_nonneg l). eapply reads_bind; [by apply reads_array|].
  rewrite <- (list_fmap_id l) at 3. apply reads_read_many. eapply Forall_impl; [exact HP|done].
Qed.

Lemma node_rows_inj `{IdentifiedRow T} (read : Decoder T) (write : T → bytes) (P : T → Prop)
    (n n' : NodeId) (l l' : list T) :
  (∀ a, P a → reads read (write a) a) →
  str_ok n → Forall P l → len l ≤ u64_max → str_ok n' → Forall P l' → len l' ≤ u64_max →
  put_array 2 ++ put_str n ++ encode_identity_set write l =
    put_array 2 ++ put_str n' ++ encode_identity_set write l' →
  n = n' ∧ sort_by_key identity l = sort_by_key identity l'.
Proof.
  intros Hread Hn Hl Hlen Hn' Hl' Hlen' Heq. apply app_inv_head in Heq.
  apply (reads_cancel d_str _ _ n n') in Heq as [-> Heq]; [|by apply reads_str_ok..].
  split; [done|]. pose proof (reads_rows_lenient read write P l Hread Hl Hlen) as Hr.
  rewrite Heq in Hr. eapply reads_det; [exact Hr|]. by apply (reads_rows_lenient _ _ P).
Qed.

Lemma payload_inj op op' :
  op_ok op → op_ok op' → kind_tag op = kind_tag op' → encode_payload op = encode_payload op' →
  canonical_op op = canonical_op op'.
Proof.
  intros Hop Hop' Htag Hpay.
  destruct (within_wire_limits op && within_wire_limits op') eqn:Hlim.
  { apply andb_true_iff in Hlim as [Hlim Hlim'].
    pose proof (reads_known op Hop Hlim) as Hr. rewrite Htag, Hpay in Hr.
    pose proof (reads_known op' Hop' Hlim') as Hr'. pose proof (reads_det _ _ _ _ Hr Hr').
    by simplify_eq. }
  destruct op; destruct op'; try done; simpl in *; ok_hyps.
  - destruct (node_rows_inj decode_anchor encode_anchor anchor_ok node_id node_id0 anchors anchors0)
      as [-> ->]; auto using reads_anchor.
  - destruct (node_rows_inj decode_anchor_scope encode_anchor_scope scope_ok node_id node_id0
      scopes scopes0) as [-> ->]; auto using reads_anchor_scope.
Qed.
Lemma encode_inj_canonical op op' :
  op_ok op → op_ok op' → encode op = encode op' → canonical_op op = canonical_op op'.
Proof.
  intros Hop Hop' Heq. do 2 apply app_inv_head in Heq.
  apply (reads_cancel d_str _ _ (kind_tag op) (kind_tag op')) in Heq as [Htag Hpay];
    [|apply reads_str_ok, kind_tag_ok..].
  by apply payload_inj.
Qed.
End Decoded.

Lemma within_limits_canonical op : within_wire_limits (canonical_op op) = within_wire_limits op.
Proof.
  destruct op; simpl; try done; apply eq_bool_prop_intro; rewrite !Is_true_true,
    !identities_unique_iff, sort_by_key_idemp, sort_by_key_len; done.
Qed.

Section KnownTags.
Context `{MinicborLaws}.

(** The decoder of a row-set op always names the op. *)
Lemma ensures_rows_op op :
  within_wire_limits op = false → ensures (decode_known (kind_tag op)) is_Some.
Proof.
  intros Hlim. rewrite decode_known_tag.
  destruct op; simpl in Hlim; try done;
    repeat (eapply ensures_bind; [apply ensures_True|intros ? _]); try destruct_and!;
    repeat case_match; by apply ensures_ret.
Qed.

Lemma decode_head_encode op kind known r :
  decode_head (encode op) = Ok ((kind, known), r) →
  ∃ rest r', decode_known (kind_tag op) rest = Ok (known, r').
Proof.
  unfold decode_head, encode. intros Hd. unfold mbind at 1, Decoder_bind at 1 in Hd.
  rewrite reads_expect_array in Hd by (unfold u64_max; lia). simpl in Hd.
  unfold mbind at 1, Decoder_bind at 1 in Hd. rewrite reads_str_ok in Hd by apply DOMAIN_ok.
  simpl in Hd.
  unfold mbind at 1, Decoder_bind at 1 in Hd. rewrite reads_str_ok in Hd by apply kind_tag_ok.
  simpl in Hd. inv_dec. simplify_eq. eauto.
Qed.

Lemma decode_envelope_encode_unknown op tag raw :
  op_ok op → within_wire_limits op = false → decode_envelope (encode op) ≠ Ok (Unknown tag raw).
Proof.
  intros Hop Hlim Hd. unfold decode_envelope in Hd. inv_ok. inv_dec.
  match goal with H : decode_head _ = _ |- _ => apply decode_head_encode in H as (rest & r' & H);
    apply ensures_rows_op in H as [op' ->] end; [|done]. case_bool_decide; inv_ok; done.
Qed.
End KnownTags.

(** ** Properties *)

(** C40.  Every op within the wire limits survives the wire: decoding its encoding returns
    the op with its sets in canonical order, never an error and never [Unknown]. *)
Theorem decode_encode `{MinicborLaws} (op : MemoryOp) :
  op_ok op → within_wire_limits op = true → decode (encode op) = Ok (Known (canonical_op op)).
Proof. intros. unfold decode. by rewrite decode_envelope_encode. Qed.

Lemma decode_encode_witness :
  let op := NodeAnchors (lit "n")
    [mkPortableAnchor (lit "symbol") (lit "b") None (Some 3) (Some (-4)) None None None None 7 None
       None None None;
     mkPortableAnchor (lit "symbol") (lit "a") (Some (lit "p.rs")) None None None None None None 8
       None None None None] in
  decode (encode op) = Ok (Known (canonical_op op)) ∧ canonical_op op ≠ op.
Proof.
  split; [|by vm_compute].
  apply decode_encode; [|reflexivity]. repeat constructor; by vm_compute.
Defined.

(** An accepted op has one wire form: bytes decoded to a known op are exactly what
    the encoder writes for it, and the op satisfies the type invariant, the wire limits and
    is its own canonical representative. *)
Theorem decode_known_canonical `{MinicborLaws} (bs : bytes) (op : MemoryOp) :
  decode bs = Ok (Known op) →
  bs = encode op ∧ canonical_op op = op ∧ op_ok op ∧ within_wire_limits op = true.
Proof.
  unfold decode. intros Hd. destruct (decode_envelope bs) eqn:E; simpl in Hd; [|done].
  simplify_eq. apply decode_envelope_known in E as ([? ?] & <- & ?). done.
Qed.

Lemma decode_known_canonical_witness :
  lit "" ++ encode Snapshot = encode Snapshot ∧ canonical_op Snapshot = Snapshot ∧
  op_ok Snapshot ∧ within_wire_limits Snapshot = true.
Proof. apply decode_known_canonical. vm_compute. reflexivity. Defined.

(** The encoder's limit predicate is exact: a well-typed op's encoding decodes if and
    only if [within_wire_limits] holds, so an author that checks it never publishes an op
    its readers refuse, and never holds back one they would accept. *)
Theorem within_wire_limits_exact `{MinicborLaws} (op : MemoryOp) :
  op_ok op → is_ok (decode (encode op)) = within_wire_limits op.
Proof.
  intros Hop. destruct (within_wire_limits op) eqn:Hlim.
  { unfold decode. by rewrite decode_envelope_encode. }
  destruct (decode (encode op)) as [[op'|tag raw]|] eqn:E; [| |done].
  - unfold decode in E. destruct (decode_envelope (encode op)) eqn:E'; simpl in E; [|done].
    simplify_eq. apply decode_envelope_known in E' as ([Hop' Hlim'] & Heq & _).
    apply encode_inj_canonical in Heq; [|done..]. exfalso.
    assert (within_wire_limits (canonical_op op) = within_wire_limits (canonical_op op')) as Hl by by f_equal.
    rewrite !within_limits_canonical in Hl. congruence.
  - unfold decode in E. destruct (decode_envelope (encode op)) eqn:E'; simpl in E; [|done].
    simplify_eq. by apply decode_envelope_encode_unknown in E'.
Qed.

Lemma within_wire_limits_exact_witness :
  let row s := mkAnchorScope (lit "symbol") (lit "a") (lit s) in
  is_ok (decode (encode (NodeAnchorScopes (lit "n") [row "x"; row "y"]))) =
  within_wire_limits (NodeAnchorScopes (lit "n") [row "x"; row "y"]) ∧
  within_wire_limits (NodeAnchorScopes (lit "n") [row "x"; row "y"]) = false.
Proof.
  split; [|reflexivity]. apply within_wire_limits_exact. repeat constructor; by vm_compute.
Defined.

(** Two well-typed ops have the same bytes exactly when they are the same op up to the
    order of their sets, so the bytes identify the op and the final tie-break of the fold
    never has to choose between different ops. *)
Theorem encode_injective `{MinicborLaws} (op op' : MemoryOp) :
  op_ok op → op_ok op' → encode op = encode op' ↔ canonical_op op = canonical_op op'.
Proof.
  intros. split; [by apply encode_inj_canonical|].
  intros Heq. by rewrite <- (encode_canonical_op op), Heq, encode_canonical_op.
Qed.

Lemma encode_injective_witness :
  let c tags := mkNodeContent (lit "k") (lit "t") (lit "b") (lit "c") (lit "s") tags None in
  encode (NodeCreate (lit "n") (c [lit "y"; lit "x"])) =
    encode (NodeCreate (lit "n") (c [lit "x"; lit "y"; lit "x"])) ↔
  canonical_op (NodeCreate (lit "n") (c [lit "y"; lit "x"])) =
    canonical_op (NodeCreate (lit "n") (c [lit "x"; lit "y"; lit "x"])).
Proof. apply encode_injective; repeat constructor; by vm_compute. Defined.

Definition known_tags : list bytes :=
  lit <$> ["node_create"; "node_update"; "node_status"; "edge_add"; "edge_remove"; "rebind";
           "node_anchors"; "node_source_hash"; "node_anchor_scopes"; "snapshot"].

Lemma decode_known_other `{Minicbor} kind : kind ∉ known_tags → decode_known kind = mret None.
Proof.
  intros Hk. unfold decode_known.
  repeat (rewrite bool_decide_false by (intros ->; apply Hk; by vm_compute; repeat constructor)).
  done.
Qed.

Lemma reads_unknown `{MinicborLaws} kind :
  str_ok kind → kind ∉ known_tags →
  reads decode_head (put_array 3 ++ put_str DOMAIN ++ put_str kind) (kind, None).
Proof.
  intros Hk Hnew. eapply reads_bind; [apply reads_expect_array; unfold u64_max; lia|].
  eapply reads_bind; [apply reads_str_ok, DOMAIN_ok|].
  rewrite bool_decide_false by (intros Hne; by apply Hne).
  eapply reads_bind_nil; [by apply reads_str_ok|]. by rewrite decode_known_other.
Qed.

(** The canonical envelope of an op of another version of the program. *)
Definition foreign_op (kind : bytes) (payload : item) : item :=
  Array [TextString DOMAIN; TextString kind; payload].

Lemma foreign_op_ser `{MinicborLaws} kind payload :
  str_ok kind →
  ser (foreign_op kind payload) = (put_array 3 ++ put_str DOMAIN ++ put_str kind) ++ ser payload.
Proof.
  intros [Hu Hk]. rewrite !put_str_ser by done.
  change 3 with (len [TextString DOMAIN; TextString kind; payload]).
  rewrite <- !app_assoc. unfold foreign_op. rewrite <- put_array_ser by (by vm_compute).
  f_equal. rewrite !fmap_cons. cbn [mjoin list_join fmap list_fmap]. by rewrite app_nil_r.
Qed.

Lemma foreign_op_canonical kind payload :
  str_ok kind → item_wf payload → (height payload ≤ MAX_CBOR_DEPTH)%nat →
  require_canonical_cbor (ser (foreign_op kind payload)) = Ok tt.
Proof.
  intros [Hu Hk] Hwf Hh. apply require_canonical_ser.
  - apply wf_array; [by vm_compute|]. repeat constructor; try done; apply DOMAIN_ok.
  - simpl. unfold MAX_CBOR_DEPTH in *. lia.
Qed.

Lemma decode_envelope_foreign `{MinicborLaws} kind payload :
  str_ok kind → kind ∉ known_tags → item_wf payload → (height payload ≤ MAX_CBOR_DEPTH)%nat →
  decode_envelope (ser (foreign_op kind payload)) = Ok (Unknown kind (ser (foreign_op kind payload))).
Proof.
  intros Hk Hnew Hwf Hh. pose proof (foreign_op_canonical kind payload Hk Hwf Hh) as Hcan.
  pose proof (reads_unknown kind Hk Hnew (ser payload)) as Hd. rewrite <- foreign_op_ser in Hd by done.
  generalize dependent (ser (foreign_op kind payload)). intros bs Hcan Hd.
  unfold decode_envelope, run. rewrite Hd. simpl. by rewrite Hcan.
Qed.

(** Forward compatibility: an envelope of a kind this binary does not know, with any
    canonical payload that fits the nesting limit, is carried through verbatim, while an op
    reported as unknown is always a canonical buffer kept byte for byte. *)
Theorem decode_unknown_verbatim `{MinicborLaws} (kind : bytes) (payload : item) :
  str_ok kind → kind ∉ known_tags → item_wf payload → (height payload ≤ MAX_CBOR_DEPTH)%nat →
  decode (ser (foreign_op kind payload)) = Ok (Unknown kind (ser (foreign_op kind payload))) ∧
  (∀ bs tag raw, decode bs = Ok (Unknown tag raw) → raw = bs ∧ require_canonical_cbor bs = Ok tt).
Proof.
  intros Hk Hnew Hwf Hh. split.
  - unfold decode. by rewrite decode_envelope_foreign.
  - intros bs tag raw Hd. unfold decode in Hd. apply (decode_envelope_unknown _ tag).
    destruct (decode_envelope bs); simpl in Hd; [|done]. congruence.
Qed.

Lemma decode_unknown_verbatim_witness :
  decode (ser (foreign_op (lit "node_pin") (Uint 7))) =
  Ok (Unknown (lit "node_pin") (ser (foreign_op (lit "node_pin") (Uint 7)))).
Proof.
  apply (decode_unknown_verbatim (lit "node_pin") (Uint 7)).
  - by vm_compute.
  - apply (bool_decide_eq_true_1 _). by vm_compute.
  - by constructor.
  - vm_compute. lia.
Defined.

(** *** Edge identity *)

(** A separator that occurs in neither prefix splits a buffer one way. *)
Lemma split_at_sep {A} (sep : A) (a a' b b' : list A) :
  sep ∉ a → sep ∉ a' → a ++ sep :: b = a' ++ sep :: b' → a = a' ∧ b = b'.
Proof.
  revert a'. induction a as [|x a IH]; intros [|y a']; rewrite ?not_elem_of_cons; simpl.
  - naive_solver.
  - intros _ [? _] [= <- _]. done.
  - intros [? _] _ [= -> _]. done.
  - intros [_ ?] [_ ?] [= -> Heq]. apply IH in Heq; naive_solver.
Qed.

Lemma relation_no_sep r : x1e ∉ EdgeRelation_as_db_str r.
Proof. apply (bool_decide_eq_true_1 _). by destruct r. Qed.

Lemma hex_sha256_inj `{Sha256} a b : hex_sha256 a = hex_sha256 b → a = b ∨ collision.
Proof.
  unfold hex_sha256. intros Heq. assert (sha256 a = sha256 b) as Hs.
  { apply (inj Some). by rewrite <- !hex_decode_lower, Heq. }
  destruct (decide (a = b)); [by left|]. right. by exists a, b.
Qed.

(** The edge key identifies the edge: when no node id and no target kind contains the
    separator U+001E, two edges with one key agree on source, relation, target kind and
    target anchor (the anchor may be any text), or exhibit a SHA-256 collision.  The owner
    and target repository ids never enter the key. *)
Theorem edge_key_identifies `{Sha256} (e e' : EdgeSpec) :
  x1e ∉ es_source_node_id e → x1e ∉ es_source_node_id e' →
  x1e ∉ es_target_kind e → x1e ∉ es_target_kind e' →
  edge_key e = edge_key e' →
  (es_source_node_id e = es_source_node_id e' ∧ es_relation e = es_relation e' ∧
   es_target_kind e = es_target_kind e' ∧ es_target_anchor e = es_target_anchor e') ∨ collision.
Proof.
  intros Hn Hn' Hk Hk' [Heq|]%hex_sha256_inj; [|by right]. left.
  apply split_at_sep in Heq as [Hsrc Heq]; [|done..].
  apply split_at_sep in Heq as [Hrel Heq]; [|apply relation_no_sep..].
  apply split_at_sep in Heq as [Hkind Hanchor]; [|done..].
  split_and!; [done| |done|done].
  apply (inj Some). by rewrite <- !relation_db_str_inv, Hrel.
Qed.

Lemma edge_key_identifies_witness :
  let e repo := mkEdgeSpec (lit "n") Tracks repo (lit "github") (lit "owner/repo#1") repo in
  (lit "n" = lit "n" ∧ Tracks = Tracks ∧ lit "github" = lit "github" ∧
   lit "owner/repo#1" = lit "owner/repo#1") ∨ collision.
Proof.
  intros e.
  apply (edge_key_identifies (e (lit "a")) (e (lit "b"))); try reflexivity;
    apply (bool_decide_eq_true_1 _); reflexivity.
Defined.

(** The separator is not excluded by the wire format: there are two edges with
    different targets whose [edge_add] ops the decoder accepts and whose edge keys agree,
    one of them with U+001E inside its target kind. *)
Theorem edge_key_separator_on_wire `{MinicborLaws} `{Sha256} :
  ∃ e e' : EdgeSpec,
    decode (encode (EdgeAdd e)) = Ok (Known (EdgeAdd e)) ∧
    decode (encode (EdgeAdd e')) = Ok (Known (EdgeAdd e')) ∧
    es_target_kind e ≠ es_target_kind e' ∧ es_target_anchor e ≠ es_target_anchor e' ∧
    edge_key e = edge_key e'.
Proof.
  exists (mkEdgeSpec (lit "n") Tracks (lit "r") (lit "k" ++ [x1e; x61]) (lit "b") (lit "r")),
         (mkEdgeSpec (lit "n") Tracks (lit "r") (lit "k") ([x61; x1e] ++ lit "b") (lit "r")).
  split_and!; [| |done|done|done];
    (unfold decode; rewrite decode_envelope_encode; [done| |done]; by vm_compute).
Qed.

Lemma edge_key_separator_on_wire_witness :
  ∃ e e' : EdgeSpec,
    decode (encode (EdgeAdd e)) = Ok (Known (EdgeAdd e)) ∧
    decode (encode (EdgeAdd e')) = Ok (Known (EdgeAdd e')) ∧
    es_target_kind e ≠ es_target_kind e' ∧ es_target_anchor e ≠ es_target_anchor e' ∧
    edge_key e = edge_key e'.
Proof. apply edge_key_separator_on_wire. Defined.
