(* ===== verification/Project.v ===== *)
(** * The projection fold ([crates/rag-rat-oplog/src/project.rs])

    [project] folds op-log entries into the converged node and edge view.  A [BTreeMap] is
    a [gmap] (only lookups, inserts and range queries on it are used, the latter modelled by
    [next_back]) and a [BTreeSet] a [gset].  The specification is the declarative one of the
    module documentation: each dimension of a node or an edge is a register whose value is
    the last write to it in the total order. *)

From S2P Require Import Prelude Cbor Minicbor Hash Op.

Local Open Scope Z_scope.

(** ** Data *)

#[export] Instance NodeStatus_eq_dec : EqDecision NodeStatus.
Proof. solve_decision. Defined.
#[export] Instance EdgeRelation_eq_dec : EqDecision EdgeRelation.
Proof. solve_decision. Defined.
#[export] Instance NodeContent_eq_dec : EqDecision NodeContent.
Proof. solve_decision. Defined.
#[export] Instance EdgeSpec_eq_dec : EqDecision EdgeSpec.
Proof. solve_decision. Defined.
#[export] Instance ResolvedAnchor_eq_dec : EqDecision ResolvedAnchor.
Proof. solve_decision. Defined.
#[export] Instance PortableAnchor_eq_dec : EqDecision PortableAnchor.
Proof. solve_decision. Defined.
#[export] Instance AnchorScope_eq_dec : EqDecision AnchorScope.
Proof. solve_decision. Defined.
#[export] Instance MemoryOp_eq_dec : EqDecision MemoryOp.
Proof. solve_decision. Defined.
#[export] Instance OpMeta_eq_dec : EqDecision OpMeta.
Proof. solve_decision. Defined.
#[export] Instance Entry_eq_dec : EqDecision Entry.
Proof. solve_decision. Defined.

(** [AnchorScopes = BTreeMap<(String, String), String>]. *)
Abbreviation AnchorScopes := (gmap (bytes * bytes) bytes).

Record ProjectedNode : Type := mkProjectedNode {
  pn_content : NodeContent;
  pn_status : NodeStatus;
  pn_anchors : option (list PortableAnchor);
  pn_source_text_hash : option bytes;
  pn_anchor_scopes : AnchorScopes;
  pn_anchors_meta : option OpMeta;
  pn_superseded_anchors : list (list PortableAnchor * OpMeta);
}.

Definition SUPERSEDED_ANCHOR_SETS_KEPT : nat := 32.

Record ProjectedEdge : Type := mkProjectedEdge {
  pe_spec : EdgeSpec;
  pe_resolved : option ResolvedAnchor;
}.

Record ProjectedState : Type := mkProjectedState {
  ps_nodes : gmap NodeId ProjectedNode;
  ps_edges : gmap EdgeKey ProjectedEdge;
  ps_removed_edges : gmap EdgeKey ProjectedEdge;
}.

Record NodeAccum : Type := mkNodeAccum {
  na_exists : bool;
  na_content : option NodeContent;
  na_status : option NodeStatus;
  na_anchors : option (list PortableAnchor * OpMeta);
  na_superseded_anchors : list (list PortableAnchor * OpMeta);
  na_source_text_hash_by_device : gmap DeviceFingerprint bytes;
  na_anchor_scopes_by_device : gmap DeviceFingerprint (gmap Z AnchorScopes);
  na_anchor_set_lamports_by_device : gmap DeviceFingerprint (gset Z);
}.

Definition NodeAccum_default : NodeAccum := mkNodeAccum false None None None [] ∅ ∅ ∅.

Record EdgeAccum : Type := mkEdgeAccum {
  ea_present : bool;
  ea_spec : option EdgeSpec;
  ea_resolved : option ResolvedAnchor;
}.

Definition EdgeAccum_default : EdgeAccum := mkEdgeAccum false None None.

(** ** The fold *)

Definition canonical_content (content : NodeContent) : NodeContent := canonicalize content.
Definition canonical_anchors (anchors : list PortableAnchor) : list PortableAnchor :=
  sort_by_key identity anchors.

(** [map.entry(key).or_default()], then an update of the entry in place. *)
Definition entry_or_default {K A} `{Countable K} (d : A) (f : A → A) (k : K) (m : gmap K A) : gmap K A :=
  <[k := f (default d (m !! k))]> m.

(** The arms of the fold on the accumulator they update. *)
Definition acc_create (content : NodeContent) (node : NodeAccum) : NodeAccum :=
  mkNodeAccum true (Some (canonical_content content)) (na_status node) (na_anchors node)
    (na_superseded_anchors node) (na_source_text_hash_by_device node)
    (na_anchor_scopes_by_device node) (na_anchor_set_lamports_by_device node).

Definition acc_update (content : NodeContent) (node : NodeAccum) : NodeAccum :=
  mkNodeAccum (na_exists node) (Some (canonical_content content)) (na_status node)
    (na_anchors node) (na_superseded_anchors node) (na_source_text_hash_by_device node)
    (na_anchor_scopes_by_device node) (na_anchor_set_lamports_by_device node).

Definition acc_status (status : NodeStatus) (node : NodeAccum) : NodeAccum :=
  mkNodeAccum (na_exists node) (na_content node) (Some status) (na_anchors node)
    (na_superseded_anchors node) (na_source_text_hash_by_device node)
    (na_anchor_scopes_by_device node) (na_anchor_set_lamports_by_device node).

Definition acc_source_hash (meta : OpMeta) (hash : bytes) (node : NodeAccum) : NodeAccum :=
  mkNodeAccum (na_exists node) (na_content node) (na_status node) (na_anchors node)
    (na_superseded_anchors node)
    (<[om_device meta := hash]> (na_source_text_hash_by_device node))
    (na_anchor_scopes_by_device node) (na_anchor_set_lamports_by_device node).

(** [take] the register, push what it held, and drop the oldest beyond the cap. *)
Definition push_superseded (node : NodeAccum) : list (list PortableAnchor * OpMeta) :=
  match na_anchors node with
  | Some superseded =>
      let sets := na_superseded_anchors node ++ [superseded] in
      if (SUPERSEDED_ANCHOR_SETS_KEPT <? length sets)%nat then tail sets else sets
  | None => na_superseded_anchors node
  end.

Definition acc_anchors (meta : OpMeta) (anchors : list PortableAnchor) (node : NodeAccum) : NodeAccum :=
  mkNodeAccum (na_exists node) (na_content node) (na_status node)
    (Some (canonical_anchors anchors, meta)) (push_superseded node)
    (na_source_text_hash_by_device node) (na_anchor_scopes_by_device node)
    (entry_or_default ∅ (fun sets => {[om_lamport meta]} ∪ sets) (om_device meta)
       (na_anchor_set_lamports_by_device node)).

(** [scopes.iter().map(..).collect::<AnchorScopes>()]: the last row of an identity wins. *)
Definition collect_scopes (scopes : list AnchorScope) : AnchorScopes :=
  foldl (fun m (s : AnchorScope) => <[identity s := as_scope_hash s]> m) ∅ scopes.

Definition acc_anchor_scopes (meta : OpMeta) (scopes : list AnchorScope) (node : NodeAccum) : NodeAccum :=
  mkNodeAccum (na_exists node) (na_content node) (na_status node) (na_anchors node)
    (na_superseded_anchors node) (na_source_text_hash_by_device node)
    (entry_or_default ∅ (fun by_lamport => <[om_lamport meta := collect_scopes scopes]> by_lamport)
       (om_device meta) (na_anchor_scopes_by_device node))
    (na_anchor_set_lamports_by_device node).

Definition acc_edge_add (edge : EdgeSpec) (acc : EdgeAccum) : EdgeAccum :=
  mkEdgeAccum true (Some edge) (ea_resolved acc).
Definition acc_edge_remove (acc : EdgeAccum) : EdgeAccum :=
  mkEdgeAccum false (ea_spec acc) (ea_resolved acc).
Definition acc_rebind (resolved : ResolvedAnchor) (acc : EdgeAccum) : EdgeAccum :=
  mkEdgeAccum (ea_present acc) (ea_spec acc) (Some resolved).

Abbreviation FoldState := (gmap NodeId NodeAccum * gmap EdgeKey EdgeAccum)%type.

Section Fold.
Context `{Sha256}.

(** The body of the loop of [project]. *)
Definition project_step (st : FoldState) (entry : Entry) : FoldState :=
  let '(nodes, edges) := st in
  let node f node_id := (entry_or_default NodeAccum_default f node_id nodes, edges) in
  let edge f key := (nodes, entry_or_default EdgeAccum_default f key edges) in
  match en_op entry with
  | NodeCreate node_id content => node (acc_create content) node_id
  | NodeUpdate node_id content => node (acc_update content) node_id
  | NodeStatusOp node_id status => node (acc_status status) node_id
  | EdgeAdd e => edge (acc_edge_add e) (edge_key e)
  | EdgeRemove key => edge acc_edge_remove key
  | Rebind key resolved => edge (acc_rebind resolved) key
  | NodeSourceHash node_id hash => node (acc_source_hash (en_meta entry) hash) node_id
  | NodeAnchors node_id anchors => node (acc_anchors (en_meta entry) anchors) node_id
  | NodeAnchorScopes node_id scopes => node (acc_anchor_scopes (en_meta entry) scopes) node_id
  | Snapshot => st
  end.
End Fold.

(** [range(..).next_back()]: the greatest key of a range. *)
Definition next_back (in_range : Z → bool) (keys : list Z) : option Z :=
  foldr (fun k best =>
    if in_range k then Some (match best with Some b => Z.max k b | None => k end) else best)
    None keys.

(** The publication of the winning set: after the device's preceding set, up to the set. *)
Definition in_window (preceding : option Z) (lamport k : Z) : bool :=
  bool_decide (k ≤ lamport) && match preceding with Some p => bool_decide (p < k) | None => true end.

Definition finish_scopes (acc : NodeAccum) (meta : OpMeta) : option AnchorScopes :=
  by_lamport ← na_anchor_scopes_by_device acc !! om_device meta;
  let preceding :=
    sets ← na_anchor_set_lamports_by_device acc !! om_device meta;
    next_back (fun k => bool_decide (k < om_lamport meta)) (elements (sets : gset Z)) in
  k ← next_back (in_window preceding (om_lamport meta)) (map_to_list (by_lamport : gmap Z AnchorScopes)).*1;
  by_lamport !! k.

Definition finish_node (acc : NodeAccum) : option ProjectedNode :=
  content ← (if na_exists acc then na_content acc else None);
  let anchors := fst <$> na_anchors acc in
  let anchors_meta := snd <$> na_anchors acc in
  let source_text_hash :=
    meta ← anchors_meta; na_source_text_hash_by_device acc !! om_device meta in
  let anchor_scopes := default ∅ (meta ← anchors_meta; finish_scopes acc meta) in
  Some (mkProjectedNode content (default NodeStatus_default (na_status acc)) anchors
          source_text_hash anchor_scopes anchors_meta (na_superseded_anchors acc)).

(** [split_edges], on one edge: the live row and the tombstone. *)
Definition live_edge (acc : EdgeAccum) : option ProjectedEdge :=
  spec ← ea_spec acc;
  if ea_present acc then Some (mkProjectedEdge spec (ea_resolved acc)) else None.
Definition removed_edge (acc : EdgeAccum) : option ProjectedEdge :=
  spec ← ea_spec acc;
  if ea_present acc then None else Some (mkProjectedEdge spec (ea_resolved acc)).
Definition split_edges (edges : gmap EdgeKey EdgeAccum)
    : gmap EdgeKey ProjectedEdge * gmap EdgeKey ProjectedEdge :=
  (omap live_edge edges, omap removed_edge edges).

Section Project.
Context `{Minicbor} `{Sha256}.

Definition order_key (e : Entry) : Z * DeviceFingerprint * bytes :=
  (om_lamport (en_meta e), om_device (en_meta e), encode (en_op e)).

Definition in_total_order (entries : list Entry) : list Entry := sort_by_key order_key entries.

Definition project (entries : list Entry) : ProjectedState :=
  let '(nodes, edges) := foldl project_step (∅, ∅) (in_total_order entries) in
  let '(live_edges, removed_edges) := split_edges edges in
  mkProjectedState (omap finish_node nodes) live_edges removed_edges.
End Project.

(** ** Registers

    A write to a register is read off an entry by a partial function; the register holds the
    last write of the list. *)

Definition last_write {A} (w : Entry → option A) (l : list Entry) : option A := last (omap w l).

(** A component of the accumulator that each entry either overwrites as [w] says or leaves
    alone is the fold of the writes. *)
Lemma foldl_register {S B X} (upd : S → Entry → S) (proj : S → B) (w : Entry → option X)
    (f : B → X → B) (s : S) (l : list Entry) :
  (∀ s e, proj (upd s e) = match w e with Some x => f (proj s) x | None => proj s end) →
  proj (foldl upd s l) = foldl f (proj s) (omap w l).
Proof.
  intros Hupd. revert s. induction l as [|e l IH]; intros s; [done|]. simpl.
  rewrite IH, Hupd. by destruct (w e).
Qed.

Lemma foldl_last {X} (d : X) (l : list X) : foldl (fun _ x => x) d l = default d (last l).
Proof. induction l as [|x l _] using rev_ind; [done|]. by rewrite foldl_snoc, last_snoc. Qed.

Lemma foldl_last_Some {X} (l : list X) : foldl (fun _ x => Some x) None l = last l.
Proof. induction l as [|x l _] using rev_ind; [done|]. by rewrite foldl_snoc, last_snoc. Qed.

Lemma last_write_register {S X} (upd : S → Entry → S) (proj : S → option X) (w : Entry → option X) s l :
  proj s = None →
  (∀ s e, proj (upd s e) = match w e with Some x => Some x | None => proj s end) →
  proj (foldl upd s l) = last_write w l.
Proof.
  intros Hs Hupd. rewrite (foldl_register upd proj w (fun _ x => Some x)) by done.
  by rewrite Hs, foldl_last_Some.
Qed.

(** [l] has the write [x] and no entry after it writes. *)
Lemma last_write_Some {A} (w : Entry → option A) l x :
  last_write w l = Some x ↔
  ∃ l1 e l2, l = l1 ++ e :: l2 ∧ w e = Some x ∧ Forall (fun e => w e = None) l2.
Proof.
  unfold last_write. induction l as [|e l IH] using rev_ind.
  { split; [done|]. intros (l1 & e & l2 & Heq & _). by destruct l1. }
  rewrite omap_app. simpl. destruct (w e) as [y|] eqn:Hw; simpl.
  - rewrite last_snoc. split.
    + intros [= ->]. by exists l, e, [].
    + intros (l1 & e' & l2 & Heq & He' & Hl2). destruct l2 as [|e'' l2 _] using rev_ind.
      * apply app_inj_tail in Heq as [-> ->]. congruence.
      * rewrite app_comm_cons, app_assoc in Heq. apply app_inj_tail in Heq as [_ ->].
        apply Forall_app in Hl2 as [_ [Hl2 _]%Forall_cons]. congruence.
  - rewrite app_nil_r, IH. split.
    + intros (l1 & e' & l2 & -> & He' & Hl2). exists l1, e', (l2 ++ [e]).
      split_and!; [by rewrite app_comm_cons, app_assoc|done|]. apply Forall_app. auto.
    + intros (l1 & e' & l2 & Heq & He' & Hl2). destruct l2 as [|e'' l2 _] using rev_ind.
      * apply app_inj_tail in Heq as [_ ->]. congruence.
      * rewrite app_comm_cons, app_assoc in Heq. apply app_inj_tail in Heq as [-> _].
        apply Forall_app in Hl2 as [Hl2 _]. by exists l1, e', l2.
Qed.

Lemma last_write_None {A} (w : Entry → option A) l :
  last_write w l = None ↔ Forall (fun e => w e = None) l.
Proof.
  unfold last_write. rewrite last_None. induction l as [|e l IH]; simpl; [split; auto|].
  rewrite Forall_cons. destruct (w e); naive_solver.
Qed.

(** *** The writes of an op *)

Definition at_node {A} (id node_id : NodeId) (a : A) : option A :=
  if decide (node_id = id) then Some a else None.

Definition w_create (id : NodeId) (e : Entry) : option bool :=
  match en_op e with NodeCreate n _ => at_node id n true | _ => None end.

Definition w_content (id : NodeId) (e : Entry) : option NodeContent :=
  match en_op e with
  | NodeCreate n c | NodeUpdate n c => at_node id n (canonicalize c)
  | _ => None
  end.

Definition w_status (id : NodeId) (e : Entry) : option NodeStatus :=
  match en_op e with NodeStatusOp n s => at_node id n s | _ => None end.

Definition w_anchors (id : NodeId) (e : Entry) : option (list PortableAnchor * OpMeta) :=
  match en_op e with
  | NodeAnchors n l => at_node id n (sort_by_key identity l, en_meta e)
  | _ => None
  end.

(** Writes of one device. *)
Definition by_device {A} (d : DeviceFingerprint) (e : Entry) (o : option A) : option A :=
  if decide (om_device (en_meta e) = d) then o else None.

Definition w_source_hash (id : NodeId) (d : DeviceFingerprint) (e : Entry) : option bytes :=
  match en_op e with NodeSourceHash n h => by_device d e (at_node id n h) | _ => None end.

Definition w_scopes (id : NodeId) (d : DeviceFingerprint) (e : Entry) : option (Z * AnchorScopes) :=
  match en_op e with
  | NodeAnchorScopes n l => by_device d e (at_node id n (om_lamport (en_meta e), collect_scopes l))
  | _ => None
  end.

Definition w_set_lamport (id : NodeId) (d : DeviceFingerprint) (e : Entry) : option Z :=
  match en_op e with
  | NodeAnchors n _ => by_device d e (at_node id n (om_lamport (en_meta e)))
  | _ => None
  end.

Section EdgeWrites.
Context `{Sha256}.

Definition w_spec (k : EdgeKey) (e : Entry) : option EdgeSpec :=
  match en_op e with EdgeAdd s => if decide (edge_key s = k) then Some s else None | _ => None end.

(** The presence register: an add carries its spec, a remove nothing. *)
Definition w_presence (k : EdgeKey) (e : Entry) : option (option EdgeSpec) :=
  match en_op e with
  | EdgeAdd s => if decide (edge_key s = k) then Some (Some s) else None
  | EdgeRemove k' => if decide (k' = k) then Some None else None
  | _ => None
  end.

Definition w_resolved (k : EdgeKey) (e : Entry) : option ResolvedAnchor :=
  match en_op e with Rebind k' r => if decide (k' = k) then Some r else None | _ => None end.
End EdgeWrites.

(** *** The specification *)

(** The last [n] elements. *)
Definition keep_last {A} (n : nat) (l : list A) : list A := drop (length l - n) l.

(** Scopes paired with the set published at [meta]: the last scopes op of its device after
    the device's preceding set and not after this one. *)
Definition spec_scopes (id : NodeId) (meta : OpMeta) (l : list Entry) : option AnchorScopes :=
  let d := om_device meta in
  let preceding := last (filter (fun k => k < om_lamport meta) (omap (w_set_lamport id d) l)) in
  snd <$> last (filter (fun p => in_window preceding (om_lamport meta) p.1 = true)
                  (omap (w_scopes id d) l)).

Definition spec_node (id : NodeId) (l : list Entry) : option ProjectedNode :=
  _ ← last_write (w_create id) l;
  content ← last_write (w_content id) l;
  let winner := last_write (w_anchors id) l in
  Some (mkProjectedNode content
    (default Active (last_write (w_status id) l))
    (fst <$> winner)
    (w ← winner; last_write (w_source_hash id (om_device w.2)) l)
    (default ∅ (w ← winner; spec_scopes id w.2 l))
    (snd <$> winner)
    (keep_last SUPERSEDED_ANCHOR_SETS_KEPT (removelast (omap (w_anchors id) l)))).

Definition spec_live `{Sha256} (k : EdgeKey) (l : list Entry) : option ProjectedEdge :=
  winner ← last_write (w_presence k) l;
  spec ← winner;
  Some (mkProjectedEdge spec (last_write (w_resolved k) l)).

Definition spec_removed `{Sha256} (k : EdgeKey) (l : list Entry) : option ProjectedEdge :=
  winner ← last_write (w_presence k) l;
  match winner with
  | Some _ => None
  | None =>
      spec ← last_write (w_spec k) l;
      Some (mkProjectedEdge spec (last_write (w_resolved k) l))
  end.

(** ** The fold meets the specification *)

Lemma entry_or_default_lookup {K A} `{Countable K} (d : A) f (k k' : K) (m : gmap K A) :
  default d (entry_or_default d f k m !! k') =
  if decide (k = k') then f (default d (m !! k')) else default d (m !! k').
Proof. unfold entry_or_default. rewrite lookup_insert. case_decide; by subst. Qed.

Section Registers.
Context `{Sha256}.
Implicit Types (st : FoldState) (id : NodeId) (e : Entry).

Definition node_of id st : NodeAccum := default NodeAccum_default (st.1 !! id).
Definition edge_of k st : EdgeAccum := default EdgeAccum_default (st.2 !! k).

(** One step as seen from one accumulator field. *)
Ltac step_cases :=
  intros [nodes edges] [meta op]; unfold node_of, edge_of, w_create, w_content, w_status,
    w_anchors, w_source_hash, w_scopes, w_set_lamport, w_spec, w_presence, w_resolved,
    by_device, at_node;
  destruct op; simpl; rewrite ?entry_or_default_lookup; repeat case_decide; subst; simpl; try done.

Lemma step_exists id st e :
  na_exists (node_of id (project_step st e)) =
  match w_create id e with Some b => b | None => na_exists (node_of id st) end.
Proof. revert st e. step_cases. Qed.
Lemma step_content id st e :
  na_content (node_of id (project_step st e)) =
  match w_content id e with Some c => Some c | None => na_content (node_of id st) end.
Proof. revert st e. step_cases. Qed.
Lemma step_status id st e :
  na_status (node_of id (project_step st e)) =
  match w_status id e with Some c => Some c | None => na_status (node_of id st) end.
Proof. revert st e. step_cases. Qed.
Lemma step_anchors id st e :
  na_anchors (node_of id (project_step st e)) =
  match w_anchors id e with Some c => Some c | None => na_anchors (node_of id st) end.
Proof. revert st e. step_cases. Qed.
Lemma step_superseded id st e :
  na_superseded_anchors (node_of id (project_step st e)) =
  match w_anchors id e with
  | Some _ => push_superseded (node_of id st)
  | None => na_superseded_anchors (node_of id st)
  end.
Proof. revert st e. step_cases. Qed.
Lemma step_source_hash id d st e :
  na_source_text_hash_by_device (node_of id (project_step st e)) !! d =
  match w_source_hash id d e with
  | Some h => Some h
  | None => na_source_text_hash_by_device (node_of id st) !! d
  end.
Proof. revert st e. step_cases; rewrite lookup_insert; by case_decide. Qed.
Lemma step_scopes id d st e :
  default ∅ (na_anchor_scopes_by_device (node_of id (project_step st e)) !! d) =
  let m := default ∅ (na_anchor_scopes_by_device (node_of id st) !! d) in
  match w_scopes id d e with Some p => <[p.1 := p.2]> m | None => m end.
Proof. revert st e. step_cases; rewrite entry_or_default_lookup; by case_decide. Qed.
Lemma step_set_lamports id d st e :
  default ∅ (na_anchor_set_lamports_by_device (node_of id (project_step st e)) !! d) =
  let s := default ∅ (na_anchor_set_lamports_by_device (node_of id st) !! d) in
  match w_set_lamport id d e with Some k => {[k]} ∪ s | None => s end.
Proof. revert st e. step_cases; rewrite entry_or_default_lookup; by case_decide. Qed.

Lemma step_presence k st e :
  ea_present (edge_of k (project_step st e)) =
  match w_presence k e with Some o => bool_decide (is_Some o) | None => ea_present (edge_of k st) end.
Proof. revert st e. step_cases. Qed.
Lemma step_spec k st e :
  ea_spec (edge_of k (project_step st e)) =
  match w_spec k e with Some s => Some s | None => ea_spec (edge_of k st) end.
Proof. revert st e. step_cases. Qed.
Lemma step_resolved k st e :
  ea_resolved (edge_of k (project_step st e)) =
  match w_resolved k e with Some s => Some s | None => ea_resolved (edge_of k st) end.
Proof. revert st e. step_cases. Qed.
End Registers.

(** *** Greatest key of a range *)

Lemma next_back_Some P ks k :
  next_back P ks = Some k ↔ k ∈ ks ∧ P k = true ∧ ∀ k', k' ∈ ks → P k' = true → k' ≤ k.
Proof.
  revert k. induction ks as [|x ks IH]; intros k; simpl.
  { split; [done|]. intros [Hk%elem_of_nil _]. done. }
  setoid_rewrite elem_of_cons. destruct (P x) eqn:Hx.
  - destruct (next_back P ks) as [b|] eqn:Hb.
    + destruct (proj1 (IH b) eq_refl) as (Hin & HP & Hmax). split.
      * intros [= <-]. destruct (Z.max_spec x b) as [[? ->]|[? ->]];
          (split_and!; [auto|auto|]; intros k' [->|Hk'] Hk; [lia|]; specialize (Hmax k' Hk' Hk); lia).
      * intros (Hk & HPk & Hkmax). f_equal. pose proof (Hkmax x (or_introl eq_refl) Hx).
        pose proof (Hkmax b (or_intror Hin) HP).
        destruct Hk as [->|Hk]; [lia|]. specialize (Hmax k Hk HPk). lia.
    + assert (∀ k', k' ∈ ks → P k' = true → False) as Hnone.
      { clear -Hb. induction ks as [|y ks IH]; simpl in Hb; [set_solver|].
        destruct (P y) eqn:Hy; [done|]. intros k' [->|?]%elem_of_cons ?; [congruence|]. by eapply IH. }
      split.
      * intros [= ->]. split_and!; [auto|done|]. intros k' [->|Hk'] Hk; [lia|]. by destruct (Hnone k').
      * intros ([->|Hk] & HPk & _); [done|]. by destruct (Hnone k).
  - rewrite IH. split.
    + intros (? & ? & Hmax). split_and!; [auto|done|]. intros k' [->|?]; [congruence|auto].
    + intros ([->|?] & ? & Hmax); [congruence|]. auto.
Qed.

Lemma next_back_ext P ks ks' : (∀ k, k ∈ ks ↔ k ∈ ks') → next_back P ks = next_back P ks'.
Proof. intros Hks. apply option_eq. intros k. rewrite !next_back_Some. by setoid_rewrite Hks. Qed.

Lemma next_back_snoc P ks x :
  Forall (fun k => k ≤ x) ks →
  next_back P (ks ++ [x]) = if P x then Some x else next_back P ks.
Proof.
  intros Hks. rewrite Forall_forall in Hks. apply option_eq. intros k. destruct (P x) eqn:Hx.
  - rewrite next_back_Some. split.
    + intros (Hk & HP & Hmax). f_equal. pose proof (Hmax x ltac:(set_solver) Hx).
      apply elem_of_app in Hk as [Hk|Hk]; [|set_solver]. specialize (Hks k Hk). lia.
    + intros [= <-]. split_and!; [set_solver|done|]. intros k' [Hk'|Hk']%elem_of_app _; [auto|set_solver].
  - rewrite !next_back_Some. split; intros (Hk & HP & Hmax); (split_and!; [|done|]).
    + apply elem_of_app in Hk as [|Hk]; [done|]. assert (k = x) as -> by set_solver. congruence.
    + intros k' Hk'. apply Hmax. set_solver.
    + set_solver.
    + intros k' [Hk'|Hk']%elem_of_app HP'; [auto|]. assert (k' = x) as -> by set_solver. congruence.
Qed.

(** In an ascending list the greatest key of a range is the last one in it. *)
Lemma next_back_sorted P (ks : list Z) :
  StronglySorted Z.le ks → next_back P ks = last (filter (fun k => P k = true) ks).
Proof.
  induction ks as [|x ks IH] using rev_ind; [done|]. intros Hs.
  assert (Forall (fun k => k ≤ x) ks) as Hx.
  { apply Forall_forall. intros k Hk. eapply (StronglySorted_app_1_elem_of _ _ _ k x Hs); set_solver. }
  apply StronglySorted_app_1_l in Hs. rewrite next_back_snoc, filter_app, IH by done.
  destruct (P x) eqn:E.
  - rewrite (filter_cons_True _ x []) by done. by rewrite filter_nil, last_snoc.
  - rewrite (filter_cons_False _ x []) by congruence. by rewrite filter_nil, app_nil_r.
Qed.

(** The map of a list of publications, the later one of a key winning. *)
Definition pub_map {V} (l : list (Z * V)) : gmap Z V := foldl (fun m p => <[p.1 := p.2]> m) ∅ l.

Lemma pub_map_snoc {V} (l : list (Z * V)) p : pub_map (l ++ [p]) = <[p.1 := p.2]> (pub_map l).
Proof. unfold pub_map. by rewrite foldl_snoc. Qed.

Lemma pub_map_keys {V} (l : list (Z * V)) k : k ∈ (map_to_list (pub_map l)).*1 ↔ k ∈ l.*1.
Proof.
  rewrite list_elem_of_fmap. setoid_rewrite elem_of_map_to_list'.
  trans (is_Some (pub_map l !! k)).
  { split; [intros ([? ?] & -> & ?); eauto|]. intros [v Hv]. by exists (k, v). }
  induction l as [|[x v] l IH] using rev_ind; [unfold pub_map; simpl; split; [intros []%lookup_empty_is_Some|intros []%elem_of_nil]|].
  rewrite pub_map_snoc, fmap_app, elem_of_app, <- IH. simpl. rewrite lookup_insert_is_Some.
  rewrite list_elem_of_singleton. clear IH.
  destruct (decide (x = k)) as [->|Hne]; [tauto|]. split; [tauto|]. intros [?| ->]; [auto|done].
Qed.

Lemma pub_map_next_back {V} P (l : list (Z * V)) :
  StronglySorted Z.le l.*1 →
  (k ← next_back P (map_to_list (pub_map l)).*1; pub_map l !! k) =
  snd <$> last (filter (fun p => P p.1 = true) l).
Proof.
  intros Hs. rewrite (next_back_ext P _ l.*1 (pub_map_keys l)).
  induction l as [|[x v] l IH] using rev_ind; [done|]. rewrite fmap_app in *.
  assert (Forall (fun k => k ≤ x) l.*1) as Hx.
  { apply Forall_forall. intros k Hk. eapply (StronglySorted_app_1_elem_of _ _ _ k x Hs); set_solver. }
  apply StronglySorted_app_1_l in Hs. simpl. rewrite next_back_snoc, filter_app, pub_map_snoc by done. simpl.
  destruct (P x) eqn:E.
  - rewrite (filter_cons_True _ (x, v) []) by done. rewrite filter_nil, last_snoc. simpl. by rewrite lookup_insert_eq.
  - rewrite (filter_cons_False _ (x, v) []) by (simpl; congruence). rewrite filter_nil, app_nil_r, <- IH by done.
    destruct (next_back P l.*1) as [k|] eqn:Hk; [|done]. simpl. apply next_back_Some in Hk as (_ & Hk & _).
    rewrite lookup_insert_ne by congruence. done.
Qed.

(** *** Registers of the whole fold *)

Lemma keep_last_snoc {A} (n : nat) (l : list A) (x : A) :
  (if (n <? length (keep_last n l ++ [x]))%nat then tail (keep_last n l ++ [x])
   else keep_last n l ++ [x]) = keep_last n (l ++ [x]).
Proof.
  unfold keep_last. rewrite !length_app, length_drop. simpl.
  destruct (Nat.ltb_spec n (length l - (length l - n) + 1)).
  - change (tail (drop (length l - n) l ++ [x])) with (drop 1 (drop (length l - n) l ++ [x])).
    rewrite <- drop_app_le, drop_drop by lia. f_equal. lia.
  - rewrite drop_app_le by lia. f_equal. f_equal. lia.
Qed.

Lemma omap_sorted {A B} (R : relation A) (S : relation B) (f : A → option B) (l : list A) :
  (∀ x y a b, R x y → f x = Some a → f y = Some b → S a b) →
  StronglySorted R l → StronglySorted S (omap f l).
Proof.
  intros HRS. induction 1 as [|x l Hl IH Hx]; simpl; [constructor|].
  destruct (f x) as [a|] eqn:Ha; [|done]. constructor; [done|].
  apply Forall_forall. intros b (y & Hy & Hb)%list_elem_of_omap.
  rewrite Forall_forall in Hx. eauto.
Qed.

Section FoldSpec.
Context `{Sha256}.
Implicit Types (l : list Entry) (id : NodeId) (k : EdgeKey) (d : DeviceFingerprint).

Definition fold_all l : FoldState := foldl project_step (∅, ∅) l.

Lemma node_of_init id : node_of id (∅, ∅) = NodeAccum_default.
Proof. unfold node_of. simpl. by rewrite lookup_empty. Qed.
Lemma edge_of_init k : edge_of k (∅, ∅) = EdgeAccum_default.
Proof. unfold edge_of. simpl. by rewrite lookup_empty. Qed.

Ltac register proj step :=
  apply (last_write_register _ proj); [by rewrite ?node_of_init, ?edge_of_init|apply step].

Lemma fold_exists id l : na_exists (node_of id (fold_all l)) = default false (last_write (w_create id) l).
Proof.
  unfold fold_all. rewrite (foldl_register _ (fun st => na_exists (node_of id st)) (w_create id) (fun _ b => b)).
  - by rewrite node_of_init, foldl_last.
  - apply step_exists.
Qed.
Lemma fold_content id l : na_content (node_of id (fold_all l)) = last_write (w_content id) l.
Proof. register (fun st => na_content (node_of id st)) step_content. Qed.
Lemma fold_status id l : na_status (node_of id (fold_all l)) = last_write (w_status id) l.
Proof. register (fun st => na_status (node_of id st)) step_status. Qed.
Lemma fold_anchors id l : na_anchors (node_of id (fold_all l)) = last_write (w_anchors id) l.
Proof. register (fun st => na_anchors (node_of id st)) step_anchors. Qed.
Lemma fold_source_hash id d l :
  na_source_text_hash_by_device (node_of id (fold_all l)) !! d = last_write (w_source_hash id d) l.
Proof. register (fun st => na_source_text_hash_by_device (node_of id st) !! d) step_source_hash. Qed.
Lemma fold_scopes id d l :
  default ∅ (na_anchor_scopes_by_device (node_of id (fold_all l)) !! d) = pub_map (omap (w_scopes id d) l).
Proof.
  unfold fold_all.
  rewrite (foldl_register _ (fun st => default ∅ (na_anchor_scopes_by_device (node_of id st) !! d))
    (w_scopes id d) (fun m p => <[p.1 := p.2]> m)); [by rewrite node_of_init|apply step_scopes].
Qed.
Lemma fold_set_lamports id d l z :
  z ∈ default ∅ (na_anchor_set_lamports_by_device (node_of id (fold_all l)) !! d) ↔
  z ∈ omap (w_set_lamport id d) l.
Proof.
  unfold fold_all.
  rewrite (foldl_register _ (fun st => default ∅ (na_anchor_set_lamports_by_device (node_of id st) !! d))
    (w_set_lamport id d) (fun s z => {[z]} ∪ s)); [|apply step_set_lamports].
  rewrite node_of_init. simpl. induction (omap (w_set_lamport id d) l) as [|x s IH] using rev_ind;
    [set_solver|]. rewrite foldl_snoc, elem_of_union, IH, elem_of_app. set_solver.
Qed.
Lemma fold_superseded id l :
  na_superseded_anchors (node_of id (fold_all l)) =
  keep_last SUPERSEDED_ANCHOR_SETS_KEPT (removelast (omap (w_anchors id) l)).
Proof.
  induction l as [|e l IH] using rev_ind; [unfold fold_all; simpl; by rewrite node_of_init|].
  unfold fold_all. rewrite foldl_snoc. fold (fold_all l). rewrite step_superseded, omap_app. simpl.
  destruct (w_anchors id e) as [x|]; simpl; [|by rewrite app_nil_r].
  rewrite removelast_last. unfold push_superseded. rewrite fold_anchors, IH. unfold last_write.
  destruct (omap (w_anchors id) l) as [|y s _] using rev_ind; [done|].
  rewrite last_snoc, removelast_last. apply keep_last_snoc.
Qed.

Lemma fold_spec k l : ea_spec (edge_of k (fold_all l)) = last_write (w_spec k) l.
Proof. register (fun st => ea_spec (edge_of k st)) step_spec. Qed.
Lemma fold_resolved k l : ea_resolved (edge_of k (fold_all l)) = last_write (w_resolved k) l.
Proof. register (fun st => ea_resolved (edge_of k st)) step_resolved. Qed.
Lemma fold_presence k l :
  ea_present (edge_of k (fold_all l)) = match last_write (w_presence k) l with Some (Some _) => true | _ => false end.
Proof.
  unfold fold_all.
  rewrite (foldl_register _ (fun st => ea_present (edge_of k st)) (w_presence k)
    (fun _ o => bool_decide (is_Some o))); [|apply step_presence].
  rewrite edge_of_init. unfold last_write. destruct (omap (w_presence k) l) as [|[x|] s _] using rev_ind;
    [done|by rewrite foldl_snoc, last_snoc..].
Qed.
End FoldSpec.

(** *** Refinement *)

Definition lamport_sorted (l : list Entry) : Prop :=
  StronglySorted (fun a b => om_lamport (en_meta a) ≤ om_lamport (en_meta b)) l.

Lemma in_total_order_lamport `{Minicbor} entries : lamport_sorted (in_total_order entries).
Proof.
  unfold lamport_sorted, in_total_order. pose proof (sort_by_key_sorted order_key entries) as Hs.
  induction Hs as [|x l Hl IH Hx]; constructor; [done|]. eapply Forall_impl; [exact Hx|].
  intros y Hle. apply cle_Z. by do 2 apply cle_pair_fst in Hle.
Qed.

Section Refinement.
Context `{Sha256}.
Implicit Types (l : list Entry) (id : NodeId) (k : EdgeKey).

Lemma set_lamports_sorted id d l :
  lamport_sorted l → StronglySorted Z.le (omap (w_set_lamport id d) l).
Proof.
  apply omap_sorted. intros x y a b. unfold w_set_lamport, by_device, at_node.
  repeat case_match; naive_solver.
Qed.

Lemma scopes_sorted id d l :
  lamport_sorted l → StronglySorted Z.le (omap (w_scopes id d) l).*1.
Proof.
  intros Hl. apply (sorted_by_key_fmap Z.le fst). revert Hl.
  apply omap_sorted. intros x y a b. unfold w_scopes, by_device, at_node.
  repeat case_match; naive_solver.
Qed.

Lemma finish_scopes_spec id meta l :
  lamport_sorted l → finish_scopes (node_of id (fold_all l)) meta = spec_scopes id meta l.
Proof.
  intros Hs. unfold finish_scopes, spec_scopes. set (d := om_device meta).
  set (acc := node_of id (fold_all l)).
  assert ((sets ← na_anchor_set_lamports_by_device acc !! d;
           next_back (fun z => bool_decide (z < om_lamport meta)) (elements (sets : gset Z))) =
          last (filter (fun z => z < om_lamport meta) (omap (w_set_lamport id d) l))) as ->.
  { trans (next_back (fun z => bool_decide (z < om_lamport meta))
      (elements (default ∅ (na_anchor_set_lamports_by_device acc !! d)))).
    { by destruct (_ !! d). }
    rewrite (next_back_ext _ _ (omap (w_set_lamport id d) l)).
    2: { intros z. rewrite elem_of_elements. apply fold_set_lamports. }
    rewrite next_back_sorted; [|by apply set_lamports_sorted].
    f_equal. apply list_filter_iff. intros z. apply bool_decide_eq_true. }
  rewrite <- pub_map_next_back, <- fold_scopes by by apply scopes_sorted. fold acc.
  by destruct (na_anchor_scopes_by_device acc !! d).
Qed.

Lemma finish_node_spec id l :
  lamport_sorted l → finish_node (node_of id (fold_all l)) = spec_node id l.
Proof.
  intros Hs. unfold finish_node, spec_node.
  rewrite fold_exists, fold_content, fold_status, fold_anchors, fold_superseded.
  destruct (last_write (w_create id) l) as [b|] eqn:Hb; [|done].
  assert (b = true) as ->.
  { apply last_write_Some in Hb as (_ & e & _ & _ & He & _). unfold w_create, at_node in He.
    repeat case_match; naive_solver. }
  simpl. destruct (last_write (w_content id) l) as [c|]; [|done]. simpl.
  destruct (last_write (w_anchors id) l) as [[anchors meta]|]; [|done]. simpl.
  by rewrite fold_source_hash, finish_scopes_spec.
Qed.

Lemma last_presence_spec k l s :
  last_write (w_presence k) l = Some (Some s) → last_write (w_spec k) l = Some s.
Proof.
  rewrite !last_write_Some. intros (l1 & e & l2 & -> & He & Hl2). exists l1, e, l2.
  split_and!; [done| |eapply Forall_impl; [exact Hl2|intros e']];
    unfold w_presence, w_spec in *; repeat case_match; naive_solver.
Qed.

Lemma live_edge_spec k l : live_edge (edge_of k (fold_all l)) = spec_live k l.
Proof.
  unfold live_edge, spec_live. rewrite fold_spec, fold_presence, fold_resolved.
  destruct (last_write (w_presence k) l) as [[s|]|] eqn:Hp; simpl.
  - by rewrite (last_presence_spec k l s).
  - by destruct (last_write (w_spec k) l).
  - by destruct (last_write (w_spec k) l).
Qed.

Lemma no_presence_no_spec k l : last_write (w_presence k) l = None → last_write (w_spec k) l = None.
Proof.
  rewrite !last_write_None. intros Hl. eapply Forall_impl; [exact Hl|]. intros e.
  unfold w_presence, w_spec. repeat case_match; naive_solver.
Qed.

Lemma removed_edge_spec k l : removed_edge (edge_of k (fold_all l)) = spec_removed k l.
Proof.
  unfold removed_edge, spec_removed. rewrite fold_spec, fold_presence, fold_resolved.
  destruct (last_write (w_presence k) l) as [[s|]|] eqn:Hp; simpl.
  - by destruct (last_write (w_spec k) l).
  - by destruct (last_write (w_spec k) l).
  - by rewrite no_presence_no_spec.
Qed.

Context `{Minicbor}.

Lemma project_nodes_lookup entries id :
  ps_nodes (project entries) !! id = spec_node id (in_total_order entries).
Proof.
  rewrite <- finish_node_spec by apply in_total_order_lamport. unfold project, node_of.
  fold (fold_all (in_total_order entries)). destruct (fold_all _) as [nodes edges]. simpl.
  rewrite lookup_omap. by destruct (nodes !! id).
Qed.

Lemma project_edges_lookup entries k :
  ps_edges (project entries) !! k = spec_live k (in_total_order entries).
Proof.
  rewrite <- live_edge_spec. unfold project, edge_of.
  fold (fold_all (in_total_order entries)). destruct (fold_all _) as [nodes edges]. simpl.
  rewrite lookup_omap. by destruct (edges !! k).
Qed.

Lemma project_removed_lookup entries k :
  ps_removed_edges (project entries) !! k = spec_removed k (in_total_order entries).
Proof.
  rewrite <- removed_edge_spec. unfold project, edge_of.
  fold (fold_all (in_total_order entries)). destruct (fold_all _) as [nodes edges]. simpl.
  rewrite lookup_omap. by destruct (edges !! k).
Qed.

(** Two states with the same lookups are the same state. *)
Lemma projected_state_eq s t :
  (∀ id, ps_nodes s !! id = ps_nodes t !! id) → (∀ k, ps_edges s !! k = ps_edges t !! k) →
  (∀ k, ps_removed_edges s !! k = ps_removed_edges t !! k) → s = t.
Proof.
  destruct s, t. simpl. intros Hn He Hr. f_equal; by apply map_eq.
Qed.
End Refinement.

(** ** Order independence *)

Definition canonical_entry (e : Entry) : Entry := mkEntry (en_meta e) (canonical_op (en_op e)).
Definition entry_ok (e : Entry) : Prop := op_ok (en_op e).

Lemma canonicalize_idemp c : canonicalize (canonicalize c) = canonicalize c.
Proof. unfold canonicalize. simpl. by rewrite sort_dedup_idemp. Qed.

Lemma foldl_scopes_insert (l : list AnchorScope) (s : AnchorScope) (m : AnchorScopes) :
  foldl (fun m (s : AnchorScope) => <[identity s := as_scope_hash s]> m) m (insert_by_key identity s l) =
  foldl (fun m (s : AnchorScope) => <[identity s := as_scope_hash s]> m) m (s :: l).
Proof.
  revert m. induction l as [|t l IH]; intros m; [done|]. simpl.
  destruct (cmp (identity s) (identity t)) eqn:E; [done|done|]. simpl. rewrite IH. simpl. f_equal.
  apply insert_insert_ne. intros Heq. rewrite Heq, cmp_refl in E. done.
Qed.

(** The stable sort keeps the row of an identity that wins. *)
Lemma collect_scopes_sort l : collect_scopes (sort_by_key identity l) = collect_scopes l.
Proof.
  unfold collect_scopes. generalize (∅ : AnchorScopes). induction l as [|s l IH]; intros m; [done|].
  cbn [sort_by_key foldr]. fold (sort_by_key identity l). rewrite foldl_scopes_insert. simpl. apply IH.
Qed.

Lemma canonical_op_idemp op : canonical_op (canonical_op op) = canonical_op op.
Proof. destruct op; simpl; by rewrite ?canonicalize_idemp, ?sort_by_key_idemp. Qed.

Section OrderIndependence.
Context `{Sha256}.

Lemma project_step_canonical st e : project_step st (canonical_entry e) = project_step st e.
Proof.
  destruct st as [nodes edges], e as [meta []]; try done; simpl;
    unfold acc_create, acc_update, acc_anchors, acc_anchor_scopes, canonical_content, canonical_anchors;
    by rewrite ?canonicalize_idemp, ?sort_by_key_idemp, ?collect_scopes_sort.
Qed.

Lemma fold_all_canonical l : fold_all (canonical_entry <$> l) = fold_all l.
Proof.
  unfold fold_all. generalize ((∅, ∅) : FoldState). induction l as [|e l IH]; intros st; [done|].
  rewrite fmap_cons. cbn [foldl]. by rewrite project_step_canonical, IH.
Qed.

Context `{MinicborLaws}.

Lemma order_key_canonical e : order_key (canonical_entry e) = order_key e.
Proof. unfold order_key. simpl. by rewrite encode_canonical_op. Qed.

Lemma order_key_inj e e' :
  entry_ok e → entry_ok e' → order_key e = order_key e' → canonical_entry e = canonical_entry e'.
Proof.
  intros He He' [= Hl Hd Henc]. unfold canonical_entry.
  rewrite (encode_inj_canonical (en_op e) (en_op e')) by done.
  destruct e as [[] ?], e' as [[] ?]. simpl in *. by subst.
Qed.

Lemma canonical_list_inj l l' :
  Forall entry_ok l → Forall entry_ok l' → order_key <$> l = order_key <$> l' →
  canonical_entry <$> l = canonical_entry <$> l'.
Proof.
  intros Hl. revert l'. induction Hl as [|e l He Hl IH]; intros [|e' l'] Hl' Heq; try done.
  rewrite !fmap_cons in Heq. injection Heq as Hk Heq. apply Forall_cons in Hl' as [He' Hl'].
  rewrite !fmap_cons. f_equal; [|by apply IH]. apply order_key_inj; [done|done|].
  unfold order_key. congruence.
Qed.

(** The projection only reads the ordered canonical entries. *)
Lemma project_ext l l' :
  canonical_entry <$> in_total_order l = canonical_entry <$> in_total_order l' →
  project l = project l'.
Proof.
  intros Heq. unfold project. fold (fold_all (in_total_order l)) (fold_all (in_total_order l')).
  by rewrite <- fold_all_canonical, Heq, fold_all_canonical.
Qed.

Lemma in_total_order_ok l : Forall entry_ok l → Forall entry_ok (in_total_order l).
Proof. unfold in_total_order. by rewrite sort_by_key_perm. Qed.
End OrderIndependence.

(** *** Duplicated entries *)

(** A node and a state without the history of superseded anchor sets. *)
Definition forget_node (n : ProjectedNode) : ProjectedNode :=
  mkProjectedNode (pn_content n) (pn_status n) (pn_anchors n) (pn_source_text_hash n)
    (pn_anchor_scopes n) (pn_anchors_meta n) [].

Definition forget_superseded (s : ProjectedState) : ProjectedState :=
  mkProjectedState (forget_node <$> ps_nodes s) (ps_edges s) (ps_removed_edges s).

Section Duplicates.
(** Dropping adjacent duplicates keeps the last write, of any list of writes. *)
Lemma last_omap_dedup {A B} `{EqDecision A} (w : A → option B) (l : list A) :
  last (omap w (dedup l)) = last (omap w l).
Proof.
  induction l as [|x [|y l] IH]; [done|done|].
  change (last (omap w (if decide (x = y) then dedup (y :: l) else x :: dedup (y :: l))) =
          last (omap w (x :: y :: l))).
  case_decide as Hxy.
  - subst. rewrite IH. simpl. by destruct (w y).
  - change (last (match w x with Some b => b :: omap w (dedup (y :: l)) | None => omap w (dedup (y :: l)) end) =
            last (match w x with Some b => b :: omap w (y :: l) | None => omap w (y :: l) end)).
    destruct (w x); [|done]. by rewrite !last_cons, IH.
Qed.

Lemma filter_omap_write {A B} (P : B → Prop) `{∀ x, Decision (P x)} (w : A → option B) (l : list A) :
  filter P (omap w l) = omap (fun e => x ← w e; if decide (P x) then Some x else None) l.
Proof.
  induction l as [|e l IH]; [done|]. simpl. destruct (w e) as [x|]; simpl; [|done].
  rewrite filter_cons.
  change (list_omap A B w l) with (omap w l). rewrite IH. by case_decide.
Qed.

Context `{Sha256}.

Lemma spec_scopes_dedup id meta l : spec_scopes id meta (dedup l) = spec_scopes id meta l.
Proof. unfold spec_scopes. rewrite !filter_omap_write, !last_omap_dedup. done. Qed.

Lemma spec_node_dedup id l : forget_node <$> spec_node id (dedup l) = forget_node <$> spec_node id l.
Proof.
  unfold spec_node, last_write. rewrite !last_omap_dedup.
  destruct (last (omap (w_create id) l)); [|done]. simpl.
  destruct (last (omap (w_content id) l)); [|done]. simpl. unfold forget_node. simpl. do 2 f_equal.
  - destruct (last (omap (w_anchors id) l)); [|done]. simpl. apply last_omap_dedup.
  - destruct (last (omap (w_anchors id) l)); [|done]. simpl. by rewrite spec_scopes_dedup.
Qed.

Lemma spec_live_dedup k l : spec_live k (dedup l) = spec_live k l.
Proof. unfold spec_live, last_write. by rewrite !last_omap_dedup. Qed.
Lemma spec_removed_dedup k l : spec_removed k (dedup l) = spec_removed k l.
Proof. unfold spec_removed, last_write. by rewrite !last_omap_dedup. Qed.
End Duplicates.

Section Sets.
Context `{Sha256} `{MinicborLaws}.

Lemma spec_canonical entries :
  let l := canonical_entry <$> in_total_order entries in
  (∀ id, ps_nodes (project entries) !! id = spec_node id l) ∧
  (∀ k, ps_edges (project entries) !! k = spec_live k l) ∧
  (∀ k, ps_removed_edges (project entries) !! k = spec_removed k l).
Proof.
  intros l. assert (lamport_sorted l) as Hl.
  { unfold l. apply (sorted_by_key_fmap (fun a b => om_lamport (en_meta a) ≤ om_lamport (en_meta b))
      canonical_entry (in_total_order entries)). apply in_total_order_lamport. }
  split_and!; intros x.
  - rewrite project_nodes_lookup, <- !finish_node_spec by (done || apply in_total_order_lamport).
    unfold l. by rewrite fold_all_canonical.
  - rewrite project_edges_lookup, <- !live_edge_spec. unfold l. by rewrite fold_all_canonical.
  - rewrite project_removed_lookup, <- !removed_edge_spec. unfold l. by rewrite fold_all_canonical.
Qed.

Lemma canonical_key_inj l l' x y :
  Forall entry_ok l → Forall entry_ok l' →
  x ∈ canonical_entry <$> in_total_order l → y ∈ canonical_entry <$> in_total_order l' →
  order_key x = order_key y → x = y.
Proof.
  intros Hl%in_total_order_ok Hl'%in_total_order_ok (e & -> & He)%list_elem_of_fmap
    (e' & -> & He')%list_elem_of_fmap Hk.
  rewrite !order_key_canonical in Hk. rewrite Forall_forall in Hl, Hl'. apply order_key_inj; auto.
Qed.

Lemma keys_in_total_order l :
  order_key <$> (canonical_entry <$> in_total_order l) = sort_unstable (order_key <$> l).
Proof.
  unfold in_total_order. rewrite <- fmap_sort_by_key, <- list_fmap_compose. apply list_fmap_ext.
  intros _ e _. apply order_key_canonical.
Qed.

(** The ordered canonical entries without duplicates depend on the set of entries. *)
Lemma dedup_canonical_ext l l' :
  Forall entry_ok l → Forall entry_ok l' → (∀ e, e ∈ l ↔ e ∈ l') →
  dedup (canonical_entry <$> in_total_order l) = dedup (canonical_entry <$> in_total_order l').
Proof.
  intros Hl Hl' Hext. apply (fmap_inj_on order_key).
  { intros x y. rewrite !elem_of_dedup. by apply canonical_key_inj. }
  rewrite <- !dedup_fmap by (intros x y; by apply canonical_key_inj).
  rewrite !keys_in_total_order. apply sort_dedup_ext. intros k. rewrite !list_elem_of_fmap.
  by setoid_rewrite Hext.
Qed.
End Sets.

(** ** Properties *)

(** C32.  Functional correctness of the fold: every node row, live edge and tombstone of the
    projection is what the register specification says of the entries in the total order
    (content, status and anchors are last writes, the source hash is the winning device's
    latest, scopes come from the winning publication's window, at most 32 superseded sets
    are kept, oldest first; an edge is live iff its last presence write is an add). *)
Theorem project_refines_registers `{Minicbor} `{Sha256} (entries : list Entry) :
  let l := in_total_order entries in
  (∀ id, ps_nodes (project entries) !! id = spec_node id l) ∧
  (∀ k, ps_edges (project entries) !! k = spec_live k l) ∧
  (∀ k, ps_removed_edges (project entries) !! k = spec_removed k l).
Proof.
  split_and!; intros; [apply project_nodes_lookup|apply project_edges_lookup|apply project_removed_lookup].
Qed.

(** C33.  Convergence: replicas that hold the same entries in any order, even with entries
    that share a [(lamport, device)], compute the same projection. *)
Theorem project_order_independent `{MinicborLaws} `{Sha256} (entries entries' : list Entry) :
  Forall entry_ok entries → entries ≡ₚ entries' → project entries = project entries'.
Proof.
  intros Hok Hperm. apply project_ext.
  assert (Forall entry_ok entries') as Hok' by by rewrite <- Hperm.
  apply canonical_list_inj; [by apply in_total_order_ok..|]. by apply sort_by_key_keys.
Qed.

Definition wit_meta (lamport : Z) (dev : byte) : OpMeta := mkOpMeta lamport (replicate 32 dev).
Definition wit_content (tags : list bytes) : NodeContent :=
  mkNodeContent (lit "k") (lit "t") (lit "b") (lit "c") (lit "s") tags None.
Definition wit_edge : EdgeSpec :=
  mkEdgeSpec (lit "n") DependsOn (lit "r") (lit "node") (lit "m") (lit "r").
(** A create and a status flip at one position of the order. *)
Definition wit_entries : list Entry :=
  [mkEntry (wit_meta 1 x01) (NodeCreate (lit "n") (wit_content [lit "y"; lit "x"]));
   mkEntry (wit_meta 1 x01) (NodeStatusOp (lit "n") Obsolete);
   mkEntry (wit_meta 2 x01) (NodeAnchors (lit "n") [])].

Lemma project_order_independent_witness :
  project wit_entries = project (reverse wit_entries) ∧
  is_Some (ps_nodes (project wit_entries) !! lit "n").
Proof.
  split; [|vm_compute; eauto].
  apply project_order_independent; [repeat constructor; by vm_compute|].
  by rewrite reverse_Permutation.
Defined.

(** A replica that reads the ops off the wire folds to the same state as their author,
    who folds the ops it built in memory. *)
Theorem project_wire_agreement `{MinicborLaws} `{Sha256} (entries received : list Entry) :
  Forall (fun e => op_ok (en_op e) ∧ within_wire_limits (en_op e) = true) entries →
  Forall2 (fun e e' => en_meta e' = en_meta e ∧
                       decode (encode (en_op e)) = Ok (Known (en_op e'))) entries received →
  project received = project entries.
Proof.
  intros Hok Hrec. assert (received = canonical_entry <$> entries) as ->.
  { induction Hrec as [|e [meta op] l l' [Hm Hd] Hl IH]; [done|].
    apply Forall_cons in Hok as [[Hop Hlim] Hok]. unfold decode in Hd.
    rewrite decode_envelope_encode in Hd by done. rewrite fmap_cons, IH by done.
    simpl in *. by simplify_eq. }
  apply project_ext. unfold in_total_order.
  rewrite (sort_by_key_fmap order_key) by apply order_key_canonical.
  rewrite <- list_fmap_compose. apply list_fmap_ext. intros _ e _. unfold compose, canonical_entry. simpl.
  by rewrite canonical_op_idemp.
Qed.

Lemma project_wire_agreement_witness :
  project (canonical_entry <$> wit_entries) = project wit_entries.
Proof.
  apply project_wire_agreement; [repeat constructor; by vm_compute|].
  repeat constructor; by vm_compute.
Defined.

(** Redelivery is harmless: two logs with the same set of entries, in any order and
    with any entry repeated any number of times, project to the same nodes, live edges and
    tombstones, except for the history of superseded anchor sets. *)
Theorem project_duplicates `{MinicborLaws} `{Sha256} (entries entries' : list Entry) :
  Forall entry_ok entries → Forall entry_ok entries' → (∀ e, e ∈ entries ↔ e ∈ entries') →
  forget_superseded (project entries) = forget_superseded (project entries').
Proof.
  intros Hok Hok' Hext. pose proof (dedup_canonical_ext entries entries' Hok Hok' Hext) as Hd.
  destruct (spec_canonical entries) as (Hn & He & Hr), (spec_canonical entries') as (Hn' & He' & Hr').
  apply projected_state_eq; simpl; intros x.
  - by rewrite !lookup_fmap, Hn, Hn', <- spec_node_dedup, Hd, spec_node_dedup.
  - by rewrite He, He', <- spec_live_dedup, Hd, spec_live_dedup.
  - by rewrite Hr, Hr', <- spec_removed_dedup, Hd, spec_removed_dedup.
Qed.

Lemma project_duplicates_witness :
  forget_superseded (project wit_entries) = forget_superseded (project (wit_entries ++ wit_entries)).
Proof.
  apply project_duplicates; [repeat constructor; by vm_compute..|].
  intros e. rewrite elem_of_app. tauto.
Defined.

(** The exception is real: repeating one anchor publication of a created node changes
    the projection, since the set then supersedes itself. *)
Theorem project_not_idempotent :
  project (wit_entries ++ wit_entries) ≠ project wit_entries.
Proof.
  intros Heq. assert (pn_superseded_anchors <$> ps_nodes (project (wit_entries ++ wit_entries)) !! lit "n" =
    pn_superseded_anchors <$> ps_nodes (project wit_entries) !! lit "n") as H by by rewrite Heq.
  vm_compute in H. discriminate H.
Qed.

(** *** Winners in the [(lamport, device)] order *)

Definition position (e : Entry) : Z * DeviceFingerprint := (om_lamport (en_meta e), om_device (en_meta e)).

Section Winners.
Context `{Minicbor}.

Lemma elem_of_total_order e entries : e ∈ in_total_order entries ↔ e ∈ entries.
Proof. unfold in_total_order. by rewrite sort_by_key_perm. Qed.

Lemma position_order e e' l1 l2 entries :
  in_total_order entries = l1 ++ e :: l2 → e' ∈ l1 → cle (position e') (position e).
Proof.
  intros Heq He'. pose proof (sort_by_key_sorted order_key entries) as Hs.
  unfold in_total_order in Heq. unfold sorted_by_key in Hs. rewrite Heq in Hs.
  apply (StronglySorted_app_1_elem_of _ _ _ e' e) in Hs; [|done|set_solver].
  by apply cle_pair_fst in Hs.
Qed.

(** A write at a position above every other write of the register wins it. *)
Lemma last_write_max {A} (w : Entry → option A) entries e x :
  e ∈ entries → w e = Some x →
  (∀ e', e' ∈ entries → is_Some (w e') → e' ≠ e → clt (position e') (position e)) →
  last_write w (in_total_order entries) = Some x.
Proof.
  intros He Hw Hmax. destruct (last_write w (in_total_order entries)) as [y|] eqn:Hl.
  - apply last_write_Some in Hl as (l1 & e' & l2 & Hl & He' & Hl2).
    destruct (decide (e' = e)) as [->|Hne]; [congruence|].
    assert (clt (position e') (position e)) as Hlt.
    { apply Hmax; [|eauto|done]. apply elem_of_total_order. rewrite Hl. set_solver. }
    apply elem_of_total_order in He. rewrite Hl in He.
    apply elem_of_app in He as [He|He].
    + apply (position_order e' e l1 l2 entries Hl) in He. by apply not_cle_clt in Hlt.
    + apply elem_of_cons in He as [->|He]; [done|]. rewrite Forall_forall in Hl2.
      rewrite (Hl2 e He) in Hw. done.
  - apply last_write_None in Hl. rewrite Forall_forall in Hl.
    rewrite (Hl e) in Hw; [done|]. by apply elem_of_total_order.
Qed.

Lemma is_Some_last_write {A} (w : Entry → option A) entries :
  is_Some (last_write w (in_total_order entries)) ↔ ∃ e, e ∈ entries ∧ is_Some (w e).
Proof.
  split.
  - intros [x (l1 & e & l2 & Hl & He & _)%last_write_Some]. exists e.
    rewrite <- elem_of_total_order, Hl. split; [set_solver|eauto].
  - intros (e & He & Hw). apply not_eq_None_Some. intros Hn%last_write_None.
    rewrite Forall_forall in Hn. destruct Hw as [x Hw].
    rewrite (Hn e) in Hw; [done|by apply elem_of_total_order].
Qed.
End Winners.

Section EdgeWinners.
Context `{Minicbor} `{Sha256}.

Lemma removed_presence entries r k :
  r ∈ entries → en_op r = EdgeRemove k →
  (∀ e s, e ∈ entries → en_op e = EdgeAdd s → edge_key s = k → clt (position e) (position r)) →
  last_write (w_presence k) (in_total_order entries) = Some None.
Proof.
  intros Hr Hop Hmax.
  assert (w_presence k r = Some None) as Hw by (unfold w_presence; by rewrite Hop, decide_True).
  destruct (last_write _ _) as [[s|]|] eqn:Hp; [exfalso|done|exfalso].
  - apply last_write_Some in Hp as (l1 & e & l2 & Hl & He & Hl2).
    assert (clt (position e) (position r)) as Hlt.
    { apply (Hmax e s); [apply elem_of_total_order; rewrite Hl; set_solver|..];
        unfold w_presence in He; repeat case_match; naive_solver. }
    apply elem_of_total_order in Hr. rewrite Hl in Hr. apply elem_of_app in Hr as [Hr|Hr].
    + apply (position_order e r l1 l2 entries Hl) in Hr. by apply not_cle_clt in Hlt.
    + apply elem_of_cons in Hr as [->|Hr]; [congruence|]. rewrite Forall_forall in Hl2.
      rewrite (Hl2 r Hr) in Hw. done.
  - apply last_write_None in Hp. rewrite Forall_forall in Hp.
    rewrite (Hp r) in Hw; [done|by apply elem_of_total_order].
Qed.

Lemma added_iff entries k :
  (∃ e s, e ∈ entries ∧ en_op e = EdgeAdd s ∧ edge_key s = k) ↔
  is_Some (last_write (w_spec k) (in_total_order entries)).
Proof.
  rewrite is_Some_last_write. split.
  - intros (e & s & He & Hop & Hk). exists e. split; [done|]. unfold w_spec.
    rewrite Hop, decide_True by done. eauto.
  - intros (e & He & [s Hw]). exists e, s. unfold w_spec in Hw. repeat case_match; naive_solver.
Qed.
End EdgeWinners.

Lemma created_iff `{Minicbor} entries id :
  is_Some (last_write (w_create id) (in_total_order entries)) ↔
  ∃ e c, e ∈ entries ∧ en_op e = NodeCreate id c.
Proof.
  rewrite is_Some_last_write. split.
  - intros (e & He & [b Hw]). unfold w_create, at_node in Hw. repeat case_match; naive_solver.
  - intros (e & c & He & Hop). exists e. split; [done|]. unfold w_create, at_node.
    rewrite Hop, decide_True by done. eauto.
Qed.

(** A create also writes the content. *)
Lemma create_content id l :
  is_Some (last_write (w_create id) l) → is_Some (last_write (w_content id) l).
Proof.
  intros [b (l1 & e & l2 & -> & He & _)%last_write_Some]. apply not_eq_None_Some.
  intros Hn%last_write_None. apply Forall_app in Hn as [_ [Hn _]%Forall_cons].
  unfold w_create, w_content, at_node in *. repeat case_match; done.
Qed.

(** Last writer wins: if a create or update of a node sits above every other content
    write of the node in [(lamport, device)] order, and the node is created anywhere, the
    projected content is that op's, whatever else the log holds. *)
Theorem content_last_writer_wins `{Minicbor} `{Sha256} entries id e c :
  e ∈ entries → (en_op e = NodeCreate id c ∨ en_op e = NodeUpdate id c) →
  (∃ e' c', e' ∈ entries ∧ en_op e' = NodeCreate id c') →
  (∀ e', e' ∈ entries → is_Some (w_content id e') → e' ≠ e → clt (position e') (position e)) →
  pn_content <$> ps_nodes (project entries) !! id = Some (canonicalize c).
Proof.
  intros He Hop (e0 & c0 & He0 & Hop0) Hmax.
  assert (last_write (w_content id) (in_total_order entries) = Some (canonicalize c)) as Hc.
  { apply (last_write_max _ _ e); [done| |done]. unfold w_content, at_node.
    destruct Hop as [-> | ->]; by rewrite decide_True. }
  assert (is_Some (last_write (w_create id) (in_total_order entries))) as [b Hb].
  { apply is_Some_last_write. exists e0. split; [done|]. unfold w_create, at_node.
    rewrite Hop0, decide_True by done. eauto. }
  rewrite project_nodes_lookup. unfold spec_node. by rewrite Hb, Hc.
Qed.

Lemma content_last_writer_wins_witness :
  let create := mkEntry (wit_meta 2 x01) (NodeCreate (lit "n") (wit_content [])) in
  let update := mkEntry (wit_meta 2 x02) (NodeUpdate (lit "n") (wit_content [lit "z"])) in
  pn_content <$> ps_nodes (project [update; create]) !! lit "n" =
  Some (canonicalize (wit_content [lit "z"])).
Proof.
  intros create update. apply (content_last_writer_wins [update; create] (lit "n") update).
  - set_solver.
  - by right.
  - exists create, (wit_content []). split; [set_solver|done].
  - intros e' [->|[->|[]%elem_of_nil]%elem_of_cons]%elem_of_cons _ Hne; [done|]. by vm_compute.
Defined.

(** Tombstones never resurrect: once an [edge_remove] sits above every add of its key,
    the edge is not live, in whatever order and however often the adds arrive; it is kept as
    a tombstone exactly when some add of it is known. *)
Theorem tombstone_never_resurrects `{Minicbor} `{Sha256} entries r k :
  r ∈ entries → en_op r = EdgeRemove k →
  (∀ e s, e ∈ entries → en_op e = EdgeAdd s → edge_key s = k → clt (position e) (position r)) →
  ps_edges (project entries) !! k = None ∧
  (is_Some (ps_removed_edges (project entries) !! k) ↔
   ∃ e s, e ∈ entries ∧ en_op e = EdgeAdd s ∧ edge_key s = k).
Proof.
  intros Hr Hop Hmax.
  assert (last_write (w_presence k) (in_total_order entries) = Some None) as Hp by
    by apply (removed_presence entries r).
  rewrite project_edges_lookup, project_removed_lookup. unfold spec_live, spec_removed.
  rewrite Hp. simpl. split; [done|]. rewrite added_iff.
  destruct (last_write (w_spec k) (in_total_order entries)); split; intros []; eauto; done.
Qed.

Lemma tombstone_never_resurrects_witness :
  let add n := mkEntry (wit_meta n x01) (EdgeAdd wit_edge) in
  let remove := mkEntry (wit_meta 5 x01) (EdgeRemove (edge_key wit_edge)) in
  ps_edges (project [remove; add 4; add 3; add 4]) !! edge_key wit_edge = None.
Proof.
  intros add remove.
  apply (tombstone_never_resurrects [remove; add 4; add 3; add 4] remove); [set_solver|done|].
  intros e s [->|[->|[->|[->|[]%elem_of_nil]%elem_of_cons]%elem_of_cons]%elem_of_cons]%elem_of_cons Hop _;
    [discriminate Hop|by vm_compute..].
Defined.

(** Live edges and tombstones partition the edges that were ever added: no key is in
    both maps, and a key is in one of them exactly when some entry adds it; removes and
    rebinds alone never create a row. *)
Theorem edges_partition `{Minicbor} `{Sha256} entries k :
  ¬ (is_Some (ps_edges (project entries) !! k) ∧ is_Some (ps_removed_edges (project entries) !! k)) ∧
  (is_Some (ps_edges (project entries) !! k) ∨ is_Some (ps_removed_edges (project entries) !! k) ↔
   ∃ e s, e ∈ entries ∧ en_op e = EdgeAdd s ∧ edge_key s = k).
Proof.
  rewrite project_edges_lookup, project_removed_lookup, added_iff. unfold spec_live, spec_removed.
  set (l := in_total_order entries).
  destruct (last_write (w_presence k) l) as [[s|]|] eqn:Hp; simpl.
  - rewrite (last_presence_spec k l s Hp). split; [by intros [_ []]|]. split; eauto.
  - split; [by intros [[] _]|]. destruct (last_write (w_spec k) l); simpl; split; eauto.
    + by intros [[]|[]].
    + by intros [].
  - rewrite no_presence_no_spec by done. split; [by intros [[] _]|]. split; [by intros [[]|[]]|by intros []].
Qed.

(** Invariant of a projected node row: the row exists exactly when some entry creates
    the node (no other op makes one appear and none makes it disappear), it keeps at most 32
    superseded anchor sets, and a row without an anchor set has no publication, source hash,
    scopes or history either. *)
Theorem node_row_invariant `{Minicbor} `{Sha256} entries id :
  (is_Some (ps_nodes (project entries) !! id) ↔
   ∃ e c, e ∈ entries ∧ en_op e = NodeCreate id c) ∧
  (∀ n, ps_nodes (project entries) !! id = Some n →
     (length (pn_superseded_anchors n) ≤ SUPERSEDED_ANCHOR_SETS_KEPT)%nat ∧
     (pn_anchors n = None → pn_anchors_meta n = None ∧ pn_source_text_hash n = None ∧
        pn_anchor_scopes n = ∅ ∧ pn_superseded_anchors n = [])).
Proof.
  rewrite project_nodes_lookup. unfold spec_node. set (l := in_total_order entries). split.
  - rewrite <- created_iff. fold l. destruct (last_write (w_create id) l) as [b|] eqn:Hb; simpl; [|done].
    destruct (create_content id l) as [c Hc]; [eauto|]. rewrite Hc. simpl. split; eauto.
  - intros n Hn. destruct (last_write (w_create id) l); simpl in Hn; [|done].
    destruct (last_write (w_content id) l); simpl in Hn; [|done]. injection Hn as <-. simpl. split.
    + unfold keep_last. rewrite length_drop. lia.
    + intros Hw. destruct (last_write (w_anchors id) l) as [w|] eqn:Ha; [done|].
      unfold last_write in Ha. apply last_None in Ha. by rewrite Ha.
Qed.
