(* ===== verification/Device.v ===== *)
(** * Device identities ([crates/rag-rat-oplog/src/device.rs])

    Ed25519 and X25519 are dependencies: the class [Ed25519] has the operations the source
    calls, and its only law about signatures is the documented one that a signature made with
    a key verifies under that key.  The blocklist of small-order X25519 points is the
    repository's own and is modelled byte for byte. *)

From S2P Require Import Prelude Cbor Minicbor Hash Op.

Local Open Scope Z_scope.

(** ** Ed25519 *)

Class Ed25519 : Type := {
  (** [SigningKey::from_bytes(seed).verifying_key().to_bytes()]. *)
  verifying_key : bytes → bytes;
  (** [SigningKey::sign], 64 bytes. *)
  ed_sign : bytes → bytes → bytes;
  (** [VerifyingKey::from_bytes] accepts the point. *)
  valid_point : bytes → bool;
  (** [VerifyingKey::verify_strict]. *)
  verify_strict : bytes → bytes → bytes → bool;
  ed_sign_length seed msg : length (ed_sign seed msg) = 64%nat;
  verifying_key_length seed : length (verifying_key seed) = 32%nat;
  verifying_key_valid seed : valid_point (verifying_key seed) = true;
  verify_sign seed msg : verify_strict (verifying_key seed) msg (ed_sign seed msg) = true;
}.

(** [DeviceSecret] is its seed and [DevicePublic] its compressed point. *)
Record DeviceSecret : Type := mkDeviceSecret { ds_seed : bytes }.
Record DevicePublic : Type := mkDevicePublic { dp_bytes : bytes }.

Section Device.
Context `{Ed25519} `{Sha256}.

Definition secret_from_seed (seed : bytes) : DeviceSecret := mkDeviceSecret seed.
Definition secret_seed (s : DeviceSecret) : bytes := ds_seed s.
Definition secret_public (s : DeviceSecret) : DevicePublic := mkDevicePublic (verifying_key (ds_seed s)).
Definition secret_sign (s : DeviceSecret) (msg : bytes) : bytes := ed_sign (ds_seed s) msg.

Definition public_from_bytes (bs : bytes) : result AnyError DevicePublic :=
  if valid_point bs then Ok (mkDevicePublic bs) else Err (Bail "invalid ed25519 public key point").
Definition public_to_bytes (p : DevicePublic) : bytes := dp_bytes p.
Definition fingerprint (p : DevicePublic) : DeviceFingerprint := sha256 (public_to_bytes p).
Definition public_verify (p : DevicePublic) (msg sig : bytes) : result AnyError unit :=
  if verify_strict (dp_bytes p) msg sig then Ok tt
  else Err (Bail "ed25519 signature verification failed").
End Device.

(** A signature scheme to instantiate the interface: a public key is the padded seed and a
    signature the key with a digest of the message. *)
#[export] Program Instance toy_ed25519 : Ed25519 := {|
  verifying_key seed := @sha256 toy_sha256 seed;
  ed_sign seed msg := @sha256 toy_sha256 seed ++ @sha256 toy_sha256 msg;
  valid_point bs := bool_decide (length bs = 32%nat);
  verify_strict pk msg sig := bool_decide (sig = pk ++ @sha256 toy_sha256 msg);
|}.
Next Obligation. intros seed msg. cbn beta. by rewrite length_app, !sha256_length. Qed.
Next Obligation. intros seed. apply sha256_length. Qed.
Next Obligation. intros seed. by apply bool_decide_eq_true, sha256_length. Qed.
Next Obligation. intros seed msg. by apply bool_decide_eq_true. Qed.

(** ** X25519 public keys *)

(** [v[i] = b] on a fixed array. *)
Definition set_byte (i : nat) (b : byte) (v : bytes) : bytes := <[i := b]> v.

Definition p_offset (byte0 : byte) : bytes := set_byte 31 x7f (set_byte 0 byte0 (replicate 32 xff)).
Definition low_order_one : bytes := set_byte 0 x01 (replicate 32 x00).

Definition X25519_SMALL_ORDER_POINTS : list bytes :=
  [replicate 32 x00;
   low_order_one;
   [xe0; xeb; x7a; x7c; x3b; x41; xb8; xae; x16; x56; xe3; xfa; xf1; x9f; xc4;
    x6a; xda; x09; x8d; xeb; x9c; x32; xb1; xfd; x86; x62; x05; x16; x5f; x49;
    xb8; x00];
   [x5f; x9c; x95; xbc; xa3; x50; x8c; x24; xb1; xd0; xb1; x55; x9c; x83; xef;
    x5b; x04; x44; x5c; xc4; x58; x1c; x8e; x86; xd8; x22; x4e; xdd; xd0; x9f;
    x11; x57];
   p_offset xec;
   p_offset xed;
   p_offset xee].

(** [v[31] &= 0x7f]. *)
Definition mask_bit_255 (v : bytes) : bytes :=
  match v !! 31%nat with
  | Some b => set_byte 31 (z2b (Z.land (b2z b) 0x7f)) v
  | None => v
  end.

Definition is_small_order (bs : bytes) : bool :=
  let candidate := mask_bit_255 bs in
  existsb (fun bad => bool_decide (candidate = mask_bit_255 bad)) X25519_SMALL_ORDER_POINTS.

Record DeviceX25519Public : Type := mkDeviceX25519Public { dx_bytes : bytes }.

Definition x25519_from_bytes (bs : bytes) : result AnyError DeviceX25519Public :=
  if is_small_order bs then Err (Bail "X25519 public key is a small-order / identity point")
  else Ok (mkDeviceX25519Public bs).

(** *** Little-endian values *)

Fixpoint le_value (bs : bytes) : Z :=
  match bs with [] => 0 | b :: bs => b2z b + 256 * le_value bs end.

Definition field_p : Z := 2 ^ 255 - 19.
Definition curve_a : Z := 486662.

(** The u-coordinate X25519 computes with: bit 255 ignored, reduced modulo [p]. *)
Definition u_coordinate (bs : bytes) : Z := (le_value bs mod 2 ^ 255) mod field_p.

(** The u-coordinates of the points of order 1, 2, 4 and 8 of the curve and its twist. *)
Definition small_order_u : list Z :=
  [0; 1; field_p - 1;
   325606250916557431795983626356110631294008115727848805560023387167927233504;
   39382357235489614581723060781553021112529911719440698176882885853963445705823].

(** Doubling on the Montgomery curve in projective u-coordinates; [Z = 0] is the identity. *)
Definition x_double (q : Z * Z) : Z * Z :=
  let '(X, Z) := q in
  (((X * X - Z * Z) * (X * X - Z * Z)) mod field_p,
   (4 * X * Z * (X * X + curve_a * X * Z + Z * Z)) mod field_p).

Lemma le_value_bound bs : 0 ≤ le_value bs < 256 ^ len bs.
Proof.
  induction bs as [|b bs IH]; [done|]. simpl le_value. rewrite len_cons.
  pose proof (b2z_range b). pose proof (len_nonneg bs). rewrite Z.pow_add_r by lia. lia.
Qed.

Lemma le_value_inj a b : length a = length b → le_value a = le_value b → a = b.
Proof.
  revert b. induction a as [|x a IH]; intros [|y b] Hl Heq; try done. simpl in *.
  pose proof (b2z_range x). pose proof (b2z_range y).
  assert (b2z x = b2z y) as Hxy%(inj b2z) by lia. subst. f_equal. apply IH; lia.
Qed.

Lemma le_value_app a b : le_value (a ++ b) = le_value a + 256 ^ len a * le_value b.
Proof.
  induction a as [|x a IH]; simpl le_value; [change (256 ^ len []) with 1; lia|].
  rewrite IH, len_cons. pose proof (len_nonneg a). rewrite Z.pow_add_r by lia. lia.
Qed.

(** Masking byte 31 clears bit 255. *)
Lemma le_value_mask bs :
  length bs = 32%nat → le_value (mask_bit_255 bs) = le_value bs mod 2 ^ 255 ∧ length (mask_bit_255 bs) = 32%nat.
Proof.
  intros Hl. destruct (nil_or_length_pos bs) as [->|_]; [done|].
  destruct bs as [|b0 init _] using rev_ind; [done|].
  assert (length init = 31%nat) as Hi by (rewrite length_app in Hl; simpl in Hl; lia).
  unfold mask_bit_255, set_byte. rewrite lookup_app_r, Hi by lia. simpl.
  rewrite insert_app_r_alt, Hi by lia. simpl. rewrite !le_value_app, length_app, Hi. simpl le_value.
  assert (len init = 31) as -> by (unfold len; lia). split; [|done].
  rewrite !Z.mul_0_r, !Z.add_0_r, b2z_z2b. change 0x7f with (Z.ones 7). rewrite Z.land_ones by lia.
  pose proof (b2z_range b0). pose proof (le_value_bound init) as Hb.
  assert (len init = 31) as Hli by (unfold len; lia). rewrite Hli in Hb.
  pose proof (Z.mod_pos_bound (b2z b0) (2 ^ 7) ltac:(lia)).
  rewrite (Z.mod_small (_ mod 2 ^ 7)) by lia.
  change (2 ^ 255) with (256 ^ 31 * 2 ^ 7).
  set (base := 256 ^ 31) in *. assert (0 < base) by (unfold base; lia). clearbody base.
  rewrite Z.rem_mul_r by lia. rewrite (Z.mul_comm base (b2z b0)), Z.mod_add, Z.div_add by lia.
  rewrite (Z.mod_small (le_value init)), (Z.div_small (le_value init)) by lia. rewrite Z.add_0_l. ring.
Qed.

Lemma small_order_values bs :
  length bs = 32%nat →
  is_small_order bs = true ↔
  le_value bs mod 2 ^ 255 ∈ (le_value <$> (mask_bit_255 <$> X25519_SMALL_ORDER_POINTS)).
Proof.
  intros Hl. destruct (le_value_mask bs Hl) as [<- Hm]. unfold is_small_order.
  assert (∀ bad, bad ∈ X25519_SMALL_ORDER_POINTS → length bad = 32%nat) as H32.
  { apply Forall_forall. by repeat constructor. }
  rewrite existsb_exists. setoid_rewrite <- list_elem_of_In. rewrite list_elem_of_fmap.
  setoid_rewrite list_elem_of_fmap. setoid_rewrite bool_decide_eq_true. split.
  - intros (bad & Hbad & Heq). exists (mask_bit_255 bad). rewrite Heq. eauto.
  - intros (y & Heq & bad & -> & Hbad). exists bad. split; [done|]. apply le_value_inj; [|done].
    rewrite Hm. symmetry. by apply le_value_mask, H32.
Qed.

Lemma small_order_reduced u :
  0 ≤ u < 2 ^ 255 →
  u ∈ (le_value <$> (mask_bit_255 <$> X25519_SMALL_ORDER_POINTS)) ↔ u mod field_p ∈ small_order_u.
Proof.
  intros Hu.
  replace (le_value <$> (mask_bit_255 <$> X25519_SMALL_ORDER_POINTS)) with
    [0; 1; 325606250916557431795983626356110631294008115727848805560023387167927233504;
     39382357235489614581723060781553021112529911719440698176882885853963445705823;
     field_p - 1; field_p; field_p + 1] by (by vm_compute).
  unfold small_order_u. rewrite !elem_of_cons, !elem_of_nil.
  destruct (Z.lt_ge_cases u field_p) as [Hlt|Hge].
  - rewrite (Z.mod_small u) by lia. unfold field_p in *. lia.
  - replace u with ((u - field_p) + 1 * field_p) at 8 9 10 11 12 by lia.
    rewrite Z.mod_add, (Z.mod_small (u - field_p)) by (unfold field_p in *; lia).
    unfold field_p in *. lia.
Qed.

(** The blocklist is exact: a 32-byte key is refused precisely when the u-coordinate
    X25519 computes with (bit 255 ignored, reduced modulo 2^255 - 19) is one of the five
    low-order ones, so no non-canonical or high-bit encoding of them slips past; and every
    refused key denotes a point whose eightfold multiple is the identity. *)
Theorem small_order_blocklist_exact (bs : bytes) :
  length bs = 32%nat →
  (is_small_order bs = true ↔ u_coordinate bs ∈ small_order_u) ∧
  (is_small_order bs = true → (x_double (x_double (x_double (u_coordinate bs, 1)))).2 = 0).
Proof.
  intros Hl.
  assert (is_small_order bs = true ↔ u_coordinate bs ∈ small_order_u) as Hiff.
  { rewrite small_order_values by done. apply small_order_reduced. apply Z.mod_pos_bound. lia. }
  split; [done|]. rewrite Hiff. generalize (u_coordinate bs). apply Forall_forall.
  by repeat constructor; vm_compute.
Qed.

Lemma small_order_blocklist_exact_witness :
  is_small_order (set_byte 31 xff (p_offset xee)) = true ↔
  u_coordinate (set_byte 31 xff (p_offset xee)) ∈ small_order_u.
Proof. apply small_order_blocklist_exact. reflexivity. Defined.
