(* ===== verification/Entry.v ===== *)
(** * Signed, hash-chained entries ([crates/rag-rat-oplog/src/entry.rs])

    The signed body and its transport envelope, authoring, decoding, signature verification
    and the per-device chain check.  [StreamId] and [EntryHash] are 32-byte arrays. *)

From S2P Require Import Prelude Cbor Minicbor Hash Op Device.

Local Open Scope Z_scope.

(** ** Data *)

Definition ENTRY_DOMAIN : bytes := lit "rag-rat/entry/2".
Definition SIGNED_DOMAIN : bytes := lit "rag-rat/signed-entry/1".

Definition MAX_ENTRY_LAMPORT : Z := Z.shiftl 1 62.
Definition MAX_LAMPORT_ADVANCE : Z := Z.shiftl 1 32.

Definition StreamId : Type := bytes.
Definition EntryHash : Type := bytes.
#[export] Typeclasses Transparent StreamId EntryHash.

Record VerifiedEntry : Type := mkVerifiedEntry {
  ve_stream_id : StreamId;
  ve_prev_hash : option EntryHash;
  ve_lamport : Z;
  ve_device_fingerprint : DeviceFingerprint;
  ve_op_bytes : bytes;
  ve_entry_hash : EntryHash;
}.

Record SignedEntry : Type := mkSignedEntry {
  se_entry : VerifiedEntry;
  se_signature : bytes;
  se_body_bytes : bytes;
  se_signed_bytes : bytes;
}.

Record BodyParts : Type := mkBodyParts {
  bp_stream_id : StreamId;
  bp_prev_hash : option EntryHash;
  bp_lamport : Z;
  bp_device_fingerprint : DeviceFingerprint;
  bp_op_bytes : bytes;
}.

(** The errors of [verify_chain], with the index of the entry they are about. *)
Inductive ChainError : Type :=
| EntryFailed (idx : Z) (e : AnyError)
| GenesisHasPrev (idx : Z)
| ForeignStream (idx : Z)
| BrokenLink (idx : Z)
| LamportNotIncreasing (idx got previous : Z).

(** ** Operations *)

Section Entry.
Context `{Minicbor} `{Sha256} `{Ed25519}.

Definition encode_body (parts : BodyParts) : bytes :=
  put_array 6 ++ put_str ENTRY_DOMAIN ++ put_bytes (bp_stream_id parts) ++
  put_opt put_bytes (bp_prev_hash parts) ++
  put_u64 (bp_lamport parts) ++ put_bytes (bp_device_fingerprint parts) ++
  put_bytes (bp_op_bytes parts).

Definition encode_signed (body_bytes signature : bytes) : bytes :=
  put_array 3 ++ put_str SIGNED_DOMAIN ++ put_bytes body_bytes ++ put_bytes signature.

Definition sign_entry_from_op_bytes (secret : DeviceSecret) (stream_id : StreamId)
    (prev_hash : option EntryHash) (lamport : Z) (op_bytes : bytes) : SignedEntry :=
  let device_fingerprint := fingerprint (secret_public secret) in
  let body_bytes :=
    encode_body (mkBodyParts stream_id prev_hash lamport device_fingerprint op_bytes) in
  let entry_hash := sha256 body_bytes in
  let signature := secret_sign secret body_bytes in
  let signed_bytes := encode_signed body_bytes signature in
  mkSignedEntry
    (mkVerifiedEntry stream_id prev_hash lamport device_fingerprint op_bytes entry_hash)
    signature body_bytes signed_bytes.

Definition sign_entry (secret : DeviceSecret) (stream_id : StreamId)
    (prev_hash : option EntryHash) (lamport : Z) (op : MemoryOp) : SignedEntry :=
  sign_entry_from_op_bytes secret stream_id prev_hash lamport (encode op).

Definition decode_prev_hash : Decoder (option EntryHash) :=
  decode_opt (d_fixed 32 "prev_hash").

(** The reads of [decode_body], in order. *)
Definition decode_parts : Decoder BodyParts :=
  _ ← expect_array 6;
  _ ← expect_domain ENTRY_DOMAIN;
  stream_id ← d_fixed 32 "stream_id";
  prev_hash ← decode_prev_hash;
  lamport ← d_u64;
  device_fingerprint ← d_fixed 32 "device fingerprint";
  op_bytes ← d_bytes;
  mret (mkBodyParts stream_id prev_hash lamport device_fingerprint op_bytes).

Definition decode_body (body_bytes : bytes) : result CborError VerifiedEntry :=
  _ ← require_canonical_cbor body_bytes;
  parts ← run decode_parts body_bytes;
  let entry_hash := sha256 body_bytes in
  Ok (mkVerifiedEntry (bp_stream_id parts) (bp_prev_hash parts) (bp_lamport parts)
        (bp_device_fingerprint parts) (bp_op_bytes parts) entry_hash).

Definition decode_envelope_parts : Decoder (bytes * bytes) :=
  _ ← expect_array 3;
  _ ← expect_domain SIGNED_DOMAIN;
  body_bytes ← d_bytes;
  signature ← d_fixed 64 "signature";
  mret (body_bytes, signature).

Definition decode_signed_cbor (bs : bytes) : result CborError SignedEntry :=
  _ ← require_canonical_cbor bs;
  '(body_bytes, signature) ← run decode_envelope_parts bs;
  entry ← decode_body body_bytes;
  Ok (mkSignedEntry entry signature body_bytes bs).

Definition decode_signed (bs : bytes) : result AnyError SignedEntry :=
  map_err (Wrapped "signed entry decode failed") (decode_signed_cbor bs).

Definition verify_signed (bs : bytes) (pubkey : DevicePublic) : result AnyError VerifiedEntry :=
  signed ← decode_signed bs;
  _ ← public_verify pubkey (se_body_bytes signed) (se_signature signed);
  if bool_decide (fingerprint pubkey ≠ ve_device_fingerprint (se_entry signed))
  then Err (Bail "device fingerprint does not match the verifying key")
  else Ok (se_entry signed).

(** The checks of one entry against its predecessor. *)
Definition check_link (idx : Z) (prev : option VerifiedEntry) (verified : VerifiedEntry)
    : result ChainError unit :=
  match prev with
  | None => if bool_decide (ve_prev_hash verified ≠ None) then Err (GenesisHasPrev idx) else Ok tt
  | Some previous =>
      if bool_decide (ve_stream_id verified ≠ ve_stream_id previous) then Err (ForeignStream idx)
      else if bool_decide (ve_prev_hash verified ≠ Some (ve_entry_hash previous))
      then Err (BrokenLink idx)
      else if bool_decide (ve_lamport verified ≤ ve_lamport previous)
      then Err (LamportNotIncreasing idx (ve_lamport verified) (ve_lamport previous))
      else Ok tt
  end.

(** The loop of [verify_chain] from entry [idx] on. *)
Fixpoint verify_chain_from (idx : Z) (prev : option VerifiedEntry) (entries : list SignedEntry)
    (pubkey : DevicePublic) : result ChainError unit :=
  match entries with
  | [] => Ok tt
  | signed :: entries' =>
      verified ← map_err (EntryFailed idx) (verify_signed (se_signed_bytes signed) pubkey);
      _ ← check_link idx prev verified;
      verify_chain_from (idx + 1) (Some verified) entries' pubkey
  end.

Definition verify_chain (entries : list SignedEntry) (pubkey : DevicePublic) : result ChainError unit :=
  verify_chain_from 0 None entries pubkey.
End Entry.

(** ** Type invariants *)

Definition hash_ok (h : bytes) : Prop := length h = 32%nat.

Definition parts_ok (p : BodyParts) : Prop :=
  hash_ok (bp_stream_id p) ∧ opt_ok hash_ok (bp_prev_hash p) ∧ 0 ≤ bp_lamport p ≤ u64_max ∧
  hash_ok (bp_device_fingerprint p) ∧ len (bp_op_bytes p) ≤ u64_max.

Definition entry_parts (e : VerifiedEntry) : BodyParts :=
  mkBodyParts (ve_stream_id e) (ve_prev_hash e) (ve_lamport e) (ve_device_fingerprint e) (ve_op_bytes e).

Lemma hash_ok_len h : hash_ok h → len h ≤ u64_max.
Proof. unfold hash_ok, len, u64_max. lia. Qed.

(** The body and the envelope as data items. *)
Definition body_item (p : BodyParts) : item :=
  Array [TextString ENTRY_DOMAIN; ByteString (bp_stream_id p); opt_bytes_item (bp_prev_hash p);
         Uint (bp_lamport p); ByteString (bp_device_fingerprint p); ByteString (bp_op_bytes p)].

Definition envelope_item (body_bytes signature : bytes) : item :=
  Array [TextString SIGNED_DOMAIN; ByteString body_bytes; ByteString signature].

Section EntryCodec.
Context `{MinicborLaws}.

#[local] Hint Resolve hash_ok_len : reads.
#[local] Hint Extern 1 (0 ≤ _ ∧ _ ≤ u64_max) => (unfold u64_max; lia) : reads.

Lemma reads_prev_hash o : opt_ok hash_ok o → reads decode_prev_hash (put_opt put_bytes o) o.
Proof.
  intros Ho. apply reads_opt. intros h ->. simpl in Ho.
  split; [apply reads_fixed; auto with reads|apply non_null_bytes; auto with reads].
Qed.

Lemma reads_parts p : parts_ok p → reads decode_parts (encode_body p) p.
Proof.
  intros (? & ? & ? & ? & ?). unfold decode_parts, encode_body. destruct p. simpl in *.
  eapply reads_bind; [by auto with reads|].
  eapply reads_bind; [by apply reads_domain|].
  eapply reads_bind; [apply reads_fixed; auto with reads|].
  eapply reads_bind; [by apply reads_prev_hash|].
  eapply reads_bind; [by auto with reads|].
  eapply reads_bind; [apply reads_fixed; auto with reads|].
  eapply reads_bind_nil; [by auto with reads|done].
Qed.

Lemma put_opt_bytes_ser o : opt_ok hash_ok o → put_opt put_bytes o = ser (opt_bytes_item o).
Proof. destruct o; simpl; intros Ho; [by apply put_bytes_ser, hash_ok_len|apply put_null_ser]. Qed.

(** Six writes after an array header. *)
Lemma encode_body_ser p : parts_ok p → encode_body p = ser (body_item p).
Proof.
  intros (? & ? & ? & ? & ?). unfold encode_body, body_item.
  rewrite put_str_ser, !put_bytes_ser, put_u64_ser, put_opt_bytes_ser
    by first [solve [auto using hash_ok_len]|by vm_compute].
  rewrite <- put_array_ser by (by vm_compute). rewrite !fmap_cons.
  cbn [mjoin list_join fmap list_fmap]. by rewrite app_nil_r.
Qed.

Lemma encode_signed_ser body sig :
  len body ≤ u64_max → len sig ≤ u64_max → encode_signed body sig = ser (envelope_item body sig).
Proof.
  intros. unfold encode_signed, envelope_item. rewrite put_str_ser, !put_bytes_ser by done.
  rewrite <- put_array_ser by (by vm_compute). rewrite !fmap_cons.
  cbn [mjoin list_join fmap list_fmap]. by rewrite app_nil_r.
Qed.

Lemma body_item_wf p : parts_ok p → item_wf (body_item p).
Proof.
  intros (Hs & Hp & Hl & Hf & Ho). apply wf_array; [by vm_compute|].
  repeat apply Forall_cons_2; try apply Forall_nil_2; try (apply wf_bytes; auto using hash_ok_len; fail).
  - by apply wf_text.
  - destruct (bp_prev_hash p); simpl in *; [apply wf_bytes, hash_ok_len, Hp|by apply wf_simple].
  - by apply wf_uint.
Qed.

Lemma body_canonical p : parts_ok p → require_canonical_cbor (encode_body p) = Ok tt.
Proof.
  intros Hp. rewrite encode_body_ser by done. apply require_canonical_ser; [by apply body_item_wf|].
  simpl. unfold MAX_CBOR_DEPTH. destruct (bp_prev_hash p); simpl; lia.
Qed.

Lemma envelope_item_wf body sig :
  len body ≤ u64_max → len sig ≤ u64_max → item_wf (envelope_item body sig).
Proof.
  intros. apply wf_array; [by vm_compute|]. repeat apply Forall_cons_2; try apply Forall_nil_2;
    [by apply wf_text|by apply wf_bytes..].
Qed.

Lemma envelope_canonical body sig :
  len body ≤ u64_max → len sig ≤ u64_max → require_canonical_cbor (encode_signed body sig) = Ok tt.
Proof.
  intros. rewrite encode_signed_ser by done. apply require_canonical_ser.
  - by apply envelope_item_wf.
  - simpl. unfold MAX_CBOR_DEPTH. lia.
Qed.
End EntryCodec.

(** ** What decoding says of the bytes *)

Section EntryDecoding.
Context `{MinicborLaws} `{Sha256}.

Lemma decode_body_encode p :
  parts_ok p →
  decode_body (encode_body p) =
  Ok (mkVerifiedEntry (bp_stream_id p) (bp_prev_hash p) (bp_lamport p)
        (bp_device_fingerprint p) (bp_op_bytes p) (sha256 (encode_body p))).
Proof.
  intros Hp. unfold decode_body. rewrite body_canonical by done.
  change (result_bind ?a ?b ?f (Ok tt)) with (f tt).
  assert (run decode_parts (encode_body p) = Ok p) as ->; [|done].
  apply run_Ok. exists []. rewrite <- (app_nil_r (encode_body p)). by apply reads_parts.
Qed.

Lemma run_signed_envelope body sig :
  len body ≤ u64_max → length sig = 64%nat →
  run decode_envelope_parts (encode_signed body sig) = Ok (body, sig).
Proof.
  intros Hb Hsig. assert (len sig ≤ u64_max) by (unfold len, u64_max; lia).
  apply run_Ok. exists []. rewrite <- (app_nil_r (encode_signed _ _)).
  assert (reads decode_envelope_parts (encode_signed body sig) (body, sig)) as Hr; [|apply Hr].
  eapply reads_bind; [apply reads_expect_array; unfold u64_max; lia|].
  eapply reads_bind; [by apply reads_domain|].
  eapply reads_bind; [by apply reads_bytes|].
  eapply reads_bind_nil; [by apply reads_fixed|done].
Qed.

(** The two byte strings of a canonical signed envelope. *)
Lemma envelope_parts_sound bs r :
  require_canonical_cbor bs = Ok tt → run decode_envelope_parts bs = Ok r →
  bs = encode_signed r.1 r.2 ∧ len r.1 ≤ u64_max ∧ length r.2 = 64%nat.
Proof.
  unfold decode_envelope_parts. intros Hcan Hd. inv_dec.
  match goal with H : expect_array _ _ = _ |- _ =>
    eapply canonical_array in H as (items & Hwf & Hl & -> & -> & _); [|done] end.
  split_len Hl. read_items. simpl. split_and!; try done.
  by rewrite encode_signed_ser by (unfold len, u64_max in *; lia).
Qed.

Lemma decode_signed_encode p sig :
  parts_ok p → len (encode_body p) ≤ u64_max → length sig = 64%nat →
  decode_signed_cbor (encode_signed (encode_body p) sig) =
  Ok (mkSignedEntry
        (mkVerifiedEntry (bp_stream_id p) (bp_prev_hash p) (bp_lamport p)
           (bp_device_fingerprint p) (bp_op_bytes p) (sha256 (encode_body p)))
        sig (encode_body p) (encode_signed (encode_body p) sig)).
Proof.
  intros Hp Hlen Hsig. assert (len sig ≤ u64_max) by (unfold len, u64_max; lia).
  unfold decode_signed_cbor. rewrite envelope_canonical by done.
  rewrite run_signed_envelope by done. simpl. by rewrite decode_body_encode.
Qed.

Lemma decode_parts_sound bs p r :
  require_canonical_cbor bs = Ok tt → decode_parts bs = Ok (p, r) → parts_ok p ∧ bs = encode_body p.
Proof.
  intros Hcan Hd. unfold decode_parts, decode_prev_hash in Hd. inv_dec.
  match goal with H : expect_array _ _ = _ |- _ =>
    eapply canonical_array in H as (l & Hwf & Hl & -> & -> & _); [|done] end.
  destruct l as [|i1 [|i2 [|i3 [|i4 [|i5 [|i6 []]]]]]]; try discriminate Hl.
  2: { unfold len in Hl. simpl in Hl. lia. }
  read_items. assert (parts_ok (mkBodyParts x3 x5 x7 x9 x11)) by done.
  split; [done|]. by rewrite encode_body_ser.
Qed.

Lemma decode_body_sound bs e :
  decode_body bs = Ok e → parts_ok (entry_parts e) ∧ bs = encode_body (entry_parts e) ∧ ve_entry_hash e = sha256 bs.
Proof.
  unfold decode_body. intros Hd. inv_ok. inv_dec. destruct x.
  match goal with H : decode_parts _ = _ |- _ => apply decode_parts_sound in H as [? Hbs] end; [|done].
  unfold entry_parts. simpl. match goal with p : BodyParts |- _ => destruct p end. done.
Qed.

Lemma decode_signed_sound bs s :
  decode_signed_cbor bs = Ok s →
  parts_ok (entry_parts (se_entry s)) ∧ length (se_signature s) = 64%nat ∧
  se_body_bytes s = encode_body (entry_parts (se_entry s)) ∧ len (se_body_bytes s) ≤ u64_max ∧
  ve_entry_hash (se_entry s) = sha256 (se_body_bytes s) ∧
  se_signed_bytes s = bs ∧ bs = encode_signed (se_body_bytes s) (se_signature s).
Proof.
  unfold decode_signed_cbor. intros Hd. inv_ok.
  match goal with H : decode_body _ = _ |- _ => apply decode_body_sound in H as (? & ? & ?) end.
  match goal with H : run _ _ = _ |- _ => apply envelope_parts_sound in H as (? & ? & ?) end;
    [|by eauto using require_canonical_tt]. by split_and!.
Qed.
End EntryDecoding.

(** ** Chains *)

(** The links of a chain after [prev]: genesis has no predecessor; every later entry names
    its predecessor's hash on the same stream at a greater lamport. *)
Inductive chained : option VerifiedEntry → list VerifiedEntry → Prop :=
| chained_nil prev : chained prev []
| chained_genesis v vs : ve_prev_hash v = None → chained (Some v) vs → chained None (v :: vs)
| chained_next p v vs :
    ve_stream_id v = ve_stream_id p → ve_prev_hash v = Some (ve_entry_hash p) →
    ve_lamport p < ve_lamport v → chained (Some v) vs → chained (Some p) (v :: vs).

Section Chains.
Context `{MC : Minicbor} `{SHA : Sha256} `{ED : Ed25519}.

(** The entry a signed wire object verifies to. *)
Definition verifies (pubkey : DevicePublic) (s : SignedEntry) (v : VerifiedEntry) : Prop :=
  verify_signed (se_signed_bytes s) pubkey = Ok v.

Lemma check_link_chained idx prev v vs u :
  check_link idx prev v = Ok u → chained (Some v) vs → chained prev (v :: vs).
Proof.
  unfold check_link. intros Hl Hvs. destruct prev as [p|].
  - repeat case_bool_decide; try done. apply chained_next; first [done|lia|by apply dec_stable].
  - case_bool_decide; [done|]. apply chained_genesis; first [done|by apply dec_stable].
Qed.

Lemma chained_check_link idx prev v vs :
  chained prev (v :: vs) → check_link idx prev v = Ok tt ∧ chained (Some v) vs.
Proof.
  inversion 1; subst; simpl; (split; [|done]).
  - rewrite bool_decide_false; [done|]. naive_solver.
  - rewrite !bool_decide_false; [done|lia|naive_solver..].
Qed.

Lemma verify_chain_from_iff entries pubkey idx prev :
  verify_chain_from idx prev entries pubkey = Ok tt ↔
  ∃ vs, Forall2 (verifies pubkey) entries vs ∧ chained prev vs.
Proof.
  revert idx prev. induction entries as [|s entries IH]; intros idx prev; simpl.
  { split; [|done]. intros _. exists []. by repeat constructor. }
  split.
  - intros Hv. inv_ok. destruct (verify_signed (se_signed_bytes s) pubkey) as [v|] eqn:Hs; [|done].
    match goal with H : map_err _ _ = Ok _ |- _ => simpl in H; injection H as -> end.
    apply IH in Hv as (vs & HF & Hc). exists (x :: vs).
    split; [by constructor|]. by eapply check_link_chained.
  - intros (vs & HF & Hc). inversion HF as [|s' v l' vs' Hs HF']; subst. unfold verifies in Hs.
    rewrite Hs. simpl. apply (chained_check_link idx) in Hc as [-> Hc]. simpl.
    apply IH. eauto.
Qed.

Lemma chained_bounds p vs :
  chained (Some p) vs →
  Forall (fun v => ve_stream_id v = ve_stream_id p ∧ ve_lamport p < ve_lamport v) vs ∧
  StronglySorted (fun a b => ve_lamport a < ve_lamport b) vs.
Proof.
  revert p. induction vs as [|v vs IH]; intros p Hc; [split; constructor|].
  inversion Hc as [| |? ? ? Hs Hp Hl Hc']; subst. apply IH in Hc' as [HF HS]. split.
  - constructor; [done|]. eapply Forall_impl; [exact HF|]. intros w [-> ?]. split; [done|lia].
  - constructor; [done|]. eapply Forall_impl; [exact HF|]. intros w [_ ?]. done.
Qed.

Lemma chained_linked p vs : chained (Some p) vs → Forall (fun v => ve_prev_hash v ≠ None) vs.
Proof.
  revert p. induction vs as [|v vs IH]; intros p Hc; [constructor|].
  inversion Hc as [| |? ? ? Hs Hp Hl Hc']; subst. constructor; [by rewrite Hp|eauto].
Qed.

Lemma verified_unique pubkey es vs vs' :
  Forall2 (verifies pubkey) es vs → Forall2 (verifies pubkey) es vs' → vs = vs'.
Proof.
  intros HF. revert vs'. induction HF as [|s v es vs Hv HF IH]; intros vs' HF'; inversion HF'; subst; [done|].
  f_equal; [|by apply IH]. unfold verifies in *. congruence.
Qed.

Lemma chained_snoc prev vs v :
  chained prev (vs ++ [v]) →
  chained prev vs ∧
  match last vs with
  | Some p => ve_prev_hash v = Some (ve_entry_hash p)
  | None => match prev with Some p => ve_prev_hash v = Some (ve_entry_hash p) | None => ve_prev_hash v = None end
  end.
Proof.
  revert prev. induction vs as [|w vs IH]; intros prev; simpl.
  - inversion 1; subst; (split; [constructor|done]).
  - intros Hc. assert (chained (Some w) (vs ++ [v])) as [Hc' Hlast]%IH by by inversion Hc.
    split; [by inversion Hc; subst; constructor|]. rewrite last_cons.
    by destruct (last vs).
Qed.
End Chains.

(** The steps of a successful verification. *)
Lemma verify_signed_steps `{Minicbor} `{Sha256} `{Ed25519} (bs : bytes) pubkey v :
  verify_signed bs pubkey = Ok v →
  ∃ s, decode_signed_cbor bs = Ok s ∧ v = se_entry s ∧
       verify_strict (dp_bytes pubkey) (se_body_bytes s) (se_signature s) = true ∧
       ve_device_fingerprint v = fingerprint pubkey.
Proof.
  unfold verify_signed, decode_signed, public_verify. intros Hv. inv_ok.
  destruct (decode_signed_cbor bs) as [s|] eqn:Hd; [|done].
  match goal with H : map_err _ _ = Ok _ |- _ => simpl in H; injection H as <- end.
  case_match eqn:Hver; [|done]. case_bool_decide as Hfp; inv_ok. exists s. done.
Qed.

(** An entry is a function of the bytes its hash covers. *)
Lemma verify_signed_body `{Minicbor} `{Sha256} `{Ed25519} (bs : bytes) pubkey v :
  verify_signed bs pubkey = Ok v → ∃ body, decode_body body = Ok v ∧ ve_entry_hash v = sha256 body.
Proof.
  intros (s & Hd & -> & _ & _)%verify_signed_steps. unfold decode_signed_cbor in Hd. inv_ok. simpl.
  match goal with H : decode_body ?b = Ok ?e |- _ => exists b; split; [done|]; unfold decode_body in H end.
  inv_ok. done.
Qed.

(** Histories are compared from the newest entry down. *)
Lemma history_unique `{Minicbor} `{Sha256} vs vs' :
  let backed := Forall (fun v => ∃ body, decode_body body = Ok v ∧ ve_entry_hash v = sha256 body) in
  chained None vs → chained None vs' → backed vs → backed vs' →
  ve_entry_hash <$> last vs = ve_entry_hash <$> last vs' → vs = vs' ∨ collision.
Proof.
  intros backed. revert vs'. induction vs as [|v vs IH] using rev_ind; intros vs' Hc Hc' Hb Hb' Hlast.
  { destruct vs' as [|v' vs' _] using rev_ind; [by left|]. by rewrite last_snoc in Hlast. }
  destruct vs' as [|v' vs' _] using rev_ind; rewrite ?last_snoc in Hlast; [done|].
  injection Hlast as Hlast. unfold backed in Hb, Hb'.
  apply Forall_app in Hb as [Hb [(body & Hd & Hh) _]%Forall_cons],
    Hb' as [Hb' [(body' & Hd' & Hh') _]%Forall_cons].
  destruct (decide (body = body')) as [->|Hne].
  2: { right. exists body, body'. split; [done|congruence]. }
  rewrite Hd in Hd'. injection Hd' as <-.
  apply chained_snoc in Hc as [Hc Hp], Hc' as [Hc' Hp'].
  destruct (IH vs') as [->|]; [done..| |by left|by right].
  destruct (last vs), (last vs'); simpl; congruence.
Qed.

(** ** Properties *)

(** The type invariant of the arguments of the signing functions. *)
Definition signable `{Minicbor} `{Sha256} `{Ed25519} (s : SignedEntry) : Prop :=
  parts_ok (entry_parts (se_entry s)) ∧ len (se_body_bytes s) ≤ u64_max.

(** What a device signs verifies: the wire form of a freshly signed entry, whatever its
    op bytes, decodes and verifies under the signer's public key to exactly the entry. *)
Theorem sign_verify_roundtrip `{MinicborLaws} `{Sha256} `{Ed25519}
    (secret : DeviceSecret) stream_id prev_hash lamport op_bytes :
  let s := sign_entry_from_op_bytes secret stream_id prev_hash lamport op_bytes in
  signable s → verify_signed (se_signed_bytes s) (secret_public secret) = Ok (se_entry s).
Proof.
  intros s [Hp Hlen]. unfold verify_signed, decode_signed. simpl.
  rewrite (decode_signed_encode (entry_parts (se_entry s))); [|done|done|apply ed_sign_length].
  simpl. unfold public_verify, secret_sign. simpl. rewrite verify_sign. simpl.
  rewrite bool_decide_false; [done|]. intros Hne. by apply Hne.
Qed.

Definition wit_secret : DeviceSecret := mkDeviceSecret (replicate 32 x07).
Definition wit_first : SignedEntry :=
  sign_entry wit_secret (replicate 32 x03) None 1 Snapshot.
Definition wit_second : SignedEntry :=
  sign_entry wit_secret (replicate 32 x03) (Some (ve_entry_hash (se_entry wit_first))) 2 Snapshot.

Lemma sign_verify_roundtrip_witness :
  verify_signed (se_signed_bytes wit_second) (secret_public wit_secret) = Ok (se_entry wit_second).
Proof. apply sign_verify_roundtrip. vm_compute. repeat split; intros; discriminate. Defined.

(** One signed wire form: bytes that verify under a key are exactly the canonical
    envelope of a canonical body holding the returned entry, the body's digest is the entry
    hash, the signature over that body verifies strictly, and the body names the key's
    fingerprint. *)
Theorem verify_signed_sound `{MinicborLaws} `{Sha256} `{Ed25519} (bs : bytes) pubkey v :
  verify_signed bs pubkey = Ok v →
  ∃ signature,
    length signature = 64%nat ∧ parts_ok (entry_parts v) ∧
    bs = encode_signed (encode_body (entry_parts v)) signature ∧
    ve_entry_hash v = sha256 (encode_body (entry_parts v)) ∧
    verify_strict (dp_bytes pubkey) (encode_body (entry_parts v)) signature = true ∧
    ve_device_fingerprint v = fingerprint pubkey.
Proof.
  intros (s & Hd & -> & Hver & Hfp)%verify_signed_steps.
  apply decode_signed_sound in Hd as (Hp & Hsig & Hbody & _ & Hhash & _ & Hbs).
  exists (se_signature s). rewrite <- Hbody. done.
Qed.

Lemma verify_signed_sound_witness :
  ∃ signature, length signature = 64%nat ∧
    se_signed_bytes wit_first = encode_signed (encode_body (entry_parts (se_entry wit_first))) signature.
Proof.
  destruct (verify_signed_sound (se_signed_bytes wit_first) (secret_public wit_secret) (se_entry wit_first))
    as (signature & Hl & _ & Hbs & _); [by vm_compute|]. by exists signature.
Defined.

(** [verify_chain] accepts exactly the well-linked chains: it returns [Ok] if and only
    if every entry's wire form verifies under the key and the verified entries form a chain
    (genesis first, one stream, each entry naming its predecessor's hash at a strictly
    greater lamport). *)
Theorem verify_chain_iff `{Minicbor} `{Sha256} `{Ed25519} (entries : list SignedEntry) pubkey :
  verify_chain entries pubkey = Ok tt ↔
  ∃ vs, Forall2 (verifies pubkey) entries vs ∧ chained None vs.
Proof. apply verify_chain_from_iff. Qed.

(** Invariants of an accepted chain: all its entries are on one stream and by the
    verifying key's device, their lamports strictly increase, and only the first entry has
    no predecessor. *)
Theorem verify_chain_invariant `{Minicbor} `{Sha256} `{Ed25519} entries pubkey vs :
  verify_chain entries pubkey = Ok tt → Forall2 (verifies pubkey) entries vs →
  StronglySorted (fun a b => ve_lamport a < ve_lamport b) vs ∧
  Forall (fun v => ve_device_fingerprint v = fingerprint pubkey) vs ∧
  (∀ v w, v ∈ vs → w ∈ vs → ve_stream_id v = ve_stream_id w) ∧
  Forall (fun v => ve_prev_hash v ≠ None) (tail vs).
Proof.
  intros (vs' & HF' & Hc)%verify_chain_from_iff HF. assert (vs' = vs) as -> by by eapply verified_unique.
  assert (Forall (fun v => ve_device_fingerprint v = fingerprint pubkey) vs) as Hfp.
  { clear -HF. induction HF as [|s v es vs Hv HF IH]; constructor; [|done].
    by apply verify_signed_steps in Hv as (_ & _ & _ & _ & ?). }
  inversion Hc as [|g vs'' Hg Hc'|]; subst; [split_and!; [constructor|done|set_solver|constructor]|].
  destruct (chained_bounds g vs'' Hc') as [HB HS]. split_and!; [|done| |by eapply chained_linked].
  - constructor; [done|]. eapply Forall_impl; [exact HB|]. by intros w [_ ?].
  - assert (∀ w, w ∈ g :: vs'' → ve_stream_id w = ve_stream_id g) as Hone; [|intros v w Hv Hw; by rewrite (Hone v Hv), (Hone w Hw)].
    intros w [->|Hw]%elem_of_cons; [done|]. rewrite Forall_forall in HB. by apply HB.
Qed.

Definition wit_chain : list SignedEntry := [wit_first; wit_second].

Lemma verify_chain_invariant_witness :
  StronglySorted (fun a b => ve_lamport a < ve_lamport b) (se_entry <$> wit_chain).
Proof.
  apply (verify_chain_invariant wit_chain (secret_public wit_secret)); [by vm_compute|].
  repeat constructor; by vm_compute.
Defined.

(** Tamper evidence: the hash of the last entry fixes the whole history.  Two chains
    that verify, under any keys, and end in the same entry hash consist of the same verified
    entries, or exhibit a SHA-256 collision. *)
Theorem chain_head_fixes_history `{Minicbor} `{Sha256} `{Ed25519} es es' pubkey pubkey' vs vs' :
  verify_chain es pubkey = Ok tt → Forall2 (verifies pubkey) es vs →
  verify_chain es' pubkey' = Ok tt → Forall2 (verifies pubkey') es' vs' →
  ve_entry_hash <$> last vs = ve_entry_hash <$> last vs' →
  vs = vs' ∨ collision.
Proof.
  intros (ws & HFw & Hc)%verify_chain_from_iff HF. rewrite (verified_unique _ _ _ _ HFw HF) in Hc.
  intros (ws' & HFw' & Hc')%verify_chain_from_iff HF'. rewrite (verified_unique _ _ _ _ HFw' HF') in Hc'.
  apply history_unique; [done|done| |].
  all: eapply Forall2_Forall_r; [done|]; apply Forall_forall; intros ? _ ?; apply verify_signed_body.
Qed.

Lemma chain_head_fixes_history_witness :
  se_entry <$> wit_chain = se_entry <$> wit_chain ∨ collision.
Proof.
  apply (chain_head_fixes_history wit_chain wit_chain (secret_public wit_secret) (secret_public wit_secret)).
  - by vm_compute.
  - repeat constructor; by vm_compute.
  - by vm_compute.
  - repeat constructor; by vm_compute.
  - reflexivity.
Defined.
