(* ===== verification/Stream.v ===== *)
(** * Stream identities ([crates/rag-rat-oplog/src/stream.rs])

    A stream id is the SHA-256 of the canonical CBOR form of its visibility policy, for the
    local ([/1]) and the owner-bound ([/2]) derivation.  An [anyhow] message is [Message]. *)

From S2P Require Import Prelude Cbor Minicbor Hash Op Device Entry.

Local Open Scope Z_scope.

(** ** Data *)

Definition STREAM_DOMAIN : bytes := lit "rag-rat/stream/1".
Definition STREAM_V2_DOMAIN : bytes := lit "rag-rat/stream/2".

Definition AccountId : Type := bytes.
#[export] Typeclasses Transparent AccountId.

(** [StreamId::PRECONTEXT]. *)
Definition PRECONTEXT : StreamId := replicate 32 x00.

Inductive NodeOverrideAction : Type := Include | Exclude.

Definition action_as_wire_str (a : NodeOverrideAction) : bytes :=
  lit match a with Include => "include" | Exclude => "exclude" end.

Definition action_from_wire_str (token : bytes) : option NodeOverrideAction :=
  if bool_decide (token = lit "include") then Some Include
  else if bool_decide (token = lit "exclude") then Some Exclude
  else None.

(** The derived [Ord]: declaration order. *)
Definition action_index (a : NodeOverrideAction) : Z := match a with Include => 0 | Exclude => 1 end.

Record NodeOverride : Type := mkNodeOverride { no_node_id : bytes; no_action : NodeOverrideAction }.

#[export] Instance NodeOverrideAction_eq_dec : EqDecision NodeOverrideAction.
Proof. solve_decision. Defined.
#[export] Instance NodeOverride_eq_dec : EqDecision NodeOverride.
Proof. solve_decision. Defined.

(** [(&a.node_id, a.action)]. *)
Definition override_key (o : NodeOverride) : bytes * Z := (no_node_id o, action_index (no_action o)).

Record StreamSpec : Type := mkStreamSpec {
  ss_repo_set : list bytes;
  ss_kind_allow_list : option (list bytes);
  ss_relation_policy : option (list bytes);
  ss_node_overrides : list NodeOverride;
}.

(** [CanonicalPolicy] has the fields of a [StreamSpec]. *)
Definition CanonicalPolicy : Type := StreamSpec.

Inductive AccessMode : Type := Private | PublicRead.

Record StreamSpecV2 : Type := mkStreamSpecV2 {
  s2_owner_account_id : AccountId;
  s2_policy : StreamSpec;
  s2_access_mode : AccessMode;
}.

(** ** Canonicalization *)

Definition sorted_deduped (values : list bytes) : list bytes := sort_dedup values.

(** The [windows(2)] scan for a node with two actions. *)
Fixpoint overrides_conflict (l : list NodeOverride) : bool :=
  match l with
  | x :: ((y :: _) as l') => bool_decide (no_node_id x = no_node_id y) || overrides_conflict l'
  | _ => false
  end.

Definition canonical_overrides (overrides : list NodeOverride) : result CborError (list NodeOverride) :=
  let out := dedup (sort_by_key override_key overrides) in
  if overrides_conflict out then Err (Message "conflicting stream overrides") else Ok out.

Definition canonical_policy (spec : StreamSpec) : result CborError CanonicalPolicy :=
  let repo_set := sorted_deduped (ss_repo_set spec) in
  if bool_decide (repo_set = []) then Err (Message "a stream must carry at least one repo")
  else if existsb (fun repo => bool_decide (repo = [])) repo_set
  then Err (Message "a stream repo id must be non-empty")
  else
    overrides ← canonical_overrides (ss_node_overrides spec);
    Ok (mkStreamSpec repo_set (sorted_deduped <$> ss_kind_allow_list spec)
          (sorted_deduped <$> ss_relation_policy spec) overrides).

Definition wire_tag (m : AccessMode) : option Z :=
  match m with Private => None | PublicRead => Some 1 end.

Definition from_wire_tag (tag : Z) : result CborError AccessMode :=
  if bool_decide (tag = 1) then Ok PublicRead
  else Err (Message "unknown or non-canonical stream/2 access-mode tag").

Definition owner_stream_spec (repo_id : bytes) : StreamSpec := mkStreamSpec [repo_id] None None [].

Definition owner_stream_v2 (repo_id : bytes) (account_id : AccountId) : StreamSpecV2 :=
  mkStreamSpecV2 account_id (owner_stream_spec repo_id) Private.

Section Stream.
Context `{Minicbor}.

Definition encode_str_array (values : list bytes) : bytes :=
  put_array (len values) ++ mjoin (put_str <$> values).
Definition encode_optional_str_array : option (list bytes) → bytes := put_opt encode_str_array.

Definition encode_override (o : NodeOverride) : bytes :=
  put_array 2 ++ put_str (no_node_id o) ++ put_str (action_as_wire_str (no_action o)).

Definition encode_policy (policy : CanonicalPolicy) : bytes :=
  encode_str_array (ss_repo_set policy) ++
  encode_optional_str_array (ss_kind_allow_list policy) ++
  encode_optional_str_array (ss_relation_policy policy) ++
  put_array (len (ss_node_overrides policy)) ++
  mjoin (encode_override <$> ss_node_overrides policy).

Definition canonical_spec_bytes (spec : StreamSpec) : result CborError bytes :=
  policy ← canonical_policy spec;
  Ok (put_array 5 ++ put_str STREAM_DOMAIN ++ encode_policy policy).

Definition canonical_spec_v2_bytes (spec : StreamSpecV2) : result CborError bytes :=
  policy ← canonical_policy (s2_policy spec);
  let mode_tag := wire_tag (s2_access_mode spec) in
  Ok (put_array (if mode_tag then 7 else 6) ++ put_str STREAM_V2_DOMAIN ++
      put_bytes (s2_owner_account_id spec) ++ encode_policy policy ++
      match mode_tag with Some tag => put_u64 tag | None => [] end).

(** [dec.probe().array()]: the cursor does not move. *)
Definition probe_array : Decoder (option Z) := fun bs => '(o, _) ← d_array bs; Ok (o, bs).

Definition INDEFINITE_ARRAY : string := "indefinite arrays are not canonical".

Definition stream_decode_str_array : Decoder (list bytes) :=
  o ← probe_array;
  if bool_decide (o = None) then fail (Message INDEFINITE_ARRAY) else decode_str_array.

Definition decode_optional_str_array : Decoder (option (list bytes)) :=
  decode_opt stream_decode_str_array.

Definition decode_override : Decoder NodeOverride :=
  o ← d_array;
  if bool_decide (o ≠ Some 2) then fail (Message "stream override must be a 2-element array")
  else
    node_id ← d_str;
    token ← d_str;
    match action_from_wire_str token with
    | Some action => mret (mkNodeOverride node_id action)
    | None => fail (Message "unknown stream override action")
    end.

Definition decode_overrides : Decoder (list NodeOverride) :=
  o ← d_array;
  n ← lift (ok_or (Message INDEFINITE_ARRAY) o);
  read_many n decode_override.

(** The reads of [decode_spec_v2]. *)
Definition decode_spec_v2_parts : Decoder StreamSpecV2 :=
  arity ← d_array;
  if bool_decide (arity ≠ Some 6 ∧ arity ≠ Some 7)
  then fail (Message "stream/2 spec must be a 6- or 7-element array")
  else
    domain ← d_str;
    if bool_decide (domain ≠ STREAM_V2_DOMAIN) then fail (Message "unknown stream spec domain")
    else
      owner_account_id ← d_fixed 32 "owner account";
      repo_set ← stream_decode_str_array;
      kind_allow_list ← decode_optional_str_array;
      relation_policy ← decode_optional_str_array;
      node_overrides ← decode_overrides;
      access_mode ← (if bool_decide (arity = Some 7)
                     then tag ← d_u64; lift (from_wire_tag tag)
                     else mret Private);
      mret (mkStreamSpecV2 owner_account_id
              (mkStreamSpec repo_set kind_allow_list relation_policy node_overrides) access_mode).

Definition decode_spec_v2 (bs : bytes) : result CborError StreamSpecV2 :=
  _ ← require_canonical_cbor bs;
  '(spec, rest) ← decode_spec_v2_parts bs;
  if bool_decide (rest ≠ []) then Err (Message "trailing bytes in stream/2 spec")
  else
    again ← canonical_spec_v2_bytes spec;
    if bool_decide (again ≠ bs) then Err (Message "stream/2 spec is not in canonical set order")
    else Ok spec.

Context `{Sha256}.

Definition derive (spec : StreamSpec) : result CborError StreamId :=
  bs ← canonical_spec_bytes spec; Ok (sha256 bs).
Definition owner_stream (repo_id : bytes) : result CborError StreamId :=
  derive (owner_stream_spec repo_id).
Definition derive_v2 (spec : StreamSpecV2) : result CborError StreamId :=
  bs ← canonical_spec_v2_bytes spec; Ok (sha256 bs).
End Stream.

(** ** Canonical policies *)

Definition opt_list_ok (o : option (list bytes)) : Prop :=
  opt_ok (fun l => Forall str_ok l ∧ len l ≤ u64_max) o.

Definition policy_ok (p : StreamSpec) : Prop :=
  (Forall str_ok (ss_repo_set p) ∧ len (ss_repo_set p) ≤ u64_max) ∧
  opt_list_ok (ss_kind_allow_list p) ∧ opt_list_ok (ss_relation_policy p) ∧
  Forall (fun o => str_ok (no_node_id o)) (ss_node_overrides p) ∧ len (ss_node_overrides p) ≤ u64_max.

Definition spec_v2_ok (s : StreamSpecV2) : Prop :=
  hash_ok (s2_owner_account_id s) ∧ policy_ok (s2_policy s).

(** Two policies with the same sets. *)
Definition same_set {A} (l k : list A) : Prop := ∀ x, x ∈ l ↔ x ∈ k.
Definition same_opt_set (o o' : option (list bytes)) : Prop :=
  match o, o' with Some l, Some k => same_set l k | None, None => True | _, _ => False end.
Definition policy_equiv (p q : StreamSpec) : Prop :=
  same_set (ss_repo_set p) (ss_repo_set q) ∧
  same_opt_set (ss_kind_allow_list p) (ss_kind_allow_list q) ∧
  same_opt_set (ss_relation_policy p) (ss_relation_policy q) ∧
  same_set (ss_node_overrides p) (ss_node_overrides q).

Lemma override_key_inj o o' : override_key o = override_key o' → o = o'.
Proof. destruct o as [? []], o' as [? []]; unfold override_key; simpl; naive_solver. Qed.

Lemma sorted_deduped_same l : same_set (sorted_deduped l) l.
Proof. intros x. apply elem_of_sort_dedup. Qed.

Lemma same_opt_set_sorted o o' :
  same_opt_set o o' → sorted_deduped <$> o = sorted_deduped <$> o'.
Proof. destruct o, o'; simpl; try done. intros Hs. f_equal. by apply sort_dedup_ext. Qed.

(** The canonical policy depends on the sets only. *)
Lemma canonical_policy_ext p q : policy_equiv p q → canonical_policy p = canonical_policy q.
Proof.
  intros (Hr & Hk & Hp & Ho). unfold canonical_policy, canonical_overrides.
  rewrite (dedup_sort_by_key_ext override_key (ss_node_overrides p) (ss_node_overrides q));
    [|apply override_key_inj|done].
  assert (sorted_deduped (ss_repo_set p) = sorted_deduped (ss_repo_set q)) as -> by by apply sort_dedup_ext.
  by rewrite (same_opt_set_sorted _ _ Hk), (same_opt_set_sorted _ _ Hp).
Qed.

Lemma canonical_policy_inv p q :
  canonical_policy p = Ok q →
  ss_repo_set q = sort_dedup (ss_repo_set p) ∧
  ss_kind_allow_list q = sorted_deduped <$> ss_kind_allow_list p ∧
  ss_relation_policy q = sorted_deduped <$> ss_relation_policy p ∧
  ss_node_overrides q = dedup (sort_by_key override_key (ss_node_overrides p)).
Proof.
  unfold canonical_policy, canonical_overrides. intros Hc.
  case_bool_decide; [done|]. case_match; [done|]. inv_ok. simpl.
  match goal with H : (if ?b then _ else _) = Ok _ |- _ => destruct b; inv_ok end. done.
Qed.

Lemma canonical_policy_equiv p q : canonical_policy p = Ok q → policy_equiv q p.
Proof.
  intros (Hr & Hk & Hp & Ho)%canonical_policy_inv. unfold policy_equiv. rewrite Hr, Hk, Hp, Ho.
  split_and!.
  - apply sorted_deduped_same.
  - destruct (ss_kind_allow_list p); simpl; [apply sorted_deduped_same|done].
  - destruct (ss_relation_policy p); simpl; [apply sorted_deduped_same|done].
  - intros x. by rewrite elem_of_dedup, sort_by_key_perm.
Qed.

Lemma canonical_policy_idemp p q : canonical_policy p = Ok q → canonical_policy q = Ok q.
Proof. intros Hc. rewrite <- Hc. by apply canonical_policy_ext, canonical_policy_equiv. Qed.

Lemma sort_dedup_list_ok l : Forall str_ok l ∧ len l ≤ u64_max →
  Forall str_ok (sorted_deduped l) ∧ len (sorted_deduped l) ≤ u64_max.
Proof.
  intros [Hl Hlen]. split.
  - rewrite Forall_forall in *. intros x. rewrite (sorted_deduped_same l x). auto.
  - unfold sorted_deduped. pose proof (sort_dedup_len l). lia.
Qed.

Lemma opt_list_ok_sorted o : opt_list_ok o → opt_list_ok (sorted_deduped <$> o).
Proof. destruct o; simpl; [apply sort_dedup_list_ok|done]. Qed.

Lemma canonical_policy_ok p q : policy_ok p → canonical_policy p = Ok q → policy_ok q.
Proof.
  intros (Hr & Hk & Hp & Ho & Hlen) (Er & Ek & Ep & Eo)%canonical_policy_inv.
  unfold policy_ok. rewrite Er, Ek, Ep, Eo. split_and!.
  1-2: by apply sort_dedup_list_ok.
  1-2: by apply opt_list_ok_sorted.
  - rewrite Forall_forall in *. intros x. rewrite elem_of_dedup, sort_by_key_perm. auto.
  - pose proof (dedup_length (sort_by_key override_key (ss_node_overrides p))).
    rewrite <- (sort_by_key_len override_key) in Hlen. unfold len in *. lia.
Qed.

#[export] Instance canonical_policy_proper : Proper (policy_equiv ==> (=)) canonical_policy.
Proof. intros p q. apply canonical_policy_ext. Qed.

(** ** Reading a canonical policy back *)

Section StreamCodec.
Context `{MinicborLaws}.

Lemma reads_d_array n : 0 ≤ n ≤ u64_max → reads d_array (put_array n) (Some n).
Proof. intros Hn r. unfold d_array, lib, put_array. by rewrite enc_array_spec, dec_array_head. Qed.

Lemma reads_stream_str_array l :
  Forall str_ok l → len l ≤ u64_max → reads stream_decode_str_array (encode_str_array l) l.
Proof.
  intros Hl Hlen r. pose proof (len_nonneg l). unfold stream_decode_str_array, mbind at 1, Decoder_bind at 1.
  assert (probe_array (encode_str_array l ++ r) = Ok (Some (len l), encode_str_array l ++ r)) as ->.
  { unfold probe_array, encode_str_array. rewrite <- app_assoc. by rewrite reads_d_array. }
  simpl. by apply reads_str_array.
Qed.

Lemma reads_optional_str_array o :
  opt_list_ok o → reads decode_optional_str_array (encode_optional_str_array o) o.
Proof.
  intros Ho. apply reads_opt. intros l ->. destruct Ho as [? ?]. pose proof (len_nonneg l).
  split; [by apply reads_stream_str_array|by apply non_null_array].
Qed.

Lemma action_wire_inv a : action_from_wire_str (action_as_wire_str a) = Some a.
Proof. by destruct a. Qed.
Lemma action_str_ok a : str_ok (action_as_wire_str a).
Proof. by destruct a. Qed.

Lemma reads_override o : str_ok (no_node_id o) → reads decode_override (encode_override o) o.
Proof.
  intros Ho. eapply reads_bind; [apply reads_d_array; unfold u64_max; lia|].
  rewrite bool_decide_false by (intros Hne; by apply Hne).
  eapply reads_bind; [by apply reads_str_ok|].
  eapply reads_bind_nil; [apply reads_str_ok, action_str_ok|]. rewrite action_wire_inv. by destruct o.
Qed.

Lemma reads_overrides l :
  Forall (fun o => str_ok (no_node_id o)) l → len l ≤ u64_max →
  reads decode_overrides (put_array (len l) ++ mjoin (encode_override <$> l)) l.
Proof.
  intros Hl Hlen. pose proof (len_nonneg l). eapply reads_bind; [by apply reads_d_array|].
  rewrite <- (app_nil_l (mjoin _)). eapply reads_bind; [intros r; reflexivity|].
  rewrite <- (list_fmap_id l) at 3. apply reads_read_many.
  eapply Forall_impl; [exact Hl|]. apply reads_override.
Qed.

Definition v2_bytes (owner : AccountId) (policy : CanonicalPolicy) (mode : AccessMode) : bytes :=
  put_array (if wire_tag mode then 7 else 6) ++ put_str STREAM_V2_DOMAIN ++ put_bytes owner ++
  encode_policy policy ++ match wire_tag mode with Some tag => put_u64 tag | None => [] end.

Lemma reads_v2 owner policy mode :
  hash_ok owner → policy_ok policy →
  reads decode_spec_v2_parts (v2_bytes owner policy mode) (mkStreamSpecV2 owner policy mode).
Proof.
  intros Hown (Hr & Hk & Hp & Ho & Hlen). unfold v2_bytes, encode_policy. rewrite <- !app_assoc.
  eapply reads_bind; [apply reads_d_array; destruct mode; simpl; unfold u64_max; lia|].
  rewrite bool_decide_false by (destruct mode; simpl; naive_solver).
  eapply reads_bind; [by apply reads_str_ok|]. rewrite bool_decide_false by (intros Hne; by apply Hne).
  eapply reads_bind; [apply reads_fixed; [done|by apply hash_ok_len]|].
  eapply reads_bind; [by apply reads_stream_str_array; apply Hr|].
  eapply reads_bind; [by apply reads_optional_str_array|].
  eapply reads_bind; [by apply reads_optional_str_array|].
  rewrite (app_assoc (put_array (len (ss_node_overrides policy)))).
  eapply reads_bind; [by apply reads_overrides|].
  destruct policy, mode; simpl.
  - intros r. reflexivity.
  - eapply reads_bind_nil; [|reflexivity]. eapply reads_bind_nil; [apply reads_u64; unfold u64_max; lia|].
    reflexivity.
Qed.
End StreamCodec.

(** ** The canonical form is a canonical item *)

Definition str_array_item (l : list bytes) : item := Array (TextString <$> l).
Definition opt_str_array_item (o : option (list bytes)) : item :=
  match o with Some l => str_array_item l | None => Simple 22 end.
Definition override_item (o : NodeOverride) : item :=
  Array [TextString (no_node_id o); TextString (action_as_wire_str (no_action o))].
Definition v2_item (owner : AccountId) (p : CanonicalPolicy) (mode : AccessMode) : item :=
  Array ([TextString STREAM_V2_DOMAIN; ByteString owner; str_array_item (ss_repo_set p);
          opt_str_array_item (ss_kind_allow_list p); opt_str_array_item (ss_relation_policy p);
          Array (override_item <$> ss_node_overrides p)] ++
         match wire_tag mode with Some tag => [Uint tag] | None => [] end).

Section StreamItems.
Context `{MinicborLaws}.

Lemma encode_str_array_ser l :
  Forall str_ok l → len l ≤ u64_max → encode_str_array l = ser (str_array_item l).
Proof.
  intros Hl Hlen. unfold encode_str_array, str_array_item.
  rewrite <- put_array_ser by (unfold len in *; by rewrite length_fmap).
  unfold len at 2. rewrite length_fmap. f_equal. f_equal. rewrite <- list_fmap_compose.
  apply list_fmap_ext. intros i s Hs. apply put_str_ser.
  eapply Forall_lookup_1 in Hl as [_ ?]; done.
Qed.

Lemma encode_optional_ser o :
  opt_list_ok o → encode_optional_str_array o = ser (opt_str_array_item o).
Proof. destruct o; simpl; [intros [? ?]; by apply encode_str_array_ser|intros _; apply put_null_ser]. Qed.

Lemma encode_override_ser o : str_ok (no_node_id o) → encode_override o = ser (override_item o).
Proof.
  intros Ho. unfold encode_override, override_item.
  rewrite !put_str_ser by first [apply Ho|apply action_str_ok].
  rewrite <- put_array_ser by (by vm_compute). rewrite !fmap_cons.
  cbn [mjoin list_join fmap list_fmap]. by rewrite app_nil_r.
Qed.

Lemma encode_overrides_ser l :
  Forall (fun o => str_ok (no_node_id o)) l → len l ≤ u64_max →
  put_array (len l) ++ mjoin (encode_override <$> l) = ser (Array (override_item <$> l)).
Proof.
  intros Hl Hlen. rewrite <- put_array_ser by (unfold len in *; by rewrite length_fmap).
  unfold len at 2. rewrite length_fmap. f_equal. f_equal. rewrite <- list_fmap_compose.
  apply list_fmap_ext. intros i o Ho. apply encode_override_ser. by eapply Forall_lookup_1 in Hl.
Qed.

Lemma v2_bytes_ser owner p mode :
  hash_ok owner → policy_ok p → v2_bytes owner p mode = ser (v2_item owner p mode).
Proof.
  intros Hown (Hr & Hk & Hp & Ho & Hlen). unfold v2_bytes, v2_item, encode_policy.
  rewrite put_str_ser, put_bytes_ser, encode_overrides_ser, !encode_optional_ser, encode_str_array_ser
    by first [done|by apply hash_ok_len|apply Hr].
  etrans; [|apply put_array_ser; destruct mode; unfold len, u64_max; cbn [length app wire_tag]; lia].
  destruct mode; cbn [wire_tag app]; rewrite !fmap_cons; cbn [mjoin list_join fmap list_fmap];
    rewrite ?put_u64_ser by (unfold u64_max; lia); rewrite <- !app_assoc; by rewrite ?app_nil_r.
Qed.

Lemma str_array_item_wf l : Forall str_ok l → len l ≤ u64_max → item_wf (str_array_item l).
Proof.
  intros Hl Hlen. apply wf_array; [unfold len in *; by rewrite length_fmap|].
  apply Forall_fmap. eapply Forall_impl; [exact Hl|]. intros s [? ?]. by apply wf_text.
Qed.

Lemma opt_str_array_item_wf o : opt_list_ok o → item_wf (opt_str_array_item o).
Proof. destruct o; simpl; [intros [? ?]; by apply str_array_item_wf|]. intros _. by apply wf_simple. Qed.

Lemma override_item_wf o : str_ok (no_node_id o) → item_wf (override_item o).
Proof.
  intros [? ?]. apply wf_array; [by vm_compute|].
  repeat apply Forall_cons_2; try apply Forall_nil_2; apply wf_text; first [done|apply action_str_ok].
Qed.

Lemma v2_item_wf owner p mode : hash_ok owner → policy_ok p → item_wf (v2_item owner p mode).
Proof.
  intros Hown (Hr & Hk & Hp & Ho & Hlen). apply wf_array; [destruct mode; unfold len, u64_max; cbn [length app wire_tag]; lia|].
  apply Forall_app. split.
  - repeat apply Forall_cons_2; try apply Forall_nil_2.
    + by apply wf_text.
    + by apply wf_bytes, hash_ok_len.
    + by apply str_array_item_wf; apply Hr.
    + by apply opt_str_array_item_wf.
    + by apply opt_str_array_item_wf.
    + apply wf_array; [unfold len in *; by rewrite length_fmap|]. apply Forall_fmap.
      eapply Forall_impl; [exact Ho|]. apply override_item_wf.
  - destruct mode; simpl; [constructor|]. repeat constructor; unfold u64_max; lia.
Qed.

Lemma str_array_height l : (height (str_array_item l) ≤ 2)%nat.
Proof.
  simpl. apply le_n_S, max_list_le. rewrite <- list_fmap_compose. apply Forall_fmap, Forall_true.
  intros s. simpl. lia.
Qed.
Lemma opt_str_array_height o : (height (opt_str_array_item o) ≤ 2)%nat.
Proof. destruct o; [apply str_array_height|simpl; lia]. Qed.

Lemma v2_canonical owner p mode :
  hash_ok owner → policy_ok p → require_canonical_cbor (v2_bytes owner p mode) = Ok tt.
Proof.
  intros Hown Hp. rewrite v2_bytes_ser by done. apply require_canonical_ser; [by apply v2_item_wf|].
  unfold v2_item, MAX_CBOR_DEPTH. cbn [height]. apply le_n_S.
  etrans; [apply (max_list_le _ 3)|lia]. apply Forall_fmap, Forall_app. split.
  - pose proof (str_array_height (ss_repo_set p)). pose proof (opt_str_array_height (ss_kind_allow_list p)).
    pose proof (opt_str_array_height (ss_relation_policy p)).
    repeat apply Forall_cons_2; try apply Forall_nil_2; unfold compose; [simpl; lia|simpl; lia|lia|lia|lia|].
    cbn [height]. apply le_n_S. etrans; [apply (max_list_le _ 2)|lia].
    rewrite <- list_fmap_compose. apply Forall_fmap, Forall_true. intros o. simpl. lia.
  - destruct mode; simpl; [constructor|]. repeat constructor.
Qed.
End StreamItems.

(** ** Properties *)

Lemma canonical_v2_bytes_inv `{Minicbor} spec bs :
  canonical_spec_v2_bytes spec = Ok bs ↔
  ∃ p, canonical_policy (s2_policy spec) = Ok p ∧
       bs = v2_bytes (s2_owner_account_id spec) p (s2_access_mode spec).
Proof.
  unfold canonical_spec_v2_bytes. rewrite result_bind_Ok. unfold v2_bytes. naive_solver.
Qed.

Definition set_policy (spec : StreamSpecV2) (p : StreamSpec) : StreamSpecV2 :=
  mkStreamSpecV2 (s2_owner_account_id spec) p (s2_access_mode spec).

(** Caller order never perturbs a stream identity: policies that name the same sets of
    repos, kinds, relations and overrides (in any order, with any repetition) have the same
    canonical policy, bytes and [/1] and [/2] stream ids, or are refused alike. *)
Theorem derive_set_invariant `{Minicbor} `{Sha256} (p q : StreamSpec) owner mode :
  policy_equiv p q →
  canonical_policy p = canonical_policy q ∧ derive p = derive q ∧
  derive_v2 (mkStreamSpecV2 owner p mode) = derive_v2 (mkStreamSpecV2 owner q mode).
Proof.
  intros Heq. unfold derive, derive_v2, canonical_spec_bytes, canonical_spec_v2_bytes. simpl.
  by rewrite Heq.
Qed.

Definition wit_policy : StreamSpec :=
  mkStreamSpec [lit "b"; lit "a"; lit "b"] (Some []) None
    [mkNodeOverride (lit "n") Exclude; mkNodeOverride (lit "m") Include].
Definition wit_policy' : StreamSpec :=
  mkStreamSpec [lit "a"; lit "b"] (Some []) None
    [mkNodeOverride (lit "m") Include; mkNodeOverride (lit "n") Exclude; mkNodeOverride (lit "m") Include].

Lemma derive_set_invariant_witness :
  derive wit_policy = derive wit_policy' ∧ is_ok (derive wit_policy) = true.
Proof.
  split; [|by vm_compute].
  apply (derive_set_invariant wit_policy wit_policy' (replicate 32 x01) Private).
  repeat split; simpl; set_solver.
Defined.

(** The self-certifying preimage round-trips: the canonical bytes of an accepted policy
    decode, and to the spec with its sets in canonical order. *)
Theorem decode_spec_v2_roundtrip `{MinicborLaws} (spec : StreamSpecV2) bs :
  spec_v2_ok spec → canonical_spec_v2_bytes spec = Ok bs →
  ∃ p, canonical_policy (s2_policy spec) = Ok p ∧ decode_spec_v2 bs = Ok (set_policy spec p).
Proof.
  intros [Hown Hpol] (p & Hp & ->)%canonical_v2_bytes_inv. exists p. split; [done|].
  pose proof (canonical_policy_ok _ _ Hpol Hp) as Hok. unfold decode_spec_v2.
  rewrite v2_canonical by done. simpl.
  pose proof (reads_v2 (s2_owner_account_id spec) p (s2_access_mode spec) Hown Hok []) as Hr.
  rewrite app_nil_r in Hr. rewrite Hr. simpl.
  assert (canonical_spec_v2_bytes (set_policy spec p) =
    Ok (v2_bytes (s2_owner_account_id spec) p (s2_access_mode spec))) as Hagain.
  { apply canonical_v2_bytes_inv. exists p. split; [by apply canonical_policy_idemp in Hp|done]. }
  unfold set_policy in *. rewrite Hagain. simpl.
  rewrite bool_decide_false; [done|]. intros Hne. by apply Hne.
Qed.

Definition wit_spec : StreamSpecV2 := mkStreamSpecV2 (replicate 32 x01) wit_policy PublicRead.

Lemma decode_spec_v2_roundtrip_witness :
  ∃ bs p, canonical_spec_v2_bytes wit_spec = Ok bs ∧ decode_spec_v2 bs = Ok (set_policy wit_spec p).
Proof.
  destruct (canonical_spec_v2_bytes wit_spec) as [bs|] eqn:E; [|by vm_compute in E].
  destruct (decode_spec_v2_roundtrip wit_spec bs) as (p & _ & Hp);
    [repeat constructor; by vm_compute|exact E|]. by exists bs, p.
Defined.

(** A stream id pins its policy and its owner: two well-typed owner-bound specs with
    one id have the same owner, access mode and canonical policy (so an unfiltered view is
    never confused with an empty filter), or exhibit a SHA-256 collision. *)
Theorem derive_v2_injective `{MinicborLaws} `{Sha256} (a b : StreamSpecV2) id :
  spec_v2_ok a → spec_v2_ok b → derive_v2 a = Ok id → derive_v2 b = Ok id →
  (s2_owner_account_id a = s2_owner_account_id b ∧ s2_access_mode a = s2_access_mode b ∧
   canonical_policy (s2_policy a) = canonical_policy (s2_policy b)) ∨ collision.
Proof.
  intros [Hoa Hpa] [Hob Hpb] Ha Hb. unfold derive_v2 in Ha, Hb. inv_ok.
  match goal with H : canonical_spec_v2_bytes a = Ok ?x, H' : canonical_spec_v2_bytes b = Ok ?y |- _ =>
    rename H into Hba, H' into Hbb; destruct (decide (x = y)) as [->|Hne] end.
  2: { right. eexists _, _. split; [exact Hne|done]. }
  left. apply canonical_v2_bytes_inv in Hba as (p & Hp & Heq), Hbb as (q & Hq & Heq').
  pose proof (reads_v2 _ p (s2_access_mode a) Hoa (canonical_policy_ok _ _ Hpa Hp)) as Hra.
  pose proof (reads_v2 _ q (s2_access_mode b) Hob (canonical_policy_ok _ _ Hpb Hq)) as Hrb.
  rewrite <- Heq in Hra. rewrite <- Heq' in Hrb. pose proof (reads_det _ _ _ _ Hra Hrb) as Hs.
  injection Hs as -> -> ->. rewrite Hp, Hq. done.
Qed.

Lemma derive_v2_injective_witness :
  (s2_owner_account_id wit_spec = s2_owner_account_id wit_spec ∧
   s2_access_mode wit_spec = s2_access_mode wit_spec ∧
   canonical_policy (s2_policy wit_spec) = canonical_policy (s2_policy wit_spec)) ∨ collision.
Proof.
  destruct (derive_v2 wit_spec) as [id|] eqn:E; [|by vm_compute in E].
  apply (derive_v2_injective wit_spec wit_spec id); [repeat constructor; by vm_compute..|exact E|exact E].
Defined.

(** The two derivations never meet: an id that is both a local [/1] and an owner-bound
    [/2] stream id exhibits a SHA-256 collision. *)
Theorem stream_versions_disjoint `{MinicborLaws} `{Sha256} (p : StreamSpec) (s : StreamSpecV2) id :
  derive p = Ok id → derive_v2 s = Ok id → collision.
Proof.
  unfold derive, derive_v2, canonical_spec_bytes, canonical_spec_v2_bytes. intros Hd Hd2. inv_ok.
  eexists _, _. split; [|symmetry; eassumption].
  intros Heq. apply put_array_inj in Heq as [Hn _].
  all: destruct (s2_access_mode s); simpl in *; unfold u64_max; lia.
Qed.

Lemma stream_versions_disjoint_witness : collision.
Proof.
  set (p := mkStreamSpec [lit "a"] None None
    [mkNodeOverride (lit "a-node-identifier-of-forty-bytes-or-more") Include]).
  destruct (derive p) as [id|] eqn:E; [|by vm_compute in E].
  apply (stream_versions_disjoint p (mkStreamSpecV2 (replicate 32 x01) p Private) id); [exact E|].
  rewrite <- E. by vm_compute.
Defined.
