(* ===== verification/Branch.v ===== *)
(** * Branch selection over hash-linked candidates ([crates/rag-rat-oplog/src/account/branch.rs])

    The slot walk with its pinned-over-minimum-hash rule, the rooted-minus-accepted fork rule
    and the backward walk from a watermark.  A [HashSet] is a [gset] and a [HashMap] a [gmap];
    the iteration order of the set of chains is an argument, so that results can be shown not
    to depend on it.  [while] loops run on fuel, and are shown never to exhaust it. *)

From S2P Require Import Prelude Cbor Minicbor Hash Op Device Entry Stream.

Local Open Scope Z_scope.

(** ** Data *)

Definition AccountEntryHash : Type := bytes.
#[export] Typeclasses Transparent AccountEntryHash.

Inductive UnknownAncestry : Type := UnknownCutTarget | IncompleteCutAncestry.

Inductive AncestryRelation : Type :=
| OnBranch
| OffBranch
| UnknownRelation (cause : UnknownAncestry).

Inductive AuthorityFreshness : Type := CurrentOrBehind | Ahead.

Record CitedFreshness : Type := mkCitedFreshness {
  cf_account_id : AccountId;
  cf_asserted_auth_len : Z;
  cf_state : AuthorityFreshness;
}.

(** The trait [ChainLink]: the header fields the branch walks read. *)
Class ChainLink (H C : Type) := {
  coordinate : H → C;
  link_seq : H → Z;
  link_prev_hash : H → option AccountEntryHash;
}.

Record Candidate (H : Type) : Type := mkCandidate {
  ca_entry_hash : AccountEntryHash;
  ca_header : H;
}.
Arguments mkCandidate {H} _ _.
Arguments ca_entry_hash {H} _.
Arguments ca_header {H} _.

Record BranchPin (C : Type) : Type := mkBranchPin {
  bp_coordinate : C;
  bp_seq : Z;
  bp_watermark : AccountEntryHash;
}.
Arguments mkBranchPin {C} _ _ _.
Arguments bp_coordinate {C} _.
Arguments bp_seq {C} _.
Arguments bp_watermark {C} _.

Record BranchSelection : Type := mkBranchSelection {
  bs_accepted : gset AccountEntryHash;
  bs_forked : gset AccountEntryHash;
}.

Inductive WalkEnd : Type := Origin | MissingLink | ForgedLink | Stopped.

(** [Iterator::find] and [Iterator::min_by_key] with the element as key. *)
Definition find_first {A} (f : A → bool) (l : list A) : option A := hd_error (filter (fun x => f x = true) l).

Fixpoint min_hash (l : list AccountEntryHash) : option AccountEntryHash :=
  match l with
  | [] => None
  | h :: l => match min_hash l with
              | Some m => Some (if bool_decide (cle h m) then h else m)
              | None => Some h
              end
  end.

(** ** Selection *)

(** Eligible entries by the [(chain, prev_hash)] slot they extend. *)
Abbreviation BranchChildren C := (gmap (C * option AccountEntryHash) (list (Z * AccountEntryHash))).

Section Select.
Context {H C : Type} `{ChainLink H C} `{Countable C}.

Definition eligible_candidates (candidates : list (Candidate H)) (eligible : gset AccountEntryHash)
    : list (Candidate H) :=
  filter (fun c => ca_entry_hash c ∈ eligible) candidates.

(** [children.entry((coordinate, prev_hash)).or_default().push((seq, entry_hash))]. *)
Definition push_child (children : BranchChildren C) (c : Candidate H) : BranchChildren C :=
  let k := (coordinate (ca_header c), link_prev_hash (ca_header c)) in
  <[k := default [] (children !! k) ++ [(link_seq (ca_header c), ca_entry_hash c)]]> children.

Definition branch_children (candidates : list (Candidate H)) (eligible : gset AccountEntryHash)
    : BranchChildren C :=
  foldl push_child ∅ (eligible_candidates candidates eligible).

Definition branch_chains (candidates : list (Candidate H)) (eligible : gset AccountEntryHash) : gset C :=
  list_to_set ((fun c => coordinate (ca_header c)) <$> eligible_candidates candidates eligible).

(** The children of a parent at a slot. *)
Definition at_slot (kids : list (Z * AccountEntryHash)) (slot : Z) : list AccountEntryHash :=
  snd <$> filter (fun p => p.1 = slot) kids.

Definition slot_winner (pinned : gset AccountEntryHash) (hashes : list AccountEntryHash)
    : option AccountEntryHash :=
  match find_first (fun h => bool_decide (h ∈ pinned)) hashes with
  | Some h => Some h
  | None => min_hash hashes
  end.

(** The [for slot in 0..candidates.len()] loop: the winners from [slot] on. *)
Fixpoint walk_slots (n : nat) (children : BranchChildren C) (chain : C) (pinned : gset AccountEntryHash)
    (slot : Z) (parent : option AccountEntryHash) : list AccountEntryHash :=
  match n with
  | O => []
  | S n =>
      match kids ← children !! (chain, parent); slot_winner pinned (at_slot kids slot) with
      | Some winner => winner :: walk_slots n children chain pinned (slot + 1) (Some winner)
      | None => []
      end
  end.

(** One popped frontier element of [collect_rooted]: insert its children at the slot and
    push the ones that are new. *)
Definition root_step (kids : list (Z * AccountEntryHash)) (slot : Z)
    (st : list (option AccountEntryHash * Z) * gset AccountEntryHash)
    : list (option AccountEntryHash * Z) * gset AccountEntryHash :=
  foldl (fun '(frontier, rooted) h =>
    if bool_decide (h ∈ rooted) then (frontier, rooted)
    else (match u64_checked_add slot 1 with
          | Some next => (Some h, next) :: frontier
          | None => frontier
          end, {[h]} ∪ rooted))
    st (at_slot kids slot).

Fixpoint collect_rooted_loop (fuel : nat) (chain : C) (children : BranchChildren C)
    (frontier : list (option AccountEntryHash * Z)) (rooted : gset AccountEntryHash)
    : option (gset AccountEntryHash) :=
  match frontier with
  | [] => Some rooted
  | (parent, slot) :: frontier =>
      match fuel with
      | O => None
      | S fuel =>
          match children !! (chain, parent) with
          | None => collect_rooted_loop fuel chain children frontier rooted
          | Some kids =>
              let '(frontier, rooted) := root_step kids slot (frontier, rooted) in
              collect_rooted_loop fuel chain children frontier rooted
          end
      end
  end.

Definition collect_rooted (fuel : nat) (chain : C) (children : BranchChildren C)
    (rooted : gset AccountEntryHash) : option (gset AccountEntryHash) :=
  collect_rooted_loop fuel chain children [(None, 0)] rooted.

(** The loop over the chains, in the order [chains]. *)
Definition select_chains (candidates : list (Candidate H)) (eligible : gset AccountEntryHash)
    (pinned_branch : C → gset AccountEntryHash) (chains : list C)
    : option (gset AccountEntryHash * gset AccountEntryHash) :=
  let children := branch_children candidates eligible in
  let fuel := S (length candidates) in
  foldl (fun acc chain =>
    '(accepted, rooted) ← acc;
    let winners := walk_slots (length candidates) children chain (pinned_branch chain) 0 None in
    rooted ← collect_rooted fuel chain children rooted;
    Some (list_to_set winners ∪ accepted, rooted))
    (Some (∅, ∅)) chains.

Definition select_accepted_branch (candidates : list (Candidate H)) (eligible : gset AccountEntryHash)
    (pinned_branch : C → gset AccountEntryHash) : option BranchSelection :=
  '(accepted, rooted) ←
    select_chains candidates eligible pinned_branch (elements (branch_chains candidates eligible));
  Some (mkBranchSelection accepted (rooted ∖ accepted)).
End Select.

(** ** Backward walks *)

Section Walk.
Context {H C : Type} `{ChainLink H C} `{EqDecision C}.
Context {S : Type}.

(** The loop of [walk_back] at [current]: how it ended and the visitor's state; a visitor
    returns its new state and whether it breaks out. *)
Fixpoint walk_loop (fuel : nat) (chain : C) (lookup : AccountEntryHash → option H)
    (visit : S → AccountEntryHash → H → S * bool)
    (visited : gset AccountEntryHash) (current : AccountEntryHash) (st : S) : option (WalkEnd * S) :=
  match fuel with
  | O => None
  | Datatypes.S fuel =>
      match lookup current with
      | None => Some (MissingLink, st)
      | Some header =>
          if bool_decide (coordinate header ≠ chain) then Some (ForgedLink, st)
          else
            let '(st, stop) := visit st current header in
            if (stop : bool) then Some (Stopped, st)
            else if bool_decide (current ∈ visited) then Some (ForgedLink, st)
            else
              match link_prev_hash header with
              | None => Some (Origin, st)
              | Some prev =>
                  if match lookup prev with
                     | Some prev_header =>
                         bool_decide (u64_checked_add (link_seq prev_header) 1 ≠ Some (link_seq header))
                     | None => false
                     end
                  then Some (ForgedLink, st)
                  else walk_loop fuel chain lookup visit ({[current]} ∪ visited) prev st
              end
      end
  end.

Definition walk_back (fuel : nat) (watermark : AccountEntryHash) (lookup : AccountEntryHash → option H)
    (visit : S → AccountEntryHash → H → S * bool) (st : S) : option (WalkEnd * S) :=
  match lookup watermark with
  | None => Some (MissingLink, st)
  | Some head => walk_loop fuel (coordinate head) lookup visit ∅ watermark st
  end.
End Walk.

Section Pins.
Context {H C : Type} `{ChainLink H C} `{EqDecision C}.

(** [max_by_key(|pin| (pin.seq, pin.watermark))]: the last of the greatest. *)
Fixpoint max_pin (pins : list (BranchPin C)) : option (BranchPin C) :=
  match pins with
  | [] => None
  | p :: pins =>
      match max_pin pins with
      | Some q => Some (if bool_decide (clt (bp_seq q, bp_watermark q) (bp_seq p, bp_watermark p)) then p else q)
      | None => Some p
      end
  end.

Definition pinned_branch (fuel : nat) (chain : C) (pins : list (BranchPin C))
    (admits : BranchPin C → bool) (lookup : AccountEntryHash → option H) : option (gset AccountEntryHash) :=
  match max_pin (filter (fun p => admits p = true) (filter (fun p => bp_coordinate p = chain) pins)) with
  | None => Some ∅
  | Some pin =>
      snd <$> walk_back fuel (bp_watermark pin) lookup
                (fun branch hash _ => ({[hash]} ∪ branch, false)) {[bp_watermark pin]}
  end.
End Pins.

(** ** Slots *)

Lemma find_first_Some {A} (f : A → bool) l x : find_first f l = Some x → x ∈ l ∧ f x = true.
Proof.
  unfold find_first. intros Hx. destruct (filter (fun y => f y = true) l) as [|y k] eqn:E; [done|].
  simpl in Hx. injection Hx as ->. assert (x ∈ filter (fun y => f y = true) l) as Hin by (rewrite E; set_solver).
  by apply list_elem_of_filter in Hin as [? ?].
Qed.

Lemma find_first_None {A} (f : A → bool) l : find_first f l = None ↔ ∀ x, x ∈ l → f x = false.
Proof.
  unfold find_first. split.
  - intros Hn x Hx. destruct (f x) eqn:Hf; [|done].
    assert (x ∈ filter (fun y => f y = true) l) as Hin by by apply list_elem_of_filter.
    destruct (filter (fun y => f y = true) l); [by apply elem_of_nil in Hin|done].
  - intros Hl. destruct (filter (fun y => f y = true) l) as [|y k] eqn:E; [done|].
    assert (y ∈ filter (fun y => f y = true) l) as Hin by (rewrite E; set_solver).
    apply list_elem_of_filter in Hin as [Hy Hin]. rewrite (Hl y Hin) in Hy. done.
Qed.

Lemma min_hash_Some l m : min_hash l = Some m ↔ m ∈ l ∧ ∀ h, h ∈ l → cle m h.
Proof.
  revert m. induction l as [|x l IH]; intros m; simpl.
  { split; [done|]. intros [Hm%elem_of_nil _]. done. }
  setoid_rewrite elem_of_cons. destruct (min_hash l) as [y|] eqn:Hy.
  - destruct (proj1 (IH y) eq_refl) as [Hin Hmin].
    assert (∀ h, h = x ∨ h ∈ l → cle (if bool_decide (cle x y) then x else y) h) as Hle.
    { intros h [->|Hh]; case_bool_decide as Hxy; [done| |by transitivity y; auto|auto].
      by apply clt_cle, not_cle_clt. }
    split.
    + intros [= <-]. split; [case_bool_decide; auto|done].
    + intros [Hm Hmm]. f_equal. apply (anti_symm cle); [by apply Hle|]. apply Hmm. case_bool_decide; auto.
  - destruct l as [|z l]; [|simpl in Hy; by destruct (min_hash l)].
    split; [intros [= <-]; split; [auto|intros h [->|[]%elem_of_nil]; done]|].
    intros [[->|[]%elem_of_nil] _]. done.
Qed.

Lemma min_hash_None l : min_hash l = None ↔ l = [].
Proof. destruct l as [|x l]; simpl; [done|]. by destruct (min_hash l). Qed.

(** The winner of a slot: a pinned child if there is one, else the smallest hash. *)
Lemma slot_winner_Some pinned hashes h :
  slot_winner pinned hashes = Some h →
  h ∈ hashes ∧ (h ∈ pinned ∨ (∀ h', h' ∈ hashes → h' ∉ pinned ∧ cle h h')).
Proof.
  unfold slot_winner. destruct (find_first _ hashes) as [x|] eqn:E.
  - intros [= ->]. apply find_first_Some in E as [? ?%bool_decide_eq_true]. auto.
  - intros [Hin Hmin]%min_hash_Some. split; [done|]. right. intros h' Hh'. split; [|auto].
    apply (bool_decide_eq_false (h' ∈ pinned)). by eapply find_first_None in E.
Qed.

Lemma slot_winner_None pinned hashes : slot_winner pinned hashes = None ↔ hashes = [].
Proof.
  unfold slot_winner. destruct (find_first _ hashes) as [x|] eqn:E; [|apply min_hash_None].
  apply find_first_Some in E as [Hx _]. split; [done|]. intros ->. by apply elem_of_nil in Hx.
Qed.

(** At most one pinned child per slot makes the winner a function of the set of children. *)
Lemma slot_winner_ext pinned hashes hashes' :
  (∀ h, h ∈ hashes ↔ h ∈ hashes') →
  (∀ h h', h ∈ hashes → h' ∈ hashes → h ∈ pinned → h' ∈ pinned → h = h') →
  slot_winner pinned hashes = slot_winner pinned hashes'.
Proof.
  intros Hext Hone. destruct (slot_winner pinned hashes) as [h|] eqn:E.
  - destruct (slot_winner pinned hashes') as [h'|] eqn:E'.
    + apply slot_winner_Some in E as [Hh Hw], E' as [Hh' Hw']. f_equal. apply Hext in Hh'.
      destruct Hw as [Hp|Hmin], Hw' as [Hp'|Hmin'].
      * by apply Hone.
      * apply Hext in Hh. by destruct (Hmin' h Hh).
      * by destruct (Hmin h' Hh').
      * apply (anti_symm cle); [by apply Hmin|]. apply Hmin'. by apply Hext.
    + apply slot_winner_None in E' as ->. apply slot_winner_Some in E as [Hh _].
      apply Hext in Hh. by apply elem_of_nil in Hh.
  - apply slot_winner_None in E as ->. symmetry. apply slot_winner_None.
    destruct hashes' as [|x l]; [done|]. assert (x ∈ []) as []%elem_of_nil by (apply Hext; set_solver).
Qed.

(** ** The children of a parent slot *)

Section Children.
Context {H C : Type} `{ChainLink H C} `{Countable C}.
Implicit Types (E : list (Candidate H)) (chain : C) (parent : option AccountEntryHash).

(** The candidates that extend [parent] on [chain] at [slot]. *)
Definition extends chain parent (slot : Z) (c : Candidate H) : Prop :=
  coordinate (ca_header c) = chain ∧ link_prev_hash (ca_header c) = parent ∧
  link_seq (ca_header c) = slot.

Definition kids_of (children : BranchChildren C) chain parent (slot : Z) : list AccountEntryHash :=
  at_slot (default [] (children !! (chain, parent))) slot.

Lemma kids_of_push children c chain parent slot :
  kids_of (push_child children c) chain parent slot =
  kids_of children chain parent slot ++
  (if decide (coordinate (ca_header c) = chain ∧ link_prev_hash (ca_header c) = parent ∧
              link_seq (ca_header c) = slot) then [ca_entry_hash c] else []).
Proof.
  unfold kids_of, push_child. rewrite lookup_insert.
  destruct (decide ((coordinate (ca_header c), link_prev_hash (ca_header c)) = (chain, parent))) as [Heq|Hne].
  - injection Heq as <- <-. simpl. unfold at_slot. rewrite filter_app, fmap_app. f_equal.
    rewrite filter_cons, filter_nil. simpl. repeat case_decide; naive_solver.
  - rewrite decide_False by naive_solver. by rewrite app_nil_r.
Qed.

Lemma elem_of_kids E children0 chain parent slot h :
  h ∈ kids_of (foldl push_child children0 E) chain parent slot ↔
  h ∈ kids_of children0 chain parent slot ∨ ∃ c, c ∈ E ∧ extends chain parent slot c ∧ ca_entry_hash c = h.
Proof.
  revert children0. induction E as [|c E IH]; intros children0; simpl.
  { split; [auto|]. intros [?|(c & []%elem_of_nil & _)]. done. }
  rewrite IH, kids_of_push, elem_of_app. setoid_rewrite elem_of_cons. unfold extends.
  case_decide as Hc; split.
  - intros [[?| ->%list_elem_of_singleton]|(c' & ? & ? & ?)]; eauto 10.
  - intros [?|(c' & [->|?] & ? & <-)]; [auto|left; right; set_solver|eauto 10].
  - intros [[?|[]%elem_of_nil]|(c' & ? & ? & ?)]; eauto 10.
  - intros [?|(c' & [->|?] & ? & ?)]; [auto|done|eauto 10].
Qed.

Lemma elem_of_branch_kids candidates eligible chain parent slot h :
  h ∈ kids_of (branch_children candidates eligible) chain parent slot ↔
  ∃ c, c ∈ eligible_candidates candidates eligible ∧ extends chain parent slot c ∧ ca_entry_hash c = h.
Proof.
  unfold branch_children. rewrite elem_of_kids. split; [|auto].
  intros [Hh|?]; [|done]. unfold kids_of in Hh. rewrite lookup_empty in Hh. by apply elem_of_nil in Hh.
Qed.

Lemma bind_kids (children : BranchChildren C) chain parent slot pinned :
  (kids ← children !! (chain, parent); slot_winner pinned (at_slot kids slot)) =
  slot_winner pinned (kids_of children chain parent slot).
Proof. unfold kids_of. by destruct (children !! (chain, parent)). Qed.

(** ** The accepted chain *)

(** [hashes] is a hash-linked run of eligible entries on [chain], one per slot. *)
Inductive dense_chain E chain : Z → option AccountEntryHash → list AccountEntryHash → Prop :=
| dense_nil slot parent : dense_chain E chain slot parent []
| dense_cons slot parent c hashes :
    c ∈ E → extends chain parent slot c →
    dense_chain E chain (slot + 1) (Some (ca_entry_hash c)) hashes →
    dense_chain E chain slot parent (ca_entry_hash c :: hashes).

Lemma walk_slots_dense n candidates eligible chain pinned slot parent :
  dense_chain (eligible_candidates candidates eligible) chain slot parent
    (walk_slots n (branch_children candidates eligible) chain pinned slot parent).
Proof.
  revert slot parent. induction n as [|n IH]; intros slot parent; simpl; [constructor|].
  rewrite bind_kids. destruct (slot_winner _ _) as [h|] eqn:Hw; [|constructor].
  apply slot_winner_Some in Hw as [(c & Hc & Hx & <-)%elem_of_branch_kids _]. by constructor.
Qed.

(** The walk stops only where no eligible child is left, or after [n] slots. *)
Lemma walk_slots_maximal n candidates eligible chain pinned slot parent l :
  walk_slots n (branch_children candidates eligible) chain pinned slot parent = l →
  (length l < n)%nat →
  kids_of (branch_children candidates eligible) chain
    (match last l with Some h => Some h | None => parent end) (slot + len l) = [].
Proof.
  intros <-. revert slot parent. induction n as [|n IH]; intros slot parent Hlen; [simpl in Hlen; lia|].
  simpl in Hlen |- *. rewrite bind_kids in *.
  destruct (slot_winner pinned _) as [h|] eqn:Hw; simpl in Hlen.
  - rewrite last_cons, len_cons. specialize (IH (slot + 1) (Some h)).
    replace (slot + (1 + len (walk_slots n (branch_children candidates eligible) chain pinned (slot + 1) (Some h))))
      with (slot + 1 + len (walk_slots n (branch_children candidates eligible) chain pinned (slot + 1) (Some h)))
      by lia.
    rewrite <- IH by lia. by destruct (last _).
  - unfold len. simpl. rewrite Z.add_0_r. by apply slot_winner_None in Hw.
Qed.

Lemma dense_chain_seq E chain slot parent hashes h :
  dense_chain E chain slot parent hashes → h ∈ hashes →
  ∃ c, c ∈ E ∧ ca_entry_hash c = h ∧ coordinate (ca_header c) = chain ∧ slot ≤ link_seq (ca_header c).
Proof.
  induction 1 as [|slot parent c hashes Hc Hx Hd IH]; [by intros []%elem_of_nil|].
  intros [->|Hh]%elem_of_cons.
  - destruct Hx as (? & ? & ?). exists c. split_and!; try done. lia.
  - destruct (IH Hh) as (c' & ? & ? & ? & ?). exists c'. split_and!; try done. lia.
Qed.
End Children.

(** ** Rooted entries *)

Section Rooted.
Context {C : Type} `{Countable C}.
Context (chain : C) (children : BranchChildren C).
Implicit Types (h : AccountEntryHash) (R : gset AccountEntryHash)
  (frontier : list (option AccountEntryHash * Z)).

Local Abbreviation kids := (kids_of children chain).

(** [rooted h s]: [h] sits at slot [s] of a contiguous run from the root of the chain. *)
Inductive rooted : AccountEntryHash → Z → Prop :=
| rooted_origin h : h ∈ kids None 0 → rooted h 0
| rooted_next h s h' : rooted h s → s + 1 ≤ u64_max → h' ∈ kids (Some h) (s + 1) → rooted h' (s + 1).

(** The frontier positions the search may reach. *)
Definition reachable (q : option AccountEntryHash * Z) : Prop :=
  q = (None, 0) ∨ ∃ h s, rooted h s ∧ s + 1 ≤ u64_max ∧ q = (Some h, s + 1).

Lemma reachable_rooted q h : reachable q → h ∈ kids q.1 q.2 → rooted h q.2.
Proof.
  intros [->|(h' & s & Hr & Hs & ->)] Hh; [by apply rooted_origin|by eapply rooted_next].
Qed.

Lemma u64_next s n : u64_checked_add s 1 = Some n ↔ n = s + 1 ∧ s + 1 ≤ u64_max.
Proof. unfold u64_checked_add. case_bool_decide; naive_solver. Qed.

(** One popped position: its children become rooted, the new ones are queued. *)
Lemma root_step_spec hashes slot frontier R :
  let st := foldl (fun '(frontier, rooted) h =>
    if bool_decide (h ∈ rooted) then (frontier, rooted)
    else (match u64_checked_add slot 1 with
          | Some next => (Some h, next) :: frontier
          | None => frontier
          end, {[h]} ∪ rooted)) (frontier, R) hashes in
  st.2 = list_to_set hashes ∪ R ∧
  (∀ q, q ∈ st.1 ↔ q ∈ frontier ∨
     ∃ h, h ∈ hashes ∧ h ∉ R ∧ slot + 1 ≤ u64_max ∧ q = (Some h, slot + 1)) ∧
  (∀ U, list_to_set hashes ⊆ U →
     length st.1 + size (U ∖ st.2) ≤ length frontier + size (U ∖ R))%nat.
Proof.
  revert frontier R. induction hashes as [|x hashes IH]; intros frontier R; simpl.
  { split_and!; [set_solver| |lia]. intros q. split; [auto|]. intros [?|(h & []%elem_of_nil & _)]. done. }
  case_bool_decide as Hx.
  - destruct (IH frontier R) as (HR & Hq & Hm). simpl in *. split_and!.
    + rewrite HR. set_solver.
    + intros q. rewrite Hq. setoid_rewrite elem_of_cons. naive_solver.
    + intros U HU. apply Hm. set_solver.
  - set (fr := match u64_checked_add slot 1 with Some next => _ | None => _ end).
    destruct (IH fr ({[x]} ∪ R)) as (HR & Hq & Hm). simpl in *. split_and!.
    + rewrite HR. set_solver.
    + intros q. rewrite Hq. assert (q ∈ fr ↔ q ∈ frontier ∨ (slot + 1 ≤ u64_max ∧ q = (Some x, slot + 1))) as ->.
      { unfold fr. destruct (u64_checked_add slot 1) as [n|] eqn:E.
        - apply u64_next in E as [-> E]. rewrite elem_of_cons. naive_solver.
        - split; [auto|]. intros [?|[Hle _]]; [done|].
          rewrite (proj2 (u64_next slot (slot + 1))) in E; done. }
      setoid_rewrite elem_of_cons. setoid_rewrite elem_of_union. setoid_rewrite elem_of_singleton.
      split; [naive_solver|]. intros [?|(h & [->|Hh] & HhR & ? & ->)]; [auto|auto|].
      destruct (decide (h = x)) as [->|]; [auto|]. right. exists h. naive_solver.
    + intros U HU. specialize (Hm U ltac:(set_solver)). etrans; [exact Hm|].
      assert (size (U ∖ ({[x]} ∪ R)) + 1 ≤ size (U ∖ R))%nat as Hsz.
      { replace (U ∖ ({[x]} ∪ R)) with ((U ∖ R) ∖ {[x]}) by set_solver.
        rewrite size_difference by set_solver. rewrite size_singleton.
        assert (size ({[x]} : gset AccountEntryHash) ≤ size (U ∖ R))%nat as Hle by (apply subseteq_size; set_solver).
        rewrite size_singleton in Hle. lia. }
      unfold fr. destruct (u64_checked_add slot 1); simpl; lia.
Qed.

(** Each hash extends one parent at one slot, and the search starts from a set [R0] of
    other chains' entries. *)
Context (Hplace : ∀ h p s p' s', h ∈ kids p s → h ∈ kids p' s' → p = p' ∧ s = s').
Context (U R0 : gset AccountEntryHash).
Context (HU : ∀ h p s, h ∈ kids p s → h ∈ U) (HR0 : ∀ h p s, h ∈ kids p s → h ∉ R0).

Lemma rooted_kid h s : rooted h s → ∃ p, h ∈ kids p s.
Proof. intros []; eauto. Qed.

(** What the search maintains: it only roots rooted entries, only queues reachable
    positions, and every position it owes is queued or finished. *)
Record search_inv frontier R : Prop := {
  inv_R0 : R0 ⊆ R;
  inv_sound h : h ∈ R → h ∈ R0 ∨ ∃ s, rooted h s;
  inv_reach q : q ∈ frontier → reachable q;
  inv_root : (None, 0) ∈ frontier ∨ ∀ h, h ∈ kids None 0 → h ∈ R;
  inv_owed h s : h ∈ R → rooted h s → s + 1 ≤ u64_max →
    (Some h, s + 1) ∈ frontier ∨ ∀ h', h' ∈ kids (Some h) (s + 1) → h' ∈ R;
}.

Lemma search_inv_pop q frontier R frontier' R' :
  search_inv (q :: frontier) R →
  R' = list_to_set (kids q.1 q.2) ∪ R →
  (∀ q', q' ∈ frontier' ↔ q' ∈ frontier ∨
     ∃ h, h ∈ kids q.1 q.2 ∧ h ∉ R ∧ q.2 + 1 ≤ u64_max ∧ q' = (Some h, q.2 + 1)) →
  search_inv frontier' R'.
Proof using All.
  intros [HR Hs Hr Hroot Howed] -> Hq. assert (reachable q) as Hrq by (apply Hr; set_solver). split.
  - set_solver.
  - intros h [Hh|Hh]%elem_of_union; [|auto]. right. exists q.2.
    apply reachable_rooted; [done|]. by apply elem_of_list_to_set in Hh.
  - intros q' [Hq'|(h & Hh & _ & Hle & ->)]%Hq; [apply Hr; set_solver|].
    right. exists h, q.2. split_and!; [by apply reachable_rooted|done|done].
  - destruct Hroot as [[Heq|Hin]%elem_of_cons|Hdone].
    + right. intros h Hh. apply elem_of_union. left. apply elem_of_list_to_set. by rewrite <- Heq.
    + left. apply Hq. auto.
    + right. set_solver.
  - intros h s [Hh|Hh]%elem_of_union Hrt Hle.
    + apply elem_of_list_to_set in Hh. destruct (decide (h ∈ R)) as [HhR|HhR].
      * destruct (Howed h s HhR Hrt Hle) as [[Heq|Hin]%elem_of_cons|Hdone]; [|left; apply Hq; auto|right; set_solver].
        right. intros h' Hh'. apply elem_of_union. left. apply elem_of_list_to_set. by rewrite <- Heq.
      * left. apply Hq. right. destruct (rooted_kid h s Hrt) as [p Hp].
        destruct (Hplace _ _ _ _ _ Hh Hp) as [_ Heq]. exists h. rewrite <- Heq in Hle |- *. done.
    + destruct (Howed h s Hh Hrt Hle) as [[Heq|Hin]%elem_of_cons|Hdone]; [|left; apply Hq; auto|right; set_solver].
      right. intros h' Hh'. apply elem_of_union. left. apply elem_of_list_to_set. by rewrite <- Heq.
Qed.

Lemma collect_rooted_loop_spec fuel frontier R :
  search_inv frontier R → (length frontier + size (U ∖ R) ≤ fuel)%nat →
  ∃ R', collect_rooted_loop fuel chain children frontier R = Some R' ∧
        ∀ h, h ∈ R' ↔ h ∈ R0 ∨ ∃ s, rooted h s.
Proof using All.
  revert frontier R. induction fuel as [|fuel IH]; intros [|[p s] frontier] R Hinv Hfuel; simpl in Hfuel; try lia.
  1-2: exists R; split; [done|]; destruct Hinv as [HR Hs Hr Hroot Howed]; intros h; split; [auto|];
    intros [?|[s Hrt]]; [by apply HR|]; induction Hrt as [h Hh|h s h' Hrt IHr Hle Hh'];
    [destruct Hroot as [[]%elem_of_nil|Hdone]; auto|
     destruct (Howed h s IHr Hrt Hle) as [[]%elem_of_nil|Hdone]; auto].
  simpl. destruct (children !! (chain, p)) as [ks|] eqn:Hks.
  - destruct (root_step ks s (frontier, R)) as [frontier' R'] eqn:Hstep.
    assert (at_slot ks s = kids p s) as Hat by (unfold kids_of; by rewrite Hks).
    destruct (root_step_spec (at_slot ks s) s frontier R) as (HR' & Hq & Hm).
    fold (root_step ks s (frontier, R)) in HR', Hq, Hm. rewrite Hstep, Hat in *. simpl in *.
    apply IH; [eapply (search_inv_pop (p, s)); eauto|].
    etrans; [apply Hm|lia]. intros h Hh%elem_of_list_to_set. by eapply HU.
  - assert (kids p s = []) as Hnone by (unfold kids_of; by rewrite Hks).
    apply IH; [|lia]. eapply (search_inv_pop (p, s)); [done| |]; simpl; rewrite Hnone; [set_solver|].
    intros q'. split; [auto|]. intros [?|(h & []%elem_of_nil & _)]. done.
Qed.

Lemma collect_rooted_spec fuel :
  (S (size (U ∖ R0)) ≤ fuel)%nat →
  ∃ R', collect_rooted fuel chain children R0 = Some R' ∧
        ∀ h, h ∈ R' ↔ h ∈ R0 ∨ ∃ s, rooted h s.
Proof using All.
  intros Hfuel. apply collect_rooted_loop_spec; [|simpl; lia]. split.
  - done.
  - auto.
  - intros q ->%list_elem_of_singleton. by left.
  - left. set_solver.
  - intros h s Hh [p Hp]%rooted_kid _. by destruct (HR0 _ _ _ Hp).
Qed.
End Rooted.

(** ** The whole selection *)

Section Selection.
Context {H C : Type} `{ChainLink H C} `{Countable C}.
Implicit Types (candidates E : list (Candidate H)) (eligible : gset AccountEntryHash)
  (pins : C → gset AccountEntryHash) (chain : C) (h : AccountEntryHash).

(** Entry hashes are content addresses: no two candidates share one; [seq] is a [u64]. *)
Definition candidates_ok candidates : Prop :=
  NoDup (ca_entry_hash <$> candidates) ∧
  Forall (fun c => 0 ≤ link_seq (ca_header c) ≤ u64_max) candidates.

Definition winners candidates eligible pins chain : list AccountEntryHash :=
  walk_slots (length candidates) (branch_children candidates eligible) chain (pins chain) 0 None.

Definition rooted_in candidates eligible chain : AccountEntryHash → Z → Prop :=
  rooted chain (branch_children candidates eligible).

Lemma eligible_sub candidates eligible c :
  c ∈ eligible_candidates candidates eligible → c ∈ candidates.
Proof. by intros [_ ?]%list_elem_of_filter. Qed.

Lemma same_hash_same candidates c c' :
  NoDup (ca_entry_hash <$> candidates) → c ∈ candidates → c' ∈ candidates →
  ca_entry_hash c = ca_entry_hash c' → c = c'.
Proof.
  intros Hnd (i & Hi)%list_elem_of_lookup (j & Hj)%list_elem_of_lookup Heq.
  assert (i = j) as ->.
  { eapply (NoDup_lookup (ca_entry_hash <$> candidates) i j (ca_entry_hash c)); [done|..];
      rewrite list_lookup_fmap; [by rewrite Hi|rewrite Hj; simpl; by rewrite Heq]. }
  congruence.
Qed.

(** A hash extends one parent slot of one chain. *)
Lemma placed_once candidates eligible chain chain' p p' s s' h :
  candidates_ok candidates →
  h ∈ kids_of (branch_children candidates eligible) chain p s →
  h ∈ kids_of (branch_children candidates eligible) chain' p' s' →
  chain = chain' ∧ p = p' ∧ s = s'.
Proof.
  intros [Hnd _] (c & Hc & (? & ? & ?) & <-)%elem_of_branch_kids
    (c' & Hc' & (? & ? & ?) & Heq)%elem_of_branch_kids.
  apply (same_hash_same candidates) in Heq as ->; [naive_solver|done|by eapply eligible_sub..].
Qed.

Definition eligible_hashes candidates eligible : gset AccountEntryHash :=
  list_to_set (ca_entry_hash <$> eligible_candidates candidates eligible).

Lemma kids_eligible candidates eligible chain p s h :
  h ∈ kids_of (branch_children candidates eligible) chain p s → h ∈ eligible_hashes candidates eligible.
Proof.
  intros (c & Hc & _ & <-)%elem_of_branch_kids. apply elem_of_list_to_set, list_elem_of_fmap. eauto.
Qed.

Lemma size_eligible_hashes candidates eligible :
  (size (eligible_hashes candidates eligible) ≤ length candidates)%nat.
Proof.
  unfold eligible_hashes, eligible_candidates.
  pose proof (length_filter (fun c : Candidate H => ca_entry_hash c ∈ eligible) candidates) as Hf.
  etrans; [|exact Hf]. rewrite <- (length_fmap ca_entry_hash).
  induction (ca_entry_hash <$> _) as [|h l IH]; cbn [list_to_set foldr length]; [by rewrite size_empty|].
  rewrite size_union_alt, size_singleton. apply le_n_S. etrans; [|exact IH].
  apply subseteq_size. set_solver.
Qed.

Lemma select_chains_spec candidates eligible pins chains :
  candidates_ok candidates → NoDup chains →
  ∃ A R, select_chains candidates eligible pins chains = Some (A, R) ∧
    (∀ h, h ∈ A ↔ ∃ chain, chain ∈ chains ∧ h ∈ winners candidates eligible pins chain) ∧
    (∀ h, h ∈ R ↔ ∃ chain, chain ∈ chains ∧ ∃ s, rooted_in candidates eligible chain h s).
Proof.
  intros Hok. induction chains as [|chain chains IH] using rev_ind; intros Hnd.
  { exists ∅, ∅. split_and!; [done|set_solver|set_solver]. }
  apply NoDup_app in Hnd as (Hnd & Hdisj & _). destruct (IH Hnd) as (A & R & Hsel & HA & HR).
  unfold select_chains in *. rewrite foldl_snoc, Hsel. simpl.
  destruct (collect_rooted_spec chain (branch_children candidates eligible)
    ltac:(intros h p s p' s' Hp Hp'; by destruct (placed_once _ _ _ _ _ _ _ _ _ Hok Hp Hp') as (_ & ? & ?))
    (eligible_hashes candidates eligible) R) with (fuel := S (length candidates)) as (R' & Hrun & HR').
  - intros h p s. apply kids_eligible.
  - intros h p s Hp (chain' & Hc' & s' & Hr)%HR.
    apply rooted_kid in Hr as [p' Hp']. destruct (placed_once _ _ _ _ _ _ _ _ _ Hok Hp Hp') as (-> & _ & _).
    by apply (Hdisj chain' Hc'), list_elem_of_singleton.
  - apply le_n_S. etrans; [|apply (size_eligible_hashes candidates eligible)]. apply subseteq_size. set_solver.
  - rewrite Hrun. simpl. eexists _, _. split; [done|]. split; intros h.
    + rewrite elem_of_union, elem_of_list_to_set, HA. setoid_rewrite elem_of_app.
      setoid_rewrite list_elem_of_singleton. naive_solver.
    + rewrite HR', HR. setoid_rewrite elem_of_app. setoid_rewrite list_elem_of_singleton. naive_solver.
Qed.

Lemma winners_chain candidates eligible pins chain h :
  h ∈ winners candidates eligible pins chain → chain ∈ branch_chains candidates eligible.
Proof.
  intros Hh. destruct (dense_chain_seq _ _ _ _ _ _ (walk_slots_dense _ candidates eligible chain (pins chain) 0 None) Hh)
    as (c & Hc & _ & Hco & _).
  apply elem_of_list_to_set, list_elem_of_fmap. eauto.
Qed.

Lemma rooted_chain candidates eligible chain h s :
  rooted_in candidates eligible chain h s → chain ∈ branch_chains candidates eligible.
Proof.
  intros [p (c & Hc & (? & _) & _)%elem_of_branch_kids]%rooted_kid.
  apply elem_of_list_to_set, list_elem_of_fmap. eauto.
Qed.

(** A dense run from a rooted parent is rooted. *)
Lemma dense_rooted candidates eligible chain slot parent l h :
  Forall (fun c => 0 ≤ link_seq (ca_header c) ≤ u64_max) candidates →
  dense_chain (eligible_candidates candidates eligible) chain slot parent l →
  match parent with
  | Some p => rooted_in candidates eligible chain p (slot - 1)
  | None => slot = 0
  end →
  h ∈ l → ∃ s, rooted_in candidates eligible chain h s.
Proof.
  intros Hseq. induction 1 as [|slot parent c l Hc Hx Hd IH]; intros Hp; [by intros []%elem_of_nil|].
  assert (rooted_in candidates eligible chain (ca_entry_hash c) slot) as Hr.
  { assert (ca_entry_hash c ∈ kids_of (branch_children candidates eligible) chain parent slot) as Hk
      by (apply elem_of_branch_kids; eauto).
    destruct parent as [p|]; [|subst; by apply rooted_origin].
    replace slot with (slot - 1 + 1) in Hk |- * by lia. eapply rooted_next; [exact Hp| |exact Hk].
    rewrite Forall_forall in Hseq. destruct Hx as (_ & _ & Hs). apply eligible_sub, Hseq in Hc. lia. }
  intros [->|Hh]%elem_of_cons; [by exists slot|]. apply IH; [|done]. by replace (slot + 1 - 1) with slot by lia.
Qed.

Lemma winners_rooted candidates eligible pins chain h :
  candidates_ok candidates → h ∈ winners candidates eligible pins chain →
  ∃ s, rooted_in candidates eligible chain h s.
Proof. intros [_ Hseq]. eapply dense_rooted; [done|apply walk_slots_dense|done]. Qed.

(** What [select_accepted_branch] returns. *)
Lemma select_spec candidates eligible pins :
  candidates_ok candidates →
  ∃ sel, select_accepted_branch candidates eligible pins = Some sel ∧
    (∀ h, h ∈ bs_accepted sel ↔ ∃ chain, h ∈ winners candidates eligible pins chain) ∧
    (∀ h, h ∈ bs_accepted sel ∨ h ∈ bs_forked sel ↔ ∃ chain s, rooted_in candidates eligible chain h s) ∧
    bs_accepted sel ## bs_forked sel.
Proof.
  intros Hok. destruct (select_chains_spec candidates eligible pins
    (elements (branch_chains candidates eligible)) Hok (NoDup_elements _)) as (A & R & Hsel & HA & HR).
  unfold select_accepted_branch. rewrite Hsel. simpl. eexists. split; [done|]. simpl.
  assert (∀ h, h ∈ A ↔ ∃ chain, h ∈ winners candidates eligible pins chain) as HA'.
  { intros h. rewrite HA. setoid_rewrite elem_of_elements. split; [naive_solver|].
    intros [chain Hh]. exists chain. split; [by eapply winners_chain|done]. }
  assert (∀ h, h ∈ R ↔ ∃ chain s, rooted_in candidates eligible chain h s) as HR'.
  { intros h. rewrite HR. setoid_rewrite elem_of_elements. split; [naive_solver|].
    intros (chain & s & Hh). exists chain. split; [by eapply rooted_chain|eauto]. }
  split_and!; [done| |set_solver]. intros h. rewrite <- HR', elem_of_difference. split.
  - intros [Hh|[Hh _]]; [|done]. apply HA' in Hh as [chain Hh]. apply HR'. exists chain.
    by eapply winners_rooted.
  - intros Hh. destruct (decide (h ∈ A)); auto.
Qed.

(** Slots of a dense run are distinct, so its hashes are. *)
Lemma dense_NoDup candidates eligible chain slot parent l :
  candidates_ok candidates →
  dense_chain (eligible_candidates candidates eligible) chain slot parent l → NoDup l.
Proof.
  intros [Hnd _]. induction 1 as [|slot parent c l Hc Hx Hd IH]; constructor; [|done].
  intros Hin. destruct (dense_chain_seq _ _ _ _ _ _ Hd Hin) as (c' & Hc' & Heq & _ & Hle).
  apply (same_hash_same candidates) in Heq as ->; [|done|by eapply eligible_sub..].
  destruct Hx as (_ & _ & ?). lia.
Qed.

Lemma dense_length candidates eligible chain slot parent l :
  candidates_ok candidates →
  dense_chain (eligible_candidates candidates eligible) chain slot parent l →
  (length l ≤ length candidates)%nat.
Proof.
  intros Hok Hd. rewrite <- (length_fmap ca_entry_hash candidates).
  apply submseteq_length, NoDup_submseteq; [by eapply dense_NoDup|].
  intros h Hh. destruct (dense_chain_seq _ _ _ _ _ _ Hd Hh) as (c & Hc & <- & _).
  apply list_elem_of_fmap. eauto using eligible_sub.
Qed.

Lemma dense_snoc E chain slot parent l c :
  dense_chain E chain slot parent l → c ∈ E →
  extends chain (match last l with Some h => Some h | None => parent end) (slot + len l) c →
  dense_chain E chain slot parent (l ++ [ca_entry_hash c]).
Proof.
  induction 1 as [|slot parent c' l Hc' Hx Hd IH]; intros Hc Hext; simpl.
  - unfold len in Hext. simpl in Hext. rewrite Z.add_0_r in Hext. constructor; [done|done|constructor].
  - constructor; [done|done|]. apply IH; [done|]. rewrite last_cons, len_cons in Hext.
    replace (slot + 1 + len l) with (slot + (1 + len l)) by lia. by destruct (last l).
Qed.

(** The slot loop never runs out of slots before the chain ends. *)
Lemma winners_maximal candidates eligible pins chain :
  candidates_ok candidates →
  let l := winners candidates eligible pins chain in
  kids_of (branch_children candidates eligible) chain (last l) (len l) = [].
Proof.
  intros Hok l. pose proof (walk_slots_dense (length candidates) candidates eligible chain (pins chain) 0 None) as Hd.
  fold (winners candidates eligible pins chain) in Hd. fold l in Hd.
  destruct (kids_of _ chain (last l) (len l)) as [|h ks] eqn:Hk; [done|exfalso].
  assert (h ∈ kids_of (branch_children candidates eligible) chain (last l) (len l)) as Hh by (rewrite Hk; set_solver).
  apply elem_of_branch_kids in Hh as (c & Hc & Hx & _).
  assert (dense_chain (eligible_candidates candidates eligible) chain 0 None (l ++ [ca_entry_hash c])) as Hd'.
  { apply dense_snoc; [done|done|]. by destruct (last l). }
  apply (dense_length candidates) in Hd'; [|done]. rewrite length_app in Hd'. simpl in Hd'.
  assert (length l < length candidates)%nat as Hlt by lia.
  apply (walk_slots_maximal _ _ _ _ _ _ _ l eq_refl) in Hlt.
  assert (match last l with Some h => Some h | None => None end = last l) as Hl by by destruct (last l).
  rewrite Hl, Z.add_0_l, Hk in Hlt. done.
Qed.

(** An accepted entry of a chain won a slot of that chain. *)
Lemma accepted_on_chain candidates eligible pins c :
  candidates_ok candidates → c ∈ eligible_candidates candidates eligible →
  (∃ chain, ca_entry_hash c ∈ winners candidates eligible pins chain) →
  ca_entry_hash c ∈ winners candidates eligible pins (coordinate (ca_header c)).
Proof.
  intros [Hnd _] Hc [chain Hh].
  destruct (dense_chain_seq _ _ _ _ _ _ (walk_slots_dense _ candidates eligible chain (pins chain) 0 None) Hh)
    as (c' & Hc' & Heq & Hco & _).
  apply (same_hash_same candidates) in Heq as ->; [by rewrite Hco|done|by eapply eligible_sub..].
Qed.

(** A chain has at most one pinned child per parent slot. *)
Definition pins_functional candidates eligible pins : Prop :=
  ∀ chain p s h h', h ∈ kids_of (branch_children candidates eligible) chain p s →
    h' ∈ kids_of (branch_children candidates eligible) chain p s →
    h ∈ pins chain → h' ∈ pins chain → h = h'.

Lemma candidates_ok_perm candidates candidates' :
  candidates ≡ₚ candidates' → candidates_ok candidates → candidates_ok candidates'.
Proof. intros Hperm [Hnd Hseq]. split; by rewrite <- Hperm. Qed.

Lemma kids_perm candidates candidates' eligible chain p s h :
  candidates ≡ₚ candidates' →
  h ∈ kids_of (branch_children candidates eligible) chain p s ↔
  h ∈ kids_of (branch_children candidates' eligible) chain p s.
Proof.
  intros Hperm. rewrite !elem_of_branch_kids. unfold eligible_candidates.
  setoid_rewrite list_elem_of_filter. by setoid_rewrite Hperm.
Qed.

Lemma rooted_perm candidates candidates' eligible chain h s :
  candidates ≡ₚ candidates' →
  rooted_in candidates eligible chain h s ↔ rooted_in candidates' eligible chain h s.
Proof.
  intros Hperm. split; induction 1 as [h Hh|h s h' Hr IH Hle Hh'];
    [apply rooted_origin|eapply rooted_next; [done|done|]
    |apply rooted_origin|eapply rooted_next; [done|done|]];
    (eapply kids_perm; [|done]); done.
Qed.

Lemma walk_slots_ext n candidates candidates' eligible pins chain slot parent :
  candidates ≡ₚ candidates' → pins_functional candidates eligible pins →
  walk_slots n (branch_children candidates eligible) chain (pins chain) slot parent =
  walk_slots n (branch_children candidates' eligible) chain (pins chain) slot parent.
Proof.
  intros Hperm Hpins. revert slot parent. induction n as [|n IH]; intros slot parent; [done|].
  simpl. rewrite !bind_kids. 
  rewrite (slot_winner_ext _ _ (kids_of (branch_children candidates' eligible) chain parent slot));
    [|intros h; by apply kids_perm|intros h h'; apply Hpins].
  destruct (slot_winner _ _); [|done]. by rewrite IH.
Qed.

(** A pinned run from the root wins all its slots. *)
Lemma walk_slots_pinned n candidates eligible pins chain slot parent l :
  pins_functional candidates eligible pins →
  dense_chain (eligible_candidates candidates eligible) chain slot parent l →
  Forall (fun h => h ∈ pins chain) l → (length l ≤ n)%nat →
  l `prefix_of` walk_slots n (branch_children candidates eligible) chain (pins chain) slot parent.
Proof.
  intros Hpins Hd. revert n. induction Hd as [|slot parent c l Hc Hx Hd IH]; intros n Hl Hn; [apply prefix_nil|].
  destruct n as [|n]; [simpl in Hn; lia|]. apply Forall_cons in Hl as [Hpin Hl]. simpl. rewrite bind_kids.
  assert (ca_entry_hash c ∈ kids_of (branch_children candidates eligible) chain parent slot) as Hk
    by (apply elem_of_branch_kids; eauto).
  destruct (slot_winner _ _) as [h|] eqn:Hw.
  - apply slot_winner_Some in Hw as [Hh [Hp|Hnone]]; [|by destruct (Hnone _ Hk)].
    rewrite (Hpins _ _ _ _ _ Hk Hh Hpin Hp) in *. apply prefix_cons, IH; [done|simpl in Hn; lia].
  - apply slot_winner_None in Hw. rewrite Hw in Hk. by apply elem_of_nil in Hk.
Qed.

(** A winner beats its siblings: it is pinned, or none of them is and it has the smallest
    hash. *)
Lemma walk_slots_beats n candidates eligible pins chain slot parent c c' :
  candidates_ok candidates →
  c ∈ eligible_candidates candidates eligible → c' ∈ eligible_candidates candidates eligible →
  ca_entry_hash c ∈ walk_slots n (branch_children candidates eligible) chain (pins chain) slot parent →
  extends (coordinate (ca_header c)) (link_prev_hash (ca_header c)) (link_seq (ca_header c)) c' →
  ca_entry_hash c ∈ pins chain ∨ (ca_entry_hash c' ∉ pins chain ∧ cle (ca_entry_hash c) (ca_entry_hash c')).
Proof.
  intros Hok Hc Hc'. revert slot parent. induction n as [|n IH]; intros slot parent; [by intros []%elem_of_nil|].
  simpl. rewrite bind_kids. destruct (slot_winner _ _) as [h|] eqn:Hw; [|by intros []%elem_of_nil].
  intros [<-|Hin]%elem_of_cons Hx; [|by eapply IH].
  apply slot_winner_Some in Hw as [Hk [Hp|Hmin]]; [by left|right].
  apply Hmin. apply elem_of_branch_kids in Hk as (d & Hd & Hdx & Heq).
  apply (same_hash_same candidates) in Heq as ->; [|apply Hok|by eapply eligible_sub..].
  destruct Hdx as (<- & <- & <-). apply elem_of_branch_kids. eauto.
Qed.
End Selection.

(** ** Properties of selection *)

Section SelectionProperties.
Context {H C : Type} `{ChainLink H C} `{Countable C}.

(** C35.  The accepted entries of a coordinate are one hash-linked chain: dense from slot 0
    with each entry naming the previous winner, without repetition, and maximal (no
    eligible entry extends its end), and the selection always terminates. *)
Theorem accepted_is_one_chain (candidates : list (Candidate H)) eligible pins :
  candidates_ok candidates →
  ∃ sel, select_accepted_branch candidates eligible pins = Some sel ∧
  ∀ chain, ∃ l,
    dense_chain (eligible_candidates candidates eligible) chain 0 None l ∧ NoDup l ∧
    (∀ c, c ∈ eligible_candidates candidates eligible → coordinate (ca_header c) = chain →
       ca_entry_hash c ∈ bs_accepted sel ↔ ca_entry_hash c ∈ l) ∧
    (∀ c, c ∈ eligible_candidates candidates eligible → ¬ extends chain (last l) (len l) c).
Proof.
  intros Hok. destruct (select_spec candidates eligible pins Hok) as (sel & Hsel & HA & _ & _).
  exists sel. split; [done|]. intros chain. exists (winners candidates eligible pins chain).
  pose proof (walk_slots_dense (length candidates) candidates eligible chain (pins chain) 0 None) as Hd.
  split_and!; [done|by eapply dense_NoDup| |].
  - intros c Hc <-. rewrite HA. split; [by apply accepted_on_chain|eauto].
  - intros c Hc Hx. pose proof (winners_maximal candidates eligible pins chain Hok) as Hmax. simpl in Hmax.
    assert (ca_entry_hash c ∈ kids_of (branch_children candidates eligible) chain
      (last (winners candidates eligible pins chain)) (len (winners candidates eligible pins chain))) as Hk
      by (apply elem_of_branch_kids; eauto).
    rewrite Hmax in Hk. by apply elem_of_nil in Hk.
Qed.

(** Accepted and forked are disjoint and together are exactly the eligible entries
    that reach their chain's root through contiguous held entries; an entry stranded above
    a gap is in neither. *)
Theorem forked_is_rooted_minus_accepted (candidates : list (Candidate H)) eligible pins sel h :
  candidates_ok candidates → select_accepted_branch candidates eligible pins = Some sel →
  (h ∈ bs_accepted sel ∨ h ∈ bs_forked sel ↔ ∃ chain s, rooted_in candidates eligible chain h s) ∧
  ¬ (h ∈ bs_accepted sel ∧ h ∈ bs_forked sel).
Proof.
  intros Hok Hsel. destruct (select_spec candidates eligible pins Hok) as (sel' & Hsel' & _ & HR & Hd).
  assert (sel' = sel) as -> by congruence. split; [apply HR|set_solver].
Qed.

(** Selection converges: peers that hold the same candidates in any order select the
    same accepted and forked sets, provided a pinned branch has one entry per slot. *)
Lemma selection_order_independent (candidates candidates' : list (Candidate H)) eligible pins :
  candidates_ok candidates → pins_functional candidates eligible pins → candidates ≡ₚ candidates' →
  select_accepted_branch candidates eligible pins = select_accepted_branch candidates' eligible pins.
Proof.
  intros Hok Hpins Hperm. assert (candidates_ok candidates') as Hok' by by apply (candidates_ok_perm candidates).
  destruct (select_spec candidates eligible pins Hok) as (sel & Hsel & HA & HR & Hd).
  destruct (select_spec candidates' eligible pins Hok') as (sel' & Hsel' & HA' & HR' & Hd').
  rewrite Hsel, Hsel'. f_equal.
  assert (bs_accepted sel = bs_accepted sel') as Hacc.
  { apply set_eq. intros h. rewrite HA, HA'. unfold winners.
    rewrite (Permutation_length Hperm).
    by setoid_rewrite (walk_slots_ext _ candidates candidates' eligible pins _ _ _ Hperm Hpins). }
  assert (∀ h, h ∈ bs_accepted sel ∨ h ∈ bs_forked sel ↔ h ∈ bs_accepted sel' ∨ h ∈ bs_forked sel') as Hall.
  { intros h. rewrite HR, HR'. by setoid_rewrite (rooted_perm candidates candidates' eligible _ _ _ Hperm). }
  destruct sel as [A F], sel' as [A' F']. simpl in *. subst A'. f_equal. apply set_eq. intros h.
  specialize (Hall h). split; intros Hh.
  - destruct (proj1 Hall (or_intror Hh)) as [?|?]; [set_solver|done].
  - destruct (proj2 Hall (or_intror Hh)) as [?|?]; [set_solver|done].
Qed.

(** A register decides its chain: every entry of a pinned, eligible run from the root
    is accepted, whatever hashes compete with it; and between unpinned siblings the
    smallest hash wins. *)
Theorem pinned_branch_wins (candidates : list (Candidate H)) eligible pins sel chain l :
  candidates_ok candidates → pins_functional candidates eligible pins →
  select_accepted_branch candidates eligible pins = Some sel →
  dense_chain (eligible_candidates candidates eligible) chain 0 None l →
  Forall (fun h => h ∈ pins chain) l →
  Forall (fun h => h ∈ bs_accepted sel) l ∧
  (∀ c c', c ∈ eligible_candidates candidates eligible → c' ∈ eligible_candidates candidates eligible →
     ca_entry_hash c ∈ bs_accepted sel →
     extends (coordinate (ca_header c)) (link_prev_hash (ca_header c)) (link_seq (ca_header c)) c' →
     ca_entry_hash c ∈ pins (coordinate (ca_header c)) ∨
     (ca_entry_hash c' ∉ pins (coordinate (ca_header c)) ∧ cle (ca_entry_hash c) (ca_entry_hash c'))).
Proof.
  intros Hok Hpins Hsel Hd Hl. destruct (select_spec candidates eligible pins Hok) as (sel' & Hsel' & HA & _ & _).
  assert (sel' = sel) as -> by congruence. split.
  - apply Forall_forall. intros h Hh. apply HA. exists chain.
    assert (l `prefix_of` winners candidates eligible pins chain) as Hpre.
    { eapply walk_slots_pinned; [done|done|done|]. by eapply dense_length. }
    eapply elem_of_prefix; done.
  - intros c c' Hc Hc' Hacc Hx. apply HA, (accepted_on_chain candidates) in Hacc; [|done|done].
    by eapply walk_slots_beats.
Qed.
End SelectionProperties.

(** ** What a backward walk visits *)

Section WalkSpec.
Context {H C : Type} `{ChainLink H C} `{EqDecision C}.
Context (view : gmap AccountEntryHash H).
Implicit Types (chain : C) (h p : AccountEntryHash).

(** [walks chain h l e]: from [h] the valid links of [chain] lead through [l] and then end
    as [e] says. *)
Inductive walks chain : AccountEntryHash → list AccountEntryHash → WalkEnd → Prop :=
| walks_missing h : view !! h = None → walks chain h [] MissingLink
| walks_foreign h hd : view !! h = Some hd → coordinate hd ≠ chain → walks chain h [] ForgedLink
| walks_origin h hd :
    view !! h = Some hd → coordinate hd = chain → link_prev_hash hd = None → walks chain h [h] Origin
| walks_forged h hd p hp :
    view !! h = Some hd → coordinate hd = chain → link_prev_hash hd = Some p → view !! p = Some hp →
    u64_checked_add (link_seq hp) 1 ≠ Some (link_seq hd) → walks chain h [h] ForgedLink
| walks_step h hd p l e :
    view !! h = Some hd → coordinate hd = chain → link_prev_hash hd = Some p →
    (∀ hp, view !! p = Some hp → u64_checked_add (link_seq hp) 1 = Some (link_seq hd)) →
    walks chain p l e → walks chain h (h :: l) e.

(** [seq] is a [u64]. *)
Definition view_ok : Prop := ∀ h hd, view !! h = Some hd → 0 ≤ link_seq hd ≤ u64_max.

Lemma walks_exists chain h : view_ok → ∃ l e, walks chain h l e.
Proof.
  intros Hok. destruct (view !! h) as [hd|] eqn:Hh; [|by eexists _, _; apply walks_missing].
  pose proof (Hok h hd Hh) as Hseq. remember (Z.to_nat (link_seq hd)) as n eqn:Hn.
  revert h hd Hh Hseq Hn. induction n as [n IH] using lt_wf_ind. intros h hd Hh Hseq Hn.
  destruct (decide (coordinate hd = chain)) as [Hco|Hco]; [|by eexists _, _; eapply walks_foreign].
  destruct (link_prev_hash hd) as [p|] eqn:Hp; [|by eexists _, _; eapply walks_origin].
  destruct (view !! p) as [hp|] eqn:Hvp.
  - destruct (decide (u64_checked_add (link_seq hp) 1 = Some (link_seq hd))) as [Hs|Hs];
      [|by eexists _, _; eapply walks_forged].
    pose proof (Hok p hp Hvp) as Hseq'. pose proof Hs as [Heq _]%u64_next.
    destruct (IH (Z.to_nat (link_seq hp)) ltac:(lia) p hp Hvp Hseq' eq_refl) as (l & e & Hw).
    exists (h :: l), e. eapply walks_step; try done. intros hp' Hhp'. congruence.
  - exists [h], MissingLink. eapply walks_step; try done; [congruence|]. by apply walks_missing.
Qed.

Lemma walks_det chain h l e l' e' : walks chain h l e → walks chain h l' e' → l = l' ∧ e = e'.
Proof.
  intros Hw. revert l' e'. induction Hw as [h Hh|h hd Hh Hc|h hd Hh Hc Hp|h hd p hp Hh Hc Hp Hv Hs|h hd p l e Hh Hc Hp Hs Hw IH];
    intros l' e' Hw'; destruct Hw'; simplify_eq; try done.
  - match goal with H : ∀ hp, _ |- _ => specialize (H hp Hv); congruence end.
  - match goal with H : view !! p = Some _ |- _ => apply Hs in H; congruence end.
  - destruct (IH _ _ Hw') as [-> ->]. done.
Qed.

(** Visited entries are held, on the chain, and of descending slots. *)
Lemma walks_elem chain h l e :
  walks chain h l e →
  ∀ h', h' ∈ l → ∃ hd', view !! h' = Some hd' ∧ coordinate hd' = chain ∧
    (∀ hd, view !! h = Some hd → link_seq hd' ≤ link_seq hd).
Proof.
  induction 1 as [h Hh|h hd Hh Hc|h hd Hh Hc Hp|h hd p hp Hh Hc Hp Hv Hs|h hd p l e Hh Hc Hp Hs Hw IH];
    intros h' Hh'; try (by apply elem_of_nil in Hh').
  - apply list_elem_of_singleton in Hh' as ->. exists hd. split_and!; [done|done|]. intros. simplify_eq. lia.
  - apply list_elem_of_singleton in Hh' as ->. exists hd. split_and!; [done|done|]. intros. simplify_eq. lia.
  - apply elem_of_cons in Hh' as [->|Hh'].
    { exists hd. split_and!; [done|done|]. intros. simplify_eq. lia. }
    destruct (IH h' Hh') as (hd' & Hv' & Hc' & Hle). exists hd'. split_and!; [done|done|].
    intros hd0 Hhd0. simplify_eq. destruct (view !! p) as [hp|] eqn:Hvp.
    + specialize (Hle hp eq_refl). specialize (Hs hp eq_refl). apply u64_next in Hs as [-> _]. lia.
    + inversion Hw; simplify_eq. by apply elem_of_nil in Hh'.
Qed.

Lemma walks_NoDup chain h l e : walks chain h l e → NoDup l.
Proof.
  induction 1 as [h Hh|h hd Hh Hc|h hd Hh Hc Hp|h hd p hp Hh Hc Hp Hv Hs|h hd p l e Hh Hc Hp Hs Hw IH];
    try apply NoDup_nil_2; try apply NoDup_singleton.
  constructor; [|done]. intros Hin. destruct (walks_elem _ _ _ _ Hw h Hin) as (hd' & Hv' & _ & Hle).
  simplify_eq. destruct (view !! p) as [hp|] eqn:Hvp.
  - specialize (Hle hp eq_refl). specialize (Hs hp eq_refl). apply u64_next in Hs as [Hs _]. lia.
  - inversion Hw; simplify_eq. by apply elem_of_nil in Hin.
Qed.

Lemma walks_length chain h l e : walks chain h l e → (length l ≤ size view)%nat.
Proof.
  intros Hw. rewrite <- (size_dom view). etrans; [|apply (subseteq_size (list_to_set l))].
  - rewrite size_list_to_set by by eapply walks_NoDup. done.
  - intros h' Hh'%elem_of_list_to_set. destruct (walks_elem _ _ _ _ Hw h' Hh') as (hd & ? & _).
    by eapply elem_of_dom_2.
Qed.

Context {S : Type} (visit : S → AccountEntryHash → H → S * bool).

(** The visitor over a list of held entries, until it breaks. *)
Fixpoint visit_list (st : S) (l : list AccountEntryHash) : S * bool :=
  match l with
  | [] => (st, false)
  | h :: l =>
      match view !! h with
      | None => (st, false)
      | Some hd => let '(st, stop) := visit st h hd in if stop then (st, true) else visit_list st l
      end
  end.

Lemma walk_loop_walks chain h l e fuel visited st :
  walks chain h l e → (length l < fuel)%nat → (∀ h', h' ∈ l → h' ∉ visited) →
  walk_loop fuel chain (fun h => view !! h) visit visited h st =
  Some (let '(st', stop) := visit_list st l in (if stop then Stopped else e, st')).
Proof.
  intros Hw. revert fuel visited st. induction Hw as
    [h Hh|h hd Hh Hc|h hd Hh Hc Hp|h hd p hp Hh Hc Hp Hv Hs|h hd p l e Hh Hc Hp Hs Hw IH];
    intros [|fuel] visited st Hf Hvis; simpl in Hf; try lia; simpl; rewrite Hh.
  - done.
  - by rewrite bool_decide_true.
  - rewrite bool_decide_false by naive_solver. destruct (visit st h hd) as [st' []]; [done|].
    rewrite bool_decide_false by set_solver. by rewrite Hp.
  - rewrite bool_decide_false by naive_solver. destruct (visit st h hd) as [st' []]; [done|].
    rewrite bool_decide_false by set_solver. by rewrite Hp, Hv, bool_decide_true.
  - rewrite bool_decide_false by naive_solver. destruct (visit st h hd) as [st' []]; [done|].
    rewrite bool_decide_false by set_solver. rewrite Hp.
    assert (match view !! p with
            | Some hp => bool_decide (u64_checked_add (link_seq hp) 1 ≠ Some (link_seq hd))
            | None => false end = false) as ->.
    { destruct (view !! p) as [hp|] eqn:Hvp; [|done]. apply bool_decide_eq_false.
      rewrite (Hs hp eq_refl). naive_solver. }
    apply IH; [lia|]. intros h' Hh'. apply not_elem_of_union. split; [|set_solver].
    intros ->%elem_of_singleton. assert (NoDup (h :: l)) as [Hni _]%NoDup_cons; [|done].
    eapply walks_NoDup, walks_step; done.
Qed.

Lemma walk_back_spec h st :
  view_ok →
  ∃ l e, (∀ hd, view !! h = Some hd → walks (coordinate hd) h l e) ∧
         (view !! h = None → l = [] ∧ e = MissingLink) ∧
         walk_back (Datatypes.S (size view)) h (fun h => view !! h) visit st =
         Some (let '(st', stop) := visit_list st l in (if stop then Stopped else e, st')).
Proof.
  intros Hok. unfold walk_back. destruct (view !! h) as [hd|] eqn:Hh.
  - destruct (walks_exists (coordinate hd) h Hok) as (l & e & Hw). exists l, e.
    split_and!; [intros; by simplify_eq|done|]. apply walk_loop_walks; [done| |set_solver].
    pose proof (walks_length _ _ _ _ Hw). lia.
  - exists [], MissingLink. done.
Qed.
End WalkSpec.

(** ** Pins *)

Section PinSpec.
Context {H C : Type} `{ChainLink H C} `{Countable C}.
Implicit Types (pins : list (BranchPin C)) (p q : BranchPin C).

Definition pin_key (p : BranchPin C) : Z * AccountEntryHash := (bp_seq p, bp_watermark p).

Lemma max_pin_Some pins p :
  max_pin pins = Some p → p ∈ pins ∧ ∀ q, q ∈ pins → cle (pin_key q) (pin_key p).
Proof.
  revert p. induction pins as [|x pins IH]; intros p Hp; simpl in Hp; [done|].
  destruct (max_pin pins) as [q|] eqn:Hq.
  - destruct (IH q eq_refl) as [Hin Hmax]. injection Hp as <-. case_bool_decide as Hlt.
    + split; [set_solver|]. intros r [->|Hr]%elem_of_cons; [done|]. transitivity (pin_key q); [auto|].
      by apply clt_cle.
    + split; [set_solver|]. intros r [->|Hr]%elem_of_cons; [|auto].
      destruct (total cle (pin_key x) (pin_key q)) as [?|Hle]; [done|].
      apply cle_lt_eq in Hle as [Hlt'|Heq]; [by destruct Hlt|]. by rewrite Heq.
  - injection Hp as <-. split; [set_solver|]. intros r [->|Hr]%elem_of_cons; [done|].
    destruct pins as [|y pins]; [by apply elem_of_nil in Hr|]. simpl in Hq. by destruct (max_pin pins).
Qed.

Lemma max_pin_None pins : max_pin pins = None ↔ pins = [].
Proof. destruct pins as [|x pins]; simpl; [done|]. by destruct (max_pin pins). Qed.

Lemma max_pin_watermark pins pins' :
  pins ≡ₚ pins' → bp_watermark <$> max_pin pins = bp_watermark <$> max_pin pins'.
Proof.
  intros Hperm. destruct (max_pin pins) as [p|] eqn:Hp, (max_pin pins') as [p'|] eqn:Hp'; simpl.
  - apply max_pin_Some in Hp as [Hin Hmax], Hp' as [Hin' Hmax'].
    assert (pin_key p = pin_key p') as Heq.
    { apply (anti_symm cle); [apply Hmax'|apply Hmax]; [by rewrite <- Hperm|by rewrite Hperm]. }
    unfold pin_key in Heq. congruence.
  - apply max_pin_None in Hp' as ->. apply Permutation_length in Hperm. by destruct pins.
  - apply max_pin_None in Hp as ->. apply Permutation_length in Hperm. by destruct pins'.
  - done.
Qed.

Lemma visit_collect (view : gmap AccountEntryHash H) (l : list AccountEntryHash) (st : gset AccountEntryHash) :
  (∀ h, h ∈ l → is_Some (view !! h)) →
  visit_list view (fun branch hash _ => ({[hash]} ∪ branch, false)) st l = (list_to_set l ∪ st, false).
Proof.
  revert st. induction l as [|h l IH]; intros st Hl; simpl; [f_equal; set_solver|].
  destruct (Hl h) as [hd ->]; [set_solver|]. rewrite IH by set_solver. f_equal. set_solver.
Qed.

Lemma walks_head (view : gmap AccountEntryHash H) chain h l e :
  walks view chain h l e → l = [] ∨ h ∈ l.
Proof. intros []; try (by left); right; set_solver. Qed.

(** Two visited entries of one slot are the same entry. *)
Lemma walks_seq_inj (view : gmap AccountEntryHash H) chain h l e a b ha hb :
  walks view chain h l e → a ∈ l → b ∈ l → view !! a = Some ha → view !! b = Some hb →
  link_seq ha = link_seq hb → a = b.
Proof.
  induction 1 as [h Hh|h hd Hh Hc|h hd Hh Hc Hp|h hd p hp Hh Hc Hp Hv Hs|h hd p l e Hh Hc Hp Hs Hw IH];
    intros Ha Hb Hva Hvb Hseq; try (by apply elem_of_nil in Ha);
    try (apply list_elem_of_singleton in Ha as ->; by apply list_elem_of_singleton in Hb as ->).
  assert (∀ x hx, x ∈ l → view !! x = Some hx → link_seq hx < link_seq hd) as Hlt.
  { intros x hx Hx Hvx. destruct (walks_elem _ _ _ _ _ Hw x Hx) as (hx' & Hvx' & _ & Hle). simplify_eq.
    destruct (view !! p) as [hp|] eqn:Hvp.
    - specialize (Hle hp eq_refl). specialize (Hs hp eq_refl). apply u64_next in Hs as [-> _]. lia.
    - inversion Hw; simplify_eq. by apply elem_of_nil in Hx. }
  apply elem_of_cons in Ha as [->|Ha], Hb as [->|Hb]; [done| | |by eauto].
  - simplify_eq. specialize (Hlt b hb Hb Hvb). lia.
  - simplify_eq. specialize (Hlt a ha Ha Hva). lia.
Qed.

(** The branch a register pins: the watermark and what is walked from it. *)
Lemma pinned_branch_spec (view : gmap AccountEntryHash H) chain pins admits :
  view_ok view →
  ∃ R, pinned_branch (Datatypes.S (size view)) chain pins admits (fun h => view !! h) = Some R ∧
  (R = ∅ ∨ ∃ pin l e, pin ∈ pins ∧ bp_coordinate pin = chain ∧ admits pin = true ∧
     R = {[bp_watermark pin]} ∪ list_to_set l ∧
     match view !! bp_watermark pin with
     | Some hd => walks view (coordinate hd) (bp_watermark pin) l e
     | None => l = []
     end).
Proof.
  intros Hok. unfold pinned_branch. destruct (max_pin _) as [pin|] eqn:Hpin; [|by exists ∅; auto].
  apply max_pin_Some in Hpin as [Hpin _].
  apply list_elem_of_filter in Hpin as [Hadm [Hco Hin]%list_elem_of_filter].
  destruct (walk_back_spec view (fun branch hash (_ : H) => ({[hash]} ∪ branch, false))
    (bp_watermark pin) ({[bp_watermark pin]} : gset AccountEntryHash) Hok) as (l & e & Hw & Hnone & ->).
  assert (∀ h, h ∈ l → is_Some (view !! h)) as Hl.
  { destruct (view !! bp_watermark pin) as [hd|] eqn:Hv.
    - intros h Hh. destruct (walks_elem _ _ _ _ _ (Hw hd eq_refl) h Hh) as (hd' & ? & _). eauto.
    - destruct (Hnone eq_refl) as [-> _]. by intros h []%elem_of_nil. }
  rewrite visit_collect by done. eexists. split; [done|]. right. exists pin, l, e. split_and!; try done.
  - set_solver.
  - destruct (view !! bp_watermark pin); [by apply Hw|by apply Hnone].
Qed.
End PinSpec.

(** Selection reads the pins of each chain only through their elements. *)
Lemma select_pins_ext {H C : Type} `{ChainLink H C} `{Countable C} (candidates : list (Candidate H))
    (eligible : gset AccountEntryHash) (pins pins' : C → gset AccountEntryHash) :
  (∀ chain, pins chain = pins' chain) →
  select_accepted_branch candidates eligible pins = select_accepted_branch candidates eligible pins'.
Proof.
  intros Hp. unfold select_accepted_branch, select_chains.
  assert (∀ f g (chains : list C) acc, (∀ a c, f a c = g a c) →
    foldl f acc chains = foldl (A := option (gset AccountEntryHash * gset AccountEntryHash)) g acc chains) as Hext.
  { intros f g chains. induction chains as [|c cs IH]; intros acc Hfg; [done|]. simpl. rewrite Hfg. by apply IH. }
  erewrite Hext; [done|]. intros a c. simpl. by rewrite Hp.
Qed.

Section PinProperties.
Context {H C : Type} `{ChainLink H C} `{Countable C}.

(** Pinning is decided by the registers, not by their order: permuting the pins (even
    with two watermarks at one slot) pins the same branch; and a pinned branch never holds
    two siblings of a slot, which is what selection needs to converge. *)
Lemma pinned_branch_converges (view : gmap AccountEntryHash H) candidates eligible chain pins pins' admits R :
  view_ok view → Forall (fun c => view !! ca_entry_hash c = Some (ca_header c)) candidates →
  pins ≡ₚ pins' →
  pinned_branch (Datatypes.S (size view)) chain pins admits (fun h => view !! h) = Some R →
  pinned_branch (Datatypes.S (size view)) chain pins' admits (fun h => view !! h) = Some R ∧
  (∀ p s h h', h ∈ kids_of (branch_children candidates eligible) chain p s →
     h' ∈ kids_of (branch_children candidates eligible) chain p s → h ∈ R → h' ∈ R → h = h').
Proof.
  intros Hok Hview Hperm HR. split.
  - rewrite <- HR. unfold pinned_branch.
    assert (filter (fun p => admits p = true) (filter (fun p => bp_coordinate p = chain) pins) ≡ₚ
            filter (fun p => admits p = true) (filter (fun p => bp_coordinate p = chain) pins')) as Hf
      by by rewrite Hperm.
    apply max_pin_watermark in Hf. destruct (max_pin _) as [p|], (max_pin _) as [p'|]; simpl in Hf; try done.
    injection Hf as ->. done.
  - destruct (pinned_branch_spec view chain pins admits Hok) as (R' & HR' & Hcase).
    assert (R' = R) as -> by congruence. intros p s h h' Hh Hh' HhR HhR'.
    destruct Hcase as [->|(pin & l & e & _ & _ & _ & -> & Hw)]; [by apply not_elem_of_empty in HhR|].
    rewrite Forall_forall in Hview.
    apply elem_of_branch_kids in Hh as (c & Hc & (_ & _ & Hs) & <-), Hh' as (c' & Hc' & (_ & _ & Hs') & <-).
    apply eligible_sub, Hview in Hc. apply eligible_sub, Hview in Hc'.
    rewrite elem_of_union, elem_of_singleton, elem_of_list_to_set in HhR, HhR'.
    assert (l = [] ∨ (bp_watermark pin ∈ l ∧ ∃ chain', walks view chain' (bp_watermark pin) l e)) as [->|[Hin [chain' Hw']]].
    { destruct (view !! bp_watermark pin) as [hd|]; [|by left].
      destruct (walks_head _ _ _ _ _ Hw) as [->|Hin]; [by left|]. right. eauto. }
    + destruct HhR as [->|[]%elem_of_nil], HhR' as [->|[]%elem_of_nil]. done.
    + eapply walks_seq_inj; [exact Hw'| | |exact Hc|exact Hc'|congruence].
      * by destruct HhR as [->|?].
      * by destruct HhR' as [->|?].
Qed.

(** Selection with the pins of a list of registers. *)
Definition pin_sets (view : gmap AccountEntryHash H) (pins : list (BranchPin C))
    (admits : C → BranchPin C → bool) (chain : C) : gset AccountEntryHash :=
  default ∅ (pinned_branch (Datatypes.S (size view)) chain pins (admits chain) (fun h => view !! h)).

Lemma pinned_selection_converges (view : gmap AccountEntryHash H) candidates candidates' eligible pins pins' admits :
  view_ok view → candidates_ok candidates →
  Forall (fun c => view !! ca_entry_hash c = Some (ca_header c)) candidates →
  candidates ≡ₚ candidates' → pins ≡ₚ pins' →
  select_accepted_branch candidates eligible (pin_sets view pins admits) =
  select_accepted_branch candidates' eligible (pin_sets view pins' admits).
Proof.
  intros Hok Hcand Hview Hperm Hpins.
  assert (∀ chain, pin_sets view pins admits chain = pin_sets view pins' admits chain) as Hext.
  { intros chain. unfold pin_sets. destruct (pinned_branch_spec view chain pins (admits chain) Hok) as (R & HR & _).
    destruct (pinned_branch_converges view candidates eligible chain pins pins' (admits chain) R) as [HR' _]; try done.
    by rewrite HR, HR'. }
  rewrite (select_pins_ext candidates' eligible _ _ (fun chain => eq_sym (Hext chain))).
  apply selection_order_independent; [done| |done].
  intros chain p s h h' Hh Hh'. unfold pin_sets.
  destruct (pinned_branch_spec view chain pins (admits chain) Hok) as (R & HR & _). rewrite HR. simpl.
  destruct (pinned_branch_converges view candidates eligible chain pins pins' (admits chain) R) as [_ Hf]; try done.
  by eapply Hf.
Qed.
End PinProperties.
