(* ===== verification/Envelope.v ===== *)
(** * The signed account-entry envelope ([crates/rag-rat-oplog/src/account/envelope.rs])

    The 13-part header, the body that wraps it with an opaque payload, the transport
    envelope, authoring and verification, with the header nullity rules and the size limit of
    [limits.rs].  [OwnerId] and [AccountEntryHash] are 32-byte arrays. *)

From S2P Require Import Prelude Cbor Minicbor Hash Op Device Entry Stream Branch.

Local Open Scope Z_scope.

(** ** Data *)

Definition ACCOUNT_ENTRY_DOMAIN : bytes := lit "rag-rat/account-entry/1".
Definition ACCOUNT_SIGNED_DOMAIN : bytes := lit "rag-rat/account-signed/1".
Definition ACCOUNT_ENVELOPE_MAX_BYTES : Z := 64 * 1024.

Definition OwnerId : Type := bytes.
#[export] Typeclasses Transparent OwnerId.
Definition RosterRef : Type := bytes.
#[export] Typeclasses Transparent RosterRef.

Record AccountEntryHeader : Type := mkAccountEntryHeader {
  ah_account_id : AccountId;
  ah_log_id : Z;
  ah_device_fingerprint : DeviceFingerprint;
  ah_seq : Z;
  ah_prev_hash : option AccountEntryHash;
  ah_parent_ref : option AccountEntryHash;
  ah_entry_type : Z;
  ah_op_version : Z;
  ah_crypto_suite : Z;
  ah_auth_len : Z;
  ah_key_id : option bytes;
  ah_authority_ref : option OwnerId;
}.

Record SignedAccountEntry : Type := mkSignedAccountEntry {
  sa_header : AccountEntryHeader;
  sa_payload : bytes;
  sa_signature : bytes;
  sa_header_bytes : bytes;
  sa_body_bytes : bytes;
  sa_signed_bytes : bytes;
  sa_entry_hash : AccountEntryHash;
}.

Record VerifiedAccountEntry : Type := mkVerifiedAccountEntry {
  va_header : AccountEntryHeader;
  va_payload : bytes;
  va_entry_hash : AccountEntryHash;
}.

(** ** Operations *)

(** [(a == 0) != b.is_none()], the two nullity rules. *)
Definition header_nullity_error (h : AccountEntryHeader) : option string :=
  if bool_decide (bool_decide (ah_seq h = 0) ≠ bool_decide (ah_prev_hash h = None))
  then Some "prev_hash must be null iff seq == 0"%string
  else if bool_decide (bool_decide (ah_crypto_suite h = 0) ≠ bool_decide (ah_key_id h = None))
  then Some "key_id must be null iff crypto_suite == 0"%string
  else None.

Definition set_device (h : AccountEntryHeader) (d : DeviceFingerprint) : AccountEntryHeader :=
  mkAccountEntryHeader (ah_account_id h) (ah_log_id h) d (ah_seq h) (ah_prev_hash h)
    (ah_parent_ref h) (ah_entry_type h) (ah_op_version h) (ah_crypto_suite h) (ah_auth_len h)
    (ah_key_id h) (ah_authority_ref h).

Definition header_aad (s : SignedAccountEntry) : bytes := sa_header_bytes s.

Section Envelope.
Context `{Minicbor} `{Sha256} `{Ed25519}.

Definition encode_opt_hash : option bytes → bytes := put_opt put_bytes.

Definition encode_header (h : AccountEntryHeader) : bytes :=
  put_array 13 ++ put_str ACCOUNT_ENTRY_DOMAIN ++ put_bytes (ah_account_id h) ++
  put_u8 (ah_log_id h) ++ put_bytes (ah_device_fingerprint h) ++ put_u64 (ah_seq h) ++
  encode_opt_hash (ah_prev_hash h) ++ encode_opt_hash (ah_parent_ref h) ++
  put_u32 (ah_entry_type h) ++ put_u32 (ah_op_version h) ++ put_u8 (ah_crypto_suite h) ++
  put_u64 (ah_auth_len h) ++ encode_opt_hash (ah_key_id h) ++ encode_opt_hash (ah_authority_ref h).

Definition encode_account_body (header_bytes payload : bytes) : bytes :=
  put_array 2 ++ put_bytes header_bytes ++ put_bytes payload.

Definition encode_account_signed (body_bytes signature : bytes) : bytes :=
  put_array 3 ++ put_str ACCOUNT_SIGNED_DOMAIN ++ put_bytes body_bytes ++ put_bytes signature.

Definition signed_entry_len (h : AccountEntryHeader) (payload : bytes) : Z :=
  let header_bytes := encode_header h in
  let body_bytes := encode_account_body header_bytes payload in
  len (encode_account_signed body_bytes (replicate 64 x00)).

Definition entry_fits_envelope (h : AccountEntryHeader) (payload : bytes) : bool :=
  bool_decide (signed_entry_len h payload ≤ ACCOUNT_ENVELOPE_MAX_BYTES).

Definition sign_account_entry (secret : DeviceSecret) (header : AccountEntryHeader) (payload : bytes)
    : result AnyError SignedAccountEntry :=
  let header := set_device header (fingerprint (secret_public secret)) in
  match header_nullity_error header with
  | Some msg => Err (Bail msg)
  | None =>
      let header_bytes := encode_header header in
      let body_bytes := encode_account_body header_bytes payload in
      let signature := secret_sign secret body_bytes in
      let signed_bytes := encode_account_signed body_bytes signature in
      if bool_decide (ACCOUNT_ENVELOPE_MAX_BYTES < len signed_bytes)
      then Err (Bail "account entry is over the envelope limit")
      else Ok (mkSignedAccountEntry header payload signature header_bytes body_bytes signed_bytes
                 (sha256 body_bytes))
  end.

Definition decode_opt_hash (field : string) : Decoder (option bytes) := decode_opt (d_fixed 32 field).

(** The reads of [decode_header]. *)
Definition decode_header_parts : Decoder AccountEntryHeader :=
  _ ← expect_array 13;
  _ ← expect_domain ACCOUNT_ENTRY_DOMAIN;
  account_id ← d_fixed 32 "account_id";
  log_id ← d_u8;
  device_fingerprint ← d_fixed 32 "device_fingerprint";
  seq ← d_u64;
  prev_hash ← decode_opt_hash "prev_hash";
  parent_ref ← decode_opt_hash "parent_ref";
  entry_type ← d_u32;
  op_version ← d_u32;
  crypto_suite ← d_u8;
  auth_len ← d_u64;
  key_id ← decode_opt_hash "key_id";
  authority_ref ← decode_opt_hash "authority_ref";
  mret (mkAccountEntryHeader account_id log_id device_fingerprint seq prev_hash parent_ref
          entry_type op_version crypto_suite auth_len key_id authority_ref).

Definition decode_header (header_bytes : bytes) : result CborError AccountEntryHeader :=
  _ ← require_canonical_cbor header_bytes;
  header ← run decode_header_parts header_bytes;
  match header_nullity_error header with
  | Some msg => Err (Message msg)
  | None => Ok header
  end.

Definition decode_account_body_parts : Decoder (bytes * bytes) :=
  _ ← expect_array 2;
  header_bytes ← d_bytes;
  payload ← d_bytes;
  mret (header_bytes, payload).

Definition decode_account_body (body_bytes : bytes)
    : result CborError (AccountEntryHeader * bytes * bytes) :=
  _ ← require_canonical_cbor body_bytes;
  '(header_bytes, payload) ← run decode_account_body_parts body_bytes;
  header ← decode_header header_bytes;
  Ok (header, header_bytes, payload).

Definition decode_account_envelope_parts : Decoder (bytes * bytes) :=
  _ ← expect_array 3;
  _ ← expect_domain ACCOUNT_SIGNED_DOMAIN;
  body_bytes ← d_bytes;
  signature ← d_fixed 64 "signature";
  mret (body_bytes, signature).

Definition decode_account_signed_cbor (bs : bytes) : result CborError SignedAccountEntry :=
  _ ← require_canonical_cbor bs;
  '(body_bytes, signature) ← run decode_account_envelope_parts bs;
  '(header, header_bytes, payload) ← decode_account_body body_bytes;
  Ok (mkSignedAccountEntry header payload signature header_bytes body_bytes bs (sha256 body_bytes)).

Definition decode_account_signed (bs : bytes) : result AnyError SignedAccountEntry :=
  if bool_decide (ACCOUNT_ENVELOPE_MAX_BYTES < len bs)
  then Err (Bail "account entry wire is over the envelope limit")
  else map_err (Wrapped "account entry decode failed") (decode_account_signed_cbor bs).

Definition verify_account_signed (bs : bytes) (pubkey : DevicePublic)
    : result AnyError VerifiedAccountEntry :=
  signed ← decode_account_signed bs;
  _ ← public_verify pubkey (sa_body_bytes signed) (sa_signature signed);
  if bool_decide (fingerprint pubkey ≠ ah_device_fingerprint (sa_header signed))
  then Err (Bail "device fingerprint does not match the verifying key")
  else Ok (mkVerifiedAccountEntry (sa_header signed) (sa_payload signed) (sa_entry_hash signed)).
End Envelope.

(** ** Type invariants and items *)

Definition header_wf (h : AccountEntryHeader) : Prop :=
  hash_ok (ah_account_id h) ∧ 0 ≤ ah_log_id h ≤ u8_max ∧ hash_ok (ah_device_fingerprint h) ∧
  0 ≤ ah_seq h ≤ u64_max ∧ opt_ok hash_ok (ah_prev_hash h) ∧ opt_ok hash_ok (ah_parent_ref h) ∧
  0 ≤ ah_entry_type h ≤ u32_max ∧ 0 ≤ ah_op_version h ≤ u32_max ∧ 0 ≤ ah_crypto_suite h ≤ u8_max ∧
  0 ≤ ah_auth_len h ≤ u64_max ∧ opt_ok hash_ok (ah_key_id h) ∧ opt_ok hash_ok (ah_authority_ref h).

Definition header_item (h : AccountEntryHeader) : item :=
  Array [TextString ACCOUNT_ENTRY_DOMAIN; ByteString (ah_account_id h); Uint (ah_log_id h);
         ByteString (ah_device_fingerprint h); Uint (ah_seq h); opt_bytes_item (ah_prev_hash h);
         opt_bytes_item (ah_parent_ref h); Uint (ah_entry_type h); Uint (ah_op_version h);
         Uint (ah_crypto_suite h); Uint (ah_auth_len h); opt_bytes_item (ah_key_id h);
         opt_bytes_item (ah_authority_ref h)].
Definition account_body_item (header_bytes payload : bytes) : item :=
  Array [ByteString header_bytes; ByteString payload].
Definition account_envelope_item (body_bytes signature : bytes) : item :=
  Array [TextString ACCOUNT_SIGNED_DOMAIN; ByteString body_bytes; ByteString signature].

Section EnvelopeCodec.
Context `{MinicborLaws}.

Lemma reads_opt_hash field o : opt_ok hash_ok o → reads (decode_opt_hash field) (encode_opt_hash o) o.
Proof.
  intros Ho. apply reads_opt. intros h ->. simpl in Ho.
  split; [apply reads_fixed; auto using hash_ok_len|apply non_null_bytes; auto using hash_ok_len].
Qed.

#[local] Hint Resolve reads_opt_hash reads_u8 reads_u32 : reads.
#[local] Hint Extern 1 (0 ≤ _ ∧ _ ≤ u64_max) => (unfold u64_max; lia) : reads.
#[local] Hint Extern 2 (reads (d_fixed _ _) _ _) => (apply reads_fixed; [done|by apply hash_ok_len]) : reads.

Lemma reads_header h : header_wf h → reads decode_header_parts (encode_header h) h.
Proof.
  intros (? & ? & ? & ? & ? & ? & ? & ? & ? & ? & ? & ?). unfold decode_header_parts, encode_header.
  destruct h. simpl in *.
  eapply reads_bind; [by eauto with reads|]. eapply reads_bind; [by apply reads_domain|].
  do 11 (eapply reads_bind; [by eauto with reads|]).
  eapply reads_bind_nil; [by eauto with reads|done].
Qed.

Lemma encode_opt_hash_ser o : opt_ok hash_ok o → encode_opt_hash o = ser (opt_bytes_item o).
Proof. apply put_opt_bytes_ser. Qed.

Lemma encode_header_ser h : header_wf h → encode_header h = ser (header_item h).
Proof.
  intros (? & ? & ? & ? & ? & ? & ? & ? & ? & ? & ? & ?). unfold encode_header, header_item.
  rewrite put_str_ser, !put_bytes_ser, !put_u64_ser, !put_u32_ser, !put_u8_ser, !encode_opt_hash_ser
    by first [solve [auto using hash_ok_len]|by vm_compute].
  etrans; [|apply put_array_ser; by vm_compute]. rewrite !fmap_cons.
  cbn [mjoin list_join fmap list_fmap]. by rewrite app_nil_r.
Qed.

Lemma encode_account_body_ser hb payload :
  len hb ≤ u64_max → len payload ≤ u64_max →
  encode_account_body hb payload = ser (account_body_item hb payload).
Proof.
  intros. unfold encode_account_body, account_body_item. rewrite !put_bytes_ser by done.
  etrans; [|apply put_array_ser; by vm_compute]. rewrite !fmap_cons.
  cbn [mjoin list_join fmap list_fmap]. by rewrite app_nil_r.
Qed.

Lemma encode_account_signed_ser body sig :
  len body ≤ u64_max → len sig ≤ u64_max →
  encode_account_signed body sig = ser (account_envelope_item body sig).
Proof.
  intros. unfold encode_account_signed, account_envelope_item. rewrite put_str_ser, !put_bytes_ser by done.
  etrans; [|apply put_array_ser; by vm_compute]. rewrite !fmap_cons.
  cbn [mjoin list_join fmap list_fmap]. by rewrite app_nil_r.
Qed.
End EnvelopeCodec.

Section EnvelopeDecoding.
Context `{MinicborLaws} `{Sha256}.

Lemma opt_item_flat o : opt_ok hash_ok o → item_wf (opt_bytes_item o) ∧ height (opt_bytes_item o) = 1%nat.
Proof.
  destruct o; simpl; intros Ho; (split; [|done]); [by apply wf_bytes, hash_ok_len|by apply wf_simple].
Qed.
Lemma bytes_flat b : len b ≤ u64_max → item_wf (ByteString b) ∧ height (ByteString b) = 1%nat.
Proof. intros. split; [by apply wf_bytes|done]. Qed.
Lemma uint_flat n : 0 ≤ n ≤ u64_max → item_wf (Uint n) ∧ height (Uint n) = 1%nat.
Proof. intros. split; [by apply wf_uint|done]. Qed.
Lemma text_flat b : str_ok b → item_wf (TextString b) ∧ height (TextString b) = 1%nat.
Proof. intros [? ?]. split; [by apply wf_text|done]. Qed.

Lemma header_canonical h : header_wf h → require_canonical_cbor (encode_header h) = Ok tt.
Proof.
  intros Hh. rewrite encode_header_ser by done. apply require_canonical_flat; [by vm_compute|].
  destruct Hh as (? & ? & ? & ? & ? & ? & ? & ? & ? & ? & ? & ?).
  unfold u8_max, u32_max in *. repeat apply Forall_cons_2; try apply Forall_nil_2;
    first [by apply opt_item_flat|by apply bytes_flat, hash_ok_len|by apply text_flat
          |apply uint_flat; unfold u64_max in *; lia].
Qed.

Lemma decode_header_encode h :
  header_wf h → header_nullity_error h = None → decode_header (encode_header h) = Ok h.
Proof.
  intros Hh Hn. unfold decode_header. rewrite header_canonical by done. simpl.
  assert (run decode_header_parts (encode_header h) = Ok h) as ->.
  { apply run_Ok. exists []. rewrite <- (app_nil_r (encode_header h)). by apply reads_header. }
  simpl. by rewrite Hn.
Qed.

Lemma account_body_canonical hb payload :
  len hb ≤ u64_max → len payload ≤ u64_max →
  require_canonical_cbor (encode_account_body hb payload) = Ok tt.
Proof.
  intros. rewrite encode_account_body_ser by done. apply require_canonical_flat; [by vm_compute|].
  repeat apply Forall_cons_2; try apply Forall_nil_2; by apply bytes_flat.
Qed.

Lemma reads_account_body hb payload :
  len hb ≤ u64_max → len payload ≤ u64_max →
  reads decode_account_body_parts (encode_account_body hb payload) (hb, payload).
Proof.
  intros. eapply reads_bind; [apply reads_expect_array; unfold u64_max; lia|].
  eapply reads_bind; [by apply reads_bytes|]. eapply reads_bind_nil; [by apply reads_bytes|done].
Qed.

(** The two byte strings of a canonical body. *)
Lemma account_body_parts_sound bs r :
  require_canonical_cbor bs = Ok tt → run decode_account_body_parts bs = Ok r →
  bs = encode_account_body r.1 r.2 ∧ len r.1 ≤ u64_max ∧ len r.2 ≤ u64_max.
Proof.
  unfold decode_account_body_parts. intros Hcan Hd. inv_dec.
  match goal with H : expect_array _ _ = _ |- _ =>
    eapply canonical_array in H as (items & Hwf & Hl & -> & -> & _); [|done] end.
  split_len Hl. read_items. simpl. split_and!; try done. by rewrite encode_account_body_ser.
Qed.

Lemma decode_account_body_encode h payload :
  header_wf h → header_nullity_error h = None → len (encode_header h) ≤ u64_max →
  len payload ≤ u64_max →
  decode_account_body (encode_account_body (encode_header h) payload) = Ok (h, encode_header h, payload).
Proof.
  intros Hh Hn Hl Hp. unfold decode_account_body.
  rewrite account_body_canonical by done.
  pose proof (reads_account_body (encode_header h) payload Hl Hp) as Hr.
  specialize (Hr []). rewrite app_nil_r in Hr. unfold run. rewrite Hr. simpl.
  by rewrite decode_header_encode.
Qed.

Lemma decode_account_signed_encode h payload sig :
  header_wf h → header_nullity_error h = None → len (encode_header h) ≤ u64_max →
  len payload ≤ u64_max → length sig = 64%nat →
  let body := encode_account_body (encode_header h) payload in
  len body ≤ u64_max →
  decode_account_signed_cbor (encode_account_signed body sig) =
  Ok (mkSignedAccountEntry h payload sig (encode_header h) body (encode_account_signed body sig) (sha256 body)).
Proof.
  intros Hh Hn Hl Hp Hsig body Hb. unfold decode_account_signed_cbor.
  assert (len sig ≤ u64_max) as Hs by (unfold len, u64_max; lia).
  assert (require_canonical_cbor (encode_account_signed body sig) = Ok tt) as ->.
  { rewrite encode_account_signed_ser by done. apply require_canonical_flat; [by vm_compute|].
    repeat apply Forall_cons_2; try apply Forall_nil_2; first [by apply text_flat|by apply bytes_flat]. }
  assert (reads decode_account_envelope_parts (encode_account_signed body sig) (body, sig)) as Hr.
  { eapply reads_bind; [apply reads_expect_array; unfold u64_max; lia|].
    eapply reads_bind; [by apply reads_domain|]. eapply reads_bind; [by apply reads_bytes|].
    eapply reads_bind_nil; [by apply reads_fixed|done]. }
  specialize (Hr []). rewrite app_nil_r in Hr. unfold run. rewrite Hr. simpl.
  pose proof (decode_account_body_encode h payload Hh Hn Hl Hp) as Hbody. fold body in Hbody.
  by rewrite Hbody.
Qed.

(** What decoding says of the bytes. *)
Lemma decode_header_sound bs h :
  decode_header bs = Ok h → header_wf h ∧ header_nullity_error h = None ∧ bs = encode_header h.
Proof.
  unfold decode_header, decode_header_parts, decode_opt_hash. intros Hd. inv_ok. case_match; [done|].
  inv_ok. inv_dec.
  match goal with H : expect_array _ _ = _ |- _ =>
    eapply canonical_array in H as (items & Hwf & Hl & -> & -> & _); [|by eauto using require_canonical_tt] end.
  split_len Hl. read_items.
  match goal with |- header_wf ?h ∧ _ => assert (header_wf h) by (repeat first [done|split]) end.
  split_and!; [done..|]. by rewrite encode_header_ser.
Qed.

Lemma decode_account_body_sound bs h hb payload :
  decode_account_body bs = Ok (h, hb, payload) →
  header_wf h ∧ header_nullity_error h = None ∧ hb = encode_header h ∧
  bs = encode_account_body hb payload.
Proof.
  unfold decode_account_body. intros Hd. inv_ok.
  match goal with H : decode_header _ = _ |- _ => apply decode_header_sound in H as (? & ? & ?) end.
  match goal with H : run _ _ = _ |- _ => apply account_body_parts_sound in H as (? & _ & _) end;
    [|by eauto using require_canonical_tt]. by split_and!.
Qed.

Lemma decode_account_cbor_sound bs s :
  decode_account_signed_cbor bs = Ok s →
  header_wf (sa_header s) ∧ header_nullity_error (sa_header s) = None ∧
  length (sa_signature s) = 64%nat ∧ sa_header_bytes s = encode_header (sa_header s) ∧
  sa_body_bytes s = encode_account_body (sa_header_bytes s) (sa_payload s) ∧
  sa_signed_bytes s = bs ∧ bs = encode_account_signed (sa_body_bytes s) (sa_signature s) ∧
  sa_entry_hash s = sha256 (sa_body_bytes s).
Proof.
  unfold decode_account_signed_cbor, decode_account_envelope_parts. intros Hd. inv_ok. inv_dec. simplify_eq.
  match goal with H : decode_account_body _ = _ |- _ =>
    apply decode_account_body_sound in H as (? & ? & ? & ?) end.
  match goal with H : expect_array _ _ = _ |- _ =>
    eapply canonical_array in H as (items & Hwf & Hl & -> & -> & _); [|by eauto using require_canonical_tt] end.
  split_len Hl. read_items. simpl. split_and!; try done.
  by rewrite encode_account_signed_ser by (unfold len, u64_max in *; lia).
Qed.
End EnvelopeDecoding.

(** ** Lengths *)

(** The largest length of a Rust allocation. *)
Definition isize_max : Z := 2 ^ 63 - 1.

Lemma len_head m n : 1 ≤ len (head m n) ≤ 9.
Proof. unfold head. repeat case_bool_decide; rewrite ?len_cons; unfold len; rewrite ?length_be_bytes; simpl; lia. Qed.

Lemma len_mjoin_ser n l :
  Forall (fun i => len (ser i) ≤ n) l → len (mjoin (ser <$> l)) ≤ n * len l.
Proof.
  induction 1 as [|i l Hi _ IH]; [unfold len; simpl; lia|].
  change (mjoin (ser <$> i :: l)) with (ser i ++ mjoin (ser <$> l)).
  rewrite len_app, len_cons. lia.
Qed.

Section EnvelopeLengths.
Context `{MinicborLaws}.

Lemma len_bytes_item b n : len b ≤ n → len (ser (ByteString b)) ≤ 9 + n.
Proof. intros. cbn [ser]. rewrite len_app. pose proof (len_head 2 (len b)). lia. Qed.
Lemma len_uint_item n : len (ser (Uint n)) ≤ 9.
Proof. apply len_head. Qed.
Lemma len_opt_item o : opt_ok hash_ok o → len (ser (opt_bytes_item o)) ≤ 41.
Proof.
  destruct o as [b|]; simpl opt_bytes_item; intros Ho.
  - apply (len_bytes_item b 32). unfold len. by rewrite Ho.
  - pose proof (len_head 7 22). cbn [ser]. lia.
Qed.

Lemma len_encode_header h : header_wf h → len (encode_header h) ≤ 1000.
Proof.
  intros Hh. rewrite encode_header_ser by done. unfold header_item. cbn [ser].
  destruct Hh as (? & ? & ? & ? & ? & ? & ? & ? & ? & ? & ? & ?). rewrite len_app.
  match goal with |- len (head 4 ?n) + len (mjoin (ser <$> ?l)) ≤ _ =>
    assert (len (mjoin (ser <$> l)) ≤ 41 * len l) as Hm;
    [apply len_mjoin_ser|pose proof (len_head 4 n)] end.
  - repeat apply Forall_cons_2; try apply Forall_nil_2;
      first [by apply len_opt_item|by (etrans; [apply len_uint_item|])
            |apply (len_bytes_item _ 32); unfold len, hash_ok in *; lia|by vm_compute].
  - etrans; [apply Z.add_le_mono; [apply len_head|exact Hm]|]. by vm_compute.
Qed.

(** The header's length does not depend on which device it names. *)
Lemma len_encode_header_device h d :
  header_wf h → hash_ok d → len (encode_header (set_device h d)) = len (encode_header h).
Proof.
  intros Hh Hd. pose proof (hash_ok_len _ Hd). unfold encode_header.
  destruct Hh as (_ & _ & Hfp & _). pose proof (hash_ok_len _ Hfp). simpl.
  rewrite !len_app, !(put_bytes_ser (ah_device_fingerprint h)), !(put_bytes_ser d) by done.
  cbn [ser]. unfold hash_ok, len in *. rewrite !length_app, Hd, Hfp. done.
Qed.

Lemma len_encode_body_ext hb hb' payload :
  len hb = len hb' → len hb ≤ u64_max → len payload ≤ u64_max →
  len (encode_account_body hb payload) = len (encode_account_body hb' payload).
Proof.
  intros Hl ? ?. rewrite !encode_account_body_ser by lia. unfold account_body_item. cbn [ser fmap list_fmap mjoin list_join].
  rewrite !len_app, Hl. done.
Qed.

Lemma len_encode_signed_ext body body' sig sig' :
  len body = len body' → len body ≤ u64_max → length sig = 64%nat → length sig' = 64%nat →
  len (encode_account_signed body sig) = len (encode_account_signed body' sig').
Proof.
  intros Hl ? Hs Hs'. rewrite !encode_account_signed_ser by (unfold len, u64_max in *; lia).
  unfold account_envelope_item. cbn [ser fmap list_fmap mjoin list_join].
  assert (len sig = len sig') as Hss by (unfold len; lia). by rewrite !len_app, Hl, Hss.
Qed.

Lemma len_encode_body_of hb payload :
  len hb ≤ 1000 → len payload ≤ isize_max → len (encode_account_body hb payload) ≤ u64_max.
Proof.
  intros Hh Hp. unfold isize_max in Hp. rewrite encode_account_body_ser by (unfold u64_max; lia).
  unfold account_body_item. cbn [ser fmap list_fmap mjoin list_join]. rewrite !len_app.
  pose proof (len_head 4 (len [ByteString hb; ByteString payload])).
  pose proof (len_head 2 (len hb)). pose proof (len_head 2 (len payload)).
  change (len []) with 0. unfold u64_max. lia.
Qed.

Lemma len_encode_body h payload :
  header_wf h → len payload ≤ isize_max → len (encode_account_body (encode_header h) payload) ≤ u64_max.
Proof. intros Hh. by apply len_encode_body_of, len_encode_header. Qed.
End EnvelopeLengths.

(** ** Properties *)

Lemma set_device_wf h d : header_wf h → hash_ok d → header_wf (set_device h d).
Proof. unfold header_wf. destruct h. simpl. tauto. Qed.

Lemma set_device_nullity h d : header_nullity_error (set_device h d) = header_nullity_error h.
Proof. done. Qed.

(** The authoring check is byte-exact: for a payload that fits in memory,
    [sign_account_entry] succeeds if and only if the header obeys the nullity rules and
    [entry_fits_envelope] says yes, whatever device the unsigned header names and whatever
    the key signs. *)
Theorem sign_account_entry_succeeds_iff `{MinicborLaws} `{Sha256} `{Ed25519} secret h payload :
  header_wf h → len payload ≤ isize_max →
  (∃ s, sign_account_entry secret h payload = Ok s) ↔
  header_nullity_error h = None ∧ entry_fits_envelope h payload = true.
Proof.
  intros Hh Hp. unfold sign_account_entry, entry_fits_envelope, signed_entry_len.
  rewrite set_device_nullity. set (fp := fingerprint (secret_public secret)).
  assert (hash_ok fp) as Hfp by apply sha256_length.
  set (b := encode_account_body (encode_header (set_device h fp)) payload).
  assert (len b = len (encode_account_body (encode_header h) payload)) as Hb.
  { pose proof (len_encode_header _ (set_device_wf h fp Hh Hfp)). unfold isize_max in Hp.
    apply len_encode_body_ext; [by apply len_encode_header_device|unfold u64_max; lia..]. }
  assert (len b ≤ u64_max) as Hbl by (by apply len_encode_body; [apply set_device_wf|]).
  rewrite <- (len_encode_signed_ext b _ (secret_sign secret b) (replicate 64 x00) Hb Hbl);
    [|apply ed_sign_length|done].
  destruct (header_nullity_error h) as [msg|] eqn:Hn; [naive_solver|].
  rewrite bool_decide_eq_true. case_bool_decide as Hlim.
  - split; [by intros [? ?]|intros [_ ?]; lia].
  - split; [intros _; split; [done|lia]|by eauto].
Qed.

(** Authoring round trip: an entry [sign_account_entry] returns verifies under the
    signer's public key, and verification gives back the header with the signer's own device
    in it, the payload and the entry hash. *)
Theorem sign_account_entry_verifies `{MinicborLaws} `{Sha256} `{Ed25519} secret h payload s :
  header_wf h → len payload ≤ isize_max →
  sign_account_entry secret h payload = Ok s →
  verify_account_signed (sa_signed_bytes s) (secret_public secret) =
  Ok (mkVerifiedAccountEntry (set_device h (fingerprint (secret_public secret))) payload (sa_entry_hash s)).
Proof.
  intros Hh Hp. unfold sign_account_entry. set (fp := fingerprint (secret_public secret)).
  assert (header_wf (set_device h fp)) as Hwf by (by apply set_device_wf; [|apply sha256_length]).
  rewrite set_device_nullity. destruct (header_nullity_error h) as [msg|] eqn:Hn; [done|].
  case_bool_decide as Hlim; [done|]. intros Hs. injection Hs as <-. simpl sa_signed_bytes. simpl sa_entry_hash.
  pose proof (len_encode_header _ Hwf). unfold isize_max in Hp.
  unfold verify_account_signed, decode_account_signed. rewrite bool_decide_false by done.
  rewrite decode_account_signed_encode;
    [|done|done|unfold u64_max; lia|unfold u64_max; lia|apply ed_sign_length|by apply len_encode_body].
  simpl. unfold public_verify, secret_sign. simpl. rewrite verify_sign. simpl.
  by rewrite bool_decide_false by (intros Hne; by apply Hne).
Qed.

(** The steps of a successful verification. *)
Lemma verify_account_signed_steps `{Minicbor} `{Sha256} `{Ed25519} (bs : bytes) pubkey v :
  verify_account_signed bs pubkey = Ok v →
  ∃ s, decode_account_signed_cbor bs = Ok s ∧ len bs ≤ ACCOUNT_ENVELOPE_MAX_BYTES ∧
       v = mkVerifiedAccountEntry (sa_header s) (sa_payload s) (sa_entry_hash s) ∧
       verify_strict (dp_bytes pubkey) (sa_body_bytes s) (sa_signature s) = true ∧
       ah_device_fingerprint (sa_header s) = fingerprint pubkey.
Proof.
  unfold verify_account_signed, decode_account_signed, public_verify. intros Hv. inv_ok.
  destruct (bool_decide (_ < len bs)) eqn:Hlim; [done|]. apply bool_decide_eq_false in Hlim.
  destruct (decode_account_signed_cbor bs) as [s|] eqn:Hd; [|done].
  match goal with H : map_err _ _ = Ok _ |- _ => simpl in H; injection H as <- end.
  case_match eqn:Hver; [|done]. case_bool_decide as Hfp; inv_ok. exists s.
  split_and!; try done. lia.
Qed.

Lemma decode_account_steps `{Minicbor} `{Sha256} (bs : bytes) s :
  decode_account_signed_cbor bs = Ok s →
  decode_account_body (sa_body_bytes s) = Ok (sa_header s, sa_header_bytes s, sa_payload s) ∧
  sa_entry_hash s = sha256 (sa_body_bytes s).
Proof. unfold decode_account_signed_cbor. intros Hd. inv_ok. done. Qed.

(** One account wire form: bytes that verify under a key are within the envelope limit
    and are exactly the canonical envelope, body and header encodings of the entry returned;
    its header obeys the nullity rules and names the key's device; its hash and the checked
    signature cover that body. *)
Theorem verify_account_signed_sound `{MinicborLaws} `{Sha256} `{Ed25519} (bs : bytes) pubkey v :
  verify_account_signed bs pubkey = Ok v →
  let body := encode_account_body (encode_header (va_header v)) (va_payload v) in
  ∃ signature,
    length signature = 64%nat ∧ bs = encode_account_signed body signature ∧
    len bs ≤ ACCOUNT_ENVELOPE_MAX_BYTES ∧
    header_wf (va_header v) ∧ header_nullity_error (va_header v) = None ∧
    ah_device_fingerprint (va_header v) = fingerprint pubkey ∧
    va_entry_hash v = sha256 body ∧ verify_strict (dp_bytes pubkey) body signature = true.
Proof.
  intros (s & Hd & Hlim & -> & Hver & Hfp)%verify_account_signed_steps. simpl.
  apply decode_account_cbor_sound in Hd as (? & ? & ? & Hhb & Hb & _ & Hbs & Hhash).
  rewrite Hhb in Hb. rewrite <- Hb. exists (sa_signature s). done.
Qed.

(** The entry hash names the entry: two verified entries with one hash, under any keys
    and from any bytes, have the same header and payload, or exhibit a SHA-256 collision. *)
Theorem account_entry_hash_binds `{Minicbor} `{Sha256} `{Ed25519} (bs bs' : bytes) pk pk' v v' :
  verify_account_signed bs pk = Ok v → verify_account_signed bs' pk' = Ok v' →
  va_entry_hash v = va_entry_hash v' → v = v' ∨ collision.
Proof.
  intros (s & Hd & _ & -> & _)%verify_account_signed_steps (s' & Hd' & _ & -> & _)%verify_account_signed_steps.
  simpl. apply decode_account_steps in Hd as (Hd & Hh), Hd' as (Hd' & Hh').
  intros Heq. destruct (decide (sa_body_bytes s = sa_body_bytes s')) as [Hb|Hne].
  - left. rewrite Hb in Hd. rewrite Hd in Hd'. injection Hd' as -> _ ->. by rewrite Heq.
  - right. exists (sa_body_bytes s), (sa_body_bytes s'). split; [done|congruence].
Qed.

(** ** Witnesses *)

Definition wit_header : AccountEntryHeader :=
  mkAccountEntryHeader (replicate 32 x11) 1 (replicate 32 x00) 0 None None 7 1 0 0 None
    (Some (replicate 32 x22)).
Definition wit_payload : bytes := lit "payload".
Definition wit_account_entry : SignedAccountEntry :=
  match sign_account_entry wit_secret wit_header wit_payload with
  | Ok s => s
  | Err _ => mkSignedAccountEntry wit_header [] [] [] [] [] []
  end.
Definition wit_verified_entry : VerifiedAccountEntry :=
  mkVerifiedAccountEntry (set_device wit_header (fingerprint (secret_public wit_secret))) wit_payload
    (sa_entry_hash wit_account_entry).

Lemma wit_header_wf : header_wf wit_header.
Proof. vm_compute. repeat split; discriminate. Qed.

Lemma wit_signs : sign_account_entry wit_secret wit_header wit_payload = Ok wit_account_entry.
Proof. by vm_compute. Qed.

Lemma wit_verifies :
  verify_account_signed (sa_signed_bytes wit_account_entry) (secret_public wit_secret) = Ok wit_verified_entry.
Proof. by vm_compute. Qed.

Lemma sign_account_entry_succeeds_iff_witness :
  ∃ s, sign_account_entry wit_secret wit_header wit_payload = Ok s.
Proof.
  apply (sign_account_entry_succeeds_iff wit_secret wit_header wit_payload);
    [exact wit_header_wf|by vm_compute|by vm_compute].
Defined.

Lemma sign_account_entry_verifies_witness :
  verify_account_signed (sa_signed_bytes wit_account_entry) (secret_public wit_secret) = Ok wit_verified_entry.
Proof.
  apply sign_account_entry_verifies; [exact wit_header_wf|by vm_compute|exact wit_signs].
Defined.

Lemma verify_account_signed_sound_witness :
  len (sa_signed_bytes wit_account_entry) ≤ ACCOUNT_ENVELOPE_MAX_BYTES ∧
  ah_device_fingerprint (va_header wit_verified_entry) = fingerprint (secret_public wit_secret).
Proof.
  destruct (verify_account_signed_sound (sa_signed_bytes wit_account_entry) (secret_public wit_secret)
    wit_verified_entry wit_verifies) as (sig & _ & _ & Hl & _ & _ & Hfp & _). by split.
Defined.

Lemma account_entry_hash_binds_witness : wit_verified_entry = wit_verified_entry ∨ collision.
Proof.
  apply (account_entry_hash_binds (sa_signed_bytes wit_account_entry) (sa_signed_bytes wit_account_entry)
    (secret_public wit_secret) (secret_public wit_secret)); [exact wit_verifies|exact wit_verifies|reflexivity].
Defined.
