(* ===== verification/Candidate.v ===== *)
(** * Cuts, registers and the candidate graph of the account logs
    ([account/cut.rs], [account/registers.rs], [account/candidate.rs], [account/secrets/candidate.rs])

    The revocation cut and its wire form, the register scopes, the ancestry test over the
    candidate graph, cut-target binding, the join of two cuts, control-frontier resolution and
    the pin-aware selection of the secrets log.  A [HeaderView] is a finite map from entry hash
    to header.  Walks run on [S (size view)] units of fuel, which is shown to be enough. *)

From S2P Require Import Prelude Cbor Minicbor Hash Op Device Entry Stream Branch Envelope.

Local Open Scope Z_scope.

(** ** Cuts *)

Inductive Cut : Type :=
| CutEmpty
| CutAt (seq : Z) (hash : AccountEntryHash).

#[export] Instance Cut_eq_dec : EqDecision Cut.
Proof. solve_decision. Defined.

Section CutWire.
Context `{Minicbor}.

Definition cut_encode (c : Cut) : bytes :=
  match c with
  | CutEmpty => put_null
  | CutAt seq hash => put_array 2 ++ put_u64 seq ++ put_bytes hash
  end.

Definition cut_decode_at : Decoder Cut :=
  _ ← expect_array 2;
  seq ← d_u64;
  hash ← d_fixed 32 "cut hash";
  mret (CutAt seq hash).

Definition cut_decode : Decoder Cut :=
  null ← d_is_null;
  if (null : bool) then _ ← d_null; mret CutEmpty else cut_decode_at.
End CutWire.

Definition cut_seq (c : Cut) : option Z :=
  match c with CutEmpty => None | CutAt seq _ => Some seq end.
Definition cut_hash (c : Cut) : option AccountEntryHash :=
  match c with CutEmpty => None | CutAt _ hash => Some hash end.

Definition beyond (entry_seq : Z) (c : Cut) : bool :=
  match c with CutEmpty => true | CutAt seq _ => bool_decide (seq < entry_seq) end.

(** ** Registers *)

Definition GrantId : Type := bytes.
#[export] Typeclasses Transparent GrantId.

Inductive RegisterKey : Type :=
| RegisterDevice (account : AccountId) (log : Z) (device : DeviceFingerprint)
| RegisterOwnerIncarnation (account : AccountId) (log : Z) (device : DeviceFingerprint) (owner_id : OwnerId)
| RegisterGrant (stream : StreamId) (grantee : AccountId) (grant_id : GrantId) (device : DeviceFingerprint).

Record Register : Type := mkRegister { reg_key : RegisterKey; reg_cut : Cut }.

Definition scopes (key : RegisterKey) (header : AccountEntryHeader) : bool :=
  match key with
  | RegisterDevice account log device =>
      bool_decide (ah_account_id header = account) && bool_decide (ah_log_id header = log) &&
      bool_decide (ah_device_fingerprint header = device)
  | RegisterOwnerIncarnation account log device owner_id =>
      bool_decide (ah_account_id header = account) && bool_decide (ah_log_id header = log) &&
      bool_decide (ah_device_fingerprint header = device) &&
      bool_decide (ah_authority_ref header = Some owner_id)
  | RegisterGrant _ _ _ _ => false
  end.

(** ** The account-log coordinate *)

Record SecretsCoordinate : Type := mkSecretsCoordinate {
  sc_account_id : AccountId;
  sc_log_id : Z;
  sc_device_fingerprint : DeviceFingerprint;
}.

#[export] Instance SecretsCoordinate_eq_dec : EqDecision SecretsCoordinate.
Proof. solve_decision. Defined.
#[export] Program Instance SecretsCoordinate_countable : Countable SecretsCoordinate :=
  inj_countable' (fun c => (sc_account_id c, sc_log_id c, sc_device_fingerprint c))
    (fun '(a, l, d) => mkSecretsCoordinate a l d) _.
Next Obligation. by intros []. Qed.

Definition secrets_coordinate_of (header : AccountEntryHeader) : SecretsCoordinate :=
  mkSecretsCoordinate (ah_account_id header) (ah_log_id header) (ah_device_fingerprint header).

#[export] Instance account_header_link : ChainLink AccountEntryHeader SecretsCoordinate := {|
  coordinate := secrets_coordinate_of;
  link_seq := ah_seq;
  link_prev_hash := ah_prev_hash;
|}.

Notation HeaderView := (gmap AccountEntryHash AccountEntryHeader).

(** ** Ancestry *)

Section Ancestry.
Context {H C : Type} `{ChainLink H C} `{EqDecision C}.

(** The body shared by the account and the content [ancestry]: the walk from a watermark. *)
Definition ancestry_from (target watermark : AccountEntryHash) (view : gmap AccountEntryHash H)
    : option AncestryRelation :=
  match view !! watermark with
  | None => Some (UnknownRelation UnknownCutTarget)
  | Some _ =>
      '(e, found) ← walk_back (S (size view)) watermark (fun h => view !! h)
                      (fun found hash _ => if bool_decide (hash = target) then (true, true) else (found, false))
                      false;
      Some (if (found : bool) then OnBranch
            else match e with
                 | Stopped | Origin | ForgedLink => OffBranch
                 | MissingLink => UnknownRelation IncompleteCutAncestry
                 end)
  end.
End Ancestry.

Definition ancestry (target : AccountEntryHash) (cut : Cut) (view : HeaderView) : option AncestryRelation :=
  match cut_hash cut with
  | None => Some OffBranch
  | Some watermark => ancestry_from target watermark view
  end.

(** ** Binding and joining cuts *)

Record CutCoordinate : Type := mkCutCoordinate {
  cc_account : AccountId;
  cc_log : Z;
  cc_device : DeviceFingerprint;
}.

Inductive CutBinding : Type := BindingOk | TargetNotHeld | Mismatch.

#[export] Instance CutBinding_eq_dec : EqDecision CutBinding.
Proof. solve_decision. Defined.

Definition validate_cut_target (cut : Cut) (expected : CutCoordinate) (view : HeaderView) : CutBinding :=
  match cut with
  | CutEmpty => BindingOk
  | CutAt seq hash =>
      match view !! hash with
      | None => TargetNotHeld
      | Some header =>
          let names_coordinate :=
            bool_decide (ah_account_id header = cc_account expected) &&
            bool_decide (ah_log_id header = cc_log expected) &&
            bool_decide (ah_device_fingerprint header = cc_device expected) &&
            bool_decide (ah_seq header = seq) in
          if names_coordinate then BindingOk else Mismatch
      end
  end.

Inductive JoinResult : Type :=
| Extended (cut : Cut)
| Incomparable
| JoinUnknown.

Definition join_cuts (a b : Cut) (view : HeaderView) : option JoinResult :=
  match a, b with
  | CutEmpty, other => Some (Extended other)
  | other, CutEmpty => Some (Extended other)
  | CutAt seq_a hash_a, CutAt seq_b hash_b =>
      if bool_decide (seq_a = seq_b)
      then Some (if bool_decide (hash_a = hash_b) then Extended a else Incomparable)
      else
        let '(lower_hash, higher) := if bool_decide (seq_a < seq_b) then (hash_a, b) else (hash_b, a) in
        rel ← ancestry lower_hash higher view;
        Some match rel with
             | OnBranch => Extended higher
             | OffBranch => Incomparable
             | UnknownRelation _ => JoinUnknown
             end
  end.

(** ** Control frontiers *)

Definition CONTROL_LOG : Z := 0.

Record DeviceCut : Type := mkDeviceCut {
  dc_device_fingerprint : DeviceFingerprint;
  dc_seq : Z;
  dc_hash : AccountEntryHash;
}.

Inductive FrontierError : Type :=
| FrontierNonCanonical
| FrontierMissingEvidence (hash : AccountEntryHash)
| FrontierInvalidBranch (hash : AccountEntryHash).

(** [frontier.windows(2).any(|pair| pair[0] >= pair[1])] on the fingerprints. *)
Fixpoint any_descent (frontier : list DeviceCut) : bool :=
  match frontier with
  | a :: (b :: _) as rest =>
      bool_decide (cle (dc_device_fingerprint b) (dc_device_fingerprint a)) || any_descent rest
  | _ => false
  end.

(** The [loop] of one head. *)
Fixpoint resolve_head (fuel : nat) (account : AccountId) (device : DeviceFingerprint) (view : HeaderView)
    (hash : AccountEntryHash) (expected_seq : Z) (resolved : gset AccountEntryHash)
    : option (result FrontierError (gset AccountEntryHash)) :=
  match fuel with
  | O => None
  | S fuel =>
      match view !! hash with
      | None => Some (Err (FrontierMissingEvidence hash))
      | Some header =>
          if bool_decide (ah_account_id header ≠ account) || bool_decide (ah_log_id header ≠ CONTROL_LOG) ||
             bool_decide (ah_device_fingerprint header ≠ device) || bool_decide (ah_seq header ≠ expected_seq) ||
             bool_decide (hash ∈ resolved)
          then Some (Err (FrontierInvalidBranch hash))
          else
            let resolved := {[hash]} ∪ resolved in
            match (if bool_decide (1 ≤ expected_seq) then Some (expected_seq - 1) else None), ah_prev_hash header with
            | None, None => Some (Ok resolved)
            | Some seq, Some prev => resolve_head fuel account device view prev seq resolved
            | _, _ => Some (Err (FrontierInvalidBranch hash))
            end
      end
  end.

Fixpoint resolve_heads (account : AccountId) (frontier : list DeviceCut) (view : HeaderView)
    (resolved : gset AccountEntryHash) : option (result FrontierError (gset AccountEntryHash)) :=
  match frontier with
  | [] => Some (Ok resolved)
  | head :: rest =>
      r ← resolve_head (S (size view)) account (dc_device_fingerprint head) view (dc_hash head) (dc_seq head) resolved;
      match r with
      | Ok resolved => resolve_heads account rest view resolved
      | Err e => Some (Err e)
      end
  end.

Definition resolve_control_frontier (account : AccountId) (frontier : list DeviceCut) (view : HeaderView)
    : option (result FrontierError (gset AccountEntryHash)) :=
  if any_descent frontier then Some (Err FrontierNonCanonical)
  else resolve_heads account frontier view ∅.

(** ** Selection on the secrets log *)

Definition cut_coordinate (c : SecretsCoordinate) : CutCoordinate :=
  mkCutCoordinate (sc_account_id c) (sc_log_id c) (sc_device_fingerprint c).

Definition secrets_pins (pins : list (BranchPin SecretsCoordinate)) (view : HeaderView)
    (chain : SecretsCoordinate) : option (gset AccountEntryHash) :=
  pinned_branch (S (size view)) chain pins
    (fun pin => bool_decide (validate_cut_target (CutAt (bp_seq pin) (bp_watermark pin)) (cut_coordinate chain) view
                             = BindingOk))
    (fun h => view !! h).

Definition secrets_select_accepted_branch (candidates : list (Candidate AccountEntryHeader))
    (eligible : gset AccountEntryHash) (pins : list (BranchPin SecretsCoordinate)) (view : HeaderView)
    : option BranchSelection :=
  select_accepted_branch candidates eligible (fun chain => default ∅ (secrets_pins pins view chain)).

(** ** What ancestry decides *)

(** The verdict on a walk that visits [l] and ends as [e]. *)
Definition verdict_of (target : AccountEntryHash) (l : list AccountEntryHash) (e : WalkEnd) : AncestryRelation :=
  if bool_decide (target ∈ l) then OnBranch
  else match e with MissingLink => UnknownRelation IncompleteCutAncestry | _ => OffBranch end.

Definition decided (r : AncestryRelation) : Prop := r = OnBranch ∨ r = OffBranch.

Section AncestrySpec.
Context {H C : Type} `{ChainLink H C} `{EqDecision C}.
Implicit Types (view : gmap AccountEntryHash H) (h p target watermark : AccountEntryHash).

Lemma visit_search view target (l : list AccountEntryHash) :
  (∀ h, h ∈ l → is_Some (view !! h)) →
  visit_list view (fun found hash (_ : H) => if bool_decide (hash = target) then (true, true) else (found, false))
    false l = (bool_decide (target ∈ l), bool_decide (target ∈ l)).
Proof.
  induction l as [|h l IH]; intros Hl; [done|]. cbn [visit_list].
  destruct (Hl h) as [hd ->]; [by left|]. destruct (decide (h = target)) as [->|Heq].
  - rewrite !bool_decide_true by first [done|by left]. done.
  - rewrite (bool_decide_false (h = target)) by done. rewrite IH by (intros; apply Hl; by right).
    assert (target ∈ h :: l ↔ target ∈ l) as Hiff by (rewrite elem_of_cons; split; [by intros [->|?]|by right]).
    by rewrite (bool_decide_ext _ _ Hiff).
Qed.

Lemma ancestry_from_spec view target watermark hd :
  view_ok view → view !! watermark = Some hd →
  ∃ l e, walks view (coordinate hd) watermark l e ∧
         ancestry_from target watermark view = Some (verdict_of target l e).
Proof.
  intros Hok Hw. unfold ancestry_from. rewrite Hw.
  destruct (walk_back_spec view (fun found hash (_ : H) =>
    if bool_decide (hash = target) then (true, true) else (found, false)) watermark false Hok)
    as (l & e & Hwalk & _ & ->).
  specialize (Hwalk hd Hw). exists l, e. split; [done|]. rewrite visit_search.
  - simpl. unfold verdict_of. case_bool_decide; [done|]. by destruct e.
  - intros h Hh. destruct (walks_elem _ _ _ _ _ Hwalk h Hh) as (hd' & ? & _). eauto.
Qed.

(** A larger view walks at least as far, and exactly as far where the walk had ended. *)
Lemma walks_grow view view' (chain : C) h l e :
  view ⊆ view' → walks view chain h l e →
  (e ≠ MissingLink → walks view' chain h l e) ∧
  (∀ l' e', walks view' chain h l' e' → l `prefix_of` l').
Proof.
  intros Hsub Hw. assert (∀ k hd, view !! k = Some hd → view' !! k = Some hd) as Hup
    by (intros k hd Hk; by eapply lookup_weaken).
  induction Hw as [h Hh|h hd Hh Hc|h hd Hh Hc Hp|h hd p hp Hh Hc Hp Hv Hs|h hd p l e Hh Hc Hp Hs Hw [IH1 IH2]].
  - split; [done|]. intros. apply prefix_nil.
  - split; [intros _; eapply walks_foreign; eauto|]. intros. apply prefix_nil.
  - assert (walks view' chain h [h] Origin) as Hw' by (eapply walks_origin; eauto).
    split; [done|]. intros l' e' Hl'. by destruct (walks_det _ _ _ _ _ _ _ Hw' Hl') as [-> _].
  - assert (walks view' chain h [h] ForgedLink) as Hw' by (eapply walks_forged; eauto).
    split; [done|]. intros l' e' Hl'. by destruct (walks_det _ _ _ _ _ _ _ Hw' Hl') as [-> _].
  - apply Hup in Hh. split.
    + intros He. eapply walks_step; [done..| |by apply IH1]. intros hp' Hp'.
      destruct (view !! p) as [hp|] eqn:Hvp.
      * apply Hup in Hvp. simplify_eq. by apply Hs.
      * inversion Hw; simplify_eq.
    + intros l' e' Hl'. inversion Hl'; simplify_eq; try done.
      * destruct (view !! p) as [hp0|] eqn:Hvp.
        { pose proof (Hup _ _ Hvp). simplify_eq. specialize (Hs _ eq_refl). done. }
        inversion Hw; simplify_eq. done.
      * by apply prefix_cons, IH2 with e'.
Qed.

(** A watermark on the walk of another: its own walk is a suffix. *)
Lemma walks_suffix view (chain : C) h l e target :
  walks view chain h l e → target ∈ l →
  ∃ l1 l2, l = l1 ++ l2 ∧ walks view chain target l2 e.
Proof.
  induction 1 as [h Hh|h hd Hh Hc|h hd Hh Hc Hp|h hd p hp Hh Hc Hp Hv Hs|h hd p l e Hh Hc Hp Hs Hw IH];
    intros Hin; try (by apply elem_of_nil in Hin).
  - apply list_elem_of_singleton in Hin as ->. exists [], [h]. split; [done|]. by eapply walks_origin.
  - apply list_elem_of_singleton in Hin as ->. exists [], [h]. split; [done|]. by eapply walks_forged.
  - apply elem_of_cons in Hin as [->|Hin].
    + exists [], (h :: l). split; [done|]. by eapply walks_step.
    + destruct (IH Hin) as (l1 & l2 & -> & Hl2). exists (h :: l1), l2. by split.
Qed.

Lemma ancestry_from_grow view view' target watermark r :
  view ⊆ view' → view_ok view' → ancestry_from target watermark view = Some r → decided r →
  ancestry_from target watermark view' = Some r.
Proof.
  intros Hsub Hok' Hr Hd. assert (view_ok view) as Hok.
  { intros h hd Hh. apply (Hok' h). by eapply lookup_weaken. }
  destruct (view !! watermark) as [hd|] eqn:Hw.
  2: { unfold ancestry_from in Hr. rewrite Hw in Hr. simplify_eq. by destruct Hd. }
  destruct (ancestry_from_spec view target watermark hd Hok Hw) as (l & e & Hwalk & Heq).
  assert (view' !! watermark = Some hd) as Hw' by (by eapply lookup_weaken).
  destruct (ancestry_from_spec view' target watermark hd Hok' Hw') as (l' & e' & Hwalk' & ->).
  rewrite Heq in Hr. injection Hr as <-. f_equal.
  destruct (walks_grow _ _ _ _ _ _ Hsub Hwalk) as [Hsame Hpre]. specialize (Hpre _ _ Hwalk').
  unfold verdict_of in *. destruct (bool_decide (target ∈ l)) eqn:Hin.
  - apply bool_decide_eq_true in Hin. rewrite bool_decide_true; [done|].
    by eapply elem_of_prefix.
  - assert (e ≠ MissingLink) as Hne by (intros ->; by destruct Hd).
    destruct (walks_det _ _ _ _ _ _ _ (Hsame Hne) Hwalk') as [<- <-]. by rewrite Hin.
Qed.
End AncestrySpec.

(** ** Reachability through valid links *)

Section Links.
Context {H C : Type} `{ChainLink H C} `{EqDecision C}.
Implicit Types (view : gmap AccountEntryHash H) (h p target : AccountEntryHash).

(** [p] is a real predecessor of [h]: named by it, held, on its chain, one slot below. *)
Definition valid_link view h p : Prop :=
  ∃ hd hp, view !! h = Some hd ∧ view !! p = Some hp ∧ link_prev_hash hd = Some p ∧
           coordinate hp = coordinate hd ∧ u64_checked_add (link_seq hp) 1 = Some (link_seq hd).

Lemma walks_reach view h hd l e target :
  view !! h = Some hd → walks view (coordinate hd) h l e →
  target ∈ l ↔ rtc (valid_link view) h target.
Proof.
  intros Hh Hw. remember (coordinate hd) as chain eqn:Hchain. revert hd Hh Hchain.
  induction Hw as [h Hn|h hd Hh Hc|h hd Hh Hc Hp|h hd p hp Hh Hc Hp Hv Hs|h hd p l e Hh Hc Hp Hs Hw IH];
    intros hd0 Hh0 Hchain; simplify_eq.
  - rewrite list_elem_of_singleton. split; [by intros ->|]. intros Hr.
    inversion Hr as [|? y ? (hd1 & hp1 & ? & ? & ? & _)]; simplify_eq. done.
  - rewrite list_elem_of_singleton. split; [by intros ->|]. intros Hr.
    inversion Hr as [|? y ? (hd1 & hp1 & ? & ? & ? & ? & ?)]; simplify_eq. done.
  - rewrite elem_of_cons. destruct (view !! p) as [hp|] eqn:Hvp.
    + destruct (decide (coordinate hp = coordinate hd)) as [Heq|Hne].
      * rewrite (IH hp) by congruence. split.
        { intros [->|Hr]; [done|]. eapply rtc_l; [|done]. exists hd, hp. eauto 6. }
        intros Hr. inversion Hr as [|? y ? (hd1 & hp1 & ? & ? & ? & _)]; simplify_eq; auto.
      * assert (l = []) as -> by (inversion Hw; simplify_eq; done). split.
        { intros [->|[]%elem_of_nil]. done. }
        intros Hr. inversion Hr as [|? y ? (hd1 & hp1 & ? & ? & ? & ? & _)]; simplify_eq; auto.
    + assert (l = []) as -> by (inversion Hw; simplify_eq; done). split.
      { intros [->|[]%elem_of_nil]. done. }
      intros Hr. inversion Hr as [|? y ? (hd1 & hp1 & ? & ? & ? & ? & _)]; simplify_eq; auto.
Qed.

Lemma on_branch_iff view target watermark hd :
  view_ok view → view !! watermark = Some hd →
  ancestry_from target watermark view = Some OnBranch ↔ rtc (valid_link view) watermark target.
Proof.
  intros Hok Hw. destruct (ancestry_from_spec view target watermark hd Hok Hw) as (l & e & Hwalk & ->).
  rewrite <- (walks_reach view watermark hd l e target Hw Hwalk). unfold verdict_of.
  case_bool_decide; [done|]. split; [by destruct e|done].
Qed.

(** The watermark is its own ancestor. *)
Lemma on_branch_held view target watermark :
  ancestry_from target watermark view = Some OnBranch → is_Some (view !! watermark).
Proof. unfold ancestry_from. destruct (view !! watermark); [eauto|done]. Qed.

Lemma ancestry_from_total view target watermark :
  view_ok view → is_Some (ancestry_from target watermark view).
Proof.
  intros Hok. destruct (view !! watermark) as [hd|] eqn:Hw.
  - destruct (ancestry_from_spec view target watermark hd Hok Hw) as (l & e & _ & ->). eauto.
  - unfold ancestry_from. rewrite Hw. eauto.
Qed.

Lemma on_branch_trans view a b c :
  view_ok view → is_Some (view !! b) →
  ancestry_from a b view = Some OnBranch → ancestry_from b c view = Some OnBranch →
  ancestry_from a c view = Some OnBranch.
Proof.
  intros Hok [hb Hb] Hab Hbc. destruct (on_branch_held _ _ _ Hbc) as [hc Hc].
  rewrite (on_branch_iff view a b hb Hok Hb) in Hab. rewrite (on_branch_iff view b c hc Hok Hc) in Hbc.
  rewrite (on_branch_iff view a c hc Hok Hc). by etrans.
Qed.
End Links.

(** ** Properties of ancestry and joins *)

(** Ancestry is reachability: for a held watermark the walk always terminates, says
    [OnBranch] exactly for the entries reached from the watermark through valid links (held,
    same chain, one slot down), and says [OffBranch] only for entries that no later arrival
    can put on the branch. *)
Theorem ancestry_is_reachability (view : HeaderView) target seq watermark hd :
  view_ok view → view !! watermark = Some hd →
  (∃ r, ancestry target (CutAt seq watermark) view = Some r) ∧
  (ancestry target (CutAt seq watermark) view = Some OnBranch ↔ rtc (valid_link view) watermark target) ∧
  (ancestry target (CutAt seq watermark) view = Some OffBranch →
   ∀ view', view ⊆ view' → view_ok view' → ¬ rtc (valid_link view') watermark target).
Proof.
  intros Hok Hw. split_and!.
  - apply ancestry_from_total, Hok.
  - by eapply on_branch_iff.
  - intros Hoff view' Hsub Hok' Hr. unfold ancestry in Hoff. simpl in Hoff.
    eapply ancestry_from_grow in Hoff; [|done|done|by right].
    apply (on_branch_iff view' target watermark hd) in Hr; [|done|by eapply lookup_weaken].
    congruence.
Qed.

(** A withheld entry parks and never flips a verdict: once a view decides that an entry
    is on or off the branch of a cut, every larger view decides the same. *)
Theorem ancestry_verdict_is_final (view view' : HeaderView) target cut r :
  view ⊆ view' → view_ok view' → ancestry target cut view = Some r → decided r →
  ancestry target cut view' = Some r.
Proof.
  intros Hsub Hok Hr Hd. unfold ancestry in *. destruct (cut_hash cut); [|done].
  by eapply ancestry_from_grow.
Qed.

(** [join_cuts] on two distinct slots. *)
Lemma join_cuts_lt (view : HeaderView) sa sb ha hb :
  sa < sb →
  join_cuts (CutAt sa ha) (CutAt sb hb) view =
    (r ← ancestry_from ha hb view;
     Some match r with OnBranch => Extended (CutAt sb hb) | OffBranch => Incomparable | _ => JoinUnknown end) ∧
  join_cuts (CutAt sb hb) (CutAt sa ha) view = join_cuts (CutAt sa ha) (CutAt sb hb) view.
Proof.
  intros Hlt. unfold join_cuts. rewrite !(bool_decide_false (_ = _)) by lia.
  rewrite (bool_decide_true (sa < sb)), (bool_decide_false (sb < sa)) by lia. done.
Qed.

Lemma join_lt_spec (view : HeaderView) sa sb ha hb :
  view_ok view → sa < sb →
  let a := CutAt sa ha in let b := CutAt sb hb in
  join_cuts a b view = join_cuts b a view ∧
  (∃ r, join_cuts a b view = Some r) ∧
  ∀ c, join_cuts a b view = Some (Extended c) →
    (c = a ∨ c = b) ∧
    (∀ s, beyond s c = true → beyond s a = true ∧ beyond s b = true) ∧
    (∀ target, ancestry target a view = Some OnBranch ∨ ancestry target b view = Some OnBranch →
       ancestry target c view = Some OnBranch).
Proof.
  intros Hok Hlt a b. destruct (join_cuts_lt view sa sb ha hb Hlt) as [Heq Hcomm]. fold a b in Heq, Hcomm.
  destruct (ancestry_from_total view ha hb Hok) as [r Hr].
  rewrite Hr in Heq. unfold mbind, option_bind in Heq. split_and!; [done|by eauto|]. intros c Hc. rewrite Heq in Hc.
  destruct r; simplify_eq. split_and!.
  - by right.
  - subst a. unfold beyond. intros s. rewrite !bool_decide_eq_true. lia.
  - subst a. intros target [Ht|Ht]; [|done]. unfold ancestry in *. simpl in *.
    eapply on_branch_trans; [done|by eapply on_branch_held|done|done].
Qed.

(** Joining cuts is commutative and only ever extends: when [join_cuts] returns
    [Extended c], [c] is one of the two cuts, no slot within either becomes beyond, and every
    entry on the branch of either is on the branch of [c]. *)
Theorem join_cuts_only_extends (view : HeaderView) a b :
  view_ok view →
  join_cuts a b view = join_cuts b a view ∧
  (∃ r, join_cuts a b view = Some r) ∧
  ∀ c, join_cuts a b view = Some (Extended c) →
    (c = a ∨ c = b) ∧
    (∀ s, beyond s c = true → beyond s a = true ∧ beyond s b = true) ∧
    (∀ target, ancestry target a view = Some OnBranch ∨ ancestry target b view = Some OnBranch →
       ancestry target c view = Some OnBranch).
Proof.
  intros Hok. destruct a as [|sa ha], b as [|sb hb].
  1-3: (split_and!; [done|by eauto|]; intros c [= <-]; split_and!; auto; naive_solver).
  destruct (Z.lt_trichotomy sa sb) as [Hlt|[->|Hlt]].
  - by apply join_lt_spec.
  - unfold join_cuts. rewrite !(bool_decide_true (sb = sb)) by done. split_and!.
    + by repeat case_bool_decide; subst.
    + eauto.
    + intros c. case_bool_decide as Hh; [|done]. intros [= <-]. subst. split_and!; naive_solver.
  - destruct (join_lt_spec view sb sa hb ha Hok Hlt) as (Hcomm & Htot & Hext). rewrite <- Hcomm.
    split_and!; [done|done|]. intros c Hc. destruct (Hext c Hc) as (? & Hb & Ht). split_and!.
    + naive_solver.
    + intros s Hs. by apply and_comm, Hb.
    + intros target Hor. apply Ht. by apply or_comm.
Qed.

(** ** Control frontiers *)

(** [control_branch account device view hash seq l]: [l] is the whole control chain of the
    device from [hash] at slot [seq] down to slot 0, every entry held and correctly linked. *)
Inductive control_branch (account : AccountId) (device : DeviceFingerprint) (view : HeaderView)
    : AccountEntryHash → Z → list AccountEntryHash → Prop :=
| branch_origin hash header :
    view !! hash = Some header → ah_account_id header = account → ah_log_id header = CONTROL_LOG →
    ah_device_fingerprint header = device → ah_seq header = 0 → ah_prev_hash header = None →
    control_branch account device view hash 0 [hash]
| branch_step hash header prev seq l :
    view !! hash = Some header → ah_account_id header = account → ah_log_id header = CONTROL_LOG →
    ah_device_fingerprint header = device → ah_seq header = seq + 1 → ah_prev_hash header = Some prev →
    control_branch account device view prev seq l →
    control_branch account device view hash (seq + 1) (hash :: l).

Section Frontier.
Context (account : AccountId) (view : HeaderView).
Implicit Types (device : DeviceFingerprint) (hash h : AccountEntryHash) (l : list AccountEntryHash)
  (resolved R : gset AccountEntryHash).

Lemma branch_seq device hash seq l : control_branch account device view hash seq l → 0 ≤ seq.
Proof. induction 1; lia. Qed.

Lemma branch_elem device hash seq l h :
  control_branch account device view hash seq l → h ∈ l →
  ∃ header, view !! h = Some header ∧ ah_device_fingerprint header = device ∧ 0 ≤ ah_seq header ≤ seq.
Proof.
  induction 1 as [hash header Hv _ _ Hd Hs _|hash header prev seq l Hv _ _ Hd Hs _ Hb IH]; intros Hin.
  - apply list_elem_of_singleton in Hin as ->. exists header. split_and!; [done|done|lia|lia].
  - pose proof (branch_seq _ _ _ _ Hb).
    apply elem_of_cons in Hin as [->|Hin].
    + exists header. split_and!; [done|done|lia|lia].
    + destruct (IH Hin) as (hd & ? & ? & ?). exists hd. split_and!; [done|done|lia|lia].
Qed.

Lemma branch_NoDup device hash seq l : control_branch account device view hash seq l → NoDup l.
Proof.
  induction 1 as [hash header|hash header prev seq l Hv _ _ _ Hs _ Hb IH]; [apply NoDup_singleton|].
  constructor; [|done]. intros Hin. destruct (branch_elem _ _ _ _ _ Hb Hin) as (hd & ? & _ & ?).
  simplify_eq. lia.
Qed.

Lemma branch_length device hash seq l :
  control_branch account device view hash seq l → (length l ≤ size view)%nat.
Proof.
  intros Hb. rewrite <- (size_dom view). etrans; [|apply (subseteq_size (list_to_set l))].
  - by rewrite size_list_to_set by by eapply branch_NoDup.
  - intros h Hh%elem_of_list_to_set. destruct (branch_elem _ _ _ _ _ Hb Hh) as (hd & ? & _).
    by eapply elem_of_dom_2.
Qed.

Lemma resolve_head_total fuel device hash seq resolved :
  (size (dom view ∖ resolved) < fuel)%nat →
  is_Some (resolve_head fuel account device view hash seq resolved).
Proof.
  revert hash seq resolved. induction fuel as [|fuel IH]; intros hash seq resolved Hf; [lia|]. simpl.
  destruct (view !! hash) as [header|] eqn:Hv; [|by eauto]. case_match eqn:Hg; [by eauto|].
  repeat apply orb_false_iff in Hg as [Hg ?].
  match goal with H : bool_decide (hash ∈ resolved) = false |- _ => apply bool_decide_eq_false in H end.
  destruct (if bool_decide (1 ≤ seq) then _ else _), (ah_prev_hash header); try by eexists.
  apply IH. assert (hash ∈ dom view) as Hdom by (by eapply elem_of_dom_2).
  assert (dom view ∖ ({[hash]} ∪ resolved) ⊂ dom view ∖ resolved) as Hsub by set_solver.
  apply subset_size in Hsub. lia.
Qed.

Lemma resolve_head_Ok fuel device hash seq resolved R :
  0 ≤ seq → resolve_head fuel account device view hash seq resolved = Some (Ok R) →
  ∃ l, control_branch account device view hash seq l ∧ R = list_to_set l ∪ resolved.
Proof.
  revert hash seq resolved. induction fuel as [|fuel IH]; intros hash seq resolved Hs; [done|]. simpl.
  destruct (view !! hash) as [header|] eqn:Hv; [|done]. case_match eqn:Hg; [done|].
  repeat (apply orb_false_iff in Hg as [Hg ?Hg']). repeat match goal with
    H : bool_decide (_ ≠ _) = false |- _ => apply bool_decide_eq_false, dec_stable in H end.
  destruct (decide (1 ≤ seq)); [rewrite bool_decide_true by done|rewrite bool_decide_false by done];
    destruct (ah_prev_hash header) as [prev|] eqn:Hp; try done.
  - intros (bl & Hb & ->)%IH; [|lia]. exists (hash :: bl). split; [|set_solver].
    replace seq with (seq - 1 + 1) by lia. eapply branch_step; try done. lia.
  - intros [= <-]. assert (seq = 0) as -> by lia. exists [hash]. split; [|set_solver].
    by eapply branch_origin.
Qed.

Lemma resolve_head_complete device hash seq l resolved fuel :
  control_branch account device view hash seq l → (∀ h, h ∈ l → h ∉ resolved) → (length l ≤ fuel)%nat →
  resolve_head fuel account device view hash seq resolved = Some (Ok (list_to_set l ∪ resolved)).
Proof.
  intros Hb. revert resolved fuel.
  induction Hb as [hash header Hv Ha Hl Hd Hs Hp|hash header prev seq l Hv Ha Hl Hd Hs Hp Hb IH];
    intros resolved [|fuel] Hdis Hf; simpl in Hf; try lia; simpl; rewrite Hv, Ha, Hl, Hd, Hs, Hp;
    rewrite !(bool_decide_false (_ ≠ _)) by (intros Hne; by apply Hne);
    rewrite (bool_decide_false (hash ∈ resolved)) by (apply Hdis; by left); simpl.
  - do 2 f_equal. set_solver.
  - pose proof (branch_seq _ _ _ _ Hb).
    rewrite bool_decide_true by lia. replace (seq + 1 - 1) with seq by lia.
    pose proof (branch_NoDup _ _ _ _ (branch_step _ _ _ _ _ _ _ _ Hv Ha Hl Hd Hs Hp Hb)) as [Hni _]%NoDup_cons.
    rewrite IH; [do 2 f_equal; set_solver| |lia].
    intros h Hh. apply not_elem_of_union. split; [by intros ->%elem_of_singleton|]. apply Hdis. by right.
Qed.
End Frontier.

Section FrontierSpec.
Context (account : AccountId) (view : HeaderView).
Implicit Types (frontier : list DeviceCut) (resolved R : gset AccountEntryHash)
  (ls : list (list AccountEntryHash)).

Definition head_branch (head : DeviceCut) (l : list AccountEntryHash) : Prop :=
  control_branch account (dc_device_fingerprint head) view (dc_hash head) (dc_seq head) l.

Definition devices_ascend : list DeviceCut → Prop :=
  StronglySorted (fun a b => clt (dc_device_fingerprint a) (dc_device_fingerprint b)).

Lemma any_descent_false frontier : any_descent frontier = false ↔ devices_ascend frontier.
Proof.
  unfold devices_ascend. induction frontier as [|a frontier IH]; [split; [constructor|done]|].
  destruct frontier as [|b frontier]; [split; [repeat constructor|done]|].
  change (any_descent (a :: b :: frontier)) with
    (bool_decide (cle (dc_device_fingerprint b) (dc_device_fingerprint a)) || any_descent (b :: frontier)).
  rewrite orb_false_iff, bool_decide_eq_false, IH. split.
  - intros [Hab Hs]. apply not_cle_clt in Hab. constructor; [done|]. constructor; [done|].
    apply StronglySorted_inv in Hs as [_ Hb]. eapply Forall_impl; [exact Hb|]. intros c Hc. by etrans.
  - intros [Hs Hf]%StronglySorted_inv. split; [|done]. apply Forall_cons in Hf as [Hab _]. by apply not_cle_clt.
Qed.

Lemma resolve_heads_total frontier resolved : is_Some (resolve_heads account frontier view resolved).
Proof.
  revert resolved. induction frontier as [|head frontier IH]; intros resolved; cbn [resolve_heads]; [by eexists|].
  destruct (resolve_head_total account view (S (size view)) (dc_device_fingerprint head) (dc_hash head)
    (dc_seq head) resolved) as [[R|e] HR].
  - assert (dom view ∖ resolved ⊆ dom view) as Hsub by set_solver.
    apply subseteq_size in Hsub. rewrite size_dom in Hsub. lia.
  - rewrite HR. simpl. apply IH.
  - rewrite HR. by eexists.
Qed.

Lemma resolve_heads_Ok frontier resolved R :
  Forall (fun c => 0 ≤ dc_seq c) frontier → resolve_heads account frontier view resolved = Some (Ok R) →
  ∃ ls, Forall2 head_branch frontier ls ∧ R = list_to_set (mjoin ls) ∪ resolved.
Proof.
  intros Hs. revert resolved. induction Hs as [|head frontier Hseq _ IH]; intros resolved; cbn [resolve_heads].
  - intros [= <-]. exists []. split; [constructor|set_solver].
  - destruct (resolve_head _ _ _ _ _ _ _) as [[R'|e]|] eqn:HR; [|done|done]. simpl. intros (ls & Hls & ->)%IH.
    apply resolve_head_Ok in HR as (l & Hl & ->); [|done]. exists (l :: ls). split; [by constructor|].
    simpl. rewrite list_to_set_app_L. set_solver.
Qed.

(** The entries resolved so far belong to devices before those still to resolve. *)
Lemma resolve_heads_complete frontier resolved ls :
  devices_ascend frontier → Forall2 head_branch frontier ls →
  (∀ h hd head, h ∈ resolved → view !! h = Some hd → head ∈ frontier →
     ah_device_fingerprint hd ≠ dc_device_fingerprint head) →
  resolve_heads account frontier view resolved = Some (Ok (list_to_set (mjoin ls) ∪ resolved)).
Proof.
  intros Hasc Hls. revert resolved Hasc.
  induction Hls as [|head l frontier ls Hl Hls IH]; intros resolved Hasc Hdis; cbn [resolve_heads].
  - do 2 f_equal. set_solver.
  - apply StronglySorted_inv in Hasc as [Hasc Hfirst]. rewrite Forall_forall in Hfirst.
    assert (∀ h, h ∈ l → ∃ hd, view !! h = Some hd ∧ ah_device_fingerprint hd = dc_device_fingerprint head) as Hdev.
    { intros h Hh. destruct (branch_elem _ _ _ _ _ _ _ Hl Hh) as (hd & ? & ? & _). eauto. }
    erewrite resolve_head_complete; [|exact Hl| |pose proof (branch_length _ _ _ _ _ _ Hl); lia].
    + simpl. change (l ++ foldr _ _ ls) with (l ++ mjoin ls). rewrite IH; [|done|].
      { do 2 f_equal. rewrite list_to_set_app_L, !(assoc_L (∪)). f_equal. apply (comm_L (∪)). }
      intros h hd head' Hh Hv Hin. apply elem_of_union in Hh as [Hh%elem_of_list_to_set|Hh].
      * destruct (Hdev h Hh) as (hd' & ? & Heq). simplify_eq. rewrite Heq. intros Heq'.
        specialize (Hfirst head' Hin). rewrite Heq' in Hfirst. by apply (irreflexivity clt) in Hfirst.
      * eapply Hdis; [done|done|by right].
    + intros h Hh Hr. destruct (Hdev h Hh) as (hd & Hv & Heq).
      apply (Hdis h hd head Hr Hv); [by left|done].
Qed.
End FrontierSpec.

Lemma frontier_Ok_iff (view : HeaderView) account frontier R :
  Forall (fun c => 0 ≤ dc_seq c) frontier →
  resolve_control_frontier account frontier view = Some (Ok R) ↔
  devices_ascend frontier ∧
  ∃ ls, Forall2 (head_branch account view) frontier ls ∧ R = list_to_set (mjoin ls).
Proof.
  intros Hs. rewrite <- any_descent_false. unfold resolve_control_frontier.
  destruct (any_descent frontier) eqn:Hd; [naive_solver|]. split.
  - intros (ls & Hls & ->)%resolve_heads_Ok; [|done]. split; [done|]. exists ls. split; [done|set_solver].
  - intros (_ & ls & Hls & ->). erewrite resolve_heads_complete; [|by apply any_descent_false|done|set_solver].
    do 2 f_equal. set_solver.
Qed.

Lemma control_branch_grow (view view' : HeaderView) account device hash seq l :
  view ⊆ view' → control_branch account device view hash seq l → control_branch account device view' hash seq l.
Proof.
  intros Hsub. induction 1; [eapply branch_origin|eapply branch_step]; eauto using lookup_weaken.
Qed.

(** A control frontier resolves to exactly the histories it names: resolution always
    terminates, and succeeds with [R] if and only if the devices ascend strictly and every
    head's whole chain down to slot 0 is held and correctly linked, [R] being the union of
    those chains; so entries that arrive later, descendants and forks alike, never change it. *)
Theorem frontier_resolves_exactly (view : HeaderView) account frontier :
  Forall (fun c => 0 ≤ dc_seq c) frontier →
  (∃ r, resolve_control_frontier account frontier view = Some r) ∧
  (∀ R, resolve_control_frontier account frontier view = Some (Ok R) ↔
     devices_ascend frontier ∧
     ∃ ls, Forall2 (head_branch account view) frontier ls ∧ R = list_to_set (mjoin ls)) ∧
  (∀ R view', resolve_control_frontier account frontier view = Some (Ok R) → view ⊆ view' →
     resolve_control_frontier account frontier view' = Some (Ok R)).
Proof.
  intros Hs. split_and!.
  - unfold resolve_control_frontier. case_match; [by eauto|]. apply resolve_heads_total.
  - intros R. by apply frontier_Ok_iff.
  - intros R view' HR Hsub. apply frontier_Ok_iff in HR as (Hasc & ls & Hls & ->); [|done].
    apply frontier_Ok_iff; [done|]. split; [done|]. exists ls. split; [|done].
    eapply Forall2_impl; [exact Hls|]. intros head l. by apply control_branch_grow.
Qed.

(** ** The cut on the wire *)

Definition cut_ok (c : Cut) : Prop :=
  match c with CutEmpty => True | CutAt seq hash => 0 ≤ seq ≤ u64_max ∧ hash_ok hash end.

Lemma reads_cut `{MinicborLaws} (c : Cut) : cut_ok c → reads cut_decode (cut_encode c) c.
Proof.
  destruct c as [|seq hash]; intros Hc r; unfold cut_decode, mbind at 1, Decoder_bind at 1.
  - unfold cut_encode, put_null. rewrite enc_null_spec, is_null_head by done. simpl.
    change ((_ ← d_null; mret CutEmpty) (head 7 22 ++ r) = Ok (CutEmpty, r)).
    unfold mbind, Decoder_bind, d_null, lib. by rewrite dec_null_head.
  - destruct Hc as [Hs Hh]. destruct (non_null_array 2 (put_u64 seq ++ put_bytes hash)) as (m & n & w & Hhd & Hne & Hw);
      [unfold u64_max; lia|].
    assert (reads cut_decode_at (cut_encode (CutAt seq hash)) (CutAt seq hash)) as Hr.
    { eapply reads_bind; [apply reads_expect_array; unfold u64_max; lia|].
      eapply reads_bind; [by apply reads_u64|].
      eapply reads_bind_nil; [by apply reads_fixed; [|apply hash_ok_len]|done]. }
    assert (d_is_null (cut_encode (CutAt seq hash) ++ r) = Ok (false, cut_encode (CutAt seq hash) ++ r)) as ->.
    { simpl cut_encode. rewrite Hw, <- app_assoc, is_null_head, bool_decide_false by done. done. }
    apply Hr.
Qed.

(** ** Selection on the secrets log *)

(** Secrets-log selection converges: peers that hold the same candidates and the same
    registers, in any order, accept and fork the same entries, with no side condition on the
    registers (two watermarks may bound one chain). *)
Theorem secrets_selection_converges (view : HeaderView) candidates candidates' eligible pins pins' :
  view_ok view → candidates_ok candidates →
  Forall (fun c => view !! ca_entry_hash c = Some (ca_header c)) candidates →
  candidates ≡ₚ candidates' → pins ≡ₚ pins' →
  secrets_select_accepted_branch candidates eligible pins view =
  secrets_select_accepted_branch candidates' eligible pins' view.
Proof.
  intros. by apply (pinned_selection_converges view candidates candidates' eligible pins pins'
    (fun chain pin => bool_decide (validate_cut_target (CutAt (bp_seq pin) (bp_watermark pin))
                                    (cut_coordinate chain) view = BindingOk))).
Qed.

(** ** Witnesses

    A control chain [a <- b <- c] of one device with a fork [d] beside [b]. *)

Definition wit_hash (b : byte) : AccountEntryHash := replicate 32 b.
Definition wit_chain_header (seq : Z) (prev : option AccountEntryHash) : AccountEntryHeader :=
  mkAccountEntryHeader (replicate 32 xaa) CONTROL_LOG (replicate 32 xbb) seq prev None 3 1 0 seq None None.
Definition wit_candidates : list (Candidate AccountEntryHeader) :=
  [ mkCandidate (wit_hash x0a) (wit_chain_header 0 None);
    mkCandidate (wit_hash x0b) (wit_chain_header 1 (Some (wit_hash x0a)));
    mkCandidate (wit_hash x0c) (wit_chain_header 2 (Some (wit_hash x0b)));
    mkCandidate (wit_hash x01) (wit_chain_header 1 (Some (wit_hash x0a))) ].
Definition wit_view : HeaderView := list_to_map ((fun c => (ca_entry_hash c, ca_header c)) <$> wit_candidates).
Definition wit_eligible : gset AccountEntryHash := dom wit_view.
Definition wit_chain_at : SecretsCoordinate := mkSecretsCoordinate (replicate 32 xaa) CONTROL_LOG (replicate 32 xbb).
Definition wit_pin : BranchPin SecretsCoordinate := mkBranchPin wit_chain_at 2 (wit_hash x0c).
Definition wit_pins (chain : SecretsCoordinate) : gset AccountEntryHash := default ∅ (secrets_pins [wit_pin] wit_view chain).
Definition wit_cut : Cut := CutAt 2 (wit_hash x0c).
Definition wit_head : DeviceCut := mkDeviceCut (replicate 32 xbb) 2 (wit_hash x0c).

(** With no pin the fork's smaller hash wins slot 1; the register's watermark reverses that. *)
Example selection_without_pin :
  bs_accepted <$> secrets_select_accepted_branch wit_candidates wit_eligible [] wit_view =
  Some {[wit_hash x0a; wit_hash x01]}.
Proof. apply (bool_decide_unpack _). by vm_compute. Qed.
Example selection_with_pin :
  bs_accepted <$> secrets_select_accepted_branch wit_candidates wit_eligible [wit_pin] wit_view =
  Some {[wit_hash x0a; wit_hash x0b; wit_hash x0c]}.
Proof. apply (bool_decide_unpack _). by vm_compute. Qed.

Lemma wit_view_ok : view_ok wit_view.
Proof.
  assert (map_Forall (fun _ hd => 0 ≤ ah_seq hd ≤ u64_max) wit_view) as Hok;
    [by apply (bool_decide_unpack _); vm_compute|intros h hd; apply Hok].
Qed.
Lemma wit_candidates_ok : candidates_ok wit_candidates.
Proof. split; apply (bool_decide_unpack _); by vm_compute. Qed.
Lemma wit_candidates_held :
  Forall (fun c => wit_view !! ca_entry_hash c = Some (ca_header c)) wit_candidates.
Proof. repeat constructor. Qed.

Definition wit_selection : BranchSelection :=
  default (mkBranchSelection ∅ ∅) (select_accepted_branch wit_candidates wit_eligible wit_pins).

Lemma wit_selects : select_accepted_branch wit_candidates wit_eligible wit_pins = Some wit_selection.
Proof.
  unfold wit_selection. destruct (select_accepted_branch wit_candidates wit_eligible wit_pins) eqn:Hs; [done|].
  assert (is_Some (select_accepted_branch wit_candidates wit_eligible wit_pins)) as [sel Hsel];
    [apply (bool_decide_unpack _); by vm_compute|congruence].
Qed.

Lemma wit_pins_functional : pins_functional wit_candidates wit_eligible wit_pins.
Proof.
  intros chain p s h h' Hh Hh' Hp Hp'. unfold wit_pins, secrets_pins in Hp, Hp'.
  destruct (pinned_branch_spec wit_view chain [wit_pin] (fun pin => bool_decide
    (validate_cut_target (CutAt (bp_seq pin) (bp_watermark pin)) (cut_coordinate chain) wit_view = BindingOk))
    wit_view_ok) as (R & HR & _).
  rewrite HR in Hp, Hp'. destruct (pinned_branch_converges wit_view wit_candidates wit_eligible chain _ _ _ _
    wit_view_ok wit_candidates_held (reflexivity _) HR) as [_ Hf]. by eapply Hf.
Qed.

Lemma wit_pinned_chain :
  dense_chain (eligible_candidates wit_candidates wit_eligible) wit_chain_at 0 None
    [wit_hash x0a; wit_hash x0b; wit_hash x0c].
Proof.
  assert (walk_slots 4 (branch_children wit_candidates wit_eligible) wit_chain_at (wit_pins wit_chain_at) 0 None =
    [wit_hash x0a; wit_hash x0b; wit_hash x0c]) as <- by (by vm_compute).
  apply walk_slots_dense.
Qed.

Lemma accepted_is_one_chain_witness :
  ∃ sel, select_accepted_branch wit_candidates wit_eligible wit_pins = Some sel.
Proof.
  destruct (accepted_is_one_chain wit_candidates wit_eligible wit_pins wit_candidates_ok) as (sel & Hs & _).
  by exists sel.
Defined.

Lemma forked_is_rooted_minus_accepted_witness :
  ¬ (wit_hash x01 ∈ bs_accepted wit_selection ∧ wit_hash x01 ∈ bs_forked wit_selection).
Proof.
  apply (forked_is_rooted_minus_accepted wit_candidates wit_eligible wit_pins wit_selection (wit_hash x01));
    [exact wit_candidates_ok|exact wit_selects].
Defined.

Lemma pinned_branch_wins_witness :
  Forall (fun h => h ∈ bs_accepted wit_selection) [wit_hash x0a; wit_hash x0b; wit_hash x0c].
Proof.
  apply (pinned_branch_wins wit_candidates wit_eligible wit_pins wit_selection wit_chain_at
    [wit_hash x0a; wit_hash x0b; wit_hash x0c] wit_candidates_ok wit_pins_functional wit_selects wit_pinned_chain).
  apply (bool_decide_unpack _). by vm_compute.
Defined.

Lemma ancestry_is_reachability_witness : rtc (valid_link wit_view) (wit_hash x0c) (wit_hash x0a).
Proof.
  apply (ancestry_is_reachability wit_view (wit_hash x0a) 2 (wit_hash x0c)
    (wit_chain_header 2 (Some (wit_hash x0b)))); [exact wit_view_ok|by vm_compute|by vm_compute].
Defined.

(** The view that withholds the origin still puts [b] on the branch of [c]. *)
Lemma ancestry_verdict_is_final_witness : ancestry (wit_hash x0b) wit_cut wit_view = Some OnBranch.
Proof.
  apply (ancestry_verdict_is_final (delete (wit_hash x0a) wit_view) wit_view);
    [apply delete_subseteq|exact wit_view_ok|by vm_compute|by left].
Defined.

Lemma join_cuts_only_extends_witness :
  ancestry (wit_hash x0a) wit_cut wit_view = Some OnBranch.
Proof.
  destruct (join_cuts_only_extends wit_view (CutAt 0 (wit_hash x0a)) wit_cut wit_view_ok) as (_ & _ & Hext).
  destruct (Hext wit_cut) as (_ & _ & Ht); [by vm_compute|]. apply Ht. left. by vm_compute.
Defined.

Lemma frontier_resolves_exactly_witness : devices_ascend [wit_head].
Proof.
  destruct (frontier_resolves_exactly wit_view (replicate 32 xaa) [wit_head]) as (_ & Hiff & _);
    [by repeat constructor|].
  assert (match resolve_control_frontier (replicate 32 xaa) [wit_head] wit_view with
          | Some (Ok _) => true | _ => false end = true) as Hok by (by vm_compute).
  destruct (resolve_control_frontier (replicate 32 xaa) [wit_head] wit_view) as [[R|e]|] eqn:HR;
    [|discriminate Hok..]. by apply (Hiff R).
Defined.

Lemma secrets_selection_converges_witness :
  secrets_select_accepted_branch wit_candidates wit_eligible [wit_pin] wit_view =
  secrets_select_accepted_branch (rev wit_candidates) wit_eligible [wit_pin] wit_view.
Proof.
  apply secrets_selection_converges; [exact wit_view_ok|exact wit_candidates_ok|exact wit_candidates_held| |done].
  apply Permutation_rev.
Defined.
