(* ===== verification/Refold.v ===== *)
(** * What the two refolds share ([account/secrets/storage.rs], [account/content/storage.rs])

    A refold re-derives the acceptance of one log from the current fold.  Both refolds compute which
    entries are held back to slot 0 by one forward pass, and narrow the selected branch of every
    chain to a prefix.  The two bodies differ in what "the same chain" compares and in which winners
    a prefix passes over, so those are arguments.  A [HashMap] is iterated in an arbitrary order: the
    theorems do not depend on it. *)

From S2P Require Import Prelude Cbor Minicbor Hash Op Device Entry Stream Branch Envelope Candidate.

Local Open Scope Z_scope.

(** ** Entries held back to slot 0 *)

Section Reach.
Context {H C : Type} `{ChainLink H C}.
Implicit Types (view : gmap AccountEntryHash H) (h p : AccountEntryHash).

Abbreviation ByPrev := (gmap AccountEntryHash (list AccountEntryHash)).

(** One turn of the loop over the view. *)
Definition index_entry (s : ByPrev * list AccountEntryHash) (row : AccountEntryHash * H) : ByPrev * list AccountEntryHash :=
  let '(by_prev, queue) := s in
  let '(hash, header) := row in
  match link_prev_hash header with
  | None => if bool_decide (link_seq header = 0) then (by_prev, queue ++ [hash]) else (by_prev, queue)
  | Some prev => (<[prev := default [] (by_prev !! prev) ++ [hash]]> by_prev, queue)
  end.

Definition index_view view : ByPrev * list AccountEntryHash := foldl index_entry (∅, []) (map_to_list view).

Definition is_root (row : AccountEntryHash * H) : Prop := link_prev_hash row.2 = None ∧ link_seq row.2 = 0.
Definition follows p (row : AccountEntryHash * H) : Prop := link_prev_hash row.2 = Some p.
#[local] Instance is_root_dec row : Decision (is_root row).
Proof using Type. unfold is_root. apply _. Defined.
#[local] Instance follows_dec p row : Decision (follows p row).
Proof using Type. unfold follows. apply _. Defined.

(** The queue is the roots and an index row the successors, both in the order of the iteration. *)
Lemma foldl_index (rows : list (AccountEntryHash * H)) (s : ByPrev * list AccountEntryHash) :
  let r := foldl index_entry s rows in
  r.2 = s.2 ++ (filter is_root rows).*1 ∧
  ∀ p, default [] (r.1 !! p) = default [] (s.1 !! p) ++ (filter (follows p) rows).*1.
Proof using Type.
  revert s. induction rows as [|[h hd] rows IH]; intros [bp q]; cbn [foldl].
  { split; [by rewrite app_nil_r|]. intros p. by rewrite app_nil_r. }
  simpl index_entry. destruct (link_prev_hash hd) as [p0|] eqn:Hp0; [|case_bool_decide as Hs0].
  - destruct (IH (<[p0 := default [] (bp !! p0) ++ [h]]> bp, q)) as [Hq Hp]. simpl in *.
    rewrite filter_cons_False by (unfold is_root; simpl; naive_solver). split; [done|]. intros p. rewrite Hp.
    destruct (decide (p0 = p)) as [->|Hne].
    + rewrite lookup_insert_eq, filter_cons_True by done. simpl. by rewrite <- app_assoc.
    + rewrite lookup_insert_ne, filter_cons_False by (done || unfold follows; simpl; congruence). done.
  - destruct (IH (bp, q ++ [h])) as [Hq Hp]. simpl in *. rewrite filter_cons_True by done. split.
    { rewrite Hq, <- app_assoc. done. }
    intros p. by rewrite Hp, filter_cons_False by (unfold follows; simpl; congruence).
  - destruct (IH (bp, q)) as [Hq Hp]. simpl in *. rewrite filter_cons_False by (unfold is_root; simpl; naive_solver). split; [done|].
    intros p. by rewrite Hp, filter_cons_False by (unfold follows; simpl; congruence).
Qed.

Lemma elem_of_filter_keys (P : AccountEntryHash * H → Prop) `{!∀ x, Decision (P x)} view h :
  h ∈ (filter P (map_to_list view)).*1 ↔ ∃ hd, view !! h = Some hd ∧ P (h, hd).
Proof using Type.
  rewrite list_elem_of_fmap. setoid_rewrite list_elem_of_filter. split.
  - intros ([h' hd] & -> & HP & Hin%elem_of_map_to_list). eauto.
  - intros (hd & Hv & HP). exists (h, hd). by rewrite elem_of_map_to_list.
Qed.

Lemma NoDup_filter_keys (P : AccountEntryHash * H → Prop) `{!∀ x, Decision (P x)} view :
  NoDup (filter P (map_to_list view)).*1.
Proof using Type.
  pose proof (NoDup_fst_map_to_list view) as Hn. induction (map_to_list view) as [|x l IH]; [constructor|].
  rewrite fmap_cons in Hn. apply NoDup_cons in Hn as [Hx Hn]. rewrite filter_cons. case_decide; [|by apply IH].
  rewrite fmap_cons. apply NoDup_cons. split; [|by apply IH]. intros (y & Hy & [_ Hin]%list_elem_of_filter)%list_elem_of_fmap.
  apply Hx. rewrite Hy. by apply list_elem_of_fmap_2.
Qed.

Lemma index_view_eq view :
  (index_view view).2 = (filter is_root (map_to_list view)).*1 ∧
  ∀ p, default [] ((index_view view).1 !! p) = (filter (follows p) (map_to_list view)).*1.
Proof using Type.
  unfold index_view. destruct (foldl_index (map_to_list view) (∅, [])) as [Hq Hp]. split; [done|].
  intros p. rewrite Hp. simpl. by rewrite lookup_empty.
Qed.

Context (same_chain : H → H → bool).

(** A link to a contiguous entry of the same chain. *)
Definition contiguous (parent child : H) : bool :=
  bool_decide (u64_checked_add (link_seq parent) 1 = Some (link_seq child)) && same_chain parent child.

(** [None] is a failed index into the view, or no fuel left. *)
Fixpoint reach_loop (fuel : nat) view (by_prev : ByPrev) (queue : list AccountEntryHash)
    (reachable : gset AccountEntryHash) : option (gset AccountEntryHash) :=
  match queue with
  | [] => Some reachable
  | hash :: queue =>
      match fuel with
      | O => None
      | S fuel =>
          if bool_decide (hash ∈ reachable) then reach_loop fuel view by_prev queue reachable
          else
            parent ← view !! hash;
            children ← mapM (fun child_hash => child ← view !! child_hash; Some (child_hash, child))
                         (default [] (by_prev !! hash));
            reach_loop fuel view by_prev
              (queue ++ (filter (fun c => contiguous parent c.2 = true) children).*1) ({[hash]} ∪ reachable)
      end
  end.

Definition reachable_entries view : option (gset AccountEntryHash) :=
  let '(by_prev, queue) := index_view view in
  reach_loop (S (size view)) view by_prev queue ∅.

(** The specification: a root of slot 0, or a contiguous successor on its chain of a held entry. *)
Inductive held_from_root view : AccountEntryHash → Prop :=
| held_root h hd : view !! h = Some hd → link_prev_hash hd = None → link_seq hd = 0 → held_from_root view h
| held_step h hd p hp : view !! h = Some hd → link_prev_hash hd = Some p → view !! p = Some hp →
    contiguous hp hd = true → held_from_root view p → held_from_root view h.


(** The state of the search: the queue and the entries reached so far are distinct held entries
    that the specification has, and each one but a root was queued by its reached predecessor. *)
Record reach_inv view (queue : list AccountEntryHash) (R : gset AccountEntryHash) : Prop := {
  ri_nodup : NoDup queue;
  ri_fresh h : h ∈ queue → h ∉ R;
  ri_held h : h ∈ queue ∨ h ∈ R → held_from_root view h;
  ri_from h hd p : h ∈ queue ∨ h ∈ R → view !! h = Some hd → link_prev_hash hd = Some p → p ∈ R;
  ri_roots h hd : view !! h = Some hd → is_root (h, hd) → h ∈ queue ∨ h ∈ R;
  ri_closed h hd p hp : view !! h = Some hd → link_prev_hash hd = Some p → p ∈ R → view !! p = Some hp →
    contiguous hp hd = true → h ∈ queue ∨ h ∈ R;
}.

Lemma held_in_view view h : held_from_root view h → is_Some (view !! h).
Proof using Type. destruct 1; eauto. Qed.

(** What the processing of one entry queues. *)
Definition next_entries view p (parent : H) : list AccountEntryHash :=
  (filter (fun c => contiguous parent c.2 = true) (filter (follows p) (map_to_list view))).*1.

Lemma elem_of_next view p parent h :
  h ∈ next_entries view p parent ↔
  ∃ hd, view !! h = Some hd ∧ link_prev_hash hd = Some p ∧ contiguous parent hd = true.
Proof using Type.
  unfold next_entries. rewrite list_filter_filter, elem_of_filter_keys. unfold follows. simpl.
  split; intros (hd & Hh & ? & ?); exists hd; tauto.
Qed.

Lemma reach_inv_pop view hash parent queue R :
  reach_inv view (hash :: queue) R → view !! hash = Some parent →
  reach_inv view (queue ++ next_entries view hash parent) ({[hash]} ∪ R).
Proof using Type.
  intros [Hnd Hfresh Hheld Hfrom Hroots Hclosed] Hv. apply NoDup_cons in Hnd as [Hhq Hnd].
  assert (hash ∉ R) as HhR by (apply Hfresh; set_solver).
  assert (∀ h, h ∈ next_entries view hash parent → h ∉ queue ∧ h ∉ R ∧ h ≠ hash) as Hnew.
  { intros h (hd & Hh & Hp & _)%elem_of_next. split_and!.
    - intros Hq. apply HhR. eapply Hfrom; [left; right; exact Hq|done..].
    - intros Hr. apply HhR. eapply Hfrom; [right; exact Hr|done..].
    - intros ->. apply HhR. eapply Hfrom; [left; left|done..]. }
  split.
  - apply NoDup_app. split_and!; [done|intros h Hq Hn; by destruct (Hnew h Hn)|].
    unfold next_entries. rewrite list_filter_filter. apply NoDup_filter_keys.
  - intros h [Hq|Hn]%elem_of_app; rewrite elem_of_union, elem_of_singleton.
    + intros [->|Hr]; [done|]. eapply Hfresh; [right; exact Hq|done].
    + intros [->|Hr]; by destruct (Hnew _ Hn) as (? & ? & ?).
  - intros h [Hq|Hr].
    + apply elem_of_app in Hq as [Hq|(hd & Hh & Hp & Hc)%elem_of_next]; [apply Hheld; left; by right|].
      eapply held_step; [done..|]. apply Hheld. left. by left.
    + apply elem_of_union in Hr as [->%elem_of_singleton|Hr]; apply Hheld; [left; by left|by right].
  - intros h hd p Hin Hh Hp. apply elem_of_union. rewrite elem_of_app, elem_of_union, elem_of_singleton in Hin.
    destruct Hin as [[Hq|(hd' & Hh' & Hp' & _)%elem_of_next]|[->|Hr]].
    + right. eapply Hfrom; [left; right; exact Hq|done..].
    + left. apply elem_of_singleton. congruence.
    + right. eapply Hfrom; [left; left|done..].
    + right. eapply Hfrom; [right; exact Hr|done..].
  - intros h hd Hh Hr. rewrite elem_of_app, elem_of_union, elem_of_singleton.
    destruct (Hroots h hd Hh Hr) as [[->|?]%elem_of_cons|?]; auto.
  - intros h hd p hp Hh Hp Hin Hvp Hc. rewrite elem_of_app, elem_of_union, elem_of_singleton.
    apply elem_of_union in Hin as [->%elem_of_singleton|Hin].
    + left. right. apply elem_of_next. exists hd. split_and!; [done..|]. congruence.
    + destruct (Hclosed h hd p hp Hh Hp Hin Hvp Hc) as [[->|?]%elem_of_cons|?]; auto.
Qed.

Lemma mapM_children view p :
  mapM (fun child_hash => child ← view !! child_hash; Some (child_hash, child))
    (filter (follows p) (map_to_list view)).*1 = Some (filter (follows p) (map_to_list view)).
Proof using Type.
  apply mapM_Some. apply Forall2_fmap_l, Forall_Forall2_diag, Forall_forall.
  intros [h hd] [_ Hin%elem_of_map_to_list]%list_elem_of_filter. simpl. by rewrite Hin.
Qed.

Lemma reach_inv_size view queue R : reach_inv view queue R → (length queue + size R ≤ size view)%nat.
Proof using Type.
  intros Hinv. rewrite <- (size_dom view), <- (size_list_to_set (C:=gset AccountEntryHash) queue) by apply Hinv.
  rewrite <- size_union by (intros h Hq%elem_of_list_to_set; by apply (ri_fresh _ _ _ Hinv)).
  apply subseteq_size. intros h. rewrite elem_of_union, elem_of_list_to_set. intros Hh.
  apply elem_of_dom. by eapply held_in_view, (ri_held _ _ _ Hinv).
Qed.

Lemma reach_loop_spec view fuel queue R :
  reach_inv view queue R → (size view - size R < fuel)%nat →
  ∃ R', reach_loop fuel view (index_view view).1 queue R = Some R' ∧ reach_inv view [] R'.
Proof using Type.
  revert queue R. induction fuel as [|fuel IH]; intros queue R Hinv Hf; [lia|].
  destruct queue as [|hash queue]; [by exists R|]. cbn [reach_loop].
  assert (hash ∉ R) as HhR by (apply (ri_fresh _ _ _ Hinv); set_solver). rewrite bool_decide_false by done.
  destruct (held_in_view view hash) as [parent Hv]; [apply (ri_held _ _ _ Hinv); set_solver|].
  rewrite Hv. simpl. rewrite (proj2 (index_view_eq view)), mapM_children. simpl.
  pose proof (reach_inv_pop view hash parent queue R Hinv Hv) as Hinv'.
  apply IH; [exact Hinv'|]. pose proof (reach_inv_size _ _ _ Hinv). simpl in *.
  rewrite size_union, size_singleton by set_solver. lia.
Qed.

(** The forward pass returns, with exactly the entries whose chain is held back to slot 0. *)
Lemma reachable_entries_spec view :
  ∃ R, reachable_entries view = Some R ∧ ∀ h, h ∈ R ↔ held_from_root view h.
Proof using Type.
  unfold reachable_entries. destruct (index_view view) as [by_prev queue] eqn:Hidx.
  destruct (index_view_eq view) as [Hq _]. rewrite Hidx in Hq. simpl in Hq.
  assert (reach_inv view queue ∅) as Hinv.
  { rewrite Hq. split.
    - apply NoDup_filter_keys.
    - set_solver.
    - intros h [(hd & Hh & [Hp Hs])%elem_of_filter_keys|?]; [|set_solver]. by eapply held_root.
    - intros h hd p [(hd' & Hh & [Hp Hs])%elem_of_filter_keys|?] Hh' Hp'; [|set_solver]. simpl in *. congruence.
    - intros h hd Hh Hr. left. apply elem_of_filter_keys. eauto.
    - set_solver. }
  destruct (reach_loop_spec view (S (size view)) queue ∅ Hinv) as (R & HR & Hfin); [rewrite size_empty; lia|].
  rewrite Hidx in HR. exists R. split; [exact HR|]. intros h. split.
  - intros Hh. apply (ri_held _ _ _ Hfin). by right.
  - induction 1 as [h hd Hh Hp Hs|h hd p hp Hh Hp Hvp Hc _ IH].
    + by destruct (ri_roots _ _ _ Hfin h hd Hh) as [?%elem_of_nil|?].
    + by destruct (ri_closed _ _ _ Hfin h hd p hp Hh Hp IH Hvp Hc) as [?%elem_of_nil|?].
Qed.
End Reach.

(** ** The view of a log *)

Section View.
Context {H : Type}.
Implicit Types (rows : list (AccountEntryHash * H)) (h : AccountEntryHash) (hd : H).

(** [collect] into a map. *)
Definition collect_view rows : gmap AccountEntryHash H := foldl (fun view row => <[row.1 := row.2]> view) ∅ rows.

Lemma lookup_collect_view rows h hd : NoDup rows.*1 → collect_view rows !! h = Some hd ↔ (h, hd) ∈ rows.
Proof using Type.
  induction rows as [|[h0 hd0] rows IH] using rev_ind; intros Hnd.
  { unfold collect_view. cbn [foldl]. rewrite lookup_empty. split; [done|by intros ?%elem_of_nil]. }
  rewrite fmap_app in Hnd. apply NoDup_app in Hnd as (Hnd & Hdisj & _). unfold collect_view in *.
  rewrite foldl_snoc, lookup_insert_Some, IH, elem_of_app, list_elem_of_singleton by done. simpl. split.
  - intros [[-> ->]|[_ ?]]; [by right|by left].
  - intros [Hin|[= -> ->]]; [right|by left]. split; [|done]. intros ->. apply (Hdisj h); [|by left].
    exact (list_elem_of_fmap_2 fst rows _ Hin).
Qed.
End View.

(** ** Accepted prefixes *)

(** A selected entry: its slot, its hash, and whether a prefix passes over it when it is not accepted. *)
Abbreviation Winner := (Z * AccountEntryHash * bool)%type.

Section Prefix.
Context {C : Type} `{Countable C} (is_accepted : AccountEntryHash → bool).
Implicit Types (rows : list (C * Winner)) (c : C) (w : Winner).

Definition push_winner (chains : gmap C (list Winner)) (row : C * Winner) : gmap C (list Winner) :=
  <[row.1 := default [] (chains !! row.1) ++ [row.2]]> chains.

(** The loop over the winners of one chain, up to its [break]. *)
Fixpoint accepted_run (winners : list Winner) : list AccountEntryHash :=
  match winners with
  | [] => []
  | (_, hash, transparent) :: winners =>
      if is_accepted hash then hash :: accepted_run winners
      else if (transparent : bool) then accepted_run winners
      else []
  end.

Definition winner_seq w : Z := w.1.1.
Definition winner_hash w : AccountEntryHash := w.1.2.

Definition prefix_closed_accepted rows : gset AccountEntryHash :=
  list_to_set (mjoin ((fun chain => accepted_run (sort_by_key winner_seq chain.2)) <$>
                        map_to_list (foldl push_winner ∅ rows))).

(** One row per slot of a chain. *)
Definition slots_distinct rows : Prop :=
  ∀ c w w', (c, w) ∈ rows → (c, w') ∈ rows → winner_seq w = winner_seq w' → w = w'.

Definition passed w : bool := is_accepted (winner_hash w) || w.2.

Lemma foldl_push rows (chains : gmap C (list Winner)) c :
  default [] (foldl push_winner chains rows !! c) = default [] (chains !! c) ++ (filter (fun r => r.1 = c) rows).*2.
Proof using Type.
  revert chains. induction rows as [|[c' w] rows IH]; intros chains; cbn [foldl]; [by rewrite app_nil_r|].
  rewrite IH. unfold push_winner. simpl. destruct (decide (c' = c)) as [->|Hne].
  - rewrite lookup_insert_eq, filter_cons_True by done. simpl. by rewrite <- app_assoc.
  - rewrite lookup_insert_ne, filter_cons_False by done. done.
Qed.

(** On winners in ascending slots the loop keeps those with no unaccepted, opaque winner before them. *)
Lemma elem_of_accepted_run l h :
  StronglySorted (fun w w' => winner_seq w ≤ winner_seq w') l → NoDup (winner_seq <$> l) →
  h ∈ accepted_run l ↔
  ∃ w, w ∈ l ∧ winner_hash w = h ∧ is_accepted h = true ∧ ∀ w', w' ∈ l → winner_seq w' < winner_seq w → passed w' = true.
Proof using Type.
  induction l as [|[[s h0] t] l IH]; intros Hs Hnd; cbn [accepted_run].
  { split; [by intros ?%elem_of_nil|]. by intros (w & ?%elem_of_nil & _). }
  apply StronglySorted_inv in Hs as [Hs Hle]. rewrite fmap_cons in Hnd. apply NoDup_cons in Hnd as [Hni Hnd].
  assert (∀ w, w ∈ l → s < winner_seq w) as Hlt.
  { intros w Hw. rewrite Forall_forall in Hle. specialize (Hle w Hw). unfold winner_seq at 1 in Hle. simpl in Hle.
    assert (winner_seq w ≠ s); [|lia]. intros Heq. apply Hni. unfold winner_seq at 1. simpl. rewrite <- Heq. by apply list_elem_of_fmap_2. }
  specialize (IH Hs Hnd).
  assert (passed (s, h0, t) = is_accepted h0 || t) as Hp0 by done.
  assert (passed (s, h0, t) = true → h ∈ accepted_run l ↔ ∃ w, w ∈ l ∧ winner_hash w = h ∧ is_accepted h = true ∧
            ∀ w', w' ∈ (s, h0, t) :: l → winner_seq w' < winner_seq w → passed w' = true) as Htail.
  { intros Hp. rewrite IH. split; intros (w & Hw & Hh & Ha & Hall); exists w; split_and!; try done.
    - intros w' [->|Hw']%elem_of_cons Hlt'; [done|by apply Hall].
    - intros w' Hw' Hlt'. apply Hall; [by right|done]. }
  destruct (is_accepted h0) eqn:Ha0; [|destruct t eqn:Ht].
  - rewrite elem_of_cons, Htail by (by rewrite Hp0). split.
    + intros [->|(w & Hw & Hrest)]; [|exists w; split; [by right|done]].
      exists (s, h0, t). split; [by left|]. split_and!; try done. intros w' [->|Hw']%elem_of_cons Hlt'; [lia|].
      specialize (Hlt w' Hw'). unfold winner_seq at 2 in Hlt'. simpl in Hlt'. lia.
    + intros (w & [->|Hw]%elem_of_cons & Hh & Hrest); [by left|right]. by exists w.
  - rewrite Htail by (by rewrite Hp0). split; intros (w & Hw & Hh & Ha & Hall); exists w.
    + split; [by right|done].
    + apply elem_of_cons in Hw as [->|Hw]; [|done]. unfold winner_hash in Hh. simpl in Hh. congruence.
  - split; [by intros ?%elem_of_nil|]. intros (w & Hw & Hh & Ha & Hall). exfalso.
    apply elem_of_cons in Hw as [->|Hw]; [unfold winner_hash in Hh; simpl in Hh; congruence|].
    assert (passed (s, h0, false) = true) as Hp; [|by rewrite Hp0 in Hp].
    apply Hall; [by left|]. unfold winner_seq at 1. simpl. by apply Hlt.
Qed.

(** The accepted entries of every chain are the selected entries with an accepted verdict below
    which every selected entry of the chain is accepted or passed over. *)
Lemma elem_of_prefix_closed rows h :
  NoDup rows → slots_distinct rows →
  h ∈ prefix_closed_accepted rows ↔
  ∃ c w, (c, w) ∈ rows ∧ winner_hash w = h ∧ is_accepted h = true ∧
    ∀ w', (c, w') ∈ rows → winner_seq w' < winner_seq w → passed w' = true.
Proof using Type.
  intros Hnd Hslots. unfold prefix_closed_accepted. rewrite elem_of_list_to_set, list_elem_of_join.
  assert (∀ c, default [] (foldl push_winner ∅ rows !! c) = (filter (fun r => r.1 = c) rows).*2) as Hchain.
  { intros c. rewrite foldl_push. by rewrite lookup_empty. }
  assert (∀ c w, w ∈ (filter (fun r => r.1 = c) rows).*2 ↔ (c, w) ∈ rows) as Hin.
  { intros c w. rewrite list_elem_of_fmap. setoid_rewrite list_elem_of_filter. split.
    - intros ([c' w'] & -> & Hc & ?). simpl in Hc. by subst.
    - intros Hw. by exists (c, w). }
  assert (∀ c, NoDup (winner_seq <$> (filter (fun r => r.1 = c) rows).*2)) as Hseq.
  { intros c. apply NoDup_fmap_2_strong.
    - intros w w' Hw%Hin Hw'%Hin. by apply (Hslots c).
    - apply NoDup_fmap_2_strong; [|by apply NoDup_filter].
      intros [c1 w1] [c2 w2] [Hc1 _]%list_elem_of_filter [Hc2 _]%list_elem_of_filter. simpl in *. congruence. }
  assert (∀ c, h ∈ accepted_run (sort_by_key winner_seq (filter (fun r => r.1 = c) rows).*2) ↔
    ∃ w, (c, w) ∈ rows ∧ winner_hash w = h ∧ is_accepted h = true ∧
      ∀ w', (c, w') ∈ rows → winner_seq w' < winner_seq w → passed w' = true) as Hrun.
  { intros c. rewrite elem_of_accepted_run.
    - setoid_rewrite sort_by_key_perm. setoid_rewrite Hin. done.
    - eapply StronglySorted_weaken; [|apply (sort_by_key_sorted winner_seq)]. intros w w' Hle. by apply cle_Z in Hle.
    - rewrite (fmap_Permutation winner_seq _ _ (sort_by_key_perm winner_seq _)). apply Hseq. }
  split.
  - intros (l & Hl & (chain & -> & Hc)%list_elem_of_fmap). destruct chain as [c ws]. apply elem_of_map_to_list in Hc.
    specialize (Hchain c). rewrite Hc in Hchain. simpl in Hchain, Hl. subst ws. exists c. by apply Hrun.
  - intros (c & Hw). apply Hrun in Hw. exists (accepted_run (sort_by_key winner_seq (filter (fun r => r.1 = c) rows).*2)).
    split; [done|]. apply list_elem_of_fmap. specialize (Hchain c). destruct (foldl push_winner ∅ rows !! c) as [ws|] eqn:Hc.
    + simpl in Hchain. subst ws. exists (c, (filter (fun r => r.1 = c) rows).*2). split; [done|]. by apply elem_of_map_to_list.
    + simpl in Hchain. rewrite <- Hchain in Hw. simpl in Hw. by apply elem_of_nil in Hw.
Qed.
End Prefix.

(** ** Slots of a selection *)

Section Slots.
Context {H C : Type} `{ChainLink H C} `{Countable C}.
Implicit Types (candidates E : list (Candidate H)) (eligible : gset AccountEntryHash) (chain : C).

Lemma dense_chain_lookup E chain slot parent l (i : nat) h :
  dense_chain E chain slot parent l → l !! i = Some h →
  ∃ c, c ∈ E ∧ ca_entry_hash c = h ∧ coordinate (ca_header c) = chain ∧ link_seq (ca_header c) = slot + Z.of_nat i.
Proof using Type.
  intros Hd. revert i. induction Hd as [|slot parent c l Hc (Hco & _ & Hs) Hd IH]; intros i; [done|].
  destruct i as [|i]; simpl.
  - intros [= <-]. exists c. split_and!; [done..|lia].
  - intros Hi. destruct (IH i Hi) as (c' & ? & ? & ? & ?). exists c'. split_and!; [done..|lia].
Qed.

Context (candidates : list (Candidate H)) (eligible : gset AccountEntryHash) (pins : C → gset AccountEntryHash)
  (sel : BranchSelection) (Hok : candidates_ok candidates)
  (Hsel : select_accepted_branch candidates eligible pins = Some sel).

(** A selected candidate sits on the winners of its chain at the slot it names. *)
Lemma selected_lookup c :
  c ∈ candidates → ca_entry_hash c ∈ bs_accepted sel →
  ∃ i, winners candidates eligible pins (coordinate (ca_header c)) !! i = Some (ca_entry_hash c) ∧
       link_seq (ca_header c) = Z.of_nat i.
Proof using Hok Hsel.
  intros Hc Ha. destruct (select_spec candidates eligible pins Hok) as (sel' & Hs & HA & _ & _).
  assert (sel' = sel) as -> by congruence. apply HA in Ha as (chain & [i Hi]%list_elem_of_lookup).
  destruct (dense_chain_lookup _ _ _ _ _ _ _ (walk_slots_dense _ candidates eligible chain (pins chain) 0 None) Hi)
    as (c' & Hc' & Heq & Hco & Hseq).
  apply (same_hash_same candidates) in Heq as ->; [|apply Hok|by eapply eligible_sub|done].
  exists i. rewrite Hco. split; [done|lia].
Qed.

Lemma selected_slot_unique c c' :
  c ∈ candidates → c' ∈ candidates → ca_entry_hash c ∈ bs_accepted sel → ca_entry_hash c' ∈ bs_accepted sel →
  coordinate (ca_header c) = coordinate (ca_header c') → link_seq (ca_header c) = link_seq (ca_header c') → c = c'.
Proof using Hok Hsel.
  intros Hc Hc' Ha Ha' Hco Hs. destruct (selected_lookup c Hc Ha) as (i & Hi & Hsi).
  destruct (selected_lookup c' Hc' Ha') as (j & Hj & Hsj). assert (i = j) as <- by lia. rewrite <- Hco, Hi in Hj.
  apply (same_hash_same candidates); [apply Hok|done..|congruence].
Qed.

(** Every slot below a selected one is selected. *)
Lemma selected_below c s :
  c ∈ candidates → ca_entry_hash c ∈ bs_accepted sel → 0 ≤ s < link_seq (ca_header c) →
  ∃ c', c' ∈ candidates ∧ ca_entry_hash c' ∈ bs_accepted sel ∧
    coordinate (ca_header c') = coordinate (ca_header c) ∧ link_seq (ca_header c') = s.
Proof using Hok Hsel.
  intros Hc Ha Hs. destruct (selected_lookup c Hc Ha) as (i & Hi & Hsi).
  set (chain := coordinate (ca_header c)) in *.
  destruct (lookup_lt_is_Some_2 (winners candidates eligible pins chain) (Z.to_nat s)) as [h Hh].
  { apply lookup_lt_Some in Hi. lia. }
  destruct (dense_chain_lookup _ _ _ _ _ _ _ (walk_slots_dense _ candidates eligible chain (pins chain) 0 None) Hh)
    as (c' & Hc' & Heq & Hco & Hseq).
  exists c'. split_and!; [by eapply eligible_sub| |done|lia].
  destruct (select_spec candidates eligible pins Hok) as (sel' & Hs' & HA & _ & _).
  assert (sel' = sel) as -> by congruence. apply HA. exists chain. rewrite Heq. by eapply list_elem_of_lookup_2.
Qed.

Lemma selected_eligible c : c ∈ candidates → ca_entry_hash c ∈ bs_accepted sel → ca_entry_hash c ∈ eligible.
Proof using Hok Hsel.
  intros Hc Ha. destruct (select_spec candidates eligible pins Hok) as (sel' & Hs & HA & _ & _).
  assert (sel' = sel) as -> by congruence. apply HA in Ha as (chain & Hh).
  destruct (dense_chain_seq _ _ _ _ _ _ (walk_slots_dense _ candidates eligible chain (pins chain) 0 None) Hh)
    as (c' & Hc' & Heq & _). apply list_elem_of_filter in Hc' as [Hc' _]. by rewrite <- Heq.
Qed.
End Slots.

(** ** The accepted entries of a pass *)

Section Winners.
Context {R H C : Type} `{ChainLink H C} `{Countable C}.
Context (rhash : R → AccountEntryHash) (rheader : R → H) (transparent : R → bool).

Definition candidates_of (resolved : list R) : list (Candidate H) := (fun r => mkCandidate (rhash r) (rheader r)) <$> resolved.

(** The selected entries, as the rows [prefix_closed_accepted] sorts. *)
Definition winner_of (r : R) : Winner := (link_seq (rheader r), rhash r, transparent r).
Definition winner_rows (resolved : list R) (selection : BranchSelection) : list (C * Winner) :=
  (fun r => (coordinate (rheader r), winner_of r)) <$> filter (fun r => rhash r ∈ bs_accepted selection) resolved.

Context (resolved : list R) (eligible : gset AccountEntryHash) (pins : C → gset AccountEntryHash)
  (selection : BranchSelection).

Definition selected (r : R) : Prop := r ∈ resolved ∧ rhash r ∈ bs_accepted selection.

Lemma elem_of_winner_rows c w :
  (c, w) ∈ winner_rows resolved selection ↔ ∃ r, selected r ∧ c = coordinate (rheader r) ∧ w = winner_of r.
Proof using Type.
  unfold winner_rows, selected. rewrite list_elem_of_fmap. setoid_rewrite list_elem_of_filter. split.
  - intros (r & Heq & Hs & Hr). exists r. split; [done|]. split; [exact (f_equal fst Heq)|exact (f_equal snd Heq)].
  - intros (r & [? ?] & -> & ->). eauto.
Qed.

Context (Hok : candidates_ok (candidates_of resolved))
  (Hsel : select_accepted_branch (candidates_of resolved) eligible pins = Some selection).

Lemma hashes_NoDup : NoDup (rhash <$> resolved).
Proof using Hok. destruct Hok as [Hnd _]. unfold candidates_of in Hnd. by rewrite <- list_fmap_compose in Hnd. Qed.

Lemma by_hash r r' : r ∈ resolved → r' ∈ resolved → rhash r = rhash r' → r = r'.
Proof using Hok. intros. eapply NoDup_fmap_inj; [apply hashes_NoDup|done..]. Qed.

Lemma candidate_of r : r ∈ resolved → mkCandidate (rhash r) (rheader r) ∈ candidates_of resolved.
Proof using Type. intros Hr. apply list_elem_of_fmap. eauto. Qed.

(** One selected entry per slot of a chain. *)
Lemma selected_unique r r' :
  selected r → selected r' → coordinate (rheader r) = coordinate (rheader r') →
  link_seq (rheader r) = link_seq (rheader r') → r = r'.
Proof using Hok Hsel.
  intros [Hr Hs] [Hr' Hs'] Hco Hseq. apply by_hash; [done..|].
  assert (mkCandidate (rhash r) (rheader r) = mkCandidate (rhash r') (rheader r')) as Heq; [|congruence].
  eapply selected_slot_unique; [exact Hok|exact Hsel|by apply candidate_of..|done|done|done|done].
Qed.

(** Every slot below a selected entry is selected. *)
Lemma selected_under r s :
  selected r → 0 ≤ s < link_seq (rheader r) →
  ∃ r', selected r' ∧ coordinate (rheader r') = coordinate (rheader r) ∧ link_seq (rheader r') = s.
Proof using Hok Hsel.
  intros [Hr Ha] Hs.
  destruct (selected_below _ _ _ _ Hok Hsel (mkCandidate (rhash r) (rheader r)) s) as (c & Hc & Hac & Hco & Hseq);
    [by apply candidate_of|done|done|].
  apply list_elem_of_fmap in Hc as (r' & -> & Hr'). by exists r'.
Qed.

Lemma winner_rows_NoDup : NoDup (winner_rows resolved selection).
Proof using All.
  unfold winner_rows. apply NoDup_fmap_2_strong.
  - intros r r' [_ Hr]%list_elem_of_filter [_ Hr']%list_elem_of_filter Heq. apply by_hash; [done..|].
    exact (f_equal (fun row => winner_hash row.2) Heq).
  - apply NoDup_filter. eapply NoDup_fmap_1. apply hashes_NoDup.
Qed.

Context (accepts : R → Prop) (is_accepted : AccountEntryHash → bool)
  (Hacc : ∀ r, r ∈ resolved → is_accepted (rhash r) = true ↔ accepts r)
  (Hsub : ∀ r, r ∈ resolved → accepts r → selected r).

Definition below_passes (r : R) : Prop :=
  ∀ r', selected r' → coordinate (rheader r') = coordinate (rheader r) → link_seq (rheader r') < link_seq (rheader r) →
    transparent r' = true ∨ accepts r'.

(** The accepted entries, exactly: those with an accepting verdict below which every selected entry
    of the chain accepts or is passed over. *)
Lemma elem_of_accepted h :
  h ∈ prefix_closed_accepted is_accepted (winner_rows resolved selection) ↔
  ∃ r, r ∈ resolved ∧ rhash r = h ∧ accepts r ∧ below_passes r.
Proof using All.
  rewrite elem_of_prefix_closed; [|apply winner_rows_NoDup|].
  2: { intros c w w' (r & Hr & -> & ->)%elem_of_winner_rows (r' & Hr' & Hc & ->)%elem_of_winner_rows Hs.
       by rewrite (selected_unique r r'). }
  split.
  - intros (c & w & Hrow & <- & Ha & Hall). apply elem_of_winner_rows in Hrow as (r & Hr & -> & ->).
    exists r. split_and!; [apply Hr|done|apply Hacc; [apply Hr|exact Ha]|].
    intros r' Hr' Hc Hlt. specialize (Hall (winner_of r') ltac:(apply elem_of_winner_rows; by exists r') Hlt).
    unfold passed in Hall. apply orb_true_iff in Hall as [Hp|Hp]; [right|by left]. apply Hacc; [apply Hr'|exact Hp].
  - intros (r & Hr & <- & Hf & Hb). exists (coordinate (rheader r)), (winner_of r). split_and!.
    + apply elem_of_winner_rows. exists r. split; [|done]. by apply Hsub.
    + done.
    + by apply Hacc.
    + intros w' (r' & Hr' & Hc & ->)%elem_of_winner_rows Hlt. unfold passed. apply orb_true_iff.
      destruct (Hb r' Hr') as [Ht|Ha]; [congruence|exact Hlt|by right|left]. apply Hacc; [apply Hr'|done].
Qed.

(** The accepted entries are closed downward, up to those passed over. *)
Lemma accepted_downward r r' :
  below_passes r → selected r' → coordinate (rheader r') = coordinate (rheader r) →
  link_seq (rheader r') < link_seq (rheader r) →
  transparent r' = true ∨ rhash r' ∈ prefix_closed_accepted is_accepted (winner_rows resolved selection).
Proof using All.
  intros Hb Hr' Hc Hlt. destruct (Hb r' Hr' Hc Hlt) as [?|Hf]; [by left|right].
  apply elem_of_accepted. exists r'. split_and!; [apply Hr'|done|done|].
  intros r2 Hr2 Hc2 Hlt2. apply Hb; [done|congruence|lia].
Qed.
End Winners.
