(* ===== verification/AccountOps.v ===== *)
(** * Control operations and the account id ([account/ops.rs], [account/id.rs])

    The ten control-log operations, the canonicalization an author applies before signing, the
    canonical-CBOR codec with its re-encoding check, retention of operations of an unknown entry
    type, and the derivation of an account id from the genesis payload.  [OwnerId], [GrantId],
    [AccountEntryHash] and the other 32-byte identifiers are byte lists whose width is stated by
    [account_op_ok]. *)

From S2P Require Import Prelude Cbor Minicbor Hash Op Device Entry Stream Branch Envelope Candidate.

Local Open Scope Z_scope.

(** ** Data *)

Definition ACCOUNT_GENESIS : Z := 0.
Definition DEVICE_ADD : Z := 1.
Definition DEVICE_REMOVE : Z := 2.
Definition OWNER_PROMOTE : Z := 3.
Definition OWNER_DEMOTE : Z := 4.
Definition CUT_EXTEND : Z := 5.
Definition STREAM_OWN : Z := 6.
Definition STREAM_GRANT : Z := 7.
Definition STREAM_REVOKE : Z := 8.
Definition ACCOUNT_REROOT : Z := 9.

Definition ACCOUNT_ID_DOMAIN : bytes := lit "rag-rat/account/1".
Definition DEVICE_CUTS_MAX : Z := 256.
Definition CONTENT_CUTS_MAX : Z := 1024.

Inductive DeviceRole : Type := ReadOnly | Member | Owner.

#[export] Instance DeviceRole_eq_dec : EqDecision DeviceRole.
Proof. solve_decision. Defined.

Definition can_author_content (r : DeviceRole) : bool :=
  match r with Member | Owner => true | ReadOnly => false end.

Definition DeviceRole_as_u8 (r : DeviceRole) : Z :=
  match r with Member => 1 | Owner => 2 | ReadOnly => 3 end.
Definition DeviceRole_from_u8 (value : Z) : result CborError DeviceRole :=
  match value with
  | 1 => Ok Member
  | 2 => Ok Owner
  | 3 => Ok ReadOnly
  | _ => Err (Message "unknown device role")
  end.

Inductive GrantRole : Type := Reader | Writer.

#[export] Instance GrantRole_eq_dec : EqDecision GrantRole.
Proof. solve_decision. Defined.

Definition GrantRole_as_u8 (r : GrantRole) : Z := match r with Reader => 1 | Writer => 2 end.
Definition GrantRole_from_u8 (value : Z) : result CborError GrantRole :=
  match value with
  | 1 => Ok Reader
  | 2 => Ok Writer
  | _ => Err (Message "unknown grant role")
  end.

Inductive ChainKind : Type := Ctrl | Secrets | Content.

#[export] Instance ChainKind_eq_dec : EqDecision ChainKind.
Proof. solve_decision. Defined.

Definition ChainKind_as_u8 (k : ChainKind) : Z := match k with Ctrl => 0 | Secrets => 1 | Content => 2 end.
Definition ChainKind_from_u8 (value : Z) : result CborError ChainKind :=
  match value with
  | 0 => Ok Ctrl
  | 1 => Ok Secrets
  | 2 => Ok Content
  | _ => Err (Message "unknown chain kind")
  end.

Record ContentCut : Type := mkContentCut {
  ct_stream_id : StreamId;
  ct_seq : Z;
  ct_hash : AccountEntryHash;
}.

#[export] Instance ContentCut_eq_dec : EqDecision ContentCut.
Proof. solve_decision. Defined.
#[export] Instance DeviceCut_eq_dec : EqDecision DeviceCut.
Proof. solve_decision. Defined.

Inductive AccountOp : Type :=
| AccountGenesis (ed25519_pubkey x25519_pubkey nonce16 : bytes) (created_at_ms : Z) (label : option bytes)
| DeviceAdd (device_fingerprint : DeviceFingerprint) (ed25519_pubkey x25519_pubkey : bytes)
    (role : DeviceRole) (label : option bytes)
| DeviceRemove (device_fingerprint : DeviceFingerprint) (control_cut secrets_cut : Cut)
    (content_cuts : list ContentCut) (reason : bytes)
| OwnerPromote (device_fingerprint : DeviceFingerprint)
| OwnerDemote (device_fingerprint : DeviceFingerprint) (owner_id : OwnerId)
    (control_cut secrets_cut : Cut) (reason : bytes)
| CutExtend (chain_kind : ChainKind) (stream_id : option StreamId)
    (incarnation_id : option AccountEntryHash) (subject_account_id : AccountId)
    (device_fingerprint : DeviceFingerprint) (new_seq : Z) (new_entry_hash : AccountEntryHash)
| StreamOwn (stream_id : StreamId) (stream_spec_bytes : bytes)
| StreamGrant (stream_id : StreamId) (grantee_account_id : AccountId) (grant_role : GrantRole)
| StreamRevoke (stream_id : StreamId) (grantee_account_id : AccountId) (grant_id : GrantId)
    (device_cuts : list DeviceCut) (reason : bytes)
| AccountReRoot (successor_account_id : AccountId) (note : option bytes).

Inductive DecodedAccountOp : Type :=
| KnownOp (op : AccountOp)
| UnknownOp (entry_type : Z) (bs : bytes).

Definition entry_type_of (op : AccountOp) : Z :=
  match op with
  | AccountGenesis _ _ _ _ _ => ACCOUNT_GENESIS
  | DeviceAdd _ _ _ _ _ => DEVICE_ADD
  | DeviceRemove _ _ _ _ _ => DEVICE_REMOVE
  | OwnerPromote _ => OWNER_PROMOTE
  | OwnerDemote _ _ _ _ _ => OWNER_DEMOTE
  | CutExtend _ _ _ _ _ _ _ => CUT_EXTEND
  | StreamOwn _ _ => STREAM_OWN
  | StreamGrant _ _ _ => STREAM_GRANT
  | StreamRevoke _ _ _ _ _ => STREAM_REVOKE
  | AccountReRoot _ _ => ACCOUNT_REROOT
  end.

(** ** Canonicalization *)

(** [sorted.windows(2).any(|pair| key(pair[0]) == key(pair[1]))]. *)
Fixpoint any_adjacent_equal `{EqDecision K} (keys : list K) : bool :=
  match keys with
  | a :: (b :: _) as rest => bool_decide (a = b) || any_adjacent_equal rest
  | _ => false
  end.

(** The body shared by [canonical_content_cuts] and [canonical_device_cuts]. *)
Definition canonical_cuts {K A} `{Cmp K, EqDecision K, EqDecision A} (key : A → K) (max : Z) (conflict over : string)
    (cuts : list A) : result CborError (list A) :=
  let sorted := dedup (sort_by_key key cuts) in
  if any_adjacent_equal (key <$> sorted) then Err (Message conflict)
  else if bool_decide (max < len sorted) then Err (Message over)
  else Ok sorted.

Definition canonical_content_cuts : list ContentCut → result CborError (list ContentCut) :=
  canonical_cuts ct_stream_id CONTENT_CUTS_MAX
    "content_cuts has conflicting entries for one stream_id" "content_cuts exceeds the bound".
Definition canonical_device_cuts : list DeviceCut → result CborError (list DeviceCut) :=
  canonical_cuts dc_device_fingerprint DEVICE_CUTS_MAX
    "device_cuts has conflicting entries for one device" "device_cuts exceeds the bound".

Definition stream_id_coupling (kind : ChainKind) (stream_id : option StreamId) : result CborError unit :=
  if bool_decide (bool_decide (kind = Content) ≠ bool_decide (is_Some stream_id))
  then Err (Message "CutExtend stream_id is present iff chain_kind is content")
  else Ok tt.

Section Codec.
Context `{Minicbor} `{Sha256} `{Ed25519}.

Definition validate_keys (ed25519 x25519 : bytes) : result CborError unit :=
  _ ← map_err (fun _ => Message "ed25519_pubkey is not a valid curve point") (public_from_bytes ed25519);
  _ ← map_err (fun _ => Message "x25519_pubkey is a small-order / identity point") (x25519_from_bytes x25519);
  Ok tt.

Definition ops_canonicalize (op : AccountOp) : result CborError AccountOp :=
  match op with
  | AccountGenesis ed x _ _ _ => _ ← validate_keys ed x; Ok op
  | DeviceAdd _ ed x role label => _ ← validate_keys ed x; Ok (DeviceAdd (sha256 ed) ed x role label)
  | DeviceRemove device control secrets cuts reason =>
      cuts ← canonical_content_cuts cuts; Ok (DeviceRemove device control secrets cuts reason)
  | StreamRevoke stream grantee grant cuts reason =>
      cuts ← canonical_device_cuts cuts; Ok (StreamRevoke stream grantee grant cuts reason)
  | CutExtend kind stream _ _ _ _ _ => _ ← stream_id_coupling kind stream; Ok op
  | _ => Ok op
  end.

(** ** Encoding *)

Definition encode_opt_str : option bytes → bytes := put_opt put_str.
Definition encode_opt_b32 : option bytes → bytes := put_opt put_bytes.

Definition put_cut_row (key : bytes) (seq : Z) (hash : bytes) : bytes :=
  put_array 3 ++ put_bytes key ++ put_u64 seq ++ put_bytes hash.
Definition put_content_cut (c : ContentCut) : bytes := put_cut_row (ct_stream_id c) (ct_seq c) (ct_hash c).
Definition put_device_cut (c : DeviceCut) : bytes := put_cut_row (dc_device_fingerprint c) (dc_seq c) (dc_hash c).

Definition write_content_cuts (cuts : list ContentCut) : bytes :=
  put_array (len cuts) ++ mjoin (put_content_cut <$> cuts).
Definition write_device_cuts (cuts : list DeviceCut) : bytes :=
  put_array (len cuts) ++ mjoin (put_device_cut <$> cuts).

Definition encode_canonical (op : AccountOp) : bytes :=
  match op with
  | AccountGenesis ed x nonce16 created_at_ms label =>
      put_array 5 ++ put_bytes ed ++ put_bytes x ++ put_bytes nonce16 ++ put_u64 created_at_ms ++
      encode_opt_str label
  | DeviceAdd device ed x role label =>
      put_array 5 ++ put_bytes device ++ put_bytes ed ++ put_bytes x ++ put_u8 (DeviceRole_as_u8 role) ++
      encode_opt_str label
  | DeviceRemove device control secrets cuts reason =>
      put_array 5 ++ put_bytes device ++ cut_encode control ++ cut_encode secrets ++
      write_content_cuts cuts ++ put_str reason
  | OwnerPromote device => put_array 1 ++ put_bytes device
  | OwnerDemote device owner_id control secrets reason =>
      put_array 5 ++ put_bytes device ++ put_bytes owner_id ++ cut_encode control ++ cut_encode secrets ++
      put_str reason
  | CutExtend kind stream incarnation subject device new_seq new_entry_hash =>
      put_array 7 ++ put_u8 (ChainKind_as_u8 kind) ++ encode_opt_b32 stream ++ encode_opt_b32 incarnation ++
      put_bytes subject ++ put_bytes device ++ put_u64 new_seq ++ put_bytes new_entry_hash
  | StreamOwn stream spec => put_array 2 ++ put_bytes stream ++ put_bytes spec
  | StreamGrant stream grantee role =>
      put_array 3 ++ put_bytes stream ++ put_bytes grantee ++ put_u8 (GrantRole_as_u8 role)
  | StreamRevoke stream grantee grant cuts reason =>
      put_array 5 ++ put_bytes stream ++ put_bytes grantee ++ put_bytes grant ++ write_device_cuts cuts ++
      put_str reason
  | AccountReRoot successor note => put_array 2 ++ put_bytes successor ++ encode_opt_str note
  end.

Definition ops_encode (op : AccountOp) : result CborError bytes :=
  op ← ops_canonicalize op; Ok (encode_canonical op).

(** ** Decoding *)

Definition decode_opt_str : Decoder (option bytes) := decode_opt d_str.
Definition decode_opt_b32 (field : string) : Decoder (option bytes) := decode_opt (d_fixed 32 field).

(** One row of a cut array, after the key of the previous row. *)
Definition decode_cut_row {A} (mk : bytes → Z → bytes → A) (key_field hash_field unsorted : string)
    (prev : option bytes) : Decoder (bytes * A) :=
  _ ← expect_array 3;
  key ← d_fixed 32 key_field;
  if match prev with Some p => bool_decide (cle key p) | None => false end
  then fail (Message unsorted)
  else seq ← d_u64; hash ← d_fixed 32 hash_field; mret (key, mk key seq hash).

(** One turn of the loop over the rows of an array sorted by a key: the state is the key of the
    previous row and the rows so far. *)
Definition keyed_row_step {K A} (row : option K → Decoder (K * A))
    (s : (option K * list A) * bytes) : result CborError ((option K * list A) * bytes) :=
  let '((prev, rows), rest) := s in
  '((key, a), rest) ← row prev rest;
  Ok ((Some key, rows ++ [a]), rest).

(** The body shared by the decoders of sorted arrays: a definite length within the bound, then
    that many rows. *)
Definition decode_keyed_rows {K A} (row : option K → Decoder (K * A)) (max : Z) (over : string)
    : Decoder (list A) :=
  n ← expect_definite_len;
  if bool_decide (max < n) then fail (Message over)
  else fun bs =>
    '((_, rows), rest) ← for_range n (keyed_row_step row) ((None, []), bs);
    Ok (rows, rest).

(** The body shared by [decode_content_cuts] and [decode_device_cuts]. *)
Definition decode_cuts {A} (mk : bytes → Z → bytes → A) (max : Z) (over key_field hash_field unsorted : string)
    : Decoder (list A) :=
  decode_keyed_rows (decode_cut_row mk key_field hash_field unsorted) max over.

Definition decode_content_cuts : Decoder (list ContentCut) :=
  decode_cuts mkContentCut CONTENT_CUTS_MAX "content_cuts exceeds the bound"
    "content_cut stream_id" "content_cut hash" "content_cuts not sorted-unique by stream_id".
Definition decode_device_cuts : Decoder (list DeviceCut) :=
  decode_cuts mkDeviceCut DEVICE_CUTS_MAX "device_cuts exceeds the bound"
    "device_cut fingerprint" "device_cut hash" "device_cuts not sorted-unique by device_fingerprint".

Definition decode_account_genesis : Decoder AccountOp :=
  _ ← expect_array 5;
  ed ← d_fixed 32 "ed25519_pubkey";
  x ← d_fixed 32 "x25519_pubkey";
  _ ← lift (validate_keys ed x);
  nonce16 ← d_fixed 16 "nonce16";
  created_at_ms ← d_u64;
  label ← decode_opt_str;
  mret (AccountGenesis ed x nonce16 created_at_ms label).

Definition decode_device_add : Decoder AccountOp :=
  _ ← expect_array 5;
  device ← d_fixed 32 "device_fingerprint";
  ed ← d_fixed 32 "ed25519_pubkey";
  x ← d_fixed 32 "x25519_pubkey";
  _ ← lift (validate_keys ed x);
  if bool_decide (device ≠ sha256 ed)
  then fail (Message "device_fingerprint is not sha256(ed25519_pubkey)")
  else tag ← d_u8; role ← lift (DeviceRole_from_u8 tag); label ← decode_opt_str;
       mret (DeviceAdd device ed x role label).

Definition decode_device_remove : Decoder AccountOp :=
  _ ← expect_array 5;
  device ← d_fixed 32 "device_fingerprint";
  control ← cut_decode;
  secrets ← cut_decode;
  cuts ← decode_content_cuts;
  reason ← d_str;
  mret (DeviceRemove device control secrets cuts reason).

Definition decode_owner_promote : Decoder AccountOp :=
  _ ← expect_array 1;
  device ← d_fixed 32 "device_fingerprint";
  mret (OwnerPromote device).

Definition decode_owner_demote : Decoder AccountOp :=
  _ ← expect_array 5;
  device ← d_fixed 32 "device_fingerprint";
  owner_id ← d_fixed 32 "owner_id";
  control ← cut_decode;
  secrets ← cut_decode;
  reason ← d_str;
  mret (OwnerDemote device owner_id control secrets reason).

Definition decode_cut_extend : Decoder AccountOp :=
  _ ← expect_array 7;
  tag ← d_u8;
  kind ← lift (ChainKind_from_u8 tag);
  stream ← decode_opt_b32 "stream_id";
  incarnation ← decode_opt_b32 "incarnation_id";
  _ ← lift (stream_id_coupling kind stream);
  subject ← d_fixed 32 "subject_account_id";
  device ← d_fixed 32 "device_fingerprint";
  new_seq ← d_u64;
  new_entry_hash ← d_fixed 32 "new_entry_hash";
  mret (CutExtend kind stream incarnation subject device new_seq new_entry_hash).

Definition decode_stream_own : Decoder AccountOp :=
  _ ← expect_array 2;
  stream ← d_fixed 32 "stream_id";
  spec ← d_bytes;
  mret (StreamOwn stream spec).

Definition decode_stream_grant : Decoder AccountOp :=
  _ ← expect_array 3;
  stream ← d_fixed 32 "stream_id";
  grantee ← d_fixed 32 "grantee_account_id";
  tag ← d_u8;
  role ← lift (GrantRole_from_u8 tag);
  mret (StreamGrant stream grantee role).

Definition decode_stream_revoke : Decoder AccountOp :=
  _ ← expect_array 5;
  stream ← d_fixed 32 "stream_id";
  grantee ← d_fixed 32 "grantee_account_id";
  grant ← d_fixed 32 "grant_id";
  cuts ← decode_device_cuts;
  reason ← d_str;
  mret (StreamRevoke stream grantee grant cuts reason).

Definition decode_account_reroot : Decoder AccountOp :=
  _ ← expect_array 2;
  successor ← d_fixed 32 "successor_account_id";
  note ← decode_opt_str;
  mret (AccountReRoot successor note).

(** The decoder of a known entry type. *)
Definition known_decoder (entry_type : Z) : option (Decoder AccountOp) :=
  match entry_type with
  | 0 => Some decode_account_genesis
  | 1 => Some decode_device_add
  | 2 => Some decode_device_remove
  | 3 => Some decode_owner_promote
  | 4 => Some decode_owner_demote
  | 5 => Some decode_cut_extend
  | 6 => Some decode_stream_own
  | 7 => Some decode_stream_grant
  | 8 => Some decode_stream_revoke
  | 9 => Some decode_account_reroot
  | _ => None
  end.

Definition ops_decode (entry_type : Z) (bs : bytes) : result CborError DecodedAccountOp :=
  match known_decoder entry_type with
  | Some decoder =>
      op ← run decoder bs;
      encoded ← ops_encode op;
      if bool_decide (encoded ≠ bs) then Err (Message "op payload is not canonical (re-encode differs)")
      else Ok (KnownOp op)
  | None =>
      _ ← require_canonical_cbor bs;
      _ ← run expect_definite_len bs;
      Ok (UnknownOp entry_type bs)
  end.

(** ** The account id *)

Definition account_id_from_genesis_payload (genesis_payload_bytes : bytes) : AccountId :=
  sha256 (put_array 2 ++ put_str ACCOUNT_ID_DOMAIN ++ put_bytes genesis_payload_bytes).
End Codec.

(** ** Type invariants *)

Definition content_cut_ok (c : ContentCut) : Prop :=
  hash_ok (ct_stream_id c) ∧ 0 ≤ ct_seq c ≤ u64_max ∧ hash_ok (ct_hash c).
Definition device_cut_ok (c : DeviceCut) : Prop :=
  hash_ok (dc_device_fingerprint c) ∧ 0 ≤ dc_seq c ≤ u64_max ∧ hash_ok (dc_hash c).

Definition account_op_ok (op : AccountOp) : Prop :=
  match op with
  | AccountGenesis ed x nonce16 created_at_ms label =>
      hash_ok ed ∧ hash_ok x ∧ length nonce16 = 16%nat ∧ 0 ≤ created_at_ms ≤ u64_max ∧ opt_ok str_ok label
  | DeviceAdd device ed x _ label => hash_ok device ∧ hash_ok ed ∧ hash_ok x ∧ opt_ok str_ok label
  | DeviceRemove device control secrets cuts reason =>
      hash_ok device ∧ cut_ok control ∧ cut_ok secrets ∧ Forall content_cut_ok cuts ∧ str_ok reason
  | OwnerPromote device => hash_ok device
  | OwnerDemote device owner_id control secrets reason =>
      hash_ok device ∧ hash_ok owner_id ∧ cut_ok control ∧ cut_ok secrets ∧ str_ok reason
  | CutExtend _ stream incarnation subject device new_seq new_entry_hash =>
      opt_ok hash_ok stream ∧ opt_ok hash_ok incarnation ∧ hash_ok subject ∧ hash_ok device ∧
      0 ≤ new_seq ≤ u64_max ∧ hash_ok new_entry_hash
  | StreamOwn stream spec => hash_ok stream ∧ len spec ≤ u64_max
  | StreamGrant stream grantee _ => hash_ok stream ∧ hash_ok grantee
  | StreamRevoke stream grantee grant cuts reason =>
      hash_ok stream ∧ hash_ok grantee ∧ hash_ok grant ∧ Forall device_cut_ok cuts ∧ str_ok reason
  | AccountReRoot successor note => hash_ok successor ∧ opt_ok str_ok note
  end.

(** ** Cut arrays *)

Lemma any_adjacent_strict `{TotalCmp K, EqDecision K} (keys : list K) :
  StronglySorted cle keys → any_adjacent_equal keys = false ↔ StronglySorted clt keys.
Proof.
  intros Hs. induction Hs as [|a keys Hs IH Ha]; [split; [constructor|done]|].
  destruct keys as [|b keys]; [split; [by repeat constructor|done]|].
  cbn [any_adjacent_equal]. rewrite orb_false_iff, bool_decide_eq_false, IH. split.
  - intros [Hne Hlt]. constructor; [done|]. apply Forall_cons in Ha as [Hab Ha].
    apply cle_lt_eq in Hab as [Hab|?]; [|done]. constructor; [done|].
    apply StronglySorted_inv in Hlt as [_ Hb]. eapply Forall_impl; [exact Hb|].
    intros z Hz. by transitivity b.
  - intros [Hlt Hb]%StronglySorted_inv. split; [|done]. apply Forall_cons in Hb as [Hb _].
    intros ->. by destruct (clt_irrefl b).
Qed.

(** The keys of a canonical cut array: strictly ascending, within the bound. *)
Definition cuts_canonical {K A} `{Cmp K} (key : A → K) (max : Z) (cuts : list A) : Prop :=
  StronglySorted clt (key <$> cuts) ∧ len cuts ≤ max.

Section CanonicalCuts.
Context {K A : Type} `{TotalCmp K, EqDecision K, EqDecision A} (key : A → K) (max : Z) (conflict over : string).

Lemma dedup_sorted_keys (l : list A) : StronglySorted cle (key <$> l) → StronglySorted cle (key <$> dedup l).
Proof using All.
  intros Hs. induction l as [|x [|y l] IH]; [done|done|]. rewrite !fmap_cons in *. simpl dedup.
  apply StronglySorted_inv in Hs as [Hs Hx]. case_decide; [by apply IH|].
  rewrite fmap_cons. constructor; [by apply IH|].
  apply Forall_forall. intros k (z & -> & Hz)%list_elem_of_fmap.
  apply (elem_of_dedup z (y :: l)) in Hz. rewrite Forall_forall in Hx. apply Hx.
  rewrite <- fmap_cons. apply list_elem_of_fmap. eauto.
Qed.

Lemma canonical_cuts_Ok cuts out :
  canonical_cuts key max conflict over cuts = Ok out →
  cuts_canonical key max out ∧ (∀ c, c ∈ out ↔ c ∈ cuts).
Proof using All.
  unfold canonical_cuts. destruct (any_adjacent_equal _) eqn:Ha; [done|]. case_bool_decide as Hm; [done|].
  intros [= <-]. apply any_adjacent_strict in Ha.
  - split; [split; [done|lia]|]. intros c. by rewrite elem_of_dedup, sort_by_key_perm.
  - apply dedup_sorted_keys, (sorted_by_key_fmap cle key), sort_by_key_sorted.
Qed.

Lemma strict_keys_dedup (l : list A) : StronglySorted clt (key <$> l) → dedup l = l.
Proof using All.
  induction l as [|x [|y l] IH]; [done|done|]. rewrite !fmap_cons in *. intros [Hs Hx]%StronglySorted_inv.
  simpl in *. rewrite IH by done. case_decide; [|done]. subst. apply Forall_cons in Hx as [Hx _].
  by destruct (clt_irrefl (key y)).
Qed.

Lemma canonical_cuts_id cuts : cuts_canonical key max cuts → canonical_cuts key max conflict over cuts = Ok cuts.
Proof using All.
  intros [Hs Hl]. unfold canonical_cuts.
  rewrite (sort_by_key_id key) by (by apply (sorted_by_key_fmap cle key), strict_sorted).
  rewrite strict_keys_dedup by done.
  rewrite (proj2 (any_adjacent_strict _ (strict_sorted _ Hs))) by done.
  by rewrite bool_decide_false by lia.
Qed.

(** Ascending cuts beyond the bound are refused for their number. *)
Lemma canonical_cuts_over cuts :
  StronglySorted clt (key <$> cuts) → max < len cuts → canonical_cuts key max conflict over cuts = Err (Message over).
Proof using All.
  intros Hs Hl. unfold canonical_cuts.
  rewrite (sort_by_key_id key) by (by apply (sorted_by_key_fmap cle key), strict_sorted).
  rewrite strict_keys_dedup by done. rewrite (proj2 (any_adjacent_strict _ (strict_sorted _ Hs))) by done.
  by rewrite bool_decide_true.
Qed.

Lemma canonical_cuts_fixed cuts :
  canonical_cuts key max conflict over cuts = Ok cuts ↔ cuts_canonical key max cuts.
Proof using All. split; [by intros [? _]%canonical_cuts_Ok|apply canonical_cuts_id]. Qed.
End CanonicalCuts.

(** A set of cuts with pairwise distinct keys, whatever its order and duplicates, has one
    canonical array. *)
Lemma canonical_cuts_Forall {K A} `{TotalCmp K, EqDecision K, EqDecision A} (key : A → K) max conflict over cuts out (P : A → Prop) :
  canonical_cuts key max conflict over cuts = Ok out → Forall P cuts → Forall P out.
Proof.
  intros [_ Hin]%canonical_cuts_Ok HP. apply Forall_forall. intros c Hc%Hin.
  by rewrite Forall_forall in HP; apply HP.
Qed.

(** ** Canonicalization is a projection *)

Lemma ops_canonicalize_fixed `{Sha256} `{Ed25519} op op' :
  ops_canonicalize op = Ok op' →
  ops_canonicalize op' = Ok op' ∧ entry_type_of op' = entry_type_of op ∧ (account_op_ok op → account_op_ok op').
Proof.
  destruct op; simpl ops_canonicalize; intros Hc; inv_ok;
    try (split_and!; [simpl; by repeat match goal with H : _ = Ok _ |- _ => rewrite H end|done|done]).
  - split_and!; [simpl; by repeat match goal with H : _ = Ok _ |- _ => rewrite H end|done|].
    simpl. intros (? & ? & ? & ?). split_and!; try done. apply sha256_length.
  - match goal with H : canonical_content_cuts _ = _ |- _ => rename H into Hcuts end.
    pose proof (canonical_cuts_Ok _ _ _ _ _ _ Hcuts) as [Hcan _]. split_and!; [|done|].
    + simpl. unfold canonical_content_cuts. by rewrite canonical_cuts_id.
    + simpl. intros (? & ? & ? & ? & ?). split_and!; try done. by apply (canonical_cuts_Forall _ _ _ _ _ _ _ Hcuts).
  - match goal with H : canonical_device_cuts _ = _ |- _ => rename H into Hcuts end.
    pose proof (canonical_cuts_Ok _ _ _ _ _ _ Hcuts) as [Hcan _]. split_and!; [|done|].
    + simpl. unfold canonical_device_cuts. by rewrite canonical_cuts_id.
    + simpl. intros (? & ? & ? & ? & ?). split_and!; try done. by apply (canonical_cuts_Forall _ _ _ _ _ _ _ Hcuts).
Qed.

(** ** Reading back what was written *)

Section ReadBack.
Context `{MinicborLaws} `{Sha256} `{Ed25519}.

Lemma reads_ops_opt_str o : opt_ok str_ok o → reads decode_opt_str (encode_opt_str o) o.
Proof using All.
  intros Ho. apply reads_opt. intros s ->. destruct Ho as [Hu Hl].
  split; [by apply reads_str|by apply non_null_str].
Qed.

Lemma reads_b32 field b : hash_ok b → reads (d_fixed 32 field) (put_bytes b) b.
Proof using All. intros Hb. apply reads_fixed; [done|by apply hash_ok_len]. Qed.

Lemma reads_opt_b32 field o : opt_ok hash_ok o → reads (decode_opt_b32 field) (encode_opt_b32 o) o.
Proof using All. apply reads_opt_hash. Qed.

Lemma reads_lift {A} (m : result CborError A) a : m = Ok a → reads (lift m) [] a.
Proof using All. intros -> r. done. Qed.

(** A cut array reads back when its keys ascend. *)
Lemma reads_cut_row {A} (mk : bytes → Z → bytes → A) kf hf msg prev key seq hash :
  hash_ok key → 0 ≤ seq ≤ u64_max → hash_ok hash → (∀ p, prev = Some p → clt p key) →
  reads (decode_cut_row mk kf hf msg prev) (put_cut_row key seq hash) (key, mk key seq hash).
Proof using All.
  intros Hk Hs Hh Hp. eapply reads_bind; [apply reads_expect_array; unfold u64_max; lia|].
  eapply reads_bind; [by apply reads_b32|].
  assert (match prev with Some p => bool_decide (cle key p) | None => false end = false) as ->.
  { destruct prev as [p|]; [|done]. apply bool_decide_eq_false, not_cle_clt. by apply Hp. }
  eapply reads_bind; [by apply reads_u64|]. eapply reads_bind_nil; [by apply reads_b32|done].
Qed.

(** A sorted array reads back when each of its rows does after a smaller key. *)
Lemma reads_keyed_rows {K A} `{TotalCmp K} (row : option K → Decoder (K * A)) (put : A → bytes) (key : A → K)
    (P : A → Prop) max over rows :
  0 ≤ max ≤ u64_max →
  (∀ prev a, P a → (∀ p, prev = Some p → clt p (key a)) → reads (row prev) (put a) (key a, a)) →
  Forall P rows → cuts_canonical key max rows →
  reads (decode_keyed_rows row max over) (put_array (len rows) ++ mjoin (put <$> rows)) rows.
Proof using All.
  intros Hmax Hrow Hok [Hs Hl]. pose proof (len_nonneg rows).
  eapply reads_bind; [apply reads_array; lia|]. rewrite bool_decide_false by lia. intros r.
  assert (∀ prev out, (∀ p, prev = Some p → Forall (clt p) (key <$> rows)) →
    ∃ prev', for_range (len rows) (keyed_row_step row) ((prev, out), mjoin (put <$> rows) ++ r) =
      Ok ((prev', out ++ rows), r)) as Hloop.
  { clear Hl. induction Hok as [|a rows Ha Hok IH]; intros prev out Hp.
    { exists prev. by rewrite app_nil_r. }
    rewrite fmap_cons in Hs. apply StronglySorted_inv in Hs as [Hs Hlt].
    rewrite len_cons, for_range_succ by apply len_nonneg. rewrite fmap_cons.
    cbn [mjoin list_join keyed_row_step]. rewrite <- app_assoc.
    rewrite (Hrow prev a Ha)
      by (intros p ->; specialize (Hp p eq_refl); rewrite fmap_cons in Hp; by apply Forall_cons in Hp as [? _]).
    simpl. destruct (IH Hs (len_nonneg _) (Some (key a)) (out ++ [a])) as [prev' Hrun].
    { by intros p [= <-]. }
    exists prev'. etrans; [exact Hrun|]. by rewrite <- app_assoc. }
  destruct (Hloop None []) as [prev' Hrun]; [done|]. by rewrite Hrun.
Qed.

Lemma reads_cuts {A} (mk : bytes → Z → bytes → A) (key hash : A → bytes) (seq : A → Z) max over kf hf msg cuts :
  0 ≤ max ≤ u64_max → (∀ a, mk (key a) (seq a) (hash a) = a) →
  Forall (fun a => hash_ok (key a) ∧ 0 ≤ seq a ≤ u64_max ∧ hash_ok (hash a)) cuts →
  cuts_canonical key max cuts →
  reads (decode_cuts mk max over kf hf msg)
    (put_array (len cuts) ++ mjoin ((fun a => put_cut_row (key a) (seq a) (hash a)) <$> cuts)) cuts.
Proof using All.
  intros Hmax Hmk. apply (reads_keyed_rows _ (fun a => put_cut_row (key a) (seq a) (hash a))); [done|].
  intros prev a (Hk & Hq & Hh) Hp. rewrite <- (Hmk a) at 5. by apply reads_cut_row.
Qed.

Lemma reads_content_cuts cuts :
  Forall content_cut_ok cuts → cuts_canonical ct_stream_id CONTENT_CUTS_MAX cuts →
  reads decode_content_cuts (write_content_cuts cuts) cuts.
Proof using All.
  intros. apply (reads_cuts mkContentCut ct_stream_id ct_hash ct_seq); try done. by intros [].
Qed.
Lemma reads_device_cuts cuts :
  Forall device_cut_ok cuts → cuts_canonical dc_device_fingerprint DEVICE_CUTS_MAX cuts →
  reads decode_device_cuts (write_device_cuts cuts) cuts.
Proof using All.
  intros. apply (reads_cuts mkDeviceCut dc_device_fingerprint dc_hash dc_seq); try done. by intros [].
Qed.

Lemma reads_role r : reads (tag ← d_u8; lift (DeviceRole_from_u8 tag)) (put_u8 (DeviceRole_as_u8 r)) r.
Proof using All.
  rewrite <- (app_nil_r (put_u8 _)). eapply reads_bind; [apply reads_u8; destruct r; by vm_compute|].
  apply reads_lift. by destruct r.
Qed.

#[local] Hint Resolve reads_ops_opt_str reads_opt_b32 reads_b32 reads_cut reads_content_cuts reads_device_cuts
  reads_u8 reads_u64 reads_bytes reads_lift : reads_ops.
#[local] Hint Extern 1 (reads (d_fixed 16 _) _ _) =>
  (apply reads_fixed; [assumption|unfold len, u64_max; lia]) : reads_ops.
#[local] Hint Extern 1 (reads (expect_array _) _ _) =>
  (apply reads_expect_array; unfold u64_max; lia) : reads_ops.
#[local] Hint Extern 1 (reads d_str _ _) =>
  (match goal with H : str_ok _ |- _ => destruct H; by apply reads_str end) : reads_ops.
#[local] Hint Extern 1 (0 ≤ DeviceRole_as_u8 ?r ≤ _) => (destruct r; by vm_compute) : reads_ops.
#[local] Hint Extern 1 (0 ≤ GrantRole_as_u8 ?r ≤ _) => (destruct r; by vm_compute) : reads_ops.
#[local] Hint Extern 1 (0 ≤ ChainKind_as_u8 ?r ≤ _) => (destruct r; by vm_compute) : reads_ops.
#[local] Hint Extern 1 (DeviceRole_from_u8 (DeviceRole_as_u8 ?r) = _) => (destruct r; reflexivity) : reads_ops.
#[local] Hint Extern 1 (GrantRole_from_u8 (GrantRole_as_u8 ?r) = _) => (destruct r; reflexivity) : reads_ops.
#[local] Hint Extern 1 (ChainKind_from_u8 (ChainKind_as_u8 ?r) = _) => (destruct r; reflexivity) : reads_ops.

(** A step that checks a value reads no bytes. *)
Lemma reads_check {A B} (m : result CborError A) (f : A → Decoder B) w a b :
  m = Ok a → reads (f a) w b → reads (lift m ≫= f) w b.
Proof using All. intros Hm Hf. change w with ([] ++ w). eapply reads_bind; [by apply reads_lift|done]. Qed.

Lemma reads_last_check {A B} (d : Decoder A) (m : A → result CborError B) w a b :
  reads d w a → m a = Ok b → reads (x ← d; y ← lift (m x); mret y) w b.
Proof using All. intros Hd Hm r. unfold mbind, Decoder_bind. rewrite Hd. simpl. by rewrite Hm. Qed.

Ltac read_next :=
  lazymatch goal with
  | |- reads (lift _ ≫= _) _ _ => eapply reads_check; [solve [eauto with reads_ops]|]
  | |- reads (_ ≫= _) (_ ++ _) _ => eapply reads_bind; [solve [eauto with reads_ops]|]
  | |- reads (_ ≫= _) _ _ => eapply reads_bind_nil; [solve [eauto with reads_ops]|]
  end.

(** The decoder of a canonical operation reads its encoding back. *)
Lemma reads_known_op op :
  account_op_ok op → ops_canonicalize op = Ok op →
  ∃ d, known_decoder (entry_type_of op) = Some d ∧ reads d (encode_canonical op) op.
Proof using All.
  intros Hok Hcan. destruct op; simpl in Hok, Hcan; destruct_and? Hok; eexists; (split; [reflexivity|]);
    simpl encode_canonical.
  - inv_ok. unfold decode_account_genesis. repeat read_next. done.
  - inv_ok. unfold decode_device_add. do 4 read_next. read_next.
    rewrite bool_decide_false by (by intros ?). do 3 read_next. done.
  - inv_ok. match goal with H : canonical_content_cuts _ = _ |- _ => apply canonical_cuts_fixed in H end.
    unfold decode_device_remove. repeat read_next. done.
  - unfold decode_owner_promote. repeat read_next. done.
  - unfold decode_owner_demote. repeat read_next. done.
  - inv_ok. unfold decode_cut_extend. repeat read_next. done.
  - unfold decode_stream_own. repeat read_next. done.
  - unfold decode_stream_grant. do 3 read_next.
    intros r. unfold mbind, Decoder_bind. rewrite reads_u8 by eauto with reads_ops. simpl.
    unfold lift. by destruct grant_role.
  - inv_ok. match goal with H : canonical_device_cuts _ = _ |- _ => apply canonical_cuts_fixed in H end.
    unfold decode_stream_revoke. repeat read_next. done.
  - unfold decode_account_reroot. repeat read_next. done.
Qed.
End ReadBack.

(** ** What the decoders return *)

Section Returned.
Context `{MinicborLaws} `{Sha256} `{Ed25519}.

Lemma ensures_fixed n field : ensures (d_fixed n field) (fun b => length b = n).
Proof using All.
  intros bs b r Hd. unfold d_fixed in Hd. inv_dec. unfold fixed_bytes in *. case_bool_decide; inv_ok. done.
Qed.
Lemma ensures_b32 field : ensures (d_fixed 32 field) hash_ok.
Proof using All. apply ensures_fixed. Qed.
Lemma ensures_lift {A} (m : result CborError A) : ensures (lift m) (fun a => m = Ok a).
Proof using All. intros bs a r Hd. by inv_dec. Qed.
Lemma ensures_ops_opt_str : ensures decode_opt_str (opt_ok str_ok).
Proof using All. apply ensures_opt, ensures_str. Qed.
Lemma ensures_opt_b32 field : ensures (decode_opt_b32 field) (opt_ok hash_ok).
Proof using All. apply ensures_opt, ensures_b32. Qed.
Lemma ensures_str' : ensures d_str str_ok.
Proof using All. apply ensures_str. Qed.

Lemma ensures_cut : ensures cut_decode cut_ok.
Proof using All.
  unfold cut_decode. eapply ensures_bind; [apply ensures_True|]. intros [] _.
  - eapply ensures_bind; [apply ensures_True|]. intros _ _. by apply ensures_ret.
  - unfold cut_decode_at. eapply ensures_bind; [apply ensures_True|]. intros _ _.
    eapply ensures_bind; [apply ensures_u64|]. intros seq Hs.
    eapply ensures_bind; [apply ensures_b32|]. intros h Hh. by apply ensures_ret.
Qed.

(** A row that follows the key [prev]. *)
Definition keyed_row_after {K A} `{Cmp K} (key : A → K) (P : A → Prop) (prev : option K) (r : K * A) : Prop :=
  r.1 = key r.2 ∧ P r.2 ∧ ∀ p, prev = Some p → clt p r.1.

(** A decoded sorted array has strictly ascending keys within the bound. *)
Lemma ensures_keyed_rows {K A} `{TotalCmp K} (row : option K → Decoder (K * A)) (key : A → K) (P : A → Prop) max over :
  (∀ prev, ensures (row prev) (keyed_row_after key P prev)) →
  ensures (decode_keyed_rows row max over) (fun l => Forall P l ∧ cuts_canonical key max l).
Proof using All.
  intros Hrow. unfold decode_keyed_rows. eapply ensures_bind; [apply ensures_array|].
  intros n Hn. cbv beta in Hn. case_bool_decide as Hmax; [apply ensures_fail|]. intros bs l r Hd. inv_ok.
  match goal with H : for_range _ _ _ = _ |- _ => rename H into Hrun end.
  apply (ensures_for_range n (keyed_row_step row) (None, [])
    (fun k s => Forall P s.2 ∧ StronglySorted clt (key <$> s.2) ∧ length s.2 = k ∧ last (key <$> s.2) = s.1)) in Hrun;
    [|lia|by repeat constructor|].
  { destruct Hrun as (? & ? & Hl & _). simpl in *. split; [done|]. split; [done|]. unfold len. lia. }
  intros k [prev a] b [prev' a'] b' (HPa & Hs & Hk & Hlast) Hstep. simpl in *. inv_ok.
  match goal with H : row _ _ = Ok _ |- _ => apply Hrow in H as (Hky & HPc & Hlt) end.
  simpl in *. simplify_eq. rewrite fmap_app, length_app. simpl. rewrite last_snoc. split_and!; [| |lia|done].
  - apply Forall_app. split; [done|]. by constructor.
  - apply StronglySorted_app. split_and!; [|done|by repeat constructor].
    intros z y Hx ->%list_elem_of_singleton. destruct (last (key <$> a)) as [p|] eqn:Hlast.
    + specialize (Hlt p eq_refl). apply last_Some in Hlast as [l0 Heq]. rewrite Heq in Hs, Hx.
      apply StronglySorted_app in Hs as (Hall & _ & _).
      apply elem_of_app in Hx as [Hx| ->%list_elem_of_singleton]; [|done].
      transitivity p; [|done]. apply Hall; [done|by left].
    + apply last_None in Hlast. rewrite Hlast in Hx. by apply not_elem_of_nil in Hx.
Qed.

(** The key check of a row. *)
Lemma row_key_check `{TotalCmp K} (prev : option K) (key : K) :
  match prev with Some p => bool_decide (cle key p) | None => false end = false →
  ∀ p, prev = Some p → clt p key.
Proof using All. intros Hprev p ->. by apply bool_decide_eq_false, not_cle_clt in Hprev. Qed.

(** A decoded cut array is canonical, and its rows have the widths of their types. *)
Lemma ensures_cuts {A} (mk : bytes → Z → bytes → A) (key : A → bytes) max over kf hf msg (P : A → Prop) :
  (∀ k s h, key (mk k s h) = k) → (∀ k s h, hash_ok k → 0 ≤ s ≤ u64_max → hash_ok h → P (mk k s h)) →
  ensures (decode_cuts mk max over kf hf msg) (fun l => Forall P l ∧ cuts_canonical key max l).
Proof using All.
  intros Hkey HP. apply ensures_keyed_rows. intros prev. unfold decode_cut_row.
  eapply ensures_bind; [apply ensures_True|]. intros _ _. eapply ensures_bind; [apply ensures_b32|]. intros k Hk.
  destruct (match prev with Some _ => _ | None => _ end) eqn:Hprev; [apply ensures_fail|].
  eapply ensures_bind; [apply ensures_u64|]. intros q Hq. eapply ensures_bind; [apply ensures_b32|]. intros h Hh.
  apply ensures_ret. split_and!; simpl; [by rewrite Hkey|by apply HP|by apply row_key_check].
Qed.
End Returned.

(** ** The operation wire is exact *)

Section Exact.
Context `{MinicborLaws} `{Sha256} `{Ed25519}.

Lemma ensures_content_cuts :
  ensures decode_content_cuts (fun l => Forall content_cut_ok l ∧ canonical_content_cuts l = Ok l).
Proof using All.
  intros bs l r Hd. unfold decode_content_cuts in Hd.
  eapply (ensures_cuts mkContentCut ct_stream_id _ _ _ _ _ content_cut_ok) in Hd as [? Hcan]; [|done|done].
  split; [done|]. by apply canonical_cuts_id.
Qed.
Lemma ensures_device_cuts :
  ensures decode_device_cuts (fun l => Forall device_cut_ok l ∧ canonical_device_cuts l = Ok l).
Proof using All.
  intros bs l r Hd. unfold decode_device_cuts in Hd.
  eapply (ensures_cuts mkDeviceCut dc_device_fingerprint _ _ _ _ _ device_cut_ok) in Hd as [? Hcan]; [|done|done].
  split; [done|]. by apply canonical_cuts_id.
Qed.

#[local] Hint Resolve ensures_content_cuts ensures_device_cuts ensures_b32 ensures_lift ensures_ops_opt_str ensures_opt_b32 ensures_str' ensures_cut
  ensures_u64 ensures_bytes : ensures_ops.
#[local] Hint Extern 1 (ensures (d_fixed 16 _) _) => (apply ensures_fixed) : ensures_ops.

Ltac step_ensures :=
  lazymatch goal with
  | |- ensures (mret _) _ => apply ensures_ret
  | |- ensures (_ ≫= _) _ =>
      first [ eapply ensures_bind; [solve [eauto with ensures_ops]|intros ? ?; cbv beta in *]
            | eapply ensures_bind; [apply ensures_True|intros ? _] ]
  | |- ensures (if bool_decide _ then fail _ else _) _ => case_bool_decide; [apply ensures_fail|]
  end.

Definition decoded_op (t : Z) (op : AccountOp) : Prop :=
  entry_type_of op = t ∧ account_op_ok op ∧ ops_canonicalize op = Ok op.

Lemma known_decoder_sound t d : known_decoder t = Some d → ensures d (decoded_op t).
Proof using All.
  unfold known_decoder, decoded_op. intros Hd.
  repeat (case_match; try discriminate Hd); injection Hd as <-.
  all: unfold decode_account_genesis, decode_device_add, decode_device_remove, decode_owner_promote,
         decode_owner_demote, decode_cut_extend, decode_stream_own, decode_stream_grant,
         decode_stream_revoke, decode_account_reroot.
  all: repeat step_ensures; (split; [reflexivity|]);
    repeat match goal with H : _ ∧ _ |- _ => destruct H end; (split; [first [done|by split_and!]|]); simpl.
  all: repeat match goal with H : _ = Ok _ |- _ => rewrite H; clear H end; try done.
  simpl. by subst.
Qed.
End Exact.

(** What decodes to a known operation is its canonical encoding. *)
Lemma ops_decode_known_inv `{MinicborLaws} `{Sha256} `{Ed25519} t bs op :
  ops_decode t bs = Ok (KnownOp op) → decoded_op t op ∧ bs = encode_canonical op.
Proof.
  unfold ops_decode. destruct (known_decoder t) as [d|] eqn:Hd; intros Hrun; inv_ok; [|congruence].
  match goal with H : run d bs = Ok ?o |- _ => apply run_Ok in H as [r Hrd]; rename o into op' end.
  case_bool_decide as Hne; inv_ok. apply (known_decoder_sound t d Hd) in Hrd as Hop. split; [done|].
  destruct Hop as (_ & _ & Hcan). unfold ops_encode in *. rewrite Hcan in *. by inv_ok.
Qed.

Lemma ops_decode_canonical `{MinicborLaws} `{Sha256} `{Ed25519} op :
  account_op_ok op → ops_canonicalize op = Ok op → ops_decode (entry_type_of op) (encode_canonical op) = Ok (KnownOp op).
Proof.
  intros Hok Hcan. unfold ops_decode. destruct (reads_known_op op Hok Hcan) as (d & -> & Hr).
  specialize (Hr []). rewrite app_nil_r in Hr. unfold run. rewrite Hr. simpl.
  unfold ops_encode. rewrite Hcan. simpl. by rewrite bool_decide_false by (intros Hne; by apply Hne).
Qed.

(** The control-operation wire is exact: bytes decode to a known operation under an entry
    type iff the operation has that type, is well-typed and canonical (valid keys, derived
    fingerprint, cut arrays strictly ascending and within bounds, stream id present exactly for a
    content cut), and the bytes are its canonical encoding. *)
Theorem ops_decode_exact `{MinicborLaws} `{Sha256} `{Ed25519} t bs op :
  ops_decode t bs = Ok (KnownOp op) ↔
  entry_type_of op = t ∧ account_op_ok op ∧ ops_canonicalize op = Ok op ∧ bs = encode_canonical op.
Proof.
  split; [intros [(? & ? & ?) ?]%ops_decode_known_inv; by split_and!|].
  intros (<- & Hok & Hcan & ->). by apply ops_decode_canonical.
Qed.

(** An author never signs dead bytes: if a well-typed operation encodes, the bytes decode
    under its entry type to the canonicalized operation, which canonicalizes to itself. *)
Theorem ops_encode_decodes `{MinicborLaws} `{Sha256} `{Ed25519} op bs :
  account_op_ok op → ops_encode op = Ok bs →
  ∃ op', ops_canonicalize op = Ok op' ∧ ops_canonicalize op' = Ok op' ∧
         ops_decode (entry_type_of op) bs = Ok (KnownOp op').
Proof.
  unfold ops_encode. intros Hok He. inv_ok.
  match goal with H : ops_canonicalize op = Ok ?o |- _ => rename o into op', H into Hc end.
  exists op'. destruct (ops_canonicalize_fixed op op' Hc) as (Hc' & Ht & Hok').
  split_and!; [done|done|]. rewrite <- Ht. apply ops_decode_canonical; [by apply Hok'|done].
Qed.

(** Forward compatibility: an operation of an entry type this version does not know is
    retained with its bytes exactly when they are one canonical CBOR array, and nothing else. *)
Theorem ops_unknown_retained `{MinicborLaws} `{Sha256} `{Ed25519} t bs t' bs' :
  ops_decode t bs = Ok (UnknownOp t' bs') ↔
  known_decoder t = None ∧ t' = t ∧ bs' = bs ∧
  require_canonical_cbor bs = Ok tt ∧ ∃ items, item_wf (Array items) ∧ bs = ser (Array items).
Proof.
  unfold ops_decode. destruct (known_decoder t) as [d|].
  { split; [|naive_solver]. intros Hd. inv_ok. case_bool_decide; congruence. }
  split.
  - intros Hd. inv_ok. simplify_eq.
    match goal with H : require_canonical_cbor _ = Ok ?u |- _ => destruct u; rename H into Hc end.
    match goal with H : run _ _ = Ok _ |- _ => apply run_Ok in H as [r Hr] end.
    split_and!; try done. eapply canonical_array in Hc as (l & Hl & _ & Heq & _ & Hlen);
      [exists l; split; [by constructor|exact Heq]|].
    unfold expect_array, mbind, Decoder_bind. rewrite Hr. simpl. by rewrite bool_decide_true.
  - intros (_ & -> & -> & Hc & items & Hwf & ->). rewrite Hc. inversion Hwf; subst.
    unfold run. rewrite <- put_array_ser by done. rewrite reads_array; [done|].
    split; [apply len_nonneg|done].
Qed.

(** The account id commits to its genesis: two genesis payloads with one account id are
    the same payload, or exhibit a SHA-256 collision; so no other payload can claim an account. *)
Theorem account_id_binds_genesis `{MinicborLaws} `{Sha256} (payload payload' : bytes) :
  len payload ≤ u64_max → len payload' ≤ u64_max →
  account_id_from_genesis_payload payload = account_id_from_genesis_payload payload' →
  payload = payload' ∨ collision.
Proof.
  intros Hl Hl' Heq. destruct (decide (payload = payload')) as [|Hne]; [by left|right].
  eexists _, _. split; [|exact Heq]. intros Hw. apply Hne.
  do 2 apply app_inv_head in Hw. rewrite !put_bytes_ser in Hw by done.
  apply ser_inj in Hw; [by injection Hw|by constructor..].
Qed.

(** ** Witnesses *)

Definition wit_ed : bytes := verifying_key (replicate 32 x07).
Definition wit_x : bytes := replicate 32 x09.
Definition wit_genesis_op : AccountOp := AccountGenesis wit_ed wit_x (replicate 16 x05) 1234 (Some (lit "laptop")).
Definition wit_remove_op : AccountOp :=
  DeviceRemove (replicate 32 xbb) (CutAt 2 (replicate 32 x0c)) CutEmpty
    [mkContentCut (replicate 32 x44) 7 (replicate 32 x02); mkContentCut (replicate 32 x33) 5 (replicate 32 x01);
     mkContentCut (replicate 32 x44) 7 (replicate 32 x02)] (lit "lost").
Definition wit_genesis_payload : bytes :=
  match ops_encode wit_genesis_op with Ok bs => bs | Err _ => [] end.
Definition wit_remove_payload : bytes :=
  match ops_encode wit_remove_op with Ok bs => bs | Err _ => [] end.

Lemma ops_encode_decodes_witness :
  ∃ op', ops_canonicalize wit_remove_op = Ok op' ∧ ops_canonicalize op' = Ok op' ∧
         ops_decode (entry_type_of wit_remove_op) wit_remove_payload = Ok (KnownOp op').
Proof.
  apply ops_encode_decodes; [|by vm_compute]. unfold wit_remove_op. cbn [account_op_ok].
  split; [done|]. split; [split; [done|done]|]. split; [exact I|].
  split; [|split; by vm_compute]. repeat (apply Forall_cons_2; [split; [done|split; done]|]). apply Forall_nil_2.
Defined.

Lemma account_id_binds_genesis_witness : wit_genesis_payload = wit_genesis_payload ∨ collision.
Proof. apply account_id_binds_genesis; [by vm_compute|by vm_compute|reflexivity]. Defined.

Lemma ops_decode_exact_witness :
  ops_decode ACCOUNT_GENESIS wit_genesis_payload = Ok (KnownOp wit_genesis_op) ∧
  ops_canonicalize wit_genesis_op = Ok wit_genesis_op ∧ wit_genesis_payload = encode_canonical wit_genesis_op.
Proof.
  assert (ops_decode ACCOUNT_GENESIS wit_genesis_payload = Ok (KnownOp wit_genesis_op)) as Hd by (vm_compute; reflexivity).
  pose proof (proj1 (ops_decode_exact ACCOUNT_GENESIS wit_genesis_payload wit_genesis_op) Hd) as (_ & _ & Hc & He).
  exact (conj Hd (conj Hc He)).
Defined.
