(* ===== verification/FoldTypes.v ===== *)
(** * Outcomes, authority facts and authority queries of the control fold ([account/fold.rs])

    The data the fold produces and the queries other layers ask of it: the classification of an
    entry, the classification of the account, the roster, owner, stream and grant facts, and the
    lookups that resolve a citation against them. *)

From S2P Require Import Prelude Cbor Minicbor Hash Op Device Entry Stream Branch Envelope Candidate AccountOps.

Local Open Scope Z_scope.

Definition SECRETS_LOG : Z := 1.
Definition ANNEX_LOG : Z := 3.
Definition SUPPORTED_OP_VERSION : Z := 1.

(** ** Outcomes *)

Inductive CondemnedReason : Type := CondemnedBeyondCut | CondemnedOffBranch | CondemnedClosedIncarnation.

Inductive RejectReason : Type :=
| StaleAuthority | GenesisSelfHash | DuplicateGenesis | DuplicateAdd | TombstoneReAdd | BadPromote
| LastOwner | CutTargetMismatch | WrongDevice | Malformed | NonGenesisOrigin | InvalidStreamSpec
| Ineffective.

Inductive ParkReason : Type :=
| UnknownOwnerRef | ParkedUnknownCutTarget | ParkedIncompleteCutAncestry | ParkedContestedSubject
| AuthLenAhead | DeferredStreamAuthorization.

Inductive Outcome : Type :=
| OutEffective (auth_epoch : Z)
| OutCondemned (reason : CondemnedReason)
| OutRejected (reason : RejectReason)
| OutParked (reason : ParkReason)
| OutRetainedUnfolded.

#[export] Instance CondemnedReason_eq_dec : EqDecision CondemnedReason.
Proof. solve_decision. Defined.
#[export] Instance RejectReason_eq_dec : EqDecision RejectReason.
Proof. solve_decision. Defined.
#[export] Instance ParkReason_eq_dec : EqDecision ParkReason.
Proof. solve_decision. Defined.
#[export] Instance Outcome_eq_dec : EqDecision Outcome.
Proof. solve_decision. Defined.

Inductive EntryStatus : Type :=
| StatusAccepted | StatusForked | StatusEffective | StatusRetainedUnfolded | StatusCondemned
| StatusParked | StatusRejected.

Definition EntryStatus_as_db_str (s : EntryStatus) : string :=
  match s with
  | StatusAccepted => "accepted"
  | StatusForked => "forked"
  | StatusEffective => "effective"
  | StatusRetainedUnfolded => "retained_unfolded"
  | StatusCondemned => "condemned"
  | StatusParked => "parked"
  | StatusRejected => "rejected"
  end.

(** The [snake_case] names of the reasons. *)
Definition CondemnedReason_str (r : CondemnedReason) : string :=
  match r with
  | CondemnedBeyondCut => "beyond_cut"
  | CondemnedOffBranch => "off_branch"
  | CondemnedClosedIncarnation => "closed_incarnation"
  end.
Definition RejectReason_str (r : RejectReason) : string :=
  match r with
  | StaleAuthority => "stale_authority"
  | GenesisSelfHash => "genesis_self_hash"
  | DuplicateGenesis => "duplicate_genesis"
  | DuplicateAdd => "duplicate_add"
  | TombstoneReAdd => "tombstone_re_add"
  | BadPromote => "bad_promote"
  | LastOwner => "last_owner"
  | CutTargetMismatch => "cut_target_mismatch"
  | WrongDevice => "wrong_device"
  | Malformed => "malformed"
  | NonGenesisOrigin => "non_genesis_origin"
  | InvalidStreamSpec => "invalid_stream_spec"
  | Ineffective => "ineffective"
  end.
Definition ParkReason_str (r : ParkReason) : string :=
  match r with
  | UnknownOwnerRef => "unknown_owner_ref"
  | ParkedUnknownCutTarget => "unknown_cut_target"
  | ParkedIncompleteCutAncestry => "incomplete_cut_ancestry"
  | ParkedContestedSubject => "contested_subject"
  | AuthLenAhead => "auth_len_ahead"
  | DeferredStreamAuthorization => "deferred_stream_authorization"
  end.

Definition is_effective (o : Outcome) : bool :=
  match o with OutEffective _ => true | _ => false end.

Definition taxonomy (o : Outcome) : EntryStatus * option string :=
  match o with
  | OutEffective _ => (StatusEffective, None)
  | OutRetainedUnfolded => (StatusRetainedUnfolded, None)
  | OutCondemned reason => (StatusCondemned, Some (CondemnedReason_str reason))
  | OutParked reason => (StatusParked, Some (ParkReason_str reason))
  | OutRejected reason => (StatusRejected, Some (RejectReason_str reason))
  end.

Inductive AccountClassification : Type :=
| Live
| Contested (state_before_depth : nat).

(** ** Authority facts *)

Inductive AuthorityInvalidReason : Type := WrongSubject | ReferencedEntryNotEffective.

Inductive AuthorityQuery (T : Type) : Type :=
| Effective (fact : T)
| UnknownQuery
| Invalid (reason : AuthorityInvalidReason).
Arguments Effective {T} _.
Arguments UnknownQuery {T}.
Arguments Invalid {T} _.

#[export] Instance AuthorityFreshness_eq_dec : EqDecision AuthorityFreshness.
Proof. solve_decision. Defined.

(** [AuthorityFreshness::of]. *)
Definition freshness_of (asserted_auth_len held : Z) : AuthorityFreshness :=
  if bool_decide (held < asserted_auth_len) then Ahead else CurrentOrBehind.

Inductive AuthorityBoundary : Type :=
| BoundaryOpen
| BoundaryCut (seq : Z) (hash : AccountEntryHash)
| BoundaryClosed.

Record RosterAuthority : Type := mkRosterAuthority {
  rr_device_fingerprint : DeviceFingerprint;
  rr_current_role : DeviceRole;
}.

Record RosterContentAuthority : Type := mkRosterContentAuthority {
  ra_device_fingerprint : DeviceFingerprint;
  ra_role : DeviceRole;
  ra_boundary : AuthorityBoundary;
}.

Record OwnerAuthority : Type := mkOwnerAuthority { oa_device_fingerprint : DeviceFingerprint }.

Record OwnerChainAuthority : Type := mkOwnerChainAuthority {
  oc_owner : OwnerAuthority;
  oc_device_boundary : AuthorityBoundary;
  oc_incarnation_boundary : AuthorityBoundary;
}.

Record GrantAuthority : Type := mkGrantAuthority {
  ga_stream_id : StreamId;
  ga_grantee_account_id : AccountId;
  ga_role : GrantRole;
}.

Inductive GrantDeviceBoundary : Type :=
| GrantOpen
| GrantCut (cut : DeviceCut)
| GrantClosed.

Record GrantDeviceAuthority : Type := mkGrantDeviceAuthority {
  gd_grant : GrantAuthority;
  gd_boundary : GrantDeviceBoundary;
}.

Record RosterFact : Type := mkRosterFact {
  rf_authority : RosterAuthority;
  rf_effective_at : Z;
  rf_closed_at : option Z;
  rf_control_boundary : AuthorityBoundary;
  rf_secrets_boundary : AuthorityBoundary;
  rf_content_boundaries : gmap StreamId AuthorityBoundary;
}.

Record OwnerIncarnationFact : Type := mkOwnerIncarnationFact {
  of_authority : OwnerAuthority;
  of_effective_at : Z;
  of_closed_at : option Z;
  of_control_boundary : AuthorityBoundary;
  of_secrets_boundary : AuthorityBoundary;
}.

Record StreamOwnershipFact : Type := mkStreamOwnershipFact {
  sf_own_id : AccountEntryHash;
  sf_effective_at : Z;
}.

Record GrantFact : Type := mkGrantFact {
  gf_authority : GrantAuthority;
  gf_effective_at : Z;
  gf_closed_at : option Z;
}.

Record AuthorityFacts : Type := mkAuthorityFacts {
  af_roster_refs : gmap RosterRef RosterFact;
  af_owner_incarnations : gmap OwnerId OwnerIncarnationFact;
  af_stream_ownership : gmap StreamId StreamOwnershipFact;
  af_grants : gmap GrantId GrantFact;
  af_grant_cuts : gmap GrantId (list DeviceCut);
}.

Record AccountAuthHistory : Type := mkAccountAuthHistory {
  hi_outcomes : gmap AccountEntryHash Outcome;
  hi_classification : AccountClassification;
  hi_contested_successor : option AccountId;
  hi_effective_count : Z;
  hi_facts : AuthorityFacts;
  hi_tombstoned : gset DeviceFingerprint;
  hi_genesis_hash : option AccountEntryHash;
}.

Definition no_facts : AuthorityFacts := mkAuthorityFacts ∅ ∅ ∅ ∅ ∅.

(** ** Queries *)

Inductive AuthorityChain : Type := ChainControl | ChainSecrets.

Definition roster_boundary (fact : RosterFact) (chain : AuthorityChain) : AuthorityBoundary :=
  match chain with ChainControl => rf_control_boundary fact | ChainSecrets => rf_secrets_boundary fact end.
Definition incarnation_boundary (fact : OwnerIncarnationFact) (chain : AuthorityChain) : AuthorityBoundary :=
  match chain with ChainControl => of_control_boundary fact | ChainSecrets => of_secrets_boundary fact end.

(** The error of these checks is the verdict returned early. *)
Definition resolve_fact {F T} (fact : option F) (reference_is_known : bool) : result (AuthorityQuery T) F :=
  ok_or (if reference_is_known then Invalid ReferencedEntryNotEffective else UnknownQuery) fact.
Definition require_subject {S T} `{EqDecision S} (actual expected : S) : result (AuthorityQuery T) unit :=
  if bool_decide (actual = expected) then Ok tt else Err (Invalid WrongSubject).

(** A computation whose early return is its answer. *)
Definition answer {T} (m : result (AuthorityQuery T) (AuthorityQuery T)) : AuthorityQuery T :=
  match m with Ok q => q | Err q => q end.

Definition query_fact {T S} `{EqDecision S} (fact : option (T * S)) (expected_subject : S)
    (reference_is_known : bool) : AuthorityQuery T :=
  answer (
    '(authority, subject) ← resolve_fact fact reference_is_known;
    _ ← require_subject subject expected_subject;
    Ok (Effective authority)).

Section Queries.
Context (h : AccountAuthHistory).

Definition outcome (entry_hash : AccountEntryHash) : option Outcome := hi_outcomes h !! entry_hash.

(** [self.outcomes.contains_key(..)]. *)
Definition is_known (entry_hash : AccountEntryHash) : bool := bool_decide (is_Some (hi_outcomes h !! entry_hash)).

Definition effective_entries : list (AccountEntryHash * Z) :=
  omap (fun '(hash, o) => match o with OutEffective epoch => Some (hash, epoch) | _ => None end)
    (map_to_list (hi_outcomes h)).

Definition auth_len_freshness (asserted_auth_len : Z) : AuthorityFreshness :=
  if bool_decide (hi_effective_count h < asserted_auth_len) then Ahead else CurrentOrBehind.

Definition roster_ref_effective (roster_ref : RosterRef) (device : DeviceFingerprint) : AuthorityQuery RosterAuthority :=
  query_fact
    (fact ← af_roster_refs (hi_facts h) !! roster_ref;
     if bool_decide (rf_closed_at fact = None)
     then Some (rf_authority fact, rr_device_fingerprint (rf_authority fact)) else None)
    device (is_known roster_ref).

Definition roster_content_authority (roster_ref : RosterRef) (device : DeviceFingerprint) (stream_id : StreamId)
    : AuthorityQuery RosterContentAuthority :=
  answer (
    fact ← resolve_fact (af_roster_refs (hi_facts h) !! roster_ref) (is_known roster_ref);
    _ ← require_subject (rr_device_fingerprint (rf_authority fact)) device;
    let boundary :=
      match rf_content_boundaries fact !! stream_id with
      | Some b => b
      | None => if bool_decide (rf_closed_at fact = None) then BoundaryOpen else BoundaryClosed
      end in
    Ok (Effective (mkRosterContentAuthority (rr_device_fingerprint (rf_authority fact))
                     (rr_current_role (rf_authority fact)) boundary))).

Definition owner_incarnation_effective (owner_id : OwnerId) (device : DeviceFingerprint) : AuthorityQuery OwnerAuthority :=
  query_fact
    (fact ← af_owner_incarnations (hi_facts h) !! owner_id;
     if bool_decide (of_closed_at fact = None)
     then Some (of_authority fact, oa_device_fingerprint (of_authority fact)) else None)
    device (is_known owner_id).

(** [self.roster_refs.values().find(..)]; [FoldSafety] shows that a device has at most one fact,
    so the order of the map does not matter. *)
Definition roster_fact_of (device : DeviceFingerprint) : option RosterFact :=
  List.find (fun fact => bool_decide (rr_device_fingerprint (rf_authority fact) = device))
    (map_to_list (af_roster_refs (hi_facts h))).*2.

Definition owner_chain_authority (owner_id : OwnerId) (device : DeviceFingerprint) (chain : AuthorityChain)
    : AuthorityQuery OwnerChainAuthority :=
  answer (
    owner ← resolve_fact (af_owner_incarnations (hi_facts h) !! owner_id) (is_known owner_id);
    _ ← require_subject (oa_device_fingerprint (of_authority owner)) device;
    let device_boundary :=
      match roster_fact_of device with Some fact => roster_boundary fact chain | None => BoundaryClosed end in
    Ok (Effective (mkOwnerChainAuthority (of_authority owner) device_boundary (incarnation_boundary owner chain)))).

Definition owner_control_authority (owner_id : OwnerId) (device : DeviceFingerprint) : AuthorityQuery OwnerChainAuthority :=
  owner_chain_authority owner_id device ChainControl.
Definition owner_secrets_authority (owner_id : OwnerId) (device : DeviceFingerprint) : AuthorityQuery OwnerChainAuthority :=
  owner_chain_authority owner_id device ChainSecrets.

Definition grant_effective (grant_id : GrantId) (stream_id : StreamId) (grantee : AccountId) : AuthorityQuery GrantAuthority :=
  answer (
    fact ← resolve_fact (af_grants (hi_facts h) !! grant_id) (is_known grant_id);
    _ ← require_subject (ga_stream_id (gf_authority fact), ga_grantee_account_id (gf_authority fact))
          (stream_id, grantee);
    Ok (Effective (gf_authority fact))).

Definition stream_owner_effective (stream_id : StreamId) : AuthorityQuery AccountEntryHash :=
  match af_stream_ownership (hi_facts h) !! stream_id with
  | None => UnknownQuery
  | Some fact => Effective (sf_own_id fact)
  end.
End Queries.
