(* ===== verification/Snapshot.v ===== *)
(** * The authority snapshot a refold reads

    A refold runs inside one transaction and asks the account tables for authority facts
    ([account/storage.rs], the [*_in_snapshot] readers).  [AuthoritySnapshot] is the interface of
    those reads: the refolds of [SecretsFold] and [ContentFold] are proved against it, and the
    projected tables of [AuthStore] discharge it.

    [Run] is the effect of a refold: the outer [None] is a panic ([expect], a failed index) or an
    exhausted fuel, an [Err] aborts the transaction. *)

From S2P Require Import Prelude Cbor Minicbor Hash Op Device Entry Stream Branch Envelope Candidate AccountOps FoldTypes.

Local Open Scope Z_scope.

Class AuthoritySnapshot : Type := {
  sn_owner_secrets_authority : AccountId → OwnerId → DeviceFingerprint → result AnyError (AuthorityQuery OwnerChainAuthority);
  sn_stream_owner_effective : AccountId → StreamId → result AnyError (AuthorityQuery AccountEntryHash);
  sn_roster_content_authority :
    AccountId → RosterRef → DeviceFingerprint → StreamId → result AnyError (AuthorityQuery RosterContentAuthority);
  sn_grant_effective_for_device :
    AccountId → GrantId → StreamId → AccountId → DeviceFingerprint → result AnyError (AuthorityQuery GrantDeviceAuthority);
  sn_stream_owner_account : StreamId → result AnyError (option AccountId);
  sn_account_is_contested : AccountId → result AnyError bool;
  sn_held_control_log_len : AccountId → result AnyError Z;
  sn_account_is_pinned : AccountId → result AnyError bool;
}.

(** ** Runs *)

Definition Run (A : Type) : Type := option (result AnyError A).

Definition run_ret {A} (a : A) : Run A := Some (Ok a).
Definition run_bind {A B} (m : Run A) (f : A → Run B) : Run B :=
  match m with
  | None => None
  | Some (Err e) => Some (Err e)
  | Some (Ok a) => f a
  end.

Declare Scope run_scope.
Delimit Scope run_scope with run.
Notation "x <- m ;; k" := (run_bind m (fun x => k)) (at level 100, m at next level, right associativity) : run_scope.

(** A panic is not an error value. *)
Definition of_option {A} (o : option A) : Run A := match o with Some a => run_ret a | None => None end.

Fixpoint run_foldl {A B} (f : B → A → Run B) (b : B) (l : list A) : Run B :=
  match l with
  | [] => run_ret b
  | a :: l => run_bind (f b a) (fun b => run_foldl f b l)
  end.

Lemma run_bind_Ok {A B} (m : Run A) (f : A → Run B) b :
  run_bind m f = Some (Ok b) ↔ ∃ a, m = Some (Ok a) ∧ f a = Some (Ok b).
Proof. destruct m as [[a|e]|]; simpl; split; try done; [by eauto|by intros (a' & [= <-] & ?)|naive_solver..]. Qed.

Lemma of_option_Ok {A} (o : option A) a : of_option o = Some (Ok a) ↔ o = Some a.
Proof. destruct o; simpl; unfold run_ret; naive_solver. Qed.

Ltac inv_run :=
  repeat match goal with
  | H : run_bind _ _ = Some (Ok _) |- _ => apply (proj1 (run_bind_Ok _ _ _)) in H as (? & ? & H)
  | H : of_option _ = Some (Ok _) |- _ => apply (proj1 (of_option_Ok _ _)) in H
  | H : run_ret _ = Some (Ok _) |- _ => unfold run_ret in H; injection H as H; try subst
  | H : Some (Ok _) = Some (Ok _) |- _ => injection H as H; try subst
  | H : Some (Err _) = Some (Ok _) |- _ => discriminate H
  | H : None = Some _ |- _ => discriminate H
  end.

(** A loop that keeps an invariant. *)
Lemma run_foldl_inv {A B} (f : B → A → Run B) (I : list A → B → Prop) l b b' :
  I [] b → (∀ done b a b', I done b → a ∈ l → f b a = Some (Ok b') → I (done ++ [a]) b') →
  run_foldl f b l = Some (Ok b') → I l b'.
Proof.
  intros H0 Hstep Hrun.
  assert (∀ done l', (∀ a, a ∈ l' → a ∈ l) → ∀ b, I done b → run_foldl f b l' = Some (Ok b') → I (done ++ l') b') as Hgen.
  { intros don l'. revert don. induction l' as [|a l' IH]; intros don Hl c Hc Hr; simpl in Hr.
    - inv_run. by rewrite app_nil_r.
    - inv_run. rewrite cons_middle, app_assoc. eapply IH; [|by eapply Hstep; eauto; apply Hl; left|done].
      intros a' Ha'. apply Hl. by right. }
  by apply (Hgen [] l (fun a Ha => Ha) b).
Qed.

(** A loop whose steps all return returns. *)
Lemma run_foldl_Ok {A B} (f : B → A → Run B) l b :
  (∀ b a, a ∈ l → ∃ b', f b a = Some (Ok b')) → ∃ b', run_foldl f b l = Some (Ok b').
Proof.
  revert b. induction l as [|a l IH]; intros b Hstep; simpl; [by exists b|].
  destruct (Hstep b a) as [b1 ->]; [by left|]. apply IH. intros b2 a' ?. apply Hstep. by right.
Qed.

Lemma run_foldl_total {A B} (f : B → A → Run B) (I : B → Prop) l b :
  I b → (∀ b a, I b → a ∈ l → ∃ r, f b a = Some r ∧ ∀ b', r = Ok b' → I b') →
  ∃ r, run_foldl f b l = Some r ∧ ∀ b', r = Ok b' → I b'.
Proof.
  revert b. induction l as [|a l IH]; intros b Hb Hstep; simpl.
  { exists (Ok b). split; [done|]. by intros b' [= <-]. }
  destruct (Hstep b a Hb) as (r & -> & Hr); [by left|]. destruct r as [b1|e]; simpl.
  - apply IH; [by apply Hr|]. intros b2 a' Hb2 Ha'. apply Hstep; [done|by right].
  - exists (Err e). split; [done|]. by intros b'.
Qed.

Lemma freshness_current asserted held : freshness_of asserted held = CurrentOrBehind ↔ asserted ≤ held.
Proof. unfold freshness_of. case_bool_decide; split; done || lia. Qed.

(** [id::fixed]; the copy of [content/storage.rs] differs in the wording of its error. *)
Definition id_fixed (n : nat) (bs : bytes) : result AnyError bytes :=
  if bool_decide (length bs = n) then Ok bs else Err (Bail "stored blob has the wrong length").

Lemma id_fixed_Ok n bs r : id_fixed n bs = Ok r ↔ length bs = n ∧ r = bs.
Proof. unfold id_fixed. case_bool_decide; naive_solver. Qed.

(** ** Loading

    A loader decodes the rows of a query and drops those that are not what their key says. *)

Section Load.
Context {R A K : Type} (load : R → result AnyError (option A)).

Fixpoint load_rows (rows : list R) : result AnyError (list A) :=
  match rows with
  | [] => Ok []
  | row :: rows =>
      loaded ← load row;
      out ← load_rows rows;
      Ok (match loaded with Some a => a :: out | None => out end)
  end.

Lemma elem_of_load_rows rows out a : load_rows rows = Ok out → a ∈ out → ∃ row, row ∈ rows ∧ load row = Ok (Some a).
Proof using Type.
  revert out. induction rows as [|row rows IH]; intros out Hl; cbn [load_rows] in Hl.
  { injection Hl as <-. by intros ?%elem_of_nil. }
  inv_ok. case_match; subst.
  - intros [->|Ha]%elem_of_cons; [exists row; split; [by left|done]|].
    edestruct IH as (r & ? & ?); [done|exact Ha|]. exists r. split; [by right|done].
  - intros Ha. edestruct IH as (r & ? & ?); [done|exact Ha|]. exists r. split; [by right|done].
Qed.

(** Distinct keys of the rows are distinct keys of what is loaded. *)
Lemma load_rows_NoDup (key : R → K) (key' : A → K) rows out :
  (∀ row a, load row = Ok (Some a) → key' a = key row) → NoDup (key <$> rows) → load_rows rows = Ok out →
  NoDup (key' <$> out).
Proof using Type.
  intros Hkey. revert out. induction rows as [|row rows IH]; intros out Hnd Hl; cbn [load_rows] in Hl.
  { injection Hl as <-. constructor. }
  rewrite fmap_cons in Hnd. apply NoDup_cons in Hnd as [Hni Hnd]. inv_ok. case_match; [|by eapply IH]. subst.
  rewrite fmap_cons. constructor; [|by eapply IH].
  match goal with Hr : load row = Ok (Some ?a) |- _ => rewrite (Hkey row a Hr) end.
  intros (a' & Heq & Ha')%list_elem_of_fmap. edestruct elem_of_load_rows as (r & Hr & Hload); [done|exact Ha'|].
  apply Hni. rewrite Heq, (Hkey r a' Hload). by apply list_elem_of_fmap_2.
Qed.

Lemma load_rows_length rows out : load_rows rows = Ok out → (length out ≤ length rows)%nat.
Proof using Type.
  revert out. induction rows as [|row rows IH]; intros out Hl; cbn [load_rows] in Hl; [by injection Hl as <-|].
  inv_ok. match goal with Hr : load_rows rows = Ok _ |- _ => apply IH in Hr end. case_match; subst; simpl; lia.
Qed.
End Load.

(** ** Memo tables

    A read through tables [C] returns what the direct read returns, and keeps the tables right. *)

Section Cached.
Context {C : Type} (ok : C → Prop).

Definition cached_as {A} (m : result AnyError (A * C)) (direct : result AnyError A) : Prop :=
  match m with
  | Ok (a, c) => direct = Ok a ∧ ok c
  | Err e => direct = Err e
  end.

Lemma cached_ret {A} (a : A) (c : C) : ok c → cached_as (Ok (a, c)) (Ok a).
Proof using Type. done. Qed.

Lemma cached_bind {A B} (m : result AnyError (A * C)) d (f : A * C → result AnyError (B * C)) g :
  cached_as m d → (∀ a c, ok c → cached_as (f (a, c)) (g a)) → cached_as (m ≫= f) (d ≫= g).
Proof using Type.
  intros Hm Hf. destruct m as [[a c]|e]; simpl in Hm; [|by subst]. destruct Hm as [-> Hc]. by apply Hf.
Qed.

(** A table lookup in front of a read. *)
Lemma cached_lookup {A} (o : option A) (read : result AnyError A) (c : C) (store : A → C) :
  ok c → (∀ a, o = Some a → read = Ok a) → (∀ a, read = Ok a → ok (store a)) →
  cached_as match o with Some a => Ok (a, c) | None => a ← read; Ok (a, store a) end read.
Proof using Type.
  intros Hc Ho Hr. destruct o as [a|]; [split; [by apply Ho|done]|]. destruct read as [a|e]; simpl; [|done]. split; [done|by apply Hr].
Qed.
End Cached.
