(* ===== verification/AuthStore.v ===== *)
(** * The stored authority projection ([account/storage.rs], [account/control_policy.rs])

    The tables that persist the authority facts of an account's last fold, the rewrite that replaces
    them after a fold, and the keyed reads that answer from them.  A table is a map from its primary
    key; an insertion on a taken key is the constraint error that aborts the transaction.  Roles,
    boundaries and sequence numbers are stored and read back as the columns hold them. *)

From S2P Require Import Prelude Cbor Minicbor Hash Op Device Entry Stream Branch Envelope Candidate AccountOps FoldTypes Snapshot.

Local Open Scope Z_scope.

(** ** Rows *)

(** The [..._boundary], [..._seq] and [..._hash] columns of a chain. *)
Record StoredBoundary : Type := mkStoredBoundary {
  sb_kind : string;
  sb_seq : option bytes;
  sb_hash : option bytes;
}.

Record AuthStateRow : Type := mkAuthStateRow {
  au_classification : string;
  au_contested_depth : option Z;
  au_successor : option bytes;
  au_effective_count : Z;
}.

Record RosterRow : Type := mkRosterRow {
  ro_account : bytes;
  ro_device : bytes;
  ro_role : string;
  ro_effective_at : Z;
  ro_closed_at : option Z;
  ro_control : StoredBoundary;
  ro_secrets : StoredBoundary;
}.

Record ContentBoundaryRow : Type := mkContentBoundaryRow {
  cb_account : bytes;
  cb_seq : bytes;
  cb_hash : bytes;
}.

Record IncarnationRow : Type := mkIncarnationRow {
  ir_account : bytes;
  ir_device : bytes;
  ir_effective_at : Z;
  ir_closed_at : option Z;
  ir_control : StoredBoundary;
  ir_secrets : StoredBoundary;
}.

Record OwnershipRow : Type := mkOwnershipRow {
  os_account : bytes;
  os_own_id : bytes;
  os_effective_at : Z;
}.

Record GrantRow : Type := mkGrantRow {
  gr_owner : bytes;
  gr_stream : bytes;
  gr_grantee : bytes;
  gr_role : string;
  gr_effective_at : Z;
  gr_closed_at : option Z;
}.

Record GrantCutRow : Type := mkGrantCutRow {
  gc_owner : bytes;
  gc_seq : bytes;
  gc_hash : bytes;
}.

(** The seven tables a fold rewrites, by primary key. *)
Record AuthTables : Type := mkAuthTables {
  at_state : gmap AccountId AuthStateRow;
  at_roster : gmap RosterRef RosterRow;
  at_content : gmap (RosterRef * StreamId) ContentBoundaryRow;
  at_incarnations : gmap OwnerId IncarnationRow;
  at_ownership : gmap StreamId OwnershipRow;
  at_grants : gmap GrantId GrantRow;
  at_cuts : gmap (GrantId * DeviceFingerprint) GrantCutRow;
}.

(** The columns of [account_entries] that the reads use. *)
Record EntryRow : Type := mkEntryRow {
  er_account : bytes;
  er_log_id : Z;
  er_device : bytes;
  er_seq : Z;
  er_entry_type : Z;
  er_signed_bytes : bytes;
}.

Record PinRow : Type := mkPinRow {
  pn_checkpoint_digest : bytes;
  pn_required_version : Z;
}.

(** The pin tables exist from schema V130 on. *)
Record PinTables : Type := mkPinTables {
  pt_pins : gmap AccountId PinRow;
  pt_streams : gset (AccountId * StreamId);
}.

Record ReadoptionRow : Type := mkReadoptionRow {
  rw_roster_ref : bytes;
  rw_removed_at_epoch : Z;
  rw_enqueued_at_ms : Z;
  rw_processed_at_ms : option Z;
}.

(** [table_sync_streams], [table_sync_readoption_work], [table_sync_suffix_coverage]. *)
Record TableSyncWork : Type := mkTableSyncWork {
  ts_streams : gset (AccountId * StreamId);
  ts_work : gmap (AccountId * DeviceFingerprint * StreamId) ReadoptionRow;
  ts_suffix : gset (DeviceFingerprint * StreamId);
}.

Record AccountDb : Type := mkAccountDb {
  db_entries : gmap AccountEntryHash EntryRow;
  db_pins : option PinTables;
  db_schema_current : bool;
  db_auth : AuthTables;
  db_work : TableSyncWork;
}.

(** ** Columns *)

(** [i64::try_from] of a [u64], and [u64::try_from] of an [i64]. *)
Definition to_column (n : Z) : result AnyError Z :=
  if bool_decide (n ≤ 2 ^ 63 - 1) then Ok n else Err (Bail "out of range integral type conversion attempted").
Definition from_column (n : Z) : result AnyError Z :=
  if bool_decide (0 ≤ n) then Ok n else Err (Bail "out of range integral type conversion attempted").

(** [.map(f).transpose()]. *)
Definition transpose {A B} (f : A → result AnyError B) (o : option A) : result AnyError (option B) :=
  match o with Some a => Some <$> f a | None => Ok None end.

Definition DeviceRole_as_db_str (r : DeviceRole) : string :=
  match r with ReadOnly => "read_only" | Member => "member" | Owner => "owner" end%string.
Definition DeviceRole_from_db_str (value : string) : result AnyError DeviceRole :=
  if bool_decide (value = "read_only"%string) then Ok ReadOnly
  else if bool_decide (value = "member"%string) then Ok Member
  else if bool_decide (value = "owner"%string) then Ok Owner
  else Err (Bail "unknown persisted device role").

Definition GrantRole_as_db_str (r : GrantRole) : string := match r with Reader => "reader" | Writer => "writer" end%string.
Definition GrantRole_from_db_str (value : string) : result AnyError GrantRole :=
  if bool_decide (value = "reader"%string) then Ok Reader
  else if bool_decide (value = "writer"%string) then Ok Writer
  else Err (Bail "unknown persisted grant role").

Definition stored_boundary (boundary : AuthorityBoundary) : StoredBoundary :=
  match boundary with
  | BoundaryOpen => mkStoredBoundary "open" None None
  | BoundaryClosed => mkStoredBoundary "closed" None None
  | BoundaryCut seq hash => mkStoredBoundary "cut" (Some (be_bytes 8 seq)) (Some hash)
  end.

Definition malformed_boundary : AnyError := Bail "malformed persisted authority boundary".
Definition boundary_disagrees : AnyError := Bail "authority closure and boundary disagree".

Definition parse_stored_boundary (b : StoredBoundary) : result AnyError AuthorityBoundary :=
  match sb_seq b, sb_hash b with
  | None, None =>
      if bool_decide (sb_kind b = "open"%string) then Ok BoundaryOpen
      else if bool_decide (sb_kind b = "closed"%string) then Ok BoundaryClosed
      else Err malformed_boundary
  | Some seq, Some hash =>
      if bool_decide (sb_kind b = "cut"%string)
      then seq ← id_fixed 8 seq; hash ← id_fixed 32 hash; Ok (BoundaryCut (be_value seq) hash)
      else Err malformed_boundary
  | _, _ => Err malformed_boundary
  end.

Definition decode_stored_boundary (b : StoredBoundary) (closed_at : option Z) (allow_closed_open allow_open_bounded : bool)
    : result AnyError AuthorityBoundary :=
  boundary ← parse_stored_boundary b;
  match closed_at, boundary with
  | None, BoundaryOpen | Some _, (BoundaryCut _ _ | BoundaryClosed) => Ok boundary
  | Some _, BoundaryOpen => if allow_closed_open then Ok boundary else Err boundary_disagrees
  | None, (BoundaryCut _ _ | BoundaryClosed) => if allow_open_bounded then Ok boundary else Err boundary_disagrees
  end.

(** [AuthorityChain::column_prefix] selects the columns of a chain. *)
Definition roster_columns (chain : AuthorityChain) (row : RosterRow) : StoredBoundary :=
  match chain with ChainControl => ro_control row | ChainSecrets => ro_secrets row end.
Definition incarnation_columns (chain : AuthorityChain) (row : IncarnationRow) : StoredBoundary :=
  match chain with ChainControl => ir_control row | ChainSecrets => ir_secrets row end.

(** ** Control policy *)

Record TrustedCheckpointPin : Type := mkTrustedCheckpointPin {
  cp_account_id : AccountId;
  cp_checkpoint_digest : bytes;
  cp_required_control_version : Z;
}.

Inductive AccountControlPolicy : Type :=
| LegacyV1
| ControlV2 (pin : TrustedCheckpointPin)
| UnsupportedVersion (pin : TrustedCheckpointPin).

Definition CONTROL_VERSION : Z := 2.

Definition policy_for (pin : TrustedCheckpointPin) : AccountControlPolicy :=
  if bool_decide (cp_required_control_version pin = CONTROL_VERSION) then ControlV2 pin else UnsupportedVersion pin.

Definition policy_pin (p : AccountControlPolicy) : option TrustedCheckpointPin :=
  match p with LegacyV1 => None | ControlV2 pin | UnsupportedVersion pin => Some pin end.

Definition unsupported_version : AnyError := Bail "UnsupportedVersion: account control version requires a newer implementation".

(** The rows of a loop that returns at the first hit. *)
Fixpoint any_row {A} (f : A → result AnyError bool) (l : list A) : result AnyError bool :=
  match l with
  | [] => Ok false
  | a :: l => hit ← f a; if (hit : bool) then Ok true else any_row f l
  end.

(** A loop over rows, and [iter().map(..).collect::<Result<Vec<_>>>()]. *)
Fixpoint fold_rows {S A} (f : S → A → result AnyError S) (l : list A) (s : S) : result AnyError S :=
  match l with
  | [] => Ok s
  | a :: l => s ← f s a; fold_rows f l s
  end.
Fixpoint map_rows {A B} (f : A → result AnyError B) (l : list A) : result AnyError (list B) :=
  match l with
  | [] => Ok []
  | a :: l => b ← f a; out ← map_rows f l; Ok (b :: out)
  end.

Section Policy.
Context (db : AccountDb).

(** The error arms of a missing pin table. *)
Definition require_pre_pin_schema : result AnyError unit :=
  if db_schema_current db then Err (Bail "account control pin table missing from V130 database") else Ok tt.

Definition account_control_policy (account : AccountId) : result AnyError AccountControlPolicy :=
  match db_pins db with
  | None => _ ← require_pre_pin_schema; Ok LegacyV1
  | Some tables =>
      match pt_pins tables !! account with
      | None => Ok LegacyV1
      | Some row =>
          digest ← id_fixed 32 (pn_checkpoint_digest row);
          Ok (policy_for (mkTrustedCheckpointPin account digest (pn_required_version row)))
      end
  end.

Definition account_is_pinned (account : AccountId) : result AnyError bool :=
  policy ← account_control_policy account; Ok (bool_decide (is_Some (policy_pin policy))).

Definition require_supported_account_control (account : AccountId) : result AnyError unit :=
  policy ← account_control_policy account;
  match policy with LegacyV1 => Ok tt | ControlV2 _ | UnsupportedVersion _ => Err unsupported_version end.

Definition require_foldable_account_control (account : AccountId) : result AnyError unit :=
  policy ← account_control_policy account;
  match policy with LegacyV1 | ControlV2 _ => Ok tt | UnsupportedVersion _ => Err unsupported_version end.

(** [UNION] removes the duplicates and sorts. *)
Definition pin_routed_accounts (stream : StreamId) : result AnyError (list AccountId) :=
  match db_pins db with
  | None => _ ← require_pre_pin_schema; Ok []
  | Some tables =>
      let pinned : gset bytes := list_to_set (fst <$> filter (fun row => row.2 = stream) (elements (pt_streams tables))) in
      let owner : gset bytes := match at_ownership (db_auth db) !! stream with Some row => {[os_account row]} | None => ∅ end in
      map_rows (id_fixed 32) (sort_unstable (elements (pinned ∪ owner)))
  end.

Definition stream_control_pinned (stream : StreamId) : result AnyError bool :=
  accounts ← pin_routed_accounts stream; any_row account_is_pinned accounts.

Definition require_supported_stream_control (stream : StreamId) : result AnyError unit :=
  accounts ← pin_routed_accounts stream;
  fold_rows (fun _ account => require_supported_account_control account) accounts tt.
End Policy.

(** ** The rewrite *)

(** An [INSERT] into a table with a primary key. *)
Definition insert_row {K V} `{Countable K} (k : K) (v : V) (table : gmap K V) : result AnyError (gmap K V) :=
  if bool_decide (is_Some (table !! k)) then Err (Bail "UNIQUE constraint failed") else Ok (<[k := v]> table).

Definition set_state t (a : AuthTables) : AuthTables :=
  mkAuthTables t (at_roster a) (at_content a) (at_incarnations a) (at_ownership a) (at_grants a) (at_cuts a).
Definition set_roster t (a : AuthTables) : AuthTables :=
  mkAuthTables (at_state a) t (at_content a) (at_incarnations a) (at_ownership a) (at_grants a) (at_cuts a).
Definition set_content t (a : AuthTables) : AuthTables :=
  mkAuthTables (at_state a) (at_roster a) t (at_incarnations a) (at_ownership a) (at_grants a) (at_cuts a).
Definition set_incarnations t (a : AuthTables) : AuthTables :=
  mkAuthTables (at_state a) (at_roster a) (at_content a) t (at_ownership a) (at_grants a) (at_cuts a).
Definition set_ownership t (a : AuthTables) : AuthTables :=
  mkAuthTables (at_state a) (at_roster a) (at_content a) (at_incarnations a) t (at_grants a) (at_cuts a).
Definition set_grant_rows t (a : AuthTables) : AuthTables :=
  mkAuthTables (at_state a) (at_roster a) (at_content a) (at_incarnations a) (at_ownership a) t (at_cuts a).
Definition set_cut_rows t (a : AuthTables) : AuthTables :=
  mkAuthTables (at_state a) (at_roster a) (at_content a) (at_incarnations a) (at_ownership a) (at_grants a) t.

(** [DELETE FROM .. WHERE account = ?1] of the seven tables. *)
Definition clear_account (account : AccountId) (a : AuthTables) : AuthTables :=
  mkAuthTables (delete account (at_state a))
    (filter (fun row => ro_account row.2 ≠ account) (at_roster a))
    (filter (fun row => cb_account row.2 ≠ account) (at_content a))
    (filter (fun row => ir_account row.2 ≠ account) (at_incarnations a))
    (filter (fun row => os_account row.2 ≠ account) (at_ownership a))
    (filter (fun row => gr_owner row.2 ≠ account) (at_grants a))
    (filter (fun row => gc_owner row.2 ≠ account) (at_cuts a)).

Definition PRECONTEXT : StreamId := replicate 32 x00.

(** [ON CONFLICT .. DO UPDATE .. WHERE excluded.removed_at_epoch > removed_at_epoch]. *)
Definition enqueue_readoption_work (account : AccountId) (device : DeviceFingerprint) (stream : StreamId)
    (roster_ref : RosterRef) (removed_at_epoch now_ms : Z) (w : TableSyncWork) : result AnyError TableSyncWork :=
  epoch ← to_column removed_at_epoch;
  let row := mkReadoptionRow roster_ref epoch now_ms None in
  let work :=
    match ts_work w !! (account, device, stream) with
    | Some held => if bool_decide (rw_removed_at_epoch held < epoch) then <[(account, device, stream) := row]> (ts_work w) else ts_work w
    | None => <[(account, device, stream) := row]> (ts_work w)
    end in
  Ok (mkTableSyncWork (ts_streams w) work (ts_suffix w ∖ {[(device, stream)]})).

Definition context_streams (account : AccountId) (w : TableSyncWork) : list StreamId :=
  sort_unstable (snd <$> filter (fun row => row.1 = account) (elements (ts_streams w))).

Definition enqueue_readoption_for_closed_fact (account : AccountId) (roster_ref : RosterRef) (fact : RosterFact)
    (closed_at now_ms : Z) (w : TableSyncWork) : result AnyError TableSyncWork :=
  let device := rr_device_fingerprint (rf_authority fact) in
  match context_streams account w with
  | [] => enqueue_readoption_work account device PRECONTEXT roster_ref closed_at now_ms w
  | streams =>
      fold_rows (fun w stream =>
        stream ← id_fixed 32 stream; enqueue_readoption_work account device stream roster_ref closed_at now_ms w) streams w
  end.

Definition state_row (history : AccountAuthHistory) : result AnyError AuthStateRow :=
  '(classification, depth) ← match hi_classification history with
                             | Live => Ok ("live"%string, None)
                             | Contested depth => d ← to_column (Z.of_nat depth); Ok ("contested"%string, Some d)
                             end;
  count ← to_column (hi_effective_count history);
  Ok (mkAuthStateRow classification depth (hi_contested_successor history) count).

Definition roster_row (account : AccountId) (fact : RosterFact) : result AnyError RosterRow :=
  effective_at ← to_column (rf_effective_at fact);
  closed_at ← transpose to_column (rf_closed_at fact);
  Ok (mkRosterRow account (rr_device_fingerprint (rf_authority fact)) (DeviceRole_as_db_str (rr_current_role (rf_authority fact)))
        effective_at closed_at (stored_boundary (rf_control_boundary fact)) (stored_boundary (rf_secrets_boundary fact))).

Definition write_content_boundary (account : AccountId) (roster_ref : RosterRef) (table : gmap (RosterRef * StreamId) ContentBoundaryRow)
    (row : StreamId * AuthorityBoundary) : result AnyError (gmap (RosterRef * StreamId) ContentBoundaryRow) :=
  match row.2 with
  | BoundaryCut seq hash => insert_row (roster_ref, row.1) (mkContentBoundaryRow account (be_bytes 8 seq) hash) table
  | BoundaryOpen | BoundaryClosed => Ok table
  end.

Definition write_roster_fact (account : AccountId) (now_ms : Z) (s : AuthTables * TableSyncWork) (row : RosterRef * RosterFact)
    : result AnyError (AuthTables * TableSyncWork) :=
  let '(tables, work) := s in
  let '(roster_ref, fact) := row in
  work ← match rf_closed_at fact with
         | Some closed_at => enqueue_readoption_for_closed_fact account roster_ref fact closed_at now_ms work
         | None => Ok work
         end;
  r ← roster_row account fact;
  roster ← insert_row roster_ref r (at_roster tables);
  content ← fold_rows (write_content_boundary account roster_ref) (map_to_list (rf_content_boundaries fact)) (at_content tables);
  Ok (set_content content (set_roster roster tables), work).

Definition incarnation_row (account : AccountId) (fact : OwnerIncarnationFact) : result AnyError IncarnationRow :=
  effective_at ← to_column (of_effective_at fact);
  closed_at ← transpose to_column (of_closed_at fact);
  Ok (mkIncarnationRow account (oa_device_fingerprint (of_authority fact)) effective_at closed_at
        (stored_boundary (of_control_boundary fact)) (stored_boundary (of_secrets_boundary fact))).

Definition ownership_row (account : AccountId) (fact : StreamOwnershipFact) : result AnyError OwnershipRow :=
  effective_at ← to_column (sf_effective_at fact);
  Ok (mkOwnershipRow account (sf_own_id fact) effective_at).

Definition grant_row (account : AccountId) (fact : GrantFact) : result AnyError GrantRow :=
  effective_at ← to_column (gf_effective_at fact);
  closed_at ← transpose to_column (gf_closed_at fact);
  Ok (mkGrantRow account (ga_stream_id (gf_authority fact)) (ga_grantee_account_id (gf_authority fact))
        (GrantRole_as_db_str (ga_role (gf_authority fact))) effective_at closed_at).

(** One [INSERT] for each fact, with the columns of the fact. *)
Definition write_fact {K F R} `{Countable K} (columns : F → result AnyError R) (table : gmap K R) (row : K * F)
    : result AnyError (gmap K R) :=
  r ← columns row.2; insert_row row.1 r table.

Definition write_cut (account : AccountId) (grant_id : GrantId) (table : gmap (GrantId * DeviceFingerprint) GrantCutRow)
    (cut : DeviceCut) : result AnyError (gmap (GrantId * DeviceFingerprint) GrantCutRow) :=
  insert_row (grant_id, dc_device_fingerprint cut) (mkGrantCutRow account (be_bytes 8 (dc_seq cut)) (dc_hash cut)) table.

Definition rewrite_authority_projection (account : AccountId) (history : AccountAuthHistory) (now_ms : Z)
    (tables : AuthTables) (work : TableSyncWork) : result AnyError (AuthTables * TableSyncWork) :=
  let facts := hi_facts history in
  let tables := clear_account account tables in
  state ← state_row history;
  states ← insert_row account state (at_state tables);
  '(tables, work) ← fold_rows (write_roster_fact account now_ms) (map_to_list (af_roster_refs facts)) (set_state states tables, work);
  incarnations ← fold_rows (write_fact (incarnation_row account)) (map_to_list (af_owner_incarnations facts)) (at_incarnations tables);
  ownership ← fold_rows (write_fact (ownership_row account)) (map_to_list (af_stream_ownership facts)) (at_ownership tables);
  grants ← fold_rows (write_fact (grant_row account)) (map_to_list (af_grants facts)) (at_grants tables);
  cuts ← fold_rows (fun table row => fold_rows (write_cut account row.1) row.2 table) (map_to_list (af_grant_cuts facts)) (at_cuts tables);
  Ok (set_cut_rows cuts (set_grant_rows grants (set_ownership ownership (set_incarnations incarnations tables))), work).

(** ** The reads

    A keyed read of one row is a lookup and the account condition of its [WHERE]. *)

Definition keyed {K R} `{Countable K} (owner_of : R → bytes) (account : AccountId) (k : K) (table : gmap K R) : option R :=
  row ← table !! k; if bool_decide (owner_of row = account) then Some row else None.

Definition validated_fact {T} (authority : T) (effective_at : Z) (closed_at : option Z) : result AnyError (AuthorityQuery T) :=
  _ ← from_column effective_at; _ ← transpose from_column closed_at; Ok (Effective authority).

Definition validated_open_fact {T} (authority : T) (effective_at : Z) (closed_at : option Z)
    : result AnyError (AuthorityQuery T) :=
  fact ← validated_fact authority effective_at closed_at;
  Ok (if bool_decide (is_Some closed_at) then Invalid ReferencedEntryNotEffective else fact).

(** [ORDER BY effective_at DESC, key]. *)
Definition newest_first {R} (effective_at : R → Z) (rows : list (bytes * R)) : list (bytes * R) :=
  sort_by_key (fun row => (- effective_at row.2, row.1)) rows.

Section Reads.
Context (db : AccountDb).

Definition missing_reference {T} (account : AccountId) (reference : AccountEntryHash) : result AnyError (AuthorityQuery T) :=
  match db_entries db !! reference with
  | None => Ok UnknownQuery
  | Some row =>
      held ← id_fixed 32 (er_account row);
      Ok (Invalid (if bool_decide (held ≠ account) then WrongSubject else ReferencedEntryNotEffective))
  end.

(** *** Roster *)

Definition load_roster_fact (account : AccountId) (roster_ref : RosterRef)
    : result AnyError (option (RosterAuthority * Z * option Z)) :=
  _ ← require_foldable_account_control db account;
  match keyed ro_account account roster_ref (at_roster (db_auth db)) with
  | None => Ok None
  | Some row =>
      device ← id_fixed 32 (ro_device row);
      role ← DeviceRole_from_db_str (ro_role row);
      Ok (Some (mkRosterAuthority device role, ro_effective_at row, ro_closed_at row))
  end.

Definition stored_roster_ref_effective (account : AccountId) (roster_ref : RosterRef) (device : DeviceFingerprint)
    : result AnyError (AuthorityQuery RosterAuthority) :=
  loaded ← load_roster_fact account roster_ref;
  match loaded with
  | None => missing_reference account roster_ref
  | Some (authority, effective_at, closed_at) =>
      if bool_decide (rr_device_fingerprint authority ≠ device) then Ok (Invalid WrongSubject)
      else validated_open_fact authority effective_at closed_at
  end.

Definition stored_roster_content_authority (account : AccountId) (roster_ref : RosterRef) (device : DeviceFingerprint)
    (stream_id : StreamId) : result AnyError (AuthorityQuery RosterContentAuthority) :=
  loaded ← load_roster_fact account roster_ref;
  match loaded with
  | None => missing_reference account roster_ref
  | Some (roster, effective_at, closed_at) =>
      if bool_decide (rr_device_fingerprint roster ≠ device) then Ok (Invalid WrongSubject)
      else
        _ ← from_column effective_at;
        _ ← transpose from_column closed_at;
        boundary ← match keyed cb_account account (roster_ref, stream_id) (at_content (db_auth db)) with
                   | Some cut => seq ← id_fixed 8 (cb_seq cut); hash ← id_fixed 32 (cb_hash cut); Ok (BoundaryCut (be_value seq) hash)
                   | None => Ok (if bool_decide (closed_at = None) then BoundaryOpen else BoundaryClosed)
                   end;
        Ok (Effective (mkRosterContentAuthority (rr_device_fingerprint roster) (rr_current_role roster) boundary))
  end.

(** *** Owner incarnations *)

(** The row of the [LEFT JOIN]; [AuthRefine] shows that a device has at most one. *)
Definition joined_roster_row (account : AccountId) (device : bytes) : option RosterRow :=
  List.find (fun row => bool_decide (ro_account row = account) && bool_decide (ro_device row = device))
    (map_to_list (at_roster (db_auth db))).*2.

Definition stored_owner_chain_authority (account : AccountId) (owner_id : OwnerId) (device : DeviceFingerprint)
    (chain : AuthorityChain) : result AnyError (AuthorityQuery OwnerChainAuthority) :=
  _ ← require_foldable_account_control db account;
  match keyed ir_account account owner_id (at_incarnations (db_auth db)) with
  | None => missing_reference account owner_id
  | Some row =>
      let joined := joined_roster_row account (ir_device row) in
      owner_device ← id_fixed 32 (ir_device row);
      if bool_decide (owner_device ≠ device) then Ok (Invalid WrongSubject)
      else
        _ ← from_column (ir_effective_at row);
        _ ← transpose from_column (ir_closed_at row);
        _ ← transpose from_column (ro_effective_at <$> joined);
        _ ← transpose from_column (joined ≫= ro_closed_at);
        device_boundary ← match joined with
                          | Some r => decode_stored_boundary (roster_columns chain r) (ro_closed_at r) false true
                          | None => Ok BoundaryClosed
                          end;
        incarnation_boundary ← decode_stored_boundary (incarnation_columns chain row) (ir_closed_at row)
                                 (match device_boundary with BoundaryOpen => false | _ => true end) false;
        Ok (Effective (mkOwnerChainAuthority (mkOwnerAuthority owner_device) device_boundary incarnation_boundary))
  end.

Definition stored_owner_control_authority (account : AccountId) (owner_id : OwnerId) (device : DeviceFingerprint)
    : result AnyError (AuthorityQuery OwnerChainAuthority) :=
  stored_owner_chain_authority account owner_id device ChainControl.
Definition stored_owner_secrets_authority (account : AccountId) (owner_id : OwnerId) (device : DeviceFingerprint)
    : result AnyError (AuthorityQuery OwnerChainAuthority) :=
  stored_owner_chain_authority account owner_id device ChainSecrets.

Definition stored_owner_incarnation_effective (account : AccountId) (owner_id : OwnerId) (device : DeviceFingerprint)
    : result AnyError (AuthorityQuery OwnerAuthority) :=
  _ ← require_foldable_account_control db account;
  match keyed ir_account account owner_id (at_incarnations (db_auth db)) with
  | None => missing_reference account owner_id
  | Some row =>
      owner_device ← id_fixed 32 (ir_device row);
      if bool_decide (owner_device ≠ device) then Ok (Invalid WrongSubject)
      else validated_open_fact (mkOwnerAuthority owner_device) (ir_effective_at row) (ir_closed_at row)
  end.

Definition effective_owner_incarnation_for_device (account : AccountId) (device : DeviceFingerprint)
    : result AnyError (option OwnerId) :=
  _ ← require_foldable_account_control db account;
  let rows := filter (fun row => ir_account row.2 = account ∧ ir_device row.2 = device ∧ ir_closed_at row.2 = None)
                (map_to_list (at_incarnations (db_auth db))) in
  transpose (id_fixed 32) (fst <$> hd_error (newest_first ir_effective_at rows)).

(** *** Grants *)

Definition load_grant (owner_account : AccountId) (grant_id : GrantId) : result AnyError (option (GrantAuthority * Z * option Z)) :=
  match keyed gr_owner owner_account grant_id (at_grants (db_auth db)) with
  | None => Ok None
  | Some row =>
      stream ← id_fixed 32 (gr_stream row);
      grantee ← id_fixed 32 (gr_grantee row);
      role ← GrantRole_from_db_str (gr_role row);
      Ok (Some (mkGrantAuthority stream grantee role, gr_effective_at row, gr_closed_at row))
  end.

Definition stored_grant_effective (owner_account : AccountId) (grant_id : GrantId) (stream_id : StreamId) (grantee : AccountId)
    : result AnyError (AuthorityQuery GrantAuthority) :=
  _ ← require_foldable_account_control db owner_account;
  _ ← require_foldable_account_control db grantee;
  loaded ← load_grant owner_account grant_id;
  match loaded with
  | None => missing_reference owner_account grant_id
  | Some (authority, effective_at, closed_at) =>
      if bool_decide (ga_stream_id authority ≠ stream_id) || bool_decide (ga_grantee_account_id authority ≠ grantee)
      then Ok (Invalid WrongSubject)
      else validated_fact authority effective_at closed_at
  end.

Definition load_grant_device_cut (owner_account : AccountId) (grant_id : GrantId) (device : DeviceFingerprint)
    : result AnyError (option DeviceCut) :=
  transpose (fun row => seq ← id_fixed 8 (gc_seq row); hash ← id_fixed 32 (gc_hash row); Ok (mkDeviceCut device (be_value seq) hash))
    (keyed gc_owner owner_account (grant_id, device) (at_cuts (db_auth db))).

Definition stored_grant_effective_for_device (owner_account : AccountId) (grant_id : GrantId) (stream_id : StreamId)
    (grantee : AccountId) (device : DeviceFingerprint) : result AnyError (AuthorityQuery GrantDeviceAuthority) :=
  _ ← require_foldable_account_control db owner_account;
  _ ← require_foldable_account_control db grantee;
  loaded ← load_grant owner_account grant_id;
  match loaded with
  | None => missing_reference owner_account grant_id
  | Some (grant, effective_at, closed_at) =>
      if bool_decide (ga_stream_id grant ≠ stream_id) || bool_decide (ga_grantee_account_id grant ≠ grantee)
      then Ok (Invalid WrongSubject)
      else
        _ ← validated_fact grant effective_at closed_at;
        device_cut ← load_grant_device_cut owner_account grant_id device;
        boundary ← match closed_at, device_cut with
                   | None, None => Ok GrantOpen
                   | None, Some _ => Err (Bail "open grant unexpectedly has a persisted device cut")
                   | Some _, Some cut => Ok (GrantCut cut)
                   | Some _, None => Ok GrantClosed
                   end;
        Ok (Effective (mkGrantDeviceAuthority grant boundary))
  end.

Definition stored_grant_device_cut (owner_account : AccountId) (grant_id : GrantId) (device : DeviceFingerprint)
    : result AnyError (AuthorityQuery (option DeviceCut)) :=
  _ ← require_foldable_account_control db owner_account;
  match keyed gr_owner owner_account grant_id (at_grants (db_auth db)) with
  | None => missing_reference owner_account grant_id
  | Some _ => cut ← load_grant_device_cut owner_account grant_id device; Ok (Effective cut)
  end.

(** The rows of an owner, as the query lists them. *)
Definition owner_grants (owner_account : AccountId) (select : GrantRow → bool) : list (GrantId * GrantRow) :=
  List.filter (fun row => bool_decide (gr_owner row.2 = owner_account) && select row.2) (map_to_list (at_grants (db_auth db))).

Definition open_writer (row : GrantRow) : bool :=
  bool_decide (gr_role row = GrantRole_as_db_str Writer) && bool_decide (gr_closed_at row = None).

Definition open_writer_grants (owner_account : AccountId) (stream_id : StreamId) (grantee : AccountId)
    : result AnyError (list GrantId) :=
  _ ← require_foldable_account_control db owner_account;
  _ ← require_foldable_account_control db grantee;
  map_rows (fun row => id_fixed 32 row.1)
    (newest_first gr_effective_at
       (owner_grants owner_account (fun row =>
          bool_decide (gr_stream row = stream_id) && bool_decide (gr_grantee row = grantee) && open_writer row))).

Record StreamGrantListing : Type := mkStreamGrantListing {
  gl_grant_id : GrantId;
  gl_grantee_account_id : AccountId;
  gl_role : string;
  gl_open : bool;
}.

Definition stream_grants_for_owner (owner_account : AccountId) (stream_id : StreamId) : result AnyError (list StreamGrantListing) :=
  _ ← require_foldable_account_control db owner_account;
  map_rows (fun row => grant_id ← id_fixed 32 row.1; grantee ← id_fixed 32 (gr_grantee row.2);
                       Ok (mkStreamGrantListing grant_id grantee (gr_role row.2) (bool_decide (gr_closed_at row.2 = None))))
    (newest_first gr_effective_at (owner_grants owner_account (fun row => bool_decide (gr_stream row = stream_id)))).

(** [SELECT DISTINCT grantee_account_id .. ORDER BY grantee_account_id]. *)
Definition distinct_grantees (rows : list (GrantId * GrantRow)) : list bytes :=
  sort_unstable (elements (list_to_set (gr_grantee ∘ snd <$> rows) : gset bytes)).

Definition effective_writer_grantees (owner_account : AccountId) : result AnyError (list AccountId) :=
  _ ← require_foldable_account_control db owner_account;
  map_rows (id_fixed 32) (distinct_grantees (owner_grants owner_account open_writer)).

Definition owner_ever_granted (owner_account grantee : AccountId) : bool :=
  existsb (fun row => bool_decide (gr_grantee row.2 = grantee)) (owner_grants owner_account (fun _ => true)).

Definition ever_granted_accounts (owner_account : AccountId) : result AnyError (list AccountId) :=
  map_rows (id_fixed 32)
    (distinct_grantees (owner_grants owner_account (fun row => bool_decide (gr_grantee row ≠ owner_account)))).

(** *** Ownership *)

Definition stored_stream_owner_effective (account : AccountId) (stream_id : StreamId)
    : result AnyError (AuthorityQuery AccountEntryHash) :=
  _ ← require_foldable_account_control db account;
  match keyed os_account account stream_id (at_ownership (db_auth db)) with
  | None => Ok UnknownQuery
  | Some row => own_id ← id_fixed 32 (os_own_id row); validated_fact own_id (os_effective_at row) None
  end.

Definition stream_owner_account_unchecked (stream_id : StreamId) : result AnyError (option AccountId) :=
  transpose (fun row => id_fixed 32 (os_account row)) (at_ownership (db_auth db) !! stream_id).

Definition stream_owner_account (stream_id : StreamId) : result AnyError (option AccountId) :=
  _ ← require_supported_stream_control db stream_id; stream_owner_account_unchecked stream_id.

Definition stream_owner_account_for_cleanup (stream_id : StreamId) : result AnyError (option AccountId) :=
  pinned ← stream_control_pinned db stream_id;
  if (pinned : bool) then Ok None else stream_owner_account_unchecked stream_id.

Definition owned_stream_bytes (account : AccountId) : result AnyError (list StreamId) :=
  map_rows (id_fixed 32)
    (sort_unstable (fst <$> filter (fun row => os_account row.2 = account) (map_to_list (at_ownership (db_auth db))))).

Definition owned_streams_for_account (account : AccountId) : result AnyError (list StreamId) :=
  _ ← require_foldable_account_control db account; owned_stream_bytes account.

(** *** The state of the account *)

Definition stored_account_is_contested (account : AccountId) : result AnyError bool :=
  _ ← require_foldable_account_control db account;
  Ok match at_state (db_auth db) !! account with
     | Some row => bool_decide (au_classification row = "contested"%string)
     | None => false
     end.

Definition held_control_log_len (account : AccountId) : Z :=
  len (List.filter (fun row => bool_decide (er_account row.2 = account) && bool_decide (er_log_id row.2 = CONTROL_LOG))
         (map_to_list (db_entries db))).

Definition stored_auth_len_freshness (account : AccountId) (asserted_auth_len : Z) : AuthorityFreshness :=
  freshness_of asserted_auth_len (held_control_log_len account).

Definition account_effective_count (account : AccountId) : result AnyError Z :=
  _ ← require_foldable_account_control db account;
  count ← transpose (fun row => from_column (au_effective_count row)) (at_state (db_auth db) !! account);
  Ok (default 0 count).

(** *** Roster lists *)

Definition open_roster (account : AccountId) : list (RosterRef * RosterRow) :=
  filter (fun row => ro_account row.2 = account ∧ ro_closed_at row.2 = None) (map_to_list (at_roster (db_auth db))).

Definition list_effective_roster_fingerprints (account : AccountId) : result AnyError (list DeviceFingerprint) :=
  _ ← require_foldable_account_control db account;
  map_rows (id_fixed 32) (sort_unstable (elements (list_to_set (ro_device ∘ snd <$> open_roster account) : gset bytes))).

Definition effective_roster_entry_in_snapshot (account : AccountId) (device : DeviceFingerprint)
    : result AnyError (option (RosterRef * DeviceRole)) :=
  _ ← require_foldable_account_control db account;
  transpose (fun row => roster_ref ← id_fixed 32 row.1; role ← DeviceRole_from_db_str (ro_role row.2); Ok (roster_ref, role))
    (hd_error (newest_first ro_effective_at (filter (fun row => ro_device row.2 = device) (open_roster account)))).

Definition device_is_effective_writer (account : AccountId) (device : DeviceFingerprint) : result AnyError bool :=
  _ ← require_foldable_account_control db account;
  Ok (existsb (fun row => bool_decide (ro_device row.2 = device) &&
                (bool_decide (ro_role row.2 = "member"%string) || bool_decide (ro_role row.2 = "owner"%string)))
        (open_roster account)).
End Reads.

(** The tables answer the reads of a refold. *)
#[export] Instance stored_snapshot (db : AccountDb) : AuthoritySnapshot := {|
  sn_owner_secrets_authority := stored_owner_secrets_authority db;
  sn_stream_owner_effective := stored_stream_owner_effective db;
  sn_roster_content_authority := stored_roster_content_authority db;
  sn_grant_effective_for_device := stored_grant_effective_for_device db;
  sn_stream_owner_account := stream_owner_account_for_cleanup db;
  sn_account_is_contested := stored_account_is_contested db;
  sn_held_control_log_len account := Ok (held_control_log_len db account);
  sn_account_is_pinned := account_is_pinned db;
|}.
