(* ===== verification/ControlV2.v ===== *)
(** * Control v2 payloads ([account/control_v2/ops.rs], the wire of [account/control_v2/views.rs])

    The payload of a control operation after a checkpoint, which binds the checkpoint and the view a
    revocation was taken under, and the detached manifest that names that view.  Both are exact: one
    encoding for each value. *)

From S2P Require Import Prelude Cbor Minicbor Hash Op Device Entry Stream Branch Envelope Candidate AccountOps FoldTypes Snapshot AuthStore.

Local Open Scope Z_scope.

(** ** [anyhow] *)

(** [?] on a codec error. *)
Definition from_cbor {A} (m : result CborError A) : result AnyError A := map_err (Wrapped "") m.

(** [anyhow::ensure!]. *)
Definition ensure (condition : bool) (message : string) : result AnyError unit :=
  if condition then Ok tt else Err (Bail message).

Lemma ensure_bind {A} b m (k : result AnyError A) a : (_ ← ensure b m; k) = Ok a ↔ b = true ∧ k = Ok a.
Proof. destruct b; simpl; naive_solver. Qed.
Lemma from_cbor_bind {A B} (m : result CborError A) (k : A → result AnyError B) b :
  (a ← from_cbor m; k a) = Ok b ↔ ∃ a, m = Ok a ∧ k a = Ok b.
Proof. destruct m; simpl; naive_solver. Qed.

(** ** Arrays of rows *)

Lemma len_fmap {A B} (f : A → B) (l : list A) : len (f <$> l) = len l.
Proof. unfold len. by rewrite length_fmap. Qed.

Lemma height_array n l : Forall (fun i => height i ≤ n)%nat l → (height (Array l) ≤ S n)%nat.
Proof. intros Hl. simpl. apply le_n_S, max_list_le. by apply Forall_fmap. Qed.

(** The rows of an array, each written by [put]. *)
Lemma put_rows_ser `{MinicborLaws} {A} (put : A → bytes) (row : A → item) (l : list A) :
  len l ≤ u64_max → Forall (fun a => put a = ser (row a)) l →
  put_array (len l) ++ mjoin (put <$> l) = ser (Array (row <$> l)).
Proof.
  intros Hl Hrow. etrans; [|apply put_array_ser; by rewrite len_fmap]. rewrite len_fmap. do 2 f_equal.
  rewrite <- list_fmap_compose. apply list_fmap_ext. intros i a Ha. rewrite Forall_lookup in Hrow. by eapply Hrow.
Qed.

(** ** Data *)

Record ControlOp : Type := mkControlOp {
  cv_checkpoint : bytes;
  cv_pre_cut_view : option bytes;
  cv_op : AccountOp;
}.

Record ViewManifest : Type := mkViewManifest {
  vm_checkpoint : bytes;
  vm_entries : list AccountEntryHash;
}.

Definition CONTROL_OP_DOMAIN : bytes := lit "rag-rat/control-op/2".
Definition VIEW_DOMAIN : bytes := lit "rag-rat/control-view/2".
Definition MAX_VIEW_ENTRIES : Z := 1900.

Definition is_genesis (op : AccountOp) : bool := match op with AccountGenesis _ _ _ _ _ => true | _ => false end.
Definition is_revocation (op : AccountOp) : bool :=
  match op with DeviceRemove _ _ _ _ _ | OwnerDemote _ _ _ _ _ => true | _ => false end.

Section Codec.
Context `{Minicbor} `{Sha256} `{Ed25519}.

(** [d.array()? == Some(n) && d.str()? == domain]. *)
Definition expect_frame (n : Z) (domain : bytes) (message : string) : Decoder unit :=
  o ← d_array;
  if bool_decide (o = Some n) then
    got ← d_str; if bool_decide (got = domain) then mret tt else fail (Message message)
  else fail (Message message).

(** Decode a whole buffer and compare the encoding of the result with it. *)
Definition decode_exactly {A} (parts : Decoder A) (encode : A → result AnyError bytes) (message : string) (bs : bytes)
    : result AnyError A :=
  '(a, rest) ← from_cbor (parts bs);
  _ ← ensure (bool_decide (rest = [])) message;
  again ← encode a;
  _ ← ensure (bool_decide (again = bs)) message;
  Ok a.

(** ** Control operations *)

Definition control_payload (checkpoint : bytes) (view : option bytes) (payload : bytes) : bytes :=
  put_array 4 ++ put_str CONTROL_OP_DOMAIN ++ put_bytes checkpoint ++ put_opt put_bytes view ++ put_bytes payload.

Definition control_encode (op : ControlOp) : result AnyError bytes :=
  _ ← ensure (negb (is_genesis (cv_op op))) "v2 has no genesis";
  _ ← ensure (bool_decide (is_revocation (cv_op op) = bool_decide (is_Some (cv_pre_cut_view op)))) "pre-cut view presence";
  payload ← from_cbor (ops_encode (cv_op op));
  let bs := control_payload (cv_checkpoint op) (cv_pre_cut_view op) payload in
  _ ← ensure (bool_decide (len bs ≤ ACCOUNT_ENVELOPE_MAX_BYTES)) "v2 payload too large";
  Ok bs.

Definition decode_control_parts (entry_type : Z) : Decoder ControlOp :=
  _ ← expect_frame 4 CONTROL_OP_DOMAIN "v2 control grammar";
  checkpoint ← d_fixed 32 "stored blob";
  view ← decode_opt (d_fixed 32 "stored blob");
  payload ← d_bytes;
  decoded ← lift (ops_decode entry_type payload);
  match decoded with
  | KnownOp op => mret (mkControlOp checkpoint view op)
  | UnknownOp _ _ => fail (Message "unsupported v2 control operation")
  end.

Definition control_decode (entry_type : Z) (bs : bytes) : result AnyError ControlOp :=
  _ ← ensure (bool_decide (len bs ≤ ACCOUNT_ENVELOPE_MAX_BYTES)) "v2 payload too large";
  _ ← from_cbor (require_canonical_cbor bs);
  decode_exactly (decode_control_parts entry_type) control_encode "noncanonical v2 control payload" bs.

(** ** View manifests *)

Definition manifest_bytes (checkpoint : bytes) (entries : list AccountEntryHash) : bytes :=
  put_array 3 ++ put_str VIEW_DOMAIN ++ put_bytes checkpoint ++ put_array (len entries) ++ mjoin (put_bytes <$> entries).

Definition manifest_encode (view : ViewManifest) : result AnyError bytes :=
  _ ← ensure (bool_decide (len (vm_entries view) ≤ MAX_VIEW_ENTRIES)) "view entries exceed limit";
  let entries := sort_unstable (vm_entries view) in
  _ ← ensure (negb (any_adjacent_equal entries)) "duplicate view entry";
  Ok (manifest_bytes (vm_checkpoint view) entries).

Definition manifest_digest (view : ViewManifest) : result AnyError bytes :=
  bs ← manifest_encode view; Ok (sha256 bs).

Definition decode_manifest_parts : Decoder ViewManifest :=
  _ ← expect_frame 3 VIEW_DOMAIN "view grammar";
  checkpoint ← d_fixed 32 "stored blob";
  n ← d_array;
  n ← lift (ok_or (Message "indefinite view entries") n);
  if bool_decide (n ≤ MAX_VIEW_ENTRIES) then
    entries ← read_many n (d_fixed 32 "stored blob"); mret (mkViewManifest checkpoint entries)
  else fail (Message "view entries exceed limit").

Definition decode_manifest (bs : bytes) : result AnyError ViewManifest :=
  _ ← ensure (bool_decide (len bs ≤ MAX_VIEW_ENTRIES * 34 + 128)) "view manifest too large";
  _ ← from_cbor (require_canonical_cbor bs);
  decode_exactly decode_manifest_parts manifest_encode "noncanonical view" bs.

(** ** Candidates of one checkpoint *)

Definition is_v2_candidate (pin : TrustedCheckpointPin) (h : AccountEntryHeader) : bool :=
  bool_decide (ah_account_id h = cp_account_id pin) && bool_decide (ah_log_id h = 0) &&
  bool_decide (ah_op_version h = CONTROL_VERSION) && bool_decide (ah_crypto_suite h = 0) && is_i64 (ah_seq h).

Definition decode_candidate (pin : TrustedCheckpointPin) (bs : bytes) : result AnyError (SignedAccountEntry * ControlOp) :=
  entry ← decode_account_signed bs;
  _ ← ensure (is_v2_candidate pin (sa_header entry)) "not a v2 control candidate for this account";
  op ← control_decode (ah_entry_type (sa_header entry)) (sa_payload entry);
  _ ← ensure (bool_decide (cv_checkpoint op = cp_checkpoint_digest pin)) "candidate checkpoint mismatch";
  Ok (entry, op).
End Codec.

(** ** What the codecs accept *)

(** What a control operation must be to encode. *)
Definition control_op_ok `{Minicbor} `{Sha256} `{Ed25519} (op : ControlOp) : Prop :=
  hash_ok (cv_checkpoint op) ∧ opt_ok hash_ok (cv_pre_cut_view op) ∧ account_op_ok (cv_op op) ∧
  ops_canonicalize (cv_op op) = Ok (cv_op op) ∧ len (encode_canonical (cv_op op)) ≤ u64_max ∧ is_genesis (cv_op op) = false ∧
  (is_Some (cv_pre_cut_view op) ↔ is_revocation (cv_op op) = true).

Definition manifest_ok (view : ViewManifest) : Prop :=
  hash_ok (vm_checkpoint view) ∧ Forall hash_ok (vm_entries view) ∧ StronglySorted clt (vm_entries view) ∧
  len (vm_entries view) ≤ MAX_VIEW_ENTRIES.

Section Exactly.
Context `{MinicborLaws} `{Sha256} `{Ed25519}.

Lemma reads_frame n domain message :
  0 ≤ n ≤ u64_max → str_ok domain → reads (expect_frame n domain message) (put_array n ++ put_str domain) tt.
Proof using All.
  intros Hn [Hu Hl]. eapply reads_bind; [by apply reads_d_array|]. rewrite bool_decide_true by done.
  eapply reads_bind_nil; [by apply reads_str|]. by rewrite bool_decide_true.
Qed.

Lemma decode_exactly_Ok {A} (parts : Decoder A) encode message bs a :
  decode_exactly parts encode message bs = Ok a ↔ parts bs = Ok (a, []) ∧ encode a = Ok bs.
Proof using All.
  unfold decode_exactly. rewrite from_cbor_bind. split.
  - intros ([a' rest] & Hp & Hr). rewrite ensure_bind, bool_decide_eq_true, result_bind_Ok in Hr.
    destruct Hr as (-> & again & He & Ha). rewrite ensure_bind, bool_decide_eq_true in Ha. destruct Ha as [-> [= <-]]. done.
  - intros [Hp He]. exists (a, []). split; [done|]. rewrite He. simpl. by rewrite bool_decide_true.
Qed.

Lemma reads_end {A} (d : Decoder A) w a : reads d w a → d w = Ok (a, []).
Proof using All. intros Hr. specialize (Hr []). by rewrite app_nil_r in Hr. Qed.

(** *** Control operations *)

Lemma control_encode_Ok op bs :
  control_encode op = Ok bs ↔
  is_genesis (cv_op op) = false ∧ (is_Some (cv_pre_cut_view op) ↔ is_revocation (cv_op op) = true) ∧
  ∃ payload, ops_encode (cv_op op) = Ok payload ∧
    bs = control_payload (cv_checkpoint op) (cv_pre_cut_view op) payload ∧ len bs ≤ ACCOUNT_ENVELOPE_MAX_BYTES.
Proof using All.
  unfold control_encode. rewrite !ensure_bind, from_cbor_bind, negb_true_iff, bool_decide_eq_true.
  setoid_rewrite ensure_bind. setoid_rewrite bool_decide_eq_true.
  assert (is_revocation (cv_op op) = bool_decide (is_Some (cv_pre_cut_view op)) ↔
    (is_Some (cv_pre_cut_view op) ↔ is_revocation (cv_op op) = true)) as ->.
  { case_bool_decide; destruct (is_revocation _); naive_solver. }
  naive_solver.
Qed.

Lemma ops_encode_ok op bs : account_op_ok op → ops_canonicalize op = Ok op → ops_encode op = Ok bs ↔ bs = encode_canonical op.
Proof using All. intros _ Hc. unfold ops_encode. rewrite Hc. simpl. naive_solver. Qed.

Lemma reads_control op :
  control_op_ok op →
  reads (decode_control_parts (entry_type_of (cv_op op)))
    (control_payload (cv_checkpoint op) (cv_pre_cut_view op) (encode_canonical (cv_op op))) op.
Proof using All.
  intros (Hc & Hv & Hop & Hcan & Hl & _). unfold decode_control_parts, control_payload. rewrite app_assoc.
  eapply reads_bind; [apply reads_frame; [unfold u64_max; lia|by vm_compute]|].
  eapply reads_bind; [by apply reads_b32|]. eapply reads_bind; [by apply reads_opt_b32|].
  eapply reads_bind_nil; [by apply reads_bytes|]. rewrite ops_decode_canonical by done. by destruct op.
Qed.

Lemma control_canonical checkpoint view payload :
  hash_ok checkpoint → opt_ok hash_ok view → len payload ≤ u64_max →
  require_canonical_cbor (control_payload checkpoint view payload) = Ok tt.
Proof using All.
  intros Hc Hv Hp.
  assert (Forall (λ i, item_wf i ∧ height i = 1%nat)
    [TextString CONTROL_OP_DOMAIN; ByteString checkpoint; opt_bytes_item view; ByteString payload]) as Hf.
  { repeat apply Forall_cons_2; [by apply text_flat; by vm_compute|by apply bytes_flat, hash_ok_len|by apply opt_item_flat
      |by apply bytes_flat|done]. }
  replace (control_payload checkpoint view payload) with
    (ser (Array [TextString CONTROL_OP_DOMAIN; ByteString checkpoint; opt_bytes_item view; ByteString payload])).
  { apply require_canonical_flat; [by vm_compute|done]. }
  unfold control_payload. rewrite put_str_ser, (put_opt_bytes_ser _ Hv), !put_bytes_ser by (done || by apply hash_ok_len).
  etrans; [symmetry; apply put_array_ser; by vm_compute|]. rewrite !fmap_cons. cbn [mjoin list_join fmap list_fmap].
  by rewrite app_nil_r.
Qed.

Lemma ensures_control t :
  ensures (decode_control_parts t) (fun op => hash_ok (cv_checkpoint op) ∧ opt_ok hash_ok (cv_pre_cut_view op) ∧ decoded_op t (cv_op op) ∧
    len (encode_canonical (cv_op op)) ≤ u64_max).
Proof using All.
  unfold decode_control_parts. eapply ensures_bind; [apply ensures_True|]. intros _ _.
  eapply ensures_bind; [apply ensures_b32|]. intros c Hc. eapply ensures_bind; [apply ensures_opt, ensures_b32|]. intros v Hv.
  eapply ensures_bind; [apply ensures_bytes|]. intros p Hp. eapply ensures_bind; [apply ensures_lift|]. intros d Hd.
  destruct d as [op|]; [|apply ensures_fail]. apply ensures_ret. apply ops_decode_known_inv in Hd as [? ->]. by split_and!.
Qed.

(** A v2 payload decodes exactly from the one encoding of a well-formed operation that names a view
    exactly when it revokes, within the size limit. *)
Lemma control_decode_exact t bs op :
  control_decode t bs = Ok op ↔
  control_op_ok op ∧ entry_type_of (cv_op op) = t ∧ len bs ≤ ACCOUNT_ENVELOPE_MAX_BYTES ∧
  bs = control_payload (cv_checkpoint op) (cv_pre_cut_view op) (encode_canonical (cv_op op)).
Proof using All.
  unfold control_decode. rewrite ensure_bind, from_cbor_bind, bool_decide_eq_true. split.
  - intros (Hl & [] & _ & [Hp He]%decode_exactly_Ok). apply ensures_control in Hp as (Hc & Hv & (Ht & Hok & Hfix) & Hpl).
    apply control_encode_Ok in He as (Hg & Hr & payload & Hpay & -> & _). apply ops_encode_ok in Hpay as ->; [|done|done].
    by split_and!.
  - intros (Hop & <- & Hl & ->). pose proof Hop as (Hc & Hv & Hok & Hfix & Hpl & Hg & Hr). split; [done|]. exists tt.
    split; [by apply control_canonical|]. apply decode_exactly_Ok. split; [by apply reads_end, reads_control|].
    apply control_encode_Ok. split_and!; [done|done|]. exists (encode_canonical (cv_op op)). split_and!; [|done|done].
    by apply ops_encode_ok.
Qed.

(** *** View manifests *)

Definition manifest_item (view : ViewManifest) : item :=
  Array [TextString VIEW_DOMAIN; ByteString (vm_checkpoint view); Array (ByteString <$> vm_entries view)].

Lemma manifest_bytes_ser view :
  hash_ok (vm_checkpoint view) → Forall hash_ok (vm_entries view) → len (vm_entries view) ≤ u64_max →
  manifest_bytes (vm_checkpoint view) (vm_entries view) = ser (manifest_item view).
Proof using All.
  intros Hc He Hl. unfold manifest_bytes, manifest_item. rewrite put_str_ser, !put_bytes_ser by (done || by apply hash_ok_len).
  etrans; [|apply put_array_ser; by vm_compute]. rewrite !fmap_cons. cbn [mjoin list_join fmap list_fmap]. rewrite app_nil_r.
  do 3 f_equal. apply put_rows_ser; [done|]. eapply Forall_impl; [exact He|]. intros h Hh. by apply put_bytes_ser, hash_ok_len.
Qed.

Lemma manifest_canonical view :
  hash_ok (vm_checkpoint view) → Forall hash_ok (vm_entries view) → len (vm_entries view) ≤ u64_max →
  require_canonical_cbor (manifest_bytes (vm_checkpoint view) (vm_entries view)) = Ok tt.
Proof using All.
  intros Hc He Hl. rewrite manifest_bytes_ser by done.
  assert (Forall (fun h => item_wf (ByteString h)) (vm_entries view)) as Hf.
  { eapply Forall_impl; [exact He|]. intros h Hh. by apply wf_bytes, hash_ok_len. }
  apply require_canonical_ser.
  - apply wf_array; [by vm_compute|]. repeat apply Forall_cons_2; [by apply wf_text; vm_compute|by apply wf_bytes, hash_ok_len| |done].
    apply wf_array; [by rewrite len_fmap|by apply Forall_fmap].
  - etrans; [apply (height_array 2)|unfold MAX_CBOR_DEPTH; lia].
    repeat apply Forall_cons_2; [simpl; lia|simpl; lia| |done].
    apply height_array, Forall_fmap, Forall_true. simpl. lia.
Qed.

Lemma put_bytes_32 h : hash_ok h → len (put_bytes h) = 34.
Proof using All.
  intros Hh. rewrite put_bytes_ser by by apply hash_ok_len. cbn [ser]. rewrite len_app. unfold len at 2. rewrite Hh.
  change (len (head 2 (len h))) with (len (head 2 (len h))). unfold len. rewrite Hh. by vm_compute.
Qed.

Lemma manifest_len view : manifest_ok view → len (manifest_bytes (vm_checkpoint view) (vm_entries view)) ≤ MAX_VIEW_ENTRIES * 34 + 128.
Proof using All.
  intros (Hc & He & _ & Hl). unfold manifest_bytes. rewrite !len_app, put_bytes_32 by done.
  pose proof (len_nonneg (vm_entries view)). assert (len (mjoin (put_bytes <$> vm_entries view)) = 34 * len (vm_entries view)) as ->.
  { clear Hl. induction He as [|h l Hh He IH]; [done|]. rewrite fmap_cons. cbn [mjoin list_join].
    rewrite len_app, len_cons, put_bytes_32 by done. change (mjoin _) with (mjoin (put_bytes <$> l)).
    rewrite IH by apply len_nonneg. lia. }
  assert (∀ n, 0 ≤ n ≤ u64_max → len (put_array n) ≤ 9) as Ha.
  { intros n Hn. unfold put_array. rewrite enc_array_spec by done. apply len_head. }
  pose proof (Ha 3). pose proof (Ha (len (vm_entries view))).
  assert (len (put_str VIEW_DOMAIN) = 23) as -> by (rewrite put_str_ser by (by vm_compute); by vm_compute).
  unfold MAX_VIEW_ENTRIES, u64_max in *. lia.
Qed.

Lemma reads_manifest view : manifest_ok view → reads decode_manifest_parts (manifest_bytes (vm_checkpoint view) (vm_entries view)) view.
Proof using All.
  intros (Hc & He & _ & Hl). pose proof (len_nonneg (vm_entries view)). unfold decode_manifest_parts, manifest_bytes. rewrite app_assoc.
  eapply reads_bind; [apply reads_frame; [unfold u64_max; lia|by vm_compute]|].
  eapply reads_bind; [by apply reads_b32|].
  eapply reads_bind; [apply reads_d_array; unfold MAX_VIEW_ENTRIES, u64_max in *; lia|]. cbn [ok_or].
  rewrite <- (app_nil_l (mjoin _)). eapply reads_bind; [by apply reads_lift|].
  rewrite bool_decide_true by done. eapply reads_bind_nil.
  - apply (reads_read_many _ put_bytes id). eapply Forall_impl; [exact He|]. intros h Hh. by apply reads_b32.
  - rewrite list_fmap_id. by destruct view.
Qed.

Lemma sort_unstable_strict (l : list bytes) :
  any_adjacent_equal (sort_unstable l) = false ↔ StronglySorted clt (sort_unstable l).
Proof using All.
  apply any_adjacent_strict. pose proof (sort_by_key_sorted (@id bytes) l) as Hs. unfold sorted_by_key in Hs.
  exact Hs.
Qed.

Lemma manifest_encode_Ok view bs :
  manifest_encode view = Ok bs ↔
  len (vm_entries view) ≤ MAX_VIEW_ENTRIES ∧ StronglySorted clt (sort_unstable (vm_entries view)) ∧
  bs = manifest_bytes (vm_checkpoint view) (sort_unstable (vm_entries view)).
Proof using All.
  unfold manifest_encode. rewrite !ensure_bind, bool_decide_eq_true, negb_true_iff, sort_unstable_strict. naive_solver.
Qed.

Lemma sort_unstable_id (l : list bytes) : StronglySorted clt l → sort_unstable l = l.
Proof using All. intros Hs. apply sort_by_key_id. by apply strict_sorted. Qed.

Lemma ensures_d_array : ensures d_array (fun o => ∀ n, o = Some n → 0 ≤ n ≤ u64_max).
Proof using All. intros bs o r Hd%ok_or_Ok n ->. by eapply dec_array_type. Qed.

Lemma ensures_manifest :
  ensures decode_manifest_parts (fun view => hash_ok (vm_checkpoint view) ∧ Forall hash_ok (vm_entries view)).
Proof using All.
  unfold decode_manifest_parts. eapply ensures_bind; [apply ensures_True|]. intros _ _.
  eapply ensures_bind; [apply ensures_b32|]. intros c Hc. eapply ensures_bind; [apply ensures_d_array|]. intros o Ho.
  eapply ensures_bind; [apply ensures_lift|]. intros n [= ->]%ok_or_Ok. case_bool_decide; [|apply ensures_fail].
  eapply ensures_bind; [apply ensures_read_many; [by apply Ho|apply ensures_b32]|]. intros l [Hl _]. by apply ensures_ret.
Qed.

(** A manifest decodes exactly from the one encoding of a strictly ascending list of entries. *)
Lemma decode_manifest_exact bs view :
  decode_manifest bs = Ok view ↔ manifest_ok view ∧ bs = manifest_bytes (vm_checkpoint view) (vm_entries view).
Proof using All.
  unfold decode_manifest. rewrite ensure_bind, from_cbor_bind, bool_decide_eq_true. split.
  - intros (_ & [] & _ & [Hp He]%decode_exactly_Ok). apply ensures_manifest in Hp as Hok.
    apply manifest_encode_Ok in He as (Hl & Hs & ->). destruct Hok as [Hc He].
    set (view' := mkViewManifest (vm_checkpoint view) (sort_unstable (vm_entries view))).
    assert (manifest_ok view') as Hok'.
    { pose proof (sort_by_key_perm id (vm_entries view)) as Hperm. split_and!; [done| |done|].
      - simpl. unfold sort_unstable. by rewrite Hperm.
      - simpl. unfold sort_unstable. by rewrite sort_by_key_len. }
    pose proof (reads_end _ _ _ (reads_manifest view' Hok')) as Hr. simpl in Hr. rewrite Hp in Hr. injection Hr as Heq.
    assert (sort_unstable (vm_entries view) = vm_entries view) as Hsort by (rewrite Heq at 2; done).
    split; [by rewrite Heq|by rewrite Hsort].
  - intros [Hok ->]. pose proof Hok as (Hc & He & Hs & Hl). split; [by apply manifest_len|]. exists tt.
    split; [apply manifest_canonical; try done; unfold MAX_VIEW_ENTRIES, u64_max in *; lia|].
    apply decode_exactly_Ok. split; [by apply reads_end, reads_manifest|].
    apply manifest_encode_Ok. by rewrite sort_unstable_id.
Qed.
End Exactly.
