(* ===== verification/Views.v ===== *)
(** * Replay plans ([account/control_v2/views.rs])

    The inputs a control-v2 revocation is replayed with: a bundle of detached views and signed
    candidates, resolved to the views in an order that puts every view after those its entries name.
    The plan is refused when a view or an entry is missing, when the views are cyclic, or when a
    revocation would count itself. *)

From S2P Require Import Prelude Cbor Minicbor Hash Op Device Entry Stream Branch Envelope Candidate AccountOps FoldTypes Snapshot AuthStore ControlV2.

Local Open Scope Z_scope.

(** ** Data *)

Definition MAX_ENTRIES : Z := 4096.
Definition MAX_BYTES : Z := 16 * 1024 * 1024.
Definition MAX_VIEWS : Z := MAX_ENTRIES.
Definition MAX_REFERENCES : Z := MAX_BYTES / 32.

Inductive PlanError : Type :=
| MissingView (digest : bytes)
| MissingEntry (hash : AccountEntryHash)
| PlanInvalid (e : AnyError).

Record ReplayPlan : Type := mkReplayPlan {
  rp_order : list bytes;
  rp_manifests : gmap bytes ViewManifest;
  rp_candidates : gmap AccountEntryHash SignedAccountEntry;
  rp_consumer : SignedAccountEntry;
  rp_consumer_op : ControlOp;
}.

(** [From<anyhow::Error>]. *)
Definition plan_any {A} (m : result AnyError A) : result PlanError A := map_err PlanInvalid m.
Definition plan_require (condition : bool) (message : string) : result PlanError unit := plan_any (ensure condition message).

(** A loop that may stop with an error. *)
Fixpoint fold_result {E S A} (f : S → A → result E S) (l : list A) (s : S) : result E S :=
  match l with
  | [] => Ok s
  | a :: l => s ← f s a; fold_result f l s
  end.

(** ** The order of the views *)

Section Order.
Context (consumer : AccountEntryHash) (views : gmap bytes ViewManifest) (citations : gmap AccountEntryHash (option bytes)).

(** The dependency an entry of a view adds; a [BTreeSet] is a sorted list without repetitions. *)
Definition entry_dependency (dependencies : list bytes) (entry : AccountEntryHash) : result PlanError (list bytes) :=
  _ ← plan_require (bool_decide (entry ≠ consumer)) "pre-cut view contains its consumer";
  dependency ← ok_or (MissingEntry entry) (citations !! entry);
  Ok match dependency with Some d => dependencies ++ [d] | None => dependencies end.

Definition view_dependencies (view : ViewManifest) : result PlanError (list bytes) :=
  dependencies ← fold_result entry_dependency (vm_entries view) []; Ok (sort_dedup dependencies).

(** The stack, top first; a frame is a view and whether it is being left. *)
Fixpoint order_loop (fuel : nat) (stack : list (bytes * bool)) (order : list bytes) (active scheduled : gset bytes)
    : option (result PlanError (list bytes)) :=
  match fuel with
  | O => None
  | S fuel =>
      match stack with
      | [] => Some (Ok order)
      | (hash, exiting) :: stack =>
          if bool_decide (hash ∈ scheduled) then order_loop fuel stack order active scheduled
          else
            match (view ← ok_or (MissingView hash) (views !! hash); view_dependencies view) with
            | Err e => Some (Err e)
            | Ok dependencies =>
                if (exiting : bool) then order_loop fuel stack (order ++ [hash]) (active ∖ {[hash]}) (scheduled ∪ {[hash]})
                else if bool_decide (hash ∈ active) then Some (Err (PlanInvalid (Bail "cyclic view dependencies")))
                else
                  let pushed := (fun d => (d, false)) <$> filter (fun d => d ∉ scheduled) dependencies in
                  order_loop fuel (pushed ++ (hash, true) :: stack) order (active ∪ {[hash]}) scheduled
            end
      end
  end.

(** A view is entered once and pushes at most one frame for each of its entries and one for itself. *)
Definition order_fuel : nat := 2 + sum_list ((fun v => S (length (vm_entries v.2))) <$> map_to_list views).

Definition order_views (root : option bytes) : option (result PlanError (list bytes)) :=
  order_loop order_fuel (match root with Some hash => [(hash, false)] | None => [] end) [] ∅ ∅.
End Order.

(** ** Plans *)

Section Plan.
Context `{Minicbor} `{Sha256} `{Ed25519}.

(** [try_fold(n, checked_add)] over lengths. *)
Fixpoint checked_sum (n : Z) (l : list bytes) : option Z :=
  match l with
  | [] => Some n
  | bs :: l => n ← u64_checked_add n (len bs); checked_sum n l
  end.

(** One supplied manifest: the views so far and the references they make. *)
Definition plan_manifest (pin : TrustedCheckpointPin) (s : gmap bytes ViewManifest * Z) (bs : bytes)
    : result PlanError (gmap bytes ViewManifest * Z) :=
  let '(views, references) := s in
  view ← plan_any (decode_manifest bs);
  _ ← plan_require (bool_decide (vm_checkpoint view = cp_checkpoint_digest pin)) "view checkpoint mismatch";
  let references := references + len (vm_entries view) in
  _ ← plan_require (bool_decide (references ≤ MAX_REFERENCES)) "aggregate view reference limit";
  _ ← plan_require (bool_decide (views !! sha256 bs = None)) "duplicate view";
  Ok (<[sha256 bs := view]> views, references).

(** One supplied candidate: the candidates and their citations so far. *)
Definition plan_candidate (pin : TrustedCheckpointPin) (consumer : SignedAccountEntry)
    (s : gmap AccountEntryHash SignedAccountEntry * gmap AccountEntryHash (option bytes)) (bs : bytes)
    : result PlanError (gmap AccountEntryHash SignedAccountEntry * gmap AccountEntryHash (option bytes)) :=
  let '(candidates, citations) := s in
  '(entry, op) ← plan_any (decode_candidate pin bs);
  _ ← plan_require (bool_decide (sa_entry_hash entry ≠ sa_entry_hash consumer)) "pre-cut evidence contains its consumer";
  _ ← plan_require (bool_decide (candidates !! sa_entry_hash entry = None)) "duplicate v2 candidate";
  Ok (<[sa_entry_hash entry := entry]> candidates, <[sa_entry_hash entry := cv_pre_cut_view op]> citations).

Definition plan_replay (pin : TrustedCheckpointPin) (consuming_operation : bytes) (manifests evidence : list bytes)
    : option (result PlanError ReplayPlan) :=
  match
    (_ ← plan_require (bool_decide (len manifests ≤ MAX_VIEWS)) "too many views";
     _ ← plan_require (bool_decide (len evidence ≤ MAX_ENTRIES)) "too many v2 entries";
     _ ← plan_require match checked_sum (len consuming_operation) (manifests ++ evidence) with
                      | Some n => bool_decide (n ≤ MAX_BYTES) | None => false end "view evidence byte limit";
     '(consumer, consumer_op) ← plan_any (decode_candidate pin consuming_operation);
     '(views, _) ← fold_result (plan_manifest pin) manifests (∅, 0);
     '(candidates, citations) ← fold_result (plan_candidate pin consumer) evidence (∅, ∅);
     Ok (consumer, consumer_op, views, candidates, citations))
  with
  | Err e => Some (Err e)
  | Ok (consumer, consumer_op, views, candidates, citations) =>
      order ← order_views (sa_entry_hash consumer) views citations (cv_pre_cut_view consumer_op);
      Some (order ← order; Ok (mkReplayPlan order views candidates consumer consumer_op))
  end.

(** [ReplayPlan::views], [candidate], [root]; indexing a map that lacks the key panics. *)
Definition plan_views (plan : ReplayPlan) : option (list (bytes * ViewManifest)) :=
  mapM (fun hash => (fun v => (hash, v)) <$> rp_manifests plan !! hash) (rp_order plan).
Definition plan_root (plan : ReplayPlan) : option (option ViewManifest) :=
  match cv_pre_cut_view (rp_consumer_op plan) with
  | Some hash => Some <$> rp_manifests plan !! hash
  | None => Some None
  end.
End Plan.

(** ** The schedule *)

Lemma app_snoc_split {A} (l : list A) h l1 x l2 :
  l ++ [h] = l1 ++ x :: l2 → (∃ l2', l2 = l2' ++ [h] ∧ l = l1 ++ x :: l2') ∨ (l2 = [] ∧ x = h ∧ l1 = l).
Proof.
  destruct l2 as [|y l2' _] using rev_ind; intros Heq.
  - right. apply app_inj_tail in Heq as [-> ->]. done.
  - left. exists l2'. rewrite app_comm_cons, app_assoc in Heq. by apply app_inj_tail in Heq as [-> ->].
Qed.

Section Schedule.
Context (consumer : AccountEntryHash) (views : gmap bytes ViewManifest) (citations : gmap AccountEntryHash (option bytes)).

Abbreviation dependencies := (view_dependencies consumer citations).

(** The views a view waits for. *)
Definition edge (h d : bytes) : Prop := ∃ view deps, views !! h = Some view ∧ dependencies view = Ok deps ∧ d ∈ deps.
Definition reached (root : option bytes) (h : bytes) : Prop := ∃ r, root = Some r ∧ rtc edge r h.
(** Every view of the list is complete and follows the views it waits for. *)
Definition dependencies_first (order : list bytes) : Prop :=
  ∀ l1 h l2, order = l1 ++ h :: l2 →
    (∃ view deps, views !! h = Some view ∧ dependencies view = Ok deps) ∧ ∀ d, edge h d → d ∈ l1.

Lemma entry_dependency_eq deps0 e :
  entry_dependency consumer citations deps0 e =
  if decide (e = consumer) then Err (PlanInvalid (Bail "pre-cut view contains its consumer"))
  else match citations !! e with Some o => Ok match o with Some d => deps0 ++ [d] | None => deps0 end | None => Err (MissingEntry e) end.
Proof using Type.
  unfold entry_dependency, plan_require, ensure. destruct (decide (e = consumer)) as [->|Hne].
  - by rewrite bool_decide_false by tauto.
  - rewrite bool_decide_true by done. simpl. by destruct (citations !! e).
Qed.

Lemma entries_dependencies entries deps0 :
  match fold_result (entry_dependency consumer citations) entries deps0 with
  | Ok deps =>
      (∀ e, e ∈ entries → e ≠ consumer ∧ is_Some (citations !! e)) ∧
      (∀ d, d ∈ deps ↔ d ∈ deps0 ∨ ∃ e, e ∈ entries ∧ citations !! e = Some (Some d)) ∧
      (length deps ≤ length deps0 + length entries)%nat
  | Err (MissingEntry e) => e ∈ entries ∧ citations !! e = None
  | Err (PlanInvalid _) => consumer ∈ entries
  | Err (MissingView _) => False
  end.
Proof using Type.
  revert deps0. induction entries as [|e entries IH]; intros deps0.
  { simpl. split; [intros e He; by apply not_elem_of_nil in He|]. split; [|lia]. intros d. split; [by left|].
    intros [?|(e & He & _)]; [done|by apply not_elem_of_nil in He]. }
  cbn [fold_result]. rewrite entry_dependency_eq. destruct (decide (e = consumer)) as [->|Hc]; [simpl; left|].
  destruct (citations !! e) as [o|] eqn:He; simpl; [|split; [left|done]].
  specialize (IH (match o with Some d => deps0 ++ [d] | None => deps0 end)).
  destruct (fold_result _ _ _) as [deps|[h|h|err]]; [|done|split; [right; apply IH|apply IH]|right; exact IH].
  destruct IH as (Hall & Hin & Hlen). split; [|split].
  - intros e' [->|?]%elem_of_cons; [by rewrite He|by apply Hall].
  - intros d. rewrite Hin. setoid_rewrite elem_of_cons. destruct o as [d'|]; [rewrite elem_of_app, list_elem_of_singleton|]; naive_solver.
  - destruct o; rewrite ?length_app in Hlen; simpl in *; lia.
Qed.

Lemma view_dependencies_spec view :
  match dependencies view with
  | Ok deps =>
      (∀ e, e ∈ vm_entries view → e ≠ consumer ∧ is_Some (citations !! e)) ∧
      (∀ d, d ∈ deps ↔ ∃ e, e ∈ vm_entries view ∧ citations !! e = Some (Some d)) ∧ (length deps ≤ length (vm_entries view))%nat
  | Err (MissingEntry e) => e ∈ vm_entries view ∧ citations !! e = None
  | Err (PlanInvalid _) => consumer ∈ vm_entries view
  | Err (MissingView _) => False
  end.
Proof using Type.
  unfold view_dependencies. pose proof (entries_dependencies (vm_entries view) []) as Hs.
  destruct (fold_result _ _ _) as [deps|e]; simpl; [|exact Hs]. destruct Hs as (Hall & Hin & Hlen). split; [done|]. split.
  - intros d. rewrite elem_of_sort_dedup, Hin. split; [intros [Hd|?]; [by apply not_elem_of_nil in Hd|done]|by right].
  - pose proof (sort_dedup_len deps). unfold len in *. simpl in Hlen. lia.
Qed.

(** *** The stack *)

(** The views being left, innermost first. *)
Definition exits (stack : list (bytes * bool)) : list bytes := (filter (fun f => f.2 = true) stack).*1.

Lemma exits_false h stack : exits ((h, false) :: stack) = exits stack.
Proof using Type. unfold exits. by rewrite filter_cons_False. Qed.
Lemma exits_true h stack : exits ((h, true) :: stack) = h :: exits stack.
Proof using Type. unfold exits. by rewrite filter_cons_True. Qed.
Lemma exits_push deps stack : exits (((fun d => (d, false)) <$> deps) ++ stack) = exits stack.
Proof using Type. induction deps as [|d deps IH]; [done|]. by rewrite fmap_cons, <- app_comm_cons, exits_false. Qed.

Section Root.
Context (root : option bytes).

(** A frame is a view the innermost view being left waits for, or the root. *)
Definition frame_ok (x : bytes) (exits : list bytes) : Prop := match exits with p :: _ => edge p x | [] => root = Some x end.
Fixpoint frames_ok (stack : list (bytes * bool)) : Prop :=
  match stack with [] => True | f :: stack => frame_ok f.1 (exits stack) ∧ frames_ok stack end.
(** What a view being left waits for is done or above it. *)
Fixpoint owed (above : list bytes) (stack : list (bytes * bool)) : Prop :=
  match stack with
  | [] => True
  | f :: stack => (f.2 = true → ∀ d, edge f.1 d → d ∈ above) ∧ owed (f.1 :: above) stack
  end.

Lemma owed_mono above above' stack : above ⊆ above' → owed above stack → owed above' stack.
Proof using Type.
  revert above above'. induction stack as [|f stack IH]; intros above above' Hs; [done|]. intros [Hf Hr]. split.
  - intros Ht d Hd. by apply Hs, Hf.
  - eapply IH; [|exact Hr]. intros x [->|?]%elem_of_cons; [by left|by right; apply Hs].
Qed.

Lemma owed_push above deps stack :
  owed (deps ++ above) stack → owed above (((fun d => (d, false)) <$> deps) ++ stack).
Proof using Type.
  revert above. induction deps as [|d deps IH]; intros above Ho; [done|]. rewrite fmap_cons. cbn [app owed]. split; [done|].
  apply IH. eapply owed_mono; [|exact Ho]. intros x. rewrite !elem_of_app, !elem_of_cons. simpl. naive_solver.
Qed.

Lemma frames_push h deps stack :
  (∀ d, d ∈ deps → edge h d) → frames_ok ((h, true) :: stack) → frames_ok (((fun d => (d, false)) <$> deps) ++ (h, true) :: stack).
Proof using Type.
  intros He Hf. induction deps as [|d deps IH]; [done|]. rewrite fmap_cons. cbn [app frames_ok].
  split; [|apply IH; intros x Hx; apply He; by right]. rewrite exits_push, exits_true. apply He. by left.
Qed.

(** The views being left form a path, innermost last. *)
Lemma exits_path stack h p l : frames_ok stack → exits stack = p :: l → h ∈ exits stack → rtc edge h p.
Proof using Type.
  revert p l. induction stack as [|[x []] stack IH]; intros p l Hf Hp Hh; [done| |].
  - rewrite exits_true in Hp, Hh. injection Hp as -> _. apply elem_of_cons in Hh as [->|Hh]; [done|].
    destruct Hf as [Hx Hf]. simpl in Hx. destruct (exits stack) as [|q l'] eqn:Hq; [by apply not_elem_of_nil in Hh|].
    eapply rtc_r; [by eapply IH|exact Hx].
  - rewrite exits_false in Hp, Hh. eapply IH; [apply Hf|done|done].
Qed.

Record order_inv (stack : list (bytes * bool)) (order : list bytes) (active scheduled : gset bytes) : Prop := {
  oi_frames : frames_ok stack;
  oi_reached : ∀ f, f ∈ stack → reached root f.1;
  oi_active : ∀ x, x ∈ active ↔ x ∈ exits stack;
  oi_exits : NoDup (exits stack);
  oi_scheduled : ∀ x, x ∈ scheduled ↔ x ∈ order;
  oi_order : NoDup order;
  oi_disjoint : ∀ x, x ∈ exits stack → x ∉ order;
  oi_done_reached : ∀ x, x ∈ order → reached root x;
  oi_first : dependencies_first order;
  oi_owed : owed order stack;
  oi_root : ∀ r, root = Some r → r ∈ order ∨ r ∈ stack.*1;
}.

(** What the walk may answer. *)
Definition order_answer (r : result PlanError (list bytes)) : Prop :=
  match r with
  | Ok order => NoDup order ∧ (∀ h, h ∈ order ↔ reached root h) ∧ dependencies_first order
  | Err (MissingView h) => reached root h ∧ views !! h = None
  | Err (MissingEntry e) => ∃ h view, reached root h ∧ views !! h = Some view ∧ e ∈ vm_entries view ∧ citations !! e = None
  | Err (PlanInvalid _) =>
      (∃ h view, reached root h ∧ views !! h = Some view ∧ consumer ∈ vm_entries view) ∨ ∃ h, reached root h ∧ tc edge h h
  end.

Lemma edge_of view deps h d : views !! h = Some view → dependencies view = Ok deps → edge h d ↔ d ∈ deps.
Proof using Type.
  intros Hv Hd. split; [|by exists view, deps]. intros (v & l & Hv' & Hd' & Hin).
  rewrite Hv in Hv'. injection Hv' as <-. rewrite Hd in Hd'. by injection Hd' as <-.
Qed.

(** *** The steps of the walk *)

Lemma plan_inv_skip h b stack order active scheduled :
  order_inv ((h, b) :: stack) order active scheduled → h ∈ scheduled → order_inv stack order active scheduled.
Proof using Type.
  intros [Hf Hr Ha Hn Hs Ho Hd Hdr Ht Hw Hroot] Hh. apply Hs in Hh.
  assert (b = false) as ->. { destruct b; [|done]. exfalso. apply (Hd h); [rewrite exits_true; by left|done]. }
  rewrite exits_false in *. split; try done.
  - apply Hf.
  - intros f Hin. apply Hr. by right.
  - eapply owed_mono; [|apply Hw]. intros x [->|?]%elem_of_cons; done.
  - intros r Hrt. destruct (Hroot r Hrt) as [?|Hin]; [by left|]. rewrite fmap_cons in Hin.
    apply elem_of_cons in Hin as [Heq|?]; [left; rewrite Heq; exact Hh|by right].
Qed.

Lemma inv_exit h view deps stack order active scheduled :
  order_inv ((h, true) :: stack) order active scheduled → h ∉ scheduled →
  views !! h = Some view → dependencies view = Ok deps →
  order_inv stack (order ++ [h]) (active ∖ {[h]}) (scheduled ∪ {[h]}).
Proof using Type.
  intros [Hf Hr Ha Hn Hs Ho Hd Hdr Ht Hw Hroot] Hh Hv Hdep. rewrite exits_true in *.
  apply NoDup_cons in Hn as [Hnh Hn]. assert (h ∉ order) as Hho by by rewrite <- Hs. split.
  - apply Hf.
  - intros f Hin. apply Hr. by right.
  - intros x. rewrite elem_of_difference, elem_of_singleton, Ha, elem_of_cons. split; [tauto|].
    intros Hx. split; [by right|]. by intros ->.
  - done.
  - intros x. rewrite elem_of_union, elem_of_singleton, Hs, elem_of_app, list_elem_of_singleton. done.
  - apply NoDup_app. split; [done|]. split; [|by apply NoDup_singleton]. intros x Hx ->%list_elem_of_singleton. done.
  - intros x Hx. rewrite elem_of_app, list_elem_of_singleton. intros [Hxo| ->]; [|done]. by apply (Hd x); [right|].
  - intros x [Hx| ->%list_elem_of_singleton]%elem_of_app; [by apply Hdr|]. apply (Hr (h, true)). by left.
  - intros l1 x l2 Heq. destruct (app_snoc_split order h l1 x l2 Heq) as [(l2' & -> & Ho')|(-> & -> & ->)]; [by eapply Ht|].
    split; [eauto|]. by apply Hw.
  - eapply owed_mono; [|apply Hw]. intros x. rewrite elem_of_app, list_elem_of_singleton, elem_of_cons. tauto.
  - intros r Hrt. rewrite elem_of_app, list_elem_of_singleton. destruct (Hroot r Hrt) as [?|Hin]; [by left; left|].
    rewrite fmap_cons in Hin. apply elem_of_cons in Hin as [Heq|?]; [left; right; exact Heq|by right].
Qed.

Lemma inv_enter h view deps stack order active scheduled :
  order_inv ((h, false) :: stack) order active scheduled → h ∉ scheduled → h ∉ active →
  views !! h = Some view → dependencies view = Ok deps →
  order_inv (((fun d => (d, false)) <$> filter (fun d => d ∉ scheduled) deps) ++ (h, true) :: stack) order (active ∪ {[h]}) scheduled.
Proof using Type.
  intros [Hf Hr Ha Hn Hs Ho Hd Hdr Ht Hw Hroot] Hh Hact Hv Hdep. rewrite exits_false in *.
  assert (exits (((fun d => (d, false)) <$> filter (fun d => d ∉ scheduled) deps) ++ (h, true) :: stack) = h :: exits stack) as Hex
    by by rewrite exits_push, exits_true.
  assert (reached root h) as Hrh by by apply (Hr (h, false)); left.
  split; rewrite ?Hex; try done.
  - apply frames_push; [|exact Hf]. intros d [_ Hin]%list_elem_of_filter. by apply (edge_of view deps).
  - intros f [Hin|[->|Hin]%elem_of_cons]%elem_of_app; [|done|apply Hr; by right].
    apply list_elem_of_fmap in Hin as (d & -> & [_ Hin]%list_elem_of_filter). destruct Hrh as (r & Hrt & Hp). exists r. split; [done|].
    eapply rtc_r; [exact Hp|]. by apply (edge_of view deps).
  - intros x. rewrite elem_of_union, elem_of_singleton, Ha, elem_of_cons. tauto.
  - apply NoDup_cons. split; [by rewrite <- Ha|done].
  - intros x [->|Hx]%elem_of_cons; [by rewrite <- Hs|by apply Hd].
  - apply owed_push. cbn [owed]. split.
    + intros _ d Hed. simpl in Hed. rewrite elem_of_app. apply (edge_of view deps) in Hed; [|done|done].
      destruct (decide (d ∈ scheduled)) as [Hds|Hds]; [right; by apply Hs|left; by apply list_elem_of_filter].
    + eapply owed_mono; [|apply Hw]. intros x. rewrite !elem_of_cons, elem_of_app. simpl. tauto.
  - intros r Hrt. destruct (Hroot r Hrt) as [?|Hin]; [by left|right]. rewrite fmap_app, fmap_cons in *.
    rewrite elem_of_app. by right.
Qed.

Lemma cycle_found h stack order active scheduled :
  order_inv ((h, false) :: stack) order active scheduled → h ∈ active → tc edge h h.
Proof using Type.
  intros [Hf _ Ha _ _ _ _ _ _ _ _] Hh. apply Ha in Hh. rewrite exits_false in Hh. destruct Hf as [Hx Hf]. simpl in Hx.
  destruct (exits stack) as [|p l] eqn:Hp; [by apply not_elem_of_nil in Hh|].
  eapply tc_rtc_l; [by eapply exits_path; [exact Hf|exact Hp|rewrite Hp]|by apply tc_once].
Qed.

Lemma inv_done order active scheduled : order_inv [] order active scheduled → order_answer (Ok order).
Proof using Type.
  intros [Hf Hr Ha Hn Hs Ho Hd Hdr Ht Hw Hroot]. split_and!; [done| |done].
  intros h. split; [apply Hdr|]. intros (r & Hrt & Hp). destruct (Hroot r Hrt) as [Hin|Hin]; [|by apply not_elem_of_nil in Hin].
  clear Hrt Hroot. induction Hp as [|x y z Hxy _ IH]; [done|]. apply IH.
  apply list_elem_of_split in Hin as (l1 & l2 & ->). destruct (Ht l1 x l2 eq_refl) as [_ Hdeps].
  apply elem_of_app. left. by apply Hdeps.
Qed.

(** *** The walk ends *)

(** What the views that were not entered may still push. *)
Definition row_weight (entered : gset bytes) (v : bytes * ViewManifest) : nat :=
  if bool_decide (v.1 ∈ entered) then 0 else S (length (vm_entries v.2)).
Definition weight (entered : gset bytes) : nat := sum_list (row_weight entered <$> map_to_list views).

Lemma weight_enter h view entered :
  views !! h = Some view → h ∉ entered → (weight (entered ∪ {[h]}) + S (length (vm_entries view)) = weight entered)%nat.
Proof using Type.
  intros Hv Hh. unfold weight. apply elem_of_map_to_list in Hv. pose proof (NoDup_fst_map_to_list views) as Hn.
  revert Hv Hn. generalize (map_to_list views). induction l as [|[x v] l IH]; intros Hv Hn; [by apply not_elem_of_nil in Hv|].
  rewrite !fmap_cons in *. apply NoDup_cons in Hn as [Hx Hn]. cbn [sum_list sum_list_with foldr]. simpl in Hx.
  apply elem_of_cons in Hv as [Heq|Hv].
  - injection Heq as <- <-. unfold row_weight at 1 3. simpl. rewrite bool_decide_true, (bool_decide_false (h ∈ entered)) by set_solver.
    assert (row_weight (entered ∪ {[h]}) <$> l = row_weight entered <$> l) as ->; [|lia].
    apply list_fmap_ext. intros i [y w] Hy. unfold row_weight. simpl. apply list_elem_of_lookup_2 in Hy.
    assert (y ≠ h) by (intros ->; apply Hx; by apply (list_elem_of_fmap_2 fst l (h, w))).
    rewrite (bool_decide_ext (y ∈ entered ∪ {[h]}) (y ∈ entered)); [done|set_solver].
  - specialize (IH Hv Hn). assert (x ≠ h) by (intros ->; apply Hx; by apply (list_elem_of_fmap_2 fst l (h, view))).
    unfold row_weight at 1 3. simpl. rewrite (bool_decide_ext (x ∈ entered ∪ {[h]}) (x ∈ entered)) by set_solver. lia.
Qed.

Lemma weight_ext entered entered' : entered ≡ entered' → weight entered = weight entered'.
Proof using Type. intros Heq. by apply leibniz_equiv in Heq as ->. Qed.

Lemma order_loop_answer fuel stack order active scheduled :
  order_inv stack order active scheduled → (length stack + weight (active ∪ scheduled) < fuel)%nat →
  ∃ r, order_loop consumer views citations fuel stack order active scheduled = Some r ∧ order_answer r.
Proof using Type.
  revert stack order active scheduled. induction fuel as [|fuel IH]; intros stack order active scheduled Hi Hw; [lia|].
  cbn [order_loop]. destruct stack as [|[h b] stack]; [exists (Ok order); split; [done|by eapply inv_done]|].
  simpl in Hw. case_bool_decide as Hh; [apply IH; [by eapply plan_inv_skip|lia]|].
  assert (reached root h) as Hr by by apply (oi_reached _ _ _ _ Hi (h, b)); left.
  destruct (views !! h) as [view|] eqn:Hv; [|by eexists]. simpl.
  pose proof (view_dependencies_spec view) as Hs. destruct (dependencies view) as [deps|e] eqn:Hd.
  2:{ eexists. split; [done|]. destruct e as [|e|e]; [done|destruct Hs; exists h, view; by split_and!|left; by exists h, view]. }
  destruct Hs as (_ & _ & Hlen). destruct b.
  - apply IH; [by eapply inv_exit|]. rewrite (weight_ext _ (active ∪ scheduled)); [lia|].
    assert (h ∈ active) by (apply (oi_active _ _ _ _ Hi); rewrite exits_true; by left). intros x. destruct (decide (x = h)); set_solver.
  - case_bool_decide as Ha; [eexists; split; [done|]; right; exists h; split; [done|by eapply cycle_found]|].
    apply IH; [by eapply inv_enter|]. rewrite length_app, length_fmap. cbn [length].
    assert (length (filter (λ d, d ∉ scheduled) deps) ≤ length deps)%nat by apply length_filter.
    pose proof (weight_enter h view (active ∪ scheduled) Hv) as Hwt.
    rewrite (weight_ext (active ∪ {[h]} ∪ scheduled) (active ∪ scheduled ∪ {[h]})) by set_solver.
    rewrite <- Hwt in Hw by set_solver. lia.
Qed.

End Root.

Lemma inv_start (root : option bytes) : order_inv root (match root with Some h => [(h, false)] | None => [] end) [] ∅ ∅.
Proof using Type.
  assert (exits (match root with Some h => [(h, false)] | None => [] end) = []) as Hex by by destruct root.
  split; rewrite ?Hex.
  - by destruct root.
  - intros f Hf. destruct root as [r|]; [|by apply not_elem_of_nil in Hf]. apply list_elem_of_singleton in Hf as ->. by exists r.
  - intros x. split; intros Hx; [by apply not_elem_of_empty in Hx|by apply not_elem_of_nil in Hx].
  - apply NoDup_nil_2.
  - intros x. split; intros Hx; [by apply not_elem_of_empty in Hx|by apply not_elem_of_nil in Hx].
  - apply NoDup_nil_2.
  - intros x _. apply not_elem_of_nil.
  - intros x Hx. by apply not_elem_of_nil in Hx.
  - intros l1 h l2 Heq. by destruct l1.
  - by destruct root.
  - intros r ->. right. by left.
Qed.

(** A view of a dependencies-first order never needs itself. *)
Lemma first_acyclic order h : NoDup order → dependencies_first order → h ∈ order → ¬ tc edge h h.
Proof using Type.
  intros Hn Hf Hh Hc.
  assert (∀ x y, tc edge x y → ∀ l1 l2, order = l1 ++ x :: l2 → y ∈ l1) as Hbefore.
  { intros x y Hxy. induction Hxy as [x y Hxy|x y z Hxy _ IH]; intros l1 l2 Heq; [by apply (Hf l1 x l2 Heq)|].
    destruct (Hf l1 x l2 Heq) as [_ Hd]. apply Hd, list_elem_of_split in Hxy as (k1 & k2 & ->).
    apply elem_of_app. left. eapply (IH k1 (k2 ++ x :: l2)). by rewrite Heq, <- app_assoc. }
  apply list_elem_of_split in Hh as (l1 & l2 & Heq). specialize (Hbefore h h Hc l1 l2 Heq). subst.
  apply NoDup_app in Hn as (_ & Hn & _). by apply (Hn h Hbefore); left.
Qed.

Lemma order_views_answer (root : option bytes) :
  ∃ r, order_views consumer views citations root = Some r ∧ order_answer root r.
Proof using Type.
  apply order_loop_answer; [apply inv_start|]. unfold order_fuel.
  assert (weight (∅ ∪ ∅) = sum_list ((λ v, S (length (vm_entries v.2))) <$> map_to_list views)) as ->.
  { unfold weight. apply (f_equal sum_list). apply list_fmap_ext. intros i v _. unfold row_weight.
    by rewrite bool_decide_false by set_solver. }
  destruct root; simpl; lia.
Qed.
End Schedule.

(** The views have an order exactly when the bundle is complete: no needed view or entry is missing,
    none lists the revocation, none needs itself. *)
Lemma order_views_succeeds_iff (consumer : AccountEntryHash) (views : gmap bytes ViewManifest)
    (citations : gmap AccountEntryHash (option bytes)) (root : option bytes) :
  (∃ order, order_views consumer views citations root = Some (Ok order)) ↔
  ∀ h, reached consumer views citations root h →
    (∃ view, views !! h = Some view ∧ ∀ e, e ∈ vm_entries view → e ≠ consumer ∧ is_Some (citations !! e)) ∧
    ¬ tc (edge consumer views citations) h h.
Proof.
  destruct (order_views_answer consumer views citations root) as (r & Hr & Ha). split.
  - intros [order Ho]. rewrite Hr in Ho. injection Ho as ->. destruct Ha as (Hn & Hin & Hf). intros h Hh.
    split; [|by eapply first_acyclic; [exact Hn|exact Hf|by apply Hin]]. apply Hin, list_elem_of_split in Hh as (l1 & l2 & ->).
    destruct (Hf l1 h l2 eq_refl) as [(view & deps & Hv & Hd) _]. exists view. split; [done|].
    pose proof (view_dependencies_spec consumer citations view) as Hs. rewrite Hd in Hs. apply Hs.
  - intros Hall. destruct r as [order|[h|e|err]]; [by exists order| | |].
    + destruct Ha as [Hh Hn]. destruct (Hall h Hh) as [(view & Hv & _) _]. by rewrite Hn in Hv.
    + destruct Ha as (h & view & Hh & Hv & He & Hn). destruct (Hall h Hh) as [(view' & Hv' & Hes) _].
      rewrite Hv in Hv'. injection Hv' as <-. destruct (Hes e He) as [_ [? Hc]]. by rewrite Hn in Hc.
    + destruct Ha as [(h & view & Hh & Hv & He)|(h & Hh & Hc)].
      * destruct (Hall h Hh) as [(view' & Hv' & Hes) _]. rewrite Hv in Hv'. injection Hv' as <-. by destruct (Hes consumer He).
      * by destruct (Hall h Hh) as [_ Hn].
Qed.

(** ** Plans *)

Section Plans.
Context `{MinicborLaws} `{Sha256} `{Ed25519}.

Lemma plan_require_bind {A} b m (k : result PlanError A) a : (_ ← plan_require b m; k) = Ok a ↔ b = true ∧ k = Ok a.
Proof using Type. destruct b; simpl; naive_solver. Qed.
Lemma plan_any_bind {A B} (m : result AnyError A) (k : A → result PlanError B) b :
  (a ← plan_any m; k a) = Ok b ↔ ∃ a, m = Ok a ∧ k a = Ok b.
Proof using Type. destruct m; simpl; naive_solver. Qed.

(** Two steps of a loop commute when they both succeed. *)
Lemma fold_result_perm {E S A} (f : S → A → result E S) l l' s r :
  (∀ s x y s1 s2, f s x = Ok s1 → f s1 y = Ok s2 → ∃ s1', f s y = Ok s1' ∧ f s1' x = Ok s2) →
  l ≡ₚ l' → fold_result f l s = Ok r → fold_result f l' s = Ok r.
Proof using Type.
  intros Hswap Hl. revert s. induction Hl as [|x l l' _ IH|x y l|l l' l'' _ IH _ IH']; intros s; [done| | |].
  - cbn [fold_result]. intros (s1 & Hx & Hr)%result_bind_Ok. rewrite Hx. simpl. by apply IH.
  - cbn [fold_result]. intros (s1 & Hy & Hr)%result_bind_Ok. apply result_bind_Ok in Hr as (s2 & Hx & Hr).
    destruct (Hswap _ _ _ _ _ Hy Hx) as (s1' & Hx' & Hy'). rewrite Hx'. simpl. by rewrite Hy'.
  - intros Hr. by apply IH', IH.
Qed.

Lemma plan_manifest_Ok pin views refs bs s :
  plan_manifest pin (views, refs) bs = Ok s ↔
  ∃ view, decode_manifest bs = Ok view ∧ vm_checkpoint view = cp_checkpoint_digest pin ∧
    refs + len (vm_entries view) ≤ MAX_REFERENCES ∧ views !! sha256 bs = None ∧
    s = (<[sha256 bs := view]> views, refs + len (vm_entries view)).
Proof using Type.
  unfold plan_manifest. rewrite plan_any_bind. setoid_rewrite plan_require_bind. setoid_rewrite plan_require_bind.
  setoid_rewrite plan_require_bind. setoid_rewrite bool_decide_eq_true. naive_solver.
Qed.

Lemma plan_candidate_Ok pin consumer candidates citations bs s :
  plan_candidate pin consumer (candidates, citations) bs = Ok s ↔
  ∃ entry op, decode_candidate pin bs = Ok (entry, op) ∧ sa_entry_hash entry ≠ sa_entry_hash consumer ∧
    candidates !! sa_entry_hash entry = None ∧
    s = (<[sa_entry_hash entry := entry]> candidates, <[sa_entry_hash entry := cv_pre_cut_view op]> citations).
Proof using Type.
  unfold plan_candidate. rewrite plan_any_bind. split.
  - intros ([entry op] & Hd & Hr). rewrite !plan_require_bind, !bool_decide_eq_true in Hr. exists entry, op. naive_solver.
  - intros (entry & op & Hd & Hne & Hn & ->). exists (entry, op). split; [done|].
    by rewrite !plan_require_bind, !bool_decide_eq_true.
Qed.

Lemma plan_manifest_swap pin s x y s1 s2 :
  plan_manifest pin s x = Ok s1 → plan_manifest pin s1 y = Ok s2 →
  ∃ s1', plan_manifest pin s y = Ok s1' ∧ plan_manifest pin s1' x = Ok s2.
Proof using Type.
  destruct s as [views refs]. intros (v & Hv & Hc & Hr & Hn & ->)%plan_manifest_Ok (w & Hw & Hc' & Hr' & Hn' & ->)%plan_manifest_Ok.
  apply lookup_insert_None in Hn' as [Hn' Hne]. pose proof (len_nonneg (vm_entries v)).
  eexists. split; [apply plan_manifest_Ok; exists w; split_and!; [done|done|lia|done|done]|].
  apply plan_manifest_Ok. exists v. split_and!; [done|done|lia|by apply lookup_insert_None|].
  f_equal; [by apply insert_insert_ne|lia].
Qed.

Lemma plan_candidate_swap pin consumer s x y s1 s2 :
  plan_candidate pin consumer s x = Ok s1 → plan_candidate pin consumer s1 y = Ok s2 →
  ∃ s1', plan_candidate pin consumer s y = Ok s1' ∧ plan_candidate pin consumer s1' x = Ok s2.
Proof using Type.
  destruct s as [candidates citations].
  intros (e & op & Hd & Hne & Hn & ->)%plan_candidate_Ok (e' & op' & Hd' & Hne' & Hn' & ->)%plan_candidate_Ok.
  apply lookup_insert_None in Hn' as [Hn' Hneq].
  eexists. split; [apply plan_candidate_Ok; by exists e', op'|]. apply plan_candidate_Ok. exists e, op.
  split_and!; [done|done|by apply lookup_insert_None|]. f_equal; by apply insert_insert_ne.
Qed.

(** What the two loops collect. *)
Lemma plan_manifests_Ok pin l views refs views' refs' :
  fold_result (plan_manifest pin) l (views, refs) = Ok (views', refs') →
  (∀ bs, bs ∈ l → ∃ view, decode_manifest bs = Ok view ∧ vm_checkpoint view = cp_checkpoint_digest pin) ∧
  ∀ d view, views' !! d = Some view ↔ views !! d = Some view ∨ ∃ bs, bs ∈ l ∧ sha256 bs = d ∧ decode_manifest bs = Ok view.
Proof using Type.
  revert views refs. induction l as [|b l IH]; intros views refs Hr.
  { injection Hr as <- <-. split; [intros bs Hb; by apply not_elem_of_nil in Hb|]. intros d view. split; [by left|].
    intros [?|(bs & Hb & _)]; [done|by apply not_elem_of_nil in Hb]. }
  cbn [fold_result] in Hr. apply result_bind_Ok in Hr as (s & (v & Hv & Hc & _ & Hn & ->)%plan_manifest_Ok & Hr).
  apply IH in Hr as [Hall Hin]. split.
  - intros bs [->|Hb]%elem_of_cons; [by exists v|by apply Hall].
  - intros d view. rewrite Hin, lookup_insert_Some. setoid_rewrite elem_of_cons. split.
    + intros [[[<- <-]|[_ ?]]|(bs & ? & ?)]; [right; by exists b; split_and!; [left|..]|by left|right; exists bs; split; [by right|done]].
    + intros [Hd|(bs & [->|Hb] & <- & Hd)]; [|left; left; by split; [|congruence]|right; by exists bs].
      left. right. split; [|done]. intros <-. congruence.
Qed.

Lemma plan_candidates_Ok pin consumer l cands cits cands' cits' :
  fold_result (plan_candidate pin consumer) l (cands, cits) = Ok (cands', cits') → dom cands = dom cits →
  dom cands' = dom cits' ∧
  (∀ h e, cands' !! h = Some e ↔ cands !! h = Some e ∨ ∃ bs op, bs ∈ l ∧ decode_candidate pin bs = Ok (e, op) ∧ sa_entry_hash e = h) ∧
  (∀ h v, cits' !! h = Some v ↔ cits !! h = Some v ∨
     ∃ bs e op, bs ∈ l ∧ decode_candidate pin bs = Ok (e, op) ∧ sa_entry_hash e = h ∧ cv_pre_cut_view op = v) ∧
  ∀ bs, bs ∈ l → ∃ e op, decode_candidate pin bs = Ok (e, op) ∧ sa_entry_hash e ≠ sa_entry_hash consumer.
Proof using Type.
  revert cands cits. induction l as [|b l IH]; intros cands cits Hr Hdom.
  { injection Hr as <- <-. split; [done|]. split; [|split].
    - intros h e. split; [by left|]. intros [?|(bs & op & Hb & _)]; [done|by apply not_elem_of_nil in Hb].
    - intros h v. split; [by left|]. intros [?|(bs & e & op & Hb & _)]; [done|by apply not_elem_of_nil in Hb].
    - intros bs Hb. by apply not_elem_of_nil in Hb. }
  cbn [fold_result] in Hr. apply result_bind_Ok in Hr as (s & (e0 & op0 & Hd0 & Hne & Hn & ->)%plan_candidate_Ok & Hr).
  assert (cits !! sa_entry_hash e0 = None) as Hnc by by rewrite <- not_elem_of_dom, <- Hdom, not_elem_of_dom.
  apply IH in Hr as (Hdom' & Hc & Hi & Hall); [|by rewrite !dom_insert_L, Hdom]. split; [done|]. split; [|split].
  - intros h e. rewrite Hc, lookup_insert_Some. setoid_rewrite elem_of_cons. split.
    + intros [[[<- <-]|[_ ?]]|(bs & op & ? & ? & ?)]; [right; by exists b, op0; split_and!; [left|..]|by left|right; exists bs, op; split_and!; [by right|done|done]].
    + intros [Hd|(bs & op & [->|Hb] & Hd & <-)]; [|left; left; rewrite Hd0 in Hd; by injection Hd as -> _|right; by exists bs, op].
      left. right. split; [|done]. intros <-. congruence.
  - intros h v. rewrite Hi, lookup_insert_Some. setoid_rewrite elem_of_cons. split.
    + intros [[[<- <-]|[_ ?]]|(bs & e & op & ? & ? & ? & ?)]; [right; by exists b, e0, op0; split_and!; [left|..]|by left|right; exists bs, e, op; split_and!; [by right|done|done|done]].
    + intros [Hd|(bs & e & op & [->|Hb] & Hd & <- & <-)]; [|left; left; rewrite Hd0 in Hd; by injection Hd as -> ->|right; by exists bs, e, op].
      left. right. split; [|done]. intros <-. congruence.
  - intros bs [->|Hb]%elem_of_cons; [by exists e0, op0|by apply Hall].
Qed.

Definition total_len (l : list bytes) : Z := foldr (fun b n => len b + n) 0 l.

Lemma total_len_nonneg l : 0 ≤ total_len l.
Proof using Type. induction l as [|b l IH]; simpl; [lia|]. pose proof (len_nonneg b). lia. Qed.
Lemma total_len_perm l l' : l ≡ₚ l' → total_len l = total_len l'.
Proof using Type. induction 1; simpl; lia. Qed.

(** The byte budget is on the sum of the lengths. *)
Lemma checked_sum_budget n l :
  0 ≤ n → match checked_sum n l with Some t => bool_decide (t ≤ MAX_BYTES) | None => false end =
    bool_decide (n + total_len l ≤ MAX_BYTES).
Proof using Type.
  revert n. induction l as [|b l IH]; intros n Hn; [apply bool_decide_ext; change (total_len []) with 0; lia|].
  change (total_len (b :: l)) with (len b + total_len l). cbn [checked_sum]. unfold u64_checked_add.
  pose proof (len_nonneg b). case_bool_decide as Hu; cbn [mbind option_bind].
  - rewrite IH by lia. apply bool_decide_ext. lia.
  - symmetry. apply bool_decide_false. pose proof (total_len_nonneg l). unfold u64_max, MAX_BYTES in *. lia.
Qed.

(** A resolved bundle. *)
Lemma plan_replay_Ok pin bs manifests evidence plan :
  plan_replay pin bs manifests evidence = Some (Ok plan) ↔
  ∃ cits refs, len manifests ≤ MAX_VIEWS ∧ len evidence ≤ MAX_ENTRIES ∧
    len bs + total_len (manifests ++ evidence) ≤ MAX_BYTES ∧
    decode_candidate pin bs = Ok (rp_consumer plan, rp_consumer_op plan) ∧
    fold_result (plan_manifest pin) manifests (∅, 0) = Ok (rp_manifests plan, refs) ∧
    fold_result (plan_candidate pin (rp_consumer plan)) evidence (∅, ∅) = Ok (rp_candidates plan, cits) ∧
    order_views (sa_entry_hash (rp_consumer plan)) (rp_manifests plan) cits (cv_pre_cut_view (rp_consumer_op plan)) = Some (Ok (rp_order plan)).
Proof using Type.
  unfold plan_replay. match goal with |- context [match ?m with Ok _ => _ | Err _ => _ end = _] => set (front := m) end.
  assert (∀ x, front = Ok x ↔ let '(c, cop, vs, cs, cits) := x in
    len manifests ≤ MAX_VIEWS ∧ len evidence ≤ MAX_ENTRIES ∧ len bs + total_len (manifests ++ evidence) ≤ MAX_BYTES ∧
    decode_candidate pin bs = Ok (c, cop) ∧ (∃ refs, fold_result (plan_manifest pin) manifests (∅, 0) = Ok (vs, refs)) ∧
    fold_result (plan_candidate pin c) evidence (∅, ∅) = Ok (cs, cits)) as Hfront.
  { intros [[[[c cop] vs] cs] cits]. unfold front. rewrite !plan_require_bind, checked_sum_budget, !bool_decide_eq_true by apply len_nonneg.
    rewrite plan_any_bind. split.
    - intros (? & ? & ? & [c' cop'] & Hd & ([vs' refs] & Hm & ([cs' cits'] & Hc & [= <- <- <- <- <-])%result_bind_Ok)%result_bind_Ok).
      split_and!; try done. by exists refs.
    - intros (? & ? & ? & Hd & [refs Hm] & Hc). split_and!; [done..|]. exists (c, cop). split; [done|]. by rewrite Hm; simpl; rewrite Hc. }
  split.
  - destruct front as [[[[[c cop] vs] cs] cits]|e]; [|done]. intros Hr. destruct (proj1 (Hfront _) eq_refl) as (? & ? & ? & Hd & [refs Hm] & Hc).
    destruct (order_views _ _ _ _) as [[order|]|] eqn:Ho; [|done|done]. injection Hr as <-. exists cits, refs. by split_and!.
  - intros (cits & refs & ? & ? & ? & Hd & Hm & Hc & Ho).
    rewrite (proj2 (Hfront (rp_consumer plan, rp_consumer_op plan, rp_manifests plan, rp_candidates plan, cits))) by (split_and!; eauto).
    rewrite Ho. by destruct plan.
Qed.
End Plans.

Lemma plan_replay_total `{Minicbor} `{Sha256} `{Ed25519} pin bs manifests evidence :
  is_Some (plan_replay pin bs manifests evidence).
Proof.
  unfold plan_replay. match goal with |- context [match ?m with Ok _ => _ | Err _ => _ end] => destruct m as [[[[[c cop] vs] cs] cits]|e] end; [|done].
  destruct (order_views_answer (sa_entry_hash c) vs cits (cv_pre_cut_view cop)) as (r & -> & _). done.
Qed.

(** C21.  A replay plan never runs out of fuel, and what it returns is exactly the supplied bundle, bound to
    the pinned checkpoint: every manifest and candidate the caller gave and nothing else, ordered so
    that each view the revocation needs comes once, after every view its entries name, and complete;
    the revocation is not among its own evidence; and indexing the plan never panics. *)
Theorem plan_replay_sound `{MinicborLaws} `{Sha256} `{Ed25519} pin bs manifests evidence :
  ∃ r, plan_replay pin bs manifests evidence = Some r ∧ ∀ plan, r = Ok plan →
    decode_candidate pin bs = Ok (rp_consumer plan, rp_consumer_op plan) ∧
    (∀ d view, rp_manifests plan !! d = Some view ↔ ∃ m, m ∈ manifests ∧ sha256 m = d ∧ decode_manifest m = Ok view) ∧
    (∀ h e, rp_candidates plan !! h = Some e ↔ ∃ m op, m ∈ evidence ∧ decode_candidate pin m = Ok (e, op) ∧ sa_entry_hash e = h) ∧
    (∀ d view, rp_manifests plan !! d = Some view → vm_checkpoint view = cp_checkpoint_digest pin) ∧
    rp_candidates plan !! sa_entry_hash (rp_consumer plan) = None ∧
    NoDup (rp_order plan) ∧
    (∀ l1 d l2, rp_order plan = l1 ++ d :: l2 → ∃ view, rp_manifests plan !! d = Some view ∧ ∀ h, h ∈ vm_entries view →
       ∃ e m op, rp_candidates plan !! h = Some e ∧ m ∈ evidence ∧ decode_candidate pin m = Ok (e, op) ∧
         ∀ d', cv_pre_cut_view op = Some d' → d' ∈ l1) ∧
    (∀ d, cv_pre_cut_view (rp_consumer_op plan) = Some d → d ∈ rp_order plan) ∧
    is_Some (plan_views plan) ∧ is_Some (plan_root plan).
Proof.
  destruct (plan_replay_total pin bs manifests evidence) as [r Hr]. exists r. split; [done|]. intros plan ->.
  apply plan_replay_Ok in Hr as (cits & refs & _ & _ & _ & Hd & Hm & He & Ho).
  destruct (plan_manifests_Ok _ _ _ _ _ _ Hm) as [Hpin Hman].
  destruct (plan_candidates_Ok _ _ _ _ _ _ _ He) as (_ & Hcand & Hcit & Hne); [by rewrite !dom_empty_L|].
  setoid_rewrite lookup_empty in Hman. setoid_rewrite lookup_empty in Hcand. setoid_rewrite lookup_empty in Hcit.
  destruct (order_views_answer (sa_entry_hash (rp_consumer plan)) (rp_manifests plan) cits (cv_pre_cut_view (rp_consumer_op plan)))
    as (r & Hr & Ha). rewrite Ho in Hr. injection Hr as <-. destruct Ha as (Hnd & Hin & Hfirst).
  assert (∀ d, cv_pre_cut_view (rp_consumer_op plan) = Some d → d ∈ rp_order plan) as Hroot by (intros d Hv; apply Hin; by exists d).
  assert (∀ d, d ∈ rp_order plan → is_Some (rp_manifests plan !! d)) as Hsome.
  { intros d Hdo. apply list_elem_of_split in Hdo as (l1 & l2 & Heq). destruct (Hfirst l1 d l2 Heq) as [(v & _ & Hv & _) _]. by exists v. }
  split_and!; try done.
  - intros d view. rewrite Hman. naive_solver.
  - intros h e. rewrite Hcand. naive_solver.
  - intros d view Hv. apply Hman in Hv as [?|(m & Hmm & _ & Hv)]; [done|]. destruct (Hpin m Hmm) as (v & Hv' & Hc). congruence.
  - destruct (rp_candidates plan !! _) as [e|] eqn:Hc; [|done]. apply Hcand in Hc as [?|(m & op & Hmm & Hdm & Heq)]; [done|].
    destruct (Hne m Hmm) as (e' & op' & Hd' & Hn). congruence.
  - intros l1 d l2 Heq. destruct (Hfirst l1 d l2 Heq) as [(view & deps & Hv & Hdeps) Hl1]. exists view. split; [done|].
    pose proof (view_dependencies_spec (sa_entry_hash (rp_consumer plan)) cits view) as Hs. rewrite Hdeps in Hs.
    destruct Hs as (Hall & Hdin & _). intros h Hh. destruct (Hall h Hh) as [_ [o Hcith]]. pose proof Hcith as Hcith'.
    apply Hcit in Hcith' as [?|(m & e & op & Hmm & Hdm & <- & <-)]; [done|]. exists e, m, op. split_and!; [|done|done|].
    + apply Hcand. right. by exists m, op.
    + intros d' Hd'. apply Hl1. exists view, deps. split_and!; [done|done|]. apply Hdin. rewrite <- Hd'. eauto.
  - apply mapM_is_Some, Forall_forall. intros d Hdo. destruct (Hsome d Hdo) as [v Hv]. apply fmap_is_Some. by exists v.
  - unfold plan_root. destruct (cv_pre_cut_view _) as [d|] eqn:Hv; [|done]. destruct (Hsome d (Hroot d eq_refl)) as [v Hvv]. rewrite Hvv. by eexists.
Qed.

(** C22.  The order in which a bundle lists its objects is immaterial. *)
Theorem plan_replay_order_independent `{MinicborLaws} `{Sha256} `{Ed25519} pin bs manifests manifests' evidence evidence' plan :
  manifests ≡ₚ manifests' → evidence ≡ₚ evidence' →
  plan_replay pin bs manifests evidence = Some (Ok plan) → plan_replay pin bs manifests' evidence' = Some (Ok plan).
Proof.
  intros Hm He (cits & refs & Hlm & Hle & Hb & Hd & Hfm & Hfe & Ho)%plan_replay_Ok. apply plan_replay_Ok.
  exists cits, refs. split_and!; [unfold len; by rewrite <- Hm|unfold len; by rewrite <- He| |done| | |done].
  - rewrite <- (total_len_perm (manifests ++ evidence)); [done|by rewrite Hm, He].
  - eapply fold_result_perm; [|exact Hm|exact Hfm]. apply plan_manifest_swap.
  - eapply fold_result_perm; [|exact He|exact Hfe]. apply plan_candidate_swap.
Qed.

(** ** Witnesses

    A removal whose view lists a grant and an earlier removal, itself taken under the view of the
    grant alone. *)

Definition wit_pin : TrustedCheckpointPin := mkTrustedCheckpointPin (replicate 32 x11) (replicate 32 x5c) 2.
Definition v2_header (seq : Z) (prev : option AccountEntryHash) (op : AccountOp) : AccountEntryHeader :=
  mkAccountEntryHeader (cp_account_id wit_pin) 0 (replicate 32 x00) seq prev None (entry_type_of op) 2 0 0 None (Some (replicate 32 x22)).
Definition v2_payload (view : option bytes) (op : AccountOp) : bytes :=
  match control_encode (mkControlOp (cp_checkpoint_digest wit_pin) view op) with Ok bs => bs | Err _ => [] end.
Definition v2_entry (seq : Z) (prev : option AccountEntryHash) (view : option bytes) (op : AccountOp) : SignedAccountEntry :=
  match sign_account_entry wit_secret (v2_header seq prev op) (v2_payload view op) with Ok s => s | Err _ => wit_account_entry end.
Definition view_bytes (entries : list AccountEntryHash) : bytes :=
  match manifest_encode (mkViewManifest (cp_checkpoint_digest wit_pin) entries) with Ok bs => bs | Err _ => [] end.

Definition wit_grant : SignedAccountEntry :=
  v2_entry 0 None None (StreamGrant (replicate 32 x44) (replicate 32 x45) Writer).
Definition wit_inner_view : bytes := view_bytes [sa_entry_hash wit_grant].
Definition wit_inner : SignedAccountEntry :=
  v2_entry 1 (Some (sa_entry_hash wit_grant)) (Some (sha256 wit_inner_view))
    (DeviceRemove (replicate 32 xbb) CutEmpty CutEmpty [] (lit "lost")).
Definition wit_outer_view : bytes := view_bytes [sa_entry_hash wit_grant; sa_entry_hash wit_inner].
Definition wit_removal : SignedAccountEntry :=
  v2_entry 2 (Some (sa_entry_hash wit_inner)) (Some (sha256 wit_outer_view))
    (DeviceRemove (replicate 32 xcc) CutEmpty CutEmpty [] (lit "sold")).
Definition wit_plan (manifests evidence : list bytes) : option (result PlanError ReplayPlan) :=
  plan_replay wit_pin (sa_signed_bytes wit_removal) manifests evidence.
Definition the_plan : ReplayPlan :=
  match wit_plan [wit_inner_view; wit_outer_view] [sa_signed_bytes wit_grant; sa_signed_bytes wit_inner] with
  | Some (Ok plan) => plan
  | _ => mkReplayPlan [] ∅ ∅ wit_removal (mkControlOp [] None (OwnerPromote []))
  end.

Lemma wit_plan_is : wit_plan [wit_inner_view; wit_outer_view] [sa_signed_bytes wit_grant; sa_signed_bytes wit_inner] = Some (Ok the_plan).
Proof. vm_compute. reflexivity. Qed.

Lemma wit_plan_order : rp_order the_plan = [sha256 wit_inner_view; sha256 wit_outer_view].
Proof. vm_compute. reflexivity. Qed.

Lemma plan_replay_sound_witness : rp_candidates the_plan !! sa_entry_hash wit_removal = None ∧ NoDup (rp_order the_plan).
Proof.
  destruct (plan_replay_sound wit_pin (sa_signed_bytes wit_removal) [wit_inner_view; wit_outer_view]
    [sa_signed_bytes wit_grant; sa_signed_bytes wit_inner]) as (r & Hr & Hs).
  assert (r = Ok the_plan) as -> by (pose proof wit_plan_is as Hp; unfold wit_plan in Hp; rewrite Hr in Hp; by injection Hp).
  destruct (Hs the_plan eq_refl) as (Hd & _ & _ & _ & Hc & Hn & _). split; [|exact Hn].
  assert (rp_consumer the_plan = wit_removal) as Heq by (vm_compute; reflexivity). by rewrite Heq in Hc.
Defined.

Lemma plan_replay_order_independent_witness :
  wit_plan [wit_outer_view; wit_inner_view] [sa_signed_bytes wit_inner; sa_signed_bytes wit_grant] = Some (Ok the_plan).
Proof.
  apply (plan_replay_order_independent wit_pin _ [wit_inner_view; wit_outer_view] _ [sa_signed_bytes wit_grant; sa_signed_bytes wit_inner]);
    [apply Permutation_swap|apply Permutation_swap|exact wit_plan_is].
Defined.
