(* ===== verification/Keywrap.v ===== *)
(** * Content keys and their wraps ([account/keywrap.rs])

    The content-key id, the context a wrap is bound to, the wire form of a sealed key, and sealing
    and opening.  X25519, HKDF-SHA256 and XChaCha20-Poly1305 are dependencies: the classes
    [X25519], [Hkdf] and [Aead] have the calls of the source with their documented behaviour (RFC
    7748: agreement commutes and ignores bit 255; RFC 5869: output lengths; opening inverts
    sealing).  A key minted from operating-system entropy is an argument. *)

From S2P Require Import Prelude Cbor Minicbor Hash Op Device Entry Envelope.

Local Open Scope Z_scope.

(** ** Parameters *)

Class X25519 : Type := {
  (** [X25519PublicKey::from(&StaticSecret::from(seed)).to_bytes()]. *)
  x_public : bytes → bytes;
  (** [StaticSecret::diffie_hellman], the raw shared secret. *)
  x_dh : bytes → bytes → bytes;
  (** [SharedSecret::was_contributory]. *)
  was_contributory : bytes → bool;
  x_public_length seed : length (x_public seed) = 32%nat;
  x_public_canonical seed : mask_bit_255 (x_public seed) = x_public seed;
  x_public_large seed : is_small_order (x_public seed) = false;
  x_dh_mask seed peer : x_dh seed (mask_bit_255 peer) = x_dh seed peer;
  x_dh_comm seed seed' : x_dh seed (x_public seed') = x_dh seed' (x_public seed);
}.

Class Hkdf : Type := {
  (** [Hkdf::<Sha256>::new(Some(""), ikm).expand(info, out)] for an output of the given length. *)
  hkdf_expand : bytes → bytes → nat → option bytes;
  hkdf_expand_length ikm info n out : hkdf_expand ikm info n = Some out → length out = n;
  hkdf_expand_total ikm info n : (n ≤ 255 * 32)%nat → is_Some (hkdf_expand ikm info n);
}.

Class Aead : Type := {
  (** [encrypt(nonce, Payload { msg, aad })] and [decrypt_in_place(nonce, aad, ciphertext)]. *)
  aead_seal : bytes → bytes → bytes → bytes → option bytes;
  aead_open : bytes → bytes → bytes → bytes → option bytes;
  aead_seal_length key nonce aad msg ct : aead_seal key nonce aad msg = Some ct → length ct = (length msg + 16)%nat;
  aead_open_seal key nonce aad msg ct : aead_seal key nonce aad msg = Some ct → aead_open key nonce aad ct = Some msg;
}.

(** ** Data *)

Definition KEY_WRAP_DOMAIN : bytes := lit "rag-rat/key-wrap/1".
Definition CONTENT_KEY_ID_INFO : bytes := lit "rag-rat/content-key-id/1".
Definition KEY_WRAP_KDF_INFO : bytes := lit "rag-rat/key-wrap/1".
Definition KEY_WRAP_NONCE_INFO : bytes := lit "rag-rat/key-wrap-nonce/1".
Definition WRAP_CONTEXT_AAD_LEN : nat := 104.

(** [ContentKey], [KeyId] and [DeviceX25519Secret] are their 32 bytes. *)
Abbreviation ContentKey := bytes (only parsing).
Abbreviation KeyId := bytes (only parsing).
Abbreviation DeviceX25519Secret := bytes (only parsing).

Record WrapContext : Type := mkWrapContext {
  wc_account_id : bytes;
  wc_stream_id : bytes;
  wc_key_epoch : Z;
  wc_recipient_pub : bytes;
}.

Record SealedKeyWrap : Type := mkSealedKeyWrap {
  sw_ephemeral_pubkey : bytes;
  sw_ciphertext : bytes;
}.

#[export] Instance SealedKeyWrap_eq_dec : EqDecision SealedKeyWrap.
Proof. solve_decision. Defined.

(** [account_id || stream_id || key_epoch (big endian) || recipient_pub]. *)
Definition wrap_context_to_bytes (ctx : WrapContext) : bytes :=
  wc_account_id ctx ++ wc_stream_id ctx ++ be_bytes 8 (wc_key_epoch ctx) ++ wc_recipient_pub ctx.

(** [out[31] &= 0x7f]. *)
Definition canonical_x25519 (pubkey : bytes) : bytes := mask_bit_255 pubkey.

Definition kdf_info (label epk recipient_pub : bytes) : bytes := label ++ epk ++ recipient_pub.

Section Wrap.
Context `{Hkdf}.

(** [ContentKey::key_id]; the [expect] does not fail ([content_key_id_total]). *)
Definition content_key_id (key : ContentKey) : KeyId := default [] (hkdf_expand key CONTENT_KEY_ID_INFO 32).

Definition derive_wrap_key_and_nonce (shared epk recipient_pub : bytes) : result AnyError (bytes * bytes) :=
  wrap_key ← ok_or (Bail "HKDF expand of the wrap key failed")
               (hkdf_expand shared (kdf_info KEY_WRAP_KDF_INFO epk recipient_pub) 32);
  nonce ← ok_or (Bail "HKDF expand of the wrap nonce failed")
            (hkdf_expand shared (kdf_info KEY_WRAP_NONCE_INFO epk recipient_pub) 24);
  Ok (wrap_key, nonce).

Context `{Minicbor}.

Definition sealed_to_cbor (s : SealedKeyWrap) : bytes :=
  put_array 3 ++ put_str KEY_WRAP_DOMAIN ++ put_bytes (sw_ephemeral_pubkey s) ++ put_bytes (sw_ciphertext s).

Definition sealed_from_cbor_inner (bs : bytes) : result CborError SealedKeyWrap :=
  _ ← require_canonical_cbor bs;
  run (_ ← expect_array 3;
       _ ← expect_domain KEY_WRAP_DOMAIN;
       ephemeral_pubkey ← d_fixed 32 "ephemeral_pubkey";
       ciphertext ← d_fixed 48 "ciphertext";
       mret (mkSealedKeyWrap ephemeral_pubkey ciphertext)) bs.

Definition sealed_from_cbor (bs : bytes) : result AnyError SealedKeyWrap :=
  map_err (Wrapped "sealed key-wrap decode failed") (sealed_from_cbor_inner bs).

Context `{X25519} `{Aead}.

Definition x_secret_public (secret : DeviceX25519Secret) : DeviceX25519Public := mkDeviceX25519Public (x_public secret).
Definition diffie_hellman (secret : DeviceX25519Secret) (peer : DeviceX25519Public) : bytes := x_dh secret (dx_bytes peer).

Definition seal_with_ephemeral (key : ContentKey) (ctx : WrapContext) (recipient : DeviceX25519Public)
    (ephemeral : DeviceX25519Secret) : result AnyError SealedKeyWrap :=
  let recipient_pub := canonical_x25519 (dx_bytes recipient) in
  if bool_decide (canonical_x25519 (wc_recipient_pub ctx) ≠ recipient_pub)
  then Err (Bail "WrapContext.recipient_pub does not name the sealing recipient")
  else
    let epk := dx_bytes (x_secret_public ephemeral) in
    let shared := diffie_hellman ephemeral recipient in
    if negb (was_contributory shared)
    then Err (Bail "X25519 key-wrap produced a non-contributory shared secret")
    else
      '(wrap_key, nonce) ← derive_wrap_key_and_nonce shared epk recipient_pub;
      if bool_decide (length wrap_key ≠ 32%nat) then Err (Bail "derived wrap key has the wrong length")
      else
        ciphertext ← ok_or (Bail "content-key AEAD sealing failed")
                       (aead_seal wrap_key nonce (wrap_context_to_bytes ctx) key);
        ciphertext ← map_err (Wrapped "") (fixed_bytes 48 ciphertext "sealed content-key ciphertext");
        Ok (mkSealedKeyWrap epk ciphertext).

(** The ephemeral secret is what [DeviceX25519Secret::generate] returned. *)
Definition seal_content_key (generated : result AnyError DeviceX25519Secret) (key : ContentKey) (ctx : WrapContext)
    (recipient : DeviceX25519Public) : result AnyError SealedKeyWrap :=
  ephemeral ← generated; seal_with_ephemeral key ctx recipient ephemeral.

Definition unwrap_content_key (sealed : SealedKeyWrap) (secret : DeviceX25519Secret) (ctx : WrapContext)
    : result AnyError ContentKey :=
  epk ← map_err (fun _ => Bail "sealed key-wrap has an invalid ephemeral public key")
          (x25519_from_bytes (sw_ephemeral_pubkey sealed));
  let shared := diffie_hellman secret epk in
  if negb (was_contributory shared)
  then Err (Bail "X25519 key-unwrap produced a non-contributory shared secret")
  else
    let recipient_pub := canonical_x25519 (dx_bytes (x_secret_public secret)) in
    if bool_decide (canonical_x25519 (wc_recipient_pub ctx) ≠ recipient_pub)
    then Err (Bail "WrapContext.recipient_pub does not name the unwrapping device")
    else
      '(wrap_key, nonce) ← derive_wrap_key_and_nonce shared (sw_ephemeral_pubkey sealed) recipient_pub;
      if bool_decide (length wrap_key ≠ 32%nat) then Err (Bail "derived wrap key has the wrong length")
      else
        buffer ← ok_or (Bail "content-key unwrap failed")
                   (aead_open wrap_key nonce (wrap_context_to_bytes ctx) (sw_ciphertext sealed));
        if bool_decide (length buffer ≠ 32%nat) then Err (Bail "unwrapped content key has an unexpected length")
        else Ok buffer.
End Wrap.

(** ** Instances that satisfy the laws *)

(** Keys that end in the byte 1 are canonical and not of small order. *)
Lemma mask_snoc_one (l : bytes) : length l = 31%nat → mask_bit_255 (l ++ [x01]) = l ++ [x01].
Proof.
  intros Hl. unfold mask_bit_255, set_byte. rewrite lookup_app_r, Hl by lia. simpl.
  rewrite insert_app_r_alt, Hl by lia. done.
Qed.

Lemma small_order_snoc_one (l : bytes) : length l = 31%nat → is_small_order (l ++ [x01]) = false.
Proof.
  intros Hl. unfold is_small_order. rewrite mask_snoc_one by done. apply not_true_iff_false. rewrite existsb_exists.
  intros (bad & Hbad & Heq%bool_decide_eq_true). apply (f_equal last) in Heq. rewrite last_snoc in Heq.
  assert (Forall (λ bad, last (mask_bit_255 bad) ≠ Some x01) X25519_SMALL_ORDER_POINTS) as Hall by (by repeat constructor; vm_compute).
  apply list_elem_of_In in Hbad. rewrite Forall_forall in Hall. by apply (Hall bad Hbad).
Qed.

Lemma mask_idemp (l : bytes) : mask_bit_255 (mask_bit_255 l) = mask_bit_255 l.
Proof.
  unfold mask_bit_255. destruct (l !! 31%nat) as [b|] eqn:Hb; [|by rewrite Hb].
  unfold set_byte. rewrite list_lookup_insert_eq by (by eapply lookup_lt_Some).
  rewrite list_insert_insert_eq. f_equal. by destruct b.
Qed.

(** A public key is a digest with the last byte 1, and the shared secret a digest of the two public
    keys in order. *)
Definition toy_public (seed : bytes) : bytes := take 31 (@sha256 toy_sha256 seed) ++ [x01].

Lemma toy_public_mask seed : mask_bit_255 (toy_public seed) = toy_public seed.
Proof. apply mask_snoc_one. by rewrite length_take, sha256_length. Qed.

#[export] Program Instance toy_x25519 : X25519 := {|
  x_public := toy_public;
  x_dh seed peer := @sha256 toy_sha256 (mjoin (sort_unstable [toy_public seed; mask_bit_255 peer]));
  was_contributory shared := bool_decide (shared ≠ replicate 32 x00);
|}.
Next Obligation. intros seed. unfold toy_public. by rewrite length_app, length_take, sha256_length. Qed.
Next Obligation. apply toy_public_mask. Qed.
Next Obligation. intros seed. apply small_order_snoc_one. by rewrite length_take, sha256_length. Qed.
Next Obligation. intros seed peer. cbn beta. by rewrite mask_idemp. Qed.
Next Obligation.
  intros seed seed'. cbn beta. rewrite !toy_public_mask. do 2 f_equal.
  pose proof (sort_by_key_keys id [toy_public seed; toy_public seed'] [toy_public seed'; toy_public seed]) as Hs.
  rewrite !list_fmap_id in Hs. apply Hs. constructor.
Qed.

(** The digest of the key and the label, padded to the length. *)
#[export] Program Instance toy_hkdf : Hkdf := {|
  hkdf_expand ikm info n :=
    if bool_decide (n ≤ 255 * 32)%nat
    then Some (take n (@sha256 toy_sha256 (ikm ++ info) ++ replicate n x00)) else None;
|}.
Next Obligation.
  intros ikm info n out. cbn beta. case_bool_decide as Hn; [|done]. intros [= <-].
  rewrite length_take, length_app, length_replicate. lia.
Qed.
Next Obligation. intros ikm info n Hn. cbn beta. by rewrite bool_decide_true. Qed.

(** The message and sixteen zero bytes. *)
#[export] Program Instance toy_aead : Aead := {|
  aead_seal _ _ _ msg := Some (msg ++ replicate 16 x00);
  aead_open _ _ _ ct := Some (take (length ct - 16) ct);
|}.
Next Obligation. intros _ _ _ msg ct [= <-]. by rewrite length_app. Qed.
Next Obligation.
  intros _ _ _ msg ct [= <-]. cbn beta. f_equal. rewrite length_app, take_app_length'; [done|]. simpl. lia.
Qed.

(** ** Key ids and derived material *)

Section Derived.
Context `{Hkdf}.

Lemma content_key_id_total key : hkdf_expand key CONTENT_KEY_ID_INFO 32 = Some (content_key_id key).
Proof using Type.
  unfold content_key_id. destruct (hkdf_expand_total key CONTENT_KEY_ID_INFO 32) as [out Hout]; [lia|]. by rewrite Hout.
Qed.

Lemma content_key_id_length key : length (content_key_id key) = 32%nat.
Proof using Type. eapply hkdf_expand_length, content_key_id_total. Qed.

Lemma derive_wrap_total shared epk recipient_pub :
  ∃ wrap_key nonce, derive_wrap_key_and_nonce shared epk recipient_pub = Ok (wrap_key, nonce) ∧
    length wrap_key = 32%nat ∧ length nonce = 24%nat.
Proof using Type.
  unfold derive_wrap_key_and_nonce.
  destruct (hkdf_expand_total shared (kdf_info KEY_WRAP_KDF_INFO epk recipient_pub) 32) as [k Hk]; [lia|].
  destruct (hkdf_expand_total shared (kdf_info KEY_WRAP_NONCE_INFO epk recipient_pub) 24) as [n Hn]; [lia|].
  rewrite Hk, Hn. exists k, n. split_and!; [done|by eapply hkdf_expand_length..].
Qed.
End Derived.

(** The [info] strings separate the two labels, and determine both public keys. *)
Lemma kdf_info_inj label label' epk epk' pk pk' :
  (label = KEY_WRAP_KDF_INFO ∨ label = KEY_WRAP_NONCE_INFO) → (label' = KEY_WRAP_KDF_INFO ∨ label' = KEY_WRAP_NONCE_INFO) →
  hash_ok epk → hash_ok epk' → hash_ok pk → hash_ok pk' →
  kdf_info label epk pk = kdf_info label' epk' pk' → label = label' ∧ epk = epk' ∧ pk = pk'.
Proof.
  unfold kdf_info, hash_ok. intros Hl Hl' He He' Hp Hp' Heq.
  assert (length label = length label') as Hlen.
  { apply (f_equal length) in Heq. rewrite !length_app in Heq. lia. }
  apply app_inj_1 in Heq as [-> Heq]; [|done]. apply app_inj_1 in Heq as [-> ->]; [done|lia].
Qed.

(** ** The context of a wrap *)

Definition wrap_context_ok (ctx : WrapContext) : Prop :=
  hash_ok (wc_account_id ctx) ∧ hash_ok (wc_stream_id ctx) ∧ 0 ≤ wc_key_epoch ctx ≤ u64_max ∧ hash_ok (wc_recipient_pub ctx).

(** A wrap is bound to one context: the authenticated bytes have the fixed length and determine the
    account, the stream, the epoch and the recipient. *)
Theorem wrap_context_binding (ctx ctx' : WrapContext) :
  wrap_context_ok ctx → wrap_context_ok ctx' →
  length (wrap_context_to_bytes ctx) = WRAP_CONTEXT_AAD_LEN ∧
  (wrap_context_to_bytes ctx = wrap_context_to_bytes ctx' ↔ ctx = ctx').
Proof.
  destruct ctx as [a s e p], ctx' as [a' s' e' p']. unfold wrap_context_ok, wrap_context_to_bytes, hash_ok.
  cbn [wc_account_id wc_stream_id wc_key_epoch wc_recipient_pub].
  intros (Ha & Hs & He & Hp) (Ha' & Hs' & He' & Hp'). split.
  { rewrite !length_app, length_be_bytes, Ha, Hs, Hp. done. }
  split; [|congruence]. intros Heq. apply app_inj_1 in Heq as [-> Heq]; [|lia]. apply app_inj_1 in Heq as [-> Heq]; [|lia].
  apply app_inj_1 in Heq as [He2 ->]; [|by rewrite !length_be_bytes].
  apply (f_equal be_value) in He2. rewrite !be_value_be_bytes in He2 by (unfold u64_max in *; lia). by subst.
Qed.

(** ** Opening what was sealed *)

Section Open.
Context `{Hkdf} `{X25519} `{Aead}.

(** The two keys an agreement over [shared] derives. *)
Definition wrap_material (shared epk recipient_pub wrap_key nonce : bytes) : Prop :=
  hkdf_expand shared (kdf_info KEY_WRAP_KDF_INFO epk recipient_pub) 32 = Some wrap_key ∧
  hkdf_expand shared (kdf_info KEY_WRAP_NONCE_INFO epk recipient_pub) 24 = Some nonce.

Lemma derive_wrap_iff shared epk recipient_pub wrap_key nonce :
  derive_wrap_key_and_nonce shared epk recipient_pub = Ok (wrap_key, nonce) ↔
  wrap_material shared epk recipient_pub wrap_key nonce.
Proof using Type.
  unfold derive_wrap_key_and_nonce, wrap_material. destruct (hkdf_expand shared _ 32), (hkdf_expand shared _ 24); naive_solver.
Qed.

Lemma seal_with_ephemeral_iff key ctx recipient ephemeral sealed :
  seal_with_ephemeral key ctx recipient ephemeral = Ok sealed ↔
  let recipient_pub := mask_bit_255 (dx_bytes recipient) in
  let shared := x_dh ephemeral (dx_bytes recipient) in
  mask_bit_255 (wc_recipient_pub ctx) = recipient_pub ∧ was_contributory shared = true ∧
  sw_ephemeral_pubkey sealed = x_public ephemeral ∧ length (sw_ciphertext sealed) = 48%nat ∧
  ∃ wrap_key nonce, wrap_material shared (x_public ephemeral) recipient_pub wrap_key nonce ∧
    aead_seal wrap_key nonce (wrap_context_to_bytes ctx) key = Some (sw_ciphertext sealed).
Proof using Type.
  unfold seal_with_ephemeral, canonical_x25519, diffie_hellman, x_secret_public. cbn [dx_bytes].
  case_bool_decide as Hctx; [split; [done|naive_solver]|].
  destruct (was_contributory _) eqn:Hc; cbn [negb]; [|split; [done|naive_solver]].
  split.
  - intros Hs. inv_ok. case_bool_decide as Hk; [done|]. inv_ok. unfold fixed_bytes in *. case_bool_decide; inv_ok; [|done].
    simplify_eq/=. split_and!; try done. do 2 eexists. by rewrite <- derive_wrap_iff.
  - intros (_ & _ & Hepk & Hlen & wk & n & Hm & Hs). pose proof Hm as [Hwk%hkdf_expand_length _].
    apply derive_wrap_iff in Hm. rewrite Hm. cbn. rewrite bool_decide_false by tauto. rewrite Hs. cbn.
    unfold fixed_bytes. rewrite bool_decide_true by done. cbn. destruct sealed. by simplify_eq/=.
Qed.

(** Opening succeeds exactly when the ephemeral key is not of small order, the agreement is
    contributory, the context names this device, and the ciphertext opens to 32 bytes under the keys
    derived from the agreement; in every other case there is an error and no key. *)
Lemma unwrap_content_key_iff (sealed : SealedKeyWrap) (secret : DeviceX25519Secret) (ctx : WrapContext) (key : ContentKey) :
  unwrap_content_key sealed secret ctx = Ok key ↔
  let epk := sw_ephemeral_pubkey sealed in
  let shared := x_dh secret epk in
  is_small_order epk = false ∧ was_contributory shared = true ∧
  mask_bit_255 (wc_recipient_pub ctx) = x_public secret ∧ length key = 32%nat ∧
  ∃ wrap_key nonce, wrap_material shared epk (x_public secret) wrap_key nonce ∧
    aead_open wrap_key nonce (wrap_context_to_bytes ctx) (sw_ciphertext sealed) = Some key.
Proof using Type.
  unfold unwrap_content_key, canonical_x25519, diffie_hellman, x_secret_public, x25519_from_bytes.
  cbn [dx_bytes]. rewrite x_public_canonical.
  destruct (is_small_order _) eqn:Hso; cbn; [split; [done|naive_solver]|].
  destruct (was_contributory _) eqn:Hc; cbn [negb]; [|split; [done|naive_solver]].
  case_bool_decide as Hctx; [split; [done|naive_solver]|].
  split.
  - intros Hs. inv_ok. case_bool_decide as Hk; [done|]. inv_ok. case_bool_decide as Hlen; [done|]. inv_ok.
    split_and!; try done. do 2 eexists. by rewrite <- derive_wrap_iff.
  - intros (_ & _ & _ & Hlen & wk & n & Hm & Hs). pose proof Hm as [Hwk%hkdf_expand_length _].
    apply derive_wrap_iff in Hm. rewrite Hm. cbn. rewrite bool_decide_false by tauto. rewrite Hs. cbn.
    by rewrite bool_decide_false by tauto.
Qed.

Lemma sealed_opens (key : ContentKey) (ctx : WrapContext) (recipient : DeviceX25519Public)
    (ephemeral secret : DeviceX25519Secret) (sealed : SealedKeyWrap) :
  seal_with_ephemeral key ctx recipient ephemeral = Ok sealed → canonical_x25519 (dx_bytes recipient) = x_public secret →
  unwrap_content_key sealed secret ctx = Ok key.
Proof using Type.
  intros (Hctx & Hc & Hepk & Hlen & wk & n & Hm & Hs)%seal_with_ephemeral_iff. unfold canonical_x25519. intros Hr.
  assert (x_dh secret (x_public ephemeral) = x_dh ephemeral (dx_bytes recipient)) as Hdh.
  { rewrite <- (x_dh_mask ephemeral (dx_bytes recipient)), Hr. apply x_dh_comm. }
  assert (length key = 32%nat) as Hkey by (apply aead_seal_length in Hs; lia).
  apply unwrap_content_key_iff. cbv zeta. rewrite Hepk, Hdh, <- Hr.
  split_and!; [apply x_public_large|done..|]. exists wk, n. split; [done|by apply aead_open_seal].
Qed.

(** A 32-byte key sealed to a device opens with the device's secret under the same context, whatever
    encoding of its public key the sealer was given, and a secret of another public key is refused. *)
Theorem unwrap_opens_seal (key : ContentKey) (ctx : WrapContext) (recipient : DeviceX25519Public)
    (ephemeral : DeviceX25519Secret) (sealed : SealedKeyWrap) :
  seal_with_ephemeral key ctx recipient ephemeral = Ok sealed →
  length key = 32%nat ∧
  (∀ secret : DeviceX25519Secret, canonical_x25519 (dx_bytes recipient) = x_public secret →
     unwrap_content_key sealed secret ctx = Ok key) ∧
  (∀ secret : DeviceX25519Secret, canonical_x25519 (dx_bytes recipient) ≠ x_public secret →
     is_ok (unwrap_content_key sealed secret ctx) = false).
Proof using Type.
  intros Hseal. pose proof Hseal as (Hctx & _ & _ & Hlen & wk & n & _ & Hs)%seal_with_ephemeral_iff.
  split; [apply aead_seal_length in Hs; lia|]. split; intros secret Hr; [by eapply sealed_opens|]. unfold canonical_x25519 in *.
  destruct (unwrap_content_key _ _ _) eqn:Hu; [|done]. apply unwrap_content_key_iff in Hu as (_ & _ & Hu & _). congruence.
Qed.
End Open.

(** ** The wire form of a wrap *)

Definition sealed_ok (s : SealedKeyWrap) : Prop :=
  length (sw_ephemeral_pubkey s) = 32%nat ∧ length (sw_ciphertext s) = 48%nat.
Definition sealed_item (s : SealedKeyWrap) : item :=
  Array [TextString KEY_WRAP_DOMAIN; ByteString (sw_ephemeral_pubkey s); ByteString (sw_ciphertext s)].

Section Wire.
Context `{MinicborLaws}.

Lemma sealed_to_cbor_ser s : sealed_ok s → sealed_to_cbor s = ser (sealed_item s).
Proof using All.
  intros [He Hc]. unfold sealed_to_cbor, sealed_item.
  rewrite put_str_ser, !put_bytes_ser by (done || (unfold len, u64_max; lia)).
  etrans; [|apply put_array_ser; by vm_compute]. rewrite !fmap_cons.
  cbn [mjoin list_join fmap list_fmap]. by rewrite app_nil_r.
Qed.

(** A wrap decodes from exactly its own encoding. *)
Lemma sealed_from_cbor_iff (bs : bytes) (s : SealedKeyWrap) :
  sealed_from_cbor bs = Ok s ↔ sealed_ok s ∧ bs = sealed_to_cbor s.
Proof using All.
  unfold sealed_from_cbor, sealed_from_cbor_inner. split.
  - intros Hd. destruct (_ ≫= _) eqn:Hi in Hd; [|done]. simpl in Hd. inv_ok. inv_dec. simplify_eq.
    match goal with H : expect_array _ _ = _ |- _ =>
      eapply canonical_array in H as (items & Hwf & Hl & -> & -> & _); [|by eauto using require_canonical_tt] end.
    split_len Hl. read_items. split; [done|]. by rewrite sealed_to_cbor_ser.
  - intros [[He Hc] ->].
    assert (require_canonical_cbor (sealed_to_cbor s) = Ok tt) as ->.
    { rewrite sealed_to_cbor_ser by done. apply require_canonical_flat; [by vm_compute|].
      repeat apply Forall_cons_2; try apply Forall_nil_2;
        first [by apply text_flat|apply bytes_flat; unfold len, u64_max; lia]. }
    simpl. erewrite (proj2 (run_Ok _ _ _)); [done|]. exists []. rewrite <- (app_nil_r (sealed_to_cbor s)). unfold sealed_to_cbor.
    destruct s. revert He Hc. simpl. intros.
    eapply reads_bind; [apply reads_expect_array; unfold u64_max; lia|].
    eapply reads_bind; [by apply reads_domain|]. eapply reads_bind; [apply reads_fixed; [done|unfold len, u64_max; lia]|].
    eapply reads_bind_nil; [apply reads_fixed; [done|unfold len, u64_max; lia]|done].
Qed.
End Wire.

(** ** Witness *)

Definition wit_device_seed : bytes := replicate 32 x07.
Definition wit_recipient : DeviceX25519Public := x_secret_public wit_device_seed.
Definition wit_wrap_key : ContentKey := replicate 32 x4b.
Definition wit_wrap_context : WrapContext := mkWrapContext (replicate 32 x11) (replicate 32 x22) 3 (dx_bytes wit_recipient).
Definition wit_sealed_wrap : SealedKeyWrap :=
  match seal_with_ephemeral wit_wrap_key wit_wrap_context wit_recipient (replicate 32 x09) with
  | Ok s => s
  | Err _ => mkSealedKeyWrap [] []
  end.

Lemma unwrap_opens_seal_witness : unwrap_content_key wit_sealed_wrap wit_device_seed wit_wrap_context = Ok wit_wrap_key.
Proof.
  apply (unwrap_opens_seal wit_wrap_key wit_wrap_context wit_recipient (replicate 32 x09) wit_sealed_wrap);
    [by vm_compute|by vm_compute].
Defined.
