(* ===== verification/SecretsOps.v ===== *)
(** * Secrets-log operations ([account/secrets/ops.rs])

    The two operations of the secrets log, the canonicalization an author applies to the fan-out of
    wraps, the codec with its re-encoding check, and the admission check applied before storage. *)

From S2P Require Import Prelude Cbor Minicbor Hash Op Device Entry Stream Branch Envelope Candidate AccountOps Keywrap.

Local Open Scope Z_scope.

(** ** Data *)

Definition STREAM_KEY_WRAP : Z := 0.
Definition REPO_INCARNATION : Z := 1.
Definition WRAP_RECIPIENTS_MAX : Z := 1024.

Record RepoIncarnation : Type := mkRepoIncarnation {
  ri_repo_id : bytes;
  ri_predecessor_ref : option AccountEntryHash;
}.

Record WrapEntry : Type := mkWrapEntry {
  we_recipient_fp : DeviceFingerprint;
  we_sealed : SealedKeyWrap;
}.

#[export] Instance WrapEntry_eq_dec : EqDecision WrapEntry.
Proof. solve_decision. Defined.

Record StreamKeyWrap : Type := mkStreamKeyWrap {
  sk_stream_id : StreamId;
  sk_key_id : KeyId;
  sk_key_epoch : Z;
  sk_wraps : list WrapEntry;
}.

Inductive DecodedSecretsOp : Type :=
| DecodedKeyWrap (op : StreamKeyWrap)
| DecodedIncarnation (op : RepoIncarnation)
| UnknownSecretsOp (entry_type : Z) (bs : bytes).

Definition secrets_entry_type_of (_ : StreamKeyWrap) : Z := STREAM_KEY_WRAP.

(** ** Operations *)

Definition canonical_wraps : list WrapEntry → result CborError (list WrapEntry) :=
  canonical_cuts we_recipient_fp WRAP_RECIPIENTS_MAX
    "wraps has conflicting entries for one recipient" "wraps exceeds the bound".

Definition secrets_canonicalize (op : StreamKeyWrap) : result CborError StreamKeyWrap :=
  wraps ← canonical_wraps (sk_wraps op);
  Ok (mkStreamKeyWrap (sk_stream_id op) (sk_key_id op) (sk_key_epoch op) wraps).

Section Codec.
Context `{Minicbor}.

Definition put_wrap (w : WrapEntry) : bytes :=
  put_array 2 ++ put_bytes (we_recipient_fp w) ++ put_bytes (sealed_to_cbor (we_sealed w)).
Definition write_wraps (wraps : list WrapEntry) : bytes := put_array (len wraps) ++ mjoin (put_wrap <$> wraps).

Definition secrets_encode_canonical (op : StreamKeyWrap) : bytes :=
  put_array 4 ++ put_bytes (sk_stream_id op) ++ put_bytes (sk_key_id op) ++ put_u64 (sk_key_epoch op) ++
  write_wraps (sk_wraps op).

Definition secrets_encode (op : StreamKeyWrap) : result CborError bytes :=
  op ← secrets_canonicalize op; Ok (secrets_encode_canonical op).

Definition encode_repo_incarnation (op : RepoIncarnation) : result CborError bytes :=
  if bool_decide (ri_repo_id op = []) then Err (Message "repo_id must not be empty")
  else Ok (put_array 2 ++ put_str (ri_repo_id op) ++ put_opt put_bytes (ri_predecessor_ref op)).

Definition decode_wrap_row (prev : option bytes) : Decoder (bytes * WrapEntry) :=
  _ ← expect_array 2;
  recipient ← d_fixed 32 "wrap recipient_fp";
  if match prev with Some p => bool_decide (cle recipient p) | None => false end
  then fail (Message "wraps not sorted-unique by recipient_fp")
  else wrapped_key ← d_bytes;
       sealed ← lift (map_err (fun _ => Message "wrapped_key is not a SealedKeyWrap") (sealed_from_cbor wrapped_key));
       mret (recipient, mkWrapEntry recipient sealed).

Definition decode_wraps : Decoder (list WrapEntry) :=
  decode_keyed_rows decode_wrap_row WRAP_RECIPIENTS_MAX "wraps exceeds the bound".

Definition decode_stream_key_wrap : Decoder StreamKeyWrap :=
  _ ← expect_array 4;
  stream_id ← d_fixed 32 "stream_id";
  key_id ← d_fixed 32 "key_id";
  key_epoch ← d_u64;
  wraps ← decode_wraps;
  mret (mkStreamKeyWrap stream_id key_id key_epoch wraps).

Definition decode_repo_incarnation : Decoder RepoIncarnation :=
  _ ← expect_array 2;
  repo_id ← d_str;
  if bool_decide (repo_id = []) then fail (Message "repo_id must not be empty")
  else predecessor_ref ← decode_opt (d_fixed 32 "predecessor_ref");
       mret (mkRepoIncarnation repo_id predecessor_ref).

Definition validate_opaque_array (bs : bytes) : result CborError unit :=
  _ ← require_canonical_cbor bs; _ ← run expect_definite_len bs; Ok tt.

Definition NOT_CANONICAL : CborError := Message "secrets op payload is not canonical (re-encode differs)".

Definition secrets_decode (entry_type : Z) (bs : bytes) : result CborError DecodedSecretsOp :=
  if bool_decide (entry_type = STREAM_KEY_WRAP) then
    op ← run decode_stream_key_wrap bs;
    again ← secrets_encode op;
    if bool_decide (again ≠ bs) then Err NOT_CANONICAL else Ok (DecodedKeyWrap op)
  else if bool_decide (entry_type = REPO_INCARNATION) then
    op ← run decode_repo_incarnation bs;
    again ← encode_repo_incarnation op;
    if bool_decide (again ≠ bs) then Err NOT_CANONICAL else Ok (DecodedIncarnation op)
  else _ ← validate_opaque_array bs; Ok (UnknownSecretsOp entry_type bs).

Definition validate_storable_secrets_payload (entry_type : Z) (payload : bytes) : result CborError unit :=
  if bool_decide (entry_type = STREAM_KEY_WRAP) then _ ← secrets_decode entry_type payload; Ok tt
  else validate_opaque_array payload.
End Codec.

(** ** Widths of the types *)

Definition wrap_entry_ok (w : WrapEntry) : Prop := hash_ok (we_recipient_fp w) ∧ sealed_ok (we_sealed w).
Definition stream_key_wrap_ok (op : StreamKeyWrap) : Prop :=
  hash_ok (sk_stream_id op) ∧ hash_ok (sk_key_id op) ∧ 0 ≤ sk_key_epoch op ≤ u64_max ∧ Forall wrap_entry_ok (sk_wraps op).
Definition incarnation_ok (op : RepoIncarnation) : Prop :=
  str_ok (ri_repo_id op) ∧ opt_ok hash_ok (ri_predecessor_ref op).

Lemma secrets_canonicalize_fixed op op' :
  secrets_canonicalize op = Ok op' →
  secrets_canonicalize op' = Ok op' ∧ (stream_key_wrap_ok op → stream_key_wrap_ok op').
Proof.
  unfold secrets_canonicalize. intros Hc. inv_ok. simpl.
  match goal with H : canonical_wraps _ = _ |- _ => rename H into Hw end.
  pose proof (canonical_cuts_Ok _ _ _ _ _ _ Hw) as [Hcan _]. split.
  - unfold canonical_wraps. by rewrite canonical_cuts_id.
  - intros (? & ? & ? & ?). do 3 (split; [done|]). by apply (canonical_cuts_Forall _ _ _ _ _ _ _ Hw).
Qed.

Lemma secrets_canonicalize_id op :
  secrets_canonicalize op = Ok op ↔ cuts_canonical we_recipient_fp WRAP_RECIPIENTS_MAX (sk_wraps op).
Proof.
  destruct op as [s k e w]. unfold secrets_canonicalize, canonical_wraps. simpl. split.
  - intros Hc. inv_ok. by eapply canonical_cuts_fixed.
  - intros Hc. by rewrite canonical_cuts_id.
Qed.

Section Reading.
Context `{MinicborLaws}.

Lemma sealed_len s : sealed_ok s → len (sealed_to_cbor s) ≤ u64_max.
Proof using All.
  intros Hs. pose proof Hs as [He Hc]. rewrite sealed_to_cbor_ser by done. unfold sealed_item. cbn [ser].
  rewrite len_app.
  match goal with |- context [head 4 ?n] => pose proof (len_head 4 n) as Hh end.
  assert (len (mjoin (ser <$> [TextString KEY_WRAP_DOMAIN; ByteString (sw_ephemeral_pubkey s); ByteString (sw_ciphertext s)])) ≤ 100 * 3).
  { apply len_mjoin_ser. repeat constructor; cbn [ser]; rewrite len_app.
    - pose proof (len_head 3 (len KEY_WRAP_DOMAIN)). unfold len, KEY_WRAP_DOMAIN in *. simpl length in *. lia.
    - pose proof (len_head 2 (len (sw_ephemeral_pubkey s))). unfold len in *. lia.
    - pose proof (len_head 2 (len (sw_ciphertext s))). unfold len in *. lia. }
  unfold u64_max. lia.
Qed.

Lemma reads_wrap_row prev w :
  wrap_entry_ok w → (∀ p, prev = Some p → clt p (we_recipient_fp w)) →
  reads (decode_wrap_row prev) (put_wrap w) (we_recipient_fp w, w).
Proof using All.
  intros [Hfp Hs] Hp. eapply reads_bind; [apply reads_expect_array; unfold u64_max; lia|].
  eapply reads_bind; [by apply reads_b32|].
  match goal with |- reads (if ?b then _ else _) _ _ => assert (b = false) as -> end.
  { destruct prev as [p|]; [|done]. apply bool_decide_eq_false, not_cle_clt. by apply Hp. }
  eapply reads_bind_nil; [apply reads_bytes; by apply sealed_len|].
  rewrite (proj2 (sealed_from_cbor_iff _ (we_sealed w))) by done. by destruct w.
Qed.

Lemma reads_wraps wraps :
  Forall wrap_entry_ok wraps → cuts_canonical we_recipient_fp WRAP_RECIPIENTS_MAX wraps →
  reads decode_wraps (write_wraps wraps) wraps.
Proof using All.
  apply reads_keyed_rows; [unfold WRAP_RECIPIENTS_MAX, u64_max; lia|]. intros prev w. apply reads_wrap_row.
Qed.

Lemma reads_stream_key_wrap op :
  stream_key_wrap_ok op → secrets_canonicalize op = Ok op →
  reads decode_stream_key_wrap (secrets_encode_canonical op) op.
Proof using All.
  intros (Hs & Hk & He & Hw) Hc%secrets_canonicalize_id. destruct op as [s k e w]. simpl in *.
  unfold decode_stream_key_wrap, secrets_encode_canonical. simpl.
  eapply reads_bind; [apply reads_expect_array; unfold u64_max; lia|].
  eapply reads_bind; [by apply reads_b32|]. eapply reads_bind; [by apply reads_b32|].
  eapply reads_bind; [by apply reads_u64|]. eapply reads_bind_nil; [by apply reads_wraps|done].
Qed.

Lemma ensures_wrap_row prev : ensures (decode_wrap_row prev) (keyed_row_after we_recipient_fp wrap_entry_ok prev).
Proof using All.
  unfold decode_wrap_row. eapply ensures_bind; [apply ensures_True|]. intros _ _.
  eapply ensures_bind; [apply ensures_b32|]. intros k Hk.
  destruct (match prev with Some _ => _ | None => _ end) eqn:Hprev; [apply ensures_fail|].
  eapply ensures_bind; [apply ensures_True|]. intros wk _.
  eapply ensures_bind; [apply ensures_lift|]. intros s Hs. cbv beta in Hs.
  destruct (sealed_from_cbor wk) as [s'|] eqn:Hd; [|done]. simpl in Hs. inv_ok.
  apply sealed_from_cbor_iff in Hd as [Hok _].
  apply ensures_ret. split_and!; simpl; [done|done|by apply row_key_check].
Qed.

Lemma ensures_stream_key_wrap :
  ensures decode_stream_key_wrap (fun op => stream_key_wrap_ok op ∧ secrets_canonicalize op = Ok op).
Proof using All.
  unfold decode_stream_key_wrap. eapply ensures_bind; [apply ensures_True|]. intros _ _.
  eapply ensures_bind; [apply ensures_b32|]. intros s Hs. eapply ensures_bind; [apply ensures_b32|]. intros k Hk.
  eapply ensures_bind; [apply ensures_u64|]. intros e He.
  eapply ensures_bind; [apply ensures_keyed_rows, ensures_wrap_row|]. intros w [Hw Hc].
  apply ensures_ret. split; [done|]. by apply secrets_canonicalize_id.
Qed.

Lemma reads_repo_incarnation op bs :
  incarnation_ok op → encode_repo_incarnation op = Ok bs → reads decode_repo_incarnation bs op.
Proof using All.
  intros [[Hu Hl] Hp]. unfold encode_repo_incarnation. case_bool_decide as Hne; [done|]. intros [= <-].
  destruct op as [r p]. simpl in *. eapply reads_bind; [apply reads_expect_array; unfold u64_max; lia|].
  eapply reads_bind; [by apply reads_str|]. rewrite bool_decide_false by done.
  eapply reads_bind_nil; [by apply reads_opt_hash|done].
Qed.

Lemma ensures_repo_incarnation :
  ensures decode_repo_incarnation (fun op => incarnation_ok op ∧ ri_repo_id op ≠ []).
Proof using All.
  unfold decode_repo_incarnation. eapply ensures_bind; [apply ensures_True|]. intros _ _.
  eapply ensures_bind; [apply ensures_str|]. intros r Hr. case_bool_decide as Hne; [apply ensures_fail|].
  eapply ensures_bind; [apply ensures_opt_b32|]. intros p Hp. by apply ensures_ret.
Qed.

(** The opaque check accepts exactly the canonical encodings of arrays. *)
Lemma validate_opaque_array_iff bs u :
  validate_opaque_array bs = Ok u ↔
  require_canonical_cbor bs = Ok tt ∧ ∃ items, item_wf (Array items) ∧ bs = ser (Array items).
Proof using All.
  unfold validate_opaque_array. destruct u. split.
  - intros Hd. inv_ok.
    match goal with H : require_canonical_cbor _ = Ok ?u |- _ => destruct u; rename H into Hc end.
    match goal with H : run _ _ = Ok _ |- _ => apply run_Ok in H as [r Hr] end.
    split; [done|]. eapply canonical_array in Hc as (l & Hl & _ & Heq & _ & Hlen);
      [exists l; split; [by constructor|exact Heq]|].
    unfold expect_array, mbind, Decoder_bind. rewrite Hr. simpl. by rewrite bool_decide_true.
  - intros (Hc & items & Hwf & ->). rewrite Hc. inversion Hwf; subst.
    unfold run. rewrite <- put_array_ser by done. rewrite reads_array; [done|].
    split; [apply len_nonneg|done].
Qed.

Definition incarnation_item (op : RepoIncarnation) : item :=
  Array [TextString (ri_repo_id op); opt_bytes_item (ri_predecessor_ref op)].

(** An incarnation that encodes is one canonical array. *)
Lemma incarnation_canonical op bs :
  incarnation_ok op → encode_repo_incarnation op = Ok bs → validate_opaque_array bs = Ok tt.
Proof using All.
  intros [Hs Hp] He. assert (bs = ser (incarnation_item op)) as ->.
  { unfold encode_repo_incarnation in He. case_bool_decide; inv_ok. unfold incarnation_item.
    pose proof Hs as [_ Hl]. rewrite put_str_ser, (put_opt_bytes_ser _ Hp) by done.
    etrans; [|apply put_array_ser; by vm_compute]. rewrite !fmap_cons.
    cbn [mjoin list_join fmap list_fmap]. by rewrite app_nil_r. }
  assert (Forall (λ i, item_wf i ∧ height i = 1%nat) [TextString (ri_repo_id op); opt_bytes_item (ri_predecessor_ref op)]) as Hf.
  { repeat apply Forall_cons_2; [by apply text_flat|by apply opt_item_flat|done]. }
  apply validate_opaque_array_iff. split; [apply require_canonical_flat; [by vm_compute|done]|].
  eexists. split; [|done]. constructor; [by vm_compute|]. eapply Forall_impl; [exact Hf|]. by intros i [? _].
Qed.
End Reading.

(** ** The secrets wire *)

Section Wire.
Context `{MinicborLaws}.

Lemma secrets_decode_key_wrap op :
  stream_key_wrap_ok op → secrets_canonicalize op = Ok op →
  secrets_decode STREAM_KEY_WRAP (secrets_encode_canonical op) = Ok (DecodedKeyWrap op).
Proof using All.
  intros Hok Hc. unfold secrets_decode. rewrite bool_decide_true by done.
  pose proof (reads_stream_key_wrap op Hok Hc []) as Hr. rewrite app_nil_r in Hr. unfold run. rewrite Hr. simpl.
  unfold secrets_encode. rewrite Hc. simpl. by rewrite bool_decide_false by tauto.
Qed.

(** The secrets-operation wire is exact: a key-wrap operation decodes from its canonical encoding
    and from nothing else, a repository incarnation likewise, and every other entry type is retained
    with its bytes when they are one canonical array. *)
Theorem secrets_decode_exact (t : Z) (bs : bytes) (d : DecodedSecretsOp) :
  secrets_decode t bs = Ok d ↔
  match d with
  | DecodedKeyWrap op =>
      t = STREAM_KEY_WRAP ∧ stream_key_wrap_ok op ∧ cuts_canonical we_recipient_fp WRAP_RECIPIENTS_MAX (sk_wraps op) ∧
      bs = secrets_encode_canonical op
  | DecodedIncarnation op => t = REPO_INCARNATION ∧ incarnation_ok op ∧ encode_repo_incarnation op = Ok bs
  | UnknownSecretsOp t' bs' =>
      t ≠ STREAM_KEY_WRAP ∧ t ≠ REPO_INCARNATION ∧ t' = t ∧ bs' = bs ∧ require_canonical_cbor bs = Ok tt ∧
      ∃ items, item_wf (Array items) ∧ bs = ser (Array items)
  end.
Proof using All.
  unfold secrets_decode. split.
  - case_bool_decide as Ht; [|case_bool_decide as Ht'].
    + intros Hd. inv_ok. case_bool_decide as Hne; inv_ok.
      match goal with H : run _ _ = _ |- _ => apply run_Ok in H as [r (Hok & Hc)%ensures_stream_key_wrap] end.
      split_and!; [done|done|by apply secrets_canonicalize_id|].
      match goal with H : secrets_encode _ = _ |- _ => unfold secrets_encode in H; rewrite Hc in H end. inv_ok. done.
    + intros Hd. inv_ok. case_bool_decide as Hne; inv_ok.
      match goal with H : run _ _ = _ |- _ => apply run_Ok in H as [r (Hok & _)%ensures_repo_incarnation] end.
      split_and!; try done.
    + intros Hd. inv_ok.
      match goal with H : validate_opaque_array _ = _ |- _ => apply validate_opaque_array_iff in H as [? ?] end. by split_and!.
  - destruct d as [op|op|t' bs'].
    + intros (-> & Hok & Hc%secrets_canonicalize_id & ->). by apply secrets_decode_key_wrap.
    + intros (-> & Hok & He). rewrite bool_decide_false, bool_decide_true by done.
      pose proof (reads_repo_incarnation op bs Hok He []) as Hr. rewrite app_nil_r in Hr. unfold run. rewrite Hr. simpl.
      rewrite He. simpl. by rewrite bool_decide_false by tauto.
    + intros (? & ? & -> & -> & Hv). rewrite !bool_decide_false by done.
      by rewrite (proj2 (validate_opaque_array_iff bs tt) Hv).
Qed.

(** An author never signs a fan-out its peers refuse: if a well-typed operation encodes, the bytes
    decode to it with its wraps sorted and deduplicated, and are admitted to storage. *)
Theorem secrets_encode_decodes (op : StreamKeyWrap) (bs : bytes) :
  stream_key_wrap_ok op → secrets_encode op = Ok bs →
  ∃ op', secrets_canonicalize op = Ok op' ∧ (∀ w, w ∈ sk_wraps op' ↔ w ∈ sk_wraps op) ∧
    secrets_decode (secrets_entry_type_of op) bs = Ok (DecodedKeyWrap op') ∧
    validate_storable_secrets_payload (secrets_entry_type_of op) bs = Ok tt.
Proof using All.
  intros Hok He. unfold secrets_encode in He. inv_ok.
  match goal with H : secrets_canonicalize op = Ok ?o |- _ => rename o into op', H into Hc end.
  destruct (secrets_canonicalize_fixed op op' Hc) as [Hfix Hok'].
  pose proof (secrets_decode_key_wrap op' (Hok' Hok) Hfix) as Hd.
  exists op'. split; [done|]. split; [|split; [done|]].
  - unfold secrets_canonicalize in Hc. inv_ok. match goal with H : canonical_wraps _ = _ |- _ => by apply (canonical_cuts_Ok _ _ _ _ _ _ H) end.
  - unfold validate_storable_secrets_payload. rewrite bool_decide_true by done.
    change (secrets_entry_type_of op) with STREAM_KEY_WRAP. by rewrite Hd.
Qed.

(** Admission never depends on which tags this version knows: a tag other than the key wrap is
    admitted exactly when its payload is one canonical array, so a version that does not know the
    incarnation tag and one that does store the same entries; and what decodes is always admitted. *)
Theorem secrets_admission_stable (t : Z) (bs : bytes) :
  (t ≠ STREAM_KEY_WRAP → validate_storable_secrets_payload t bs = validate_opaque_array bs) ∧
  (∀ d, secrets_decode t bs = Ok d → validate_storable_secrets_payload t bs = Ok tt).
Proof using All.
  unfold validate_storable_secrets_payload. split; [intros Ht; by rewrite bool_decide_false|].
  intros d Hd. case_bool_decide as Ht; [by rewrite Hd|]. unfold secrets_decode in Hd.
  rewrite bool_decide_false in Hd by done. case_bool_decide as Ht'; inv_ok; [|by destruct x].
  case_bool_decide as Hne; inv_ok. subst.
  match goal with H : run _ _ = _ |- _ => apply run_Ok in H as [r (Hok & _)%ensures_repo_incarnation] end.
  by eapply incarnation_canonical.
Qed.
End Wire.

(** ** Witness *)

Definition wit_incarnation : RepoIncarnation := mkRepoIncarnation (lit "repo") (Some (replicate 32 x0c)).
Definition wit_incarnation_payload : bytes :=
  match encode_repo_incarnation wit_incarnation with Ok bs => bs | Err _ => [] end.

Lemma secrets_decode_exact_witness :
  secrets_decode REPO_INCARNATION wit_incarnation_payload = Ok (DecodedIncarnation wit_incarnation) ∧
  encode_repo_incarnation wit_incarnation = Ok wit_incarnation_payload.
Proof.
  assert (secrets_decode REPO_INCARNATION wit_incarnation_payload = Ok (DecodedIncarnation wit_incarnation)) as Hd
    by (vm_compute; reflexivity).
  pose proof (proj1 (secrets_decode_exact _ _ _) Hd) as (_ & _ & He). exact (conj Hd He).
Defined.
