(* ===== verification/ContentEnvelope.v ===== *)
(** * The signed content-entry envelope ([crates/rag-rat-oplog/src/account/content/envelope.rs])

    The 13-part [/3] header, plaintext and sealed authoring, decoding and verification.  The
    cipher is the class [Aead] and the content-key id the [content_key_id] of [Keywrap]. *)

From S2P Require Import Prelude Cbor Minicbor Hash Op Device Entry Stream Branch Envelope Candidate Keywrap.

Local Open Scope Z_scope.

(** ** Data *)

Definition CONTENT_ENTRY_DOMAIN : bytes := lit "rag-rat/entry/3".
Definition CONTENT_SIGNED_DOMAIN : bytes := lit "rag-rat/signed-entry/1".
Definition CONTENT_ENVELOPE_MAX_BYTES : Z := 256 * 1024.
Definition SEALED_CRYPTO_SUITE : Z := 1.
Definition SEALED_NONCE_LEN : nat := 24.
Definition SEALED_AEAD_TAG_LEN : nat := 16.


Record ContentEntryHeader : Type := mkContentEntryHeader {
  ch_stream_id : StreamId;
  ch_author_account_id : AccountId;
  ch_device_fingerprint : DeviceFingerprint;
  ch_seq : Z;
  ch_lamport : Z;
  ch_prev_hash : option AccountEntryHash;
  ch_grant_id : option GrantId;
  ch_roster_ref : RosterRef;
  ch_owner_auth_len : Z;
  ch_author_auth_len : Z;
  ch_crypto_suite : Z;
  ch_key_id : option bytes;
}.

Record SignedContentEntry : Type := mkSignedContentEntry {
  sc_header : ContentEntryHeader;
  sc_payload : bytes;
  sc_signature : bytes;
  sc_header_bytes : bytes;
  sc_body_bytes : bytes;
  sc_signed_bytes : bytes;
  sc_entry_hash : AccountEntryHash;
}.

Record VerifiedContentEntry : Type := mkVerifiedContentEntry {
  vc_header : ContentEntryHeader;
  vc_payload : bytes;
  vc_header_bytes : bytes;
  vc_entry_hash : AccountEntryHash;
}.

(** ** Operations *)

Definition content_nullity_error (h : ContentEntryHeader) : option string :=
  if bool_decide (bool_decide (ch_seq h = 0) ≠ bool_decide (ch_prev_hash h = None))
  then Some "prev_hash must be null iff seq == 0"%string
  else if bool_decide (bool_decide (ch_crypto_suite h = 0) ≠ bool_decide (ch_key_id h = None))
  then Some "key_id must be null iff crypto_suite == 0"%string
  else None.

(** [header.device_fingerprint = d]. *)
Definition content_set_device (h : ContentEntryHeader) (d : DeviceFingerprint) : ContentEntryHeader :=
  mkContentEntryHeader (ch_stream_id h) (ch_author_account_id h) d (ch_seq h) (ch_lamport h) (ch_prev_hash h)
    (ch_grant_id h) (ch_roster_ref h) (ch_owner_auth_len h) (ch_author_auth_len h) (ch_crypto_suite h) (ch_key_id h).

(** [header.crypto_suite = suite; header.key_id = Some(key_id)]. *)
Definition content_set_suite (h : ContentEntryHeader) (suite : Z) (key_id : bytes) : ContentEntryHeader :=
  mkContentEntryHeader (ch_stream_id h) (ch_author_account_id h) (ch_device_fingerprint h) (ch_seq h) (ch_lamport h)
    (ch_prev_hash h) (ch_grant_id h) (ch_roster_ref h) (ch_owner_auth_len h) (ch_author_auth_len h) suite (Some key_id).

Section ContentEnvelope.
Context `{Minicbor} `{Sha256} `{Ed25519} `{Hkdf} `{Aead}.

Definition encode_content_header (h : ContentEntryHeader) : bytes :=
  put_array 13 ++ put_str CONTENT_ENTRY_DOMAIN ++ put_bytes (ch_stream_id h) ++
  put_bytes (ch_author_account_id h) ++ put_bytes (ch_device_fingerprint h) ++
  put_u64 (ch_seq h) ++ put_u64 (ch_lamport h) ++
  encode_opt_hash (ch_prev_hash h) ++ encode_opt_hash (ch_grant_id h) ++ put_bytes (ch_roster_ref h) ++
  put_u64 (ch_owner_auth_len h) ++ put_u64 (ch_author_auth_len h) ++ put_u64 (ch_crypto_suite h) ++
  encode_opt_hash (ch_key_id h).

Definition encode_content_body (header_bytes payload : bytes) : bytes :=
  put_array 2 ++ put_bytes header_bytes ++ put_bytes payload.

Definition encode_content_signed (body_bytes signature : bytes) : bytes :=
  put_array 3 ++ put_str CONTENT_SIGNED_DOMAIN ++ put_bytes body_bytes ++ put_bytes signature.

(** The framing both authoring paths end with. *)
Definition frame_content_entry (over_limit : string) (secret : DeviceSecret) (header : ContentEntryHeader)
    (payload : bytes) : result AnyError SignedContentEntry :=
  let header_bytes := encode_content_header header in
  let body_bytes := encode_content_body header_bytes payload in
  let signature := secret_sign secret body_bytes in
  let signed_bytes := encode_content_signed body_bytes signature in
  if bool_decide (CONTENT_ENVELOPE_MAX_BYTES < len signed_bytes)
  then Err (Bail over_limit)
  else Ok (mkSignedContentEntry header payload signature header_bytes body_bytes signed_bytes (sha256 body_bytes)).

Definition sign_content_entry (secret : DeviceSecret) (header : ContentEntryHeader) (payload : bytes)
    : result AnyError SignedContentEntry :=
  if bool_decide (CONTENT_ENVELOPE_MAX_BYTES < len payload)
  then Err (Bail "content payload exceeds the envelope limit")
  else
    let header := content_set_device header (fingerprint (secret_public secret)) in
    match content_nullity_error header with
    | Some message => Err (Bail message)
    | None =>
        if bool_decide (ch_crypto_suite header ≠ 0)
        then Err (Bail "C2 authoring supports only plaintext_signed crypto suite 0")
        else
          _ ← map_err (Wrapped "plaintext op payload is not canonical CBOR") (require_canonical_cbor payload);
          frame_content_entry "content entry is over the envelope limit" secret header payload
    end.

Definition seal_op_bytes (key nonce op_bytes aad : bytes) : result AnyError bytes :=
  if bool_decide (length key ≠ 32%nat) then Err (Bail "content key has the wrong length")
  else ok_or (Bail "content AEAD sealing failed") (aead_seal key nonce aad op_bytes).

Definition sign_sealed_content_entry (secret : DeviceSecret) (header : ContentEntryHeader)
    (op_bytes key nonce : bytes) : result AnyError SignedContentEntry :=
  if bool_decide (CONTENT_ENVELOPE_MAX_BYTES <
                  Z.min (len op_bytes + Z.of_nat (SEALED_NONCE_LEN + SEALED_AEAD_TAG_LEN)) u64_max)
  then Err (Bail "sealed content payload exceeds the envelope limit")
  else
    _ ← map_err (Wrapped "sealed op payload is not canonical CBOR") (require_canonical_cbor op_bytes);
    let header := content_set_device header (fingerprint (secret_public secret)) in
    let header := content_set_suite header SEALED_CRYPTO_SUITE (content_key_id key) in
    match content_nullity_error header with
    | Some message => Err (Bail message)
    | None =>
        ciphertext ← seal_op_bytes key nonce op_bytes (encode_content_header header);
        frame_content_entry "sealed content entry is over the envelope limit" secret header (nonce ++ ciphertext)
    end.

Definition open_sealed_payload (key payload aad : bytes) : result AnyError bytes :=
  if bool_decide (len payload < Z.of_nat (SEALED_NONCE_LEN + SEALED_AEAD_TAG_LEN))
  then Err (Bail "sealed content payload is shorter than nonce + tag")
  else if bool_decide (length key ≠ 32%nat) then Err (Bail "content key has the wrong length")
  else ok_or (Bail "sealed payload AEAD open failed")
         (aead_open key (take SEALED_NONCE_LEN payload) aad (drop SEALED_NONCE_LEN payload)).

(** The reads of [decode_header]. *)
Definition decode_content_header_parts : Decoder ContentEntryHeader :=
  _ ← expect_array 13;
  _ ← expect_domain CONTENT_ENTRY_DOMAIN;
  stream_id ← d_fixed 32 "stream_id";
  author_account_id ← d_fixed 32 "author_account_id";
  device_fingerprint ← d_fixed 32 "device_fingerprint";
  seq ← d_u64;
  lamport ← d_u64;
  prev_hash ← decode_opt_hash "prev_hash";
  grant_id ← decode_opt_hash "grant_id";
  roster_ref ← d_fixed 32 "roster_ref";
  owner_auth_len ← d_u64;
  author_auth_len ← d_u64;
  crypto_suite ← d_u64;
  key_id ← decode_opt_hash "key_id";
  mret (mkContentEntryHeader stream_id author_account_id device_fingerprint seq lamport prev_hash
          grant_id roster_ref owner_auth_len author_auth_len crypto_suite key_id).

Definition decode_content_header (bs : bytes) : result CborError ContentEntryHeader :=
  _ ← require_canonical_cbor bs;
  header ← run decode_content_header_parts bs;
  match content_nullity_error header with
  | Some message => Err (Message message)
  | None => Ok header
  end.

Definition decode_content_body (body_bytes : bytes) : result CborError (ContentEntryHeader * bytes * bytes) :=
  _ ← require_canonical_cbor body_bytes;
  '(header_bytes, payload) ← run decode_account_body_parts body_bytes;
  header ← decode_content_header header_bytes;
  _ ← if bool_decide (ch_crypto_suite header = 0) then require_canonical_cbor payload else Ok tt;
  Ok (header, header_bytes, payload).

Definition decode_content_envelope_parts : Decoder (bytes * bytes) :=
  _ ← expect_array 3;
  _ ← expect_domain CONTENT_SIGNED_DOMAIN;
  body_bytes ← d_bytes;
  signature ← d_fixed 64 "signature";
  mret (body_bytes, signature).

Definition decode_content_signed_cbor (bs : bytes) : result CborError SignedContentEntry :=
  _ ← require_canonical_cbor bs;
  '(body_bytes, signature) ← run decode_content_envelope_parts bs;
  '(header, header_bytes, payload) ← decode_content_body body_bytes;
  Ok (mkSignedContentEntry header payload signature header_bytes body_bytes bs (sha256 body_bytes)).

Definition decode_content_signed (bs : bytes) : result AnyError SignedContentEntry :=
  if bool_decide (CONTENT_ENVELOPE_MAX_BYTES < len bs)
  then Err (Bail "content entry wire is over the envelope limit")
  else map_err (Wrapped "content entry decode failed") (decode_content_signed_cbor bs).

Definition verify_content_signed (bs : bytes) (public : DevicePublic) : result AnyError VerifiedContentEntry :=
  signed ← decode_content_signed bs;
  _ ← public_verify public (sc_body_bytes signed) (sc_signature signed);
  if bool_decide (fingerprint public ≠ ch_device_fingerprint (sc_header signed))
  then Err (Bail "device fingerprint does not match the verifying key")
  else Ok (mkVerifiedContentEntry (sc_header signed) (sc_payload signed) (sc_header_bytes signed)
             (sc_entry_hash signed)).
End ContentEnvelope.

(** ** Type invariants and items *)

Definition content_header_wf (h : ContentEntryHeader) : Prop :=
  hash_ok (ch_stream_id h) ∧ hash_ok (ch_author_account_id h) ∧ hash_ok (ch_device_fingerprint h) ∧
  0 ≤ ch_seq h ≤ u64_max ∧ 0 ≤ ch_lamport h ≤ u64_max ∧
  opt_ok hash_ok (ch_prev_hash h) ∧ opt_ok hash_ok (ch_grant_id h) ∧ hash_ok (ch_roster_ref h) ∧
  0 ≤ ch_owner_auth_len h ≤ u64_max ∧ 0 ≤ ch_author_auth_len h ≤ u64_max ∧ 0 ≤ ch_crypto_suite h ≤ u64_max ∧
  opt_ok hash_ok (ch_key_id h).

Definition content_header_item (h : ContentEntryHeader) : item :=
  Array [TextString CONTENT_ENTRY_DOMAIN; ByteString (ch_stream_id h); ByteString (ch_author_account_id h);
         ByteString (ch_device_fingerprint h); Uint (ch_seq h); Uint (ch_lamport h);
         opt_bytes_item (ch_prev_hash h); opt_bytes_item (ch_grant_id h); ByteString (ch_roster_ref h);
         Uint (ch_owner_auth_len h); Uint (ch_author_auth_len h); Uint (ch_crypto_suite h);
         opt_bytes_item (ch_key_id h)].

Section ContentCodec.
Context `{MinicborLaws}.

#[local] Hint Resolve reads_opt_hash : reads.
#[local] Hint Extern 2 (reads (d_fixed _ _) _ _) => (apply reads_fixed; [done|by apply hash_ok_len]) : reads.

Lemma reads_content_header h :
  content_header_wf h → reads decode_content_header_parts (encode_content_header h) h.
Proof.
  intros (? & ? & ? & ? & ? & ? & ? & ? & ? & ? & ? & ?). unfold decode_content_header_parts, encode_content_header.
  destruct h. simpl in *.
  eapply reads_bind; [apply reads_expect_array; unfold u64_max; lia|]. eapply reads_bind; [by apply reads_domain|].
  do 11 (eapply reads_bind; [by eauto with reads|]).
  eapply reads_bind_nil; [by eauto with reads|done].
Qed.

Lemma encode_content_header_ser h :
  content_header_wf h → encode_content_header h = ser (content_header_item h).
Proof.
  intros (? & ? & ? & ? & ? & ? & ? & ? & ? & ? & ? & ?). unfold encode_content_header, content_header_item.
  rewrite put_str_ser, !put_bytes_ser, !put_u64_ser, !encode_opt_hash_ser
    by first [solve [auto using hash_ok_len]|by vm_compute].
  etrans; [|apply put_array_ser; by vm_compute]. rewrite !fmap_cons.
  cbn [mjoin list_join fmap list_fmap]. by rewrite app_nil_r.
Qed.

Lemma content_header_canonical h :
  content_header_wf h → require_canonical_cbor (encode_content_header h) = Ok tt.
Proof.
  intros Hh. rewrite encode_content_header_ser by done. apply require_canonical_flat; [by vm_compute|].
  destruct Hh as (? & ? & ? & ? & ? & ? & ? & ? & ? & ? & ? & ?).
  repeat apply Forall_cons_2; try apply Forall_nil_2;
    first [by apply opt_item_flat|by apply bytes_flat, hash_ok_len|by apply text_flat|by apply uint_flat].
Qed.

Lemma decode_content_header_encode h :
  content_header_wf h → content_nullity_error h = None →
  decode_content_header (encode_content_header h) = Ok h.
Proof.
  intros Hh Hn. unfold decode_content_header. rewrite content_header_canonical by done. simpl.
  assert (run decode_content_header_parts (encode_content_header h) = Ok h) as ->.
  { apply run_Ok. exists []. rewrite <- (app_nil_r (encode_content_header h)). by apply reads_content_header. }
  simpl. by rewrite Hn.
Qed.

Lemma len_encode_content_header h : content_header_wf h → len (encode_content_header h) ≤ 1000.
Proof.
  intros Hh. rewrite encode_content_header_ser by done. unfold content_header_item. cbn [ser].
  destruct Hh as (? & ? & ? & ? & ? & ? & ? & ? & ? & ? & ? & ?). rewrite len_app.
  match goal with |- len (head 4 ?n) + len (mjoin (ser <$> ?l)) ≤ _ =>
    assert (len (mjoin (ser <$> l)) ≤ 41 * len l) as Hm; [apply len_mjoin_ser|] end.
  - repeat apply Forall_cons_2; try apply Forall_nil_2;
      first [by apply len_opt_item|by (etrans; [apply len_uint_item|])
            |apply (len_bytes_item _ 32); unfold len, hash_ok in *; lia|by vm_compute].
  - etrans; [apply Z.add_le_mono; [apply len_head|exact Hm]|]. by vm_compute.
Qed.
End ContentCodec.

(** The framing is the one of [entry.rs] and of the account body. *)
Lemma content_body_is_account_body `{Minicbor} : encode_content_body = encode_account_body.
Proof. done. Qed.
Lemma content_signed_is_signed `{Minicbor} : encode_content_signed = encode_signed.
Proof. done. Qed.
Lemma content_envelope_is_envelope `{Minicbor} : decode_content_envelope_parts = decode_envelope_parts.
Proof. done. Qed.

Section ContentDecoding.
Context `{MinicborLaws} `{Sha256}.

Definition payload_ok (h : ContentEntryHeader) (payload : bytes) : Prop :=
  ch_crypto_suite h = 0 → require_canonical_cbor payload = Ok tt.

Lemma decode_content_body_encode h payload :
  content_header_wf h → content_nullity_error h = None → len payload ≤ u64_max → payload_ok h payload →
  decode_content_body (encode_content_body (encode_content_header h) payload) =
  Ok (h, encode_content_header h, payload).
Proof.
  intros Hh Hn Hp Hpay. pose proof (len_encode_content_header h Hh).
  assert (len (encode_content_header h) ≤ u64_max) by (unfold u64_max; lia).
  unfold decode_content_body. rewrite content_body_is_account_body, account_body_canonical by done.
  pose proof (reads_account_body (encode_content_header h) payload ltac:(done) Hp []) as Hr.
  rewrite app_nil_r in Hr. unfold run. rewrite Hr. simpl. rewrite decode_content_header_encode by done. simpl.
  case_bool_decide as Hs; [|done]. by rewrite Hpay.
Qed.

Lemma decode_content_signed_encode h payload sig :
  content_header_wf h → content_nullity_error h = None → len payload ≤ u64_max → payload_ok h payload →
  length sig = 64%nat →
  let body := encode_content_body (encode_content_header h) payload in
  len body ≤ u64_max →
  decode_content_signed_cbor (encode_content_signed body sig) =
  Ok (mkSignedContentEntry h payload sig (encode_content_header h) body (encode_content_signed body sig)
        (sha256 body)).
Proof.
  intros Hh Hn Hp Hpay Hsig body Hb. assert (len sig ≤ u64_max) by (unfold len, u64_max; lia).
  pose proof (decode_content_body_encode h payload Hh Hn Hp Hpay) as Hbody. fold body in Hbody. clearbody body.
  unfold decode_content_signed_cbor. rewrite content_signed_is_signed, content_envelope_is_envelope.
  rewrite envelope_canonical, run_signed_envelope by done. simpl. by rewrite Hbody.
Qed.

Lemma decode_content_header_sound bs h :
  decode_content_header bs = Ok h →
  content_header_wf h ∧ content_nullity_error h = None ∧ bs = encode_content_header h.
Proof.
  unfold decode_content_header, decode_content_header_parts, decode_opt_hash. intros Hd. inv_ok.
  case_match; [done|]. inv_ok. inv_dec.
  match goal with H : expect_array _ _ = _ |- _ =>
    eapply canonical_array in H as (items & Hwf & Hl & -> & -> & _); [|by eauto using require_canonical_tt] end.
  split_len Hl. read_items.
  match goal with |- content_header_wf ?h ∧ _ => assert (content_header_wf h) by (repeat first [done|split]) end.
  split_and!; [done..|]. by rewrite encode_content_header_ser.
Qed.

Lemma decode_content_cbor_sound bs s :
  decode_content_signed_cbor bs = Ok s →
  content_header_wf (sc_header s) ∧ content_nullity_error (sc_header s) = None ∧
  payload_ok (sc_header s) (sc_payload s) ∧
  length (sc_signature s) = 64%nat ∧ sc_header_bytes s = encode_content_header (sc_header s) ∧
  sc_body_bytes s = encode_content_body (sc_header_bytes s) (sc_payload s) ∧
  len (sc_header_bytes s) ≤ u64_max ∧ len (sc_payload s) ≤ u64_max ∧ len (sc_body_bytes s) ≤ u64_max ∧
  sc_signed_bytes s = bs ∧ bs = encode_content_signed (sc_body_bytes s) (sc_signature s) ∧
  sc_entry_hash s = sha256 (sc_body_bytes s).
Proof.
  unfold decode_content_signed_cbor, decode_content_body. intros Hd. inv_ok. rewrite content_envelope_is_envelope in *.
  match goal with H : run decode_envelope_parts _ = _ |- _ => apply envelope_parts_sound in H as (? & ? & ?) end;
    [|by eauto using require_canonical_tt].
  match goal with H : run _ _ = _ |- _ => apply account_body_parts_sound in H as (? & ? & ?) end;
    [|by eauto using require_canonical_tt].
  match goal with H : decode_content_header _ = _ |- _ => apply decode_content_header_sound in H as (? & ? & ?) end.
  simpl in *. split_and!; try done. intros Hs. rewrite bool_decide_true in * by done.
  by eauto using require_canonical_tt.
Qed.

Lemma len_encode_content_body h payload :
  content_header_wf h → len payload ≤ isize_max →
  len (encode_content_body (encode_content_header h) payload) ≤ u64_max.
Proof.
  intros Hh. rewrite content_body_is_account_body. by apply len_encode_body_of, len_encode_content_header.
Qed.
End ContentDecoding.

(** ** Properties *)

Lemma content_set_device_wf h d : content_header_wf h → hash_ok d → content_header_wf (content_set_device h d).
Proof. unfold content_header_wf. destruct h. simpl. tauto. Qed.

Lemma content_set_suite_wf h suite k :
  content_header_wf h → 0 ≤ suite ≤ u64_max → hash_ok k → content_header_wf (content_set_suite h suite k).
Proof. unfold content_header_wf. destruct h. simpl. tauto. Qed.

(** What both authoring paths frame verifies under the signer's key. *)
Lemma frame_verifies `{MinicborLaws} `{Sha256} `{Ed25519} msg secret h payload s :
  frame_content_entry msg secret h payload = Ok s →
  content_header_wf h → content_nullity_error h = None → len payload ≤ isize_max → payload_ok h payload →
  ch_device_fingerprint h = fingerprint (secret_public secret) →
  sc_header s = h ∧ sc_payload s = payload ∧
  verify_content_signed (sc_signed_bytes s) (secret_public secret) =
  Ok (mkVerifiedContentEntry h payload (encode_content_header h) (sc_entry_hash s)).
Proof.
  intros Hf Hh Hn Hp Hpay Hfp. unfold frame_content_entry in Hf. case_bool_decide as Hlim; [done|].
  injection Hf as <-. simpl sc_header. simpl sc_payload. simpl sc_signed_bytes. simpl sc_entry_hash.
  split_and!; [done..|].
  unfold verify_content_signed, decode_content_signed. rewrite bool_decide_false by done. unfold isize_max in Hp.
  rewrite decode_content_signed_encode;
    [|done|done|unfold u64_max; lia|done|apply ed_sign_length|by apply len_encode_content_body].
  simpl. unfold public_verify, secret_sign. simpl. rewrite verify_sign. simpl.
  by rewrite bool_decide_false by (intros Hne; by apply Hne).
Qed.

(** Plaintext authoring round trip: an entry [sign_content_entry] returns has suite 0 and
    no key id, carries a canonical payload, names the signer's own device, and verifies under
    the signer's public key to that header and payload. *)
Theorem sign_content_entry_verifies `{MinicborLaws} `{Sha256} `{Ed25519} secret h payload s :
  content_header_wf h →
  sign_content_entry secret h payload = Ok s →
  sc_header s = content_set_device h (fingerprint (secret_public secret)) ∧
  ch_crypto_suite (sc_header s) = 0 ∧ ch_key_id (sc_header s) = None ∧
  require_canonical_cbor (sc_payload s) = Ok tt ∧ sc_payload s = payload ∧
  verify_content_signed (sc_signed_bytes s) (secret_public secret) =
  Ok (mkVerifiedContentEntry (sc_header s) payload (encode_content_header (sc_header s)) (sc_entry_hash s)).
Proof.
  intros Hh. unfold sign_content_entry. case_bool_decide as Hlen; [done|].
  assert (hash_ok (fingerprint (secret_public secret))) as Hfp by apply sha256_length.
  pose proof (content_set_device_wf h _ Hh Hfp) as Hwf. set (h' := content_set_device h _) in *.
  destruct (content_nullity_error h') as [m|] eqn:Hn; [done|].
  destruct (bool_decide (ch_crypto_suite h' ≠ 0)) eqn:Hs; [done|]. apply bool_decide_eq_false, dec_stable in Hs.
  destruct (require_canonical_cbor payload) as [[]|] eqn:Hc; [|done]. simpl. intros Hf.
  apply frame_verifies in Hf as (-> & -> & Hv);
    [|done|done|unfold CONTENT_ENVELOPE_MAX_BYTES, isize_max in *; lia|by intros _|done].
  split_and!; try done. unfold content_nullity_error in Hn. rewrite Hs in Hn.
  destruct (ch_key_id h'); [|done]. by repeat case_bool_decide.
Qed.

(** Sealed authoring round trip: an entry [sign_sealed_content_entry] returns verifies
    under the signer's public key with suite 1 and the key's id in its header, and opening the
    verified payload under the same key with the verified header bytes as associated data
    gives back the operation bytes. *)
Theorem sign_sealed_content_entry_opens `{MinicborLaws} `{Sha256} `{Ed25519} `{Hkdf} `{Aead}
    secret h op_bytes key nonce s :
  content_header_wf h → length nonce = SEALED_NONCE_LEN →
  sign_sealed_content_entry secret h op_bytes key nonce = Ok s →
  ∃ v, verify_content_signed (sc_signed_bytes s) (secret_public secret) = Ok v ∧
       ch_crypto_suite (vc_header v) = 1 ∧ ch_key_id (vc_header v) = Some (content_key_id key) ∧
       ch_device_fingerprint (vc_header v) = fingerprint (secret_public secret) ∧
       vc_header_bytes v = encode_content_header (vc_header v) ∧
       open_sealed_payload key (vc_payload v) (vc_header_bytes v) = Ok op_bytes.
Proof.
  intros Hh Hnonce. unfold sign_sealed_content_entry. case_bool_decide as Hlen; [done|].
  destruct (require_canonical_cbor op_bytes) as [[]|] eqn:Hc; [|done]. simpl map_err. simpl mbind.
  assert (hash_ok (fingerprint (secret_public secret))) as Hfp by apply sha256_length.
  assert (content_header_wf (content_set_suite (content_set_device h (fingerprint (secret_public secret)))
    SEALED_CRYPTO_SUITE (content_key_id key))) as Hwf.
  { apply content_set_suite_wf; [by apply content_set_device_wf|unfold SEALED_CRYPTO_SUITE, u64_max; lia|].
    apply content_key_id_length. }
  set (h' := content_set_suite _ _ _) in *. destruct (content_nullity_error h') as [m|] eqn:Hn; [done|].
  unfold seal_op_bytes. case_bool_decide as Hkey; [done|].
  destruct (aead_seal key nonce _ op_bytes) as [ct|] eqn:Hseal; [|done]. simpl. intros Hf.
  pose proof (aead_seal_length _ _ _ _ _ Hseal) as Hct. unfold SEALED_NONCE_LEN in Hnonce.
  apply frame_verifies in Hf as (_ & _ & Hv); [|done|done| | |done].
  - eexists. split; [exact Hv|]. cbn [vc_header vc_header_bytes vc_payload]. split_and!; [done..|].
    unfold open_sealed_payload. rewrite (bool_decide_false (length key ≠ _)) by (intros Hne; by apply Hne).
    rewrite bool_decide_false by (unfold len, SEALED_NONCE_LEN, SEALED_AEAD_TAG_LEN; rewrite length_app; lia).
    unfold SEALED_NONCE_LEN. rewrite take_app_length', drop_app_length' by done. by rewrite (aead_open_seal _ _ _ _ _ Hseal).
  - unfold len, isize_max, CONTENT_ENVELOPE_MAX_BYTES, u64_max in *. rewrite length_app. lia.
  - intros Hs. discriminate Hs.
Qed.

(** The steps of a successful verification. *)
Lemma verify_content_signed_steps `{Minicbor} `{Sha256} `{Ed25519} (bs : bytes) public v :
  verify_content_signed bs public = Ok v →
  ∃ s, decode_content_signed_cbor bs = Ok s ∧ len bs ≤ CONTENT_ENVELOPE_MAX_BYTES ∧
       v = mkVerifiedContentEntry (sc_header s) (sc_payload s) (sc_header_bytes s) (sc_entry_hash s) ∧
       verify_strict (dp_bytes public) (sc_body_bytes s) (sc_signature s) = true ∧
       ch_device_fingerprint (sc_header s) = fingerprint public.
Proof.
  unfold verify_content_signed, decode_content_signed, public_verify. intros Hv. inv_ok.
  destruct (bool_decide (_ < len bs)) eqn:Hlim; [done|]. apply bool_decide_eq_false in Hlim.
  destruct (decode_content_signed_cbor bs) as [s|] eqn:Hd; [|done].
  match goal with H : map_err _ _ = Ok _ |- _ => simpl in H; injection H as <- end.
  case_match eqn:Hver; [|done]. case_bool_decide as Hfp; inv_ok. exists s.
  split_and!; try done. lia.
Qed.

(** One content wire form: bytes that verify under a key are within the envelope limit
    and are exactly the canonical envelope, body and header encodings of the entry returned;
    the header obeys the nullity rules and names the key's device, a suite-0 payload is
    canonical, and the entry hash and the checked signature cover that body. *)
Theorem verify_content_signed_sound `{MinicborLaws} `{Sha256} `{Ed25519} (bs : bytes) public v :
  verify_content_signed bs public = Ok v →
  let body := encode_content_body (encode_content_header (vc_header v)) (vc_payload v) in
  ∃ signature,
    length signature = 64%nat ∧ bs = encode_content_signed body signature ∧
    len bs ≤ CONTENT_ENVELOPE_MAX_BYTES ∧
    content_header_wf (vc_header v) ∧ content_nullity_error (vc_header v) = None ∧
    payload_ok (vc_header v) (vc_payload v) ∧ vc_header_bytes v = encode_content_header (vc_header v) ∧
    ch_device_fingerprint (vc_header v) = fingerprint public ∧
    vc_entry_hash v = sha256 body ∧ verify_strict (dp_bytes public) body signature = true.
Proof.
  intros (s & Hd & Hlim & -> & Hver & Hfp)%verify_content_signed_steps. simpl.
  apply decode_content_cbor_sound in Hd as (? & ? & ? & ? & Hhb & Hb & _ & _ & _ & _ & Hbs & Hhash).
  rewrite Hhb in Hb. rewrite <- Hb. exists (sc_signature s). done.
Qed.

(** The wire generations do not overlap although they share the outer domain tag: no
    bytes decode both as a [/2] signed entry and as a [/3] content entry. *)
Theorem signed_generations_disjoint `{MinicborLaws} `{Sha256} (bs : bytes) e s :
  decode_signed_cbor bs = Ok e → decode_content_signed_cbor bs ≠ Ok s.
Proof.
  intros He Hs. apply decode_signed_sound in He as (Hp & Hsig & Hb & Hbl & _ & _ & Hbs).
  apply decode_content_cbor_sound in Hs as (_ & _ & _ & Hsig' & _ & Hb' & Hhl & Hpl & Hbl' & _ & Hbs' & _).
  rewrite Hbs in Hbs'. change encode_content_signed with encode_signed in Hbs'.
  rewrite !encode_signed_ser in Hbs' by (unfold len, u64_max in *; lia).
  apply ser_inj in Hbs'; [|apply envelope_item_wf; [done|unfold len, u64_max; lia]..].
  injection Hbs' as Heq _. rewrite Hb, Hb' in Heq.
  rewrite encode_body_ser, content_body_is_account_body, encode_account_body_ser in Heq by done.
  apply ser_inj in Heq; [done|by apply body_item_wf|].
  apply wf_array; [by vm_compute|]. repeat apply Forall_cons_2; try apply Forall_nil_2; by apply wf_bytes.
Qed.

(** ** Witnesses *)

Definition wit_content_header : ContentEntryHeader :=
  mkContentEntryHeader (replicate 32 x11) (replicate 32 x22) (replicate 32 x00) 0 9 None
    (Some (replicate 32 x33)) (replicate 32 x44) 5 7 0 None.
Definition wit_op_bytes : bytes := [x83; x01; x02; x03].
Definition wit_nonce : bytes := replicate 24 x0e.
Definition wit_key : bytes := replicate 32 x4b.
Definition wit_empty_content : SignedContentEntry := mkSignedContentEntry wit_content_header [] [] [] [] [] [].

Definition wit_plain : SignedContentEntry :=
  match sign_content_entry wit_secret wit_content_header wit_op_bytes with Ok s => s | Err _ => wit_empty_content end.
Definition wit_sealed : SignedContentEntry :=
  match sign_sealed_content_entry wit_secret wit_content_header wit_op_bytes wit_key wit_nonce with
  | Ok s => s | Err _ => wit_empty_content end.
Definition wit_content_verified : VerifiedContentEntry :=
  mkVerifiedContentEntry (sc_header wit_plain) wit_op_bytes (sc_header_bytes wit_plain) (sc_entry_hash wit_plain).

Lemma wit_content_wf : content_header_wf wit_content_header.
Proof. vm_compute. repeat split; discriminate. Qed.

Lemma sign_content_entry_verifies_witness : ch_crypto_suite (sc_header wit_plain) = 0.
Proof.
  apply (sign_content_entry_verifies wit_secret wit_content_header wit_op_bytes wit_plain);
    [exact wit_content_wf|by vm_compute].
Defined.

Lemma sign_sealed_content_entry_opens_witness :
  ∃ v, verify_content_signed (sc_signed_bytes wit_sealed) (secret_public wit_secret) = Ok v ∧
       open_sealed_payload wit_key (vc_payload v) (vc_header_bytes v) = Ok wit_op_bytes.
Proof.
  destruct (sign_sealed_content_entry_opens wit_secret wit_content_header wit_op_bytes wit_key wit_nonce wit_sealed)
    as (v & Hv & _ & _ & _ & _ & Ho); [exact wit_content_wf|reflexivity|by vm_compute|]. by exists v.
Defined.

Lemma verify_content_signed_sound_witness : content_nullity_error (vc_header wit_content_verified) = None.
Proof.
  destruct (verify_content_signed_sound (sc_signed_bytes wit_plain) (secret_public wit_secret) wit_content_verified)
    as (sig & _ & _ & _ & _ & Hn & _); [by vm_compute|exact Hn].
Defined.

Lemma signed_generations_disjoint_witness : decode_content_signed_cbor (se_signed_bytes wit_first) ≠ Ok wit_plain.
Proof. apply (signed_generations_disjoint _ wit_first). by vm_compute. Defined.
