(* ===== verification/Sealing.v ===== *)
(** * Sealing keys ([account/secrets/sealing.rs], [account/secrets/security_event.rs])

    Which content key a device seals a stream under, derived from the accepted key wraps on every
    read: the wraps of the greatest epoch, the smallest entry hash between equals, and the first
    wrap addressed to the device that opens to the signed key id.  What fails to open leaves local
    evidence and nothing else. *)

From S2P Require Import Prelude Cbor Minicbor Hash Op Device Entry Stream Branch Envelope Candidate AccountOps FoldTypes Snapshot AuthStore Keywrap SecretsOps ContentEnvelope.

Local Open Scope Z_scope.

(** ** Data *)

Record SelectedWrap : Type := mkSelectedWrap {
  se_key_id : KeyId;
  se_key_epoch : Z;
  se_minting_entry_hash : AccountEntryHash;
}.

Record LiveKeyEpoch : Type := mkLiveKeyEpoch {
  lk_stream_id : StreamId;
  lk_key_epoch : Z;
  lk_key_id : KeyId;
}.

#[export] Instance LiveKeyEpoch_eq_dec : EqDecision LiveKeyEpoch.
Proof. solve_decision. Defined.

Record LiveKeyTargets : Type := mkLiveKeyTargets {
  lt_required : list LiveKeyEpoch;
  lt_already_covered : list LiveKeyEpoch;
}.

Inductive SealingKeyOutcome : Type :=
| SealReady (key : ContentKey)
| NoCurrentKey
| SealNotRecipient
| FailedClosed.

Record WrapRecoveryFailure : Type := mkWrapRecoveryFailure {
  wf_entry_hash : AccountEntryHash;
  wf_observed_key_id : option KeyId;
}.

Inductive KeyRecovery : Type :=
| RecoveryReady (key : ContentKey)
| RecoveryNotRecipient
| RecoveryFailed (failures : list WrapRecoveryFailure).

Record AcceptedStreamWrap : Type := mkAcceptedStreamWrap {
  aw_entry_hash : AccountEntryHash;
  aw_wrap : StreamKeyWrap;
}.

Inductive AcceptedWrapDecodeMode : Type := Tolerant | StrictEvidence.

(** The identity a wrap is opened with. *)
Record Recipient : Type := mkRecipient {
  rc_fingerprint : DeviceFingerprint;
  rc_x25519_secret : DeviceX25519Secret;
  rc_x25519_public : DeviceX25519Public;
}.

Inductive SyncSecurityEventKind : Type := WrapKeyIdMismatch | WrapUnwrapFailed.

Definition event_as_db_str (k : SyncSecurityEventKind) : string :=
  match k with WrapKeyIdMismatch => "wrap_key_id_mismatch" | WrapUnwrapFailed => "wrap_unwrap_failed" end.
Definition event_from_db_str (value : string) : option SyncSecurityEventKind :=
  if bool_decide (value = "wrap_key_id_mismatch"%string) then Some WrapKeyIdMismatch
  else if bool_decide (value = "wrap_unwrap_failed"%string) then Some WrapUnwrapFailed
  else None.

Record SyncSecurityEvent : Type := mkSyncSecurityEvent {
  ev_kind : SyncSecurityEventKind;
  ev_account_id : AccountId;
  ev_stream_id : StreamId;
  ev_key_epoch : Z;
  ev_entry_hash : AccountEntryHash;
  ev_expected_key_id : option KeyId;
  ev_observed_key_id : option KeyId;
  ev_observed_at_ms : Z;
}.

(** A row of [sync_security_events] past its deduplication key. *)
Record EventRow : Type := mkEventRow {
  sy_account_id : bytes;
  sy_stream_id : bytes;
  sy_key_epoch : bytes;
  sy_expected_key_id : option bytes;
  sy_observed_key_id : option bytes;
  sy_observed_at_ms : Z;
}.

Abbreviation EventTable := (gmap (string * AccountEntryHash) EventRow).

(** The columns of [account_entries] and [content_entries] the queries name. *)
Record AccountEntryRow : Type := mkAccountEntryRow {
  ar_account_id : bytes;
  ar_log_id : Z;
  ar_accepted : Z;
  ar_signed_bytes : bytes;
}.
Record ContentEntryRow : Type := mkContentEntryRow {
  cn_stream_id : bytes;
  cn_accepted : Z;
  cn_signed_bytes : bytes;
}.

Record SealingDb : Type := mkSealingDb {
  sg_account : AccountDb;
  sg_entries : gmap bytes AccountEntryRow;
  sg_content : gmap bytes ContentEntryRow;
}.

(** ** The audit log *)

(** [INSERT OR IGNORE] on the unique key [(kind, entry_hash)]. *)
Definition record_sync_security_event (event : SyncSecurityEvent) (events : EventTable) : EventTable :=
  let key := (event_as_db_str (ev_kind event), ev_entry_hash event) in
  match events !! key with
  | Some _ => events
  | None =>
      <[key := mkEventRow (ev_account_id event) (ev_stream_id event) (be_bytes 8 (ev_key_epoch event))
                 (ev_expected_key_id event) (ev_observed_key_id event) (ev_observed_at_ms event)]> events
  end.

(** ** Selection *)

(** [Iterator::max_by]: the last of the greatest. *)
Definition max_by {A} (compare : A → A → comparison) (l : list A) : option A :=
  match l with
  | [] => None
  | x :: l => Some (foldl (fun best y => match compare best y with Gt => best | _ => y end) x l)
  end.

(** [Iterator::find_map]. *)
Fixpoint find_map {A B} (f : A → option B) (l : list A) : option B :=
  match l with
  | [] => None
  | a :: l => match f a with Some b => Some b | None => find_map f l end
  end.

Definition compare_selected (a b : SelectedWrap) : comparison :=
  match cmp (se_key_epoch a) (se_key_epoch b) with
  | Eq => cmp (se_minting_entry_hash b) (se_minting_entry_hash a)
  | c => c
  end.

Definition selected_of (w : AcceptedStreamWrap) : SelectedWrap :=
  mkSelectedWrap (sk_key_id (aw_wrap w)) (sk_key_epoch (aw_wrap w)) (aw_entry_hash w).

Definition select_from_wraps (wraps : list AcceptedStreamWrap) : option SelectedWrap :=
  max_by compare_selected (selected_of <$> wraps).

(** The accepted siblings of one [(epoch, key_id)]. *)
Definition in_group (key_epoch : Z) (key_id : KeyId) (w : AcceptedStreamWrap) : bool :=
  bool_decide (sk_key_epoch (aw_wrap w) = key_epoch) && bool_decide (sk_key_id (aw_wrap w) = key_id).

Section Sealing.
Context `{Minicbor} `{Sha256} `{Hkdf} `{X25519} `{Aead}.

(** ** Recovery *)

Definition my_wraps (wraps : list AcceptedStreamWrap) (key_epoch : Z) (key_id : KeyId) (fingerprint : DeviceFingerprint)
    : list (AccountEntryHash * SealedKeyWrap) :=
  List.filter (in_group key_epoch key_id) wraps ≫= fun accepted =>
    (fun entry => (aw_entry_hash accepted, we_sealed entry)) <$>
      filter (fun entry => we_recipient_fp entry = fingerprint) (sk_wraps (aw_wrap accepted)).

Fixpoint try_wraps (key_id : KeyId) (secret : DeviceX25519Secret) (ctx : WrapContext)
    (failures : list WrapRecoveryFailure) (l : list (AccountEntryHash * SealedKeyWrap)) : KeyRecovery :=
  match l with
  | [] => RecoveryFailed failures
  | (entry_hash, sealed) :: l =>
      match unwrap_content_key sealed secret ctx with
      | Err _ => try_wraps key_id secret ctx (failures ++ [mkWrapRecoveryFailure entry_hash None]) l
      | Ok recovered =>
          let observed_key_id := content_key_id recovered in
          if bool_decide (observed_key_id = key_id) then RecoveryReady recovered
          else try_wraps key_id secret ctx (failures ++ [mkWrapRecoveryFailure entry_hash (Some observed_key_id)]) l
      end
  end.

Definition recover_key (wraps : list AcceptedStreamWrap) (account_id : AccountId) (stream_id : StreamId) (key_epoch : Z)
    (key_id : KeyId) (recipient : Recipient) : KeyRecovery :=
  match my_wraps wraps key_epoch key_id (rc_fingerprint recipient) with
  | [] => RecoveryNotRecipient
  | l => try_wraps key_id (rc_x25519_secret recipient)
           (mkWrapContext account_id stream_id key_epoch (dx_bytes (rc_x25519_public recipient))) [] l
  end.

(** The live identity, then the retired ones, oldest first. *)
Definition recover_historical_key (wraps : list AcceptedStreamWrap) (account_id : AccountId) (stream_id : StreamId)
    (key_epoch : Z) (key_id : KeyId) (device : Recipient) (retired : list Recipient) : option ContentKey :=
  find_map (fun recipient =>
    match recover_key wraps account_id stream_id key_epoch key_id recipient with
    | RecoveryReady key => Some key
    | RecoveryNotRecipient | RecoveryFailed _ => None
    end) (device :: retired).

(** ** The accepted wraps of a stream *)

Definition skipped {A} (mode : AcceptedWrapDecodeMode) (message : string) : result AnyError (option A) :=
  match mode with Tolerant => Ok None | StrictEvidence => Err (Bail message) end.

Definition load_wrap (mode : AcceptedWrapDecodeMode) (stream_id : StreamId) (row : bytes * bytes)
    : result AnyError (option AcceptedStreamWrap) :=
  let '(entry_hash, signed_bytes) := row in
  if bool_decide (length entry_hash ≠ 32%nat) then skipped mode "stored accepted secrets entry_hash is not 32 bytes"
  else
    match decode_account_signed signed_bytes with
    | Err _ => skipped mode "stored accepted secrets envelope failed to decode"
    | Ok signed =>
        if bool_decide (sa_entry_hash signed ≠ entry_hash) then skipped mode "stored accepted secrets envelope does not match its entry_hash row"
        else
          match secrets_decode (ah_entry_type (sa_header signed)) (sa_payload signed) with
          | Ok (DecodedKeyWrap wrap) => Ok (if bool_decide (sk_stream_id wrap = stream_id) then Some (mkAcceptedStreamWrap entry_hash wrap) else None)
          | Ok _ => Ok None
          | Err _ => skipped mode "stored accepted secrets payload failed to decode"
          end
    end.

(** [WHERE account_id = .. AND log_id = .. AND accepted = 1 ORDER BY entry_hash]. *)
Definition accepted_secrets (account_id : AccountId) (db : SealingDb) : list (bytes * bytes) :=
  sort_by_key fst ((fun row => (row.1, ar_signed_bytes row.2)) <$>
    filter (fun row => ar_account_id row.2 = account_id ∧ ar_log_id row.2 = SECRETS_LOG ∧ ar_accepted row.2 = 1) (map_to_list (sg_entries db))).

Definition list_accepted_stream_key_wraps_with_mode (mode : AcceptedWrapDecodeMode) (account_id : AccountId)
    (stream_id : StreamId) (db : SealingDb) : result AnyError (list AcceptedStreamWrap) :=
  _ ← require_foldable_account_control (sg_account db) account_id;
  load_rows (load_wrap mode stream_id) (accepted_secrets account_id db).

Definition list_accepted_stream_key_wraps (account_id : AccountId) (stream_id : StreamId) (db : SealingDb)
    : result AnyError (list AcceptedStreamWrap) :=
  list_accepted_stream_key_wraps_with_mode Tolerant account_id stream_id db.


Definition select_current_sealing_wrap (account_id : AccountId) (stream_id : StreamId) (db : SealingDb)
    : result AnyError (option SelectedWrap) :=
  wraps ← list_accepted_stream_key_wraps account_id stream_id db; Ok (select_from_wraps wraps).

Definition stream_key_rotation_needed (account_id : AccountId) (stream_id : StreamId) (db : SealingDb) : result AnyError bool :=
  wraps ← list_accepted_stream_key_wraps account_id stream_id db;
  match select_from_wraps wraps with
  | None => Ok false
  | Some selected =>
      effective ← list_effective_roster_fingerprints (sg_account db) account_id;
      Ok (existsb (fun entry => bool_decide (we_recipient_fp entry ∉ effective))
            (List.filter (in_group (se_key_epoch selected) (se_key_id selected)) wraps ≫= fun w => sk_wraps (aw_wrap w)))
  end.

(** ** The key of the stream *)

Definition failure_event (account_id : AccountId) (stream_id : StreamId) (selected : SelectedWrap) (now_ms : Z)
    (failure : WrapRecoveryFailure) : SyncSecurityEvent :=
  mkSyncSecurityEvent (if bool_decide (is_Some (wf_observed_key_id failure)) then WrapKeyIdMismatch else WrapUnwrapFailed)
    account_id stream_id (se_key_epoch selected) (wf_entry_hash failure) (Some (se_key_id selected)) (wf_observed_key_id failure) now_ms.

Definition current_sealing_key (account_id : AccountId) (stream_id : StreamId) (device : Recipient) (now_ms : Z)
    (db : SealingDb) (events : EventTable) : result AnyError (SealingKeyOutcome * EventTable) :=
  wraps ← list_accepted_stream_key_wraps account_id stream_id db;
  match select_from_wraps wraps with
  | None => Ok (NoCurrentKey, events)
  | Some selected =>
      Ok match recover_key wraps account_id stream_id (se_key_epoch selected) (se_key_id selected) device with
         | RecoveryReady key => (SealReady key, events)
         | RecoveryNotRecipient => (SealNotRecipient, events)
         | RecoveryFailed failures =>
             (FailedClosed, foldl (fun events failure =>
                record_sync_security_event (failure_event account_id stream_id selected now_ms failure) events) events failures)
         end
  end.

(** [retired] is what [retired_identities] returned. *)
Definition push_group (groups : list (Z * KeyId)) (accepted : AcceptedStreamWrap) : list (Z * KeyId) :=
  let group := (sk_key_epoch (aw_wrap accepted), sk_key_id (aw_wrap accepted)) in
  if bool_decide (group ∈ groups) then groups else groups ++ [group].

Definition push_key (wraps : list AcceptedStreamWrap) (account_id : AccountId) (stream_id : StreamId) (device : Recipient)
    (retired : list Recipient) (keys : list (KeyId * ContentKey)) (group : Z * KeyId) : list (KeyId * ContentKey) :=
  if existsb (fun key => bool_decide (key.1 = group.2)) keys then keys
  else
    match recover_historical_key wraps account_id stream_id group.1 group.2 device retired with
    | Some key => keys ++ [(group.2, key)]
    | None => keys
    end.

Definition keyring_get (key_id : KeyId) (ring : list (KeyId * ContentKey)) : option ContentKey :=
  snd <$> List.find (fun key => bool_decide (key.1 = key_id)) ring.

Definition historical_content_keyring (account_id : AccountId) (stream_id : StreamId) (device : Recipient)
    (retired : result AnyError (list Recipient)) (db : SealingDb) : result AnyError (list (KeyId * ContentKey)) :=
  wraps ← list_accepted_stream_key_wraps account_id stream_id db;
  retired ← retired;
  Ok (foldl (push_key wraps account_id stream_id device retired) [] (foldl push_group [] wraps)).

Definition recover_exact_historical_content_key (account_id : AccountId) (live : LiveKeyEpoch) (device : Recipient)
    (retired : result AnyError (list Recipient)) (db : SealingDb) : result AnyError (option ContentKey) :=
  wraps ← list_accepted_stream_key_wraps account_id (lk_stream_id live) db;
  retired ← retired;
  Ok (recover_historical_key wraps account_id (lk_stream_id live) (lk_key_epoch live) (lk_key_id live) device retired).

(** ** Live keys *)

Definition accepted_content (stream_id : StreamId) (db : SealingDb) : list bytes :=
  (fun row => cn_signed_bytes row.2) <$>
    sort_by_key fst (filter (fun row => cn_stream_id row.2 = stream_id ∧ cn_accepted row.2 = 1) (map_to_list (sg_content db))).

(** The groups a content entry was sealed under. *)
Definition content_live (stream_id : StreamId) (wraps : list AcceptedStreamWrap) (signed_bytes : bytes) : result AnyError (list LiveKeyEpoch) :=
  signed ← map_err (fun _ => Bail "stored accepted /3 entry failed to decode while deriving live keys") (decode_content_signed signed_bytes);
  if bool_decide (ch_crypto_suite (sc_header signed) ≠ 1) then Ok []
  else
    key_id ← ok_or (Bail "accepted suite-1 /3 entry has no key_id while deriving live keys") (ch_key_id (sc_header signed));
    Ok ((fun w => mkLiveKeyEpoch stream_id (sk_key_epoch (aw_wrap w)) key_id) <$>
          filter (fun w => sk_key_id (aw_wrap w) = key_id) wraps).

Definition stream_live (account_id : AccountId) (db : SealingDb) (live : list LiveKeyEpoch) (stream_id : StreamId)
    : result AnyError (list LiveKeyEpoch) :=
  wraps ← list_accepted_stream_key_wraps account_id stream_id db;
  live ← fold_rows (fun live bs => more ← content_live stream_id wraps bs; Ok (live ++ more)) (accepted_content stream_id db) live;
  Ok match select_from_wraps wraps with
     | Some selected => live ++ [mkLiveKeyEpoch stream_id (se_key_epoch selected) (se_key_id selected)]
     | None => live
     end.

Definition require_owned (owned : list StreamId) (stream : StreamId) : result AnyError unit :=
  if bool_decide (stream ∈ owned) then Ok tt else Err (Bail "requested catch-up stream is not currently owned by the local account").

Definition live_key (key : LiveKeyEpoch) : bytes * (Z * bytes) := (lk_stream_id key, (lk_key_epoch key, lk_key_id key)).

Definition live_stream_key_epochs (account_id : AccountId) (streams : list StreamId) (db : SealingDb)
    : result AnyError (list LiveKeyEpoch) :=
  owned ← owned_stream_bytes (sg_account db) account_id;
  _ ← fold_rows (fun _ => require_owned owned) streams tt;
  live ← fold_rows (stream_live account_id db) streams [];
  Ok (dedup (sort_by_key live_key live)).

Definition covered_by (wraps : list AcceptedStreamWrap) (key : LiveKeyEpoch) (target : DeviceFingerprint) : bool :=
  existsb (fun entry => bool_decide (we_recipient_fp entry = target))
    (List.filter (in_group (lk_key_epoch key) (lk_key_id key)) wraps ≫= fun w => sk_wraps (aw_wrap w)).

Definition classify_target (account_id : AccountId) (target : DeviceFingerprint) (db : SealingDb) (targets : LiveKeyTargets)
    (key : LiveKeyEpoch) : result AnyError LiveKeyTargets :=
  wraps ← list_accepted_stream_key_wraps account_id (lk_stream_id key) db;
  Ok (if covered_by wraps key target then mkLiveKeyTargets (lt_required targets) (lt_already_covered targets ++ [key])
      else mkLiveKeyTargets (lt_required targets ++ [key]) (lt_already_covered targets)).

(** The loop of [live_stream_key_targets_for_device] over the live keys. *)
Definition classify_targets (account_id : AccountId) (target : DeviceFingerprint) (db : SealingDb) (live : list LiveKeyEpoch)
    : result AnyError LiveKeyTargets :=
  fold_rows (classify_target account_id target db) live (mkLiveKeyTargets [] []).

Definition require_recoverable (account_id : AccountId) (device : Recipient) (retired : result AnyError (list Recipient)) (db : SealingDb)
    (target : LiveKeyEpoch) : result AnyError unit :=
  key ← recover_exact_historical_content_key account_id target device retired db;
  if bool_decide (is_Some key) then Ok tt else Err (Bail "live content key is not recoverable for enrollment catch-up").

(** [device] is what [load_local_device] returned. *)
Definition recoverable_live_stream_key_target_count (account_id : AccountId) (streams : list StreamId)
    (device : result AnyError (option Recipient)) (retired : result AnyError (list Recipient)) (db : SealingDb) : result AnyError Z :=
  live ← live_stream_key_epochs account_id streams db;
  device ← device;
  device ← ok_or (Bail "cannot preflight enrollment key recovery without a local device") device;
  _ ← fold_rows (fun _ => require_recoverable account_id device retired db) live tt;
  Ok (len live).
End Sealing.

Lemma NoDup_keys_filter {K V} (P : K * V → Prop) `{!∀ x, Decision (P x)} (l : list (K * V)) : NoDup l.*1 → NoDup (filter P l).*1.
Proof.
  induction l as [|x l IH]; [done|]. rewrite fmap_cons. intros [Hx Hn]%NoDup_cons. rewrite filter_cons. case_decide; [|by apply IH].
  rewrite fmap_cons. apply NoDup_cons. split; [|by apply IH]. intros (y & Hy & [_ Hin]%list_elem_of_filter)%list_elem_of_fmap.
  apply Hx. rewrite Hy. by apply list_elem_of_fmap_2.
Qed.

(** ** Selection by maximum *)

Section MaxBy.
Context {A : Type} (compare : A → A → comparison).
Context (compare_opp : ∀ x y, compare y x = CompOpp (compare x y)).
Context (compare_trans : ∀ x y z, compare x y ≠ Gt → compare y z ≠ Gt → compare x z ≠ Gt).

Lemma max_by_spec l a : max_by compare l = Some a → a ∈ l ∧ ∀ b, b ∈ l → compare b a ≠ Gt.
Proof using All.
  destruct l as [|x l]; [done|]. simpl. intros [= <-].
  assert (∀ y, compare y y ≠ Gt) as Hrefl.
  { intros y Hy. pose proof (compare_opp y y) as Ho. by rewrite Hy in Ho. }
  revert x. induction l as [|y l IH]; intros x; simpl.
  { split; [by left|]. by intros b ->%list_elem_of_singleton. }
  set (best := match compare x y with Gt => x | _ => y end). destruct (IH best) as [Hin Hmax]. split.
  - apply elem_of_cons in Hin as [->|Hin]; [|by right; right]. subst best. destruct (compare x y); [by right; left..|by left].
  - assert (compare x best ≠ Gt ∧ compare y best ≠ Gt) as [Hx Hy].
    { subst best. pose proof (compare_opp x y) as Ho. destruct (compare x y) eqn:Hxy; simpl in Ho; by rewrite ?Hxy, ?Ho. }
    intros b [->|[->|Hb]%elem_of_cons]%elem_of_cons;
      [by eapply compare_trans; [exact Hx|apply Hmax; left]|by eapply compare_trans; [exact Hy|apply Hmax; left]|by apply Hmax; right].
Qed.

Lemma max_by_None l : max_by compare l = None ↔ l = [].
Proof using Type. by destruct l. Qed.
End MaxBy.

Lemma compare_selected_opp a b : compare_selected b a = CompOpp (compare_selected a b).
Proof.
  unfold compare_selected. rewrite (cmp_opp (se_key_epoch a) (se_key_epoch b)).
  destruct (cmp (se_key_epoch a) (se_key_epoch b)) eqn:He; simpl; [apply cmp_opp|done..].
Qed.

(** The order of selection. *)
Definition selected_le (a b : SelectedWrap) : Prop :=
  se_key_epoch a < se_key_epoch b ∨ (se_key_epoch a = se_key_epoch b ∧ cle (se_minting_entry_hash b) (se_minting_entry_hash a)).

Lemma compare_selected_le a b : compare_selected a b ≠ Gt ↔ selected_le a b.
Proof.
  unfold compare_selected, selected_le. destruct (cmp (se_key_epoch a) (se_key_epoch b)) eqn:He.
  - apply cmp_eq_iff in He. rewrite He. split; [intros Hc; right; by split|intros [?|[_ ?]]; [lia|done]].
  - apply (proj1 (clt_Z _ _)) in He. split; [by left|done].
  - split; [done|]. apply cmp_gt_lt, (proj1 (clt_Z _ _)) in He. intros [?|[? _]]; lia.
Qed.

Lemma compare_selected_trans a b c : compare_selected a b ≠ Gt → compare_selected b c ≠ Gt → compare_selected a c ≠ Gt.
Proof.
  rewrite !compare_selected_le. unfold selected_le. intros [?|[? H1]] [?|[? H2]]; [left; lia..|].
  right. split; [lia|]. by transitivity (se_minting_entry_hash b).
Qed.

(** With one wrap for an entry, the selection is the wrap of the greatest epoch and then of the
    smallest entry hash. *)
Lemma select_from_wraps_iff wraps s :
  NoDup (aw_entry_hash <$> wraps) →
  select_from_wraps wraps = Some s ↔ ∃ w, w ∈ wraps ∧ s = selected_of w ∧ ∀ w', w' ∈ wraps → selected_le (selected_of w') (selected_of w).
Proof.
  intros Hnd. assert (∀ s, select_from_wraps wraps = Some s →
    ∃ w, w ∈ wraps ∧ s = selected_of w ∧ ∀ w', w' ∈ wraps → selected_le (selected_of w') (selected_of w)) as Hmax.
  { intros s' [Hin Hmax]%(max_by_spec _ compare_selected_opp compare_selected_trans).
    apply list_elem_of_fmap in Hin as (w & -> & Hw). exists w. split_and!; [done|done|].
    intros w' Hw'. by apply compare_selected_le, Hmax, list_elem_of_fmap_2. }
  split; [apply Hmax|]. intros (w & Hw & -> & Hle). destruct (select_from_wraps wraps) as [s'|] eqn:Hs.
  - destruct (Hmax s' eq_refl) as (w' & Hw' & -> & Hle'). f_equal. f_equal.
    destruct (Hle w' Hw') as [?|[? ?]], (Hle' w Hw) as [?|[? ?]]; try lia.
    apply (NoDup_fmap_inj aw_entry_hash wraps); [done..|]. simpl in *. by apply (anti_symm cle).
  - apply max_by_None in Hs. apply fmap_nil_inv in Hs. subst. by apply not_elem_of_nil in Hw.
Qed.

Lemma select_from_wraps_None wraps : select_from_wraps wraps = None ↔ wraps = [].
Proof. unfold select_from_wraps. rewrite max_by_None. split; [apply fmap_nil_inv|by intros ->]. Qed.

(** ** The audit log keeps its evidence *)

Definition event_key (event : SyncSecurityEvent) : string * AccountEntryHash := (event_as_db_str (ev_kind event), ev_entry_hash event).

Lemma event_kind_roundtrip k : event_from_db_str (event_as_db_str k) = Some k.
Proof. by destruct k. Qed.

Lemma record_keeps event events : events ⊆ record_sync_security_event event events ∧ is_Some (record_sync_security_event event events !! event_key event).
Proof.
  unfold record_sync_security_event, event_key. simpl. destruct (events !! _) as [row|] eqn:Hk; [by split; [|eexists]|].
  split; [by apply insert_subseteq|by rewrite lookup_insert_eq; eexists].
Qed.

Lemma record_all_keeps {A} (event_of : A → SyncSecurityEvent) l events :
  let events' := foldl (fun events a => record_sync_security_event (event_of a) events) events l in
  events ⊆ events' ∧ (∀ a, a ∈ l → is_Some (events' !! event_key (event_of a))) ∧
  ∀ k, is_Some (events' !! k) → is_Some (events !! k) ∨ ∃ a, a ∈ l ∧ k = event_key (event_of a).
Proof.
  revert events. induction l as [|a l IH]; intros events; simpl.
  { split_and!; [done|by intros a ?%elem_of_nil|by left]. }
  destruct (record_keeps (event_of a) events) as [Hsub Hkey].
  destruct (IH (record_sync_security_event (event_of a) events)) as (Hsub' & Hkeys & Hnew). split_and!.
  - by etransitivity.
  - intros b [->|Hb]%elem_of_cons; [|auto]. destruct Hkey as [row Hrow]. exists row. by eapply lookup_weaken.
  - intros k Hk. destruct (Hnew k Hk) as [[row Hrow]|(b & Hb & ->)]; [|right; exists b; split; [by right|done]].
    unfold record_sync_security_event in Hrow. simpl in Hrow. destruct (events !! (event_as_db_str _, _)); [left; by eexists|].
    apply lookup_insert_Some in Hrow as [[<- _]|[_ ?]]; [right; exists a; split; [by left|done]|left; by eexists].
Qed.

(** ** Recovery *)

Section Recovery.
Context `{MinicborLaws} `{Sha256} `{Hkdf} `{X25519} `{Aead}.

(** What a wrap opens to. *)
Definition observed (secret : DeviceX25519Secret) (ctx : WrapContext) (p : AccountEntryHash * SealedKeyWrap) : option KeyId :=
  match unwrap_content_key p.2 secret ctx with Ok key => Some (content_key_id key) | Err _ => None end.

Definition opens_to (secret : DeviceX25519Secret) (ctx : WrapContext) (key_id : KeyId) (p : AccountEntryHash * SealedKeyWrap)
    (key : ContentKey) : Prop :=
  unwrap_content_key p.2 secret ctx = Ok key ∧ content_key_id key = key_id.

Lemma try_wraps_spec key_id secret ctx failures l :
  match try_wraps key_id secret ctx failures l with
  | RecoveryReady key => ∃ p, p ∈ l ∧ opens_to secret ctx key_id p key
  | RecoveryNotRecipient => False
  | RecoveryFailed failures' =>
      failures' = failures ++ ((fun p => mkWrapRecoveryFailure p.1 (observed secret ctx p)) <$> l) ∧
      ∀ p key, p ∈ l → ¬ opens_to secret ctx key_id p key
  end.
Proof using Type.
  revert failures. induction l as [|[h s] l IH]; intros failures; simpl.
  { rewrite app_nil_r. split; [done|]. by intros p key ?%elem_of_nil. }
  assert (∀ f, f = mkWrapRecoveryFailure h (observed secret ctx (h, s)) → (∀ key, ¬ opens_to secret ctx key_id (h, s) key) →
    match try_wraps key_id secret ctx (failures ++ [f]) l with
    | RecoveryReady key => ∃ p, p ∈ (h, s) :: l ∧ opens_to secret ctx key_id p key
    | RecoveryNotRecipient => False
    | RecoveryFailed failures' =>
        failures' = failures ++ mkWrapRecoveryFailure h (observed secret ctx (h, s)) ::
          ((fun p => mkWrapRecoveryFailure p.1 (observed secret ctx p)) <$> l) ∧
        ∀ p key, p ∈ (h, s) :: l → ¬ opens_to secret ctx key_id p key
    end) as Hnext.
  { intros f -> Hno. specialize (IH (failures ++ [mkWrapRecoveryFailure h (observed secret ctx (h, s))])).
    destruct (try_wraps _ _ _ _ l) as [key| |fs]; [|done|].
    - destruct IH as (p & Hp & Ho). exists p. split; [by right|done].
    - destruct IH as [-> IH]. rewrite <- app_assoc. split; [done|]. intros p key [->|Hp]%elem_of_cons; [apply Hno|by apply IH]. }
  destruct (unwrap_content_key s secret ctx) as [key|e] eqn:Hu.
  - case_bool_decide as Hk.
    + exists (h, s). split; [by left|by split].
    + apply Hnext; [unfold observed; simpl; by rewrite Hu|]. intros key' [Hu' ?]. simpl in Hu'. congruence.
  - apply Hnext; [unfold observed; simpl; by rewrite Hu|]. intros key' [Hu' _]. simpl in Hu'. congruence.
Qed.

Definition recipient_context (account_id : AccountId) (stream_id : StreamId) (key_epoch : Z) (recipient : Recipient) : WrapContext :=
  mkWrapContext account_id stream_id key_epoch (dx_bytes (rc_x25519_public recipient)).

(** A wrap of the group addressed to the recipient opens to the signed key id. *)
Definition recovers (wraps : list AcceptedStreamWrap) (account_id : AccountId) (stream_id : StreamId) (key_epoch : Z)
    (key_id : KeyId) (recipient : Recipient) (key : ContentKey) : Prop :=
  ∃ p, p ∈ my_wraps wraps key_epoch key_id (rc_fingerprint recipient) ∧
    opens_to (rc_x25519_secret recipient) (recipient_context account_id stream_id key_epoch recipient) key_id p key.

Lemma recover_key_spec wraps account_id stream_id key_epoch key_id recipient :
  let mine := my_wraps wraps key_epoch key_id (rc_fingerprint recipient) in
  match recover_key wraps account_id stream_id key_epoch key_id recipient with
  | RecoveryReady key => recovers wraps account_id stream_id key_epoch key_id recipient key
  | RecoveryNotRecipient => mine = []
  | RecoveryFailed failures =>
      mine ≠ [] ∧ (∀ key, ¬ recovers wraps account_id stream_id key_epoch key_id recipient key) ∧
      failures = (fun p => mkWrapRecoveryFailure p.1
        (observed (rc_x25519_secret recipient) (recipient_context account_id stream_id key_epoch recipient) p)) <$> mine
  end.
Proof using Type.
  intros mine. unfold recover_key. subst mine. destruct (my_wraps _ _ _ _) as [|p l] eqn:Hm; [done|].
  pose proof (try_wraps_spec key_id (rc_x25519_secret recipient) (recipient_context account_id stream_id key_epoch recipient) [] (p :: l)) as Ht.
  change (mkWrapContext account_id stream_id key_epoch (dx_bytes (rc_x25519_public recipient)))
    with (recipient_context account_id stream_id key_epoch recipient).
  destruct (try_wraps _ _ _ _ _) as [key| |fs]; [|done|].
  - destruct Ht as (q & Hq & Ho). exists q. by rewrite Hm.
  - destruct Ht as [-> Hno]. split_and!; [done| |done]. intros key (q & Hq & Ho). rewrite Hm in Hq. by apply (Hno q key).
Qed.

Lemma recover_key_complete wraps account_id stream_id key_epoch key_id recipient key :
  recovers wraps account_id stream_id key_epoch key_id recipient key →
  ∃ key', recover_key wraps account_id stream_id key_epoch key_id recipient = RecoveryReady key'.
Proof using Type.
  intros Hr. pose proof (recover_key_spec wraps account_id stream_id key_epoch key_id recipient) as Hs. simpl in Hs.
  destruct (recover_key _ _ _ _ _ _) as [key'| |fs]; [by exists key'| |].
  - destruct Hr as (p & Hp & _). rewrite Hs in Hp. by apply not_elem_of_nil in Hp.
  - destruct Hs as (_ & Hno & _). by destruct (Hno key).
Qed.

Lemma elem_of_my_wraps wraps key_epoch key_id fingerprint h s :
  (h, s) ∈ my_wraps wraps key_epoch key_id fingerprint ↔
  ∃ w e, w ∈ wraps ∧ sk_key_epoch (aw_wrap w) = key_epoch ∧ sk_key_id (aw_wrap w) = key_id ∧
    e ∈ sk_wraps (aw_wrap w) ∧ we_recipient_fp e = fingerprint ∧ h = aw_entry_hash w ∧ s = we_sealed e.
Proof using Type.
  unfold my_wraps. rewrite list_elem_of_bind. split.
  - intros (w & Hin & Hw). apply list_elem_of_fmap in Hin as (e & [= -> ->] & [Hf He]%list_elem_of_filter).
    apply elem_of_filter_bool in Hw as [Hg Hw]. apply andb_true_iff in Hg as [?%bool_decide_eq_true ?%bool_decide_eq_true].
    exists w, e. by split_and!.
  - intros (w & e & Hw & He & Hk & Hin & Hf & -> & ->). exists w. split.
    + apply list_elem_of_fmap. exists e. split; [done|]. by apply list_elem_of_filter.
    + apply elem_of_filter_bool. split; [|done]. unfold in_group. by rewrite !bool_decide_eq_true_2.
Qed.
End Recovery.

(** ** What a device seals under *)

Section Theorems.
Context `{MinicborLaws} `{Sha256} `{Hkdf} `{X25519} `{Aead}.





(** The wraps of the log, one for an entry. *)
Lemma listed_NoDup account_id stream_id db wraps :
  list_accepted_stream_key_wraps account_id stream_id db = Ok wraps → NoDup (aw_entry_hash <$> wraps).
Proof using Type.
  unfold list_accepted_stream_key_wraps, list_accepted_stream_key_wraps_with_mode. intros Hl. inv_ok.
  eapply (load_rows_NoDup (load_wrap Tolerant stream_id) fst aw_entry_hash); [|  |exact Hl].
  - intros [h bs] a. unfold load_wrap, skipped. simpl. intros Ha. repeat case_match; by simplify_eq.
  - unfold accepted_secrets. rewrite sort_by_key_perm, <- list_fmap_compose.
    apply (NoDup_keys_filter _ (map_to_list (sg_entries db))), NoDup_fst_map_to_list.
Qed.

Lemma current_key_wraps account_id stream_id device now_ms db events r :
  current_sealing_key account_id stream_id device now_ms db events = Ok r →
  ∃ wraps, list_accepted_stream_key_wraps account_id stream_id db = Ok wraps.
Proof using Type. unfold current_sealing_key. intros (wraps & Hw & _)%result_bind_Ok. by exists wraps. Qed.

(** What a device seals a stream under, outcome by outcome.  A key is returned exactly when a wrap
    at the selected epoch and key id, addressed to the device, opens to a key of that id; with no
    accepted wrap there is no key, with none addressed to the device it is not a recipient, and when
    every wrap addressed to it fails, the evidence of each failure is in the audit log.  The audit
    log never loses a row. *)
Theorem current_sealing_key_exact account_id stream_id device now_ms db events outcome events' wraps :
  list_accepted_stream_key_wraps account_id stream_id db = Ok wraps →
  current_sealing_key account_id stream_id device now_ms db events = Ok (outcome, events') →
  events ⊆ events' ∧
  match select_from_wraps wraps with
  | None => wraps = [] ∧ outcome = NoCurrentKey ∧ events' = events
  | Some s =>
      let mine := my_wraps wraps (se_key_epoch s) (se_key_id s) (rc_fingerprint device) in
      let key_of := recovers wraps account_id stream_id (se_key_epoch s) (se_key_id s) device in
      match outcome with
      | SealReady key => key_of key ∧ content_key_id key = se_key_id s ∧ events' = events
      | NoCurrentKey => False
      | SealNotRecipient => mine = [] ∧ events' = events
      | FailedClosed => mine ≠ [] ∧ (∀ key, ¬ key_of key) ∧
          ∀ h sealed, (h, sealed) ∈ mine →
            let seen := observed (rc_x25519_secret device) (recipient_context account_id stream_id (se_key_epoch s) device) (h, sealed) in
            is_Some (events' !! (event_as_db_str (if bool_decide (is_Some seen) then WrapKeyIdMismatch else WrapUnwrapFailed), h))
      end
  end.
Proof using Type.
  intros Hl. unfold current_sealing_key. rewrite Hl. cbn [mbind result_bind].
  destruct (select_from_wraps wraps) as [s|] eqn:Hs.
  2: { intros [= <- <-]. apply select_from_wraps_None in Hs. by split. }
  pose proof (recover_key_spec wraps account_id stream_id (se_key_epoch s) (se_key_id s) device) as Hr. simpl in Hr.
  destruct (recover_key _ _ _ _ _ _) as [key| |fs]; intros [= <- <-].
  - split; [done|]. simpl. split_and!; [done| |done]. by destruct Hr as (p & _ & _ & ?).
  - by split.
  - destruct Hr as (Hne & Hno & ->).
    destruct (record_all_keeps (failure_event account_id stream_id s now_ms)
      ((fun p => mkWrapRecoveryFailure p.1 (observed (rc_x25519_secret device) (recipient_context account_id stream_id (se_key_epoch s) device) p))
         <$> my_wraps wraps (se_key_epoch s) (se_key_id s) (rc_fingerprint device)) events) as (Hsub & Hkeys & _).
    split; [done|]. simpl. split_and!; [done|done|]. intros h sealed Hin.
    apply (Hkeys (mkWrapRecoveryFailure h (observed _ _ (h, sealed)))), list_elem_of_fmap. by exists (h, sealed).
Qed.

(** A device that the fan-out reached seals: when an accepted wrap of the selected group holds the
    key sealed to the device in the context of the stream, a key of the selected id is recovered,
    whatever else the group holds. *)
Theorem fan_out_recovers account_id stream_id device now_ms db events wraps s w e key ephemeral :
  list_accepted_stream_key_wraps account_id stream_id db = Ok wraps → select_from_wraps wraps = Some s →
  w ∈ wraps → in_group (se_key_epoch s) (se_key_id s) w = true → e ∈ sk_wraps (aw_wrap w) →
  we_recipient_fp e = rc_fingerprint device → rc_x25519_public device = x_secret_public (rc_x25519_secret device) →
  content_key_id key = se_key_id s →
  seal_with_ephemeral key (recipient_context account_id stream_id (se_key_epoch s) device) (rc_x25519_public device) ephemeral = Ok (we_sealed e) →
  ∃ key', current_sealing_key account_id stream_id device now_ms db events = Ok (SealReady key', events) ∧ content_key_id key' = se_key_id s.
Proof using Type.
  intros Hl Hs Hw Hg He Hf Hpub Hid Hseal. unfold current_sealing_key. rewrite Hl. cbn [mbind result_bind]. rewrite Hs.
  apply andb_true_iff in Hg as [Hge%bool_decide_eq_true Hgk%bool_decide_eq_true].
  destruct (recover_key_complete wraps account_id stream_id (se_key_epoch s) (se_key_id s) device key) as [key' Hr].
  { exists (aw_entry_hash w, we_sealed e). split; [apply elem_of_my_wraps; exists w, e; by split_and!|]. split; [|done].
    eapply sealed_opens; [exact Hseal|]. rewrite Hpub. apply x_public_canonical. }
  rewrite Hr. exists key'. split; [done|].
  pose proof (recover_key_spec wraps account_id stream_id (se_key_epoch s) (se_key_id s) device) as Hspec. rewrite Hr in Hspec.
  by destruct Hspec as (p & _ & _ & ?).
Qed.

(** *** Historical keys *)

Lemma find_map_Some {A B} (f : A → option B) l b : find_map f l = Some b → ∃ a, a ∈ l ∧ f a = Some b.
Proof using Type.
  induction l as [|a l IH]; simpl; [done|]. destruct (f a) as [b'|] eqn:Hf.
  - intros [= ->]. exists a. split; [by left|done].
  - intros (a' & Ha & Hb)%IH. exists a'. split; [by right|done].
Qed.

Lemma find_map_is_Some {A B} (f : A → option B) l a : a ∈ l → is_Some (f a) → is_Some (find_map f l).
Proof using Type.
  induction l as [|x l IH]; [by intros ?%elem_of_nil|]. simpl. intros [->|Ha]%elem_of_cons Hf.
  - by destruct (f x) as [b|] eqn:Hx; [eexists|destruct Hf].
  - destruct (f x); [by eexists|]. by apply IH.
Qed.

Lemma historical_key_spec wraps account_id stream_id key_epoch key_id device retired :
  (∀ key, recover_historical_key wraps account_id stream_id key_epoch key_id device retired = Some key →
     ∃ recipient, recipient ∈ device :: retired ∧ recovers wraps account_id stream_id key_epoch key_id recipient key) ∧
  (∀ recipient key, recipient ∈ device :: retired → recovers wraps account_id stream_id key_epoch key_id recipient key →
     is_Some (recover_historical_key wraps account_id stream_id key_epoch key_id device retired)).
Proof using Type.
  unfold recover_historical_key. split.
  - intros key (recipient & Hin & Hr)%find_map_Some. exists recipient. split; [done|].
    pose proof (recover_key_spec wraps account_id stream_id key_epoch key_id recipient) as Hs.
    destruct (recover_key _ _ _ _ _ _); by simplify_eq.
  - intros recipient key Hin (key' & Hr)%recover_key_complete. eapply find_map_is_Some; [done|]. rewrite Hr. by eexists.
Qed.

Lemma elem_of_groups wraps groups g :
  g ∈ foldl push_group groups wraps ↔ g ∈ groups ∨ ∃ w, w ∈ wraps ∧ g = (sk_key_epoch (aw_wrap w), sk_key_id (aw_wrap w)).
Proof using Type.
  revert groups. induction wraps as [|w wraps IH]; intros groups; simpl.
  { split; [by left|]. intros [?|(w & ?%elem_of_nil & _)]; done. }
  rewrite IH. unfold push_group. split.
  - intros [Hg|(w' & Hw & ->)]; [|right; exists w'; split; [by right|done]]. case_bool_decide; [by left|].
    apply elem_of_app in Hg as [?| ->%list_elem_of_singleton]; [by left|right; exists w; split; [by left|done]].
  - intros [Hg|(w' & [->|Hw]%elem_of_cons & ->)]; [left; case_bool_decide; [done|apply elem_of_app; by left]| |right; by exists w'].
    left. case_bool_decide; [done|]. apply elem_of_app. right. by apply list_elem_of_singleton.
Qed.

(** What the ring holds after some groups. *)
Definition ring_ok wraps account_id stream_id device retired (groups : list (Z * KeyId)) (ring : list (KeyId * ContentKey)) : Prop :=
  (∀ k key, (k, key) ∈ ring → ∃ e recipient, (e, k) ∈ groups ∧ recipient ∈ device :: retired ∧
     recovers wraps account_id stream_id e k recipient key) ∧
  (∀ e k recipient key, (e, k) ∈ groups → recipient ∈ device :: retired → recovers wraps account_id stream_id e k recipient key →
     k ∈ ring.*1).

Lemma push_key_ok wraps account_id stream_id device retired groups ring g :
  ring_ok wraps account_id stream_id device retired groups ring →
  ring_ok wraps account_id stream_id device retired (groups ++ [g]) (push_key wraps account_id stream_id device retired ring g).
Proof using Type.
  intros [Hsound Hcomplete]. destruct g as [e k]. unfold push_key. simpl.
  destruct (historical_key_spec wraps account_id stream_id e k device retired) as [Hs Hc].
  assert (∀ k' key, (k', key) ∈ ring → ∃ e' recipient, (e', k') ∈ groups ++ [(e, k)] ∧ recipient ∈ device :: retired ∧
    recovers wraps account_id stream_id e' k' recipient key) as Hs'.
  { intros k' key (e' & r & Hg & ? & ?)%Hsound. exists e', r. split_and!; [|done..]. apply elem_of_app. by left. }
  destruct (existsb _ ring) eqn:Hex.
  - apply existsb_exists in Hex as ([k0 key0] & Hin & Hk%bool_decide_eq_true). simpl in Hk. subst k0. apply list_elem_of_In in Hin.
    split; [done|]. intros e' k' r key [Hg|[= -> ->]%list_elem_of_singleton]%elem_of_app Hr Hrec; [by eapply Hcomplete|].
    by apply (list_elem_of_fmap_2 fst _ _ Hin).
  - destruct (recover_historical_key _ _ _ _ _ _ _) as [key0|] eqn:Hrk.
    + split.
      * intros k' key [?|[= -> ->]%list_elem_of_singleton]%elem_of_app; [by apply Hs'|].
        destruct (Hs key0 eq_refl) as (r & ? & ?). exists e, r. split_and!; [|done..]. apply elem_of_app. right. by apply list_elem_of_singleton.
      * intros e' k' r key [Hg|[= -> ->]%list_elem_of_singleton]%elem_of_app Hr Hrec; rewrite fmap_app; apply elem_of_app;
          [left; by eapply Hcomplete|right; by left].
    + split; [done|]. intros e' k' r key [Hg|[= -> ->]%list_elem_of_singleton]%elem_of_app Hr Hrec; [by eapply Hcomplete|].
      by destruct (Hc r key Hr Hrec).
Qed.

Lemma push_keys_ok wraps account_id stream_id device retired l groups ring :
  ring_ok wraps account_id stream_id device retired groups ring →
  ring_ok wraps account_id stream_id device retired (groups ++ l) (foldl (push_key wraps account_id stream_id device retired) ring l).
Proof using Type.
  revert groups ring. induction l as [|g l IH]; intros groups ring Hr; simpl; [by rewrite app_nil_r|].
  rewrite cons_middle, app_assoc. by apply IH, push_key_ok.
Qed.

(** The guard of the loop keeps the ids of the ring distinct. *)
Lemma push_keys_NoDup wraps account_id stream_id device retired l ring :
  NoDup ring.*1 → NoDup (foldl (push_key wraps account_id stream_id device retired) ring l).*1.
Proof using Type.
  revert ring. induction l as [|g l IH]; intros ring Hnd; simpl; [done|]. apply IH. unfold push_key.
  destruct (existsb _ ring) eqn:Hex; [done|]. destruct (recover_historical_key _ _ _ _ _ _ _) as [key|]; [|done].
  rewrite fmap_app. apply NoDup_app. split_and!; [done| |apply NoDup_singleton].
  intros k ([k' key'] & -> & Hin)%list_elem_of_fmap Hk. simpl in Hk. apply list_elem_of_singleton in Hk as ->. apply not_true_iff_false in Hex. apply Hex.
  apply existsb_exists. exists (g.2, key'). split; [by apply list_elem_of_In|]. by apply bool_decide_eq_true.
Qed.

Lemma keyring_get_iff k key ring : NoDup ring.*1 → keyring_get k ring = Some key ↔ (k, key) ∈ ring.
Proof using Type.
  intros Hnd. unfold keyring_get. split.
  - intros ([k' key'] & [Hin Hk%bool_decide_eq_true]%List.find_some & ->)%fmap_Some. simpl in *. subst k'. by apply list_elem_of_In.
  - intros Hin. destruct (List.find _ ring) as [[k' key']|] eqn:Hf.
    + apply List.find_some in Hf as [Hin' Hk%bool_decide_eq_true]. simpl in *. subst k'. apply list_elem_of_In in Hin'.
      by assert ((k, key) = (k, key')) as [= ->] by (by apply (NoDup_fmap_inj fst ring)).
    + apply list_elem_of_In in Hin. apply (List.find_none _ _ Hf) in Hin. simpl in Hin. by rewrite bool_decide_eq_true_2 in Hin.
Qed.

(** C30.  The historical keyring holds one key for each key id, and holds one under an id exactly when some
    accepted wrap of that id opens to it for the live identity or one the store retired; every key it
    holds has the id it is held under, and a lookup answers with the key of that id. *)
Theorem historical_keyring_exact account_id stream_id device retired db wraps ring :
  list_accepted_stream_key_wraps account_id stream_id db = Ok wraps →
  historical_content_keyring account_id stream_id device (Ok retired) db = Ok ring →
  NoDup ring.*1 ∧ ∀ k,
    (∀ key, keyring_get k ring = Some key ↔ (k, key) ∈ ring) ∧
    (∀ key, keyring_get k ring = Some key → content_key_id key = k ∧
       ∃ w recipient, w ∈ wraps ∧ sk_key_id (aw_wrap w) = k ∧ recipient ∈ device :: retired ∧
         recovers wraps account_id stream_id (sk_key_epoch (aw_wrap w)) k recipient key) ∧
    ((∃ w recipient key, w ∈ wraps ∧ sk_key_id (aw_wrap w) = k ∧ recipient ∈ device :: retired ∧
        recovers wraps account_id stream_id (sk_key_epoch (aw_wrap w)) k recipient key) → is_Some (keyring_get k ring)).
Proof using Type.
  intros Hl. unfold historical_content_keyring. rewrite Hl. cbn [mbind result_bind]. intros [= <-].
  assert (NoDup (foldl (push_key wraps account_id stream_id device retired) [] (foldl push_group [] wraps)).*1) as Hnd
    by apply push_keys_NoDup, NoDup_nil_2.
  split; [done|]. intros k. split; [intros key; by apply keyring_get_iff|].
  pose proof (push_keys_ok wraps account_id stream_id device retired (foldl push_group [] wraps) [] []) as [Hs Hc].
  { split; [by intros ? ? ?%elem_of_nil|by intros ? ? ? ? ?%elem_of_nil]. }
  unfold keyring_get. split.
  - intros key Hf. apply fmap_Some in Hf as ([k' key'] & [Hin Hk%bool_decide_eq_true]%List.find_some & ->). simpl in *. subst k'.
    apply list_elem_of_In in Hin. destruct (Hs k key' Hin) as (e & r & Hg & Hr & Hrec).
    apply elem_of_groups in Hg as [?%elem_of_nil|(w & Hw & [= -> ->])]; [done|]. split; [by destruct Hrec as (p & _ & _ & ?)|].
    exists w, r. by split_and!.
  - intros (w & r & key & Hw & <- & Hr & Hrec). apply fmap_is_Some.
    assert (sk_key_id (aw_wrap w) ∈ (foldl (push_key wraps account_id stream_id device retired) [] (foldl push_group [] wraps)).*1) as Hin.
    { eapply Hc; [|done|done]. apply elem_of_groups. right. by exists w. }
    apply list_elem_of_fmap in Hin as ([k' key'] & Hk & Hin). destruct (List.find _ _) as [x|] eqn:Hfind; [by eexists|].
    apply list_elem_of_In in Hin. apply (List.find_none _ _ Hfind) in Hin. simpl in *. by rewrite bool_decide_eq_true_2 in Hin.
Qed.

(** *** Rotation and live keys *)

(** The key of a stream is rotated exactly when a device that one of the current wraps names has no
    open enrollment any more; the answer depends on the log and the roster only. *)
Theorem rotation_needed_exact account_id stream_id db wraps roster :
  list_accepted_stream_key_wraps account_id stream_id db = Ok wraps →
  list_effective_roster_fingerprints (sg_account db) account_id = Ok roster →
  ∃ needed, stream_key_rotation_needed account_id stream_id db = Ok needed ∧
    (needed = true ↔ ∃ s w e, select_from_wraps wraps = Some s ∧ w ∈ wraps ∧ in_group (se_key_epoch s) (se_key_id s) w = true ∧
       e ∈ sk_wraps (aw_wrap w) ∧ we_recipient_fp e ∉ roster).
Proof using Type.
  intros Hl Hr. unfold stream_key_rotation_needed. rewrite Hl. cbn [mbind result_bind].
  destruct (select_from_wraps wraps) as [s|] eqn:Hs; [rewrite Hr|]; eexists; split; try done.
  - rewrite existsb_exists. split.
    + intros (e & Hin & Hn%bool_decide_eq_true). apply list_elem_of_In, list_elem_of_bind in Hin as (w & He & [Hg Hw]%elem_of_filter_bool).
      by exists s, w, e.
    + intros (s' & w & e & [= <-] & Hw & Hg & He & Hn). exists e. rewrite <- list_elem_of_In, list_elem_of_bind, bool_decide_eq_true.
      split; [|done]. exists w. split; [done|]. by apply elem_of_filter_bool.
  - split; [done|]. by intros (s & w & e & ? & _).
Qed.

(** A group is live on a stream when accepted sealed content names its key or it is selected. *)
Definition content_names (stream_id : StreamId) (wraps : list AcceptedStreamWrap) (k : LiveKeyEpoch) (bs : bytes) : Prop :=
  ∃ signed w, decode_content_signed bs = Ok signed ∧ ch_crypto_suite (sc_header signed) = 1 ∧
    ch_key_id (sc_header signed) = Some (lk_key_id k) ∧ w ∈ wraps ∧ sk_key_id (aw_wrap w) = lk_key_id k ∧
    k = mkLiveKeyEpoch stream_id (sk_key_epoch (aw_wrap w)) (lk_key_id k).
Definition live_on (account_id : AccountId) (db : SealingDb) (k : LiveKeyEpoch) (stream_id : StreamId) : Prop :=
  ∃ wraps, list_accepted_stream_key_wraps account_id stream_id db = Ok wraps ∧
    ((∃ bs, bs ∈ accepted_content stream_id db ∧ content_names stream_id wraps k bs) ∨
     ∃ s, select_from_wraps wraps = Some s ∧ k = mkLiveKeyEpoch stream_id (se_key_epoch s) (se_key_id s)).

Lemma content_live_spec stream_id wraps bs l : content_live stream_id wraps bs = Ok l → ∀ k, k ∈ l ↔ content_names stream_id wraps k bs.
Proof using Type.
  unfold content_live. intros (signed & Hd & Hrun)%result_bind_Ok k. destruct (decode_content_signed bs) as [sg|] eqn:Hdec; simpl in Hd; simplify_eq.
  unfold content_names. setoid_rewrite Hdec. case_bool_decide as Hsuite.
  { injection Hrun as <-. split; [by intros ?%elem_of_nil|]. by intros (s & w & [= <-] & ? & _). }
  apply result_bind_Ok in Hrun as (kid & Hk & [= <-]). destruct (ch_key_id (sc_header signed)) as [kid'|] eqn:Hkid; simpl in Hk; simplify_eq.
  rewrite list_elem_of_fmap. split.
  - intros (w & -> & [Hw Hin]%list_elem_of_filter). exists signed, w. by split_and!.
  - intros (s & w & [= <-] & _ & Hkk & Hw & Hwk & ->). rewrite Hkid in Hkk. simplify_eq/=. exists w. split; [by simplify_eq/=|].
    apply list_elem_of_filter. split; [by simplify_eq/=|done].
Qed.

(** A loop that appends collects what its steps produce. *)
Lemma fold_rows_collect {A B} (f : list B → A → result AnyError (list B)) (P : A → B → Prop) l s s' :
  (∀ s a s', a ∈ l → f s a = Ok s' → ∀ b, b ∈ s' ↔ b ∈ s ∨ P a b) → fold_rows f l s = Ok s' →
  ∀ b, b ∈ s' ↔ b ∈ s ∨ ∃ a, a ∈ l ∧ P a b.
Proof using Type.
  revert s. induction l as [|a l IH]; intros s Hf Hrun b; cbn [fold_rows] in Hrun.
  { injection Hrun as <-. split; [by left|]. intros [?|(a & ?%elem_of_nil & _)]; done. }
  apply result_bind_Ok in Hrun as (s1 & Hs1 & Hrun). rewrite (IH s1); [|intros; eapply Hf; [by right|done]|done].
  rewrite (Hf s a s1); [|by left|done]. split.
  - intros [[?|?]|(a' & ? & ?)]; [by left|right; exists a; split; [by left|done]|right; exists a'; split; [by right|done]].
  - intros [?|(a' & [->|?]%elem_of_cons & ?)]; [by left; left|by left; right|right; by exists a'].
Qed.

Lemma stream_live_spec account_id db live stream_id live' :
  stream_live account_id db live stream_id = Ok live' → ∀ k, k ∈ live' ↔ k ∈ live ∨ live_on account_id db k stream_id.
Proof using Type.
  unfold stream_live. intros (wraps & Hl & (l1 & Hc & [= <-])%result_bind_Ok)%result_bind_Ok k.
  assert (k ∈ l1 ↔ k ∈ live ∨ ∃ bs, bs ∈ accepted_content stream_id db ∧ content_names stream_id wraps k bs) as Hk.
  { eapply (fold_rows_collect _ (λ bs k, content_names stream_id wraps k bs)); [|exact Hc].
    intros s bs s' _ (more & Hm & [= <-])%result_bind_Ok b. rewrite elem_of_app. by rewrite (content_live_spec _ _ _ _ Hm b). }
  assert (live_on account_id db k stream_id ↔ (∃ bs, bs ∈ accepted_content stream_id db ∧ content_names stream_id wraps k bs) ∨
    ∃ s, select_from_wraps wraps = Some s ∧ k = mkLiveKeyEpoch stream_id (se_key_epoch s) (se_key_id s)) as ->.
  { unfold live_on. split; [|by exists wraps]. intros (w & Hw & Hx). assert (w = wraps) as -> by congruence. done. }
  destruct (select_from_wraps wraps) as [s|]; [rewrite elem_of_app, list_elem_of_singleton|]; rewrite Hk.
  - split; [intros [[?|?]| ->]; [by left|by right; left|right; right; by exists s]|].
    intros [?|[?|(s' & [= <-] & ->)]]; [by left; left|by left; right|by right].
  - split; [intros [?|?]; [by left|by right; left]|]. intros [?|[?|(s' & ? & _)]]; [by left|by right|done].
Qed.

Lemma dedup_fmap_inj {A B} `{EqDecision A, EqDecision B} (f : A → B) `{!Inj (=) (=) f} (l : list A) : f <$> dedup l = dedup (f <$> l).
Proof using Type.
  induction l as [|x [|y l] IH]; [done..|]. cbn [dedup fmap list_fmap] in *.
  destruct (decide (x = y)) as [->|Hne]; [rewrite decide_True by done; exact IH|]. rewrite decide_False by (intros ?%(inj f); done).
  cbn [fmap list_fmap]. by rewrite IH.
Qed.

#[local] Instance live_key_inj : Inj (=) (=) live_key.
Proof using Type. intros [] []. unfold live_key. simpl. by intros [= -> -> ->]. Qed.

(** The live keys of a set of owned streams: in order, without repetitions, and exactly the groups
    that accepted sealed content of a stream names or that are selected for it. *)
Theorem live_epochs_exact account_id streams db live :
  live_stream_key_epochs account_id streams db = Ok live →
  StronglySorted clt (live_key <$> live) ∧ (∀ k, k ∈ live ↔ ∃ stream_id, stream_id ∈ streams ∧ live_on account_id db k stream_id) ∧
  ∃ owned, owned_stream_bytes (sg_account db) account_id = Ok owned ∧ ∀ stream_id, stream_id ∈ streams → stream_id ∈ owned.
Proof using Type.
  unfold live_stream_key_epochs. intros (owned & Ho & ([] & Hreq & (raw & Hraw & [= <-])%result_bind_Ok)%result_bind_Ok)%result_bind_Ok.
  split_and!.
  - rewrite (dedup_fmap_inj live_key), fmap_sort_by_key. apply sort_dedup_strict.
  - intros k. rewrite elem_of_dedup, sort_by_key_perm.
    rewrite (fold_rows_collect (stream_live account_id db) (λ s k, live_on account_id db k s) streams [] raw); [|intros; by eapply stream_live_spec|done].
    split; [by intros [?%elem_of_nil|?]|by right].
  - exists owned. split; [done|]. clear -Hreq. revert Hreq. generalize tt at 1. induction streams as [|s streams IH]; intros u Hreq st Hin; [by apply elem_of_nil in Hin|].
    cbn [fold_rows] in Hreq. apply result_bind_Ok in Hreq as (u' & Hs & Hreq). unfold require_owned in Hs. case_bool_decide; [|done].
    apply elem_of_cons in Hin as [->|Hin]; [done|]. by eapply IH.
Qed.
End Theorems.

(** ** A stored wrap

    A stream key sealed to one device, another wrap of the same group that does not open, and the
    key the device seals under. *)

Definition sw_account : AccountId := replicate 32 x11.
Definition sw_stream : StreamId := replicate 32 x22.
Definition sw_recipient : Recipient := mkRecipient (replicate 32 x33) wit_device_seed wit_recipient.
Definition sw_key_id : KeyId := content_key_id wit_wrap_key.
Definition sw_broken : SealedKeyWrap := mkSealedKeyWrap (sw_ephemeral_pubkey wit_sealed_wrap) (replicate 48 x00).

Definition sw_entry (prev : option AccountEntryHash) (seq : Z) (sealed : SealedKeyWrap) : SignedAccountEntry :=
  let header := mkAccountEntryHeader sw_account SECRETS_LOG (replicate 32 x00) seq prev None STREAM_KEY_WRAP SUPPORTED_OP_VERSION 0 1 None
                  (Some (replicate 32 x44)) in
  match (payload ← secrets_encode (mkStreamKeyWrap sw_stream sw_key_id 3 [mkWrapEntry (rc_fingerprint sw_recipient) sealed]);
         map_err (fun _ => Message "") (sign_account_entry (mkDeviceSecret (replicate 32 x09)) header payload)) with
  | Ok s => s
  | Err _ => mkSignedAccountEntry header [] [] [] [] [] []
  end.
Definition sw_row (s : SignedAccountEntry) : bytes * AccountEntryRow :=
  (sa_entry_hash s, mkAccountEntryRow sw_account SECRETS_LOG 1 (sa_signed_bytes s)).
Definition sw_good : SignedAccountEntry := sw_entry None 0 wit_sealed_wrap.
Definition sw_bad : SignedAccountEntry := sw_entry None 0 sw_broken.
Definition sw_account_db : AccountDb :=
  mkAccountDb ∅ None false (mkAuthTables ∅ ∅ ∅ ∅ ∅ ∅ ∅) (mkTableSyncWork ∅ ∅ ∅).
Definition sw_db (entries : list SignedAccountEntry) : SealingDb := mkSealingDb sw_account_db (list_to_map (sw_row <$> entries)) ∅.
Definition sw_both : SealingDb := sw_db [sw_good; sw_bad].
Definition sw_wraps (db : SealingDb) : list AcceptedStreamWrap :=
  match list_accepted_stream_key_wraps sw_account sw_stream db with Ok l => l | Err _ => [] end.
Definition sw_selected (db : SealingDb) : SelectedWrap :=
  default (mkSelectedWrap [] 0 []) (select_from_wraps (sw_wraps db)).
Definition sw_events : EventTable :=
  match current_sealing_key sw_account sw_stream sw_recipient 5 (sw_db [sw_bad]) ∅ with Ok (_, events) => events | Err _ => ∅ end.

Lemma sw_lists : list_accepted_stream_key_wraps sw_account sw_stream sw_both = Ok (sw_wraps sw_both).
Proof. vm_compute. reflexivity. Qed.
Lemma sw_selects : select_from_wraps (sw_wraps sw_both) = Some (sw_selected sw_both).
Proof. vm_compute. reflexivity. Qed.
Lemma sw_bad_lists : list_accepted_stream_key_wraps sw_account sw_stream (sw_db [sw_bad]) = Ok (sw_wraps (sw_db [sw_bad])).
Proof. vm_compute. reflexivity. Qed.
Lemma sw_fails : current_sealing_key sw_account sw_stream sw_recipient 5 (sw_db [sw_bad]) ∅ = Ok (FailedClosed, sw_events).
Proof.
  assert (match current_sealing_key sw_account sw_stream sw_recipient 5 (sw_db [sw_bad]) ∅ with Ok (FailedClosed, _) => true | _ => false end = true)
    as Hf by (vm_compute; reflexivity).
  unfold sw_events. destruct (current_sealing_key _ _ _ _ _ _) as [[[] events]|]; done.
Qed.
Lemma sw_ring : historical_content_keyring sw_account sw_stream sw_recipient (Ok []) sw_both = Ok [(sw_key_id, wit_wrap_key)].
Proof. vm_compute. reflexivity. Qed.

(** The broken wrap alone: the device fails closed, with the evidence recorded. *)
Lemma current_sealing_key_exact_witness :
  ¬ recovers (sw_wraps (sw_db [sw_bad])) sw_account sw_stream (se_key_epoch (sw_selected (sw_db [sw_bad])))
      (se_key_id (sw_selected (sw_db [sw_bad]))) sw_recipient wit_wrap_key.
Proof.
  destruct (current_sealing_key_exact sw_account sw_stream sw_recipient 5 (sw_db [sw_bad]) ∅ FailedClosed sw_events
    (sw_wraps (sw_db [sw_bad])) sw_bad_lists sw_fails) as [_ Hs].
  assert (select_from_wraps (sw_wraps (sw_db [sw_bad])) = Some (sw_selected (sw_db [sw_bad]))) as Hsel by (vm_compute; reflexivity).
  rewrite Hsel in Hs. exact (proj1 (proj2 Hs) wit_wrap_key).
Defined.

(** Beside it, the wrap the fan-out sealed to the device is found. *)
Lemma fan_out_recovers_witness :
  ∃ key', current_sealing_key sw_account sw_stream sw_recipient 5 sw_both ∅ = Ok (SealReady key', ∅) ∧
    content_key_id key' = se_key_id (sw_selected sw_both).
Proof.
  apply (fan_out_recovers sw_account sw_stream sw_recipient 5 sw_both ∅ (sw_wraps sw_both) (sw_selected sw_both)
    (mkAcceptedStreamWrap (sa_entry_hash sw_good) (mkStreamKeyWrap sw_stream sw_key_id 3 [mkWrapEntry (rc_fingerprint sw_recipient) wit_sealed_wrap]))
    (mkWrapEntry (rc_fingerprint sw_recipient) wit_sealed_wrap) wit_wrap_key (replicate 32 x09)).
  - exact sw_lists.
  - exact sw_selects.
  - apply list_elem_of_lookup. exists 1%nat. vm_compute. reflexivity.
  - vm_compute. reflexivity.
  - apply list_elem_of_singleton. reflexivity.
  - reflexivity.
  - reflexivity.
  - vm_compute. reflexivity.
  - vm_compute. reflexivity.
Defined.

Lemma historical_keyring_exact_witness : content_key_id wit_wrap_key = sw_key_id.
Proof.
  destruct (historical_keyring_exact sw_account sw_stream sw_recipient [] sw_both (sw_wraps sw_both) _ sw_lists sw_ring) as [_ Hring].
  destruct (Hring sw_key_id) as (_ & Hk & _).
  apply (Hk wit_wrap_key). vm_compute. reflexivity.
Defined.

