(* ===== verification/Acceptance.v ===== *)
(** * Content candidates and the content acceptance predicate
    ([account/content/candidate.rs], [account/content/acceptance.rs])

    The content chain coordinate and its branch selection, and the pure predicate that decides
    an entry: authority citations, revocation boundaries, subject holds, the content graph and,
    last, freshness.  The [ancestry] argument of the predicate is a function, as in the source. *)

From S2P Require Import Prelude Cbor Minicbor Hash Op Device Entry Stream Branch Envelope Candidate AccountOps FoldTypes ContentEnvelope.

Local Open Scope Z_scope.

(** ** The content chain coordinate *)

Record ChainCoordinate : Type := mkChainCoordinate {
  co_stream_id : StreamId;
  co_author_account_id : AccountId;
  co_device_fingerprint : DeviceFingerprint;
}.

#[export] Instance ChainCoordinate_eq_dec : EqDecision ChainCoordinate.
Proof. solve_decision. Defined.
#[export] Program Instance ChainCoordinate_countable : Countable ChainCoordinate :=
  inj_countable' (fun c => (co_stream_id c, co_author_account_id c, co_device_fingerprint c))
    (fun '(s, a, d) => mkChainCoordinate s a d) _.
Next Obligation. by intros []. Qed.

Definition chain_coordinate_of (header : ContentEntryHeader) : ChainCoordinate :=
  mkChainCoordinate (ch_stream_id header) (ch_author_account_id header) (ch_device_fingerprint header).

#[export] Instance content_header_link : ChainLink ContentEntryHeader ChainCoordinate := {|
  coordinate := chain_coordinate_of;
  link_seq := ch_seq;
  link_prev_hash := ch_prev_hash;
|}.

Notation ContentView := (gmap AccountEntryHash ContentEntryHeader).

Definition content_ancestry (target watermark : AccountEntryHash) (view : ContentView) : option AncestryRelation :=
  ancestry_from target watermark view.

Definition content_validate_cut_target (seq : Z) (watermark : AccountEntryHash) (expected : ChainCoordinate)
    (view : ContentView) : CutBinding :=
  match view !! watermark with
  | None => TargetNotHeld
  | Some header =>
      if bool_decide (chain_coordinate_of header = expected) && bool_decide (ch_seq header = seq)
      then BindingOk else Mismatch
  end.

Definition content_select_accepted_branch (candidates : list (Candidate ContentEntryHeader))
    (eligible : gset AccountEntryHash) (pins : list (BranchPin ChainCoordinate)) (view : ContentView)
    : option BranchSelection :=
  select_accepted_branch candidates eligible (fun chain =>
    default ∅ (pinned_branch (S (size view)) chain pins
      (fun pin => bool_decide (content_validate_cut_target (bp_seq pin) (bp_watermark pin) chain view = BindingOk))
      (fun h => view !! h))).

(** ** Cited authority *)

Inductive SubjectAuthorityHold : Type := HoldClear | HoldContested.

Record CitedOwnership : Type := mkCitedOwnership {
  cw_owner_account_id : AccountId;
  cw_stream_id : StreamId;
}.

Record CitedRosterAuthority : Type := mkCitedRosterAuthority {
  cr_account_id : AccountId;
  cr_roster_ref : RosterRef;
  cr_stream_id : StreamId;
  cr_authority : RosterContentAuthority;
}.

Record CitedGrantAuthority : Type := mkCitedGrantAuthority {
  cg_owner_account_id : AccountId;
  cg_grant_id : GrantId;
  cg_authority : GrantDeviceAuthority;
}.

(** ** Verdicts *)

Inductive ContentParkReason : Type :=
| MissingPredecessor | UnknownOwner | UnknownRosterRef | UnknownGrant | OwnerAuthLenAhead | AuthorAuthLenAhead
| ParkIncompleteCutAncestry | ParkUnknownCutTarget | ContestedSubject | LamportAhead.

Inductive ContentCondemnReason : Type := BeyondCut | CondemnOffBranch | ClosedIncarnation.

Inductive ContentRejectReason : Type :=
| OwnerReferenceInvalid | RosterReferenceInvalid | GrantReferenceInvalid | GrantRequired | UnexpectedGrant
| GrantDoesNotPermitWrite | RoleForbidsAuthoring.

Inductive ContentAcceptanceInputError : Type := FreshnessProvenance.

Inductive ContentAcceptance : Type :=
| Accepted
| Forked
| Parked (r : ContentParkReason)
| Condemned (r : ContentCondemnReason)
| Rejected (r : ContentRejectReason).

Definition ContentAcceptance_as_db_str (a : ContentAcceptance) : string :=
  match a with
  | Accepted => "accepted"
  | Forked => "forked"
  | Parked MissingPredecessor => "parked{missing_predecessor}"
  | Parked UnknownOwner => "parked{unknown_account}"
  | Parked UnknownRosterRef => "parked{unknown_roster_ref}"
  | Parked UnknownGrant => "parked{unknown_grant}"
  | Parked OwnerAuthLenAhead | Parked AuthorAuthLenAhead => "parked{auth_len_ahead}"
  | Parked ParkIncompleteCutAncestry => "parked{incomplete_cut_ancestry}"
  | Parked ParkUnknownCutTarget => "parked{unknown_cut_target}"
  | Parked ContestedSubject => "parked{contested_subject}"
  | Parked LamportAhead => "parked{lamport_ahead}"
  | Condemned BeyondCut => "condemned{beyond_cut}"
  | Condemned CondemnOffBranch => "condemned{off_branch}"
  | Condemned ClosedIncarnation => "condemned{closed_incarnation}"
  | Rejected OwnerReferenceInvalid => "rejected{invalid_owner}"
  | Rejected RosterReferenceInvalid => "rejected{invalid_roster_ref}"
  | Rejected GrantReferenceInvalid => "rejected{invalid_grant}"
  | Rejected GrantRequired => "rejected{grant_required}"
  | Rejected UnexpectedGrant => "rejected{unexpected_grant}"
  | Rejected GrantDoesNotPermitWrite => "rejected{grant_not_writer}"
  | Rejected RoleForbidsAuthoring => "rejected{role_forbids_authoring}"
  end%string.

Record ContentAcceptanceInput : Type := mkContentAcceptanceInput {
  in_header : ContentEntryHeader;
  in_entry_hash : AccountEntryHash;
  in_owner_account_id : AccountId;
  in_dense_predecessor_reachable : bool;
  in_branch_selected : bool;
  in_ownership : AuthorityQuery CitedOwnership;
  in_roster : AuthorityQuery CitedRosterAuthority;
  in_grant : option (AuthorityQuery CitedGrantAuthority);
  in_owner_freshness : CitedFreshness;
  in_author_freshness : CitedFreshness;
  in_subject_hold : SubjectAuthorityHold;
  in_ancestry : AccountEntryHash → AccountEntryHash → AncestryRelation;
}.

(** ** The predicate *)

Definition invalid_citation (reason : AuthorityInvalidReason) (freshness : AuthorityFreshness)
    (reject : ContentRejectReason) (ahead : ContentParkReason) : ContentAcceptance :=
  match reason, freshness with
  | WrongSubject, _ | ReferencedEntryNotEffective, CurrentOrBehind => Rejected reject
  | ReferencedEntryNotEffective, Ahead => Parked ahead
  end.

Definition boundary_rank (seq : Z) (entry_hash : AccountEntryHash)
    (ancestry : AccountEntryHash → AccountEntryHash → AncestryRelation) (boundary : AuthorityBoundary) : Z :=
  match boundary with
  | BoundaryOpen => 0
  | BoundaryClosed => 5
  | BoundaryCut cut_seq hash =>
      if bool_decide (cut_seq < seq) then 3
      else match ancestry entry_hash hash with
           | OnBranch => 0
           | UnknownRelation IncompleteCutAncestry => 1
           | UnknownRelation UnknownCutTarget => 2
           | OffBranch => 4
           end
  end.

(** [None] of the outer option is [unreachable!]. *)
Definition rank_verdict (rank : Z) : option (option ContentAcceptance) :=
  match rank with
  | 0 => Some None
  | 1 => Some (Some (Parked ParkIncompleteCutAncestry))
  | 2 => Some (Some (Parked ParkUnknownCutTarget))
  | 3 => Some (Some (Condemned BeyondCut))
  | 4 => Some (Some (Condemned CondemnOffBranch))
  | 5 => Some (Some (Condemned ClosedIncarnation))
  | _ => None
  end.

Definition combine_boundaries (boundaries : list AuthorityBoundary) (seq : Z) (entry_hash : AccountEntryHash)
    (ancestry : AccountEntryHash → AccountEntryHash → AncestryRelation) : option (option ContentAcceptance) :=
  rank_verdict (foldl (fun rank b => Z.max rank (boundary_rank seq entry_hash ancestry b)) 0 boundaries).

Definition is_condemned (d : option ContentAcceptance) : bool :=
  match d with Some (Condemned _) => true | _ => false end.

Section Verdict.
Context (input : ContentAcceptanceInput).
Let header := in_header input.
Let owner_freshness := cf_state (in_owner_freshness input).
Let author_freshness := cf_state (in_author_freshness input).

(** An early [return Ok(Some(verdict))] of [authority_verdict] is an [Err verdict] of the steps
    below. *)
Definition freshness_provenance : bool :=
  bool_decide (cf_account_id (in_owner_freshness input) = in_owner_account_id input) &&
  bool_decide (cf_asserted_auth_len (in_owner_freshness input) = ch_owner_auth_len header) &&
  bool_decide (cf_account_id (in_author_freshness input) = ch_author_account_id header) &&
  bool_decide (cf_asserted_auth_len (in_author_freshness input) = ch_author_auth_len header).

Definition is_owner : bool := bool_decide (ch_author_account_id header = in_owner_account_id input).

Definition grant_coupling : result ContentAcceptance unit :=
  if is_owner && (bool_decide (is_Some (ch_grant_id header)) || bool_decide (is_Some (in_grant input)))
  then Err (Rejected UnexpectedGrant)
  else if negb is_owner && bool_decide (ch_grant_id header = None) then Err (Rejected GrantRequired)
  else Ok tt.

Definition ownership_check : result ContentAcceptance unit :=
  match in_ownership input with
  | Effective fact =>
      if bool_decide (cw_owner_account_id fact = in_owner_account_id input) &&
         bool_decide (cw_stream_id fact = ch_stream_id header)
      then Ok tt else Err (Rejected OwnerReferenceInvalid)
  | UnknownQuery => Err (Parked UnknownOwner)
  | Invalid reason => Err (invalid_citation reason owner_freshness OwnerReferenceInvalid OwnerAuthLenAhead)
  end.

Definition roster_check : result ContentAcceptance CitedRosterAuthority :=
  roster ← match in_roster input with
    | Effective fact =>
        if bool_decide (cr_account_id fact = ch_author_account_id header) &&
           bool_decide (cr_roster_ref fact = ch_roster_ref header) &&
           bool_decide (cr_stream_id fact = ch_stream_id header) &&
           bool_decide (ra_device_fingerprint (cr_authority fact) = ch_device_fingerprint header)
        then Ok fact else Err (Rejected RosterReferenceInvalid)
    | UnknownQuery => Err (Parked UnknownRosterRef)
    | Invalid reason => Err (invalid_citation reason author_freshness RosterReferenceInvalid AuthorAuthLenAhead)
    end;
  if negb (can_author_content (ra_role (cr_authority roster)))
  then Err (Rejected RoleForbidsAuthoring) else Ok roster.

Definition grant_check : result ContentAcceptance CitedGrantAuthority :=
  grant ← match in_grant input with
    | Some (Effective fact) =>
        if bool_decide (cg_owner_account_id fact = in_owner_account_id input) &&
           bool_decide (Some (cg_grant_id fact) = ch_grant_id header) &&
           bool_decide (ga_stream_id (gd_grant (cg_authority fact)) = ch_stream_id header) &&
           bool_decide (ga_grantee_account_id (gd_grant (cg_authority fact)) = ch_author_account_id header)
        then Ok fact else Err (Rejected GrantReferenceInvalid)
    | Some UnknownQuery | None => Err (Parked UnknownGrant)
    | Some (Invalid reason) => Err (invalid_citation reason owner_freshness GrantReferenceInvalid OwnerAuthLenAhead)
    end;
  if bool_decide (ga_role (gd_grant (cg_authority grant)) ≠ Writer)
  then Err (Rejected GrantDoesNotPermitWrite) else Ok grant.

Definition grant_boundary (grant : CitedGrantAuthority) : result ContentAcceptance AuthorityBoundary :=
  match gd_boundary (cg_authority grant) with
  | GrantOpen => Ok BoundaryOpen
  | GrantCut cut =>
      if bool_decide (dc_device_fingerprint cut = ch_device_fingerprint header)
      then Ok (BoundaryCut (dc_seq cut) (dc_hash cut)) else Err (Rejected GrantReferenceInvalid)
  | GrantClosed => Ok BoundaryClosed
  end.

(** The registers that bound an entry whose citations hold. *)
Definition cited_boundaries : result ContentAcceptance (list AuthorityBoundary) :=
  _ ← grant_coupling;
  _ ← ownership_check;
  roster ← roster_check;
  if is_owner then Ok [ra_boundary (cr_authority roster)]
  else
    grant ← grant_check;
    boundary ← grant_boundary grant;
    Ok [ra_boundary (cr_authority roster); boundary].

(** The outer [None] is a panic. *)
Definition authority_verdict : option (result ContentAcceptanceInputError (option ContentAcceptance)) :=
  if negb freshness_provenance then Some (Err FreshnessProvenance)
  else
    match cited_boundaries with
    | Err verdict => Some (Ok (Some verdict))
    | Ok boundaries =>
        boundary_decision ← combine_boundaries boundaries (ch_seq header) (in_entry_hash input) (in_ancestry input);
        Some (Ok (if is_condemned boundary_decision then boundary_decision
                  else match in_subject_hold input with
                       | HoldContested => Some (Parked ContestedSubject)
                       | HoldClear => boundary_decision
                       end))
    end.

Definition evaluate_content_acceptance : option (result ContentAcceptanceInputError ContentAcceptance) :=
  r ← authority_verdict;
  Some (verdict ← r;
        match verdict with
        | Some verdict => Ok verdict
        | None =>
            if negb (in_dense_predecessor_reachable input) then Ok (Parked MissingPredecessor)
            else if negb (in_branch_selected input) then Ok Forked
            else if bool_decide (owner_freshness = Ahead) then Ok (Parked OwnerAuthLenAhead)
            else if bool_decide (author_freshness = Ahead) then Ok (Parked AuthorAuthLenAhead)
            else Ok Accepted
        end).
End Verdict.

(** ** Specification: when citations hold, and what a boundary says *)

Definition ownership_holds (i : ContentAcceptanceInput) : Prop :=
  in_ownership i = Effective (mkCitedOwnership (in_owner_account_id i) (ch_stream_id (in_header i))).

(** The roster fact is about this author, reference, stream and device, and its role writes. *)
Definition roster_holds (i : ContentAcceptanceInput) (b : AuthorityBoundary) : Prop :=
  ∃ role, in_roster i = Effective (mkCitedRosterAuthority (ch_author_account_id (in_header i))
            (ch_roster_ref (in_header i)) (ch_stream_id (in_header i))
            (mkRosterContentAuthority (ch_device_fingerprint (in_header i)) role b)) ∧ role ≠ ReadOnly.

(** The boundary a grant puts on the author's device. *)
Inductive grant_bounds (device : DeviceFingerprint) : GrantDeviceBoundary → AuthorityBoundary → Prop :=
| grant_bounds_open : grant_bounds device GrantOpen BoundaryOpen
| grant_bounds_cut seq hash : grant_bounds device (GrantCut (mkDeviceCut device seq hash)) (BoundaryCut seq hash)
| grant_bounds_closed : grant_bounds device GrantClosed BoundaryClosed.

Definition grant_holds (i : ContentAcceptanceInput) (b : AuthorityBoundary) : Prop :=
  ∃ grant_id gb, ch_grant_id (in_header i) = Some grant_id ∧
    in_grant i = Some (Effective (mkCitedGrantAuthority (in_owner_account_id i) grant_id
      (mkGrantDeviceAuthority (mkGrantAuthority (ch_stream_id (in_header i)) (ch_author_account_id (in_header i)) Writer) gb))) ∧
    grant_bounds (ch_device_fingerprint (in_header i)) gb b.

(** The author is the stream's owner without a grant, or a contributor with a writer grant;
    [bs] are the registers that bound the entry. *)
Definition citations_hold (i : ContentAcceptanceInput) (bs : list AuthorityBoundary) : Prop :=
  ownership_holds i ∧ ∃ rb, roster_holds i rb ∧
  ((ch_author_account_id (in_header i) = in_owner_account_id i ∧ ch_grant_id (in_header i) = None ∧
    in_grant i = None ∧ bs = [rb]) ∨
   (ch_author_account_id (in_header i) ≠ in_owner_account_id i ∧ ∃ gb, grant_holds i gb ∧ bs = [rb; gb])).

Section BoundarySpec.
Context (seq : Z) (entry_hash : AccountEntryHash)
  (ancestry : AccountEntryHash → AccountEntryHash → AncestryRelation).

Definition boundary_admits (b : AuthorityBoundary) : Prop :=
  match b with
  | BoundaryOpen => True
  | BoundaryCut cut_seq hash => seq ≤ cut_seq ∧ ancestry entry_hash hash = OnBranch
  | BoundaryClosed => False
  end.

Definition boundary_condemns (b : AuthorityBoundary) : Prop :=
  match b with
  | BoundaryOpen => False
  | BoundaryCut cut_seq hash => cut_seq < seq ∨ ancestry entry_hash hash = OffBranch
  | BoundaryClosed => True
  end.

Notation rank := (boundary_rank seq entry_hash ancestry).
Notation top := (fun bs => foldl (fun r b => Z.max r (rank b)) 0 bs).

Lemma rank_range b : 0 ≤ rank b ≤ 5.
Proof. unfold boundary_rank. repeat case_match; lia. Qed.

Lemma rank_zero b : rank b = 0 ↔ boundary_admits b.
Proof.
  unfold boundary_rank, boundary_admits. destruct b; [done| |done].
  case_bool_decide as Hs; [split; [done|lia]|]. repeat case_match; split; intros Hr; try done.
  - split; [lia|done].
  - by destruct Hr.
  - by destruct Hr.
  - by destruct Hr.
Qed.

Lemma rank_condemns b : 3 ≤ rank b ↔ boundary_condemns b.
Proof.
  unfold boundary_rank, boundary_condemns. destruct b as [|s h|]; [lia| |lia].
  case_bool_decide as Hs; [split; [by left|lia]|].
  destruct (ancestry entry_hash h) as [| |[]].
  all: split; [intros Hr; first [lia|by right]|intros [Hr|Hr]; [lia|first [discriminate Hr|lia]]].
Qed.

Lemma foldl_max_spec (bs : list AuthorityBoundary) r :
  let m := foldl (fun r b => Z.max r (rank b)) r bs in
  r ≤ m ∧ (∀ b, b ∈ bs → rank b ≤ m) ∧ (m = r ∨ ∃ b, b ∈ bs ∧ m = rank b).
Proof.
  revert r. induction bs as [|b bs IH]; intros r; simpl.
  - split_and!; [lia|by intros ? []%elem_of_nil|by left].
  - destruct (IH (Z.max r (rank b))) as (Hle & Hall & Hex). split_and!.
    + lia.
    + intros b' [->|Hb']%elem_of_cons; [lia|by apply Hall].
    + destruct Hex as [->|(b' & Hb' & ->)].
      * destruct (Z.max_spec r (rank b)) as [[_ ->]|[_ ->]]; [|by left].
        right. exists b. split; [by left|done].
      * right. exists b'. split; [by right|done].
Qed.

Lemma top_range bs : 0 ≤ top bs ≤ 5.
Proof.
  destruct (foldl_max_spec bs 0) as (Hle & _ & [->|(b & _ & ->)]); [lia|]. pose proof (rank_range b). lia.
Qed.

Lemma rank_verdict_cases m :
  0 ≤ m ≤ 5 → ∃ d, rank_verdict m = Some d ∧ (d = None ↔ m = 0) ∧ (is_condemned d = true ↔ 3 ≤ m).
Proof.
  intros Hm. assert (m = 0 ∨ m = 1 ∨ m = 2 ∨ m = 3 ∨ m = 4 ∨ m = 5) as Hc by lia.
  destruct Hc as [->|[->|[->|[->|[->| ->]]]]]; eexists; (split; [reflexivity|]); split; split; done || lia.
Qed.

(** The highest rank says whether every register admits and whether one condemns. *)
Lemma top_zero bs : top bs = 0 ↔ Forall boundary_admits bs.
Proof.
  destruct (foldl_max_spec bs 0) as (Hle & Hall & Hex). rewrite Forall_forall. split.
  - intros H0 b Hb. apply rank_zero. specialize (Hall b Hb). pose proof (rank_range b). lia.
  - intros Hadm. destruct Hex as [->|(b & Hb & ->)]; [done|]. by apply rank_zero, Hadm.
Qed.

Lemma top_condemns bs : 3 ≤ top bs ↔ Exists boundary_condemns bs.
Proof.
  destruct (foldl_max_spec bs 0) as (Hle & Hall & Hex). rewrite Exists_exists. split.
  - intros H3. destruct Hex as [Heq|(b & Hb & Heq)]; [lia|]. exists b. split; [done|]. apply rank_condemns. lia.
  - intros (b & Hb & Hcb). apply rank_condemns in Hcb. specialize (Hall b Hb). lia.
Qed.

(** What [combine_boundaries] returns. *)
Lemma combine_spec bs :
  ∃ d, combine_boundaries bs seq entry_hash ancestry = Some d ∧
    (d = None ↔ Forall boundary_admits bs) ∧ (is_condemned d = true ↔ Exists boundary_condemns bs).
Proof.
  destruct (rank_verdict_cases _ (top_range bs)) as (d & Hd & Hn & Hc). exists d. split; [exact Hd|].
  by rewrite Hn, Hc, top_zero, top_condemns.
Qed.

Lemma combine_same_set bs bs' :
  (∀ b, b ∈ bs ↔ b ∈ bs') →
  combine_boundaries bs seq entry_hash ancestry = combine_boundaries bs' seq entry_hash ancestry.
Proof.
  intros Hp. unfold combine_boundaries. f_equal.
  destruct (foldl_max_spec bs 0) as (Hle & Hall & Hex), (foldl_max_spec bs' 0) as (Hle' & Hall' & Hex').
  apply Z.le_antisymm.
  - destruct Hex as [->|(b & Hb & ->)]; [done|]. by apply Hall', Hp.
  - destruct Hex' as [->|(b & Hb & ->)]; [done|]. by apply Hall, Hp.
Qed.
End BoundarySpec.

(** ** The checks implement the specification *)

Lemma ownership_check_iff i : ownership_check i = Ok tt ↔ ownership_holds i.
Proof.
  unfold ownership_check, ownership_holds. destruct (in_ownership i) as [[o s]| |]; simpl; [|done|done].
  case_match eqn:Hb.
  - apply andb_true_iff in Hb as [->%bool_decide_eq_true ->%bool_decide_eq_true]. done.
  - split; [done|]. intros [= -> ->]. by rewrite !bool_decide_true in Hb by done.
Qed.

Lemma roster_check_iff i b :
  (∃ r, roster_check i = Ok r ∧ ra_boundary (cr_authority r) = b) ↔ roster_holds i b.
Proof.
  unfold roster_check, roster_holds. split.
  - intros (r & Hr & <-). inv_ok. destruct (in_roster i) as [[a rr s [d role rb]]| |]; simpl in *; [|done|done].
    match goal with H : (if ?c && _ then _ else _) = Ok _ |- _ => destruct (c && _) eqn:Hb in H; [|done] end.
    inv_ok. simpl in *. repeat apply andb_true_iff in Hb as [Hb ?]. rewrite !bool_decide_eq_true in *. subst.
    destruct (can_author_content role) eqn:Hrole; [|done]. simpl in Hr. inv_ok. exists role. split; [done|]. by intros ->.
  - intros (role & -> & Hrole). simpl. rewrite !bool_decide_true by done. simpl.
    eexists. split; [by destruct role|done].
Qed.

Lemma grant_boundary_iff i g b :
  grant_boundary i g = Ok b ↔ grant_bounds (ch_device_fingerprint (in_header i)) (gd_boundary (cg_authority g)) b.
Proof.
  unfold grant_boundary. destruct (gd_boundary (cg_authority g)) as [|[d s h]|]; simpl.
  - split; [intros [= <-]; constructor|by inversion 1].
  - case_bool_decide as Hd; subst; [split; [intros [= <-]; constructor|by inversion 1]|].
    split; [done|]. by inversion 1.
  - split; [intros [= <-]; constructor|by inversion 1].
Qed.

Lemma grant_check_iff i b :
  is_Some (ch_grant_id (in_header i)) →
  (∃ g, grant_check i = Ok g ∧ grant_boundary i g = Ok b) ↔ grant_holds i b.
Proof.
  intros [grant_id Hid]. unfold grant_check, grant_holds. rewrite Hid. split.
  - intros (g & Hg & Hb). apply grant_boundary_iff in Hb. inv_ok.
    destruct (in_grant i) as [[[o gid [[s a role] gb]]| |]|]; simpl in *; try done.
    match goal with H : (if ?c && _ then _ else _) = Ok _ |- _ => destruct (c && _) eqn:Hc in H; [|done] end. inv_ok. simpl in *.
    repeat apply andb_true_iff in Hc as [Hc ?]. rewrite !bool_decide_eq_true in *. simplify_eq.
    case_bool_decide as Hr; [done|]. inv_ok. simpl in *. subst. eauto 6.
  - intros (gid & gb & [= ->] & -> & Hb). simpl. rewrite !bool_decide_true by done. simpl.
    eexists. split; [done|]. by apply grant_boundary_iff.
Qed.

Lemma cited_boundaries_iff i bs : cited_boundaries i = Ok bs ↔ citations_hold i bs.
Proof.
  unfold cited_boundaries, citations_hold, grant_coupling, is_owner.
  destruct (decide (ch_author_account_id (in_header i) = in_owner_account_id i)) as [Ho|Ho].
  - rewrite (bool_decide_true (_ = _)) by done. simpl.
    destruct (ch_grant_id (in_header i)) eqn:Hid; [naive_solver|]. simpl.
    destruct (in_grant i) eqn:Hg; [naive_solver|]. simpl. split.
    + intros Hb. inv_ok. destruct x. split; [by apply ownership_check_iff|].
      eexists. split; [by apply roster_check_iff; eauto|]. naive_solver.
    + intros (Hown & rb & Hr & [(_ & _ & _ & ->)|[? _]]); [|done].
      apply ownership_check_iff in Hown. apply roster_check_iff in Hr as (r & Hr & <-).
      by rewrite Hown, Hr.
  - rewrite (bool_decide_false (_ = in_owner_account_id i)) by done. simpl.
    destruct (ch_grant_id (in_header i)) as [gid|] eqn:Hid; simpl.
    2: { split; [done|]. intros (_ & rb & _ & [[? _]|(_ & gb & (gid & _ & ? & _) & _)]); congruence. }
    split.
    + intros Hb. inv_ok. destruct x. split; [by apply ownership_check_iff|].
      eexists. split; [by apply roster_check_iff; eauto|]. right. split; [done|]. eexists. split; [|done].
      apply grant_check_iff; eauto.
    + intros (Hown & rb & Hr & [[? _]|(_ & gb & Hg & ->)]); [done|].
      apply ownership_check_iff in Hown. apply roster_check_iff in Hr as (r & Hr & <-).
      apply grant_check_iff in Hg as (g & Hg & Hgb); [|by eauto]. rewrite Hown, Hr. simpl. rewrite Hg. simpl. by rewrite Hgb.
Qed.

(** How [authority_verdict] answers once the citations hold. *)
Lemma authority_verdict_cited i bs :
  freshness_provenance i = true → citations_hold i bs →
  ∃ d, combine_boundaries bs (ch_seq (in_header i)) (in_entry_hash i) (in_ancestry i) = Some d ∧
  authority_verdict i =
    Some (Ok (if is_condemned d then d
              else match in_subject_hold i with HoldContested => Some (Parked ContestedSubject) | HoldClear => d end)).
Proof.
  intros Hp Hc%cited_boundaries_iff. unfold authority_verdict. rewrite Hp, Hc. simpl.
  destruct (combine_spec (ch_seq (in_header i)) (in_entry_hash i) (in_ancestry i) bs) as (d & Hd & _).
  exists d. split; [done|]. by rewrite Hd.
Qed.

(** ** Properties *)

Definition registers_admit (i : ContentAcceptanceInput) : list AuthorityBoundary → Prop :=
  Forall (boundary_admits (ch_seq (in_header i)) (in_entry_hash i) (in_ancestry i)).
Definition register_condemns (i : ContentAcceptanceInput) : list AuthorityBoundary → Prop :=
  Exists (boundary_condemns (ch_seq (in_header i)) (in_entry_hash i) (in_ancestry i)).

(** No citation error is a condemnation or an acceptance. *)
Lemma invalid_citation_soft reason f rej ahead :
  invalid_citation reason f rej ahead = Rejected rej ∨ invalid_citation reason f rej ahead = Parked ahead.
Proof. destruct reason, f; auto. Qed.

Definition soft (v : ContentAcceptance) : Prop :=
  match v with Parked _ | Rejected _ => True | _ => False end.

Lemma cited_boundaries_soft i v : cited_boundaries i = Err v → soft v.
Proof.
  assert (∀ reason f rej ahead, soft (invalid_citation reason f rej ahead)) as Hinv by (by intros [] []).
  unfold cited_boundaries. intros Hb.
  destruct (grant_coupling i) as [[]|v1] eqn:H1; simpl in Hb.
  2: { simplify_eq. unfold grant_coupling in H1. by repeat case_match; simplify_eq. }
  destruct (ownership_check i) as [[]|v2] eqn:H2; simpl in Hb.
  2: { simplify_eq. unfold ownership_check in H2. by repeat case_match; simplify_eq. }
  destruct (roster_check i) as [r|v3] eqn:H3; simpl in Hb.
  2: { simplify_eq. unfold roster_check in H3. repeat (case_match; simpl in H3; simplify_eq; try done). }
  destruct (is_owner i); [done|]. destruct (grant_check i) as [g|v4] eqn:H4; simpl in Hb.
  2: { simplify_eq. unfold grant_check in H4. repeat (case_match; simpl in H4; simplify_eq; try done). }
  destruct (grant_boundary i g) as [gb|v5] eqn:H5; simpl in Hb; [done|]. simplify_eq.
  unfold grant_boundary in H5. by repeat case_match; simplify_eq.
Qed.

Lemma evaluate_cases i :
  (freshness_provenance i = false ∧ evaluate_content_acceptance i = Some (Err FreshnessProvenance)) ∨
  (freshness_provenance i = true ∧ ∃ v, soft v ∧ (∀ bs, ¬ citations_hold i bs) ∧
     evaluate_content_acceptance i = Some (Ok v)) ∨
  (freshness_provenance i = true ∧ ∃ bs d, citations_hold i bs ∧
     combine_boundaries bs (ch_seq (in_header i)) (in_entry_hash i) (in_ancestry i) = Some d ∧
     evaluate_content_acceptance i = Some (Ok
       match (if is_condemned d then d
              else match in_subject_hold i with HoldContested => Some (Parked ContestedSubject) | HoldClear => d end) with
       | Some v => v
       | None =>
           if negb (in_dense_predecessor_reachable i) then Parked MissingPredecessor
           else if negb (in_branch_selected i) then Forked
           else if bool_decide (cf_state (in_owner_freshness i) = Ahead) then Parked OwnerAuthLenAhead
           else if bool_decide (cf_state (in_author_freshness i) = Ahead) then Parked AuthorAuthLenAhead
           else Accepted
       end)).
Proof.
  destruct (freshness_provenance i) eqn:Hp.
  2: { left. split; [done|]. unfold evaluate_content_acceptance, authority_verdict. by rewrite Hp. }
  right. destruct (cited_boundaries i) as [bs|v] eqn:Hb.
  - right. split; [done|]. apply cited_boundaries_iff in Hb.
    destruct (authority_verdict_cited i bs Hp Hb) as (d & Hd & Hv). exists bs, d. split_and!; [done..|].
    unfold evaluate_content_acceptance. rewrite Hv. simpl. f_equal.
    destruct (if is_condemned d then _ else _); simpl; [done|]. by repeat case_match.
  - left. split; [done|]. exists v. split_and!.
    + by eapply cited_boundaries_soft.
    + intros bs Hbs%cited_boundaries_iff. congruence.
    + unfold evaluate_content_acceptance, authority_verdict. by rewrite Hp, Hb.
Qed.

Lemma combine_not_accepted bs seq entry_hash ancestry :
  combine_boundaries bs seq entry_hash ancestry ≠ Some (Some Accepted).
Proof.
  unfold combine_boundaries, rank_verdict. by repeat case_match.
Qed.

Lemma citations_unique i bs bs' : citations_hold i bs → citations_hold i bs' → bs = bs'.
Proof. rewrite <- !cited_boundaries_iff. congruence. Qed.

Lemma accepted_cases (i : ContentAcceptanceInput) :
  evaluate_content_acceptance i = Some (Ok Accepted) ↔
  freshness_provenance i = true ∧
  (∃ bs, citations_hold i bs ∧ registers_admit i bs) ∧
  in_subject_hold i = HoldClear ∧ in_dense_predecessor_reachable i = true ∧ in_branch_selected i = true ∧
  cf_state (in_owner_freshness i) = CurrentOrBehind ∧ cf_state (in_author_freshness i) = CurrentOrBehind.
Proof.
  destruct (evaluate_cases i) as [[Hp ->]|[(Hp & v & Hs & Hno & ->)|(Hp & bs & d & Hc & Hd & ->)]]; rewrite Hp.
  - split; [done|]. by intros [? _].
  - split; [by intros [= ->]|]. intros (_ & (bs & Hc & _) & _). by destruct (Hno bs).
  - destruct (combine_spec (ch_seq (in_header i)) (in_entry_hash i) (in_ancestry i) bs) as (d' & Hd' & Hn & Hcon).
    assert (d' = d) as -> by congruence. split.
    + intros [= Hv]. destruct (is_condemned d) eqn:Hcd; [by destruct d as [[]|]|].
      destruct (in_subject_hold i) eqn:Hhold; [|done].
      destruct d as [v|]; [subst v; by apply combine_not_accepted in Hd|].
      split_and!; [done|by exists bs; split; [|apply Hn]|done|..];
        destruct (in_dense_predecessor_reachable i), (in_branch_selected i),
          (cf_state (in_owner_freshness i)), (cf_state (in_author_freshness i)); done.
    + intros (_ & (bs' & Hc' & Hadm) & Hhold & -> & -> & Ho & Ha).
      assert (bs' = bs) as -> by by eapply citations_unique.
      apply Hn in Hadm as ->. simpl. by rewrite Hhold, Ho, Ha.
Qed.

(** What acceptance means: an entry is [Accepted] if and only if the freshness facts are
    its own, its author is the stream's owner without a grant or a contributor with a writer
    grant (roster and grant facts about exactly this author, device, stream and reference,
    and a role that may write), every register that bounds it admits it, its subject is not
    contested, its chain is rooted and selected, and neither cited control log is ahead. *)
Theorem accepted_iff (i : ContentAcceptanceInput) :
  evaluate_content_acceptance i = Some (Ok Accepted) ↔
  freshness_provenance i = true ∧
  (∃ bs, citations_hold i bs ∧ registers_admit i bs) ∧
  in_subject_hold i = HoldClear ∧ in_dense_predecessor_reachable i = true ∧ in_branch_selected i = true ∧
  cf_state (in_owner_freshness i) = CurrentOrBehind ∧ cf_state (in_author_freshness i) = CurrentOrBehind.
Proof. exact (accepted_cases i). Qed.

Lemma condemned_cases (i : ContentAcceptanceInput) :
  (∃ r, evaluate_content_acceptance i = Some (Ok (Condemned r))) ↔
  freshness_provenance i = true ∧ ∃ bs, citations_hold i bs ∧ register_condemns i bs.
Proof.
  destruct (evaluate_cases i) as [[Hp ->]|[(Hp & v & Hs & Hno & ->)|(Hp & bs & d & Hc & Hd & ->)]]; rewrite Hp.
  - split; [by intros [? ?]|]. by intros [? _].
  - split; [by intros [? [= ->]]|]. intros (_ & bs & Hc & _). by destruct (Hno bs).
  - destruct (combine_spec (ch_seq (in_header i)) (in_entry_hash i) (in_ancestry i) bs) as (d' & Hd' & Hn & Hcon).
    assert (d' = d) as -> by congruence. split.
    + intros [r [= Hv]]. split; [done|]. exists bs. split; [done|]. apply Hcon.
      destruct (is_condemned d) eqn:Hcd; [done|]. destruct (in_subject_hold i); [|done].
      destruct d as [v|]; [by subst v|]. by repeat case_match.
    + intros (_ & bs' & Hc' & Hcb). assert (bs' = bs) as -> by by eapply citations_unique.
      apply Hcon in Hcb. rewrite Hcb. destruct d as [[]|]; try done. eauto.
Qed.

(** Condemnation outranks everything undecided: whatever the subject holds, the state of
    the content graph, the freshness or the evidence missing from other registers, an entry
    with provenance and citations is condemned if and only if one of its registers condemns
    it, by slot alone where that suffices. *)
Theorem condemned_iff (i : ContentAcceptanceInput) :
  (∃ r, evaluate_content_acceptance i = Some (Ok (Condemned r))) ↔
  freshness_provenance i = true ∧ ∃ bs, citations_hold i bs ∧ register_condemns i bs.
Proof. apply condemned_cases. Qed.

(** The input of one refold: the same citations, with ancestry answered by a candidate view and
    the content-graph facts of the moment. *)
Definition observed (i : ContentAcceptanceInput) (view : ContentView) (hold : SubjectAuthorityHold)
    (dense selected : bool) : ContentAcceptanceInput :=
  mkContentAcceptanceInput (in_header i) (in_entry_hash i) (in_owner_account_id i) dense selected
    (in_ownership i) (in_roster i) (in_grant i) (in_owner_freshness i) (in_author_freshness i) hold
    (fun target watermark => default (UnknownRelation IncompleteCutAncestry) (content_ancestry target watermark view)).

Lemma observed_ancestry_grows (view view' : ContentView) target watermark r :
  view ⊆ view' → view_ok view' → decided r →
  default (UnknownRelation IncompleteCutAncestry) (content_ancestry target watermark view) = r →
  default (UnknownRelation IncompleteCutAncestry) (content_ancestry target watermark view') = r.
Proof.
  intros Hsub Hok Hd. unfold content_ancestry. destruct (ancestry_from target watermark view) as [r'|] eqn:Hr.
  - simpl. intros ->. by rewrite (ancestry_from_grow view view' target watermark r Hsub Hok Hr Hd).
  - simpl. intros <-. by destruct Hd.
Qed.

(** Condemnation is final: an entry condemned on the candidates held so far stays
    condemned whatever candidates arrive later and however the holds and the branch selection
    move, under the same citations. *)
Theorem condemnation_is_final (view view' : ContentView) i hold hold' dense dense' selected selected' r :
  view ⊆ view' → view_ok view' →
  evaluate_content_acceptance (observed i view hold dense selected) = Some (Ok (Condemned r)) →
  ∃ r', evaluate_content_acceptance (observed i view' hold' dense' selected') = Some (Ok (Condemned r')).
Proof.
  intros Hsub Hok Hev. destruct (proj1 (condemned_cases _) (ex_intro _ r Hev)) as (Hp & bs & Hc & Hcon).
  apply condemned_cases. split; [exact Hp|]. exists bs. split; [exact Hc|].
  unfold register_condemns in *. eapply Exists_impl; [exact Hcon|].
  intros [|s h|]; simpl; [done| |done]. intros [Hs|Hoff]; [by left|right].
  eapply observed_ancestry_grows; [done|done|by right|done].
Qed.

(** The registers form a set: combining them always gives a verdict (the [unreachable!]
    arm is unreachable), is clear exactly when every register admits the entry, and does not
    depend on their order or on repetitions. *)
Theorem combine_boundaries_is_set_like bs bs' seq entry_hash ancestry :
  (∃ d, combine_boundaries bs seq entry_hash ancestry = Some d ∧
        (d = None ↔ Forall (boundary_admits seq entry_hash ancestry) bs)) ∧
  ((∀ b, b ∈ bs ↔ b ∈ bs') →
   combine_boundaries bs seq entry_hash ancestry = combine_boundaries bs' seq entry_hash ancestry).
Proof.
  split.
  - destruct (combine_spec seq entry_hash ancestry bs) as (d & Hd & Hn & _). eauto.
  - apply combine_same_set.
Qed.

(** Content selection converges: peers that hold the same candidates and registers, in
    any order, accept and fork the same content entries. *)
Theorem content_selection_converges (view : ContentView) candidates candidates' eligible pins pins' :
  view_ok view → candidates_ok candidates →
  Forall (fun c => view !! ca_entry_hash c = Some (ca_header c)) candidates →
  candidates ≡ₚ candidates' → pins ≡ₚ pins' →
  content_select_accepted_branch candidates eligible pins view =
  content_select_accepted_branch candidates' eligible pins' view.
Proof.
  intros. by apply (pinned_selection_converges view candidates candidates' eligible pins pins'
    (fun chain pin => bool_decide
       (content_validate_cut_target (bp_seq pin) (bp_watermark pin) chain view = BindingOk))).
Qed.

(** The stored status identifies the verdict: two verdicts with one database string are
    equal, except that the two [auth_len_ahead] parks share theirs. *)
Theorem status_string_identifies a b :
  ContentAcceptance_as_db_str a = ContentAcceptance_as_db_str b →
  a = b ∨ (∀ v, v = a ∨ v = b → v = Parked OwnerAuthLenAhead ∨ v = Parked AuthorAuthLenAhead).
Proof.
  destruct a as [| |[]|[]|[]], b as [| |[]|[]|[]]; intros Heq; try discriminate Heq; try (by left);
    right; intros v [->| ->]; auto.
Qed.

(** ** Witnesses

    An owner's entry at slot 1 of its own chain, bounded by a roster cut. *)

Definition wit_content_at (seq : Z) (prev : option AccountEntryHash) : ContentEntryHeader :=
  mkContentEntryHeader (replicate 32 x01) (replicate 32 x02) (replicate 32 x03) seq 0 prev None
    (replicate 32 x09) 1 1 0 None.
Definition wit_content_candidates : list (Candidate ContentEntryHeader) :=
  [ mkCandidate (wit_hash x0a) (wit_content_at 0 None);
    mkCandidate (wit_hash x0b) (wit_content_at 1 (Some (wit_hash x0a))) ].
Definition wit_content_view : ContentView :=
  list_to_map ((fun c => (ca_entry_hash c, ca_header c)) <$> wit_content_candidates).
Definition wit_input (boundary : AuthorityBoundary) : ContentAcceptanceInput :=
  mkContentAcceptanceInput (wit_content_at 1 (Some (wit_hash x0a))) (wit_hash x0b) (replicate 32 x02) true true
    (Effective (mkCitedOwnership (replicate 32 x02) (replicate 32 x01)))
    (Effective (mkCitedRosterAuthority (replicate 32 x02) (replicate 32 x09) (replicate 32 x01)
       (mkRosterContentAuthority (replicate 32 x03) Member boundary)))
    None (mkCitedFreshness (replicate 32 x02) 1 CurrentOrBehind) (mkCitedFreshness (replicate 32 x02) 1 CurrentOrBehind)
    HoldClear (fun _ _ => OnBranch).

Example within_the_cut_is_accepted :
  evaluate_content_acceptance (wit_input (BoundaryCut 1 (wit_hash x0b))) = Some (Ok Accepted).
Proof. by vm_compute. Qed.
Example past_the_cut_is_condemned :
  evaluate_content_acceptance (wit_input (BoundaryCut 0 (wit_hash x0a))) = Some (Ok (Condemned BeyondCut)).
Proof. by vm_compute. Qed.

Lemma wit_content_view_ok : view_ok wit_content_view.
Proof.
  assert (map_Forall (fun _ hd => 0 ≤ ch_seq hd ≤ u64_max) wit_content_view) as Hok;
    [by apply (bool_decide_unpack _); vm_compute|intros h hd; apply Hok].
Qed.

Lemma condemnation_is_final_witness :
  ∃ r, evaluate_content_acceptance
         (observed (wit_input (BoundaryCut 0 (wit_hash x0a))) wit_content_view HoldContested false true) =
       Some (Ok (Condemned r)).
Proof.
  apply (condemnation_is_final ∅ wit_content_view (wit_input (BoundaryCut 0 (wit_hash x0a)))
    HoldClear HoldContested true false true true BeyondCut);
    [apply map_empty_subseteq|exact wit_content_view_ok|by vm_compute].
Defined.

Lemma content_selection_converges_witness :
  content_select_accepted_branch wit_content_candidates (dom wit_content_view) [] wit_content_view =
  content_select_accepted_branch (rev wit_content_candidates) (dom wit_content_view) [] wit_content_view.
Proof.
  apply content_selection_converges; [exact wit_content_view_ok| |by repeat constructor|apply Permutation_rev|done].
  split; apply (bool_decide_unpack _); by vm_compute.
Defined.

Lemma status_string_identifies_witness :
  Accepted = Accepted ∨
  (∀ v, v = Accepted ∨ v = Accepted → v = Parked OwnerAuthLenAhead ∨ v = Parked AuthorAuthLenAhead).
Proof. apply (status_string_identifies Accepted Accepted). reflexivity. Defined.
