(* ===== verification/Lamport.v ===== *)
(** * The Lamport discipline of content acceptance ([account/content/storage.rs])

    The header lamport of a content entry is chosen by its author and decides last-write-wins
    registers, so the refold demotes accepted entries whose chain ticks backwards or that jump more
    than [MAX_LAMPORT_ADVANCE] past the clock the entries below them establish.  One pass over the
    rows in ascending [(lamport, entry_hash)] does it; the specification is a reachability of lamport
    values, which mentions neither the pass nor its order. *)

From S2P Require Import Prelude Cbor Minicbor Hash Op Device Entry Stream Branch Envelope Candidate AccountOps FoldTypes Keywrap ContentEnvelope Acceptance.

Local Open Scope Z_scope.

Abbreviation ContentRow := (AccountEntryHash * ContentEntryHeader)%type.
Abbreviation ChainCuts := (gmap ChainCoordinate Z).

(** ** The passes *)

Definition push_member (chains : gmap ChainCoordinate (list ContentEntryHeader)) (row : ContentRow)
    : gmap ChainCoordinate (list ContentEntryHeader) :=
  <[chain_coordinate_of row.2 := default [] (chains !! chain_coordinate_of row.2) ++ [row.2]]> chains.

(** The loop over [windows(2)], up to its [break]. *)
Fixpoint first_backstep (members : list ContentEntryHeader) : option Z :=
  match members with
  | a :: ((b :: _) as rest) => if bool_decide (ch_lamport b ≤ ch_lamport a) then Some (ch_seq b) else first_backstep rest
  | _ => None
  end.

Definition monotonicity_cuts (entries : list ContentRow) : ChainCuts :=
  omap (fun members => first_backstep (sort_by_key ch_seq members)) (foldl push_member ∅ entries).

Definition u64_saturating_add (a b : Z) : Z := Z.min u64_max (a + b).

(** [cut.get(&coordinate).is_some_and(|&seq| header.seq >= seq)]. *)
Definition at_or_above (cut : ChainCuts) (header : ContentEntryHeader) : bool :=
  match cut !! chain_coordinate_of header with Some seq => bool_decide (seq ≤ ch_seq header) | None => false end.

(** A row of the walk: its lamport, its hash, its header and whether it can be demoted. *)
Abbreviation WalkRow := (Z * AccountEntryHash * ContentEntryHeader * bool)%type.
Definition wr_lamport (r : WalkRow) : Z := r.1.1.1.
Definition wr_key (r : WalkRow) : Z * AccountEntryHash := (r.1.1.1, r.1.1.2).

Definition walk_rows (entries floor : list ContentRow) : list WalkRow :=
  ((fun '(hash, header) => (ch_lamport header, hash, header, true)) <$> entries) ++
  ((fun '(hash, header) => (ch_lamport header, hash, header, false)) <$> floor).

Definition lower_cut (cut : ChainCuts) (header : ContentEntryHeader) : ChainCuts :=
  <[chain_coordinate_of header := Z.min (default (ch_seq header) (cut !! chain_coordinate_of header)) (ch_seq header)]> cut.

Definition advance_step (s : ChainCuts * Z) (row : WalkRow) : ChainCuts * Z :=
  let '(cut, running_max) := s in
  let '(lamport, _, header, demotable) := row in
  if negb demotable then
    if bool_decide (lamport ≤ u64_saturating_add running_max MAX_LAMPORT_ADVANCE)
    then (cut, Z.max running_max lamport) else s
  else if at_or_above cut header then s
  else if bool_decide (u64_saturating_add running_max MAX_LAMPORT_ADVANCE < lamport) then (lower_cut cut header, running_max)
  else (cut, Z.max running_max lamport).

Definition bounded_advance_walk (entries floor : list ContentRow) (cut : ChainCuts) : ChainCuts * Z :=
  foldl advance_step (cut, 0) (sort_by_key wr_key (walk_rows entries floor)).

Definition chain_cut_demotions (entries : list ContentRow) (cut : ChainCuts) : gset AccountEntryHash :=
  foldl (fun demoted '(hash, header) => if at_or_above cut header then {[hash]} ∪ demoted else demoted) ∅ entries.

(** ** Specification *)

Section Clamp.
Context (entries floor : list ContentRow).

(** The chain of [e] ticks forward up to [e]. *)
Definition chain_increases (e : ContentEntryHeader) : Prop :=
  ∀ a b : ContentRow, a ∈ entries → b ∈ entries → chain_coordinate_of a.2 = chain_coordinate_of e →
    chain_coordinate_of b.2 = chain_coordinate_of e → ch_seq a.2 < ch_seq b.2 → ch_seq b.2 ≤ ch_seq e →
    ch_lamport a.2 < ch_lamport b.2.

(** The lamport values the clock may stand on: entries of forward chains and the floor. *)
Definition clock_value (l : Z) : Prop :=
  (∃ e, e ∈ entries ∧ chain_increases e.2 ∧ ch_lamport e.2 = l) ∨ ∃ f, f ∈ floor ∧ ch_lamport f.2 = l.

(** The values reached from 0 in steps of at most [MAX_LAMPORT_ADVANCE]. *)
Inductive clock_reaches : Z → Prop :=
| clock_first l : clock_value l → l ≤ MAX_LAMPORT_ADVANCE → clock_reaches l
| clock_next l l' : clock_value l → clock_reaches l' → l' < l → l ≤ l' + MAX_LAMPORT_ADVANCE → clock_reaches l.

(** One entry per slot of a chain, [u64] fields. *)
Definition rows_ok : Prop :=
  (∀ a b : ContentRow, a ∈ entries → b ∈ entries → chain_coordinate_of a.2 = chain_coordinate_of b.2 →
     ch_seq a.2 = ch_seq b.2 → a = b) ∧
  NoDup entries.*1 ∧
  ∀ r : ContentRow, r ∈ entries ∨ r ∈ floor → 0 ≤ ch_lamport r.2 ≤ u64_max.

(** A value below a reached one is reached. *)
Lemma clock_down l x : clock_reaches l → clock_value x → x ≤ l → clock_reaches x.
Proof using Type.
  intros Hr Hx. induction Hr as [l Hl Hm|l l' Hl Hr IH Hlt Hle]; intros Hxl; [by apply clock_first; [|lia]|].
  destruct (decide (x ≤ l')); [by apply IH|]. eapply clock_next; [done|exact Hr|lia|lia].
Qed.
End Clamp.

(** ** Monotonicity cuts *)

Lemma push_members (rows : list ContentRow) (chains : gmap ChainCoordinate (list ContentEntryHeader)) c :
  default [] (foldl push_member chains rows !! c) =
  default [] (chains !! c) ++ (filter (fun r => chain_coordinate_of r.2 = c) rows).*2.
Proof.
  revert chains. induction rows as [|[h e] rows IH]; intros chains; cbn [foldl]; [by rewrite app_nil_r|].
  rewrite IH. unfold push_member. simpl. destruct (decide (chain_coordinate_of e = c)) as [<-|Hne].
  - rewrite lookup_insert_eq, filter_cons_True by done. simpl. by rewrite <- app_assoc.
  - rewrite lookup_insert_ne, filter_cons_False by done. done.
Qed.

(** The members of a chain in slot order. *)
Definition chain_members (entries : list ContentRow) (c : ChainCoordinate) : list ContentEntryHeader :=
  sort_by_key ch_seq (filter (fun r => chain_coordinate_of r.2 = c) entries).*2.

Lemma monotonicity_cuts_lookup entries c : monotonicity_cuts entries !! c = first_backstep (chain_members entries c).
Proof.
  unfold monotonicity_cuts, chain_members. rewrite lookup_omap. pose proof (push_members entries ∅ c) as Hp.
  rewrite lookup_empty in Hp. simpl in Hp. destruct (foldl push_member ∅ entries !! c) as [l|]; simpl in *.
  - by rewrite <- Hp.
  - by rewrite <- Hp.
Qed.

Lemma elem_of_chain_members entries c e :
  e ∈ chain_members entries c ↔ ∃ h, (h, e) ∈ entries ∧ chain_coordinate_of e = c.
Proof.
  unfold chain_members. rewrite sort_by_key_perm, list_elem_of_fmap. setoid_rewrite list_elem_of_filter. split.
  - intros ([h e'] & -> & ? & ?). by exists h.
  - intros (h & ? & ?). by exists (h, e).
Qed.

(** A step backwards is between two members; with none up to a slot the members ascend to it. *)
Lemma first_backstep_Some l s :
  StronglySorted (fun a b => ch_seq a < ch_seq b) l → first_backstep l = Some s →
  ∃ a b, a ∈ l ∧ b ∈ l ∧ ch_seq a < ch_seq b ∧ ch_seq b = s ∧ ch_lamport b ≤ ch_lamport a.
Proof.
  induction l as [|a l IH]; [done|]. intros [Hs Ha]%StronglySorted_inv. destruct l as [|b l]; [done|].
  cbn [first_backstep]. case_bool_decide as Hle.
  - intros [= <-]. exists a, b. apply Forall_cons in Ha as [Hab _]. split_and!; try done; set_solver.
  - intros Hb. destruct (IH Hs Hb) as (x & y & ? & ? & ?). exists x, y. split_and!; set_solver.
Qed.

Lemma first_backstep_ascends l e :
  StronglySorted (fun a b => ch_seq a < ch_seq b) l → (∀ s, first_backstep l = Some s → e < s) →
  ∀ a b, a ∈ l → b ∈ l → ch_seq a < ch_seq b → ch_seq b ≤ e → ch_lamport a < ch_lamport b.
Proof.
  induction l as [|x l IH]; intros Hs He a b Ha Hb Hab Hbe; [by apply elem_of_nil in Ha|].
  apply StronglySorted_inv in Hs as [Hs Hx]. rewrite Forall_forall in Hx. destruct l as [|y l].
  { apply list_elem_of_singleton in Ha as ->, Hb as ->. lia. }
  cbn [first_backstep] in He. case_bool_decide as Hle.
  - specialize (He _ eq_refl). exfalso.
    assert (ch_seq y ≤ ch_seq b); [|lia]. apply elem_of_cons in Hb as [->|Hb].
    + apply elem_of_cons in Ha as [->|Ha]; [lia|]. specialize (Hx a Ha). lia.
    + apply elem_of_cons in Hb as [->|Hb]; [lia|]. apply StronglySorted_inv in Hs as [_ Hy]. rewrite Forall_forall in Hy.
      specialize (Hy b Hb). lia.
  - specialize (IH Hs He). apply elem_of_cons in Hb as [->|Hb].
    { apply elem_of_cons in Ha as [->|Ha]; [lia|]. specialize (Hx a Ha). lia. }
    apply elem_of_cons in Ha as [->|Ha]; [|by apply IH].
    apply elem_of_cons in Hb as [->|Hb]; [lia|].
    assert (ch_lamport y < ch_lamport b); [|lia]. apply IH; [by left|by right| |done].
    apply StronglySorted_inv in Hs as [_ Hy]. rewrite Forall_forall in Hy. by apply Hy.
Qed.

Section Cuts.
Context (entries floor : list ContentRow) (Hok : rows_ok entries floor).
Abbreviation mono := (monotonicity_cuts entries).

Lemma chain_members_sorted c : StronglySorted (fun a b => ch_seq a < ch_seq b) (chain_members entries c).
Proof using Hok.
  destruct Hok as (Hslots & Hnd & _).
  assert (NoDup (ch_seq <$> chain_members entries c)) as Hs.
  { unfold chain_members. rewrite (fmap_Permutation ch_seq _ _ (sort_by_key_perm ch_seq _)), <- list_fmap_compose.
    apply NoDup_fmap_2_strong; [|apply NoDup_filter; by eapply NoDup_fmap_1].
    intros a b [Ha Hina]%list_elem_of_filter [Hb Hinb]%list_elem_of_filter. apply Hslots; [done..|congruence]. }
  pose proof (sort_by_key_sorted ch_seq (filter (fun r => chain_coordinate_of r.2 = c) entries).*2) as Hle.
  fold (chain_members entries c) in Hle. unfold sorted_by_key in Hle.
  induction Hle as [|x l Hl IH Hx]; [constructor|]. rewrite fmap_cons in Hs. apply NoDup_cons in Hs as [Hni Hs].
  constructor; [by apply IH|]. rewrite Forall_forall in Hx |- *. intros y Hy. specialize (Hx y Hy). apply (proj1 (cle_Z _ _)) in Hx.
  assert (ch_seq x ≠ ch_seq y); [|lia]. intros Heq. apply Hni. rewrite Heq. by apply list_elem_of_fmap_2.
Qed.

(** A chain is cut at its first step backwards. *)
Lemma mono_iff h e : (h, e) ∈ entries → at_or_above mono e = false ↔ chain_increases entries e.
Proof using Hok.
  intros He. unfold at_or_above. rewrite monotonicity_cuts_lookup.
  pose proof (chain_members_sorted (chain_coordinate_of e)) as Hs.
  assert (match first_backstep (chain_members entries (chain_coordinate_of e)) with
          | Some s => bool_decide (s ≤ ch_seq e) | None => false end = false ↔
          ∀ s, first_backstep (chain_members entries (chain_coordinate_of e)) = Some s → ch_seq e < s) as ->.
  { destruct (first_backstep _) as [s|]; [|naive_solver]. rewrite bool_decide_eq_false. split.
    - intros Hn s' [= <-]. lia.
    - intros Hn Hle. specialize (Hn s eq_refl). lia. }
  split.
  - intros Hcut [ha a] [hb b] Ha Hb Hca Hcb Hab Hbe. simpl in *.
    eapply first_backstep_ascends; [exact Hs|exact Hcut| | |done|done]; apply elem_of_chain_members; eauto.
  - intros Hinc s Hsome. destruct (first_backstep_Some _ _ Hs Hsome) as (a & b & Ha & Hb & Hab & <- & Hle).
    apply elem_of_chain_members in Ha as (ha & Ha & Hca), Hb as (hb & Hb & Hcb).
    destruct (decide (ch_seq e < ch_seq b)) as [?|Hge]; [done|]. specialize (Hinc (ha, a) (hb, b) Ha Hb Hca Hcb Hab). simpl in Hinc. lia.
Qed.

(** ** The walk *)

Abbreviation reaches := (clock_reaches entries floor).
Abbreviation value := (clock_value entries floor).

Definition row_from (r : WalkRow) : Prop :=
  match r with
  | (l, h, e, demotable) => l = ch_lamport e ∧ ((h, e) ∈ if (demotable : bool) then entries else floor)
  end.

Record walk_inv (past : list WalkRow) (cut : ChainCuts) (m : Z) : Prop := {
  wi_nonneg : 0 ≤ m;
  wi_max : m = 0 ∨ reaches m;
  wi_upper r : r ∈ past → (r.2 = true → chain_increases entries r.1.2) → reaches (wr_lamport r) → wr_lamport r ≤ m;
  wi_mono e : at_or_above mono e = true → at_or_above cut e = true;
  wi_cut c s : cut !! c = Some s → mono !! c = Some s ∨
    ∃ h p, (h, p) ∈ entries ∧ chain_coordinate_of p = c ∧ ch_seq p = s ∧ chain_increases entries p ∧ ¬ reaches (ch_lamport p);
  wi_decided l h e : (l, h, e, true) ∈ past → chain_increases entries e → at_or_above cut e = true ∨ reaches l;
  wi_bound : m ≤ MAX_LAMPORT_ADVANCE * Z.of_nat (length past);
}.

Lemma lower_cut_at cut e e' :
  at_or_above cut e = false → at_or_above (lower_cut cut e) e' = true ↔
  at_or_above cut e' = true ∨ (chain_coordinate_of e' = chain_coordinate_of e ∧ ch_seq e ≤ ch_seq e').
Proof using Type.
  unfold at_or_above, lower_cut. intros He. destruct (decide (chain_coordinate_of e' = chain_coordinate_of e)) as [Hc|Hc].
  - rewrite Hc, lookup_insert_eq, bool_decide_eq_true. destruct (cut !! chain_coordinate_of e) as [s|]; simpl.
    + apply bool_decide_eq_false in He. split; [|intros [?%bool_decide_eq_true|[_ ?]]; lia].
      intros ?. destruct (decide (s ≤ ch_seq e')); [left; by apply bool_decide_eq_true|right; split; [done|lia]].
    + split; [|naive_solver lia]. intros ?. right. split; [done|lia].
  - rewrite lookup_insert_ne by done. naive_solver.
Qed.

Lemma reaches_value l : reaches l → value l.
Proof using Type. by destruct 1. Qed.

Lemma value_range l : value l → 0 ≤ l ≤ u64_max.
Proof using Hok. destruct Hok as (_ & _ & Hr). intros [(e & He & _ & <-)|(f & Hf & <-)]; apply Hr; auto. Qed.

(** The demoted entries of a cut are those the clock does not reach. *)
Lemma cut_unreached past cut m h e :
  walk_inv past cut m → (h, e) ∈ entries → chain_increases entries e → at_or_above cut e = true → ¬ reaches (ch_lamport e).
Proof using Hok.
  intros Hi He Hinc Hcut Hr. pose proof Hcut as Hcut'. unfold at_or_above in Hcut'.
  destruct (cut !! chain_coordinate_of e) as [s|] eqn:Hs; [|done]. apply bool_decide_eq_true in Hcut'.
  destruct (wi_cut _ _ _ Hi _ _ Hs) as [Hm|(hp & p & Hp & Hc & <- & Hpi & Hpr)].
  - assert (at_or_above mono e = true) as Ha by (unfold at_or_above; by rewrite Hm, bool_decide_eq_true).
    apply (mono_iff h e He) in Hinc. congruence.
  - apply Hpr. destruct (decide (ch_seq p = ch_seq e)) as [Heq|Hne].
    + destruct Hok as (Hslots & _). specialize (Hslots (hp, p) (h, e) Hp He Hc Heq). by simplify_eq.
    + assert (ch_lamport p < ch_lamport e) by (apply (Hinc (hp, p) (h, e)); simpl; [done|done|done|done|lia|lia]).
      eapply clock_down; [exact Hr| |lia]. left. by exists (hp, p).
Qed.

Lemma max_advance_pos : 0 < MAX_LAMPORT_ADVANCE.
Proof using Type. done. Qed.

Lemma bound_snoc (past : list WalkRow) m m' r :
  m ≤ MAX_LAMPORT_ADVANCE * Z.of_nat (length past) → m' ≤ m + MAX_LAMPORT_ADVANCE →
  m' ≤ MAX_LAMPORT_ADVANCE * Z.of_nat (length (past ++ [r])).
Proof using Type. rewrite length_app. simpl. intros. nia. Qed.

Section Step.
Context (past : list WalkRow) (cut : ChainCuts) (m : Z) (Hi : walk_inv past cut m).

(** All rows below the next one are past. *)
Definition walked_below (l : Z) : Prop :=
  ∀ l', value l' → l' < l → ∃ x, x ∈ past ∧ wr_lamport x = l' ∧ (x.2 = true → chain_increases entries x.1.2).

Lemma reaches_iff l : walked_below l → value l → reaches l ↔ l ≤ u64_saturating_add m MAX_LAMPORT_ADVANCE.
Proof using All.
  intros Hbelow Hl. pose proof (value_range l Hl). pose proof (wi_nonneg _ _ _ Hi).
  unfold u64_saturating_add. pose proof max_advance_pos. split.
  - intros Hr. destruct Hr as [l _ ?|l l' _ Hr Hlt Hle]; [lia|].
    destruct (Hbelow l' (reaches_value _ Hr) Hlt) as (x & Hx & <- & Hxi). pose proof (wi_upper _ _ _ Hi x Hx Hxi Hr). lia.
  - intros Hle. destruct (wi_max _ _ _ Hi) as [Hm|Hm]; [apply clock_first; [done|lia]|].
    destruct (decide (l ≤ m)); [by eapply clock_down|]. eapply clock_next; [done|exact Hm|lia|lia].
Qed.

Lemma walk_inv_keep r :
  (∀ l h e, r = (l, h, e, true) → chain_increases entries e → at_or_above cut e = true ∨ reaches l) →
  ((r.2 = true → chain_increases entries r.1.2) → reaches (wr_lamport r) → wr_lamport r ≤ m) →
  walk_inv (past ++ [r]) cut m.
Proof using Hi.
  intros Hd Hu. split; try apply Hi.
  - intros x [Hx| ->%list_elem_of_singleton]%elem_of_app; [by apply (wi_upper _ _ _ Hi)|done].
  - intros l h e [Hx|Hx%list_elem_of_singleton]%elem_of_app; [by eapply (wi_decided _ _ _ Hi)|by eapply Hd].
  - apply (bound_snoc past m); [apply Hi|]. pose proof max_advance_pos. lia.
Qed.

Lemma walk_inv_count r :
  reaches (wr_lamport r) → wr_lamport r ≤ m + MAX_LAMPORT_ADVANCE →
  walk_inv (past ++ [r]) cut (Z.max m (wr_lamport r)).
Proof using Hi.
  intros Hr Hle. split; try apply Hi.
  - pose proof (wi_nonneg _ _ _ Hi). lia.
  - destruct (Z.max_spec m (wr_lamport r)) as [[_ ->]|[_ ->]]; [by right|apply Hi].
  - intros x [Hx| ->%list_elem_of_singleton]%elem_of_app Hxi Hxr; [pose proof (wi_upper _ _ _ Hi x Hx Hxi Hxr); lia|lia].
  - intros l h e [Hx|Hx%list_elem_of_singleton]%elem_of_app; [by eapply (wi_decided _ _ _ Hi)|].
    subst r. intros _. by right.
  - apply (bound_snoc past m); [apply Hi|]. pose proof max_advance_pos. lia.
Qed.

Lemma walk_inv_demote l h e :
  (h, e) ∈ entries → l = ch_lamport e → chain_increases entries e → at_or_above cut e = false → ¬ reaches l →
  walk_inv (past ++ [(l, h, e, true)]) (lower_cut cut e) m.
Proof using Hi.
  intros He -> Hinc Hcut Hn.
  assert (∀ e', at_or_above cut e' = true → at_or_above (lower_cut cut e) e' = true) as Hgrow
    by (intros e' ?; apply lower_cut_at; auto).
  split; try apply Hi.
  - intros x [Hx| ->%list_elem_of_singleton]%elem_of_app; [by apply (wi_upper _ _ _ Hi)|done].
  - intros e' He'. by apply Hgrow, (wi_mono _ _ _ Hi).
  - intros c s. unfold lower_cut. rewrite lookup_insert_Some. intros [[<- <-]|[_ ?]]; [|by apply (wi_cut _ _ _ Hi)].
    right. exists h, e. split_and!; try done. unfold at_or_above in Hcut.
    destruct (cut !! chain_coordinate_of e); simpl; [apply bool_decide_eq_false in Hcut|]; lia.
  - intros l' h' e' [Hx|Hx%list_elem_of_singleton]%elem_of_app Hi'.
    { destruct (wi_decided _ _ _ Hi _ _ _ Hx Hi'); [left; by apply Hgrow|by right]. }
    injection Hx as -> -> ->. left. apply lower_cut_at; [done|right]. split; [done|lia].
  - apply (bound_snoc past m); [apply Hi|]. pose proof max_advance_pos. lia.
Qed.

Lemma walk_inv_step r :
  row_from r → walked_below (wr_lamport r) →
  walk_inv (past ++ [r]) (advance_step (cut, m) r).1 (advance_step (cut, m) r).2.
Proof using All.
  destruct r as [[[l h] e] d]. intros [-> Hin] Hbelow. unfold wr_lamport in Hbelow. simpl in Hbelow. unfold advance_step.
  destruct d; cbn [negb].
  - destruct (at_or_above cut e) eqn:Hcut.
    { apply walk_inv_keep; [intros l h' e' [= <- <- <-]; by left|]. simpl. intros Hinc Hr.
      by destruct (cut_unreached _ _ _ _ _ Hi Hin (Hinc eq_refl) Hcut). }
    assert (chain_increases entries e) as Hinc.
    { apply (mono_iff h e Hin). destruct (at_or_above mono e) eqn:Hm; [|done]. apply (wi_mono _ _ _ Hi) in Hm. congruence. }
    pose proof (reaches_iff (ch_lamport e) Hbelow (or_introl (ex_intro _ (h, e) (conj Hin (conj Hinc eq_refl))))) as Hr.
    case_bool_decide as Hj.
    + apply walk_inv_demote; [done..|]. intros Hx%Hr. lia.
    + apply (walk_inv_count (ch_lamport e, h, e, true)); [apply Hr; lia|].
      unfold u64_saturating_add in Hj. unfold wr_lamport. simpl. lia.
  - pose proof (reaches_iff (ch_lamport e) Hbelow (or_intror (ex_intro _ (h, e) (conj Hin eq_refl)))) as Hr.
    case_bool_decide as Hj.
    + apply (walk_inv_count (ch_lamport e, h, e, false)); [apply Hr; lia|].
      unfold u64_saturating_add in Hj. unfold wr_lamport. simpl. lia.
    + apply walk_inv_keep; [done|]. intros _ Hrr. by apply Hr in Hrr.
Qed.
End Step.

Lemma elem_of_walk_rows r : r ∈ walk_rows entries floor ↔ row_from r.
Proof using Type.
  destruct r as [[[l h] e] d]. unfold walk_rows, row_from. rewrite elem_of_app, !list_elem_of_fmap. split.
  - by intros [([h' e'] & [= -> -> -> ->] & Hin)|([h' e'] & [= -> -> -> ->] & Hin)].
  - intros [-> Hin]. destruct d; [left|right]; by exists (h, e).
Qed.

Lemma walk_inv_nil : walk_inv [] mono 0.
Proof using Type.
  split; try done.
  - by left.
  - by intros r ?%elem_of_nil.
  - by left.
  - by intros l h e ?%elem_of_nil.
Qed.

Lemma walk_inv_all rest past cut m :
  walk_inv past cut m → StronglySorted (fun a b => wr_lamport a ≤ wr_lamport b) (past ++ rest) →
  (∀ r, r ∈ past ++ rest ↔ row_from r) →
  walk_inv (past ++ rest) (foldl advance_step (cut, m) rest).1 (foldl advance_step (cut, m) rest).2.
Proof using Hok.
  revert past cut m. induction rest as [|r rest IH]; intros past cut m Hi Hs Hall; [by rewrite app_nil_r|].
  rewrite cons_middle, app_assoc in Hs, Hall |- *. cbn [foldl].
  destruct (advance_step (cut, m) r) as [cut' m'] eqn:Hstep. apply IH; [|done|done].
  pose proof (walk_inv_step past cut m Hi r) as Hnext. rewrite Hstep in Hnext. apply Hnext.
  { apply Hall. set_solver. }
  intros l' Hv Hlt. assert (∃ x, row_from x ∧ wr_lamport x = l' ∧ (x.2 = true → chain_increases entries x.1.2)) as (x & Hx & <- & Hxi).
  { destruct Hv as [([h e] & He & Hinc & <-)|([h f] & Hf & <-)].
    - by exists (ch_lamport e, h, e, true).
    - by exists (ch_lamport f, h, f, false). }
  exists x. split; [|done]. apply Hall in Hx as [[Hx|Hx]%elem_of_app|Hx]%elem_of_app; [done|..].
  - apply list_elem_of_singleton in Hx as ->. lia.
  - exfalso. assert (r ∈ past ++ [r]) as Hr by (apply elem_of_app; right; by left).
    pose proof (StronglySorted_app_1_elem_of _ _ _ _ _ Hs Hr Hx). simpl in *. lia.
Qed.

(** The walk decides every row. *)
Lemma bounded_advance_spec :
  let '(cut, clock) := bounded_advance_walk entries floor mono in
  (∀ h e, (h, e) ∈ entries → at_or_above cut e = false ↔ chain_increases entries e ∧ reaches (ch_lamport e)) ∧
  (clock = 0 ∨ reaches clock) ∧ (∀ l, reaches l → l ≤ clock) ∧
  0 ≤ clock ≤ MAX_LAMPORT_ADVANCE * (len entries + len floor).
Proof using Hok.
  pose proof (sort_by_key_sorted wr_key (walk_rows entries floor)) as Hs.
  pose proof (walk_inv_all (sort_by_key wr_key (walk_rows entries floor)) [] mono 0 walk_inv_nil) as Hi.
  unfold bounded_advance_walk. destruct (foldl advance_step _ _) as [cut clock]. simpl in Hi.
  assert (walk_inv (sort_by_key wr_key (walk_rows entries floor)) cut clock) as Hw.
  { apply Hi.
    - eapply StronglySorted_weaken; [|exact Hs]. intros a b Hab. unfold wr_key, wr_lamport in *. clear -Hab.
      destruct a as [[[la ha] ea] da], b as [[[lb hb] eb] db]. simpl in *. unfold cle, cmp, pair_cmp in Hab. simpl in Hab.
      destruct (Z.compare_spec la lb) as [->|?|?]; [lia|lia|]. unfold cmp, Z_cmp in Hab. by rewrite (proj2 (Z.compare_gt_iff la lb)) in Hab.
    - intros r. rewrite sort_by_key_perm. apply elem_of_walk_rows. }
  clear Hi. split_and!.
  - intros h e He. split.
    + intros Hcut. assert (chain_increases entries e) as Hinc.
      { apply (mono_iff h e He). destruct (at_or_above mono e) eqn:Hm; [|done]. apply (wi_mono _ _ _ Hw) in Hm. congruence. }
      split; [done|]. destruct (wi_decided _ _ _ Hw (ch_lamport e) h e) as [?|?]; [|done|congruence|done].
      rewrite sort_by_key_perm. by apply elem_of_walk_rows.
    + intros [Hinc Hr]. destruct (at_or_above cut e) eqn:Hc; [|done]. by destruct (cut_unreached _ _ _ _ _ Hw He Hinc Hc).
  - apply Hw.
  - intros l Hr. destruct (reaches_value l Hr) as [([h e] & He & Hinc & <-)|([h f] & Hf & <-)].
    + apply (wi_upper _ _ _ Hw (ch_lamport e, h, e, true)); [|done|done]. rewrite sort_by_key_perm. by apply elem_of_walk_rows.
    + apply (wi_upper _ _ _ Hw (ch_lamport f, h, f, false)); [|done|done]. rewrite sort_by_key_perm. by apply elem_of_walk_rows.
  - apply Hw.
  - etrans; [apply Hw|]. rewrite sort_by_key_perm. unfold walk_rows, len. rewrite length_app, !length_fmap. lia.
Qed.

Lemma elem_of_demotions cut h e :
  (h, e) ∈ entries → h ∈ chain_cut_demotions entries cut ↔ at_or_above cut e = true.
Proof using Hok.
  destruct Hok as (_ & Hnd & _). intros He.
  assert (∀ l (D : gset AccountEntryHash), h ∈ foldl (fun D '(hash, header) => if at_or_above cut header then {[hash]} ∪ D else D) D l ↔
    h ∈ D ∨ ∃ e', (h, e') ∈ l ∧ at_or_above cut e' = true) as Hgen.
  { intros l. induction l as [|[h' e'] l IH]; intros D; cbn [foldl].
    - split; [by left|]. intros [?|(e' & ?%elem_of_nil & _)]; done.
    - rewrite IH. setoid_rewrite elem_of_cons. destruct (at_or_above cut e') eqn:Hc; [rewrite elem_of_union, elem_of_singleton|]; split.
      + intros [[->|?]|(x & ? & ?)]; [right; exists e'; auto|by left|right; exists x; auto].
      + intros [?|(x & [[= -> ->]|?] & ?)]; [auto|auto|right; eauto].
      + intros [?|(x & ? & ?)]; [by left|right; exists x; auto].
      + intros [?|(x & [[= -> ->]|?] & ?)]; [auto|congruence|right; eauto]. }
  unfold chain_cut_demotions. rewrite Hgen. split; [|eauto]. intros [?%elem_of_empty|(e' & He' & ?)]; [done|].
  assert ((h, e) = (h, e')) as [= ->]; [|done]. by eapply (NoDup_fmap_inj fst).
Qed.
End Cuts.

(** C27.  The Lamport clamp, exactly: the entries it keeps are those whose chain ticks strictly forward up to them
    and whose lamport is reached from zero in steps of at most [MAX_LAMPORT_ADVANCE] over the
    lamports of forward chains and of the condemned floor; the clock it stores is the highest
    reached lamport, at most one step per row. *)
Theorem lamport_clamp_exact (entries floor : list ContentRow) :
  rows_ok entries floor →
  let '(cut, clock) := bounded_advance_walk entries floor (monotonicity_cuts entries) in
  (∀ h e, (h, e) ∈ entries → h ∉ chain_cut_demotions entries cut ↔
     chain_increases entries e ∧ clock_reaches entries floor (ch_lamport e)) ∧
  (clock = 0 ∨ clock_reaches entries floor clock) ∧ (∀ l, clock_reaches entries floor l → l ≤ clock) ∧
  0 ≤ clock ≤ MAX_LAMPORT_ADVANCE * (len entries + len floor).
Proof.
  intros Hok. pose proof (bounded_advance_spec entries floor Hok) as Hs.
  destruct (bounded_advance_walk entries floor (monotonicity_cuts entries)) as [cut clock].
  destruct Hs as (Hk & Hrest). split; [|done]. intros h e He.
  rewrite <- (Hk h e He), (elem_of_demotions entries floor Hok cut h e He). by destruct (at_or_above cut e).
Qed.

(** ** Witnesses

    Two entries of one chain with a step of the largest advance, and one beyond it. *)

Definition wit_clock_header (seq lamport : Z) : ContentEntryHeader :=
  mkContentEntryHeader (replicate 32 x01) (replicate 32 x02) (replicate 32 x03) seq lamport None None (replicate 32 x04) 0 0 0 None.
Definition wit_clock_rows : list ContentRow :=
  [(replicate 32 x0a, wit_clock_header 0 5); (replicate 32 x0b, wit_clock_header 1 (5 + MAX_LAMPORT_ADVANCE));
   (replicate 32 x0c, wit_clock_header 2 (6 + 2 * MAX_LAMPORT_ADVANCE))].

Lemma wit_clock_rows_ok : rows_ok wit_clock_rows [].
Proof.
  split_and!.
  - intros a b Ha Hb _ Hs. unfold wit_clock_rows in Ha, Hb. set_unfold in Ha. set_unfold in Hb.
    destruct Ha as [->|[->|[->|[]]]], Hb as [->|[->|[->|[]]]]; done.
  - apply (bool_decide_unpack _). by vm_compute.
  - intros r [Hr|?%elem_of_nil]; [|done]. unfold wit_clock_rows in Hr. set_unfold in Hr.
    destruct Hr as [->|[->|[->|[]]]]; by vm_compute.
Qed.

Lemma lamport_clamp_exact_witness :
  replicate 32 x0b ∉ chain_cut_demotions wit_clock_rows
    (bounded_advance_walk wit_clock_rows [] (monotonicity_cuts wit_clock_rows)).1 ∧
  clock_reaches wit_clock_rows [] (5 + MAX_LAMPORT_ADVANCE).
Proof.
  pose proof (lamport_clamp_exact wit_clock_rows [] wit_clock_rows_ok) as Hc.
  assert (replicate 32 x0b ∉ chain_cut_demotions wit_clock_rows
    (bounded_advance_walk wit_clock_rows [] (monotonicity_cuts wit_clock_rows)).1) as Hin
    by (apply (bool_decide_unpack _); by vm_compute).
  split; [exact Hin|]. destruct (bounded_advance_walk _ _ _) as [cut clock]. destruct Hc as [Hk _].
  apply (Hk (replicate 32 x0b) (wit_clock_header 1 (5 + MAX_LAMPORT_ADVANCE))); [|exact Hin]. right. by left.
Defined.
