(* ===== verification/ContentFold.v ===== *)
(** * The content refold ([account/content/storage.rs])

    The acceptance of every candidate of one stream, re-derived from the current fold: the owner of the
    stream is resolved, the authority facts of each candidate are read through per-refold memo tables
    and bound to the content graph, the eligible candidates compete for the slots of their chains, the
    finished verdicts are made prefix-closed and then put under the Lamport discipline of [Lamport].
    [ContentDb] has the rows the pass writes; the rows of the stream it loads are its argument, as the
    query returns them. *)

From S2P Require Import Prelude Cbor Minicbor Hash Op Device Entry Stream Branch Envelope Candidate Refold AccountOps FoldTypes Snapshot Keywrap ContentEnvelope Acceptance Lamport.

Local Open Scope Z_scope.
Local Open Scope run_scope.

(** ** Data *)

Inductive ContentStatus : Type := CSMissingPredecessor | CSRetainedUnfolded.

Definition ContentStatus_as_db_str (s : ContentStatus) : string :=
  match s with CSMissingPredecessor => "parked{missing_predecessor}" | CSRetainedUnfolded => "retained_unfolded" end%string.

Record ResolvedEntry : Type := mkResolvedEntry {
  re_entry_hash : AccountEntryHash;
  re_header : ContentEntryHeader;
  re_owner_account_id : AccountId;
  re_dense_predecessor_reachable : bool;
  re_ownership : AuthorityQuery CitedOwnership;
  re_roster : AuthorityQuery CitedRosterAuthority;
  re_grant : option (AuthorityQuery CitedGrantAuthority);
  re_owner_freshness : CitedFreshness;
  re_author_freshness : CitedFreshness;
  re_subject_hold : SubjectAuthorityHold;
}.

Record AuthorityCaches : Type := mkAuthorityCaches {
  ac_roster : gmap (AccountId * RosterRef * DeviceFingerprint) (AuthorityQuery CitedRosterAuthority);
  ac_grant : gmap (GrantId * AccountId * DeviceFingerprint) (AuthorityQuery CitedGrantAuthority);
  ac_held_control_log : gmap AccountId Z;
  ac_contested : gmap AccountId bool;
  ac_pinned : gmap AccountId bool;
}.
Definition no_authority_caches : AuthorityCaches := mkAuthorityCaches ∅ ∅ ∅ ∅ ∅.

Inductive EvaluatorPhase : Type := EligibilityPhase | FinishedPhase.

(** The rows a content refold writes: [content_entry_status], the [accepted] column of
    [content_entries] and [content_stream_clocks]. *)
Record ContentDb : Type := mkContentDb {
  cd_status : gmap AccountEntryHash string;
  cd_accepted : gset AccountEntryHash;
  cd_clocks : gmap StreamId Z;
}.

Definition same_content_chain (parent child : ContentEntryHeader) : bool :=
  bool_decide (ch_stream_id child = ch_stream_id parent) &&
  bool_decide (ch_author_account_id child = ch_author_account_id parent) &&
  bool_decide (ch_device_fingerprint child = ch_device_fingerprint parent).

(** ** Writes *)

Definition write_verdict (entry_hash : AccountEntryHash) (verdict : ContentAcceptance) (db : ContentDb) : ContentDb :=
  mkContentDb (<[entry_hash := ContentAcceptance_as_db_str verdict]> (cd_status db))
    (match verdict with Accepted => {[entry_hash]} ∪ cd_accepted db | _ => cd_accepted db end) (cd_clocks db).

Definition set_status (entry_hash : AccountEntryHash) (status : ContentStatus) (db : ContentDb) : ContentDb :=
  mkContentDb (<[entry_hash := ContentStatus_as_db_str status]> (cd_status db)) (cd_accepted db) (cd_clocks db).

Definition clear_accepted (rows : list (bytes * bytes)) (db : ContentDb) : ContentDb :=
  mkContentDb (cd_status db) (cd_accepted db ∖ list_to_set rows.*1) (cd_clocks db).

Definition i64_max : Z := 2 ^ 63 - 1.
Definition stored_lamport (lamport : Z) : Z := if bool_decide (lamport ≤ i64_max) then lamport else i64_max.

Definition store_stream_clock (stream_id : StreamId) (clock : Z) (db : ContentDb) : ContentDb :=
  mkContentDb (cd_status db) (cd_accepted db)
    (if bool_decide (clock = 0) then delete stream_id (cd_clocks db) else <[stream_id := stored_lamport clock]> (cd_clocks db)).

Fixpoint declassify_rows_absent_from (hashes : list bytes) (handled : gset AccountEntryHash) (db : ContentDb)
    : result AnyError ContentDb :=
  match hashes with
  | [] => Ok db
  | bs :: hashes =>
      hash ← id_fixed 32 bs;
      declassify_rows_absent_from hashes handled
        (if bool_decide (hash ∈ handled) then db else set_status hash CSRetainedUnfolded db)
  end.

(** ** Binding cited facts *)

Definition map_roster (query : AuthorityQuery RosterContentAuthority) (header : ContentEntryHeader)
    : AuthorityQuery CitedRosterAuthority :=
  match query with
  | Effective authority =>
      Effective (mkCitedRosterAuthority (ch_author_account_id header) (ch_roster_ref header) (ch_stream_id header) authority)
  | UnknownQuery => UnknownQuery
  | Invalid reason => Invalid reason
  end.

Definition map_grant (query : AuthorityQuery GrantDeviceAuthority) (owner_account_id : AccountId) (grant_id : GrantId)
    : AuthorityQuery CitedGrantAuthority :=
  match query with
  | Effective authority => Effective (mkCitedGrantAuthority owner_account_id grant_id authority)
  | UnknownQuery => UnknownQuery
  | Invalid reason => Invalid reason
  end.

Definition misbound (seq : Z) (hash : AccountEntryHash) (coordinate : ChainCoordinate) (view : ContentView) : bool :=
  bool_decide (content_validate_cut_target seq hash coordinate view = Mismatch).

Definition bind_boundary (boundary : AuthorityBoundary) (coordinate : ChainCoordinate) (view : ContentView) : AuthorityBoundary :=
  match boundary with
  | BoundaryCut seq hash => if misbound seq hash coordinate view then BoundaryOpen else boundary
  | _ => boundary
  end.

Definition bind_roster_cut (roster : AuthorityQuery CitedRosterAuthority) (coordinate : ChainCoordinate) (view : ContentView)
    : AuthorityQuery CitedRosterAuthority :=
  match roster with
  | Effective fact =>
      let authority := cr_authority fact in
      Effective (mkCitedRosterAuthority (cr_account_id fact) (cr_roster_ref fact) (cr_stream_id fact)
        (mkRosterContentAuthority (ra_device_fingerprint authority) (ra_role authority)
          (bind_boundary (ra_boundary authority) coordinate view)))
  | _ => roster
  end.

Definition bind_device_boundary (boundary : GrantDeviceBoundary) (coordinate : ChainCoordinate) (view : ContentView)
    : GrantDeviceBoundary :=
  match boundary with
  | GrantCut cut => if misbound (dc_seq cut) (dc_hash cut) coordinate view then GrantOpen else boundary
  | _ => boundary
  end.

Definition bind_grant_cut (grant : option (AuthorityQuery CitedGrantAuthority)) (coordinate : ChainCoordinate) (view : ContentView)
    : option (AuthorityQuery CitedGrantAuthority) :=
  match grant with
  | Some (Effective fact) =>
      Some (Effective (mkCitedGrantAuthority (cg_owner_account_id fact) (cg_grant_id fact)
        (mkGrantDeviceAuthority (gd_grant (cg_authority fact))
          (bind_device_boundary (gd_boundary (cg_authority fact)) coordinate view))))
  | _ => grant
  end.

Definition content_view (headers : list ContentRow) : ContentView := collect_view headers.

Record StreamAuthority : Type := mkStreamAuthority {
  sa_resolved : list ResolvedEntry;
  sa_pinned : list ContentRow;
}.

Section Resolve.
Context `{Minicbor} `{Sha256} `{AuthoritySnapshot}.

(** ** Loading *)

Definition load_content_row (row : bytes * bytes) : result AnyError (option ContentRow) :=
  entry_hash ← id_fixed 32 row.1;
  match decode_content_signed row.2 with
  | Err _ => Ok None
  | Ok signed =>
      if bool_decide (sc_entry_hash signed ≠ entry_hash) then Ok None else Ok (Some (entry_hash, sc_header signed))
  end.

Definition load_stream_headers (rows : list (bytes * bytes)) : result AnyError (list ContentRow) := load_rows load_content_row rows.

(** ** Memo tables *)

Definition author_pinned (account_id : AccountId) (caches : AuthorityCaches) : result AnyError (bool * AuthorityCaches) :=
  match ac_pinned caches !! account_id with
  | Some pinned => Ok (pinned, caches)
  | None =>
      pinned ← sn_account_is_pinned account_id;
      Ok (pinned, mkAuthorityCaches (ac_roster caches) (ac_grant caches) (ac_held_control_log caches) (ac_contested caches)
                    (<[account_id := pinned]> (ac_pinned caches)))
  end.

Definition cached_freshness (account_id : AccountId) (asserted_auth_len : Z) (caches : AuthorityCaches)
    : result AnyError (AuthorityFreshness * AuthorityCaches) :=
  match ac_held_control_log caches !! account_id with
  | Some held => Ok (freshness_of asserted_auth_len held, caches)
  | None =>
      held ← sn_held_control_log_len account_id;
      Ok (freshness_of asserted_auth_len held,
          mkAuthorityCaches (ac_roster caches) (ac_grant caches) (<[account_id := held]> (ac_held_control_log caches))
            (ac_contested caches) (ac_pinned caches))
  end.

Definition cached_contested (account_id : AccountId) (caches : AuthorityCaches) : result AnyError (bool * AuthorityCaches) :=
  match ac_contested caches !! account_id with
  | Some contested => Ok (contested, caches)
  | None =>
      contested ← sn_account_is_contested account_id;
      Ok (contested, mkAuthorityCaches (ac_roster caches) (ac_grant caches) (ac_held_control_log caches)
                       (<[account_id := contested]> (ac_contested caches)) (ac_pinned caches))
  end.

Definition cached_roster (header : ContentEntryHeader) (caches : AuthorityCaches)
    : result AnyError (AuthorityQuery CitedRosterAuthority * AuthorityCaches) :=
  let key := (ch_author_account_id header, ch_roster_ref header, ch_device_fingerprint header) in
  match ac_roster caches !! key with
  | Some cached => Ok (cached, caches)
  | None =>
      query ← sn_roster_content_authority (ch_author_account_id header) (ch_roster_ref header) (ch_device_fingerprint header)
                (ch_stream_id header);
      let resolved := map_roster query header in
      Ok (resolved, mkAuthorityCaches (<[key := resolved]> (ac_roster caches)) (ac_grant caches) (ac_held_control_log caches)
                      (ac_contested caches) (ac_pinned caches))
  end.

Definition cached_grant (owner_account_id : AccountId) (header : ContentEntryHeader) (caches : AuthorityCaches)
    : result AnyError (option (AuthorityQuery CitedGrantAuthority) * AuthorityCaches) :=
  match ch_grant_id header with
  | None => Ok (None, caches)
  | Some grant_id =>
      let key := (grant_id, ch_author_account_id header, ch_device_fingerprint header) in
      match ac_grant caches !! key with
      | Some cached => Ok (Some cached, caches)
      | None =>
          query ← sn_grant_effective_for_device owner_account_id grant_id (ch_stream_id header) (ch_author_account_id header)
                    (ch_device_fingerprint header);
          let resolved := map_grant query owner_account_id grant_id in
          Ok (Some resolved, mkAuthorityCaches (ac_roster caches) (<[key := resolved]> (ac_grant caches))
                               (ac_held_control_log caches) (ac_contested caches) (ac_pinned caches))
      end
  end.

(** [owner_contested || caches.contested(..)?]: the second read is skipped after a contested owner. *)
Definition subject_hold (owner_contested : bool) (account_id : AccountId) (caches : AuthorityCaches)
    : result AnyError (SubjectAuthorityHold * AuthorityCaches) :=
  '(contested, caches) ← (if owner_contested then Ok (true, caches) else cached_contested account_id caches);
  Ok (if (contested : bool) then HoldContested else HoldClear, caches).

(** ** Resolving *)

Section Stream.
Context (owner_account_id : AccountId) (owner_contested : bool) (view : ContentView) (reachable : gset AccountEntryHash).

(** One turn of the loop for an author that is not pinned. *)
Definition resolve_entry (row : ContentRow) (caches : AuthorityCaches) : result AnyError (ResolvedEntry * AuthorityCaches) :=
  let '(entry_hash, header) := row in
  '(roster, caches) ← cached_roster header caches;
  '(grant, caches) ← cached_grant owner_account_id header caches;
  '(owner_state, caches) ← cached_freshness owner_account_id (ch_owner_auth_len header) caches;
  '(author_state, caches) ← cached_freshness (ch_author_account_id header) (ch_author_auth_len header) caches;
  '(hold, caches) ← subject_hold owner_contested (ch_author_account_id header) caches;
  Ok (mkResolvedEntry entry_hash header owner_account_id (bool_decide (entry_hash ∈ reachable))
        (Effective (mkCitedOwnership owner_account_id (ch_stream_id header)))
        (bind_roster_cut roster (chain_coordinate_of header) view) (bind_grant_cut grant (chain_coordinate_of header) view)
        (mkCitedFreshness owner_account_id (ch_owner_auth_len header) owner_state)
        (mkCitedFreshness (ch_author_account_id header) (ch_author_auth_len header) author_state) hold, caches).

Fixpoint resolve_content_loop (headers : list ContentRow) (caches : AuthorityCaches) : result AnyError StreamAuthority :=
  match headers with
  | [] => Ok (mkStreamAuthority [] [])
  | row :: headers =>
      '(pinned, caches) ← author_pinned (ch_author_account_id row.2) caches;
      if (pinned : bool) then
        rest ← resolve_content_loop headers caches;
        Ok (mkStreamAuthority (sa_resolved rest) (row :: sa_pinned rest))
      else
        '(r, caches) ← resolve_entry row caches;
        rest ← resolve_content_loop headers caches;
        Ok (mkStreamAuthority (r :: sa_resolved rest) (sa_pinned rest))
  end.
End Stream.

(** The [Run] is for [reachable_entries]. *)
Definition resolve_stream_authority (rows : list (bytes * bytes)) (owner_account_id : AccountId) : Run StreamAuthority :=
  headers <- Some (load_stream_headers rows) ;;
  let view := content_view headers in
  reachable <- of_option (reachable_entries same_content_chain view) ;;
  owner_contested <- Some (sn_account_is_contested owner_account_id) ;;
  Some (resolve_content_loop owner_account_id owner_contested view reachable headers no_authority_caches).

Definition declassify_stream_to_structural (rows : list (bytes * bytes)) (db : ContentDb) : Run ContentDb :=
  headers <- Some (load_stream_headers rows) ;;
  reachable <- of_option (reachable_entries same_content_chain (content_view headers)) ;;
  let db := clear_accepted rows db in
  let db := foldl (fun db (row : ContentRow) =>
                     set_status row.1 (if bool_decide (row.1 ∈ reachable) then CSRetainedUnfolded else CSMissingPredecessor) db)
              db headers in
  Some (declassify_rows_absent_from rows.*1 (list_to_set headers.*1) db).
End Resolve.

(** ** Verdicts *)

Definition content_ancestry_relation (view : ContentView) (target watermark : AccountEntryHash) : AncestryRelation :=
  default (UnknownRelation IncompleteCutAncestry) (content_ancestry target watermark view).

Definition content_input (r : ResolvedEntry) (view : ContentView) (branch_selected : bool) : ContentAcceptanceInput :=
  mkContentAcceptanceInput (re_header r) (re_entry_hash r) (re_owner_account_id r) (re_dense_predecessor_reachable r)
    branch_selected (re_ownership r) (re_roster r) (re_grant r) (re_owner_freshness r) (re_author_freshness r)
    (re_subject_hold r) (content_ancestry_relation view).

Definition content_provenance_error : AnyError := Bail "content refold built inconsistent freshness provenance".

Definition content_verdict_for (r : ResolvedEntry) (view : ContentView) (branch_selected : bool) (phase : EvaluatorPhase)
    : Run (option ContentAcceptance) :=
  let input := content_input r view branch_selected in
  match phase with
  | EligibilityPhase => verdict ← authority_verdict input; Some (map_err (fun _ => content_provenance_error) verdict)
  | FinishedPhase => verdict ← evaluate_content_acceptance input; Some (map_err (fun _ => content_provenance_error) (Some <$> verdict))
  end.

Definition roster_pin (r : ResolvedEntry) : list (BranchPin ChainCoordinate) :=
  match re_roster r with
  | Effective roster =>
      match ra_boundary (cr_authority roster) with
      | BoundaryCut seq hash => [mkBranchPin (chain_coordinate_of (re_header r)) seq hash]
      | _ => []
      end
  | _ => []
  end.

Definition grant_pin (r : ResolvedEntry) : list (BranchPin ChainCoordinate) :=
  match re_grant r with
  | Some (Effective grant) =>
      match ga_role (gd_grant (cg_authority grant)), gd_boundary (cg_authority grant) with
      | Writer, GrantCut cut => [mkBranchPin (chain_coordinate_of (re_header r)) (dc_seq cut) (dc_hash cut)]
      | _, _ => []
      end
  | _ => []
  end.

Definition content_branch_pins (resolved : list ResolvedEntry) : list (BranchPin ChainCoordinate) :=
  mjoin ((fun r => roster_pin r ++ grant_pin r) <$> resolved).

Definition content_eligible_step (view : ContentView) (eligible : gset AccountEntryHash) (r : ResolvedEntry)
    : Run (gset AccountEntryHash) :=
  verdict <- content_verdict_for r view false EligibilityPhase ;;
  run_ret (match verdict with None => {[re_entry_hash r]} ∪ eligible | Some _ => eligible end).

Abbreviation ContentVerdicts := (gmap AccountEntryHash ContentAcceptance).

Definition content_raw_step (view : ContentView) (selection : BranchSelection) (raw : ContentVerdicts) (r : ResolvedEntry)
    : Run ContentVerdicts :=
  verdict <- content_verdict_for r view (bool_decide (re_entry_hash r ∈ bs_accepted selection)) FinishedPhase ;;
  verdict <- of_option verdict ;;
  run_ret (<[re_entry_hash r := verdict]> raw).

Definition content_raw_accepted (raw : ContentVerdicts) (hash : AccountEntryHash) : bool :=
  match raw !! hash with Some Accepted => true | _ => false end.

(** No winner is passed over on a content chain. *)
Definition content_prefix_closed (resolved : list ResolvedEntry) (selection : BranchSelection) (raw : ContentVerdicts)
    : gset AccountEntryHash :=
  prefix_closed_accepted (content_raw_accepted raw) (winner_rows re_entry_hash re_header (fun _ => false) resolved selection).

Definition raw_condemned (raw : ContentVerdicts) (r : ResolvedEntry) : bool :=
  match raw !! re_entry_hash r with Some (Condemned _) => true | _ => false end.

Definition row_of (r : ResolvedEntry) : ContentRow := (re_entry_hash r, re_header r).

Definition clock_floor (resolved : list ResolvedEntry) (raw : ContentVerdicts) (pinned : list ContentRow) : list ContentRow :=
  (row_of <$> filter (fun r => raw_condemned raw r = true) resolved) ++ pinned.

Definition accepted_rows (resolved : list ResolvedEntry) (accepted : gset AccountEntryHash) : list ContentRow :=
  row_of <$> filter (fun r => re_entry_hash r ∈ accepted) resolved.

Definition lamport_advance_clamped (resolved : list ResolvedEntry) (accepted : gset AccountEntryHash) (condemned : list ContentRow)
    : gset AccountEntryHash * gset AccountEntryHash * Z :=
  let entries := accepted_rows resolved accepted in
  let '(cut, clock) := bounded_advance_walk entries condemned (monotonicity_cuts entries) in
  let parked := chain_cut_demotions entries cut in
  (accepted ∖ parked, parked, clock).

(** The [None] is the panic of [raw[&hash]] on a missing row. *)
Definition content_final_verdict (accepted lamport_parked : gset AccountEntryHash) (selection : BranchSelection)
    (raw : ContentVerdicts) (hash : AccountEntryHash) : option ContentAcceptance :=
  if bool_decide (hash ∈ accepted) then Some Accepted
  else if bool_decide (hash ∈ lamport_parked) then Some (Parked LamportAhead)
  else if bool_decide (hash ∈ bs_forked selection) then Some Forked
  else
    verdict ← raw !! hash;
    Some match verdict with
         | Accepted => Parked AuthorAuthLenAhead
         | Forked => Parked MissingPredecessor
         | other => other
         end.

Definition content_write_step (accepted lamport_parked : gset AccountEntryHash) (selection : BranchSelection)
    (raw : ContentVerdicts) (db : ContentDb) (r : ResolvedEntry) : Run ContentDb :=
  verdict <- of_option (content_final_verdict accepted lamport_parked selection raw (re_entry_hash r)) ;;
  run_ret (write_verdict (re_entry_hash r) verdict db).

Definition resolved_view (resolved : list ResolvedEntry) : ContentView := content_view (row_of <$> resolved).

(** ** The pass *)

Section Pass.
Context `{Minicbor} `{Sha256} `{AuthoritySnapshot}.

Definition refold_resolved (stream_id : StreamId) (resolved : list ResolvedEntry) (pinned : list ContentRow) (db : ContentDb)
    : Run ContentDb :=
  let view := resolved_view resolved in
  eligible <- run_foldl (content_eligible_step view) ∅ resolved ;;
  selection <- of_option (content_select_accepted_branch (candidates_of re_entry_hash re_header resolved) eligible
                            (content_branch_pins resolved) view) ;;
  raw <- run_foldl (content_raw_step view selection) ∅ resolved ;;
  let accepted := content_prefix_closed resolved selection raw in
  let '(accepted, lamport_parked, clock) := lamport_advance_clamped resolved accepted (clock_floor resolved raw pinned) in
  let db := store_stream_clock stream_id clock db in
  run_foldl (content_write_step accepted lamport_parked selection raw) db resolved.

Definition refold_content_stream (stream_id : StreamId) (rows : list (bytes * bytes)) (db : ContentDb) : Run ContentDb :=
  owner <- Some (sn_stream_owner_account stream_id) ;;
  match owner with
  | None =>
      db <- declassify_stream_to_structural rows db ;;
      run_ret (store_stream_clock stream_id 0 db)
  | Some owner_account_id =>
      authority <- resolve_stream_authority rows owner_account_id ;;
      let resolved := sa_resolved authority in
      let pinned := sa_pinned authority in
      let db := clear_accepted rows db in
      db <- Some (declassify_rows_absent_from rows.*1 (list_to_set (re_entry_hash <$> resolved)) db) ;;
      match resolved, pinned with
      | [], [] => run_ret (store_stream_clock stream_id 0 db)
      | _, _ => refold_resolved stream_id resolved pinned db
      end
  end.
End Pass.
