(* ===== verification/ContentSafety.v ===== *)
(** * What the content refold decides

    The pass of [ContentFold] returns on every store, with rows exactly when the keys are hashes and
    the snapshot answers; its memo tables do not change a fact, and an accepted entry is authorized by the snapshot, sits on a gapless accepted chain whose lamports
    ascend, and is within the clock. *)

From S2P Require Import Prelude Cbor Minicbor Hash Op Device Entry Stream Branch Envelope Candidate Refold AccountOps FoldTypes Snapshot Keywrap ContentEnvelope Acceptance Lamport ContentFold.

Local Open Scope Z_scope.
Local Open Scope run_scope.

(** ** Loading *)

Section Load.
Context `{MinicborLaws} `{Sha256}.

Lemma load_content_row_Some row r :
  load_content_row row = Ok (Some r) →
  ∃ signed, decode_content_signed row.2 = Ok signed ∧ row.1 = sc_entry_hash signed ∧ r = (sc_entry_hash signed, sc_header signed).
Proof using Type.
  unfold load_content_row, id_fixed. case_bool_decide; [|done]. simpl.
  destruct (decode_content_signed row.2) as [signed|e]; [|done]. case_bool_decide as Hne; [done|].
  intros [= <-]. exists signed. by rewrite Hne.
Qed.

Lemma loaded_content_NoDup rows headers : NoDup rows.*1 → load_stream_headers rows = Ok headers → NoDup headers.*1.
Proof using Type. apply load_rows_NoDup. intros row r (s & _ & -> & ->)%load_content_row_Some. done. Qed.

Lemma loaded_content_sub rows headers h hd : load_stream_headers rows = Ok headers → (h, hd) ∈ headers → h ∈ rows.*1.
Proof using Type.
  intros Hl Hh. destruct (elem_of_load_rows _ _ _ _ Hl Hh) as (row & Hrow & (s & _ & Hs & [= -> _])%load_content_row_Some).
  rewrite <- Hs. by apply list_elem_of_fmap_2.
Qed.

Lemma loaded_content_wf rows headers h hd : load_stream_headers rows = Ok headers → (h, hd) ∈ headers → content_header_wf hd.
Proof using Type*.
  intros Hl Hh. destruct (elem_of_load_rows _ _ _ _ Hl Hh) as (row & _ & (s & Hd & _ & [= -> ->])%load_content_row_Some).
  unfold decode_content_signed in Hd. case_bool_decide; [done|].
  destruct (decode_content_signed_cbor row.2) as [s'|e] eqn:Hc; simpl in Hd; [|done]. injection Hd as ->.
  by apply decode_content_cbor_sound in Hc as (? & _).
Qed.
End Load.

(** ** The memo tables do not change the facts *)

Section Facts.
Context `{AuthoritySnapshot} (stream_id : StreamId).

(** The cited facts of a header, read from the snapshot. *)
Definition cited_roster (header : ContentEntryHeader) : result AnyError (AuthorityQuery CitedRosterAuthority) :=
  (fun query => map_roster query header) <$>
    sn_roster_content_authority (ch_author_account_id header) (ch_roster_ref header) (ch_device_fingerprint header)
      (ch_stream_id header).

Definition cited_grant (owner_account_id : AccountId) (header : ContentEntryHeader)
    : result AnyError (option (AuthorityQuery CitedGrantAuthority)) :=
  match ch_grant_id header with
  | None => Ok None
  | Some grant_id =>
      (fun query => Some (map_grant query owner_account_id grant_id)) <$>
        sn_grant_effective_for_device owner_account_id grant_id (ch_stream_id header) (ch_author_account_id header)
          (ch_device_fingerprint header)
  end.

(** Every memoized answer is what the snapshot returns for a header of the stream. *)
Record content_caches_ok (owner_account_id : AccountId) (c : AuthorityCaches) : Prop := {
  cc_roster header q : ch_stream_id header = stream_id →
    ac_roster c !! (ch_author_account_id header, ch_roster_ref header, ch_device_fingerprint header) = Some q →
    cited_roster header = Ok q;
  cc_grant header grant_id q : ch_stream_id header = stream_id → ch_grant_id header = Some grant_id →
    ac_grant c !! (grant_id, ch_author_account_id header, ch_device_fingerprint header) = Some q →
    cited_grant owner_account_id header = Ok (Some q);
  cc_held account_id held : ac_held_control_log c !! account_id = Some held → sn_held_control_log_len account_id = Ok held;
  cc_contested account_id b : ac_contested c !! account_id = Some b → sn_account_is_contested account_id = Ok b;
  cc_pinned account_id b : ac_pinned c !! account_id = Some b → sn_account_is_pinned account_id = Ok b;
}.

Lemma no_authority_caches_ok owner : content_caches_ok owner no_authority_caches.
Proof using Type. by split. Qed.

Section Cached.
Context (owner : AccountId).
Abbreviation ok := (content_caches_ok owner).

Lemma author_pinned_as account_id c : ok c → cached_as ok (author_pinned account_id c) (sn_account_is_pinned account_id).
Proof using Type.
  intros Hc. apply cached_lookup; [done|apply Hc|]. intros b Hb. split; simpl; try apply Hc.
  intros a' b'. rewrite lookup_insert_Some. intros [[<- <-]|[_ ?]]; [done|by apply (cc_pinned _ _ Hc)].
Qed.

Lemma cached_contested_as account_id c : ok c → cached_as ok (cached_contested account_id c) (sn_account_is_contested account_id).
Proof using Type.
  intros Hc. apply cached_lookup; [done|apply Hc|]. intros b Hb. split; simpl; try apply Hc.
  intros a' b'. rewrite lookup_insert_Some. intros [[<- <-]|[_ ?]]; [done|by apply (cc_contested _ _ Hc)].
Qed.

Lemma cached_freshness_as account_id asserted c :
  ok c → cached_as ok (cached_freshness account_id asserted c) (freshness_of asserted <$> sn_held_control_log_len account_id).
Proof using Type.
  intros Hc. unfold cached_freshness, cached_as. destruct (ac_held_control_log c !! account_id) as [z|] eqn:Hz.
  { by rewrite (cc_held _ _ Hc _ _ Hz). }
  destruct (sn_held_control_log_len account_id) as [z|e] eqn:Hs; simpl; [|done]. split; [done|]. split; simpl; try apply Hc.
  intros a' z'. rewrite lookup_insert_Some. intros [[<- <-]|[_ ?]]; [done|by apply (cc_held _ _ Hc)].
Qed.

(** Two headers with one key are given one cited fact. *)
Lemma cached_roster_as header c :
  ch_stream_id header = stream_id → ok c → cached_as ok (cached_roster header c) (cited_roster header).
Proof using Type.
  intros Hst Hc. unfold cached_roster, cached_as. destruct (ac_roster c !! _) as [q|] eqn:Hq; [by rewrite (cc_roster _ _ Hc _ _ Hst Hq)|].
  unfold cited_roster. destruct (sn_roster_content_authority _ _ _ _) as [q|e] eqn:Hs; simpl; [|done]. split; [done|].
  split; simpl; try apply Hc. intros hd' q' Hst'. rewrite lookup_insert_Some.
  intros [[[= Ha Hr Hd] <-]|[_ ?]]; [|by apply (cc_roster _ _ Hc)]. unfold cited_roster.
  rewrite <- Ha, <- Hr, <- Hd, Hst', <- Hst, Hs. simpl. f_equal. unfold map_roster. rewrite Ha, Hr, Hst, Hst'. done.
Qed.

Lemma cached_grant_as header c :
  ch_stream_id header = stream_id → ok c → cached_as ok (cached_grant owner header c) (cited_grant owner header).
Proof using Type.
  intros Hst Hc. unfold cached_grant, cached_as. destruct (ch_grant_id header) as [g|] eqn:Hg; [|by unfold cited_grant; rewrite Hg].
  destruct (ac_grant c !! _) as [q|] eqn:Hq; [by rewrite (cc_grant _ _ Hc _ _ _ Hst Hg Hq)|].
  unfold cited_grant. rewrite Hg. destruct (sn_grant_effective_for_device _ _ _ _ _) as [q|e] eqn:Hs; simpl; [|done].
  split; [done|]. split; simpl; try apply Hc. intros hd' g' q' Hst' Hg'. rewrite lookup_insert_Some.
  intros [[[= <- Ha Hd] <-]|[_ ?]]; [|by eapply (cc_grant _ _ Hc)]. unfold cited_grant.
  rewrite Hg', <- Ha, <- Hd, Hst', <- Hst, Hs. done.
Qed.

Lemma subject_hold_as owner_contested account_id c :
  ok c → cached_as ok (subject_hold owner_contested account_id c)
    (contested ← (if (owner_contested : bool) then Ok true else sn_account_is_contested account_id);
     Ok (if (contested : bool) then HoldContested else HoldClear)).
Proof using Type.
  intros Hc. unfold subject_hold. apply cached_bind; [by destruct owner_contested; [|apply cached_contested_as]|].
  intros b c' Hc'. by apply cached_ret.
Qed.
End Cached.

(** ** Resolving without tables *)

Section Direct.
Context (owner : AccountId) (owner_contested : bool) (view : ContentView) (reachable : gset AccountEntryHash).

Definition direct_content_entry (row : ContentRow) : result AnyError ResolvedEntry :=
  let '(entry_hash, header) := row in
  roster ← cited_roster header;
  grant ← cited_grant owner header;
  owner_state ← freshness_of (ch_owner_auth_len header) <$> sn_held_control_log_len owner;
  author_state ← freshness_of (ch_author_auth_len header) <$> sn_held_control_log_len (ch_author_account_id header);
  hold ← (contested ← (if (owner_contested : bool) then Ok true else sn_account_is_contested (ch_author_account_id header));
          Ok (if (contested : bool) then HoldContested else HoldClear));
  Ok (mkResolvedEntry entry_hash header owner (bool_decide (entry_hash ∈ reachable))
        (Effective (mkCitedOwnership owner (ch_stream_id header)))
        (bind_roster_cut roster (chain_coordinate_of header) view) (bind_grant_cut grant (chain_coordinate_of header) view)
        (mkCitedFreshness owner (ch_owner_auth_len header) owner_state)
        (mkCitedFreshness (ch_author_account_id header) (ch_author_auth_len header) author_state) hold).

Lemma resolve_entry_as row c :
  ch_stream_id row.2 = stream_id → content_caches_ok owner c →
  cached_as (content_caches_ok owner) (resolve_entry owner owner_contested view reachable row c) (direct_content_entry row).
Proof using Type.
  destruct row as [h hd]. simpl. intros Hst Hc. unfold resolve_entry, direct_content_entry.
  apply cached_bind; [by apply cached_roster_as|]. intros roster c1 Hc1.
  apply cached_bind; [by apply cached_grant_as|]. intros grant c2 Hc2.
  apply cached_bind; [by apply cached_freshness_as|]. intros os c3 Hc3.
  apply cached_bind; [by apply cached_freshness_as|]. intros az c4 Hc4.
  apply cached_bind; [by apply subject_hold_as|]. intros hold c5 Hc5. by apply cached_ret.
Qed.

(** The entries that are evaluated: those of authors that are not pinned. *)
Definition unpinned (row : ContentRow) : bool :=
  match sn_account_is_pinned (ch_author_account_id row.2) with Ok false => true | _ => false end.

(** What the loop resolves: the evaluated entries, each on its own. *)
Lemma resolve_content_loop_Ok headers c authority :
  Forall (fun row : ContentRow => ch_stream_id row.2 = stream_id) headers → content_caches_ok owner c →
  resolve_content_loop owner owner_contested view reachable headers c = Ok authority →
  row_of <$> sa_resolved authority = filter (fun row => unpinned row = true) headers ∧
  sa_pinned authority = filter (fun row => unpinned row ≠ true) headers ∧
  ∀ r, r ∈ sa_resolved authority → direct_content_entry (row_of r) = Ok r.
Proof using Type.
  intros Hst. revert c authority. induction Hst as [|row headers Hrow _ IH]; intros c authority Hc; cbn [resolve_content_loop].
  { intros [= <-]. split_and!; [done..|]. by intros r ?%elem_of_nil. }
  pose proof (author_pinned_as owner (ch_author_account_id row.2) c Hc) as Hp.
  destruct (author_pinned (ch_author_account_id row.2) c) as [[pinned c1]|e]; simpl in *; [|done]. destruct Hp as [Hp Hc1].
  destruct pinned.
  - intros Hr. inv_ok. edestruct IH as (Hs & Hps & Hd); [exact Hc1|done|]. simpl.
    assert (unpinned row ≠ true) by (unfold unpinned; by rewrite Hp).
    rewrite filter_cons_False, filter_cons_True by done. split_and!; [done|by rewrite Hps|done].
  - pose proof (resolve_entry_as row c1 Hrow Hc1) as He.
    destruct (resolve_entry owner owner_contested view reachable row c1) as [[r c2]|e]; simpl in *; [|done]. destruct He as [He Hc2].
    intros Hr. inv_ok. edestruct IH as (Hs & Hps & Hd); [exact Hc2|done|]. simpl.
    assert (row_of r = row) as Hro.
    { destruct row as [h hd]. unfold direct_content_entry in He. inv_ok. done. }
    assert (unpinned row = true) by (unfold unpinned; by rewrite Hp).
    rewrite filter_cons_True, filter_cons_False by tauto. split_and!; [by rewrite <- Hs, Hro|done|].
    intros r' [->|Hr']%elem_of_cons; [|by apply Hd]. by rewrite <- Hro in He.
Qed.
End Direct.
End Facts.

(** ** The two phases *)

Lemma content_authority_total i : is_Some (authority_verdict i).
Proof.
  unfold authority_verdict. destruct (negb _); [by eexists|]. destruct (cited_boundaries i) as [bs|v]; [|by eexists].
  destruct (combine_spec (ch_seq (in_header i)) (in_entry_hash i) (in_ancestry i) bs) as (d & -> & _). by eexists.
Qed.

Definition content_finished (view : ContentView) (selection : BranchSelection) (r : ResolvedEntry) (v : ContentAcceptance) : Prop :=
  evaluate_content_acceptance (content_input r view (bool_decide (re_entry_hash r ∈ bs_accepted selection))) = Some (Ok v).

Lemma content_eligibility r view :
  ∃ v, content_verdict_for r view false EligibilityPhase = Some v ∧
    ∀ o, v = Ok o → authority_verdict (content_input r view false) = Some (Ok o).
Proof.
  unfold content_verdict_for. destruct (content_authority_total (content_input r view false)) as [[o|e] ->]; simpl;
    eexists; (split; [done|]); [by intros ? [= <-]|done].
Qed.

Lemma content_finishes r view selected :
  ∃ v, content_verdict_for r view selected FinishedPhase = Some v ∧
    ∀ o, v = Ok o → ∃ a, o = Some a ∧ evaluate_content_acceptance (content_input r view selected) = Some (Ok a).
Proof.
  unfold content_verdict_for.
  destruct (evaluate_cases (content_input r view selected)) as [[_ ->]|[(_ & v & _ & _ & ->)|(_ & bs & d & _ & _ & ->)]]; simpl;
    eexists; (split; [done|]); [done|intros ? [= <-]; by eexists..].
Qed.

Lemma provenance_verdict r view selected phase :
  freshness_provenance (content_input r view selected) = true → ∃ o, content_verdict_for r view selected phase = Some (Ok o).
Proof.
  intros Hp. unfold content_verdict_for. destruct phase.
  - destruct (content_authority_total (content_input r view selected)) as [[o|e] Ha]; rewrite Ha; simpl; [by exists o|].
    unfold authority_verdict in Ha. rewrite Hp in Ha. simpl in Ha. destruct (cited_boundaries _); [|done].
    by apply bind_Some in Ha as (? & _ & ?).
  - destruct (evaluate_cases (content_input r view selected)) as [[Hp' _]|[(_ & v & _ & _ & ->)|(_ & bs & d & _ & _ & ->)]];
      [congruence|by eexists..].
Qed.

Lemma content_eligible_step_total view eligible r : is_Some (content_eligible_step view eligible r).
Proof. unfold content_eligible_step. destruct (content_eligibility r view) as ([o|e] & -> & _); by eexists. Qed.

Lemma content_raw_step_total view selection raw r : is_Some (content_raw_step view selection raw r).
Proof.
  unfold content_raw_step. edestruct (content_finishes r view) as ([o|e] & -> & Hv); [|by eexists].
  destruct (Hv o eq_refl) as (a & -> & _). by eexists.
Qed.

Lemma content_eligible_Ok view resolved eligible :
  run_foldl (content_eligible_step view) ∅ resolved = Some (Ok eligible) →
  ∀ h, h ∈ eligible ↔ ∃ r, r ∈ resolved ∧ re_entry_hash r = h ∧ authority_verdict (content_input r view false) = Some (Ok None).
Proof.
  apply (run_foldl_inv _ (fun past (eligible : gset AccountEntryHash) =>
    ∀ h, h ∈ eligible ↔ ∃ r, r ∈ past ∧ re_entry_hash r = h ∧ authority_verdict (content_input r view false) = Some (Ok None))).
  - intros h. split; [by intros ?%elem_of_empty|]. by intros (r & ?%elem_of_nil & _).
  - intros past e r e' He _ Hs h. setoid_rewrite elem_of_app. setoid_rewrite list_elem_of_singleton.
    unfold content_eligible_step in Hs. destruct (content_eligibility r view) as ([o|x] & Hv & Ho); rewrite Hv in Hs; [|done].
    specialize (Ho o eq_refl). cbn in Hs. injection Hs as <-. destruct o as [v|].
    + rewrite He. split; [intros (r' & ? & ? & ?); exists r'; auto|]. intros (r' & [?| ->] & ? & Hn); [by exists r'|congruence].
    + rewrite elem_of_union, elem_of_singleton, He. split.
      * intros [->|(r' & ? & ? & ?)]; [exists r; auto|exists r'; auto].
      * intros (r' & [?| ->] & Heq & Hn); [right; by exists r'|by left].
Qed.

Lemma content_raw_Ok view selection resolved raw :
  NoDup (re_entry_hash <$> resolved) → run_foldl (content_raw_step view selection) ∅ resolved = Some (Ok raw) →
  ∀ r, r ∈ resolved → ∃ v, raw !! re_entry_hash r = Some v ∧ content_finished view selection r v.
Proof.
  intros Hnd Hrun. apply (run_foldl_inv _ (fun past (raw : ContentVerdicts) => past ⊆ resolved ∧
    ∀ r, r ∈ past → ∃ v, raw !! re_entry_hash r = Some v ∧ content_finished view selection r v)) in Hrun.
  - apply Hrun.
  - split; [apply list_subseteq_nil|]. by intros r ?%elem_of_nil.
  - intros past w r w' [Hsub Hw] Hr Hs. split; [set_solver|]. unfold content_raw_step in Hs.
    destruct (content_finishes r view (bool_decide (re_entry_hash r ∈ bs_accepted selection))) as ([o|x] & Hv & Ho);
      rewrite Hv in Hs; [|done].
    destruct (Ho o eq_refl) as (a & -> & Ha). cbn in Hs. injection Hs as <-.
    intros r' [Hr'| ->%list_elem_of_singleton]%elem_of_app; [|by exists a; rewrite lookup_insert_eq].
    destruct (decide (re_entry_hash r = re_entry_hash r')) as [Heq|Hne].
    + assert (r = r') as <- by (eapply NoDup_fmap_inj; [exact Hnd|done|by apply Hsub|done]). exists a. by rewrite lookup_insert_eq.
    + rewrite lookup_insert_ne by done. by apply Hw.
Qed.

(** ** The pass over resolved entries *)

Section Resolved.
Context (resolved : list ResolvedEntry) (pinned : list ContentRow).
Context (Hnd : NoDup (re_entry_hash <$> resolved)) (Hpnd : NoDup pinned.*1)
  (Hwf : ∀ r, r ∈ resolved → content_header_wf (re_header r)) (Hpwf : ∀ p : ContentRow, p ∈ pinned → content_header_wf p.2).

Abbreviation view := (resolved_view resolved).
Abbreviation candidates := (candidates_of re_entry_hash re_header resolved).

Lemma content_candidates_ok : candidates_ok candidates.
Proof using Hnd Hwf.
  split.
  - unfold candidates_of. rewrite <- list_fmap_compose. exact Hnd.
  - apply Forall_forall. intros c (r & -> & Hr)%list_elem_of_fmap. destruct (Hwf r Hr) as (_ & _ & _ & ? & _). done.
Qed.

Section Selected.
Context (eligible : gset AccountEntryHash) (selection : BranchSelection) (raw : ContentVerdicts).
Context (Hsel : content_select_accepted_branch candidates eligible (content_branch_pins resolved) view = Some selection)
  (Hraw : ∀ r, r ∈ resolved → ∃ v, raw !! re_entry_hash r = Some v ∧ content_finished view selection r v).

Abbreviation accepted := (content_prefix_closed resolved selection raw).
Abbreviation finishes := (fun r => content_finished view selection r Accepted).

Lemma finishes_iff r : r ∈ resolved → content_raw_accepted raw (re_entry_hash r) = true ↔ finishes r.
Proof using Hraw.
  intros Hr. destruct (Hraw r Hr) as (v & Hv & Hf). unfold content_raw_accepted. rewrite Hv. unfold content_finished in *. split.
  - intros Ha. by destruct v.
  - intros Ha. rewrite Hf in Ha. by injection Ha as ->.
Qed.

Lemma finishes_selected r : r ∈ resolved → finishes r → selected re_entry_hash resolved selection r.
Proof using Type.
  intros Hr Hf. apply accepted_cases in Hf as (_ & _ & _ & _ & Hb & _). split; [done|]. by apply bool_decide_eq_true in Hb.
Qed.

Abbreviation passes := (below_passes re_entry_hash re_header (fun _ => false) resolved selection finishes).

Lemma elem_of_content_accepted h :
  h ∈ accepted ↔ ∃ r, r ∈ resolved ∧ re_entry_hash r = h ∧ finishes r ∧ passes r.
Proof using Hnd Hwf Hsel Hraw.
  eapply elem_of_accepted; [apply content_candidates_ok|exact Hsel|exact finishes_iff|exact finishes_selected].
Qed.

Abbreviation entries := (accepted_rows resolved accepted).
Abbreviation floor := (clock_floor resolved raw pinned).

Lemma elem_of_accepted_rows h hd :
  (h, hd) ∈ entries ↔ ∃ r, r ∈ resolved ∧ row_of r = (h, hd) ∧ h ∈ accepted.
Proof using Type.
  unfold accepted_rows. rewrite list_elem_of_fmap. setoid_rewrite list_elem_of_filter. split.
  - intros (r & Hr & Ha & Hin). exists r. split_and!; [done|done|]. injection Hr as -> _. done.
  - intros (r & Hin & Hr & Ha). exists r. split_and!; [done| |done]. by injection Hr as -> _.
Qed.

Lemma content_rows_ok : rows_ok entries floor.
Proof using All.
  split_and!.
  - intros [ha a] [hb b] (ra & Hra & [= <- <-] & Ha)%elem_of_accepted_rows (rb & Hrb & [= <- <-] & Hb)%elem_of_accepted_rows Hc Hs.
    simpl in *. assert (ra = rb) as ->; [|done].
    apply elem_of_content_accepted in Ha as (ra' & Hra' & Heqa & Hfa & _), Hb as (rb' & Hrb' & Heqb & Hfb & _).
    assert (ra' = ra) as -> by (by eapply (NoDup_fmap_inj re_entry_hash)).
    assert (rb' = rb) as -> by (by eapply (NoDup_fmap_inj re_entry_hash)).
    eapply selected_unique; [apply content_candidates_ok|exact Hsel|by apply finishes_selected..|done|done].
  - unfold accepted_rows. rewrite <- list_fmap_compose. change (NoDup (re_entry_hash <$> filter (fun r => re_entry_hash r ∈ accepted) resolved)).
    eapply sublist_NoDup; [exact Hnd|]. apply fmap_sublist, sublist_filter.
  - assert (∀ hd, content_header_wf hd → 0 ≤ ch_lamport hd ≤ u64_max) as Hl by (intros hd (_ & _ & _ & _ & ? & _); done).
    intros [h hd] [(r & Hr & [= <- <-] & _)%elem_of_accepted_rows|Hf]; [by apply Hl, Hwf|].
    apply elem_of_app in Hf as [(r & [= -> ->] & [_ Hr]%list_elem_of_filter)%list_elem_of_fmap|Hp]; [by apply Hl, Hwf|by apply Hl, (Hpwf (h, hd))].
Qed.

(** The clamp keeps the accepted entries the clock reaches. *)
Lemma clamp_spec :
  let '(kept, parked, clock) := lamport_advance_clamped resolved accepted floor in
  (∀ h, h ∈ kept ↔ ∃ r, r ∈ resolved ∧ re_entry_hash r = h ∧ h ∈ accepted ∧ chain_increases entries (re_header r) ∧
                     clock_reaches entries floor (ch_lamport (re_header r))) ∧
  (clock = 0 ∨ clock_reaches entries floor clock) ∧ (∀ l, clock_reaches entries floor l → l ≤ clock) ∧
  0 ≤ clock ≤ MAX_LAMPORT_ADVANCE * (len entries + len floor).
Proof using All.
  unfold lamport_advance_clamped. pose proof content_rows_ok as Hok. pose proof (bounded_advance_spec entries floor Hok) as Hs.
  destruct (bounded_advance_walk entries floor (monotonicity_cuts entries)) as [cut clock]. destruct Hs as (Hk & Hrest).
  split; [|done]. intros h. rewrite elem_of_difference.
  assert (∀ r, r ∈ resolved → re_entry_hash r ∈ accepted → (re_entry_hash r, re_header r) ∈ entries) as Hin.
  { intros r Hr Ha. apply elem_of_accepted_rows. by exists r. }
  split.
  - intros [Ha Hn]. pose proof Ha as (r & Hr & <- & _)%elem_of_content_accepted. exists r. split_and!; try done.
    all: apply (Hk (re_entry_hash r)); [by apply Hin|].
    all: destruct (at_or_above cut (re_header r)) eqn:Hcut; [|done].
    all: apply (elem_of_demotions entries floor Hok cut _ _ (Hin r Hr Ha)) in Hcut; done.
  - intros (r & Hr & <- & Ha & Hc). split; [done|]. apply (Hk (re_entry_hash r) _ (Hin r Hr Ha)) in Hc.
    intros Hd%(elem_of_demotions entries floor Hok cut _ _ (Hin r Hr Ha)). congruence.
Qed.

(** The write loop: it never fails, and leaves the accepted rows and the clocks as said. *)
Lemma final_verdict_total kept parked r :
  r ∈ resolved → ∃ v, content_final_verdict kept parked selection raw (re_entry_hash r) = Some v ∧
    (v = Accepted ↔ re_entry_hash r ∈ kept).
Proof using Hraw.
  intros Hr. destruct (Hraw r Hr) as (v & Hv & _). unfold content_final_verdict. rewrite Hv.
  case_bool_decide as Hk; [by eexists|]. case_bool_decide; [by eexists|]. case_bool_decide; [by eexists|].
  simpl. eexists. split; [done|]. by destruct v.
Qed.

Lemma content_writes kept parked db :
  ∃ db', run_foldl (content_write_step kept parked selection raw) db resolved = Some (Ok db') ∧
    cd_clocks db' = cd_clocks db ∧
    ∀ h, h ∈ cd_accepted db' ↔ h ∈ cd_accepted db ∨ (h ∈ re_entry_hash <$> resolved ∧ h ∈ kept).
Proof using Hraw.
  assert (∀ l db, (∀ r, r ∈ l → r ∈ resolved) →
    ∃ db', run_foldl (content_write_step kept parked selection raw) db l = Some (Ok db') ∧ cd_clocks db' = cd_clocks db ∧
    ∀ h, h ∈ cd_accepted db' ↔ h ∈ cd_accepted db ∨ (h ∈ re_entry_hash <$> l ∧ h ∈ kept)) as Hgen; [|by apply Hgen].
  clear db. intros l. induction l as [|r l IH]; intros db Hsub; cbn [run_foldl].
  { exists db. split_and!; [done..|]. intros h. split; [by left|]. intros [?|[?%elem_of_nil _]]; done. }
  unfold content_write_step at 1. destruct (final_verdict_total kept parked r) as (v & -> & Hv); [apply Hsub; by left|]. simpl.
  destruct (IH (write_verdict (re_entry_hash r) v db)) as (db' & Hrun & Hc & Ha); [intros r' ?; apply Hsub; by right|].
  exists db'. split_and!; [done|by rewrite Hc|]. intros h. rewrite Ha. change (re_entry_hash <$> r :: l) with (re_entry_hash r :: (re_entry_hash <$> l)).
  rewrite elem_of_cons. simpl. assert (v = Accepted ∨ v ≠ Accepted) as [->|Hne] by (destruct v; auto).
  - rewrite elem_of_union, elem_of_singleton. assert (h = re_entry_hash r → h ∈ kept) by (intros ->; by apply Hv). tauto.
  - assert (match v with Accepted => {[re_entry_hash r]} ∪ cd_accepted db | _ => cd_accepted db end = cd_accepted db) as ->
      by (by destruct v).
    assert (h = re_entry_hash r → h ∉ kept) by (intros -> ?; by apply Hne, Hv). tauto.
Qed.
End Selected.

(** What a pass over resolved entries has computed when it returns rows. *)
Record content_pass (eligible : gset AccountEntryHash) (selection : BranchSelection) (raw : ContentVerdicts) : Prop := {
  cp_eligible h : h ∈ eligible ↔
    ∃ r, r ∈ resolved ∧ re_entry_hash r = h ∧ authority_verdict (content_input r view false) = Some (Ok None);
  cp_selection : content_select_accepted_branch candidates eligible (content_branch_pins resolved) view = Some selection;
  cp_raw r : r ∈ resolved → ∃ v, raw !! re_entry_hash r = Some v ∧ content_finished view selection r v;
}.

Lemma refold_resolved_spec stream_id db :
  ∃ res, refold_resolved stream_id resolved pinned db = Some res ∧
    ∀ db', res = Ok db' → ∃ eligible selection raw, content_pass eligible selection raw ∧
      let '(kept, parked, clock) :=
        lamport_advance_clamped resolved (content_prefix_closed resolved selection raw) (clock_floor resolved raw pinned) in
      cd_clocks db' = cd_clocks (store_stream_clock stream_id clock db) ∧
      ∀ h, h ∈ cd_accepted db' ↔ h ∈ cd_accepted db ∨ (h ∈ re_entry_hash <$> resolved ∧ h ∈ kept).
Proof using Hnd Hwf.
  unfold refold_resolved.
  destruct (run_foldl_total (content_eligible_step view) (fun _ => True) resolved ∅) as ([eligible|e] & Hel & _); [done| |rewrite Hel|rewrite Hel; by eexists].
  { intros b a _ _. destruct (content_eligible_step_total view b a) as [x ->]. by exists x. }
  simpl. unfold content_select_accepted_branch.
  match goal with |- context [select_accepted_branch candidates eligible ?pins] =>
    destruct (select_spec candidates eligible pins content_candidates_ok) as (selection & Hsel & _) end.
  rewrite Hsel. simpl.
  destruct (run_foldl_total (content_raw_step view selection) (fun _ => True) resolved ∅) as ([raw|e] & Hra & _); [done| |rewrite Hra|rewrite Hra; by eexists].
  { intros b a _ _. destruct (content_raw_step_total view selection b a) as [x ->]. by exists x. }
  simpl. pose proof (content_raw_Ok _ _ _ _ Hnd Hra) as Hraw.
  destruct (lamport_advance_clamped resolved (content_prefix_closed resolved selection raw) (clock_floor resolved raw pinned))
    as [[kept parked] clock] eqn:Hclamp.
  destruct (content_writes selection raw Hraw kept parked (store_stream_clock stream_id clock db)) as (db' & Hw & Hc & Ha).
  rewrite Hw. eexists. split; [done|]. intros db2 [= <-]. exists eligible, selection, raw. rewrite Hclamp. split_and!; [|done|done].
  split; [by apply content_eligible_Ok|exact Hsel|exact Hraw].
Qed.

(** A verdict is an error only of freshness facts that are not those of the entry. *)
Lemma refold_resolved_Ok stream_id db :
  (∀ r v selected, r ∈ resolved → freshness_provenance (content_input r v selected) = true) →
  ∃ db', refold_resolved stream_id resolved pinned db = Some (Ok db').
Proof using Hnd Hwf.
  intros Hprov. unfold refold_resolved.
  destruct (run_foldl_Ok (content_eligible_step view) resolved ∅) as [eligible ->].
  { intros el r Hr. unfold content_eligible_step. destruct (provenance_verdict r view false EligibilityPhase) as [o ->]; [by apply Hprov|].
    by destruct o; eexists. }
  simpl. unfold content_select_accepted_branch.
  match goal with |- context [select_accepted_branch candidates eligible ?pins] =>
    destruct (select_spec candidates eligible pins content_candidates_ok) as (selection & Hsel & _) end.
  rewrite Hsel. simpl. destruct (run_foldl_Ok (content_raw_step view selection) resolved ∅) as [raw Hra].
  { intros raw r Hr. unfold content_raw_step. set (selected := bool_decide _).
    destruct (content_finishes r view selected) as (v & Hv & Hsome).
    destruct (provenance_verdict r view selected FinishedPhase) as [o Ho]; [by apply Hprov|]. rewrite Ho in Hv. simplify_eq.
    destruct (Hsome o eq_refl) as (a & -> & _). rewrite Ho. by eexists. }
  rewrite Hra. simpl. pose proof (content_raw_Ok _ _ _ _ Hnd Hra) as Hraw.
  destruct (lamport_advance_clamped resolved (content_prefix_closed resolved selection raw) (clock_floor resolved raw pinned))
    as [[kept parked] clock].
  destruct (content_writes selection raw Hraw kept parked (store_stream_clock stream_id clock db)) as (db' & Hw & _).
  rewrite Hw. by exists db'.
Qed.
End Resolved.

(** ** The whole pass *)

Lemma declassify_rows_keeps hashes handled db db' :
  declassify_rows_absent_from hashes handled db = Ok db' → cd_accepted db' = cd_accepted db ∧ cd_clocks db' = cd_clocks db.
Proof.
  revert db. induction hashes as [|bs hashes IH]; intros db; cbn [declassify_rows_absent_from]; [by intros [= <-]|].
  intros Hd. inv_ok. match goal with H : declassify_rows_absent_from _ _ _ = _ |- _ => apply IH in H as [-> ->] end.
  by case_bool_decide.
Qed.

Lemma cleared_accepted rows db h : h ∈ rows.*1 → h ∉ cd_accepted (clear_accepted rows db).
Proof. simpl. set_solver. Qed.

Lemma structural_accepted (reachable : gset AccountEntryHash) (headers : list ContentRow) db :
  cd_accepted (foldl (fun db (row : ContentRow) =>
    set_status row.1 (if bool_decide (row.1 ∈ reachable) then CSRetainedUnfolded else CSMissingPredecessor) db) db headers) =
  cd_accepted db.
Proof. revert db. induction headers as [|row headers IH]; intros db; [done|]. cbn [foldl]. by rewrite IH. Qed.

Section Stream.
Context `{MinicborLaws} `{Sha256} `{AuthoritySnapshot}.

(** The rows of a stream hold entries of that stream. *)
Definition rows_of_stream (stream_id : StreamId) (rows : list (bytes * bytes)) : Prop :=
  NoDup rows.*1 ∧
  ∀ headers, load_stream_headers rows = Ok headers → Forall (fun row : ContentRow => ch_stream_id row.2 = stream_id) headers.

Definition evaluated (headers : list ContentRow) : list ContentRow := filter (fun row => unpinned row = true) headers.

(** What resolving the stream returns. *)
Lemma resolve_stream_spec stream_id rows owner :
  rows_of_stream stream_id rows →
  ∃ res, resolve_stream_authority rows owner = Some res ∧
    ∀ authority, res = Ok authority → ∃ headers owner_contested reachable,
      load_stream_headers rows = Ok headers ∧ sn_account_is_contested owner = Ok owner_contested ∧
      (∀ h, h ∈ reachable ↔ held_from_root same_content_chain (content_view headers) h) ∧
      row_of <$> sa_resolved authority = evaluated headers ∧
      sa_pinned authority = filter (fun row => unpinned row ≠ true) headers ∧
      ∀ r, r ∈ sa_resolved authority →
        direct_content_entry owner owner_contested (content_view headers) reachable (row_of r) = Ok r.
Proof using Type.
  intros [Hnd Hst]. unfold resolve_stream_authority. destruct (load_stream_headers rows) as [headers|e] eqn:Hl; [|by eexists].
  simpl. destruct (reachable_entries_spec same_content_chain (content_view headers)) as (reachable & -> & HR). simpl.
  destruct (sn_account_is_contested owner) as [b|e] eqn:Hb; [|by eexists]. simpl. eexists. split; [done|].
  intros authority Ha. exists headers, b, reachable. split_and!; [done|done|done|..];
    by apply (resolve_content_loop_Ok stream_id _ _ _ _ _ _ _ (Hst _ eq_refl) (no_authority_caches_ok _ _) Ha).
Qed.

Lemma resolved_facts rows headers authority :
  NoDup rows.*1 → load_stream_headers rows = Ok headers → row_of <$> sa_resolved authority = evaluated headers →
  sa_pinned authority = filter (fun row => unpinned row ≠ true) headers →
  NoDup (re_entry_hash <$> sa_resolved authority) ∧ NoDup (sa_pinned authority).*1 ∧
  (∀ r, r ∈ sa_resolved authority → (re_entry_hash r, re_header r) ∈ headers ∧ content_header_wf (re_header r)) ∧
  (∀ p : ContentRow, p ∈ sa_pinned authority → content_header_wf p.2).
Proof using All.
  intros Hnd Hl Hr Hp. pose proof (loaded_content_NoDup _ _ Hnd Hl) as Hh.
  assert (re_entry_hash <$> sa_resolved authority = (row_of <$> sa_resolved authority).*1) as -> by by rewrite <- list_fmap_compose.
  rewrite Hr, Hp. split_and!.
  - eapply sublist_NoDup; [exact Hh|]. apply fmap_sublist, sublist_filter.
  - eapply sublist_NoDup; [exact Hh|]. apply fmap_sublist, sublist_filter.
  - intros r Hin. assert (row_of r ∈ evaluated headers) as [_ Hin']%list_elem_of_filter by (rewrite <- Hr; by apply list_elem_of_fmap_2).
    split; [done|]. by eapply loaded_content_wf.
  - intros [h hd] [_ Hin]%list_elem_of_filter. by eapply loaded_content_wf.
Qed.

(** What a refold that evaluates entries has computed. *)
Record content_refolded (rows : list (bytes * bytes)) (owner : AccountId) (headers : list ContentRow)
    (owner_contested : bool) (reachable : gset AccountEntryHash) (authority : StreamAuthority)
    (eligible : gset AccountEntryHash) (selection : BranchSelection) (raw : ContentVerdicts) : Prop := {
  cf_load : load_stream_headers rows = Ok headers;
  cf_contested : sn_account_is_contested owner = Ok owner_contested;
  cf_reach h : h ∈ reachable ↔ held_from_root same_content_chain (content_view headers) h;
  cf_rows : row_of <$> sa_resolved authority = evaluated headers;
  cf_pinned : sa_pinned authority = filter (fun row => unpinned row ≠ true) headers;
  cf_direct r : r ∈ sa_resolved authority →
    direct_content_entry owner owner_contested (content_view headers) reachable (row_of r) = Ok r;
  cf_pass : content_pass (sa_resolved authority) eligible selection raw;
}.

(** The pass returns, and what it accepts among the rows of the stream is what the clamp keeps. *)
Lemma refold_content_spec stream_id rows db :
  rows_of_stream stream_id rows →
  ∃ res, refold_content_stream stream_id rows db = Some res ∧
  ∀ db', res = Ok db' →
    (∀ h, h ∈ rows.*1 → h ∉ cd_accepted db') ∨
    ∃ owner headers owner_contested reachable authority eligible selection raw,
      sn_stream_owner_account stream_id = Ok (Some owner) ∧
      content_refolded rows owner headers owner_contested reachable authority eligible selection raw ∧
      let resolved := sa_resolved authority in
      let '(kept, parked, clock) := lamport_advance_clamped resolved (content_prefix_closed resolved selection raw)
                                      (clock_floor resolved raw (sa_pinned authority)) in
      cd_clocks db' = cd_clocks (store_stream_clock stream_id clock db) ∧
      ∀ h, h ∈ rows.*1 → h ∈ cd_accepted db' ↔ h ∈ re_entry_hash <$> resolved ∧ h ∈ kept.
Proof using All.
  intros Hrows. unfold refold_content_stream. destruct (sn_stream_owner_account stream_id) as [[owner|]|e] eqn:Ho; [..|by eexists].
  2: { simpl. unfold declassify_stream_to_structural. destruct (load_stream_headers rows) as [headers|e]; [|by eexists]. simpl.
       destruct (reachable_entries_spec same_content_chain (content_view headers)) as (reachable & -> & _). simpl.
       destruct (declassify_rows_absent_from _ _ _) as [db1|e] eqn:Hd; [|by eexists]. simpl. eexists. split; [done|].
       intros db' [= <-]. left. intros h Hh. apply declassify_rows_keeps in Hd as [Ha _]. simpl. rewrite Ha, structural_accepted.
       by apply cleared_accepted. }
  simpl. destruct (resolve_stream_spec stream_id rows owner Hrows) as ([authority|e] & -> & Hres); [|by eexists]. simpl.
  destruct (Hres authority eq_refl) as (headers & oc & reachable & Hl & Hoc & HR & Hro & Hpi & Hdir).
  destruct (resolved_facts _ _ _ (proj1 Hrows) Hl Hro Hpi) as (Hnd & Hpnd & Hwf & Hpwf).
  destruct (declassify_rows_absent_from _ _ _) as [db1|e] eqn:Hd; [|by eexists]. simpl.
  apply declassify_rows_keeps in Hd as [Ha1 Hc1].
  assert (∀ h, h ∈ rows.*1 → h ∉ cd_accepted db1) as Hno by (intros h Hh; rewrite Ha1; by apply cleared_accepted).
  destruct (refold_resolved_spec (sa_resolved authority) (sa_pinned authority) Hnd ltac:(intros r Hr; by apply Hwf) stream_id db1)
    as (res & Hrun & Hspec).
  assert (is_Some (match sa_resolved authority, sa_pinned authority return Run ContentDb with
                   | [], [] => run_ret (store_stream_clock stream_id 0 db1)
                   | _, _ => refold_resolved stream_id (sa_resolved authority) (sa_pinned authority) db1 end)) as [x Hx].
  { rewrite Hrun. destruct (sa_resolved authority), (sa_pinned authority); by eexists. }
  rewrite Hx. exists x. split; [done|]. intros db' ->.
  assert ((∀ h, h ∈ rows.*1 → h ∉ cd_accepted db') ∨ res = Ok db') as [?| ->]; [|by left|].
  { destruct (sa_resolved authority), (sa_pinned authority); [left; injection Hx as <-; exact Hno|right; congruence..]. }
  right. destruct (Hspec db' eq_refl) as (eligible & selection & raw & Hpass & Heff).
  exists owner, headers, oc, reachable, authority, eligible, selection, raw. split_and!; [done|by split|].
  destruct (lamport_advance_clamped _ _ _) as [[kept parked] clock]. destruct Heff as [Hc Ha]. split.
  - rewrite Hc. simpl. by rewrite Hc1.
  - intros h Hh. rewrite Ha. split; [|by right]. intros [?|?]; [by destruct (Hno h)|done].
Qed.
End Stream.

(** ** When the pass returns rows

    The only errors are a key that is not a hash and a read of the snapshot that fails. *)

Definition answers {A} (r : result AnyError A) : Prop := ∃ a, r = Ok a.

Lemma answers_Ok {A} (a : A) : answers (Ok a).
Proof. by exists a. Qed.

Lemma answers_fmap {A B} (f : A → B) (r : result AnyError A) : answers (f <$> r) ↔ answers r.
Proof. destruct r; split; intros [? ?]; done || apply answers_Ok. Qed.

Lemma answers_bind {A B} (r : result AnyError A) (f : A → result AnyError B) : answers (r ≫= f) ↔ ∃ a, r = Ok a ∧ answers (f a).
Proof. destruct r as [a|e]; simpl; [split; [by exists a|by intros (? & [= <-] & ?)]|]. split; [by intros [? ?]|by intros (? & ? & _)]. Qed.

Lemma answers_load_rows {R A} (load : R → result AnyError (option A)) rows :
  answers (load_rows load rows) ↔ Forall (fun row => answers (load row)) rows.
Proof.
  induction rows as [|row rows IH]; cbn [load_rows]; [split; [constructor|intros _; apply answers_Ok]|].
  rewrite Forall_cons, <- IH, answers_bind. setoid_rewrite answers_bind. split.
  - intros (o & Ho & out & Hout & _). by split; [exists o|exists out].
  - intros [[o Ho] [out Hout]]. exists o. split; [done|]. exists out. split; [done|]. destruct o; apply answers_Ok.
Qed.

Lemma answers_cached {C A} (ok : C → Prop) (m : result AnyError (A * C)) direct : cached_as ok m direct → answers m ↔ answers direct.
Proof. unfold cached_as. destruct m as [[a c]|e]; [intros [-> _]|intros ->]; split; intros [? ?]; done || apply answers_Ok. Qed.

(** Every row is keyed by a hash. *)
Definition hash_keyed (rows : list (bytes * bytes)) : Prop := Forall (fun row => length row.1 = 32%nat) rows.

Lemma answers_declassify rows handled db : answers (declassify_rows_absent_from rows.*1 handled db) ↔ hash_keyed rows.
Proof.
  revert db. unfold hash_keyed. induction rows as [|[h bs] rows IH]; intros db; cbn [fmap list_fmap declassify_rows_absent_from].
  { split; [constructor|intros _; apply answers_Ok]. }
  rewrite Forall_cons, answers_bind. simpl. unfold id_fixed. case_bool_decide as Hlen; [|split; [by intros (? & ? & _)|by intros [? _]]].
  split; [intros (h' & [= <-] & Ha); by apply IH in Ha|]. intros [_ Ha]. exists h. split; [done|]. by apply IH.
Qed.

Section Answers.
Context `{MinicborLaws} `{Sha256} `{AuthoritySnapshot}.

Lemma answers_load rows : answers (load_stream_headers rows) ↔ hash_keyed rows.
Proof using Type.
  unfold load_stream_headers, hash_keyed. rewrite answers_load_rows. apply Forall_iff. intros [h bs].
  unfold load_content_row, id_fixed. simpl. case_bool_decide; simpl; [|split; [by intros [? ?]|done]].
  split; [done|]. intros _. repeat case_match; apply answers_Ok.
Qed.

(** The reads of the snapshot for one header, each needed only where the pass asks for it: an author that is
    pinned is looked at no further, and a contested owner spares the author's own state. *)
Definition header_answers (owner : AccountId) (owner_contested : bool) (header : ContentEntryHeader) : Prop :=
  ∃ pinned, sn_account_is_pinned (ch_author_account_id header) = Ok pinned ∧
  (pinned = false →
    answers (sn_roster_content_authority (ch_author_account_id header) (ch_roster_ref header) (ch_device_fingerprint header)
               (ch_stream_id header)) ∧
    (∀ grant_id, ch_grant_id header = Some grant_id →
       answers (sn_grant_effective_for_device owner grant_id (ch_stream_id header) (ch_author_account_id header)
                  (ch_device_fingerprint header))) ∧
    answers (sn_held_control_log_len owner) ∧ answers (sn_held_control_log_len (ch_author_account_id header)) ∧
    (owner_contested = false → answers (sn_account_is_contested (ch_author_account_id header)))).

Definition stream_answers (stream_id : StreamId) (rows : list (bytes * bytes)) : Prop :=
  ∃ owner, sn_stream_owner_account stream_id = Ok owner ∧ ∀ owner_id, owner = Some owner_id →
    ∃ contested, sn_account_is_contested owner_id = Ok contested ∧
      ∀ headers row, load_stream_headers rows = Ok headers → row ∈ headers → header_answers owner_id contested row.2.

Section Entries.
Context (stream_id : StreamId) (owner : AccountId) (owner_contested : bool) (view : ContentView) (reachable : gset AccountEntryHash).

Lemma answers_direct (row : ContentRow) :
  sn_account_is_pinned (ch_author_account_id row.2) = Ok false →
  answers (direct_content_entry owner owner_contested view reachable row) ↔ header_answers owner owner_contested row.2.
Proof using Type.
  destruct row as [h hd]. simpl. intros Hp. unfold header_answers, direct_content_entry, cited_roster, cited_grant. rewrite Hp.
  assert (∀ P : Prop, (∃ pinned, Ok false = @Ok AnyError bool pinned ∧ (pinned = false → P)) ↔ P) as ->.
  { intros P. split; [intros (? & [= <-] & Hall); by apply Hall|intros HP; by exists false]. }
  assert (∀ A B (m : result AnyError A) (f : A → result AnyError B) (Q : Prop),
    (∀ a, answers (f a) ↔ Q) → answers (m ≫= f) ↔ answers m ∧ Q) as Hbind.
  { intros A B m f Q Hf. rewrite answers_bind. setoid_rewrite Hf. unfold answers. naive_solver. }
  assert (answers (contested ← (if owner_contested then Ok true else sn_account_is_contested (ch_author_account_id hd));
    Ok (if (contested : bool) then HoldContested else HoldClear)) ↔
    (owner_contested = false → answers (sn_account_is_contested (ch_author_account_id hd)))) as Hhold.
  { rewrite (Hbind _ _ _ _ True) by (intros b; split; [done|intros _; apply answers_Ok]).
    destruct owner_contested; [|tauto]. split; [done|]. intros _. split; [apply answers_Ok|done]. }
  etransitivity.
  { apply Hbind. intros ro. apply Hbind. intros g. apply Hbind. intros os. apply Hbind. intros az.
    rewrite (Hbind _ _ _ _ True) by (intros hold; split; [done|intros _; apply answers_Ok]). rewrite Hhold. reflexivity. }
  rewrite !answers_fmap. destruct (ch_grant_id hd) as [g|]; rewrite ?answers_fmap.
  - assert (∀ P : GrantId → Prop, (∀ g', Some g = Some g' → P g') ↔ P g) as -> by naive_solver. tauto.
  - assert (answers (@Ok AnyError (option (AuthorityQuery CitedGrantAuthority)) None)) by apply answers_Ok. naive_solver.
Qed.

Lemma answers_loop headers c :
  Forall (fun row : ContentRow => ch_stream_id row.2 = stream_id) headers → content_caches_ok stream_id owner c →
  answers (resolve_content_loop owner owner_contested view reachable headers c) ↔
  Forall (fun row : ContentRow => header_answers owner owner_contested row.2) headers.
Proof using Type.
  intros Hst. revert c. induction Hst as [|row headers Hrow _ IH]; intros c Hc; cbn [resolve_content_loop].
  { split; [constructor|intros _; apply answers_Ok]. }
  rewrite Forall_cons. pose proof (author_pinned_as stream_id owner (ch_author_account_id row.2) c Hc) as Hp.
  destruct (author_pinned (ch_author_account_id row.2) c) as [[pinned c1]|e]; simpl in *.
  2: { split; [by intros [? ?]|]. intros [(pinned & Hp' & _) _]. congruence. }
  destruct Hp as [Hp Hc1]. destruct pinned.
  - rewrite <- (IH c1 Hc1), answers_bind. split.
    + intros (rest & Hrest & _). split; [by exists true|by exists rest].
    + intros [_ [rest Hrest]]. exists rest. split; [done|apply answers_Ok].
  - rewrite <- (answers_direct row Hp). pose proof (resolve_entry_as stream_id owner owner_contested view reachable row c1 Hrow Hc1) as He.
    destruct (resolve_entry owner owner_contested view reachable row c1) as [[r c2]|e]; simpl in *.
    + destruct He as [-> Hc2]. rewrite <- (IH c2 Hc2), answers_bind. split.
      * intros (rest & Hrest & _). split; [apply answers_Ok|by exists rest].
      * intros [_ [rest Hrest]]. exists rest. split; [done|apply answers_Ok].
    + rewrite He. split; [by intros [? ?]|by intros [[? ?] _]].
Qed.
End Entries.
End Answers.

(** ** Properties *)

Section Properties.
Context `{MinicborLaws} `{Sha256} `{AuthoritySnapshot}.

(** What the log and the snapshot say of an accepted entry of a stream that [owner] owns.  A cut
    whose watermark names another slot or chain bounds nothing ([bind_boundary]). *)
Record content_authorized (owner : AccountId) (headers : list ContentRow) (h : AccountEntryHash) (header : ContentEntryHeader)
    : Prop := {
  ct_held : (h, header) ∈ headers;
  ct_chain : held_from_root same_content_chain (content_view headers) h;
  ct_unpinned : sn_account_is_pinned (ch_author_account_id header) = Ok false;
  ct_hold : sn_account_is_contested owner = Ok false ∧ sn_account_is_contested (ch_author_account_id header) = Ok false;
  ct_fresh : ∃ owner_held author_held,
    sn_held_control_log_len owner = Ok owner_held ∧ ch_owner_auth_len header ≤ owner_held ∧
    sn_held_control_log_len (ch_author_account_id header) = Ok author_held ∧ ch_author_auth_len header ≤ author_held;
  ct_roster : ∃ role boundary,
    sn_roster_content_authority (ch_author_account_id header) (ch_roster_ref header) (ch_device_fingerprint header)
      (ch_stream_id header) = Ok (Effective (mkRosterContentAuthority (ch_device_fingerprint header) role boundary)) ∧
    role ≠ ReadOnly ∧
    boundary_admits (ch_seq header) h (content_ancestry_relation (content_view (evaluated headers)))
      (bind_boundary boundary (chain_coordinate_of header) (content_view headers));
  ct_grant :
    (ch_author_account_id header = owner ∧ ch_grant_id header = None) ∨
    (ch_author_account_id header ≠ owner ∧ ∃ grant_id gb boundary, ch_grant_id header = Some grant_id ∧
       sn_grant_effective_for_device owner grant_id (ch_stream_id header) (ch_author_account_id header)
         (ch_device_fingerprint header) =
         Ok (Effective (mkGrantDeviceAuthority (mkGrantAuthority (ch_stream_id header) (ch_author_account_id header) Writer) gb)) ∧
       grant_bounds (ch_device_fingerprint header) (bind_device_boundary gb (chain_coordinate_of header) (content_view headers))
         boundary ∧
       boundary_admits (ch_seq header) h (content_ancestry_relation (content_view (evaluated headers))) boundary);
}.

Lemma direct_content_Ok owner owner_contested view reachable r :
  direct_content_entry owner owner_contested view reachable (row_of r) = Ok r →
  ∃ roster grant owner_held author_held hold,
    cited_roster (re_header r) = Ok roster ∧ cited_grant owner (re_header r) = Ok grant ∧
    sn_held_control_log_len owner = Ok owner_held ∧ sn_held_control_log_len (ch_author_account_id (re_header r)) = Ok author_held ∧
    (hold = HoldClear → owner_contested = false ∧ sn_account_is_contested (ch_author_account_id (re_header r)) = Ok false) ∧
    r = mkResolvedEntry (re_entry_hash r) (re_header r) owner (bool_decide (re_entry_hash r ∈ reachable))
          (Effective (mkCitedOwnership owner (ch_stream_id (re_header r))))
          (bind_roster_cut roster (chain_coordinate_of (re_header r)) view)
          (bind_grant_cut grant (chain_coordinate_of (re_header r)) view)
          (mkCitedFreshness owner (ch_owner_auth_len (re_header r)) (freshness_of (ch_owner_auth_len (re_header r)) owner_held))
          (mkCitedFreshness (ch_author_account_id (re_header r)) (ch_author_auth_len (re_header r))
             (freshness_of (ch_author_auth_len (re_header r)) author_held)) hold.
Proof using Type.
  unfold direct_content_entry, row_of. intros Hd. inv_ok.
  destruct (sn_held_control_log_len owner) as [ho|] eqn:Hho; [|done].
  destruct (sn_held_control_log_len (ch_author_account_id (re_header r))) as [ha|] eqn:Hha; [|done]. simpl in *. inv_ok.
  eexists _, _, ho, ha, _. split_and!; [done|done|done|done| |by symmetry].
  intros Hh. case_match; [done|]. subst. destruct owner_contested; [simplify_eq|]. by inv_ok.
Qed.

(** A bound fact is the snapshot's, up to its boundary. *)
Lemma roster_bound header coordinate view account roster_ref stream device role boundary roster :
  cited_roster header = Ok roster →
  bind_roster_cut roster coordinate view =
    Effective (mkCitedRosterAuthority account roster_ref stream (mkRosterContentAuthority device role boundary)) →
  ∃ b, boundary = bind_boundary b coordinate view ∧
    sn_roster_content_authority (ch_author_account_id header) (ch_roster_ref header) (ch_device_fingerprint header)
      (ch_stream_id header) = Ok (Effective (mkRosterContentAuthority device role b)).
Proof using Type.
  unfold cited_roster. destruct (sn_roster_content_authority _ _ _ _) as [q|e]; [|done]. intros [= <-].
  destruct q as [[d rl b]| |]; simpl; [|done..]. intros [= _ _ _ -> -> <-]. by exists b.
Qed.

Lemma grant_bound owner header coordinate view owner' grant_id grant boundary query :
  cited_grant owner header = Ok query →
  bind_grant_cut query coordinate view =
    Some (Effective (mkCitedGrantAuthority owner' grant_id (mkGrantDeviceAuthority grant boundary))) →
  ∃ gb, boundary = bind_device_boundary gb coordinate view ∧ ch_grant_id header = Some grant_id ∧
    sn_grant_effective_for_device owner grant_id (ch_stream_id header) (ch_author_account_id header)
      (ch_device_fingerprint header) = Ok (Effective (mkGrantDeviceAuthority grant gb)).
Proof using Type.
  unfold cited_grant. destruct (ch_grant_id header) as [g|]; [|by intros [= <-]].
  destruct (sn_grant_effective_for_device _ _ _ _ _) as [q|e] eqn:Hq; [|done]. intros [= <-].
  destruct q as [[ga gb]| |]; simpl; [|done..]. intros [= _ -> -> <-]. by exists gb.
Qed.

Lemma finished_content_authorized rows owner headers owner_contested reachable authority eligible selection raw r :
  content_refolded rows owner headers owner_contested reachable authority eligible selection raw →
  r ∈ sa_resolved authority → content_finished (resolved_view (sa_resolved authority)) selection r Accepted →
  content_authorized owner headers (re_entry_hash r) (re_header r).
Proof using Type.
  intros Hc Hr Hf. destruct (direct_content_Ok _ _ _ _ _ (cf_direct _ _ _ _ _ _ _ _ _ Hc r Hr))
    as (roster & grant & ho & ha & hold & Hro & Hgr & Hho & Hha & Hhold & Heq).
  assert (row_of r ∈ evaluated headers) as [Hun Hin]%list_elem_of_filter
    by (rewrite <- (cf_rows _ _ _ _ _ _ _ _ _ Hc); by apply list_elem_of_fmap_2).
  unfold resolved_view in Hf. rewrite (cf_rows _ _ _ _ _ _ _ _ _ Hc) in Hf.
  apply accepted_cases in Hf as (_ & (bs & (_ & rb & (role & Hrost & Hrole) & Hg) & Hadm) & Hcl & Hreach & _ & Hof & Haf).
  unfold registers_admit, roster_holds, grant_holds in *. rewrite Heq in Hrost, Hg, Hcl, Hreach, Hof, Haf. simpl in *.
  subst hold. destruct (Hhold eq_refl) as [-> Hac].
  apply freshness_current in Hof, Haf. apply bool_decide_eq_true, (cf_reach _ _ _ _ _ _ _ _ _ Hc) in Hreach.
  destruct (roster_bound _ _ _ _ _ _ _ _ _ _ Hro Hrost) as (b & -> & Hsn). split; try done.
  - unfold unpinned in Hun. simpl in Hun. by destruct (sn_account_is_pinned _) as [[]|].
  - split; [by apply (cf_contested _ _ _ _ _ _ _ _ _ Hc)|done].
  - by exists ho, ha.
  - exists role, b. split_and!; [done|done|]. destruct Hg as [(_ & _ & _ & ->)|(_ & gb & _ & ->)]; by apply Forall_cons in Hadm as [? _].
  - destruct Hg as [(Ho & Hno & _ & _)|(Ho & gb & (gid & dgb & Hid & Hgrant & Hb) & ->)]; [by left|right]. split; [done|].
    destruct (grant_bound _ _ _ _ _ _ _ _ _ Hgr Hgrant) as (gb0 & -> & Hid' & Hsg). exists gid, gb0, gb.
    split_and!; [done|done|done|]. apply Forall_cons in Hadm as [_ Hadm]. by apply Forall_cons in Hadm as [? _].
Qed.

Lemma direct_provenance owner owner_contested headers_view reachable r view selected :
  direct_content_entry owner owner_contested headers_view reachable (row_of r) = Ok r →
  freshness_provenance (content_input r view selected) = true.
Proof using Type.
  intros (roster & grant & ho & ha & hold & _ & _ & _ & _ & _ & Heq)%direct_content_Ok. rewrite Heq.
  unfold freshness_provenance. simpl. by rewrite !bool_decide_true.
Qed.

Lemma stream_answers_owned stream_id rows owner headers :
  sn_stream_owner_account stream_id = Ok (Some owner) → load_stream_headers rows = Ok headers →
  stream_answers stream_id rows ↔
  ∃ contested, sn_account_is_contested owner = Ok contested ∧ Forall (fun row : ContentRow => header_answers owner contested row.2) headers.
Proof using Type.
  intros Ho Hl. unfold stream_answers. rewrite Ho. setoid_rewrite Forall_forall. split.
  - intros (? & [= <-] & Hall). destruct (Hall owner eq_refl) as (c & Hc & Hrows). exists c. split; [done|]. intros row. by apply Hrows.
  - intros (c & Hc & Hrows). exists (Some owner). split; [done|]. intros ? [= <-]. exists c. split; [done|].
    intros headers' row Hl'. rewrite Hl in Hl'. injection Hl' as <-. apply Hrows.
Qed.

(** Once the entries are resolved the pass cannot fail. *)
Lemma refold_authority_Ok stream_id rows db headers owner contested reachable authority :
  rows_of_stream stream_id rows → load_stream_headers rows = Ok headers → hash_keyed rows →
  resolve_content_loop owner contested (content_view headers) reachable headers no_authority_caches = Ok authority →
  ∃ db', (let resolved := sa_resolved authority in
          let pinned := sa_pinned authority in
          let db := clear_accepted rows db in
          db <- Some (declassify_rows_absent_from rows.*1 (list_to_set (re_entry_hash <$> resolved)) db) ;;
          match resolved, pinned with
          | [], [] => run_ret (store_stream_clock stream_id 0 db)
          | _, _ => refold_resolved stream_id resolved pinned db
          end) = Some (Ok db').
Proof using All.
  intros [Hnd Hst] Hl Hk Hres. cbn zeta.
  destruct (resolve_content_loop_Ok stream_id _ _ _ _ _ _ _ (Hst _ Hl) (no_authority_caches_ok _ _) Hres) as (Hro & Hpi & Hdir).
  destruct (resolved_facts _ _ _ Hnd Hl Hro Hpi) as (Hnd' & _ & Hwf & _).
  destruct (proj2 (answers_declassify rows (list_to_set (re_entry_hash <$> sa_resolved authority)) (clear_accepted rows db)) Hk)
    as [db1 ->]. simpl.
  destruct (refold_resolved_Ok (sa_resolved authority) (sa_pinned authority) Hnd' ltac:(intros r Hr; by apply Hwf) stream_id db1)
    as [db' Hrun].
  { intros r v selected Hr. by eapply direct_provenance, Hdir. }
  rewrite Hrun. destruct (sa_resolved authority), (sa_pinned authority); by eexists.
Qed.

(** C28.  The content refold returns on every stream, without a panic, and it returns the rewritten rows exactly
    when every row is keyed by a hash and the snapshot answers each read the pass makes: the owner of
    the stream, whether the owner is contested, and for each entry whether its author is pinned and,
    if not, its roster fact, its grant, the two held lengths and the author's contest.  No verdict of
    the pass itself is an error. *)
Theorem content_refold_total stream_id rows db :
  rows_of_stream stream_id rows →
  ∃ r, refold_content_stream stream_id rows db = Some r ∧ (answers r ↔ hash_keyed rows ∧ stream_answers stream_id rows).
Proof using All.
  intros Hrows. unfold refold_content_stream. destruct (load_stream_headers rows) as [headers|e] eqn:Hl.
  2: { assert (¬ hash_keyed rows) as Hno by (rewrite <- answers_load, Hl; by intros [? ?]).
       destruct (sn_stream_owner_account stream_id) as [[owner|]|e']; simpl; unfold resolve_stream_authority, declassify_stream_to_structural;
         rewrite ?Hl; simpl; eexists; (split; [done|]); split; (by intros [? ?]) || tauto. }
  assert (hash_keyed rows) as Hk by (rewrite <- answers_load, Hl; apply answers_Ok).
  destruct (sn_stream_owner_account stream_id) as [[owner|]|e] eqn:Ho; simpl.
  3: { exists (Err e). split; [done|]. split; [by intros [? ?]|]. intros (_ & ? & ? & _). congruence. }
  2: { assert (stream_answers stream_id rows) as Hst by (exists None; by split).
       unfold declassify_stream_to_structural. rewrite Hl. simpl.
       destruct (reachable_entries_spec same_content_chain (content_view headers)) as (reachable & -> & _). simpl.
       match goal with |- context [declassify_rows_absent_from _ ?handled ?db1] =>
         destruct (proj2 (answers_declassify rows handled db1) Hk) as [db2 ->] end. simpl. eexists. split; [done|].
       split; [by split|intros _; apply answers_Ok]. }
  setoid_rewrite (stream_answers_owned _ _ _ _ Ho Hl). unfold resolve_stream_authority. rewrite Hl. simpl.
  destruct (reachable_entries_spec same_content_chain (content_view headers)) as (reachable & -> & _). simpl.
  destruct (sn_account_is_contested owner) as [contested|e]; simpl.
  2: { exists (Err e). split; [done|]. split; [by intros [? ?]|]. by intros (_ & ? & ? & _). }
  pose proof (answers_loop stream_id owner contested (content_view headers) reachable headers no_authority_caches
    (proj2 Hrows _ Hl) (no_authority_caches_ok _ _)) as Hloop.
  destruct (resolve_content_loop _ _ _ _ _ _) as [authority|e] eqn:Hres; simpl.
  2: { exists (Err e). split; [done|]. split; [by intros [? ?]|]. intros (_ & ? & [= <-] & Hall).
       by apply Hloop in Hall as [? ?]. }
  destruct (refold_authority_Ok stream_id rows db headers owner contested reachable authority Hrows Hl Hk Hres) as [db' Hdb].
  exists (Ok db'). split; [exact Hdb|]. split; [|intros _; apply answers_Ok]. intros _. split; [done|]. exists contested.
  split; [done|]. apply Hloop, answers_Ok.
Qed.

(** The accepted rows of a stream, in full: they are those of no evaluated entry, or exactly the
    evaluated entries that the phases, the chain and the clock all accept. *)
Lemma content_accepted_exact stream_id rows db db' :
  rows_of_stream stream_id rows → refold_content_stream stream_id rows db = Some (Ok db') →
  (∀ h, h ∈ rows.*1 → h ∉ cd_accepted db') ∨
  ∃ owner headers owner_contested reachable authority eligible selection raw,
    sn_stream_owner_account stream_id = Ok (Some owner) ∧
    content_refolded rows owner headers owner_contested reachable authority eligible selection raw ∧
    candidates_ok (candidates_of re_entry_hash re_header (sa_resolved authority)) ∧
    let resolved := sa_resolved authority in
    let finishes := fun r => content_finished (resolved_view resolved) selection r Accepted in
    let entries := accepted_rows resolved (content_prefix_closed resolved selection raw) in
    let floor := clock_floor resolved raw (sa_pinned authority) in
    (∀ h hd, (h, hd) ∈ entries ↔ ∃ r, r ∈ resolved ∧ row_of r = (h, hd) ∧ finishes r ∧
       below_passes re_entry_hash re_header (fun _ => false) resolved selection finishes r) ∧
    (∀ h, h ∈ rows.*1 → h ∈ cd_accepted db' ↔
       ∃ hd, (h, hd) ∈ entries ∧ chain_increases entries hd ∧ clock_reaches entries floor (ch_lamport hd)) ∧
    ∃ clock, cd_clocks db' = cd_clocks (store_stream_clock stream_id clock db) ∧
      (clock = 0 ∨ clock_reaches entries floor clock) ∧ (∀ l, clock_reaches entries floor l → l ≤ clock) ∧
      0 ≤ clock ≤ MAX_LAMPORT_ADVANCE * (len entries + len floor).
Proof using All.
  intros Hrows Hrun. destruct (refold_content_spec stream_id rows db Hrows) as (res & Hrun' & Hspec).
  assert (res = Ok db') as -> by congruence.
  destruct (Hspec db' eq_refl) as [Hno|(owner & headers & oc & R & au & el & sel & raw & Ho & Hc & Hk)]; [by left|right].
  exists owner, headers, oc, R, au, el, sel, raw. split; [done|]. split; [done|]. pose proof Hc as [Hl _ _ Hro Hpi _ [_ Hsel Hraw]].
  destruct (resolved_facts _ _ _ (proj1 Hrows) Hl Hro Hpi) as (Hnd & Hpnd & Hwf' & Hpwf).
  assert (∀ r, r ∈ sa_resolved au → content_header_wf (re_header r)) as Hwf by (intros r Hr; by apply Hwf').
  split; [by apply content_candidates_ok|]. simpl in Hk |- *.
  pose proof (elem_of_content_accepted (sa_resolved au) Hnd Hwf el sel raw Hsel Hraw) as Hacc.
  assert (∀ r, r ∈ sa_resolved au → re_entry_hash r ∈ content_prefix_closed (sa_resolved au) sel raw →
    row_of r ∈ accepted_rows (sa_resolved au) (content_prefix_closed (sa_resolved au) sel raw)) as Hrow.
  { intros r Hr Ha. apply elem_of_accepted_rows. eauto. }
  pose proof (clamp_spec (sa_resolved au) (sa_pinned au) Hnd Hpnd Hwf Hpwf el sel raw Hsel Hraw) as Hclamp.
  destruct (lamport_advance_clamped _ _ _) as [[kept parked] clock]. destruct Hclamp as [Hclamp Hclock], Hk as [Hcl Hk].
  split_and!.
  - intros h hd. rewrite elem_of_accepted_rows. split.
    + intros (r & Hr & Heq & Ha). exists r. split; [done|]. split; [done|]. apply Hacc in Ha as (r' & Hr' & Heq' & Hf & Hb).
      injection Heq as Hh _. assert (r' = r) as -> by (eapply (NoDup_fmap_inj re_entry_hash); [exact Hnd|done|done|congruence]). done.
    + intros (r & Hr & Heq & Hf & Hb). exists r. split; [done|]. split; [done|]. apply Hacc. exists r. injection Heq as -> _. done.
  - intros h Hh. rewrite (Hk h Hh), Hclamp. split.
    + intros [_ (r & Hr & <- & Ha & Hinc & Hre)]. exists (re_header r). split; [by apply Hrow|done].
    + intros (hd & Hin & Hinc & Hre). apply elem_of_accepted_rows in Hin as (r & Hr & [= <- <-] & Ha).
      split; [by apply list_elem_of_fmap_2|by exists r].
  - by exists clock.
Qed.

(** C16.  No content without authority: an entry accepted after the pass belongs to a stream with a resolved owner, is
    held with its whole chain, its author is not pinned and neither account is contested, the roster
    gives its own device a writing role, a foreign author holds a writer grant on the stream, every
    register that bounds it admits it, and it asserts no control log longer than the held ones. *)
Theorem content_accept_sound stream_id rows db db' h :
  rows_of_stream stream_id rows → refold_content_stream stream_id rows db = Some (Ok db') →
  h ∈ rows.*1 → h ∈ cd_accepted db' →
  ∃ owner headers header, sn_stream_owner_account stream_id = Ok (Some owner) ∧ load_stream_headers rows = Ok headers ∧
    content_authorized owner headers h header.
Proof using All.
  intros Hrows Hrun Hh Ha.
  destruct (content_accepted_exact _ _ _ _ Hrows Hrun)
    as [Hno|(owner & headers & oc & R & au & el & sel & raw & Ho & Hc & _ & He & Hk & _)]; [by destruct (Hno h)|].
  apply (Hk h Hh) in Ha as (hd & Hin & _). apply He in Hin as (r & Hr & [= <- <-] & Hf & _).
  exists owner, headers, (re_header r). split_and!; [done|apply Hc|]. by eapply finished_content_authorized.
Qed.

(** C25.  Accepted content is a gapless history: two accepted entries of one device never share a slot, and below an
    accepted entry every slot of its chain holds an accepted entry of a smaller lamport. *)
Theorem content_accept_chain stream_id rows db db' headers h header :
  rows_of_stream stream_id rows → refold_content_stream stream_id rows db = Some (Ok db') →
  load_stream_headers rows = Ok headers → (h, header) ∈ headers → h ∈ cd_accepted db' →
  (∀ h' header', (h', header') ∈ headers → h' ∈ cd_accepted db' →
     chain_coordinate_of header' = chain_coordinate_of header → ch_seq header' = ch_seq header → h' = h) ∧
  ∀ s, 0 ≤ s < ch_seq header → ∃ h' header', (h', header') ∈ headers ∧ h' ∈ cd_accepted db' ∧
    chain_coordinate_of header' = chain_coordinate_of header ∧ ch_seq header' = s ∧ ch_lamport header' < ch_lamport header.
Proof using All.
  intros Hrows Hrun Hl Hin Ha. pose proof (loaded_content_sub _ _ _ _ Hl Hin) as Hh.
  destruct (content_accepted_exact _ _ _ _ Hrows Hrun)
    as [Hno|(owner & headers' & oc & R & au & el & sel & raw & _ & Hc & Hok & He & Hk & _)]; [by destruct (Hno h)|].
  assert (headers' = headers) as -> by (pose proof (cf_load _ _ _ _ _ _ _ _ _ Hc); congruence).
  pose proof (cp_selection _ _ _ _ (cf_pass _ _ _ _ _ _ _ _ _ Hc)) as Hsel. simpl in He, Hk.
  assert (∀ r, r ∈ sa_resolved au → row_of r ∈ headers) as Hheld.
  { intros r Hr. assert (row_of r ∈ evaluated headers) as [_ ?]%list_elem_of_filter; [|done].
    rewrite <- (cf_rows _ _ _ _ _ _ _ _ _ Hc). by apply list_elem_of_fmap_2. }
  assert (∀ h hd, (h, hd) ∈ headers → h ∈ cd_accepted db' → ∃ r, selected re_entry_hash (sa_resolved au) sel r ∧
    row_of r = (h, hd) ∧ (h, hd) ∈ accepted_rows (sa_resolved au) (content_prefix_closed (sa_resolved au) sel raw) ∧
    below_passes re_entry_hash re_header (fun _ => false) (sa_resolved au) sel
      (fun r => content_finished (resolved_view (sa_resolved au)) sel r Accepted) r ∧
    chain_increases (accepted_rows (sa_resolved au) (content_prefix_closed (sa_resolved au) sel raw)) hd ∧
    clock_reaches (accepted_rows (sa_resolved au) (content_prefix_closed (sa_resolved au) sel raw))
      (clock_floor (sa_resolved au) raw (sa_pinned au)) (ch_lamport hd)) as Hof.
  { intros h0 hd0 Hin0 Ha0. apply (Hk h0 (loaded_content_sub _ _ _ _ Hl Hin0)) in Ha0 as (hd1 & Hrow & Hinc & Hre).
    pose proof Hrow as (r & Hr & Heq & Hf & Hb)%He. specialize (Hheld r Hr) as Hhr. rewrite Heq in Hhr.
    assert ((h0, hd1) = (h0, hd0)) as [= ->].
    { eapply (NoDup_fmap_inj fst); [by eapply loaded_content_NoDup, Hl; apply Hrows|done|done|done]. }
    exists r. split_and!; try done. by apply finishes_selected. }
  destruct (Hof h header Hin Ha) as (r & Hsr & [= Hrh Hrhd] & Hrow & Hb & Hinc & Hre). subst h header. split.
  - intros h' hd' Hin' Ha' Hco Hs. destruct (Hof h' hd' Hin' Ha') as (r' & Hsr' & [= Hrh' Hrhd'] & _). subst h' hd'.
    by rewrite (selected_unique _ _ _ _ _ _ Hok Hsel r' r).
  - intros s Hs. destruct (selected_under _ _ _ _ _ _ Hok Hsel r s Hsr Hs) as (r' & Hsr' & Hco & Hseq). simpl in Hco, Hseq.
    exists (re_entry_hash r'), (re_header r'). specialize (Hheld r' (proj1 Hsr')).
    destruct (Hb r' Hsr' Hco) as [?|Hf']; [simpl; lia|done|].
    assert (row_of r' ∈ accepted_rows (sa_resolved au) (content_prefix_closed (sa_resolved au) sel raw)) as Hrow'.
    { apply He. exists r'. split_and!; [apply Hsr'|done|done|]. intros r2 Hr2 Hc2 Hlt2. apply Hb; [done|exact (eq_trans Hc2 Hco)|simpl in *; lia]. }
    assert (ch_lamport (re_header r') < ch_lamport (re_header r)) as Hlt.
    { apply (Hinc (row_of r') (re_entry_hash r, re_header r)); simpl; [done|done|done|done|lia|lia]. }
    assert (chain_increases (accepted_rows (sa_resolved au) (content_prefix_closed (sa_resolved au) sel raw)) (re_header r')) as Hinc'.
    { intros a b Hra Hrb Hca Hcb Hab Hbe. apply Hinc; [done|done|congruence|congruence|done|lia]. }
    split_and!; [done| |done|done|done]. apply Hk; [by eapply loaded_content_sub|]. exists (re_header r'). split_and!; [done|done|].
    eapply clock_down; [exact Hre| |lia]. left. by exists (row_of r').
Qed.

(** The rows of the clamp are at most twice those of the stream. *)
Lemma clamp_rows_length rows owner headers owner_contested reachable authority eligible selection raw :
  content_refolded rows owner headers owner_contested reachable authority eligible selection raw →
  len (accepted_rows (sa_resolved authority) (content_prefix_closed (sa_resolved authority) selection raw)) +
  len (clock_floor (sa_resolved authority) raw (sa_pinned authority)) ≤ 2 * len rows.
Proof using Type.
  intros Hc. pose proof (load_rows_length _ _ _ (cf_load _ _ _ _ _ _ _ _ _ Hc)) as Hlen.
  assert (length (sa_resolved authority) ≤ length headers)%nat as Hr.
  { rewrite <- (length_fmap row_of), (cf_rows _ _ _ _ _ _ _ _ _ Hc). apply length_filter. }
  assert (length (sa_resolved authority) + length (sa_pinned authority) ≤ length headers)%nat as Hrp.
  { rewrite <- (length_fmap row_of), (cf_rows _ _ _ _ _ _ _ _ _ Hc), (cf_pinned _ _ _ _ _ _ _ _ _ Hc). unfold evaluated.
    clear. induction headers as [|row headers IH]; [done|]. rewrite !filter_cons.
    repeat case_decide; simpl; lia || tauto. }
  unfold accepted_rows, clock_floor, len. rewrite length_app, !length_fmap.
  match goal with |- context [length (filter ?P (sa_resolved authority))] => pose proof (length_filter P (sa_resolved authority)) end.
  pose proof (length_filter (fun r => raw_condemned raw r = true) (sa_resolved authority)). lia.
Qed.

(** The stored clock is a bounded ceiling: after the pass every accepted entry of the stream has a lamport at most
    the stored clock, and the clock is at most two advances per held row, whatever lamports the
    authors wrote (for fewer than 2^30 rows, where the stored value is the clock). *)
Theorem content_clock_bound stream_id rows db db' headers h header :
  rows_of_stream stream_id rows → len rows < 2 ^ 30 → refold_content_stream stream_id rows db = Some (Ok db') →
  load_stream_headers rows = Ok headers → (h, header) ∈ headers → h ∈ cd_accepted db' →
  ch_lamport header ≤ default 0 (cd_clocks db' !! stream_id) ≤ 2 * MAX_LAMPORT_ADVANCE * len rows.
Proof using All.
  intros Hrows Hfew Hrun Hl Hin Ha. pose proof (loaded_content_sub _ _ _ _ Hl Hin) as Hh.
  destruct (content_accepted_exact _ _ _ _ Hrows Hrun)
    as [Hno|(owner & headers' & oc & R & au & el & sel & raw & _ & Hc & _ & He & Hk & clock & Hcl & _ & Hup & Hbound)]; [by destruct (Hno h)|].
  assert (headers' = headers) as -> by (pose proof (cf_load _ _ _ _ _ _ _ _ _ Hc); congruence).
  pose proof (clamp_rows_length _ _ _ _ _ _ _ _ _ Hc) as Hlen.
  apply (Hk h Hh) in Ha as (hd & Hrow & _ & Hre). apply He in Hrow as (r & Hr & Heq & _).
  assert (row_of r ∈ evaluated headers) as [_ Hheld]%list_elem_of_filter
    by (rewrite <- (cf_rows _ _ _ _ _ _ _ _ _ Hc); by apply list_elem_of_fmap_2).
  rewrite Heq in Hheld. assert ((h, hd) = (h, header)) as [= ->].
  { eapply (NoDup_fmap_inj fst); [by eapply loaded_content_NoDup, Hl; apply Hrows|done|done|done]. }
  apply Hup in Hre. assert (MAX_LAMPORT_ADVANCE = 2 ^ 32) as HM by done. rewrite HM in *.
  assert (default 0 (cd_clocks db' !! stream_id) = clock) as ->; [|lia].
  rewrite Hcl. unfold store_stream_clock. simpl. case_bool_decide as Hz; [subst; by rewrite lookup_delete_eq|].
  rewrite lookup_insert_eq. simpl. unfold stored_lamport, i64_max. rewrite bool_decide_true; [done|]. lia.
Qed.
End Properties.

(** ** Witnesses

    A stream whose owner wrote two entries from one device. *)

#[local] Instance wit_content_snapshot : AuthoritySnapshot := {|
  sn_owner_secrets_authority _ _ _ := Ok UnknownQuery;
  sn_stream_owner_effective _ _ := Ok UnknownQuery;
  sn_roster_content_authority _ _ device _ := Ok (Effective (mkRosterContentAuthority device Member BoundaryOpen));
  sn_grant_effective_for_device _ _ _ _ _ := Ok UnknownQuery;
  sn_stream_owner_account _ := Ok (Some (replicate 32 x22));
  sn_account_is_contested _ := Ok false;
  sn_held_control_log_len _ := Ok 7;
  sn_account_is_pinned _ := Ok false;
|}.

Definition wit_stream : StreamId := replicate 32 x11.
Definition wit_content (seq lamport : Z) (prev : option AccountEntryHash) (last : byte) : SignedContentEntry :=
  let header := mkContentEntryHeader wit_stream (replicate 32 x22) (replicate 32 x00) seq lamport prev None (replicate 32 x44) 5 7 0 None in
  match sign_content_entry wit_secret header [x83; x01; x02; last] with
  | Ok s => s
  | Err _ => mkSignedContentEntry header [] [] [] [] [] []
  end.
Definition wit_first_content : SignedContentEntry := wit_content 0 3 None x03.
Definition wit_second_content : SignedContentEntry := wit_content 1 9 (Some (sc_entry_hash wit_first_content)) x04.
Definition wit_stream_rows : list (bytes * bytes) :=
  (fun s => (sc_entry_hash s, sc_signed_bytes s)) <$> [wit_first_content; wit_second_content].
Definition wit_stream_headers : list ContentRow :=
  (fun s => (sc_entry_hash s, sc_header s)) <$> [wit_first_content; wit_second_content].
Definition wit_content_db : ContentDb := mkContentDb ∅ ∅ ∅.
Definition wit_content_db' : ContentDb :=
  match refold_content_stream wit_stream wit_stream_rows wit_content_db with Some (Ok db) => db | _ => wit_content_db end.

Lemma wit_stream_loads : load_stream_headers wit_stream_rows = Ok wit_stream_headers.
Proof. by vm_compute. Qed.
Lemma wit_rows_of_stream : rows_of_stream wit_stream wit_stream_rows.
Proof.
  split; [apply (bool_decide_unpack _); by vm_compute|]. intros headers. rewrite wit_stream_loads. intros [= <-].
  by repeat constructor.
Qed.
Lemma wit_content_refolds : refold_content_stream wit_stream wit_stream_rows wit_content_db = Some (Ok wit_content_db').
Proof. by vm_compute. Qed.
Lemma wit_second_content_accepted : sc_entry_hash wit_second_content ∈ cd_accepted wit_content_db'.
Proof. apply (bool_decide_unpack _). by vm_compute. Qed.
Lemma wit_second_content_held : (sc_entry_hash wit_second_content, sc_header wit_second_content) ∈ wit_stream_headers.
Proof. right. by left. Qed.

Lemma content_refold_total_witness : ∃ db', refold_content_stream wit_stream wit_stream_rows wit_content_db = Some (Ok db').
Proof.
  destruct (content_refold_total wit_stream wit_stream_rows wit_content_db wit_rows_of_stream) as (r & Hr & Ha).
  destruct (proj2 Ha) as [db' ->]; [|by exists db']. split; [by repeat constructor|].
  eexists. split; [reflexivity|]. intros owner [= <-]. exists false. split; [reflexivity|]. intros headers row _ _.
  exists false. split; [reflexivity|]. intros _. split_and!; try (intros; eexists; reflexivity).
Defined.

Lemma content_accept_sound_witness :
  ∃ owner headers header, sn_stream_owner_account wit_stream = Ok (Some owner) ∧ load_stream_headers wit_stream_rows = Ok headers ∧
    content_authorized owner headers (sc_entry_hash wit_second_content) header.
Proof.
  apply (content_accept_sound wit_stream wit_stream_rows wit_content_db wit_content_db');
    [exact wit_rows_of_stream|exact wit_content_refolds|right; by left|exact wit_second_content_accepted].
Defined.

Lemma content_accept_chain_witness :
  ∃ h' header', (h', header') ∈ wit_stream_headers ∧ h' ∈ cd_accepted wit_content_db' ∧ ch_seq header' = 0.
Proof.
  destruct (content_accept_chain wit_stream wit_stream_rows wit_content_db wit_content_db' wit_stream_headers
    (sc_entry_hash wit_second_content) (sc_header wit_second_content)) as [_ Hd];
    [exact wit_rows_of_stream|exact wit_content_refolds|exact wit_stream_loads|exact wit_second_content_held
    |exact wit_second_content_accepted|].
  destruct (Hd 0) as (h' & hd' & Hin & Ha & _ & Hs & _); [split; [discriminate|by vm_compute]|]. exists h', hd'. exact (conj Hin (conj Ha Hs)).
Defined.

Lemma content_clock_bound_witness :
  ch_lamport (sc_header wit_second_content) ≤ default 0 (cd_clocks wit_content_db' !! wit_stream).
Proof.
  assert (len wit_stream_rows < 2 ^ 30) as Hfew by (by vm_compute).
  exact (proj1 (content_clock_bound wit_stream wit_stream_rows wit_content_db wit_content_db' wit_stream_headers
    (sc_entry_hash wit_second_content) (sc_header wit_second_content) wit_rows_of_stream Hfew wit_content_refolds wit_stream_loads
    wit_second_content_held wit_second_content_accepted)).
Defined.
