(* ===== verification/Secrets.v ===== *)
(** * The secrets acceptance predicate ([account/secrets/acceptance.rs])

    What decides one evaluable secrets entry: the owner citation, the ownership of the stream, the
    two revocation boundaries, the contested hold, the graph and, last, freshness.  An early
    [return Ok(Some(verdict))] is an [Err verdict] of the steps; the outer [option] of a result is
    [None] where the source is [unreachable!]. *)

From S2P Require Import Prelude Cbor Minicbor Hash Op Device Entry Stream Branch Envelope Candidate AccountOps FoldTypes Keywrap ContentEnvelope Acceptance.

Local Open Scope Z_scope.

(** ** Verdicts *)

Inductive SecretsParkReason : Type :=
| SParkMissingPredecessor | SParkUnknownOwnerRef | SParkUnknownStreamOwner | SParkAuthLenAhead
| SParkIncompleteCutAncestry | SParkUnknownCutTarget | SParkContestedSubject.

Inductive SecretsCondemnReason : Type := SBeyondCut | SOffBranch | SClosedIncarnation.

Inductive SecretsRejectReason : Type := SOwnerReferenceInvalid.

Inductive SecretsAcceptanceInputError : Type := SFreshnessProvenance.

Inductive SecretsAcceptance : Type :=
| SAccepted
| SForked
| SParked (r : SecretsParkReason)
| SCondemned (r : SecretsCondemnReason)
| SRejected (r : SecretsRejectReason).

#[export] Instance SecretsParkReason_eq_dec : EqDecision SecretsParkReason.
Proof. solve_decision. Defined.
#[export] Instance SecretsCondemnReason_eq_dec : EqDecision SecretsCondemnReason.
Proof. solve_decision. Defined.
#[export] Instance SecretsRejectReason_eq_dec : EqDecision SecretsRejectReason.
Proof. solve_decision. Defined.
#[export] Instance SecretsAcceptance_eq_dec : EqDecision SecretsAcceptance.
Proof. solve_decision. Defined.

Definition secrets_as_db_pair (a : SecretsAcceptance) : EntryStatus * option string :=
  match a with
  | SAccepted => (StatusAccepted, None)
  | SForked => (StatusForked, None)
  | SParked reason =>
      (StatusParked, Some match reason with
        | SParkMissingPredecessor => "missing_predecessor"
        | SParkUnknownOwnerRef => "unknown_owner_ref"
        | SParkUnknownStreamOwner => "unknown_account"
        | SParkAuthLenAhead => "auth_len_ahead"
        | SParkIncompleteCutAncestry => "incomplete_cut_ancestry"
        | SParkUnknownCutTarget => "unknown_cut_target"
        | SParkContestedSubject => "contested_subject"
        end)
  | SCondemned reason =>
      (StatusCondemned, Some match reason with
        | SBeyondCut => "beyond_cut"
        | SOffBranch => "off_branch"
        | SClosedIncarnation => "closed_incarnation"
        end)
  | SRejected SOwnerReferenceInvalid => (StatusRejected, Some "invalid_owner")
  end%string.

Record SecretsAcceptanceInput : Type := mkSecretsAcceptanceInput {
  si_account_id : AccountId;
  si_entry_hash : AccountEntryHash;
  si_seq : Z;
  si_authority_ref : option OwnerId;
  si_owner_authority : AuthorityQuery OwnerChainAuthority;
  si_ownership : option (AuthorityQuery AccountEntryHash);
  si_asserted_auth_len : Z;
  si_dense_predecessor_reachable : bool;
  si_branch_selected : bool;
  si_freshness : CitedFreshness;
  si_contested : bool;
  si_ancestry : AccountEntryHash → AccountEntryHash → AncestryRelation;
}.

(** ** The predicate *)

Definition invalid_owner_citation (reason : AuthorityInvalidReason) (freshness : AuthorityFreshness) : SecretsAcceptance :=
  match reason, freshness with
  | WrongSubject, _ | ReferencedEntryNotEffective, CurrentOrBehind => SRejected SOwnerReferenceInvalid
  | ReferencedEntryNotEffective, Ahead => SParked SParkAuthLenAhead
  end.

Definition secrets_rank_verdict (rank : Z) : option (option SecretsAcceptance) :=
  match rank with
  | 0 => Some None
  | 1 => Some (Some (SParked SParkIncompleteCutAncestry))
  | 2 => Some (Some (SParked SParkUnknownCutTarget))
  | 3 => Some (Some (SCondemned SBeyondCut))
  | 4 => Some (Some (SCondemned SOffBranch))
  | 5 => Some (Some (SCondemned SClosedIncarnation))
  | _ => None
  end.

(** The ranks are those of the content predicate ([boundary_rank]). *)
Definition secrets_combine_boundaries (boundaries : list AuthorityBoundary) (seq : Z) (entry_hash : AccountEntryHash)
    (ancestry : AccountEntryHash → AccountEntryHash → AncestryRelation) : option (option SecretsAcceptance) :=
  secrets_rank_verdict (foldl (fun rank b => Z.max rank (boundary_rank seq entry_hash ancestry b)) 0 boundaries).

Definition is_secrets_condemned (d : option SecretsAcceptance) : bool :=
  match d with Some (SCondemned _) => true | _ => false end.

Section Verdict.
Context (input : SecretsAcceptanceInput).

Definition secrets_provenance : bool :=
  bool_decide (cf_account_id (si_freshness input) = si_account_id input) &&
  bool_decide (cf_asserted_auth_len (si_freshness input) = si_asserted_auth_len input).

Definition owner_citation : result SecretsAcceptance OwnerChainAuthority :=
  _ ← ok_or (SRejected SOwnerReferenceInvalid) (si_authority_ref input);
  match si_owner_authority input with
  | Effective owner => Ok owner
  | UnknownQuery => Err (SParked SParkUnknownOwnerRef)
  | Invalid reason => Err (invalid_owner_citation reason (cf_state (si_freshness input)))
  end.

Definition stream_ownership : result SecretsAcceptance unit :=
  match si_ownership input with
  | Some UnknownQuery | Some (Invalid _) => Err (SParked SParkUnknownStreamOwner)
  | Some (Effective _) | None => Ok tt
  end.

Definition owner_boundaries (owner : OwnerChainAuthority) : list AuthorityBoundary :=
  [oc_device_boundary owner; oc_incarnation_boundary owner].

Definition secrets_authority_verdict : option (result SecretsAcceptanceInputError (option SecretsAcceptance)) :=
  if negb secrets_provenance then Some (Err SFreshnessProvenance)
  else
    match (owner ← owner_citation; _ ← stream_ownership; Ok owner) with
    | Err verdict => Some (Ok (Some verdict))
    | Ok owner =>
        boundary_decision ← secrets_combine_boundaries (owner_boundaries owner) (si_seq input) (si_entry_hash input)
                              (si_ancestry input);
        Some (Ok (if is_secrets_condemned boundary_decision then boundary_decision
                  else if si_contested input then Some (SParked SParkContestedSubject)
                  else boundary_decision))
    end.

Definition evaluate_secrets_acceptance : option (result SecretsAcceptanceInputError SecretsAcceptance) :=
  r ← secrets_authority_verdict;
  Some (verdict ← r;
        match verdict with
        | Some verdict => Ok verdict
        | None =>
            if negb (si_dense_predecessor_reachable input) then Ok (SParked SParkMissingPredecessor)
            else if negb (si_branch_selected input) then Ok SForked
            else if bool_decide (cf_state (si_freshness input) = Ahead) then Ok (SParked SParkAuthLenAhead)
            else Ok SAccepted
        end).
End Verdict.

(** ** Specification *)

(** The citation resolves: the entry names an owner incarnation, the fold answers with it, and the
    account owns the stream of a key wrap. *)
Definition owner_cited (i : SecretsAcceptanceInput) (owner : OwnerChainAuthority) : Prop :=
  is_Some (si_authority_ref i) ∧ si_owner_authority i = Effective owner ∧
  ∀ q, si_ownership i = Some q → ∃ own, q = Effective own.

Definition owner_admits (i : SecretsAcceptanceInput) (owner : OwnerChainAuthority) : Prop :=
  Forall (boundary_admits (si_seq i) (si_entry_hash i) (si_ancestry i)) (owner_boundaries owner).
Definition owner_condemns (i : SecretsAcceptanceInput) (owner : OwnerChainAuthority) : Prop :=
  Exists (boundary_condemns (si_seq i) (si_entry_hash i) (si_ancestry i)) (owner_boundaries owner).

Lemma secrets_rank_cases m :
  0 ≤ m ≤ 5 → ∃ d, secrets_rank_verdict m = Some d ∧ (d = None ↔ m = 0) ∧ (is_secrets_condemned d = true ↔ 3 ≤ m) ∧
    d ≠ Some SAccepted ∧ d ≠ Some SForked.
Proof.
  intros Hm. assert (m = 0 ∨ m = 1 ∨ m = 2 ∨ m = 3 ∨ m = 4 ∨ m = 5) as Hc by lia.
  destruct Hc as [->|[->|[->|[->|[->| ->]]]]]; eexists; (split; [reflexivity|]);
    (split; [by split|]); (split; [by split; simpl; try lia|done]).
Qed.

Lemma secrets_combine_spec seq h ancestry bs :
  ∃ d, secrets_combine_boundaries bs seq h ancestry = Some d ∧
    (d = None ↔ Forall (boundary_admits seq h ancestry) bs) ∧
    (is_secrets_condemned d = true ↔ Exists (boundary_condemns seq h ancestry) bs) ∧
    d ≠ Some SAccepted ∧ d ≠ Some SForked.
Proof.
  destruct (secrets_rank_cases _ (top_range seq h ancestry bs)) as (d & Hd & Hn & Hc & Hacc).
  exists d. split; [exact Hd|]. by rewrite Hn, Hc, top_zero, top_condemns.
Qed.

(** How the predicate answers, by whether the citation resolves. *)
Lemma owner_steps_iff i owner :
  (owner ← owner_citation i; _ ← stream_ownership i; Ok owner) = Ok owner ↔ owner_cited i owner.
Proof.
  unfold owner_citation, stream_ownership, owner_cited.
  destruct (si_authority_ref i) as [ref|]; simpl; [|by split; [|intros [[? ?] _]]].
  destruct (si_owner_authority i) as [o| |reason]; simpl; [|naive_solver..].
  destruct (si_ownership i) as [[own| |?]|]; simpl; split; try naive_solver.
Qed.

Definition secrets_soft (v : SecretsAcceptance) : Prop :=
  match v with SParked _ | SRejected _ => True | _ => False end.

Lemma owner_steps_soft i v :
  (owner ← owner_citation i; _ ← stream_ownership i; Ok owner) = Err v → secrets_soft v.
Proof.
  unfold owner_citation, stream_ownership. destruct (si_authority_ref i) as [ref|]; simpl; [|by intros [= <-]].
  destruct (si_owner_authority i) as [o| |[]]; simpl.
  - destruct (si_ownership i) as [[own| |?]|]; simpl; by intros [= <-].
  - by intros [= <-].
  - by intros [= <-].
  - destruct (cf_state _); by intros [= <-].
Qed.

Lemma secrets_authority_cases i :
  (secrets_provenance i = false ∧ secrets_authority_verdict i = Some (Err SFreshnessProvenance)) ∨
  (secrets_provenance i = true ∧ (∀ owner, ¬ owner_cited i owner) ∧
     ∃ v, secrets_soft v ∧ secrets_authority_verdict i = Some (Ok (Some v))) ∨
  (secrets_provenance i = true ∧ ∃ owner d, owner_cited i owner ∧
     (d = None ↔ owner_admits i owner) ∧ (is_secrets_condemned d = true ↔ owner_condemns i owner) ∧
     d ≠ Some SAccepted ∧ d ≠ Some SForked ∧
     secrets_authority_verdict i =
       Some (Ok (if is_secrets_condemned d then d else if si_contested i then Some (SParked SParkContestedSubject) else d))).
Proof.
  unfold secrets_authority_verdict. destruct (secrets_provenance i); [right|by left].
  destruct (owner ← owner_citation i; _ ← stream_ownership i; Ok owner) as [owner|v] eqn:Hs.
  - right. split; [done|].
    destruct (secrets_combine_spec (si_seq i) (si_entry_hash i) (si_ancestry i) (owner_boundaries owner))
      as (d & Hd & Hn & Hc & Ha & Hf).
    exists owner, d. split_and!; try done; [by apply owner_steps_iff|..]; try apply Hn; try apply Hc.
    simpl. by rewrite Hd.
  - left. split; [done|]. split.
    + intros owner Ho. apply owner_steps_iff in Ho. congruence.
    + exists v. split; [by eapply owner_steps_soft|done].
Qed.

(** The predicate never panics. *)
Lemma secrets_authority_total i : is_Some (secrets_authority_verdict i).
Proof.
  destruct (secrets_authority_cases i) as [[_ ->]|[(_ & _ & v & _ & ->)|(_ & o & d & _ & _ & _ & _ & _ & ->)]]; eauto.
Qed.

(** An entry passes the authority phase exactly when it cites a resolved owner, both of the owner's
    registers admit it and the account is not contested. *)
Lemma secrets_eligible_iff i :
  secrets_authority_verdict i = Some (Ok None) ↔
  secrets_provenance i = true ∧ si_contested i = false ∧ ∃ owner, owner_cited i owner ∧ owner_admits i owner.
Proof.
  destruct (secrets_authority_cases i) as [[Hp ->]|[(Hp & Hno & v & _ & ->)|(Hp & o & d & Ho & Hn & Hc & Ha & Hf & ->)]].
  - split; [done|]. intros (Hp' & _). congruence.
  - split; [done|]. intros (_ & _ & o & Ho & _). by destruct (Hno o).
  - split.
    + intros [= Hd]. destruct (is_secrets_condemned d) eqn:Hcd; [by subst|].
      destruct (si_contested i); [done|]. subst. split_and!; try done. exists o. split; [done|]. by apply Hn.
    + intros (_ & Hct & o' & Ho' & Hadm). assert (o' = o) as ->.
      { destruct Ho as (_ & Ho & _), Ho' as (_ & Ho' & _). congruence. }
      apply Hn in Hadm as ->. by rewrite Hct.
Qed.

(** The finished predicate: the authority phase, then the graph, then freshness. *)
Lemma evaluate_secrets_eq i :
  evaluate_secrets_acceptance i =
  match secrets_authority_verdict i with
  | None => None
  | Some (Err e) => Some (Err e)
  | Some (Ok (Some v)) => Some (Ok v)
  | Some (Ok None) =>
      Some (Ok (if negb (si_dense_predecessor_reachable i) then SParked SParkMissingPredecessor
                else if negb (si_branch_selected i) then SForked
                else if bool_decide (cf_state (si_freshness i) = Ahead) then SParked SParkAuthLenAhead
                else SAccepted))
  end.
Proof.
  unfold evaluate_secrets_acceptance. destruct (secrets_authority_verdict i) as [[[v|]|e]|]; simpl; try done.
  by repeat case_match.
Qed.

(** What an accepted entry has. *)
Definition secrets_authorized (i : SecretsAcceptanceInput) : Prop :=
  secrets_provenance i = true ∧ si_contested i = false ∧
  (∃ owner, owner_cited i owner ∧ owner_admits i owner) ∧
  si_dense_predecessor_reachable i = true ∧ si_branch_selected i = true ∧
  cf_state (si_freshness i) = CurrentOrBehind.

(** Acceptance on the secrets log, exactly: an entry is accepted iff the freshness it was given is
    its own, it cites an owner incarnation the fold knows with the stream owned, both registers of
    that owner admit it, the account is not contested, its chain is held back to slot 0, it is on
    the selected branch and the account's control log is not ahead of what is held. *)
Lemma secrets_accepted_iff i : evaluate_secrets_acceptance i = Some (Ok SAccepted) ↔ secrets_authorized i.
Proof.
  rewrite evaluate_secrets_eq. unfold secrets_authorized. split.
  - intros He. destruct (secrets_authority_verdict i) as [[[v|]|e]|] eqn:Hv; try discriminate He.
    + injection He as ->. exfalso.
      destruct (secrets_authority_cases i) as [[_ Hc]|[(_ & _ & w & Hs & Hc)|(_ & o & d & _ & _ & _ & Ha & _ & Hc)]];
        rewrite Hv in Hc; simplify_eq; [done|]. destruct (is_secrets_condemned d); [congruence|].
      destruct (si_contested i); congruence.
    + apply secrets_eligible_iff in Hv as (Hp & Hct & Ho).
      destruct (si_dense_predecessor_reachable i), (si_branch_selected i); try done.
      case_bool_decide as Hf; [done|]. split_and!; try done. by destruct (cf_state _).
  - intros (Hp & Hct & Ho & -> & -> & Hf). rewrite (proj2 (secrets_eligible_iff i)) by done. by rewrite Hf.
Qed.

(** Condemnation on the secrets log, exactly: an entry is condemned iff it cites a resolved owner one
    of whose registers puts it beyond its cut, off its branch or in a closed incarnation; no missing
    or late input condemns, and no hold, gap or fork hides it. *)
Theorem secrets_condemned_iff (i : SecretsAcceptanceInput) :
  (∃ r, evaluate_secrets_acceptance i = Some (Ok (SCondemned r))) ↔
  secrets_provenance i = true ∧ ∃ owner, owner_cited i owner ∧ owner_condemns i owner.
Proof.
  rewrite evaluate_secrets_eq.
  destruct (secrets_authority_cases i) as [[Hp ->]|[(Hp & Hno & v & Hs & ->)|(Hp & o & d & Ho & Hn & Hc & Ha & Hf & ->)]].
  - split; [by intros [r Hr]|]. intros (Hp' & _). congruence.
  - split; [|intros (_ & o & Ho & _); by destruct (Hno o)]. intros [r [= ->]]. done.
  - assert (∀ o', owner_cited i o' → o' = o) as Huniq.
    { intros o' (_ & Ho' & _). destruct Ho as (_ & Ho & _). congruence. }
    split.
    + intros [r Hr]. split; [done|]. exists o. split; [done|]. apply Hc.
      destruct (is_secrets_condemned d) eqn:Hcd; [done|]. exfalso.
      destruct (si_contested i); [done|]. destruct d as [v|]; [simplify_eq; done|]. by repeat case_match.
    + intros (_ & o' & ->%Huniq & Hcond). apply Hc in Hcond. rewrite Hcond.
      destruct d as [[]|]; try done. eauto.
Qed.
