(* ===== verification/SecretsFold.v ===== *)
(** * The secrets refold ([account/secrets/storage.rs])

    The acceptance of every entry of an account's secrets log, re-derived from the current fold: the
    candidates are decoded and their authority facts resolved through per-refold memo tables, the
    eligible ones compete for the slots of their chain under the pins of the registers, and the
    finished verdicts, made prefix-closed, are written.  The rows the pass writes are [SecretsDb]; the
    rows it loads are its argument, as the query returns them. *)

From S2P Require Import Prelude Cbor Minicbor Hash Op Device Entry Stream Branch Envelope Candidate Refold AccountOps FoldTypes Snapshot AuthStore Keywrap SecretsOps ContentEnvelope Acceptance Secrets.

Local Open Scope Z_scope.
Local Open Scope run_scope.

(** ** Data *)

Record WrapFacts : Type := mkWrapFacts {
  wf_authority_ref : option OwnerId;
  wf_owner_authority : AuthorityQuery OwnerChainAuthority;
  wf_ownership : option (AuthorityQuery AccountEntryHash);
  wf_freshness : CitedFreshness;
  wf_contested : bool;
}.

Record ResolvedSecretsEntry : Type := mkResolvedSecretsEntry {
  rs_entry_hash : AccountEntryHash;
  rs_header : AccountEntryHeader;
  rs_dense_predecessor_reachable : bool;
  rs_facts : option WrapFacts;
  rs_incarnation : option RepoIncarnation;
}.

Definition is_evaluable (r : ResolvedSecretsEntry) : bool := bool_decide (is_Some (rs_facts r)).
Definition is_prefix_transparent (r : ResolvedSecretsEntry) : bool :=
  bool_decide (is_Some (rs_incarnation r)) || negb (is_evaluable r).

Inductive Phase : Type := PhaseEligibility | PhaseFinished.

(** The memo tables of one refold. *)
Record Caches : Type := mkCaches {
  ca_owner : gmap (OwnerId * DeviceFingerprint) (AuthorityQuery OwnerChainAuthority);
  ca_ownership : gmap StreamId (AuthorityQuery AccountEntryHash);
  ca_held_control_log : option Z;
}.
Definition no_caches : Caches := mkCaches ∅ ∅ None.

(** The rows this pass writes: [account_entry_status], the [accepted] column, the status map of the
    caller and [account_repo_incarnation_current].  When the pass runs the column is clear for the
    entries of the secrets log and already set for the winners of the control log, so [sd_accepted]
    need not be empty: only no row of the pass is in it. *)
Record SecretsDb : Type := mkSecretsDb {
  sd_status : gmap AccountEntryHash (EntryStatus * option string);
  sd_accepted : gset AccountEntryHash;
  sd_statuses : gmap AccountEntryHash EntryStatus;
  sd_incarnation_current : gmap (AccountId * bytes) (option AccountEntryHash);
}.

Inductive RepoIncarnationState : Type :=
| IncarnationAbsent
| IncarnationCurrent (reference : AccountEntryHash)
| IncarnationContested.

(** One connection: [account_db] holds its pins, [db] the row.  [read_snapshot] opens the transaction
    both reads share. *)
Definition repo_incarnation_state (account_db : AccountDb) (db : SecretsDb) (account_id : AccountId) (repo_id : bytes)
    : result AnyError RepoIncarnationState :=
  _ ← require_supported_account_control account_db account_id;
  match sd_incarnation_current db !! (account_id, repo_id) with
  | None => Ok IncarnationAbsent
  | Some None => Ok IncarnationContested
  | Some (Some reference) => reference ← id_fixed 32 reference; Ok (IncarnationCurrent reference)
  end.

(** [account_id == ..] and [device_fingerprint == ..] of the forward pass. *)
Definition same_secrets_chain (parent child : AccountEntryHeader) : bool :=
  bool_decide (ah_account_id child = ah_account_id parent) &&
  bool_decide (ah_device_fingerprint child = ah_device_fingerprint parent).

(** The seq of the cut is not read by the walk. *)
Definition ancestry_relation (view : HeaderView) (target watermark : AccountEntryHash) : AncestryRelation :=
  default (UnknownRelation IncompleteCutAncestry) (ancestry target (CutAt 0 watermark) view).

Section Refold.
Context `{Minicbor} `{Sha256} `{AuthoritySnapshot}.

(** ** Loading *)

Definition SecretsHeader : Type := AccountEntryHash * AccountEntryHeader * bytes.

Definition load_row (row : bytes * bytes) : result AnyError (option SecretsHeader) :=
  entry_hash ← id_fixed 32 row.1;
  match decode_account_signed row.2 with
  | Err _ => Ok None
  | Ok signed =>
      if bool_decide (sa_entry_hash signed ≠ entry_hash) then Ok None
      else Ok (Some (entry_hash, sa_header signed, sa_payload signed))
  end.

Definition load_secrets_headers (rows : list (bytes * bytes)) : result AnyError (list SecretsHeader) := load_rows load_row rows.

Definition secrets_view (headers : list SecretsHeader) : HeaderView := collect_view headers.*1.

(** ** Facts *)

Definition cached_owner (account_id : AccountId) (header : AccountEntryHeader) (caches : Caches)
    : result AnyError (AuthorityQuery OwnerChainAuthority * Caches) :=
  match ah_authority_ref header with
  | None => Ok (UnknownQuery, caches)
  | Some owner_id =>
      match ca_owner caches !! (owner_id, ah_device_fingerprint header) with
      | Some cached => Ok (cached, caches)
      | None =>
          resolved ← sn_owner_secrets_authority account_id owner_id (ah_device_fingerprint header);
          Ok (resolved, mkCaches (<[(owner_id, ah_device_fingerprint header) := resolved]> (ca_owner caches))
                          (ca_ownership caches) (ca_held_control_log caches))
      end
  end.

Definition cached_ownership (account_id : AccountId) (stream_id : option StreamId) (caches : Caches)
    : result AnyError (option (AuthorityQuery AccountEntryHash) * Caches) :=
  match stream_id with
  | None => Ok (None, caches)
  | Some stream_id =>
      match ca_ownership caches !! stream_id with
      | Some cached => Ok (Some cached, caches)
      | None =>
          resolved ← sn_stream_owner_effective account_id stream_id;
          Ok (Some resolved, mkCaches (ca_owner caches) (<[stream_id := resolved]> (ca_ownership caches))
                               (ca_held_control_log caches))
      end
  end.

Definition cached_held (account_id : AccountId) (caches : Caches) : result AnyError (Z * Caches) :=
  match ca_held_control_log caches with
  | Some held => Ok (held, caches)
  | None =>
      held ← sn_held_control_log_len account_id;
      Ok (held, mkCaches (ca_owner caches) (ca_ownership caches) (Some held))
  end.

(** What the payload of an evaluable entry is about: the stream of a key wrap, or an incarnation. *)
Definition evaluable_subject (header : AccountEntryHeader) (payload : bytes)
    : option (option StreamId * option RepoIncarnation) :=
  if bool_decide (ah_op_version header ≠ SUPPORTED_OP_VERSION) || bool_decide (ah_crypto_suite header ≠ 0) then None
  else match secrets_decode (ah_entry_type header) payload with
       | Ok (DecodedKeyWrap wrap) => Some (Some (sk_stream_id wrap), None)
       | Ok (DecodedIncarnation op) => Some (None, Some op)
       | Ok (UnknownSecretsOp _ _) | Err _ => None
       end.

Definition secrets_facts (account_id : AccountId) (header : AccountEntryHeader) (payload : bytes) (contested : bool)
    (caches : Caches) : result AnyError (option WrapFacts * option RepoIncarnation * Caches) :=
  match evaluable_subject header payload with
  | None => Ok (None, None, caches)
  | Some (stream_id, incarnation) =>
      '(owner_authority, caches) ← cached_owner account_id header caches;
      '(ownership, caches) ← cached_ownership account_id stream_id caches;
      '(held, caches) ← cached_held account_id caches;
      Ok (Some (mkWrapFacts (ah_authority_ref header) owner_authority ownership
                  (mkCitedFreshness account_id (ah_auth_len header) (freshness_of (ah_auth_len header) held)) contested),
          incarnation, caches)
  end.

Fixpoint resolve_loop (account_id : AccountId) (contested : bool) (reachable : gset AccountEntryHash)
    (headers : list SecretsHeader) (caches : Caches) : result AnyError (list ResolvedSecretsEntry) :=
  match headers with
  | [] => Ok []
  | (entry_hash, header, payload) :: headers =>
      '(facts, incarnation, caches) ← secrets_facts account_id header payload contested caches;
      resolved ← resolve_loop account_id contested reachable headers caches;
      Ok (mkResolvedSecretsEntry entry_hash header (bool_decide (entry_hash ∈ reachable)) facts incarnation :: resolved)
  end.

Definition resolve_secrets_entries (account_id : AccountId) (headers : list SecretsHeader)
    (reachable : gset AccountEntryHash) : result AnyError (list ResolvedSecretsEntry) :=
  contested ← sn_account_is_contested account_id;
  resolve_loop account_id contested reachable headers no_caches.
End Refold.

(** ** Verdicts *)

Definition secrets_input (r : ResolvedSecretsEntry) (facts : WrapFacts) (view : HeaderView) (branch_selected : bool)
    : SecretsAcceptanceInput :=
  mkSecretsAcceptanceInput (cf_account_id (wf_freshness facts)) (rs_entry_hash r) (ah_seq (rs_header r))
    (wf_authority_ref facts) (wf_owner_authority facts) (wf_ownership facts) (ah_auth_len (rs_header r))
    (rs_dense_predecessor_reachable r) branch_selected (wf_freshness facts) (wf_contested facts) (ancestry_relation view).

Definition provenance_error : AnyError := Bail "secrets refold built inconsistent freshness provenance".

Definition verdict_for (r : ResolvedSecretsEntry) (view : HeaderView) (branch_selected : bool) (phase : Phase)
    : Run (option SecretsAcceptance) :=
  facts <- of_option (rs_facts r) ;;
  let input := secrets_input r facts view branch_selected in
  match phase with
  | PhaseEligibility => verdict ← secrets_authority_verdict input; Some (map_err (fun _ => provenance_error) verdict)
  | PhaseFinished => verdict ← evaluate_secrets_acceptance input; Some (map_err (fun _ => provenance_error) (Some <$> verdict))
  end.

Definition boundary_pin (coordinate : SecretsCoordinate) (boundary : AuthorityBoundary) : option (BranchPin SecretsCoordinate) :=
  match boundary with BoundaryCut seq hash => Some (mkBranchPin coordinate seq hash) | _ => None end.

Definition entry_pins (r : ResolvedSecretsEntry) : list (BranchPin SecretsCoordinate) :=
  match rs_facts r with
  | Some facts =>
      match wf_owner_authority facts with
      | Effective owner => omap (boundary_pin (secrets_coordinate_of (rs_header r))) (owner_boundaries owner)
      | _ => []
      end
  | None => []
  end.
Definition branch_pins (resolved : list ResolvedSecretsEntry) : list (BranchPin SecretsCoordinate) :=
  mjoin (entry_pins <$> resolved).

Definition eligible_step (view : HeaderView) (eligible : gset AccountEntryHash) (r : ResolvedSecretsEntry)
    : Run (gset AccountEntryHash) :=
  if is_prefix_transparent r then run_ret ({[rs_entry_hash r]} ∪ eligible)
  else
    verdict <- verdict_for r view false PhaseEligibility ;;
    run_ret (match verdict with None => {[rs_entry_hash r]} ∪ eligible | Some _ => eligible end).

Abbreviation RawVerdicts := (gmap AccountEntryHash SecretsAcceptance).

Definition raw_step (view : HeaderView) (selection : BranchSelection) (raw : RawVerdicts) (r : ResolvedSecretsEntry)
    : Run RawVerdicts :=
  if is_evaluable r then
    verdict <- verdict_for r view (bool_decide (rs_entry_hash r ∈ bs_accepted selection)) PhaseFinished ;;
    verdict <- of_option verdict ;;
    run_ret (<[rs_entry_hash r := verdict]> raw)
  else run_ret raw.

Definition raw_accepted (raw : RawVerdicts) (hash : AccountEntryHash) : bool := bool_decide (raw !! hash = Some SAccepted).

Definition secrets_prefix_closed (resolved : list ResolvedSecretsEntry) (selection : BranchSelection) (raw : RawVerdicts)
    : gset AccountEntryHash :=
  prefix_closed_accepted (raw_accepted raw) (winner_rows rs_entry_hash rs_header is_prefix_transparent resolved selection).

Definition final_verdict (accepted : gset AccountEntryHash) (selection : BranchSelection) (hash : AccountEntryHash)
    (verdict : SecretsAcceptance) : SecretsAcceptance :=
  if bool_decide (hash ∈ accepted) then SAccepted
  else if bool_decide (hash ∈ bs_forked selection) then SForked
  else match verdict with
       | SAccepted => SParked SParkAuthLenAhead
       | SForked => SParked SParkMissingPredecessor
       | other => other
       end.

Definition write_secrets_verdict (entry_hash : AccountEntryHash) (verdict : SecretsAcceptance) (db : SecretsDb) : SecretsDb :=
  mkSecretsDb (<[entry_hash := secrets_as_db_pair verdict]> (sd_status db))
    (if bool_decide (verdict = SAccepted) then {[entry_hash]} ∪ sd_accepted db else sd_accepted db)
    (<[entry_hash := (secrets_as_db_pair verdict).1]> (sd_statuses db)) (sd_incarnation_current db).

Definition write_step (accepted : gset AccountEntryHash) (selection : BranchSelection) (raw : RawVerdicts)
    (db : SecretsDb) (r : ResolvedSecretsEntry) : SecretsDb :=
  match raw !! rs_entry_hash r with
  | None => db
  | Some verdict => write_secrets_verdict (rs_entry_hash r) (final_verdict accepted selection (rs_entry_hash r) verdict) db
  end.

(** ** The incarnation projection *)

Abbreviation IncarnationNode := (AccountEntryHash * option AccountEntryHash)%type.

Definition push_node (by_repo : gmap bytes (list IncarnationNode)) (repo_id : bytes) (node : IncarnationNode)
    : gmap bytes (list IncarnationNode) :=
  <[repo_id := default [] (by_repo !! repo_id) ++ [node]]> by_repo.

Definition collect_node (accepted : gset AccountEntryHash) (by_repo : gmap bytes (list IncarnationNode))
    (r : ResolvedSecretsEntry) : gmap bytes (list IncarnationNode) :=
  match rs_incarnation r with
  | None => by_repo
  | Some op =>
      if bool_decide (rs_entry_hash r ∈ accepted)
      then push_node by_repo (ri_repo_id op) (rs_entry_hash r, ri_predecessor_ref op) else by_repo
  end.

Abbreviation Children := (gmap AccountEntryHash (list AccountEntryHash)).

Definition node_roots (nodes : list IncarnationNode) : list AccountEntryHash :=
  omap (fun '(hash, predecessor) => if bool_decide (predecessor = None) then Some hash else None) nodes.

Definition child_step (held : gset AccountEntryHash) (s : Children * bool) (node : IncarnationNode) : Children * bool :=
  let '(children, contested) := s in
  match node.2 with
  | None => s
  | Some predecessor =>
      (<[predecessor := default [] (children !! predecessor) ++ [node.1]]> children,
       contested || negb (bool_decide (predecessor ∈ held)))
  end.

(** The [while let]: the current entry, the count and the contested flag at its end.  The [None] of
    the outer option is an exhausted fuel. *)
Fixpoint tip_loop (fuel : nat) (children : Children) (nodes : nat) (current : option AccountEntryHash) (visited : nat)
    (contested : bool) : option (option AccountEntryHash * nat * bool) :=
  match current with
  | None => Some (None, visited, contested)
  | Some hash =>
      match fuel with
      | O => None
      | S fuel =>
          let visited := S visited in
          match children !! hash ≫= hd_error with
          | None => Some (Some hash, visited, contested)
          | Some next =>
              if bool_decide (nodes < visited)%nat then Some (Some next, visited, true)
              else tip_loop fuel children nodes (Some next) visited contested
          end
      end
  end.

Definition current_incarnation (nodes : list IncarnationNode) : option (option AccountEntryHash) :=
  let held : gset AccountEntryHash := list_to_set nodes.*1 in
  let roots := node_roots nodes in
  let '(children, contested) := foldl (child_step held) (∅, bool_decide (length roots ≠ 1%nat)) nodes in
  let contested := contested || existsb (fun row => bool_decide (length row.2 ≠ 1%nat)) (map_to_list children) in
  '(current, visited, contested) ← tip_loop (S (S (length nodes))) children (length nodes) (hd_error roots) 0 contested;
  let contested := contested || bool_decide (visited ≠ length nodes) in
  Some (if (contested : bool) then None else current).

Definition write_incarnation (account_id : AccountId) (db : SecretsDb) (row : bytes * list IncarnationNode) : Run SecretsDb :=
  current <- of_option (current_incarnation row.2) ;;
  run_ret (mkSecretsDb (sd_status db) (sd_accepted db) (sd_statuses db)
    (<[(account_id, row.1) := current]> (sd_incarnation_current db))).

Definition rewrite_repo_incarnation_projection (account_id : AccountId) (resolved : list ResolvedSecretsEntry)
    (accepted : gset AccountEntryHash) (db : SecretsDb) : Run SecretsDb :=
  let db := mkSecretsDb (sd_status db) (sd_accepted db) (sd_statuses db)
              (filter (fun row => row.1.1 ≠ account_id) (sd_incarnation_current db)) in
  run_foldl (write_incarnation account_id) db (map_to_list (foldl (collect_node accepted) ∅ resolved)).

(** ** The pass *)

Section Pass.
Context `{Minicbor} `{Sha256} `{AuthoritySnapshot}.

Definition refold_secrets_log (account_id : AccountId) (rows : list (bytes * bytes)) (db : SecretsDb) : Run SecretsDb :=
  headers <- Some (load_secrets_headers rows) ;;
  match headers with
  | [] => run_ret db
  | _ =>
      let view := secrets_view headers in
      reachable <- of_option (reachable_entries same_secrets_chain view) ;;
      resolved <- Some (resolve_secrets_entries account_id headers reachable) ;;
      eligible <- run_foldl (eligible_step view) ∅ resolved ;;
      let candidates := candidates_of rs_entry_hash rs_header resolved in
      selection <- of_option (secrets_select_accepted_branch candidates eligible (branch_pins resolved) view) ;;
      raw <- run_foldl (raw_step view selection) ∅ resolved ;;
      let accepted := secrets_prefix_closed resolved selection raw in
      let db := foldl (write_step accepted selection raw) db resolved in
      rewrite_repo_incarnation_projection account_id resolved accepted db
  end.
End Pass.

(** ** The memo tables do not change the facts *)

Section Facts.
Context `{Minicbor} `{Sha256} `{AuthoritySnapshot}.

(** The facts of one entry, read from the snapshot. *)
Definition direct_facts (account_id : AccountId) (header : AccountEntryHeader) (payload : bytes) (contested : bool)
    : result AnyError (option WrapFacts * option RepoIncarnation) :=
  match evaluable_subject header payload with
  | None => Ok (None, None)
  | Some (stream_id, incarnation) =>
      owner_authority ← match ah_authority_ref header with
                        | None => Ok UnknownQuery
                        | Some owner_id => sn_owner_secrets_authority account_id owner_id (ah_device_fingerprint header)
                        end;
      ownership ← match stream_id with
                  | None => Ok None
                  | Some stream_id => Some <$> sn_stream_owner_effective account_id stream_id
                  end;
      held ← sn_held_control_log_len account_id;
      Ok (Some (mkWrapFacts (ah_authority_ref header) owner_authority ownership
                  (mkCitedFreshness account_id (ah_auth_len header) (freshness_of (ah_auth_len header) held)) contested),
          incarnation)
  end.

Definition direct_entry (account_id : AccountId) (contested : bool) (reachable : gset AccountEntryHash)
    (h : SecretsHeader) : result AnyError ResolvedSecretsEntry :=
  let '(entry_hash, header, payload) := h in
  '(facts, incarnation) ← direct_facts account_id header payload contested;
  Ok (mkResolvedSecretsEntry entry_hash header (bool_decide (entry_hash ∈ reachable)) facts incarnation).

Fixpoint direct_loop (account_id : AccountId) (contested : bool) (reachable : gset AccountEntryHash)
    (headers : list SecretsHeader) : result AnyError (list ResolvedSecretsEntry) :=
  match headers with
  | [] => Ok []
  | h :: headers =>
      r ← direct_entry account_id contested reachable h;
      resolved ← direct_loop account_id contested reachable headers;
      Ok (r :: resolved)
  end.

(** Every memoized answer is what the snapshot returns. *)
Record caches_ok (account_id : AccountId) (c : Caches) : Prop := {
  co_owner owner_id device q : ca_owner c !! (owner_id, device) = Some q →
    sn_owner_secrets_authority account_id owner_id device = Ok q;
  co_ownership stream_id q : ca_ownership c !! stream_id = Some q → sn_stream_owner_effective account_id stream_id = Ok q;
  co_held held : ca_held_control_log c = Some held → sn_held_control_log_len account_id = Ok held;
}.

Lemma no_caches_ok account_id : caches_ok account_id no_caches.
Proof using Type. by split. Qed.

Lemma cached_owner_as account_id header c :
  caches_ok account_id c →
  cached_as (caches_ok account_id) (cached_owner account_id header c)
    match ah_authority_ref header with
    | None => Ok UnknownQuery
    | Some owner_id => sn_owner_secrets_authority account_id owner_id (ah_device_fingerprint header)
    end.
Proof using Type.
  intros Hc. unfold cached_owner. destruct (ah_authority_ref header) as [o|]; [|done]. apply cached_lookup; [done|apply Hc|].
  intros q Hq. split; simpl; try apply Hc.
  intros o' d' q'. rewrite lookup_insert_Some. intros [[[= <- <-] <-]|[_ ?]]; [done|by apply (co_owner _ _ Hc)].
Qed.

Lemma cached_ownership_as account_id stream_id c :
  caches_ok account_id c →
  cached_as (caches_ok account_id) (cached_ownership account_id stream_id c)
    match stream_id with None => Ok None | Some stream_id => Some <$> sn_stream_owner_effective account_id stream_id end.
Proof using Type.
  intros Hc. unfold cached_ownership, cached_as. destruct stream_id as [s|]; [|done].
  destruct (ca_ownership c !! s) as [q|] eqn:Hq; [split; [by rewrite (co_ownership _ _ Hc s q)|done]|].
  destruct (sn_stream_owner_effective _ _) as [q|e] eqn:Hs; simpl; [|done]. split; [done|]. split; simpl; try apply Hc.
  intros s' q'. rewrite lookup_insert_Some. intros [[<- <-]|[_ ?]]; [done|by apply (co_ownership _ _ Hc)].
Qed.

Lemma cached_held_as account_id c :
  caches_ok account_id c → cached_as (caches_ok account_id) (cached_held account_id c) (sn_held_control_log_len account_id).
Proof using Type.
  intros Hc. apply cached_lookup; [done|apply Hc|]. intros z Hz. split; simpl; [apply Hc|apply Hc|]. by intros ? [= <-].
Qed.

Lemma secrets_facts_as account_id header payload contested c :
  caches_ok account_id c →
  cached_as (caches_ok account_id) (secrets_facts account_id header payload contested c)
    (direct_facts account_id header payload contested).
Proof using Type.
  intros Hc. unfold secrets_facts, direct_facts. destruct (evaluable_subject header payload) as [[s i]|]; [|done].
  apply cached_bind; [by apply cached_owner_as|]. intros q c1 Hc1.
  apply cached_bind; [by apply cached_ownership_as|]. intros o c2 Hc2.
  apply cached_bind; [by apply cached_held_as|]. intros z c3 Hc3. by apply cached_ret.
Qed.

(** Resolving through the tables is resolving every entry on its own. *)
Lemma resolve_loop_direct account_id contested reachable headers c :
  caches_ok account_id c →
  resolve_loop account_id contested reachable headers c = direct_loop account_id contested reachable headers.
Proof using Type.
  revert c. induction headers as [|[[h hd] p] headers IH]; intros c Hc; [done|]. simpl.
  pose proof (secrets_facts_as account_id hd p contested c Hc) as Hf.
  destruct (secrets_facts account_id hd p contested c) as [[[f i] c']|e]; simpl in *; [|by rewrite Hf].
  destruct Hf as [-> Hc']. simpl. by rewrite (IH c' Hc').
Qed.

Lemma direct_loop_Forall2 account_id contested reachable headers resolved :
  direct_loop account_id contested reachable headers = Ok resolved ↔
  Forall2 (fun h r => direct_entry account_id contested reachable h = Ok r) headers resolved.
Proof using Type.
  revert resolved. induction headers as [|h headers IH]; intros resolved; cbn [direct_loop].
  { split; [by intros [= <-]|]. intros Hf. by inversion Hf. }
  split.
  - intros Hd. inv_ok. constructor; [done|]. by apply IH.
  - intros Hf. inversion Hf as [|? ? ? ? Hr Hrest]; subst. rewrite Hr. simpl. apply IH in Hrest. by rewrite Hrest.
Qed.
End Facts.
