(* ===== verification/Incarnation.v ===== *)
(** * The current repository incarnation ([rewrite_repo_incarnation_projection])

    The accepted incarnation entries of a repository have a current reference exactly when they form
    one complete linear chain, whatever order they were loaded in. *)

From S2P Require Import Prelude Cbor Minicbor Hash Op Device Entry Stream Branch Envelope Candidate Refold AccountOps FoldTypes Snapshot Keywrap SecretsOps ContentEnvelope Acceptance Secrets SecretsFold.

Local Open Scope Z_scope.

(** A linear chain: a root, then each entry naming the one before it. *)
Fixpoint chain_from (p : option AccountEntryHash) (l : list IncarnationNode) : Prop :=
  match l with
  | [] => True
  | n :: l => n.2 = p ∧ chain_from (Some n.1) l
  end.

Definition linear_chain (nodes l : list IncarnationNode) (tip : AccountEntryHash) : Prop :=
  l ≡ₚ nodes ∧ chain_from None l ∧ last l.*1 = Some tip.

Definition kids_of_node (nodes : list IncarnationNode) (p : AccountEntryHash) : list AccountEntryHash :=
  (filter (fun n => n.2 = Some p) nodes).*1.

Lemma elem_of_kids_of_node nodes p h : h ∈ kids_of_node nodes p ↔ (h, Some p) ∈ nodes.
Proof.
  unfold kids_of_node. rewrite list_elem_of_fmap. setoid_rewrite list_elem_of_filter. split.
  - intros ([h' q] & -> & Hq & Hin). simpl in *. by subst.
  - intros Hin. by exists (h, Some p).
Qed.

(** ** The child index *)

Lemma foldl_child (held : gset AccountEntryHash) (nodes : list IncarnationNode) (children : Children) (contested : bool) :
  let r := foldl (child_step held) (children, contested) nodes in
  (∀ p, default [] (r.1 !! p) = default [] (children !! p) ++ kids_of_node nodes p) ∧
  (r.2 = true ↔ contested = true ∨ ∃ h p, (h, Some p) ∈ nodes ∧ p ∉ held).
Proof.
  revert children contested. induction nodes as [|[h q] nodes IH]; intros children contested; cbn [foldl].
  { split; [intros p; by rewrite app_nil_r|]. split; [by left|]. intros [?|(h & p & ?%elem_of_nil & _)]; done. }
  unfold child_step at 2 4. simpl. destruct q as [p0|].
  - destruct (IH (<[p0 := default [] (children !! p0) ++ [h]]> children) (contested || negb (bool_decide (p0 ∈ held)))) as [Hk Hc].
    split.
    + intros p. rewrite Hk. unfold kids_of_node. destruct (decide (p0 = p)) as [->|Hne].
      * rewrite lookup_insert_eq, filter_cons_True by done. simpl. by rewrite <- app_assoc.
      * rewrite lookup_insert_ne, filter_cons_False by (done || simpl; congruence). done.
    + rewrite Hc, orb_true_iff, negb_true_iff, bool_decide_eq_false. split.
      * intros [[?|Hp]|(h' & p & Hin & Hp)]; [by left|right; exists h, p0; split; [by left|done]|right; exists h', p; split; [by right|done]].
      * intros [?|(h' & p & [Heq|Hin]%elem_of_cons & Hp)]; [by left; left|left; right; congruence|right; eauto].
  - destruct (IH children contested) as [Hk Hc]. split.
    + intros p. rewrite Hk. unfold kids_of_node. by rewrite filter_cons_False.
    + rewrite Hc. split; (intros [?|(h' & p & Hin & Hp)]; [by left|right; exists h', p]).
      * split; [by right|done].
      * apply elem_of_cons in Hin as [Heq|Hin]; [congruence|done].
Qed.

(** No row of the index is empty. *)
Lemma foldl_child_nonempty (held : gset AccountEntryHash) (nodes : list IncarnationNode) (children : Children) (contested : bool) p l :
  (∀ p l, children !! p = Some l → l ≠ []) →
  (foldl (child_step held) (children, contested) nodes).1 !! p = Some l → l ≠ [].
Proof.
  revert children contested. induction nodes as [|[h q] nodes IH]; intros children contested Hne; cbn [foldl]; [apply Hne|].
  unfold child_step at 2. simpl. destruct q as [p0|]; apply IH; [|done].
  intros p' l'. rewrite lookup_insert_Some. intros [[_ <-]|[_ ?]]; [by destruct (default [] _)|by eapply Hne].
Qed.

(** ** The walk to the tip *)

(** The entries visited from [h], each the first child of the one before. *)
Inductive tip_path (nodes : list IncarnationNode) : AccountEntryHash → list AccountEntryHash → AccountEntryHash → Prop :=
| tip_here h : kids_of_node nodes h = [] → tip_path nodes h [h] h
| tip_next h h' l t : hd_error (kids_of_node nodes h) = Some h' → tip_path nodes h' l t → tip_path nodes h (h :: l) t.

Lemma tip_loop_spec (nodes : list IncarnationNode) (children : Children) n fuel h visited contested :
  (∀ p, children !! p ≫= hd_error = hd_error (kids_of_node nodes p)) → (visited ≤ n + 1)%nat → (n + 1 < fuel + visited)%nat →
  ∃ current visited' contested', tip_loop fuel children n (Some h) visited contested = Some (current, visited', contested') ∧
    (contested' = false → contested = false ∧
       ∃ l t, tip_path nodes h l t ∧ current = Some t ∧ visited' = (visited + length l)%nat).
Proof.
  intros Hk. revert h visited. induction fuel as [|fuel IH]; intros h visited Hv Hf; [lia|].
  cbn [tip_loop]. rewrite Hk. destruct (hd_error (kids_of_node nodes h)) as [next|] eqn:Hn.
  - case_bool_decide as Hb; [by exists (Some next), (S visited), true|].
    destruct (IH next (S visited)) as (cur & v' & c' & Hr & Hspec); [lia|lia|].
    exists cur, v', c'. split; [exact Hr|]. intros Hc. destruct (Hspec Hc) as (Hc0 & l & t & Hp & -> & ->).
    split; [done|]. exists (h :: l), t. split_and!; [by eapply tip_next|done|simpl; lia].
  - do 3 eexists. split; [done|]. intros ->. split; [done|]. exists [h], h. split_and!; [|done|simpl; lia].
    apply tip_here. by destruct (kids_of_node nodes h).
Qed.

(** ** Linear chains *)

Lemma chain_from_lookup p l i n :
  chain_from p l → l !! i = Some n → n.2 = match i with O => p | S j => fst <$> l !! j end.
Proof.
  revert p i. induction l as [|m l IH]; intros p i Hc Hi; [done|]. destruct Hc as [Hm Hc].
  destruct i as [|i]; simpl in Hi; [by simplify_eq|]. rewrite (IH _ _ Hc Hi). by destruct i.
Qed.

(** A chain over entries with distinct hashes repeats none. *)
Lemma chain_NoDup nodes l :
  NoDup nodes.*1 → (∀ n, n ∈ l → n ∈ nodes) → chain_from None l → NoDup l.
Proof.
  intros Hnd Hsub Hc. apply NoDup_alt. intros i. induction i as [|i IH]; intros [|j] n Hi Hj; [done|..].
  - pose proof (chain_from_lookup _ _ _ _ Hc Hi). pose proof (chain_from_lookup _ _ _ _ Hc Hj) as Hp. simpl in *.
    destruct (l !! j) eqn:Hlj; [simpl in Hp; congruence|]. apply lookup_ge_None in Hlj. apply lookup_lt_Some in Hj. lia.
  - pose proof (chain_from_lookup _ _ _ _ Hc Hj). pose proof (chain_from_lookup _ _ _ _ Hc Hi) as Hp. simpl in *.
    destruct (l !! i) eqn:Hli; [simpl in Hp; congruence|]. apply lookup_ge_None in Hli. apply lookup_lt_Some in Hi. lia.
  - f_equal. pose proof (chain_from_lookup _ _ _ _ Hc Hi) as Hpi. pose proof (chain_from_lookup _ _ _ _ Hc Hj) as Hpj. simpl in *.
    destruct (l !! i) as [a|] eqn:Hli; [|apply lookup_ge_None in Hli; apply lookup_lt_Some in Hi; lia].
    destruct (l !! j) as [b|] eqn:Hlj; [|apply lookup_ge_None in Hlj; apply lookup_lt_Some in Hj; lia]. simpl in *.
    assert (a = b) as ->; [|by eapply IH].
    eapply (NoDup_fmap_inj fst nodes); [done|by apply Hsub, list_elem_of_lookup_2 with i|by apply Hsub, list_elem_of_lookup_2 with j|congruence].
Qed.

(** The visited entries are a chain of entries of the repository. *)
Lemma tip_path_chain nodes p h l t :
  (h, p) ∈ nodes → tip_path nodes h l t →
  ∃ L, L.*1 = l ∧ chain_from p L ∧ (∀ n, n ∈ L → n ∈ nodes) ∧ last l = Some t.
Proof.
  intros Hin Hp. revert p Hin. induction Hp as [h Hk|h h' l t Hn _ IH]; intros p Hin.
  - exists [(h, p)]. split_and!; [done|done| |done]. by intros n ->%list_elem_of_singleton.
  - assert ((h', Some h) ∈ nodes) as Hin'.
    { apply elem_of_kids_of_node. destruct (kids_of_node nodes h); [done|]. simpl in Hn. simplify_eq. by left. }
    destruct (IH (Some h) Hin') as (L & HL & Hc & Hsub & Hlast). exists ((h, p) :: L). split_and!.
    + rewrite fmap_cons. by rewrite HL.
    + done.
    + intros n [->|Hn']%elem_of_cons; [done|by apply Hsub].
    + destruct l; [done|]. done.
Qed.

Lemma elem_of_node_roots nodes h : h ∈ node_roots nodes ↔ (h, None) ∈ nodes.
Proof.
  unfold node_roots. rewrite list_elem_of_omap. split.
  - intros ([h' q] & Hin & Hb). case_bool_decide; simplify_eq. done.
  - intros Hin. exists (h, None). by rewrite bool_decide_true.
Qed.

Lemma node_roots_perm l nodes : l ≡ₚ nodes → node_roots l ≡ₚ node_roots nodes.
Proof. intros Hp. unfold node_roots. by rewrite Hp. Qed.

Lemma kids_perm_nodes l nodes p : l ≡ₚ nodes → kids_of_node l p ≡ₚ kids_of_node nodes p.
Proof. intros Hp. unfold kids_of_node. by rewrite Hp. Qed.

(** Only the first entry of a chain is a root. *)
Lemma chain_roots n l : chain_from None (n :: l) → node_roots (n :: l) = [n.1].
Proof.
  intros [Hn Hc]. destruct n as [h q]. simpl in *. subst q. unfold node_roots. simpl. f_equal.
  assert (∀ p, chain_from (Some p) l → node_roots l = []) as Hnil; [|by eapply Hnil].
  clear. induction l as [|[h q] l IH]; intros p Hc; [done|]. destruct Hc as [Hq Hc]. simpl in Hq. subst q.
  unfold node_roots in *. simpl. by eapply IH.
Qed.

(** What the flags before the walk say. *)
Definition unforked (nodes : list IncarnationNode) : Prop :=
  length (node_roots nodes) = 1%nat ∧ (∀ h p, (h, Some p) ∈ nodes → p ∈ nodes.*1) ∧
  ∀ p, (length (kids_of_node nodes p) ≤ 1)%nat.

Definition index_nodes (nodes : list IncarnationNode) : Children * bool :=
  foldl (child_step (list_to_set nodes.*1)) (∅, bool_decide (length (node_roots nodes) ≠ 1%nat)) nodes.
Definition index_bad (nodes : list IncarnationNode) : bool :=
  (index_nodes nodes).2 || existsb (fun row => bool_decide (length row.2 ≠ 1%nat)) (map_to_list (index_nodes nodes).1).

Lemma index_kids nodes p : default [] ((index_nodes nodes).1 !! p) = kids_of_node nodes p.
Proof. unfold index_nodes. rewrite (proj1 (foldl_child _ _ _ _)). by rewrite lookup_empty. Qed.

Lemma index_row nodes p l : (index_nodes nodes).1 !! p = Some l → l = kids_of_node nodes p ∧ l ≠ [].
Proof.
  intros Hl. split; [by rewrite <- index_kids, Hl|]. unfold index_nodes in Hl. eapply foldl_child_nonempty; [|exact Hl].
  intros p' l'. by rewrite lookup_empty.
Qed.

Lemma index_first nodes p : (index_nodes nodes).1 !! p ≫= hd_error = hd_error (kids_of_node nodes p).
Proof. rewrite <- index_kids. by destruct ((index_nodes nodes).1 !! p). Qed.

Lemma index_good nodes : index_bad nodes = false ↔ unforked nodes.
Proof.
  unfold index_bad, unforked. rewrite orb_false_iff.
  assert ((index_nodes nodes).2 = false ↔ length (node_roots nodes) = 1%nat ∧ ∀ h p, (h, Some p) ∈ nodes → p ∈ nodes.*1) as ->.
  { pose proof (proj2 (foldl_child (list_to_set nodes.*1) nodes ∅ (bool_decide (length (node_roots nodes) ≠ 1%nat)))) as Hc.
    fold (index_nodes nodes) in Hc. rewrite bool_decide_eq_true in Hc. rewrite <- not_true_iff_false, Hc. split.
    - intros Hn. split; [destruct (decide (length (node_roots nodes) = 1%nat)); tauto|]. intros h p Hin.
      destruct (decide (p ∈ nodes.*1)) as [|Hp]; [done|]. destruct Hn. right. exists h, p. by rewrite elem_of_list_to_set.
    - intros [Hl Hh] [?|(h & p & Hin & Hp)]; [done|]. apply Hp, elem_of_list_to_set. by eapply Hh. }
  assert (existsb (fun row : AccountEntryHash * list AccountEntryHash => bool_decide (length row.2 ≠ 1%nat)) (map_to_list (index_nodes nodes).1) = false ↔
          ∀ p, (length (kids_of_node nodes p) ≤ 1)%nat) as ->; [|tauto].
  rewrite <- not_true_iff_false, existsb_exists. split.
  - intros Hn p. destruct ((index_nodes nodes).1 !! p) as [l|] eqn:Hl.
    + destruct (index_row _ _ _ Hl) as [<- Hne]. destruct (decide (length l = 1%nat)) as [->|Hlen]; [done|].
      destruct Hn. exists (p, l). split; [by apply list_elem_of_In, elem_of_map_to_list|]. by apply bool_decide_eq_true.
    + rewrite <- index_kids, Hl. simpl. lia.
  - intros Hall ([p l] & Hin & Hb%bool_decide_eq_true). apply list_elem_of_In, elem_of_map_to_list in Hin.
    destruct (index_row _ _ _ Hin) as [-> Hne]. specialize (Hall p). simpl in Hb. destruct (kids_of_node nodes p); [done|]. simpl in *. lia.
Qed.

Lemma current_incarnation_eq nodes :
  current_incarnation nodes =
  ('(current, visited, contested) ← tip_loop (S (S (length nodes))) (index_nodes nodes).1 (length nodes)
                                     (hd_error (node_roots nodes)) 0 (index_bad nodes);
   Some (if contested || bool_decide (visited ≠ length nodes) then None else current)).
Proof.
  unfold current_incarnation, index_bad. fold (index_nodes nodes). by destruct (index_nodes nodes) as [K c].
Qed.

Lemma current_incarnation_total nodes : is_Some (current_incarnation nodes).
Proof.
  rewrite current_incarnation_eq. destruct (hd_error (node_roots nodes)) as [h|] eqn:Hh.
  - destruct (tip_loop_spec nodes (index_nodes nodes).1 (length nodes) (S (S (length nodes))) h 0 (index_bad nodes))
      as (cur & v & c & -> & _); [apply index_first|lia|lia|]. simpl. eauto.
  - simpl. eauto.
Qed.

(** A current reference comes from a chain that covers the entries. *)
Lemma current_incarnation_sound nodes h :
  NoDup nodes.*1 → current_incarnation nodes = Some (Some h) → ∃ l, linear_chain nodes l h.
Proof.
  intros Hnd. rewrite current_incarnation_eq. destruct (hd_error (node_roots nodes)) as [r|] eqn:Hr; [|simpl; by case_match].
  destruct (tip_loop_spec nodes (index_nodes nodes).1 (length nodes) (S (S (length nodes))) r 0 (index_bad nodes))
    as (cur & v & c & -> & Hspec); [apply index_first|lia|lia|]. simpl.
  destruct c; [done|]. simpl. case_bool_decide as Hv; [done|]. intros [= ->].
  destruct (Hspec eq_refl) as (_ & l & t & Hp & [= ->] & Hlen). simpl in Hlen.
  destruct (tip_path_chain nodes None r l t) as (L & HL & Hc & Hsub & Hlast); [|done|].
  { apply elem_of_node_roots. destruct (node_roots nodes); [done|]. simpl in Hr. simplify_eq. by left. }
  exists L. split_and!; [|done|by rewrite HL].
  apply submseteq_length_Permutation.
  - apply NoDup_submseteq; [by eapply chain_NoDup|done].
  - rewrite <- Hv, Hlen, <- HL, length_fmap. done.
Qed.

(** The walk along a chain ends at its tip. *)
Lemma tip_loop_chain nodes L done tip :
  NoDup nodes.*1 → nodes ≡ₚ done ++ L → chain_from None (done ++ L) → last L.*1 = Some tip → unforked nodes →
  ∀ fuel h q, hd_error L = Some (h, q) → (length L ≤ fuel)%nat →
  tip_loop fuel (index_nodes nodes).1 (length nodes) (Some h) (length done) false = Some (Some tip, length nodes, false).
Proof.
  intros Hnd Hperm Hc Hlast (_ & _ & Hkids). revert done Hperm Hc Hlast.
  induction L as [|[h1 q1] L IH]; intros don Hperm Hc Hlast fuel h q Hh Hf; [done|]. simpl in Hh. simplify_eq.
  destruct fuel as [|fuel]; [simpl in Hf; lia|]. cbn [tip_loop]. rewrite index_first.
  assert (length nodes = length don + S (length L))%nat as Hlen by (rewrite Hperm, length_app; done).
  destruct L as [|[h2 q2] L].
  - assert (kids_of_node nodes h = []) as ->; [|simpl in *; simplify_eq; by rewrite Hlen, Nat.add_1_r].
    destruct (kids_of_node nodes h) as [|k ks] eqn:Hk; [done|]. exfalso.
    assert ((k, Some h) ∈ nodes) as Hin by (apply elem_of_kids_of_node; rewrite Hk; by left).
    rewrite Hperm in Hin. apply list_elem_of_lookup in Hin as [i Hi].
    pose proof (chain_from_lookup _ _ _ _ Hc Hi) as Hp. destruct i as [|i]; [done|].
    destruct ((don ++ [(h, q)]) !! i) as [m|] eqn:Hm; [|done]. simpl in Hp. injection Hp as Hmh.
    assert ((don ++ [(h, q)]) !! length don = Some (h, q)) as Htip by (by apply list_lookup_middle).
    assert (m = (h, q)) as ->.
    { apply (NoDup_fmap_inj fst nodes); [done|rewrite Hperm; by eapply list_elem_of_lookup_2..|done]. }
    assert (NoDup (don ++ [(h, q)])) as Hnd2 by (eapply chain_NoDup; [exact Hnd|intros n; by rewrite Hperm|done]).
    pose proof (NoDup_lookup _ _ _ _ Hnd2 Hm Htip). apply lookup_lt_Some in Hi. rewrite length_app in Hi. simpl in Hi. lia.
  - assert (q2 = Some h) as ->.
    { assert ((don ++ (h, q) :: (h2, q2) :: L) !! S (length don) = Some (h2, q2)) as Hi.
      { rewrite lookup_app_r by lia. by replace (S (length don) - length don)%nat with 1%nat by lia. }
      pose proof (chain_from_lookup _ _ _ _ Hc Hi) as Hp. simpl in Hp. by rewrite list_lookup_middle in Hp. }
    assert (kids_of_node nodes h = [h2]) as ->.
    { assert (h2 ∈ kids_of_node nodes h) as Hin by (apply elem_of_kids_of_node; rewrite Hperm; set_solver).
      specialize (Hkids h). destruct (kids_of_node nodes h) as [|k [|k' ks]]; [by apply elem_of_nil in Hin| |simpl in *; lia].
      apply list_elem_of_singleton in Hin. by subst. }
    simpl. rewrite bool_decide_false by (rewrite Hlen; simpl; lia).
    specialize (IH (don ++ [(h, q)])). rewrite <- !app_assoc in IH. simpl in IH.
    rewrite length_app, Nat.add_1_r in IH. eapply IH; [done|done|done|done|simpl in *; lia].
Qed.

Lemma linear_chain_unforked nodes l tip : NoDup nodes.*1 → linear_chain nodes l tip → unforked nodes.
Proof.
  intros Hnd (Hperm & Hc & Hlast). assert (NoDup l) as Hndl by (eapply chain_NoDup; [exact Hnd|intros n; by rewrite Hperm|done]).
  split_and!.
  - rewrite <- (node_roots_perm l nodes Hperm). destruct l as [|n l]; [done|]. by rewrite chain_roots.
  - intros h p Hin. rewrite <- Hperm in Hin. rewrite <- Hperm. apply list_elem_of_lookup in Hin as [i Hi].
    pose proof (chain_from_lookup _ _ _ _ Hc Hi) as Hp. destruct i as [|i]; [done|].
    destruct (l !! i) as [m|] eqn:Hm; [|done]. simpl in Hp. injection Hp as ->. apply list_elem_of_fmap_2. by eapply list_elem_of_lookup_2.
  - intros p. rewrite <- (kids_perm_nodes l nodes p Hperm). unfold kids_of_node. rewrite length_fmap.
    destruct (filter _ l) as [|a [|b r]] eqn:Hf; [simpl; lia..|]. exfalso.
    assert (a ∈ l ∧ a.2 = Some p) as [Ha Hpa] by (assert (a ∈ a :: b :: r) as Hin by set_solver; rewrite <- Hf in Hin; apply list_elem_of_filter in Hin; tauto).
    assert (b ∈ l ∧ b.2 = Some p) as [Hb Hpb] by (assert (b ∈ a :: b :: r) as Hin by set_solver; rewrite <- Hf in Hin; apply list_elem_of_filter in Hin; tauto).
    apply list_elem_of_lookup in Ha as [i Hi], Hb as [j Hj].
    pose proof (chain_from_lookup _ _ _ _ Hc Hi) as Hqi. pose proof (chain_from_lookup _ _ _ _ Hc Hj) as Hqj.
    rewrite Hpa in Hqi. rewrite Hpb in Hqj. destruct i as [|i]; [done|]. destruct j as [|j]; [done|].
    destruct (l !! i) as [x|] eqn:Hx; [|done]. destruct (l !! j) as [y|] eqn:Hy; [|done]. simpl in *.
    assert (x = y) as -> by (eapply (NoDup_fmap_inj fst l); [by rewrite Hperm|by eapply list_elem_of_lookup_2..|congruence]).
    assert (i = j) as -> by (by eapply NoDup_lookup). assert (a = b) as -> by congruence.
    assert (NoDup (b :: b :: r)) as [Hni _]%NoDup_cons by (rewrite <- Hf; by apply NoDup_filter). set_solver.
Qed.

Lemma current_incarnation_complete nodes l tip :
  NoDup nodes.*1 → linear_chain nodes l tip → current_incarnation nodes = Some (Some tip).
Proof.
  intros Hnd Hl. pose proof (linear_chain_unforked _ _ _ Hnd Hl) as Hu. destruct Hl as (Hperm & Hc & Hlast).
  rewrite current_incarnation_eq, (proj2 (index_good nodes) Hu).
  destruct l as [|[h q] l]; [done|]. pose proof (node_roots_perm _ _ Hperm) as Hroots. rewrite chain_roots in Hroots by done.
  apply Permutation_singleton_l in Hroots. rewrite <- Hroots. simpl hd_error.
  change 0%nat with (length (@nil IncarnationNode)).
  rewrite (tip_loop_chain nodes ((h, q) :: l) [] tip) with (q := q); try done.
  - simpl. by rewrite bool_decide_false by tauto.
  - rewrite Hperm. simpl. lia.
Qed.

(** The projection names a current incarnation exactly when the accepted incarnation entries of the
    repository form one complete linear chain, and names its tip; any fork, second root or missing
    predecessor leaves it contested, and the walk always ends. *)
Theorem current_incarnation_exact (nodes : list IncarnationNode) :
  NoDup nodes.*1 →
  ∃ r, current_incarnation nodes = Some r ∧ ∀ tip, r = Some tip ↔ ∃ l, linear_chain nodes l tip.
Proof.
  intros Hnd. destruct (current_incarnation_total nodes) as [r Hr]. exists r. split; [done|]. intros tip. split.
  - intros ->. by apply current_incarnation_sound.
  - intros [l Hl]. apply (current_incarnation_complete _ _ _ Hnd) in Hl. congruence.
Qed.
