(* ===== verification/SecretsSafety.v ===== *)
(** * What the secrets refold decides

    The pass of [SecretsFold] returns on every store, and the entries it accepts are exactly the
    selected entries of the log whose citations the snapshot confirms and whose chain below them is
    accepted or passed over.  The incarnation of a repository is read back from what the pass leaves. *)

From S2P Require Import Prelude Cbor Minicbor Hash Op Device Entry Stream Branch Envelope Candidate Refold AccountOps FoldTypes Snapshot AuthStore Keywrap SecretsOps ContentEnvelope Acceptance Secrets SecretsFold Incarnation.

Local Open Scope Z_scope.
Local Open Scope run_scope.

(** ** Loading *)

Section Load.
Context `{MinicborLaws} `{Sha256}.

(** A loaded header is the decoding of the bytes stored under its hash. *)
Definition stored_as (row : bytes * bytes) (h : SecretsHeader) : Prop :=
  ∃ signed, decode_account_signed row.2 = Ok signed ∧ row.1 = sa_entry_hash signed ∧
    h = (sa_entry_hash signed, sa_header signed, sa_payload signed).

Lemma load_row_Some row h : load_row row = Ok (Some h) → stored_as row h.
Proof using Type.
  unfold load_row, id_fixed, stored_as. case_bool_decide; [|done]. simpl.
  destruct (decode_account_signed row.2) as [signed|e]; [|done]. case_bool_decide as Hne; [done|].
  intros [= <-]. exists signed. by rewrite Hne.
Qed.

Lemma elem_of_loaded rows headers h :
  load_secrets_headers rows = Ok headers → h ∈ headers → ∃ row, row ∈ rows ∧ stored_as row h.
Proof using Type.
  intros Hl Hh. destruct (elem_of_load_rows _ _ _ _ Hl Hh) as (row & ? & ?). exists row. split; [done|]. by apply load_row_Some.
Qed.

Lemma loaded_held rows headers h : load_secrets_headers rows = Ok headers → h ∈ headers → h.1.1 ∈ rows.*1 ∧ length h.1.1 = 32%nat.
Proof using Type.
  intros Hl Hh. destruct (elem_of_load_rows _ _ _ _ Hl Hh) as (row & Hrow & Hload).
  pose proof (load_row_Some _ _ Hload) as (s & _ & Heq & ->). simpl. rewrite <- Heq. split; [by apply list_elem_of_fmap_2|].
  unfold load_row, id_fixed in Hload. by case_bool_decide.
Qed.

Lemma loaded_NoDup rows headers :
  NoDup rows.*1 → load_secrets_headers rows = Ok headers → NoDup ((fun h : SecretsHeader => h.1.1) <$> headers).
Proof using Type. apply load_rows_NoDup. intros row h (s & _ & -> & ->)%load_row_Some. done. Qed.

Lemma stored_wf row h : stored_as row h → header_wf h.1.2.
Proof using Type*.
  intros (s & Hd & _ & ->). simpl. unfold decode_account_signed in Hd. case_bool_decide; [done|].
  destruct (decode_account_signed_cbor row.2) as [s'|e] eqn:Hc; simpl in Hd; [|done]. injection Hd as ->.
  by apply decode_account_cbor_sound in Hc as (? & _).
Qed.

Lemma loaded_wf rows headers h : load_secrets_headers rows = Ok headers → h ∈ headers → header_wf h.1.2.
Proof using Type*. intros Hl Hh. destruct (elem_of_loaded _ _ _ Hl Hh) as (row & _ & Hs). by eapply stored_wf. Qed.

Lemma lookup_secrets_view headers h hd :
  NoDup ((fun h : SecretsHeader => h.1.1) <$> headers) →
  secrets_view headers !! h = Some hd ↔ ∃ p, (h, hd, p) ∈ headers.
Proof using Type.
  unfold secrets_view. intros Hnd. rewrite lookup_collect_view by (by rewrite <- list_fmap_compose).
  rewrite list_elem_of_fmap. split.
  - intros ([[h' hd'] p] & [= -> ->] & Hin). by exists p.
  - intros [p Hin]. by exists (h, hd, p).
Qed.

Lemma secrets_view_ok rows headers :
  NoDup rows.*1 → load_secrets_headers rows = Ok headers → view_ok (secrets_view headers).
Proof using Type*.
  intros Hnd Hl h hd Hv. apply lookup_secrets_view in Hv as [p Hp]; [|by eapply loaded_NoDup].
  apply (loaded_wf _ _ _ Hl) in Hp as (_ & _ & _ & ? & _). done.
Qed.
End Load.

(** ** The two phases *)

(** An entry that may contest its slot. *)
Definition eligible_entry (view : HeaderView) (r : ResolvedSecretsEntry) : Prop :=
  is_prefix_transparent r = true ∨
  ∃ facts, rs_facts r = Some facts ∧ secrets_authority_verdict (secrets_input r facts view false) = Some (Ok None).

(** The finished verdict of an evaluable entry. *)
Definition finished (view : HeaderView) (selection : BranchSelection) (r : ResolvedSecretsEntry) (v : SecretsAcceptance) : Prop :=
  ∃ facts, rs_facts r = Some facts ∧
    evaluate_secrets_acceptance
      (secrets_input r facts view (bool_decide (rs_entry_hash r ∈ bs_accepted selection))) = Some (Ok v).

Lemma not_transparent_facts r : is_prefix_transparent r = false → is_Some (rs_facts r).
Proof.
  unfold is_prefix_transparent, is_evaluable. intros [_ Hn]%orb_false_iff. by apply negb_false_iff, bool_decide_eq_true in Hn.
Qed.

Lemma verdict_for_eligibility r facts view :
  rs_facts r = Some facts →
  ∃ v, verdict_for r view false PhaseEligibility = Some v ∧
    ∀ o, v = Ok o → secrets_authority_verdict (secrets_input r facts view false) = Some (Ok o).
Proof.
  intros Hf. unfold verdict_for. rewrite Hf. simpl.
  destruct (secrets_authority_total (secrets_input r facts view false)) as [[o|e] Hv]; rewrite Hv; simpl;
    eexists; (split; [done|]); [by intros ? [= <-]|done].
Qed.

Lemma verdict_for_finished r facts view selected :
  rs_facts r = Some facts →
  ∃ v, verdict_for r view selected PhaseFinished = Some v ∧
    ∀ o, v = Ok o → ∃ a, o = Some a ∧ evaluate_secrets_acceptance (secrets_input r facts view selected) = Some (Ok a).
Proof.
  intros Hf. unfold verdict_for. rewrite Hf. simpl. rewrite evaluate_secrets_eq.
  destruct (secrets_authority_total (secrets_input r facts view selected)) as [[[a|]|e] Hv]; rewrite Hv; simpl;
    eexists; (split; [done|]); [intros ? [= <-]; by eexists..|done].
Qed.

Lemma eligible_step_total view eligible r : is_Some (eligible_step view eligible r).
Proof.
  unfold eligible_step. destruct (is_prefix_transparent r) eqn:Ht; [by eexists|].
  destruct (not_transparent_facts r Ht) as [facts Hf]. destruct (verdict_for_eligibility r facts view Hf) as (v & -> & _).
  destruct v; by eexists.
Qed.

Lemma eligible_step_Ok view eligible r eligible' :
  eligible_step view eligible r = Some (Ok eligible') →
  ∀ h, h ∈ eligible' ↔ h ∈ eligible ∨ (rs_entry_hash r = h ∧ eligible_entry view r).
Proof.
  unfold eligible_step, eligible_entry. destruct (is_prefix_transparent r) eqn:Ht.
  { intros Hs. inv_run. set_solver. }
  destruct (not_transparent_facts r Ht) as [facts Hf]. destruct (verdict_for_eligibility r facts view Hf) as (v & -> & Hv).
  intros Hs. inv_run. match goal with H : Some v = Some (Ok ?o) |- _ => injection H as ->; specialize (Hv o eq_refl) end.
  intros h. rewrite Hf. case_match; subst.
  - split; [by left|]. intros [?|(_ & [?|(? & [= <-] & ?)])]; [done..|congruence].
  - rewrite elem_of_union, elem_of_singleton. split; [|naive_solver].
    intros [->|?]; [right; split; [done|]; right; by exists facts|by left].
Qed.

Lemma eligible_Ok view resolved eligible :
  run_foldl (eligible_step view) ∅ resolved = Some (Ok eligible) →
  ∀ h, h ∈ eligible ↔ ∃ r, r ∈ resolved ∧ rs_entry_hash r = h ∧ eligible_entry view r.
Proof.
  apply (run_foldl_inv _ (fun past (eligible : gset AccountEntryHash) =>
    ∀ h, h ∈ eligible ↔ ∃ r, r ∈ past ∧ rs_entry_hash r = h ∧ eligible_entry view r)).
  - intros h. split; [by intros ?%elem_of_empty|]. by intros (r & ?%elem_of_nil & _).
  - intros past e r e' He _ Hs h. rewrite (eligible_step_Ok _ _ _ _ Hs), He. setoid_rewrite elem_of_app.
    setoid_rewrite list_elem_of_singleton. naive_solver.
Qed.

Lemma raw_step_total view selection raw r : is_Some (raw_step view selection raw r).
Proof.
  unfold raw_step, is_evaluable. case_bool_decide as Hf; [|by eexists]. destruct Hf as [facts Hf].
  edestruct (verdict_for_finished r facts view) as (v & -> & Hv); [done|]. destruct v as [o|e]; [|by eexists].
  destruct (Hv o eq_refl) as (a & -> & _). by eexists.
Qed.

Lemma raw_Ok view selection resolved raw :
  NoDup (rs_entry_hash <$> resolved) → run_foldl (raw_step view selection) ∅ resolved = Some (Ok raw) →
  ∀ h v, raw !! h = Some v ↔ ∃ r, r ∈ resolved ∧ rs_entry_hash r = h ∧ finished view selection r v.
Proof.
  intros Hnd.
  assert (∀ r v v', finished view selection r v → finished view selection r v' → v = v') as Hdet.
  { intros r v v' (f & Hf & He) (f' & Hf' & He'). congruence. }
  intros Hrun. apply (run_foldl_inv _ (fun past (raw : RawVerdicts) => past ⊆ resolved ∧
    ∀ h v, raw !! h = Some v ↔ ∃ r, r ∈ past ∧ rs_entry_hash r = h ∧ finished view selection r v)) in Hrun.
  - apply Hrun.
  - split; [apply list_subseteq_nil|]. intros h v. rewrite lookup_empty. split; [done|]. by intros (r & ?%elem_of_nil & _).
  - intros past w r w' [Hsub Hw] Hr Hs. split; [set_solver|]. intros h v. unfold raw_step, is_evaluable in Hs.
    setoid_rewrite elem_of_app. setoid_rewrite list_elem_of_singleton. case_bool_decide as Hf.
    + destruct Hf as [facts Hf].
      destruct (verdict_for_finished r facts view (bool_decide (rs_entry_hash r ∈ bs_accepted selection)) Hf)
        as (o & Ho & Hfin). rewrite Ho in Hs. destruct o as [o|e]; [|done].
      destruct (Hfin o eq_refl) as (a & -> & Ha). cbn in Hs. injection Hs as <-.
      assert (finished view selection r a) as Hra by by exists facts.
      rewrite lookup_insert_Some. split.
      * intros [[<- <-]|[_ (r' & ? & ? & ?)%Hw]]; eauto.
      * intros (r' & Hin & <- & Hfr). destruct (decide (rs_entry_hash r = rs_entry_hash r')) as [Heq|Hne].
        { left. split; [done|]. assert (r = r') as <-; [|by eapply Hdet].
          destruct Hin as [Hin| ->]; [|done]. eapply NoDup_fmap_inj; [exact Hnd|done|by apply Hsub|done]. }
        right. split; [done|]. destruct Hin as [Hin| ->]; [|done]. apply Hw. eauto.
    + inv_run. rewrite Hw. split; [naive_solver|]. intros (r' & [?| ->] & <- & Hfr); [eauto|].
      destruct Hfr as (f & Hfr & _). destruct Hf. by exists f.
Qed.

(** ** The writes *)

Definition decided_as (accepted : gset AccountEntryHash) (selection : BranchSelection) (raw : RawVerdicts)
    (h : AccountEntryHash) : option SecretsAcceptance := final_verdict accepted selection h <$> raw !! h.

(** The rows after the write loop: an entry with a verdict has that verdict, no other row changes. *)
Lemma write_loop accepted selection raw resolved db :
  let db' := foldl (write_step accepted selection raw) db resolved in
  sd_incarnation_current db' = sd_incarnation_current db ∧
  (∀ h, h ∈ sd_accepted db' ↔ h ∈ sd_accepted db ∨
     (h ∈ rs_entry_hash <$> resolved ∧ decided_as accepted selection raw h = Some SAccepted)) ∧
  (∀ h, sd_status db' !! h =
     match decided_as accepted selection raw h with
     | Some v => if bool_decide (h ∈ rs_entry_hash <$> resolved) then Some (secrets_as_db_pair v) else sd_status db !! h
     | None => sd_status db !! h
     end).
Proof.
  induction resolved as [|r resolved IH] using rev_ind; simpl.
  { split_and!; [done| |]; intros h; [split; [by left|]; intros [?|[?%elem_of_nil _]]; done|].
    by destruct (decided_as _ _ _ _). }
  rewrite foldl_snoc. destruct IH as (Hi & Ha & Hst). set (db' := foldl _ db resolved) in *.
  unfold write_step. rewrite fmap_app. change (rs_entry_hash <$> [r]) with [rs_entry_hash r]. destruct (raw !! rs_entry_hash r) as [v|] eqn:Hr.
  - unfold write_secrets_verdict. simpl. split_and!; [done| |]; intros h.
    + assert (h = rs_entry_hash r → decided_as accepted selection raw h = Some (final_verdict accepted selection h v)) as Hd.
      { intros ->. unfold decided_as. by rewrite Hr. }
      rewrite elem_of_app, list_elem_of_singleton.
      case_bool_decide as Hv; [rewrite elem_of_union, elem_of_singleton|]; rewrite Ha.
      { assert (h = rs_entry_hash r → decided_as accepted selection raw h = Some SAccepted); [|tauto].
        intros ->. rewrite Hd by done. by rewrite Hv. }
      split; [tauto|]. intros [?|[[?| ->] Hdec]]; [tauto..|]. rewrite Hd in Hdec by done. congruence.
    + destruct (decide (h = rs_entry_hash r)) as [->|Hne].
      * rewrite lookup_insert_eq. unfold decided_as. rewrite Hr. simpl. by rewrite bool_decide_true by set_solver.
      * rewrite lookup_insert_ne, Hst by done. destruct (decided_as _ _ _ h); [|done].
        erewrite bool_decide_ext; [done|]. set_solver.
  - split_and!; [done| |]; intros h.
    + rewrite Ha, elem_of_app, list_elem_of_singleton.
      assert (decided_as accepted selection raw h = Some SAccepted → h ≠ rs_entry_hash r); [|tauto].
      intros Hd ->. unfold decided_as in Hd. by rewrite Hr in Hd.
    + rewrite Hst. destruct (decided_as _ _ _ h) eqn:Hd; [|done]. case_bool_decide as H1; case_bool_decide as H2; try done.
      * set_solver.
      * apply elem_of_app in H2 as [?| ->%list_elem_of_singleton]; [done|]. unfold decided_as in Hd. by rewrite Hr in Hd.
Qed.

(** ** The incarnation rows *)

Definition accepted_nodes (accepted : gset AccountEntryHash) (repo_id : bytes) (resolved : list ResolvedSecretsEntry)
    : list IncarnationNode :=
  omap (fun r => op ← rs_incarnation r;
                 if bool_decide (rs_entry_hash r ∈ accepted ∧ ri_repo_id op = repo_id)
                 then Some (rs_entry_hash r, ri_predecessor_ref op) else None) resolved.

Lemma collect_nodes accepted resolved repo_id :
  foldl (collect_node accepted) ∅ resolved !! repo_id =
  match accepted_nodes accepted repo_id resolved with [] => None | nodes => Some nodes end.
Proof.
  induction resolved as [|r resolved IH] using rev_ind; [done|]. rewrite foldl_snoc. unfold accepted_nodes in *.
  set (by_repo := foldl _ _ resolved) in *.   rewrite omap_app. simpl. unfold collect_node. destruct (rs_incarnation r) as [op|]; simpl.
  2: by rewrite app_nil_r.
  destruct (decide (rs_entry_hash r ∈ accepted)) as [Ha|Ha].
  2: by rewrite !bool_decide_false, app_nil_r by tauto.
  rewrite bool_decide_true by done. unfold push_node. rewrite lookup_insert. case_decide as Hr.
  - subst. rewrite IH, bool_decide_true by done. by destruct (omap _ resolved).
  - by rewrite bool_decide_false, app_nil_r by tauto.
Qed.

Lemma write_incarnations account_id (l : list (bytes * list IncarnationNode)) db :
  NoDup l.*1 →
  ∃ db', run_foldl (write_incarnation account_id) db l = Some (Ok db') ∧
    sd_status db' = sd_status db ∧ sd_accepted db' = sd_accepted db ∧
    ∀ a repo_id, sd_incarnation_current db' !! (a, repo_id) =
      match (list_to_map l : gmap bytes _) !! repo_id with
      | Some nodes => if bool_decide (a = account_id) then current_incarnation nodes
                      else sd_incarnation_current db !! (a, repo_id)
      | None => sd_incarnation_current db !! (a, repo_id)
      end.
Proof.
  revert db. induction l as [|[repo nodes] l IH]; intros db Hnd; cbn [run_foldl]; [by exists db|].
  rewrite fmap_cons in Hnd. apply NoDup_cons in Hnd as [Hni Hnd].
  unfold write_incarnation at 1. simpl. destruct (current_incarnation_total nodes) as [cur Hcur]. rewrite Hcur. simpl.
  edestruct IH as (db' & -> & Hs & Ha & Hc); [done|]. exists db'. simpl in *. split_and!; [done..|].
  intros a repo_id. rewrite Hc. destruct (decide (repo_id = repo)) as [->|Hne].
  - rewrite lookup_insert_eq, not_elem_of_list_to_map_1 by done. case_bool_decide as Hac.
    + subst. by rewrite lookup_insert_eq.
    + by rewrite lookup_insert_ne by congruence.
  - rewrite !lookup_insert_ne by congruence. done.
Qed.

(** The projection is rewritten: the repositories of the account are those with an accepted
    incarnation entry, and no other account's row changes. *)
Lemma projection_rewritten account_id resolved accepted db :
  ∃ db', rewrite_repo_incarnation_projection account_id resolved accepted db = Some (Ok db') ∧
    sd_status db' = sd_status db ∧ sd_accepted db' = sd_accepted db ∧
    (∀ a repo_id, a ≠ account_id → sd_incarnation_current db' !! (a, repo_id) = sd_incarnation_current db !! (a, repo_id)) ∧
    ∀ repo_id, sd_incarnation_current db' !! (account_id, repo_id) =
      match accepted_nodes accepted repo_id resolved with [] => None | nodes => current_incarnation nodes end.
Proof.
  unfold rewrite_repo_incarnation_projection.
  edestruct (write_incarnations account_id (map_to_list (foldl (collect_node accepted) ∅ resolved)))
    as (db' & -> & Hs & Ha & Hc); [apply NoDup_fst_map_to_list|].
  exists db'. simpl in *. split_and!; [done..| |].
  - intros a repo_id Hne. rewrite Hc, list_to_map_to_list, bool_decide_false by done.
    rewrite map_lookup_filter. destruct (sd_incarnation_current db !! (a, repo_id)); simpl; [|by case_match].
    rewrite option_guard_True by done. by case_match.
  - intros repo_id. rewrite Hc, list_to_map_to_list, bool_decide_true, collect_nodes by done.
    rewrite map_lookup_filter. destruct (accepted_nodes _ _ _); [|done].
    destruct (sd_incarnation_current db !! (account_id, repo_id)); simpl; [|done].
    by rewrite option_guard_False by (intros Hn; by apply Hn).
Qed.

(** ** The pass *)

Section Pass.
Context `{MinicborLaws} `{Sha256} `{AuthoritySnapshot}.

Abbreviation secrets_candidates := (candidates_of rs_entry_hash rs_header).

(** What a pass that writes has computed. *)
Record secrets_pass (account_id : AccountId) (headers : list SecretsHeader) (reachable eligible : gset AccountEntryHash)
    (contested : bool) (resolved : list ResolvedSecretsEntry) (selection : BranchSelection) (raw : RawVerdicts) : Prop := {
  sp_reach h : h ∈ reachable ↔ held_from_root same_secrets_chain (secrets_view headers) h;
  sp_hold : sn_account_is_contested account_id = Ok contested;
  sp_resolved : Forall2 (fun h r => direct_entry account_id contested reachable h = Ok r) headers resolved;
  sp_eligible h : h ∈ eligible ↔ ∃ r, r ∈ resolved ∧ rs_entry_hash r = h ∧ eligible_entry (secrets_view headers) r;
  sp_selection : secrets_select_accepted_branch (secrets_candidates resolved) eligible (branch_pins resolved)
                   (secrets_view headers) = Some selection;
  sp_raw h v : raw !! h = Some v ↔ ∃ r, r ∈ resolved ∧ rs_entry_hash r = h ∧ finished (secrets_view headers) selection r v;
}.

Lemma direct_entry_Ok account_id contested reachable h r :
  direct_entry account_id contested reachable h = Ok r →
  rs_entry_hash r = h.1.1 ∧ rs_header r = h.1.2 ∧
  rs_dense_predecessor_reachable r = bool_decide (h.1.1 ∈ reachable) ∧
  direct_facts account_id h.1.2 h.2 contested = Ok (rs_facts r, rs_incarnation r).
Proof using Type.
  destruct h as [[hash hd] p]. unfold direct_entry. intros Hd.
  destruct (direct_facts account_id hd p contested) as [[f i]|e] eqn:Hf; simpl in Hd; [|done]. injection Hd as <-. done.
Qed.

Lemma resolved_hashes account_id contested reachable headers resolved :
  Forall2 (fun h r => direct_entry account_id contested reachable h = Ok r) headers resolved →
  rs_entry_hash <$> resolved = (fun h : SecretsHeader => h.1.1) <$> headers.
Proof using Type.
  induction 1 as [|h r headers resolved Hd _ IH]; [done|]. rewrite !fmap_cons, IH.
  apply direct_entry_Ok in Hd as (-> & _). done.
Qed.

Lemma resolved_from account_id contested reachable headers resolved r :
  Forall2 (fun h r => direct_entry account_id contested reachable h = Ok r) headers resolved → r ∈ resolved →
  ∃ p, (rs_entry_hash r, rs_header r, p) ∈ headers ∧
    rs_dense_predecessor_reachable r = bool_decide (rs_entry_hash r ∈ reachable) ∧
    direct_facts account_id (rs_header r) p contested = Ok (rs_facts r, rs_incarnation r).
Proof using Type.
  intros Hf (i & Hi)%list_elem_of_lookup. destruct (Forall2_lookup_r _ _ _ _ _ Hf Hi) as ([[h hd] p] & Hh & Hd).
  apply direct_entry_Ok in Hd as (-> & -> & ? & ?). exists p. split; [by eapply list_elem_of_lookup_2|done].
Qed.

Section Log.
Context (account_id : AccountId) (rows : list (bytes * bytes)) (headers : list SecretsHeader).
Context (Hnd : NoDup rows.*1) (Hl : load_secrets_headers rows = Ok headers).

Lemma secrets_candidates_ok contested reachable resolved :
  Forall2 (fun h r => direct_entry account_id contested reachable h = Ok r) headers resolved →
  candidates_ok (secrets_candidates resolved).
Proof using All.
  intros Hf. split.
  - unfold candidates_of. rewrite <- list_fmap_compose. change (NoDup (rs_entry_hash <$> resolved)).
    rewrite (resolved_hashes _ _ _ _ _ Hf). by eapply loaded_NoDup.
  - apply Forall_forall. intros c (r & -> & Hr)%list_elem_of_fmap. simpl.
    destruct (resolved_from _ _ _ _ _ _ Hf Hr) as (p & Hp & _).
    apply (loaded_wf _ _ _ Hl) in Hp as (_ & _ & _ & ? & _). done.
Qed.

Lemma resolve_Ok reachable resolved :
  resolve_secrets_entries account_id headers reachable = Ok resolved ↔
  ∃ contested, sn_account_is_contested account_id = Ok contested ∧
    Forall2 (fun h r => direct_entry account_id contested reachable h = Ok r) headers resolved.
Proof using Type.
  unfold resolve_secrets_entries. destruct (sn_account_is_contested account_id) as [b|e]; simpl; [|naive_solver].
  rewrite resolve_loop_direct, direct_loop_Forall2 by apply no_caches_ok. naive_solver.
Qed.

(** A pass that returns rows has computed them as [secrets_pass] says. *)
Lemma refold_pass db db' :
  refold_secrets_log account_id rows db = Some (Ok db') →
  (headers = [] ∧ db' = db) ∨
  ∃ reachable eligible contested resolved selection raw,
    secrets_pass account_id headers reachable eligible contested resolved selection raw ∧
    let accepted := secrets_prefix_closed resolved selection raw in
    rewrite_repo_incarnation_projection account_id resolved accepted
      (foldl (write_step accepted selection raw) db resolved) = Some (Ok db').
Proof using All.
  unfold refold_secrets_log. rewrite Hl. simpl. destruct headers as [|hd0 headers'] eqn:Hh.
  { intros Hr. left. by inv_run. }
  rewrite <- Hh in *. clear hd0 headers' Hh. intros Hr. right.
  destruct (reachable_entries_spec same_secrets_chain (secrets_view headers)) as (reachable & Hreach & HR).
  rewrite Hreach in Hr. simpl in Hr. destruct (resolve_secrets_entries _ _ _) as [resolved|e] eqn:Hres; [|done].
  simpl in Hr. apply resolve_Ok in Hres as (contested & Hc & Hf). apply run_bind_Ok in Hr as (eligible & He & Hr).
  apply run_bind_Ok in Hr as (selection & Hs & Hr). apply (proj1 (of_option_Ok _ _)) in Hs. apply run_bind_Ok in Hr as (raw & Hraw & Hr).
  exists reachable, eligible, contested, resolved, selection, raw. split; [|done]. split; try done.
  - by apply eligible_Ok.
  - apply raw_Ok; [|done]. rewrite (resolved_hashes _ _ _ _ _ Hf). by eapply loaded_NoDup.
Qed.

End Log.

Lemma refold_returns account_id rows headers db :
  NoDup rows.*1 → load_secrets_headers rows = Ok headers → is_Some (refold_secrets_log account_id rows db).
Proof using Type*.
  intros Hnd Hl. unfold refold_secrets_log. rewrite Hl. simpl. destruct headers as [|hd0 headers'] eqn:Hh; [by eexists|].
  rewrite <- Hh in *. clear hd0 headers' Hh.
  destruct (reachable_entries_spec same_secrets_chain (secrets_view headers)) as (reachable & -> & _). simpl.
  destruct (resolve_secrets_entries _ _ _) as [resolved|e] eqn:Hres; [|by eexists]. simpl.
  apply resolve_Ok in Hres as (contested & _ & Hf).
  destruct (run_foldl_total (eligible_step (secrets_view headers)) (fun _ => True) resolved ∅) as ([eligible|e] & -> & _); [done| | |by eexists].
  { intros b a _ _. destruct (eligible_step_total (secrets_view headers) b a) as [r ->]. by exists r. }
  simpl. unfold secrets_select_accepted_branch.
  destruct (select_spec (secrets_candidates resolved) eligible
    (fun chain => default ∅ (secrets_pins (branch_pins resolved) (secrets_view headers) chain))) as (selection & Hsel & _).
  { by eapply secrets_candidates_ok. }
  rewrite Hsel. simpl.
  destruct (run_foldl_total (raw_step (secrets_view headers) selection) (fun _ => True) resolved ∅) as ([raw|e] & -> & _); [done| | |by eexists].
  { intros b a _ _. destruct (raw_step_total (secrets_view headers) selection b a) as [r ->]. by exists r. }
  simpl. edestruct projection_rewritten as (db' & -> & _). by eexists.
Qed.

(** ** Who is accepted *)

Section Accepted.
Context (account_id : AccountId) (headers : list SecretsHeader) (reachable eligible : gset AccountEntryHash)
  (contested : bool) (resolved : list ResolvedSecretsEntry) (selection : BranchSelection) (raw : RawVerdicts).
Context (Hpass : secrets_pass account_id headers reachable eligible contested resolved selection raw)
  (Hok : candidates_ok (secrets_candidates resolved)).

Abbreviation view := (secrets_view headers).
Abbreviation accepted := (secrets_prefix_closed resolved selection raw).

Lemma finished_accepted_selected r : r ∈ resolved → finished view selection r SAccepted → selected rs_entry_hash resolved selection r.
Proof using Type.
  intros Hr (facts & _ & Ha). apply secrets_accepted_iff in Ha as (_ & _ & _ & _ & Hb & _).
  split; [done|]. by apply bool_decide_eq_true in Hb.
Qed.

Lemma raw_accepted_iff r : r ∈ resolved → raw_accepted raw (rs_entry_hash r) = true ↔ finished view selection r SAccepted.
Proof using All.
  intros Hr. unfold raw_accepted. rewrite bool_decide_eq_true, (sp_raw _ _ _ _ _ _ _ _ Hpass). split; [|eauto].
  intros (r' & Hr' & Heq & Hf). by rewrite <- (by_hash _ _ _ Hok r' r).
Qed.

Abbreviation passes_below :=
  (below_passes rs_entry_hash rs_header is_prefix_transparent resolved selection (fun r => finished view selection r SAccepted)).

Lemma elem_of_secrets_accepted h :
  h ∈ accepted ↔ ∃ r, r ∈ resolved ∧ rs_entry_hash r = h ∧ finished view selection r SAccepted ∧ passes_below r.
Proof using All.
  eapply elem_of_accepted; [exact Hok|apply Hpass|exact raw_accepted_iff|exact finished_accepted_selected].
Qed.

Lemma decided_accepted h : decided_as accepted selection raw h = Some SAccepted ↔ h ∈ accepted.
Proof using All.
  unfold decided_as, final_verdict. split.
  - destruct (raw !! h) as [v|]; simpl; [|done]. case_bool_decide; [done|]. case_bool_decide; [done|]. by destruct v.
  - intros Ha. assert (raw !! h = Some SAccepted) as ->.
    { apply elem_of_secrets_accepted in Ha as (r & Hr & <- & Hf & _). apply (sp_raw _ _ _ _ _ _ _ _ Hpass). eauto. }
    simpl. by rewrite bool_decide_true.
Qed.

Lemma accepted_resolved h : h ∈ accepted → h ∈ rs_entry_hash <$> resolved.
Proof using All. intros (r & Hr & <- & _)%elem_of_secrets_accepted. by apply list_elem_of_fmap_2. Qed.
End Accepted.

(** ** Properties *)

(** What a pass leaves in the rows. *)
Lemma refold_rows account_id rows headers db db' :
  NoDup rows.*1 → load_secrets_headers rows = Ok headers → refold_secrets_log account_id rows db = Some (Ok db') →
  (headers = [] ∧ db' = db) ∨
  ∃ reachable eligible contested resolved selection raw,
    secrets_pass account_id headers reachable eligible contested resolved selection raw ∧
    candidates_ok (secrets_candidates resolved) ∧
    (∀ h, h ∈ sd_accepted db' ↔ h ∈ sd_accepted db ∨ h ∈ secrets_prefix_closed resolved selection raw) ∧
    (∀ h, sd_status db' !! h =
       match decided_as (secrets_prefix_closed resolved selection raw) selection raw h with
       | Some v => Some (secrets_as_db_pair v)
       | None => sd_status db !! h
       end) ∧
    ∀ repo_id, sd_incarnation_current db' !! (account_id, repo_id) =
      match accepted_nodes (secrets_prefix_closed resolved selection raw) repo_id resolved with
      | [] => None
      | nodes => current_incarnation nodes
      end.
Proof using Type*.
  intros Hnd Hl Hr. destruct (refold_pass _ _ _ Hnd Hl _ _ Hr) as [?|(R & E & b & resolved & sel & raw & Hp & Hw)]; [by left|].
  right. exists R, E, b, resolved, sel, raw. split; [done|].
  assert (candidates_ok (secrets_candidates resolved)) as Hok by (eapply secrets_candidates_ok; [done..|apply Hp]).
  split; [done|]. simpl in Hw. set (accepted := secrets_prefix_closed resolved sel raw) in *.
  destruct (projection_rewritten account_id resolved accepted (foldl (write_step accepted sel raw) db resolved))
    as (db2 & Hw' & Hst & Ha & _ & Hinc). assert (db2 = db') as -> by congruence.
  destruct (write_loop accepted sel raw resolved db) as (_ & Ha' & Hst').
  split_and!; [| |exact Hinc].
  - intros h. rewrite Ha, Ha'. unfold accepted. rewrite (decided_accepted _ _ _ _ _ _ _ _ Hp Hok). split; [tauto|].
    intros [?|Hh]; [by left|right]. split; [|done]. by eapply accepted_resolved.
  - intros h. rewrite Hst, Hst'. destruct (decided_as _ _ _ h) eqn:Hd; [|done]. rewrite bool_decide_true; [done|].
    unfold decided_as in Hd. destruct (raw !! h) as [v|] eqn:Hraw; [|done].
    apply (sp_raw _ _ _ _ _ _ _ _ Hp) in Hraw as (r & Hin & <- & _). by apply list_elem_of_fmap_2.
Qed.

(** What the log and the snapshot say of an accepted entry. *)
Record entry_authorized (account_id : AccountId) (headers : list SecretsHeader) (h : AccountEntryHash)
    (header : AccountEntryHeader) (payload : bytes) : Prop := {
  ea_held : (h, header, payload) ∈ headers;
  ea_chain : held_from_root same_secrets_chain (secrets_view headers) h;
  ea_contested : sn_account_is_contested account_id = Ok false;
  ea_fresh : ∃ held, sn_held_control_log_len account_id = Ok held ∧ ah_auth_len header ≤ held;
  ea_owner : ∃ owner_id owner, ah_authority_ref header = Some owner_id ∧
    sn_owner_secrets_authority account_id owner_id (ah_device_fingerprint header) = Ok (Effective owner) ∧
    Forall (boundary_admits (ah_seq header) h (ancestry_relation (secrets_view headers))) (owner_boundaries owner);
  ea_subject : ∃ stream_id incarnation, evaluable_subject header payload = Some (stream_id, incarnation) ∧
    ∀ s, stream_id = Some s → ∃ reference, sn_stream_owner_effective account_id s = Ok (Effective reference);
}.

Lemma finished_authorized account_id headers reachable eligible contested resolved selection raw r :
  secrets_pass account_id headers reachable eligible contested resolved selection raw →
  r ∈ resolved → finished (secrets_view headers) selection r SAccepted →
  ∃ payload, entry_authorized account_id headers (rs_entry_hash r) (rs_header r) payload.
Proof using Type.
  intros Hp Hr (facts & Hf & Ha). destruct (resolved_from _ _ _ _ _ _ (sp_resolved _ _ _ _ _ _ _ _ Hp) Hr) as (p & Hin & Hd & Hdf).
  apply secrets_accepted_iff in Ha as (_ & Hc & (owner & (Href & How & Hst) & Hadm) & Hreach & _ & Hfresh).
  exists p. simpl in *. unfold direct_facts in Hdf. destruct (evaluable_subject (rs_header r) p) as [[s i]|] eqn:He; [|congruence].
  rewrite Hf in Hdf. inv_ok. simpl in *.
  destruct (ah_authority_ref (rs_header r)) as [oid|] eqn:Hoid; [|by destruct Href].
  split.
  - done.
  - rewrite Hd in Hreach. apply bool_decide_eq_true in Hreach. by apply (sp_reach _ _ _ _ _ _ _ _ Hp).
  - by rewrite (sp_hold _ _ _ _ _ _ _ _ Hp), Hc.
  - eexists. split; [done|]. by apply freshness_current.
  - eexists _, owner. split; [done|]. split; [congruence|exact Hadm].
  - eexists _, _. split; [done|]. intros s' ->. destruct (sn_stream_owner_effective account_id s') as [q|e]; simpl in *; [|done].
    inv_ok. destruct (Hst q eq_refl) as [own ->]. by exists own.
Qed.

(** The accepted incarnation entries of a repository, read off the log. *)
Definition incarnation_entries (accepted : gset AccountEntryHash) (repo_id : bytes) (headers : list SecretsHeader)
    : list IncarnationNode :=
  omap (fun '(h, header, payload) =>
          '(_, incarnation) ← evaluable_subject header payload; op ← incarnation;
          if bool_decide (h ∈ accepted ∧ ri_repo_id op = repo_id) then Some (h, ri_predecessor_ref op) else None) headers.

Lemma direct_facts_incarnation account_id header payload contested facts incarnation :
  direct_facts account_id header payload contested = Ok (facts, incarnation) →
  incarnation = (evaluable_subject header payload ≫= snd) ∧ (facts = None ↔ evaluable_subject header payload = None).
Proof using Type.
  unfold direct_facts. destruct (evaluable_subject header payload) as [[s i]|]; [|by intros [= <- <-]].
  intros Hd. inv_ok. simplify_eq. done.
Qed.

Lemma accepted_nodes_read account_id contested reachable accepted repo_id headers resolved :
  Forall2 (fun h r => direct_entry account_id contested reachable h = Ok r) headers resolved →
  accepted_nodes accepted repo_id resolved = incarnation_entries accepted repo_id headers.
Proof using Type.
  intros Hf. unfold accepted_nodes, incarnation_entries. apply omap_Forall2, Forall2_flip. eapply Forall2_impl; [exact Hf|].
  intros [[h hd] p] r Hd. simpl. apply direct_entry_Ok in Hd as (-> & _ & _ & [-> _]%direct_facts_incarnation).
  simpl. by destruct (evaluable_subject hd p) as [[s i]|].
Qed.

Lemma incarnation_entries_NoDup accepted repo_id headers :
  NoDup ((fun h : SecretsHeader => h.1.1) <$> headers) → NoDup (incarnation_entries accepted repo_id headers).*1.
Proof using Type.
  apply NoDup_omap_key. intros [[h hd] p] n Hn. apply bind_Some in Hn as ([s i] & _ & (op & _ & Hn)%bind_Some).
  case_bool_decide; by simplify_eq.
Qed.

(** The secrets refold returns on every store: whatever rows are held and whatever the snapshot answers, the
    pass ends with the rewritten rows or an error of the snapshot, without a panic. *)
Theorem secrets_refold_total (account_id : AccountId) rows db :
  NoDup rows.*1 → ∃ r, refold_secrets_log account_id rows db = Some r.
Proof using Type*.
  intros Hnd. destruct (load_secrets_headers rows) as [headers|e] eqn:Hl.
  - by eapply refold_returns.
  - exists (Err e). unfold refold_secrets_log. by rewrite Hl.
Qed.

Lemma newly_accepted_authorized (account_id : AccountId) rows db db' h :
  NoDup rows.*1 → refold_secrets_log account_id rows db = Some (Ok db') →
  h ∈ sd_accepted db' → h ∉ sd_accepted db →
  ∃ headers header payload, load_secrets_headers rows = Ok headers ∧ entry_authorized account_id headers h header payload.
Proof using Type*.
  intros Hnd Hr Ha Hna. destruct (load_secrets_headers rows) as [headers|e] eqn:Hl.
  2: { unfold refold_secrets_log in Hr. by rewrite Hl in Hr. }
  destruct (refold_rows _ _ _ _ _ Hnd Hl Hr) as [[_ ->]|(R & E & b & resolved & sel & raw & Hp & Hok & Hacc & _)]; [done|].
  apply Hacc in Ha as [?|Ha]; [done|]. apply (elem_of_secrets_accepted _ _ _ _ _ _ _ _ Hp Hok) in Ha as (r & Hin & <- & Hf & _).
  destruct (finished_authorized _ _ _ _ _ _ _ _ _ Hp Hin Hf) as [payload Hauth]. eauto.
Qed.

(** C24.  No acceptance without authority: an entry the pass accepts is held with its whole chain back to
    slot 0, cites an owner incarnation that the snapshot confirms for its own device, is on the live
    side of both registers of that owner, wraps a key only for a stream the account owns, asserts no
    control log longer than the held one, and the account is not contested. *)
Theorem secrets_accept_sound (account_id : AccountId) rows db db' h :
  NoDup rows.*1 → refold_secrets_log account_id rows db = Some (Ok db') →
  h ∈ sd_accepted db' → h ∉ sd_accepted db →
  ∃ headers header payload, load_secrets_headers rows = Ok headers ∧ entry_authorized account_id headers h header payload.
Proof using Type*.
  apply newly_accepted_authorized.
Qed.

(** The log is read by hash: the header and the payload of an entry are determined. *)
Lemma loaded_unique rows headers h header payload header' payload' :
  NoDup rows.*1 → load_secrets_headers rows = Ok headers → (h, header, payload) ∈ headers → (h, header', payload') ∈ headers →
  header = header' ∧ payload = payload'.
Proof using Type.
  intros Hnd Hl Hh Hh'. assert ((h, header, payload) = (h, header', payload')) as [= -> ->]; [|done].
  eapply (NoDup_fmap_inj (fun h : SecretsHeader => h.1.1)); [by eapply loaded_NoDup|done..].
Qed.

Lemma evaluable_incarnation header payload stream_id op :
  evaluable_subject header payload = Some (stream_id, Some op) → stream_id = None.
Proof using Type. unfold evaluable_subject. case_match; [done|]. repeat case_match; naive_solver. Qed.

Lemma transparent_kind account_id contested reachable headers resolved r :
  Forall2 (fun h r => direct_entry account_id contested reachable h = Ok r) headers resolved → r ∈ resolved →
  is_prefix_transparent r = true →
  ∃ p, (rs_entry_hash r, rs_header r, p) ∈ headers ∧
    (evaluable_subject (rs_header r) p = None ∨ ∃ op, evaluable_subject (rs_header r) p = Some (None, Some op)).
Proof using Type.
  intros Hf Hr Ht. destruct (resolved_from _ _ _ _ _ _ Hf Hr) as (p & Hin & _ & [Hi Hn]%direct_facts_incarnation).
  exists p. split; [done|]. unfold is_prefix_transparent, is_evaluable in Ht. apply orb_true_iff in Ht as [[op Hop]%bool_decide_eq_true|Hne].
  - right. rewrite Hop in Hi. destruct (evaluable_subject (rs_header r) p) as [[s i]|] eqn:He; simpl in Hi; [|done]. subst i.
    exists op. by rewrite (evaluable_incarnation _ _ _ _ He).
  - left. apply Hn. apply negb_true_iff, bool_decide_eq_false in Hne. by apply eq_None_not_Some.
Qed.

(** C26.  One accepted history per secrets chain: two accepted entries of one device never share a slot, and below
    an accepted entry every slot of its chain is held by an entry that is itself accepted, an
    incarnation announcement, or an operation this build does not evaluate. *)
Theorem secrets_accept_dense (account_id : AccountId) rows db db' headers h header payload :
  NoDup rows.*1 → (∀ h, h ∈ rows.*1 → h ∉ sd_accepted db) → refold_secrets_log account_id rows db = Some (Ok db') →
  load_secrets_headers rows = Ok headers → (h, header, payload) ∈ headers → h ∈ sd_accepted db' →
  (∀ h' header' payload', (h', header', payload') ∈ headers → h' ∈ sd_accepted db' →
     secrets_coordinate_of header' = secrets_coordinate_of header → ah_seq header' = ah_seq header → h' = h) ∧
  ∀ s, 0 ≤ s < ah_seq header → ∃ h' header' payload', (h', header', payload') ∈ headers ∧
    secrets_coordinate_of header' = secrets_coordinate_of header ∧ ah_seq header' = s ∧
    (h' ∈ sd_accepted db' ∨ evaluable_subject header' payload' = None ∨
     ∃ op, evaluable_subject header' payload' = Some (None, Some op)).
Proof using Type*.
  intros Hnd Hclear Hr Hl Hh Ha.
  destruct (refold_rows _ _ _ _ _ Hnd Hl Hr) as [[-> _]|(R & E & b & resolved & sel & raw & Hp & Hok & Hacc & _)];
    [by apply elem_of_nil in Hh|].
  assert (∀ h header payload, (h, header, payload) ∈ headers → h ∈ sd_accepted db' →
    ∃ r, selected rs_entry_hash resolved sel r ∧ rs_entry_hash r = h ∧ rs_header r = header ∧
      below_passes rs_entry_hash rs_header is_prefix_transparent resolved sel
        (fun r => finished (secrets_view headers) sel r SAccepted) r) as Hof.
  { intros h0 hd0 p0 Hin Ha0. apply Hacc in Ha0 as [Ha0|Ha0]; [by destruct (Hclear _ (proj1 (loaded_held _ _ _ Hl Hin)))|].
    apply (elem_of_secrets_accepted _ _ _ _ _ _ _ _ Hp Hok) in Ha0 as (r & Hr0 & <- & Hf & Hb). exists r.
    destruct (resolved_from _ _ _ _ _ _ (sp_resolved _ _ _ _ _ _ _ _ Hp) Hr0) as (p & Hin' & _).
    destruct (loaded_unique _ _ _ _ _ _ _ Hnd Hl Hin Hin') as [-> _].
    split; [by eapply finished_accepted_selected|done]. }
  destruct (Hof _ _ _ Hh Ha) as (r & Hsr & <- & <- & Hb). split.
  - intros h' hd' p' Hh' Ha' Hc Hs. destruct (Hof _ _ _ Hh' Ha') as (r' & Hsr' & <- & <- & _).
    by rewrite (selected_unique _ _ _ _ _ _ Hok (sp_selection _ _ _ _ _ _ _ _ Hp) r' r).
  - intros s Hs. destruct (selected_under _ _ _ _ _ _ Hok (sp_selection _ _ _ _ _ _ _ _ Hp) r s Hsr Hs) as (r' & Hsr' & Hco & Hseq).
    pose proof (proj1 Hsr') as Hr'.
    destruct (accepted_downward _ _ _ _ _ _ _ Hok (sp_selection _ _ _ _ _ _ _ _ Hp) _ _
      (raw_accepted_iff _ _ _ _ _ _ _ _ Hp Hok) (finished_accepted_selected _ _ _) r r' Hb) as [Ht|Hacc']; [done|done|simpl in *; lia|..].
    + destruct (transparent_kind _ _ _ _ _ _ (sp_resolved _ _ _ _ _ _ _ _ Hp) Hr' Ht) as (p & Hin & Hk).
      exists (rs_entry_hash r'), (rs_header r'), p. split_and!; try done. by right.
    + destruct (resolved_from _ _ _ _ _ _ (sp_resolved _ _ _ _ _ _ _ _ Hp) Hr') as (p & Hin & _).
      exists (rs_entry_hash r'), (rs_header r'), p. split_and!; try done. left. apply Hacc. by right.
Qed.

(** The announcements of the log among the accepted entries: those the pass accepted. *)
Lemma incarnation_entries_ext accepted accepted' repo_id headers :
  (∀ h, h ∈ headers → h.1.1 ∈ accepted ↔ h.1.1 ∈ accepted') →
  incarnation_entries accepted repo_id headers = incarnation_entries accepted' repo_id headers.
Proof using Type.
  intros Hiff. unfold incarnation_entries. induction headers as [|[[h hd] p] headers IH]; [done|].
  cbn [omap list_omap]. rewrite IH by (intros; apply Hiff; by right).
  pose proof (Hiff (h, hd, p)) as Hh. simpl in Hh. specialize (Hh ltac:(by left)).
  destruct (evaluable_subject hd p) as [[s [op|]]|]; simpl; [|done..].
  by rewrite (bool_decide_ext (h ∈ accepted ∧ ri_repo_id op = repo_id) (h ∈ accepted' ∧ ri_repo_id op = repo_id)) by (by rewrite Hh).
Qed.

Lemma incarnation_entries_held accepted repo_id headers n :
  n ∈ incarnation_entries accepted repo_id headers → ∃ header payload, (n.1, header, payload) ∈ headers.
Proof using Type.
  unfold incarnation_entries. intros ([[h hd] p] & Hin & Hn)%list_elem_of_omap. exists hd, p.
  apply bind_Some in Hn as ([s i] & _ & (op & _ & Hn)%bind_Some). case_bool_decide; by simplify_eq.
Qed.

Lemma linear_tip_in nodes l tip : linear_chain nodes l tip → ∃ n, n ∈ nodes ∧ n.1 = tip.
Proof using Type.
  intros (Hperm & _ & Hlast%last_Some_elem_of). apply list_elem_of_fmap in Hlast as (n & -> & Hn).
  exists n. by rewrite <- Hperm.
Qed.

(** What the pass leaves for the repository. *)
Lemma incarnation_row account_id rows db db' headers repo_id :
  NoDup rows.*1 → (∀ h, h ∈ rows.*1 → h ∉ sd_accepted db) → refold_secrets_log account_id rows db = Some (Ok db') →
  load_secrets_headers rows = Ok headers → headers ≠ [] →
  let nodes := incarnation_entries (sd_accepted db') repo_id headers in
  ∃ row, sd_incarnation_current db' !! (account_id, repo_id) = row ∧
  match row with
  | None => nodes = []
  | Some None => nodes ≠ [] ∧ ∀ l tip, ¬ linear_chain nodes l tip
  | Some (Some tip) => hash_ok tip ∧ ∃ l, linear_chain nodes l tip
  end.
Proof using Type*.
  intros Hnd Hclear Hr Hl Hne nodes.
  destruct (refold_rows _ _ _ _ _ Hnd Hl Hr) as [[-> _]|(R & E & b & resolved & sel & raw & Hp & Hok & Hacc & _ & Hinc)]; [done|].
  specialize (Hinc repo_id). rewrite (accepted_nodes_read _ _ _ _ _ _ _ (sp_resolved _ _ _ _ _ _ _ _ Hp)) in Hinc.
  rewrite (incarnation_entries_ext _ (sd_accepted db')) in Hinc; fold nodes in Hinc.
  2: { intros h Hh. pose proof (Hclear _ (proj1 (loaded_held _ _ _ Hl Hh))). rewrite Hacc. tauto. }
  assert (NoDup nodes.*1) as Hndn by (by eapply incarnation_entries_NoDup, loaded_NoDup).
  eexists. split; [exact Hinc|]. destruct nodes as [|n nodes'] eqn:Hn; [done|]. rewrite <- Hn in *.
  destruct (current_incarnation_total nodes) as [[tip|] Hcur]; rewrite Hcur.
  - destruct (current_incarnation_sound _ _ Hndn Hcur) as [l Hc]. split; [|by exists l].
    destruct (linear_tip_in _ _ _ Hc) as (m & (hd & p & Hin)%incarnation_entries_held & <-). by eapply (loaded_held _ _ _ Hl Hin).
  - split; [by rewrite Hn|]. intros l tip Hc%(current_incarnation_complete _ _ _ Hndn). by simplify_eq.
Qed.

(** C29.  The current incarnation of a repository, end to end: after a pass over a log that is not empty, the
    read of a repository fails exactly when the pins of the account refuse the read; otherwise it
    answers [tip] exactly when the accepted incarnation announcements of the repository form one
    complete chain, each naming its predecessor, that ends in [tip], nothing exactly when there is no
    accepted announcement, and contested in every other case: a fork, a second root, a gap. *)
Theorem repo_incarnation_exact (account_db : AccountDb) (account_id : AccountId) rows db db' headers repo_id :
  NoDup rows.*1 → (∀ h, h ∈ rows.*1 → h ∉ sd_accepted db) → refold_secrets_log account_id rows db = Some (Ok db') →
  load_secrets_headers rows = Ok headers → headers ≠ [] →
  let nodes := incarnation_entries (sd_accepted db') repo_id headers in
  let read := repo_incarnation_state account_db db' account_id repo_id in
  match require_supported_account_control account_db account_id with
  | Err e => read = Err e
  | Ok _ =>
      (read = Ok IncarnationAbsent ↔ nodes = []) ∧
      (∀ tip, read = Ok (IncarnationCurrent tip) ↔ ∃ l, linear_chain nodes l tip) ∧
      (read = Ok IncarnationContested ↔ nodes ≠ [] ∧ ∀ l tip, ¬ linear_chain nodes l tip)
  end.
Proof using Type*.
  intros Hnd Hclear Hr Hl Hne nodes read.
  destruct (incarnation_row _ _ _ _ _ repo_id Hnd Hclear Hr Hl Hne) as (row & Hlookup & Hrow). fold nodes in Hrow.
  assert (NoDup nodes.*1) as Hndn by (by eapply incarnation_entries_NoDup, loaded_NoDup).
  subst read. unfold repo_incarnation_state. destruct (require_supported_account_control account_db account_id); [|done]. simpl.
  rewrite Hlookup. destruct row as [[tip|]|].
  - destruct Hrow as [H32 [l Hc]]. unfold id_fixed. rewrite bool_decide_true by done. simpl. split_and!; [split; [done|]|intros tip'; split|split; [done|]].
    + intros Hn0. destruct (linear_tip_in _ _ _ Hc) as (n & Hn & _). rewrite Hn0 in Hn. by apply elem_of_nil in Hn.
    + intros [= <-]. by exists l.
    + intros [l' Hc']. apply (current_incarnation_complete _ _ _ Hndn) in Hc, Hc'. by simplify_eq.
    + intros [_ Hno]. by destruct (Hno _ _ Hc).
  - destruct Hrow as [Hn0 Hno]. split_and!; [done|intros tip; split; [done|]|done]. intros [l Hc]. by destruct (Hno _ _ Hc).
  - split_and!; [done|intros tip; split; [done|]|split; [done|by intros []]].
    intros [l Hc]. destruct (linear_tip_in _ _ _ Hc) as (n & Hn & _). rewrite Hrow in Hn. by apply elem_of_nil in Hn.
Qed.
End Pass.

(** ** Witnesses

    A log with two announcements of one repository, the second naming the first. *)

(** The last bytes of an announcement are the hash it names, so the digest of the log counts lengths. *)
#[local] Program Instance wit_sha256 : Sha256 := {| sha256 b := z2b (len b) :: take 31 (sha256 b) |}.
Next Obligation. intros b. cbn [length]. by rewrite length_take, (sha256_length b). Qed.

#[local] Instance wit_snapshot : AuthoritySnapshot := {|
  sn_owner_secrets_authority _ _ device := Ok (Effective (mkOwnerChainAuthority (mkOwnerAuthority device) BoundaryOpen BoundaryOpen));
  sn_stream_owner_effective _ _ := Ok UnknownQuery;
  sn_roster_content_authority _ _ _ _ := Ok UnknownQuery;
  sn_grant_effective_for_device _ _ _ _ _ := Ok UnknownQuery;
  sn_stream_owner_account _ := Ok None;
  sn_account_is_contested _ := Ok false;
  sn_held_control_log_len _ := Ok 1;
  sn_account_is_pinned _ := Ok false;
|}.

Definition wit_account : AccountId := replicate 32 x11.
Definition wit_repo : bytes := lit "repo".

Definition wit_announcement (seq : Z) (prev : option AccountEntryHash) : SignedAccountEntry :=
  let header := mkAccountEntryHeader wit_account 1 (replicate 32 x00) seq prev None REPO_INCARNATION SUPPORTED_OP_VERSION 0 1 None
                  (Some (replicate 32 x22)) in
  match (payload ← encode_repo_incarnation (mkRepoIncarnation wit_repo prev); map_err (fun _ => Message "") (sign_account_entry wit_secret header payload)) with
  | Ok s => s
  | Err _ => mkSignedAccountEntry header [] [] [] [] [] []
  end.

Definition wit_first : SignedAccountEntry := wit_announcement 0 None.
Definition wit_second : SignedAccountEntry := wit_announcement 1 (Some (sa_entry_hash wit_first)).
Definition wit_rows : list (bytes * bytes) :=
  (fun s => (sa_entry_hash s, sa_signed_bytes s)) <$> [wit_first; wit_second].
Definition wit_headers : list SecretsHeader :=
  (fun s => (sa_entry_hash s, sa_header s, sa_payload s)) <$> [wit_first; wit_second].
Definition wit_db : SecretsDb := mkSecretsDb ∅ ∅ ∅ ∅.
(** The account is not pinned. *)
Definition wit_account_db : AccountDb :=
  mkAccountDb ∅ (Some (mkPinTables ∅ ∅)) true (mkAuthTables ∅ ∅ ∅ ∅ ∅ ∅ ∅) (mkTableSyncWork ∅ ∅ ∅).
Definition wit_db' : SecretsDb :=
  match refold_secrets_log wit_account wit_rows wit_db with Some (Ok db) => db | _ => wit_db end.

Lemma wit_rows_NoDup : NoDup wit_rows.*1.
Proof. apply (bool_decide_unpack _). by vm_compute. Qed.
Lemma wit_loads : load_secrets_headers wit_rows = Ok wit_headers.
Proof. by vm_compute. Qed.
Lemma wit_refolds : refold_secrets_log wit_account wit_rows wit_db = Some (Ok wit_db').
Proof. by vm_compute. Qed.
Lemma wit_second_accepted : sa_entry_hash wit_second ∈ sd_accepted wit_db'.
Proof. apply (bool_decide_unpack _). by vm_compute. Qed.
Lemma wit_second_held : (sa_entry_hash wit_second, sa_header wit_second, sa_payload wit_second) ∈ wit_headers.
Proof. right. by left. Qed.

Lemma secrets_refold_total_witness : ∃ r, refold_secrets_log wit_account wit_rows wit_db = Some r.
Proof. apply secrets_refold_total. exact wit_rows_NoDup. Defined.

Lemma secrets_accept_sound_witness :
  ∃ headers header payload, load_secrets_headers wit_rows = Ok headers ∧
    entry_authorized wit_account headers (sa_entry_hash wit_second) header payload.
Proof.
  apply (secrets_accept_sound wit_account wit_rows wit_db wit_db');
    [exact wit_rows_NoDup|exact wit_refolds|exact wit_second_accepted|apply not_elem_of_empty].
Defined.

Lemma secrets_accept_dense_witness : ∃ h' header' payload', (h', header', payload') ∈ wit_headers ∧ ah_seq header' = 0.
Proof.
  destruct (secrets_accept_dense wit_account wit_rows wit_db wit_db' wit_headers (sa_entry_hash wit_second)
    (sa_header wit_second) (sa_payload wit_second)) as [_ Hd];
    [exact wit_rows_NoDup|intros h _; apply not_elem_of_empty|exact wit_refolds|exact wit_loads|exact wit_second_held|exact wit_second_accepted|].
  destruct (Hd 0) as (h' & hd' & p' & Hin & _ & Hs & _); [by vm_compute|]. by exists h', hd', p'.
Defined.

Lemma repo_incarnation_exact_witness :
  repo_incarnation_state wit_account_db wit_db' wit_account wit_repo = Ok (IncarnationCurrent (sa_entry_hash wit_second)).
Proof.
  destruct (repo_incarnation_exact wit_account_db wit_account wit_rows wit_db wit_db' wit_headers wit_repo) as (_ & Hcur & _);
    [exact wit_rows_NoDup|intros h _; apply not_elem_of_empty|exact wit_refolds|exact wit_loads|done|].
  apply Hcur. exists [(sa_entry_hash wit_first, None); (sa_entry_hash wit_second, Some (sa_entry_hash wit_first))].
  split_and!; [by vm_compute|by vm_compute|by vm_compute].
Defined.
