(* ===== verification/Fold.v ===== *)
(** * The stratified control-log fold ([account/fold.rs])

    The fold of one account's control entries into outcomes, registers and authority facts.  A
    candidate is a verified entry with its decoded operation; the source's indices into the
    candidate vector are the candidates themselves.  [HashMap]s are [gmap]s, whose lookups and
    inserts are the ones of the source; a loop over a [HashMap] runs over [map_to_list].  The
    readiness loop, the two closure loops, the search for a condemnation cycle and the citation
    walk run on fuel; [FoldDepth], [FoldCycle] and [FoldTotal] show that it is enough. *)

From S2P Require Import Prelude Cbor Minicbor Hash Op Device Entry Stream Branch Envelope Candidate AccountOps FoldTypes.

Local Open Scope Z_scope.

(** [u64] saturating arithmetic. *)
Definition saturating_add (a b : Z) : Z := Z.min u64_max (a + b).
Definition saturating_sub (a b : Z) : Z := Z.max 0 (a - b).

#[export] Instance RegisterKey_eq_dec : EqDecision RegisterKey.
Proof. solve_decision. Defined.
#[export] Program Instance RegisterKey_countable : Countable RegisterKey :=
  inj_countable'
    (fun k => match k with
     | RegisterDevice a l d => inl (a, l, d)
     | RegisterOwnerIncarnation a l d o => inr (inl (a, l, d, o))
     | RegisterGrant s g i d => inr (inr (s, g, i, d))
     end)
    (fun k => match k with
     | inl (a, l, d) => RegisterDevice a l d
     | inr (inl (a, l, d, o)) => RegisterOwnerIncarnation a l d o
     | inr (inr (s, g, i, d)) => RegisterGrant s g i d
     end) _.
Next Obligation. by intros []. Qed.

Abbreviation Outcomes := (gmap AccountEntryHash Outcome).
Abbreviation Registers := (gmap RegisterKey Cut).

#[export] Instance nat_cmp : Cmp nat := Nat.compare.

(** The entries of a [BTreeMap] in key order. *)
Definition btree_iter {A} (m : gmap nat A) : list (nat * A) := sort_by_key fst (map_to_list m).

(** ** Candidates *)

Record FoldCandidate : Type := mkFoldCandidate {
  fc_entry : VerifiedAccountEntry;
  fc_op : AccountOp;
}.

Abbreviation Strata := (gmap nat (list FoldCandidate)).

Definition fc_hash (c : FoldCandidate) : AccountEntryHash := va_entry_hash (fc_entry c).
Definition fc_header (c : FoldCandidate) : AccountEntryHeader := va_header (fc_entry c).

Definition is_mint (c : FoldCandidate) : bool :=
  match fc_op c with
  | AccountGenesis _ _ _ _ _ | DeviceAdd _ _ _ Owner _ | OwnerPromote _ => true
  | _ => false
  end.

Definition subject_device (c : FoldCandidate) : DeviceFingerprint :=
  match fc_op c with
  | AccountGenesis _ _ _ _ _ => ah_device_fingerprint (fc_header c)
  | DeviceAdd d _ _ _ _ | OwnerPromote d | DeviceRemove d _ _ _ _ | OwnerDemote d _ _ _ _ => d
  | _ => ah_device_fingerprint (fc_header c)
  end.

Definition effective_in (outcomes : Outcomes) (h : AccountEntryHash) : bool :=
  match outcomes !! h with Some o => is_effective o | None => false end.

(** ** Incarnations *)

Record Incarnations : Type := mkIncarnations {
  inc_mints : gmap OwnerId FoldCandidate;
  inc_genesis_owner_id : OwnerId;
}.

(** The memoized depths; [Some None] is the in-progress or unresolvable marker. *)
Abbreviation DepthMemo := (gmap OwnerId (option nat)).

Definition incarnations_build (candidates : list FoldCandidate) (genesis_owner_id : OwnerId) : Incarnations :=
  mkIncarnations
    (foldl (fun m c => <[fc_hash c := c]> m) ∅ (List.filter is_mint candidates))
    genesis_owner_id.

Definition inc_candidate (incs : Incarnations) (owner_id : OwnerId) : option FoldCandidate :=
  inc_mints incs !! owner_id.

(** The walk up the citations: the memo, the path, the node it ends at and its depth. *)
Fixpoint depth_walk (fuel : nat) (incs : Incarnations) (memo : DepthMemo) (chain : list OwnerId)
    (node : OwnerId) : option (DepthMemo * list OwnerId * OwnerId * option nat) :=
  match fuel with
  | O => None
  | S fuel =>
      match memo !! node with
      | Some cached => Some (memo, chain, node, cached)
      | None =>
          let memo := <[node := None]> memo in
          match inc_candidate incs node with
          | None => Some (memo, chain, node, None)
          | Some mint =>
              if bool_decide (node = inc_genesis_owner_id incs) then Some (memo, chain, node, Some O)
              else match ah_authority_ref (fc_header mint) with
                   | None => Some (memo, chain, node, None)
                   | Some parent => depth_walk fuel incs memo (chain ++ [node]) parent
                   end
          end
      end
  end.

(** [for &link in chain.iter().rev() { d = d.map(|x| x + 1); depth.insert(link, d) }]. *)
Definition assign_depths (chain : list OwnerId) (base : option nat) (memo : DepthMemo) : DepthMemo :=
  snd (foldl (fun '(d, memo) link => let d := S <$> d in (d, <[link := d]> memo)) (base, memo) (rev chain)).

Definition incarnation_depth (incs : Incarnations) (memo : DepthMemo) (owner_id : OwnerId)
    : option nat * DepthMemo :=
  match memo !! owner_id with
  | Some cached => (cached, memo)
  | None =>
      match depth_walk (S (S (size (inc_mints incs)))) incs memo [] owner_id with
      | None => (None, memo)
      | Some (memo, chain, node, base) =>
          let memo := assign_depths chain base (<[node := base]> memo) in
          (mjoin (memo !! owner_id), memo)
      end
  end.

Definition author_incarnation_id (c : FoldCandidate) : option OwnerId :=
  match fc_op c with
  | AccountGenesis _ _ _ _ _ => Some (fc_hash c)
  | _ => ah_authority_ref (fc_header c)
  end.

Definition author_depth (incs : Incarnations) (memo : DepthMemo) (c : FoldCandidate) : option nat * DepthMemo :=
  match author_incarnation_id c with
  | None => (None, memo)
  | Some inc => incarnation_depth incs memo inc
  end.

(** ** State *)

Record LiveGrant : Type := mkLiveGrant {
  lg_stream_id : StreamId;
  lg_grantee_account_id : AccountId;
  lg_role : GrantRole;
  lg_open : bool;
}.

Record FoldState : Type := mkFoldState {
  st_live : gset OwnerId;
  st_roster : gmap DeviceFingerprint RosterRef;
  st_enrollment_roles : gmap DeviceFingerprint DeviceRole;
  st_owners : gmap DeviceFingerprint OwnerId;
  st_tombstoned : gset DeviceFingerprint;
  st_genesis_seen : bool;
  st_next_auth_epoch : Z;
  st_stream_ownership : gmap StreamId AccountEntryHash;
  st_public_streams : gset StreamId;
  st_grants : gmap GrantId LiveGrant;
}.

Definition seeded (genesis_owner_id : OwnerId) : FoldState :=
  mkFoldState {[genesis_owner_id]} ∅ ∅ ∅ ∅ false 0 ∅ ∅ ∅.

Definition take_epoch (s : FoldState) : Outcome * FoldState :=
  (OutEffective (st_next_auth_epoch s),
   mkFoldState (st_live s) (st_roster s) (st_enrollment_roles s) (st_owners s) (st_tombstoned s)
     (st_genesis_seen s) (st_next_auth_epoch s + 1) (st_stream_ownership s) (st_public_streams s) (st_grants s)).

(** Updates of the roster part and of the stream part. *)
Definition set_roster (s : FoldState) live roster roles owners tombstoned seen : FoldState :=
  mkFoldState live roster roles owners tombstoned seen (st_next_auth_epoch s) (st_stream_ownership s)
    (st_public_streams s) (st_grants s).
Definition set_streams (s : FoldState) ownership public grants : FoldState :=
  mkFoldState (st_live s) (st_roster s) (st_enrollment_roles s) (st_owners s) (st_tombstoned s)
    (st_genesis_seen s) (st_next_auth_epoch s) ownership public grants.

(** ** Ancestry and joins

    Total on views whose sequence numbers are [u64] ([ancestry_in_spec], [join_in_spec]). *)

Definition ancestry_in (view : HeaderView) (target : AccountEntryHash) (cut : Cut) : AncestryRelation :=
  default (UnknownRelation UnknownCutTarget) (ancestry target cut view).
Definition join_in (view : HeaderView) (a b : Cut) : JoinResult := default JoinUnknown (join_cuts a b view).

Lemma ancestry_in_spec (view : HeaderView) target cut :
  view_ok view → ancestry target cut view = Some (ancestry_in view target cut).
Proof.
  intros Hok. unfold ancestry_in, ancestry. destruct (cut_hash cut) as [w|]; [|done].
  by destruct (ancestry_from_total view target w Hok) as [r ->].
Qed.

Lemma join_in_spec (view : HeaderView) a b : view_ok view → join_cuts a b view = Some (join_in view a b).
Proof.
  intros Hok. unfold join_in. destruct (join_cuts a b view) as [r|] eqn:Hj; [done|].
  unfold join_cuts in Hj. destruct a, b; try done. case_bool_decide; [done|].
  destruct (if bool_decide _ then _ else _) as [lower higher].
  rewrite ancestry_in_spec in Hj by done. done.
Qed.

(** ** Registers *)

Definition RegisterRow : Type := RegisterKey * Cut * CutCoordinate.

Definition device_register (account : AccountId) (log : Z) (device : DeviceFingerprint) (cut : Cut) : RegisterRow :=
  (RegisterDevice account log device, cut, mkCutCoordinate account log device).
Definition owner_register (account : AccountId) (log : Z) (device : DeviceFingerprint) (owner_id : OwnerId) (cut : Cut)
    : RegisterRow :=
  (RegisterOwnerIncarnation account log device owner_id, cut, mkCutCoordinate account log device).

Definition cut_op_registers (c : FoldCandidate) : list RegisterRow :=
  let account := ah_account_id (fc_header c) in
  match fc_op c with
  | DeviceRemove device control_cut secrets_cut _ _ =>
      [device_register account CONTROL_LOG device control_cut;
       device_register account SECRETS_LOG device secrets_cut]
  | OwnerDemote device owner_id control_cut secrets_cut _ =>
      [owner_register account CONTROL_LOG device owner_id control_cut;
       owner_register account SECRETS_LOG device owner_id secrets_cut]
  | _ => []
  end.

Definition cut_extend_register (c : FoldCandidate) : option RegisterRow :=
  match fc_op c with
  | CutExtend kind _ incarnation_id account device new_seq new_entry_hash =>
      log ← match kind with
            | Ctrl => Some CONTROL_LOG
            | Secrets => Some SECRETS_LOG
            | Content => None
            end;
      let cut := CutAt new_seq new_entry_hash in
      let key := match incarnation_id with
                 | Some owner_id => RegisterOwnerIncarnation account log device owner_id
                 | None => RegisterDevice account log device
                 end in
      Some (key, cut, mkCutCoordinate account log device)
  | _ => None
  end.

Inductive RegisterVerdict : Type :=
| VerdictCondemned (reason : CondemnedReason)
| VerdictParked (reason : ParkReason)
| VerdictClear.

(** What one register says of an entry. *)
Inductive RegisterFlag : Type := FlagNone | FlagBeyond | FlagOffBranch | FlagUnknownTarget | FlagIncomplete.

#[export] Instance RegisterFlag_eq_dec : EqDecision RegisterFlag.
Proof. solve_decision. Defined.

Definition register_flag (view : HeaderView) (c : FoldCandidate) (row : RegisterKey * Cut) : RegisterFlag :=
  let '(key, cut) := row in
  if negb (scopes key (fc_header c)) then FlagNone
  else if beyond (ah_seq (fc_header c)) cut then FlagBeyond
  else match ancestry_in view (fc_hash c) cut with
       | OnBranch => FlagNone
       | OffBranch => FlagOffBranch
       | UnknownRelation UnknownCutTarget => FlagUnknownTarget
       | UnknownRelation IncompleteCutAncestry => FlagIncomplete
       end.

(** The four booleans of the loop are "some register raised this flag". *)
Definition register_verdict (c : FoldCandidate) (registers : Registers) (view : HeaderView) : RegisterVerdict :=
  let flags := register_flag view c <$> map_to_list registers in
  if bool_decide (FlagOffBranch ∈ flags) then VerdictCondemned CondemnedOffBranch
  else if bool_decide (FlagBeyond ∈ flags) then VerdictCondemned CondemnedBeyondCut
  else if bool_decide (FlagUnknownTarget ∈ flags) then VerdictParked ParkedUnknownCutTarget
  else if bool_decide (FlagIncomplete ∈ flags) then VerdictParked ParkedIncompleteCutAncestry
  else VerdictClear.

Record AdmittedCut : Type := mkAdmittedCut {
  ac_op : FoldCandidate;
  ac_registers : list (RegisterKey * Cut);
}.

(** *** The condemnation cycle *)

Definition condemns (view : HeaderView) (x y : AdmittedCut) : bool :=
  existsb (fun '(key, cut) =>
    scopes key (fc_header (ac_op y)) &&
    (beyond (ah_seq (fc_header (ac_op y))) cut ||
     match ancestry_in view (fc_hash (ac_op y)) cut with OffBranch => true | _ => false end))
    (ac_registers x).

Definition condemn_adjacency (admitted : list AdmittedCut) (view : HeaderView) : list (list nat) :=
  let n := length admitted in
  (fun i => List.filter (fun j =>
     negb (i =? j)%nat &&
     match admitted !! i, admitted !! j with
     | Some x, Some y => condemns view x y
     | _, _ => false
     end) (seq 0 n)) <$> seq 0 n.

(** The colours of the search: white, grey (on the stack) and black. *)
Inductive Colour : Type := White | Grey | Black.

(** [while let Some((node, edge)) = stack.last()]: [None] when the fuel runs out, [Some None]
    when a back edge is met, [Some (Some colour)] when the stack empties. *)
Fixpoint dfs_loop (fuel : nat) (adj : list (list nat)) (stack : list (nat * nat)) (colour : list Colour)
    : option (option (list Colour)) :=
  match fuel with
  | O => None
  | S fuel =>
      match stack with
      | [] => Some (Some colour)
      | (node, edge) :: below =>
          match (default [] (adj !! node)) !! edge with
          | Some next =>
              let stack := (node, S edge) :: below in
              match default White (colour !! next) with
              | Grey => Some None
              | White => dfs_loop fuel adj ((next, O) :: stack) (<[next := Grey]> colour)
              | Black => dfs_loop fuel adj stack colour
              end
          | None => dfs_loop fuel adj below (<[node := Black]> colour)
          end
      end
  end.

Fixpoint dfs_starts (fuel : nat) (adj : list (list nat)) (starts : list nat) (colour : list Colour) : option bool :=
  match starts with
  | [] => Some false
  | start :: rest =>
      match default White (colour !! start) with
      | White =>
          r ← dfs_loop fuel adj [(start, O)] (<[start := Grey]> colour);
          match r with
          | None => Some true
          | Some colour => dfs_starts fuel adj rest colour
          end
      | _ => dfs_starts fuel adj rest colour
      end
  end.

(** Each node is pushed once and each edge followed once. *)
Definition dfs_fuel (n : nat) : nat := S (n * n + n).

Definition has_condemn_cycle (admitted : list AdmittedCut) (view : HeaderView) : bool :=
  let n := length admitted in
  default true (dfs_starts (dfs_fuel n) (condemn_adjacency admitted view) (seq 0 n) (replicate n White)).

(** *** Joins into the register set *)

Inductive RegisterJoin : Type := JoinApplied | JoinContested | JoinParked.

Definition join_register_peek (registers : Registers) (key : RegisterKey) (cut : Cut) (view : HeaderView)
    : RegisterJoin :=
  match registers !! key with
  | None => JoinApplied
  | Some existing =>
      match join_in view existing cut with
      | Extended _ => JoinApplied
      | Incomparable => JoinContested
      | JoinUnknown => JoinParked
      end
  end.

Definition join_register (registers : Registers) (key : RegisterKey) (cut : Cut) (view : HeaderView)
    : RegisterJoin * Registers :=
  match registers !! key with
  | None => (JoinApplied, <[key := cut]> registers)
  | Some existing =>
      match join_in view existing cut with
      | Extended joined => (JoinApplied, <[key := joined]> registers)
      | Incomparable => (JoinContested, registers)
      | JoinUnknown => (JoinParked, registers)
      end
  end.

(** ** Authority *)

Inductive AuthorityStatus : Type :=
| AuthLive
| AuthUnresolvable
| AuthWrongDevice
| AuthStale
| AuthParkedAuthorizer (reason : ParkReason).

#[export] Instance AuthorityStatus_eq_dec : EqDecision AuthorityStatus.
Proof. solve_decision. Defined.

Definition closes_open_incarnation (op : AccountOp) (owners : gmap DeviceFingerprint OwnerId)
    : option DeviceFingerprint :=
  match op with
  | DeviceRemove device _ _ _ _ => if bool_decide (is_Some (owners !! device)) then Some device else None
  | OwnerDemote device owner_id _ _ _ => if bool_decide (owners !! device = Some owner_id) then Some device else None
  | _ => None
  end.

Definition authority_status (c : FoldCandidate) (incs : Incarnations) (state : FoldState)
    (parked : gmap AccountEntryHash ParkReason) : AuthorityStatus :=
  match author_incarnation_id c with
  | None => AuthUnresolvable
  | Some author_inc =>
      match inc_candidate incs author_inc with
      | None => AuthUnresolvable
      | Some mint =>
          if bool_decide (subject_device mint ≠ ah_device_fingerprint (fc_header c)) then AuthWrongDevice
          else if bool_decide (author_inc ∈ st_live state) then AuthLive
          else match parked !! author_inc with
               | Some reason => AuthParkedAuthorizer reason
               | None => AuthStale
               end
      end
  end.

(** ** Effects *)

Inductive EffectVerdict : Type :=
| VerdictEffective
| VerdictRejected (reason : RejectReason)
| EffectParked (reason : ParkReason).

Section Effects.
Context `{Minicbor} `{Sha256} `{Ed25519}.

(** The spec decodes to a public stream. *)
Definition is_public_spec (spec_bytes : bytes) : bool :=
  match decode_spec_v2 spec_bytes with
  | Ok spec => match s2_access_mode spec with PublicRead => true | Private => false end
  | Err _ => false
  end.

(** [decode_spec_v2(..).and_then(..).unwrap_or(false)] of a [StreamOwn]. *)
Definition valid_stream_spec (account_id : AccountId) (stream_id : StreamId) (spec_bytes : bytes) : bool :=
  match decode_spec_v2 spec_bytes with
  | Ok spec =>
      bool_decide (s2_owner_account_id spec = account_id) &&
      match derive_v2 spec with Ok id => bool_decide (id = stream_id) | Err _ => false end
  | Err _ => false
  end.

Definition grant_is_duplicate (grants : gmap GrantId LiveGrant) (stream_id : StreamId) (grantee : AccountId)
    (role : GrantRole) : bool :=
  existsb (fun g => lg_open g && bool_decide (lg_stream_id g = stream_id) &&
                    bool_decide (lg_grantee_account_id g = grantee) && bool_decide (lg_role g = role))
    (map_to_list grants).*2.

Definition matches_open_grant (grants : gmap GrantId LiveGrant) (grant_id : GrantId) (stream_id : StreamId)
    (grantee : AccountId) : bool :=
  match grants !! grant_id with
  | Some g => lg_open g && bool_decide (lg_stream_id g = stream_id) && bool_decide (lg_grantee_account_id g = grantee)
  | None => false
  end.

(** The state preconditions of an authorized operation. *)
Definition classify_live (c : FoldCandidate) (state : FoldState) : EffectVerdict :=
  match fc_op c with
  | AccountGenesis _ _ _ _ _ =>
      if st_genesis_seen state then VerdictRejected DuplicateGenesis
      else if bool_decide (account_id_from_genesis_payload (va_payload (fc_entry c)) ≠ ah_account_id (fc_header c))
      then VerdictRejected GenesisSelfHash
      else VerdictEffective
  | DeviceAdd device _ _ _ _ =>
      if bool_decide (device ∈ st_tombstoned state) then VerdictRejected TombstoneReAdd
      else if bool_decide (is_Some (st_roster state !! device)) then VerdictRejected DuplicateAdd
      else VerdictEffective
  | OwnerPromote device =>
      let enrolled := bool_decide (is_Some (st_roster state !! device)) in
      let already_owner := bool_decide (is_Some (st_owners state !! device)) in
      let tombstoned := bool_decide (device ∈ st_tombstoned state) in
      let authoring_role :=
        match st_enrollment_roles state !! device with Some role => can_author_content role | None => false end in
      if enrolled && authoring_role && negb already_owner && negb tombstoned
      then VerdictEffective else VerdictRejected BadPromote
  | StreamOwn stream_id spec =>
      if negb (valid_stream_spec (ah_account_id (fc_header c)) stream_id spec)
      then VerdictRejected InvalidStreamSpec
      else if bool_decide (is_Some (st_stream_ownership state !! stream_id)) then VerdictRejected Ineffective
      else VerdictEffective
  | StreamGrant stream_id grantee role =>
      if bool_decide (stream_id ∉ st_public_streams state) ||
         bool_decide (grantee = ah_account_id (fc_header c)) ||
         grant_is_duplicate (st_grants state) stream_id grantee role
      then VerdictRejected Ineffective else VerdictEffective
  | StreamRevoke stream_id grantee grant_id _ _ =>
      if bool_decide (is_Some (st_stream_ownership state !! stream_id)) &&
         matches_open_grant (st_grants state) grant_id stream_id grantee
      then VerdictEffective else VerdictRejected Ineffective
  | AccountReRoot _ _ => VerdictRejected Ineffective
  | DeviceRemove device _ _ _ _ =>
      if bool_decide (is_Some (st_roster state !! device)) then VerdictEffective else VerdictRejected Ineffective
  | OwnerDemote _ _ _ _ _ => VerdictEffective
  | CutExtend kind _ _ _ _ _ _ =>
      match kind with
      | Ctrl | Secrets => VerdictEffective
      | Content => EffectParked DeferredStreamAuthorization
      end
  end.

Definition classify_effect (c : FoldCandidate) (incs : Incarnations) (state : FoldState)
    (parked : gmap AccountEntryHash ParkReason) : EffectVerdict :=
  match authority_status c incs state parked with
  | AuthUnresolvable => EffectParked UnknownOwnerRef
  | AuthWrongDevice => VerdictRejected WrongDevice
  | AuthStale => VerdictRejected StaleAuthority
  | AuthParkedAuthorizer reason => EffectParked reason
  | AuthLive => classify_live c state
  end.

Definition apply_effect (c : FoldCandidate) (s : FoldState) : FoldState :=
  let hash := fc_hash c in
  match fc_op c with
  | AccountGenesis _ _ _ _ _ =>
      let device := subject_device c in
      set_roster s ({[hash]} ∪ st_live s) (<[device := hash]> (st_roster s))
        (<[device := Owner]> (st_enrollment_roles s)) (<[device := hash]> (st_owners s)) (st_tombstoned s) true
  | DeviceAdd device _ _ role _ =>
      let roster := <[device := hash]> (st_roster s) in
      let roles := <[device := role]> (st_enrollment_roles s) in
      if bool_decide (role = Owner)
      then set_roster s ({[hash]} ∪ st_live s) roster roles (<[device := hash]> (st_owners s))
             (st_tombstoned s) (st_genesis_seen s)
      else set_roster s (st_live s) roster roles (st_owners s) (st_tombstoned s) (st_genesis_seen s)
  | OwnerPromote device =>
      set_roster s ({[hash]} ∪ st_live s) (st_roster s) (st_enrollment_roles s)
        (<[device := hash]> (st_owners s)) (st_tombstoned s) (st_genesis_seen s)
  | StreamOwn stream_id spec =>
      set_streams s (<[stream_id := hash]> (st_stream_ownership s))
        (if is_public_spec spec then {[stream_id]} ∪ st_public_streams s else st_public_streams s) (st_grants s)
  | StreamGrant stream_id grantee role =>
      set_streams s (st_stream_ownership s) (st_public_streams s)
        (<[hash := mkLiveGrant stream_id grantee role true]> (st_grants s))
  | StreamRevoke _ _ grant_id _ _ =>
      set_streams s (st_stream_ownership s) (st_public_streams s)
        (alter (fun g => mkLiveGrant (lg_stream_id g) (lg_grantee_account_id g) (lg_role g) false) grant_id (st_grants s))
  | DeviceRemove device _ _ _ _ =>
      set_roster s (st_live s) (delete device (st_roster s)) (delete device (st_enrollment_roles s))
        (delete device (st_owners s)) ({[device]} ∪ st_tombstoned s) (st_genesis_seen s)
  | OwnerDemote device _ _ _ _ =>
      if bool_decide (is_Some (closes_open_incarnation (fc_op c) (st_owners s)))
      then set_roster s (st_live s) (st_roster s) (st_enrollment_roles s) (delete device (st_owners s))
             (st_tombstoned s) (st_genesis_seen s)
      else s
  | CutExtend _ _ _ _ _ _ _ | AccountReRoot _ _ => s
  end.

Record FoldVerdicts : Type := mkFoldVerdicts {
  vd_condemned : gmap AccountEntryHash CondemnedReason;
  vd_parked : gmap AccountEntryHash ParkReason;
  vd_cut_verdicts : gmap AccountEntryHash Outcome;
}.

(** One candidate of the effect pass: its outcome, and the state after it. *)
Definition effect_step (incs : Incarnations) (verdicts : FoldVerdicts) (c : FoldCandidate) (state : FoldState)
    : Outcome * FoldState :=
  match vd_condemned verdicts !! fc_hash c with
  | Some reason => (OutCondemned reason, state)
  | None =>
      match vd_parked verdicts !! fc_hash c with
      | Some reason => (OutParked reason, state)
      | None =>
          match vd_cut_verdicts verdicts !! fc_hash c with
          | Some verdict => (verdict, state)
          | None =>
              match classify_effect c incs state (vd_parked verdicts) with
              | VerdictEffective => let '(o, state) := take_epoch state in (o, apply_effect c state)
              | VerdictRejected reason => (OutRejected reason, state)
              | EffectParked reason => (OutParked reason, state)
              end
          end
      end
  end.

Definition effect_order (c : FoldCandidate) : bytes * Z * bytes :=
  (ah_device_fingerprint (fc_header c), ah_seq (fc_header c), fc_hash c).

Definition effect_pass (idxs : list FoldCandidate) (incs : Incarnations) (verdicts : FoldVerdicts)
    (state : FoldState) (outcomes : Outcomes) : FoldState * Outcomes :=
  foldl (fun '(state, outcomes) c =>
    let '(o, state) := effect_step incs verdicts c state in (state, <[fc_hash c := o]> outcomes))
    (state, outcomes) (sort_by_key effect_order idxs).

(** The loop breaks at the first depth that reaches the limit. *)
Definition replay_effect_state (strata : Strata) (incs : Incarnations) (before_depth : option nat)
    (verdicts : FoldVerdicts) (outcomes : Outcomes) : FoldState * Outcomes :=
  (fix go (l : list (nat * list FoldCandidate)) (state : FoldState) (outcomes : Outcomes) :=
     match l with
     | [] => (state, outcomes)
     | (depth, idxs) :: rest =>
         if match before_depth with Some limit => (limit <=? depth)%nat | None => false end then (state, outcomes)
         else let '(state, outcomes) := effect_pass idxs incs verdicts state outcomes in go rest state outcomes
     end) (btree_iter strata) (seeded (inc_genesis_owner_id incs)) outcomes.

Definition effective_of (row : AccountEntryHash * Outcome) : option (AccountEntryHash * Z) :=
  match row.2 with OutEffective epoch => Some (row.1, epoch) | _ => None end.

Definition normalize_auth_epochs (outcomes : Outcomes) : Z * Outcomes :=
  let effective := sort_by_key (fun '(hash, epoch) => (epoch, hash)) (omap effective_of (map_to_list outcomes)) in
  (len effective,
   foldl (fun m '(i, (hash, _)) => <[hash := OutEffective (Z.of_nat i)]> m) outcomes
     (zip (seq 0 (length effective)) effective)).
End Effects.

(** ** One stratified pass

    [ControlFlow::Break] is the error of the result monad: it carries the pass as the halting
    stage left it. *)

Record DepthPass : Type := mkDepthPass {
  dp_state : FoldState;
  dp_registers : Registers;
  dp_verdicts : FoldVerdicts;
  dp_register_contributors : gset AccountEntryHash;
  dp_classification : AccountClassification;
}.

Abbreviation Flow := (result DepthPass).

Definition set_cut_verdict (h : AccountEntryHash) (o : Outcome) (p : DepthPass) : DepthPass :=
  let v := dp_verdicts p in
  mkDepthPass (dp_state p) (dp_registers p)
    (mkFoldVerdicts (vd_condemned v) (vd_parked v) (<[h := o]> (vd_cut_verdicts v)))
    (dp_register_contributors p) (dp_classification p).

Definition contest (depth : nat) (p : DepthPass) : DepthPass :=
  mkDepthPass (dp_state p) (dp_registers p) (dp_verdicts p) (dp_register_contributors p) (Contested depth).

(** What the register pass decides of one candidate. *)
Inductive Admission : Type :=
| NotACut
| CutVerdict (o : Outcome)
| Admit (cut : AdmittedCut).

Section Pass.
Context `{Minicbor} `{Sha256} `{Ed25519}.
Context (candidates : list FoldCandidate) (incs : Incarnations) (view : HeaderView).

(** Neither condemned nor parked, and authorized. *)
Definition may_cut (c : FoldCandidate) (p : DepthPass) : bool :=
  bool_decide (vd_condemned (dp_verdicts p) !! fc_hash c = None) &&
  bool_decide (vd_parked (dp_verdicts p) !! fc_hash c = None) &&
  bool_decide (authority_status c incs (dp_state p) (vd_parked (dp_verdicts p)) = AuthLive).

Definition admission (p : DepthPass) (c : FoldCandidate) : Admission :=
  let op_registers := cut_op_registers c in
  if bool_decide (op_registers = []) || negb (may_cut c p) then NotACut
  else
    let demote :=
      match fc_op c with
      | OwnerDemote device owner_id _ _ _ =>
          match inc_candidate incs owner_id with
          | None => Some (OutParked UnknownOwnerRef)
          | Some target =>
              if bool_decide (subject_device target ≠ device) then Some (OutRejected WrongDevice) else None
          end
      | _ => None
      end in
    match demote with
    | Some o => CutVerdict o
    | None =>
        if existsb (fun '(_, cut, coord) => bool_decide (validate_cut_target cut coord view = Mismatch)) op_registers
        then CutVerdict (OutRejected CutTargetMismatch)
        else Admit (mkAdmittedCut c ((fun '(key, cut, _) => (key, cut)) <$> op_registers))
    end.

Definition admit_step (acc : list AdmittedCut * DepthPass) (c : FoldCandidate) : list AdmittedCut * DepthPass :=
  let '(admitted, p) := acc in
  match admission p c with
  | NotACut => (admitted, p)
  | CutVerdict o => (admitted, set_cut_verdict (fc_hash c) o p)
  | Admit a => (admitted ++ [a], p)
  end.

Definition admit_cut_registers (idxs : list FoldCandidate) (p : DepthPass) : list AdmittedCut * DepthPass :=
  let '(admitted, p) := foldl admit_step ([], p) idxs in
  (sort_by_key (fun a => fc_hash (ac_op a)) admitted, p).

(** [admitted.retain(..)] with the verdicts it records. *)
Definition reject_sole_owner_cuts (admitted : list AdmittedCut) (p : DepthPass) : list AdmittedCut * DepthPass :=
  if bool_decide (size (st_owners (dp_state p)) ≠ 1%nat) then (admitted, p)
  else foldl (fun '(kept, p) a =>
         if closes_open_incarnation (fc_op (ac_op a)) (st_owners (dp_state p))
         then (kept, set_cut_verdict (fc_hash (ac_op a)) (OutRejected LastOwner) p)
         else (kept ++ [a], p)) ([], p) admitted.

(** The joins of one operation against the working registers: parked, contested or applied. *)
Definition peek_registers (working : Registers) (a : AdmittedCut) : result unit bool :=
  foldl (fun (acc : result unit bool) '(key, cut) =>
    any_parked ← acc;
    match join_register_peek working key cut view with
    | JoinApplied => Ok any_parked
    | JoinContested => Err tt
    | JoinParked => Ok true
    end) (Ok false) (ac_registers a).

Definition apply_registers (working : Registers) (a : AdmittedCut) : Registers :=
  foldl (fun working '(key, cut) => (join_register working key cut view).2) working (ac_registers a).

Fixpoint stage_loop (depth : nat) (admitted : list AdmittedCut) (working : Registers) (kept : list AdmittedCut)
    (p : DepthPass) : Flow (list AdmittedCut * DepthPass) :=
  match admitted with
  | [] => Ok (kept, p)
  | a :: rest =>
      match peek_registers working a with
      | Err _ => Err (contest depth p)
      | Ok true =>
          stage_loop depth rest working kept
            (set_cut_verdict (fc_hash (ac_op a)) (OutParked ParkedUnknownCutTarget) p)
      | Ok false => stage_loop depth rest (apply_registers working a) (kept ++ [a]) p
      end
  end.

Definition stage_register_joins (depth : nat) (admitted : list AdmittedCut) (p : DepthPass)
    : Flow (list AdmittedCut * DepthPass) :=
  stage_loop depth admitted (dp_registers p) [] p.

Definition reserve_step (acc : gmap DeviceFingerprint OwnerId * list AdmittedCut * DepthPass) (a : AdmittedCut)
    : gmap DeviceFingerprint OwnerId * list AdmittedCut * DepthPass :=
  let '(surviving, kept, p) := acc in
  match closes_open_incarnation (fc_op (ac_op a)) surviving with
  | Some dev =>
      if bool_decide (size surviving = 1%nat)
      then (surviving, kept, set_cut_verdict (fc_hash (ac_op a)) (OutRejected LastOwner) p)
      else (delete dev surviving, kept ++ [a], p)
  | None => (surviving, kept ++ [a], p)
  end.

Definition reserve_surviving_owner (admitted : list AdmittedCut) (p : DepthPass) : list AdmittedCut * DepthPass :=
  let '(_, kept, p) := foldl reserve_step (st_owners (dp_state p), [], p) admitted in (kept, p).

(** One live [CutExtend] of the depth, once the creators are staged. *)
Inductive Extension : Type :=
| NotAnExtend
| ExtendVerdict (o : Outcome)
| ExtendRow (c : FoldCandidate) (key : RegisterKey) (cut : Cut).

Definition extension (depth_registers : Registers) (p : DepthPass) (c : FoldCandidate) : Extension :=
  match cut_extend_register c with
  | None => NotAnExtend
  | Some (key, cut, coord) =>
      if negb (may_cut c p) then NotAnExtend
      else if bool_decide (validate_cut_target cut coord view = Mismatch)
      then ExtendVerdict (OutRejected CutTargetMismatch)
      else if bool_decide (depth_registers !! key = None) then ExtendVerdict (OutParked ParkedUnknownCutTarget)
      else ExtendRow c key cut
  end.

Definition extend_step (depth_registers : Registers) (acc : list (FoldCandidate * RegisterKey * Cut) * DepthPass)
    (c : FoldCandidate) : list (FoldCandidate * RegisterKey * Cut) * DepthPass :=
  let '(extends, p) := acc in
  match extension depth_registers p c with
  | NotAnExtend => (extends, p)
  | ExtendVerdict o => (extends, set_cut_verdict (fc_hash c) o p)
  | ExtendRow c key cut => (extends ++ [(c, key, cut)], p)
  end.

Definition add_contributor (h : AccountEntryHash) (p : DepthPass) : DepthPass :=
  mkDepthPass (dp_state p) (dp_registers p) (dp_verdicts p) ({[h]} ∪ dp_register_contributors p)
    (dp_classification p).

Fixpoint extend_loop (depth : nat) (extends : list (FoldCandidate * RegisterKey * Cut)) (depth_registers : Registers)
    (p : DepthPass) : Flow (Registers * DepthPass) :=
  match extends with
  | [] => Ok (depth_registers, p)
  | (c, key, cut) :: rest =>
      let '(join, depth_registers) := join_register depth_registers key cut view in
      match join with
      | JoinApplied => extend_loop depth rest depth_registers (add_contributor (fc_hash c) p)
      | JoinContested => Err (contest depth p)
      | JoinParked =>
          extend_loop depth rest depth_registers (set_cut_verdict (fc_hash c) (OutParked ParkedUnknownCutTarget) p)
      end
  end.

Definition commit_registers (depth : nat) (idxs : list FoldCandidate) (admitted : list AdmittedCut) (p : DepthPass)
    : Flow DepthPass :=
  let depth_registers := foldl apply_registers (dp_registers p) admitted in
  let p := foldl (fun p a => add_contributor (fc_hash (ac_op a)) p) p admitted in
  let '(extends, p) := foldl (extend_step depth_registers) ([], p) idxs in
  '(depth_registers, p) ← extend_loop depth (sort_by_key (fun '(c, _, _) => fc_hash c) extends) depth_registers p;
  Ok (mkDepthPass (dp_state p) depth_registers (dp_verdicts p) (dp_register_contributors p) (dp_classification p)).

(** A condemned mint leaves [live], its open incarnation and, for an enrollment, the roster. *)
Definition forget_mint (c : FoldCandidate) (s : FoldState) : FoldState :=
  if negb (is_mint c) then s
  else
    let device := subject_device c in
    let hash := fc_hash c in
    let owners := if bool_decide (st_owners s !! device = Some hash) then delete device (st_owners s) else st_owners s in
    let unroll := match fc_op c with
                  | DeviceAdd _ _ _ _ _ => bool_decide (st_roster s !! device = Some hash)
                  | _ => false
                  end in
    set_roster s (st_live s ∖ {[hash]})
      (if unroll then delete device (st_roster s) else st_roster s)
      (if unroll then delete device (st_enrollment_roles s) else st_enrollment_roles s)
      owners (st_tombstoned s) (st_genesis_seen s).

Definition rederive_step (p : DepthPass) (c : FoldCandidate) : DepthPass :=
  let v := dp_verdicts p in
  if bool_decide (fc_hash c = inc_genesis_owner_id incs) || bool_decide (is_Some (vd_condemned v !! fc_hash c)) then p
  else match register_verdict c (dp_registers p) view with
       | VerdictCondemned reason =>
           mkDepthPass (forget_mint c (dp_state p)) (dp_registers p)
             (mkFoldVerdicts (<[fc_hash c := reason]> (vd_condemned v)) (vd_parked v) (vd_cut_verdicts v))
             (dp_register_contributors p) (dp_classification p)
       | VerdictParked reason =>
           mkDepthPass (dp_state p) (dp_registers p)
             (mkFoldVerdicts (vd_condemned v) (<[fc_hash c := reason]> (vd_parked v)) (vd_cut_verdicts v))
             (dp_register_contributors p) (dp_classification p)
       | VerdictClear => p
       end.

Definition rederive_condemnation (p : DepthPass) : DepthPass :=
  let v := dp_verdicts p in
  foldl rederive_step
    (mkDepthPass (dp_state p) (dp_registers p) (mkFoldVerdicts (vd_condemned v) ∅ (vd_cut_verdicts v))
       (dp_register_contributors p) (dp_classification p)) candidates.

Definition run_effect_pass (idxs : list FoldCandidate) (p : DepthPass) (outcomes : Outcomes) : DepthPass * Outcomes :=
  let '(state, outcomes) := effect_pass idxs incs (dp_verdicts p) (dp_state p) outcomes in
  (mkDepthPass state (dp_registers p) (dp_verdicts p) (dp_register_contributors p) (dp_classification p), outcomes).

Definition fold_depth (depth : nat) (idxs : list FoldCandidate) (p : DepthPass) (outcomes : Outcomes)
    : Flow (DepthPass * Outcomes) :=
  let '(admitted, p) := admit_cut_registers idxs p in
  let '(admitted, p) := reject_sole_owner_cuts admitted p in
  '(admitted, p) ← stage_register_joins depth admitted p;
  if has_condemn_cycle admitted view then Err (contest depth p)
  else
    let '(admitted, p) := reserve_surviving_owner admitted p in
    p ← commit_registers depth idxs admitted p;
    let p := rederive_condemnation p in
    Ok (run_effect_pass idxs p outcomes).

(** [for (&depth, idxs) in &strata { if pass.fold_depth(..).is_break() { break } }]: a break
    leaves the outcomes of the earlier depths. *)
Fixpoint fold_depths (strata : list (nat * list FoldCandidate)) (p : DepthPass) (outcomes : Outcomes)
    : DepthPass * Outcomes :=
  match strata with
  | [] => (p, outcomes)
  | (depth, idxs) :: rest =>
      match fold_depth depth idxs p outcomes with
      | Err p => (p, outcomes)
      | Ok (p, outcomes) => fold_depths rest p outcomes
      end
  end.
End Pass.

(** ** Freshness *)

Inductive CreditScope : Type :=
| EveryScopedEntry
| Nominated (eligible : gset AccountEntryHash).

Definition scope_admits (scope : CreditScope) (hash : AccountEntryHash) : bool :=
  match scope with EveryScopedEntry => true | Nominated eligible => bool_decide (hash ∈ eligible) end.

Definition is_condemned_outcome (o : option Outcome) : bool :=
  match o with Some (OutCondemned _) => true | _ => false end.

(** Count an entry, and remember it when it is a mint. *)
Definition credit_entry (acc : Z * gset AccountEntryHash) (c : FoldCandidate) : Z * gset AccountEntryHash :=
  (acc.1 + 1, if is_mint c then {[fc_hash c]} ∪ acc.2 else acc.2).

Definition revocation_credit (candidates : list FoldCandidate) (strata : Strata) (outcomes : Outcomes)
    (cut : FoldCandidate) (scope : CreditScope) : Z :=
  let keys := (fun '(key, _, _) => key) <$> cut_op_registers cut in
  let counted (c : FoldCandidate) :=
    bool_decide (fc_hash c ≠ fc_hash cut) && scope_admits scope (fc_hash c) in
  let direct := foldl (fun acc c =>
    if counted c && is_condemned_outcome (outcomes !! fc_hash c) && existsb (fun key => scopes key (fc_header c)) keys
    then credit_entry acc c else acc) (0, ∅) candidates in
  (foldl (fun (acc : Z * gset AccountEntryHash) c =>
    if counted c && bool_decide (outcomes !! fc_hash c = Some (OutRejected StaleAuthority)) &&
       match author_incarnation_id c with Some inc => bool_decide (inc ∈ acc.2) | None => false end
    then credit_entry acc c else acc) direct (mjoin (btree_iter strata).*2)).1.

Record VouchTable : Type := mkVouchTable {
  vt_cuts : list (AccountEntryHash * Z * Z);
  vt_chains : gmap DeviceFingerprint (list (Z * Z));
}.

Definition effective_candidates (candidates : list FoldCandidate) (outcomes : Outcomes) : list FoldCandidate :=
  List.filter (fun c => effective_in outcomes (fc_hash c)) candidates.

Definition vouch_table (candidates : list FoldCandidate) (credits : gmap AccountEntryHash Z) (outcomes : Outcomes)
    : VouchTable :=
  let effective := effective_candidates candidates outcomes in
  mkVouchTable
    (omap (fun c => (fun credit => (fc_hash c, credit, ah_auth_len (fc_header c))) <$> credits !! fc_hash c)
       (List.filter (fun c => negb (bool_decide (cut_op_registers c = []))) effective))
    (foldl (fun chains c =>
       let h := fc_header c in
       <[ah_device_fingerprint h := default [] (chains !! ah_device_fingerprint h) ++ [(ah_seq h, ah_auth_len h)]]> chains)
       ∅ effective).

(** The cuts of other operations. *)
Definition other_cuts (table : VouchTable) (op : FoldCandidate) : list (AccountEntryHash * Z * Z) :=
  List.filter (fun '(hash, _, _) => bool_decide (hash ≠ fc_hash op)) (vt_cuts table).

Definition concurrent_vouch (table : VouchTable) (op : FoldCandidate) (base : Z) : Z :=
  let condemned := foldl (fun sum '(_, credit, _) => saturating_add sum credit) 0 (other_cuts table op) in
  if bool_decide (condemned = 0) then 0
  else
    let h := fc_header op in
    let chain := default [] (vt_chains table !! ah_device_fingerprint h) in
    let ceiling := foldr Z.max 0 ((fun '(_, _, cited) =>
      let own_since := List.filter (fun '(seq, auth_len) =>
        bool_decide (seq < ah_seq h) && bool_decide (cited ≤ auth_len)) chain in
      saturating_add cited (len own_since)) <$> other_cuts table op) in
    Z.min condemned (saturating_sub ceiling base).

Definition cited_ahead (table : VouchTable) (op : FoldCandidate) (base credit : Z) : bool :=
  let measure := saturating_add base credit in
  bool_decide (measure < ah_auth_len (fc_header op)) &&
  bool_decide (saturating_add measure (concurrent_vouch table op base) < ah_auth_len (fc_header op)).

(** ** Dependency closure *)

Section Closure.
Context `{Minicbor} `{Sha256} `{Ed25519}.
Context (candidates : list FoldCandidate).

Definition effective_roster (outcomes : Outcomes) : gset DeviceFingerprint :=
  list_to_set (omap (fun c =>
    match fc_op c with
    | AccountGenesis _ _ _ _ _ => Some (ah_device_fingerprint (fc_header c))
    | DeviceAdd device _ _ _ _ => Some device
    | _ => None
    end) (effective_candidates candidates outcomes)).

Definition effective_public_ownership (outcomes : Outcomes) : gset StreamId :=
  list_to_set (omap (fun c =>
    match fc_op c with
    | StreamOwn stream_id spec => if is_public_spec spec then Some stream_id else None
    | _ => None
    end) (effective_candidates candidates outcomes)).

Definition effective_grants (outcomes : Outcomes) : gmap GrantId (StreamId * AccountId) :=
  foldl (fun m c =>
    match fc_op c with
    | StreamGrant stream_id grantee _ => <[fc_hash c := (stream_id, grantee)]> m
    | _ => m
    end) ∅ (effective_candidates candidates outcomes).

(** The verdict that replaces an effective one whose prerequisite is gone. *)
Definition replacement (roster : gset DeviceFingerprint) (public : gset StreamId)
    (grants : gmap GrantId (StreamId * AccountId)) (outcomes : Outcomes) (c : FoldCandidate) : option Outcome :=
  let by_op :=
    match fc_op c with
    | OwnerPromote device => if bool_decide (device ∉ roster) then Some (OutRejected Ineffective) else None
    | StreamGrant stream_id _ _ => if bool_decide (stream_id ∉ public) then Some (OutRejected Ineffective) else None
    | StreamRevoke stream_id grantee grant_id _ _ =>
        if bool_decide (grants !! grant_id ≠ Some (stream_id, grantee)) then Some (OutRejected Ineffective) else None
    | _ => None
    end in
  match ah_authority_ref (fc_header c) with
  | Some authority_ref =>
      if effective_in outcomes authority_ref then by_op
      else Some match outcomes !! authority_ref with
                | Some (OutParked reason) => OutParked reason
                | _ => OutRejected StaleAuthority
                end
  | None => by_op
  end.

Definition settle_step (roster : gset DeviceFingerprint) (public : gset StreamId)
    (grants : gmap GrantId (StreamId * AccountId)) (acc : bool * Outcomes) (c : FoldCandidate) : bool * Outcomes :=
  let '(changed, outcomes) := acc in
  if effective_in outcomes (fc_hash c) then
    match replacement roster public grants outcomes c with
    | Some o => (true, <[fc_hash c := o]> outcomes)
    | None => (changed, outcomes)
    end
  else (changed, outcomes).

Definition settle_sweep (outcomes : Outcomes) : bool * Outcomes :=
  foldl (settle_step (effective_roster outcomes) (effective_public_ownership outcomes) (effective_grants outcomes))
    (false, outcomes) candidates.

Fixpoint settle_loop (fuel : nat) (outcomes : Outcomes) : option Outcomes :=
  match fuel with
  | O => None
  | S fuel =>
      let '(changed, outcomes) := settle_sweep outcomes in
      if (changed : bool) then settle_loop fuel outcomes else Some outcomes
  end.

Definition settle_authority_dependencies : Outcomes → option Outcomes := settle_loop (S (length candidates)).

Definition ahead_of (credits : gmap AccountEntryHash Z) (effective_count : Z) (table : VouchTable)
    (outcomes : Outcomes) (c : FoldCandidate) : bool :=
  let credit := default 0 (credits !! fc_hash c) in
  let base := saturating_sub effective_count (if effective_in outcomes (fc_hash c) then 1 else 0) in
  cited_ahead table c base credit.

Fixpoint close_loop (fuel : nat) (credits : gmap AccountEntryHash Z) (outcomes discovered : Outcomes)
    : option (Outcomes * Outcomes) :=
  match fuel with
  | O => None
  | S fuel =>
      let measured := effective_candidates candidates outcomes in
      outcomes ← settle_authority_dependencies outcomes;
      let '(effective_count, outcomes) := normalize_auth_epochs outcomes in
      let table := vouch_table candidates credits outcomes in
      let ahead := fc_hash <$> List.filter (ahead_of credits effective_count table outcomes) measured in
      if bool_decide (ahead = []) then Some (outcomes, discovered)
      else
        let park (m : Outcomes) := foldl (fun m h => <[h := OutParked AuthLenAhead]> m) m ahead in
        close_loop fuel credits (park outcomes) (park discovered)
  end.

Definition close_final_authority_dependencies (credits : gmap AccountEntryHash Z) (outcomes : Outcomes)
    : option (Outcomes * Outcomes) :=
  close_loop (S (length candidates)) credits outcomes ∅.
End Closure.

(** ** Authority facts

    [None] is a failed [expect], a panic; [FoldTotal] shows that it is never reached. *)

Definition boundary_from_cut (cut : Cut) : AuthorityBoundary :=
  match cut with CutEmpty => BoundaryClosed | CutAt seq hash => BoundaryCut seq hash end.

Definition open_roster_fact (device : DeviceFingerprint) (role : DeviceRole) (epoch : Z) : RosterFact :=
  mkRosterFact (mkRosterAuthority device role) epoch None BoundaryOpen BoundaryOpen ∅.
Definition open_incarnation_fact (device : DeviceFingerprint) (epoch : Z) : OwnerIncarnationFact :=
  mkOwnerIncarnationFact (mkOwnerAuthority device) epoch None BoundaryOpen BoundaryOpen.

Definition with_role (role : DeviceRole) (f : RosterFact) : RosterFact :=
  mkRosterFact (mkRosterAuthority (rr_device_fingerprint (rf_authority f)) role) (rf_effective_at f) (rf_closed_at f)
    (rf_control_boundary f) (rf_secrets_boundary f) (rf_content_boundaries f).
Definition closed_incarnation (epoch : Z) (f : OwnerIncarnationFact) : OwnerIncarnationFact :=
  mkOwnerIncarnationFact (of_authority f) (of_effective_at f) (Some epoch) (of_control_boundary f) (of_secrets_boundary f).

(** [registers.get(key).map_or(Closed, boundary_from_cut)]. *)
Definition register_boundary (registers : Registers) (key : RegisterKey) : AuthorityBoundary :=
  match registers !! key with Some cut => boundary_from_cut cut | None => BoundaryClosed end.

Definition set_roster_refs (r : gmap RosterRef RosterFact) (f : AuthorityFacts) : AuthorityFacts :=
  mkAuthorityFacts r (af_owner_incarnations f) (af_stream_ownership f) (af_grants f) (af_grant_cuts f).
Definition set_owner_incarnations (o : gmap OwnerId OwnerIncarnationFact) (f : AuthorityFacts) : AuthorityFacts :=
  mkAuthorityFacts (af_roster_refs f) o (af_stream_ownership f) (af_grants f) (af_grant_cuts f).
Definition set_stream_ownership (s : gmap StreamId StreamOwnershipFact) (f : AuthorityFacts) : AuthorityFacts :=
  mkAuthorityFacts (af_roster_refs f) (af_owner_incarnations f) s (af_grants f) (af_grant_cuts f).
Definition set_grants (g : gmap GrantId GrantFact) (cuts : gmap GrantId (list DeviceCut)) (f : AuthorityFacts)
    : AuthorityFacts :=
  mkAuthorityFacts (af_roster_refs f) (af_owner_incarnations f) (af_stream_ownership f) g cuts.

(** The facts with the open enrollment and the open incarnation of each device. *)
Record FactState : Type := mkFactState {
  fs_facts : AuthorityFacts;
  fs_roster : gmap DeviceFingerprint RosterRef;
  fs_owners : gmap DeviceFingerprint OwnerId;
}.

(** [get_mut(key).expect(..)] followed by an assignment. *)
Definition update_expected {K V} `{Countable K} (key : K) (f : V → V) (m : gmap K V) : option (gmap K V) :=
  v ← m !! key; Some (<[key := f v]> m).

Definition close_roster_fact (registers : Registers) (account : AccountId) (device : DeviceFingerprint) (epoch : Z)
    (content_cuts : list ContentCut) (f : RosterFact) : RosterFact :=
  mkRosterFact (rf_authority f) (rf_effective_at f) (Some epoch)
    (register_boundary registers (RegisterDevice account CONTROL_LOG device))
    (register_boundary registers (RegisterDevice account SECRETS_LOG device))
    (foldl (fun m cut => <[ct_stream_id cut := BoundaryCut (ct_seq cut) (ct_hash cut)]> m) ∅ content_cuts).

Definition remove_facts (registers : Registers) (account : AccountId) (device : DeviceFingerprint)
    (content_cuts : list ContentCut) (epoch : Z) (s : FactState) : option FactState :=
  refs ← match fs_roster s !! device with
         | Some roster_ref =>
             update_expected roster_ref (close_roster_fact registers account device epoch content_cuts)
               (af_roster_refs (fs_facts s))
         | None => Some (af_roster_refs (fs_facts s))
         end;
  incarnations ← match fs_owners s !! device with
                 | Some owner_id => update_expected owner_id (closed_incarnation epoch) (af_owner_incarnations (fs_facts s))
                 | None => Some (af_owner_incarnations (fs_facts s))
                 end;
  Some (mkFactState (set_owner_incarnations incarnations (set_roster_refs refs (fs_facts s)))
          (delete device (fs_roster s)) (delete device (fs_owners s))).

Definition demote_incarnation (registers : Registers) (account : AccountId) (device : DeviceFingerprint)
    (owner_id : OwnerId) (epoch : Z) (f : OwnerIncarnationFact) : OwnerIncarnationFact :=
  mkOwnerIncarnationFact (of_authority f) (of_effective_at f) (Some epoch)
    (register_boundary registers (RegisterOwnerIncarnation account CONTROL_LOG device owner_id))
    (register_boundary registers (RegisterOwnerIncarnation account SECRETS_LOG device owner_id)).

Definition demote_facts (registers : Registers) (account : AccountId) (op : AccountOp) (device : DeviceFingerprint)
    (owner_id : OwnerId) (epoch : Z) (s : FactState) : option FactState :=
  if closes_open_incarnation op (fs_owners s) then
    roster_ref ← fs_roster s !! device;
    refs ← update_expected roster_ref (with_role Member) (af_roster_refs (fs_facts s));
    incarnations ← update_expected owner_id (demote_incarnation registers account device owner_id epoch)
                     (af_owner_incarnations (fs_facts s));
    Some (mkFactState (set_owner_incarnations incarnations (set_roster_refs refs (fs_facts s)))
            (fs_roster s) (delete device (fs_owners s)))
  else Some s.

Definition fact_step (registers : Registers) (s : FactState) (row : FoldCandidate * Z) : option FactState :=
  let '(c, epoch) := row in
  let hash := fc_hash c in
  let facts := fs_facts s in
  match fc_op c with
  | AccountGenesis _ _ _ _ _ =>
      let device := subject_device c in
      Some (mkFactState
        (set_owner_incarnations (<[hash := open_incarnation_fact device epoch]> (af_owner_incarnations facts))
          (set_roster_refs (<[hash := open_roster_fact device Owner epoch]> (af_roster_refs facts)) facts))
        (<[device := hash]> (fs_roster s)) (<[device := hash]> (fs_owners s)))
  | DeviceAdd device _ _ role _ =>
      let facts := set_roster_refs (<[hash := open_roster_fact device role epoch]> (af_roster_refs facts)) facts in
      let roster := <[device := hash]> (fs_roster s) in
      if bool_decide (role = Owner)
      then Some (mkFactState
             (set_owner_incarnations (<[hash := open_incarnation_fact device epoch]> (af_owner_incarnations facts)) facts)
             roster (<[device := hash]> (fs_owners s)))
      else Some (mkFactState facts roster (fs_owners s))
  | OwnerPromote device =>
      match fs_roster s !! device with
      | None => Some s
      | Some roster_ref =>
          refs ← update_expected roster_ref (with_role Owner) (af_roster_refs facts);
          Some (mkFactState
            (set_owner_incarnations (<[hash := open_incarnation_fact device epoch]> (af_owner_incarnations facts))
              (set_roster_refs refs facts))
            (fs_roster s) (<[device := hash]> (fs_owners s)))
      end
  | DeviceRemove device _ _ content_cuts _ =>
      remove_facts registers (ah_account_id (fc_header c)) device content_cuts epoch s
  | OwnerDemote device owner_id _ _ _ =>
      demote_facts registers (ah_account_id (fc_header c)) (fc_op c) device owner_id epoch s
  | StreamOwn stream_id _ =>
      Some (mkFactState
        (set_stream_ownership (<[stream_id := mkStreamOwnershipFact hash epoch]> (af_stream_ownership facts)) facts)
        (fs_roster s) (fs_owners s))
  | StreamGrant stream_id grantee role =>
      Some (mkFactState
        (set_grants (<[hash := mkGrantFact (mkGrantAuthority stream_id grantee role) epoch None]> (af_grants facts))
          (af_grant_cuts facts) facts)
        (fs_roster s) (fs_owners s))
  | StreamRevoke _ _ grant_id device_cuts _ =>
      match af_grants facts !! grant_id with
      | Some grant =>
          Some (mkFactState
            (set_grants (<[grant_id := mkGrantFact (gf_authority grant) (gf_effective_at grant) (Some epoch)]>
                           (af_grants facts))
               (<[grant_id := device_cuts]> (af_grant_cuts facts)) facts)
            (fs_roster s) (fs_owners s))
      | None => Some s
      end
  | CutExtend _ _ _ _ _ _ _ | AccountReRoot _ _ => Some s
  end.

(** [registers.iter().find_map(..)] for the device-level register of a log; there is at most one
    ([FoldRegisters]), so the iteration order does not matter. *)
Definition device_register_of (registers : Registers) (want_log : Z) (device : DeviceFingerprint) : option Cut :=
  snd <$> List.find (fun '(key, _) =>
    match key with
    | RegisterDevice _ log reg_device => bool_decide (log = want_log) && bool_decide (reg_device = device)
    | _ => false
    end) (map_to_list registers).

(** The final device registers are projected onto every enrollment of the device. *)
Definition project_registers (registers : Registers) (f : RosterFact) : RosterFact :=
  let device := rr_device_fingerprint (rf_authority f) in
  let project (log : Z) (held : AuthorityBoundary) :=
    match device_register_of registers log device with Some cut => boundary_from_cut cut | None => held end in
  mkRosterFact (rf_authority f) (rf_effective_at f) (rf_closed_at f)
    (project CONTROL_LOG (rf_control_boundary f)) (project SECRETS_LOG (rf_secrets_boundary f))
    (rf_content_boundaries f).

Definition effective_rows (candidates : list FoldCandidate) (outcomes : Outcomes) : list (FoldCandidate * Z) :=
  sort_by_key (fun '(c, epoch) => (epoch, fc_hash c))
    (omap (fun c => match outcomes !! fc_hash c with Some (OutEffective epoch) => Some (c, epoch) | _ => None end)
       candidates).

(** A loop that may panic. *)
Fixpoint fact_loop (registers : Registers) (rows : list (FoldCandidate * Z)) (s : FactState) : option FactState :=
  match rows with
  | [] => Some s
  | row :: rows => s ← fact_step registers s row; fact_loop registers rows s
  end.

Definition derive_authority_facts (candidates : list FoldCandidate) (outcomes : Outcomes) (registers : Registers)
    : option AuthorityFacts :=
  s ← fact_loop registers (effective_rows candidates outcomes) (mkFactState no_facts ∅ ∅);
  Some (set_roster_refs (project_registers registers <$> af_roster_refs (fs_facts s)) (fs_facts s)).

(** ** The pass over one account's entries *)

Record LegacyTrace : Type := mkLegacyTrace {
  lt_registers : Registers;
  lt_contributors : gset AccountEntryHash;
}.

(** The decoded candidate set: the candidates, the ancestry view, the outcomes decided by
    structure alone, and the hashes seen. *)
Record Collected : Type := mkCollected {
  cl_candidates : list FoldCandidate;
  cl_headers : HeaderView;
  cl_outcomes : Outcomes;
  cl_seen : gset AccountEntryHash;
}.

Section FoldAccount.
Context `{Minicbor} `{Sha256} `{Ed25519}.

Definition foldable (h : AccountEntryHeader) : bool :=
  bool_decide (ah_log_id h = CONTROL_LOG) && bool_decide (ah_op_version h = SUPPORTED_OP_VERSION) &&
  bool_decide (ah_crypto_suite h = 0).

Definition collect_step (s : Collected) (entry : VerifiedAccountEntry) : Collected :=
  let hash := va_entry_hash entry in
  if bool_decide (hash ∈ cl_seen s) then s
  else
    let seen := {[hash]} ∪ cl_seen s in
    let linked := <[hash := va_header entry]> (cl_headers s) in
    if negb (foldable (va_header entry))
    then mkCollected (cl_candidates s) linked (<[hash := OutRetainedUnfolded]> (cl_outcomes s)) seen
    else match ops_decode (ah_entry_type (va_header entry)) (va_payload entry) with
         | Err _ => mkCollected (cl_candidates s) (cl_headers s) (<[hash := OutRejected Malformed]> (cl_outcomes s)) seen
         | Ok (KnownOp op) =>
             mkCollected (cl_candidates s ++ [mkFoldCandidate entry op]) linked (cl_outcomes s) seen
         | Ok (UnknownOp _ _) =>
             mkCollected (cl_candidates s) linked (<[hash := OutRetainedUnfolded]> (cl_outcomes s)) seen
         end.

Definition collect (entries : list VerifiedAccountEntry) : Collected :=
  foldl collect_step (mkCollected [] ∅ ∅ ∅) entries.

Definition is_root (c : FoldCandidate) : bool :=
  match fc_op c with
  | AccountGenesis ed25519_pubkey _ _ _ _ =>
      let h := fc_header c in
      bool_decide (ah_seq h = 0) && bool_decide (ah_log_id h = CONTROL_LOG) &&
      bool_decide (ah_prev_hash h = None) && bool_decide (ah_parent_ref h = None) &&
      bool_decide (ah_authority_ref h = None) && bool_decide (ah_auth_len h = 0) &&
      bool_decide (account_id_from_genesis_payload (va_payload (fc_entry c)) = ah_account_id h) &&
      bool_decide (ah_device_fingerprint h = sha256 ed25519_pubkey)
  | _ => false
  end.

(** [min_by_key(|c| c.hash())]: the first of the candidates with the least hash. *)
Definition min_by_hash (acc : option FoldCandidate) (c : FoldCandidate) : option FoldCandidate :=
  match acc with
  | None => Some c
  | Some best => if bool_decide (clt (fc_hash c) (fc_hash best)) then Some c else Some best
  end.

Definition find_genesis (candidates : list FoldCandidate) : option FoldCandidate :=
  foldl min_by_hash None (List.filter is_root candidates).

(** The grouping loop: strata by author depth, with the memo of the incarnations. *)
Definition stratify_step (incs : Incarnations) (exclusions : Outcomes) (genesis_owner_id : AccountEntryHash)
    (founder : DeviceFingerprint) (acc : Strata * Outcomes * DepthMemo) (c : FoldCandidate)
    : Strata * Outcomes * DepthMemo :=
  let '(strata, outcomes, memo) := acc in
  match exclusions !! fc_hash c with
  | Some outcome => (strata, <[fc_hash c := outcome]> outcomes, memo)
  | None =>
      if bool_decide (ah_seq (fc_header c) = 0) && bool_decide (ah_device_fingerprint (fc_header c) = founder) &&
         bool_decide (fc_hash c ≠ genesis_owner_id)
      then (strata, <[fc_hash c := OutRejected NonGenesisOrigin]> outcomes, memo)
      else
        let '(depth, memo) := author_depth incs memo c in
        match depth with
        | Some d => (<[d := default [] (strata !! d) ++ [c]]> strata, outcomes, memo)
        | None => (strata, <[fc_hash c := OutParked UnknownOwnerRef]> outcomes, memo)
        end
  end.

Definition stratify (candidates : list FoldCandidate) (incs : Incarnations) (exclusions : Outcomes)
    (genesis_owner_id : AccountEntryHash) (founder : DeviceFingerprint) (outcomes : Outcomes) : Strata * Outcomes :=
  let '(strata, outcomes, _) :=
    foldl (stratify_step incs exclusions genesis_owner_id founder) (∅, outcomes, ∅) candidates in
  (strata, outcomes).

(** The overlay of the final register verdicts. *)
Definition overlay_step (verdicts : FoldVerdicts) (outcomes : Outcomes) (c : FoldCandidate) : Outcomes :=
  match vd_condemned verdicts !! fc_hash c with
  | Some reason => <[fc_hash c := OutCondemned reason]> outcomes
  | None =>
      match vd_parked verdicts !! fc_hash c with
      | Some reason => <[fc_hash c := OutParked reason]> outcomes
      | None => outcomes
      end
  end.

(** An admissible recovery re-root of a contested account. *)
Definition reroot_of (incs : Incarnations) (state : FoldState) (verdicts : FoldVerdicts) (c : FoldCandidate)
    : option (FoldCandidate * AccountId) :=
  match fc_op c with
  | AccountReRoot successor _ =>
      if bool_decide (vd_condemned verdicts !! fc_hash c = None) &&
         bool_decide (authority_status c incs state (vd_parked verdicts) = AuthLive) &&
         match author_incarnation_id c with
         | Some inc => bool_decide (st_owners state !! ah_device_fingerprint (fc_header c) = Some inc)
         | None => false
         end
      then Some (c, successor) else None
  | _ => None
  end.

Definition settle_contest (candidates : list FoldCandidate) (incs : Incarnations) (verdicts : FoldVerdicts)
    (state : FoldState) (outcomes : Outcomes) : Outcomes :=
  let reroots := sort_by_key (fun '(c, successor) => (successor, fc_hash c))
                   (omap (reroot_of incs state verdicts) candidates) in
  let '(_, outcomes) :=
    foldl (fun '(state, outcomes) '(c, _) =>
      let '(o, state) := take_epoch state in (state, <[fc_hash c := o]> outcomes)) (state, outcomes) reroots in
  foldl (fun outcomes c =>
    match outcomes !! fc_hash c with
    | Some _ => outcomes
    | None => <[fc_hash c := OutParked ParkedContestedSubject]> outcomes
    end) outcomes candidates.

Definition is_contested (c : AccountClassification) : bool :=
  match c with Contested _ => true | Live => false end.

(** [min_by_key] over the successors of the effective re-roots. *)
Definition min_successor (acc : option AccountId) (a : AccountId) : option AccountId :=
  match acc with
  | None => Some a
  | Some best => if bool_decide (clt a best) then Some a else Some best
  end.

Definition successor_of (candidates : list FoldCandidate) (outcomes : Outcomes) : option AccountId :=
  foldl min_successor None
    (omap (fun c => match fc_op c with AccountReRoot successor _ => Some successor | _ => None end)
       (effective_candidates candidates outcomes)).

(** The register contributors that turn out to be cited ahead, then the victims of cuts that hold. *)
Definition ahead_contributor (exclusions : Outcomes) (contributors : gset AccountEntryHash)
    (credits : gmap AccountEntryHash Z) (table : VouchTable) (effective_count : Z) (c : FoldCandidate) : bool :=
  bool_decide (exclusions !! fc_hash c = None) && bool_decide (fc_hash c ∈ contributors) &&
  cited_ahead table c effective_count (default 0 (credits !! fc_hash c)).

Definition ahead_victim (exclusions : Outcomes) (contributors : gset AccountEntryHash) (table : VouchTable)
    (effective_count : Z) (outcomes : Outcomes) (c : FoldCandidate) : bool :=
  bool_decide (exclusions !! fc_hash c = None) && bool_decide (fc_hash c ∉ contributors) &&
  match outcomes !! fc_hash c with
  | Some (OutCondemned _) | Some (OutParked ParkedContestedSubject) => true
  | _ => false
  end && cited_ahead table c effective_count 0.

(** Park the selected candidates as authored ahead. *)
Definition discover (select : FoldCandidate → bool) (candidates : list FoldCandidate) (discovered : Outcomes) : Outcomes :=
  foldl (fun m c => if select c then <[fc_hash c := OutParked AuthLenAhead]> m else m) discovered candidates.

Definition discover_ahead (candidates : list FoldCandidate) (exclusions : Outcomes)
    (contributors : gset AccountEntryHash) (credits : gmap AccountEntryHash Z) (effective_count : Z)
    (outcomes discovered : Outcomes) : Outcomes :=
  let table := vouch_table candidates credits outcomes in
  let discovered :=
    discover (ahead_contributor exclusions contributors credits table effective_count) candidates discovered in
  if existsb (fun h => bool_decide (is_Some (discovered !! h))) (elements contributors) then discovered
  else discover (ahead_victim exclusions contributors table effective_count outcomes) candidates discovered.

Definition compute_credits (candidates : list FoldCandidate) (strata : Strata) (outcomes : Outcomes)
    (contributors : gset AccountEntryHash) : gmap AccountEntryHash Z :=
  foldl (fun m c => <[fc_hash c := revocation_credit candidates strata outcomes c EveryScopedEntry]> m) ∅
    (List.filter (fun c => bool_decide (fc_hash c ∈ contributors)) candidates).

Record PassResult : Type := mkPassResult {
  pr_history : AccountAuthHistory;
  pr_discovered : Outcomes;
  pr_trace : option LegacyTrace;
}.

(** The pass without a root: everything foldable waits for it. *)
Definition rootless (candidates : list FoldCandidate) (outcomes : Outcomes) : PassResult :=
  mkPassResult
    (mkAccountAuthHistory
       (foldl (fun m c => <[fc_hash c := OutParked UnknownOwnerRef]> m) outcomes candidates)
       Live None 0 no_facts ∅ None)
    ∅ None.

Definition fold_account_pass (entries : list VerifiedAccountEntry) (exclusions : Outcomes) (capture : bool)
    : option PassResult :=
  let collected := collect entries in
  let candidates := cl_candidates collected in
  let view := cl_headers collected in
  match find_genesis candidates with
  | None => Some (rootless candidates (cl_outcomes collected))
  | Some genesis =>
      let genesis_owner_id := fc_hash genesis in
      let incs := incarnations_build candidates genesis_owner_id in
      let '(strata, outcomes) :=
        stratify candidates incs exclusions genesis_owner_id (subject_device genesis) (cl_outcomes collected) in
      let '(p, outcomes) :=
        fold_depths candidates incs view (btree_iter strata)
          (mkDepthPass (seeded genesis_owner_id) ∅ (mkFoldVerdicts ∅ ∅ ∅) ∅ Live) outcomes in
      let before := match dp_classification p with Live => None | Contested d => Some d end in
      let '(state, outcomes) := replay_effect_state strata incs before (dp_verdicts p) outcomes in
      let outcomes := foldl (overlay_step (dp_verdicts p)) outcomes candidates in
      let contested := is_contested (dp_classification p) in
      let outcomes := if contested then settle_contest candidates incs (dp_verdicts p) state outcomes else outcomes in
      let credits := compute_credits candidates strata outcomes (dp_register_contributors p) in
      '(outcomes, discovered) ← close_final_authority_dependencies candidates credits outcomes;
      let successor := if contested then successor_of candidates outcomes else None in
      let '(effective_count, outcomes) := normalize_auth_epochs outcomes in
      let discovered := discover_ahead candidates exclusions (dp_register_contributors p) credits effective_count
                          outcomes discovered in
      facts ← derive_authority_facts candidates outcomes (dp_registers p);
      Some (mkPassResult
              (mkAccountAuthHistory outcomes (dp_classification p) successor effective_count facts
                 (st_tombstoned state) (Some genesis_owner_id))
              discovered
              (if capture then Some (mkLegacyTrace (dp_registers p) (dp_register_contributors p)) else None))
  end.

(** The exclusions the pass discovered, added where no exclusion is held. *)
Definition add_exclusions (discovered exclusions : Outcomes) : Outcomes := exclusions ∪ discovered.

Fixpoint readiness_loop (fuel : nat) (entries : list VerifiedAccountEntry) (exclusions : Outcomes) (capture : bool)
    : option (AccountAuthHistory * option LegacyTrace) :=
  match fuel with
  | O => None
  | S fuel =>
      r ← fold_account_pass entries exclusions capture;
      if bool_decide (dom (pr_discovered r) ⊆ dom exclusions) then Some (pr_history r, pr_trace r)
      else readiness_loop fuel entries (add_exclusions (pr_discovered r) exclusions) capture
  end.

Definition fold_account_traced (entries : list VerifiedAccountEntry) (capture : bool)
    : option (AccountAuthHistory * option LegacyTrace) :=
  readiness_loop (S (length entries)) entries ∅ capture.

Definition fold_account (entries : list VerifiedAccountEntry) : option AccountAuthHistory :=
  fst <$> fold_account_traced entries false.
End FoldAccount.
