(* ===== verification/FoldCycle.v ===== *)
(** * The condemnation cycle search is exact ([account/fold.rs], [has_condemn_cycle])

    The iterative three-colour depth-first search of the fold, proved on an arbitrary adjacency
    list: with the fuel the fold gives it, it returns, and it reports a cycle exactly when the
    graph has one. *)

From S2P Require Import Prelude Cbor Minicbor Hash Op Device Entry Stream Branch Envelope Candidate AccountOps FoldTypes Fold.

Section Dfs.
Context (adj : list (list nat)).

Definition row (v : nat) : list nat := default [] (adj !! v).
Definition edge (v w : nat) : Prop := w ∈ row v.

(** Every target is a node. *)
Definition closed_graph : Prop := ∀ v w, edge v w → (w < length adj)%nat.

Definition colour_of (colour : list Colour) (v : nat) : Colour := default White (colour !! v).

(** ** The invariant

    The stack is a path of grey nodes; every edge already followed from a stacked node leads to
    a black node or to the node above it; black nodes lead to black nodes only, and are on no
    cycle. *)

Fixpoint path_up (above : option nat) (stack : list (nat * nat)) (colour : list Colour) : Prop :=
  match stack with
  | [] => True
  | (v, e) :: below =>
      (∀ i w, (i < e)%nat → row v !! i = Some w → colour_of colour w = Black ∨ above = Some w) ∧
      match above with Some w => edge v w | None => True end ∧
      path_up (Some v) below colour
  end.

Record dfs_inv (stack : list (nat * nat)) (colour : list Colour) : Prop := {
  inv_length : length colour = length adj;
  inv_grey v : colour_of colour v = Grey ↔ v ∈ stack.*1;
  inv_nodup : NoDup stack.*1;
  inv_path : path_up None stack colour;
  inv_black v w : colour_of colour v = Black → edge v w → colour_of colour w = Black;
  inv_acyclic v : colour_of colour v = Black → ¬ tc edge v v;
}.

Lemma colour_insert colour v w c :
  colour_of (<[v := c]> colour) w = if decide (v = w ∧ (v < length colour)%nat) then c else colour_of colour w.
Proof using Type.
  unfold colour_of. case_decide as Hd.
  - destruct Hd as [-> Hlt]. by rewrite list_lookup_insert_eq.
  - destruct (decide (v = w)) as [->|Hne].
    + rewrite list_insert_ge; [done|lia].
    + by rewrite list_lookup_insert_ne.
Qed.

Lemma colour_bound colour v c : colour_of colour v = c → c ≠ White → (v < length colour)%nat.
Proof using Type.
  unfold colour_of. intros Hc Hne. destruct (colour !! v) eqn:E; [by apply lookup_lt_Some in E|].
  by rewrite <- Hc in Hne.
Qed.

(** Recolouring that keeps black nodes black keeps the followed edges. *)
Lemma path_up_mono above stack colour colour' :
  (∀ v, colour_of colour v = Black → colour_of colour' v = Black) →
  path_up above stack colour → path_up above stack colour'.
Proof using Type.
  intros Hb. revert above. induction stack as [|[v e] stack IH]; intros above; [done|].
  intros (Hf & Ha & Hp). split_and!; [|done|by apply IH].
  intros i w Hi Hw. destruct (Hf i w Hi Hw); auto.
Qed.

(** The stack is a path from any stacked node to the top. *)
Lemma stack_path v e below colour u :
  path_up None ((v, e) :: below) colour → u ∈ ((v, e) :: below).*1 → rtc edge u v.
Proof using Type.
  intros (_ & _ & Hp). revert v e Hp.
  induction below as [|[w e'] below IH]; intros v e Hp Hu; simpl in *.
  - apply list_elem_of_singleton in Hu as ->. done.
  - apply elem_of_cons in Hu as [->|Hu]; [done|]. destruct Hp as (_ & Hwv & Hp).
    etrans; [by apply (IH w e')|]. by apply rtc_once.
Qed.

(** A node all of whose successors are black is on no cycle, unless it is black itself. *)
Lemma finished_acyclic colour v :
  (∀ a b, colour_of colour a = Black → edge a b → colour_of colour b = Black) →
  (∀ w, edge v w → colour_of colour w = Black) → colour_of colour v ≠ Black → ¬ tc edge v v.
Proof using Type.
  intros Hcl Hv Hne Hc.
  assert (∀ a b, tc edge a b → colour_of colour a = Black → colour_of colour b = Black) as Htc.
  { intros a b Hab. induction Hab; eauto. }
  assert (∀ b, tc edge v b → colour_of colour b = Black) as Hb.
  { intros b Hvb. inversion Hvb; subst; eauto. }
  by apply Hne, Hb.
Qed.

Lemma inv_push v e below colour next :
  closed_graph → dfs_inv ((v, e) :: below) colour → row v !! e = Some next → colour_of colour next = White →
  dfs_inv ((next, O) :: (v, S e) :: below) (<[next := Grey]> colour).
Proof using Type.
  intros Hcg Hinv Hnext Hw. pose proof (inv_path _ _ Hinv) as (Hf & _ & Hp).
  assert (edge v next) as He by (by eapply list_elem_of_lookup_2).
  assert ((next < length colour)%nat) as Hlt by (rewrite (inv_length _ _ Hinv); by eapply Hcg).
  assert (∀ w, colour_of (<[next := Grey]> colour) w = if decide (next = w) then Grey else colour_of colour w) as Hc.
  { intros w. rewrite colour_insert. destruct (decide (next = w)); case_decide; naive_solver. }
  assert (∀ w, colour_of colour w = Black → colour_of (<[next := Grey]> colour) w = Black) as Hmono.
  { intros w Hb. rewrite Hc. case_decide; [subst; congruence|done]. }
  assert (next ∉ ((v, e) :: below).*1) as Hni.
  { rewrite <- (inv_grey _ _ Hinv). congruence. }
  split.
  - rewrite length_insert. apply Hinv.
  - intros w. rewrite Hc. rewrite fmap_cons, elem_of_cons. simpl. case_decide as Hd; [subst; naive_solver|].
    rewrite (inv_grey _ _ Hinv). naive_solver.
  - rewrite fmap_cons. constructor; [done|]. apply Hinv.
  - cbn [path_up]. split_and!; [intros; lia|done| |done|eapply path_up_mono; [|done]; done].
    intros i w Hi Hiw. destruct (decide (i = e)) as [->|Hne]; [right; congruence|].
    destruct (Hf i w) as [Hb|?]; [lia|done| |done]. left. by apply Hmono.
  - intros a b. rewrite !Hc. repeat case_decide; subst; try done.
    + intros Hb Hab. pose proof (inv_black _ _ Hinv a b Hb Hab). congruence.
    + apply (inv_black _ _ Hinv).
  - intros a. rewrite Hc. case_decide; [done|]. apply (inv_acyclic _ _ Hinv).
Qed.

Lemma inv_skip v e below colour next :
  dfs_inv ((v, e) :: below) colour → row v !! e = Some next → colour_of colour next = Black →
  dfs_inv ((v, S e) :: below) colour.
Proof using Type.
  intros Hinv Hnext Hb. pose proof (inv_path _ _ Hinv) as (Hf & _ & Hp). split; try apply Hinv.
  cbn [path_up]. split_and!; [|done|done]. intros i w Hi Hiw.
  destruct (decide (i = e)) as [->|Hne]; [left; congruence|]. apply (Hf i); [lia|done].
Qed.

Lemma inv_pop v e below colour :
  dfs_inv ((v, e) :: below) colour → row v !! e = None → dfs_inv below (<[v := Black]> colour).
Proof using Type.
  intros Hinv Hend. pose proof (inv_path _ _ Hinv) as (Hf & _ & Hp).
  assert (colour_of colour v = Grey) as Hv by (rewrite (inv_grey _ _ Hinv); by left).
  assert ((v < length colour)%nat) as Hlt by (by eapply colour_bound).
  assert (∀ w, colour_of (<[v := Black]> colour) w = if decide (v = w) then Black else colour_of colour w) as Hc.
  { intros w. rewrite colour_insert. destruct (decide (v = w)); case_decide; naive_solver. }
  assert (∀ w, edge v w → colour_of colour w = Black) as Hall.
  { intros w [i Hi]%list_elem_of_lookup_1. destruct (Hf i w) as [?|?]; try done.
    apply lookup_ge_None in Hend. apply lookup_lt_Some in Hi. lia. }
  pose proof (inv_nodup _ _ Hinv) as Hnd. rewrite fmap_cons in Hnd. apply NoDup_cons in Hnd as [Hni Hnd].
  split.
  - rewrite length_insert. apply Hinv.
  - intros w. rewrite Hc. case_decide as Hd.
    + subst. simpl in Hni. naive_solver.
    + rewrite (inv_grey _ _ Hinv), fmap_cons, elem_of_cons. simpl. naive_solver.
  - done.
  - assert (path_up (Some v) below (<[v := Black]> colour)) as Hp'.
    { eapply path_up_mono; [|exact Hp]. intros w Hb. rewrite Hc. by case_decide. }
    destruct below as [|[w e'] below]; [done|]. destruct Hp' as (Hf' & _ & Hp').
    split_and!; [|done|done]. intros i u Hi Hu. left. destruct (Hf' i u Hi Hu) as [?|[= ->]]; [done|].
    rewrite Hc. by rewrite decide_True.
  - intros a b. rewrite !Hc. repeat case_decide; subst; try done.
    + intros _. apply Hall.
    + apply (inv_black _ _ Hinv).
  - intros a. rewrite Hc. case_decide as Hd.
    + intros _. subst. eapply finished_acyclic; [apply (inv_black _ _ Hinv)|exact Hall|congruence].
    + apply (inv_acyclic _ _ Hinv).
Qed.

(** ** The measure *)

(** What is left to do for the white nodes, and for the stacked ones. *)
Definition white_work (colour : list Colour) : nat :=
  sum_list ((fun v => match colour_of colour v with White => S (length (row v)) | _ => O end) <$> seq 0 (length adj)).
Definition stack_work (stack : list (nat * nat)) : nat :=
  sum_list ((fun '(v, e) => S (length (row v) - e)) <$> stack).

Lemma sum_list_change (f g : nat → nat) (k : nat) (l : list nat) :
  NoDup l → k ∈ l → (∀ v, v ∈ l → v ≠ k → g v = f v) →
  (sum_list (g <$> l) + f k = sum_list (f <$> l) + g k)%nat.
Proof using Type.
  intros Hnd. induction Hnd as [|x l Hx Hnd IH]; intros Hk Hfg; [by apply not_elem_of_nil in Hk|].
  rewrite !fmap_cons. simpl. apply elem_of_cons in Hk as [->|Hk].
  - assert (g <$> l = f <$> l) as ->; [|lia]. apply list_fmap_ext. intros i y Hy%list_elem_of_lookup_2.
    apply Hfg; [by right|]. intros ->. done.
  - rewrite (Hfg x); [|by left|by intros ->].
    specialize (IH Hk ltac:(intros v Hv; apply Hfg; by right)). lia.
Qed.

Lemma white_work_push colour next :
  length colour = length adj → (next < length adj)%nat → colour_of colour next = White →
  (white_work (<[next := Grey]> colour) + S (length (row next)) = white_work colour)%nat.
Proof using Type.
  intros Hl Hlt Hw. unfold white_work.
  pose proof (sum_list_change
    (fun v => match colour_of colour v with White => S (length (row v)) | _ => O end)
    (fun v => match colour_of (<[next := Grey]> colour) v with White => S (length (row v)) | _ => O end)
    next (seq 0 (length adj))) as H.
  cbv beta in H. rewrite Hw in H. rewrite (colour_insert colour next next) in H.
  rewrite decide_True in H by (split; [done|lia]). rewrite Nat.add_0_r in H. apply H.
  - apply NoDup_seq.
  - apply elem_of_seq. lia.
  - intros v _ Hne. rewrite colour_insert, decide_False; [done|naive_solver].
Qed.

Lemma white_work_black colour v :
  colour_of colour v = Grey → white_work (<[v := Black]> colour) = white_work colour.
Proof using Type.
  intros Hv. unfold white_work. f_equal. apply list_fmap_ext. intros i w _.
  rewrite colour_insert. case_decide as Hd; [|done]. destruct Hd as [-> _]. by rewrite Hv.
Qed.

Lemma white_work_bound colour :
  Forall (fun r => (length r ≤ length adj)%nat) adj → (white_work colour ≤ length adj * length adj + length adj)%nat.
Proof using Type.
  intros Hr. unfold white_work.
  assert (∀ l : list nat, (sum_list ((fun v => match colour_of colour v with White => S (length (row v)) | _ => O end) <$> l)
    ≤ length l * S (length adj))%nat) as H.
  { induction l as [|v l IH]; [done|]. rewrite fmap_cons. simpl.
    assert (length (row v) ≤ length adj)%nat.
    { unfold row. destruct (adj !! v) as [r|] eqn:E; simpl; [|lia]. rewrite Forall_lookup in Hr. by eapply Hr. }
    destruct (colour_of colour v); lia. }
  specialize (H (seq 0 (length adj))). rewrite length_seq in H. lia.
Qed.

(** ** The loops *)

Definition has_cycle : Prop := ∃ v, tc edge v v.

Lemma dfs_loop_spec fuel stack colour :
  closed_graph → dfs_inv stack colour → (white_work colour + stack_work stack < fuel)%nat →
  ∃ r, dfs_loop fuel adj stack colour = Some r ∧
       match r with
       | None => has_cycle
       | Some colour' => dfs_inv [] colour' ∧ (∀ v, colour_of colour v ≠ White → colour_of colour' v ≠ White)
       end.
Proof using Type.
  intros Hcg. revert stack colour. induction fuel as [|fuel IH]; intros stack colour Hinv Hm; [lia|].
  destruct stack as [|[v e] below]; cbn [dfs_loop]; [by exists (Some colour)|].
  fold (row v). destruct (row v !! e) as [next|] eqn:Hn.
  - pose proof (lookup_lt_Some _ _ _ Hn) as Hlt.
    change (stack_work ((v, e) :: below)) with (S (length (row v) - e) + stack_work below)%nat in Hm.
    fold (colour_of colour next). destruct (colour_of colour next) eqn:Hc.
    + assert (edge v next) as He by (by eapply list_elem_of_lookup_2).
      pose proof (white_work_push colour next (inv_length _ _ Hinv) (Hcg _ _ He) Hc) as Hww.
      destruct (IH ((next, O) :: (v, S e) :: below) (<[next := Grey]> colour)) as (r & Hr & Hs).
      * by eapply inv_push.
      * change (stack_work ((next, O) :: (v, S e) :: below))
          with (S (length (row next) - 0) + (S (length (row v) - S e) + stack_work below))%nat. lia.
      * exists r. split; [done|]. destruct r; [|done]. destruct Hs as [? Hw]. split; [done|].
        intros w Hcw. apply Hw. rewrite colour_insert. by case_decide.
    + exists None. split; [done|]. pose proof (inv_grey _ _ Hinv next) as Hg.
      apply Hg in Hc. exists next. eapply tc_rtc_l; [|apply tc_once; by eapply list_elem_of_lookup_2].
      eapply stack_path; [apply Hinv|done].
    + apply IH; [by eapply inv_skip|].
      change (stack_work ((v, S e) :: below)) with (S (length (row v) - S e) + stack_work below)%nat. lia.
  - change (stack_work ((v, e) :: below)) with (S (length (row v) - e) + stack_work below)%nat in Hm.
    assert (colour_of colour v = Grey) as Hg by (rewrite (inv_grey _ _ Hinv); by left).
    destruct (IH below (<[v := Black]> colour)) as (r & Hr & Hs).
    + by eapply inv_pop.
    + rewrite white_work_black by done. lia.
    + exists r. split; [done|]. destruct r; [|done]. destruct Hs as [? Hw]. split; [done|].
      intros w Hcw. apply Hw. rewrite colour_insert. by case_decide.
Qed.

Lemma dfs_starts_spec fuel starts colour :
  closed_graph → Forall (fun r => (length r ≤ length adj)%nat) adj →
  (length adj * length adj + length adj < fuel)%nat →
  Forall (fun v => (v < length adj)%nat) starts → dfs_inv [] colour →
  ∃ b, dfs_starts fuel adj starts colour = Some b ∧
       if (b : bool) then has_cycle
       else ∃ colour', dfs_inv [] colour' ∧ (∀ v, colour_of colour v ≠ White → colour_of colour' v ≠ White) ∧
                       Forall (fun v => colour_of colour' v ≠ White) starts.
Proof using Type.
  intros Hcg Hr Hfuel Hst. revert colour. induction Hst as [|start starts Hlt Hst IH]; intros colour Hinv; cbn [dfs_starts].
  { exists false. split; [done|]. by exists colour. }
  fold (colour_of colour start).
  assert (colour_of colour start ≠ White → ∃ b, dfs_starts fuel adj starts colour = Some b ∧
       if (b : bool) then has_cycle
       else ∃ colour', dfs_inv [] colour' ∧ (∀ v, colour_of colour v ≠ White → colour_of colour' v ≠ White) ∧
                       Forall (fun v => colour_of colour' v ≠ White) (start :: starts)) as Hskip.
  { intros Hne. destruct (IH colour Hinv) as (b & Hb & Hs). exists b. split; [done|]. destruct b; [done|].
    destruct Hs as (colour' & ? & Hm & ?). exists colour'. auto. }
  destruct (colour_of colour start) eqn:Hc; [|by apply Hskip..].
  pose proof (white_work_push colour start (inv_length _ _ Hinv) Hlt Hc) as Hww.
  pose proof (white_work_bound colour Hr) as Hbound.
  assert (dfs_inv [(start, O)] (<[start := Grey]> colour)) as Hinv'.
  { assert (∀ w, colour_of (<[start := Grey]> colour) w = if decide (start = w) then Grey else colour_of colour w) as Hcw.
    { intros w. rewrite colour_insert, (inv_length _ _ Hinv). destruct (decide (start = w)); case_decide; naive_solver. }
    assert (∀ w, colour_of colour w ≠ Grey) as Hng.
    { intros w Hw. apply (inv_grey _ _ Hinv) in Hw. by apply not_elem_of_nil in Hw. }
    split.
    - rewrite length_insert. apply Hinv.
    - intros v. rewrite Hcw. simpl. rewrite list_elem_of_singleton. case_decide; naive_solver.
    - apply NoDup_singleton.
    - cbn [path_up]. split_and!; [intros; lia|done|done].
    - intros a b. rewrite !Hcw. repeat case_decide; subst; try done.
      + intros Hb Hab. pose proof (inv_black _ _ Hinv a b Hb Hab). congruence.
      + apply (inv_black _ _ Hinv).
    - intros a. rewrite Hcw. case_decide; [done|]. apply (inv_acyclic _ _ Hinv). }
  destruct (dfs_loop_spec fuel [(start, O)] (<[start := Grey]> colour) Hcg Hinv') as (r & Hrun & Hs).
  { change (stack_work [(start, O)]) with (S (length (row start) - 0) + 0)%nat. lia. }
  rewrite Hrun. simpl. destruct r as [colour1|]; [|by exists true]. destruct Hs as [Hinv1 Hm1].
  destruct (IH colour1 Hinv1) as (b & Hb & Hs). exists b. split; [done|]. destruct b; [done|].
  destruct Hs as (colour' & ? & Hm & ?).
  assert (∀ v, colour_of colour v ≠ White → colour_of colour1 v ≠ White) as Hm01.
  { intros v Hv. apply Hm1. rewrite colour_insert. by case_decide. }
  exists colour'. split_and!; [done|auto|]. constructor; [|done]. apply Hm, Hm1.
  rewrite colour_insert, decide_True; [done|]. rewrite (inv_length _ _ Hinv). done.
Qed.

End Dfs.

(** ** Applied to the admitted cuts *)

(** The cut at [i] condemns the operation of the cut at [j]. *)
Definition condemn_edge (admitted : list AdmittedCut) (view : HeaderView) (i j : nat) : Prop :=
  i ≠ j ∧ ∃ x y, admitted !! i = Some x ∧ admitted !! j = Some y ∧ condemns view x y = true.

Section CondemnGraph.
Context (admitted : list AdmittedCut) (view : HeaderView).

Abbreviation adjacency := (condemn_adjacency admitted view).

Lemma adjacency_length : length adjacency = length admitted.
Proof using Type. unfold condemn_adjacency. by rewrite length_fmap, length_seq. Qed.

Lemma adjacency_edge i j : edge adjacency i j ↔ condemn_edge admitted view i j.
Proof using Type.
  unfold edge, row, condemn_adjacency, condemn_edge. rewrite list_lookup_fmap.
  destruct (decide (i < length admitted)%nat) as [Hi|Hi].
  - rewrite lookup_seq_lt by done. simpl.
    rewrite list_elem_of_In, filter_In, <- list_elem_of_In, elem_of_seq, andb_true_iff, negb_true_iff.
    rewrite Nat.eqb_neq. destruct (lookup_lt_is_Some_2 admitted i Hi) as [x Hx]. rewrite Hx. split.
    + intros (_ & ? & Hc). destruct (admitted !! j) as [y|] eqn:Hy; [|done]. eauto 10.
    + intros (? & x' & y & [= <-] & Hy & Hc). rewrite Hy. apply lookup_lt_Some in Hy. split_and!; try lia; done.
  - rewrite lookup_seq_ge by lia. simpl. split; [by intros ?%not_elem_of_nil|].
    intros (_ & x & y & Hx & _). apply lookup_lt_Some in Hx. lia.
Qed.
End CondemnGraph.

(** C37.  The compromise detector is exact: the search returns for every set of admitted cuts,
    and reports a contest exactly when there is a cycle of cuts each of which condemns the next
    one's operation (beyond its cut, or off the branch it fixes). *)
Theorem condemn_cycle_exact (admitted : list AdmittedCut) (view : HeaderView) :
  has_condemn_cycle admitted view = true ↔ ∃ i, tc (condemn_edge admitted view) i i.
Proof.
  set (adj := condemn_adjacency admitted view). pose proof (adjacency_length admitted view) as Hlen.
  assert (∀ i j, edge adj i j ↔ condemn_edge admitted view i j) as He by apply adjacency_edge.
  assert (has_cycle adj ↔ ∃ i, tc (condemn_edge admitted view) i i) as <-.
  { split; intros [i Hi]; exists i; (eapply (tc_congruence id); [|exact Hi]); intros; by apply He. }
  assert (closed_graph adj) as Hcg.
  { intros v w (_ & x & y & _ & Hy & _)%He. apply lookup_lt_Some in Hy. unfold adj. lia. }
  assert (Forall (fun r => (length r ≤ length adj)%nat) adj) as Hrows.
  { apply Forall_lookup. intros i r Hr. unfold adj in *. rewrite Hlen. unfold condemn_adjacency in Hr.
    rewrite list_lookup_fmap in Hr. destruct (seq _ _ !! i); simplify_eq/=.
    etrans; [apply filter_length_le|]. by rewrite length_seq. }
  assert (dfs_inv adj [] (replicate (length admitted) White)) as Hinv.
  { assert (∀ v, colour_of (replicate (length admitted) White) v = White) as Hw.
    { intros v. unfold colour_of. destruct (replicate _ _ !! v) as [c|] eqn:E; [|done].
      by apply lookup_replicate in E as [-> _]. }
    split; try (intros v; rewrite Hw; done).
    - by rewrite length_replicate.
    - intros v. rewrite Hw. split; [done|]. by intros ?%not_elem_of_nil.
    - constructor.
    - done. }
  destruct (dfs_starts_spec adj (dfs_fuel (length admitted)) (seq 0 (length admitted))
    (replicate (length admitted) White) Hcg Hrows) as (b & Hb & Hs).
  - unfold adj, dfs_fuel. rewrite Hlen. lia.
  - apply Forall_forall. intros v Hv%elem_of_seq. unfold adj. lia.
  - done.
  - unfold has_condemn_cycle. fold adj. rewrite Hb. simpl. destruct b; [done|]. split; [done|].
    intros [v Hv]. exfalso. destruct Hs as (colour & Hinv' & _ & Hall).
    assert (v ∈ seq 0 (length admitted)) as Hin.
    { apply elem_of_seq. assert (∃ w, edge adj v w) as [w Hw] by (inversion Hv; eauto).
      apply He in Hw as (_ & x & y & Hx & _). apply lookup_lt_Some in Hx. lia. }
    rewrite Forall_forall in Hall. specialize (Hall v Hin).
    destruct (colour_of colour v) eqn:Hc; [done| |by eapply (inv_acyclic _ _ _ Hinv')].
    apply (inv_grey _ _ _ Hinv') in Hc. by apply not_elem_of_nil in Hc.
Qed.
