(* ===== verification/FoldDepth.v ===== *)
(** * The memoized citation depth is exact ([account/fold.rs], [Incarnations::incarnation_depth])

    The depth of an owner incarnation is the length of its chain of citations down to the
    genesis; the iterative walk with its memo computes it, returns on every candidate set (also
    a cyclic one), and keeps the memo correct. *)

From S2P Require Import Prelude Cbor Minicbor Hash Op Device Entry Stream Branch Envelope Candidate AccountOps FoldTypes Fold.

(** [inc_depth incs o n]: the incarnation [o] is [n] citations from the genesis. *)
Inductive inc_depth (incs : Incarnations) : OwnerId → nat → Prop :=
| depth_genesis mint :
    inc_candidate incs (inc_genesis_owner_id incs) = Some mint → inc_depth incs (inc_genesis_owner_id incs) O
| depth_cites owner mint parent n :
    owner ≠ inc_genesis_owner_id incs → inc_candidate incs owner = Some mint →
    ah_authority_ref (fc_header mint) = Some parent → inc_depth incs parent n →
    inc_depth incs owner (S n).

Section Depth.
Context (incs : Incarnations).

Definition cites (o p : OwnerId) : Prop :=
  o ≠ inc_genesis_owner_id incs ∧
  ∃ mint, inc_candidate incs o = Some mint ∧ ah_authority_ref (fc_header mint) = Some p.

Lemma inc_depth_cites o p n : cites o p → inc_depth incs o n ↔ ∃ m, n = S m ∧ inc_depth incs p m.
Proof using Type.
  intros [Hne (mint & Hm & Hp)]. split.
  - intros Hd. inversion Hd; subst; [done|]. simplify_eq. eauto.
  - intros (m & -> & Hd). by eapply depth_cites.
Qed.

Lemma inc_depth_det o n m : inc_depth incs o n → inc_depth incs o m → n = m.
Proof using Type.
  intros Hn. revert m. induction Hn as [mint Hg|o mint p n Hne Hm Hp _ IH]; intros m Hm'.
  - inversion Hm'; subst; done.
  - inversion Hm'; subst; [done|]. simplify_eq. f_equal. auto.
Qed.

(** A depth that agrees with the specification. *)
Definition depth_ok (o : OwnerId) (d : option nat) : Prop := ∀ n, d = Some n ↔ inc_depth incs o n.
Definition memo_ok (memo : DepthMemo) : Prop := ∀ o d, memo !! o = Some d → depth_ok o d.

Lemma depth_ok_cites o p d : cites o p → depth_ok p d → depth_ok o (S <$> d).
Proof using Type.
  intros Hc Hd n. rewrite (inc_depth_cites o p n Hc). destruct d as [x|]; simpl; split.
  - intros [= <-]. exists x. split; [done|]. by apply Hd.
  - intros (m & -> & Hm). apply Hd in Hm. congruence.
  - done.
  - intros (m & _ & Hm). by apply Hd in Hm.
Qed.

(** A path of citations, last link first, that ends at a node. *)
Fixpoint linked (rchain : list OwnerId) (node : OwnerId) : Prop :=
  match rchain with [] => True | c :: r => cites c node ∧ linked r c end.

(** A node on the path to itself has no depth. *)
Lemma linked_depth rchain node o n :
  linked rchain node → o ∈ rchain → inc_depth incs o n → ∃ m, (m < n)%nat ∧ inc_depth incs node m.
Proof using Type.
  revert node n. induction rchain as [|c r IH]; intros node n; [by intros _ ?%not_elem_of_nil|].
  intros [Hc Hl] [->|Ho]%elem_of_cons Hd.
  - apply (inc_depth_cites c node n Hc) in Hd as (m & -> & Hm). exists m. split; [lia|done].
  - destruct (IH c n Hl Ho Hd) as (m & Hm & Hdc).
    apply (inc_depth_cites c node m Hc) in Hdc as (k & -> & Hk). exists k. split; [lia|done].
Qed.

Lemma cycle_no_depth rchain node : linked rchain node → node ∈ rchain → depth_ok node None.
Proof using Type.
  intros Hl Hin n. split; [done|]. intros Hd.
  destruct (linked_depth rchain node node n Hl Hin Hd) as (m & Hm & Hd').
  pose proof (inc_depth_det node n m Hd Hd'). lia.
Qed.

(** ** Assigning depths back up the path *)

Lemma assign_ok (rchain : list OwnerId) (node : OwnerId) (base : option nat) (memo : DepthMemo) :
  linked rchain node → depth_ok node base →
  (∀ o d, o ∉ rchain → memo !! o = Some d → depth_ok o d) →
  let memo' := assign_depths (rev rchain) base memo in
  memo_ok memo' ∧ (∀ o, o ∈ rchain ∨ is_Some (memo !! o) → is_Some (memo' !! o)).
Proof using Type.
  unfold assign_depths. rewrite rev_involutive.
  revert node base memo. induction rchain as [|c r IH]; intros node base memo Hl Hb Hm; simpl.
  - split; [|by intros o [?%not_elem_of_nil|?]]. intros o d Ho. apply (Hm o d); [apply not_elem_of_nil|done].
  - destruct Hl as [Hc Hl]. destruct (IH c (S <$> base) (<[c := S <$> base]> memo) Hl) as [Hok Hsome].
    + by eapply depth_ok_cites.
    + intros o d Ho. destruct (decide (o = c)) as [->|Hne].
      * rewrite lookup_insert_eq. intros [= <-]. by eapply depth_ok_cites.
      * rewrite lookup_insert_ne by done. apply Hm. rewrite elem_of_cons. naive_solver.
    + split; [exact Hok|]. intros o Ho. apply Hsome.
      destruct (decide (o = c)) as [->|Hne]; [right; rewrite lookup_insert_eq; by eexists|].
      rewrite lookup_insert_ne by done. rewrite elem_of_cons in Ho. naive_solver.
Qed.

(** ** The walk *)

(** The mints not yet visited. *)
Definition unvisited (memo : DepthMemo) : nat := size (dom (inc_mints incs) ∖ dom memo).

Lemma unvisited_insert (memo : DepthMemo) node d :
  memo !! node = None → is_Some (inc_candidate incs node) →
  (unvisited (<[node := d]> memo) < unvisited memo)%nat.
Proof using Type.
  intros Hn Hm. unfold unvisited. apply subset_size. rewrite dom_insert. split.
  - set_solver.
  - intros Hsub. assert (node ∈ dom (inc_mints incs) ∖ dom memo) as Hin.
    { apply elem_of_difference. rewrite not_elem_of_dom. split; [|done]. by apply elem_of_dom. }
    apply Hsub in Hin. set_solver.
Qed.

(** The memo during the walk: the path is marked, the rest is the memo it started from. *)
Definition walking (memo0 memo : DepthMemo) (rchain : list OwnerId) : Prop :=
  ∀ o, memo !! o = if decide (o ∈ rchain) then Some None else memo0 !! o.

Lemma depth_walk_spec fuel memo0 memo rchain node :
  memo_ok memo0 → walking memo0 memo rchain → linked rchain node → (unvisited memo < fuel)%nat →
  ∃ memo' rchain' node' base extra,
    depth_walk fuel incs memo (rev rchain) node = Some (memo', rev rchain', node', base) ∧
    rchain' = extra ++ rchain ∧ linked rchain' node' ∧ depth_ok node' base ∧
    (∀ o d, o ∉ rchain' → o ≠ node' → memo' !! o = Some d → depth_ok o d) ∧
    (node = node' ∨ node ∈ rchain') ∧ (∀ o, is_Some (memo !! o) → is_Some (memo' !! o)).
Proof using Type.
  intros Hok0. revert memo rchain node. induction fuel as [|fuel IH]; intros memo rchain node Hw Hl Hf; [lia|].
  assert (∀ o d, o ∉ rchain → memo !! o = Some d → depth_ok o d) as Hrest.
  { intros o d Ho. rewrite (Hw o), decide_False by done. apply Hok0. }
  cbn [depth_walk]. destruct (memo !! node) as [cached|] eqn:Hn.
  { exists memo, rchain, node, cached, []. split_and!; try done; [|naive_solver|by left].
    rewrite (Hw node) in Hn. case_decide; [|by apply Hok0]. simplify_eq. by eapply cycle_no_depth. }
  assert (∀ o d, o ∉ rchain → o ≠ node → <[node := None]> memo !! o = Some d → depth_ok o d) as Hrest'.
  { intros o d Ho Hne. rewrite lookup_insert_ne by done. by apply Hrest. }
  assert (∀ o, is_Some (memo !! o) → is_Some (<[node := @None nat]> memo !! o)) as Hkeep.
  { intros o Ho. destruct (decide (o = node)) as [->|]; [rewrite lookup_insert_eq|rewrite lookup_insert_ne by done]; by eauto. }
  destruct (inc_candidate incs node) as [mint|] eqn:Hm.
  2: { exists (<[node := None]> memo), rchain, node, None, []. split_and!; try done; [|by left].
       intros n. split; [done|]. intros Hd. inversion Hd; subst; congruence. }
  case_bool_decide as Hg.
  { exists (<[node := None]> memo), rchain, node, (Some O), []. split_and!; try done; [|by left].
    intros n. split; [intros [= <-]; subst; by eapply depth_genesis|]. intros Hd. inversion Hd; subst; done. }
  destruct (ah_authority_ref (fc_header mint)) as [parent|] eqn:Ha.
  2: { exists (<[node := None]> memo), rchain, node, None, []. split_and!; try done; [|by left].
       intros n. split; [done|]. intros Hd. inversion Hd; subst; [done|congruence]. }
  destruct (IH (<[node := None]> memo) (node :: rchain) parent) as
    (memo' & rchain' & node' & base & extra & Hrun & -> & Hl' & Hb & Hr & Hstart & Hk).
  - intros o. destruct (decide (o = node)) as [->|Hne].
    + rewrite lookup_insert_eq, decide_True by (by left). done.
    + rewrite lookup_insert_ne, (Hw o) by done.
      destruct (decide (o ∈ rchain)); [rewrite decide_True by (by right)|rewrite decide_False by set_solver]; done.
  - split; [|done]. split; [done|]. eauto.
  - pose proof (unvisited_insert memo node None Hn ltac:(by rewrite Hm)). lia.
  - exists memo', (extra ++ node :: rchain), node', base, (extra ++ [node]).
    split_and!; [|by rewrite <- app_assoc|done|done|done|right; set_solver|eauto].
    rewrite <- Hrun. simpl. done.
Qed.

(** The memoized depth is the depth, and the memo stays correct. *)
Lemma incarnation_depth_spec (memo : DepthMemo) o :
  memo_ok memo →
  depth_ok o (incarnation_depth incs memo o).1 ∧ memo_ok (incarnation_depth incs memo o).2.
Proof using Type.
  intros Hok. unfold incarnation_depth. destruct (memo !! o) as [cached|] eqn:Hc.
  { split; [by apply Hok|done]. }
  destruct (depth_walk_spec (S (S (size (inc_mints incs)))) memo memo [] o Hok) as
    (memo' & rchain & node & base & extra & Hrun & _ & Hl & Hb & Hr & Hstart & Hk).
  { intros p. by rewrite decide_False by apply not_elem_of_nil. }
  { done. }
  { unfold unvisited. pose proof (subseteq_size (dom (inc_mints incs) ∖ dom memo) (dom (inc_mints incs)) ltac:(set_solver)) as Hs.
    rewrite size_dom in Hs. lia. }
  simpl rev in Hrun. rewrite Hrun.
  destruct (assign_ok rchain node base (<[node := base]> memo') Hl Hb) as [Hok' Hsome].
  { intros p d Hp. destruct (decide (p = node)) as [->|Hne].
    - rewrite lookup_insert_eq. by intros [= <-].
    - rewrite lookup_insert_ne by done. by apply Hr. }
  split; [|exact Hok']. destruct (Hsome o) as [d Hd].
  { destruct Hstart as [->|?]; [right; rewrite lookup_insert_eq; by eexists|by left]. }
  simpl. rewrite Hd. simpl. by apply (Hok' o).
Qed.

(** The author depth of a candidate: the depth of the incarnation it acts under. *)
Definition author_depth_is (c : FoldCandidate) (d : option nat) : Prop :=
  match author_incarnation_id c with Some inc => depth_ok inc d | None => d = None end.

Lemma author_depth_spec (memo : DepthMemo) c :
  memo_ok memo → author_depth_is c (author_depth incs memo c).1 ∧ memo_ok (author_depth incs memo c).2.
Proof using Type.
  intros Hok. unfold author_depth, author_depth_is. destruct (author_incarnation_id c); [|done].
  by apply incarnation_depth_spec.
Qed.

Lemma author_depth_unique c d d' : author_depth_is c d → author_depth_is c d' → d = d'.
Proof using Type.
  unfold author_depth_is. destruct (author_incarnation_id c) as [inc|]; [|congruence].
  intros Hd Hd'. destruct d as [n|], d' as [n'|]; [|..|done].
  - f_equal. eapply inc_depth_det; [by apply Hd|by apply Hd'].
  - by pose proof (proj2 (Hd' n) (proj1 (Hd n) eq_refl)).
  - by pose proof (proj2 (Hd n') (proj1 (Hd' n') eq_refl)).
Qed.
End Depth.

Lemma memo_ok_empty incs : memo_ok incs ∅.
Proof. intros o d Ho. by rewrite lookup_empty in Ho. Qed.

(** Citation depth: on every candidate set, the iterative walk returns the number of
    citations between an incarnation and the genesis, or nothing when the chain does not reach
    it (a citation outside the account, a missing mint, a cycle), and leaves a memo that answers
    every later query the same way. *)
Theorem incarnation_depth_exact (incs : Incarnations) (memo : DepthMemo) (o : OwnerId) (n : nat) :
  memo_ok incs memo →
  ((incarnation_depth incs memo o).1 = Some n ↔ inc_depth incs o n) ∧ memo_ok incs (incarnation_depth incs memo o).2.
Proof. intros Hok. by destruct (incarnation_depth_spec incs memo o Hok) as [Hd ?]. Qed.

(** A chain of two mints below a genesis, and a mint that cites itself. *)
Definition wit_mint (hash : bytes) (cited : option bytes) : FoldCandidate :=
  mkFoldCandidate
    (mkVerifiedAccountEntry (mkAccountEntryHeader [x01] CONTROL_LOG [x02] 0 None None 2 1 0 0 None cited) [] hash)
    (OwnerPromote [x02]).
Definition wit_incs : Incarnations :=
  mkIncarnations
    (foldl (fun m c => <[fc_hash c := c]> m) ∅
       [wit_mint [x0a] None; wit_mint [x0b] (Some [x0a]); wit_mint [x0c] (Some [x0b]); wit_mint [x0d] (Some [x0d])])
    [x0a].

Lemma incarnation_depth_exact_witness :
  ((incarnation_depth wit_incs ∅ [x0c]).1 = Some 2%nat ∧ inc_depth wit_incs [x0c] 2%nat) ∧
  ((incarnation_depth wit_incs ∅ [x0d]).1 = None ∧ ¬ inc_depth wit_incs [x0d] 0%nat).
Proof.
  split; (split; [vm_compute; reflexivity|]).
  - apply (incarnation_depth_exact wit_incs ∅ [x0c] 2%nat (memo_ok_empty wit_incs)). vm_compute. reflexivity.
  - intros Hd. apply (incarnation_depth_exact wit_incs ∅ [x0d] 0%nat (memo_ok_empty wit_incs)) in Hd.
    vm_compute in Hd. discriminate Hd.
Defined.
