(* ===== verification/FoldTotal.v ===== *)
(** * The control fold returns ([account/fold.rs])

    Every loop of the fold ends on every input: each sweep of the dependency closure that changes
    something, and each round that parks something, removes an effective entry; each readiness
    pass that is not the last excludes an entry that was not excluded before.  No [expect] of the
    fact derivation fails. *)

From S2P Require Import Prelude Cbor Minicbor Hash Op Device Entry Stream Branch Envelope Candidate AccountOps FoldTypes Fold.

Local Open Scope Z_scope.

(** ** Fact derivation does not panic *)

(** Open enrollments and incarnations have their facts, and an owner is enrolled. *)
Record fact_inv (s : FactState) : Prop := {
  fi_roster d r : fs_roster s !! d = Some r → is_Some (af_roster_refs (fs_facts s) !! r);
  fi_owners d o : fs_owners s !! d = Some o → is_Some (af_owner_incarnations (fs_facts s) !! o);
  fi_enrolled d : is_Some (fs_owners s !! d) → is_Some (fs_roster s !! d);
}.

Lemma update_expected_Some {K V} `{Countable K} (k : K) (f : V → V) (m : gmap K V) :
  is_Some (m !! k) → ∃ m', update_expected k f m = Some m' ∧ ∀ i, is_Some (m !! i) → is_Some (m' !! i).
Proof.
  intros [v Hv]. unfold update_expected. rewrite Hv. simpl. eexists. split; [done|].
  intros i Hi. destruct (decide (i = k)) as [->|]; [rewrite lookup_insert_eq; by eexists|by rewrite lookup_insert_ne].
Qed.

Lemma lookup_insert_is_Some_mono {K V} `{Countable K} (k i : K) (v : V) (m : gmap K V) :
  is_Some (m !! i) → is_Some (<[k := v]> m !! i).
Proof. intros Hi. rewrite lookup_insert_is_Some'. by right. Qed.

#[local] Hint Resolve lookup_insert_is_Some_mono : core.

(** Opening an enrollment or an incarnation. *)
Lemma insert_points {V} (m : gmap bytes V) (ptr : gmap bytes bytes) d h v :
  (∀ d r, ptr !! d = Some r → is_Some (m !! r)) →
  ∀ d' r, <[d := h]> ptr !! d' = Some r → is_Some (<[h := v]> m !! r).
Proof.
  intros Hm d' r [[<- <-]|[_ Hr]]%lookup_insert_Some; [rewrite lookup_insert_eq; by eexists|eauto].
Qed.

Lemma fact_step_inv registers s row :
  fact_inv s → ∃ s', fact_step registers s row = Some s' ∧ fact_inv s'.
Proof.
  destruct row as [c epoch]. intros [Hr Ho He]. unfold fact_step. destruct (fc_op c) eqn:Hop;
    try (eexists; split; [reflexivity|]; by split).
  - eexists. split; [reflexivity|]. split; simpl.
    + by apply insert_points.
    + by apply insert_points.
    + intros d. rewrite !lookup_insert_is_Some'. intros [?|?]; [by left|right; auto].
  - case_bool_decide; (eexists; split; [reflexivity|]); split; simpl.
    + by apply insert_points.
    + by apply insert_points.
    + intros d. rewrite !lookup_insert_is_Some'. intros [?|?]; [by left|right; auto].
    + by apply insert_points.
    + done.
    + intros d Hd. apply lookup_insert_is_Some'. right. auto.
  - unfold remove_facts.
    assert (∃ refs, match fs_roster s !! device_fingerprint with
      | Some roster_ref => update_expected roster_ref
          (close_roster_fact registers (ah_account_id (fc_header c)) device_fingerprint epoch content_cuts) (af_roster_refs (fs_facts s))
      | None => Some (af_roster_refs (fs_facts s)) end = Some refs ∧
      ∀ i, is_Some (af_roster_refs (fs_facts s) !! i) → is_Some (refs !! i)) as (refs & -> & Hrefs).
    { destruct (fs_roster s !! _) eqn:E; [apply update_expected_Some; eauto|eauto]. }
    assert (∃ incs, match fs_owners s !! device_fingerprint with
      | Some owner_id => update_expected owner_id (closed_incarnation epoch) (af_owner_incarnations (fs_facts s))
      | None => Some (af_owner_incarnations (fs_facts s)) end = Some incs ∧
      ∀ i, is_Some (af_owner_incarnations (fs_facts s) !! i) → is_Some (incs !! i)) as (incs & Hincs & Hi).
    { destruct (fs_owners s !! _) eqn:E; [apply update_expected_Some; eauto|eauto]. }
    simpl. rewrite Hincs. simpl. eexists. split; [reflexivity|]. split; simpl.
    + intros d r [_ Hd]%lookup_delete_Some. eauto.
    + intros d r [_ Hd]%lookup_delete_Some. eauto.
    + intros d. rewrite !lookup_delete_is_Some. intros [? ?]. auto.
  - destruct (fs_roster s !! device_fingerprint) as [r|] eqn:E; [|eexists; split; [reflexivity|]; by split].
    destruct (update_expected_Some r (with_role Owner) (af_roster_refs (fs_facts s))) as (refs & -> & Hrefs); [eauto|].
    simpl. eexists. split; [reflexivity|]. split; simpl.
    + eauto.
    + by apply insert_points.
    + intros d. rewrite lookup_insert_is_Some'. intros [<-|?]; [by eexists|auto].
  - unfold demote_facts. destruct (closes_open_incarnation _ _) as [d|] eqn:Hc; [|eexists; split; [reflexivity|]; by split].
    simpl in Hc. case_bool_decide as Hown; [|done].
    destruct (He device_fingerprint) as [r Hr']; [by eexists|]. rewrite Hr'. simpl.
    destruct (update_expected_Some r (with_role Member) (af_roster_refs (fs_facts s))) as (refs & -> & Hrefs); [eauto|].
    destruct (update_expected_Some owner_id
      (demote_incarnation registers (ah_account_id (fc_header c)) device_fingerprint owner_id epoch)
      (af_owner_incarnations (fs_facts s))) as (incs & Hincs & Hi); [eauto|].
    simpl. rewrite Hincs. simpl. eexists. split; [reflexivity|]. split; simpl.
    + eauto.
    + intros d' r' [_ Hd]%lookup_delete_Some. eauto.
    + intros d'. rewrite lookup_delete_is_Some. intros [? ?]. auto.
  - case_match; (eexists; split; [reflexivity|]; by split).
Qed.

Lemma fact_loop_inv registers rows s :
  fact_inv s → ∃ s', fact_loop registers rows s = Some s' ∧ fact_inv s'.
Proof.
  revert s. induction rows as [|row rows IH]; intros s Hs; [by eauto|].
  destruct (fact_step_inv registers s row Hs) as (s' & Hs' & Hinv). simpl. rewrite Hs'. simpl. by apply IH.
Qed.

Lemma derive_authority_facts_total candidates outcomes registers :
  ∃ facts, derive_authority_facts candidates outcomes registers = Some facts.
Proof.
  unfold derive_authority_facts.
  destruct (fact_loop_inv registers (effective_rows candidates outcomes) (mkFactState no_facts ∅ ∅)) as (s & -> & _).
  - split; simpl; intros d; rewrite lookup_empty; [done|done|by intros []].
  - simpl. by eexists.
Qed.

(** ** Epoch normalization *)

Section Normalize.
Context (outcomes : Outcomes).

Definition effective_list : list (AccountEntryHash * Z) :=
  sort_by_key (fun '(hash, epoch) => (epoch, hash)) (omap effective_of (map_to_list outcomes)).

Lemma effective_list_elem h e : (h, e) ∈ effective_list ↔ outcomes !! h = Some (OutEffective e).
Proof using Type.
  unfold effective_list. rewrite sort_by_key_perm, list_elem_of_omap. split.
  - intros ([h' o] & Hin & Ho). apply elem_of_map_to_list in Hin. unfold effective_of in Ho. simpl in Ho.
    destruct o; simplify_eq. done.
  - intros Ho. exists (h, OutEffective e). split; [by apply elem_of_map_to_list|done].
Qed.

Lemma effective_list_keys : NoDup effective_list.*1.
Proof using Type.
  unfold effective_list. rewrite sort_by_key_perm. pose proof (NoDup_fst_map_to_list outcomes) as Hnd.
  induction (map_to_list outcomes) as [|[h o] l IH]; [constructor|].
  rewrite fmap_cons in Hnd. apply NoDup_cons in Hnd as [Hh Hnd]. specialize (IH Hnd).
  destruct o; simpl; try done. constructor; [|done]. intros ([h' e] & Heq & Hin)%list_elem_of_fmap.
  apply list_elem_of_omap in Hin as ([h2 o2] & Hin & Ho). unfold effective_of in Ho. simpl in *.
  destruct o2; simplify_eq. apply Hh. apply list_elem_of_fmap. by exists (h', OutEffective e).
Qed.

Lemma normalize_insert_all :
  normalize_auth_epochs outcomes =
  (len effective_list,
   insert_all (fun p : nat * (AccountEntryHash * Z) => p.2.1) (fun p => OutEffective (Z.of_nat p.1)) outcomes
     (zip (seq 0 (length effective_list)) effective_list)).
Proof using Type.
  unfold normalize_auth_epochs, insert_all. fold effective_list. f_equal.
  generalize (zip (seq 0 (length effective_list)) effective_list). intros l. generalize outcomes.
  induction l as [|[i [h e]] l IH]; intros m; [done|]. simpl. apply IH.
Qed.

Lemma zip_seq_keys {A} k (l : list (AccountEntryHash * A)) :
  (fun p : nat * (AccountEntryHash * A) => p.2.1) <$> zip (seq k (length l)) l = l.*1.
Proof using Type.
  revert k. induction l as [|x l IH]; intros k; [done|]. simpl. f_equal. apply IH.
Qed.

Lemma normalize_keys :
  (fun p : nat * (AccountEntryHash * Z) => p.2.1) <$> zip (seq 0 (length effective_list)) effective_list = effective_list.*1.
Proof using Type. apply zip_seq_keys. Qed.

Lemma effective_list_key h : h ∈ effective_list.*1 ↔ effective_in outcomes h = true.
Proof using Type.
  unfold effective_in. rewrite list_elem_of_fmap. split.
  - intros ([h' e] & -> & Hin%effective_list_elem). simpl. by rewrite Hin.
  - destruct (outcomes !! h) as [o|] eqn:Ho; [|done]. destruct o as [e| | | |]; try done.
    intros _. exists (h, e). split; [done|]. by apply effective_list_elem.
Qed.

(** An entry that is not effective keeps its outcome; the [i]-th effective entry gets epoch [i]. *)
Lemma normalize_other h :
  effective_in outcomes h = false → (normalize_auth_epochs outcomes).2 !! h = outcomes !! h.
Proof using Type.
  intros Hh. rewrite normalize_insert_all. simpl. apply insert_all_notin. rewrite normalize_keys.
  rewrite effective_list_key. congruence.
Qed.

Lemma normalize_nth i h e :
  effective_list !! i = Some (h, e) → (normalize_auth_epochs outcomes).2 !! h = Some (OutEffective (Z.of_nat i)).
Proof using Type.
  intros Hi. rewrite normalize_insert_all. simpl.
  apply (insert_all_in (fun p : nat * (AccountEntryHash * Z) => p.2.1) (fun p => OutEffective (Z.of_nat p.1))
    outcomes _ (i, (h, e))).
  - rewrite normalize_keys. apply effective_list_keys.
  - apply list_elem_of_lookup_2 with i. rewrite lookup_zip_with, lookup_seq_lt, Hi by (by eapply lookup_lt_Some).
    done.
Qed.

Lemma normalize_effective h :
  effective_in (normalize_auth_epochs outcomes).2 h = effective_in outcomes h.
Proof using Type.
  destruct (effective_in outcomes h) eqn:Hh.
  - apply effective_list_key, list_elem_of_fmap in Hh as ([h' e] & -> & Hin).
    apply list_elem_of_lookup in Hin as [i Hi]. apply normalize_nth in Hi. unfold effective_in.
    cbn [fst]. by rewrite Hi.
  - unfold effective_in in *. by rewrite normalize_other.
Qed.

Lemma normalize_is_Some h :
  is_Some ((normalize_auth_epochs outcomes).2 !! h) ↔ is_Some (outcomes !! h).
Proof using Type.
  destruct (effective_in outcomes h) eqn:Hh; [|by rewrite normalize_other].
  pose proof (normalize_effective h) as Hn. rewrite Hh in Hn. unfold effective_in in *.
  destruct ((normalize_auth_epochs outcomes).2 !! h), (outcomes !! h); done.
Qed.
End Normalize.

(** ** The dependency closure ends *)

Section ClosureEnds.
Context `{Minicbor} `{Sha256} `{Ed25519}.
Context (candidates : list FoldCandidate).

Definition shrinks (before after : Outcomes) : Prop :=
  ∀ h, effective_in after h = true → effective_in before h = true.

#[local] Instance shrinks_preorder : PreOrder shrinks.
Proof using Type. split; [by intros o h|intros a b c Hab Hbc h Hh; auto]. Qed.

Lemma shrinks_insert (outcomes : Outcomes) h o :
  is_effective o = false → shrinks outcomes (<[h := o]> outcomes).
Proof using Type.
  intros Ho k. unfold effective_in. destruct (decide (h = k)) as [->|Hne].
  - rewrite lookup_insert_eq. congruence.
  - by rewrite lookup_insert_ne.
Qed.

Lemma replacement_not_effective roster public grants outcomes c o :
  replacement roster public grants outcomes c = Some o → is_effective o = false.
Proof using Type.
  unfold replacement. intros Hr. repeat case_match; simplify_eq; try done; by repeat case_bool_decide; simplify_eq.
Qed.

(** A sweep only removes effective entries, and one that changes something removes a candidate. *)
Lemma settle_fold_spec roster public grants l changed outcomes :
  let r := foldl (settle_step roster public grants) (changed, outcomes) l in
  shrinks outcomes r.2 ∧
  (r.1 = true → changed = true ∨ ∃ c, c ∈ l ∧ effective_in outcomes (fc_hash c) = true ∧
                                      effective_in r.2 (fc_hash c) = false) ∧
  (r.1 = false → changed = false ∧ r.2 = outcomes).
Proof using Type.
  revert changed outcomes. induction l as [|c l IH]; intros changed outcomes; simpl; [by split_and!; [|left|]|].
  assert (let r := foldl (settle_step roster public grants) (changed, outcomes) l in
    shrinks outcomes r.2 ∧
    (r.1 = true → changed = true ∨ ∃ x, x ∈ c :: l ∧ effective_in outcomes (fc_hash x) = true ∧
                                        effective_in r.2 (fc_hash x) = false) ∧
    (r.1 = false → changed = false ∧ r.2 = outcomes)) as Hskip.
  { destruct (IH changed outcomes) as (Hs & Hc & Hf). split_and!; [done| |done].
    intros [?|(x & ? & ? & ?)]%Hc; [by left|]. right. exists x. rewrite elem_of_cons. auto. }
  destruct (effective_in outcomes (fc_hash c)) eqn:He; [|exact Hskip].
  destruct (replacement _ _ _ outcomes c) as [o|] eqn:Hr; [|exact Hskip].
  apply replacement_not_effective in Hr. destruct (IH true (<[fc_hash c := o]> outcomes)) as (Hs & _ & Hf).
  split_and!; [etrans; [by apply shrinks_insert|exact Hs]| |by intros [? _]%Hf].
  intros _. right. exists c. split; [by left|]. split; [done|].
  apply not_true_iff_false. intros Hc%Hs. unfold effective_in in Hc. rewrite lookup_insert_eq in Hc. congruence.
Qed.

Definition effective_size (outcomes : Outcomes) : nat := length (effective_candidates candidates outcomes).

Lemma effective_size_le before after : shrinks before after → (effective_size after ≤ effective_size before)%nat.
Proof using Type. intros Hs. apply filter_bool_le. intros c _. apply Hs. Qed.

Lemma effective_size_lt before after c :
  shrinks before after → c ∈ candidates → effective_in before (fc_hash c) = true →
  effective_in after (fc_hash c) = false → (effective_size after < effective_size before)%nat.
Proof using Type. intros Hs Hc Hb Ha. eapply filter_bool_lt; [|exact Hc|done|done]. intros x _. apply Hs. Qed.

(** A settled set: a sweep leaves it alone. *)
Definition settled_set (outcomes : Outcomes) : Prop := settle_sweep candidates outcomes = (false, outcomes).

Lemma settle_loop_total fuel outcomes :
  (effective_size outcomes < fuel)%nat →
  ∃ settled, settle_loop candidates fuel outcomes = Some settled ∧ shrinks outcomes settled ∧ settled_set settled.
Proof using Type.
  revert outcomes. induction fuel as [|fuel IH]; intros outcomes Hf; [lia|]. cbn [settle_loop].
  pose proof (settle_fold_spec (effective_roster candidates outcomes) (effective_public_ownership candidates outcomes)
    (effective_grants candidates outcomes) candidates false outcomes) as (Hs & Hc & Hfix).
  fold (settle_sweep candidates outcomes) in Hs, Hc, Hfix.
  destruct (settle_sweep candidates outcomes) as [changed outcomes'] eqn:Hsw. simpl in Hs, Hc, Hfix. destruct changed.
  - destruct Hc as [?|(c & Hin & Hb & Ha)]; [done|done|].
    pose proof (effective_size_lt outcomes outcomes' c Hs Hin Hb Ha).
    destruct (IH outcomes') as (settled & Hrun & Hs' & Hset); [lia|]. exists settled. split_and!; [done|by etrans|done].
  - destruct Hfix as [_ ->]; [done|]. by exists outcomes.
Qed.

Lemma settle_total outcomes :
  ∃ settled, settle_authority_dependencies candidates outcomes = Some settled ∧ shrinks outcomes settled ∧ settled_set settled.
Proof using Type.
  apply settle_loop_total. unfold effective_size, effective_candidates.
  pose proof (filter_length_le (fun c => effective_in outcomes (fc_hash c)) candidates). lia.
Qed.

(** Parking entries. *)
Lemma park_lookup (hs : list AccountEntryHash) (m : Outcomes) h :
  foldl (fun m h => <[h := OutParked AuthLenAhead]> m) m hs !! h =
  if decide (h ∈ hs) then Some (OutParked AuthLenAhead) else m !! h.
Proof using Type.
  revert m. induction hs as [|x hs IH]; intros m; cbn [foldl].
  - by rewrite decide_False by apply not_elem_of_nil.
  - rewrite IH. destruct (decide (h ∈ hs)) as [Hin|Hin].
    + by rewrite decide_True by (by right).
    + destruct (decide (h = x)) as [->|Hne]; [rewrite lookup_insert_eq, decide_True by (by left); done|].
      rewrite lookup_insert_ne, decide_False by set_solver. done.
Qed.

(** What the closure returns: outcomes that are settled and not ahead, in one more round. *)
Definition closed_at (credits : gmap AccountEntryHash Z) (outcomes : Outcomes) : Prop :=
  ∃ settled, settled_set settled ∧ outcomes = (normalize_auth_epochs settled).2.

Lemma close_loop_total fuel credits outcomes discovered :
  (effective_size outcomes < fuel)%nat →
  ∃ out disc, close_loop candidates fuel credits outcomes discovered = Some (out, disc) ∧
    shrinks outcomes out ∧ closed_at credits out ∧
    (∀ h, is_Some (disc !! h) → is_Some (discovered !! h) ∨ h ∈ fc_hash <$> candidates).
Proof using Type.
  revert outcomes discovered. induction fuel as [|fuel IH]; intros outcomes discovered Hf; [lia|].
  destruct (settle_total outcomes) as (settled & Hrun & Hs & Hset).
  destruct (normalize_auth_epochs settled) as [count normal] eqn:Hn.
  assert (∀ h, effective_in normal h = effective_in settled h) as Hneff.
  { intros h. pose proof (normalize_effective settled h) as H'. by rewrite Hn in H'. }
  assert (shrinks outcomes normal) as Hsn by (intros h Hh; apply Hs; by rewrite <- Hneff).
  set (ahead := fc_hash <$> List.filter (ahead_of credits count (vouch_table candidates credits normal) normal)
                 (effective_candidates candidates outcomes)).
  set (parked := foldl (fun m h => <[h := OutParked AuthLenAhead]> m) normal ahead).
  assert (close_loop candidates (S fuel) credits outcomes discovered =
    if bool_decide (ahead = []) then Some (normal, discovered)
    else close_loop candidates fuel credits parked (foldl (fun m h => <[h := OutParked AuthLenAhead]> m) discovered ahead)) as ->.
  { cbn [close_loop]. rewrite Hrun. unfold mbind, option_bind. by rewrite Hn. }
  case_bool_decide as Ha.
  { exists normal, discovered. split_and!; [done|done| |auto]. exists settled. by rewrite Hn. }
  assert (∃ c, c ∈ candidates ∧ effective_in outcomes (fc_hash c) = true ∧ fc_hash c ∈ ahead) as (c & Hin & Hc & Hca).
  { destruct ahead as [|h hs] eqn:E; [done|]. assert (h ∈ ahead) as Hh by (rewrite E; by left). unfold ahead in Hh.
    apply list_elem_of_fmap in Hh as (c & -> & Hc). apply elem_of_filter_bool in Hc as [_ Hc].
    unfold effective_candidates in Hc. apply elem_of_filter_bool in Hc as [? ?]. exists c. rewrite elem_of_cons. auto. }
  assert (shrinks outcomes parked) as Hsp.
  { intros h. unfold effective_in, parked. rewrite park_lookup. case_decide; [done|]. apply Hsn. }
  assert (effective_in parked (fc_hash c) = false) as Hpc.
  { unfold effective_in, parked. by rewrite park_lookup, decide_True by done. }
  pose proof (effective_size_lt outcomes parked c Hsp Hin Hc Hpc) as Hlt.
  destruct (IH parked (foldl (fun m h => <[h := OutParked AuthLenAhead]> m) discovered ahead)) as
    (out & disc & Hrun' & Hs' & Hcl & Hd).
  { lia. }
  exists out, disc. split_and!; [done|by etrans|done|]. intros h [Hh|?]%Hd; [|by right]. rewrite park_lookup in Hh.
  case_decide as Hah; [|by left]. right. unfold ahead in Hah. apply list_elem_of_fmap in Hah as (x & -> & Hx).
  apply elem_of_filter_bool in Hx as [_ Hx]. apply elem_of_filter_bool in Hx as [_ Hx]. by apply list_elem_of_fmap_2.
Qed.

Lemma close_total credits outcomes :
  ∃ out disc, close_final_authority_dependencies candidates credits outcomes = Some (out, disc) ∧
    shrinks outcomes out ∧ closed_at credits out ∧ (∀ h, is_Some (disc !! h) → h ∈ fc_hash <$> candidates).
Proof using Type.
  destruct (close_loop_total (S (length candidates)) credits outcomes ∅) as (out & disc & ? & ? & ? & Hd).
  - unfold effective_size, effective_candidates.
    pose proof (filter_length_le (fun c => effective_in outcomes (fc_hash c)) candidates). lia.
  - exists out, disc. split_and!; [done..|]. intros h [[? Hh]|?]%Hd; [by rewrite lookup_empty in Hh|done].
Qed.
End ClosureEnds.

(** ** The collected candidates *)

Section Collected.
Context `{Minicbor} `{Sha256} `{Ed25519}.

Definition entry_hashes (entries : list VerifiedAccountEntry) : gset AccountEntryHash :=
  list_to_set (va_entry_hash <$> entries).

(** A candidate is a foldable entry of the set whose payload decodes to its operation. *)
Definition candidate_of (entries : list VerifiedAccountEntry) (c : FoldCandidate) : Prop :=
  fc_entry c ∈ entries ∧ foldable (fc_header c) = true ∧
  ops_decode (ah_entry_type (fc_header c)) (va_payload (fc_entry c)) = Ok (KnownOp (fc_op c)).

Record collected (entries : list VerifiedAccountEntry) (s : Collected) : Prop := {
  col_seen : cl_seen s = entry_hashes entries;
  col_nodup : NoDup (fc_hash <$> cl_candidates s);
  col_candidate c : c ∈ cl_candidates s → candidate_of entries c;
  col_outcome h : is_Some (cl_outcomes s !! h) → h ∈ cl_seen s ∧ h ∉ fc_hash <$> cl_candidates s;
  col_covered h : h ∈ cl_seen s → is_Some (cl_outcomes s !! h) ∨ h ∈ fc_hash <$> cl_candidates s;
  col_not_effective h : effective_in (cl_outcomes s) h = false;
  col_header h hd : cl_headers s !! h = Some hd → ∃ e, e ∈ entries ∧ va_entry_hash e = h ∧ va_header e = hd;
  col_linked c : c ∈ cl_candidates s → is_Some (cl_headers s !! fc_hash c);
}.

Lemma entry_hashes_snoc entries e : entry_hashes (entries ++ [e]) = {[va_entry_hash e]} ∪ entry_hashes entries.
Proof using Type. unfold entry_hashes. rewrite fmap_app, list_to_set_app_L. set_solver. Qed.

Lemma candidate_of_snoc entries e c : candidate_of entries c → candidate_of (entries ++ [e]) c.
Proof using Type. intros (? & ?). split; [|done]. apply elem_of_app. by left. Qed.

(** An entry whose outcome is decided by its structure. *)
Lemma collected_outcome entries s e hd o :
  collected entries s → va_entry_hash e ∉ cl_seen s → is_effective o = false →
  (hd = cl_headers s ∨ hd = <[va_entry_hash e := va_header e]> (cl_headers s)) →
  collected (entries ++ [e])
    (mkCollected (cl_candidates s) hd (<[va_entry_hash e := o]> (cl_outcomes s)) ({[va_entry_hash e]} ∪ cl_seen s)).
Proof using Type.
  intros Hc Hn Ho Hh. assert (va_entry_hash e ∉ fc_hash <$> cl_candidates s) as Hnc.
  { intros (c & Heq & Hin)%list_elem_of_fmap. apply Hn. rewrite (col_seen _ _ Hc).
    apply (col_candidate _ _ Hc) in Hin as (Hin & _). apply elem_of_list_to_set, list_elem_of_fmap. exists (fc_entry c). by rewrite Heq. }
  split; simpl.
  - rewrite entry_hashes_snoc. by rewrite (col_seen _ _ Hc).
  - apply Hc.
  - intros c Hin. apply candidate_of_snoc. by apply (col_candidate _ _ Hc).
  - intros h. rewrite lookup_insert_is_Some'. intros [<-|Hh2]; [set_solver|].
    apply (col_outcome _ _ Hc) in Hh2 as [? ?]. set_solver.
  - intros h. rewrite elem_of_union, elem_of_singleton, lookup_insert_is_Some'.
    intros [->|Hin]; [by left; left|]. destruct (col_covered _ _ Hc h Hin); auto.
  - intros h. unfold effective_in. destruct (decide (h = va_entry_hash e)) as [->|Hne].
    + by rewrite lookup_insert_eq.
    + rewrite lookup_insert_ne by done. apply (col_not_effective _ _ Hc h).
  - intros h hd' Hl. assert (cl_headers s !! h = Some hd' ∨ (h = va_entry_hash e ∧ hd' = va_header e)) as [Hl'|[-> ->]].
    { destruct Hh as [->| ->]; [by left|]. apply lookup_insert_Some in Hl as [[<- <-]|[_ ?]]; auto. }
    + apply (col_header _ _ Hc) in Hl' as (e' & ? & ?). exists e'. rewrite elem_of_app. auto.
    + exists e. rewrite elem_of_app, list_elem_of_singleton. auto.
  - intros c Hin%(col_linked _ _ Hc). destruct Hh as [->| ->]; [done|]. rewrite lookup_insert_is_Some'. auto.
Qed.

Lemma collect_step_collected entries s e : collected entries s → collected (entries ++ [e]) (collect_step s e).
Proof using Type.
  intros Hc. unfold collect_step. case_bool_decide as Hseen.
  { split; try apply Hc.
    - rewrite entry_hashes_snoc, <- (col_seen _ _ Hc). set_solver.
    - intros c Hin. apply candidate_of_snoc. by apply (col_candidate _ _ Hc).
    - intros h hd Hl. apply (col_header _ _ Hc) in Hl as (e' & ? & ?). exists e'. rewrite elem_of_app. auto. }
  destruct (foldable (va_header e)) eqn:Hf; simpl; [|by apply collected_outcome; auto].
  destruct (ops_decode _ _) as [[op|t bs]|err] eqn:Hd; [|by apply collected_outcome; auto..].
  split; simpl.
  - rewrite entry_hashes_snoc. by rewrite (col_seen _ _ Hc).
  - rewrite fmap_app. apply NoDup_app. split_and!; [apply Hc| |apply NoDup_singleton].
    intros h Hh ->%list_elem_of_singleton. apply Hseen. rewrite (col_seen _ _ Hc).
    apply list_elem_of_fmap in Hh as (c & Heq & Hin). apply (col_candidate _ _ Hc) in Hin as (Hin & _).
    apply elem_of_list_to_set, list_elem_of_fmap. exists (fc_entry c). by split.
  - intros c [Hin| ->%list_elem_of_singleton]%elem_of_app.
    + apply candidate_of_snoc. by apply (col_candidate _ _ Hc).
    + split_and!; [|done|done]. apply elem_of_app. right. by left.
  - intros h [? Hn]%(col_outcome _ _ Hc). split; [set_solver|]. rewrite fmap_app, elem_of_app. intros [?|Hh]; [done|].
    apply list_elem_of_singleton in Hh. subst. done.
  - intros h. rewrite elem_of_union, elem_of_singleton, fmap_app, elem_of_app.
    intros [->|Hin]; [right; right; by left|]. destruct (col_covered _ _ Hc h Hin); auto.
  - apply (col_not_effective _ _ Hc).
  - intros h hd [[<- <-]|[_ Hl]]%lookup_insert_Some.
    + exists e. rewrite elem_of_app, list_elem_of_singleton. auto.
    + apply (col_header _ _ Hc) in Hl as (e' & ? & ?). exists e'. rewrite elem_of_app. auto.
  - intros c [Hin| ->%list_elem_of_singleton]%elem_of_app; rewrite lookup_insert_is_Some'; [|by left].
    right. by apply (col_linked _ _ Hc).
Qed.

Lemma collect_collected entries : collected entries (collect entries).
Proof using Type.
  unfold collect. induction entries as [|e entries IH] using rev_ind.
  - split; simpl; [done|constructor|..].
    + by intros c ?%not_elem_of_nil.
    + intros h. rewrite lookup_empty. by intros [].
    + intros h Hh. set_solver.
    + intros h. unfold effective_in. by rewrite lookup_empty.
    + intros h hd. by rewrite lookup_empty.
    + by intros c ?%not_elem_of_nil.
  - rewrite foldl_app. by apply collect_step_collected.
Qed.
End Collected.

(** ** The readiness loop ends *)

Section Readiness.
Context `{Minicbor} `{Sha256} `{Ed25519}.

Lemma discover_dom (select : FoldCandidate → bool) (candidates : list FoldCandidate) discovered h :
  is_Some (discover select candidates discovered !! h) → is_Some (discovered !! h) ∨ h ∈ fc_hash <$> candidates.
Proof using Type.
  unfold discover. revert discovered. induction candidates as [|c l IH]; intros discovered; [by left|].
  simpl foldl. intros [Hh|Hh]%IH; [|right; rewrite fmap_cons; by right].
  destruct (select c); [|by left]. apply lookup_insert_is_Some' in Hh as [<-|?]; [|by left].
  right. rewrite fmap_cons. by left.
Qed.

Lemma discover_ahead_dom candidates exclusions contributors credits count outcomes discovered h :
  is_Some (discover_ahead candidates exclusions contributors credits count outcomes discovered !! h) →
  is_Some (discovered !! h) ∨ h ∈ fc_hash <$> candidates.
Proof using Type.
  unfold discover_ahead. case_match; [apply discover_dom|].
  intros [[?|?]%discover_dom|?]%discover_dom; auto.
Qed.

(** A pass returns, and discovers entries of the set only. *)
Lemma fold_account_pass_total entries exclusions capture :
  ∃ r, fold_account_pass entries exclusions capture = Some r ∧
       dom (pr_discovered r) ⊆ entry_hashes entries.
Proof using Type.
  unfold fold_account_pass. pose proof (collect_collected entries) as Hc.
  destruct (find_genesis _) as [genesis|]; [|eexists; split; [done|]; simpl; set_solver].
  destruct (stratify _ _ _ _ _ _) as [strata o1].
  destruct (fold_depths _ _ _ _ _ _) as [p o2].
  destruct (replay_effect_state _ _ _ _ _) as [state o3].
  set (o5 := if is_contested _ then _ else _).
  destruct (close_total (cl_candidates (collect entries))
    (compute_credits (cl_candidates (collect entries)) strata o5 (dp_register_contributors p)) o5) as
    (out & disc & Hclose & _ & _ & Hdisc).
  rewrite Hclose. cbn [mbind option_bind].
  destruct (normalize_auth_epochs out) as [count out'].
  destruct (derive_authority_facts_total (cl_candidates (collect entries)) out' (dp_registers p)) as [facts Hfacts].
  rewrite Hfacts. eexists. split; [reflexivity|]. cbn [pr_discovered]. intros h Hh%elem_of_dom.
  assert (h ∈ fc_hash <$> cl_candidates (collect entries)) as (c & -> & Hin)%list_elem_of_fmap.
  { apply discover_ahead_dom in Hh as [Hh|Hh]; [|done]. by apply Hdisc. }
  apply (col_candidate _ _ Hc) in Hin as (Hin & _). apply elem_of_list_to_set, list_elem_of_fmap. by exists (fc_entry c).
Qed.

Lemma readiness_loop_total fuel entries exclusions capture :
  (size (entry_hashes entries ∖ dom exclusions) < fuel)%nat →
  ∃ r, readiness_loop fuel entries exclusions capture = Some r.
Proof using Type.
  revert exclusions. induction fuel as [|fuel IH]; intros exclusions Hf; [lia|].
  destruct (fold_account_pass_total entries exclusions capture) as (r & Hr & Hd).
  cbn [readiness_loop]. rewrite Hr. cbn [mbind option_bind]. case_bool_decide as Hsub; [by eexists|].
  apply IH. eapply Nat.lt_le_trans; [|exact (proj1 (Nat.lt_succ_r _ _) Hf)].
  unfold add_exclusions. rewrite dom_union_L. apply subset_size. split; [set_solver|]. intros Hsup. apply Hsub.
  intros h Hh. destruct (decide (h ∈ dom exclusions)) as [|Hn]; [done|].
  assert (h ∈ entry_hashes entries ∖ dom exclusions) as Hin by set_solver. apply Hsup in Hin. set_solver.
Qed.

Lemma size_list_to_set_le (l : list AccountEntryHash) : (size (list_to_set l : gset AccountEntryHash) ≤ length l)%nat.
Proof using Type.
  induction l as [|x l IH]; [done|]. rewrite list_to_set_cons, size_union_alt, size_singleton. simpl.
  pose proof (subseteq_size (list_to_set l ∖ {[x]} : gset AccountEntryHash) (list_to_set l) ltac:(set_solver)). lia.
Qed.

(** The fold is total. *)
Lemma fold_account_traced_total entries capture : ∃ r, fold_account_traced entries capture = Some r.
Proof using Type.
  apply readiness_loop_total. unfold entry_hashes. rewrite dom_empty_L, difference_empty_L.
  pose proof (size_list_to_set_le (va_entry_hash <$> entries)). rewrite length_fmap in *. lia.
Qed.
End Readiness.

(** C6.  Termination: on every list of entries the fold returns a history.  Its readiness loop,
    its two dependency-closure loops, its citation walk and its cycle search all end, and no
    [expect] of the fact derivation fails. *)
Theorem fold_account_terminates `{Minicbor} `{Sha256} `{Ed25519} (entries : list VerifiedAccountEntry) :
  ∃ history, fold_account entries = Some history.
Proof.
  unfold fold_account. destruct (fold_account_traced_total entries false) as [r ->]. by eexists.
Qed.
