(* ===== verification/FoldPass.v ===== *)
(** * The stages of one fold pass ([account/fold.rs])

    What the theorems on the fold share: the strata as filters of the candidates, what each
    stage of a depth leaves alone, the replay as one loop over the replayed candidates, and the
    last pass of the readiness loop. *)

From S2P Require Import Prelude Cbor Minicbor Hash Op Device Entry Stream Branch Envelope Candidate AccountOps FoldTypes Fold FoldDepth FoldTotal.

Local Open Scope Z_scope.

#[export] Instance nat_total_cmp : TotalCmp nat.
Proof.
  split; unfold cmp, nat_cmp; intros.
  - apply Nat.compare_eq_iff.
  - apply Nat.compare_antisym.
  - rewrite Nat.compare_lt_iff in *. lia.
Qed.

Lemma clt_nat (x y : nat) : clt x y ↔ (x < y)%nat.
Proof. unfold clt, cmp, nat_cmp. apply Nat.compare_lt_iff. Qed.

Lemma sorted_strict {A} `{TotalCmp A} (l : list A) : StronglySorted cle l → NoDup l → StronglySorted clt l.
Proof.
  induction 1 as [|x l Hl IH Hx]; [constructor|]. intros [Hn Hnd]%NoDup_cons. constructor; [auto|].
  rewrite Forall_forall in *. intros y Hy. destruct (proj1 (cle_lt_eq x y) (Hx y Hy)) as [?| ->]; done.
Qed.

Lemma NoDup_fmap_filter {A B} (f : A → B) (g : A → bool) (l : list A) :
  NoDup (f <$> l) → NoDup (f <$> List.filter g l).
Proof.
  induction l as [|x l IH]; [done|]. rewrite fmap_cons. intros [Hx Hnd]%NoDup_cons. simpl.
  destruct (g x); [|auto]. rewrite fmap_cons. constructor; [|auto].
  intros (y & Hy & [_ Hin]%elem_of_filter_bool)%list_elem_of_fmap. apply Hx. rewrite Hy. by apply list_elem_of_fmap_2.
Qed.

(** ** Strata *)

Section Strata.
Context (incs : Incarnations) (exclusions : Outcomes) (genesis_owner_id : AccountEntryHash)
  (founder : DeviceFingerprint).

Definition depth_of (c : FoldCandidate) : option nat := (author_depth incs ∅ c).1.

Lemma depth_of_memo memo c : memo_ok incs memo → (author_depth incs memo c).1 = depth_of c.
Proof using Type.
  intros Hm. eapply author_depth_unique; [by apply author_depth_spec|].
  apply author_depth_spec, memo_ok_empty.
Qed.

(** A second origin of the founder's chain. *)
Definition stray_origin (c : FoldCandidate) : bool :=
  bool_decide (ah_seq (fc_header c) = 0) && bool_decide (ah_device_fingerprint (fc_header c) = founder) &&
  bool_decide (fc_hash c ≠ genesis_owner_id).

(** Where the grouping loop puts a candidate: its depth, or the outcome that keeps it out. *)
Definition placement (c : FoldCandidate) : Outcome + nat :=
  match exclusions !! fc_hash c with
  | Some outcome => inl outcome
  | None =>
      if stray_origin c then inl (OutRejected NonGenesisOrigin)
      else match depth_of c with Some d => inr d | None => inl (OutParked UnknownOwnerRef) end
  end.

Definition placed_at (d : nat) (c : FoldCandidate) : bool :=
  match placement c with inr d' => bool_decide (d = d') | inl _ => false end.

Definition unplaced (c : FoldCandidate) : bool := match placement c with inl _ => true | inr _ => false end.
Definition unplaced_outcome (c : FoldCandidate) : Outcome :=
  match placement c with inl o => o | inr _ => OutRetainedUnfolded end.

(** The strata of a candidate list. *)
Definition strata_of (candidates : list FoldCandidate) (strata : Strata) : Prop :=
  ∀ d, strata !! d = match List.filter (placed_at d) candidates with [] => None | l => Some l end.

Lemma stratify_step_spec strata outcomes memo seen c :
  memo_ok incs memo → strata_of seen strata →
  let '(strata', outcomes', memo') := stratify_step incs exclusions genesis_owner_id founder (strata, outcomes, memo) c in
  memo_ok incs memo' ∧ strata_of (seen ++ [c]) strata' ∧
  outcomes' = if unplaced c then <[fc_hash c := unplaced_outcome c]> outcomes else outcomes.
Proof using Type.
  intros Hm Hs. unfold stratify_step, unplaced, unplaced_outcome.
  assert (∀ o, placement c = inl o → strata_of (seen ++ [c]) strata) as Hskip.
  { intros o Ho d. rewrite List.filter_app. simpl. unfold placed_at at 2. rewrite Ho. rewrite app_nil_r. apply Hs. }
  destruct (exclusions !! fc_hash c) as [o|] eqn:Hex.
  { assert (placement c = inl o) as Hp by (unfold placement; by rewrite Hex). rewrite Hp. by eauto. }
  fold (stray_origin c). destruct (stray_origin c) eqn:Hstray.
  { assert (placement c = inl (OutRejected NonGenesisOrigin)) as Hp by (unfold placement; by rewrite Hex, Hstray).
    rewrite Hp. by eauto. }
  pose proof (depth_of_memo memo c Hm) as Hd. destruct (author_depth_spec incs memo c Hm) as [_ Hm'].
  destruct (author_depth incs memo c) as [depth memo']. simpl in Hd, Hm'. rewrite Hd in *.
  assert (placement c = match depth_of c with Some d => inr d | None => inl (OutParked UnknownOwnerRef) end) as Hp
    by (unfold placement; by rewrite Hex, Hstray).
  rewrite Hp in *. destruct (depth_of c) as [d|] eqn:Hdepth; [|by eauto]. split_and!; [done| |done].
  intros d'. rewrite List.filter_app. simpl. assert (placed_at d' c = bool_decide (d' = d)) as -> by (unfold placed_at; by rewrite Hp).
  pose proof (Hs d') as Hsd. case_bool_decide as Hdd.
  - subst d'. rewrite lookup_insert_eq, Hsd. by destruct (List.filter (placed_at d) seen).
  - rewrite lookup_insert_ne, app_nil_r by done. done.
Qed.

Lemma stratify_spec candidates outcomes :
  let '(strata, outcomes') := stratify candidates incs exclusions genesis_owner_id founder outcomes in
  strata_of candidates strata ∧
  outcomes' = insert_all fc_hash unplaced_outcome outcomes (List.filter unplaced candidates).
Proof using Type.
  unfold stratify.
  assert (let '(strata, outcomes', memo) :=
    foldl (stratify_step incs exclusions genesis_owner_id founder) (∅, outcomes, ∅) candidates in
    memo_ok incs memo ∧ strata_of candidates strata ∧
    outcomes' = insert_all fc_hash unplaced_outcome outcomes (List.filter unplaced candidates)) as Hspec.
  { induction candidates as [|c l IH] using rev_ind; [by split_and!; [apply memo_ok_empty|intros d|]|].
    rewrite foldl_app. cbn [foldl]. destruct (foldl _ _ l) as [[strata outcomes'] memo].
    destruct IH as (Hm & Hs & Ho). pose proof (stratify_step_spec strata outcomes' memo l c Hm Hs) as Hstep.
    destruct (stratify_step _ _ _ _ _ c) as [[strata2 outcomes2] memo2]. destruct Hstep as (? & ? & ->).
    split_and!; [done|done|]. subst outcomes'. rewrite List.filter_app. simpl. unfold insert_all.
    destruct (unplaced c); [by rewrite foldl_app|by rewrite app_nil_r]. }
  destruct (foldl _ _ candidates) as [[strata outcomes'] memo]. by destruct Hspec as (_ & ? & ?).
Qed.

Lemma placed_spec d c :
  placed_at d c = true ↔
  exclusions !! fc_hash c = None ∧ stray_origin c = false ∧ depth_of c = Some d.
Proof using Type.
  unfold placed_at, placement. destruct (exclusions !! fc_hash c); [naive_solver|].
  destruct (stray_origin c); [naive_solver|]. destruct (depth_of c); [|naive_solver].
  rewrite bool_decide_eq_true. naive_solver.
Qed.

Lemma unplaced_not_placed c : unplaced c = false ↔ ∃ d, placed_at d c = true.
Proof using Type.
  unfold unplaced, placed_at. destruct (placement c) as [o|d]; [naive_solver|].
  split; [|done]. intros _. exists d. by apply bool_decide_eq_true.
Qed.

Section Of.
Context (candidates : list FoldCandidate) (strata : Strata) (Hstrata : strata_of candidates strata).
Set Default Proof Using "Hstrata".

Lemma btree_elem d idxs : (d, idxs) ∈ btree_iter strata ↔ idxs = List.filter (placed_at d) candidates ∧ idxs ≠ [].
Proof.
  unfold btree_iter. rewrite sort_by_key_perm, elem_of_map_to_list, (Hstrata d).
  destruct (List.filter (placed_at d) candidates) as [|c l]; [naive_solver|].
  split; [by intros [= <-]|]. by intros [-> _].
Qed.

Lemma btree_candidate d idxs c :
  (d, idxs) ∈ btree_iter strata → c ∈ idxs → c ∈ candidates ∧ placed_at d c = true.
Proof. intros [-> _]%btree_elem Hc. by apply elem_of_filter_bool in Hc as [? ?]. Qed.

(** The depths ascend strictly. *)
Lemma btree_ascending : StronglySorted (fun r r' => (r.1 < r'.1)%nat) (btree_iter strata).
Proof using Type.
  apply (sorted_by_key_fmap lt fst). eapply StronglySorted_weaken; [intros x y; apply clt_nat|].
  apply sorted_strict.
  - apply (sorted_by_key_fmap cle fst), sort_by_key_sorted.
  - unfold btree_iter. rewrite sort_by_key_perm. apply NoDup_fst_map_to_list.
Qed.

Lemma btree_flat_elem c : c ∈ mjoin (btree_iter strata).*2 ↔ c ∈ candidates ∧ unplaced c = false.
Proof.
  rewrite unplaced_not_placed, list_elem_of_join. split.
  - intros (idxs & Hc & ([d idxs'] & -> & Hrow)%list_elem_of_fmap).
    destruct (btree_candidate d idxs' c Hrow Hc). eauto.
  - intros (Hc & d & Hd). assert (c ∈ List.filter (placed_at d) candidates) as Hin by (by apply elem_of_filter_bool).
    exists (List.filter (placed_at d) candidates). split; [done|]. apply list_elem_of_fmap.
    exists (d, List.filter (placed_at d) candidates). split; [done|]. apply btree_elem. split; [done|].
    intros Hnil. by rewrite Hnil in Hin; apply not_elem_of_nil in Hin.
Qed.

Lemma btree_flat_NoDup : NoDup (fc_hash <$> candidates) → NoDup (fc_hash <$> mjoin (btree_iter strata).*2).
Proof.
  intros Hnd. pose proof btree_ascending as Hasc.
  assert (∀ d idxs, (d, idxs) ∈ btree_iter strata → idxs = List.filter (placed_at d) candidates) as Hrows
    by (intros d idxs Hrow; by apply btree_elem in Hrow as [-> _]).
  induction Hasc as [|[d idxs] rows Hasc IH Hlt]; [constructor|]. simpl. rewrite fmap_app.
  apply NoDup_app. split_and!; [rewrite (Hrows d idxs) by (by left); by apply NoDup_fmap_filter| |].
  - intros h (c & -> & Hc)%list_elem_of_fmap (c' & Heq & Hc')%list_elem_of_fmap.
    rewrite (Hrows d idxs) in Hc by (by left). apply elem_of_filter_bool in Hc as [Hp Hc].
    apply list_elem_of_join in Hc' as (idxs' & Hc' & ([d' idxs2] & -> & Hrow)%list_elem_of_fmap).
    rewrite Forall_forall in Hlt. specialize (Hlt _ Hrow). simpl in *.
    rewrite (Hrows d' idxs2) in Hc' by (by right). apply elem_of_filter_bool in Hc' as [Hp' Hc'].
    rewrite (NoDup_fmap_inj fc_hash candidates c c' Hnd Hc Hc' Heq) in Hp.
    apply placed_spec in Hp as (_ & _ & Hd), Hp' as (_ & _ & Hd'). assert (d = d') by congruence. lia.
  - apply IH. intros d' idxs' Hrow. apply Hrows. by right.
Qed.
End Of.
End Strata.

(** ** What the stages of a depth keep *)

(** An operation that can fold registers. *)
Definition cuts (c : FoldCandidate) : bool :=
  negb (bool_decide (cut_op_registers c = [])) || bool_decide (is_Some (cut_extend_register c)).

Section Stages.
Context `{Minicbor} `{Sha256} `{Ed25519}.
Context (candidates : list FoldCandidate) (incs : Incarnations) (view : HeaderView).

Definition cut_at (h : AccountEntryHash) : Prop := ∃ c, c ∈ candidates ∧ fc_hash c = h ∧ cuts c = true.

(** Up to the commit a stage changes only cut verdicts, none of them effective, and contributors. *)
Record stage_kept (p p' : DepthPass) : Prop := {
  sk_state : dp_state p' = dp_state p;
  sk_registers : dp_registers p' = dp_registers p;
  sk_condemned : vd_condemned (dp_verdicts p') = vd_condemned (dp_verdicts p);
  sk_parked : vd_parked (dp_verdicts p') = vd_parked (dp_verdicts p);
  sk_classification : dp_classification p' = dp_classification p;
  sk_cut h o : vd_cut_verdicts (dp_verdicts p') !! h = Some o →
    vd_cut_verdicts (dp_verdicts p) !! h = Some o ∨ (is_effective o = false ∧ cut_at h);
  sk_contributors h : h ∈ dp_register_contributors p' → h ∈ dp_register_contributors p ∨ cut_at h;
}.

#[export] Instance stage_kept_preorder : PreOrder stage_kept.
Proof using Type.
  split; [by split; auto|]. intros p q r [? ? ? ? ? Hc Hr] [? ? ? ? ? Hc' Hr']. split; try congruence.
  - intros h o [?|?]%Hc'; auto.
  - intros h [?|?]%Hr'; auto.
Qed.

Lemma set_cut_verdict_kept h o p : is_effective o = false → cut_at h → stage_kept p (set_cut_verdict h o p).
Proof using Type.
  intros Ho Hh. split; try done; [|by left]. simpl. intros k o' [[<- <-]|[_ Hl]]%lookup_insert_Some; auto.
Qed.

Lemma add_contributor_kept h p : cut_at h → stage_kept p (add_contributor h p).
Proof using Type.
  intros Hh. split; try done; [by left|]. simpl. intros k [->%elem_of_singleton|?]%elem_of_union; auto.
Qed.

Lemma foldl_kept {A B} (f : A * DepthPass → B → A * DepthPass) (l : list B) acc :
  (∀ acc x, x ∈ l → stage_kept acc.2 (f acc x).2) → stage_kept acc.2 (foldl f acc l).2.
Proof using Type.
  revert acc. induction l as [|x l IH]; intros acc Hf; [done|]. simpl.
  etrans; [apply Hf; by left|]. apply IH. intros acc' y Hy. apply Hf. by right.
Qed.

Lemma cuts_op c : cut_op_registers c ≠ [] → cuts c = true.
Proof using Type. intros Hc. unfold cuts. by rewrite bool_decide_false. Qed.

Lemma cuts_extend c row : cut_extend_register c = Some row → cuts c = true.
Proof using Type. intros Hc. unfold cuts. rewrite Hc. by rewrite orb_true_r. Qed.

(** Every admitted cut is a candidate with registers. *)
Definition admitted_ok (admitted : list AdmittedCut) : Prop :=
  ∀ a, a ∈ admitted → ac_op a ∈ candidates ∧ cuts (ac_op a) = true.

Lemma admitted_cut_at admitted a : admitted_ok admitted → a ∈ admitted → cut_at (fc_hash (ac_op a)).
Proof using Type. intros Ha [? ?]%Ha. by exists (ac_op a). Qed.

Lemma admission_spec p c :
  match admission incs view p c with
  | NotACut => True
  | CutVerdict o => is_effective o = false ∧ cuts c = true
  | Admit a => ac_op a = c ∧ cuts c = true
  end.
Proof using Type.
  unfold admission. case_bool_decide as Hr; simpl; [done|]. pose proof (cuts_op c Hr).
  destruct (may_cut incs c p); simpl; [|done]. repeat case_match; simplify_eq; done.
Qed.

Lemma admit_kept idxs p :
  (∀ c, c ∈ idxs → c ∈ candidates) →
  admitted_ok (admit_cut_registers incs view idxs p).1 ∧ stage_kept p (admit_cut_registers incs view idxs p).2.
Proof using Type.
  intros Hidxs. unfold admit_cut_registers.
  assert (admitted_ok (foldl (admit_step incs view) ([], p) idxs).1 ∧
          stage_kept p (foldl (admit_step incs view) ([], p) idxs).2) as [Ha Hk].
  { induction idxs as [|c l IH] using rev_ind; [split; [by intros a ?%not_elem_of_nil|done]|].
    destruct IH as [Ha Hk]; [intros x Hx; apply Hidxs, elem_of_app; by left|].
    assert (c ∈ candidates) as Hc by (apply Hidxs, elem_of_app; right; by left).
    rewrite foldl_app. simpl. destruct (foldl _ _ l) as [admitted q]. simpl in *.
    pose proof (admission_spec q c) as Hadm. destruct (admission incs view q c) as [|o|a]; simpl; [done| |].
    - split; [done|]. etrans; [exact Hk|]. apply set_cut_verdict_kept; [apply Hadm|]. exists c; naive_solver.
    - split; [|done]. intros x [Hx| ->%list_elem_of_singleton]%elem_of_app; [by apply Ha|].
      destruct Hadm as [-> ?]. done. }
  destruct (foldl _ _ idxs) as [admitted q]. simpl in *. split; [|done]. intros a. rewrite sort_by_key_perm. apply Ha.
Qed.

Lemma admitted_snoc admitted a :
  admitted_ok admitted → ac_op a ∈ candidates ∧ cuts (ac_op a) = true → admitted_ok (admitted ++ [a]).
Proof using Type. intros Ha ? x [Hx| ->%list_elem_of_singleton]%elem_of_app; [by apply Ha|done]. Qed.

Lemma reject_kept admitted p :
  admitted_ok admitted →
  admitted_ok (reject_sole_owner_cuts admitted p).1 ∧ stage_kept p (reject_sole_owner_cuts admitted p).2.
Proof using Type.
  intros Hok. unfold reject_sole_owner_cuts. case_bool_decide; [done|].
  induction admitted as [|a l IH] using rev_ind; [done|].
  destruct IH as [Ha Hk]; [intros x Hx; apply Hok, elem_of_app; by left|].
  assert (ac_op a ∈ candidates ∧ cuts (ac_op a) = true) as Hac by (apply Hok, elem_of_app; right; by left).
  rewrite foldl_app. simpl. destruct (foldl _ _ l) as [kept q]. simpl in *.
  destruct (closes_open_incarnation _ _); simpl; [|split; [by apply admitted_snoc|done]].
  split; [done|]. etrans; [exact Hk|]. apply set_cut_verdict_kept; [done|]. exists (ac_op a). naive_solver.
Qed.

Lemma stage_loop_kept depth admitted working kept p :
  admitted_ok admitted → admitted_ok kept →
  match stage_loop view depth admitted working kept p with
  | Ok (kept', q) => admitted_ok kept' ∧ stage_kept p q
  | Err q => ∃ q', stage_kept p q' ∧ q = contest depth q'
  end.
Proof using Type.
  revert working kept p. induction admitted as [|a l IH]; intros working kept p Hok Hkept; simpl; [done|].
  assert (admitted_ok l) as Hl by (intros x Hx; apply Hok; by right).
  destruct (peek_registers view working a) as [[]|[]].
  - specialize (IH working kept (set_cut_verdict (fc_hash (ac_op a)) (OutParked ParkedUnknownCutTarget) p) Hl Hkept).
    assert (stage_kept p (set_cut_verdict (fc_hash (ac_op a)) (OutParked ParkedUnknownCutTarget) p)) as Hs.
    { apply set_cut_verdict_kept; [done|]. eapply admitted_cut_at; [exact Hok|by left]. }
    destruct (stage_loop view depth l working kept _) as [[kept' q]|q].
    + destruct IH. split; [done|]. by etrans.
    + destruct IH as (q' & ? & ->). exists q'. split; [by etrans|done].
  - apply IH; [done|]. apply admitted_snoc; [done|]. apply Hok. by left.
  - by exists p.
Qed.

Lemma reserve_kept admitted p :
  admitted_ok admitted →
  admitted_ok (reserve_surviving_owner admitted p).1 ∧ stage_kept p (reserve_surviving_owner admitted p).2.
Proof using Type.
  intros Hok. unfold reserve_surviving_owner.
  assert (admitted_ok (foldl reserve_step (st_owners (dp_state p), [], p) admitted).1.2 ∧
          stage_kept p (foldl reserve_step (st_owners (dp_state p), [], p) admitted).2) as Hspec.
  { induction admitted as [|a l IH] using rev_ind; [split; [by intros a ?%not_elem_of_nil|done]|].
    destruct IH as [Ha Hk]; [intros x Hx; apply Hok, elem_of_app; by left|].
    assert (ac_op a ∈ candidates ∧ cuts (ac_op a) = true) as Hac by (apply Hok, elem_of_app; right; by left).
    rewrite foldl_app. simpl. destruct (foldl _ _ l) as [[surviving kept] q]. simpl in *.
    destruct (closes_open_incarnation _ _); [case_bool_decide|]; simpl; (split; [first [done|by apply admitted_snoc]|]); [|done..].
    etrans; [exact Hk|]. apply set_cut_verdict_kept; [done|]. exists (ac_op a). naive_solver. }
  destruct (foldl _ _ admitted) as [[surviving kept] q]. done.
Qed.

Definition with_registers (registers : Registers) (p : DepthPass) : DepthPass :=
  mkDepthPass (dp_state p) registers (dp_verdicts p) (dp_register_contributors p) (dp_classification p).

Definition extends_ok (extends : list (FoldCandidate * RegisterKey * Cut)) : Prop :=
  ∀ row, row ∈ extends → row.1.1 ∈ candidates ∧ cuts row.1.1 = true.

Lemma extend_kept depth_registers idxs p :
  (∀ c, c ∈ idxs → c ∈ candidates) →
  extends_ok (foldl (extend_step incs view depth_registers) ([], p) idxs).1 ∧
  stage_kept p (foldl (extend_step incs view depth_registers) ([], p) idxs).2.
Proof using Type.
  intros Hidxs. induction idxs as [|c l IH] using rev_ind; [split; [by intros a ?%not_elem_of_nil|done]|].
  destruct IH as [Ha Hk]; [intros x Hx; apply Hidxs, elem_of_app; by left|].
  assert (c ∈ candidates) as Hc by (apply Hidxs, elem_of_app; right; by left).
  rewrite foldl_app. simpl. destruct (foldl _ _ l) as [extends q]. simpl in *. unfold extension.
  destruct (cut_extend_register c) as [[[key cut] coord]|] eqn:Hr; [|done]. pose proof (cuts_extend c _ Hr) as Hcuts.
  assert (cut_at (fc_hash c)) as Hat by (by exists c).
  destruct (may_cut incs c q); simpl; [|done].
  case_bool_decide; [|case_bool_decide]; simpl;
    [split; [done|]; etrans; [exact Hk|]; by apply set_cut_verdict_kept..|].
  split; [|done]. intros row [Hrow| ->%list_elem_of_singleton]%elem_of_app; [by apply Ha|done].
Qed.

Lemma extend_loop_kept depth extends depth_registers p :
  extends_ok extends →
  match extend_loop view depth extends depth_registers p with
  | Ok (_, q) => stage_kept p q
  | Err q => ∃ q', stage_kept p q' ∧ q = contest depth q'
  end.
Proof using Type.
  revert depth_registers p. induction extends as [|[[c key] cut] l IH]; intros depth_registers p Hok; simpl; [done|].
  assert (extends_ok l) as Hl by (intros x Hx; apply Hok; by right).
  assert (cut_at (fc_hash c)) as Hat.
  { destruct (Hok (c, key, cut)) as [? ?]; [by left|]. by exists c. }
  destruct (join_register depth_registers key cut view) as [join registers']. destruct join.
  - specialize (IH registers' (add_contributor (fc_hash c) p) Hl). pose proof (add_contributor_kept _ p Hat).
    destruct (extend_loop _ _ _ _ _) as [[? q]|q]; [by etrans|].
    destruct IH as (q' & ? & ->). exists q'. split; [by etrans|done].
  - by exists p.
  - specialize (IH registers' (set_cut_verdict (fc_hash c) (OutParked ParkedUnknownCutTarget) p) Hl).
    pose proof (set_cut_verdict_kept _ (OutParked ParkedUnknownCutTarget) p eq_refl Hat).
    destruct (extend_loop _ _ _ _ _) as [[? q]|q]; [by etrans|].
    destruct IH as (q' & ? & ->). exists q'. split; [by etrans|done].
Qed.

Lemma commit_kept depth idxs admitted p :
  (∀ c, c ∈ idxs → c ∈ candidates) → admitted_ok admitted →
  match commit_registers incs view depth idxs admitted p with
  | Ok q => ∃ q' registers, stage_kept p q' ∧ q = with_registers registers q'
  | Err q => ∃ q', stage_kept p q' ∧ q = contest depth q'
  end.
Proof using Type.
  intros Hidxs Hok. unfold commit_registers.
  set (depth_registers := foldl _ (dp_registers p) admitted).
  assert (stage_kept p (foldl (fun p a => add_contributor (fc_hash (ac_op a)) p) p admitted)) as Hk.
  { generalize p. induction admitted as [|a l IH]; intros q; [done|]. simpl. etrans; [|apply IH].
    - apply add_contributor_kept. eapply admitted_cut_at; [exact Hok|by left].
    - intros x Hx. apply Hok. by right. }
  set (p1 := foldl _ p admitted) in *. destruct (extend_kept depth_registers idxs p1 Hidxs) as [He Hk'].
  destruct (foldl (extend_step _ _ _) ([], p1) idxs) as [extends p2]. simpl in He, Hk'.
  assert (extends_ok (sort_by_key (fun '(c, _, _) => fc_hash c) extends)) as He'.
  { intros row. rewrite sort_by_key_perm. apply He. }
  pose proof (extend_loop_kept depth _ depth_registers p2 He') as Hloop.
  destruct (extend_loop _ _ _ _ _) as [[registers q]|q]; simpl.
  - exists q, registers. split; [|done]. by do 2 (etrans; [eassumption|]).
  - destruct Hloop as (q' & ? & ->). exists q'. split; [|done]. by do 2 (etrans; [eassumption|]).
Qed.

(** *** Condemnation, once per depth *)

Definition newly_condemned (p : DepthPass) (c : FoldCandidate) : bool :=
  bool_decide (fc_hash c ≠ inc_genesis_owner_id incs) &&
  bool_decide (vd_condemned (dp_verdicts p) !! fc_hash c = None) &&
  match register_verdict c (dp_registers p) view with VerdictCondemned _ => true | _ => false end.
Definition newly_parked (p : DepthPass) (c : FoldCandidate) : bool :=
  bool_decide (fc_hash c ≠ inc_genesis_owner_id incs) &&
  bool_decide (vd_condemned (dp_verdicts p) !! fc_hash c = None) &&
  match register_verdict c (dp_registers p) view with VerdictParked _ => true | _ => false end.
Definition condemned_reason (p : DepthPass) (c : FoldCandidate) : CondemnedReason :=
  match register_verdict c (dp_registers p) view with VerdictCondemned r => r | _ => CondemnedBeyondCut end.
Definition parked_reason (p : DepthPass) (c : FoldCandidate) : ParkReason :=
  match register_verdict c (dp_registers p) view with VerdictParked r => r | _ => UnknownOwnerRef end.

(** The loop over the candidates, in closed form. *)
Definition rederived (p : DepthPass) (l : list FoldCandidate) : DepthPass :=
  mkDepthPass (foldl (fun s c => forget_mint c s) (dp_state p) (List.filter (newly_condemned p) l)) (dp_registers p)
    (mkFoldVerdicts
       (insert_all fc_hash (condemned_reason p) (vd_condemned (dp_verdicts p)) (List.filter (newly_condemned p) l))
       (insert_all fc_hash (parked_reason p) ∅ (List.filter (newly_parked p) l))
       (vd_cut_verdicts (dp_verdicts p)))
    (dp_register_contributors p) (dp_classification p).

Lemma rederive_spec p : NoDup (fc_hash <$> candidates) → rederive_condemnation candidates incs view p = rederived p candidates.
Proof using Type.
  intros Hnd. unfold rederive_condemnation.
  induction candidates as [|c l IH] using rev_ind; [done|].
  rewrite fmap_app in Hnd. apply NoDup_app in Hnd as (Hnd & Hc & _).
  rewrite foldl_app, IH by done. simpl. unfold rederive_step.
  assert (vd_condemned (dp_verdicts (rederived p l)) !! fc_hash c = vd_condemned (dp_verdicts p) !! fc_hash c) as Hl.
  { simpl. apply insert_all_notin. intros (x & Hx & [_ Hin]%elem_of_filter_bool)%list_elem_of_fmap.
    apply (Hc (fc_hash c)); [rewrite Hx; by apply list_elem_of_fmap_2|by left]. }
  rewrite Hl. unfold rederived. cbn [dp_registers].
  assert (∀ b, (bool_decide (fc_hash c = inc_genesis_owner_id incs) ||
           bool_decide (is_Some (vd_condemned (dp_verdicts p) !! fc_hash c))) = b →
          (bool_decide (fc_hash c ≠ inc_genesis_owner_id incs) &&
           bool_decide (vd_condemned (dp_verdicts p) !! fc_hash c = None)) = negb b) as Hb.
  { intros b <-. destruct (decide (fc_hash c = inc_genesis_owner_id incs)) as [He|He].
    - by rewrite (bool_decide_true _ He), (bool_decide_false (fc_hash c ≠ _)) by auto.
    - rewrite (bool_decide_false _ He), (bool_decide_true _ He). simpl.
      destruct (vd_condemned (dp_verdicts p) !! fc_hash c); [|done]. rewrite bool_decide_false by done.
      rewrite bool_decide_true by (by eexists). done. }
  rewrite !List.filter_app. simpl.
  set (skip := _ || _) in *. specialize (Hb skip eq_refl).
  assert (newly_condemned p c =
    negb skip && match register_verdict c (dp_registers p) view with VerdictCondemned _ => true | _ => false end) as ->
    by (unfold newly_condemned; by rewrite Hb).
  assert (newly_parked p c =
    negb skip && match register_verdict c (dp_registers p) view with VerdictParked _ => true | _ => false end) as ->
    by (unfold newly_parked; by rewrite Hb).
  destruct skip; simpl; [by rewrite !app_nil_r|].
  unfold insert_all. destruct (register_verdict c (dp_registers p) view) as [r|r|] eqn:Hv;
    rewrite ?app_nil_r, ?foldl_app; simpl; unfold condemned_reason, parked_reason; rewrite ?Hv; done.
Qed.

(** *** The invariant of a pass *)

Record pass_inv (p : DepthPass) : Prop := {
  pi_cut h o : vd_cut_verdicts (dp_verdicts p) !! h = Some o → is_effective o = false ∧ cut_at h;
  pi_contributor h : h ∈ dp_register_contributors p → cut_at h;
  pi_genesis_condemned : vd_condemned (dp_verdicts p) !! inc_genesis_owner_id incs = None;
  pi_genesis_parked : vd_parked (dp_verdicts p) !! inc_genesis_owner_id incs = None;
  pi_derived c : c ∈ candidates → fc_hash c ≠ inc_genesis_owner_id incs →
    vd_condemned (dp_verdicts p) !! fc_hash c = None →
    match register_verdict c (dp_registers p) view with
    | VerdictCondemned _ => False
    | VerdictParked r => vd_parked (dp_verdicts p) !! fc_hash c = Some r
    | VerdictClear => vd_parked (dp_verdicts p) !! fc_hash c = None
    end;
}.

Lemma pass_inv_kept p q : stage_kept p q → pass_inv p → pass_inv q.
Proof using Type.
  intros [_ Hr Hc Hp _ Hcut Hcon] [Hi1 Hi2 Hi3 Hi4 Hi5]. split.
  - intros h o [?|?]%Hcut; auto.
  - intros h [?|?]%Hcon; auto.
  - congruence.
  - congruence.
  - intros c. rewrite Hr, Hc, Hp. apply Hi5.
Qed.

Lemma pass_inv_same p q :
  dp_registers q = dp_registers p → dp_verdicts q = dp_verdicts p →
  dp_register_contributors q = dp_register_contributors p → pass_inv p → pass_inv q.
Proof using Type. intros Hr Hv Hc [Hi1 Hi2 Hi3 Hi4 Hi5]. split; rewrite ?Hr, ?Hv, ?Hc; done. Qed.

(** Before the re-derivation only the part that does not mention registers is needed. *)
Lemma pass_inv_rederived p q registers :
  NoDup (fc_hash <$> candidates) → pass_inv p → stage_kept p q →
  pass_inv (rederived (with_registers registers q) candidates).
Proof using Type.
  intros Hnd Hp Hk. pose proof (pass_inv_kept p q Hk Hp) as [Hi1 Hi2 Hi3 Hi4 _].
  set (q' := with_registers registers q).
  assert (∀ f, inc_genesis_owner_id incs ∈ fc_hash <$> List.filter f candidates →
    ∃ c, f c = true ∧ fc_hash c = inc_genesis_owner_id incs) as Hgen.
  { intros f (c & Heq & [? _]%elem_of_filter_bool)%list_elem_of_fmap. eauto. }
  split; simpl; try done.
  - rewrite insert_all_notin; [done|]. intros (c & Hc & Hg)%Hgen. unfold newly_condemned in Hc.
    by rewrite bool_decide_false in Hc by auto.
  - rewrite insert_all_notin; [by rewrite lookup_empty|]. intros (c & Hc & Hg)%Hgen. unfold newly_parked in Hc.
    by rewrite bool_decide_false in Hc by auto.
  - intros c Hc Hg Hcond.
    assert (newly_condemned q' c = false) as Hn.
    { apply not_true_iff_false. intros Hn. rewrite insert_all_in in Hcond; [done|by apply NoDup_fmap_filter|].
      by apply elem_of_filter_bool. }
    assert (vd_condemned (dp_verdicts q') !! fc_hash c = None) as Hq.
    { simpl. destruct (vd_condemned (dp_verdicts q) !! fc_hash c) as [r|] eqn:Hr; [|done].
      assert (is_Some (insert_all fc_hash (condemned_reason q') (vd_condemned (dp_verdicts q))
        (List.filter (newly_condemned q') candidates) !! fc_hash c)) as [? Hs].
      { apply insert_all_dom. left. by eexists. }
      by rewrite Hs in Hcond. }
    unfold newly_condemned in Hn. rewrite !bool_decide_true in Hn by done. simpl in Hn. fold q'.
    destruct (register_verdict c registers view) as [r|r|] eqn:Hv; [done| |].
    + assert (newly_parked q' c = true) as Hpk by (unfold newly_parked; simpl; rewrite Hv; by rewrite !bool_decide_true).
      rewrite insert_all_in; [|by apply NoDup_fmap_filter|by apply elem_of_filter_bool].
      unfold parked_reason. simpl. by rewrite Hv.
    + rewrite insert_all_notin; [by rewrite lookup_empty|].
      intros (x & Hx & [Hpx Hin]%elem_of_filter_bool)%list_elem_of_fmap.
      rewrite <- (NoDup_fmap_inj fc_hash candidates c x Hnd Hc Hin Hx) in Hpx.
      unfold newly_parked in Hpx. simpl in Hpx. rewrite Hv, andb_false_r in Hpx. done.
Qed.

(** One depth: it breaks with the account contested there, or it commits registers, re-derives
    the condemned set and runs the effects of its candidates. *)
Lemma fold_depth_spec depth idxs p outcomes :
  NoDup (fc_hash <$> candidates) → (∀ c, c ∈ idxs → c ∈ candidates) →
  match fold_depth candidates incs view depth idxs p outcomes with
  | Err q => ∃ q', stage_kept p q' ∧ q = contest depth q'
  | Ok r => ∃ q registers, stage_kept p q ∧
      r = run_effect_pass incs idxs (rederived (with_registers registers q) candidates) outcomes
  end.
Proof using Type.
  intros Hnd Hidxs. unfold fold_depth. destruct (admit_kept idxs p Hidxs) as [Ha1 Hk1].
  destruct (admit_cut_registers incs view idxs p) as [admitted1 p1]. simpl in Ha1, Hk1.
  destruct (reject_kept admitted1 p1 Ha1) as [Ha2 Hk2].
  destruct (reject_sole_owner_cuts admitted1 p1) as [admitted2 p2]. simpl in Ha2, Hk2.
  pose proof (stage_loop_kept depth admitted2 (dp_registers p2) [] p2 Ha2 ltac:(by intros a ?%not_elem_of_nil)) as Hst.
  unfold stage_register_joins. destruct (stage_loop _ _ _ _ _ _) as [[admitted3 p3]|q]; simpl.
  2: { destruct Hst as (q' & ? & ->). exists q'. split; [|done]. by do 2 (etrans; [eassumption|]). }
  destruct Hst as [Ha3 Hk3]. assert (stage_kept p p3) as Hk by (by do 2 (etrans; [eassumption|])).
  destruct (has_condemn_cycle admitted3 view); [by exists p3|].
  destruct (reserve_kept admitted3 p3 Ha3) as [Ha4 Hk4].
  destruct (reserve_surviving_owner admitted3 p3) as [admitted4 p4]. simpl in Ha4, Hk4.
  pose proof (commit_kept depth idxs admitted4 p4 Hidxs Ha4) as Hc.
  destruct (commit_registers _ _ _ _ _ _) as [q|q]; simpl.
  - destruct Hc as (q' & registers & ? & ->). exists q', registers.
    split; [by do 2 (etrans; [eassumption|])|]. by rewrite rederive_spec.
  - destruct Hc as (q' & ? & ->). exists q'. split; [|done]. by do 2 (etrans; [eassumption|]).
Qed.

(** ** Visiting candidates *)

Definition visit (verdicts : FoldVerdicts) (acc : FoldState * Outcomes) (c : FoldCandidate) : FoldState * Outcomes :=
  let '(o, state) := effect_step incs verdicts c acc.1 in (state, <[fc_hash c := o]> acc.2).

Lemma effect_pass_visits idxs verdicts state outcomes :
  effect_pass idxs incs verdicts state outcomes =
  foldl (visit verdicts) (state, outcomes) (sort_by_key effect_order idxs).
Proof using Type.
  unfold effect_pass. generalize (sort_by_key effect_order idxs). intros l. revert state outcomes.
  induction l as [|c l IH]; intros state outcomes; [done|]. simpl. unfold visit at 2. simpl.
  destruct (effect_step incs verdicts c state). apply IH.
Qed.

Lemma visits_other verdicts l acc h : h ∉ fc_hash <$> l → (foldl (visit verdicts) acc l).2 !! h = acc.2 !! h.
Proof using Type.
  revert acc. induction l as [|c l IH]; intros acc; [done|]. rewrite fmap_cons, not_elem_of_cons. intros [Hc Hl].
  simpl. rewrite IH by done. unfold visit. destruct (effect_step _ _ _ _). simpl. by rewrite lookup_insert_ne.
Qed.

(** The candidates a replay visits, in order. *)
Definition before_limit (before : option nat) (row : nat * list FoldCandidate) : bool :=
  match before with Some limit => negb (limit <=? row.1)%nat | None => true end.
Definition replayed (rows : list (nat * list FoldCandidate)) (before : option nat) : list FoldCandidate :=
  mjoin ((fun row => sort_by_key effect_order row.2) <$> List.filter (before_limit before) rows).

Definition before_of (c : AccountClassification) : option nat :=
  match c with Live => None | Contested d => Some d end.

Lemma replayed_elem rows before c :
  c ∈ replayed rows before ↔ ∃ row, row ∈ rows ∧ before_limit before row = true ∧ c ∈ row.2.
Proof using Type.
  unfold replayed. rewrite list_elem_of_join. split.
  - intros (l & Hc & (row & -> & [? ?]%elem_of_filter_bool)%list_elem_of_fmap). exists row.
    by rewrite sort_by_key_perm in Hc.
  - intros (row & Hrow & Hb & Hc). exists (sort_by_key effect_order row.2). split; [by rewrite sort_by_key_perm|].
    apply list_elem_of_fmap. exists row. split; [done|]. by apply elem_of_filter_bool.
Qed.

(** Past the limit of an ascending list everything is past it. *)
Lemma replayed_past limit rows :
  Forall (fun row => (limit ≤ row.1)%nat) rows → replayed rows (Some limit) = [].
Proof using Type.
  intros Hr. unfold replayed. assert (List.filter (before_limit (Some limit)) rows = []) as ->; [|done].
  induction Hr as [|row rows Hrow _ IH]; [done|]. simpl. rewrite IH.
  by rewrite (proj2 (Nat.leb_le limit row.1) Hrow).
Qed.

Lemma replay_visits (strata : Strata) before verdicts outcomes :
  replay_effect_state strata incs before verdicts outcomes =
  foldl (visit verdicts) (seeded (inc_genesis_owner_id incs), outcomes) (replayed (btree_iter strata) before).
Proof using Type.
  unfold replay_effect_state. pose proof (btree_ascending strata) as Hasc.
  generalize (seeded (inc_genesis_owner_id incs)). revert outcomes.
  induction Hasc as [|[d idxs] rows Hasc IH Hlt]; intros outcomes state; [done|].
  destruct before as [limit|].
  - simpl. destruct (limit <=? d)%nat eqn:Hd.
    + apply Nat.leb_le in Hd. rewrite replayed_past; [done|]. constructor; [done|].
      eapply Forall_impl; [exact Hlt|]. intros row. simpl. lia.
    + unfold replayed. simpl. rewrite Hd. simpl. rewrite foldl_app, <- effect_pass_visits.
      destruct (effect_pass idxs incs verdicts state outcomes). apply IH.
  - unfold replayed. simpl. rewrite foldl_app, <- effect_pass_visits.
    destruct (effect_pass idxs incs verdicts state outcomes). apply IH.
Qed.

(** The depths of a pass: the invariant holds at the end, a contested account names one of the
    depths, and only the candidates that are replayed have got outcomes. *)
Lemma fold_depths_spec rows p outcomes :
  NoDup (fc_hash <$> candidates) → (∀ row c, row ∈ rows → c ∈ row.2 → c ∈ candidates) →
  StronglySorted (fun r r' => (r.1 < r'.1)%nat) rows → pass_inv p → dp_classification p = Live →
  let '(p', outcomes') := fold_depths candidates incs view rows p outcomes in
  pass_inv p' ∧
  match dp_classification p' with Live => True | Contested k => k ∈ rows.*1 end ∧
  (∀ h, h ∉ fc_hash <$> replayed rows (before_of (dp_classification p')) → outcomes' !! h = outcomes !! h).
Proof using Type.
  intros Hnd Hrows Hasc. revert p outcomes. induction Hasc as [|[d idxs] rows Hasc IH Hlt]; intros p outcomes Hinv Hlive.
  { simpl. by rewrite Hlive. }
  assert (∀ c, c ∈ idxs → c ∈ candidates) as Hidxs by (intros c Hc; apply (Hrows (d, idxs)); [by left|done]).
  pose proof (fold_depth_spec d idxs p outcomes Hnd Hidxs) as Hd. simpl.
  destruct (fold_depth candidates incs view d idxs p outcomes) as [[p1 o1]|q].
  2: { destruct Hd as (q' & Hk & ->). split_and!; [|simpl; by left|done].
       eapply pass_inv_same; [..|by eapply pass_inv_kept]; done. }
  destruct Hd as (q & registers & Hk & Hr).
  assert (pass_inv p1 ∧ dp_classification p1 = Live ∧ ∀ h, h ∉ fc_hash <$> idxs → o1 !! h = outcomes !! h) as (Hi1 & Hl1 & Ho1).
  { unfold run_effect_pass in Hr. rewrite effect_pass_visits in Hr.
    pose proof (visits_other (dp_verdicts (rederived (with_registers registers q) candidates)) (sort_by_key effect_order idxs)
      (dp_state (rederived (with_registers registers q) candidates), outcomes)) as Hother.
    destruct (foldl _ _ _) as [state o2]. simplify_eq. split_and!.
    - eapply pass_inv_same; [..|by eapply (pass_inv_rederived p q registers)]; done.
    - simpl. by rewrite (sk_classification _ _ Hk).
    - intros h Hh. apply Hother. by rewrite sort_by_key_perm. }
  specialize (IH ltac:(intros row c Hrow; apply Hrows; by right) p1 o1 Hi1 Hl1).
  destruct (fold_depths candidates incs view rows p1 o1) as [p' o']. destruct IH as (Hi & Hc & Ho).
  split_and!; [done|destruct (dp_classification p'); [done|by right]|]. intros h Hh.
  assert (before_limit (before_of (dp_classification p')) (d, idxs) = true) as Hb.
  { destruct (dp_classification p') as [|k]; [done|]. simpl. apply negb_true_iff, Nat.leb_gt.
    apply list_elem_of_fmap in Hc as (row & -> & Hrow). rewrite Forall_forall in Hlt. by apply Hlt. }
  unfold replayed in Hh. simpl in Hh. rewrite Hb in Hh. simpl in Hh. rewrite fmap_app, elem_of_app in Hh.
  rewrite Ho by auto. apply Ho1. intros Hin. apply Hh. left. by rewrite sort_by_key_perm.
Qed.
End Stages.
