(* ===== verification/FoldReplay.v ===== *)
(** * The replayed effects ([account/fold.rs], [replay_effect_state])

    What an effective outcome of the replay rests on: the incarnation it acts under is effective
    and belongs to its device, the enrollment, stream or grant it needs is effective, and a device
    has one enrollment.  The dependency closure of a pass finds nothing to remove. *)

From S2P Require Import Prelude Cbor Minicbor Hash Op Device Entry Stream Branch Envelope Candidate AccountOps FoldTypes Fold FoldDepth FoldTotal FoldPass.

Local Open Scope Z_scope.

(** The device a candidate enrolls. *)
Definition enrolls (c : FoldCandidate) : option DeviceFingerprint :=
  match fc_op c with
  | AccountGenesis _ _ _ _ _ => Some (ah_device_fingerprint (fc_header c))
  | DeviceAdd device _ _ _ _ => Some device
  | _ => None
  end.

Section Replay.
Context `{Minicbor} `{Sha256} `{Ed25519}.
Context (candidates : list FoldCandidate) (incs : Incarnations) (genesis : FoldCandidate) (verdicts : FoldVerdicts).

Local Abbreviation g := (fc_hash genesis).

(** [c] is effective in [o] and among [l]. *)
Definition eff_in (l : list FoldCandidate) (o : Outcomes) (c : FoldCandidate) : Prop :=
  c ∈ l ∧ effective_in o (fc_hash c) = true.

(** What an operation needs, of the effective candidates. *)
Definition supported (E : FoldCandidate → Prop) (c : FoldCandidate) : Prop :=
  match fc_op c with
  | OwnerPromote device => ∃ x, E x ∧ enrolls x = Some device
  | StreamGrant stream_id _ _ => ∃ x spec, E x ∧ fc_op x = StreamOwn stream_id spec ∧ is_public_spec spec = true
  | StreamRevoke stream_id grantee grant_id _ _ =>
      ∃ x role, E x ∧ fc_hash x = grant_id ∧ fc_op x = StreamGrant stream_id grantee role
  | _ => True
  end.

(** The incarnation a candidate acts under is one of [E], and was minted for its device. *)
Definition authorized (E : FoldCandidate → Prop) (c : FoldCandidate) : Prop :=
  ∃ mint, E mint ∧ is_mint mint = true ∧ author_incarnation_id c = Some (fc_hash mint) ∧
          subject_device mint = ah_device_fingerprint (fc_header c).

Record tracks (E : FoldCandidate → Prop) (s : FoldState) : Prop := {
  tr_first c : E c → E genesis;
  tr_live x : x ∈ st_live s → x = g ∨ ∃ c, E c ∧ fc_hash c = x;
  tr_roster d r : st_roster s !! d = Some r → ∃ c, E c ∧ fc_hash c = r ∧ enrolls c = Some d;
  tr_owner d i : st_owners s !! d = Some i → ∃ c, E c ∧ fc_hash c = i;
  tr_tombstoned d : d ∈ st_tombstoned s → ∃ c, E c;
  tr_public x : x ∈ st_public_streams s →
    ∃ c spec, E c ∧ fc_op c = StreamOwn x spec ∧ is_public_spec spec = true;
  tr_grant i lg : st_grants s !! i = Some lg →
    ∃ c, E c ∧ fc_hash c = i ∧ fc_op c = StreamGrant (lg_stream_id lg) (lg_grantee_account_id lg) (lg_role lg);
  tr_seen : st_genesis_seen s = true → ∃ c, E c;
  tr_enrolled c d : E c → enrolls c = Some d → is_Some (st_roster s !! d) ∨ d ∈ st_tombstoned s;
  tr_unique c c' d : E c → E c' → enrolls c = Some d → enrolls c' = Some d → c = c';
  tr_sound c : E c →
    authorized E c ∧ supported E c ∧
    vd_condemned verdicts !! fc_hash c = None ∧ vd_parked verdicts !! fc_hash c = None;
}.

Lemma supported_mono (E E' : FoldCandidate → Prop) c : (∀ x, E x → E' x) → supported E c → supported E' c.
Proof using Type. intros HE. unfold supported. destruct (fc_op c); naive_solver. Qed.

Lemma authorized_mono (E E' : FoldCandidate → Prop) c : (∀ x, E x → E' x) → authorized E c → authorized E' c.
Proof using Type. unfold authorized. naive_solver. Qed.

(** A visit that has no effect. *)
Lemma eff_in_snoc_skip (seen : list FoldCandidate) (o : Outcomes) (c : FoldCandidate) (out : Outcome) (x : FoldCandidate) :
  fc_hash c ∉ fc_hash <$> seen → is_effective out = false →
  eff_in (seen ++ [c]) (<[fc_hash c := out]> o) x ↔ eff_in seen o x.
Proof using Type.
  intros Hn Ho. unfold eff_in, effective_in. rewrite elem_of_app, list_elem_of_singleton. split.
  - intros [Hin He]. destruct (decide (fc_hash x = fc_hash c)) as [Heq|Hne].
    + rewrite Heq, lookup_insert_eq in He. congruence.
    + rewrite lookup_insert_ne in He by done. destruct Hin as [?| ->]; done.
  - intros [Hin He]. rewrite lookup_insert_ne; [auto|]. intros Heq. apply Hn. rewrite Heq. by apply list_elem_of_fmap_2.
Qed.

Lemma eff_in_snoc (seen : list FoldCandidate) (o : Outcomes) (c : FoldCandidate) (e : Z) (x : FoldCandidate) :
  fc_hash c ∉ fc_hash <$> seen →
  eff_in (seen ++ [c]) (<[fc_hash c := OutEffective e]> o) x ↔ eff_in seen o x ∨ x = c.
Proof using Type.
  intros Hn. unfold eff_in, effective_in. rewrite elem_of_app, list_elem_of_singleton. split.
  - intros [[Hin| ->] He]; [|by right]. left. split; [done|]. rewrite lookup_insert_ne in He; [done|].
    intros Heq. apply Hn. rewrite Heq. by apply list_elem_of_fmap_2.
  - intros [[Hin He]| ->]; [|rewrite lookup_insert_eq; auto]. split; [auto|].
    rewrite lookup_insert_ne; [done|]. intros Heq. apply Hn. rewrite Heq. by apply list_elem_of_fmap_2.
Qed.

Lemma tracks_ext (E E' : FoldCandidate → Prop) s : (∀ x, E' x ↔ E x) → tracks E s → tracks E' s.
Proof using Type.
  intros He [t1 t2 t3 t4 t5 t6 t7 t8 t9 t10 t11].
  assert (∀ x, E x → E' x) as Hto by (intros x; apply He).
  assert (∀ x, E' x → E x) as Hfrom by (intros x; apply He). split.
  - eauto.
  - intros x Hx. destruct (t2 x Hx) as [?|(c & ? & ?)]; eauto.
  - intros d r Hd. destruct (t3 d r Hd) as (c & ? & ?). eauto.
  - intros d i Hd. destruct (t4 d i Hd) as (c & ? & ?). eauto.
  - intros d Hd. destruct (t5 d Hd) as (c & ?). eauto.
  - intros x Hx. destruct (t6 x Hx) as (c & spec & ? & ? & ?). eauto 6.
  - intros i lg Hi. destruct (t7 i lg Hi) as (c & ? & ?). eauto.
  - intros Hs. destruct (t8 Hs) as (c & ?). eauto.
  - eauto.
  - eauto.
  - intros c Hc. destruct (t11 c (Hfrom c Hc)) as (? & ? & ?).
    split_and!; [by eapply authorized_mono|by eapply supported_mono|naive_solver..].
Qed.

(** ** One effective visit *)

Definition add_eff (E : FoldCandidate → Prop) (c x : FoldCandidate) : Prop := E x ∨ x = c.

(** How an effect changes the state. *)
Record effect_of (c : FoldCandidate) (s s' : FoldState) : Prop := {
  ef_live x : x ∈ st_live s' → x ∈ st_live s ∨ x = fc_hash c;
  ef_roster d r : st_roster s' !! d = Some r → st_roster s !! d = Some r ∨ (r = fc_hash c ∧ enrolls c = Some d);
  ef_owner d i : st_owners s' !! d = Some i → st_owners s !! d = Some i ∨ i = fc_hash c;
  ef_public x : x ∈ st_public_streams s' →
    x ∈ st_public_streams s ∨ ∃ spec, fc_op c = StreamOwn x spec ∧ is_public_spec spec = true;
  ef_grant i lg : st_grants s' !! i = Some lg →
    (∃ lg0, st_grants s !! i = Some lg0 ∧ lg_stream_id lg0 = lg_stream_id lg ∧
            lg_grantee_account_id lg0 = lg_grantee_account_id lg ∧ lg_role lg0 = lg_role lg) ∨
    (i = fc_hash c ∧ fc_op c = StreamGrant (lg_stream_id lg) (lg_grantee_account_id lg) (lg_role lg));
  ef_keeps d : is_Some (st_roster s !! d) ∨ d ∈ st_tombstoned s → is_Some (st_roster s' !! d) ∨ d ∈ st_tombstoned s';
  ef_enrolls d : enrolls c = Some d → is_Some (st_roster s' !! d) ∨ d ∈ st_tombstoned s';
}.

Lemma apply_effect_of c s : effect_of c s (apply_effect c s).
Proof using Type.
  unfold apply_effect. destruct c as [e op]. unfold fc_op at 1. destruct op; simpl.
  - split; simpl; unfold enrolls, fc_op.
    + set_solver.
    + intros d r [[<- <-]|[_ ?]]%lookup_insert_Some; auto.
    + intros d i [[<- <-]|[_ ?]]%lookup_insert_Some; auto.
    + auto.
    + eauto 10.
    + intros d [?|?]; [left; by apply lookup_insert_is_Some_mono|auto].
    + intros d [= <-]. left. rewrite lookup_insert_eq. by eexists.
  - case_bool_decide; split; simpl; unfold enrolls, fc_op.
    + set_solver.
    + intros d r [[<- <-]|[_ ?]]%lookup_insert_Some; auto.
    + intros d i [[<- <-]|[_ ?]]%lookup_insert_Some; auto.
    + auto.
    + eauto 10.
    + intros d [?|?]; [left; by apply lookup_insert_is_Some_mono|auto].
    + intros d [= <-]. left. rewrite lookup_insert_eq. by eexists.
    + auto.
    + intros d r [[<- <-]|[_ ?]]%lookup_insert_Some; auto.
    + auto.
    + auto.
    + eauto 10.
    + intros d [?|?]; [left; by apply lookup_insert_is_Some_mono|auto].
    + intros d [= <-]. left. rewrite lookup_insert_eq. by eexists.
  - split; simpl; auto; [intros x r [_ ?]%lookup_delete_Some; auto..|eauto 10| |done].
    intros d [Hd|Hd]; [|right; set_solver]. destruct (decide (d = device_fingerprint)) as [->|Hne]; [right; set_solver|].
    left. by rewrite lookup_delete_ne.
  - split; simpl; auto; [set_solver| |eauto 10|done].
    intros d i [[<- <-]|[_ ?]]%lookup_insert_Some; auto.
  - case_bool_decide; split; simpl; auto; try done; [|eauto 10..].
    intros x r [_ ?]%lookup_delete_Some; auto.
  - split; simpl; auto; try done. eauto 10.
  - split; simpl; auto; try done; [|eauto 10]. intros x. unfold fc_op. destruct (is_public_spec stream_spec_bytes) eqn:Hp; [|auto].
    intros [->%elem_of_singleton|?]%elem_of_union; eauto.
  - split; simpl; auto; try done. intros i lg [[<- <-]|[_ ?]]%lookup_insert_Some; [by right|eauto 10].
  - split; simpl; auto; try done. intros i lg Hi. left. destruct (decide (i = grant_id)) as [->|Hne].
    + rewrite lookup_alter_eq in Hi. apply fmap_Some in Hi as (lg0 & ? & ->). by exists lg0.
    + rewrite lookup_alter_ne in Hi by done. eauto.
  - split; simpl; auto; try done. eauto 10.
Qed.

Lemma tracks_step E c s s' :
  tracks E s → effect_of c s s' → (∀ x d, E x → enrolls x = Some d → enrolls c = Some d → False) →
  c = genesis ∨ E genesis → authorized (add_eff E c) c → supported (add_eff E c) c →
  vd_condemned verdicts !! fc_hash c = None → vd_parked verdicts !! fc_hash c = None → tracks (add_eff E c) s'.
Proof using Type.
  intros [t1 t2 t3 t4 t5 t6 t7 t8 t9 t10 t11] [e1 e2 e3 e4 e5 e6 e7] Hu Hf Ha Hs Hc Hp.
  assert (∀ x, E x → add_eff E c x) as Hto by (by left).
  assert (add_eff E c c) as Hcc by (by right). split.
  - intros x _. destruct Hf as [<-|?]; auto.
  - intros x [Hx| ->]%e1; [|eauto]. destruct (t2 x Hx) as [?|(y & ? & ?)]; eauto.
  - intros d r [Hd|[-> ?]]%e2; [|eauto]. destruct (t3 d r Hd) as (y & ? & ?). eauto.
  - intros d i [Hd| ->]%e3; [|eauto]. destruct (t4 d i Hd) as (y & ? & ?). eauto.
  - eauto.
  - intros x [Hx|(spec & ? & ?)]%e4; [|eauto 6]. destruct (t6 x Hx) as (y & spec & ? & ? & ?). eauto 6.
  - intros i lg [(lg0 & Hi & <- & <- & <-)|[-> ?]]%e5; [|eauto]. destruct (t7 i lg0 Hi) as (y & ? & ?). eauto.
  - eauto.
  - intros x d [Hx| ->] Hd; [|auto]. apply e6. eauto.
  - intros x y d [Hx| ->] [Hy| ->] Hdx Hdy; [by eapply t10|exfalso; eauto..|done].
  - intros x [Hx| ->]; [|done]. destruct (t11 x Hx) as (? & ? & ?).
    split_and!; [by eapply authorized_mono|by eapply supported_mono|naive_solver..].
Qed.

(** ** The visits of a replay *)

Context (Hnd : NoDup (fc_hash <$> candidates)) (Hgen : genesis ∈ candidates) (Hroot : is_root genesis = true)
  (Hid : inc_genesis_owner_id incs = g).
Context (Hinc : ∀ h mint, inc_candidate incs h = Some mint → mint ∈ candidates ∧ is_mint mint = true ∧ fc_hash mint = h).

Lemma live_authority c s :
  authority_status c incs s (vd_parked verdicts) = AuthLive →
  ∃ mint, mint ∈ candidates ∧ is_mint mint = true ∧ author_incarnation_id c = Some (fc_hash mint) ∧
          subject_device mint = ah_device_fingerprint (fc_header c) ∧ fc_hash mint ∈ st_live s.
Proof using Hinc.
  unfold authority_status. destruct (author_incarnation_id c) as [inc|]; [|done].
  destruct (inc_candidate incs inc) as [mint|] eqn:Hm; [|done]. apply Hinc in Hm as (Hm & Hmint & <-).
  case_bool_decide as Hs; [done|]. case_bool_decide as Hl; [|by case_match]. intros _. exists mint.
  split_and!; try done.
Qed.

(** An effective operation has what it needs, and enrolls no device twice. *)
Lemma live_supported E c s : tracks E s → classify_live c s = VerdictEffective → supported E c.
Proof using Type.
  intros Ht. unfold classify_live, supported. intros Hc. destruct (fc_op c) eqn:Hop; try done.
  - destruct (bool_decide (is_Some (st_roster s !! device_fingerprint))) eqn:Hr; [|done].
    apply bool_decide_eq_true in Hr as [r Hr]. apply (tr_roster E s Ht) in Hr as (x & ? & _ & ?). eauto.
  - destruct (bool_decide (stream_id ∉ st_public_streams s)) eqn:Hp; [done|].
    apply bool_decide_eq_false, dec_stable in Hp. apply (tr_public E s Ht) in Hp as (x & spec & ? & ? & ?). eauto 6.
  - unfold matches_open_grant in Hc. destruct (st_grants s !! grant_id) as [lg|] eqn:Hg; [|by rewrite andb_false_r in Hc].
    apply (tr_grant E s Ht) in Hg as (x & Hx & Hh & Hxop).
    destruct (bool_decide (lg_stream_id lg = stream_id)) eqn:Hstream; [|by rewrite !andb_false_r in Hc].
    destruct (bool_decide (lg_grantee_account_id lg = grantee_account_id)) eqn:Hgrantee; [|by rewrite !andb_false_r in Hc].
    apply bool_decide_eq_true in Hstream as <-, Hgrantee as <-. eauto.
Qed.

Lemma live_enrolls E c s x d :
  tracks E s → classify_live c s = VerdictEffective → E x → enrolls x = Some d → enrolls c = Some d →
  author_incarnation_id c = Some (fc_hash c).
Proof using Type.
  intros Ht. unfold classify_live, author_incarnation_id. intros Hc Hx Hd Hcd. unfold enrolls in Hcd.
  destruct (fc_op c); try done. simplify_eq. case_bool_decide as Ht1; [done|]. case_bool_decide as Ht2; [done|].
  destruct (tr_enrolled E s Ht x d Hx Hd); done.
Qed.

(** The founder's later entries come after the genesis. *)
Definition after_genesis (seen : list FoldCandidate) (c : FoldCandidate) : Prop :=
  c ≠ genesis → author_incarnation_id c = Some g → ah_device_fingerprint (fc_header c) = subject_device genesis →
  genesis ∈ seen.

Lemma effective_visit E c s :
  tracks E s → c ∈ candidates → (∀ x, E x → x ∈ candidates ∧ fc_hash x ≠ fc_hash c) →
  (c ≠ genesis → author_incarnation_id c = Some g →
   ah_device_fingerprint (fc_header c) = subject_device genesis → E genesis) →
  vd_condemned verdicts !! fc_hash c = None → vd_parked verdicts !! fc_hash c = None →
  classify_effect c incs s (vd_parked verdicts) = VerdictEffective →
  tracks (add_eff E c) (apply_effect c (take_epoch s).2) ∧
  (c = genesis ∨ ∃ mint, E mint ∧ author_incarnation_id c = Some (fc_hash mint)).
Proof using Hnd Hgen Hinc.
  intros Ht Hc HE Hfirst Hcond Hpark Heff. unfold classify_effect in Heff.
  destruct (authority_status c incs s (vd_parked verdicts)) eqn:Ha; try done.
  apply live_authority in Ha as (mint & Hm & Hmint & Hai & Hsub & Hlive).
  assert ((mint = genesis ∧ fc_hash mint = g) ∨ E mint) as Hmg.
  { destruct (tr_live E s Ht _ Hlive) as [Hx|(x & Hx & Heq)].
    - left. split; [by apply (NoDup_fmap_inj fc_hash candidates)|done].
    - right. rewrite <- (NoDup_fmap_inj fc_hash candidates x mint Hnd); try done. by apply HE. }
  assert (c = genesis ∨ E genesis) as Hg.
  { destruct (decide (fc_hash c = g)) as [Heq|Hne]; [left; by apply (NoDup_fmap_inj fc_hash candidates)|].
    right. destruct Hmg as [[-> _]|HEm]; [|by eapply (tr_first E s Ht)].
    apply Hfirst; [congruence|done|done]. }
  split; [|destruct Hmg as [[-> _]|?], Hg as [?|?]; eauto].
  eapply tracks_step; try done.
  - destruct (apply_effect_of c (take_epoch s).2). by split.
  - intros x d Hx Hxd Hcd. pose proof (live_enrolls E c s x d Ht Heff Hx Hxd Hcd) as Hself.
    rewrite Hself in Hai. injection Hai as Hai. assert (c = mint) as <- by (by apply (NoDup_fmap_inj fc_hash candidates)).
    destruct Hmg as [[-> _]|HEm]; [|by apply HE in HEm as [_ ?]].
    apply (tr_first E s Ht) in Hx. by apply HE in Hx as [_ ?].
  - exists mint. split_and!; try done. destruct Hmg as [[-> _]|?]; [|by left].
    destruct Hg as [->|?]; [by right|by left].
  - eapply supported_mono; [|by eapply live_supported]. by left.
Qed.

Context (Hmints : ∀ mint, mint ∈ candidates → is_mint mint = true → inc_candidate incs (fc_hash mint) = Some mint)
  (Hcut : ∀ h o, vd_cut_verdicts verdicts !! h = Some o → is_effective o = false)
  (Hclear : vd_condemned verdicts !! g = None ∧ vd_parked verdicts !! g = None ∧ vd_cut_verdicts verdicts !! g = None).

(** The genesis takes effect when nothing has before it. *)
Lemma genesis_effective E s :
  tracks E s → ¬ E genesis → g ∈ st_live s → classify_effect genesis incs s (vd_parked verdicts) = VerdictEffective.
Proof using Hgen Hroot Hmints.
  intros Ht Hn Hl. unfold is_root in Hroot. unfold classify_effect, authority_status, classify_live, author_incarnation_id.
  assert (is_mint genesis = true) as Hm by (unfold is_mint; by destruct (fc_op genesis)).
  pose proof (Hmints genesis Hgen Hm) as Hcand.
  assert (subject_device genesis = ah_device_fingerprint (fc_header genesis)) as Hsub
    by (unfold subject_device; by destruct (fc_op genesis)).
  destruct (fc_op genesis); try done. rewrite Hcand, Hsub, bool_decide_false, bool_decide_true by (try done; by intros []).
  destruct (st_genesis_seen s) eqn:Hseen.
  - destruct (tr_seen E s Ht Hseen) as (x & Hx). by apply (tr_first E s Ht) in Hx.
  - repeat apply andb_prop in Hroot as [Hroot ?]. by repeat match goal with
      | Hb : bool_decide (account_id_from_genesis_payload _ = _) = true |- _ =>
          apply bool_decide_eq_true in Hb; rewrite bool_decide_false by (by intros [])
      end.
Qed.

Record visited (l : list FoldCandidate) (s : FoldState) (o : Outcomes) : Prop := {
  vi_tracks : tracks (eff_in l o) s;
  vi_live : g ∈ st_live s;
  vi_genesis : genesis ∈ l → eff_in l o genesis;
  vi_outcome c : c ∈ l → is_Some (o !! fc_hash c);
  vi_epoch c e : c ∈ l → o !! fc_hash c = Some (OutEffective e) → e < st_next_auth_epoch s;
  vi_order c e : c ∈ l → o !! fc_hash c = Some (OutEffective e) → c ≠ genesis →
    ∃ mint e', eff_in l o mint ∧ author_incarnation_id c = Some (fc_hash mint) ∧
               o !! fc_hash mint = Some (OutEffective e') ∧ e' < e;
}.

Lemma visited_nil o : visited [] (seeded g) o.
Proof using Type.
  assert (∀ x, ¬ eff_in [] o x) as Hn by (intros x [?%not_elem_of_nil _]; done).
  split; simpl; try (intros c ?%not_elem_of_nil; done).
  - split; simpl; try (intros c Hc; by apply Hn in Hc); try (intros c d; by rewrite lookup_empty).
    + intros x ->%elem_of_singleton. by left.
    + intros d Hd. by apply elem_of_empty in Hd.
    + intros d Hd. by apply elem_of_empty in Hd.
    + done.
    + intros c d Hc. by apply Hn in Hc.
    + intros c c' d Hc. by apply Hn in Hc.
  - by apply elem_of_singleton.
  - by intros ?%not_elem_of_nil.
  - by intros c e ?%not_elem_of_nil.
  - by intros c e ?%not_elem_of_nil.
Qed.

Lemma eff_in_lookup (l : list FoldCandidate) (o : Outcomes) (c : FoldCandidate) : eff_in l o c → ∃ e, o !! fc_hash c = Some (OutEffective e).
Proof using Type.
  intros [_ He]. unfold effective_in in He. destruct (o !! fc_hash c) as [[]|]; try done. by eexists.
Qed.

(** The rest of the invariant at a fresh hash. *)
Lemma fresh_lookup (l : list FoldCandidate) (o : Outcomes) (c x : FoldCandidate) (out : Outcome) :
  fc_hash c ∉ fc_hash <$> l → x ∈ l → <[fc_hash c := out]> o !! fc_hash x = o !! fc_hash x.
Proof using Type.
  intros Hn Hx. apply lookup_insert_ne. intros Heq. apply Hn. rewrite Heq. by apply list_elem_of_fmap_2.
Qed.

Lemma visited_skip l s o c out :
  visited l s o → fc_hash c ∉ fc_hash <$> l → is_effective out = false → c ≠ genesis →
  visited (l ++ [c]) s (<[fc_hash c := out]> o).
Proof using All.
  intros [v1 v2 v3 v4 v5 v6] Hn Hout Hg. pose proof (eff_in_snoc_skip l o c out) as He.
  assert (∀ x, x ∈ l ++ [c] → ∀ e, <[fc_hash c := out]> o !! fc_hash x = Some (OutEffective e) →
          x ∈ l ∧ o !! fc_hash x = Some (OutEffective e)) as Hx.
  { intros x [Hx| ->%list_elem_of_singleton]%elem_of_app e Hl; [by rewrite (fresh_lookup l) in Hl|].
    rewrite lookup_insert_eq in Hl. naive_solver. }
  split.
  - eapply tracks_ext; [|exact v1]. intros x. by apply He.
  - done.
  - intros [?| ->%list_elem_of_singleton]%elem_of_app; [|done]. apply He; auto.
  - intros x [Hin| ->%list_elem_of_singleton]%elem_of_app; [rewrite (fresh_lookup l); auto|].
    rewrite lookup_insert_eq. by eexists.
  - intros x e Hin Hl. destruct (Hx x Hin e Hl). eauto.
  - intros x e Hin Hl Hne. destruct (Hx x Hin e Hl) as [Hxl Hl']. destruct (v6 x e Hxl Hl' Hne) as (mint & e' & Hm & ? & ? & ?).
    exists mint, e'. split_and!; [by apply He|done| |done]. rewrite (fresh_lookup l); [done|done|apply Hm].
Qed.

Lemma visited_effect l s o c :
  visited l s o → fc_hash c ∉ fc_hash <$> l → c ∈ candidates → (∀ x, x ∈ l → x ∈ candidates) → after_genesis l c →
  vd_condemned verdicts !! fc_hash c = None → vd_parked verdicts !! fc_hash c = None →
  classify_effect c incs s (vd_parked verdicts) = VerdictEffective →
  visited (l ++ [c]) (apply_effect c (take_epoch s).2) (<[fc_hash c := (take_epoch s).1]> o).
Proof using All.
  intros [v1 v2 v3 v4 v5 v6] Hn Hc Hl Hafter Hcond Hpark Heff.
  pose proof (eff_in_snoc l o c (st_next_auth_epoch s)) as He.
  assert (tracks (add_eff (eff_in l o) c) (apply_effect c (take_epoch s).2) ∧
    (c = genesis ∨ ∃ mint, eff_in l o mint ∧ author_incarnation_id c = Some (fc_hash mint))) as [Ht Hau].
  { apply effective_visit; try done.
    - intros x [Hx _]. split; [auto|]. intros Heq. apply Hn. rewrite <- Heq. by apply list_elem_of_fmap_2.
    - intros H1' H2' H3'. apply v3. by apply Hafter. }
  assert (tracks (eff_in (l ++ [c]) (<[fc_hash c := (take_epoch s).1]> o)) (apply_effect c (take_epoch s).2)) as Ht'.
  { eapply tracks_ext; [|exact Ht]. intros x. by apply He. }
  assert (g ∈ st_live (apply_effect c (take_epoch s).2) ∧
          st_next_auth_epoch (apply_effect c (take_epoch s).2) = st_next_auth_epoch s + 1) as [Hlive Hnext].
  { unfold apply_effect. destruct (fc_op c); try case_bool_decide; simpl; (split; [set_solver|done]). }
  split; [done|done|..].
  - intros [Hin| ->%list_elem_of_singleton]%elem_of_app; apply He; auto.
  - intros x [Hin| ->%list_elem_of_singleton]%elem_of_app; [rewrite (fresh_lookup l); auto|].
    rewrite lookup_insert_eq. by eexists.
  - rewrite Hnext. intros x e [Hin| ->%list_elem_of_singleton]%elem_of_app.
    + rewrite (fresh_lookup l) by done. intros Hx. specialize (v5 x e Hin Hx). lia.
    + rewrite lookup_insert_eq. intros [= <-]. lia.
  - intros x e [Hin| ->%list_elem_of_singleton]%elem_of_app Hx Hne.
    + rewrite (fresh_lookup l) in Hx by done. destruct (v6 x e Hin Hx Hne) as (mint & e' & Hm & ? & ? & ?).
      exists mint, e'. split_and!; [apply He; auto|done| |done]. rewrite (fresh_lookup l); [done|done|apply Hm].
    + rewrite lookup_insert_eq in Hx. injection Hx as <-.
      destruct Hau as [?|(mint & Hm & Hai)]; [done|]. destruct (eff_in_lookup l o mint Hm) as [e' He'].
      exists mint, e'. split_and!; [apply He; auto|done| |].
      * rewrite (fresh_lookup l); [done|done|apply Hm].
      * apply (v5 mint); [apply Hm|done].
Qed.

Lemma visits_tracked l outcomes :
  NoDup (fc_hash <$> l) → (∀ c, c ∈ l → c ∈ candidates) →
  (∀ pre c post, l = pre ++ c :: post → after_genesis pre c) →
  let r := foldl (visit incs verdicts) (seeded g, outcomes) l in visited l r.1 r.2.
Proof using All.
  intros Hl Hin Hafter. induction l as [|c l IH] using rev_ind; [apply visited_nil|].
  rewrite fmap_app in Hl. apply NoDup_app in Hl as (Hl & Hc & _).
  assert (fc_hash c ∉ fc_hash <$> l) as Hn by (intros Hh; apply (Hc _ Hh); by left).
  assert (∀ x, x ∈ l → x ∈ candidates) as Hin' by (intros x Hx; apply Hin, elem_of_app; by left).
  assert (c ∈ candidates) as Hcc by (apply Hin, elem_of_app; right; by left).
  specialize (IH Hl Hin'). assert (∀ pre x post, l = pre ++ x :: post → after_genesis pre x) as Hpre.
  { intros pre x post ->. apply (Hafter pre x (post ++ [c])). by rewrite <- app_assoc. }
  specialize (IH Hpre). specialize (Hafter l c [] eq_refl). rewrite foldl_app. simpl in *.
  destruct (foldl (visit incs verdicts) (seeded g, outcomes) l) as [s o]. simpl in IH.
  unfold visit, effect_step. simpl.
  assert (c = genesis → vd_condemned verdicts !! fc_hash c = None ∧ vd_parked verdicts !! fc_hash c = None ∧
    vd_cut_verdicts verdicts !! fc_hash c = None ∧ classify_effect c incs s (vd_parked verdicts) = VerdictEffective) as Hg.
  { intros ->. split_and!; [apply Hclear..|]. apply (genesis_effective (eff_in l o)).
    - apply IH.
    - intros [? _]. apply Hn. by apply list_elem_of_fmap_2.
    - apply IH. }
  destruct (vd_condemned verdicts !! fc_hash c) eqn:Hcond; [apply visited_skip; naive_solver|].
  destruct (vd_parked verdicts !! fc_hash c) eqn:Hpark; [apply visited_skip; naive_solver|].
  destruct (vd_cut_verdicts verdicts !! fc_hash c) eqn:Hcv; [apply visited_skip; naive_solver|].
  destruct (classify_effect c incs s (vd_parked verdicts)) eqn:Heff; [|apply visited_skip; naive_solver..].
  by apply visited_effect.
Qed.
End Replay.
