(* ===== verification/FoldRooted.v ===== *)
(** * A pass over a rooted account ([account/fold.rs], [fold_account_pass])

    The pass by stages, from the strata to the outcomes it hands to the dependency closure: which
    candidates are replayed and in which order, that every candidate gets an outcome, and that the
    effective ones rest on effective ones, so that the closure finds nothing to remove. *)

From S2P Require Import Prelude Cbor Minicbor Hash Op Device Entry Stream Branch Envelope Candidate AccountOps FoldTypes Fold FoldDepth FoldTotal FoldPass FoldReplay.

Local Open Scope Z_scope.

(** ** The stages of a rooted pass *)

Section PassStages.
Context `{Minicbor} `{Sha256} `{Ed25519}.
Context (candidates : list FoldCandidate) (view : HeaderView) (structural exclusions : Outcomes) (genesis : FoldCandidate).

Definition pass_incs : Incarnations := incarnations_build candidates (fc_hash genesis).
Definition pass_strata : Strata * Outcomes :=
  stratify candidates pass_incs exclusions (fc_hash genesis) (subject_device genesis) structural.
Definition pass_depths : DepthPass * Outcomes :=
  fold_depths candidates pass_incs view (btree_iter pass_strata.1)
    (mkDepthPass (seeded (fc_hash genesis)) ∅ (mkFoldVerdicts ∅ ∅ ∅) ∅ Live) pass_strata.2.
Definition pass_classification : AccountClassification := dp_classification pass_depths.1.
Definition pass_verdicts : FoldVerdicts := dp_verdicts pass_depths.1.
Definition pass_replayed : list FoldCandidate := replayed (btree_iter pass_strata.1) (before_of pass_classification).
Definition pass_replay : FoldState * Outcomes :=
  foldl (visit pass_incs pass_verdicts) (seeded (fc_hash genesis), pass_depths.2) pass_replayed.
Definition pass_overlay : Outcomes := foldl (overlay_step pass_verdicts) pass_replay.2 candidates.
Definition pass_outcomes : Outcomes :=
  if is_contested pass_classification
  then settle_contest candidates pass_incs pass_verdicts pass_replay.1 pass_overlay else pass_overlay.
Definition pass_credits : gmap AccountEntryHash Z :=
  compute_credits candidates pass_strata.1 pass_outcomes (dp_register_contributors pass_depths.1).

(** What a pass makes of the outcomes it has closed. *)
Definition pass_result (capture : bool) (outcomes discovered : Outcomes) : option PassResult :=
  let successor := if is_contested pass_classification then successor_of candidates outcomes else None in
  let '(effective_count, outcomes) := normalize_auth_epochs outcomes in
  let discovered := discover_ahead candidates exclusions (dp_register_contributors pass_depths.1) pass_credits
                      effective_count outcomes discovered in
  facts ← derive_authority_facts candidates outcomes (dp_registers pass_depths.1);
  Some (mkPassResult
          (mkAccountAuthHistory outcomes pass_classification successor effective_count facts
             (st_tombstoned pass_replay.1) (Some (fc_hash genesis)))
          discovered
          (if capture
           then Some (mkLegacyTrace (dp_registers pass_depths.1) (dp_register_contributors pass_depths.1)) else None)).
End PassStages.

Section Rooted.
Context `{Minicbor} `{Sha256} `{Ed25519}.

Lemma fold_account_pass_rooted entries exclusions capture genesis :
  let col := collect entries in
  find_genesis (cl_candidates col) = Some genesis →
  fold_account_pass entries exclusions capture =
  ('(outcomes, discovered) ← close_final_authority_dependencies (cl_candidates col)
      (pass_credits (cl_candidates col) (cl_headers col) (cl_outcomes col) exclusions genesis)
      (pass_outcomes (cl_candidates col) (cl_headers col) (cl_outcomes col) exclusions genesis);
   pass_result (cl_candidates col) (cl_headers col) (cl_outcomes col) exclusions genesis capture outcomes discovered).
Proof using Type.
  intros col Hg. unfold fold_account_pass, pass_result, pass_credits, pass_outcomes, pass_overlay, pass_replay,
    pass_replayed, pass_verdicts, pass_classification, pass_depths, pass_strata.
  fold col. rewrite Hg. fold (pass_incs (cl_candidates col) genesis).
  destruct (stratify _ _ _ _ _ _) as [strata o1]. cbn [fst snd].
  destruct (fold_depths _ _ _ _ _ _) as [p o2]. cbn [fst snd].
  change (match dp_classification p with Live => None | Contested d => Some d end) with (before_of (dp_classification p)).
  rewrite replay_visits. change (inc_genesis_owner_id (pass_incs (cl_candidates col) genesis)) with (fc_hash genesis).
  destruct (foldl (visit _ _) _ _) as [state o3]. done.
Qed.
End Rooted.

(** ** The genesis and the incarnations *)

Section Genesis.
Context `{Minicbor} `{Sha256} `{Ed25519}.
Context (candidates : list FoldCandidate).

Lemma find_genesis_spec genesis :
  find_genesis candidates = Some genesis → genesis ∈ candidates ∧ is_root genesis = true.
Proof using Type.
  unfold find_genesis. intros Hg.
  assert (∀ l acc, foldl min_by_hash acc l = Some genesis → acc = Some genesis ∨ genesis ∈ l) as Hmin.
  { induction l as [|c l IH]; intros acc Hl; [by left|]. simpl in Hl. apply IH in Hl as [Hl|?]; [|right; by right].
    unfold min_by_hash in Hl. destruct acc as [best|]; [case_bool_decide|]; simplify_eq; auto; right; by left. }
  apply Hmin in Hg as [?|[? ?]%elem_of_filter_bool]; done.
Qed.

Lemma incs_sound owner h mint :
  inc_candidate (incarnations_build candidates owner) h = Some mint →
  mint ∈ candidates ∧ is_mint mint = true ∧ fc_hash mint = h.
Proof using Type.
  unfold inc_candidate, incarnations_build. simpl. intros Hm.
  assert (∀ l (m : gmap OwnerId FoldCandidate), foldl (fun m c => <[fc_hash c := c]> m) m l !! h = Some mint →
    m !! h = Some mint ∨ (mint ∈ l ∧ fc_hash mint = h)) as Hfold.
  { induction l as [|c l IH]; intros m Hl; [by left|]. simpl in Hl. apply IH in Hl as [Hl|[? ?]]; [|right; split; [by right|done]].
    apply lookup_insert_Some in Hl as [[<- <-]|[_ ?]]; [right; split; [by left|done]|by left]. }
  apply Hfold in Hm as [Hm|[[? ?]%elem_of_filter_bool ?]]; [by rewrite lookup_empty in Hm|done].
Qed.

Lemma incs_complete owner mint :
  NoDup (fc_hash <$> candidates) → mint ∈ candidates → is_mint mint = true →
  inc_candidate (incarnations_build candidates owner) (fc_hash mint) = Some mint.
Proof using Type.
  intros Hnd Hm Hmint. apply (insert_all_in fc_hash (fun c => c)).
  - by apply NoDup_fmap_filter.
  - by apply elem_of_filter_bool.
Qed.

(** The fields of a root. *)
Lemma root_fields c :
  is_root c = true →
  (∃ a b n k l, fc_op c = AccountGenesis a b n k l) ∧ ah_seq (fc_header c) = 0 ∧ ah_authority_ref (fc_header c) = None ∧
  ah_auth_len (fc_header c) = 0 ∧ subject_device c = ah_device_fingerprint (fc_header c).
Proof using Type.
  unfold is_root, subject_device. destruct (fc_op c); try done. intros Hr.
  repeat (apply andb_prop in Hr as [Hr ?Hb]). rewrite !bool_decide_eq_true in *. split_and!; eauto 10.
Qed.
End Genesis.

(** ** The overlay and the contest *)

Section Overlay.
Context `{Minicbor} `{Sha256} `{Ed25519}.
Context (verdicts : FoldVerdicts).

(** What the register verdicts say of an entry. *)
Definition overlay_of (h : AccountEntryHash) : option Outcome :=
  match vd_condemned verdicts !! h with
  | Some reason => Some (OutCondemned reason)
  | None => OutParked <$> vd_parked verdicts !! h
  end.

Lemma overlay_of_not_effective h o : overlay_of h = Some o → is_effective o = false.
Proof using Type.
  unfold overlay_of. destruct (vd_condemned verdicts !! h); [by intros [= <-]|].
  by intros (r & _ & ->)%fmap_Some.
Qed.

Lemma overlay_lookup (l : list FoldCandidate) (o : Outcomes) (h : AccountEntryHash) :
  foldl (overlay_step verdicts) o l !! h =
  if decide (h ∈ fc_hash <$> l) then match overlay_of h with Some v => Some v | None => o !! h end else o !! h.
Proof using Type.
  revert o. induction l as [|c l IH]; intros o; cbn [foldl].
  { by rewrite decide_False by apply not_elem_of_nil. }
  rewrite IH. assert (overlay_step verdicts o c !! h =
    if decide (h = fc_hash c) then match overlay_of h with Some v => Some v | None => o !! h end else o !! h) as ->.
  { unfold overlay_step, overlay_of. destruct (decide (h = fc_hash c)) as [->|Hne].
    - destruct (vd_condemned verdicts !! fc_hash c); [apply lookup_insert_eq|].
      destruct (vd_parked verdicts !! fc_hash c); [apply lookup_insert_eq|done].
    - destruct (vd_condemned verdicts !! fc_hash c); [by apply lookup_insert_ne|].
      destruct (vd_parked verdicts !! fc_hash c); [by apply lookup_insert_ne|done]. }
  rewrite fmap_cons. destruct (decide (h ∈ fc_hash <$> l)) as [Hin|Hin].
  - rewrite (decide_True (P := h ∈ _ :: _)) by (by right). case_decide; [|done]. by destruct (overlay_of h).
  - destruct (decide (h = fc_hash c)) as [->|Hne].
    + by rewrite (decide_True (P := fc_hash c ∈ _ :: _)) by (by left).
    + rewrite decide_False; [done|]. rewrite elem_of_cons. naive_solver.
Qed.

(** The recovery re-roots of a contested account. *)
Definition reroots (candidates : list FoldCandidate) (incs : Incarnations) (state : FoldState) : list (FoldCandidate * AccountId) :=
  sort_by_key (fun '(c, successor) => (successor, fc_hash c)) (omap (reroot_of incs state verdicts) candidates).

Lemma reroots_elem candidates incs state c s :
  (c, s) ∈ reroots candidates incs state ↔ c ∈ candidates ∧ reroot_of incs state verdicts c = Some (c, s).
Proof using Type.
  unfold reroots. rewrite sort_by_key_perm, list_elem_of_omap. split; [|by exists c].
  intros (x & Hx & Hr). assert (x = c) as ->; [|done]. unfold reroot_of in Hr. by repeat case_match; simplify_eq.
Qed.

Lemma take_epochs_lookup (l : list (FoldCandidate * AccountId)) (s : FoldState) (o : Outcomes) (h : AccountEntryHash) :
  let r := foldl (fun '(state, outcomes) '(c, _) =>
      let '(o, state) := take_epoch state in (state, <[fc_hash c := o]> outcomes)) (s, o) l in
  (h ∉ (fun row => fc_hash row.1) <$> l ∧ r.2 !! h = o !! h) ∨
  (h ∈ (fun row => fc_hash row.1) <$> l ∧ ∃ e, r.2 !! h = Some (OutEffective e) ∧ st_next_auth_epoch s ≤ e).
Proof using Type.
  revert s o. induction l as [|[c a] l IH]; intros s o; [left; split; [apply not_elem_of_nil|done]|].
  simpl. destruct (IH (take_epoch s).2 (<[fc_hash c := (take_epoch s).1]> o)) as [[Hn Hl]|[Hin (e & He & Hle)]].
  - simpl in Hl. destruct (decide (h = fc_hash c)) as [->|Hne].
    + right. split; [by left|]. exists (st_next_auth_epoch s). rewrite lookup_insert_eq in Hl. split; [done|lia].
    + left. rewrite lookup_insert_ne in Hl by done. split; [|done]. rewrite not_elem_of_cons. done.
  - right. split; [by right|]. exists e. simpl in Hle. split; [done|lia].
Qed.

Lemma contest_lookup (candidates : list FoldCandidate) (incs : Incarnations) (state : FoldState) (o : Outcomes) (h : AccountEntryHash) :
  let out := settle_contest candidates incs verdicts state o in
  (h ∈ (fun row => fc_hash row.1) <$> reroots candidates incs state ∧
     ∃ e, out !! h = Some (OutEffective e) ∧ st_next_auth_epoch state ≤ e) ∨
  (h ∉ (fun row => fc_hash row.1) <$> reroots candidates incs state ∧
     out !! h = match o !! h with
                | Some v => Some v
                | None => if decide (h ∈ fc_hash <$> candidates) then Some (OutParked ParkedContestedSubject) else None
                end).
Proof using Type.
  unfold settle_contest. fold (reroots candidates incs state).
  pose proof (take_epochs_lookup (reroots candidates incs state) state o h) as Ht.
  destruct (foldl _ (state, o) (reroots candidates incs state)) as [state' o']. simpl in Ht. simpl.
  assert (∀ l (m : Outcomes), foldl (fun outcomes c =>
    match outcomes !! fc_hash c with
    | Some _ => outcomes
    | None => <[fc_hash c := OutParked ParkedContestedSubject]> outcomes
    end) m l !! h =
    match m !! h with
    | Some v => Some v
    | None => if decide (h ∈ fc_hash <$> l) then Some (OutParked ParkedContestedSubject) else None
    end) as Hfill.
  { induction l as [|c l IH]; intros m; cbn [foldl].
    { rewrite decide_False by apply not_elem_of_nil. by destruct (m !! h). }
    rewrite IH, fmap_cons. destruct (decide (h = fc_hash c)) as [->|Hne].
    - rewrite (decide_True (P := fc_hash c ∈ _ :: _)) by (by left).
      destruct (m !! fc_hash c) eqn:Hm; [by rewrite Hm|by rewrite lookup_insert_eq].
    - assert (match m !! fc_hash c with Some _ => m | None => <[fc_hash c := OutParked ParkedContestedSubject]> m end !! h = m !! h) as ->.
      { destruct (m !! fc_hash c); [done|by apply lookup_insert_ne]. }
      destruct (m !! h); [done|]. destruct (decide (h ∈ fc_hash <$> l)).
      + by rewrite decide_True by (by right).
      + rewrite decide_False; [done|]. rewrite elem_of_cons. naive_solver. }
  rewrite Hfill. destruct Ht as [[Hn Hl]|[Hin (e & He & Hle)]].
  - right. by rewrite Hl.
  - left. split; [done|]. exists e. by rewrite He.
Qed.
End Overlay.

(** ** A rooted pass *)

(** The exclusions of a pass: entries parked as authored ahead, which cite a positive length. *)
Definition exclusions_ok (candidates : list FoldCandidate) (exclusions : Outcomes) : Prop :=
  ∀ h o, exclusions !! h = Some o →
    o = OutParked AuthLenAhead ∧ ∃ c, c ∈ candidates ∧ fc_hash c = h ∧ 0 < ah_auth_len (fc_header c).

Section RootedPass.
Context `{Minicbor} `{Sha256} `{Ed25519}.
Context (candidates : list FoldCandidate) (view : HeaderView) (structural exclusions : Outcomes) (genesis : FoldCandidate).
Context (Hnd : NoDup (fc_hash <$> candidates)) (Hgen : genesis ∈ candidates) (Hroot : is_root genesis = true)
  (Hexcl : exclusions_ok candidates exclusions)
  (Hstruct : ∀ h, effective_in structural h = false)
  (Hstructural : ∀ c, c ∈ candidates → structural !! fc_hash c = None).
Set Default Proof Using "All".

Local Abbreviation g := (fc_hash genesis).
Local Abbreviation incs := (pass_incs candidates genesis).
Local Abbreviation strata := (pass_strata candidates structural exclusions genesis).
Local Abbreviation depths := (pass_depths candidates view structural exclusions genesis).
Local Abbreviation verdicts := (pass_verdicts candidates view structural exclusions genesis).
Local Abbreviation rep := (pass_replay candidates view structural exclusions genesis).
Local Abbreviation order := (pass_replayed candidates view structural exclusions genesis).
Local Abbreviation classification := (pass_classification candidates view structural exclusions genesis).
Local Abbreviation outs := (pass_outcomes candidates view structural exclusions genesis).
Local Abbreviation placed := (placed_at incs exclusions g (subject_device genesis)).
Local Abbreviation unpl := (unplaced incs exclusions g (subject_device genesis)).

Lemma strata_spec :
  strata_of incs exclusions g (subject_device genesis) candidates strata.1 ∧
  strata.2 = insert_all fc_hash (unplaced_outcome incs exclusions g (subject_device genesis)) structural
               (List.filter unpl candidates).
Proof.
  pose proof (stratify_spec incs exclusions g (subject_device genesis) candidates structural) as Hs.
  unfold pass_strata. by destruct (stratify _ _ _ _ _ _).
Qed.

Lemma same_hash c c' : c ∈ candidates → c' ∈ candidates → fc_hash c = fc_hash c' → c = c'.
Proof. intros. by apply (NoDup_fmap_inj fc_hash candidates). Qed.

Lemma genesis_not_excluded : exclusions !! g = None.
Proof.
  destruct (exclusions !! g) as [o|] eqn:He; [|done]. apply Hexcl in He as (_ & c & Hc & Hh & Hlen).
  rewrite (same_hash c genesis Hc Hgen Hh) in Hlen. destruct (root_fields genesis Hroot) as (_ & _ & _ & ? & _). lia.
Qed.

Lemma genesis_author : author_incarnation_id genesis = Some g ∧ is_mint genesis = true.
Proof.
  destruct (root_fields genesis Hroot) as ((? & ? & ? & ? & ? & Hop) & _).
  unfold author_incarnation_id, is_mint. by rewrite Hop.
Qed.

(** What acts under the genesis is at depth zero. *)
Lemma under_genesis_depth c : author_incarnation_id c = Some g → depth_of incs c = Some 0%nat.
Proof.
  intros Hc. pose proof (proj1 (author_depth_spec incs ∅ c (memo_ok_empty incs))) as Hd.
  unfold author_depth_is in Hd. rewrite Hc in Hd. apply Hd. eapply (depth_genesis incs genesis).
  by apply incs_complete, genesis_author.
Qed.

Lemma genesis_placed : placed 0%nat genesis = true.
Proof.
  apply placed_spec. split_and!; [apply genesis_not_excluded| |apply under_genesis_depth, genesis_author].
  unfold stray_origin. rewrite (bool_decide_false (g ≠ g)) by auto. by rewrite andb_false_r.
Qed.

Lemma depths_inv :
  pass_inv candidates incs view depths.1 ∧
  match classification with Live => True | Contested k => k ∈ (btree_iter strata.1).*1 end ∧
  (∀ h, h ∉ fc_hash <$> order → depths.2 !! h = strata.2 !! h).
Proof.
  pose proof (fold_depths_spec candidates incs view (btree_iter strata.1)
    (mkDepthPass (seeded g) ∅ (mkFoldVerdicts ∅ ∅ ∅) ∅ Live) strata.2 Hnd) as Hd.
  unfold pass_replayed, pass_classification, pass_depths. destruct (fold_depths _ _ _ _ _ _) as [p o]. apply Hd.
  - intros [d idxs] c Hrow Hc. by eapply btree_candidate in Hrow as [? _]; [|apply strata_spec|exact Hc].
  - apply btree_ascending.
  - split; simpl.
    + intros h o'. by rewrite lookup_empty.
    + intros h Hh. by apply elem_of_empty in Hh.
    + apply lookup_empty.
    + apply lookup_empty.
    + intros c _ _ _. unfold register_verdict. rewrite map_to_list_empty, lookup_empty. simpl.
      repeat (rewrite bool_decide_false by apply not_elem_of_nil). done.
  - done.
Qed.

(** *** The replayed candidates *)

Lemma replay_elem c :
  c ∈ order ↔ c ∈ candidates ∧ ∃ d, placed d c = true ∧
    match classification with Live => True | Contested k => (d < k)%nat end.
Proof.
  unfold pass_replayed. rewrite replayed_elem. destruct strata_spec as [Hs _]. split.
  - intros ([d idxs] & Hrow & Hb & Hc). destruct (btree_candidate _ _ _ _ _ _ Hs d idxs c Hrow Hc) as [? ?].
    split; [done|]. exists d. split; [done|]. destruct classification; [done|]. simpl in Hb.
    apply negb_true_iff, Nat.leb_gt in Hb. done.
  - intros (Hc & d & Hp & Hb). exists (d, List.filter (placed d) candidates). simpl.
    assert (c ∈ List.filter (placed d) candidates) as Hin by (by apply elem_of_filter_bool).
    split_and!; [|destruct classification; [done|]|done].
    + apply (btree_elem _ _ _ _ _ _ Hs). split; [done|]. intros Hnil. rewrite Hnil in Hin. by apply not_elem_of_nil in Hin.
    + simpl. by apply negb_true_iff, Nat.leb_gt.
Qed.

Lemma replay_candidate c : c ∈ order → c ∈ candidates.
Proof. by intros [? _]%replay_elem. Qed.

(** Replayed candidates come by depth, and in the effect order within a depth. *)
Definition replay_le (x y : FoldCandidate) : Prop :=
  ∃ dx dy, depth_of incs x = Some dx ∧ depth_of incs y = Some dy ∧
    ((dx < dy)%nat ∨ (dx = dy ∧ cle (effect_order x) (effect_order y))).

Lemma replayed_sorted rows before :
  StronglySorted (fun r r' => (r.1 < r'.1)%nat) rows →
  (∀ row c, row ∈ rows → c ∈ row.2 → depth_of incs c = Some row.1) →
  StronglySorted replay_le (replayed rows before).
Proof using Type.
  intros Hasc Hd. unfold replayed. induction Hasc as [|[d idxs] rows Hasc IH Hlt]; [constructor|]. simpl.
  specialize (IH ltac:(intros row c Hrow; apply Hd; by right)).
  destruct (before_limit before (d, idxs)); [|done]. simpl. apply StronglySorted_app_2; [| |done].
  - intros x y Hx Hy. rewrite sort_by_key_perm in Hx.
    apply list_elem_of_join in Hy as (l & Hy & (row & -> & [_ Hrow]%elem_of_filter_bool)%list_elem_of_fmap).
    rewrite sort_by_key_perm in Hy. exists d, row.1. split_and!; [|apply (Hd row); [by right|done]|].
    + apply (Hd (d, idxs)); [by left|done].
    + left. rewrite Forall_forall in Hlt. by apply Hlt.
  - assert (∀ c, c ∈ sort_by_key effect_order idxs → depth_of incs c = Some d) as Hdepth.
    { intros c. rewrite sort_by_key_perm. apply (Hd (d, idxs)). by left. }
    pose proof (sort_by_key_sorted effect_order idxs) as Hs. unfold sorted_by_key in Hs.
    induction Hs as [|x l Hl IHl Hx]; [constructor|]. constructor; [apply IHl; intros c Hc; apply Hdepth; by right|].
    rewrite Forall_forall in *. intros y Hy. exists d, d. split_and!; [apply Hdepth; by left|apply Hdepth; by right|].
    right. split; [done|]. by apply Hx.
Qed.

Lemma order_sorted : StronglySorted replay_le order.
Proof.
  destruct strata_spec as [Hs _]. apply replayed_sorted; [apply btree_ascending|].
  intros [d idxs] c Hrow Hc. destruct (btree_candidate _ _ _ _ _ _ Hs d idxs c Hrow Hc) as [_ Hp].
  by apply placed_spec in Hp as (_ & _ & ?).
Qed.

Lemma replayed_NoDup rows before :
  NoDup (fc_hash <$> mjoin rows.*2) → NoDup (fc_hash <$> replayed rows before).
Proof using Type.
  induction rows as [|[d idxs] rows IH]; [done|]. simpl. rewrite fmap_app. intros (Hi & Hd & Hr)%NoDup_app.
  unfold replayed in *. simpl. destruct (before_limit before (d, idxs)); [|auto]. simpl. rewrite fmap_app.
  apply NoDup_app. split_and!; [by rewrite sort_by_key_perm| |auto].
  intros h Hh (x & -> & Hx)%list_elem_of_fmap. rewrite sort_by_key_perm in Hh. apply (Hd _ Hh).
  apply list_elem_of_join in Hx as (l & Hx & (row & -> & [_ Hrow]%elem_of_filter_bool)%list_elem_of_fmap).
  rewrite sort_by_key_perm in Hx. apply list_elem_of_fmap_2, list_elem_of_join. exists row.2.
  split; [done|]. by apply list_elem_of_fmap_2.
Qed.

Lemma order_NoDup : NoDup (fc_hash <$> order).
Proof. apply replayed_NoDup. destruct strata_spec as [Hs _]. by apply (btree_flat_NoDup _ _ _ _ _ _ Hs). Qed.

Lemma verdict_cuts h o : vd_cut_verdicts verdicts !! h = Some o → is_effective o = false.
Proof. intros Ho. destruct depths_inv as [Hi _]. by apply (pi_cut _ _ _ _ Hi) in Ho as [? _]. Qed.

(** No verdict names the genesis. *)
Lemma verdict_genesis :
  vd_condemned verdicts !! g = None ∧ vd_parked verdicts !! g = None ∧ vd_cut_verdicts verdicts !! g = None.
Proof.
  destruct depths_inv as [Hi _]. split_and!; [apply (pi_genesis_condemned _ _ _ _ Hi)|apply (pi_genesis_parked _ _ _ _ Hi)|].
  destruct (vd_cut_verdicts verdicts !! g) as [o|] eqn:Ho; [|done].
  apply (pi_cut _ _ _ _ Hi) in Ho as (_ & c & Hc & Hh & Hcuts). rewrite (same_hash c genesis Hc Hgen Hh) in Hcuts.
  destruct (root_fields genesis Hroot) as ((? & ? & ? & ? & ? & Hop) & _).
  unfold cuts, cut_op_registers, cut_extend_register in Hcuts. rewrite Hop in Hcuts. done.
Qed.

(** *** Every candidate has an outcome *)

Lemma visits_outcome v l acc c : c ∈ l → is_Some ((foldl (visit incs v) acc l).2 !! fc_hash c).
Proof using Type.
  intros Hc. revert acc. induction l as [|x l IH] using rev_ind; intros acc; [by apply not_elem_of_nil in Hc|].
  rewrite foldl_app. simpl. unfold visit at 1. destruct (effect_step _ _ _ _) as [o s]. simpl.
  apply elem_of_app in Hc as [Hc| ->%list_elem_of_singleton]; [|rewrite lookup_insert_eq; by eexists].
  apply lookup_insert_is_Some_mono. auto.
Qed.

Lemma overlay_pass c :
  c ∈ candidates → pass_overlay candidates view structural exclusions genesis !! fc_hash c =
  match overlay_of verdicts (fc_hash c) with Some v => Some v | None => rep.2 !! fc_hash c end.
Proof. intros Hc. unfold pass_overlay. rewrite overlay_lookup, decide_True; [done|]. by apply list_elem_of_fmap_2. Qed.

Lemma unreplayed_outcome h : h ∉ fc_hash <$> order → rep.2 !! h = strata.2 !! h.
Proof. intros Hh. unfold pass_replay. rewrite visits_other by done. by apply depths_inv. Qed.

Lemma outs_cover c : c ∈ candidates → is_Some (outs !! fc_hash c).
Proof.
  intros Hc. unfold pass_outcomes. destruct classification as [|k] eqn:Hcl; simpl.
  - rewrite overlay_pass by done. destruct (overlay_of verdicts (fc_hash c)); [by eexists|].
    destruct (unpl c) eqn:Hu.
    + rewrite unreplayed_outcome.
      * destruct strata_spec as [_ ->]. apply insert_all_dom. right. apply list_elem_of_fmap_2. by apply elem_of_filter_bool.
      * intros (x & Hx & (Hxc & d & Hp & _)%replay_elem)%list_elem_of_fmap. rewrite <- (same_hash c x) in Hp by done.
        assert (unpl c = false) by (apply unplaced_not_placed; eauto). congruence.
    + apply visits_outcome. apply unplaced_not_placed in Hu as [d Hd]. apply replay_elem. split; [done|]. exists d. by rewrite Hcl.
  - destruct (contest_lookup verdicts candidates incs rep.1 (pass_overlay candidates view structural exclusions genesis) (fc_hash c))
      as [[_ (e & -> & _)]|[_ ->]]; [by eexists|].
    rewrite decide_True by (by apply list_elem_of_fmap_2). destruct (_ !! fc_hash c); by eexists.
Qed.

Lemma strata_outcome h : h ∉ fc_hash <$> candidates → strata.2 !! h = structural !! h.
Proof.
  intros Hh. destruct strata_spec as [_ ->]. apply insert_all_notin.
  intros (x & -> & [_ Hx]%elem_of_filter_bool)%list_elem_of_fmap. by apply Hh, list_elem_of_fmap_2.
Qed.

(** An entry that is not a candidate keeps the outcome its structure decided. *)
Lemma outs_structural h : h ∉ fc_hash <$> candidates → outs !! h = structural !! h.
Proof.
  intros Hh. assert (pass_overlay candidates view structural exclusions genesis !! h = structural !! h) as Ho.
  { unfold pass_overlay. rewrite overlay_lookup, decide_False, unreplayed_outcome by
      (try done; intros (x & -> & Hx%replay_candidate)%list_elem_of_fmap; by apply Hh, list_elem_of_fmap_2).
    by apply strata_outcome. }
  unfold pass_outcomes. destruct (is_contested classification); [|done].
  destruct (contest_lookup verdicts candidates incs rep.1 (pass_overlay candidates view structural exclusions genesis) h)
    as [[Hin _]|[_ ->]].
  - exfalso. apply Hh. apply list_elem_of_fmap in Hin as ([x s] & -> & [Hx _]%reroots_elem). by apply list_elem_of_fmap_2.
  - rewrite Ho, decide_False by done. by destruct (structural !! h).
Qed.

(** *** With sequence numbers that are not negative *)

Context (Hseq : ∀ c, c ∈ candidates → 0 ≤ ah_seq (fc_header c)).

Lemma order_after_genesis pre c post : order = pre ++ c :: post → after_genesis genesis pre c.
Proof.
  intros Heq Hne Hai Hdev. pose proof order_sorted as Hs. rewrite Heq in Hs.
  assert (c ∈ order) as Hco by (rewrite Heq, elem_of_app; right; by left).
  apply replay_elem in Hco as (Hc & d & Hp & Hb). pose proof Hp as Hp'. apply placed_spec in Hp' as (_ & Hstray & Hdepth).
  rewrite (under_genesis_depth c Hai) in Hdepth. injection Hdepth as <-.
  assert (genesis ∈ order) as Hg.
  { apply replay_elem. split; [done|]. exists 0%nat. split; [apply genesis_placed|done]. }
  rewrite Heq, elem_of_app, elem_of_cons in Hg. destruct Hg as [?|[?|Hpost]]; [done|congruence|].
  exfalso. apply StronglySorted_app in Hs as (_ & _ & Hs). apply StronglySorted_inv in Hs as [_ Hs].
  rewrite Forall_forall in Hs. destruct (Hs genesis Hpost) as (dx & dy & Hdx & Hdy & Hle).
  rewrite (under_genesis_depth c Hai) in Hdx. rewrite (under_genesis_depth genesis) in Hdy by apply genesis_author.
  simplify_eq. destruct Hle as [?|[_ Hle]]; [lia|].
  destruct (root_fields genesis Hroot) as (_ & Hgseq & _ & _ & Hsub).
  apply not_cle_clt in Hle; [done|]. unfold effect_order. apply clt_pair_fst. simpl.
  unfold clt, cmp, pair_cmp. simpl. rewrite Hdev, Hsub, cmp_refl.
  assert (ah_seq (fc_header c) ≠ 0) as Hne0.
  { intros Hz. unfold stray_origin in Hstray. rewrite !bool_decide_true in Hstray; [done|..|done|done].
    intros Hh. by apply Hne, same_hash. }
  specialize (Hseq c Hc). apply clt_Z. lia.
Qed.

Lemma replay_visited : visited genesis verdicts order rep.1 rep.2.
Proof.
  pose proof (visits_tracked candidates incs genesis verdicts Hnd Hgen Hroot eq_refl (incs_sound candidates g)
    (fun mint => incs_complete candidates g mint Hnd) verdict_cuts verdict_genesis order depths.2 order_NoDup
    replay_candidate order_after_genesis) as Hv. exact Hv.
Qed.

(** *** The effective candidates of the pass *)

Definition reroot (c : FoldCandidate) : Prop :=
  is_contested classification = true ∧ ∃ s, reroot_of incs rep.1 verdicts c = Some (c, s).

Definition eff_outs (c : FoldCandidate) : Prop := eff_in candidates outs c.

Lemma not_visited_not_effective c : c ∈ candidates → fc_hash c ∉ fc_hash <$> order → effective_in rep.2 (fc_hash c) = false.
Proof.
  intros Hc Hn. unfold effective_in. rewrite unreplayed_outcome by done.
  destruct strata_spec as [_ ->]. destruct (unpl c) eqn:Hu.
  - rewrite insert_all_in; [|by apply NoDup_fmap_filter|by apply elem_of_filter_bool].
    unfold unplaced_outcome, placement. destruct (exclusions !! fc_hash c) as [o|] eqn:He.
    + by apply Hexcl in He as [-> _].
    + destruct (stray_origin _ _ c); [done|]. by destruct (depth_of incs c).
  - rewrite insert_all_notin; [apply Hstruct|]. intros (x & Hx & [Hux Hin]%elem_of_filter_bool)%list_elem_of_fmap.
    rewrite <- (same_hash c x) in Hux by done. congruence.
Qed.

Lemma eff_outs_keep c : eff_in order rep.2 c → eff_outs c.
Proof.
  intros [Hin He]. pose proof (replay_candidate c Hin) as Hc. split; [done|].
  destruct (tr_sound _ _ _ _ (vi_tracks _ _ _ _ _ replay_visited) c ltac:(done)) as (_ & _ & Hcond & Hpark).
  assert (pass_overlay candidates view structural exclusions genesis !! fc_hash c = rep.2 !! fc_hash c) as Ho.
  { rewrite overlay_pass by done. unfold overlay_of. by rewrite Hcond, Hpark. }
  unfold effective_in, pass_outcomes in *. destruct (is_contested classification); [|by rewrite Ho].
  destruct (contest_lookup verdicts candidates incs rep.1 (pass_overlay candidates view structural exclusions genesis) (fc_hash c))
    as [[_ (e & -> & _)]|[_ ->]]; [done|]. rewrite Ho. by destruct (rep.2 !! fc_hash c).
Qed.

Lemma eff_outs_cases c : eff_outs c → eff_in order rep.2 c ∨ reroot c.
Proof.
  intros [Hc He]. assert (effective_in (pass_overlay candidates view structural exclusions genesis) (fc_hash c) = true →
    eff_in order rep.2 c) as Hov.
  { unfold effective_in. rewrite overlay_pass by done. destruct (overlay_of verdicts (fc_hash c)) as [v|] eqn:Hv.
    - by rewrite (overlay_of_not_effective _ _ _ Hv).
    - intros Heff. split; [|done]. destruct (decide (fc_hash c ∈ fc_hash <$> order)) as [(x & Hx & Hin)%list_elem_of_fmap|Hn].
      { rewrite (same_hash c x); [done|done|by apply replay_candidate|done]. }
      by pose proof (not_visited_not_effective c Hc Hn) as Hne; unfold effective_in in Hne; rewrite Heff in Hne. }
  unfold effective_in, pass_outcomes in *. destruct (is_contested classification) eqn:Hct; [|by left; apply Hov].
  destruct (contest_lookup verdicts candidates incs rep.1 (pass_overlay candidates view structural exclusions genesis) (fc_hash c))
    as [[Hin _]|[_ Hl]].
  - right. split; [done|]. apply list_elem_of_fmap in Hin as ([x s] & Hx & [Hxc Hr]%reroots_elem). simpl in Hx.
    rewrite (same_hash c x) by done. eauto.
  - left. apply Hov. rewrite Hl in He. destruct (_ !! fc_hash c); [done|]. by case_decide.
Qed.

(** An incarnation in the replayed state rests on an effective candidate. *)
Lemma owner_effective d c : st_owners rep.1 !! d = Some (fc_hash c) → c ∈ candidates → eff_in order rep.2 c.
Proof.
  intros Hd Hc. destruct (tr_owner _ _ _ _ (vi_tracks _ _ _ _ _ replay_visited) d _ Hd) as (x & Hx & Hh).
  rewrite (same_hash c x); [done|done|by apply replay_candidate, Hx|done].
Qed.

Lemma reroot_spec c :
  c ∈ candidates → reroot c →
  (∃ s n, fc_op c = AccountReRoot s n) ∧ vd_condemned verdicts !! fc_hash c = None ∧
  ∃ mint, eff_in order rep.2 mint ∧ is_mint mint = true ∧ author_incarnation_id c = Some (fc_hash mint) ∧
          subject_device mint = ah_device_fingerprint (fc_header c).
Proof.
  intros Hc [_ [s Hr]]. unfold reroot_of in Hr. destruct (fc_op c) eqn:Hop; try done.
  destruct (bool_decide (vd_condemned verdicts !! fc_hash c = None)) eqn:Hcond; [|done].
  destruct (bool_decide (authority_status c incs rep.1 (vd_parked verdicts) = AuthLive)) eqn:Ha; [|done].
  apply bool_decide_eq_true in Hcond, Ha.
  apply (live_authority candidates) in Ha as (mint & Hm & Hmint & Hai & Hsub & _); [|apply incs_sound].
  rewrite Hai in Hr. case_bool_decide as Ho; [|done]. split_and!; [eauto|done|]. exists mint.
  split_and!; try done. by eapply owner_effective.
Qed.

(** Every effective candidate is authorized and supported by effective ones. *)
Lemma eff_outs_sound c :
  eff_outs c → authorized eff_outs c ∧ supported eff_outs c ∧ vd_condemned verdicts !! fc_hash c = None.
Proof.
  intros Hc. destruct (eff_outs_cases c Hc) as [Hv|Hr].
  - destruct (tr_sound _ _ _ _ (vi_tracks _ _ _ _ _ replay_visited) c Hv) as (Ha & Hs & Hcond & _). split_and!; [| |done].
    + eapply authorized_mono; [|exact Ha]. apply eff_outs_keep.
    + eapply supported_mono; [|exact Hs]. apply eff_outs_keep.
  - destruct (reroot_spec c) as ((s & n & Hop) & Hcond & mint & Hm & ? & ? & ?); [apply Hc|done|]. split_and!; [| |done].
    + exists mint. split_and!; try done. by apply eff_outs_keep.
    + unfold supported. by rewrite Hop.
Qed.

(** An effective genesis operation is the root. *)
Lemma eff_outs_genesis c : eff_outs c → author_incarnation_id c = Some (fc_hash c) → c = genesis.
Proof.
  intros Hc Hself. destruct (eff_outs_cases c Hc) as [Hv|Hr].
  - destruct (decide (fc_hash c = g)) as [Heq|Hne]; [apply same_hash; [apply Hc|done|done]|].
    exfalso. destruct (eff_in_lookup _ _ _ Hv) as [e He].
    destruct (vi_order _ _ _ _ _ replay_visited c e) as (mint & e' & Hm & Hai & He' & Hlt); [apply Hv|done|congruence|].
    rewrite Hself in Hai. injection Hai as Hai. rewrite <- Hai, He in He'. simplify_eq. lia.
  - destruct (reroot_spec c) as ((s & n & Hop) & _ & mint & Hm & Hmint & Hai & _); [apply Hc|done|].
    rewrite Hself in Hai. injection Hai as Hai.
    rewrite <- (same_hash c mint) in Hmint; [|apply Hc|apply replay_candidate, Hm|done].
    unfold is_mint in Hmint. by rewrite Hop in Hmint.
Qed.

(** *** The closure finds nothing to remove *)

Lemma eff_outs_citation c :
  eff_outs c → c = genesis ∨ ∃ mint, eff_outs mint ∧ is_mint mint = true ∧
    ah_authority_ref (fc_header c) = Some (fc_hash mint) ∧ subject_device mint = ah_device_fingerprint (fc_header c).
Proof.
  intros Hc. destruct (eff_outs_sound c Hc) as ((mint & Hm & Hmint & Hai & Hsub) & _).
  assert (author_incarnation_id c = Some (fc_hash c) ∨ author_incarnation_id c = ah_authority_ref (fc_header c)) as [Hs|Hs]
    by (unfold author_incarnation_id; destruct (fc_op c); auto).
  - left. by apply eff_outs_genesis.
  - right. exists mint. by rewrite <- Hs.
Qed.

Lemma effective_candidates_elem (o : Outcomes) c : c ∈ effective_candidates candidates o ↔ eff_in candidates o c.
Proof using Type. unfold effective_candidates, eff_in. rewrite elem_of_filter_bool. naive_solver. Qed.

Lemma effective_grants_lookup (o : Outcomes) x stream grantee role :
  eff_in candidates o x → fc_op x = StreamGrant stream grantee role →
  effective_grants candidates o !! fc_hash x = Some (stream, grantee).
Proof using Hnd.
  intros Hx Hop. unfold effective_grants. apply effective_candidates_elem in Hx.
  assert (NoDup (fc_hash <$> effective_candidates candidates o)) as Hl by (by apply NoDup_fmap_filter).
  induction (effective_candidates candidates o) as [|c l IH] using rev_ind; [by apply not_elem_of_nil in Hx|].
  rewrite fmap_app in Hl. apply NoDup_app in Hl as (Hl & Hn & _). rewrite foldl_app. simpl.
  apply elem_of_app in Hx as [Hx| ->%list_elem_of_singleton]; [|by rewrite Hop, lookup_insert_eq].
  destruct (fc_op c); auto. rewrite lookup_insert_ne; [auto|]. intros Heq. apply (Hn (fc_hash x)).
  - by apply list_elem_of_fmap_2.
  - rewrite <- Heq. by left.
Qed.

(** What is authorized and supported is not replaced. *)
Lemma replacement_none c :
  eff_outs c →
  replacement (effective_roster candidates outs) (effective_public_ownership candidates outs)
    (effective_grants candidates outs) outs c = None.
Proof.
  intros Hc. destruct (eff_outs_sound c Hc) as (_ & Hs & _). unfold replacement.
  set (by_op := match fc_op c with OwnerPromote _ => _ | _ => _ end).
  assert (by_op = None) as ->.
  { unfold by_op, supported in *. destruct (fc_op c); try done.
    - rewrite bool_decide_false; [done|]. intros Hn. apply Hn. destruct Hs as (x & Hx & Hd).
      apply elem_of_list_to_set, list_elem_of_omap. exists x. split; [by apply effective_candidates_elem|done].
    - rewrite bool_decide_false; [done|]. intros Hn. apply Hn. destruct Hs as (x & spec & Hx & Hop & Hp).
      apply elem_of_list_to_set, list_elem_of_omap. exists x. split; [by apply effective_candidates_elem|]. by rewrite Hop, Hp.
    - rewrite bool_decide_false; [done|]. intros Hn. apply Hn. destruct Hs as (x & role & Hx & <- & Hop).
      by eapply effective_grants_lookup. }
  destruct (eff_outs_citation c Hc) as [->|(mint & Hm & _ & -> & _)].
  - destruct (root_fields genesis Hroot) as (_ & _ & -> & _). done.
  - by rewrite (proj2 Hm).
Qed.

Lemma settle_noop (roster : gset DeviceFingerprint) (public : gset StreamId) (grants : gmap GrantId (StreamId * AccountId))
    (o : Outcomes) l b :
  (∀ c, c ∈ l → effective_in o (fc_hash c) = true → replacement roster public grants o c = None) →
  foldl (settle_step roster public grants) (b, o) l = (b, o).
Proof using Type.
  induction l as [|c l IH]; intros Hr; [done|]. simpl. destruct (effective_in o (fc_hash c)) eqn:He.
  - rewrite Hr; [|by left|done]. apply IH. intros x Hx. apply Hr. by right.
  - apply IH. intros x Hx. apply Hr. by right.
Qed.

Lemma outs_settled : settle_authority_dependencies candidates outs = Some outs.
Proof.
  unfold settle_authority_dependencies. cbn [settle_loop]. unfold settle_sweep.
  rewrite settle_noop; [done|]. intros c Hc He. by apply replacement_none.
Qed.

(** *** An authority precedes what it authorizes *)

(** Past the overlay, only the re-roots of a contest have a new epoch. *)
Lemma outs_lookup c :
  eff_in order rep.2 c → outs !! fc_hash c = rep.2 !! fc_hash c ∨
  (reroot c ∧ ∃ e, outs !! fc_hash c = Some (OutEffective e) ∧ st_next_auth_epoch rep.1 ≤ e).
Proof.
  intros Hc. pose proof (replay_candidate c (proj1 Hc)) as Hin.
  destruct (tr_sound _ _ _ _ (vi_tracks _ _ _ _ _ replay_visited) c Hc) as (_ & _ & Hcond & Hpark).
  assert (pass_overlay candidates view structural exclusions genesis !! fc_hash c = rep.2 !! fc_hash c) as Ho.
  { rewrite overlay_pass by done. unfold overlay_of. by rewrite Hcond, Hpark. }
  unfold pass_outcomes. destruct (is_contested classification) eqn:Hct; [|by left].
  destruct (contest_lookup verdicts candidates incs rep.1 (pass_overlay candidates view structural exclusions genesis) (fc_hash c))
    as [[Hr He]|[_ Hl]].
  - right. split; [|done]. split; [done|]. apply list_elem_of_fmap in Hr as ([x s] & Hx & [Hxc Hr]%reroots_elem). simpl in Hx.
    rewrite (same_hash c x) by done. eauto.
  - left. rewrite Hl, Ho. destruct (eff_in_lookup _ _ _ Hc) as [e ->]. done.
Qed.

Lemma reroot_epoch c : c ∈ candidates → reroot c → ∃ e, outs !! fc_hash c = Some (OutEffective e) ∧ st_next_auth_epoch rep.1 ≤ e.
Proof.
  intros Hc [Hct [s Hr]]. unfold pass_outcomes. rewrite Hct.
  destruct (contest_lookup verdicts candidates incs rep.1 (pass_overlay candidates view structural exclusions genesis) (fc_hash c))
    as [[_ He]|[Hn _]]; [done|]. destruct Hn. apply list_elem_of_fmap. exists (c, s). split; [done|]. by apply reroots_elem.
Qed.

(** A mint keeps the epoch of the replay. *)
Lemma mint_epoch mint :
  eff_in order rep.2 mint → is_mint mint = true →
  ∃ e, outs !! fc_hash mint = Some (OutEffective e) ∧ rep.2 !! fc_hash mint = Some (OutEffective e) ∧
       e < st_next_auth_epoch rep.1.
Proof.
  intros Hm Hmint. destruct (eff_in_lookup _ _ _ Hm) as [e He]. exists e.
  split_and!; [|done|by eapply (vi_epoch _ _ _ _ _ replay_visited); [apply Hm|]].
  destruct (outs_lookup mint Hm) as [->|[Hr _]]; [done|].
  destruct (reroot_spec mint) as ((s & n & Hop) & _); [apply replay_candidate, Hm|done|].
  unfold is_mint in Hmint. by rewrite Hop in Hmint.
Qed.

Lemma eff_outs_order c :
  eff_outs c → c ≠ genesis →
  ∃ mint e e', eff_outs mint ∧ is_mint mint = true ∧ ah_authority_ref (fc_header c) = Some (fc_hash mint) ∧
    subject_device mint = ah_device_fingerprint (fc_header c) ∧
    outs !! fc_hash c = Some (OutEffective e) ∧ outs !! fc_hash mint = Some (OutEffective e') ∧ e' < e.
Proof.
  intros Hc Hne. destruct (eff_outs_citation c Hc) as [?|(mint & Hm & Hmint & Href & Hsub)]; [done|].
  assert (eff_in order rep.2 mint) as Hmv.
  { destruct (eff_outs_cases mint Hm) as [?|Hr]; [done|]. destruct (reroot_spec mint) as ((s & n & Hop) & _); [apply Hm|done|].
    unfold is_mint in Hmint. by rewrite Hop in Hmint. }
  destruct (mint_epoch mint Hmv Hmint) as (e' & Ho' & Hr' & Hlt').
  assert (∃ e, outs !! fc_hash c = Some (OutEffective e) ∧ e' < e) as (e & He & Hlt); [|by exists mint, e, e'].
  destruct (eff_outs_cases c Hc) as [Hv|Hr].
  - destruct (outs_lookup c Hv) as [Heq|[_ (e & He & Hle)]]; [|exists e; split; [done|lia]].
    destruct (eff_in_lookup _ _ _ Hv) as [e He]. exists e. rewrite Heq. split; [done|].
    destruct (vi_order _ _ _ _ _ replay_visited c e) as (m2 & e2 & Hm2 & Hai & He2 & Hlt); [apply Hv|done|done|].
    assert (author_incarnation_id c = Some (fc_hash c) ∨ author_incarnation_id c = ah_authority_ref (fc_header c)) as [Hs|Hs]
      by (unfold author_incarnation_id; destruct (fc_op c); auto).
    + by apply eff_outs_genesis in Hs.
    + rewrite Hai, Href in Hs. injection Hs as Hs. rewrite Hs in He2. congruence.
  - destruct (reroot_epoch c (proj1 Hc) Hr) as (e & He & Hle). exists e. split; [done|lia].
Qed.

(** An enrolled device is enrolled once. *)
Lemma eff_outs_unique c c' d : eff_outs c → eff_outs c' → enrolls c = Some d → enrolls c' = Some d → c = c'.
Proof.
  intros Hc Hc' Hd Hd'. assert (∀ x, eff_outs x → enrolls x = Some d → eff_in order rep.2 x) as Hv.
  { intros x Hx Hxd. destruct (eff_outs_cases x Hx) as [?|Hr]; [done|].
    destruct (reroot_spec x) as ((s & n & Hop) & _); [apply Hx|done|]. unfold enrolls in Hxd. by rewrite Hop in Hxd. }
  eapply (tr_unique _ _ _ _ (vi_tracks _ _ _ _ _ replay_visited)); eauto.
Qed.

(** An effective candidate other than the genesis is within every register, unless it re-roots
    the account: then it is not condemned. *)
Lemma eff_outs_registers c :
  eff_outs c → c ≠ genesis →
  match fc_op c with
  | AccountReRoot _ _ => ∀ r, register_verdict c (dp_registers depths.1) view ≠ VerdictCondemned r
  | _ => register_verdict c (dp_registers depths.1) view = VerdictClear
  end.
Proof.
  intros Hc Hne. destruct depths_inv as [Hi _]. destruct (eff_outs_sound c Hc) as (_ & _ & Hcond).
  assert (fc_hash c ≠ inc_genesis_owner_id incs) as Hneq by (intros Heq; apply Hne, same_hash; [apply Hc|done|done]).
  pose proof (pi_derived _ _ _ _ Hi c (proj1 Hc) Hneq Hcond) as Hd.
  destruct (eff_outs_cases c Hc) as [Hv|Hr].
  - destruct (tr_sound _ _ _ _ (vi_tracks _ _ _ _ _ replay_visited) c Hv) as (_ & _ & _ & Hp).
    unfold pass_verdicts in Hp. destruct (register_verdict c _ view); [done|congruence|]. by destruct (fc_op c).
  - destruct (reroot_spec c) as ((s & n & Hop) & _); [apply Hc|done|]. rewrite Hop. intros r Hr'. by rewrite Hr' in Hd.
Qed.

(** The genesis of a live account is effective. *)
Lemma genesis_live : classification = Live → eff_outs genesis.
Proof.
  intros Hl. apply eff_outs_keep, (vi_genesis _ _ _ _ _ replay_visited), replay_elem. split; [done|]. exists 0%nat.
  rewrite Hl. split; [apply genesis_placed|done].
Qed.
End RootedPass.
