(* ===== verification/FoldSafety.v ===== *)
(** * Safety of the control fold ([account/fold.rs])

    The theorems on the history the fold returns: every entry is classified, the epochs are dense,
    every effective entry is authorized down to the genesis and within the revocation cuts, a
    device is enrolled once, and the root of a live account is effective. *)

From S2P Require Import Prelude Cbor Minicbor Hash Op Device Entry Stream Branch Envelope Candidate AccountOps FoldTypes Fold FoldDepth FoldTotal FoldPass FoldReplay FoldRooted.

Local Open Scope Z_scope.

(** ** What is parked as authored ahead *)

Section Ahead.
Context `{Minicbor} `{Sha256} `{Ed25519}.
Context (candidates : list FoldCandidate).

Definition credits_ok (credits : gmap AccountEntryHash Z) : Prop := ∀ h z, credits !! h = Some z → 0 ≤ z.

Lemma credit_loop_nonneg (select : Z * gset AccountEntryHash → FoldCandidate → bool) l acc :
  0 ≤ acc.1 → 0 ≤ (foldl (fun acc c => if select acc c then credit_entry acc c else acc) acc l).1.
Proof using Type.
  revert acc. induction l as [|c l IH]; intros acc Ha; [done|]. simpl. apply IH.
  destruct (select acc c); [|done]. unfold credit_entry. simpl. lia.
Qed.

Lemma revocation_credit_nonneg strata outcomes cut scope : 0 ≤ revocation_credit candidates strata outcomes cut scope.
Proof using Type.
  unfold revocation_credit.
  apply (credit_loop_nonneg (fun acc c => _ && match author_incarnation_id c with Some inc => bool_decide (inc ∈ acc.2) | None => false end)).
  apply (credit_loop_nonneg (fun _ c => _)). done.
Qed.

Lemma compute_credits_ok strata outcomes contributors : credits_ok (compute_credits candidates strata outcomes contributors).
Proof using Type.
  unfold compute_credits, credits_ok. generalize (List.filter (fun c => bool_decide (fc_hash c ∈ contributors)) candidates).
  intros l. induction l as [|c l IH] using rev_ind; intros h z; [simpl; by rewrite lookup_empty|].
  rewrite foldl_app. simpl. intros [[_ <-]|[_ ?]]%lookup_insert_Some; [apply revocation_credit_nonneg|eauto].
Qed.

Lemma credit_default credits h : credits_ok credits → 0 ≤ default 0 (credits !! h).
Proof using Type. intros Hc. destruct (credits !! h) eqn:Hh; simpl; [eauto|lia]. Qed.

(** Only an entry that cites a positive length is ahead. *)
Lemma cited_ahead_pos table c base credit :
  0 ≤ base → 0 ≤ credit → cited_ahead table c base credit = true → 0 < ah_auth_len (fc_header c).
Proof using Type.
  intros Hb Hc. unfold cited_ahead. intros [Hm%bool_decide_eq_true _]%andb_prop.
  unfold saturating_add, u64_max in Hm. lia.
Qed.

Lemma ahead_of_pos credits count table outcomes c :
  credits_ok credits → ahead_of credits count table outcomes c = true → 0 < ah_auth_len (fc_header c).
Proof using Type.
  intros Hc Ha. eapply cited_ahead_pos; [| |exact Ha]; [unfold saturating_sub; lia|by apply credit_default].
Qed.

Lemma exclusions_ok_insert (m : Outcomes) c :
  exclusions_ok candidates m → c ∈ candidates → 0 < ah_auth_len (fc_header c) →
  exclusions_ok candidates (<[fc_hash c := OutParked AuthLenAhead]> m).
Proof using Type.
  intros Hm Hc Hl h o [[<- <-]|[_ ?]]%lookup_insert_Some; [|by apply Hm]. split; [done|]. by exists c.
Qed.

Lemma exclusions_ok_park (m : Outcomes) l :
  exclusions_ok candidates m → (∀ c, c ∈ l → c ∈ candidates ∧ 0 < ah_auth_len (fc_header c)) →
  exclusions_ok candidates (foldl (fun m h => <[h := OutParked AuthLenAhead]> m) m (fc_hash <$> l)).
Proof using Type.
  revert m. induction l as [|c l IH]; intros m Hm Hl; [done|]. simpl. apply IH.
  - apply exclusions_ok_insert; [done|apply Hl; by left..].
  - intros x Hx. apply Hl. by right.
Qed.

Lemma exclusions_ok_discover (select : FoldCandidate → bool) (l : list FoldCandidate) (m : Outcomes) :
  (∀ c, c ∈ l → c ∈ candidates) → exclusions_ok candidates m →
  (∀ c, select c = true → 0 < ah_auth_len (fc_header c)) → exclusions_ok candidates (discover select l m).
Proof using Type.
  intros Hin Hm Hs. unfold discover. revert m Hm. induction l as [|c l IH]; intros m Hm; [done|]. simpl. apply IH.
  - intros x Hx. apply Hin. by right.
  - destruct (select c) eqn:Hc; [|done]. apply exclusions_ok_insert; [done|apply Hin; by left|auto].
Qed.

Lemma close_loop_discovered fuel credits outcomes discovered out disc :
  credits_ok credits → exclusions_ok candidates discovered →
  close_loop candidates fuel credits outcomes discovered = Some (out, disc) → exclusions_ok candidates disc.
Proof using Type.
  intros Hcr. revert outcomes discovered. induction fuel as [|fuel IH]; intros outcomes discovered Hd; [done|].
  cbn [close_loop]. destruct (settle_authority_dependencies candidates outcomes) as [settled|]; [|done].
  unfold mbind, option_bind. destruct (normalize_auth_epochs settled) as [count normal].
  case_bool_decide; [by intros [= _ <-]|]. apply IH. apply exclusions_ok_park; [done|].
  intros c [Ha Hc]%elem_of_filter_bool. split; [by apply elem_of_filter_bool in Hc as [_ ?]|by eapply ahead_of_pos].
Qed.

Lemma discover_ahead_ok exclusions contributors credits count outcomes discovered :
  credits_ok credits → 0 ≤ count → exclusions_ok candidates discovered →
  exclusions_ok candidates (discover_ahead candidates exclusions contributors credits count outcomes discovered).
Proof using Type.
  intros Hcr Hcount Hd. unfold discover_ahead.
  assert (exclusions_ok candidates (discover (ahead_contributor exclusions contributors credits
    (vouch_table candidates credits outcomes) count) candidates discovered)) as Hd1.
  { apply exclusions_ok_discover; [done|done|]. intros c [_ Hc]%andb_prop. eapply cited_ahead_pos; [| |exact Hc]; [done|].
    by apply credit_default. }
  case_match; [done|]. apply exclusions_ok_discover; [done|done|]. intros c [_ Hc]%andb_prop. by eapply cited_ahead_pos; [| |exact Hc].
Qed.
End Ahead.

(** ** The closure keeps the classified entries *)

Section ClosureKeeps.
Context `{Minicbor} `{Sha256} `{Ed25519}.
Context (candidates : list FoldCandidate).

Lemma insert_known (o : Outcomes) h v : is_Some (o !! h) → dom (<[h := v]> o) = dom o.
Proof using Type. intros Hh. apply dom_insert_lookup_L. done. Qed.

Lemma effective_known (o : Outcomes) h : effective_in o h = true → is_Some (o !! h).
Proof using Type. unfold effective_in. destruct (o !! h); [by eexists|done]. Qed.

(** The entries are the same, no entry becomes effective, and those that stay keep their order. *)
Record refines (o o' : Outcomes) : Prop := {
  rf_dom : dom o' = dom o;
  rf_effective h : effective_in o' h = true → effective_in o h = true;
  rf_order h1 h2 e1 e2 e1' e2' :
    o !! h1 = Some (OutEffective e1) → o !! h2 = Some (OutEffective e2) → e1 < e2 →
    o' !! h1 = Some (OutEffective e1') → o' !! h2 = Some (OutEffective e2') → e1' < e2';
}.

Lemma effective_lookup (o : Outcomes) h : effective_in o h = true ↔ ∃ e, o !! h = Some (OutEffective e).
Proof using Type. unfold effective_in. destruct (o !! h) as [[]|]; naive_solver. Qed.

#[export] Instance refines_preorder : PreOrder refines.
Proof using Type.
  split; [split; intros; simplify_eq; done|]. intros a b c Hab Hbc. split.
  - rewrite (rf_dom _ _ Hbc). apply Hab.
  - intros h Hh%(rf_effective _ _ Hbc). by apply (rf_effective _ _ Hab).
  - intros h1 h2 e1 e2 e1' e2' Ha1 Ha2 Hlt Hc1 Hc2.
    destruct (proj1 (effective_lookup b h1)) as [b1 Hb1]; [apply (rf_effective _ _ Hbc), effective_lookup; eauto|].
    destruct (proj1 (effective_lookup b h2)) as [b2 Hb2]; [apply (rf_effective _ _ Hbc), effective_lookup; eauto|].
    eapply (rf_order _ _ Hbc); [exact Hb1|exact Hb2| |done|done]. by eapply (rf_order _ _ Hab h1 h2).
Qed.

Lemma refines_insert (o : Outcomes) h v : is_Some (o !! h) → is_effective v = false → refines o (<[h := v]> o).
Proof using Type.
  intros Hh Hv. split.
  - by apply insert_known.
  - intros k. unfold effective_in. destruct (decide (h = k)) as [->|]; [rewrite lookup_insert_eq; congruence|by rewrite lookup_insert_ne].
  - assert (∀ k e, <[h := v]> o !! k = Some (OutEffective e) → o !! k = Some (OutEffective e)) as Hk.
    { intros k e [[_ ->]|[_ ?]]%lookup_insert_Some; done. }
    intros h1 h2 e1 e2 e1' e2' Ho1 Ho2 Hlt Hn1%Hk Hn2%Hk. naive_solver.
Qed.

Lemma normalize_refines (o : Outcomes) : refines o (normalize_auth_epochs o).2.
Proof using Type.
  split.
  - apply set_eq. intros h. by rewrite !elem_of_dom, normalize_is_Some.
  - intros h. by rewrite normalize_effective.
  - intros h1 h2 e1 e2 e1' e2' Ho1 Ho2 Hlt Hn1 Hn2.
    assert (∀ h e e', o !! h = Some (OutEffective e) → (normalize_auth_epochs o).2 !! h = Some (OutEffective e') →
      ∃ i, effective_list o !! i = Some (h, e) ∧ e' = Z.of_nat i) as Hidx.
    { intros h e e' Ho Hn. apply effective_list_elem, list_elem_of_lookup in Ho as [i Hi].
      exists i. split; [done|]. rewrite (normalize_nth o i h e Hi) in Hn. congruence. }
    destruct (Hidx h1 e1 e1' Ho1 Hn1) as (i1 & Hi1 & ->), (Hidx h2 e2 e2' Ho2 Hn2) as (i2 & Hi2 & ->).
    destruct (decide (i1 < i2)%nat) as [|Hge]; [lia|]. exfalso.
    destruct (decide (i1 = i2)) as [->|Hne]; [rewrite Hi1 in Hi2; simplify_eq; lia|].
    pose proof (sort_by_key_sorted (fun '(hash, epoch) => (epoch, hash)) (omap effective_of (map_to_list o))) as Hs.
    fold (effective_list o) in Hs. unfold sorted_by_key in Hs.
    assert (∀ (l : list (AccountEntryHash * Z)) i j x y, StronglySorted (fun x y : AccountEntryHash * Z => cle (let '(h, e) := x in (e, h)) (let '(h, e) := y in (e, h))) l →
      l !! i = Some x → l !! j = Some y → (i < j)%nat → x.2 ≤ y.2) as Hsorted.
    { intros l i j x y Hl. revert i j. induction Hl as [|z l Hl IH Hz]; intros i j Hx Hy Hij; [done|].
      destruct j as [|j]; [lia|]. simpl in Hy. destruct i as [|i]; [|apply (IH i j); [done|done|lia]].
      injection Hx as ->. rewrite Forall_forall in Hz. specialize (Hz y ltac:(by eapply list_elem_of_lookup_2)).
      destruct x, y. apply cle_pair_fst in Hz. by apply cle_Z in Hz. }
    pose proof (Hsorted _ i2 i1 _ _ Hs Hi2 Hi1 ltac:(lia)) as Hle. simpl in Hle. lia.
Qed.

Lemma settle_fold_refines roster public grants (l : list FoldCandidate) b o :
  refines o (foldl (settle_step roster public grants) (b, o) l).2.
Proof using Type.
  revert b o. induction l as [|c l IH]; intros b o; [done|]. simpl.
  destruct (effective_in o (fc_hash c)) eqn:He; [|apply IH].
  destruct (replacement _ _ _ o c) as [v|] eqn:Hr; [|apply IH].
  etrans; [|apply IH]. apply refines_insert; [by apply effective_known|by eapply replacement_not_effective].
Qed.

Lemma settle_refines fuel o settled : settle_loop candidates fuel o = Some settled → refines o settled.
Proof using Type.
  revert o. induction fuel as [|fuel IH]; intros o; [done|]. cbn [settle_loop]. unfold settle_sweep.
  pose proof (settle_fold_refines (effective_roster candidates o) (effective_public_ownership candidates o)
    (effective_grants candidates o) candidates false o) as Hs.
  destruct (foldl _ _ _) as [changed o']. destruct changed; [|by intros [= <-]]. intros Hl%IH. by etrans.
Qed.

Lemma park_refines (o : Outcomes) l :
  (∀ h, h ∈ l → is_Some (o !! h)) → refines o (foldl (fun m h => <[h := OutParked AuthLenAhead]> m) o l).
Proof using Type.
  revert o. induction l as [|h l IH]; intros o Hl; [done|]. simpl. etrans; [apply (refines_insert o h (OutParked AuthLenAhead)); [apply Hl; by left|done]|].
  apply IH. intros k Hk. apply lookup_insert_is_Some_mono, Hl. by right.
Qed.

Lemma refines_known o o' h : refines o o' → is_Some (o' !! h) ↔ is_Some (o !! h).
Proof using Type. intros Hr. by rewrite <- !elem_of_dom, (rf_dom _ _ Hr). Qed.

Lemma close_refines fuel credits o discovered out disc :
  close_loop candidates fuel credits o discovered = Some (out, disc) → refines o out.
Proof using Type.
  revert o discovered. induction fuel as [|fuel IH]; intros o discovered; [done|]. cbn [close_loop].
  destruct (settle_authority_dependencies candidates o) as [settled|] eqn:Hs; [|done]. apply settle_refines in Hs.
  unfold mbind, option_bind. pose proof (normalize_refines settled) as Hn.
  destruct (normalize_auth_epochs settled) as [count normal]. simpl in Hn.
  assert (refines o normal) as Hon by (by etrans). case_bool_decide as Ha; [by intros [= <- _]|].
  intros Hl%IH. etrans; [exact Hon|]. etrans; [|exact Hl]. apply park_refines.
  intros h (c & -> & [_ Hc]%elem_of_filter_bool)%list_elem_of_fmap. apply elem_of_filter_bool in Hc as [He _].
  rewrite (refines_known o normal) by done. by apply effective_known.
Qed.

Lemma close_final_refines credits o out disc :
  close_final_authority_dependencies candidates credits o = Some (out, disc) → refines o out.
Proof using Type. unfold close_final_authority_dependencies. apply close_refines. Qed.

(** In a settled set no effective candidate would be replaced. *)
Lemma settled_replacement o c :
  settled_set candidates o → c ∈ candidates → effective_in o (fc_hash c) = true →
  replacement (effective_roster candidates o) (effective_public_ownership candidates o) (effective_grants candidates o) o c = None.
Proof using Type.
  unfold settled_set, settle_sweep. generalize (effective_roster candidates o), (effective_public_ownership candidates o), (effective_grants candidates o).
  intros roster public grants Hs Hc He.
  assert (∀ l b m, (foldl (settle_step roster public grants) (b, m) l).1 = false → b = false) as Hb.
  { intros l. induction l as [|x l IH]; intros b m; [done|]. simpl.
    destruct (effective_in m (fc_hash x)); [|apply IH]. destruct (replacement _ _ _ m x); [|apply IH].
    intros ?%IH. done. }
  apply (f_equal fst) in Hs. revert Hs. induction candidates as [|x l IH]; [by apply not_elem_of_nil in Hc|]. simpl.
  apply elem_of_cons in Hc as [<-|Hc].
  - rewrite He. destruct (replacement _ _ _ o c); [|done]. intros Hf%Hb. done.
  - destruct (effective_in o (fc_hash x)); [|by apply IH]. destruct (replacement _ _ _ o x); [|by apply IH].
    intros Hf%Hb. done.
Qed.

(** The closure ends with a settled set. *)
Lemma close_settled credits o out disc :
  close_final_authority_dependencies candidates credits o = Some (out, disc) →
  ∃ settled, settled_set candidates settled ∧ out = (normalize_auth_epochs settled).2.
Proof using Type.
  intros Hc. destruct (close_total candidates credits o) as (out' & disc' & Hc' & _ & Hcl & _).
  rewrite Hc in Hc'. injection Hc' as <- <-. exact Hcl.
Qed.

(** What is effective at the end of the closure cites what is. *)
Lemma close_citation credits o out disc c ref :
  close_final_authority_dependencies candidates credits o = Some (out, disc) → c ∈ candidates →
  effective_in out (fc_hash c) = true → ah_authority_ref (fc_header c) = Some ref → effective_in out ref = true.
Proof using Type.
  intros Hc Hin He Href. destruct (close_settled credits o out disc Hc) as (settled & Hs & ->).
  rewrite normalize_effective in *. pose proof (settled_replacement settled c Hs Hin He) as Hr.
  unfold replacement in Hr. rewrite Href in Hr. by destruct (effective_in settled ref).
Qed.

(** The closure never removes a root: it cites nothing and asserts no length. *)
Section KeepsRoot.
Context (genesis : FoldCandidate) (Hnd : NoDup (fc_hash <$> candidates)) (Hgen : genesis ∈ candidates)
  (Hroot : is_root genesis = true).

Lemma replacement_root roster public grants o : replacement roster public grants o genesis = None.
Proof using Hroot.
  destruct (root_fields genesis Hroot) as ((? & ? & ? & ? & ? & Hop) & _ & Href & _). unfold replacement. by rewrite Hop, Href.
Qed.

Lemma settle_keeps_root fuel o settled :
  settle_loop candidates fuel o = Some settled → effective_in o (fc_hash genesis) = true →
  effective_in settled (fc_hash genesis) = true.
Proof using Hnd Hgen Hroot.
  revert o. induction fuel as [|fuel IH]; intros o; [done|]. cbn [settle_loop]. unfold settle_sweep.
  generalize (effective_roster candidates o), (effective_public_ownership candidates o), (effective_grants candidates o).
  intros roster public grants.
  assert (∀ l b m, (∀ c, c ∈ l → c ∈ candidates) → effective_in m (fc_hash genesis) = true →
    effective_in (foldl (settle_step roster public grants) (b, m) l).2 (fc_hash genesis) = true) as Hfold.
  { intros l. induction l as [|c l IHl]; intros b m Hl Hm; [done|]. simpl.
    assert (∀ c, c ∈ l → c ∈ candidates) as Hl' by (intros x Hx; apply Hl; by right).
    destruct (effective_in m (fc_hash c)); [|by apply IHl]. destruct (replacement _ _ _ m c) as [v|] eqn:Hv; [|by apply IHl].
    apply IHl; [done|]. unfold effective_in. rewrite lookup_insert_ne; [done|]. intros Heq.
    assert (c = genesis) as -> by (apply (NoDup_fmap_inj fc_hash candidates); [done|apply Hl; by left|done|done]).
    by rewrite replacement_root in Hv. }
  specialize (Hfold candidates false o ltac:(done)). destruct (foldl _ _ _) as [changed o']. simpl in Hfold.
  destruct changed; [|intros [= <-]; auto]. intros Hs Ho. eapply IH; eauto.
Qed.

Lemma close_keeps_root fuel credits o discovered out disc :
  credits_ok credits → close_loop candidates fuel credits o discovered = Some (out, disc) →
  effective_in o (fc_hash genesis) = true → effective_in out (fc_hash genesis) = true.
Proof using Hnd Hgen Hroot.
  intros Hcr. revert o discovered. induction fuel as [|fuel IH]; intros o discovered; [done|]. cbn [close_loop].
  destruct (settle_authority_dependencies candidates o) as [settled|] eqn:Hs; [|done].
  unfold settle_authority_dependencies in Hs. unfold mbind, option_bind. intros Hl Ho.
  pose proof (settle_keeps_root _ o settled Hs Ho) as Hset. rewrite <- normalize_effective in Hset.
  destruct (normalize_auth_epochs settled) as [count normal]. simpl in Hset. case_bool_decide as Ha; [by injection Hl as <- _|].
  apply IH in Hl; [done|]. unfold effective_in. rewrite park_lookup. case_decide as Hin; [|done].
  exfalso. apply list_elem_of_fmap in Hin as (c & Heq & [Hc Hcin]%elem_of_filter_bool).
  apply elem_of_filter_bool in Hcin as [_ Hcin].
  rewrite (NoDup_fmap_inj fc_hash candidates c genesis) in Hc by done.
  apply ahead_of_pos in Hc; [|done]. destruct (root_fields genesis Hroot) as (_ & _ & _ & ? & _). lia.
Qed.
End KeepsRoot.
End ClosureKeeps.


(** ** The last pass *)

Section LastPass.
Context `{Minicbor} `{Sha256} `{Ed25519}.
Context (entries : list VerifiedAccountEntry).

Local Abbreviation col := (collect entries).
Local Abbreviation cands := (cl_candidates (collect entries)).

Lemma cands_NoDup : NoDup (fc_hash <$> cands).
Proof using Type. apply (collect_collected entries). Qed.

Lemma cands_structural c : c ∈ cands → cl_outcomes col !! fc_hash c = None.
Proof using Type.
  intros Hc. destruct (cl_outcomes col !! fc_hash c) eqn:Ho; [|done].
  destruct (col_outcome _ _ (collect_collected entries) (fc_hash c)) as [_ Hn]; [by eexists|].
  destruct Hn. by apply list_elem_of_fmap_2.
Qed.

(** What a rooted pass returns. *)
Lemma rooted_pass exclusions capture genesis r :
  find_genesis cands = Some genesis → fold_account_pass entries exclusions capture = Some r →
  ∃ out disc, let p := pass_depths cands (cl_headers col) (cl_outcomes col) exclusions genesis in
    let credits := pass_credits cands (cl_headers col) (cl_outcomes col) exclusions genesis in
    close_final_authority_dependencies cands credits
      (pass_outcomes cands (cl_headers col) (cl_outcomes col) exclusions genesis) = Some (out, disc) ∧
    hi_outcomes (pr_history r) = (normalize_auth_epochs out).2 ∧
    hi_effective_count (pr_history r) = (normalize_auth_epochs out).1 ∧
    hi_classification (pr_history r) = dp_classification p.1 ∧
    hi_genesis_hash (pr_history r) = Some (fc_hash genesis) ∧
    derive_authority_facts cands (normalize_auth_epochs out).2 (dp_registers p.1) = Some (hi_facts (pr_history r)) ∧
    pr_trace r = (if capture then Some (mkLegacyTrace (dp_registers p.1) (dp_register_contributors p.1)) else None) ∧
    pr_discovered r = discover_ahead cands exclusions (dp_register_contributors p.1) credits
      (normalize_auth_epochs out).1 (normalize_auth_epochs out).2 disc.
Proof using Type.
  intros Hg. rewrite (fold_account_pass_rooted entries exclusions capture genesis Hg).
  destruct (close_final_authority_dependencies _ _ _) as [[out disc]|] eqn:Hclose; [|done]. cbn [mbind option_bind].
  unfold pass_result. destruct (normalize_auth_epochs out) as [count out'] eqn:Hn.
  destruct (derive_authority_facts _ _ _) as [facts|] eqn:Hf; [|done]. cbn [mbind option_bind]. intros [= <-].
  exists out, disc. rewrite Hn. cbn [fst snd pr_history pr_trace pr_discovered hi_outcomes hi_effective_count
    hi_classification hi_genesis_hash hi_facts]. split_and!; done.
Qed.

Lemma pass_discovered_ok exclusions capture r :
  fold_account_pass entries exclusions capture = Some r → exclusions_ok cands (pr_discovered r).
Proof using Type.
  destruct (find_genesis cands) as [genesis|] eqn:Hg.
  - intros Hr. destruct (rooted_pass exclusions capture genesis r Hg Hr) as (out & disc & Hclose & _ & _ & _ & _ & _ & _ & ->).
    apply discover_ahead_ok; [apply compute_credits_ok| |].
    + rewrite normalize_insert_all. unfold len. simpl. lia.
    + eapply close_loop_discovered; [..|exact Hclose]; [apply compute_credits_ok|]. intros h o. by rewrite lookup_empty.
  - unfold fold_account_pass. rewrite Hg. intros [= <-] h o. simpl. by rewrite lookup_empty.
Qed.

Lemma exclusions_ok_union (a b : Outcomes) : exclusions_ok cands a → exclusions_ok cands b → exclusions_ok cands (a ∪ b).
Proof using Type. intros Ha Hb h o [?|[_ ?]]%lookup_union_Some_raw; auto. Qed.

Lemma readiness_last fuel exclusions capture res :
  exclusions_ok cands exclusions → readiness_loop fuel entries exclusions capture = Some res →
  ∃ exclusions r, exclusions_ok cands exclusions ∧ fold_account_pass entries exclusions capture = Some r ∧
    res = (pr_history r, pr_trace r) ∧ dom (pr_discovered r) ⊆ dom exclusions.
Proof using Type.
  revert exclusions. induction fuel as [|fuel IH]; intros exclusions Hok; [done|]. cbn [readiness_loop].
  destruct (fold_account_pass entries exclusions capture) as [r|] eqn:Hr; [|done]. cbn [mbind option_bind].
  case_bool_decide as Hd; [intros [= <-]; eauto 10|]. apply IH. apply exclusions_ok_union; [done|].
  by eapply pass_discovered_ok.
Qed.

(** The fold is a pass whose exclusions are a fixed point. *)
Lemma fold_last capture :
  ∃ exclusions r, exclusions_ok cands exclusions ∧ fold_account_pass entries exclusions capture = Some r ∧
    fold_account_traced entries capture = Some (pr_history r, pr_trace r) ∧ dom (pr_discovered r) ⊆ dom exclusions.
Proof using Type.
  destruct (fold_account_traced_total entries capture) as [res Hres]. unfold fold_account_traced in *.
  destruct (readiness_last (S (length entries)) ∅ capture res) as (exclusions & r & Hok & Hr & -> & Hd); [|done|].
  - intros h o. by rewrite lookup_empty.
  - exists exclusions, r. done.
Qed.
End LastPass.

(** ** The history *)

Section History.
Context `{Minicbor} `{Sha256} `{Ed25519}.
Context (entries : list VerifiedAccountEntry).

Local Abbreviation col := (collect entries).
Local Abbreviation cands := (cl_candidates (collect entries)).

(** The fold as a pass: of an account without a root, or rooted with a closed set of outcomes. *)
Lemma fold_cases capture :
  ∃ exclusions r, exclusions_ok cands exclusions ∧ fold_account_pass entries exclusions capture = Some r ∧
    fold_account_traced entries capture = Some (pr_history r, pr_trace r) ∧ dom (pr_discovered r) ⊆ dom exclusions ∧
    match find_genesis cands with
    | None => r = rootless cands (cl_outcomes col)
    | Some genesis => genesis ∈ cands ∧ is_root genesis = true
    end.
Proof using Type.
  destruct (fold_last entries capture) as (exclusions & r & Hok & Hr & Ht & Hd). exists exclusions, r.
  split_and!; try done. destruct (find_genesis cands) as [genesis|] eqn:Hg; [by apply find_genesis_spec|].
  unfold fold_account_pass in Hr. rewrite Hg in Hr. by injection Hr as <-.
Qed.

Lemma fold_account_of_traced h t : fold_account_traced entries false = Some (h, t) → fold_account entries = Some h.
Proof using Type. unfold fold_account. by intros ->. Qed.

Lemma rootless_lookup (h : AccountEntryHash) :
  hi_outcomes (pr_history (rootless cands (cl_outcomes col))) !! h =
  if decide (h ∈ fc_hash <$> cands) then Some (OutParked UnknownOwnerRef) else cl_outcomes col !! h.
Proof using Type.
  unfold rootless. simpl.
  change (foldl (fun (m : Outcomes) c => <[fc_hash c := OutParked UnknownOwnerRef]> m) (cl_outcomes col) cands)
    with (insert_all fc_hash (fun _ : FoldCandidate => OutParked UnknownOwnerRef) (cl_outcomes col) cands).
  case_decide as Hh; [|by apply insert_all_notin]. apply list_elem_of_fmap in Hh as (c & -> & Hc).
  apply (insert_all_in fc_hash (fun _ : FoldCandidate => OutParked UnknownOwnerRef)); [apply cands_NoDup|done].
Qed.

Lemma rootless_not_effective (h : AccountEntryHash) :
  effective_in (hi_outcomes (pr_history (rootless cands (cl_outcomes col)))) h = false.
Proof using Type.
  unfold effective_in. rewrite rootless_lookup. case_decide; [done|].
  apply (col_not_effective _ _ (collect_collected entries) h).
Qed.

Lemma known_entry h :
  h ∈ entry_hashes entries ↔ is_Some (cl_outcomes col !! h) ∨ h ∈ fc_hash <$> cands.
Proof using Type.
  pose proof (collect_collected entries) as Hc. rewrite <- (col_seen _ _ Hc). split; [apply (col_covered _ _ Hc)|].
  intros [Hh|Hh]; [by apply (col_outcome _ _ Hc) in Hh as [? _]|].
  apply list_elem_of_fmap in Hh as (c & -> & Hin). apply (col_candidate _ _ Hc) in Hin as (Hin & _).
  rewrite (col_seen _ _ Hc). apply elem_of_list_to_set, list_elem_of_fmap. by exists (fc_entry c).
Qed.

Lemma fold_domain exclusions r :
  exclusions_ok cands exclusions → fold_account_pass entries exclusions false = Some r →
  match find_genesis cands with
  | None => r = rootless cands (cl_outcomes col)
  | Some genesis => genesis ∈ cands ∧ is_root genesis = true
  end → dom (hi_outcomes (pr_history r)) = entry_hashes entries.
Proof using Type.
  intros Hok Hr Hg. apply set_eq. intros h. rewrite elem_of_dom, known_entry.
  destruct (find_genesis cands) as [genesis|] eqn:Hfind.
  - destruct Hg as [Hgen Hroot].
    destruct (rooted_pass entries exclusions false genesis r Hfind Hr) as (out & disc & Hclose & -> & _).
    rewrite normalize_is_Some. apply close_final_refines in Hclose. rewrite (refines_known _ _ h Hclose).
    destruct (decide (h ∈ fc_hash <$> cands)) as [Hin|Hn].
    + split; [by right|]. intros _. apply list_elem_of_fmap in Hin as (c & -> & Hc).
      apply outs_cover; try done; [apply cands_NoDup|apply (collect_collected entries)|apply cands_structural].
    + rewrite outs_structural; try done; [naive_solver|apply cands_NoDup|apply (collect_collected entries)|apply cands_structural].
  - subst r. rewrite rootless_lookup. case_decide; [|naive_solver]. split; [by right|]. by eexists.
Qed.
End History.

(** C39.  Classification is total and exact: the fold gives exactly one outcome to every entry of
    the account, whatever the entries are, and to nothing else. *)
Theorem fold_classifies_every_entry `{Minicbor} `{Sha256} `{Ed25519} (entries : list VerifiedAccountEntry) :
  ∃ h, fold_account entries = Some h ∧ dom (hi_outcomes h) = entry_hashes entries.
Proof.
  destruct (fold_cases entries false) as (exclusions & r & Hok & Hr & Ht & _ & Hg). exists (pr_history r).
  split; [by eapply fold_account_of_traced|by eapply fold_domain].
Qed.

(** ** Epochs *)

Lemma normalized_epoch (o : Outcomes) h e :
  (normalize_auth_epochs o).2 !! h = Some (OutEffective e) ↔ 0 ≤ e ∧ (effective_list o).*1 !! Z.to_nat e = Some h.
Proof.
  split.
  - intros Hn. assert (effective_in o h = true) as He by (rewrite <- normalize_effective; unfold effective_in; by rewrite Hn).
    apply effective_list_key, list_elem_of_fmap in He as ([h' x] & -> & [i Hi]%list_elem_of_lookup). cbn [fst] in *.
    rewrite (normalize_nth o i h' x Hi) in Hn. simplify_eq. rewrite Nat2Z.id, list_lookup_fmap, Hi. split; [lia|done].
  - intros [He Hl]. rewrite list_lookup_fmap in Hl. apply fmap_Some in Hl as ([h' x] & Hi & ->).
    cbn [fst]. rewrite (normalize_nth o _ _ _ Hi), Z2Nat.id; done.
Qed.

Definition epochs_dense (h : AccountAuthHistory) : Prop :=
  (∀ i, 0 ≤ i < hi_effective_count h ↔ ∃ hash, hi_outcomes h !! hash = Some (OutEffective i)) ∧
  (∀ a b i, hi_outcomes h !! a = Some (OutEffective i) → hi_outcomes h !! b = Some (OutEffective i) → a = b).

Lemma normalized_dense o (h : AccountAuthHistory) :
  hi_outcomes h = (normalize_auth_epochs o).2 → hi_effective_count h = (normalize_auth_epochs o).1 → epochs_dense h.
Proof.
  intros Ho Hc. unfold epochs_dense. rewrite Ho, Hc. split.
  - intros i. setoid_rewrite normalized_epoch. rewrite normalize_insert_all. unfold len. simpl. split.
    + intros [Hi Hlt]. destruct (lookup_lt_is_Some_2 (effective_list o).*1 (Z.to_nat i)) as [h' Hh']; [rewrite length_fmap; lia|].
      by exists h'.
    + intros (h' & Hi & Hl%lookup_lt_Some). rewrite length_fmap in Hl. lia.
  - intros a b i [_ Ha]%normalized_epoch [_ Hb]%normalized_epoch. congruence.
Qed.

(** Epochs: the effective entries are numbered without gaps or repetitions by the authority
    epochs [0 .. effective_count - 1]. *)
Theorem fold_epochs_dense `{Minicbor} `{Sha256} `{Ed25519} (entries : list VerifiedAccountEntry) :
  ∃ h, fold_account entries = Some h ∧ epochs_dense h.
Proof.
  destruct (fold_cases entries false) as (exclusions & r & Hok & Hr & Ht & _ & Hg). exists (pr_history r).
  split; [by eapply fold_account_of_traced|]. destruct (find_genesis _) as [genesis|] eqn:Hfind.
  - destruct (rooted_pass entries exclusions false genesis r Hfind Hr) as (out & disc & _ & Ho & Hc & _).
    by apply (normalized_dense out).
  - subst r. assert (∀ hash i, hi_outcomes (pr_history (rootless (cl_candidates (collect entries))
      (cl_outcomes (collect entries)))) !! hash ≠ Some (OutEffective i)) as Hn.
    { intros hash i Heq. pose proof (rootless_not_effective entries hash) as Hne. unfold effective_in in Hne.
      by rewrite Heq in Hne. }
    split; [|intros a b i Ha; by apply Hn in Ha]. intros i. split; [simpl; lia|]. intros [hash Hh]. by apply Hn in Hh.
Qed.

(** ** Authority *)

(** A chain of effective citations from an entry down to the root: each entry is signed by the
    device its incarnation was minted for, and an authority precedes what it authorizes. *)
Inductive authority_chain `{Minicbor} `{Sha256} (candidates : list FoldCandidate) (o : Outcomes) (root : AccountEntryHash)
    : FoldCandidate → Z → Prop :=
| chain_root c e :
    c ∈ candidates → is_root c = true → fc_hash c = root → o !! root = Some (OutEffective e) →
    authority_chain candidates o root c e
| chain_cites c mint e e' :
    c ∈ candidates → o !! fc_hash c = Some (OutEffective e) →
    ah_authority_ref (fc_header c) = Some (fc_hash mint) → is_mint mint = true →
    subject_device mint = ah_device_fingerprint (fc_header c) →
    authority_chain candidates o root mint e' → e' < e → authority_chain candidates o root c e.

Section Final.
Context `{Minicbor} `{Sha256} `{Ed25519}.
Context (entries : list VerifiedAccountEntry) (Hseq : ∀ e, e ∈ entries → 0 ≤ ah_seq (va_header e)).
Set Default Proof Using "All".

Local Abbreviation col := (collect entries).
Local Abbreviation cands := (cl_candidates (collect entries)).

Lemma cands_seq c : c ∈ cands → 0 ≤ ah_seq (fc_header c).
Proof. intros Hc. apply (col_candidate _ _ (collect_collected entries)) in Hc as (Hc & _). by apply Hseq. Qed.

Section Rooted.
Context (exclusions : Outcomes) (capture : bool) (r : PassResult) (genesis : FoldCandidate).
Context (Hok : exclusions_ok cands exclusions) (Hr : fold_account_pass entries exclusions capture = Some r)
  (Hfind : find_genesis cands = Some genesis).

Local Abbreviation final := (hi_outcomes (pr_history r)).
Local Abbreviation eff := (eff_outs cands (cl_headers col) (cl_outcomes col) exclusions genesis).

Lemma final_refines :
  refines (pass_outcomes cands (cl_headers col) (cl_outcomes col) exclusions genesis) final.
Proof.
  destruct (rooted_pass entries exclusions capture genesis r Hfind Hr) as (out & disc & Hclose & -> & _).
  etrans; [by eapply close_final_refines|apply normalize_refines].
Qed.

Lemma rooted_genesis : genesis ∈ cands ∧ is_root genesis = true.
Proof. by apply find_genesis_spec. Qed.

(** What is effective at the end was effective before the closure. *)
Lemma final_effective h : effective_in final h = true → ∃ c, fc_hash c = h ∧ eff c.
Proof.
  intros He. pose proof (rf_effective _ _ final_refines h He) as Ho. destruct rooted_genesis as [Hg Hroot].
  destruct (decide (h ∈ fc_hash <$> cands)) as [(c & -> & Hc)%list_elem_of_fmap|Hn]; [by exists c|].
  unfold effective_in in Ho. rewrite outs_structural in Ho;
    [|apply cands_NoDup|done|done|done|apply (collect_collected entries)|apply cands_structural|done].
  pose proof (col_not_effective _ _ (collect_collected entries) h) as Hne. unfold effective_in in Hne. by rewrite Ho in Hne.
Qed.

Lemma final_citation c ref :
  c ∈ cands → effective_in final (fc_hash c) = true → ah_authority_ref (fc_header c) = Some ref → effective_in final ref = true.
Proof.
  destruct (rooted_pass entries exclusions capture genesis r Hfind Hr) as (out & disc & Hclose & -> & _).
  rewrite !normalize_effective. intros Hc He Href. by eapply (close_citation cands _ _ out disc).
Qed.

(** Facts of the pass, for the collected candidates. *)
Local Ltac pass_facts :=
  first [apply cands_NoDup|exact (proj1 rooted_genesis)|exact (proj2 rooted_genesis)|apply (collect_collected entries)|apply cands_structural|apply cands_seq|exact Hok|done].

Lemma final_order c :
  eff c → c ≠ genesis → effective_in final (fc_hash c) = true →
  ∃ mint e e', eff mint ∧ is_mint mint = true ∧ ah_authority_ref (fc_header c) = Some (fc_hash mint) ∧
    subject_device mint = ah_device_fingerprint (fc_header c) ∧
    final !! fc_hash c = Some (OutEffective e) ∧ final !! fc_hash mint = Some (OutEffective e') ∧ e' < e.
Proof.
  intros Hc Hne He.
  destruct (eff_outs_order cands (cl_headers col) (cl_outcomes col) exclusions genesis) with (c := c)
    as (mint & e & e' & Hm & Hmint & Href & Hsub & Ho & Ho' & Hlt); [pass_facts..|].
  pose proof (final_citation c (fc_hash mint) (proj1 Hc) He Href) as Hfm.
  apply effective_lookup in He as [f Hf]. apply effective_lookup in Hfm as [f' Hf'].
  exists mint, f, f'. split_and!; try done. by eapply (rf_order _ _ final_refines (fc_hash mint) (fc_hash c)).
Qed.

Lemma final_chain n c e :
  eff c → final !! fc_hash c = Some (OutEffective e) → 0 ≤ e < n → authority_chain cands final (fc_hash genesis) c e.
Proof.
  intros Hc He Hn. assert (0 ≤ n) as Hn0 by lia. revert c e Hc He Hn. pattern n. revert n Hn0.
  apply natlike_ind; [intros; lia|]. intros n Hn0 IH c e Hc He Hn.
  destruct (decide (fc_hash c = fc_hash genesis)) as [Heq|Hne].
  - assert (c = genesis) as -> by (apply (NoDup_fmap_inj fc_hash cands); [apply cands_NoDup|apply Hc|apply rooted_genesis|done]).
    apply chain_root; [apply Hc|pass_facts|done|done].
  - destruct (final_order c Hc) as (mint & f & f' & Hm & Hmint & Href & Hsub & Hf & Hf' & Hlt); [congruence| |].
    { apply effective_lookup. eauto. }
    rewrite He in Hf. injection Hf as <-. eapply chain_cites; [apply Hc|done|done|done|done| |exact Hlt].
    apply IH; [done|done|]. assert (0 ≤ f'); [|lia].
    destruct (rooted_pass entries exclusions capture genesis r Hfind Hr) as (out & disc & _ & Ho & _).
    rewrite Ho in Hf'. by apply normalized_epoch in Hf' as [? _].
Qed.

Lemma final_unique c c' d : eff c → eff c' → enrolls c = Some d → enrolls c' = Some d → c = c'.
Proof. intros. eapply (eff_outs_unique cands (cl_headers col) (cl_outcomes col) exclusions genesis); (done || pass_facts). Qed.

Lemma final_registers c :
  eff c → c ≠ genesis →
  match fc_op c with
  | AccountReRoot _ _ => ∀ why, register_verdict c (dp_registers
      (pass_depths cands (cl_headers col) (cl_outcomes col) exclusions genesis).1) (cl_headers col) ≠ VerdictCondemned why
  | _ => register_verdict c (dp_registers
      (pass_depths cands (cl_headers col) (cl_outcomes col) exclusions genesis).1) (cl_headers col) = VerdictClear
  end.
Proof. intros. apply eff_outs_registers; (done || pass_facts). Qed.
End Rooted.

(** The fold as the pass it ends with, and its root. *)
Lemma fold_rooted capture :
  ∃ exclusions r, exclusions_ok cands exclusions ∧ fold_account_pass entries exclusions capture = Some r ∧
    fold_account_traced entries capture = Some (pr_history r, pr_trace r) ∧
    ∀ h, effective_in (hi_outcomes (pr_history r)) h = true →
      ∃ genesis c, find_genesis cands = Some genesis ∧ fc_hash c = h ∧
        eff_outs cands (cl_headers col) (cl_outcomes col) exclusions genesis c.
Proof.
  destruct (fold_cases entries capture) as (exclusions & r & Hok & Hr & Ht & _ & Hg). exists exclusions, r.
  split_and!; try done. intros h He. destruct (find_genesis cands) as [genesis|] eqn:Hfind.
  - destruct (final_effective exclusions capture r genesis Hok Hr Hfind h He) as (c & Hh & Hc). by exists genesis, c.
  - subst r. by rewrite rootless_not_effective in He.
Qed.
End Final.

Lemma effective_entry_chain `{Minicbor} `{Sha256} `{Ed25519} (entries : list VerifiedAccountEntry) h hash e :
  (∀ e, e ∈ entries → 0 ≤ ah_seq (va_header e)) → fold_account entries = Some h → hi_outcomes h !! hash = Some (OutEffective e) →
  ∃ root c, hi_genesis_hash h = Some root ∧ fc_hash c = hash ∧
    authority_chain (cl_candidates (collect entries)) (hi_outcomes h) root c e.
Proof.
  intros Hseq Hh He. destruct (fold_rooted entries Hseq false) as (exclusions & r & Hok & Hr & Ht & Heff).
  rewrite (fold_account_of_traced _ _ _ Ht) in Hh. injection Hh as <-.
  destruct (Heff hash) as (genesis & c & Hfind & <- & Hc); [apply effective_lookup; eauto|].
  exists (fc_hash genesis), c. split_and!; [|done|].
  - by destruct (rooted_pass entries exclusions false genesis r Hfind Hr) as (out & disc & _ & _ & _ & _ & ? & _).
  - eapply (final_chain entries Hseq exclusions false r genesis Hok Hr Hfind (e + 1)); [done|done|].
    destruct (rooted_pass entries exclusions false genesis r Hfind Hr) as (out & disc & _ & Ho & _).
    rewrite Ho in He. apply normalized_epoch in He as [? _]. lia.
Qed.

(** C2.  Authority: every effective entry is linked to the root of the account by effective
    citations, each signed by the device its cited incarnation was minted for and each cited
    before it is used. *)
Theorem effective_entries_authorized `{Minicbor} `{Sha256} `{Ed25519} (entries : list VerifiedAccountEntry) :
  (∀ e, e ∈ entries → 0 ≤ ah_seq (va_header e)) →
  ∃ h, fold_account entries = Some h ∧
    ∀ hash e, hi_outcomes h !! hash = Some (OutEffective e) →
      ∃ root c, hi_genesis_hash h = Some root ∧ fc_hash c = hash ∧
        authority_chain (cl_candidates (collect entries)) (hi_outcomes h) root c e.
Proof.
  intros Hseq. destruct (fold_rooted entries Hseq false) as (exclusions & r & _ & _ & Ht & _).
  pose proof (fold_account_of_traced _ _ _ Ht) as Hh. exists (pr_history r). split; [done|]. intros hash e.
  by apply effective_entry_chain.
Qed.

(** C3.  Revocation: no effective entry other than the root and a recovery re-root lies beyond a
    revocation cut, off the branch a cut seals, or under a cut whose ancestry is not known; an
    effective recovery re-root is never condemned by a register, but may be undecided under one. *)
Theorem effective_entries_within_cuts `{Minicbor} `{Sha256} `{Ed25519} (entries : list VerifiedAccountEntry) :
  (∀ e, e ∈ entries → 0 ≤ ah_seq (va_header e)) →
  ∃ h trace, fold_account_traced entries true = Some (h, trace) ∧
    ∀ c, c ∈ cl_candidates (collect entries) → effective_in (hi_outcomes h) (fc_hash c) = true →
      hi_genesis_hash h ≠ Some (fc_hash c) →
      ∃ t, trace = Some t ∧
        match fc_op c with
        | AccountReRoot _ _ => ∀ why, register_verdict c (lt_registers t) (cl_headers (collect entries)) ≠ VerdictCondemned why
        | _ => register_verdict c (lt_registers t) (cl_headers (collect entries)) = VerdictClear
        end.
Proof.
  intros Hseq. destruct (fold_rooted entries Hseq true) as (exclusions & r & Hok & Hr & Ht & Heff).
  exists (pr_history r), (pr_trace r). split; [done|]. intros c Hc He Hg.
  destruct (Heff _ He) as (genesis & x & Hfind & Hx & Hxe).
  destruct (rooted_pass entries exclusions true genesis r Hfind Hr) as (out & disc & _ & _ & _ & _ & Hgen & _ & Htr & _).
  rewrite Htr. eexists. split; [reflexivity|]. simpl.
  assert (x = c) as -> by (apply (NoDup_fmap_inj fc_hash (cl_candidates (collect entries)));
    [apply cands_NoDup|apply Hxe|done|done]).
  apply (final_registers entries Hseq exclusions true r genesis Hok Hr Hfind c Hxe). intros ->. by rewrite Hgen in Hg.
Qed.

(** ** Roster facts *)

(** Every roster fact is the enrollment of its device by one of [P]. *)
Definition roster_from (P : FoldCandidate → Prop) (refs : gmap RosterRef RosterFact) : Prop :=
  ∀ r f, refs !! r = Some f → ∃ c, P c ∧ fc_hash c = r ∧ enrolls c = Some (rr_device_fingerprint (rf_authority f)).

Lemma roster_from_update (P : FoldCandidate → Prop) refs refs' k (up : RosterFact → RosterFact) :
  roster_from P refs → (∀ f, rr_device_fingerprint (rf_authority (up f)) = rr_device_fingerprint (rf_authority f)) →
  update_expected k up refs = Some refs' → roster_from P refs'.
Proof.
  intros Hp Hup. unfold update_expected. destruct (refs !! k) as [v|] eqn:Hk; [|done]. intros [= <-] r f.
  intros [[<- <-]|[_ Hr]]%lookup_insert_Some; [rewrite Hup|]; auto.
Qed.

Lemma roster_from_insert (P : FoldCandidate → Prop) refs c d role epoch :
  roster_from P refs → P c → enrolls c = Some d → roster_from P (<[fc_hash c := open_roster_fact d role epoch]> refs).
Proof. intros Hp Hc Hd r f [[<- <-]|[_ Hr]]%lookup_insert_Some; [by exists c|auto]. Qed.

Lemma fact_step_roster (P : FoldCandidate → Prop) registers s s' c epoch :
  P c → roster_from P (af_roster_refs (fs_facts s)) → fact_step registers s (c, epoch) = Some s' →
  roster_from P (af_roster_refs (fs_facts s')).
Proof.
  intros Hc Hs. unfold fact_step. destruct (fc_op c) eqn:Hop.
  - intros [= <-]. simpl. apply roster_from_insert; [done|done|]. unfold enrolls, subject_device. by rewrite Hop.
  - case_bool_decide; intros [= <-]; simpl; (apply roster_from_insert; [done|done|]; unfold enrolls; by rewrite Hop).
  - unfold remove_facts. destruct (fs_roster s !! device_fingerprint) as [k|].
    + destruct (update_expected k _ _) as [refs|] eqn:Hu; [|done]. cbn [mbind option_bind].
      destruct (match fs_owners s !! device_fingerprint with Some _ => _ | None => _ end) as [incs|]; [|done].
      intros [= <-]. simpl. eapply roster_from_update; [exact Hs| |exact Hu]; done.
    + cbn [mbind option_bind]. destruct (match fs_owners s !! device_fingerprint with Some _ => _ | None => _ end); [|done].
      by intros [= <-].
  - destruct (fs_roster s !! device_fingerprint) as [k|]; [|by intros [= <-]].
    destruct (update_expected k _ _) as [refs|] eqn:Hu; [|done]. intros [= <-]. simpl. eapply roster_from_update; [exact Hs| |exact Hu]; done.
  - unfold demote_facts. destruct (closes_open_incarnation _ _); [|by intros [= <-]].
    destruct (fs_roster s !! device_fingerprint) as [k|]; [|done]. cbn [mbind option_bind].
    destruct (update_expected k _ _) as [refs|] eqn:Hu; [|done]. cbn [mbind option_bind].
    destruct (update_expected owner_id _ _) as [incs|]; [|done]. intros [= <-]. simpl. eapply roster_from_update; [exact Hs| |exact Hu]; done.
  - by intros [= <-].
  - by intros [= <-].
  - by intros [= <-].
  - destruct (_ !! grant_id); by intros [= <-].
  - by intros [= <-].
Qed.

Lemma derived_roster candidates outcomes registers facts :
  derive_authority_facts candidates outcomes registers = Some facts →
  roster_from (eff_in candidates outcomes) (af_roster_refs facts).
Proof.
  unfold derive_authority_facts.
  assert (∀ rows s s', (∀ row, row ∈ rows → eff_in candidates outcomes row.1) →
    roster_from (eff_in candidates outcomes) (af_roster_refs (fs_facts s)) →
    fact_loop registers rows s = Some s' → roster_from (eff_in candidates outcomes) (af_roster_refs (fs_facts s'))) as Hloop.
  { induction rows as [|[c epoch] rows IH]; intros s s' Hrows Hs; [by intros [= <-]|]. cbn [fact_loop].
    destruct (fact_step registers s (c, epoch)) as [s1|] eqn:Hstep; [|done]. cbn [mbind option_bind]. apply IH.
    - intros row Hrow. apply Hrows. by right.
    - eapply fact_step_roster; [|exact Hs|exact Hstep]. apply (Hrows (c, epoch)). by left. }
  destruct (fact_loop _ _ _) as [s|] eqn:Hl; [|done]. cbn [mbind option_bind]. intros [= <-]. simpl.
  apply Hloop in Hl.
  - intros r f Hr. rewrite lookup_fmap in Hr. apply fmap_Some in Hr as (f0 & Hf0 & ->). apply (Hl r f0 Hf0).
  - intros [c epoch]. unfold effective_rows. rewrite sort_by_key_perm. intros (x & Hx & Ho)%list_elem_of_omap.
    unfold eff_in, effective_in. destruct (outcomes !! fc_hash x) as [[]|] eqn:Hxo; simplify_eq. simpl. by rewrite Hxo.
  - intros r f. simpl. by rewrite lookup_empty.
Qed.

(** The last pass of the fold, with what it enrolls. *)
Lemma fold_enrollments `{Minicbor} `{Sha256} `{Ed25519} (entries : list VerifiedAccountEntry) :
  (∀ e, e ∈ entries → 0 ≤ ah_seq (va_header e)) →
  ∃ exclusions r, exclusions_ok (cl_candidates (collect entries)) exclusions ∧
    fold_account_pass entries exclusions false = Some r ∧ fold_account entries = Some (pr_history r) ∧
    (∀ c c' d, eff_in (cl_candidates (collect entries)) (hi_outcomes (pr_history r)) c →
       eff_in (cl_candidates (collect entries)) (hi_outcomes (pr_history r)) c' →
       enrolls c = Some d → enrolls c' = Some d → c = c') ∧
    (∀ k k' f f', af_roster_refs (hi_facts (pr_history r)) !! k = Some f → af_roster_refs (hi_facts (pr_history r)) !! k' = Some f' →
       rr_device_fingerprint (rf_authority f) = rr_device_fingerprint (rf_authority f') → k = k').
Proof.
  intros Hseq. destruct (fold_rooted entries Hseq false) as (exclusions & r & Hok & Hr & Ht & Heff).
  exists exclusions, r. split; [done|]. split; [done|]. split; [by eapply fold_account_of_traced|].
  assert (∀ x, eff_in (cl_candidates (collect entries)) (hi_outcomes (pr_history r)) x →
    ∃ genesis, find_genesis (cl_candidates (collect entries)) = Some genesis ∧
      eff_outs (cl_candidates (collect entries)) (cl_headers (collect entries)) (cl_outcomes (collect entries)) exclusions genesis x) as Hx.
  { intros x [Hin Hx]. destruct (Heff _ Hx) as (genesis & y & Hfind & Hy & Hye). exists genesis. split; [done|].
    rewrite (NoDup_fmap_inj fc_hash (cl_candidates (collect entries)) x y); [done|apply cands_NoDup|done|apply Hye|done]. }
  assert (∀ c c' d, eff_in (cl_candidates (collect entries)) (hi_outcomes (pr_history r)) c →
    eff_in (cl_candidates (collect entries)) (hi_outcomes (pr_history r)) c' →
    enrolls c = Some d → enrolls c' = Some d → c = c') as Huniq.
  { intros c c' d Hc Hc' Hd Hd'. destruct (Hx c Hc) as (genesis & Hfind & Hce), (Hx c' Hc') as (genesis' & Hfind' & Hce').
    rewrite Hfind in Hfind'. injection Hfind' as <-.
    by apply (final_unique entries Hseq exclusions false r genesis Hok Hr Hfind c c' d). }
  split; [done|]. intros k k' f f' Hk Hk' Hd.
  assert (roster_from (eff_in (cl_candidates (collect entries)) (hi_outcomes (pr_history r)))
    (af_roster_refs (hi_facts (pr_history r)))) as Hroster.
  { destruct (find_genesis (cl_candidates (collect entries))) as [genesis|] eqn:Hfind.
    - destruct (rooted_pass entries exclusions false genesis r Hfind Hr) as (out & disc & _ & -> & _ & _ & _ & Hfacts & _).
      by eapply derived_roster.
    - unfold fold_account_pass in Hr. rewrite Hfind in Hr. injection Hr as <-. intros r0 f0. simpl. by rewrite lookup_empty. }
  destruct (Hroster k f Hk) as (c & Hc & <- & Hcd), (Hroster k' f' Hk') as (c' & Hc' & <- & Hcd').
  f_equal. apply (Huniq c c' (rr_device_fingerprint (rf_authority f))); [done|done|done|congruence].
Qed.

(** C36.  Enrollment: a device has at most one effective enrollment, the genesis included, over
    the whole life of the account (a removed device is not enrolled again), and so at most one
    roster fact: the query for a device's fact does not depend on the order of the map. *)
Theorem one_enrollment_per_device `{Minicbor} `{Sha256} `{Ed25519} (entries : list VerifiedAccountEntry) :
  (∀ e, e ∈ entries → 0 ≤ ah_seq (va_header e)) →
  ∃ h, fold_account entries = Some h ∧
    (∀ c c' d, eff_in (cl_candidates (collect entries)) (hi_outcomes h) c →
       eff_in (cl_candidates (collect entries)) (hi_outcomes h) c' →
       enrolls c = Some d → enrolls c' = Some d → c = c') ∧
    (∀ r r' f f', af_roster_refs (hi_facts h) !! r = Some f → af_roster_refs (hi_facts h) !! r' = Some f' →
       rr_device_fingerprint (rf_authority f) = rr_device_fingerprint (rf_authority f') → r = r').
Proof.
  intros Hseq. destruct (fold_enrollments entries Hseq) as (exclusions & r & _ & _ & Hh & Huniq & Hroster).
  by exists (pr_history r).
Qed.

(** C38.  Liveness of the root: an account that has a root and is not contested has that root
    effective, whatever other entries are present. *)
Theorem live_root_effective `{Minicbor} `{Sha256} `{Ed25519} (entries : list VerifiedAccountEntry) :
  (∀ e, e ∈ entries → 0 ≤ ah_seq (va_header e)) →
  ∃ h, fold_account entries = Some h ∧
    ((∃ c, c ∈ cl_candidates (collect entries) ∧ is_root c = true) → hi_classification h = Live →
     ∃ root, hi_genesis_hash h = Some root ∧ effective_in (hi_outcomes h) root = true).
Proof.
  intros Hseq. destruct (fold_cases entries false) as (exclusions & r & Hok & Hr & Ht & _ & Hg). exists (pr_history r).
  split; [by eapply fold_account_of_traced|]. intros (c & Hc & Hroot) Hlive.
  destruct (find_genesis (cl_candidates (collect entries))) as [genesis|] eqn:Hfind.
  2: { exfalso. unfold find_genesis in Hfind. assert (c ∈ List.filter is_root (cl_candidates (collect entries))) as Hin
         by (by apply elem_of_filter_bool).
       destruct (List.filter is_root (cl_candidates (collect entries))) as [|x l]; [by apply not_elem_of_nil in Hin|].
       revert Hfind. simpl. generalize x. clear. induction l as [|y l IH]; intros x; [done|]. simpl.
       destruct (bool_decide (clt (fc_hash y) (fc_hash x))); apply IH. }
  destruct Hg as [Hgen Hgroot].
  destruct (rooted_pass entries exclusions false genesis r Hfind Hr) as (out & disc & Hclose & Ho & _ & Hcl & Hgh & _).
  exists (fc_hash genesis). split; [done|]. rewrite Ho, normalize_effective. unfold close_final_authority_dependencies in Hclose.
  eapply close_keeps_root; [apply cands_NoDup|done|done|apply compute_credits_ok|exact Hclose|].
  apply genesis_live; [apply cands_NoDup|done|done|done|apply (collect_collected entries)|apply cands_structural| |].
  - by apply cands_seq.
  - rewrite <- Hlive, Hcl. done.
Qed.

(** ** A concrete account

    A founder enrolls a second owner, who removes the founder's device past its second entry; the
    founder's third entry is then beyond the cut. *)

Definition wit_account : AccountId := account_id_from_genesis_payload wit_genesis_payload.
Definition wit_hash (b : byte) : AccountEntryHash := replicate 32 b.
Definition wit_entry (device : DeviceFingerprint) (hash : AccountEntryHash) (seq : Z) (prev cited : option bytes) (auth_len : Z)
    (op : AccountOp) : VerifiedAccountEntry :=
  mkVerifiedAccountEntry
    (mkAccountEntryHeader wit_account CONTROL_LOG device seq prev None (entry_type_of op) 1 0 auth_len None cited)
    (match ops_encode op with Ok payload => payload | Err _ => [] end) hash.
Definition wit_founder : DeviceFingerprint := sha256 wit_ed.
Definition wit_second_key : bytes := verifying_key (replicate 32 x08).
Definition wit_second_device : DeviceFingerprint := sha256 wit_second_key.

Definition wit_entries : list VerifiedAccountEntry :=
  [wit_entry wit_founder (wit_hash x01) 0 None None 0 wit_genesis_op;
   wit_entry wit_founder (wit_hash x02) 1 (Some (wit_hash x01)) (Some (wit_hash x01)) 1
     (DeviceAdd wit_second_device wit_second_key wit_x Owner None);
   wit_entry wit_second_device (wit_hash x03) 0 None (Some (wit_hash x02)) 2
     (DeviceRemove wit_founder (CutAt 1 (wit_hash x02)) CutEmpty [] (lit "lost"));
   wit_entry wit_founder (wit_hash x04) 2 (Some (wit_hash x02)) (Some (wit_hash x01)) 2
     (OwnerPromote wit_second_device)].

Lemma wit_entries_ok : ∀ e, e ∈ wit_entries → 0 ≤ ah_seq (va_header e).
Proof. apply Forall_forall. repeat constructor; simpl; lia. Qed.

Lemma wit_outcomes h :
  fold_account wit_entries = Some h →
  hi_outcomes h !! wit_hash x03 = Some (OutEffective 2) ∧
  hi_outcomes h !! wit_hash x04 = Some (OutCondemned CondemnedBeyondCut) ∧ hi_classification h = Live ∧
  hi_genesis_hash h = Some (wit_hash x01).
Proof.
  assert ((fun h => (hi_outcomes h !! wit_hash x03, hi_outcomes h !! wit_hash x04, hi_classification h, hi_genesis_hash h))
    <$> fold_account wit_entries =
    Some (Some (OutEffective 2), Some (OutCondemned CondemnedBeyondCut), Live, Some (wit_hash x01))) as Hw
    by (vm_compute; reflexivity).
  intros Hh. rewrite Hh in Hw. injection Hw as -> -> -> ->. split_and!; reflexivity.
Qed.

Lemma effective_entries_authorized_witness :
  ∃ h c, fold_account wit_entries = Some h ∧ fc_hash c = wit_hash x03 ∧
    authority_chain (cl_candidates (collect wit_entries)) (hi_outcomes h) (wit_hash x01) c 2.
Proof.
  destruct (effective_entries_authorized wit_entries wit_entries_ok) as (h & Hh & Ha).
  destruct (wit_outcomes h Hh) as (H3 & _ & _ & Hg). destruct (Ha _ _ H3) as (root & c & Hroot & Hc & Hchain).
  exists h, c. rewrite Hg in Hroot. injection Hroot as <-. exact (conj Hh (conj Hc Hchain)).
Defined.

(** The founder's entry past the cut has the verdict of a condemned entry. *)
Definition wit_beyond : bool :=
  match fold_account_traced wit_entries true with
  | Some (h, Some t) =>
      existsb (fun c => bool_decide (fc_hash c = wit_hash x04) &&
        match register_verdict c (lt_registers t) (cl_headers (collect wit_entries)) with
        | VerdictCondemned CondemnedBeyondCut => true | _ => false end) (cl_candidates (collect wit_entries))
  | _ => false
  end.

Lemma effective_entries_within_cuts_witness :
  wit_beyond = true ∧
  ∃ h trace, fold_account_traced wit_entries true = Some (h, trace) ∧
    ∀ c, c ∈ cl_candidates (collect wit_entries) → effective_in (hi_outcomes h) (fc_hash c) = true →
      hi_genesis_hash h ≠ Some (fc_hash c) →
      ∃ t, trace = Some t ∧
        match fc_op c with
        | AccountReRoot _ _ => ∀ why, register_verdict c (lt_registers t) (cl_headers (collect wit_entries)) ≠ VerdictCondemned why
        | _ => register_verdict c (lt_registers t) (cl_headers (collect wit_entries)) = VerdictClear
        end.
Proof. split; [vm_compute; reflexivity|]. exact (effective_entries_within_cuts wit_entries wit_entries_ok). Defined.

Lemma one_enrollment_per_device_witness :
  ∃ h, fold_account wit_entries = Some h ∧
    (∀ r r' f f', af_roster_refs (hi_facts h) !! r = Some f → af_roster_refs (hi_facts h) !! r' = Some f' →
       rr_device_fingerprint (rf_authority f) = rr_device_fingerprint (rf_authority f') → r = r').
Proof. destruct (one_enrollment_per_device wit_entries wit_entries_ok) as (h & Hh & _ & Hf). exact (ex_intro _ h (conj Hh Hf)). Defined.

Lemma live_root_effective_witness :
  ∃ h, fold_account wit_entries = Some h ∧ effective_in (hi_outcomes h) (wit_hash x01) = true.
Proof.
  destruct (live_root_effective wit_entries wit_entries_ok) as (h & Hh & Hr). exists h. split; [exact Hh|].
  destruct (wit_outcomes h Hh) as (_ & _ & Hl & Hg). destruct Hr as (root & Hroot & He).
  - exists (mkFoldCandidate (wit_entry wit_founder (wit_hash x01) 0 None None 0 wit_genesis_op) wit_genesis_op).
    split; [apply list_elem_of_lookup; exists 0%nat; vm_compute; reflexivity|vm_compute; reflexivity].
  - exact Hl.
  - rewrite Hg in Hroot. injection Hroot as <-. exact He.
Defined.
