(* ===== verification/FoldPerm.v ===== *)
(** * The stages of a fold pass under a reordering of its candidates ([account/fold.rs])

    A pass reads its candidates as a vector, but no stage before the dependency closure depends on
    the order: the loops insert under distinct hashes, and what is processed in sequence is sorted
    first. *)

From S2P Require Import Prelude Cbor Minicbor Hash Op Device Entry Stream Branch Envelope Candidate AccountOps FoldTypes Fold FoldDepth FoldTotal FoldPass FoldReplay FoldRooted.

Local Open Scope Z_scope.

(** ** Loops that do not depend on the order *)

(** Steps that commute on elements with distinct keys, up to an equivalence. *)
Lemma foldl_perm_rel {A B K} (key : A → K) (R : relation B) `{!Equivalence R} (f : B → A → B) (l k : list A) (b : B) :
  (∀ x, Proper (R ==> R) (λ b, f b x)) →
  (∀ b x y, x ∈ l → y ∈ l → key x ≠ key y → R (f (f b x) y) (f (f b y) x)) →
  NoDup (key <$> l) → l ≡ₚ k → R (foldl f b l) (foldl f b k).
Proof.
  intros Hp Hc Hnd Hlk.
  assert (∀ l b b', R b b' → R (foldl f b l) (foldl f b' l)) as Hfold.
  { intros l'. induction l' as [|x l' IH]; intros b1 b2 Hb; [done|]. simpl. by apply IH, Hp. }
  revert b Hc Hnd. induction Hlk as [|x l k Hlk IH|x y l|l k m Hlk IH Hkm IH']; intros b Hc Hnd.
  - reflexivity.
  - simpl. rewrite fmap_cons in Hnd. apply NoDup_cons in Hnd as [_ Hnd]. apply IH; [|done].
    intros b' u v Hu Hv. apply Hc; by right.
  - simpl. apply Hfold. apply Hc; [by left|right; by left|]. intros Heq.
    rewrite !fmap_cons in Hnd. apply NoDup_cons in Hnd as [Hn _]. apply Hn. rewrite Heq. by left.
  - transitivity (foldl f b k); [by apply IH|]. apply IH'; [|by rewrite <- Hlk].
    intros b' u v Hu Hv. apply Hc; by rewrite Hlk.
Qed.

Lemma foldl_perm {A B K} (key : A → K) (f : B → A → B) (l k : list A) (b : B) :
  (∀ b x y, x ∈ l → y ∈ l → key x ≠ key y → f (f b x) y = f (f b y) x) →
  NoDup (key <$> l) → l ≡ₚ k → foldl f b l = foldl f b k.
Proof. intros Hc. apply (foldl_perm_rel key eq f); [|done]. by intros x b1 b2 ->. Qed.

(** Sorting by distinct keys forgets the order. *)
Lemma sort_by_key_perm_eq {A K} `{TotalCmp K} (key : A → K) (l k : list A) :
  NoDup (key <$> l) → l ≡ₚ k → sort_by_key key l = sort_by_key key k.
Proof.
  intros Hnd Hlk. apply (fmap_inj_on key); [|by apply sort_by_key_keys].
  intros x y Hx Hy. rewrite sort_by_key_perm in Hx, Hy. rewrite <- Hlk in Hy. by apply (NoDup_fmap_inj key l).
Qed.

Lemma omap_perm {A B} (f : A → option B) (l k : list A) : l ≡ₚ k → omap f l ≡ₚ omap f k.
Proof.
  induction 1 as [|x l k Hlk IH|x y l|]; simpl; [done|destruct (f x); [by f_equiv|done]| |by etrans].
  destruct (f x), (f y); try done. by constructor.
Qed.

Lemma NoDup_fmap_pair {A B K} (f : A → K) (g : A → B) (l : list A) : NoDup (f <$> l) → NoDup ((λ x, (g x, f x)) <$> l).
Proof.
  intros Hnd. apply (NoDup_fmap_1 snd). by rewrite <- list_fmap_compose.
Qed.

(** ** The depth stages *)

(** Rows with the same depths, and the same candidates at each. *)
Definition row_perm (r r' : nat * list FoldCandidate) : Prop := r.1 = r'.1 ∧ r.2 ≡ₚ r'.2.

Section Stages.
Context `{Minicbor} `{Sha256} `{Ed25519}.
Context (incs : Incarnations) (view : HeaderView).

(** The admitted cuts as a set, with the pass beside them. *)
Definition same_set {A} (x y : list A * DepthPass) : Prop := x.1 ≡ₚ y.1 ∧ x.2 = y.2.
#[export] Instance same_set_equivalence {A} : Equivalence (@same_set A).
Proof using Type.
  split.
  - by intros [].
  - intros [] [] [? ?]. by split.
  - intros [] [] [] [? ?] [? ?]. split; by etrans.
Qed.

Lemma set_cut_verdict_comm h h' o o' p :
  h ≠ h' → set_cut_verdict h o (set_cut_verdict h' o' p) = set_cut_verdict h' o' (set_cut_verdict h o p).
Proof using Type. intros Hne. unfold set_cut_verdict. simpl. by rewrite insert_insert_ne. Qed.

(** A loop that decides each candidate by itself, recording a verdict or collecting a row. *)
Definition collects {X} (key : X → AccountEntryHash) (decision : DepthPass → FoldCandidate → option (Outcome + X))
    (step : list X * DepthPass → FoldCandidate → list X * DepthPass) : Prop :=
  ∀ rows p c,
    (∀ h o, decision (set_cut_verdict h o p) c = decision p c) ∧
    (∀ x, decision p c = Some (inr x) → key x = fc_hash c) ∧
    step (rows, p) c = match decision p c with
                       | None => (rows, p)
                       | Some (inl o) => (rows, set_cut_verdict (fc_hash c) o p)
                       | Some (inr x) => (rows ++ [x], p)
                       end.

Lemma collects_keys {X} (key : X → AccountEntryHash) decision step l p :
  collects key decision step → NoDup (fc_hash <$> l) →
  NoDup (key <$> (foldl step ([], p) l).1) ∧ ∀ x, x ∈ (foldl step ([], p) l).1 → key x ∈ fc_hash <$> l.
Proof using Type.
  intros Hs. induction l as [|c l IH] using rev_ind; [by split; [constructor|intros ? ?%not_elem_of_nil]|].
  rewrite fmap_app. intros (Hl & Hc & _)%NoDup_app. rewrite foldl_app. cbn [foldl].
  destruct (IH Hl) as [Hn Hin]. destruct (foldl _ _ l) as [rows q]. destruct (Hs rows q c) as (_ & Hkey & ->).
  assert (∀ x, x ∈ rows → key x ∈ (fc_hash <$> l) ++ (fc_hash <$> [c])) as Hin' by (intros x Hx%Hin; apply elem_of_app; by left).
  destruct (decision q c) as [[o|x]|]; [done| |done]. specialize (Hkey x eq_refl). simpl in *. split.
  - rewrite fmap_app. apply NoDup_app. split_and!; [done| |apply NoDup_singleton].
    intros h (y & -> & Hy)%list_elem_of_fmap Heq%list_elem_of_singleton. apply (Hc (key y)); [by apply Hin|].
    rewrite Heq, Hkey. by left.
  - intros y [Hy| ->%list_elem_of_singleton]%elem_of_app; [by apply Hin'|]. rewrite Hkey. apply elem_of_app. right. by left.
Qed.

Lemma collects_perm {X} (key : X → AccountEntryHash) decision step idxs idxs' p :
  collects key decision step → NoDup (fc_hash <$> idxs) → idxs ≡ₚ idxs' →
  sort_by_key key (foldl step ([], p) idxs).1 = sort_by_key key (foldl step ([], p) idxs').1 ∧
  (foldl step ([], p) idxs).2 = (foldl step ([], p) idxs').2.
Proof using Type.
  intros Hs Hnd Hp. assert (same_set (foldl step ([], p) idxs) (foldl step ([], p) idxs')) as [Ha Hq].
  { apply (foldl_perm_rel fc_hash same_set); [| |done|done].
    - intros c [l1 q] [l2 q'] [Hl Hq]. simpl in Hl, Hq. subst q'.
      destruct (Hs l1 q c) as (_ & _ & ->), (Hs l2 q c) as (_ & _ & ->).
      destruct (decision q c) as [[o|x]|]; split; simpl; try done. by rewrite Hl.
    - intros [l q] x y _ _ Hne. destruct (Hs l q x) as (_ & _ & ->), (Hs l q y) as (_ & _ & ->).
      destruct (decision q x) as [[o|r]|] eqn:Hx, (decision q y) as [[o'|r']|] eqn:Hy;
        rewrite ?(proj2 (proj2 (Hs _ _ _))), ?(proj1 (Hs l _ _)), ?Hx, ?Hy; try done.
      + split; [done|]. simpl. by apply set_cut_verdict_comm.
      + split; [|done]. simpl. rewrite <- !app_assoc. f_equiv. by rewrite Permutation_app_comm. }
  split; [|done]. apply sort_by_key_perm_eq; [|done]. by apply (collects_keys key decision).
Qed.

Lemma admit_collects :
  collects (λ a, fc_hash (ac_op a))
    (λ p c, match admission incs view p c with
            | NotACut => None | CutVerdict o => Some (inl o) | Admit a => Some (inr a)
            end) (admit_step incs view).
Proof using Type.
  intros rows p c. split_and!; [done| |unfold admit_step; by destruct (admission incs view p c)].
  intros a Ha. pose proof (admission_spec incs view p c) as Hs. destruct (admission incs view p c); simplify_eq.
  by destruct Hs as [-> _].
Qed.

Lemma extend_collects registers :
  collects (fun '(c, _, _) => fc_hash c)
    (λ p c, match extension incs view registers p c with
            | NotAnExtend => None | ExtendVerdict o => Some (inl o) | ExtendRow x key cut => Some (inr (x, key, cut))
            end) (extend_step incs view registers).
Proof using Type.
  intros rows p c. split_and!; [done| |unfold extend_step; by destruct (extension incs view registers p c)].
  intros [[x key] cut] Ha. unfold extension in Ha. by repeat case_match; simplify_eq.
Qed.

Lemma admit_perm idxs idxs' p :
  NoDup (fc_hash <$> idxs) → idxs ≡ₚ idxs' → admit_cut_registers incs view idxs p = admit_cut_registers incs view idxs' p.
Proof using Type.
  intros Hnd Hp. unfold admit_cut_registers. pose proof (collects_perm _ _ _ idxs idxs' p admit_collects Hnd Hp) as [Hs Hq].
  destruct (foldl _ _ idxs), (foldl _ _ idxs'). simpl in *. by rewrite Hs, Hq.
Qed.

Lemma commit_perm depth idxs idxs' admitted p :
  NoDup (fc_hash <$> idxs) → idxs ≡ₚ idxs' →
  commit_registers incs view depth idxs admitted p = commit_registers incs view depth idxs' admitted p.
Proof using Type.
  intros Hnd Hp. unfold commit_registers.
  set (q := foldl _ p admitted). set (registers := foldl _ (dp_registers p) admitted).
  destruct (collects_perm _ _ _ idxs idxs' q (extend_collects registers) Hnd Hp) as [Hs Hq].
  destruct (foldl _ ([], q) idxs) as [e r], (foldl _ ([], q) idxs') as [e' r']. simpl in *. subst r'. by rewrite Hs.
Qed.

(** Removing the link of one hash does not disturb the link of another. *)
Lemma unlink_test (m : gmap bytes bytes) d d' h h' :
  h ≠ h' → bool_decide ((if bool_decide (m !! d' = Some h') then delete d' m else m) !! d = Some h) = bool_decide (m !! d = Some h).
Proof using Type.
  intros Hne. apply bool_decide_ext. case_bool_decide as Hd; [|done].
  destruct (decide (d = d')) as [->|Hdd]; [|by rewrite lookup_delete_ne]. rewrite lookup_delete_eq, Hd. naive_solver.
Qed.

Definition enrolls_device (op : AccountOp) : bool := match op with DeviceAdd _ _ _ _ _ => true | _ => false end.

Lemma forget_mint_comm c c' s : fc_hash c ≠ fc_hash c' → forget_mint c (forget_mint c' s) = forget_mint c' (forget_mint c s).
Proof using Type.
  intros Hne. unfold forget_mint. destruct (is_mint c), (is_mint c'); try done. cbn [negb].
  assert (∀ c (m : gmap bytes bytes) (d h : bytes),
    match fc_op c with DeviceAdd _ _ _ _ _ => bool_decide (m !! d = Some h) | _ => false end =
    enrolls_device (fc_op c) && bool_decide (m !! d = Some h)) as Hop by (intros x m d h; by destruct (fc_op x)).
  rewrite !Hop. set (e := enrolls_device (fc_op c)). set (e' := enrolls_device (fc_op c')).
  set (d := subject_device c). set (d' := subject_device c'). cbn [set_roster st_live st_roster st_enrollment_roles st_owners
    st_tombstoned st_genesis_seen st_next_auth_epoch st_stream_ownership st_public_streams st_grants].
  unfold set_roster. cbn [st_live st_roster st_enrollment_roles st_owners
    st_tombstoned st_genesis_seen st_next_auth_epoch st_stream_ownership st_public_streams st_grants].
  rewrite !unlink_test by done.
  assert (∀ (b : bool) (m : gmap bytes bytes) x x' y y', y ≠ y' →
    bool_decide ((if b && bool_decide (m !! x' = Some y') then delete x' m else m) !! x = Some y) = bool_decide (m !! x = Some y)) as Htest.
  { intros b m x x' y y' Hy. destruct b; simpl; [by apply unlink_test|done]. }
  rewrite !Htest by done.
  assert (st_live s ∖ {[fc_hash c']} ∖ {[fc_hash c]} = st_live s ∖ {[fc_hash c]} ∖ {[fc_hash c']}) as -> by set_solver.
  clearbody e e'. destruct e, e'; simpl; f_equal; repeat case_bool_decide; try done; apply delete_delete.
Qed.
End Stages.

(** ** The pass *)

Section Perm.
Context `{Minicbor} `{Sha256} `{Ed25519}.
Context (candidates candidates' : list FoldCandidate).
Context (Hnd : NoDup (fc_hash <$> candidates)) (Hperm : candidates ≡ₚ candidates').

Lemma nodup_perm : NoDup (fc_hash <$> candidates').
Proof using Hnd Hperm. by rewrite <- Hperm. Qed.

Lemma rederive_perm incs view p :
  rederive_condemnation candidates incs view p = rederive_condemnation candidates' incs view p.
Proof using Hnd Hperm.
  rewrite !rederive_spec by first [done|apply nodup_perm]. unfold rederived.
  assert (∀ f, NoDup (fc_hash <$> List.filter f candidates)) as Hf by (intros f; by apply NoDup_fmap_filter).
  assert (∀ f, List.filter f candidates ≡ₚ List.filter f candidates') as Hp by (intros f; by apply filter_bool_perm).
  f_equal; [|f_equal; by apply insert_all_perm]. apply (foldl_perm fc_hash); [|done|done].
  intros s x y _ _ Hne. by apply forget_mint_comm.
Qed.

Lemma effect_order_nodup (l : list FoldCandidate) : NoDup (fc_hash <$> l) → NoDup (effect_order <$> l).
Proof using Type. intros Hl. apply (NoDup_fmap_1 snd). by rewrite <- list_fmap_compose. Qed.

Lemma fold_depth_perm incs view depth idxs idxs' p outcomes :
  NoDup (fc_hash <$> idxs) → idxs ≡ₚ idxs' →
  fold_depth candidates incs view depth idxs p outcomes = fold_depth candidates' incs view depth idxs' p outcomes.
Proof using Hnd Hperm.
  intros Hi Hp. unfold fold_depth. rewrite (admit_perm incs view idxs idxs') by done.
  destruct (admit_cut_registers _ _ _ _) as [a1 p1]. destruct (reject_sole_owner_cuts a1 p1) as [a2 p2].
  destruct (stage_register_joins _ _ _ _) as [[a3 p3]|e]; [|done]. cbn. destruct (has_condemn_cycle _ _); [done|].
  destruct (reserve_surviving_owner a3 p3) as [a4 p4]. rewrite (commit_perm incs view depth idxs idxs') by done.
  destruct (commit_registers _ _ _ _ _ _) as [p5|e]; [|done]. cbn. rewrite rederive_perm. unfold run_effect_pass, effect_pass.
  by rewrite (sort_by_key_perm_eq effect_order idxs idxs') by (try apply effect_order_nodup; done).
Qed.

Lemma fold_depths_perm incs view rows rows' p outcomes :
  Forall (λ row, NoDup (fc_hash <$> row.2)) rows → Forall2 row_perm rows rows' →
  fold_depths candidates incs view rows p outcomes = fold_depths candidates' incs view rows' p outcomes.
Proof using Hnd Hperm.
  intros Hr Hrows. revert p outcomes. induction Hrows as [|[d idxs] [d' idxs'] rows rows' [Hd Hi] Hrows IH]; intros p outcomes; [done|].
  apply Forall_cons in Hr as [Hn Hr]. simpl in *. subst d'. rewrite (fold_depth_perm incs view d idxs idxs') by done.
  destruct (fold_depth _ _ _ _ _ _ _) as [[q o]|q]; [|done]. by apply IH.
Qed.

Lemma replayed_perm rows rows' before :
  Forall (λ row, NoDup (fc_hash <$> row.2)) rows → Forall2 row_perm rows rows' → replayed rows before = replayed rows' before.
Proof using Type.
  intros Hr Hrows. unfold replayed. induction Hrows as [|[d idxs] [d' idxs'] rows rows' [Hd Hi] Hrows IH]; [done|].
  apply Forall_cons in Hr as [Hn Hr]. simpl in Hd, Hi, Hn. subst d'. cbn [List.filter].
  change (before_limit before (d, idxs')) with (before_limit before (d, idxs)). specialize (IH Hr).
  destruct (before_limit before (d, idxs)); [|done]. simpl. f_equal; [|exact IH].
  apply sort_by_key_perm_eq; [by apply effect_order_nodup|done].
Qed.

Lemma incarnations_perm owner : incarnations_build candidates owner = incarnations_build candidates' owner.
Proof using Hnd Hperm.
  unfold incarnations_build. f_equal. apply (insert_all_perm fc_hash (λ c, c)).
  - by apply NoDup_fmap_filter.
  - by apply filter_bool_perm.
Qed.

Lemma clt_total (x y : bytes) : clt x y ∨ x = y ∨ clt y x.
Proof using Type.
  destruct (decide (cle x y)) as [[?|?]%cle_lt_eq|?%not_cle_clt]; auto.
Qed.

Lemma clt_trans (x y z : bytes) : clt x y → clt y z → clt x z.
Proof using Type. apply cmp_lt_trans. Qed.

Lemma clt_asym (x y : bytes) : clt x y → clt y x → False.
Proof using Type. intros Hxy Hyx. pose proof (clt_trans _ _ _ Hxy Hyx) as Hxx. unfold clt in Hxx. by rewrite cmp_refl in Hxx. Qed.

Lemma min_by_hash_comm acc x y :
  fc_hash x ≠ fc_hash y → min_by_hash (min_by_hash acc x) y = min_by_hash (min_by_hash acc y) x.
Proof using Type.
  intros Hne. destruct acc as [b|]; simpl; repeat (case_bool_decide; simpl); try done; exfalso; unfold not in *;
    destruct (clt_total (fc_hash x) (fc_hash y)) as [?|[?|?]]; eauto using clt_trans, clt_asym.
Qed.

Lemma find_genesis_perm : find_genesis candidates = find_genesis candidates'.
Proof using Hnd Hperm.
  unfold find_genesis. apply (foldl_perm fc_hash); [|by apply NoDup_fmap_filter|by apply filter_bool_perm].
  intros acc x y _ _. apply min_by_hash_comm.
Qed.

(** The strata of the two orders have the same depths, and the same candidates at each. *)
Lemma btree_keys (s s' : Strata) : (∀ d, is_Some (s !! d) ↔ is_Some (s' !! d)) → (btree_iter s).*1 = (btree_iter s').*1.
Proof using Type.
  intros Hs. unfold btree_iter. rewrite !fmap_sort_by_key. apply sort_by_key_perm_eq.
  - rewrite list_fmap_id. apply NoDup_fst_map_to_list.
  - apply NoDup_Permutation; [apply NoDup_fst_map_to_list..|]. intros d.
    assert (∀ m : Strata, d ∈ (map_to_list m).*1 ↔ is_Some (m !! d)) as Hd; [|by rewrite !Hd].
    intros m. rewrite list_elem_of_fmap. split.
    + intros ([? l] & -> & Hl%elem_of_map_to_list). by eexists.
    + intros [l Hl]. exists (d, l). by rewrite elem_of_map_to_list.
Qed.

Lemma strata_rows incs exclusions owner founder (s s' : Strata) :
  strata_of incs exclusions owner founder candidates s → strata_of incs exclusions owner founder candidates' s' →
  Forall2 row_perm (btree_iter s) (btree_iter s').
Proof using Hperm.
  intros Hs Hs'. assert ((btree_iter s).*1 = (btree_iter s').*1) as Hk.
  { apply btree_keys. intros d. rewrite (Hs d), (Hs' d).
    pose proof (filter_bool_perm (placed_at incs exclusions owner founder d) _ _ Hperm) as Hf.
    destruct (List.filter _ candidates), (List.filter _ candidates'); [done|..|by split; eexists].
    - by apply Permutation_nil_l in Hf.
    - by apply Permutation_nil_r in Hf. }
  apply Forall2_same_length_lookup. split; [by rewrite <- !(length_fmap fst), Hk|].
  intros i [d l] [d' l'] Hi Hi'. assert (d = d') as <-.
  { apply (f_equal (lookup i)) in Hk. rewrite !list_lookup_fmap, Hi, Hi' in Hk. by injection Hk. }
  split; [done|]. simpl. apply list_elem_of_lookup_2 in Hi, Hi'.
  apply (btree_elem _ _ _ _ _ _ Hs) in Hi as [-> _]. apply (btree_elem _ _ _ _ _ _ Hs') in Hi' as [-> _].
  by apply filter_bool_perm.
Qed.

Lemma rows_nodup incs exclusions owner founder (s : Strata) :
  strata_of incs exclusions owner founder candidates s → Forall (λ row, NoDup (fc_hash <$> row.2)) (btree_iter s).
Proof using Hnd.
  intros Hs. apply Forall_forall. intros [d l] [-> _]%(btree_elem _ _ _ _ _ _ Hs). by apply NoDup_fmap_filter.
Qed.
End Perm.

(** ** The credits *)

Section Credits.
Context `{Minicbor} `{Sha256} `{Ed25519}.
Context (candidates candidates' : list FoldCandidate).
Context (Hnd : NoDup (fc_hash <$> candidates)) (Hperm : candidates ≡ₚ candidates').
Context (genesis : FoldCandidate) (Hgen : genesis ∈ candidates) (Hroot : is_root genesis = true) (exclusions : Outcomes).

Local Abbreviation incs := (pass_incs candidates genesis).
Local Abbreviation placed := (placed_at incs exclusions (fc_hash genesis) (subject_device genesis)).

(** Crediting an entry twice over. *)
Lemma credit_entry_comm acc x y : credit_entry (credit_entry acc x) y = credit_entry (credit_entry acc y) x.
Proof using Type.
  unfold credit_entry. simpl. f_equal. destruct (is_mint x), (is_mint y); try done. by rewrite !(assoc_L (∪)), (comm_L (∪) {[fc_hash y]}).
Qed.

(** Within a depth, a mint is not the author of another entry, unless it authors itself. *)
Lemma same_depth_author d x y :
  x ∈ candidates → placed d x = true → placed d y = true → is_mint x = true →
  author_incarnation_id y = Some (fc_hash x) → author_incarnation_id x = Some (fc_hash x).
Proof using Hnd Hgen Hroot.
  intros Hx Hpx Hpy Hm Hay. apply placed_spec in Hpx as (_ & _ & Hdx). apply placed_spec in Hpy as (_ & _ & Hdy).
  assert (∀ c, author_depth_is incs c (depth_of incs c)) as Hspec by (intros c; apply author_depth_spec, memo_ok_empty).
  pose proof (Hspec x) as Hsx. pose proof (Hspec y) as Hsy. unfold author_depth_is in Hsx, Hsy. rewrite Hay in Hsy.
  destruct (decide (fc_hash x = fc_hash genesis)) as [Heq|Hne].
  { assert (x = genesis) as -> by (by apply (NoDup_fmap_inj fc_hash candidates)).
    destruct (root_fields genesis Hroot) as ((? & ? & ? & ? & ? & Hop) & _). unfold author_incarnation_id. by rewrite Hop. }
  assert (author_incarnation_id x = Some (fc_hash x) ∨ author_incarnation_id x = ah_authority_ref (fc_header x)) as [Hs|Hs]
    by (unfold author_incarnation_id; destruct (fc_op x); auto).
  { done. }
  exfalso.
  destruct (author_incarnation_id x) as [p|] eqn:Hax; [|by rewrite Hsx in Hdx].
  assert (cites incs (fc_hash x) p) as Hc.
  { split; [done|]. exists x. split; [by apply incs_complete|done]. }
  apply Hsx in Hdx. apply Hsy, (inc_depth_cites _ _ _ _ Hc) in Hdy as (m & -> & Hm').
  pose proof (inc_depth_det _ _ _ _ Hdx Hm'). lia.
Qed.

(** The second loop of the credit: an entry that went stale with an author already credited. *)
Definition credited_author (acc : Z * gset AccountEntryHash) (c : FoldCandidate) : bool :=
  match author_incarnation_id c with Some inc => bool_decide (inc ∈ acc.2) | None => false end.
Definition credit_stale (stale : FoldCandidate → bool) (acc : Z * gset AccountEntryHash) (c : FoldCandidate)
    : Z * gset AccountEntryHash :=
  if stale c && credited_author acc c then credit_entry acc c else acc.

Lemma credited_author_keep d x y acc :
  x ∈ candidates → placed d x = true → placed d y = true → credited_author acc x = true →
  credited_author (credit_entry acc x) y = credited_author acc y.
Proof using Hnd Hgen Hroot.
  intros Hx Hpx Hpy Hax. unfold credited_author in *. destruct (author_incarnation_id y) as [inc|] eqn:Hay; [|done].
  unfold credit_entry. simpl. destruct (is_mint x) eqn:Hm; [|done]. apply bool_decide_ext.
  rewrite elem_of_union, elem_of_singleton. split; [|by right]. intros [->|?]; [|done].
  rewrite (same_depth_author d x y Hx Hpx Hpy Hm Hay) in Hax. by apply bool_decide_eq_true in Hax.
Qed.

Lemma credit_stale_comm d stale acc x y :
  x ∈ candidates → y ∈ candidates → placed d x = true → placed d y = true →
  credit_stale stale (credit_stale stale acc x) y = credit_stale stale (credit_stale stale acc y) x.
Proof using Hnd Hgen Hroot.
  intros Hx Hy Hpx Hpy. pose proof (credited_author_keep d x y acc Hx Hpx Hpy) as Hxy.
  pose proof (credited_author_keep d y x acc Hy Hpy Hpx) as Hyx. unfold credit_stale.
  destruct (stale x), (stale y), (credited_author acc x) eqn:Hax, (credited_author acc y) eqn:Hay; simpl;
    rewrite ?Hxy, ?Hyx, ?Hax, ?Hay by done; try done. apply credit_entry_comm.
Qed.

Lemma revocation_credit_perm (s s' : Strata) outcomes cut scope :
  strata_of incs exclusions (fc_hash genesis) (subject_device genesis) candidates s →
  strata_of incs exclusions (fc_hash genesis) (subject_device genesis) candidates' s' →
  revocation_credit candidates s outcomes cut scope = revocation_credit candidates' s' outcomes cut scope.
Proof using Hnd Hperm Hgen Hroot.
  intros Hs Hs'. unfold revocation_credit.
  match goal with |- context [foldl ?f ?init candidates] =>
    assert (foldl f init candidates = foldl f init candidates') as ->; [|generalize (foldl f init candidates')] end.
  { apply (foldl_perm fc_hash); [|done|done]. intros acc x y _ _ _. repeat case_match; try done. apply credit_entry_comm. }
  intros acc. f_equal.
  set (stale := λ c, bool_decide (fc_hash c ≠ fc_hash cut) && scope_admits scope (fc_hash c) &&
                     bool_decide (outcomes !! fc_hash c = Some (OutRejected StaleAuthority))).
  change (foldl (credit_stale stale) acc (mjoin (btree_iter s).*2) = foldl (credit_stale stale) acc (mjoin (btree_iter s').*2)).
  pose proof (strata_rows _ _ Hperm _ _ _ _ _ _ Hs Hs') as Hrows. pose proof (rows_nodup _ Hnd _ _ _ _ _ Hs) as Hrn.
  assert (∀ row c, row ∈ btree_iter s → c ∈ row.2 → c ∈ candidates ∧ placed row.1 c = true) as Hpl.
  { intros [d l] c Hr Hc. by apply (btree_candidate _ _ _ _ _ _ Hs d l). }
  revert acc. induction Hrows as [|[d l] [d' l'] rows rows' [Hd Hl] Hrows IH]; intros acc; [done|].
  apply Forall_cons in Hrn as [Hn Hrn]. simpl in Hd, Hl, Hn. subst d'. cbn [fmap list_fmap mjoin list_join snd].
  rewrite !foldl_app. rewrite (foldl_perm fc_hash (credit_stale stale) l l'); [|..|done|done].
  - apply IH; [done|]. intros row c Hr. apply Hpl. by right.
  - intros b x y Hx Hy _. destruct (Hpl (d, l) x) as [? ?]; [by left|done|]. destruct (Hpl (d, l) y) as [? ?]; [by left|done|].
    by apply (credit_stale_comm d).
Qed.
End Credits.

(** ** The outcomes a pass hands to the closure *)

Section PassPerm.
Context `{Minicbor} `{Sha256} `{Ed25519}.
Context (candidates candidates' : list FoldCandidate) (view : HeaderView) (structural exclusions : Outcomes) (genesis : FoldCandidate).
Context (Hnd : NoDup (fc_hash <$> candidates)) (Hperm : candidates ≡ₚ candidates').
Context (Hgen : genesis ∈ candidates) (Hroot : is_root genesis = true).

Lemma pass_incs_perm : pass_incs candidates genesis = pass_incs candidates' genesis.
Proof using Hnd Hperm. by apply incarnations_perm. Qed.

Lemma pass_strata_spec cs :
  strata_of (pass_incs cs genesis) exclusions (fc_hash genesis) (subject_device genesis) cs
    (pass_strata cs structural exclusions genesis).1 ∧
  (pass_strata cs structural exclusions genesis).2 =
  insert_all fc_hash (unplaced_outcome (pass_incs cs genesis) exclusions (fc_hash genesis) (subject_device genesis)) structural
    (List.filter (unplaced (pass_incs cs genesis) exclusions (fc_hash genesis) (subject_device genesis)) cs).
Proof using Type.
  unfold pass_strata. pose proof (stratify_spec (pass_incs cs genesis) exclusions (fc_hash genesis)
    (subject_device genesis) cs structural) as Hs. by destruct (stratify _ _ _ _ _ _).
Qed.

Lemma pass_strata_perm :
  Forall2 row_perm (btree_iter (pass_strata candidates structural exclusions genesis).1)
    (btree_iter (pass_strata candidates' structural exclusions genesis).1) ∧
  Forall (λ row, NoDup (fc_hash <$> row.2)) (btree_iter (pass_strata candidates structural exclusions genesis).1) ∧
  (pass_strata candidates structural exclusions genesis).2 = (pass_strata candidates' structural exclusions genesis).2.
Proof using Hnd Hperm.
  destruct (pass_strata_spec candidates) as [Hs ->], (pass_strata_spec candidates') as [Hs' ->].
  rewrite <- pass_incs_perm in *. split_and!; [by eapply strata_rows|by eapply rows_nodup|].
  apply insert_all_perm; [by apply NoDup_fmap_filter|by apply filter_bool_perm].
Qed.

Lemma pass_depths_perm :
  pass_depths candidates view structural exclusions genesis = pass_depths candidates' view structural exclusions genesis.
Proof using Hnd Hperm.
  unfold pass_depths. destruct pass_strata_perm as (Hrows & Hn & ->). rewrite <- pass_incs_perm. by apply fold_depths_perm.
Qed.

Lemma pass_replay_perm :
  pass_replay candidates view structural exclusions genesis = pass_replay candidates' view structural exclusions genesis.
Proof using Hnd Hperm.
  unfold pass_replay, pass_replayed, pass_verdicts, pass_classification. rewrite <- pass_incs_perm, <- pass_depths_perm.
  destruct pass_strata_perm as (Hrows & Hn & _). by erewrite (replayed_perm _ _ _ Hn Hrows).
Qed.

Lemma pass_overlay_perm :
  pass_overlay candidates view structural exclusions genesis = pass_overlay candidates' view structural exclusions genesis.
Proof using Hnd Hperm.
  unfold pass_overlay, pass_verdicts. rewrite <- pass_replay_perm, <- pass_depths_perm. apply map_eq. intros h.
  rewrite !overlay_lookup. by rewrite (decide_ext (h ∈ fc_hash <$> candidates) (h ∈ fc_hash <$> candidates')) by (by rewrite Hperm).
Qed.

Lemma reroots_perm verdicts incs state : reroots verdicts candidates incs state = reroots verdicts candidates' incs state.
Proof using Hnd Hperm.
  unfold reroots. apply sort_by_key_perm_eq; [|by apply omap_perm]. apply (NoDup_fmap_1 snd). rewrite <- list_fmap_compose.
  clear Hperm Hgen. induction candidates as [|c l IH]; [constructor|]. rewrite fmap_cons in Hnd. apply NoDup_cons in Hnd as [Hn Hl].
  simpl. destruct (reroot_of incs state verdicts c) as [[x a]|] eqn:Hr; [|by apply IH].
  assert (x = c) as -> by (unfold reroot_of in Hr; by repeat case_match; simplify_eq).
  rewrite fmap_cons. constructor; [|by apply IH]. simpl. intros ([y b] & Hy & (z & Hz & Hrz)%list_elem_of_omap)%list_elem_of_fmap.
  simpl in Hy. assert (z = y) as -> by (unfold reroot_of in Hrz; by repeat case_match; simplify_eq).
  apply Hn. rewrite Hy. by apply list_elem_of_fmap_2.
Qed.

Lemma settle_contest_perm incs verdicts state outcomes :
  settle_contest candidates incs verdicts state outcomes = settle_contest candidates' incs verdicts state outcomes.
Proof using Hnd Hperm.
  unfold settle_contest. fold (reroots verdicts candidates incs state) (reroots verdicts candidates' incs state).
  rewrite <- reroots_perm. destruct (foldl _ (state, outcomes) _) as [s o]. apply (foldl_perm fc_hash); [|done|done].
  intros m x y _ _ Hne. destruct (m !! fc_hash x) eqn:Hx, (m !! fc_hash y) eqn:Hy;
    rewrite ?Hx, ?Hy, ?lookup_insert_ne, ?Hx, ?Hy by done; try done. by apply insert_insert_ne.
Qed.

Lemma pass_outcomes_perm :
  pass_outcomes candidates view structural exclusions genesis = pass_outcomes candidates' view structural exclusions genesis.
Proof using Hnd Hperm.
  unfold pass_outcomes, pass_classification, pass_verdicts.
  rewrite <- pass_overlay_perm, <- pass_replay_perm, <- pass_depths_perm, <- pass_incs_perm. by rewrite settle_contest_perm.
Qed.

Lemma pass_credits_perm :
  pass_credits candidates view structural exclusions genesis = pass_credits candidates' view structural exclusions genesis.
Proof using Hnd Hperm Hgen Hroot.
  unfold pass_credits, compute_credits. rewrite <- pass_outcomes_perm, <- pass_depths_perm.
  destruct (pass_strata_spec candidates) as [Hs _], (pass_strata_spec candidates') as [Hs' _]. rewrite <- pass_incs_perm in Hs'.
  set (o := pass_outcomes _ _ _ _ _). set (contributors := dp_register_contributors _).
  assert (∀ c, revocation_credit candidates' (pass_strata candidates' structural exclusions genesis).1 o c EveryScopedEntry =
    revocation_credit candidates (pass_strata candidates structural exclusions genesis).1 o c EveryScopedEntry) as Hc.
  { intros c. symmetry. by eapply revocation_credit_perm. }
  trans (insert_all fc_hash (λ c, revocation_credit candidates (pass_strata candidates structural exclusions genesis).1 o c EveryScopedEntry)
    (∅ : gmap AccountEntryHash Z) (List.filter (λ c, bool_decide (fc_hash c ∈ contributors)) candidates')).
  - apply insert_all_perm; [by apply NoDup_fmap_filter|by apply filter_bool_perm].
  - unfold insert_all. generalize (∅ : gmap AccountEntryHash Z).
    induction (List.filter _ candidates') as [|c l IH]; intros m; [done|]. simpl. by rewrite IH, Hc.
Qed.
End PassPerm.
