(* ===== verification/FoldOrder.v ===== *)
(** * The control fold does not depend on the order of its entries ([account/fold.rs])

    Two replicas that hold the same verified entries fold them into the same history, whatever
    order they arrived in and however often.  The stages before the dependency closure are equal
    ([FoldPerm]).  The closure sweeps the candidates in order and may give a removed entry another
    reason, but it removes the same entries, so that the readiness loop excludes the same ones,
    and in the last pass it removes nothing that another entry rests on. *)

From S2P Require Import Prelude Cbor Minicbor Hash Op Device Entry Stream Branch Envelope Candidate AccountOps FoldTypes Fold FoldDepth FoldTotal FoldPass FoldReplay FoldRooted FoldSafety FoldPerm.

Local Open Scope Z_scope.

(** ** Outcomes up to the reason of a removal *)

(** The outcomes the closure writes. *)
Definition dropped (o : option Outcome) : Prop :=
  o = Some (OutParked AuthLenAhead) ∨ o = Some (OutRejected StaleAuthority) ∨ o = Some (OutRejected Ineffective).

Definition like (o o' : Outcomes) : Prop := ∀ h, o !! h = o' !! h ∨ (dropped (o !! h) ∧ dropped (o' !! h)).

#[export] Instance like_equivalence : Equivalence like.
Proof.
  split.
  - intros o h. by left.
  - intros o o' Ho h. destruct (Ho h) as [->|[? ?]]; auto.
  - intros a b c Hab Hbc h. destruct (Hab h) as [->|[? ?]]; [done|]. destruct (Hbc h) as [<-|[? ?]]; auto.
Qed.

Lemma dropped_not_effective (o : Outcomes) h : dropped (o !! h) → effective_in o h = false.
Proof. unfold effective_in. by intros [->|[->| ->]]. Qed.

Lemma like_effective o o' h : like o o' → effective_in o h = effective_in o' h.
Proof.
  intros Ho. destruct (Ho h) as [Heq|[Hd Hd']]; [unfold effective_in; by rewrite Heq|].
  by rewrite !dropped_not_effective.
Qed.

Lemma like_epoch o o' h e : like o o' → o !! h = Some (OutEffective e) ↔ o' !! h = Some (OutEffective e).
Proof.
  intros Ho. destruct (Ho h) as [->|[Hd Hd']]; [done|]. destruct Hd as [->|[->| ->]], Hd' as [->|[->| ->]]; done.
Qed.

(** What the closure does to outcomes: it only drops effective ones. *)
Definition drops (o s : Outcomes) : Prop := ∀ h, s !! h = o !! h ∨ (effective_in o h = true ∧ dropped (s !! h)).

#[export] Instance drops_preorder : PreOrder drops.
Proof.
  split; [intros o h; by left|]. intros a b c Hab Hbc h. destruct (Hbc h) as [->|[Hb Hc]]; [apply Hab|].
  right. split; [|done]. destruct (Hab h) as [Heq|[? ?]]; [|done]. unfold effective_in in *. by rewrite <- Heq.
Qed.

Lemma drops_insert (o : Outcomes) h v : effective_in o h = true → dropped (Some v) → drops o (<[h := v]> o).
Proof.
  intros He Hv k. destruct (decide (h = k)) as [<-|Hne]; [right; by rewrite lookup_insert_eq|left; by rewrite lookup_insert_ne].
Qed.

Lemma like_drops o o' s s' :
  like o o' → drops o s → drops o' s' → (∀ h, effective_in s h = effective_in s' h) → like s s'.
Proof.
  intros Ho Hs Hs' He h. destruct (Hs h) as [Hh|[Heo Hd]], (Hs' h) as [Hh'|[Heo' Hd']]; [|exfalso..|by right].
  - rewrite Hh, Hh'. apply Ho.
  - assert (effective_in s h = true) as Hes.
    { rewrite <- (like_effective _ _ h Ho) in Heo'. unfold effective_in. rewrite Hh. exact Heo'. }
    rewrite He, dropped_not_effective in Hes by done. done.
  - assert (effective_in s' h = true) as Hes.
    { rewrite (like_effective _ _ h Ho) in Heo. unfold effective_in. rewrite Hh'. exact Heo. }
    rewrite <- He, dropped_not_effective in Hes by done. done.
Qed.

(** *** Epochs and parks *)

Lemma effective_list_like o o' : like o o' → effective_list o = effective_list o'.
Proof.
  intros Ho. assert (effective_list o ≡ₚ effective_list o') as Hp.
  { apply NoDup_Permutation; [apply (NoDup_fmap_1 fst), effective_list_keys..|].
    intros [h e]. rewrite !effective_list_elem. by apply like_epoch. }
  unfold effective_list. rewrite <- (sort_by_key_idemp _ (omap effective_of (map_to_list o))).
  rewrite <- (sort_by_key_idemp _ (omap effective_of (map_to_list o'))). apply sort_by_key_perm_eq; [|exact Hp].
  apply (NoDup_fmap_1 snd). rewrite <- list_fmap_compose. rewrite (list_fmap_ext _ fst); [apply effective_list_keys|].
  by intros i [h e].
Qed.

Lemma normalize_like o o' :
  like o o' → (normalize_auth_epochs o).1 = (normalize_auth_epochs o').1 ∧ like (normalize_auth_epochs o).2 (normalize_auth_epochs o').2.
Proof.
  intros Ho. pose proof (effective_list_like o o' Ho) as Hl. split; [by rewrite !normalize_insert_all, Hl|].
  intros h. destruct (effective_in o h) eqn:He.
  - left. apply effective_lookup in He as [e He]. pose proof (proj1 (like_epoch o o' h e Ho) He) as He'.
    apply effective_list_elem, list_elem_of_lookup in He as [i Hi].
    rewrite (normalize_nth o i h e Hi), (normalize_nth o' i h e); [done|]. by rewrite <- Hl.
  - rewrite !normalize_other; [apply Ho| |done]. by rewrite <- (like_effective o o').
Qed.

Lemma park_like o o' l l' :
  like o o' → l ≡ₚ l' →
  like (foldl (fun m h => <[h := OutParked AuthLenAhead]> m) o l) (foldl (fun m h => <[h := OutParked AuthLenAhead]> m) o' l').
Proof.
  intros Ho Hl h. rewrite !park_lookup. rewrite (decide_ext (h ∈ l) (h ∈ l')) by (by rewrite Hl).
  destruct (decide (h ∈ l')); [by left|apply Ho].
Qed.

Lemma park_eq (o : Outcomes) l l' :
  l ≡ₚ l' → foldl (fun m h => <[h := OutParked AuthLenAhead]> m) o l = foldl (fun m h => <[h := OutParked AuthLenAhead]> m) o l'.
Proof.
  intros Hl. apply map_eq. intros h. rewrite !park_lookup. by rewrite (decide_ext (h ∈ l) (h ∈ l')) by (by rewrite Hl).
Qed.

(** ** Freshness *)

Lemma foldl_comm_perm {A B} (f : B → A → B) (P : B → Prop) (l k : list A) (b : B) :
  (∀ b x, P b → x ∈ l → P (f b x)) → (∀ b x y, P b → x ∈ l → y ∈ l → f (f b x) y = f (f b y) x) →
  P b → l ≡ₚ k → foldl f b l = foldl f b k.
Proof.
  intros Hp Hc Hb Hlk. revert b Hp Hc Hb. induction Hlk as [|x l k Hlk IH|x y l|l k m Hlk IH Hkm IH']; intros b Hp Hc Hb.
  - done.
  - simpl. apply IH; [intros b' u Hb' Hu|intros b' u v Hb' Hu Hv|].
    + apply Hp; [done|by right].
    + apply Hc; [done|by right..].
    + apply Hp; [done|by left].
  - simpl. rewrite Hc; [done|done|by left|right; by left].
  - trans (foldl f b k); [by apply IH|]. apply IH'; [intros b' u Hb' Hu|intros b' u v Hb' Hu Hv|done].
    + apply Hp; [done|by rewrite Hlk].
    + apply Hc; [done|by rewrite Hlk..].
Qed.

(** Tables with the same cuts and the same chains, in any order. *)
Definition table_like (t t' : VouchTable) : Prop :=
  vt_cuts t ≡ₚ vt_cuts t' ∧ (∀ d, default [] (vt_chains t !! d) ≡ₚ default [] (vt_chains t' !! d)) ∧
  ∀ h credit cited, (h, credit, cited) ∈ vt_cuts t → 0 ≤ credit.

Lemma filter_length_perm {A} (f : A → bool) (l k : list A) : l ≡ₚ k → len (List.filter f l) = len (List.filter f k).
Proof. intros Hl. unfold len. by rewrite (filter_bool_perm f l k Hl). Qed.

Lemma foldr_max_perm (l k : list Z) : l ≡ₚ k → foldr Z.max 0 l = foldr Z.max 0 k.
Proof. induction 1; simpl; [done|lia|lia|congruence]. Qed.

Lemma saturating_add_comm a b c : 0 ≤ b → 0 ≤ c → saturating_add (saturating_add a b) c = saturating_add (saturating_add a c) b.
Proof. unfold saturating_add. lia. Qed.

Lemma concurrent_vouch_like t t' c base : table_like t t' → concurrent_vouch t c base = concurrent_vouch t' c base.
Proof.
  intros (Hcuts & Hchains & Hpos). unfold concurrent_vouch.
  assert (other_cuts t c ≡ₚ other_cuts t' c) as Ho by (by apply filter_bool_perm).
  rewrite (foldl_comm_perm _ (λ _, True) (other_cuts t c) (other_cuts t' c)); [|done| |done|done].
  2: { intros b [[h1 c1] x1] [[h2 c2] x2] _ [_ Hx]%elem_of_filter_bool [_ Hy]%elem_of_filter_bool.
       apply saturating_add_comm; by eapply Hpos. }
  case_bool_decide; [done|]. f_equal. f_equal.
  set (chain := default [] (vt_chains t !! _)). set (chain' := default [] (vt_chains t' !! _)).
  assert (chain ≡ₚ chain') as Hch by apply Hchains.
  apply foldr_max_perm. erewrite list_fmap_ext; [by apply fmap_Permutation|].
  intros i [[h credit] cited] _. f_equal. by apply filter_length_perm.
Qed.

Lemma cited_ahead_like t t' c base credit : table_like t t' → cited_ahead t c base credit = cited_ahead t' c base credit.
Proof. intros Ht. unfold cited_ahead. by rewrite (concurrent_vouch_like t t'). Qed.

Section Vouch.
Context `{Minicbor} `{Sha256} `{Ed25519}.
Context (candidates candidates' : list FoldCandidate) (Hperm : candidates ≡ₚ candidates').

Lemma effective_candidates_like o o' : like o o' → effective_candidates candidates o ≡ₚ effective_candidates candidates' o'.
Proof using Hperm.
  intros Ho. unfold effective_candidates. rewrite (filter_bool_perm _ _ _ Hperm).
  rewrite (filter_bool_ext _ (λ c, effective_in o' (fc_hash c))); [done|]. intros c _. by apply like_effective.
Qed.

Lemma chains_lookup (l : list FoldCandidate) (m : gmap DeviceFingerprint (list (Z * Z))) d :
  default [] (foldl (fun chains c =>
       let h := fc_header c in
       <[ah_device_fingerprint h := default [] (chains !! ah_device_fingerprint h) ++ [(ah_seq h, ah_auth_len h)]]> chains) m l !! d) =
  default [] (m !! d) ++
  ((λ c, (ah_seq (fc_header c), ah_auth_len (fc_header c))) <$>
     List.filter (λ c, bool_decide (ah_device_fingerprint (fc_header c) = d)) l).
Proof using Type.
  revert m. induction l as [|c l IH]; intros m; [simpl; by rewrite app_nil_r|]. cbn [foldl List.filter]. rewrite IH. case_bool_decide as Hd.
  - subst d. rewrite lookup_insert_eq. simpl. by rewrite <- app_assoc.
  - by rewrite lookup_insert_ne.
Qed.

Lemma vouch_table_like credits o o' :
  credits_ok credits → like o o' → table_like (vouch_table candidates credits o) (vouch_table candidates' credits o').
Proof using Hperm.
  intros Hcr Ho. pose proof (effective_candidates_like o o' Ho) as He. split_and!.
  - by apply omap_perm, filter_bool_perm.
  - intros d. unfold vouch_table. simpl. rewrite !chains_lookup. f_equiv. by apply fmap_Permutation, filter_bool_perm.
  - intros h credit cited Hin. unfold vouch_table in Hin. simpl in Hin. apply list_elem_of_omap in Hin as (c & _ & Hc).
    destruct (credits !! fc_hash c) as [z|] eqn:Hz; [|done]. simplify_eq/=. by eapply Hcr.
Qed.
End Vouch.

(** ** The dependency closure *)

Section Settle.
Context `{Minicbor} `{Sha256} `{Ed25519}.
Context (candidates : list FoldCandidate) (Hnd : NoDup (fc_hash <$> candidates)).

(** Nothing effective would be replaced. *)
Definition standing (o : Outcomes) : Prop :=
  ∀ c, c ∈ candidates → effective_in o (fc_hash c) = true →
    replacement (effective_roster candidates o) (effective_public_ownership candidates o) (effective_grants candidates o) o c = None.

Lemma effective_roster_elem o d :
  d ∈ effective_roster candidates o ↔
  ∃ c, eff_in candidates o c ∧
    match fc_op c with
    | AccountGenesis _ _ _ _ _ => Some (ah_device_fingerprint (fc_header c))
    | DeviceAdd device _ _ _ _ => Some device
    | _ => None
    end = Some d.
Proof using Type.
  unfold effective_roster. rewrite elem_of_list_to_set, list_elem_of_omap. by setoid_rewrite effective_candidates_elem.
Qed.

Lemma effective_public_elem o s :
  s ∈ effective_public_ownership candidates o ↔
  ∃ c, eff_in candidates o c ∧
    match fc_op c with
    | StreamOwn stream_id spec => if is_public_spec spec then Some stream_id else None
    | _ => None
    end = Some s.
Proof using Type.
  unfold effective_public_ownership. rewrite elem_of_list_to_set, list_elem_of_omap. by setoid_rewrite effective_candidates_elem.
Qed.

Lemma effective_grants_elem o g s a :
  effective_grants candidates o !! g = Some (s, a) ↔
  ∃ c role, eff_in candidates o c ∧ fc_hash c = g ∧ fc_op c = StreamGrant s a role.
Proof using Hnd.
  split; [|intros (c & role & Hc & <- & Hop); by eapply effective_grants_lookup].
  unfold effective_grants. setoid_rewrite <- effective_candidates_elem.
  induction (effective_candidates candidates o) as [|c l IH] using rev_ind; [simpl; by rewrite lookup_empty|].
  rewrite foldl_app. cbn [foldl]. intros Hg.
  set (m := foldl _ _ l) in *. assert (m !! g = Some (s, a) ∨ ∃ role, fc_hash c = g ∧ fc_op c = StreamGrant s a role) as [Hl|(role & <- & Hop)].
  - destruct (fc_op c); try by left. apply lookup_insert_Some in Hg as [[<- [= -> ->]]|[_ ?]]; eauto.
  - destruct (IH Hl) as (x & role & Hx & ?). exists x, role. rewrite elem_of_app. auto.
  - exists c, role. rewrite elem_of_app, list_elem_of_singleton. auto.
Qed.

(** Fewer effective outcomes support less. *)
Lemma replacement_mono (roster roster' : gset DeviceFingerprint) (public public' : gset StreamId)
    (grants grants' : gmap GrantId (StreamId * AccountId)) (o t : Outcomes) c :
  (∀ ref, ah_authority_ref (fc_header c) = Some ref → effective_in t ref = true → effective_in o ref = true) →
  roster' ⊆ roster → public' ⊆ public → grants' ⊆ grants →
  replacement roster' public' grants' t c = None → replacement roster public grants o c = None.
Proof using Type.
  clear Hnd candidates. intros Ho Hr Hp Hg. unfold replacement.
  set (by_op' := match fc_op c with OwnerPromote _ => _ | _ => _ end).
  set (by_op := match fc_op c with OwnerPromote _ => _ | _ => _ end).
  assert (by_op' = None → by_op = None) as Hby.
  { unfold by_op, by_op'. destruct (fc_op c); try done.
    - repeat case_bool_decide; try done. set_solver.
    - repeat case_bool_decide; try done. set_solver.
    - case_bool_decide as Hg1; [done|]. case_bool_decide as Hg2; [|done]. intros _. destruct Hg2.
      by eapply lookup_weaken. }
  destruct (ah_authority_ref (fc_header c)) as [ref|]; [|done].
  destruct (effective_in t ref) eqn:He; [|done]. by rewrite (Ho ref eq_refl He).
Qed.

Lemma eff_in_mono (o t : Outcomes) c : shrinks o t → eff_in candidates t c → eff_in candidates o c.
Proof using Type. intros Hs [? ?]. split; [done|]. by apply Hs. Qed.

Lemma supports_mono (o t : Outcomes) :
  shrinks o t →
  effective_roster candidates t ⊆ effective_roster candidates o ∧
  effective_public_ownership candidates t ⊆ effective_public_ownership candidates o ∧
  effective_grants candidates t ⊆ effective_grants candidates o.
Proof using Hnd.
  intros Hs. split_and!.
  - intros d (c & ? & ?)%effective_roster_elem. apply effective_roster_elem. exists c. eauto using eff_in_mono.
  - intros d (c & ? & ?)%effective_public_elem. apply effective_public_elem. exists c. eauto using eff_in_mono.
  - apply map_subseteq_spec. intros g [s a] (c & role & ? & ? & ?)%effective_grants_elem.
    apply effective_grants_elem. exists c, role. eauto using eff_in_mono.
Qed.

(** A standing set inside the outcomes survives the closure. *)
Lemma settle_keeps_standing fuel o t s :
  standing t → shrinks o t →
  settle_loop candidates fuel o = Some s → shrinks s t.
Proof using Hnd.
  intros Ht Hot. revert o Hot. induction fuel as [|fuel IH]; intros o Hot; [done|]. cbn [settle_loop]. unfold settle_sweep.
  destruct (supports_mono o t Hot) as (Hr & Hp & Hg).
  assert (∀ l b m, (∀ c, c ∈ l → c ∈ candidates) → shrinks m t →
    shrinks (foldl (settle_step (effective_roster candidates o) (effective_public_ownership candidates o)
      (effective_grants candidates o)) (b, m) l).2 t) as Hfold.
  { intros l. induction l as [|c l IHl]; intros b m Hl Hm; [done|]. simpl.
    assert (∀ c, c ∈ l → c ∈ candidates) as Hl' by (intros x Hx; apply Hl; by right).
    destruct (effective_in m (fc_hash c)); [|by apply IHl]. destruct (replacement _ _ _ m c) as [v|] eqn:Hv; [|by apply IHl].
    apply IHl; [done|]. intros h Hh. unfold effective_in. destruct (decide (fc_hash c = h)) as [<-|Hne].
    - erewrite replacement_mono in Hv; [done|intros ref _; apply Hm|exact Hr|exact Hp|exact Hg|]. apply Ht; [apply Hl; by left|done].
    - rewrite lookup_insert_ne by done. by apply Hm. }
  specialize (Hfold candidates false o ltac:(done) Hot). destruct (foldl _ _ _) as [changed o']. simpl in Hfold.
  destruct changed; [by apply IH|]. by intros [= <-].
Qed.

(** The reasons the closure copies are its own. *)
Definition resting (o : Outcomes) : Prop :=
  ∀ c (ref : AccountEntryHash), c ∈ candidates → effective_in o (fc_hash c) = true → ah_authority_ref (fc_header c) = Some ref →
    effective_in o ref = true ∨ ∀ reason, o !! ref = Some (OutParked reason) → reason = AuthLenAhead.

Lemma resting_drops o s : resting o → drops o s → resting s.
Proof using Type.
  intros Ho Hs c ref Hc He Href.
  assert (effective_in o (fc_hash c) = true) as Heo.
  { destruct (Hs (fc_hash c)) as [Heq|[? _]]; [|done]. unfold effective_in in *. by rewrite <- Heq. }
  destruct (Hs ref) as [Heq|[_ Hd]].
  - destruct (Ho c ref Hc Heo Href) as [Hr|Hr]; [left; unfold effective_in; by rewrite Heq|].
    right. intros reason. rewrite Heq. apply Hr.
  - right. intros reason Hr. rewrite Hr in Hd. destruct Hd as [?|[?|?]]; simplify_eq. done.
Qed.

Lemma replacement_dropped (roster : gset DeviceFingerprint) (public : gset StreamId)
    (grants : gmap GrantId (StreamId * AccountId)) (o : Outcomes) c v :
  resting o → c ∈ candidates → effective_in o (fc_hash c) = true →
  replacement roster public grants o c = Some v → dropped (Some v).
Proof using Type.
  intros Ho Hc He. unfold replacement.
  set (by_op := match fc_op c with OwnerPromote _ => _ | _ => _ end).
  assert (by_op = Some v → dropped (Some v)) as Hby.
  { unfold by_op. destruct (fc_op c); try done; case_bool_decide; try done; intros [= <-]; right; by right. }
  destruct (ah_authority_ref (fc_header c)) as [ref|] eqn:Href; [|done]. destruct (effective_in o ref) eqn:Her; [done|].
  intros [= <-]. destruct (Ho c ref Hc He Href) as [?|Hp]; [congruence|].
  destruct (o !! ref) as [[]|] eqn:Hr; try (right; by left). left. by rewrite (Hp _ Hr).
Qed.

Lemma settle_drops fuel o s : resting o → settle_loop candidates fuel o = Some s → drops o s.
Proof using Type.
  revert o. induction fuel as [|fuel IH]; intros o Ho; [done|]. cbn [settle_loop]. unfold settle_sweep.
  generalize (effective_roster candidates o), (effective_public_ownership candidates o), (effective_grants candidates o).
  intros roster public grants.
  assert (∀ l b m, (∀ c, c ∈ l → c ∈ candidates) → resting m → drops m (foldl (settle_step roster public grants) (b, m) l).2) as Hfold.
  { intros l. induction l as [|c l IHl]; intros b m Hl Hm; [done|]. simpl.
    assert (∀ c, c ∈ l → c ∈ candidates) as Hl' by (intros x Hx; apply Hl; by right).
    destruct (effective_in m (fc_hash c)) eqn:He; [|by apply IHl]. destruct (replacement _ _ _ m c) as [v|] eqn:Hv; [|by apply IHl].
    apply replacement_dropped in Hv; [|done|apply Hl; by left|done].
    pose proof (drops_insert m (fc_hash c) v He Hv) as Hd. etrans; [exact Hd|]. apply IHl; [done|]. by eapply resting_drops. }
  specialize (Hfold candidates false o ltac:(done) Ho). destruct (foldl _ _ _) as [changed o']. simpl in Hfold.
  destruct changed; [|by intros [= <-]]. intros Hs. etrans; [exact Hfold|]. apply IH; [|done]. by eapply resting_drops.
Qed.
End Settle.

Section ClosePerm.
Context `{Minicbor} `{Sha256} `{Ed25519}.
Context (candidates candidates' : list FoldCandidate) (Hnd : NoDup (fc_hash <$> candidates)) (Hperm : candidates ≡ₚ candidates').

Lemma eff_in_perm o c : eff_in candidates o c ↔ eff_in candidates' o c.
Proof using Hperm. unfold eff_in. by rewrite Hperm. Qed.

Lemma supports_perm o :
  effective_roster candidates o = effective_roster candidates' o ∧
  effective_public_ownership candidates o = effective_public_ownership candidates' o ∧
  effective_grants candidates o = effective_grants candidates' o.
Proof using Hnd Hperm.
  split_and!.
  - apply set_eq. intros d. rewrite !effective_roster_elem. by setoid_rewrite eff_in_perm.
  - apply set_eq. intros d. rewrite !effective_public_elem. by setoid_rewrite eff_in_perm.
  - apply map_eq. intros g. apply option_eq. intros [s a].
    rewrite !effective_grants_elem by (try done; by eapply nodup_perm). by setoid_rewrite eff_in_perm.
Qed.

Lemma standing_perm o : standing candidates o → standing candidates' o.
Proof using Hnd Hperm.
  intros Ho c Hc He. destruct (supports_perm o) as (<- & <- & <-). apply Ho; [by rewrite Hperm|done].
Qed.

Lemma resting_perm o : resting candidates o → resting candidates' o.
Proof using Hperm. intros Ho c ref Hc. apply Ho. by rewrite Hperm. Qed.

Lemma resting_like o o' : like o o' → resting candidates o → resting candidates' o'.
Proof using Hperm.
  intros Hl Ho c ref Hc He Href. rewrite <- (like_effective o o') in He by done.
  destruct (Ho c ref) as [Hr|Hr]; [by rewrite Hperm|done|done|left; by rewrite <- (like_effective o o')|].
  right. intros reason Hp. destruct (Hl ref) as [Heq|[_ Hd]].
  - apply Hr. by rewrite Heq.
  - rewrite Hp in Hd. destruct Hd as [?|[?|?]]; by simplify_eq.
Qed.
End ClosePerm.

Lemma settled_standing `{Minicbor} `{Sha256} `{Ed25519} candidates o : settled_set candidates o → standing candidates o.
Proof. intros Hs c Hc He. by apply settled_replacement. Qed.

Section Close.
Context `{Minicbor} `{Sha256} `{Ed25519}.
Context (candidates candidates' : list FoldCandidate) (Hnd : NoDup (fc_hash <$> candidates)) (Hperm : candidates ≡ₚ candidates').

(** The closure of the two orders keeps the same entries. *)
Lemma settle_like o o' s s' :
  like o o' → resting candidates o →
  settle_authority_dependencies candidates o = Some s → settle_authority_dependencies candidates' o' = Some s' → like s s'.
Proof using All.
  intros Hl Ho Hs Hs'. pose proof (resting_like _ _ Hperm _ _ Hl Ho) as Ho'.
  destruct (settle_total candidates o) as (s0 & Hrun & Hos & Hset). rewrite Hs in Hrun. injection Hrun as <-.
  destruct (settle_total candidates' o') as (s0 & Hrun & Hos' & Hset'). rewrite Hs' in Hrun. injection Hrun as <-.
  assert (shrinks o o' ∧ shrinks o' o) as [Hoo Hoo'] by (split; intros h; by rewrite (like_effective o o' h Hl)).
  assert (candidates' ≡ₚ candidates) as Hperm' by done.
  assert (NoDup (fc_hash <$> candidates')) as Hnd' by (by eapply nodup_perm).
  eapply like_drops; [exact Hl|by eapply settle_drops|by eapply settle_drops|].
  assert (shrinks s s') as Hss.
  { eapply (settle_keeps_standing candidates Hnd _ o); [|by intros h Hh%Hos'; apply Hoo|exact Hs].
    eapply (standing_perm candidates'); [done|done|]. by apply settled_standing. }
  assert (shrinks s' s) as Hss'.
  { eapply (settle_keeps_standing candidates' Hnd' _ o'); [|by intros h Hh%Hos; apply Hoo'|exact Hs'].
    eapply (standing_perm candidates); [done|done|]. by apply settled_standing. }
  intros h. apply eq_bool_prop_intro. split; intros Hh%Is_true_true; apply Is_true_true; auto.
Qed.

Lemma resting_normalize cs o : resting cs o → resting cs (normalize_auth_epochs o).2.
Proof using Type.
  intros Ho c ref Hc He Href. rewrite normalize_effective in *. destruct (Ho c ref Hc He Href) as [?|Hr]; [by left|].
  destruct (effective_in o ref) eqn:Her; [by left|]. right. intros reason. rewrite normalize_other by done. apply Hr.
Qed.

Lemma resting_park cs o l : resting cs o → resting cs (foldl (fun m h => <[h := OutParked AuthLenAhead]> m) o l).
Proof using Type.
  intros Ho c ref Hc. unfold effective_in. rewrite !park_lookup. repeat case_decide; try done.
  - intros _ _. right. by intros reason [= <-].
  - intros He Href. by apply (Ho c).
Qed.

(** The entries a round finds ahead. *)
Lemma ahead_like credits o o' n n' count :
  credits_ok credits → like o o' → like n n' →
  List.filter (ahead_of credits count (vouch_table candidates credits n) n) (effective_candidates candidates o) ≡ₚ
  List.filter (ahead_of credits count (vouch_table candidates' credits n') n') (effective_candidates candidates' o').
Proof using Hperm.
  intros Hcr Ho Hn. rewrite (filter_bool_perm _ _ _ (effective_candidates_like _ _ Hperm o o' Ho)).
  erewrite filter_bool_ext; [done|]. intros c _. unfold ahead_of. rewrite (like_effective n n') by done.
  apply cited_ahead_like. by apply vouch_table_like.
Qed.

Lemma close_loop_like fuel credits o o' discovered :
  credits_ok credits → like o o' → resting candidates o →
  match close_loop candidates fuel credits o discovered, close_loop candidates' fuel credits o' discovered with
  | Some (out, disc), Some (out', disc') => like out out' ∧ disc = disc'
  | None, None => True
  | _, _ => False
  end.
Proof using All.
  intros Hcr. revert o o' discovered. induction fuel as [|fuel IH]; intros o o' discovered Hl Ho; [done|]. cbn [close_loop].
  destruct (settle_total candidates o) as (s & Hs & _ & _), (settle_total candidates' o') as (s' & Hs' & _ & _).
  pose proof (settle_like o o' s s' Hl Ho Hs Hs') as Hss. pose proof (settle_drops _ _ _ _ Ho Hs) as Hd.
  rewrite Hs, Hs'. unfold mbind, option_bind. destruct (normalize_like s s' Hss) as [Hc Hn].
  pose proof (resting_normalize candidates s (resting_drops _ _ _ Ho Hd)) as Hr.
  destruct (normalize_auth_epochs s) as [count n], (normalize_auth_epochs s') as [count' n']. simpl in Hc, Hn, Hr. subst count'.
  pose proof (ahead_like credits o o' n n' count Hcr Hl Hn) as Ha. apply (fmap_Permutation fc_hash) in Ha.
  set (ahead := fc_hash <$> List.filter _ (effective_candidates candidates o)) in *.
  set (ahead' := fc_hash <$> List.filter _ (effective_candidates candidates' o')) in *.
  assert (ahead = [] ↔ ahead' = []) as Hempty.
  { split; intros He; rewrite He in Ha; [by apply Permutation_nil_l in Ha|by apply Permutation_nil_r in Ha]. }
  rewrite (bool_decide_ext _ _ Hempty). case_bool_decide; [done|]. rewrite (park_eq discovered ahead ahead') by done.
  apply IH; [by apply park_like|by apply resting_park].
Qed.
End Close.

(** ** The last pass *)

Section Exact.
Context `{Minicbor} `{Sha256} `{Ed25519}.
Context (candidates : list FoldCandidate) (Hnd : NoDup (fc_hash <$> candidates)) (exclusions : Outcomes).

Definition is_reroot (c : FoldCandidate) : bool := match fc_op c with AccountReRoot _ _ => true | _ => false end.

(** Where the last pass stands: what is effective stands, cites mints, and is excluded only when it
    re-roots the account. *)
Record calm (o : Outcomes) : Prop := {
  ca_standing : standing candidates o;
  ca_excluded c : c ∈ candidates → effective_in o (fc_hash c) = true → is_Some (exclusions !! fc_hash c) → is_reroot c = true;
  ca_minted c (ref : AccountEntryHash) :
    c ∈ candidates → effective_in o (fc_hash c) = true → ah_authority_ref (fc_header c) = Some ref →
    ∃ mint, mint ∈ candidates ∧ fc_hash mint = ref ∧ is_mint mint = true;
}.

Lemma calm_settled o : calm o → settle_authority_dependencies candidates o = Some o.
Proof using Type.
  intros Ho. unfold settle_authority_dependencies. cbn [settle_loop]. unfold settle_sweep.
  rewrite settle_noop; [done|]. apply (ca_standing o Ho).
Qed.

Lemma calm_normalize o : calm o → calm (normalize_auth_epochs o).2.
Proof using Hnd.
  intros Ho. destruct (supports_mono candidates Hnd (normalize_auth_epochs o).2 o) as (Hr & Hp & Hg).
  { intros h. by rewrite normalize_effective. }
  split.
  - intros c Hc He. rewrite normalize_effective in He. eapply replacement_mono; [|exact Hr|exact Hp|exact Hg|by apply Ho].
    intros ref _. by rewrite normalize_effective.
  - intros c Hc. rewrite normalize_effective. by apply Ho.
  - intros c ref Hc. rewrite normalize_effective. by apply Ho.
Qed.

(** Removing re-roots removes nothing another entry rests on. *)
Lemma calm_park o l :
  calm o → (∀ h, h ∈ l → ∃ c, c ∈ candidates ∧ fc_hash c = h ∧ is_reroot c = true) →
  calm (foldl (fun m h => <[h := OutParked AuthLenAhead]> m) o l).
Proof using Hnd.
  intros Ho Hl. set (p := foldl _ o l).
  assert (∀ h, effective_in p h = true → effective_in o h = true) as Hpo.
  { intros h. unfold effective_in, p. rewrite park_lookup. by case_decide. }
  assert (∀ c, eff_in candidates o c → is_reroot c = false → eff_in candidates p c) as Hkeep.
  { intros c [Hc He] Hr. split; [done|]. unfold effective_in, p. rewrite park_lookup. case_decide as Hin; [|done].
    destruct (Hl _ Hin) as (x & Hx & Hh & Hxr). rewrite (NoDup_fmap_inj fc_hash candidates x c) in Hxr by done. congruence. }
  split.
  - intros c Hc He. eapply replacement_mono; [| | | |apply (ca_standing o Ho c Hc); by apply Hpo].
    + intros ref Href Her. destruct (ca_minted o Ho c ref Hc (Hpo _ He) Href) as (mint & Hm & <- & Hmint).
      apply Hkeep; [done|]. unfold is_mint, is_reroot in *. by destruct (fc_op mint).
    + intros d (x & Hx & Hd)%effective_roster_elem. apply effective_roster_elem. exists x. split; [|done].
      apply Hkeep; [done|]. unfold is_reroot. by destruct (fc_op x).
    + intros d (x & Hx & Hd)%effective_public_elem. apply effective_public_elem. exists x. split; [|done].
      apply Hkeep; [done|]. unfold is_reroot. by destruct (fc_op x).
    + apply map_subseteq_spec. intros g [s a] (x & role & Hx & Hh & Hop)%effective_grants_elem; [|done].
      apply effective_grants_elem; [done|]. exists x, role. split; [|done]. apply Hkeep; [done|]. unfold is_reroot. by rewrite Hop.
  - intros c Hc He. apply (ca_excluded o Ho c Hc). by apply Hpo.
  - intros c ref Hc He. apply (ca_minted o Ho c ref Hc). by apply Hpo.
Qed.

Lemma close_loop_grows fuel credits o discovered out disc :
  close_loop candidates fuel credits o discovered = Some (out, disc) → dom discovered ⊆ dom disc.
Proof using Type.
  revert o discovered. induction fuel as [|fuel IH]; intros o discovered; [done|]. cbn [close_loop].
  destruct (settle_authority_dependencies candidates o) as [settled|]; [|done].
  unfold mbind, option_bind. destruct (normalize_auth_epochs settled) as [count n]. case_bool_decide; [by intros [= _ <-]|].
  intros Hl%IH. etrans; [|exact Hl]. intros h. rewrite !elem_of_dom, park_lookup. by case_decide.
Qed.

(** With nothing new to exclude, the closure does not depend on the order. *)
Lemma close_loop_exact candidates' fuel credits o discovered out disc :
  candidates ≡ₚ candidates' → credits_ok credits → calm o →
  close_loop candidates fuel credits o discovered = Some (out, disc) → dom disc ⊆ dom exclusions →
  close_loop candidates' fuel credits o discovered = Some (out, disc).
Proof using All.
  intros Hperm Hcr. revert o discovered. induction fuel as [|fuel IH]; intros o discovered Ho; [done|]. cbn [close_loop].
  rewrite (calm_settled o Ho). assert (settle_authority_dependencies candidates' o = Some o) as ->.
  { unfold settle_authority_dependencies. cbn [settle_loop]. unfold settle_sweep. rewrite settle_noop; [done|].
    by apply (standing_perm candidates), Ho. }
  unfold mbind, option_bind. pose proof (calm_normalize o Ho) as Hn.
  destruct (normalize_auth_epochs o) as [count n]. simpl in Hn.
  pose proof (ahead_like candidates candidates' Hperm credits o o n n count Hcr ltac:(done) ltac:(done)) as Ha.
  apply (fmap_Permutation fc_hash) in Ha.
  set (ahead := fc_hash <$> List.filter _ (effective_candidates candidates o)) in *.
  set (ahead' := fc_hash <$> List.filter _ (effective_candidates candidates' o)) in *.
  assert (ahead' = [] ↔ ahead = []) as Hempty.
  { split; intros He; rewrite He in Ha; [by apply Permutation_nil_r in Ha|by apply Permutation_nil_l in Ha]. }
  rewrite (bool_decide_ext _ _ Hempty). case_bool_decide; [done|]. rewrite <- (park_eq n ahead ahead'), <- (park_eq discovered ahead ahead') by done.
  intros Hc Hd. apply IH; [|done|done]. apply calm_park; [done|].
  intros h Hh. assert (is_Some (exclusions !! h)) as Hex.
  { apply elem_of_dom, Hd. apply close_loop_grows in Hc. apply Hc. rewrite elem_of_dom, park_lookup. by rewrite decide_True. }
  unfold ahead in Hh. apply list_elem_of_fmap in Hh as (c & -> & [_ Hin]%elem_of_filter_bool).
  apply effective_candidates_elem in Hin as [Hin He]. exists c. split_and!; [done|done|]. by apply (ca_excluded o Ho).
Qed.
End Exact.

(** ** One pass *)

Section Discover.
Context `{Minicbor} `{Sha256} `{Ed25519}.
Context (candidates candidates' : list FoldCandidate) (Hnd : NoDup (fc_hash <$> candidates)) (Hperm : candidates ≡ₚ candidates').

Lemma discover_park (select : FoldCandidate → bool) (l : list FoldCandidate) (m : Outcomes) :
  discover select l m = foldl (fun m h => <[h := OutParked AuthLenAhead]> m) m (fc_hash <$> List.filter select l).
Proof using Type. unfold discover. revert m. induction l as [|c l IH]; intros m; [done|]. simpl. rewrite IH. by destruct (select c). Qed.

Lemma discover_perm (select select' : FoldCandidate → bool) (m : Outcomes) :
  (∀ c, select c = select' c) → discover select candidates m = discover select' candidates' m.
Proof using Hperm.
  intros Hs. rewrite !discover_park. apply park_eq, fmap_Permutation. rewrite (filter_bool_perm _ _ _ Hperm).
  by erewrite filter_bool_ext.
Qed.

Lemma ahead_victim_like exclusions contributors t t' count o o' c :
  table_like t t' → like o o' →
  ahead_victim exclusions contributors t count o c = ahead_victim exclusions contributors t' count o' c.
Proof using Type.
  intros Ht Ho. unfold ahead_victim. rewrite (cited_ahead_like t t') by done. f_equal. f_equal.
  destruct (Ho (fc_hash c)) as [->|[Hd Hd']]; [done|]. destruct Hd as [->|[->| ->]], Hd' as [->|[->| ->]]; done.
Qed.

Lemma discover_ahead_like exclusions contributors credits count o o' discovered :
  credits_ok credits → like o o' →
  discover_ahead candidates exclusions contributors credits count o discovered =
  discover_ahead candidates' exclusions contributors credits count o' discovered.
Proof using Hperm.
  intros Hcr Ho. unfold discover_ahead. pose proof (vouch_table_like _ _ Hperm credits o o' Hcr Ho) as Ht.
  rewrite (discover_perm _ (ahead_contributor exclusions contributors credits (vouch_table candidates' credits o') count)).
  2: { intros c. unfold ahead_contributor. by erewrite cited_ahead_like. }
  case_match; [done|]. apply discover_perm. intros c. by apply ahead_victim_like.
Qed.

Lemma min_successor_comm acc a b : min_successor (min_successor acc a) b = min_successor (min_successor acc b) a.
Proof using Type.
  clear Hnd Hperm. destruct acc as [m|]; simpl; repeat (case_bool_decide; simpl); try done; unfold not in *;
    destruct (clt_total a b) as [?|[->|?]]; try done; exfalso; eauto using clt_trans, clt_asym.
Qed.

Lemma successor_perm o : successor_of candidates o = successor_of candidates' o.
Proof using Hperm.
  unfold successor_of. apply (foldl_comm_perm _ (λ _, True)); [done| |done|].
  - intros acc x y _ _ _. apply min_successor_comm.
  - by apply omap_perm, effective_candidates_like.
Qed.

Lemma derive_facts_perm o registers : derive_authority_facts candidates o registers = derive_authority_facts candidates' o registers.
Proof using Hnd Hperm.
  unfold derive_authority_facts. assert (effective_rows candidates o = effective_rows candidates' o) as ->; [|done].
  unfold effective_rows. apply sort_by_key_perm_eq; [|by apply omap_perm]. apply (NoDup_fmap_1 snd). rewrite <- list_fmap_compose.
  clear Hperm. induction candidates as [|c l IH]; [constructor|]. rewrite fmap_cons in Hnd. apply NoDup_cons in Hnd as [Hn Hl].
  simpl. destruct (o !! fc_hash c) as [[]|]; try by apply IH. rewrite fmap_cons. constructor; [|by apply IH]. simpl.
  intros ([y b] & Hy & (z & Hz & Ho)%list_elem_of_omap)%list_elem_of_fmap. simpl in Hy.
  destruct (o !! fc_hash z) as [[]|]; simplify_eq. apply Hn. rewrite Hy. by apply list_elem_of_fmap_2.
Qed.
End Discover.

Lemma standing_resting `{Minicbor} `{Sha256} `{Ed25519} candidates o : standing candidates o → resting candidates o.
Proof.
  intros Ho c ref Hc He Href. left. specialize (Ho c Hc He). unfold replacement in Ho. rewrite Href in Ho.
  by destruct (effective_in o ref).
Qed.

Section PassOrder.
Context `{Minicbor} `{Sha256} `{Ed25519}.
Context (candidates candidates' : list FoldCandidate) (view : HeaderView) (structural exclusions : Outcomes) (genesis : FoldCandidate).
Context (Hnd : NoDup (fc_hash <$> candidates)) (Hgen : genesis ∈ candidates) (Hroot : is_root genesis = true)
  (Hexcl : exclusions_ok candidates exclusions)
  (Hstruct : ∀ h, effective_in structural h = false)
  (Hstructural : ∀ c, c ∈ candidates → structural !! fc_hash c = None)
  (Hseq : ∀ c, c ∈ candidates → 0 ≤ ah_seq (fc_header c)) (Hperm : candidates ≡ₚ candidates').
Set Default Proof Using "All".

Local Abbreviation outs := (pass_outcomes candidates view structural exclusions genesis).
Local Abbreviation credits := (pass_credits candidates view structural exclusions genesis).

Lemma outs_calm : calm candidates exclusions outs.
Proof.
  split.
  - intros c Hc He. by apply replacement_none.
  - intros c Hc He [v Hv].
    destruct (eff_outs_cases candidates view structural exclusions genesis Hnd Hgen Hroot Hexcl Hstruct Hstructural Hseq c) as [[Hv' _]|Hr];
      [done| |].
    + apply replay_elem in Hv' as (_ & d & Hp & _); [|done..]. apply placed_spec in Hp as (Hx & _). congruence.
    + destruct (reroot_spec candidates view structural exclusions genesis Hnd Hgen Hroot Hexcl Hstruct Hstructural Hseq c) as ((s & n & Hop) & _);
        [done|done|]. unfold is_reroot. by rewrite Hop.
  - intros c ref Hc He Href.
    destruct (eff_outs_citation candidates view structural exclusions genesis Hnd Hgen Hroot Hexcl Hstruct Hstructural Hseq c)
      as [->|(mint & [Hm _] & Hmint & Hr & _)]; [done| |].
    + destruct (root_fields genesis Hroot) as (_ & _ & Hn & _). congruence.
    + exists mint. rewrite Href in Hr. injection Hr as <-. done.
Qed.

(** What the two orders make of the closed outcomes. *)
Lemma pass_result_like capture out out' disc r r' :
  like out out' →
  pass_result candidates view structural exclusions genesis capture out disc = Some r →
  pass_result candidates' view structural exclusions genesis capture out' disc = Some r' →
  pr_discovered r = pr_discovered r' ∧ (out = out' → r = r').
Proof.
  intros Hl. unfold pass_result, pass_classification.
  rewrite <- (pass_depths_perm candidates candidates'), <- (pass_replay_perm candidates candidates'),
    <- (pass_credits_perm candidates candidates') by done.
  destruct (normalize_like out out' Hl) as [Hc Hn]. intros Hr Hr'.
  assert (discover_ahead candidates exclusions (dp_register_contributors (pass_depths candidates view structural exclusions genesis).1)
      credits (normalize_auth_epochs out).1 (normalize_auth_epochs out).2 disc =
    discover_ahead candidates' exclusions (dp_register_contributors (pass_depths candidates view structural exclusions genesis).1)
      credits (normalize_auth_epochs out').1 (normalize_auth_epochs out').2 disc) as Hd.
  { rewrite Hc. apply discover_ahead_like; [done|apply compute_credits_ok|done]. }
  destruct (normalize_auth_epochs out) as [n1 o1] eqn:Hn1, (normalize_auth_epochs out') as [n2 o2] eqn:Hn2. simpl in Hd.
  rewrite <- (derive_facts_perm candidates candidates'), <- (successor_perm candidates candidates') in Hr' by done.
  split.
  - destruct (derive_authority_facts candidates o1 _), (derive_authority_facts candidates o2 _); simplify_eq/=. exact Hd.
  - intros <-. rewrite Hn1 in Hn2. injection Hn2 as <- <-. rewrite <- Hd in Hr'. congruence.
Qed.

Lemma discover_grows (select : FoldCandidate → bool) (l : list FoldCandidate) (m : Outcomes) : dom m ⊆ dom (discover select l m).
Proof using Type. intros h. rewrite !elem_of_dom, discover_park, park_lookup. by case_decide. Qed.

Lemma pass_result_grows capture out disc r :
  pass_result candidates view structural exclusions genesis capture out disc = Some r → dom disc ⊆ dom (pr_discovered r).
Proof using Type.
  unfold pass_result. destruct (normalize_auth_epochs out) as [count n]. destruct (derive_authority_facts _ _ _); [|done].
  intros [= <-]. cbn [pr_discovered]. unfold discover_ahead. case_match; [apply discover_grows|].
  etrans; [apply discover_grows|apply discover_grows].
Qed.

Lemma pass_order capture out disc out' disc' r r' :
  close_final_authority_dependencies candidates credits outs = Some (out, disc) →
  close_final_authority_dependencies candidates' (pass_credits candidates' view structural exclusions genesis)
    (pass_outcomes candidates' view structural exclusions genesis) = Some (out', disc') →
  pass_result candidates view structural exclusions genesis capture out disc = Some r →
  pass_result candidates' view structural exclusions genesis capture out' disc' = Some r' →
  pr_discovered r = pr_discovered r' ∧ (dom (pr_discovered r) ⊆ dom exclusions → r = r').
Proof.
  rewrite <- (pass_credits_perm candidates candidates'), <- (pass_outcomes_perm candidates candidates') by done.
  unfold close_final_authority_dependencies. assert (length candidates' = length candidates) as -> by (by rewrite Hperm).
  intros Hc Hc' Hr Hr'. assert (credits_ok credits) as Hcr by apply compute_credits_ok.
  pose proof (close_loop_like candidates candidates' Hnd Hperm (S (length candidates)) credits outs outs ∅ Hcr ltac:(done)
    (standing_resting _ _ (ca_standing _ _ _ outs_calm))) as Hlike. rewrite Hc, Hc' in Hlike. destruct Hlike as [Hlike <-].
  destruct (pass_result_like capture out out' disc r r' Hlike Hr Hr') as [Hd Heq]. split; [done|].
  intros Hdom. apply Heq. pose proof (pass_result_grows capture out disc r Hr) as Hsub.
  pose proof (close_loop_exact candidates Hnd exclusions candidates' (S (length candidates)) credits outs ∅ out disc Hperm Hcr
    outs_calm Hc ltac:(by etrans)) as Hex. rewrite Hc' in Hex. by injection Hex.
Qed.
End PassOrder.

(** ** The entries *)

Section Entries.
Context `{Minicbor} `{Sha256} `{Ed25519}.

(** The hash of an entry identifies it. *)
Definition hash_unique (entries : list VerifiedAccountEntry) : Prop :=
  ∀ e e', e ∈ entries → e' ∈ entries → va_entry_hash e = va_entry_hash e' → e = e'.

(** What the structure of an entry decides of it: its outcome, its place in the ancestry view, or
    the candidate it is. *)
Definition structural_outcome (e : VerifiedAccountEntry) : option Outcome :=
  if negb (foldable (va_header e)) then Some OutRetainedUnfolded
  else match ops_decode (ah_entry_type (va_header e)) (va_payload e) with
       | Err _ => Some (OutRejected Malformed)
       | Ok (KnownOp _) => None
       | Ok (UnknownOp _ _) => Some OutRetainedUnfolded
       end.
Definition linked_header (e : VerifiedAccountEntry) : option AccountEntryHeader :=
  match structural_outcome e with Some (OutRejected _) => None | _ => Some (va_header e) end.
Definition candidate_at (e : VerifiedAccountEntry) : option FoldCandidate :=
  if negb (foldable (va_header e)) then None
  else match ops_decode (ah_entry_type (va_header e)) (va_payload e) with
       | Ok (KnownOp op) => Some (mkFoldCandidate e op)
       | _ => None
       end.

Definition indexed {A} (f : VerifiedAccountEntry → option A) (entries : list VerifiedAccountEntry)
    (m : gmap AccountEntryHash A) : Prop :=
  ∀ h v, m !! h = Some v ↔ ∃ e, e ∈ entries ∧ va_entry_hash e = h ∧ f e = Some v.

Lemma indexed_ext {A} (f : VerifiedAccountEntry → option A) (entries entries' : list VerifiedAccountEntry) (m m' : gmap AccountEntryHash A) :
  (∀ e, e ∈ entries ↔ e ∈ entries') → indexed f entries m → indexed f entries' m' → m = m'.
Proof using Type.
  intros He Hm Hm'. apply map_eq. intros h. apply option_eq. intros v. rewrite (Hm h v), (Hm' h v). by setoid_rewrite He.
Qed.

Lemma indexed_new {A} (f : VerifiedAccountEntry → option A) (entries : list VerifiedAccountEntry) (e : VerifiedAccountEntry) (m : gmap AccountEntryHash A) :
  va_entry_hash e ∉ entry_hashes entries → indexed f entries m →
  indexed f (entries ++ [e]) (match f e with Some y => <[va_entry_hash e := y]> m | None => m end).
Proof using Type.
  intros Hn Hm h v. setoid_rewrite elem_of_app. setoid_rewrite list_elem_of_singleton.
  assert (∀ x, x ∈ entries → va_entry_hash x ≠ va_entry_hash e) as Hfresh.
  { intros x Hx Heq. apply Hn. rewrite <- Heq. apply elem_of_list_to_set. by apply list_elem_of_fmap_2. }
  destruct (f e) as [y|] eqn:Hf; [rewrite lookup_insert_Some|]; rewrite (Hm h v); naive_solver.
Qed.

Record reads (entries : list VerifiedAccountEntry) (s : Collected) : Prop := {
  rd_candidate c : c ∈ cl_candidates s ↔ ∃ e, e ∈ entries ∧ candidate_at e = Some c;
  rd_header : indexed linked_header entries (cl_headers s);
  rd_outcome : indexed structural_outcome entries (cl_outcomes s);
}.

Lemma collect_step_new s e :
  va_entry_hash e ∉ cl_seen s →
  collect_step s e =
  mkCollected (cl_candidates s ++ option_list (candidate_at e))
    (match linked_header e with Some hd => <[va_entry_hash e := hd]> (cl_headers s) | None => cl_headers s end)
    (match structural_outcome e with Some o => <[va_entry_hash e := o]> (cl_outcomes s) | None => cl_outcomes s end)
    ({[va_entry_hash e]} ∪ cl_seen s).
Proof using Type.
  intros Hn. unfold collect_step, linked_header, structural_outcome, candidate_at. rewrite bool_decide_false by done.
  destruct (foldable (va_header e)); simpl; [|by rewrite app_nil_r].
  destruct (ops_decode _ _) as [[op|t bs]|err]; simpl; by rewrite ?app_nil_r.
Qed.

Lemma collect_reads entries : hash_unique entries → reads entries (collect entries).
Proof using Type.
  intros Hu. induction entries as [|e entries IH] using rev_ind.
  - split; simpl.
    + intros c. split; [by intros ?%not_elem_of_nil|]. by intros (e & ?%not_elem_of_nil & _).
    + intros h v. rewrite lookup_empty. split; [done|]. by intros (e & ?%not_elem_of_nil & _).
    + intros h v. rewrite lookup_empty. split; [done|]. by intros (e & ?%not_elem_of_nil & _).
  - assert (hash_unique entries) as Hu' by (intros x y Hx Hy; apply Hu; apply elem_of_app; by left).
    specialize (IH Hu'). pose proof (col_seen _ _ (collect_collected entries)) as Hseen.
    assert (collect (entries ++ [e]) = collect_step (collect entries) e) as -> by (unfold collect; by rewrite foldl_app).
    destruct (decide (va_entry_hash e ∈ entry_hashes entries)) as [Hin|Hn].
    + assert (e ∈ entries) as He.
      { unfold entry_hashes in Hin. apply elem_of_list_to_set, list_elem_of_fmap in Hin as (x & Hh & Hx).
        rewrite (Hu e x); [done|apply elem_of_app; right; by left|apply elem_of_app; by left|done]. }
      assert (∀ x, x ∈ entries ++ [e] ↔ x ∈ entries) as Hset.
      { intros x. rewrite elem_of_app, list_elem_of_singleton. naive_solver. }
      unfold collect_step. rewrite bool_decide_true by (by rewrite Hseen). split.
      * intros c. rewrite (rd_candidate _ _ IH). by setoid_rewrite Hset.
      * intros h v. rewrite (rd_header _ _ IH h v). by setoid_rewrite Hset.
      * intros h v. rewrite (rd_outcome _ _ IH h v). by setoid_rewrite Hset.
    + rewrite collect_step_new by (by rewrite Hseen). split; simpl; [|apply indexed_new; [done|apply IH]..].
      intros c. setoid_rewrite elem_of_app. setoid_rewrite list_elem_of_singleton. rewrite (rd_candidate _ _ IH).
      destruct (candidate_at e) eqn:Hc; simpl; rewrite ?list_elem_of_singleton, ?elem_of_nil; naive_solver.
Qed.

(** The same entries are collected into the same candidates, view and outcomes. *)
Lemma collect_same entries entries' :
  hash_unique entries → (∀ e, e ∈ entries ↔ e ∈ entries') →
  cl_candidates (collect entries) ≡ₚ cl_candidates (collect entries') ∧
  cl_headers (collect entries) = cl_headers (collect entries') ∧ cl_outcomes (collect entries) = cl_outcomes (collect entries').
Proof using Type.
  intros Hu Hset. assert (hash_unique entries') as Hu' by (intros x y Hx%Hset Hy%Hset; by apply Hu).
  destruct (collect_reads entries Hu) as [Hc Hh Ho], (collect_reads entries' Hu') as [Hc' Hh' Ho']. split_and!.
  - apply NoDup_Permutation.
    + by apply (NoDup_fmap_1 fc_hash), cands_NoDup.
    + by apply (NoDup_fmap_1 fc_hash), cands_NoDup.
    + intros c. rewrite Hc, Hc'. by setoid_rewrite Hset.
  - by eapply indexed_ext.
  - by eapply indexed_ext.
Qed.
End Entries.

(** ** The fold *)

Section Same.
Context `{Minicbor} `{Sha256} `{Ed25519}.
Context (entries entries' : list VerifiedAccountEntry).
Context (Hseq : ∀ e, e ∈ entries → 0 ≤ ah_seq (va_header e)) (Hu : hash_unique entries) (Hset : ∀ e, e ∈ entries ↔ e ∈ entries').
Set Default Proof Using "All".

Local Abbreviation cands := (cl_candidates (collect entries)).
Local Abbreviation cands' := (cl_candidates (collect entries')).

Lemma pass_same exclusions capture r r' :
  exclusions_ok cands exclusions →
  fold_account_pass entries exclusions capture = Some r → fold_account_pass entries' exclusions capture = Some r' →
  pr_discovered r = pr_discovered r' ∧ (dom (pr_discovered r) ⊆ dom exclusions → r = r').
Proof.
  intros Hex. destruct (collect_same entries entries' Hu Hset) as (Hperm & Hh & Ho).
  pose proof (find_genesis_perm _ _ (cands_NoDup entries) Hperm) as Hg.
  destruct (find_genesis cands) as [genesis|] eqn:Hf.
  - symmetry in Hg. rewrite (fold_account_pass_rooted entries _ _ genesis Hf), (fold_account_pass_rooted entries' _ _ genesis Hg).
    rewrite <- Hh, <- Ho. apply find_genesis_spec in Hf as [Hgen Hroot]. unfold mbind, option_bind.
    destruct (close_final_authority_dependencies cands _ _) as [[out disc]|] eqn:Hc; [|done].
    destruct (close_final_authority_dependencies cands' _ _) as [[out' disc']|] eqn:Hc'; [|done].
    eapply (pass_order cands cands'); [apply cands_NoDup|done|done|done|apply (col_not_effective _ _ (collect_collected entries))
      |apply cands_structural| |done|done|done].
    by apply cands_seq.
  - unfold fold_account_pass. rewrite Hf, <- Hg. intros [= <-] [= <-]. split; [done|]. intros _. unfold rootless.
    rewrite <- Ho. do 2 f_equal. apply (insert_all_perm fc_hash (λ _, OutParked UnknownOwnerRef)); [apply cands_NoDup|done].
Qed.

Lemma readiness_same fuel fuel' exclusions capture x x' :
  exclusions_ok cands exclusions →
  readiness_loop fuel entries exclusions capture = Some x → readiness_loop fuel' entries' exclusions capture = Some x' → x = x'.
Proof.
  revert fuel' exclusions. induction fuel as [|fuel IH]; intros fuel' exclusions Hex; [done|]. destruct fuel' as [|fuel']; [done|].
  cbn [readiness_loop].
  destruct (fold_account_pass entries exclusions capture) as [r|] eqn:Hr; [|done].
  destruct (fold_account_pass entries' exclusions capture) as [r'|] eqn:Hr'; [|done].
  destruct (pass_same exclusions capture r r' Hex Hr Hr') as [Hd Heq]. unfold mbind, option_bind. rewrite <- Hd.
  case_bool_decide as Hdom; [rewrite (Heq Hdom); congruence|]. apply IH.
  apply exclusions_ok_union; [done|]. by eapply pass_discovered_ok.
Qed.

Lemma fold_traced_same capture : fold_account_traced entries capture = fold_account_traced entries' capture.
Proof.
  destruct (fold_account_traced_total entries capture) as [x Hx], (fold_account_traced_total entries' capture) as [x' Hx'].
  rewrite Hx, Hx'. f_equal. eapply readiness_same; [|exact Hx|exact Hx']. intros h o. by rewrite lookup_empty.
Qed.
End Same.

(** C1.  Convergence of the control fold: replicas that hold the same verified entries of an account
    compute the same history (outcomes, epochs, classification, authority facts), whatever the order
    in which they hold them and however often an entry is repeated. *)
Theorem fold_account_order_independent `{Minicbor} `{Sha256} `{Ed25519} (entries entries' : list VerifiedAccountEntry) :
  (∀ e, e ∈ entries → 0 ≤ ah_seq (va_header e)) → hash_unique entries → (∀ e, e ∈ entries ↔ e ∈ entries') →
  fold_account entries = fold_account entries'.
Proof. intros Hseq Hu Hset. unfold fold_account. by rewrite (fold_traced_same entries entries' Hseq Hu Hset). Qed.

Lemma wit_hash_unique : hash_unique wit_entries.
Proof.
  assert (NoDup (va_entry_hash <$> wit_entries)) as Hnd by (apply (bool_decide_unpack _); by vm_compute).
  intros e e' He He'. by apply (NoDup_fmap_inj va_entry_hash wit_entries).
Qed.

Lemma fold_account_order_independent_witness :
  fold_account wit_entries = fold_account (reverse wit_entries ++ wit_entries) ∧
  ∃ h, fold_account (reverse wit_entries ++ wit_entries) = Some h ∧ hi_outcomes h !! wit_hash x03 = Some (OutEffective 2).
Proof.
  assert (fold_account wit_entries = fold_account (reverse wit_entries ++ wit_entries)) as Heq.
  { apply (fold_account_order_independent wit_entries (reverse wit_entries ++ wit_entries)).
    - exact wit_entries_ok.
    - exact wit_hash_unique.
    - intros e. rewrite elem_of_app, elem_of_reverse. tauto. }
  split; [exact Heq|]. destruct (fold_account_traced_total wit_entries false) as [[h t] Ht].
  pose proof (fold_account_of_traced wit_entries h t Ht) as Hh. exists h. split; [congruence|].
  apply (wit_outcomes h Hh).
Defined.
