(* ===== verification/AccountProjection.v ===== *)
(** * The projection of an account's candidate rows ([account/storage.rs], [derive_account_projection])

    The store holds every entry of an account.  The control fold says which are effective, a branch
    is selected for each author chain, and the selection is closed over the authority its entries
    cite.  What is effective and not selected is forked: it is left out and the fold runs again,
    until the effective entries are exactly the accepted ones. *)

From S2P Require Import Prelude Cbor Minicbor Hash Op Device Entry Stream Branch Envelope Candidate AccountOps FoldTypes Snapshot Fold FoldDepth FoldTotal FoldPass FoldReplay FoldRooted FoldSafety FoldPerm FoldOrder.

Local Open Scope Z_scope.

(** ** Data *)

(** A row with its entry decoded from the stored bytes. *)
Record CandidateRow : Type := mkCandidateRow {
  cr_entry_hash : AccountEntryHash;
  cr_log_id : Z;
  cr_device_fingerprint : DeviceFingerprint;
  cr_seq : Z;
  cr_verified : VerifiedAccountEntry;
}.

Record AccountProjection : Type := mkAccountProjection {
  ap_history : AccountAuthHistory;
  ap_accepted : gset AccountEntryHash;
  ap_forked : gset AccountEntryHash;
}.

(** The parent slot of a log, and the entries that chain from it. *)
Abbreviation BranchKey := (Z * DeviceFingerprint * option AccountEntryHash)%type.
Abbreviation LogBranches := (gmap BranchKey (list (Z * AccountEntryHash))).

(** ** Branch selection *)

Definition branch_key (row : CandidateRow) : BranchKey :=
  (cr_log_id row, cr_device_fingerprint row, ah_prev_hash (va_header (cr_verified row))).

Definition push_branch (children : LogBranches) (row : CandidateRow) : LogBranches :=
  <[branch_key row := default [] (children !! branch_key row) ++ [(cr_seq row, cr_entry_hash row)]]> children.

Definition effective_branches (rows : list CandidateRow) (effective : gset AccountEntryHash) : LogBranches :=
  foldl push_branch ∅ (filter (fun row => cr_entry_hash row ∈ effective) rows).

Definition branch_groups (rows : list CandidateRow) (effective : gset AccountEntryHash) : gset (Z * DeviceFingerprint) :=
  list_to_set ((fun row => (cr_log_id row, cr_device_fingerprint row)) <$> filter (fun row => cr_entry_hash row ∈ effective) rows).

Definition branch_winner (children : LogBranches) (key : BranchKey) (expected_seq : Z) : option AccountEntryHash :=
  kids ← children !! key; min_hash (snd <$> filter (fun kid => kid.1 = expected_seq) kids).

(** The [for] over the expected sequence numbers, [break] at the first slot without a winner. *)
Fixpoint extend_branch (steps : nat) (children : LogBranches) (log_id : Z) (device : DeviceFingerprint)
    (parent : option AccountEntryHash) (expected_seq : Z) : list AccountEntryHash :=
  match steps with
  | O => []
  | S steps =>
      match branch_winner children (log_id, device, parent) expected_seq with
      | None => []
      | Some winner => winner :: extend_branch steps children log_id device (Some winner) (expected_seq + 1)
      end
  end.

Definition group_branch (rows : list CandidateRow) (effective : gset AccountEntryHash) (group : Z * DeviceFingerprint)
    : list AccountEntryHash :=
  extend_branch (S (length rows)) (effective_branches rows effective) group.1 group.2 None 0.

Definition select_coherent_branches (rows : list CandidateRow) (effective : gset AccountEntryHash) : gset AccountEntryHash :=
  list_to_set (mjoin (group_branch rows effective <$> elements (branch_groups rows effective))).

(** ** Closure over the cited authority *)

Definition unsupported (selected : gset AccountEntryHash) (row : CandidateRow) : bool :=
  bool_decide (cr_entry_hash row ∈ selected) &&
  match ah_authority_ref (va_header (cr_verified row)) with
  | Some authority => bool_decide (authority ∉ selected)
  | None => false
  end.

(** The [None] is an exhausted fuel. *)
Fixpoint close_selection (fuel : nat) (rows : list CandidateRow) (selected : gset AccountEntryHash)
    : option (gset AccountEntryHash) :=
  match fuel with
  | O => None
  | S fuel =>
      match cr_entry_hash <$> List.filter (unsupported selected) rows with
      | [] => Some selected
      | invalid => close_selection fuel rows (selected ∖ list_to_set invalid)
      end
  end.

Definition close_selection_over_authority (rows : list CandidateRow) (selected : gset AccountEntryHash)
    : option (gset AccountEntryHash) :=
  close_selection (S (size selected)) rows selected.

(** ** The projection *)

Section Project.
Context `{Minicbor} `{Sha256} `{Ed25519}.

Definition unforked (rows : list CandidateRow) (forked : gset AccountEntryHash) : list CandidateRow :=
  filter (fun row => cr_entry_hash row ∉ forked) rows.

Definition effective_hashes (rows : list CandidateRow) (forked : gset AccountEntryHash) (history : AccountAuthHistory)
    : gset AccountEntryHash :=
  list_to_set (cr_entry_hash <$> List.filter (fun row => effective_in (hi_outcomes history) (cr_entry_hash row)) (unforked rows forked)).

Fixpoint derive_loop (fuel : nat) (rows : list CandidateRow) (capture : bool) (forked : gset AccountEntryHash)
    : option (AccountProjection * option LegacyTrace) :=
  match fuel with
  | O => None
  | S fuel =>
      '(history, trace) ← fold_account_traced (cr_verified <$> unforked rows forked) capture;
      let effective := effective_hashes rows forked history in
      let selected := select_coherent_branches rows effective in
      accepted ← close_selection_over_authority rows selected;
      let newly_forked := effective ∖ accepted in
      if bool_decide (newly_forked = ∅) then Some (mkAccountProjection history accepted forked, trace)
      else derive_loop fuel rows capture (forked ∪ newly_forked)
  end.

Definition derive_account_projection_traced (rows : list CandidateRow) (capture : bool)
    : option (AccountProjection * option LegacyTrace) :=
  derive_loop (S (length rows)) rows capture ∅.

Definition derive_account_projection (rows : list CandidateRow) : option AccountProjection :=
  fst <$> derive_account_projection_traced rows false.

(** *** Rows of verified entries, and of the store *)

Definition evidence_row (entry : VerifiedAccountEntry) : CandidateRow :=
  mkCandidateRow (va_entry_hash entry) (ah_log_id (va_header entry)) (ah_device_fingerprint (va_header entry))
    (ah_seq (va_header entry)) entry.

Definition project_verified_checkpoint_evidence (entries : list VerifiedAccountEntry) : option AccountProjection :=
  derive_account_projection (evidence_row <$> entries).

Definition project_checkpoint_with_trace (entries : list VerifiedAccountEntry) : option (AccountProjection * option LegacyTrace) :=
  derive_account_projection_traced (evidence_row <$> entries) true.

(** [seq as u64] of an [i64] column. *)
Definition i64_as_u64 (n : Z) : Z := n `mod` 2 ^ 64.

(** The columns [entry_hash], [device_fingerprint], [seq] and [signed_bytes]. *)
Definition load_candidate (row : bytes * bytes * Z * bytes) : result AnyError CandidateRow :=
  let '(hash, fp, seq, signed_bytes) := row in
  signed ← map_err (fun _ => Bail "stored candidate re-decode failed") (decode_account_signed signed_bytes);
  entry_hash ← id_fixed 32 hash;
  device_fingerprint ← id_fixed 32 fp;
  Ok (mkCandidateRow entry_hash (ah_log_id (sa_header signed)) device_fingerprint (i64_as_u64 seq)
        (mkVerifiedAccountEntry (sa_header signed) (sa_payload signed) (sa_entry_hash signed))).

Fixpoint load_candidates (rows : list (bytes * bytes * Z * bytes)) : result AnyError (list CandidateRow) :=
  match rows with
  | [] => Ok []
  | row :: rows => c ← load_candidate row; out ← load_candidates rows; Ok (c :: out)
  end.

(** *** Coverage of a snapshot *)

Record AccountEntriesView : Type := mkAccountEntriesView {
  aev_held : list VerifiedAccountEntry;
  aev_accepted : gset AccountEntryHash;
}.

Definition account_entries_view (rows : list CandidateRow) : option AccountEntriesView :=
  projection ← derive_account_projection rows;
  Some (mkAccountEntriesView (cr_verified <$> rows) (ap_accepted projection)).

Record CoveredWatermark : Type := mkCoveredWatermark {
  cw_device_fingerprint : DeviceFingerprint;
  cw_seq : Z;
  cw_entry_hash : AccountEntryHash;
}.

Definition head_step (accepted : gset AccountEntryHash) (heads : gmap DeviceFingerprint (Z * AccountEntryHash))
    (entry : VerifiedAccountEntry) : gmap DeviceFingerprint (Z * AccountEntryHash) :=
  let h := va_header entry in
  if bool_decide (ah_log_id h ≠ CONTROL_LOG) || bool_decide (va_entry_hash entry ∉ accepted) then heads
  else
    let slot := default (ah_seq h, va_entry_hash entry) (heads !! ah_device_fingerprint h) in
    <[ah_device_fingerprint h := if bool_decide (slot.1 ≤ ah_seq h) then (ah_seq h, va_entry_hash entry) else slot]> heads.

Definition accepted_control_heads (view : AccountEntriesView) : list CoveredWatermark :=
  sort_by_key cw_device_fingerprint
    ((fun '(device, (seq, hash)) => mkCoveredWatermark device seq hash) <$>
       map_to_list (foldl (head_step (aev_accepted view)) ∅ (aev_held view))).
End Project.

(** ** The branch of an author chain *)

Section Branches.
Context (rows : list CandidateRow) (effective : gset AccountEntryHash).

(** An effective row in the parent slot [key] with sequence number [s]. *)
Definition extends (key : BranchKey) (s : Z) (row : CandidateRow) : Prop :=
  row ∈ rows ∧ cr_entry_hash row ∈ effective ∧ branch_key row = key ∧ cr_seq row = s.

Lemma effective_branches_spec key p :
  p ∈ default [] (effective_branches rows effective !! key) ↔ ∃ row, extends key (cr_seq row) row ∧ p = (cr_seq row, cr_entry_hash row).
Proof using Type.
  assert (∀ key s row, extends key s row ↔ row ∈ filter (λ row, cr_entry_hash row ∈ effective) rows ∧ branch_key row = key ∧ cr_seq row = s) as Hext
    by (intros; unfold extends; rewrite list_elem_of_filter; tauto).
  setoid_rewrite Hext. clear Hext. unfold effective_branches. generalize (filter (λ row, cr_entry_hash row ∈ effective) rows). intros l.
  induction l as [|row l IH] using rev_ind.
  { simpl. rewrite lookup_empty. simpl. split; [by intros ?%not_elem_of_nil|by intros (row & [?%not_elem_of_nil _] & _)]. }
  rewrite foldl_app. simpl. unfold push_branch at 1. setoid_rewrite elem_of_app. setoid_rewrite list_elem_of_singleton.
  destruct (decide (key = branch_key row)) as [->|Hne].
  - rewrite lookup_insert_eq. simpl. rewrite elem_of_app, list_elem_of_singleton, IH. split.
    + intros [(x & (? & ? & ?) & ->)| ->]; [exists x|exists row]; auto.
    + intros (x & ([Hx|Hx] & ? & ?) & ->); [left; exists x; auto|right; by subst].
  - rewrite lookup_insert_ne by done. rewrite IH. split; intros (x & (Hx & ? & ?) & ->); exists x; [auto|].
    split; [|done]. destruct Hx as [Hx|Hx]; [done|by subst].
Qed.

Lemma branch_winner_spec key s w :
  branch_winner (effective_branches rows effective) key s = Some w ↔
  (∃ row, extends key s row ∧ cr_entry_hash row = w) ∧ ∀ row, extends key s row → cle w (cr_entry_hash row).
Proof using Type.
  unfold branch_winner.
  assert (∀ h, h ∈ (snd <$> filter (λ kid : Z * AccountEntryHash, kid.1 = s) (default [] (effective_branches rows effective !! key))) ↔
    ∃ row, extends key s row ∧ cr_entry_hash row = h) as Hkids.
  { intros h. rewrite list_elem_of_fmap. setoid_rewrite list_elem_of_filter. setoid_rewrite effective_branches_spec. split.
    - intros (p & -> & Hs & row & Hrow & ->). simpl in *. exists row. split; [|done]. by rewrite <- Hs.
    - intros (row & (? & ? & ? & <-) & <-). exists (cr_seq row, cr_entry_hash row). split; [done|]. split; [done|]. by exists row. }
  assert ((kids ← effective_branches rows effective !! key; min_hash (snd <$> filter (λ kid : Z * AccountEntryHash, kid.1 = s) kids)) =
    min_hash (snd <$> filter (λ kid : Z * AccountEntryHash, kid.1 = s) (default [] (effective_branches rows effective !! key)))) as ->.
  { by destruct (effective_branches rows effective !! key). }
  rewrite min_hash_Some, Hkids. split; intros [Hw Hmin]; (split; [done|]).
  - intros row Hrow. apply Hmin, Hkids. by exists row.
  - intros h Hh. apply Hkids in Hh as (row & Hrow & <-). by apply Hmin.
Qed.

(** The entry at a position of a walk has the position's sequence number and chains from the entry
    before it. *)
Lemma extend_branch_spec steps log_id device parent s i w :
  extend_branch steps (effective_branches rows effective) log_id device parent s !! i = Some w →
  ∃ row, row ∈ rows ∧ cr_entry_hash row = w ∧ w ∈ effective ∧ cr_log_id row = log_id ∧ cr_device_fingerprint row = device ∧
    cr_seq row = s + Z.of_nat i ∧
    ah_prev_hash (va_header (cr_verified row)) =
      match i with
      | O => parent
      | S j => extend_branch steps (effective_branches rows effective) log_id device parent s !! j
      end.
Proof using Type.
  revert parent s i. induction steps as [|steps IH]; intros parent s i; [done|]. cbn [extend_branch].
  destruct (branch_winner _ _ _) as [x|] eqn:Hx; [|done]. destruct i as [|i]; simpl.
  - intros [= ->]. apply branch_winner_spec in Hx as [(row & (Hrow & Heff & Hkey & Hs) & Hh) _].
    unfold branch_key in Hkey. simplify_eq. exists row. split_and!; try done. lia.
  - intros (row & Hrow & Hh & Heff & Hl & Hd & Hs & Hp)%IH. exists row. split_and!; try done; first [lia|by rewrite Hp; destruct i].
Qed.

Lemma elem_of_selected h :
  h ∈ select_coherent_branches rows effective ↔
  ∃ row, row ∈ rows ∧ cr_entry_hash row ∈ effective ∧
    h ∈ group_branch rows effective (cr_log_id row, cr_device_fingerprint row).
Proof using Type.
  unfold select_coherent_branches, branch_groups. rewrite elem_of_list_to_set, list_elem_of_join.
  setoid_rewrite list_elem_of_fmap. setoid_rewrite elem_of_elements. setoid_rewrite elem_of_list_to_set.
  setoid_rewrite list_elem_of_fmap. setoid_rewrite list_elem_of_filter. naive_solver.
Qed.

Lemma selected_effective : select_coherent_branches rows effective ⊆ effective.
Proof using Type.
  intros h (row & _ & _ & Hh)%elem_of_selected. unfold group_branch in Hh. apply list_elem_of_lookup in Hh as [i Hi].
  by apply extend_branch_spec in Hi as (_ & _ & _ & ? & _).
Qed.

Context (Hnd : NoDup (cr_entry_hash <$> rows)).

(** A selected row is in the branch of its own chain, at its sequence number. *)
Lemma selected_position row :
  row ∈ rows → cr_entry_hash row ∈ select_coherent_branches rows effective →
  0 ≤ cr_seq row ∧
  group_branch rows effective (cr_log_id row, cr_device_fingerprint row) !! Z.to_nat (cr_seq row) = Some (cr_entry_hash row) ∧
  ah_prev_hash (va_header (cr_verified row)) =
    match Z.to_nat (cr_seq row) with
    | O => None
    | S j => group_branch rows effective (cr_log_id row, cr_device_fingerprint row) !! j
    end.
Proof using Hnd.
  intros Hrow (r0 & _ & _ & Hh)%elem_of_selected. unfold group_branch in *. apply list_elem_of_lookup in Hh as [i Hi].
  pose proof Hi as (row' & Hrow' & Hh & _ & Hl & Hd & Hs & Hp)%extend_branch_spec.
  assert (row' = row) as -> by (by apply (NoDup_fmap_inj cr_entry_hash rows)). simpl in *.
  rewrite Hs, Hl, Hd. split; [lia|]. replace (Z.to_nat (0 + Z.of_nat i)) with i by lia. by rewrite Hi, Hp.
Qed.
End Branches.

(** ** Closure *)

Lemma filter_nil_false {A} (f : A → bool) (l : list A) : List.filter f l = [] → ∀ x, x ∈ l → f x = false.
Proof.
  intros Hf x Hx. destruct (f x) eqn:Hfx; [|done]. assert (x ∈ List.filter f l) as Hin by (by apply elem_of_filter_bool).
  rewrite Hf in Hin. by apply not_elem_of_nil in Hin.
Qed.

Section Close.
Context (rows : list CandidateRow).

Lemma close_selection_total fuel selected :
  (size selected < fuel)%nat →
  ∃ accepted, close_selection fuel rows selected = Some accepted ∧ accepted ⊆ selected ∧
    ∀ row, row ∈ rows → unsupported accepted row = false.
Proof using Type.
  revert selected. induction fuel as [|fuel IH]; intros selected Hf; [lia|]. cbn [close_selection].
  destruct (cr_entry_hash <$> List.filter (unsupported selected) rows) as [|h l] eqn:Hinv.
  - exists selected. split_and!; [done|done|]. apply fmap_nil_inv in Hinv. by apply filter_nil_false.
  - assert (h ∈ selected) as Hh.
    { assert (h ∈ cr_entry_hash <$> List.filter (unsupported selected) rows) as Hin by (rewrite Hinv; by left).
      apply list_elem_of_fmap in Hin as (row & -> & [Hu _]%elem_of_filter_bool). unfold unsupported in Hu.
      by apply andb_prop in Hu as [?%bool_decide_eq_true _]. }
    destruct (IH (selected ∖ list_to_set (h :: l))) as (accepted & Hc & Hs & Hr).
    + assert (size (selected ∖ list_to_set (h :: l)) < size selected)%nat; [|lia]. apply subset_size. set_solver.
    + exists accepted. split; [done|]. split; [set_solver|done].
Qed.

Lemma close_selection_over_authority_total selected :
  ∃ accepted, close_selection_over_authority rows selected = Some accepted ∧ accepted ⊆ selected ∧
    ∀ row, row ∈ rows → unsupported accepted row = false.
Proof using Type. apply close_selection_total. lia. Qed.
End Close.

(** ** The projection returns, and what it accepts *)

Section Derive.
Context `{Minicbor} `{Sha256} `{Ed25519}.
Context (rows : list CandidateRow).

(** What the last round of the loop leaves. *)
Record settled (capture : bool) (p : AccountProjection) (t : option LegacyTrace) : Prop := {
  st_fold : fold_account_traced (cr_verified <$> unforked rows (ap_forked p)) capture = Some (ap_history p, t);
  st_accepted : ap_accepted p = effective_hashes rows (ap_forked p) (ap_history p);
  st_selected : select_coherent_branches rows (ap_accepted p) = ap_accepted p;
  st_closed row : row ∈ rows → unsupported (ap_accepted p) row = false;
  st_forked h : h ∈ ap_forked p → h ∈ cr_entry_hash <$> rows;
}.

Lemma elem_of_effective_hashes forked history h :
  h ∈ effective_hashes rows forked history ↔
  ∃ row, row ∈ rows ∧ cr_entry_hash row = h ∧ h ∉ forked ∧ effective_in (hi_outcomes history) h = true.
Proof using Type.
  unfold effective_hashes, unforked. rewrite elem_of_list_to_set, list_elem_of_fmap.
  setoid_rewrite elem_of_filter_bool. setoid_rewrite list_elem_of_filter. split.
  - intros (row & -> & He & Hf & Hrow). by exists row.
  - intros (row & Hrow & <- & Hf & He). by exists row.
Qed.

Lemma unforked_le forked : (length (unforked rows forked) ≤ length rows)%nat.
Proof using Type. unfold unforked. apply length_filter. Qed.

Lemma unforked_shrinks forked newly :
  newly ≠ ∅ → (∀ h, h ∈ newly → h ∉ forked ∧ h ∈ cr_entry_hash <$> rows) →
  (length (unforked rows (forked ∪ newly)) < length (unforked rows forked))%nat.
Proof using Type.
  intros (h & Hh)%set_choose_L Hn. destruct (Hn h Hh) as [Hf (row & -> & Hrow)%list_elem_of_fmap]. unfold unforked.
  clear Hn. induction rows as [|x l IH]; [by apply not_elem_of_nil in Hrow|].
  assert (length (filter (λ row, cr_entry_hash row ∉ forked ∪ newly) l) ≤ length (filter (λ row, cr_entry_hash row ∉ forked) l))%nat as Hle.
  { clear -l. induction l as [|y l IH]; [done|]. rewrite !filter_cons. repeat case_decide; simpl; try lia. set_solver. }
  rewrite !filter_cons. apply elem_of_cons in Hrow as [<-|Hrow].
  - rewrite decide_False by set_solver. rewrite decide_True by done. simpl. lia.
  - specialize (IH Hrow). repeat case_decide; simpl; try lia. set_solver.
Qed.

Lemma derive_loop_settles fuel capture forked :
  (length (unforked rows forked) < fuel)%nat → (∀ h, h ∈ forked → h ∈ cr_entry_hash <$> rows) →
  ∃ p t, derive_loop fuel rows capture forked = Some (p, t) ∧ settled capture p t.
Proof using Type.
  revert forked. induction fuel as [|fuel IH]; intros forked Hfuel Hf; [lia|]. cbn [derive_loop].
  destruct (fold_account_traced_total (cr_verified <$> unforked rows forked) capture) as [[history t] Hfold].
  rewrite Hfold. cbn [mbind option_bind]. set (effective := effective_hashes rows forked history).
  destruct (close_selection_over_authority_total rows (select_coherent_branches rows effective)) as (accepted & -> & Hsub & Hclosed).
  cbn [mbind option_bind]. pose proof (selected_effective rows effective) as Hsel. case_bool_decide as Hnew.
  - assert (accepted = effective ∧ select_coherent_branches rows effective = effective) as [-> Hs].
    { apply empty_difference_subseteq_L in Hnew.
      split; apply (anti_symm (⊆)); [by etrans|done|done|by etrans]. }
    exists (mkAccountProjection history effective forked), t. split; [done|]. by split.
  - assert (∀ h, h ∈ effective ∖ accepted → h ∉ forked ∧ h ∈ cr_entry_hash <$> rows) as Hn.
    { intros h [(row & Hrow & <- & Hnf & _)%elem_of_effective_hashes _]%elem_of_difference. split; [done|]. by apply list_elem_of_fmap_2. }
    pose proof (unforked_shrinks forked (effective ∖ accepted) Hnew Hn). apply IH; [lia|].
    intros h [?|Hh]%elem_of_union; [auto|]. by apply Hn.
Qed.

Lemma derive_settles capture :
  ∃ p t, derive_account_projection_traced rows capture = Some (p, t) ∧ settled capture p t.
Proof using Type.
  apply derive_loop_settles; [|by intros h ?%elem_of_empty].
  pose proof (unforked_le ∅). lia.
Qed.

Lemma derive_account_projection_settles : ∃ p t, derive_account_projection rows = Some p ∧ settled false p t.
Proof using Type. unfold derive_account_projection. destruct (derive_settles false) as (p & t & -> & Hs). by exists p, t. Qed.

Context (Hnd : NoDup (cr_entry_hash <$> rows)).

Lemma settled_selected capture p t row :
  settled capture p t → row ∈ rows → cr_entry_hash row ∈ ap_accepted p →
  cr_entry_hash row ∈ select_coherent_branches rows (ap_accepted p).
Proof using Type. intros Hs. by rewrite (st_selected _ _ _ Hs). Qed.

(** An accepted entry is an origin or follows an accepted entry of its chain. *)
Lemma settled_parent capture p t row :
  settled capture p t → row ∈ rows → cr_entry_hash row ∈ ap_accepted p →
  (cr_seq row = 0 ∧ ah_prev_hash (va_header (cr_verified row)) = None) ∨
  ∃ prev, prev ∈ rows ∧ cr_entry_hash prev ∈ ap_accepted p ∧ cr_log_id prev = cr_log_id row ∧
    cr_device_fingerprint prev = cr_device_fingerprint row ∧ cr_seq prev + 1 = cr_seq row ∧
    ah_prev_hash (va_header (cr_verified row)) = Some (cr_entry_hash prev).
Proof using Hnd.
  intros Hst Hrow Hr. destruct (selected_position rows _ Hnd row Hrow (settled_selected _ _ _ _ Hst Hrow Hr)) as (Hs & Hi & Hprev).
  destruct (Z.to_nat (cr_seq row)) as [|j] eqn:Hj; [left; split; [lia|done]|right].
  destruct (group_branch rows (ap_accepted p) (cr_log_id row, cr_device_fingerprint row) !! j) as [h'|] eqn:Hh'.
  - pose proof Hh' as (prev & Hpr & <- & He & Hl & Hd & Hps & _)%extend_branch_spec. simpl in *.
    exists prev. split_and!; try done. lia.
  - exfalso. apply lookup_ge_None in Hh'. apply lookup_lt_Some in Hi. lia.
Qed.

(** No two accepted entries share a place. *)
Lemma settled_unique capture p t row row' :
  settled capture p t → row ∈ rows → row' ∈ rows → cr_entry_hash row ∈ ap_accepted p → cr_entry_hash row' ∈ ap_accepted p →
  cr_log_id row = cr_log_id row' → cr_device_fingerprint row = cr_device_fingerprint row' → cr_seq row = cr_seq row' → row = row'.
Proof using Hnd.
  intros Hst Hrow Hrow' Hr Hr' Hl Hd Hs.
  destruct (selected_position rows _ Hnd row Hrow (settled_selected _ _ _ _ Hst Hrow Hr)) as (_ & Hi & _).
  destruct (selected_position rows _ Hnd row' Hrow' (settled_selected _ _ _ _ Hst Hrow' Hr')) as (_ & Hi' & _).
  rewrite Hl, Hd, Hs in Hi. apply (NoDup_fmap_inj cr_entry_hash rows); [done|done|done|congruence].
Qed.
End Derive.

(** C8.  Acceptance of an account's entries: the projection returns on every set of stored rows, and
    with the history of the rows it did not fork, accepts exactly the effective entries among them.
    The accepted entries are one coherent branch for each author chain (every entry chains from the
    accepted entry of the preceding sequence number, and no two share a number), and each accepted
    entry cites an authority that is accepted too. *)
Theorem projection_coherent `{Minicbor} `{Sha256} `{Ed25519} (rows : list CandidateRow) :
  NoDup (cr_entry_hash <$> rows) →
  ∃ p, derive_account_projection rows = Some p ∧
    fold_account (cr_verified <$> unforked rows (ap_forked p)) = Some (ap_history p) ∧
    (∀ h, h ∈ ap_accepted p ↔
       ∃ row, row ∈ rows ∧ cr_entry_hash row = h ∧ h ∉ ap_forked p ∧ effective_in (hi_outcomes (ap_history p)) h = true) ∧
    (∀ row, row ∈ rows → cr_entry_hash row ∈ ap_accepted p →
       (cr_seq row = 0 ∧ ah_prev_hash (va_header (cr_verified row)) = None) ∨
       ∃ prev, prev ∈ rows ∧ cr_entry_hash prev ∈ ap_accepted p ∧ cr_log_id prev = cr_log_id row ∧
         cr_device_fingerprint prev = cr_device_fingerprint row ∧ cr_seq prev + 1 = cr_seq row ∧
         ah_prev_hash (va_header (cr_verified row)) = Some (cr_entry_hash prev)) ∧
    (∀ row row', row ∈ rows → row' ∈ rows → cr_entry_hash row ∈ ap_accepted p → cr_entry_hash row' ∈ ap_accepted p →
       cr_log_id row = cr_log_id row' → cr_device_fingerprint row = cr_device_fingerprint row' → cr_seq row = cr_seq row' →
       row = row') ∧
    (∀ row authority, row ∈ rows → cr_entry_hash row ∈ ap_accepted p →
       ah_authority_ref (va_header (cr_verified row)) = Some authority → authority ∈ ap_accepted p).
Proof.
  intros Hnd. destruct (derive_account_projection_settles rows) as (p & t & Hp & Hst). pose proof Hst as [Hfold Hacc _ Hclosed _].
  exists p. split; [done|]. split; [by eapply fold_account_of_traced|]. split.
  { intros h. rewrite Hacc. apply elem_of_effective_hashes. }
  split_and!.
  - intros row. by eapply settled_parent.
  - intros row row'. by eapply settled_unique.
  - intros row authority Hrow Hr Ha. specialize (Hclosed row Hrow). unfold unsupported in Hclosed.
    rewrite Ha, bool_decide_true in Hclosed by done. simpl in Hclosed. apply bool_decide_eq_false in Hclosed.
    destruct (decide (authority ∈ ap_accepted p)); [done|by destruct Hclosed].
Qed.

(** ** The projection does not depend on the order of the rows *)

Section Perm.
Context (rows rows' : list CandidateRow) (Hperm : rows ≡ₚ rows').

Lemma branch_winner_perm effective key s :
  branch_winner (effective_branches rows effective) key s = branch_winner (effective_branches rows' effective) key s.
Proof using Hperm.
  apply option_eq. intros w. rewrite !branch_winner_spec. unfold extends. by setoid_rewrite Hperm.
Qed.

Lemma extend_branch_perm effective steps log_id device parent s :
  extend_branch steps (effective_branches rows effective) log_id device parent s =
  extend_branch steps (effective_branches rows' effective) log_id device parent s.
Proof using Hperm.
  revert parent s. induction steps as [|steps IH]; intros parent s; [done|]. cbn [extend_branch].
  rewrite branch_winner_perm. destruct (branch_winner _ _ _); [|done]. by rewrite IH.
Qed.

Lemma select_perm effective : select_coherent_branches rows effective = select_coherent_branches rows' effective.
Proof using Hperm.
  apply set_eq. intros h. rewrite !elem_of_selected. unfold group_branch. rewrite (Permutation_length Hperm).
  setoid_rewrite extend_branch_perm. by setoid_rewrite Hperm.
Qed.

Lemma close_selection_perm fuel selected : close_selection fuel rows selected = close_selection fuel rows' selected.
Proof using Hperm.
  revert selected. induction fuel as [|fuel IH]; intros selected; [done|]. cbn [close_selection].
  assert (cr_entry_hash <$> List.filter (unsupported selected) rows ≡ₚ cr_entry_hash <$> List.filter (unsupported selected) rows') as Hp
    by (apply fmap_Permutation, filter_bool_perm, Hperm).
  destruct (cr_entry_hash <$> List.filter (unsupported selected) rows) as [|h l].
  - by apply Permutation_nil_l in Hp as <-.
  - destruct (cr_entry_hash <$> List.filter (unsupported selected) rows') as [|h' l']; [by apply Permutation_nil_r in Hp|].
    rewrite IH. f_equal. apply set_eq. intros x. rewrite !elem_of_difference, !elem_of_list_to_set. by rewrite Hp.
Qed.

Lemma unforked_perm forked : unforked rows forked ≡ₚ unforked rows' forked.
Proof using Hperm. unfold unforked. by rewrite Hperm. Qed.

Lemma effective_hashes_perm forked history : effective_hashes rows forked history = effective_hashes rows' forked history.
Proof using Hperm. apply set_eq. intros h. rewrite !elem_of_effective_hashes. by setoid_rewrite Hperm. Qed.
End Perm.

(** The rows of a store: the columns repeat the entry, and a hash names one row. *)
Definition stored_rows (rows : list CandidateRow) : Prop :=
  NoDup (cr_entry_hash <$> rows) ∧
  ∀ row, row ∈ rows → va_entry_hash (cr_verified row) = cr_entry_hash row ∧ 0 ≤ ah_seq (va_header (cr_verified row)).

Lemma stored_unforked rows forked :
  stored_rows rows →
  (∀ e, e ∈ cr_verified <$> unforked rows forked → 0 ≤ ah_seq (va_header e)) ∧ hash_unique (cr_verified <$> unforked rows forked).
Proof.
  intros [Hnd Hrows]. unfold hash_unique, unforked. setoid_rewrite list_elem_of_fmap. setoid_rewrite list_elem_of_filter. split.
  - intros e (row & -> & _ & Hrow). by apply Hrows.
  - intros e e' (row & -> & _ & Hrow) (row' & -> & _ & Hrow') Hh. f_equal.
    apply (NoDup_fmap_inj cr_entry_hash rows); [done|done|done|]. destruct (Hrows row Hrow), (Hrows row' Hrow'). congruence.
Qed.

(** C11.  Convergence of acceptance: stores that hold the same rows accept the same entries, fork the
    same entries and derive the same history, in whatever order they hold the rows. *)
Theorem projection_order_independent `{Minicbor} `{Sha256} `{Ed25519} (rows rows' : list CandidateRow) :
  stored_rows rows → rows ≡ₚ rows' → derive_account_projection rows = derive_account_projection rows'.
Proof.
  intros Hrows Hperm. unfold derive_account_projection, derive_account_projection_traced. f_equal.
  rewrite (Permutation_length Hperm). generalize (∅ : gset AccountEntryHash). generalize (S (length rows')).
  intros fuel. induction fuel as [|fuel IH]; intros forked; [done|]. cbn [derive_loop].
  destruct (stored_unforked rows forked Hrows) as [Hseq Hu].
  rewrite (fold_traced_same _ (cr_verified <$> unforked rows' forked) Hseq Hu).
  2: { intros e. by rewrite (unforked_perm rows rows' Hperm forked). }
  destruct (fold_account_traced _ _) as [[history t]|]; [|done]. cbn [mbind option_bind].
  rewrite (effective_hashes_perm rows rows' Hperm), (select_perm rows rows' Hperm).
  unfold close_selection_over_authority. rewrite (close_selection_perm rows rows' Hperm).
  destruct (close_selection _ _ _) as [accepted|]; [|done]. cbn [mbind option_bind]. case_bool_decide; [done|]. apply IH.
Qed.

(** ** Witnesses

    The rows of the example account, and a second origin of the second device's chain. *)

Definition wit_third_key : bytes := verifying_key (replicate 32 x0a).
Definition wit_fork : VerifiedAccountEntry :=
  wit_entry wit_second_device (wit_hash x05) 0 None (Some (wit_hash x02)) 2
    (DeviceAdd (sha256 wit_third_key) wit_third_key wit_x Member None).
Definition wit_rows : list CandidateRow := evidence_row <$> wit_entries ++ [wit_fork].

Lemma wit_rows_stored : stored_rows wit_rows.
Proof.
  split; [by apply (bool_decide_unpack _); vm_compute|]. apply Forall_forall. repeat constructor; simpl; lia.
Qed.

(** The entry with the greater hash at the slot is forked, and the removal of the founder is not. *)
Definition wit_forked : bool :=
  match derive_account_projection wit_rows with
  | Some p => bool_decide (ap_forked p = {[wit_hash x05]}) && bool_decide (wit_hash x03 ∈ ap_accepted p)
  | None => false
  end.

Lemma projection_coherent_witness :
  wit_forked = true ∧ ∃ p, derive_account_projection wit_rows = Some p ∧
    ∀ row authority, row ∈ wit_rows → cr_entry_hash row ∈ ap_accepted p →
      ah_authority_ref (va_header (cr_verified row)) = Some authority → authority ∈ ap_accepted p.
Proof.
  split; [vm_compute; reflexivity|].
  destruct (projection_coherent wit_rows (proj1 wit_rows_stored)) as (p & Hp & _ & _ & _ & _ & Ha). exact (ex_intro _ p (conj Hp Ha)).
Defined.

Lemma projection_order_independent_witness :
  derive_account_projection wit_rows = derive_account_projection (reverse wit_rows).
Proof.
  apply (projection_order_independent wit_rows (reverse wit_rows) wit_rows_stored). symmetry. apply reverse_Permutation.
Defined.
