(* ===== verification/Annex.v ===== *)
(** * Annex payloads ([account/annex/ops.rs])

    The third log of an account carries what never folds: the coverage claim of a snapshot and the
    views a revocation names.  The wire of a snapshot has a format version, and the decoder interprets
    exactly one, retains any later one and refuses none that is well framed. *)

From S2P Require Import Prelude Cbor Minicbor Hash Op Device Entry Stream Branch Envelope Candidate AccountOps FoldTypes Snapshot AuthStore SecretsOps ControlV2 Fold AccountProjection.

Local Open Scope Z_scope.

(** ** Data *)

Definition SNAPSHOT : Z := 0.
Definition VIEW_MANIFEST : Z := 1.
Definition SNAPSHOT_STATE_FORMAT_V1 : Z := 1.
Definition SNAPSHOT_TARGETS_MAX : Z := 256.
Definition SNAPSHOT_COVERED_MAX : Z := 1024.
Definition CONTENT_LOG_ID : Z := 2.

#[export] Instance CoveredWatermark_eq_dec : EqDecision CoveredWatermark.
Proof. solve_decision. Defined.

Record SnapshotTarget : Type := mkSnapshotTarget {
  st_log_id : Z;
  st_stream_id : option StreamId;
  st_subject_account_id : option AccountId;
  st_folded_state_hash : bytes;
  st_covered : list CoveredWatermark;
}.

#[export] Instance SnapshotTarget_eq_dec : EqDecision SnapshotTarget.
Proof. solve_decision. Defined.

Inductive AnnexOp : Type :=
| AnnexSnapshot (state_format_version moderation_epoch : Z) (targets : list SnapshotTarget)
| AnnexViewManifest (view : ViewManifest).

Inductive DecodedAnnexOp : Type :=
| AnnexKnown (op : AnnexOp)
| UnknownTag (entry_type : Z) (bs : bytes)
| FutureFormat (state_format_version : Z) (bs : bytes).

Definition annex_entry_type_of (op : AnnexOp) : Z :=
  match op with AnnexSnapshot _ _ _ => SNAPSHOT | AnnexViewManifest _ => VIEW_MANIFEST end.

(** ** Format 1 *)

Definition check_reserved_epoch (moderation_epoch : Z) : result CborError unit :=
  if bool_decide (moderation_epoch ≠ 0) then Err (Message "moderation_epoch is reserved and must be 0 at snapshot state format 1")
  else Ok tt.

Definition check_qualification (log_id : Z) (has_stream has_account : bool) : result CborError unit :=
  if bool_decide (log_id = CONTROL_LOG) || bool_decide (log_id = SECRETS_LOG) then
    if has_stream || has_account then Err (Message "snapshot target for an account log must not carry stream_id/account_id") else Ok tt
  else if bool_decide (log_id = CONTENT_LOG_ID) then
    if negb has_stream || negb has_account then Err (Message "snapshot target for the content log requires stream_id and account_id") else Ok tt
  else Err (Message "snapshot target names an undefined log_id").

Definition has {A} (o : option A) : bool := match o with Some _ => true | None => false end.

Definition ZERO_ID : bytes := replicate 32 x00.
Definition target_key (target : SnapshotTarget) : Z * bytes * bytes :=
  (st_log_id target, default ZERO_ID (st_stream_id target), default ZERO_ID (st_subject_account_id target)).

Definition canonical_covered : list CoveredWatermark → result CborError (list CoveredWatermark) :=
  canonical_cuts cw_device_fingerprint SNAPSHOT_COVERED_MAX
    "snapshot covered has conflicting entries for one device_fingerprint" "snapshot covered exceeds the bound".

Definition canonical_target (target : SnapshotTarget) : result CborError SnapshotTarget :=
  _ ← check_qualification (st_log_id target) (has (st_stream_id target)) (has (st_subject_account_id target));
  covered ← canonical_covered (st_covered target);
  Ok (mkSnapshotTarget (st_log_id target) (st_stream_id target) (st_subject_account_id target) (st_folded_state_hash target) covered).

Definition canonical_targets (targets : list SnapshotTarget) : result CborError (list SnapshotTarget) :=
  sorted ← mapM canonical_target targets;
  canonical_cuts target_key SNAPSHOT_TARGETS_MAX
    "snapshot targets has conflicting entries for one log" "snapshot targets exceeds the bound" sorted.

Definition v1_canonicalize (op : AnnexOp) : result CborError AnnexOp :=
  match op with
  | AnnexSnapshot version epoch targets =>
      if bool_decide (version ≠ SNAPSHOT_STATE_FORMAT_V1) then Err (Message "this binary authors only snapshot state format 1")
      else _ ← check_reserved_epoch epoch; targets ← canonical_targets targets; Ok (AnnexSnapshot version epoch targets)
  | AnnexViewManifest _ => Err (Message "snapshot state format 1 encodes only the snapshot tag")
  end.

Section Codec.
Context `{Minicbor} `{Sha256}.

Definition put_watermark (w : CoveredWatermark) : bytes := put_cut_row (cw_device_fingerprint w) (cw_seq w) (cw_entry_hash w).

Definition put_target (target : SnapshotTarget) : bytes :=
  put_array 5 ++ put_u8 (st_log_id target) ++ encode_opt_b32 (st_stream_id target) ++
  encode_opt_b32 (st_subject_account_id target) ++ put_bytes (st_folded_state_hash target) ++
  put_array (len (st_covered target)) ++ mjoin (put_watermark <$> st_covered target).

Definition v1_bytes (version epoch : Z) (targets : list SnapshotTarget) : bytes :=
  put_array 3 ++ put_u32 version ++ put_u64 epoch ++ put_array (len targets) ++ mjoin (put_target <$> targets).

Definition v1_encode_canonical (op : AnnexOp) : result CborError bytes :=
  match op with
  | AnnexSnapshot version epoch targets => Ok (v1_bytes version epoch targets)
  | AnnexViewManifest _ => Err (Message "snapshot state format 1 encodes only the snapshot tag")
  end.

Definition decode_covered : Decoder (list CoveredWatermark) :=
  decode_keyed_rows
    (decode_cut_row mkCoveredWatermark "covered device_fingerprint" "covered entry_hash" "snapshot covered not sorted-unique by device")
    SNAPSHOT_COVERED_MAX "snapshot covered exceeds the bound".

Definition decode_target (prev : option (Z * bytes * bytes)) : Decoder ((Z * bytes * bytes) * SnapshotTarget) :=
  _ ← expect_array 5;
  log_id ← d_u8;
  stream_id ← decode_opt_b32 "snapshot target stream_id";
  subject_account_id ← decode_opt_b32 "snapshot target account_id";
  _ ← lift (check_qualification log_id (has stream_id) (has subject_account_id));
  folded_state_hash ← d_fixed 32 "folded_state_hash";
  covered ← decode_covered;
  let target := mkSnapshotTarget log_id stream_id subject_account_id folded_state_hash covered in
  if match prev with Some p => bool_decide (cle (target_key target) p) | None => false end
  then fail (Message "snapshot targets not sorted-unique") else mret (target_key target, target).

Definition v1_decode : Decoder AnnexOp :=
  _ ← expect_array 3;
  version ← d_u32;
  epoch ← d_u64;
  _ ← lift (check_reserved_epoch epoch);
  targets ← decode_keyed_rows decode_target SNAPSHOT_TARGETS_MAX "snapshot targets exceeds the bound";
  mret (AnnexSnapshot version epoch targets).

(** ** The version boundary *)

(** The anyhow errors of the manifest become codec messages. *)
Definition manifest_error {A} (m : result AnyError A) : result CborError A := map_err (fun _ => Message "view manifest") m.

Definition annex_encode (op : AnnexOp) : result CborError bytes :=
  match op with
  | AnnexSnapshot _ _ _ => op ← v1_canonicalize op; v1_encode_canonical op
  | AnnexViewManifest view => manifest_error (manifest_encode view)
  end.

Definition peek_version : Decoder Z :=
  n ← expect_definite_len;
  if bool_decide (n = 0) then fail (Message "snapshot payload carries no state_format_version") else d_u32.

Definition peek_state_format_version (bs : bytes) : result CborError Z :=
  _ ← require_canonical_cbor bs; run peek_version bs.

Definition annex_decode (entry_type : Z) (bs : bytes) : result CborError DecodedAnnexOp :=
  if bool_decide (entry_type = VIEW_MANIFEST) then
    view ← manifest_error (decode_manifest bs); Ok (AnnexKnown (AnnexViewManifest view))
  else if bool_decide (entry_type ≠ SNAPSHOT) then
    _ ← require_canonical_cbor bs; _ ← run expect_definite_len bs; Ok (UnknownTag entry_type bs)
  else
    version ← peek_state_format_version bs;
    if bool_decide (version < SNAPSHOT_STATE_FORMAT_V1) then Err (Message "snapshot state_format_version 0 is reserved")
    else if bool_decide (version ≠ SNAPSHOT_STATE_FORMAT_V1) then Ok (FutureFormat version bs)
    else
      op ← run v1_decode bs;
      again ← v1_encode_canonical op;
      if bool_decide (again ≠ bs) then Err (Message "annex op payload is not canonical") else Ok (AnnexKnown op).

Definition validate_storable_annex_payload (entry_type : Z) (payload : bytes) : result CborError unit :=
  _ ← annex_decode entry_type payload; Ok tt.
End Codec.

(** ** Widths of the types, and canonical form *)

Definition watermark_ok (w : CoveredWatermark) : Prop :=
  hash_ok (cw_device_fingerprint w) ∧ 0 ≤ cw_seq w ≤ u64_max ∧ hash_ok (cw_entry_hash w).
Definition target_ok (t : SnapshotTarget) : Prop :=
  0 ≤ st_log_id t ≤ u8_max ∧ opt_ok hash_ok (st_stream_id t) ∧ opt_ok hash_ok (st_subject_account_id t) ∧
  hash_ok (st_folded_state_hash t) ∧ Forall watermark_ok (st_covered t).

(** An account log is named alone, the content log with its stream and account; devices ascend. *)
Definition target_canonical (t : SnapshotTarget) : Prop :=
  check_qualification (st_log_id t) (has (st_stream_id t)) (has (st_subject_account_id t)) = Ok tt ∧
  cuts_canonical cw_device_fingerprint SNAPSHOT_COVERED_MAX (st_covered t).
Definition targets_canonical (targets : list SnapshotTarget) : Prop :=
  Forall target_canonical targets ∧ cuts_canonical target_key SNAPSHOT_TARGETS_MAX targets.

Lemma check_qualification_ok log_id s a :
  check_qualification log_id s a = Ok tt ↔
  (log_id = CONTROL_LOG ∨ log_id = SECRETS_LOG) ∧ s = false ∧ a = false ∨ log_id = CONTENT_LOG_ID ∧ s = true ∧ a = true.
Proof.
  unfold check_qualification. repeat case_bool_decide; subst; destruct s, a; simpl; naive_solver.
Qed.

Lemma canonical_target_Ok t t' :
  canonical_target t = Ok t' →
  target_canonical t' ∧ target_key t' = target_key t ∧ (∀ w, w ∈ st_covered t' ↔ w ∈ st_covered t) ∧ (target_ok t → target_ok t').
Proof.
  unfold canonical_target. intros Hc. inv_ok. destruct x.
  match goal with H : canonical_covered _ = Ok _ |- _ => pose proof (canonical_cuts_Ok _ _ _ _ _ _ H) as [Hcan Hin];
    pose proof (canonical_cuts_Forall _ _ _ _ _ _ watermark_ok H) as Hall end.
  split_and!; [by split|done|done|]. intros (? & ? & ? & ? & ?). unfold target_ok. simpl. split_and!; try done; [lia|lia|by apply Hall].
Qed.

Lemma canonical_target_id t : target_canonical t → canonical_target t = Ok t.
Proof.
  intros [Hq Hc]. unfold canonical_target. rewrite Hq. simpl. unfold canonical_covered.
  rewrite canonical_cuts_id by done. by destruct t.
Qed.

Lemma mapM_result {E A B} (f : A → result E B) l k : mapM f l = Ok k ↔ Forall2 (fun x y => f x = Ok y) l k.
Proof.
  split.
  - revert k. induction l as [|x l IH]; intros k Hk; simpl in Hk; [injection Hk as <-; constructor|]. inv_ok. constructor; auto.
  - induction 1 as [|x y l k Hx _ IH]; [done|]. simpl. rewrite Hx. simpl. by rewrite IH.
Qed.

Lemma canonical_targets_Ok targets out :
  canonical_targets targets = Ok out → targets_canonical out ∧ (Forall target_ok targets → Forall target_ok out).
Proof.
  unfold canonical_targets. intros Hc. inv_ok. rename x into sorted.
  match goal with H : mapM _ _ = _ |- _ => apply mapM_result in H; rename H into Hm end.
  pose proof (canonical_cuts_Ok _ _ _ _ _ _ Hc) as [Hcan Hin].
  assert (∀ t', t' ∈ sorted → ∃ t, t ∈ targets ∧ canonical_target t = Ok t') as Hback.
  { intros t' Ht'. apply list_elem_of_lookup in Ht' as [i Hi]. destruct (Forall2_lookup_r _ _ _ _ _ Hm Hi) as (t & Ht & Heq).
    exists t. split; [by eapply list_elem_of_lookup_2|done]. }
  split; [split; [|done]|].
  - apply Forall_forall. intros t' Ht'%Hin. destruct (Hback t' Ht') as (t & _ & Ht). apply (canonical_target_Ok _ _ Ht).
  - intros Hok. apply Forall_forall. intros t' Ht'%Hin. destruct (Hback t' Ht') as (t & Hin' & Ht).
    apply canonical_target_Ok in Ht as (_ & _ & _ & Hk). apply Hk. rewrite Forall_forall in Hok. by apply Hok.
Qed.

Lemma canonical_targets_id targets : targets_canonical targets → canonical_targets targets = Ok targets.
Proof.
  intros [Hall Hc]. unfold canonical_targets. rewrite (proj2 (mapM_result _ _ targets)); [exact (canonical_cuts_id _ _ _ _ _ Hc)|].
  apply Forall2_same_length_lookup_2; [done|]. intros i t t' Ht Ht'. rewrite Ht in Ht'. injection Ht' as <-.
  rewrite Forall_lookup in Hall. eauto using canonical_target_id.
Qed.

(** ** The wire of format 1 *)

Section Wire.
Context `{MinicborLaws} `{Sha256}.

Definition watermark_item (w : CoveredWatermark) : item :=
  Array [ByteString (cw_device_fingerprint w); Uint (cw_seq w); ByteString (cw_entry_hash w)].
Definition target_item (t : SnapshotTarget) : item :=
  Array [Uint (st_log_id t); opt_bytes_item (st_stream_id t); opt_bytes_item (st_subject_account_id t);
         ByteString (st_folded_state_hash t); Array (watermark_item <$> st_covered t)].
Definition v1_item (version epoch : Z) (targets : list SnapshotTarget) : item :=
  Array [Uint version; Uint epoch; Array (target_item <$> targets)].

(** A fixed number of writes after an array header. *)
Lemma put_items (l : list item) : len l ≤ u64_max → put_array (len l) ++ mjoin (ser <$> l) = ser (Array l).
Proof using All. apply put_array_ser. Qed.

Lemma put_watermark_ser w : watermark_ok w → put_watermark w = ser (watermark_item w).
Proof using All.
  intros (Hd & Hs & Hh). unfold put_watermark, put_cut_row, watermark_item.
  rewrite !put_bytes_ser, put_u64_ser by (done || by apply hash_ok_len).
  rewrite <- put_items by (by vm_compute). cbn [mjoin list_join fmap list_fmap]. by rewrite app_nil_r.
Qed.

Lemma target_covered_len t : target_canonical t → len (st_covered t) ≤ u64_max.
Proof using All. intros [_ [_ Hl]]. unfold SNAPSHOT_COVERED_MAX, u64_max in *. lia. Qed.

Lemma put_target_ser t : target_ok t → target_canonical t → put_target t = ser (target_item t).
Proof using All.
  intros (Hl & Hs & Ha & Hh & Hc) Hcan. unfold put_target, target_item. rewrite <- put_items by (by vm_compute).
  cbn [mjoin list_join fmap list_fmap]. rewrite app_nil_r. unfold encode_opt_b32.
  rewrite put_u8_ser, (put_opt_bytes_ser _ Hs), (put_opt_bytes_ser _ Ha), put_bytes_ser by (done || by apply hash_ok_len).
  do 5 f_equal. apply put_rows_ser; [by apply target_covered_len|]. eapply Forall_impl; [exact Hc|]. apply put_watermark_ser.
Qed.

Lemma v1_bytes_ser epoch targets :
  0 ≤ epoch ≤ u64_max → Forall target_ok targets → targets_canonical targets →
  v1_bytes 1 epoch targets = ser (v1_item 1 epoch targets).
Proof using All.
  intros He Hok [Hcan [_ Hl]]. unfold v1_bytes, v1_item. rewrite <- put_items by (by vm_compute).
  cbn [mjoin list_join fmap list_fmap]. rewrite app_nil_r, put_u32_ser, put_u64_ser by (done || by vm_compute).
  do 3 f_equal. apply put_rows_ser; [unfold SNAPSHOT_TARGETS_MAX, u64_max in *; lia|].
  apply Forall_forall. intros t Ht. rewrite Forall_forall in Hok, Hcan. apply put_target_ser; auto.
Qed.

Lemma watermark_item_wf w : watermark_ok w → item_wf (watermark_item w).
Proof using All.
  intros (? & ? & ?). apply wf_array; [by vm_compute|]. repeat apply Forall_cons_2; try done; [by apply wf_bytes, hash_ok_len|by apply wf_uint|by apply wf_bytes, hash_ok_len].
Qed.

Lemma target_item_wf t : target_ok t → target_canonical t → item_wf (target_item t).
Proof using All.
  intros (? & ? & ? & ? & Hc) Hcan. apply wf_array; [by vm_compute|].
  repeat apply Forall_cons_2; try done; [apply wf_uint; unfold u8_max, u64_max in *; lia|by apply opt_item_flat|by apply opt_item_flat
    |by apply wf_bytes, hash_ok_len|].
  apply wf_array; [rewrite len_fmap; by apply target_covered_len|]. apply Forall_fmap. eapply Forall_impl; [exact Hc|]. apply watermark_item_wf.
Qed.

Lemma v1_item_wf epoch targets :
  0 ≤ epoch ≤ u64_max → Forall target_ok targets → targets_canonical targets → item_wf (v1_item 1 epoch targets).
Proof using All.
  intros He Hok [Hcan [_ Hl]]. apply wf_array; [by vm_compute|]. repeat apply Forall_cons_2; try done; [by apply wf_uint; vm_compute|by apply wf_uint|].
  apply wf_array; [rewrite len_fmap; unfold SNAPSHOT_TARGETS_MAX, u64_max in *; lia|]. apply Forall_fmap, Forall_forall. intros t Ht.
  rewrite Forall_forall in Hok, Hcan. apply target_item_wf; auto.
Qed.

Lemma v1_height epoch targets : (height (v1_item 1 epoch targets) ≤ 6)%nat.
Proof using All.
  unfold v1_item. apply (height_array 5). repeat apply Forall_cons_2; [simpl; lia|simpl; lia| |done].
  apply (height_array 4), Forall_fmap, Forall_true. intros t. apply (height_array 3).
  repeat apply Forall_cons_2; [simpl; lia|destruct (st_stream_id t); simpl; lia|destruct (st_subject_account_id t); simpl; lia|simpl; lia| |done].
  apply (height_array 2), Forall_fmap, Forall_true. intros w. apply (height_array 1). repeat constructor.
Qed.

(** *** Reading back *)

Lemma reads_covered covered :
  Forall watermark_ok covered → cuts_canonical cw_device_fingerprint SNAPSHOT_COVERED_MAX covered →
  reads decode_covered (put_array (len covered) ++ mjoin (put_watermark <$> covered)) covered.
Proof using All.
  intros Hok Hc. apply (reads_cuts mkCoveredWatermark cw_device_fingerprint cw_entry_hash cw_seq); try done. by intros [].
Qed.

Lemma reads_target prev t :
  target_ok t ∧ target_canonical t → (∀ p, prev = Some p → clt p (target_key t)) →
  reads (decode_target prev) (put_target t) (target_key t, t).
Proof using All.
  intros [(Hl & Hs & Ha & Hh & Hc) [Hq Hcan]] Hp. unfold decode_target, put_target.
  eapply reads_bind; [apply reads_expect_array; unfold u64_max; lia|]. eapply reads_bind; [by apply reads_u8|].
  eapply reads_bind; [by apply reads_opt_b32|]. eapply reads_bind; [by apply reads_opt_b32|].
  rewrite <- (app_nil_l (put_bytes _ ++ _)). eapply reads_bind; [by apply reads_lift|].
  eapply reads_bind; [by apply reads_b32|]. eapply reads_bind_nil; [by apply reads_covered|].
  match goal with |- (if ?b then _ else _) = _ => assert (b = false) as -> end.
  { destruct prev as [p|]; [|done]. apply bool_decide_eq_false, not_cle_clt. destruct t. by apply Hp. }
  by destruct t.
Qed.

Lemma reads_v1 targets :
  Forall target_ok targets → targets_canonical targets → reads v1_decode (v1_bytes 1 0 targets) (AnnexSnapshot 1 0 targets).
Proof using All.
  intros Hok [Hcan Hc]. unfold v1_decode, v1_bytes. eapply reads_bind; [apply reads_expect_array; unfold u64_max; lia|].
  eapply reads_bind; [by apply reads_u32; vm_compute|]. eapply reads_bind; [by apply reads_u64; vm_compute|].
  rewrite <- (app_nil_l (put_array _ ++ _)). eapply reads_bind; [by apply reads_lift|].
  eapply reads_bind_nil; [|done].
  apply (reads_keyed_rows _ put_target target_key (fun t => target_ok t ∧ target_canonical t)); [done| | |done].
  - intros prev t. apply reads_target.
  - apply Forall_forall. intros t Ht. rewrite Forall_forall in Hok, Hcan. auto.
Qed.

(** *** What is decoded *)

Lemma ensures_covered :
  ensures decode_covered (fun l => Forall watermark_ok l ∧ cuts_canonical cw_device_fingerprint SNAPSHOT_COVERED_MAX l).
Proof using All. by apply (ensures_cuts mkCoveredWatermark cw_device_fingerprint). Qed.

Lemma ensures_target prev : ensures (decode_target prev) (keyed_row_after target_key (fun t => target_ok t ∧ target_canonical t) prev).
Proof using All.
  unfold decode_target. eapply ensures_bind; [apply ensures_True|]. intros _ _.
  eapply ensures_bind; [apply ensures_True|]. intros log_id _.
  eapply ensures_bind; [apply ensures_opt_b32|]. intros s Hs. eapply ensures_bind; [apply ensures_opt_b32|]. intros a Ha.
  eapply ensures_bind; [apply ensures_lift|]. intros [] Hq. eapply ensures_bind; [apply ensures_b32|]. intros h Hh.
  eapply ensures_bind; [apply ensures_covered|]. intros c [Hc Hcan].
  destruct (match prev with Some _ => _ | None => _ end) eqn:Hprev; [apply ensures_fail|].
  apply ensures_ret. split; [done|]. split; [|by apply row_key_check]. split; [|done].
  split_and!; simpl; try done; apply check_qualification_ok in Hq; unfold CONTROL_LOG, SECRETS_LOG, CONTENT_LOG_ID, u8_max in *; lia.
Qed.

Lemma ensures_v1 :
  ensures v1_decode (fun op => ∃ version targets, op = AnnexSnapshot version 0 targets ∧ Forall target_ok targets ∧ targets_canonical targets).
Proof using All.
  unfold v1_decode. eapply ensures_bind; [apply ensures_True|]. intros _ _. eapply ensures_bind; [apply ensures_True|]. intros v _.
  eapply ensures_bind; [apply ensures_True|]. intros e _. eapply ensures_bind; [apply ensures_lift|]. intros [] He.
  unfold check_reserved_epoch in He. case_bool_decide as Hz; [done|]. subst e.
  eapply ensures_bind; [apply ensures_keyed_rows, ensures_target|]. intros targets [Hok Hc]. apply ensures_ret. exists v, targets.
  split_and!; [done|..|split; [|done]]; (eapply Forall_impl; [exact Hok|]; by intros t [? ?]).
Qed.

(** The framing shared by every format: the version is the first item of the array. *)
Lemma peek_version_iff bs v :
  peek_state_format_version bs = Ok v ↔
  require_canonical_cbor bs = Ok tt ∧ 0 ≤ v ≤ u32_max ∧ ∃ items, item_wf (Array (Uint v :: items)) ∧ bs = ser (Array (Uint v :: items)).
Proof using All.
  unfold peek_state_format_version. split.
  - intros Hp. inv_ok. match goal with H : require_canonical_cbor _ = Ok ?u |- _ => destruct u; rename H into Hc end. split; [done|].
    apply run_Ok in Hp as [r Hr]. unfold peek_version in Hr. inv_dec.
    match goal with H : expect_definite_len bs = Ok (?n, ?b) |- _ => rename n into n0; rename H into Hlen end.
    case_bool_decide as Hn; [by inv_dec|].
    destruct (canonical_array bs n0 tt x0 Hc) as (l & Hwf & Hl & Hbs & -> & Hmax).
    { unfold expect_array, mbind, Decoder_bind. rewrite Hlen. simpl. by rewrite bool_decide_true. }
    destruct l as [|i l]; [by rewrite <- Hl in Hn|]. apply Forall_cons in Hwf as [Hi Hwf].
    apply next_u32 in Hr as (-> & _ & Hv); [|done]. split; [done|]. exists l. split; [|done].
    constructor; [done|]. by constructor.
  - intros (Hc & Hv & items & Hwf & ->). rewrite Hc. inversion Hwf as [| | | |? Hl Hall| | |]; subst. cbn [mbind result_bind].
    rewrite <- put_items by done. unfold run, peek_version.
    assert (reads expect_definite_len (put_array (len (Uint v :: items))) (len (Uint v :: items))) as Hr
      by by apply reads_array; split; [apply len_nonneg|].
    unfold mbind at 1, Decoder_bind at 1. rewrite Hr.
    assert (len (Uint v :: items) ≠ 0) as Hne by (rewrite len_cons; pose proof (len_nonneg items); lia).
    cbn [mbind result_bind]. rewrite (bool_decide_false _ Hne).
    pose proof (reads_u32 v Hv (mjoin (ser <$> items))) as Hu. rewrite put_u32_ser in Hu by done.
    change (mjoin (ser <$> Uint v :: items)) with (ser (Uint v) ++ mjoin (ser <$> items)). by rewrite Hu.
Qed.

(** The format that is decoded is the one that was peeked at. *)
Lemma v1_decode_peek bs version epoch targets r :
  v1_decode bs = Ok (AnnexSnapshot version epoch targets, r) → run peek_version bs = Ok version.
Proof using Type.
  intros Hd. unfold v1_decode in Hd. inv_dec. simplify_eq.
  match goal with H : expect_array 3 bs = _ |- _ => unfold expect_array in H end. inv_dec.
  case_bool_decide as Hn; [|by inv_dec]. inv_dec. subst. unfold run, peek_version, mbind at 1, Decoder_bind at 1.
  match goal with H : expect_definite_len bs = _ |- _ => rewrite H end. simpl.
  match goal with H : d_u32 _ = _ |- _ => by rewrite H end.
Qed.

(** A payload under the snapshot tag. *)
Lemma snapshot_decode_exact bs d :
  (version ← peek_state_format_version bs;
   if bool_decide (version < SNAPSHOT_STATE_FORMAT_V1) then Err (Message "snapshot state_format_version 0 is reserved")
   else if bool_decide (version ≠ SNAPSHOT_STATE_FORMAT_V1) then Ok (FutureFormat version bs)
   else
     op ← run v1_decode bs;
     again ← v1_encode_canonical op;
     if bool_decide (again ≠ bs) then Err (Message "annex op payload is not canonical") else Ok (AnnexKnown op)) = Ok d ↔
  match d with
  | AnnexKnown (AnnexSnapshot version epoch targets) =>
      SNAPSHOT = SNAPSHOT ∧ version = 1 ∧ epoch = 0 ∧ Forall target_ok targets ∧ targets_canonical targets ∧ bs = v1_bytes 1 0 targets
  | FutureFormat version bs' => SNAPSHOT = SNAPSHOT ∧ bs' = bs ∧ 1 < version ≤ u32_max ∧ require_canonical_cbor bs = Ok tt ∧
      ∃ items, item_wf (Array (Uint version :: items)) ∧ bs = ser (Array (Uint version :: items))
  | _ => False
  end.
Proof using All.
  split.
  - intros Hd. apply result_bind_Ok in Hd as (v & Hp & Hd). pose proof Hp as Hrun. unfold peek_state_format_version in Hrun. inv_ok.
    apply peek_version_iff in Hp as (Hc & Hv & Hitems). unfold SNAPSHOT_STATE_FORMAT_V1 in *.
    case_bool_decide; [done|]. case_bool_decide as Hne; inv_ok; [split_and!; (done || lia)|]. subst v.
    match goal with H : run v1_decode bs = Ok ?o |- _ => apply run_Ok in H as [r Hr]; rename o into op end.
    pose proof Hr as (version & targets & -> & Hok & Hcan)%ensures_v1. apply v1_decode_peek in Hr. rewrite Hr in Hrun.
    injection Hrun as ->. simpl in *. inv_ok. case_bool_decide as Hb; inv_ok. by split_and!.
  - destruct d as [[v e targets|view]|t' bs'|v bs']; [|done|done|].
    + intros (_ & -> & -> & Hok & Hcan & ->).
      rewrite (proj2 (peek_version_iff (v1_bytes 1 0 targets) 1)).
      * simpl. unfold run. rewrite (reads_end _ _ _ (reads_v1 targets Hok Hcan)). simpl. by rewrite bool_decide_false by tauto.
      * rewrite v1_bytes_ser by done. split_and!; [|done|done|].
        { apply require_canonical_ser; [by apply v1_item_wf|]. etrans; [apply v1_height|unfold MAX_CBOR_DEPTH; lia]. }
        eexists. split; [|done]. by apply v1_item_wf.
    + intros (_ & -> & Hv & Hc & Hitems). rewrite (proj2 (peek_version_iff bs v)) by (split_and!; (done || lia)). simpl.
      unfold SNAPSHOT_STATE_FORMAT_V1. rewrite bool_decide_false by lia. by rewrite bool_decide_true by lia.
Qed.

(** C23.  The annex wire is exact and never refuses what a later version may say: a view manifest and a
    snapshot of format 1 decode exactly from their one canonical encoding, any other tag is retained
    when it is one canonical array, and so is a snapshot of any later format whatever follows its
    version; the reserved version is refused, and one that does not fit 32 bits. *)
Theorem annex_decode_exact (t : Z) (bs : bytes) (d : DecodedAnnexOp) :
  annex_decode t bs = Ok d ↔
  match d with
  | AnnexKnown (AnnexViewManifest view) =>
      t = VIEW_MANIFEST ∧ manifest_ok view ∧ bs = manifest_bytes (vm_checkpoint view) (vm_entries view)
  | AnnexKnown (AnnexSnapshot version epoch targets) =>
      t = SNAPSHOT ∧ version = 1 ∧ epoch = 0 ∧ Forall target_ok targets ∧ targets_canonical targets ∧ bs = v1_bytes 1 0 targets
  | UnknownTag t' bs' => t ≠ VIEW_MANIFEST ∧ t ≠ SNAPSHOT ∧ t' = t ∧ bs' = bs ∧ require_canonical_cbor bs = Ok tt ∧
      ∃ items, item_wf (Array items) ∧ bs = ser (Array items)
  | FutureFormat version bs' => t = SNAPSHOT ∧ bs' = bs ∧ 1 < version ≤ u32_max ∧ require_canonical_cbor bs = Ok tt ∧
      ∃ items, item_wf (Array (Uint version :: items)) ∧ bs = ser (Array (Uint version :: items))
  end.
Proof using All.
  unfold annex_decode. case_bool_decide as Hv; [|case_bool_decide as Hs].
  - unfold manifest_error. split.
    + intros Hd. inv_ok. destruct (decode_manifest bs) as [view|] eqn:Hm; [|done]. simpl in *. inv_ok.
      apply decode_manifest_exact in Hm as [? ?]. by split_and!.
    + destruct d as [[v e targets|view]|t' bs'|v bs']; [intros (-> & _); done| |intros (? & _); done|intros (-> & _); done].
      intros (_ & Hok & ->). by rewrite (proj2 (decode_manifest_exact _ view)).
  - assert ((_ ← require_canonical_cbor bs; _ ← run expect_definite_len bs; Ok (UnknownTag t bs)) =
      (_ ← validate_opaque_array bs; Ok (UnknownTag t bs))) as ->.
    { unfold validate_opaque_array. destruct (require_canonical_cbor bs); [simpl|done]. by destruct (run _ _). }
    split.
    + intros Hd. inv_ok. match goal with H : validate_opaque_array _ = Ok _ |- _ => apply validate_opaque_array_iff in H as [? ?] end.
      by split_and!.
    + destruct d as [[v e targets|view]|t' bs'|v bs']; [intros (-> & _); done|intros (-> & _); done| |intros (-> & _); done].
      intros (_ & _ & -> & -> & Hc). by rewrite (proj2 (validate_opaque_array_iff bs tt) Hc).
  - subst t. etrans; [apply snapshot_decode_exact|].
    destruct d as [[v e targets|view]|t' bs'|v bs']; [done| | |done]; (split; [done|]); intros Hd; [by destruct Hd|by destruct Hd as (_ & Hd & _)].
Qed.
End Wire.

(** A snapshot of the control log with one device. *)
Definition wit_target : SnapshotTarget :=
  mkSnapshotTarget CONTROL_LOG None None (replicate 32 x2a) [mkCoveredWatermark (replicate 32 x01) 5 (replicate 32 x02)].

Lemma annex_decode_exact_witness :
  annex_decode SNAPSHOT (v1_bytes 1 0 [wit_target]) = Ok (AnnexKnown (AnnexSnapshot 1 0 [wit_target])).
Proof.
  apply (annex_decode_exact SNAPSHOT (v1_bytes 1 0 [wit_target])). split_and!; try reflexivity.
  - repeat constructor; by vm_compute.
  - split; [repeat constructor; by vm_compute|split; [repeat constructor|by vm_compute]].
Defined.
