(* ===== verification/AnnexProjection.v ===== *)
(** * The state a snapshot commits to ([account/annex/projection.rs])

    The bytes whose hash a snapshot claims: the whole authority state of a fold, with every collection
    sorted before it is written.  Two states have the same bytes exactly when they agree on everything
    a replica must agree on. *)

From S2P Require Import Prelude Cbor Minicbor Hash Op Device Entry Stream Branch Envelope Candidate AccountOps FoldTypes Snapshot AuthStore ControlV2.

Local Open Scope Z_scope.

Definition PROJECTION_DOMAIN : bytes := lit "rag-rat/account-projection/1".

(** ** The collections, sorted *)

Definition by_key {K V} `{Countable K, Cmp K} (m : gmap K V) : list (K * V) := sort_by_key fst (map_to_list m).

(** [effective_entries], sorted. *)
Definition effective_entry (row : AccountEntryHash * Outcome) : option (AccountEntryHash * Z) :=
  match row.2 with OutEffective auth_epoch => Some (row.1, auth_epoch) | _ => None end.
Definition sorted_effective (h : AccountAuthHistory) : list (AccountEntryHash * Z) :=
  sort_unstable (omap effective_entry (map_to_list (hi_outcomes h))).

Definition cut_order (cut : DeviceCut) : bytes * Z * bytes := (dc_device_fingerprint cut, dc_seq cut, dc_hash cut).
Definition sorted_tombstoned (h : AccountAuthHistory) : list DeviceFingerprint := sort_unstable (elements (hi_tombstoned h)).

Section Encoding.
Context `{Minicbor} `{Sha256}.

Definition put_rows {A} (put : A → bytes) (rows : list A) : bytes := put_array (len rows) ++ mjoin (put <$> rows).

Definition write_window (effective_at : Z) (closed_at : option Z) : bytes :=
  put_array 2 ++ put_u64 effective_at ++ put_opt put_u64 closed_at.

Definition write_boundary (b : AuthorityBoundary) : bytes :=
  match b with
  | BoundaryOpen => put_array 1 ++ put_u8 0
  | BoundaryCut seq hash => put_array 3 ++ put_u8 1 ++ put_u64 seq ++ put_bytes hash
  | BoundaryClosed => put_array 1 ++ put_u8 2
  end.

Definition write_classification (c : AccountClassification) : bytes :=
  match c with
  | Live => put_array 1 ++ put_u8 0
  | Contested depth => put_array 2 ++ put_u8 1 ++ put_u64 (Z.of_nat depth)
  end.

Definition write_effective (row : AccountEntryHash * Z) : bytes := put_array 2 ++ put_bytes row.1 ++ put_u64 row.2.

Definition write_content (row : StreamId * AuthorityBoundary) : bytes := put_array 2 ++ put_bytes row.1 ++ write_boundary row.2.

Definition write_roster (row : RosterRef * RosterFact) : bytes :=
  let '(hash, fact) := row in
  put_array 7 ++ put_bytes hash ++ put_bytes (rr_device_fingerprint (rf_authority fact)) ++
  put_u8 (DeviceRole_as_u8 (rr_current_role (rf_authority fact))) ++ write_window (rf_effective_at fact) (rf_closed_at fact) ++
  write_boundary (rf_control_boundary fact) ++ write_boundary (rf_secrets_boundary fact) ++
  put_rows write_content (by_key (rf_content_boundaries fact)).

Definition write_incarnation (row : OwnerId * OwnerIncarnationFact) : bytes :=
  let '(hash, fact) := row in
  put_array 5 ++ put_bytes hash ++ put_bytes (oa_device_fingerprint (of_authority fact)) ++
  write_window (of_effective_at fact) (of_closed_at fact) ++ write_boundary (of_control_boundary fact) ++
  write_boundary (of_secrets_boundary fact).

Definition write_ownership (row : StreamId * StreamOwnershipFact) : bytes :=
  put_array 3 ++ put_bytes row.1 ++ put_bytes (sf_own_id row.2) ++ put_u64 (sf_effective_at row.2).

Definition write_grant (row : GrantId * GrantFact) : bytes :=
  let '(grant_id, fact) := row in
  put_array 5 ++ put_bytes grant_id ++ put_bytes (ga_stream_id (gf_authority fact)) ++
  put_bytes (ga_grantee_account_id (gf_authority fact)) ++ put_u8 (GrantRole_as_u8 (ga_role (gf_authority fact))) ++
  write_window (gf_effective_at fact) (gf_closed_at fact).

Definition write_grant_cuts (row : GrantId * list DeviceCut) : bytes :=
  put_array 2 ++ put_bytes row.1 ++ put_rows put_device_cut (sort_by_key cut_order row.2).

Definition encoded (h : AccountAuthHistory) : bytes :=
  let f := hi_facts h in
  put_array 11 ++ put_str PROJECTION_DOMAIN ++ write_classification (hi_classification h) ++
  put_opt put_bytes (hi_contested_successor h) ++ put_u64 (hi_effective_count h) ++
  put_rows write_effective (sorted_effective h) ++
  put_rows write_roster (by_key (af_roster_refs f)) ++
  put_rows write_incarnation (by_key (af_owner_incarnations f)) ++
  put_rows write_ownership (by_key (af_stream_ownership f)) ++
  put_rows write_grant (by_key (af_grants f)) ++
  put_rows write_grant_cuts (by_key (af_grant_cuts f)) ++
  put_rows put_bytes (sorted_tombstoned h).

Definition folded_state_hash (h : AccountAuthHistory) : bytes := sha256 (encoded h).
End Encoding.

(** ** Widths of the types *)

Definition u64_ok (n : Z) : Prop := 0 ≤ n ≤ u64_max.
Definition boundary_typed (b : AuthorityBoundary) : Prop :=
  match b with BoundaryCut seq hash => u64_ok seq ∧ hash_ok hash | _ => True end.
Definition map_typed {K V} `{Countable K} (P : K → V → Prop) (m : gmap K V) : Prop := map_Forall P m ∧ Z.of_nat (size m) ≤ u64_max.

Definition roster_typed (f : RosterFact) : Prop :=
  hash_ok (rr_device_fingerprint (rf_authority f)) ∧ u64_ok (rf_effective_at f) ∧ opt_ok u64_ok (rf_closed_at f) ∧
  boundary_typed (rf_control_boundary f) ∧ boundary_typed (rf_secrets_boundary f) ∧
  map_typed (fun s b => hash_ok s ∧ boundary_typed b) (rf_content_boundaries f).
Definition incarnation_typed (f : OwnerIncarnationFact) : Prop :=
  hash_ok (oa_device_fingerprint (of_authority f)) ∧ u64_ok (of_effective_at f) ∧ opt_ok u64_ok (of_closed_at f) ∧
  boundary_typed (of_control_boundary f) ∧ boundary_typed (of_secrets_boundary f).
Definition ownership_typed (f : StreamOwnershipFact) : Prop := hash_ok (sf_own_id f) ∧ u64_ok (sf_effective_at f).
Definition grant_typed (f : GrantFact) : Prop :=
  hash_ok (ga_stream_id (gf_authority f)) ∧ hash_ok (ga_grantee_account_id (gf_authority f)) ∧
  u64_ok (gf_effective_at f) ∧ opt_ok u64_ok (gf_closed_at f).
Definition cuts_typed (cuts : list DeviceCut) : Prop := Forall device_cut_ok cuts ∧ len cuts ≤ u64_max.

Record history_typed (h : AccountAuthHistory) : Prop := {
  ht_depth : match hi_classification h with Contested d => Z.of_nat d ≤ u64_max | Live => True end;
  ht_successor : opt_ok hash_ok (hi_contested_successor h);
  ht_count : u64_ok (hi_effective_count h);
  ht_outcomes : map_typed (fun k o => match o with OutEffective e => hash_ok k ∧ u64_ok e | _ => True end) (hi_outcomes h);
  ht_roster : map_typed (fun r f => hash_ok r ∧ roster_typed f) (af_roster_refs (hi_facts h));
  ht_owners : map_typed (fun o f => hash_ok o ∧ incarnation_typed f) (af_owner_incarnations (hi_facts h));
  ht_ownership : map_typed (fun s f => hash_ok s ∧ ownership_typed f) (af_stream_ownership (hi_facts h));
  ht_grants : map_typed (fun g f => hash_ok g ∧ grant_typed f) (af_grants (hi_facts h));
  ht_cuts : map_typed (fun g c => hash_ok g ∧ cuts_typed c) (af_grant_cuts (hi_facts h));
  ht_tombstoned : set_Forall hash_ok (hi_tombstoned h) ∧ Z.of_nat (size (hi_tombstoned h)) ≤ u64_max;
}.

(** ** The bytes as a data item *)

Definition opt_uint_item (o : option Z) : item := match o with Some n => Uint n | None => Simple 22 end.
Definition window_item (effective_at : Z) (closed_at : option Z) : item := Array [Uint effective_at; opt_uint_item closed_at].
Definition boundary_item (b : AuthorityBoundary) : item :=
  match b with
  | BoundaryOpen => Array [Uint 0]
  | BoundaryCut seq hash => Array [Uint 1; Uint seq; ByteString hash]
  | BoundaryClosed => Array [Uint 2]
  end.
Definition classification_item (c : AccountClassification) : item :=
  match c with Live => Array [Uint 0] | Contested depth => Array [Uint 1; Uint (Z.of_nat depth)] end.
Definition effective_item (row : AccountEntryHash * Z) : item := Array [ByteString row.1; Uint row.2].
Definition content_item (row : StreamId * AuthorityBoundary) : item := Array [ByteString row.1; boundary_item row.2].
Definition roster_item (row : RosterRef * RosterFact) : item :=
  let '(hash, fact) := row in
  Array [ByteString hash; ByteString (rr_device_fingerprint (rf_authority fact));
    Uint (DeviceRole_as_u8 (rr_current_role (rf_authority fact))); window_item (rf_effective_at fact) (rf_closed_at fact);
    boundary_item (rf_control_boundary fact); boundary_item (rf_secrets_boundary fact);
    Array (content_item <$> by_key (rf_content_boundaries fact))].
Definition incarnation_item (row : OwnerId * OwnerIncarnationFact) : item :=
  let '(hash, fact) := row in
  Array [ByteString hash; ByteString (oa_device_fingerprint (of_authority fact));
    window_item (of_effective_at fact) (of_closed_at fact); boundary_item (of_control_boundary fact);
    boundary_item (of_secrets_boundary fact)].
Definition ownership_item (row : StreamId * StreamOwnershipFact) : item :=
  Array [ByteString row.1; ByteString (sf_own_id row.2); Uint (sf_effective_at row.2)].
Definition grant_item (row : GrantId * GrantFact) : item :=
  let '(grant_id, fact) := row in
  Array [ByteString grant_id; ByteString (ga_stream_id (gf_authority fact)); ByteString (ga_grantee_account_id (gf_authority fact));
    Uint (GrantRole_as_u8 (ga_role (gf_authority fact))); window_item (gf_effective_at fact) (gf_closed_at fact)].
Definition device_cut_item (c : DeviceCut) : item := Array [ByteString (dc_device_fingerprint c); Uint (dc_seq c); ByteString (dc_hash c)].
Definition grant_cuts_item (row : GrantId * list DeviceCut) : item :=
  Array [ByteString row.1; Array (device_cut_item <$> sort_by_key cut_order row.2)].

Definition projection_item (h : AccountAuthHistory) : item :=
  let f := hi_facts h in
  Array [TextString PROJECTION_DOMAIN; classification_item (hi_classification h); opt_bytes_item (hi_contested_successor h);
    Uint (hi_effective_count h); Array (effective_item <$> sorted_effective h); Array (roster_item <$> by_key (af_roster_refs f));
    Array (incarnation_item <$> by_key (af_owner_incarnations f)); Array (ownership_item <$> by_key (af_stream_ownership f));
    Array (grant_item <$> by_key (af_grants f)); Array (grant_cuts_item <$> by_key (af_grant_cuts f));
    Array (ByteString <$> sorted_tombstoned h)].

(** ** What the bytes bind *)

(** Agreement on everything the projection covers; the cuts of a grant up to their order. *)
Record same_projection (h h' : AccountAuthHistory) : Prop := {
  sp_classification : hi_classification h = hi_classification h';
  sp_successor : hi_contested_successor h = hi_contested_successor h';
  sp_count : hi_effective_count h = hi_effective_count h';
  sp_effective hash epoch : hi_outcomes h !! hash = Some (OutEffective epoch) ↔ hi_outcomes h' !! hash = Some (OutEffective epoch);
  sp_roster : af_roster_refs (hi_facts h) = af_roster_refs (hi_facts h');
  sp_owners : af_owner_incarnations (hi_facts h) = af_owner_incarnations (hi_facts h');
  sp_ownership : af_stream_ownership (hi_facts h) = af_stream_ownership (hi_facts h');
  sp_grants : af_grants (hi_facts h) = af_grants (hi_facts h');
  sp_cuts grant_id : option_Forall2 (≡ₚ) (af_grant_cuts (hi_facts h) !! grant_id) (af_grant_cuts (hi_facts h') !! grant_id);
  sp_tombstoned : hi_tombstoned h = hi_tombstoned h';
}.

(** *** Sorting makes the order of a map irrelevant *)

Lemma sort_by_key_inj {A K} `{TotalCmp K} (key : A → K) l l' : sort_by_key key l = sort_by_key key l' → l ≡ₚ l'.
Proof. intros Heq. by rewrite <- (sort_by_key_perm key l), Heq, sort_by_key_perm. Qed.

Lemma sort_by_key_ext {A K} `{TotalCmp K} (key : A → K) l l' :
  (∀ x y, key x = key y → x = y) → l ≡ₚ l' → sort_by_key key l = sort_by_key key l'.
Proof. intros Hinj Hl. apply (fmap_inj_on key); [by auto|]. by apply sort_by_key_keys. Qed.

Lemma sort_unstable_ext {A} `{TotalCmp A} (l l' : list A) : l ≡ₚ l' ↔ sort_unstable l = sort_unstable l'.
Proof. split; [by apply sort_by_key_ext|apply sort_by_key_inj]. Qed.

Lemma by_key_inj {K V} `{Countable K} `{TotalCmp K} (m m' : gmap K V) : by_key m = by_key m' → m = m'.
Proof. intros Heq. by apply map_to_list_inj, (sort_by_key_inj fst). Qed.

Lemma by_key_fmap {K V W} `{Countable K} `{TotalCmp K} (f : V → W) (m : gmap K V) : by_key (f <$> m) = prod_map id f <$> by_key m.
Proof. unfold by_key. rewrite map_to_list_fmap. by apply sort_by_key_fmap. Qed.

Lemma elem_of_by_key {K V} `{Countable K} `{TotalCmp K} (m : gmap K V) k v : (k, v) ∈ by_key m ↔ m !! k = Some v.
Proof. unfold by_key. by rewrite sort_by_key_perm, elem_of_map_to_list. Qed.

Lemma len_by_key {K V} `{Countable K} `{TotalCmp K} (m : gmap K V) : len (by_key m) = Z.of_nat (size m).
Proof. unfold by_key. rewrite sort_by_key_len. unfold len. by rewrite length_map_to_list. Qed.

Lemma elem_of_effective h hash epoch : (hash, epoch) ∈ sorted_effective h ↔ hi_outcomes h !! hash = Some (OutEffective epoch).
Proof.
  unfold sorted_effective, sort_unstable. rewrite sort_by_key_perm, list_elem_of_omap. split.
  - intros ([k o] & Hk%elem_of_map_to_list & He). unfold effective_entry in He. simpl in He. destruct o; by simplify_eq.
  - intros Hh. exists (hash, OutEffective epoch). by rewrite elem_of_map_to_list.
Qed.

Lemma omap_le {A B} (f : A → option B) (l : list A) : (length (omap f l) ≤ length l)%nat.
Proof. induction l as [|x l IH]; [done|]. simpl. change (omap f l) with (list_omap A B f l) in IH. destruct (f x); simpl; lia. Qed.

Lemma effective_nodup h : NoDup (omap effective_entry (map_to_list (hi_outcomes h))).
Proof.
  apply (NoDup_fmap_1 fst), (NoDup_omap_key fst); [|apply NoDup_fst_map_to_list].
  intros [k o] [k' e]. unfold effective_entry. simpl. destruct o; naive_solver.
Qed.

Lemma sorted_effective_inj h h' :
  sorted_effective h = sorted_effective h' ↔
  ∀ hash epoch, hi_outcomes h !! hash = Some (OutEffective epoch) ↔ hi_outcomes h' !! hash = Some (OutEffective epoch).
Proof.
  split; [intros Heq hash epoch; by rewrite <- !elem_of_effective, Heq|]. intros Hall.
  apply sort_unstable_ext, NoDup_Permutation; [apply effective_nodup..|]. intros [k e].
  pose proof (elem_of_effective h k e) as H1. pose proof (elem_of_effective h' k e) as H2.
  unfold sorted_effective, sort_unstable in H1, H2. rewrite sort_by_key_perm in H1, H2. by rewrite H1, H2.
Qed.

Lemma sorted_tombstoned_inj h h' : sorted_tombstoned h = sorted_tombstoned h' ↔ hi_tombstoned h = hi_tombstoned h'.
Proof.
  split; [|unfold sorted_tombstoned; by intros ->]. intros Heq%sort_unstable_ext. apply set_eq. intros x.
  by rewrite <- !elem_of_elements, Heq.
Qed.

Lemma cut_order_inj x y : cut_order x = cut_order y → x = y.
Proof. destruct x, y. unfold cut_order. simpl. congruence. Qed.

Definition sorted_cuts (m : gmap GrantId (list DeviceCut)) : gmap GrantId (list DeviceCut) := sort_by_key cut_order <$> m.

Lemma sorted_cuts_inj m m' : sorted_cuts m = sorted_cuts m' ↔ ∀ g, option_Forall2 (≡ₚ) (m !! g) (m' !! g).
Proof.
  unfold sorted_cuts. split.
  - intros Heq g. pose proof (f_equal (lookup g) Heq) as Hg. rewrite !lookup_fmap in Hg.
    destruct (m !! g), (m' !! g); simplify_eq/=; constructor. by apply (sort_by_key_inj cut_order).
  - intros Hall. apply map_eq. intros g. rewrite !lookup_fmap. destruct (Hall g) as [x y Hxy|]; [|done]. simpl. f_equal.
    apply sort_by_key_ext; [apply cut_order_inj|done].
Qed.

(** *** The items determine the rows *)

Lemma opt_uint_item_inj o o' : opt_uint_item o = opt_uint_item o' → o = o'.
Proof. destruct o, o'; simpl; congruence. Qed.
Lemma boundary_item_inj b b' : boundary_item b = boundary_item b' → b = b'.
Proof. destruct b, b'; simpl; congruence. Qed.
Lemma classification_item_inj c c' : classification_item c = classification_item c' → c = c'.
Proof. destruct c, c'; simpl; try congruence. intros [= ?%Nat2Z.inj]. by subst. Qed.
Lemma opt_bytes_item_inj o o' : opt_bytes_item o = opt_bytes_item o' → o = o'.
Proof. destruct o, o'; simpl; congruence. Qed.
Lemma DeviceRole_as_u8_inj r r' : DeviceRole_as_u8 r = DeviceRole_as_u8 r' → r = r'.
Proof. by destruct r, r'. Qed.
Lemma GrantRole_as_u8_inj r r' : GrantRole_as_u8 r = GrantRole_as_u8 r' → r = r'.
Proof. by destruct r, r'. Qed.

Lemma rows_inj {A} (f : A → item) (l l' : list A) : (∀ x y, f x = f y → x = y) → f <$> l = f <$> l' → l = l'.
Proof. intros Hf. apply fmap_inj_on. auto. Qed.

Lemma content_item_inj x y : content_item x = content_item y → x = y.
Proof. destruct x, y. unfold content_item. simpl. intros [= -> ->%boundary_item_inj]. done. Qed.
Lemma effective_item_inj x y : effective_item x = effective_item y → x = y.
Proof. destruct x, y. unfold effective_item. simpl. congruence. Qed.
Lemma ownership_item_inj x y : ownership_item x = ownership_item y → x = y.
Proof. destruct x as [? []], y as [? []]. unfold ownership_item. simpl. congruence. Qed.

Lemma roster_item_inj x y : roster_item x = roster_item y → x = y.
Proof.
  destruct x as [k [[d r] e c cb sb m]], y as [k' [[d' r'] e' c' cb' sb' m']]. unfold roster_item. simpl.
  intros [= -> -> ->%DeviceRole_as_u8_inj -> ->%opt_uint_item_inj ->%boundary_item_inj ->%boundary_item_inj Hm].
  by apply rows_inj, by_key_inj in Hm as ->; [|apply content_item_inj].
Qed.

Lemma incarnation_item_inj x y : incarnation_item x = incarnation_item y → x = y.
Proof.
  destruct x as [k [[d] e c cb sb]], y as [k' [[d'] e' c' cb' sb']]. unfold incarnation_item. simpl.
  by intros [= -> -> -> ->%opt_uint_item_inj ->%boundary_item_inj ->%boundary_item_inj].
Qed.

Lemma grant_item_inj x y : grant_item x = grant_item y → x = y.
Proof.
  destruct x as [k [[s a r] e c]], y as [k' [[s' a' r'] e' c']]. unfold grant_item. simpl.
  by intros [= -> -> -> ->%GrantRole_as_u8_inj -> ->%opt_uint_item_inj].
Qed.

Lemma device_cut_item_inj x y : device_cut_item x = device_cut_item y → x = y.
Proof. destruct x, y. unfold device_cut_item. simpl. congruence. Qed.

Definition row_item (row : GrantId * list DeviceCut) : item := Array [ByteString row.1; Array (device_cut_item <$> row.2)].
Lemma row_item_inj x y : row_item x = row_item y → x = y.
Proof. destruct x, y. unfold row_item. simpl. intros [= -> ->%rows_inj]; [done|apply device_cut_item_inj]. Qed.

Lemma grant_cuts_sorted m : grant_cuts_item <$> by_key m = row_item <$> by_key (sorted_cuts m).
Proof. unfold sorted_cuts. rewrite by_key_fmap, <- list_fmap_compose. apply list_fmap_ext. by intros i [g c] _. Qed.

(** The item is the same exactly for states that agree. *)
Lemma projection_item_exact h h' : projection_item h = projection_item h' ↔ same_projection h h'.
Proof.
  unfold projection_item. rewrite !grant_cuts_sorted. split.
  - intros [= ?%classification_item_inj ?%opt_bytes_item_inj ? He Hr Ho Hs Hg Hc Ht].
    apply rows_inj in He; [|apply effective_item_inj]. apply rows_inj, by_key_inj in Hr; [|apply roster_item_inj].
    apply rows_inj, by_key_inj in Ho; [|apply incarnation_item_inj]. apply rows_inj, by_key_inj in Hs; [|apply ownership_item_inj].
    apply rows_inj, by_key_inj in Hg; [|apply grant_item_inj]. apply rows_inj, by_key_inj in Hc; [|apply row_item_inj].
    apply rows_inj in Ht; [|by intros ?? [=]].
    split; try done; [by apply sorted_effective_inj|by apply sorted_cuts_inj|by apply sorted_tombstoned_inj].
  - intros [-> -> -> He%sorted_effective_inj -> -> -> -> Hc%sorted_cuts_inj Ht%sorted_tombstoned_inj]. by rewrite He, Hc, Ht.
Qed.

(** ** The bytes are the item's *)

(** [bs] is the serialization of a well-formed item of bounded height. *)
Definition encodes (n : nat) (bs : bytes) (i : item) : Prop := bs = ser i ∧ item_wf i ∧ (height i ≤ n)%nat.

(** Consecutive items. *)
Inductive encodes_seq (n : nat) : bytes → list item → Prop :=
| es_last bs i : encodes n bs i → encodes_seq n bs [i]
| es_more bs bss i l : encodes n bs i → encodes_seq n bss l → encodes_seq n (bs ++ bss) (i :: l).

Section Encodes.
Context `{MinicborLaws} `{Sha256}.

Lemma encodes_seq_all n bs l : encodes_seq n bs l → bs = mjoin (ser <$> l) ∧ Forall item_wf l ∧ Forall (fun i => height i ≤ n)%nat l.
Proof using Type.
  induction 1 as [bs i (-> & Hw & Hh)|bs bss i l (-> & Hw & Hh) _ (-> & IHw & IHh)]; simpl.
  - rewrite app_nil_r. auto.
  - auto.
Qed.

Lemma encodes_array n k bs l : k = len l → k ≤ u64_max → encodes_seq n bs l → encodes (S n) (put_array k ++ bs) (Array l).
Proof using All.
  intros -> Hk (-> & Hw & Hh)%encodes_seq_all. split_and!; [by apply put_array_ser|by apply wf_array|by apply height_array].
Qed.

Lemma encodes_rows {A} n (put : A → bytes) (row : A → item) l :
  len l ≤ u64_max → (∀ a, a ∈ l → encodes n (put a) (row a)) → encodes (S n) (put_rows put l) (Array (row <$> l)).
Proof using All.
  intros Hl Hrow. split_and!.
  - apply put_rows_ser; [done|]. apply Forall_forall. intros a Ha. by apply Hrow.
  - apply wf_array; [by rewrite len_fmap|]. apply Forall_fmap, Forall_forall. intros a Ha. by apply Hrow.
  - apply height_array, Forall_fmap, Forall_forall. intros a Ha. by apply Hrow.
Qed.

Lemma encodes_le n m bs i : (n ≤ m)%nat → encodes n bs i → encodes m bs i.
Proof using Type. intros Hn (? & ? & ?). split_and!; [done|done|lia]. Qed.

Lemma encodes_uint8 n k : 0 ≤ k ≤ u8_max → encodes (S n) (put_u8 k) (Uint k).
Proof using All. intros Hk. split_and!; [by apply put_u8_ser|apply wf_uint; unfold u8_max, u64_max in *; lia|simpl; lia]. Qed.
Lemma encodes_uint64 n k : u64_ok k → encodes (S n) (put_u64 k) (Uint k).
Proof using All. intros Hk. split_and!; [by apply put_u64_ser|by apply wf_uint|simpl; lia]. Qed.
Lemma encodes_hash n h : hash_ok h → encodes (S n) (put_bytes h) (ByteString h).
Proof using All. intros Hh%hash_ok_len. split_and!; [by apply put_bytes_ser|by apply wf_bytes|simpl; lia]. Qed.
Lemma encodes_opt_hash n o : opt_ok hash_ok o → encodes (S n) (put_opt put_bytes o) (opt_bytes_item o).
Proof using All.
  destruct o as [h|]; simpl; intros Ho; [by apply encodes_hash|]. split_and!; [apply put_null_ser|by apply wf_simple|simpl; lia].
Qed.
Lemma encodes_opt_uint n o : opt_ok u64_ok o → encodes (S n) (put_opt put_u64 o) (opt_uint_item o).
Proof using All.
  destruct o as [k|]; simpl; intros Ho; [by apply encodes_uint64|]. split_and!; [apply put_null_ser|by apply wf_simple|simpl; lia].
Qed.

Lemma encodes_window n e c : u64_ok e → opt_ok u64_ok c → encodes (S (S n)) (write_window e c) (window_item e c).
Proof using All.
  intros He Hc. apply encodes_array; [done|by vm_compute|]. constructor 2; [by apply encodes_uint64|constructor; by apply encodes_opt_uint].
Qed.

Lemma role_u8 r : 0 ≤ DeviceRole_as_u8 r ≤ u8_max. Proof using Type. by destruct r. Qed.
Lemma grant_role_u8 r : 0 ≤ GrantRole_as_u8 r ≤ u8_max. Proof using Type. by destruct r. Qed.

Lemma encodes_boundary n b : boundary_typed b → encodes (S (S n)) (write_boundary b) (boundary_item b).
Proof using All.
  destruct b as [|seq hash|]; intros Hb; (apply encodes_array; [done|by vm_compute|]).
  - constructor. by apply encodes_uint8.
  - destruct Hb. constructor 2; [by apply encodes_uint8|]. constructor 2; [by apply encodes_uint64|constructor; by apply encodes_hash].
  - constructor. by apply encodes_uint8.
Qed.

Lemma encodes_classification n c :
  match c with Contested d => Z.of_nat d ≤ u64_max | Live => True end → encodes (S (S n)) (write_classification c) (classification_item c).
Proof using All.
  destruct c as [|d]; intros Hd; (apply encodes_array; [done|by vm_compute|]).
  - constructor. by apply encodes_uint8.
  - constructor 2; [by apply encodes_uint8|constructor; apply encodes_uint64]. split; [lia|done].
Qed.

(** The writes of a fixed-length row, one item after the other. *)
Ltac encode_items :=
  apply encodes_array; [done|by vm_compute|];
  repeat match goal with
  | |- encodes_seq _ _ (_ :: _ :: _) => apply es_more
  | |- encodes_seq _ _ [_] => apply es_last
  | |- encodes _ (put_u8 _) _ => apply encodes_uint8
  | |- encodes _ (put_u64 _) _ => by apply encodes_uint64
  | |- encodes _ (put_bytes _) _ => by apply encodes_hash
  | |- encodes _ (write_window _ _) _ => by apply encodes_window
  | |- encodes _ (write_boundary _) _ => by apply encodes_boundary
  end.

Lemma encodes_map {V} (n : nat) (put : bytes * V → bytes) (row : bytes * V → item) (P : bytes → V → Prop) (m : gmap bytes V) :
  map_typed P m → (∀ k v, P k v → encodes n (put (k, v)) (row (k, v))) → encodes (S n) (put_rows put (by_key m)) (Array (row <$> by_key m)).
Proof using All.
  intros [Hm Hs] Hrow. apply encodes_rows; [by rewrite len_by_key|]. intros [k v] Hk%elem_of_by_key. by apply Hrow, Hm.
Qed.

Lemma encodes_roster k f : hash_ok k → roster_typed f → encodes 5 (write_roster (k, f)) (roster_item (k, f)).
Proof using All.
  intros Hk (? & ? & ? & ? & ? & Hm). unfold write_roster, roster_item. encode_items; [apply role_u8|].
  eapply encodes_map; [exact Hm|]. intros s b [Hs Hb]. unfold write_content, content_item. simpl. encode_items.
Qed.

Lemma encodes_incarnation k f : hash_ok k → incarnation_typed f → encodes 5 (write_incarnation (k, f)) (incarnation_item (k, f)).
Proof using All. intros Hk (? & ? & ? & ? & ?). unfold write_incarnation, incarnation_item. encode_items. Qed.

Lemma encodes_ownership k f : hash_ok k → ownership_typed f → encodes 5 (write_ownership (k, f)) (ownership_item (k, f)).
Proof using All. intros Hk [? ?]. unfold write_ownership, ownership_item. simpl. encode_items. Qed.

Lemma encodes_grant k f : hash_ok k → grant_typed f → encodes 5 (write_grant (k, f)) (grant_item (k, f)).
Proof using All. intros Hk (? & ? & ? & ?). unfold write_grant, grant_item. encode_items. apply grant_role_u8. Qed.

Lemma encodes_cuts k cuts : hash_ok k → cuts_typed cuts → encodes 5 (write_grant_cuts (k, cuts)) (grant_cuts_item (k, cuts)).
Proof using All.
  intros Hk [Hc Hl]. unfold write_grant_cuts, grant_cuts_item. simpl. encode_items.
  apply encodes_rows; [by rewrite sort_by_key_len|]. intros c Hin. rewrite sort_by_key_perm in Hin.
  rewrite Forall_forall in Hc. destruct (Hc c Hin) as (? & ? & ?). unfold put_device_cut, put_cut_row, device_cut_item. encode_items.
Qed.

Lemma encodes_effective h : history_typed h → encodes 6 (put_rows write_effective (sorted_effective h)) (Array (effective_item <$> sorted_effective h)).
Proof using All.
  intros Hh. apply encodes_rows.
  - etrans; [|apply (ht_outcomes _ Hh)]. unfold sorted_effective, sort_unstable. rewrite sort_by_key_len. unfold len.
    apply Nat2Z.inj_le. rewrite <- length_map_to_list. apply omap_le.
  - intros [k e] Hk%elem_of_effective. destruct (proj1 (ht_outcomes _ Hh) _ _ Hk). unfold write_effective, effective_item. simpl. encode_items.
Qed.

Lemma encodes_tombstoned h : history_typed h → encodes 6 (put_rows put_bytes (sorted_tombstoned h)) (Array (ByteString <$> sorted_tombstoned h)).
Proof using All.
  intros Hh. destruct (ht_tombstoned _ Hh) as [Ht Hs]. apply encodes_rows.
  - unfold sorted_tombstoned, sort_unstable. by rewrite sort_by_key_len.
  - intros d Hd. unfold sorted_tombstoned, sort_unstable in Hd. rewrite sort_by_key_perm, elem_of_elements in Hd. by apply encodes_hash, Ht.
Qed.

(** The projection is one canonical item of eleven elements. *)
Lemma encodes_projection h : history_typed h → encodes 7 (encoded h) (projection_item h).
Proof using All.
  intros Hh. unfold encoded, projection_item. destruct Hh as [? ? ? ? Hr Ho Hs Hg Hc ?] eqn:E. clear E.
  apply encodes_array; [done|by vm_compute|].
  apply es_more; [split_and!; [by apply put_str_ser|by apply wf_text; vm_compute|simpl; lia]|].
  apply es_more; [by apply encodes_classification|]. apply es_more; [by apply encodes_opt_hash|].
  apply es_more; [by apply encodes_uint64|]. apply es_more; [by apply encodes_effective|].
  repeat (apply es_more; [eapply encodes_map; [eassumption|]; intros k v [? ?];
    first [by apply encodes_roster|by apply encodes_incarnation|by apply encodes_ownership|by apply encodes_grant|by apply encodes_cuts]|]).
  apply es_last, encodes_tombstoned. done.
Qed.

Lemma encoded_canonical h : history_typed h → require_canonical_cbor (encoded h) = Ok tt.
Proof using All.
  intros (-> & Hw & Hh)%encodes_projection. apply require_canonical_ser; [done|]. etrans; [done|unfold MAX_CBOR_DEPTH; lia].
Qed.

Lemma encoded_exact h h' : history_typed h → history_typed h' → encoded h = encoded h' ↔ same_projection h h'.
Proof using All.
  intros (-> & Hw & _)%encodes_projection (-> & Hw' & _)%encodes_projection. rewrite <- projection_item_exact.
  split; [by apply ser_inj|congruence].
Qed.
End Encodes.

(** C19.  The state hash of a snapshot: what is hashed is one canonical item; states that agree on
    the classification, the effective entries with their epochs, the facts of every device, owner,
    stream and grant, and the removed devices have the same hash, in whatever order their maps hold
    them; and two states with the same hash agree on all of it, or are a collision of SHA-256. *)
Theorem folded_state_hash_binds `{MinicborLaws} `{Sha256} (h h' : AccountAuthHistory) :
  history_typed h → history_typed h' →
  require_canonical_cbor (encoded h) = Ok tt ∧
  (same_projection h h' → folded_state_hash h = folded_state_hash h') ∧
  (folded_state_hash h = folded_state_hash h' →
     same_projection h h' ∨ (encoded h ≠ encoded h' ∧ sha256 (encoded h) = sha256 (encoded h'))).
Proof.
  intros Hh Hh'. split; [by apply encoded_canonical|]. unfold folded_state_hash. pose proof (encoded_exact h h' Hh Hh') as He. split.
  - intros Hs. by rewrite (proj2 He Hs).
  - intros Heq. destruct (decide (encoded h = encoded h')) as [Hb|Hb]; [left; by apply He|by right].
Qed.

(** ** Witness: one device and one stream, and a second entry that is not effective at either side *)

Definition wit_facts : AuthorityFacts :=
  mkAuthorityFacts
    {[wit_hash x01 := mkRosterFact (mkRosterAuthority (wit_hash x09) Owner) 0 None BoundaryOpen BoundaryOpen
        {[wit_hash x07 := BoundaryCut 3 (wit_hash x08)]}]}
    {[wit_hash x01 := mkOwnerIncarnationFact (mkOwnerAuthority (wit_hash x09)) 0 (Some 4) BoundaryClosed BoundaryOpen]}
    {[wit_hash x07 := mkStreamOwnershipFact (wit_hash x01) 1]} ∅ ∅.
Definition wit_history (outcomes : gmap AccountEntryHash Outcome) : AccountAuthHistory :=
  mkAccountAuthHistory (<[wit_hash x01 := OutEffective 0]> outcomes) Live None 1 wit_facts {[wit_hash x05]} (Some (wit_hash x01)).
Definition wit_left : AccountAuthHistory := wit_history ∅.
Definition wit_right : AccountAuthHistory := wit_history {[wit_hash x02 := OutRetainedUnfolded]}.

Lemma map_typed_empty {V} (P : bytes → V → Prop) : map_typed P ∅.
Proof. split; [apply map_Forall_empty|by vm_compute]. Qed.
Lemma map_typed_singleton {V} (P : bytes → V → Prop) k v : P k v → map_typed P {[k := v]}.
Proof. intros Hv. split; [by apply map_Forall_singleton|]. rewrite map_size_singleton. by vm_compute. Qed.

Lemma wit_history_typed outcomes :
  map_typed (fun k o => match o with OutEffective e => hash_ok k ∧ u64_ok e | _ => True end) (<[wit_hash x01 := OutEffective 0]> outcomes) →
  history_typed (wit_history outcomes).
Proof.
  intros Ho. split; [done|done|by vm_compute|exact Ho| | | |apply map_typed_empty|apply map_typed_empty|].
  - apply map_typed_singleton. split; [done|]. split_and!; [done|by vm_compute|done|done|done|].
    apply map_typed_singleton. by vm_compute.
  - apply map_typed_singleton. by vm_compute.
  - apply map_typed_singleton. by vm_compute.
  - split; [intros x Hx; change (x ∈@{gset bytes} {[wit_hash x05]}) in Hx; by apply elem_of_singleton in Hx as ->|]. by vm_compute.
Qed.

Lemma wit_left_typed : history_typed wit_left.
Proof. apply wit_history_typed. rewrite insert_empty. apply map_typed_singleton. by vm_compute. Qed.

Lemma wit_right_typed : history_typed wit_right.
Proof.
  apply wit_history_typed. split.
  - apply map_Forall_insert_2; [by vm_compute|by apply map_Forall_singleton].
  - rewrite map_size_insert_None by by apply lookup_singleton_ne. rewrite map_size_singleton. by vm_compute.
Qed.

Lemma folded_state_hash_binds_witness :
  folded_state_hash wit_left = folded_state_hash wit_right ∧
  (same_projection wit_left wit_right ∨
   (encoded wit_left ≠ encoded wit_right ∧ sha256 (encoded wit_left) = sha256 (encoded wit_right))).
Proof.
  assert (folded_state_hash wit_left = folded_state_hash wit_right) as Heq by (vm_compute; reflexivity).
  split; [exact Heq|]. exact (proj2 (proj2 (folded_state_hash_binds wit_left wit_right wit_left_typed wit_right_typed)) Heq).
Defined.
