(* ===== verification/AnnexVerify.v ===== *)
(** * Checking, choosing and authoring snapshots ([account/annex/verify.rs], [select.rs], [author.rs])

    A snapshot claims the state of the history below a watermark per device.  A reader that holds the
    history walks the chains down from the watermarks, folds them again and compares; it trusts no
    claim about an account that is contested for it, or that leaves out an entry it holds.  Of the
    claims it trusts it takes one of widest coverage.  The author uses the same walk. *)

From S2P Require Import Prelude Cbor Minicbor Hash Op Device Entry Stream Branch Envelope Candidate AccountOps FoldTypes Snapshot Fold FoldDepth FoldTotal FoldPass FoldReplay FoldRooted FoldSafety FoldPerm FoldOrder AuthStore ControlV2 AccountProjection Annex AnnexProjection.

Local Open Scope Z_scope.

(** ** Verification *)

Inductive Unverifiable : Type := WatermarkNotHeld | IncompleteChain | UnsupportedTargets.

Inductive SnapshotVerdict : Type :=
| VerdictVerified
| VerdictMismatch
| VerdictNotLive
| VerdictIgnoresHeldEvidence
| VerdictUnverifiable (reason : Unverifiable).

#[export] Instance Unverifiable_eq_dec : EqDecision Unverifiable.
Proof. solve_decision. Defined.
#[export] Instance SnapshotVerdict_eq_dec : EqDecision SnapshotVerdict.
Proof. solve_decision. Defined.
#[export] Instance AccountClassification_eq_dec : EqDecision AccountClassification.
Proof. solve_decision. Defined.

Definition CONTROL_LOG_ID : Z := 0.

Definition is_supported_target (target : SnapshotTarget) : bool := bool_decide (st_log_id target = CONTROL_LOG_ID).

Abbreviation EntryIndex := (gmap AccountEntryHash VerifiedAccountEntry).

(** [collect] into a map: the last entry of a key stays. *)
Definition index_by_hash (held : list VerifiedAccountEntry) : EntryIndex :=
  foldl (fun m entry => <[va_entry_hash entry := entry]> m) ∅ held.

Abbreviation walked := (option (result Unverifiable (list VerifiedAccountEntry))).

(** The walk from a watermark.  The [None] is an exhausted fuel. *)
Fixpoint walk_chain (fuel : nat) (by_hash : EntryIndex) (device : DeviceFingerprint) (cursor : AccountEntryHash)
    (expected_seq : Z) (at_head : bool) : walked :=
  match fuel with
  | O => None
  | S fuel =>
      match by_hash !! cursor with
      | None => Some (Err (if at_head then WatermarkNotHeld else IncompleteChain))
      | Some entry =>
          let header := va_header entry in
          if bool_decide (ah_log_id header ≠ CONTROL_LOG_ID) || bool_decide (ah_device_fingerprint header ≠ device) ||
             bool_decide (ah_seq header ≠ expected_seq)
          then Some (Err IncompleteChain)
          else
            match ah_prev_hash header with
            | None => if bool_decide (ah_seq header = 0) then Some (Ok [entry]) else Some (Err IncompleteChain)
            | Some prev =>
                if bool_decide (ah_seq header = 0) then Some (Err IncompleteChain)
                else
                  rest ← walk_chain fuel by_hash device prev (ah_seq header - 1) false;
                  Some (rest ← rest; Ok (entry :: rest))
            end
      end
  end.

Fixpoint collect_chains (by_hash : EntryIndex) (covered : list CoveredWatermark) : walked :=
  match covered with
  | [] => Some (Ok [])
  | watermark :: covered =>
      chain ← walk_chain (S (size by_hash)) by_hash (cw_device_fingerprint watermark) (cw_entry_hash watermark) (cw_seq watermark) true;
      match chain with
      | Err reason => Some (Err reason)
      | Ok chain => rest ← collect_chains by_hash covered; Some (rest ← rest; Ok (chain ++ rest))
      end
  end.

(** [Vec::dedup_by_key]: of consecutive elements with one key the first stays. *)
Fixpoint dedup_from {A K} `{EqDecision K} (key : A → K) (last : K) (l : list A) : list A :=
  match l with
  | [] => []
  | x :: l => if decide (key x = last) then dedup_from key last l else x :: dedup_from key (key x) l
  end.
Definition dedup_by_key {A K} `{EqDecision K} (key : A → K) (l : list A) : list A :=
  match l with [] => [] | x :: l => x :: dedup_from key (key x) l end.

Definition on_branch_prefix (covered : list CoveredWatermark) (by_hash : EntryIndex) : walked :=
  collected ← collect_chains by_hash covered;
  Some (collected ← collected; Ok (dedup_by_key va_entry_hash (sort_by_key va_entry_hash collected))).

Abbreviation Slot := (Z * DeviceFingerprint * Z)%type.
Definition slot_of (entry : VerifiedAccountEntry) : Slot :=
  (ah_log_id (va_header entry), ah_device_fingerprint (va_header entry), ah_seq (va_header entry)).

Definition covered_slots (prefix : list VerifiedAccountEntry) : gmap Slot AccountEntryHash :=
  foldl (fun m entry => <[slot_of entry := va_entry_hash entry]> m) ∅ prefix.

Definition ignores_held_evidence (prefix held : list VerifiedAccountEntry) : bool :=
  existsb (fun entry =>
    match covered_slots prefix !! slot_of entry with
    | Some chosen => bool_decide (chosen ≠ va_entry_hash entry)
    | None => false
    end) held.

Section Verify.
Context `{Minicbor} `{Sha256} `{Ed25519}.

(** A target that is supported; [None] in the result is the verdict that stays open. *)
Definition verify_target (by_hash : EntryIndex) (held : list VerifiedAccountEntry) (target : SnapshotTarget)
    : option (option SnapshotVerdict) :=
  prefix ← on_branch_prefix (st_covered target) by_hash;
  match prefix with
  | Err reason => Some (Some (VerdictUnverifiable reason))
  | Ok prefix =>
      if ignores_held_evidence prefix held then Some (Some VerdictIgnoresHeldEvidence)
      else
        history ← fold_account prefix;
        Some (if bool_decide (folded_state_hash history ≠ st_folded_state_hash target) then Some VerdictMismatch else None)
  end.

Fixpoint verify_targets (by_hash : EntryIndex) (held : list VerifiedAccountEntry) (targets : list SnapshotTarget) (supported : nat)
    : option SnapshotVerdict :=
  match targets with
  | [] => Some (if bool_decide (supported = 0%nat) then VerdictUnverifiable UnsupportedTargets else VerdictVerified)
  | target :: targets =>
      if negb (is_supported_target target) then verify_targets by_hash held targets supported
      else
        verdict ← verify_target by_hash held target;
        match verdict with
        | Some verdict => Some verdict
        | None => verify_targets by_hash held targets (S supported)
        end
  end.

Definition verify_snapshot (held : list VerifiedAccountEntry) (targets : list SnapshotTarget) : option SnapshotVerdict :=
  history ← fold_account held;
  if bool_decide (hi_classification history ≠ Live) then Some VerdictNotLive
  else verify_targets (index_by_hash held) held targets 0.

(** ** Authoring *)

(** The outcomes that do not depend on the signing and the storing of the entry; [AuthorManifest] is
    what goes on to [author_annex_entry_in_tx], with the root its header names. *)
Inductive SnapshotClaim : Type :=
| AccountNotLive
| CoverageExceedsEnvelope (devices : Z)
| HeldEvidenceOffBranch
| AuthorManifest (genesis_hash : AccountEntryHash) (manifest : AnnexOp) (payload : bytes).

Definition snapshot_claim (view : AccountEntriesView) : option (result AnyError SnapshotClaim) :=
  held_history ← fold_account (aev_held view);
  if bool_decide (hi_classification held_history ≠ Live) then Some (Ok AccountNotLive)
  else
    match hi_genesis_hash held_history with
    | None => Some (Err (Bail "the account folds Live but holds no canonical genesis"))
    | Some genesis_hash =>
        let covered := accepted_control_heads view in
        if bool_decide (covered = []) then Some (Err (Bail "this device holds an open owner incarnation but no control history to cover"))
        else
          prefix ← on_branch_prefix covered (index_by_hash (aev_held view));
          match prefix with
          | Err _ => Some (Err (Bail "cannot snapshot a prefix this device cannot reconstruct from its own accepted heads"))
          | Ok prefix =>
              if ignores_held_evidence prefix (aev_held view) then Some (Ok HeldEvidenceOffBranch)
              else
                history ← fold_account prefix;
                if bool_decide (SNAPSHOT_COVERED_MAX < len covered) then Some (Ok (CoverageExceedsEnvelope (len covered)))
                else
                  let manifest := AnnexSnapshot SNAPSHOT_STATE_FORMAT_V1 0
                    [mkSnapshotTarget CONTROL_LOG None None (folded_state_hash history) covered] in
                  match annex_encode manifest with
                  | Ok payload => Some (Ok (AuthorManifest genesis_hash manifest payload))
                  | Err _ => Some (Err (Bail "encoding the snapshot manifest failed"))
                  end
          end
    end.
End Verify.

(** ** Selection *)

Definition select_key (target : SnapshotTarget) : Z * option StreamId * option AccountId :=
  (st_log_id target, st_stream_id target, st_subject_account_id target).

Definition reaches (mine : SnapshotTarget) (watermark : CoveredWatermark) : bool :=
  match List.find (fun m => bool_decide (cw_device_fingerprint m = cw_device_fingerprint watermark)) (st_covered mine) with
  | Some m => bool_decide (cw_seq watermark ≤ cw_seq m)
  | None => false
  end.

Definition dominates (a b : list SnapshotTarget) : bool :=
  forallb (fun target =>
    match List.find (fun candidate => bool_decide (select_key candidate = select_key target)) a with
    | None => false
    | Some mine => forallb (reaches mine) (st_covered target)
    end) b.

Record UsableSnapshot : Type := mkUsableSnapshot {
  us_entry_hash : AccountEntryHash;
  us_targets : list SnapshotTarget;
}.

Definition strictly_dominated (usable : list UsableSnapshot) (candidate : UsableSnapshot) : bool :=
  existsb (fun other => bool_decide (us_entry_hash other ≠ us_entry_hash candidate) &&
    dominates (us_targets other) (us_targets candidate) && negb (dominates (us_targets candidate) (us_targets other))) usable.

Definition select (usable : list UsableSnapshot) : option AccountEntryHash :=
  min_hash (us_entry_hash <$> List.filter (fun candidate => negb (strictly_dominated usable candidate)) usable).

(** ** The stored snapshots *)

Section Stored.
Context `{Minicbor} `{Sha256} `{Ed25519}.
Context (db : AccountDb) (account : AccountId) (rows : list CandidateRow).

Definition held_entries : list VerifiedAccountEntry := cr_verified <$> rows.

(** The targets of a row that is a plaintext snapshot of the supported versions. *)
Definition snapshot_targets (row : CandidateRow) : option (list SnapshotTarget) :=
  let header := va_header (cr_verified row) in
  if bool_decide (ah_log_id header ≠ ANNEX_LOG) || bool_decide (ah_crypto_suite header ≠ 0) ||
     bool_decide (ah_op_version header ≠ SUPPORTED_OP_VERSION) then None
  else
    match annex_decode (ah_entry_type header) (va_payload (cr_verified row)) with
    | Ok (AnnexKnown (AnnexSnapshot _ _ targets)) => Some targets
    | _ => None
    end.

Definition row_verdict (row : CandidateRow) : option (option (AccountEntryHash * SnapshotVerdict)) :=
  match snapshot_targets row with
  | None => Some None
  | Some targets => verdict ← verify_snapshot held_entries targets; Some (Some (cr_entry_hash row, verdict))
  end.

Definition verify_stored_snapshots : option (list (AccountEntryHash * SnapshotVerdict)) :=
  verdicts ← mapM row_verdict rows; Some (sort_by_key fst (omap id verdicts)).

(** The snapshot of a row, when it is usable. *)
Definition usable_row (row : CandidateRow) : option (result AnyError (option UsableSnapshot)) :=
  match snapshot_targets row with
  | None => Some (Ok None)
  | Some targets =>
      match ah_authority_ref (va_header (cr_verified row)) with
      | None => Some (Ok None)
      | Some owner_id =>
          match stored_owner_incarnation_effective db account owner_id (ah_device_fingerprint (va_header (cr_verified row))) with
          | Err e => Some (Err e)
          | Ok (Effective _) =>
              verdict ← verify_snapshot held_entries targets;
              Some (Ok (if bool_decide (verdict = VerdictVerified)
                        then Some (mkUsableSnapshot (cr_entry_hash row) (List.filter is_supported_target targets)) else None))
          | Ok _ => Some (Ok None)
          end
      end
  end.

Fixpoint usable_rows (l : list CandidateRow) : option (result AnyError (list UsableSnapshot)) :=
  match l with
  | [] => Some (Ok [])
  | row :: l =>
      usable ← usable_row row;
      match usable with
      | Err e => Some (Err e)
      | Ok usable => rest ← usable_rows l; Some (rest ← rest; Ok (match usable with Some u => u :: rest | None => rest end))
      end
  end.

Definition usable_snapshots : option (result AnyError (list UsableSnapshot)) :=
  match require_foldable_account_control db account with
  | Err e => Some (Err e)
  | Ok _ => usable ← usable_rows rows; Some (usable ← usable; Ok (sort_by_key us_entry_hash usable))
  end.

Definition selected_snapshot : option (result AnyError (option UsableSnapshot)) :=
  usable ← usable_snapshots;
  Some (usable ← usable;
        Ok (chosen ← select usable; List.find (fun s => bool_decide (us_entry_hash s = chosen)) usable)).
End Stored.

(** ** The walk *)

Section Walk.
Context (by_hash : EntryIndex) (device : DeviceFingerprint).

Definition in_chain (entry : VerifiedAccountEntry) (s : Z) : Prop :=
  ah_log_id (va_header entry) = CONTROL_LOG_ID ∧ ah_device_fingerprint (va_header entry) = device ∧ ah_seq (va_header entry) = s.

(** The entries from [h], at sequence number [s], down to the origin. *)
Inductive chain_of : Z → AccountEntryHash → list VerifiedAccountEntry → Prop :=
| chain_origin h e : by_hash !! h = Some e → in_chain e 0 → ah_prev_hash (va_header e) = None → chain_of 0 h [e]
| chain_link s h e prev l : by_hash !! h = Some e → in_chain e s → s ≠ 0 → ah_prev_hash (va_header e) = Some prev →
    chain_of (s - 1) prev l → chain_of s h (e :: l).

Definition below (s : Z) (e : VerifiedAccountEntry) : bool := bool_decide (ah_seq (va_header e) ≤ s).
Definition remaining (s : Z) : nat := length (List.filter (below s) (map_to_list by_hash).*2).

Lemma remaining_le s : (remaining s ≤ size by_hash)%nat.
Proof using Type.
  unfold remaining. etrans; [apply List.filter_length_le|]. by rewrite length_fmap, length_map_to_list.
Qed.

Lemma remaining_lt s h e : by_hash !! h = Some e → ah_seq (va_header e) = s → (remaining (s - 1) < remaining s)%nat.
Proof using Type.
  intros He Hs. apply (filter_bool_lt _ _ _ e).
  - intros y _. unfold below. rewrite !bool_decide_eq_true. lia.
  - apply list_elem_of_fmap. exists (h, e). split; [done|by apply elem_of_map_to_list].
  - apply bool_decide_eq_true. lia.
  - apply bool_decide_eq_false. lia.
Qed.

(** With a fuel above the entries that can follow the walk answers, and finds the chain if there is one. *)
Lemma walk_chain_spec fuel h s at_head :
  (remaining s < fuel)%nat →
  ∃ r, walk_chain fuel by_hash device h s at_head = Some r ∧ ∀ l, r = Ok l ↔ chain_of s h l.
Proof using Type.
  revert h s at_head. induction fuel as [|fuel IH]; intros h s at_head Hf; [lia|]. cbn [walk_chain].
  assert (∀ r : Unverifiable, (∀ l, ¬ chain_of s h l) → ∀ l, Err r = Ok l ↔ chain_of s h l) as Hno.
  { intros r Hno l. split; [done|]. intros Hc. by destruct (Hno l). }
  destruct (by_hash !! h) as [e|] eqn:He.
  2: { eexists. split; [done|]. apply Hno. intros l Hc. inversion Hc; congruence. }
  destruct (bool_decide _ || bool_decide _ || bool_decide _) eqn:Hin.
  { eexists. split; [done|]. apply Hno. intros l Hc.
    assert (in_chain e s) as (Hl & Hd & Hs) by (inversion Hc; congruence).
    rewrite Hl, Hd, Hs in Hin. by rewrite !bool_decide_false in Hin by tauto. }
  apply orb_false_iff in Hin as [[?%bool_decide_eq_false ?%bool_decide_eq_false]%orb_false_iff Hs%bool_decide_eq_false].
  assert (in_chain e s) as Hchain by (unfold in_chain; split_and!; by apply dec_stable).
  pose proof Hchain as (_ & _ & Hseq). destruct (ah_prev_hash (va_header e)) as [prev|] eqn:Hp; case_bool_decide as Hzero.
  - eexists. split; [done|]. apply Hno. intros l Hc. inversion Hc; simplify_eq.
  - rewrite Hseq in *. pose proof (remaining_lt s h e He Hseq).
    destruct (IH prev (s - 1) false) as (r & -> & Hr); [lia|]. destruct r as [rest|e']; simpl; eexists; (split; [done|]).
    + intros l. split; [intros [= <-]; apply (chain_link s h e prev); try done; by apply Hr|]. intros Hc.
      inversion Hc; simplify_eq. do 2 f_equal. match goal with H : chain_of _ _ ?k |- _ => by apply Hr in H as [= ->] end.
    + apply Hno. intros l Hc. inversion Hc; simplify_eq. match goal with H : chain_of _ _ ?k |- _ => by apply Hr in H end.
  - rewrite Hzero in Hseq. subst s. eexists. split; [done|]. intros l. split.
    + intros [= <-]. by apply chain_origin.
    + intros Hc. by inversion Hc; simplify_eq.
  - eexists. split; [done|]. apply Hno. intros l Hc. by inversion Hc; simplify_eq.
Qed.
End Walk.

Section Prefix.
Context (by_hash : EntryIndex).

Definition watermark_chain (w : CoveredWatermark) (l : list VerifiedAccountEntry) : Prop :=
  chain_of by_hash (cw_device_fingerprint w) (cw_seq w) (cw_entry_hash w) l.

Lemma collect_chains_spec covered :
  ∃ r, collect_chains by_hash covered = Some r ∧
    ∀ l, r = Ok l ↔ ∃ chains, Forall2 watermark_chain covered chains ∧ l = mjoin chains.
Proof using Type.
  induction covered as [|w covered IH]; cbn [collect_chains].
  - eexists. split; [done|]. intros l. split; [intros [= <-]; by exists []|]. intros (chains & ->%Forall2_nil_inv_l & ->). done.
  - destruct (walk_chain_spec by_hash (cw_device_fingerprint w) (S (size by_hash)) (cw_entry_hash w) (cw_seq w) true) as (r & -> & Hr).
    { pose proof (remaining_le by_hash (cw_seq w)). lia. }
    cbn [mbind option_bind]. destruct r as [chain|reason].
    + destruct IH as (r' & -> & Hr'). cbn [mbind option_bind]. eexists. split; [done|]. intros l. destruct r' as [rest|e]; simpl.
      * split.
        -- intros [= <-]. destruct (proj1 (Hr' rest) eq_refl) as (chains & Hc & ->). exists (chain :: chains).
           split; [|done]. constructor; [by apply Hr|done].
        -- intros (chains & (c & cs & Hw & Hcs & ->)%Forall2_cons_inv_l & ->). apply Hr in Hw as [= ->].
           simpl. f_equal. assert (Ok rest = Ok (mjoin cs) :> result Unverifiable _) as [= ->]; [|done]. apply Hr'. by exists cs.
      * split; [done|]. intros (chains & (c & cs & Hw & Hcs & ->)%Forall2_cons_inv_l & ->).
        assert (Err e = Ok (mjoin cs)); [|done]. apply Hr'. by exists cs.
    + eexists. split; [done|]. intros l. split; [done|]. intros (chains & (c & cs & Hw & Hcs & ->)%Forall2_cons_inv_l & ->).
      by apply Hr in Hw.
Qed.

Lemma watermark_chain_unique w l l' : watermark_chain w l → watermark_chain w l' → l = l'.
Proof using Type.
  destruct (walk_chain_spec by_hash (cw_device_fingerprint w) (S (size by_hash)) (cw_entry_hash w) (cw_seq w) true) as (r & _ & Hr).
  { pose proof (remaining_le by_hash (cw_seq w)). lia. }
  intros Hl%Hr Hl'%Hr. congruence.
Qed.

Lemma elem_of_dedup_from {A K} `{EqDecision K} (key : A → K) last l x :
  x ∈ dedup_from key last l → x ∈ l.
Proof using Type.
  revert last. induction l as [|y l IH]; intros last; [done|]. simpl. case_decide; [intros ?%IH; by right|].
  intros [->|?%IH]%elem_of_cons; [by left|by right].
Qed.

Lemma dedup_from_key {A K} `{EqDecision K} (key : A → K) last l x :
  x ∈ l → key x = last ∨ ∃ y, y ∈ dedup_from key last l ∧ key y = key x.
Proof using Type.
  revert last. induction l as [|y l IH]; intros last; [by intros ?%not_elem_of_nil|]. simpl.
  intros [->|Hx]%elem_of_cons; case_decide as Hy; [by left|right; exists y; split; [by left|done]| |].
  - by apply IH.
  - right. destruct (IH (key y) Hx) as [Hk|(z & Hz & Hk)]; [exists y; split; [by left|done]|exists z; split; [by right|done]].
Qed.

(** In a list whose keys name their elements, dropping repeats keeps the elements. *)
Lemma elem_of_dedup_by_key {A K} `{EqDecision K} (key : A → K) (l : list A) x :
  (∀ y z, y ∈ l → z ∈ l → key y = key z → y = z) → x ∈ dedup_by_key key l ↔ x ∈ l.
Proof using Type.
  destruct l as [|a l]; [done|]. intros Hinj. simpl. rewrite !elem_of_cons. split.
  - intros [->|?%elem_of_dedup_from]; auto.
  - intros [->|Hx]; [by left|]. destruct (dedup_from_key key (key a) l x Hx) as [Hk|(y & Hy & Hk)].
    + left. apply Hinj; [by right|by left|done].
    + right. assert (y = x) as <-; [|done]. apply Hinj; [right; by eapply elem_of_dedup_from|by right|done].
Qed.

Context (Hkeys : ∀ h e, by_hash !! h = Some e → va_entry_hash e = h).

Lemma chain_of_index device s h l : chain_of by_hash device s h l → ∀ e, e ∈ l → by_hash !! va_entry_hash e = Some e.
Proof using Hkeys.
  assert (∀ h e, by_hash !! h = Some e → by_hash !! va_entry_hash e = Some e) as Hk by (intros h' e He; by rewrite (Hkeys _ _ He)).
  induction 1 as [h e He _ _|s h e prev l He _ _ _ _ IH]; intros x [->|Hx]%elem_of_cons; eauto. by apply not_elem_of_nil in Hx.
Qed.

(** The prefix of a vector of watermarks: the union of their chains, when each of them is whole. *)
Lemma on_branch_prefix_spec covered :
  ∃ r, on_branch_prefix covered by_hash = Some r ∧
    ((∃ prefix, r = Ok prefix) ↔ ∀ w, w ∈ covered → ∃ l, watermark_chain w l) ∧
    ∀ prefix, r = Ok prefix → ∀ e, e ∈ prefix ↔ ∃ w l, w ∈ covered ∧ watermark_chain w l ∧ e ∈ l.
Proof using Hkeys.
  unfold on_branch_prefix. destruct (collect_chains_spec covered) as (r & -> & Hr). cbn [mbind option_bind].
  eexists. split; [done|]. split.
  - transitivity (∃ l, r = Ok l); [destruct r; simpl; naive_solver|]. setoid_rewrite Hr. split.
    + intros (l & chains & Hc & _) w (i & Hi)%list_elem_of_lookup. destruct (Forall2_lookup_l _ _ _ _ _ Hc Hi) as (l' & _ & Hl'). eauto.
    + intros Hall. assert (∃ chains, Forall2 watermark_chain covered chains) as [chains Hc]; [|eauto].
      clear Hr. induction covered as [|w covered IH]; [by exists []|].
      destruct (Hall w (list_elem_of_here _ _)) as [l Hl]. destruct IH as [chains Hc]; [intros; apply Hall; by right|].
      exists (l :: chains). by constructor.
  - intros prefix Hp e. destruct r as [collected|]; [|done]. simpl in Hp. injection Hp as <-.
    destruct (proj1 (Hr collected) eq_refl) as (chains & Hc & ->).
    assert (∀ e, e ∈ mjoin chains ↔ ∃ w l, w ∈ covered ∧ watermark_chain w l ∧ e ∈ l) as Hin.
    { intros x. rewrite list_elem_of_join. split.
      - intros (l & Hx & (i & Hi)%list_elem_of_lookup). destruct (Forall2_lookup_r _ _ _ _ _ Hc Hi) as (w & Hw & Hl).
        exists w, l. split; [by eapply list_elem_of_lookup_2|done].
      - intros (w & l & (i & Hi)%list_elem_of_lookup & Hl & Hx). destruct (Forall2_lookup_l _ _ _ _ _ Hc Hi) as (l' & Hl' & Hw').
        rewrite (watermark_chain_unique _ _ _ Hl Hw') in Hx. exists l'. split; [done|by eapply list_elem_of_lookup_2]. }
    rewrite elem_of_dedup_by_key, sort_by_key_perm; [apply Hin|]. intros y z. rewrite !sort_by_key_perm, !Hin.
    intros (w & l & _ & Hl & Hy) (w' & l' & _ & Hl' & Hz) Heq.
    pose proof (chain_of_index _ _ _ _ Hl y Hy) as H1. pose proof (chain_of_index _ _ _ _ Hl' z Hz) as H2. congruence.
Qed.
End Prefix.

(** *** The index of the held entries *)

Lemma index_by_hash_app l e : index_by_hash (l ++ [e]) = <[va_entry_hash e := e]> (index_by_hash l).
Proof. unfold index_by_hash. by rewrite foldl_app. Qed.

Lemma index_keys l h e : index_by_hash l !! h = Some e → va_entry_hash e = h ∧ e ∈ l.
Proof.
  induction l as [|x l IH] using rev_ind; [done|]. rewrite index_by_hash_app, lookup_insert_Some, elem_of_app.
  intros [[<- <-]|[_ [? ?]%IH]]; [split; [done|right; by left]|auto].
Qed.

Lemma index_lookup l e : NoDup (va_entry_hash <$> l) → index_by_hash l !! va_entry_hash e = Some e ↔ e ∈ l.
Proof.
  intros Hnd. split; [by intros [_ ?]%index_keys|]. induction l as [|x l IH] using rev_ind; [by intros ?%not_elem_of_nil|].
  rewrite fmap_app, NoDup_app in Hnd. destruct Hnd as (Hnd & Hx & _). rewrite index_by_hash_app.
  intros [He|He%list_elem_of_singleton]%elem_of_app; [|subst; by rewrite lookup_insert_eq].
  rewrite lookup_insert_ne; [by apply IH|]. intros Heq. apply (Hx (va_entry_hash e)); [by apply list_elem_of_fmap_2|].
  rewrite <- Heq. apply list_elem_of_fmap_2. by left.
Qed.

(** *** What a prefix leaves out *)

Lemma covered_slots_spec prefix :
  (∀ s c, covered_slots prefix !! s = Some c → ∃ p, p ∈ prefix ∧ slot_of p = s ∧ va_entry_hash p = c) ∧
  (∀ p, p ∈ prefix → is_Some (covered_slots prefix !! slot_of p)).
Proof.
  induction prefix as [|x l [IH1 IH2]] using rev_ind; [split; [done|by intros p ?%not_elem_of_nil]|].
  assert (covered_slots (l ++ [x]) = <[slot_of x := va_entry_hash x]> (covered_slots l)) as -> by (unfold covered_slots; by rewrite foldl_app).
  split.
  - intros s c. rewrite lookup_insert_Some. setoid_rewrite elem_of_app. intros [[<- <-]|[_ (p & ? & ? & ?)%IH1]]; [|exists p; auto].
    exists x. split; [right; by left|done].
  - intros p Hp. destruct (decide (slot_of x = slot_of p)) as [->|Hne]; [by rewrite lookup_insert_eq|].
    rewrite lookup_insert_ne by done. apply elem_of_app in Hp as [?| ->%list_elem_of_singleton]; [auto|done].
Qed.

Lemma ignores_held_evidence_false prefix held :
  (∀ p, p ∈ prefix → p ∈ held) →
  ignores_held_evidence prefix held = false ↔
  ∀ e p, e ∈ held → p ∈ prefix → slot_of e = slot_of p → va_entry_hash e = va_entry_hash p.
Proof.
  intros Hsub. destruct (covered_slots_spec prefix) as [Hin Hcov]. unfold ignores_held_evidence.
  rewrite <- not_true_iff_false, existsb_exists. setoid_rewrite <- list_elem_of_In. split.
  - intros Hno e p He Hp Hs. destruct (Hcov p Hp) as [c Hc].
    assert (∀ x, x ∈ held → slot_of x = slot_of p → va_entry_hash x = c) as Hall.
    { intros x Hx Hxs. apply dec_stable. intros Hne. apply Hno. exists x. split; [done|]. rewrite Hxs, Hc. apply bool_decide_eq_true. congruence. }
    rewrite (Hall e He Hs). symmetry. by apply Hall; [apply Hsub|].
  - intros Hall (e & He & Hb). destruct (covered_slots prefix !! slot_of e) as [c|] eqn:Hc; [|done].
    apply bool_decide_eq_true in Hb. apply Hb. apply Hin in Hc as (p & Hp & Hs & <-). symmetry. by apply Hall.
Qed.

(** ** A verified claim *)

(** The held entries below the watermarks: each watermark has a whole chain, and the prefix is their union. *)
Record covers (held : list VerifiedAccountEntry) (covered : list CoveredWatermark) (prefix : list VerifiedAccountEntry) : Prop := {
  cv_prefix : on_branch_prefix covered (index_by_hash held) = Some (Ok prefix);
  cv_whole w : w ∈ covered → ∃ l, watermark_chain (index_by_hash held) w l;
  cv_elem e : e ∈ prefix ↔ ∃ w l, w ∈ covered ∧ watermark_chain (index_by_hash held) w l ∧ e ∈ l;
  cv_held e : e ∈ prefix → e ∈ held;
}.

Lemma prefix_covers held covered :
  ∃ r, on_branch_prefix covered (index_by_hash held) = Some r ∧ ∀ prefix, r = Ok prefix ↔ covers held covered prefix.
Proof.
  assert (∀ h e, index_by_hash held !! h = Some e → va_entry_hash e = h) as Hk by (by intros h e [? _]%index_keys).
  destruct (on_branch_prefix_spec _ Hk covered) as (r & Hr & Hwhole & Hin). exists r. split; [done|]. intros prefix. split.
  - intros ->. split; [done|by apply Hwhole; eauto|by apply Hin|]. intros e He.
    apply (Hin prefix eq_refl) in He as (w & l & _ & Hl & Hx). pose proof (chain_of_index _ Hk _ _ _ _ Hl e Hx) as Hi.
    by apply index_keys in Hi as [_ ?].
  - intros [Hp _ _ _]. congruence.
Qed.

Lemma covers_nil held prefix : covers held [] prefix → prefix = [].
Proof.
  intros [_ _ Hin _]. destruct prefix as [|e l]; [done|]. destruct (proj1 (Hin e) (list_elem_of_here _ _)) as (w & _ & Hw & _).
  by apply not_elem_of_nil in Hw.
Qed.

Section Verified.
Context `{Minicbor} `{Sha256} `{Ed25519}.

Lemma fold_account_returns entries : ∃ h, fold_account entries = Some h.
Proof using Type.
  destruct (fold_account_traced_total entries false) as [[h t] Hf]. exists h. by eapply fold_account_of_traced.
Qed.

(** What is checked of a supported target. *)
Definition target_holds (held : list VerifiedAccountEntry) (target : SnapshotTarget) : Prop :=
  ∃ prefix history, covers held (st_covered target) prefix ∧
    (∀ e p, e ∈ held → p ∈ prefix → slot_of e = slot_of p → va_entry_hash e = va_entry_hash p) ∧
    fold_account prefix = Some history ∧ folded_state_hash history = st_folded_state_hash target.

Lemma verify_target_spec held target :
  ∃ r, verify_target (index_by_hash held) held target = Some r ∧ (r = None ↔ target_holds held target) ∧ r ≠ Some VerdictVerified.
Proof using Type.
  unfold verify_target. destruct (prefix_covers held (st_covered target)) as (r & Hp & Hr). rewrite Hp. cbn [mbind option_bind].
  assert (∀ v : SnapshotVerdict, ¬ target_holds held target → Some v = None ↔ target_holds held target) as Hno by (intros; by split).
  destruct r as [prefix|reason].
  2: { eexists. split; [done|]. split; [|done]. apply Hno. intros (prefix & _ & Hc%Hr & _). done. }
  pose proof (proj1 (Hr prefix) eq_refl) as Hc. pose proof (ignores_held_evidence_false prefix held (cv_held _ _ _ Hc)) as Hi.
  assert (∀ p, covers held (st_covered target) p → p = prefix) as Hu by (intros p Hp'%Hr; congruence).
  destruct (ignores_held_evidence prefix held).
  { eexists. split; [done|]. split; [|done]. apply Hno. intros (p & _ & ->%Hu & Hall & _). by apply Hi in Hall. }
  destruct (fold_account_returns prefix) as [history Hf]. rewrite Hf. cbn [mbind option_bind]. eexists. split; [done|].
  case_bool_decide as Hh.
  - split; [|done]. apply Hno. intros (p & h & ->%Hu & _ & Hf' & Heq). congruence.
  - split; [|done]. split; [|done]. intros _. exists prefix, history. split_and!; [done|by apply Hi|done|done].
Qed.

Lemma verify_targets_spec held targets supported :
  ∃ v, verify_targets (index_by_hash held) held targets supported = Some v ∧
    (v = VerdictVerified ↔
     (supported ≠ 0%nat ∨ ∃ t, t ∈ targets ∧ st_log_id t = CONTROL_LOG_ID) ∧
     ∀ t, t ∈ targets → st_log_id t = CONTROL_LOG_ID → target_holds held t).
Proof using Type.
  revert supported. induction targets as [|t targets IH]; intros supported; cbn [verify_targets].
  { eexists. split; [done|]. case_bool_decide as Hs.
    - split; [done|]. intros [[?|(t & ?%not_elem_of_nil & _)] _]; done.
    - split; [|done]. intros _. split; [by left|]. by intros t ?%not_elem_of_nil. }
  setoid_rewrite elem_of_cons. unfold is_supported_target. case_bool_decide as Hl; simpl.
  - destruct (verify_target_spec held t) as (r & -> & Hr & Hnv). simpl. destruct r as [v|].
    + exists v. split; [done|]. split; [congruence|]. intros [_ Hall]. by assert (target_holds held t) as ?%Hr by auto.
    + destruct (IH (S supported)) as (v & -> & Hv). exists v. split; [done|]. rewrite Hv. split.
      * intros [_ Hall]. split; [right; exists t; auto|]. intros x [->|Hx] Hxl; [by apply Hr|auto].
      * intros [_ Hall]. split; [by left|]. auto.
  - destruct (IH supported) as (v & -> & Hv). exists v. split; [done|]. rewrite Hv. split.
    + intros [Hs Hall]. split; [destruct Hs as [?|(x & ? & ?)]; [by left|right; exists x; auto]|]. intros x [->|Hx] Hxl; [done|auto].
    + intros [Hs Hall]. split; [destruct Hs as [?|(x & [->|?] & ?)]; [by left|done|right; exists x; auto]|]. auto.
Qed.
End Verified.

(** C18.  A snapshot is trusted exactly for what was checked: verification always returns a verdict, and
    the verdict is [Verified] if and only if everything the reader holds of the account folds to a
    live account, the snapshot names the control log, and for each target that does, every watermark
    has a whole chain among the held entries, no held entry contests a place in those chains, and the
    fold of exactly these chains has the claimed state hash.  The account is judged live over the whole
    held set only: what the covered chains fold to on their own need not be live. *)
Theorem verify_snapshot_exact `{Minicbor} `{Sha256} `{Ed25519} (held : list VerifiedAccountEntry) (targets : list SnapshotTarget) :
  ∃ verdict, verify_snapshot held targets = Some verdict ∧
    (verdict = VerdictVerified ↔
     (∃ history, fold_account held = Some history ∧ hi_classification history = Live) ∧
     (∃ t, t ∈ targets ∧ st_log_id t = CONTROL_LOG_ID) ∧
     ∀ t, t ∈ targets → st_log_id t = CONTROL_LOG_ID → target_holds held t).
Proof.
  unfold verify_snapshot. destruct (fold_account_returns held) as [history Hf]. rewrite Hf. cbn [mbind option_bind].
  case_bool_decide as Hl.
  - eexists. split; [done|]. split; [done|]. intros ((h & [= <-] & ?) & _). done.
  - destruct (verify_targets_spec held targets 0) as (v & -> & Hv). exists v. split; [done|]. rewrite Hv. split.
    + intros [[?|Hs] Hall]; [done|]. split_and!; [|done|done]. exists history. split; [done|]. done.
    + intros (_ & Hs & Hall). split; [by right|done].
Qed.

(** ** The author's claim *)

(** *** The accepted heads *)

Section Heads.
Context (accepted : gset AccountEntryHash).

Definition accepted_control (e : VerifiedAccountEntry) : Prop := ah_log_id (va_header e) = CONTROL_LOG ∧ va_entry_hash e ∈ accepted.

#[local] Instance accepted_control_dec e : Decision (accepted_control e).
Proof using Type. apply and_dec; apply _. Defined.

Lemma head_step_skip heads e : ¬ accepted_control e → head_step accepted heads e = heads.
Proof using Type.
  intros Hn. unfold head_step. case_bool_decide as Hl; [done|]. case_bool_decide as Ha; [done|]. destruct Hn. by split.
Qed.

Lemma head_step_take heads e :
  accepted_control e →
  head_step accepted heads e =
    let slot := default (ah_seq (va_header e), va_entry_hash e) (heads !! ah_device_fingerprint (va_header e)) in
    <[ah_device_fingerprint (va_header e) :=
        if bool_decide (slot.1 ≤ ah_seq (va_header e)) then (ah_seq (va_header e), va_entry_hash e) else slot]> heads.
Proof using Type. intros [Hl Ha]. unfold head_step. rewrite bool_decide_false by tauto. by rewrite bool_decide_false by tauto. Qed.

(** The highest accepted entry of a device. *)
Lemma head_step_spec l device :
  match foldl (head_step accepted) ∅ l !! device with
  | Some (seq, hash) =>
      (∃ e, e ∈ l ∧ accepted_control e ∧ ah_device_fingerprint (va_header e) = device ∧ ah_seq (va_header e) = seq ∧ va_entry_hash e = hash) ∧
      ∀ e, e ∈ l → accepted_control e → ah_device_fingerprint (va_header e) = device → ah_seq (va_header e) ≤ seq
  | None => ∀ e, e ∈ l → accepted_control e → ah_device_fingerprint (va_header e) ≠ device
  end.
Proof using Type.
  induction l as [|x l IH] using rev_ind; [simpl; rewrite lookup_empty; by intros e ?%not_elem_of_nil|]. rewrite foldl_app. simpl.
  assert (∀ e, e ∈ l ++ [x] ↔ e ∈ l ∨ e = x) as Happ by (intros; by rewrite elem_of_app, list_elem_of_singleton).
  destruct (decide (accepted_control x)) as [Hac|Hac].
  2: { rewrite head_step_skip by done. destruct (foldl _ _ _ !! device) as [[seq hash]|]; setoid_rewrite Happ; [|intros e [?| ->] ?; by auto].
    destruct IH as [(e & ? & ?) Hmax]. split; [exists e; auto|]. intros y [?| ->] ?; by auto. }
  rewrite head_step_take by done.
  destruct (decide (ah_device_fingerprint (va_header x) = device)) as [<-|Hne].
  - rewrite lookup_insert_eq. destruct (foldl _ _ _ !! _) as [[seq hash]|]; simpl.
    + destruct IH as [(e & He & Hrest) Hmax]. case_bool_decide as Hle; setoid_rewrite Happ.
      * split; [exists x; auto|]. intros y [Hy| ->] Hya Hd; [|lia]. specialize (Hmax y Hy Hya Hd). simpl in *. lia.
      * split; [exists e; auto|]. intros y [Hy| ->] Hya Hd; [by auto|simpl in *; lia].
    + rewrite bool_decide_true by lia. setoid_rewrite Happ. split; [exists x; auto|]. intros y [Hy| ->] Hya Hd; [by destruct (IH y Hy Hya)|lia].
  - rewrite lookup_insert_ne by done. destruct (foldl _ _ _ !! device) as [[seq hash]|]; setoid_rewrite Happ; [|intros e [?| ->] ?; by auto].
    destruct IH as [(e & ? & ?) Hmax]. split; [exists e; auto|]. intros y [?| ->] ?; by auto.
Qed.

Lemma elem_of_heads held w :
  w ∈ accepted_control_heads (mkAccountEntriesView held accepted) ↔
  foldl (head_step accepted) ∅ held !! cw_device_fingerprint w = Some (cw_seq w, cw_entry_hash w).
Proof using Type.
  unfold accepted_control_heads. simpl. rewrite sort_by_key_perm, list_elem_of_fmap. split.
  - intros ([d [s h]] & -> & Hin%elem_of_map_to_list). done.
  - intros Hw. exists (cw_device_fingerprint w, (cw_seq w, cw_entry_hash w)). split; [by destruct w|by apply elem_of_map_to_list].
Qed.

Lemma heads_ascend held : StronglySorted clt (cw_device_fingerprint <$> accepted_control_heads (mkAccountEntriesView held accepted)).
Proof using Type.
  unfold accepted_control_heads. simpl. rewrite fmap_sort_by_key. apply sorted_strict; [exact (sort_by_key_sorted (@id bytes) _)|].
  unfold sort_unstable. rewrite sort_by_key_perm, <- list_fmap_compose.
  erewrite list_fmap_ext; [apply (NoDup_fst_map_to_list (foldl (head_step accepted) ∅ held))|]. by intros i [d [s h]] _.
Qed.
End Heads.

Section Author.
Context `{Minicbor} `{Sha256} `{Ed25519}.
Context (entries : list VerifiedAccountEntry) (Hnd : NoDup (va_entry_hash <$> entries)).
Context (p : AccountProjection) (t : option LegacyTrace) (Hst : settled (evidence_row <$> entries) false p t).
Context (Hseq : ∀ e, e ∈ entries → 0 ≤ ah_seq (va_header e)).

Abbreviation accepted := (accepted_control (ap_accepted p)).

Lemma evidence_nodup : NoDup (cr_entry_hash <$> (evidence_row <$> entries)).
Proof using Hnd. by rewrite <- list_fmap_compose. Qed.

(** The accepted control entries of a device are one chain down from each of them. *)
Lemma accepted_chain n e :
  e ∈ entries → accepted e → Z.to_nat (ah_seq (va_header e)) = n →
  ∃ l, chain_of (index_by_hash entries) (ah_device_fingerprint (va_header e)) (ah_seq (va_header e)) (va_entry_hash e) l ∧
    ∀ x, x ∈ l ↔ x ∈ entries ∧ accepted x ∧ ah_device_fingerprint (va_header x) = ah_device_fingerprint (va_header e) ∧
                  ah_seq (va_header x) ≤ ah_seq (va_header e).
Proof using Hnd Hst Hseq.
  assert (∀ x y, x ∈ entries → y ∈ entries → accepted x → accepted y →
    ah_device_fingerprint (va_header x) = ah_device_fingerprint (va_header y) → ah_seq (va_header x) = ah_seq (va_header y) → x = y) as Hu.
  { intros x y Hx Hy [Hlx Hax] [Hly Hay] Hd Hs.
    assert (evidence_row x = evidence_row y) as [=]; [|done].
    eapply (settled_unique _ evidence_nodup _ _ _ _ _ Hst); simpl; try done; [by apply list_elem_of_fmap_2..|congruence]. }
  revert e. induction n as [|n IH]; intros e He Hac Hn; pose proof Hac as [Hl Ha];
    pose proof (proj2 (index_lookup entries e Hnd) He) as Hlk; pose proof (Hseq e He) as Hs0.
  - assert (ah_seq (va_header e) = 0) as H0s by lia.
    destruct (settled_parent _ evidence_nodup _ _ _ (evidence_row e) Hst) as [[_ Hp]|(prev & Hpr & _ & _ & _ & Hps & _)];
      [by apply list_elem_of_fmap_2|done| |].
    + exists [e]. rewrite H0s. split; [by apply chain_origin|]. intros x. rewrite list_elem_of_singleton. split.
      * intros ->. split_and!; (done || lia).
      * intros (Hx & Hxa & Hd & Hle). apply Hu; try done. specialize (Hseq x Hx). lia.
    + apply list_elem_of_fmap in Hpr as (pe & -> & Hpe). simpl in Hps. specialize (Hseq pe Hpe). lia.
  - destruct (settled_parent _ evidence_nodup _ _ _ (evidence_row e) Hst) as [[Hs _]|(prev & Hpr & Hpa & Hpl & Hpd & Hps & Hpp)];
      [by apply list_elem_of_fmap_2|done|simpl in Hs; lia|].
    apply list_elem_of_fmap in Hpr as (pe & -> & Hpe). simpl in *.
    assert (accepted pe) as Hpac by (split; [congruence|done]).
    destruct (IH pe Hpe Hpac) as (l & Hc & Hin); [lia|]. exists (e :: l).
    replace (ah_seq (va_header pe)) with (ah_seq (va_header e) - 1) in Hc, Hin by lia. rewrite Hpd in Hc. split.
    + apply (chain_link _ _ _ _ e (va_entry_hash pe)); try done. lia.
    + intros x. rewrite elem_of_cons, Hin, Hpd. split.
      * intros [->|(? & ? & ? & ?)]; split_and!; (done || lia).
      * intros (Hx & Hxa & Hd & Hle). destruct (decide (ah_seq (va_header x) = ah_seq (va_header e))); [left; by apply Hu|right].
        split_and!; (done || lia).
Qed.

Definition own_view : AccountEntriesView := mkAccountEntriesView entries (ap_accepted p).

(** The prefix of the accepted heads is there, and is exactly the accepted control entries. *)
Lemma heads_prefix :
  ∃ prefix, covers entries (accepted_control_heads own_view) prefix ∧ ∀ e, e ∈ prefix ↔ e ∈ entries ∧ accepted e.
Proof using Hnd Hst Hseq.
  assert (∀ w, w ∈ accepted_control_heads own_view → ∃ e l, e ∈ entries ∧ accepted e ∧
    watermark_chain (index_by_hash entries) w l ∧ cw_device_fingerprint w = ah_device_fingerprint (va_header e) ∧
    ∀ x, x ∈ l ↔ x ∈ entries ∧ accepted x ∧ ah_device_fingerprint (va_header x) = cw_device_fingerprint w ∧ ah_seq (va_header x) ≤ cw_seq w) as Hw.
  { intros w Hin%elem_of_heads. pose proof (head_step_spec (ap_accepted p) entries (cw_device_fingerprint w)) as Hh. rewrite Hin in Hh.
    destruct Hh as [(e & He & Hac & Hd & Hs & Hh) _]. destruct (accepted_chain _ e He Hac eq_refl) as (l & Hc & Hl).
    rewrite Hd, Hs, Hh in Hc. rewrite Hd, Hs in Hl. exists e, l. auto. }
  destruct (prefix_covers entries (accepted_control_heads own_view)) as (r & Hr & Hcov).
  assert (∀ h e, index_by_hash entries !! h = Some e → va_entry_hash e = h) as Hk by (by intros h e [? _]%index_keys).
  destruct (on_branch_prefix_spec _ Hk (accepted_control_heads own_view)) as (r' & Hr' & Hwhole & _).
  rewrite Hr in Hr'. injection Hr' as <-.
  destruct (proj2 Hwhole) as [prefix ->]. { intros w Hin. destruct (Hw w Hin) as (e & l & _ & _ & Hl & _). by exists l. }
  exists prefix. pose proof (proj1 (Hcov prefix) eq_refl) as Hc. split; [done|]. intros e. rewrite (cv_elem _ _ _ Hc). split.
  - intros (w & l & Hin & Hl & He). destruct (Hw w Hin) as (_ & l' & _ & _ & Hl' & _ & Hall).
    assert (l = l') as -> by (eapply watermark_chain_unique; done). apply Hall in He as (? & ? & _). done.
  - intros [He Hac]. pose proof (head_step_spec (ap_accepted p) entries (ah_device_fingerprint (va_header e))) as Hh.
    destruct (foldl _ _ _ !! _) as [[s h]|] eqn:Hhd; [|by destruct (Hh e He Hac)].
    destruct Hh as [_ Hmax]. specialize (Hmax e He Hac eq_refl).
    pose (w := mkCoveredWatermark (ah_device_fingerprint (va_header e)) s h).
    assert (w ∈ accepted_control_heads own_view) as Hin by (by apply elem_of_heads).
    destruct (Hw w Hin) as (_ & l & _ & _ & Hl & _ & Hall). exists w, l. split; [done|]. split; [done|]. apply Hall. by split_and!.
Qed.
End Author.

(** *** The manifest *)

Definition entry_typed (e : VerifiedAccountEntry) : Prop :=
  hash_ok (va_entry_hash e) ∧ hash_ok (ah_device_fingerprint (va_header e)) ∧ 0 ≤ ah_seq (va_header e) ≤ u64_max.

Definition control_target (hash : bytes) (covered : list CoveredWatermark) : SnapshotTarget :=
  mkSnapshotTarget CONTROL_LOG None None hash covered.

Section Manifest.
Context `{MinicborLaws} `{Sha256}.

Lemma heads_typed accepted held : Forall entry_typed held → Forall watermark_ok (accepted_control_heads (mkAccountEntriesView held accepted)).
Proof using Type.
  intros Hall. apply Forall_forall. intros w Hw%elem_of_heads. pose proof (head_step_spec accepted held (cw_device_fingerprint w)) as Hh.
  rewrite Hw in Hh. destruct Hh as [(e & He & _ & Hd & Hs & Hh) _]. rewrite Forall_forall in Hall. destruct (Hall e He) as (? & ? & ?).
  unfold watermark_ok. rewrite <- Hd, <- Hs, <- Hh. auto.
Qed.

(** A manifest over the accepted heads encodes, and decodes to itself. *)
Lemma manifest_wire accepted held hash :
  let covered := accepted_control_heads (mkAccountEntriesView held accepted) in
  let manifest := AnnexSnapshot SNAPSHOT_STATE_FORMAT_V1 0 [control_target hash covered] in
  len covered ≤ SNAPSHOT_COVERED_MAX → Forall entry_typed held → hash_ok hash →
  ∃ payload, annex_encode manifest = Ok payload ∧ annex_decode SNAPSHOT payload = Ok (AnnexKnown manifest).
Proof using All.
  intros covered manifest Hl Hall Hh.
  assert (targets_canonical [control_target hash covered]) as Hcan.
  { split; [|split; [repeat constructor|by vm_compute]]. constructor; [|done]. split; [done|]. split; [apply heads_ascend|done]. }
  assert (Forall target_ok [control_target hash covered]) as Hok.
  { constructor; [|done]. split_and!; [by vm_compute|by vm_compute|done|done|done|]. by apply heads_typed. }
  exists (v1_bytes 1 0 [control_target hash covered]). split.
  - unfold annex_encode, manifest, v1_canonicalize. rewrite bool_decide_false by tauto. simpl. by rewrite canonical_targets_id.
  - unfold annex_decode. rewrite bool_decide_false by (by vm_compute). rewrite bool_decide_false by tauto.
    apply snapshot_decode_exact. by split_and!.
Qed.

(** Watermarks beyond the bound fit no manifest: the encoder refuses the claim, and no payload decodes to one. *)
Lemma manifest_over accepted held hash :
  let covered := accepted_control_heads (mkAccountEntriesView held accepted) in
  SNAPSHOT_COVERED_MAX < len covered →
  annex_encode (AnnexSnapshot SNAPSHOT_STATE_FORMAT_V1 0 [control_target hash covered]) = Err (Message "snapshot covered exceeds the bound") ∧
  ∀ payload version epoch targets, annex_decode SNAPSHOT payload = Ok (AnnexKnown (AnnexSnapshot version epoch targets)) →
    control_target hash covered ∉ targets.
Proof using All.
  intros covered Hl. split.
  - unfold annex_encode, v1_canonicalize. rewrite bool_decide_false by tauto. unfold canonical_targets, canonical_target. simpl.
    unfold canonical_covered. by rewrite canonical_cuts_over by (done || apply heads_ascend).
  - intros payload version epoch targets Hd Hin. unfold annex_decode in Hd. rewrite bool_decide_false in Hd by (by vm_compute).
    rewrite bool_decide_false in Hd by tauto. apply snapshot_decode_exact in Hd as (_ & _ & _ & _ & [Hall _] & _).
    rewrite Forall_forall in Hall. apply Hall in Hin as [_ [_ Hle]]. simpl in Hle. lia.
Qed.
End Manifest.

Lemma snapshot_claim_returns `{Minicbor} `{Sha256} `{Ed25519} (view : AccountEntriesView) : ∃ r, snapshot_claim view = Some r.
Proof.
  unfold snapshot_claim. destruct (fold_account_returns (aev_held view)) as [held ->]. cbn [mbind option_bind].
  case_bool_decide; [eauto|]. destruct (hi_genesis_hash held); [|eauto]. case_bool_decide; [eauto|].
  destruct (prefix_covers (aev_held view) (accepted_control_heads view)) as (r & -> & _). cbn [mbind option_bind].
  destruct r as [prefix|]; [|eauto]. destruct (ignores_held_evidence _ _); [eauto|].
  destruct (fold_account_returns prefix) as [history ->]. cbn [mbind option_bind]. case_bool_decide; [eauto|].
  destruct (annex_encode _); eauto.
Qed.

(** C17.  An honest author and the readers agree: over a store's entries, the author always reaches an
    outcome, and fails only when its fold has no genesis or no control entry is accepted; the prefix of its
    watermarks is then exactly the control entries it accepted.  What it signs decodes to the manifest it
    meant and is [Verified] for every reader that holds the same entries.  Where it declines because
    the account is contested or because it holds an entry that its accepted chain leaves out, every
    claim over these watermarks would be refused for the same reason; where it declines for the
    number of devices, the encoder refuses the claim and no payload decodes to one. *)
Theorem snapshot_claim_verifies `{MinicborLaws} `{Sha256} `{Ed25519} (entries : list VerifiedAccountEntry) (view : AccountEntriesView) :
  NoDup (va_entry_hash <$> entries) → Forall entry_typed entries →
  account_entries_view (evidence_row <$> entries) = Some view →
  ∃ r prefix, snapshot_claim view = Some r ∧ covers entries (accepted_control_heads view) prefix ∧
    (∀ e, e ∈ prefix ↔ e ∈ entries ∧ ah_log_id (va_header e) = CONTROL_LOG ∧ va_entry_hash e ∈ aev_accepted view) ∧
    match r with
    | Ok AccountNotLive => ∀ targets, verify_snapshot entries targets = Some VerdictNotLive
    | Ok HeldEvidenceOffBranch =>
        ∀ hash, verify_snapshot entries [control_target hash (accepted_control_heads view)] = Some VerdictIgnoresHeldEvidence
    | Ok (CoverageExceedsEnvelope devices) => devices = len (accepted_control_heads view) ∧ SNAPSHOT_COVERED_MAX < devices ∧ ∀ hash,
        (∃ e, annex_encode (AnnexSnapshot SNAPSHOT_STATE_FORMAT_V1 0 [control_target hash (accepted_control_heads view)]) = Err e) ∧
        ∀ payload version epoch targets, annex_decode SNAPSHOT payload = Ok (AnnexKnown (AnnexSnapshot version epoch targets)) →
          control_target hash (accepted_control_heads view) ∉ targets
    | Ok (AuthorManifest _ manifest payload) =>
        ∃ hash, manifest = AnnexSnapshot 1 0 [control_target hash (accepted_control_heads view)] ∧
          annex_decode SNAPSHOT payload = Ok (AnnexKnown manifest) ∧
          verify_snapshot entries [control_target hash (accepted_control_heads view)] = Some VerdictVerified
    | Err _ => ∃ history, fold_account entries = Some history ∧ (hi_genesis_hash history = None ∨ prefix = [])
    end.
Proof.
  intros Hnd Hty Hview. unfold account_entries_view in Hview.
  destruct (derive_account_projection_settles (evidence_row <$> entries)) as (p & t & Hp & Hst). rewrite Hp in Hview. simpl in Hview.
  rewrite <- list_fmap_compose, list_fmap_id in Hview. injection Hview as <-.
  assert (∀ e, e ∈ entries → 0 ≤ ah_seq (va_header e)) as Hseq. { intros e He. rewrite Forall_forall in Hty. by apply Hty. }
  destruct (heads_prefix entries Hnd p t Hst Hseq) as (prefix & Hc & Hin). unfold own_view in *.
  set (view := mkAccountEntriesView entries (ap_accepted p)) in *.
  destruct (snapshot_claim_returns view) as [r Hr]. exists r, prefix. split; [done|]. split; [done|]. split; [exact Hin|]. clear Hin. revert Hr.
  unfold snapshot_claim, verify_snapshot. change (aev_held view) with entries. destruct (fold_account_returns entries) as [held Hheld]. rewrite Hheld.
  cbn [mbind option_bind]. case_bool_decide as Hlive; [by intros [= <-]|].
  destruct (hi_genesis_hash held) as [genesis|] eqn:Hg; [|intros [= <-]; eauto].
  case_bool_decide as Hnil. { intros [= <-]. exists held. split; [done|]. right. apply (covers_nil entries). by rewrite <- Hnil. }
  pose proof (cv_prefix _ _ _ Hc) as Hpre. rewrite Hpre. cbn [mbind option_bind].
  destruct (ignores_held_evidence prefix entries) eqn:Hig.
  { intros [= <-] hash. cbn [verify_targets]. unfold is_supported_target, verify_target. simpl. rewrite Hpre. simpl. by rewrite Hig. }
  destruct (fold_account_returns prefix) as [history Hf]. rewrite Hf. cbn [mbind option_bind].
  case_bool_decide as Hmax.
  { intros [= <-]. split_and!; [done|done|]. intros hash. destruct (manifest_over (ap_accepted p) entries hash Hmax) as [He Hd].
    split; [by eexists|exact Hd]. }
  destruct (manifest_wire (ap_accepted p) entries (folded_state_hash history)) as (payload & Henc & Hdec);
    [by apply Z.nlt_ge|done|apply sha256_length|].
  unfold control_target in Henc. fold view in Henc. rewrite Henc. intros [= <-]. exists (folded_state_hash history).
  split; [done|]. split; [done|]. cbn [verify_targets]. unfold is_supported_target, verify_target. simpl. rewrite Hpre. simpl.
  rewrite Hig, Hf. simpl. by rewrite bool_decide_false by tauto.
Qed.

(** ** The selected snapshot *)

(** *** Dominance is a preorder *)

Lemma find_by_key {A K} `{EqDecision K} (key : A → K) k (l : list A) :
  match List.find (fun x => bool_decide (key x = k)) l with
  | Some x => x ∈ l ∧ key x = k
  | None => ∀ x, x ∈ l → key x ≠ k
  end.
Proof.
  induction l as [|x l IH]; simpl; [by intros x ?%not_elem_of_nil|]. case_bool_decide as Hk; [split; [by left|done]|].
  destruct (List.find _ l); [destruct IH; split; [by right|done]|]. by intros y [->|?]%elem_of_cons; auto.
Qed.

Lemma forallb_elem {A} (f : A → bool) l : forallb f l = true ↔ ∀ x, x ∈ l → f x = true.
Proof. rewrite forallb_forall. by setoid_rewrite <- list_elem_of_In. Qed.

(** What dominance says: the first target of [a] for each log of [b] reaches at least as far. *)
Lemma dominates_spec a b :
  dominates a b = true ↔
  ∀ target, target ∈ b → ∃ mine, List.find (fun c => bool_decide (select_key c = select_key target)) a = Some mine ∧
    ∀ w, w ∈ st_covered target → reaches mine w = true.
Proof.
  unfold dominates. rewrite forallb_elem. split; intros Hall target Ht; specialize (Hall target Ht).
  - destruct (List.find _ a) as [mine|]; [|done]. exists mine. split; [done|]. by apply forallb_elem.
  - destruct Hall as (mine & -> & Hr). by apply forallb_elem.
Qed.

Lemma reaches_trans mine yours w :
  (∀ v, v ∈ st_covered yours → reaches mine v = true) → reaches yours w = true → reaches mine w = true.
Proof.
  unfold reaches at 2. pose proof (find_by_key cw_device_fingerprint (cw_device_fingerprint w) (st_covered yours)) as Hf.
  destruct (List.find _ (st_covered yours)) as [v|]; [|done]. destruct Hf as [Hv Hd]. intros Hall Hs%bool_decide_eq_true.
  specialize (Hall v Hv). unfold reaches in *. rewrite Hd in Hall. destruct (List.find _ (st_covered mine)); [|done].
  apply bool_decide_eq_true in Hall. apply bool_decide_eq_true. lia.
Qed.

Lemma dominates_trans a b c : dominates a b = true → dominates b c = true → dominates a c = true.
Proof.
  rewrite !dominates_spec. intros Hab Hbc target Ht. destruct (Hbc target Ht) as (yours & Hf & Hr).
  pose proof (find_by_key select_key (select_key target) b) as Hk. rewrite Hf in Hk. destruct Hk as [Hy Hk].
  destruct (Hab yours Hy) as (mine & Hm & Hr'). rewrite Hk in Hm. exists mine. split; [done|]. intros w Hw.
  eapply reaches_trans; [exact Hr'|by apply Hr].
Qed.

Definition above (x y : UsableSnapshot) : Prop :=
  dominates (us_targets x) (us_targets y) = true ∧ dominates (us_targets y) (us_targets x) = false.

Lemma above_trans x y z : above x y → above y z → above x z.
Proof.
  intros [Hxy Hyx] [Hyz Hzy]. split; [by eapply dominates_trans|]. apply not_true_iff_false. intros Hzx.
  assert (dominates (us_targets z) (us_targets y) = true); [by eapply dominates_trans|congruence].
Qed.

Lemma above_irrefl x : ¬ above x x.
Proof. intros [? ?]. congruence. Qed.

(** Nothing of a list is above its best candidate. *)
Definition maximal (usable : list UsableSnapshot) (s : UsableSnapshot) : Prop := s ∈ usable ∧ ∀ x, x ∈ usable → ¬ above x s.

#[local] Instance above_dec x y : Decision (above x y).
Proof. apply and_dec; apply _. Defined.

Lemma maximal_exists usable : usable ≠ [] → ∃ s, maximal usable s.
Proof.
  induction usable as [|x l IH]; [done|]. intros _. destruct (decide (l = [])) as [->|Hl].
  { exists x. split; [by left|]. intros y ->%list_elem_of_singleton. apply above_irrefl. }
  destruct (IH Hl) as (m & Hm & Hmax). destruct (decide (above x m)) as [Hx|Hx].
  - exists x. split; [by left|]. intros y [->|Hy]%elem_of_cons; [apply above_irrefl|]. intros Hyx.
    apply (Hmax y Hy). by eapply above_trans.
  - exists m. split; [by right|]. intros y [->|Hy]%elem_of_cons; [done|auto].
Qed.

Section Select.
Context (usable : list UsableSnapshot) (Hnd : NoDup (us_entry_hash <$> usable)).

Lemma strictly_dominated_iff s : s ∈ usable → strictly_dominated usable s = false ↔ ∀ x, x ∈ usable → ¬ above x s.
Proof using Hnd.
  intros Hs. unfold strictly_dominated. rewrite <- not_true_iff_false, existsb_exists. setoid_rewrite <- list_elem_of_In.
  setoid_rewrite andb_true_iff. setoid_rewrite andb_true_iff. setoid_rewrite bool_decide_eq_true. setoid_rewrite negb_true_iff.
  split.
  - intros Hno x Hx [Hd Hn]. apply Hno. exists x. split_and!; try done. intros Heq.
    assert (x = s) as -> by (by apply (NoDup_fmap_inj us_entry_hash usable)). congruence.
  - intros Hno (x & Hx & (_ & Hd) & Hn). by apply (Hno x Hx).
Qed.

(** The selector answers when there is a candidate: the least hash among those nothing is above. *)
Lemma snapshot_select_spec :
  match select usable with
  | None => usable = []
  | Some h => (∃ s, maximal usable s ∧ us_entry_hash s = h) ∧ ∀ s, maximal usable s → cle h (us_entry_hash s)
  end.
Proof using Hnd.
  assert (∀ h, h ∈ us_entry_hash <$> List.filter (λ c, negb (strictly_dominated usable c)) usable ↔ ∃ s, maximal usable s ∧ us_entry_hash s = h) as Hin.
  { intros h. rewrite list_elem_of_fmap. setoid_rewrite elem_of_filter_bool. setoid_rewrite negb_true_iff. unfold maximal. split.
    - intros (s & -> & Hd & Hs). exists s. split; [split; [done|by apply strictly_dominated_iff]|done].
    - intros (s & [Hs Hd] & <-). exists s. split; [done|]. split; [by apply strictly_dominated_iff|done]. }
  unfold select. destruct (min_hash _) as [h|] eqn:Hm.
  - apply min_hash_Some in Hm as [Hh Hmin]. split; [by apply Hin|]. intros s Hs. apply Hmin, Hin. eauto.
  - apply min_hash_None in Hm. destruct (decide (usable = [])) as [->|Hne]; [done|].
    destruct (maximal_exists usable Hne) as [s Hs]. exfalso.
    assert (us_entry_hash s ∈ us_entry_hash <$> List.filter (λ c, negb (strictly_dominated usable c)) usable) as Hx by (apply Hin; eauto).
    rewrite Hm in Hx. by apply not_elem_of_nil in Hx.
Qed.
End Select.

(** *** The usable rows *)

Section Usable.
Context `{Minicbor} `{Sha256} `{Ed25519}.
Context (db : AccountDb) (account : AccountId) (rows : list CandidateRow).

(** A stored snapshot that may be acted on: its author's cited incarnation is open and its claim verifies. *)
Definition usable (row : CandidateRow) (s : UsableSnapshot) : Prop :=
  ∃ targets owner authority, snapshot_targets row = Some targets ∧ ah_authority_ref (va_header (cr_verified row)) = Some owner ∧
    stored_owner_incarnation_effective db account owner (ah_device_fingerprint (va_header (cr_verified row))) = Ok (Effective authority) ∧
    verify_snapshot (held_entries rows) targets = Some VerdictVerified ∧
    s = mkUsableSnapshot (cr_entry_hash row) (List.filter is_supported_target targets).

Definition owner_read_fails (e : AnyError) : Prop :=
  require_foldable_account_control db account = Err e ∨
  ∃ row owner, row ∈ rows ∧ ah_authority_ref (va_header (cr_verified row)) = Some owner ∧
    stored_owner_incarnation_effective db account owner (ah_device_fingerprint (va_header (cr_verified row))) = Err e.

Lemma verify_returns held targets : ∃ v, verify_snapshot held targets = Some v.
Proof using Type.
  unfold verify_snapshot. destruct (fold_account_returns held) as [history ->]. cbn [mbind option_bind]. case_bool_decide; [eauto|].
  destruct (verify_targets_spec held targets 0) as (v & -> & _). eauto.
Qed.

Lemma usable_row_spec row :
  row ∈ rows →
  ∃ r, usable_row db account rows row = Some r ∧
    match r with
    | Err e => owner_read_fails e
    | Ok (Some s) => usable row s
    | Ok None => ∀ s, ¬ usable row s
    end.
Proof using Type.
  intros Hrow. unfold usable_row. destruct (snapshot_targets row) as [targets|] eqn:Ht.
  2: { eexists. split; [done|]. intros s (? & ? & ? & ? & _). congruence. }
  destruct (ah_authority_ref _) as [owner|] eqn:Ho.
  2: { eexists. split; [done|]. intros s (? & ? & ? & _ & ? & _). congruence. }
  destruct (stored_owner_incarnation_effective _ _ _ _) as [q|e] eqn:Hq.
  2: { eexists. split; [done|]. right. eauto. }
  assert (∀ s, usable row s → ∃ a, q = Effective a) as Heff.
  { intros s (? & owner' & a & _ & Ho' & Hq' & _). exists a. congruence. }
  destruct q as [authority| |]; try (eexists; split; [done|]; by intros s [a ?]%Heff).
  destruct (verify_returns (held_entries rows) targets) as [v Hv]. rewrite Hv. cbn [mbind option_bind]. eexists. split; [done|].
  case_bool_decide as Hvv.
  - subst v. exists targets, owner, authority. by split_and!.
  - intros s (targets' & ? & ? & Ht' & _ & _ & Hv' & _). congruence.
Qed.

Lemma usable_rows_spec l :
  (∀ row, row ∈ l → row ∈ rows) →
  ∃ r, usable_rows db account rows l = Some r ∧
    match r with
    | Err e => owner_read_fails e
    | Ok us => (∀ s, s ∈ us ↔ ∃ row, row ∈ l ∧ usable row s) ∧ sublist (us_entry_hash <$> us) (cr_entry_hash <$> l)
    end.
Proof using Type.
  induction l as [|row l IH]; intros Hl; cbn [usable_rows].
  { eexists. split; [done|]. split; [|constructor]. intros s. split; [by intros ?%not_elem_of_nil|]. by intros (row & ?%not_elem_of_nil & _). }
  destruct (usable_row_spec row) as (r & -> & Hr); [apply Hl; by left|]. cbn [mbind option_bind]. destruct r as [o|e]; [|eauto].
  destruct IH as (r' & -> & Hr'); [intros; apply Hl; by right|]. cbn [mbind option_bind]. eexists. split; [done|].
  destruct r' as [us|e]; [|done]. simpl. destruct Hr' as [Hin Hsub].
  assert (∀ s, (∃ x, x ∈ row :: l ∧ usable x s) ↔ usable row s ∨ s ∈ us) as Hcons.
  { intros s. rewrite Hin. setoid_rewrite elem_of_cons. naive_solver. }
  destruct o as [u|]; setoid_rewrite Hcons.
  - split.
    + intros s. rewrite elem_of_cons. split; [intros [->|?]; auto|]. intros [Hs|?]; [left|auto].
      destruct Hr as (? & ? & ? & ? & _ & _ & _ & ->), Hs as (? & ? & ? & ? & _ & _ & _ & ->). congruence.
    + destruct Hr as (? & ? & ? & _ & _ & _ & _ & ->). simpl. by apply sublist_skip.
  - split; [naive_solver|]. simpl. by apply sublist_cons.
Qed.
End Usable.

(** C20.  The snapshot a device acts on: over stored rows the lookup always answers; it fails only when a
    read of the authority tables does; it selects nothing only when no stored snapshot is usable; and
    what it selects is a usable snapshot (its claim verifies against everything held, its author's
    owner incarnation is open) that no usable snapshot covers more than, the one of least hash among
    those, so devices with the same usable snapshots choose the same. *)
Theorem selected_snapshot_sound `{Minicbor} `{Sha256} `{Ed25519} (db : AccountDb) (account : AccountId) (rows : list CandidateRow) :
  NoDup (cr_entry_hash <$> rows) →
  ∃ r, selected_snapshot db account rows = Some r ∧
    match r with
    | Err e => owner_read_fails db account rows e
    | Ok None => ∀ row s, row ∈ rows → ¬ usable db account rows row s
    | Ok (Some s) =>
        (∃ row, row ∈ rows ∧ usable db account rows row s) ∧
        (∀ row s', row ∈ rows → usable db account rows row s' → ¬ above s' s) ∧
        ∀ row s', row ∈ rows → usable db account rows row s' →
          (∀ row'' s'', row'' ∈ rows → usable db account rows row'' s'' → ¬ above s'' s') → cle (us_entry_hash s) (us_entry_hash s')
    end.
Proof.
  intros Hnd. unfold selected_snapshot, usable_snapshots. destruct (require_foldable_account_control db account) as [u|e] eqn:Hf.
  2: { eexists. split; [done|]. by left. }
  destruct (usable_rows_spec db account rows rows) as (r & -> & Hr); [done|]. cbn [mbind option_bind]. eexists. split; [done|].
  destruct r as [us|e]; [|done]. simpl. destruct Hr as [Hin Hsub].
  set (l := sort_by_key us_entry_hash us) in *.
  assert (∀ s, s ∈ l ↔ ∃ row, row ∈ rows ∧ usable db account rows row s) as Hl by (intros s; unfold l; by rewrite sort_by_key_perm).
  assert (NoDup (us_entry_hash <$> l)) as Hndl. { unfold l. rewrite sort_by_key_perm. by eapply sublist_NoDup. }
  pose proof (snapshot_select_spec l Hndl) as Hsel. destruct (select l) as [h|]; simpl.
  - destruct Hsel as [(s & [Hs Hmax] & <-) Hmin]. pose proof (find_by_key us_entry_hash (us_entry_hash s) l) as Hfind.
    destruct (List.find _ l) as [s'|]; [|by destruct (Hfind s Hs)]. destruct Hfind as [Hs' Heq].
    assert (s' = s) as -> by (by apply (NoDup_fmap_inj us_entry_hash l)). split; [by apply Hl|]. split.
    + intros row x Hrow Hx. apply Hmax, Hl. eauto.
    + intros row x Hrow Hx Hxmax. apply Hmin. split; [apply Hl; eauto|]. intros y (row' & Hy & Hu)%Hl. by eapply Hxmax.
  - intros row s Hrow Hs. assert (s ∈ l) as Hx by (apply Hl; eauto). rewrite Hsel in Hx. by apply not_elem_of_nil in Hx.
Qed.

(** ** Witnesses: the example account, and a snapshot of it by the second owner *)

Lemma wit_typed : Forall entry_typed wit_entries.
Proof. repeat constructor; by vm_compute. Qed.

Lemma wit_entries_distinct : NoDup (va_entry_hash <$> wit_entries).
Proof. by apply (bool_decide_unpack _); vm_compute. Qed.

Definition wit_view : AccountEntriesView :=
  default (mkAccountEntriesView [] ∅) (account_entries_view (evidence_row <$> wit_entries)).
Definition wit_manifest : bytes := match snapshot_claim wit_view with Some (Ok (AuthorManifest _ _ payload)) => payload | _ => [] end.

Lemma wit_entries_view_ok : account_entries_view (evidence_row <$> wit_entries) = Some wit_view.
Proof.
  unfold wit_view, account_entries_view. destruct (derive_account_projection_settles (evidence_row <$> wit_entries)) as (p & t & -> & _). done.
Qed.

Lemma wit_manifest_nonempty : wit_manifest ≠ [].
Proof. vm_compute. discriminate. Qed.

Lemma snapshot_claim_verifies_witness :
  wit_manifest ≠ [] ∧
  ∃ r prefix, snapshot_claim wit_view = Some r ∧ covers wit_entries (accepted_control_heads wit_view) prefix.
Proof.
  split; [exact wit_manifest_nonempty|].
  destruct (snapshot_claim_verifies wit_entries wit_view wit_entries_distinct wit_typed wit_entries_view_ok)
    as (r & prefix & Hr & Hc & _).
  exact (ex_intro _ r (ex_intro _ prefix (conj Hr Hc))).
Defined.

Definition wit_snapshot : VerifiedAccountEntry :=
  mkVerifiedAccountEntry
    (mkAccountEntryHeader wit_account ANNEX_LOG wit_second_device 0 None (Some (wit_hash x01)) SNAPSHOT 1 0 3 None (Some (wit_hash x02)))
    wit_manifest (wit_hash x09).
Definition wit_snapshot_rows : list CandidateRow := evidence_row <$> wit_entries ++ [wit_snapshot].
Lemma wit_rows_distinct : NoDup (cr_entry_hash <$> wit_snapshot_rows).
Proof. by apply (bool_decide_unpack _); vm_compute. Qed.

Definition wit_owner_db : AccountDb :=
  mkAccountDb ∅ None false
    (mkAuthTables ∅ ∅ ∅ {[wit_hash x02 := mkIncarnationRow wit_account wit_second_device 1 None
       (stored_boundary BoundaryOpen) (stored_boundary BoundaryOpen)]} ∅ ∅ ∅)
    (mkTableSyncWork ∅ ∅ ∅).

(** The snapshot is stored, verified and chosen. *)
Definition wit_selected : bool :=
  match selected_snapshot wit_owner_db wit_account wit_snapshot_rows with
  | Some (Ok (Some s)) => bool_decide (us_entry_hash s = wit_hash x09)
  | _ => false
  end.

Lemma selected_snapshot_sound_witness :
  wit_selected = true ∧ ∃ r, selected_snapshot wit_owner_db wit_account wit_snapshot_rows = Some r.
Proof.
  split; [vm_compute; reflexivity|].
  destruct (selected_snapshot_sound wit_owner_db wit_account wit_snapshot_rows wit_rows_distinct) as (r & Hr & _).
  exact (ex_intro _ r Hr).
Defined.
