(* ===== verification/FoldRegisters.v ===== *)
(** * The registers of a fold belong to its account ([account/fold.rs])

    A fold reads the entries of one account.  Every register it derives names that account: a
    removal or demotion writes under the account of its header, and an extension only joins a
    register that exists.  The device register of a log is therefore unique, so that the search for
    it in the register map does not depend on the iteration order. *)

From S2P Require Import Prelude Cbor Minicbor Hash Op Device Entry Stream Branch Envelope Candidate AccountOps FoldTypes Fold FoldDepth FoldTotal FoldPass FoldReplay FoldRooted FoldSafety FoldPerm.

Local Open Scope Z_scope.

Definition key_account (key : RegisterKey) : option AccountId :=
  match key with
  | RegisterDevice account _ _ | RegisterOwnerIncarnation account _ _ _ => Some account
  | RegisterGrant _ _ _ _ => None
  end.

Definition of_account (account : AccountId) (registers : Registers) : Prop :=
  ∀ key cut, registers !! key = Some cut → key_account key = Some account.

(** The register of a device is found where it is stored. *)
Lemma device_register_unique account registers log device :
  of_account account registers → device_register_of registers log device = registers !! RegisterDevice account log device.
Proof.
  intros Ha. unfold device_register_of. set (p := fun '(key, _) => _).
  assert (∀ key cut, (key, cut) ∈ map_to_list registers → p (key, cut) = true ↔ key = RegisterDevice account log device) as Hp.
  { intros key cut Hk%elem_of_map_to_list. apply Ha in Hk. unfold p. destruct key; [|done..]. simplify_eq/=.
    rewrite andb_true_iff, !bool_decide_eq_true. naive_solver. }
  destruct (List.find p (map_to_list registers)) as [[key cut]|] eqn:Hf; simpl.
  - apply List.find_some in Hf as [Hin Hk]. apply list_elem_of_In in Hin.
    pose proof (proj1 (Hp key cut Hin) Hk) as ->. by apply elem_of_map_to_list in Hin.
  - destruct (registers !! _) as [cut|] eqn:Hl; [|done]. apply elem_of_map_to_list in Hl as Hin.
    pose proof (List.find_none _ _ Hf _ (proj1 (list_elem_of_In _ _) Hin)) as Hn. by rewrite (proj2 (Hp _ _ Hin)) in Hn.
Qed.

(** A join returns one of the two cuts. *)
Lemma join_in_one view a b j : join_in view a b = Extended j → j = a ∨ j = b.
Proof.
  unfold join_in. destruct (join_cuts a b view) as [r|] eqn:Hj; [|done]. simpl. intros ->. revert Hj. unfold join_cuts.
  destruct a as [|sa ha], b as [|sb hb]; [naive_solver..|]. case_bool_decide.
  - case_bool_decide; naive_solver.
  - case_bool_decide; destruct (ancestry _ _ _) as [[]|]; naive_solver.
Qed.

(** ** A property of every register

    [P] holds of the registers of a fold when it holds of what a removal or a demotion writes, and
    when an extension of a register that has it keeps it. *)

Definition registers_all (P : RegisterKey → Cut → Prop) (registers : Registers) : Prop :=
  ∀ key cut, registers !! key = Some cut → P key cut.

Section Registers.
Context `{Minicbor} `{Sha256} `{Ed25519}.
Context (candidates : list FoldCandidate) (incs : Incarnations) (view : HeaderView).
Context (P : RegisterKey → Cut → Prop).
Context (Hcut : ∀ c key cut coord, c ∈ candidates → (key, cut, coord) ∈ cut_op_registers c → P key cut).
Context (Hextend : ∀ c key cut coord held, c ∈ candidates → cut_extend_register c = Some (key, cut, coord) → P key held → P key cut).

Definition rows_all (a : AdmittedCut) : Prop := ∀ key cut, (key, cut) ∈ ac_registers a → P key cut.

(** *** The admitted cuts *)

Lemma admission_rows p c a : c ∈ candidates → admission incs view p c = Admit a → rows_all a.
Proof using Hcut.
  intros Hc Ha key cut.
  assert (ac_registers a = (fun '(key, cut, _) => (key, cut)) <$> cut_op_registers c) as ->.
  { unfold admission in Ha. set (rows := cut_op_registers c) in *. clearbody rows. repeat (case_match; try done); by simplify_eq. }
  intros ([[k cut'] coord] & Heq & Hin)%list_elem_of_fmap. simplify_eq. by eapply Hcut.
Qed.

Lemma admit_rows idxs p :
  (∀ c, c ∈ idxs → c ∈ candidates) → Forall rows_all (admit_cut_registers incs view idxs p).1.
Proof using Hcut.
  intros Hin. unfold admit_cut_registers.
  assert (∀ acc, Forall rows_all acc.1 → Forall rows_all (foldl (admit_step incs view) acc idxs).1) as Hfold.
  { induction idxs as [|c l IH]; intros [adm q] Ha; [done|]. simpl. apply IH; [intros x Hx; apply Hin; by right|].
    unfold admit_step. destruct (admission incs view q c) eqn:Hadm; [done|done|]. apply Forall_app. split; [done|].
    apply Forall_singleton. eapply admission_rows; [apply Hin; by left|done]. }
  specialize (Hfold ([], p) (Forall_nil_2 _)). destruct (foldl _ _ _) as [adm q]. simpl in *. by rewrite sort_by_key_perm.
Qed.

Lemma reject_rows admitted p : Forall rows_all admitted → Forall rows_all (reject_sole_owner_cuts admitted p).1.
Proof using Type.
  intros Ha. unfold reject_sole_owner_cuts. case_bool_decide; [done|].
  assert (∀ acc, Forall rows_all acc.1 → Forall rows_all (foldl (fun '(kept, p) a =>
         if closes_open_incarnation (fc_op (ac_op a)) (st_owners (dp_state p))
         then (kept, set_cut_verdict (fc_hash (ac_op a)) (OutRejected LastOwner) p)
         else (kept ++ [a], p)) acc admitted).1) as Hfold; [|by apply (Hfold ([], p))].
  induction Ha as [|a l Ha Hl IH]; intros [kept q] Hk; [done|]. cbn [foldl]. apply IH.
  case_match; [done|]. apply Forall_app. split; [done|]. by apply Forall_singleton.
Qed.

Lemma stage_rows depth admitted working kept p :
  Forall rows_all admitted → Forall rows_all kept →
  match stage_loop view depth admitted working kept p with
  | Ok (kept', _) => Forall rows_all kept'
  | Err _ => True
  end.
Proof using Type.
  intros Ha. revert working kept p. induction Ha as [|a l Ha Hl IH]; intros working kept p Hk; [done|]. cbn [stage_loop].
  destruct (peek_registers view working a) as [[]|]; [by apply IH|apply IH|done].
  apply Forall_app. split; [done|]. by apply Forall_singleton.
Qed.

Lemma reserve_rows admitted p : Forall rows_all admitted → Forall rows_all (reserve_surviving_owner admitted p).1.
Proof using Type.
  intros Ha. unfold reserve_surviving_owner.
  assert (∀ acc, Forall rows_all acc.1.2 → Forall rows_all (foldl reserve_step acc admitted).1.2) as Hfold.
  { induction Ha as [|a l Ha Hl IH]; intros [[surviving kept] q] Hk; [done|]. cbn [foldl]. apply IH. unfold reserve_step.
    assert (Forall rows_all (kept ++ [a])) as Hs by (apply Forall_app; split; [done|by apply Forall_singleton]).
    case_match; [case_bool_decide|]; done. }
  specialize (Hfold (st_owners (dp_state p), [], p) (Forall_nil_2 _)). by destruct (foldl _ _ _) as [[surviving kept] q].
Qed.

(** *** The joins *)

Lemma join_register_all registers key cut :
  registers_all P registers → P key cut → registers_all P (join_register registers key cut view).2.
Proof using Type.
  intros Hr Hk. assert (∀ c, P key c → registers_all P (<[key := c]> registers)) as Hi.
  { intros c Hc k c' [[<- <-]|[_ ?]]%lookup_insert_Some; [done|eauto]. }
  unfold join_register. destruct (registers !! key) as [held|] eqn:Hh; [|by apply Hi].
  destruct (join_in view held cut) as [joined| |] eqn:Hj; [|done..]. apply Hi.
  apply join_in_one in Hj as [->| ->]; [by apply Hr|done].
Qed.

Lemma apply_registers_all registers a :
  rows_all a → registers_all P registers → registers_all P (apply_registers view registers a).
Proof using Type.
  unfold apply_registers, rows_all. intros Ha. revert registers. induction (ac_registers a) as [|[key cut] l IH]; intros registers Hr; [done|].
  cbn [foldl]. apply IH; [intros k c Hkc; eapply Ha; by right|]. apply join_register_all; [done|]. eapply Ha. by left.
Qed.

Lemma apply_all_registers registers admitted :
  Forall rows_all admitted → registers_all P registers → registers_all P (foldl (apply_registers view) registers admitted).
Proof using Type.
  intros Ha. revert registers. induction Ha as [|a l Ha Hl IH]; intros registers Hr; [done|]. cbn [foldl]. apply IH.
  by apply apply_registers_all.
Qed.

(** An extension has a register to join. *)
Lemma extends_all depth_registers idxs p :
  (∀ c, c ∈ idxs → c ∈ candidates) → registers_all P depth_registers →
  ∀ row, row ∈ (foldl (extend_step incs view depth_registers) ([], p) idxs).1 → P row.1.2 row.2.
Proof using Hextend.
  intros Hin Hr. assert (∀ acc, (∀ row, row ∈ acc.1 → P row.1.2 row.2) →
    ∀ row, row ∈ (foldl (extend_step incs view depth_registers) acc idxs).1 → P row.1.2 row.2) as Hfold.
  2: { apply (Hfold ([], p)). by intros row ?%not_elem_of_nil. }
  induction idxs as [|c l IH]; intros [ext q] Hx; [done|]. cbn [foldl]. apply IH; [intros x Hxl; apply Hin; by right|].
  unfold extend_step. destruct (extension incs view depth_registers q c) as [|o|x key cut] eqn:He; [done|done|]. simpl.
  intros row [Hrow| ->%list_elem_of_singleton]%elem_of_app; [by apply Hx|]. simpl. unfold extension in He.
  destruct (cut_extend_register c) as [[[k c'] coord]|] eqn:Hc; [|done]. repeat (case_match; try done). simplify_eq.
  destruct (depth_registers !! key) as [held|] eqn:Hk; [|by rewrite bool_decide_true in *].
  eapply Hextend; [apply Hin; by left|done|by apply Hr].
Qed.

Lemma extend_loop_all depth extends registers p :
  (∀ row, row ∈ extends → P row.1.2 row.2) → registers_all P registers →
  match extend_loop view depth extends registers p with Ok (registers', _) => registers_all P registers' | Err _ => True end.
Proof using Type.
  revert registers p. induction extends as [|[[c key] cut] l IH]; intros registers p Hx Hr; [done|]. cbn [extend_loop].
  assert (registers_all P (join_register registers key cut view).2) as Hj.
  { apply join_register_all; [done|]. apply (Hx (c, key, cut)). by left. }
  destruct (join_register registers key cut view) as [j r]. simpl in Hj.
  destruct j; [|done|]; apply IH; try done; intros row Hrow; apply Hx; by right.
Qed.

Lemma commit_all depth idxs admitted p :
  (∀ c, c ∈ idxs → c ∈ candidates) → Forall rows_all admitted → registers_all P (dp_registers p) →
  match commit_registers incs view depth idxs admitted p with Ok q => registers_all P (dp_registers q) | Err _ => True end.
Proof using Hextend.
  intros Hin Ha Hp. unfold commit_registers. set (q := foldl _ p admitted). set (registers := foldl _ (dp_registers p) admitted).
  assert (registers_all P registers) as Hr by (by apply apply_all_registers).
  pose proof (extends_all registers idxs q Hin Hr) as Hx. destruct (foldl _ ([], q) idxs) as [extends q']. simpl in Hx.
  pose proof (extend_loop_all depth (sort_by_key (fun '(c, _, _) => fc_hash c) extends) registers q') as Hl.
  destruct (extend_loop _ _ _ _ _) as [[registers' q2]|]; [|done]. simpl. apply Hl; [|done].
  intros row Hrow. rewrite sort_by_key_perm in Hrow. by apply Hx.
Qed.

Lemma fold_depth_all depth idxs p outcomes :
  NoDup (fc_hash <$> candidates) → (∀ c, c ∈ idxs → c ∈ candidates) → registers_all P (dp_registers p) →
  match fold_depth candidates incs view depth idxs p outcomes with
  | Ok (q, _) => registers_all P (dp_registers q)
  | Err q => registers_all P (dp_registers q)
  end.
Proof using Hcut Hextend.
  intros Hnd Hin Hp. pose proof (fold_depth_spec candidates incs view depth idxs p outcomes Hnd Hin) as Hspec.
  destruct (fold_depth _ _ _ _ _ _ _) as [[q o]|q] eqn:Hf.
  2: { destruct Hspec as (q' & Hk & ->). simpl. by rewrite (sk_registers _ _ _ Hk). }
  clear Hspec. unfold fold_depth in Hf. pose proof (admit_rows idxs p Hin) as Hn1.
  destruct (admit_kept candidates incs view idxs p Hin) as [Ha1 Hk1]. destruct (admit_cut_registers _ _ _ _) as [a1 p1]. simpl in *.
  pose proof (reject_rows a1 p1 Hn1) as Hn2. destruct (reject_kept candidates a1 p1 Ha1) as [Ha2 Hk2].
  destruct (reject_sole_owner_cuts a1 p1) as [a2 p2]. simpl in *. unfold stage_register_joins in Hf.
  pose proof (stage_rows depth a2 (dp_registers p2) [] p2 Hn2 (Forall_nil_2 _)) as Hn3.
  pose proof (stage_loop_kept candidates view depth a2 (dp_registers p2) [] p2 Ha2) as Hk3.
  destruct (stage_loop _ _ _ _ _ _) as [[a3 p3]|]; [|done]. cbn in Hf. destruct Hk3 as [Ha3 Hk3]; [by intros ? ?%not_elem_of_nil|].
  destruct (has_condemn_cycle a3 view); [done|]. pose proof (reserve_rows a3 p3 Hn3) as Hn4.
  destruct (reserve_kept candidates a3 p3 Ha3) as [_ Hk4]. destruct (reserve_surviving_owner a3 p3) as [a4 p4]. simpl in *.
  pose proof (commit_all depth idxs a4 p4 Hin Hn4) as Hn5. destruct (commit_registers _ _ _ _ _ _) as [p5|]; [|done]. cbn in Hf.
  rewrite (rederive_spec candidates incs view p5 Hnd) in Hf. unfold run_effect_pass in Hf. destruct (effect_pass _ _ _ _ _) as [s o'].
  simplify_eq/=. apply Hn5. by rewrite (sk_registers _ _ _ Hk4), (sk_registers _ _ _ Hk3), (sk_registers _ _ _ Hk2), (sk_registers _ _ _ Hk1).
Qed.

Lemma fold_depths_all rows p outcomes :
  NoDup (fc_hash <$> candidates) → (∀ row c, row ∈ rows → c ∈ row.2 → c ∈ candidates) → registers_all P (dp_registers p) →
  registers_all P (dp_registers (fold_depths candidates incs view rows p outcomes).1).
Proof using Hcut Hextend.
  intros Hnd. revert p outcomes. induction rows as [|[d idxs] rows IH]; intros p outcomes Hin Hp; [done|]. cbn [fold_depths].
  pose proof (fold_depth_all d idxs p outcomes Hnd (λ c, Hin (d, idxs) c ltac:(by left)) Hp) as Hd.
  destruct (fold_depth _ _ _ _ _ _ _) as [[q o]|q]; [|done]. apply IH; [|done]. intros row c Hrow. apply Hin. by right.
Qed.
End Registers.

(** The registers a traced fold returns have a property of the section above. *)
Lemma traced_registers_all `{Minicbor} `{Sha256} `{Ed25519} (entries : list VerifiedAccountEntry) (P : RegisterKey → Cut → Prop) exclusions genesis :
  (∀ c key cut coord, c ∈ cl_candidates (collect entries) → (key, cut, coord) ∈ cut_op_registers c → P key cut) →
  (∀ c key cut coord held, c ∈ cl_candidates (collect entries) → cut_extend_register c = Some (key, cut, coord) →
     P key held → P key cut) →
  let col := collect entries in
  registers_all P (dp_registers (pass_depths (cl_candidates col) (cl_headers col) (cl_outcomes col) exclusions genesis).1).
Proof.
  intros Hcut Hextend col. unfold pass_depths. apply (fold_depths_all (cl_candidates (collect entries))).
  - done.
  - done.
  - apply cands_NoDup.
  - intros [d l] c Hrow Hc. by eapply btree_candidate; [apply pass_strata_spec| |].
  - intros key cut. simpl. by rewrite lookup_empty.
Qed.


(** The registers of a fold over the entries of one account name that account, and the device
    register of a log is the one stored under it. *)
Theorem registers_name_account `{Minicbor} `{Sha256} `{Ed25519} (account : AccountId) (entries : list VerifiedAccountEntry) :
  (∀ e, e ∈ entries → ah_account_id (va_header e) = account) →
  ∃ h t, fold_account_traced entries true = Some (h, t) ∧
    ∀ trace, t = Some trace →
      of_account account (lt_registers trace) ∧
      ∀ log device, device_register_of (lt_registers trace) log device =
                    lt_registers trace !! RegisterDevice account log device.
Proof.
  intros Ha. destruct (fold_cases entries true) as (exclusions & r & Hok & Hr & Ht & _ & Hcase).
  exists (pr_history r), (pr_trace r). split; [done|]. intros trace Htrace.
  assert (of_account account (lt_registers trace)) as Hreg; [|split; [done|]; intros; by apply device_register_unique].
  destruct (find_genesis (cl_candidates (collect entries))) as [genesis|] eqn:Hg; [|by rewrite Hcase in Htrace].
  destruct (rooted_pass entries exclusions true genesis r Hg Hr) as (out & disc & _ & _ & _ & _ & _ & _ & Htr & _).
  rewrite Htrace in Htr. injection Htr as ->. cbn [lt_registers].
  apply (traced_registers_all entries (λ key _, key_account key = Some account)).
  - intros c key cut coord Hc Hin. apply (col_candidate _ _ (collect_collected entries)) in Hc as (He & _).
    apply Ha in He. unfold cut_op_registers, device_register, owner_register, fc_header in Hin.
    destruct (fc_op c); rewrite ?elem_of_cons, ?elem_of_nil in Hin; naive_solver.
  - done.
Qed.
