(* ===== verification/FoldFacts.v ===== *)
(** * The facts of a fold are well formed ([account/fold.rs], [derive_authority_facts])

    What the tables that persist the facts rely on: the blobs have their widths and the epochs fit
    a signed column, a closed enrollment has no open boundary, an incarnation that is closed without
    a boundary of its own belongs to a closed enrollment, and the cuts of a grant are those of a
    revocation, one for a device. *)

From S2P Require Import Prelude Cbor Minicbor Hash Op Device Entry Stream Branch Envelope Candidate AccountOps FoldTypes Fold FoldDepth FoldTotal FoldPass FoldReplay FoldRooted FoldSafety FoldPerm FoldRegisters.

Local Open Scope Z_scope.

(** ** Well-formed facts *)

Definition sql_int_max : Z := 2 ^ 63 - 1.

(** A value an [INTEGER] column holds. *)
Definition sql_ok (n : Z) : Prop := 0 ≤ n ≤ sql_int_max.

Definition boundary_ok (b : AuthorityBoundary) : Prop :=
  match b with BoundaryCut seq hash => cut_ok (CutAt seq hash) | _ => True end.

Record roster_fact_wf (f : RosterFact) : Prop := {
  rw_device : hash_ok (rr_device_fingerprint (rf_authority f));
  rw_effective : sql_ok (rf_effective_at f);
  rw_closed : opt_ok sql_ok (rf_closed_at f);
  rw_control : boundary_ok (rf_control_boundary f);
  rw_secrets : boundary_ok (rf_secrets_boundary f);
  rw_bounded : is_Some (rf_closed_at f) → rf_control_boundary f ≠ BoundaryOpen ∧ rf_secrets_boundary f ≠ BoundaryOpen;
  rw_content : map_Forall (λ _ b, boundary_ok b ∧ b ≠ BoundaryOpen ∧ b ≠ BoundaryClosed) (rf_content_boundaries f);
}.

Record owner_fact_wf (f : OwnerIncarnationFact) : Prop := {
  ow_device : hash_ok (oa_device_fingerprint (of_authority f));
  ow_effective : sql_ok (of_effective_at f);
  ow_closed : opt_ok sql_ok (of_closed_at f);
  ow_control : boundary_ok (of_control_boundary f);
  ow_secrets : boundary_ok (of_secrets_boundary f);
  ow_open : of_closed_at f = None → of_control_boundary f = BoundaryOpen ∧ of_secrets_boundary f = BoundaryOpen;
}.

Definition ownership_wf (f : StreamOwnershipFact) : Prop := hash_ok (sf_own_id f) ∧ sql_ok (sf_effective_at f).

Definition grant_fact_wf (f : GrantFact) : Prop :=
  hash_ok (ga_stream_id (gf_authority f)) ∧ hash_ok (ga_grantee_account_id (gf_authority f)) ∧
  sql_ok (gf_effective_at f) ∧ opt_ok sql_ok (gf_closed_at f).

Definition cuts_wf (cuts : list DeviceCut) : Prop :=
  Forall device_cut_ok cuts ∧ NoDup (dc_device_fingerprint <$> cuts).

(** The device has a closed enrollment. *)
Definition removed (refs : gmap RosterRef RosterFact) (device : DeviceFingerprint) : Prop :=
  ∃ r f, refs !! r = Some f ∧ rr_device_fingerprint (rf_authority f) = device ∧ is_Some (rf_closed_at f).

(** Closed, with an open boundary. *)
Definition unbounded (f : OwnerIncarnationFact) : Prop :=
  is_Some (of_closed_at f) ∧ (of_control_boundary f = BoundaryOpen ∨ of_secrets_boundary f = BoundaryOpen).

Record facts_wf (f : AuthorityFacts) : Prop := {
  fw_roster : map_Forall (λ r x, hash_ok r ∧ roster_fact_wf x) (af_roster_refs f);
  fw_owners : map_Forall (λ o x, hash_ok o ∧ owner_fact_wf x) (af_owner_incarnations f);
  fw_unbounded : map_Forall (λ o x, unbounded x → removed (af_roster_refs f) (oa_device_fingerprint (of_authority x)))
                   (af_owner_incarnations f);
  fw_ownership : map_Forall (λ _ x, ownership_wf x) (af_stream_ownership f);
  fw_grants : map_Forall (λ g x, hash_ok g ∧ grant_fact_wf x) (af_grants f);
  fw_cuts : map_Forall (λ g cuts, is_Some (af_grants f !! g ≫= gf_closed_at) ∧ cuts_wf cuts) (af_grant_cuts f);
}.

(** *** Updates of the maps *)

Lemma map_Forall_update {K V} `{Countable K} (P : K → V → Prop) (k : K) (up : V → V) (m m' : gmap K V) :
  update_expected k up m = Some m' → map_Forall P m → (∀ v, m !! k = Some v → P k v → P k (up v)) → map_Forall P m'.
Proof.
  unfold update_expected. destruct (m !! k) as [v|] eqn:Hk; [|done]. intros [= <-] Hm Hup. apply map_Forall_insert_2; [|done].
  by apply Hup, Hm.
Qed.

Lemma removed_update refs refs' k up device :
  (∀ x, rr_device_fingerprint (rf_authority (up x)) = rr_device_fingerprint (rf_authority x)) →
  (∀ x, is_Some (rf_closed_at x) → is_Some (rf_closed_at (up x))) →
  update_expected k up refs = Some refs' → removed refs device → removed refs' device.
Proof.
  unfold update_expected. destruct (refs !! k) as [v|] eqn:Hk; [|done]. intros Hd Hc [= <-] (r & x & Hr & Hx & Hcl).
  destruct (decide (r = k)) as [->|Hne].
  - simplify_eq. exists k, (up v). rewrite lookup_insert_eq, Hd. auto.
  - exists r, x. by rewrite lookup_insert_ne.
Qed.

Lemma removed_insert refs r x device : refs !! r = None → removed refs device → removed (<[r := x]> refs) device.
Proof. intros Hr (k & f & Hk & ? & ?). exists k, f. rewrite lookup_insert_ne; [done|]. by intros ->; simplify_eq. Qed.

(** Opening an enrollment under a fresh reference. *)
Lemma facts_wf_enroll f r x :
  facts_wf f → af_roster_refs f !! r = None → hash_ok r → roster_fact_wf x → facts_wf (set_roster_refs (<[r := x]> (af_roster_refs f)) f).
Proof.
  intros [? ? Hu ? ? ?] Hr Hh Hx. split; try done; simpl.
  - by apply map_Forall_insert_2.
  - intros o y Hy Hun. by apply removed_insert, (Hu o).
Qed.

Lemma facts_wf_roster f refs k up :
  facts_wf f → update_expected k up (af_roster_refs f) = Some refs →
  (∀ x, rr_device_fingerprint (rf_authority (up x)) = rr_device_fingerprint (rf_authority x)) →
  (∀ x, is_Some (rf_closed_at x) → is_Some (rf_closed_at (up x))) →
  (∀ x, roster_fact_wf x → roster_fact_wf (up x)) → facts_wf (set_roster_refs refs f).
Proof.
  intros [Hr ? Hu ? ? ?] Hup Hd Hc Hw. split; try done; simpl.
  - eapply map_Forall_update; [done|done|]. intros v _ [? ?]. auto.
  - intros o y Hy Hun. eapply removed_update; [done|done|done|]. by apply (Hu o).
Qed.

Lemma facts_wf_open_owner f o x :
  facts_wf f → hash_ok o → owner_fact_wf x → of_closed_at x = None →
  facts_wf (set_owner_incarnations (<[o := x]> (af_owner_incarnations f)) f).
Proof.
  intros [? ? ? ? ? ?] Ho Hx Hopen. split; try done; simpl; (apply map_Forall_insert_2; [|done]); [done|].
  intros [[e He] _]. by rewrite Hopen in He.
Qed.

Lemma facts_wf_owner f incs k up :
  facts_wf f → update_expected k up (af_owner_incarnations f) = Some incs →
  (∀ x, owner_fact_wf x → owner_fact_wf (up x)) →
  (∀ x, af_owner_incarnations f !! k = Some x → unbounded (up x) →
     removed (af_roster_refs f) (oa_device_fingerprint (of_authority (up x)))) →
  facts_wf (set_owner_incarnations incs f).
Proof.
  intros [? ? ? ? ? ?] Hup Hw Hu. split; try done; simpl.
  - eapply map_Forall_update; [done|done|]. intros v _ [? ?]. auto.
  - eapply map_Forall_update; [done|done|]. intros v Hv _. by apply Hu.
Qed.

(** ** The boundaries *)

Definition cut_registers_ok (registers : Registers) : Prop := registers_all (λ _ cut, cut_ok cut) registers.

Lemma boundary_from_cut_wf cut : cut_ok cut → boundary_ok (boundary_from_cut cut) ∧ boundary_from_cut cut ≠ BoundaryOpen.
Proof. by destruct cut. Qed.

Lemma register_boundary_wf registers key :
  cut_registers_ok registers → boundary_ok (register_boundary registers key) ∧ register_boundary registers key ≠ BoundaryOpen.
Proof.
  intros Hr. unfold register_boundary. destruct (registers !! key) as [cut|] eqn:Hk; [|done].
  apply boundary_from_cut_wf. by eapply Hr.
Qed.

Lemma close_roster_wf registers account device epoch cuts x :
  cut_registers_ok registers → sql_ok epoch → Forall content_cut_ok cuts → roster_fact_wf x →
  roster_fact_wf (close_roster_fact registers account device epoch cuts x).
Proof.
  intros Hr He Hcuts []. pose proof (register_boundary_wf registers) as Hb. split; simpl; try done; try by apply Hb.
  - by split; apply Hb.
  - assert (∀ m, map_Forall (λ _ b, boundary_ok b ∧ b ≠ BoundaryOpen ∧ b ≠ BoundaryClosed) m →
      map_Forall (λ _ b, boundary_ok b ∧ b ≠ BoundaryOpen ∧ b ≠ BoundaryClosed)
        (foldl (λ (m : gmap StreamId AuthorityBoundary) cut, <[ct_stream_id cut := BoundaryCut (ct_seq cut) (ct_hash cut)]> m) m cuts)) as Hfold;
      [|apply Hfold, map_Forall_empty].
    induction Hcuts as [|cut cuts (? & ? & ?) Hcuts IH]; intros m Hm; [done|]. cbn [foldl]. apply IH.
    by apply map_Forall_insert_2.
Qed.

Lemma demote_incarnation_wf registers account device owner_id epoch x :
  cut_registers_ok registers → sql_ok epoch → owner_fact_wf x →
  owner_fact_wf (demote_incarnation registers account device owner_id epoch x) ∧
  ¬ unbounded (demote_incarnation registers account device owner_id epoch x).
Proof.
  intros Hr He []. pose proof (register_boundary_wf registers) as Hb. split.
  - split; simpl; try done; by apply Hb.
  - unfold unbounded. simpl. intros [_ [Ho|Ho]]; by eapply Hb.
Qed.

(** ** The state of the derivation *)

(** [don]: the entries applied so far. *)
Record state_wf (don : AccountEntryHash → Prop) (s : FactState) : Prop := {
  sw_facts : facts_wf (fs_facts s);
  sw_refs r : is_Some (af_roster_refs (fs_facts s) !! r) → don r;
  sw_incarnations o : is_Some (af_owner_incarnations (fs_facts s) !! o) → don o;
  sw_grants g : is_Some (af_grants (fs_facts s) !! g) → don g;
  sw_roster d r : fs_roster s !! d = Some r →
    ∃ x, af_roster_refs (fs_facts s) !! r = Some x ∧ rr_device_fingerprint (rf_authority x) = d;
  sw_owners d o : fs_owners s !! d = Some o →
    ∃ x, af_owner_incarnations (fs_facts s) !! o = Some x ∧ oa_device_fingerprint (of_authority x) = d;
  sw_enrolled d : is_Some (fs_owners s !! d) → is_Some (fs_roster s !! d);
}.

Lemma state_wf_weaken (P Q : AccountEntryHash → Prop) s : (∀ h, P h → Q h) → state_wf P s → state_wf Q s.
Proof. intros Hpq []. split; auto. Qed.

(** Pointers into a map that gets an entry, or whose entry is updated keeping what they name. *)
Lemma points_insert {V} (name : V → bytes) (m : gmap bytes V) (ptr : gmap bytes bytes) d h v :
  name v = d → m !! h = None →
  (∀ d r, ptr !! d = Some r → ∃ x, m !! r = Some x ∧ name x = d) →
  ∀ d' r, <[d := h]> ptr !! d' = Some r → ∃ x, <[h := v]> m !! r = Some x ∧ name x = d'.
Proof.
  intros Hv Hh Hm d' r [[<- <-]|[_ Hr]]%lookup_insert_Some; [rewrite lookup_insert_eq; eauto|].
  destruct (Hm _ _ Hr) as (x & Hx & ?). exists x. rewrite lookup_insert_ne; [done|]. intros ->. simplify_eq.
Qed.

Lemma points_update {V} (name : V → bytes) (m m' : gmap bytes V) (ptr : gmap bytes bytes) k up :
  update_expected k up m = Some m' → (∀ v, name (up v) = name v) →
  (∀ d r, ptr !! d = Some r → ∃ x, m !! r = Some x ∧ name x = d) →
  ∀ d r, ptr !! d = Some r → ∃ x, m' !! r = Some x ∧ name x = d.
Proof.
  unfold update_expected. destruct (m !! k) as [v|] eqn:Hk; [|done]. intros [= <-] Hn Hm d r Hr.
  destruct (Hm _ _ Hr) as (x & Hx & <-). destruct (decide (r = k)) as [->|].
  - rewrite Hk in Hx. injection Hx as <-. exists (up v). by rewrite lookup_insert_eq, Hn.
  - exists x. by rewrite lookup_insert_ne.
Qed.

Lemma points_delete {V} (name : V → bytes) (m : gmap bytes V) (ptr : gmap bytes bytes) k :
  (∀ d r, ptr !! d = Some r → ∃ x, m !! r = Some x ∧ name x = d) →
  ∀ d r, delete k ptr !! d = Some r → ∃ x, m !! r = Some x ∧ name x = d.
Proof. intros Hm d r [_ Hr]%lookup_delete_Some. eauto. Qed.

Lemma update_expected_dom {K V} `{Countable K} (k i : K) (up : V → V) (m m' : gmap K V) :
  update_expected k up m = Some m' → is_Some (m' !! i) → is_Some (m !! i).
Proof.
  unfold update_expected. destruct (m !! k) as [v|] eqn:Hk; [|done]. intros [= <-].
  rewrite lookup_insert_is_Some'. intros [<-|?]; [by eexists|done].
Qed.

(** Applying one effective entry. *)
Definition row_ok (c : FoldCandidate) (epoch : Z) : Prop :=
  hash_ok (fc_hash c) ∧ sql_ok epoch ∧ account_op_ok (fc_op c) ∧ hash_ok (ah_device_fingerprint (fc_header c)) ∧
  match fc_op c with StreamRevoke _ _ _ cuts _ => NoDup (dc_device_fingerprint <$> cuts) | _ => True end.

Section Step.
Context (registers : Registers) (Hregs : cut_registers_ok registers).
Context (don : AccountEntryHash → Prop) (s : FactState) (c : FoldCandidate) (epoch : Z).
Context (Hs : state_wf don s) (Hc : row_ok c epoch) (Hfresh : ¬ don (fc_hash c)).

Local Abbreviation done' := (λ h, don h ∨ h = fc_hash c).

Lemma fresh_ref : af_roster_refs (fs_facts s) !! fc_hash c = None.
Proof using Hs Hfresh. apply eq_None_not_Some. intros ?%(sw_refs _ _ Hs). done. Qed.

Lemma fresh_incarnation : af_owner_incarnations (fs_facts s) !! fc_hash c = None.
Proof using Hs Hfresh. apply eq_None_not_Some. intros ?%(sw_incarnations _ _ Hs). done. Qed.

Lemma fresh_grant : af_grants (fs_facts s) !! fc_hash c = None.
Proof using Hs Hfresh. apply eq_None_not_Some. intros ?%(sw_grants _ _ Hs). done. Qed.

Lemma open_roster_wf device role : hash_ok device → roster_fact_wf (open_roster_fact device role epoch).
Proof using Hc. destruct Hc as (_ & He & _). intros Hd. split; simpl; done. Qed.

Lemma open_incarnation_wf device : hash_ok device → owner_fact_wf (open_incarnation_fact device epoch).
Proof using Hc. destruct Hc as (_ & He & _). intros Hd. by split. Qed.

(** Enrolling a device. *)
Definition enrolled (device : DeviceFingerprint) (role : DeviceRole) : AuthorityFacts :=
  set_roster_refs (<[fc_hash c := open_roster_fact device role epoch]> (af_roster_refs (fs_facts s))) (fs_facts s).

Lemma enroll_wf device role :
  hash_ok device → state_wf done' (mkFactState (enrolled device role) (<[device := fc_hash c]> (fs_roster s)) (fs_owners s)).
Proof using Hs Hc Hfresh.
  intros Hd. pose proof fresh_ref as Hf. destruct Hs as [Hw Hk Hi Hg Hr Ho He]. unfold enrolled. split; simpl; try done.
  - apply facts_wf_enroll; [done|done|by destruct Hc|by apply open_roster_wf].
  - intros r. rewrite lookup_insert_is_Some'. intros [<-|?]; [by right|left; auto].
  - auto.
  - auto.
  - by apply (points_insert (λ x, rr_device_fingerprint (rf_authority x))).
  - intros d Hd'. apply lookup_insert_is_Some'. right. auto.
Qed.

(** Opening the incarnation of a device that is enrolled. *)
Lemma open_owner_wf facts roster device :
  state_wf done' (mkFactState facts roster (fs_owners s)) → af_owner_incarnations facts = af_owner_incarnations (fs_facts s) →
  is_Some (roster !! device) → hash_ok device →
  state_wf done' (mkFactState
    (set_owner_incarnations (<[fc_hash c := open_incarnation_fact device epoch]> (af_owner_incarnations facts)) facts)
    roster (<[device := fc_hash c]> (fs_owners s))).
Proof using Hs Hc Hfresh.
  intros [Hw Hk Hi Hg Hr Ho He] Hincs Hd Hh. pose proof fresh_incarnation as Hf. simpl in *. split; simpl; try done.
  - apply facts_wf_open_owner; [done|by destruct Hc|by apply open_incarnation_wf|done].
  - intros o. rewrite lookup_insert_is_Some'. intros [<-|?]; [by right|auto].
  - apply (points_insert (λ x, oa_device_fingerprint (of_authority x))); [done|by rewrite Hincs|done].
  - intros d. rewrite lookup_insert_is_Some'. intros [<-|?]; auto.
Qed.

(** A role change, or another update of an enrollment that keeps its device and its closure. *)
Lemma roster_update_wf k up refs :
  update_expected k up (af_roster_refs (fs_facts s)) = Some refs →
  (∀ x, rr_device_fingerprint (rf_authority (up x)) = rr_device_fingerprint (rf_authority x)) →
  (∀ x, is_Some (rf_closed_at x) → is_Some (rf_closed_at (up x))) →
  (∀ x, roster_fact_wf x → roster_fact_wf (up x)) →
  state_wf don (mkFactState (set_roster_refs refs (fs_facts s)) (fs_roster s) (fs_owners s)).
Proof using Hs.
  intros Hup Hd Hcl Hw. destruct Hs as [Hf Hk Hi Hg Hr Ho He]. split; simpl; try done.
  - by eapply facts_wf_roster.
  - intros r Hx. eapply Hk, update_expected_dom; done.
  - by eapply (points_update (λ x, rr_device_fingerprint (rf_authority x))).
Qed.

Lemma with_role_wf role x : roster_fact_wf x → roster_fact_wf (with_role role x).
Proof using Type. intros []. by split. Qed.

(** Closing the open incarnation of a device. *)
Lemma owner_update_wf owner_id up incs :
  update_expected owner_id up (af_owner_incarnations (fs_facts s)) = Some incs →
  (∀ x, of_authority (up x) = of_authority x) → (∀ x, owner_fact_wf x → owner_fact_wf (up x)) →
  (∀ x, af_owner_incarnations (fs_facts s) !! owner_id = Some x → unbounded (up x) →
     removed (af_roster_refs (fs_facts s)) (oa_device_fingerprint (of_authority x))) →
  state_wf don (mkFactState (set_owner_incarnations incs (fs_facts s)) (fs_roster s) (fs_owners s)).
Proof using Hs.
  intros Hup Ha Hw Hu. destruct Hs as [Hf Hk Hi Hg Hr Ho He]. split; simpl; try done.
  - eapply facts_wf_owner; [done|done|done|]. intros x Hx. rewrite Ha. by apply Hu.
  - intros o Hx. eapply Hi, update_expected_dom; done.
  - eapply (points_update (λ x, oa_device_fingerprint (of_authority x))); [done| |done]. intros x. by rewrite Ha.
Qed.
End Step.

Lemma forget_owner_wf don s device :
  state_wf don s → state_wf don (mkFactState (fs_facts s) (fs_roster s) (delete device (fs_owners s))).
Proof.
  intros [Hf Hk Hi Hg Hr Ho He]. split; simpl; try done.
  - by apply (points_delete (λ x, oa_device_fingerprint (of_authority x))).
  - intros d [_ ?]%lookup_delete_is_Some. auto.
Qed.

Lemma forget_device_wf don s device :
  state_wf don s → state_wf don (mkFactState (fs_facts s) (delete device (fs_roster s)) (delete device (fs_owners s))).
Proof.
  intros [Hf Hk Hi Hg Hr Ho He]. split; simpl; try done.
  - by apply (points_delete (λ x, rr_device_fingerprint (rf_authority x))).
  - by apply (points_delete (λ x, oa_device_fingerprint (of_authority x))).
  - intros d [? ?]%lookup_delete_is_Some. apply lookup_delete_is_Some. auto.
Qed.

(** ** One step *)

Section Apply.
Context (registers : Registers) (Hregs : cut_registers_ok registers).
Context (don : AccountEntryHash → Prop).

(** The enrollment that a removal closes is closed after it. *)
Lemma remove_wf s s' account device cuts epoch :
  state_wf don s → sql_ok epoch → Forall content_cut_ok cuts →
  remove_facts registers account device cuts epoch s = Some s' → state_wf don s'.
Proof using Hregs.
  intros Hs He Hcuts. unfold remove_facts.
  destruct (fs_roster s !! device) as [r|] eqn:Hr.
  - destruct (update_expected r _ _) as [refs|] eqn:Hup; [|done]. cbn [mbind option_bind].
    assert (state_wf don (mkFactState (set_roster_refs refs (fs_facts s)) (fs_roster s) (fs_owners s))) as Hs1.
    { eapply roster_update_wf; [done|exact Hup|done|by intros|]. intros x Hx. by apply close_roster_wf. }
    assert (removed refs device) as Hrem.
    { destruct (sw_roster _ _ Hs device r Hr) as (x & Hx & Hd). unfold update_expected in Hup. rewrite Hx in Hup. injection Hup as <-.
      eexists r, _. rewrite lookup_insert_eq. split; [done|]. split; [done|]. by eexists. }
    destruct (fs_owners s !! device) as [o|] eqn:Ho.
    + destruct (update_expected o _ _) as [incs|] eqn:Hupo; [|done]. intros [= <-].
      apply (forget_device_wf _ (mkFactState _ (fs_roster s) (fs_owners s))).
      apply (owner_update_wf don (mkFactState (set_roster_refs refs (fs_facts s)) (fs_roster s) (fs_owners s)) Hs1 o (closed_incarnation epoch));
        [exact Hupo|done| |].
      * intros x []. split; simpl; try done.
      * intros x Hx _. simpl. destruct (sw_owners _ _ Hs device o Ho) as (y & Hy & <-). simpl in Hx. simplify_eq. done.
    + intros [= <-]. by apply (forget_device_wf _ (mkFactState _ (fs_roster s) (fs_owners s))).
  - cbn [mbind option_bind]. destruct (fs_owners s !! device) as [o|] eqn:Ho.
    { destruct (sw_enrolled _ _ Hs device) as [r' Hr']; [by eexists|]. simplify_eq. }
    intros [= <-]. apply (forget_device_wf don s device) in Hs.
    assert (set_owner_incarnations (af_owner_incarnations (fs_facts s)) (set_roster_refs (af_roster_refs (fs_facts s)) (fs_facts s)) =
      fs_facts s) as -> by (by destruct (fs_facts s)). done.
Qed.

Lemma demote_wf s s' account op device owner_id epoch :
  state_wf don s → sql_ok epoch → demote_facts registers account op device owner_id epoch s = Some s' → state_wf don s'.
Proof using Hregs.
  intros Hs He. unfold demote_facts. destruct (closes_open_incarnation _ _); [|by intros [= <-]].
  destruct (fs_roster s !! device) as [r|] eqn:Hr; [|done]. cbn [mbind option_bind].
  destruct (update_expected r _ _) as [refs|] eqn:Hup; [|done]. cbn [mbind option_bind].
  destruct (update_expected owner_id _ _) as [incs|] eqn:Hupo; [|done]. intros [= <-].
  apply (forget_owner_wf _ (mkFactState _ (fs_roster s) (fs_owners s))).
  assert (state_wf don (mkFactState (set_roster_refs refs (fs_facts s)) (fs_roster s) (fs_owners s))) as Hs1.
  { eapply roster_update_wf; [done|exact Hup|done|done|]. intros x Hx. by apply with_role_wf. }
  eapply (owner_update_wf _ _ Hs1); [exact Hupo|done| |].
  - intros x Hx. by apply demote_incarnation_wf.
  - intros x Hx Hu. exfalso. destruct (fw_owners _ (sw_facts _ _ Hs) owner_id x Hx) as [_ Hw].
    by destruct (demote_incarnation_wf registers account device owner_id epoch x Hregs He Hw).
Qed.

Lemma revoke_wf s grant_id cuts grant epoch :
  state_wf don s → sql_ok epoch → cuts_wf cuts → af_grants (fs_facts s) !! grant_id = Some grant →
  state_wf don (mkFactState
    (set_grants (<[grant_id := mkGrantFact (gf_authority grant) (gf_effective_at grant) (Some epoch)]> (af_grants (fs_facts s)))
       (<[grant_id := cuts]> (af_grant_cuts (fs_facts s))) (fs_facts s)) (fs_roster s) (fs_owners s)).
Proof using Type.
  intros Hs He Hcuts Hg. destruct Hs as [[? ? ? ? Hgr Hgc] Hk Hi Hgs Hr Ho Hen]. pose proof (Hgr grant_id grant Hg) as (? & ? & ? & ? & ?).
  split; simpl; try done.
  - split; simpl; try done.
    + by apply map_Forall_insert_2.
    + apply map_Forall_insert_2.
      * rewrite lookup_insert_eq. simpl. split; [by eexists|done].
      * intros g cs Hcs. destruct (Hgc g cs Hcs) as [Hclosed Hw]. split; [|done].
        destruct (decide (g = grant_id)) as [->|]; [rewrite lookup_insert_eq; by eexists|by rewrite lookup_insert_ne].
  - intros g. rewrite lookup_insert_is_Some'. intros [<-|?]; [|auto]. apply Hgs. by eexists.
Qed.

Lemma grant_wf s c epoch stream_id grantee role :
  state_wf don s → row_ok c epoch → ¬ don (fc_hash c) → hash_ok stream_id → hash_ok grantee →
  state_wf (λ h, don h ∨ h = fc_hash c) (mkFactState
    (set_grants (<[fc_hash c := mkGrantFact (mkGrantAuthority stream_id grantee role) epoch None]> (af_grants (fs_facts s)))
       (af_grant_cuts (fs_facts s)) (fs_facts s)) (fs_roster s) (fs_owners s)).
Proof using Type.
  intros Hs Hc Hfresh Hst Hgt. pose proof (fresh_grant don s c Hs Hfresh) as Hf. destruct Hc as (Hh & He & _).
  destruct Hs as [[? ? ? ? Hgr Hgc] Hk Hi Hgs Hr Ho Hen]. split; simpl; auto.
  - split; simpl; try done.
    + by apply map_Forall_insert_2.
    + intros g cs Hcs. destruct (Hgc g cs Hcs) as [Hclosed Hw]. split; [|done].
      destruct (decide (g = fc_hash c)) as [Hg|]; [|by rewrite lookup_insert_ne].
      assert (af_grants (fs_facts s) !! g = None) as Hn by (rewrite Hg; exact Hf). rewrite Hn in Hclosed. by destruct Hclosed.
  - intros g. rewrite lookup_insert_is_Some'. intros [<-|?]; auto.
Qed.

Lemma fact_step_wf s s' c epoch :
  state_wf don s → row_ok c epoch → ¬ don (fc_hash c) → fact_step registers s (c, epoch) = Some s' →
  state_wf (λ h, don h ∨ h = fc_hash c) s'.
Proof using Hregs.
  intros Hs Hc Hfresh Hstep. pose proof Hc as (Hh & He & Hop & Hsub & Hcuts). unfold fact_step in Hstep. revert Hstep.
  assert (∀ s', state_wf don s' → state_wf (λ h, don h ∨ h = fc_hash c) s') as Hweak
    by (intros t; apply state_wf_weaken; by left).
  destruct (fc_op c) eqn:Hopc; simpl in Hop; try (intros [= <-]; by apply Hweak).
  - assert (hash_ok (subject_device c)) as Hdev by (unfold subject_device; by rewrite Hopc).
    intros [= <-]. apply (open_owner_wf don s c epoch Hs Hc Hfresh (enrolled s c epoch (subject_device c) Owner)); [|done| |done].
    + by apply enroll_wf.
    + rewrite lookup_insert_eq. by eexists.
  - destruct Hop as (Hd & _). pose proof (enroll_wf don s c epoch Hs Hc Hfresh device_fingerprint role Hd) as Hen.
    case_bool_decide; intros [= <-]; [|done].
    apply (open_owner_wf don s c epoch Hs Hc Hfresh (enrolled s c epoch device_fingerprint role)); [done|done| |done].
    rewrite lookup_insert_eq. by eexists.
  - intros Hrem. apply Hweak. destruct Hop as (_ & _ & _ & ? & _). by eapply remove_wf.
  - destruct (fs_roster s !! device_fingerprint) as [r|] eqn:Hr; [|intros [= <-]; by apply Hweak].
    destruct (update_expected r _ _) as [refs|] eqn:Hup; [|done]. intros [= <-].
    apply (open_owner_wf don s c epoch Hs Hc Hfresh (set_roster_refs refs (fs_facts s))); [|done|by eexists|done].
    apply Hweak. eapply roster_update_wf; [done|exact Hup|done|done|]. intros x Hx. by apply with_role_wf.
  - intros Hdem. apply Hweak. by eapply demote_wf.
  - intros [= <-]. destruct Hop as (Hst & _). apply Hweak. destruct Hs as [[] Hk Hi Hgs Hr Ho Hen]. split; simpl; try done.
    split; simpl; try done. by apply map_Forall_insert_2.
  - intros [= <-]. destruct Hop as (? & ?). by apply grant_wf.
  - destruct (_ !! grant_id) as [grant|] eqn:Hg; intros [= <-]; apply Hweak; [|done].
    apply revoke_wf; [done|done| |done]. split; [|done]. by destruct Hop as (_ & _ & _ & ? & _).
Qed.

End Apply.

Lemma fact_loop_wf registers rows : cut_registers_ok registers → ∀ (don : AccountEntryHash → Prop) s s',
  state_wf don s → (∀ c epoch, (c, epoch) ∈ rows → row_ok c epoch ∧ ¬ don (fc_hash c)) →
  NoDup (fc_hash ∘ fst <$> rows) → fact_loop registers rows s = Some s' →
  state_wf (λ h, don h ∨ h ∈ fc_hash ∘ fst <$> rows) s'.
Proof.
  intros Hregs. induction rows as [|[c epoch] rows IH]; intros d s s' Hs Hrows Hnd.
  { intros [= <-]. eapply state_wf_weaken; [|exact Hs]. by left. }
  apply NoDup_cons in Hnd as [Hnin Hnd]. cbn [fact_loop]. destruct (fact_step registers s (c, epoch)) as [s1|] eqn:Hstep; [|done].
  cbn [mbind option_bind]. destruct (Hrows c epoch) as [Hc Hf]; [by left|]. intros Hl.
  apply (IH (λ h, d h ∨ h = fc_hash c)) in Hl; [| |intros x e Hx; split; [apply Hrows; by right|]|done].
  - eapply state_wf_weaken; [|exact Hl]. rewrite fmap_cons. intros h [[?| ->]|?]; [by left|right; by left|right; by right].
  - by eapply fact_step_wf.
  - intros [Hd| Heq]; [by eapply (Hrows x e); [right|]|]. apply Hnin. apply list_elem_of_fmap. by exists (x, e).
Qed.

(** ** The bounds of a fold *)

Section Depths.
Context `{Minicbor} `{Sha256} `{Ed25519}.

(** An incarnation [n] citations below the genesis has [n] others above it. *)
Lemma inc_depth_chain incs o n :
  inc_depth incs o n →
  ∃ l, length l = S n ∧ NoDup l ∧ ∀ x, x ∈ l → is_Some (inc_candidate incs x) ∧ ∃ m, (m ≤ n)%nat ∧ inc_depth incs x m.
Proof using Type.
  induction 1 as [mint Hg|o mint p n Hne Hm Hp Hd (l & Hl & Hnd & Hin)].
  - exists [inc_genesis_owner_id incs]. split; [done|]. split; [apply NoDup_singleton|].
    intros x ->%list_elem_of_singleton. split; [by eexists|]. exists 0%nat. split; [done|]. by eapply depth_genesis.
  - assert (inc_depth incs o (S n)) as Ho by (by eapply depth_cites).
    exists (o :: l). split; [simpl; lia|]. split.
    + constructor; [|done]. intros (_ & m & Hle & Hom)%Hin. pose proof (inc_depth_det incs o _ _ Ho Hom). lia.
    + intros x [->|Hx]%elem_of_cons; [split; [by eexists|by exists (S n)]|].
      destruct (Hin x Hx) as (? & m & ? & ?). split; [done|]. exists m. split; [lia|done].
Qed.

Context (entries : list VerifiedAccountEntry).
Local Abbreviation cands := (cl_candidates (collect entries)).

Lemma candidates_length : (length cands ≤ length entries)%nat.
Proof using Type.
  rewrite <- (length_fmap fc_hash cands), <- (length_fmap va_entry_hash entries).
  apply submseteq_length, NoDup_submseteq; [apply (col_nodup _ _ (collect_collected entries))|].
  intros h (c & -> & Hc)%list_elem_of_fmap. apply (col_candidate _ _ (collect_collected entries)) in Hc as (He & _).
  apply list_elem_of_fmap. by exists (fc_entry c).
Qed.

Lemma depth_bounded genesis o n : inc_depth (incarnations_build cands genesis) o n → (n < length entries)%nat.
Proof using Type.
  intros (l & Hl & Hnd & Hin)%inc_depth_chain. pose proof candidates_length.
  assert (length l ≤ length (fc_hash <$> cands))%nat as Hle; [|rewrite length_fmap in Hle; lia].
  apply submseteq_length, NoDup_submseteq; [done|]. intros x ([mint Hm] & _)%Hin.
  apply incs_sound in Hm as (Hm & _ & <-). by apply list_elem_of_fmap_2.
Qed.
End Depths.

Section Bounds.
Context `{Minicbor} `{Sha256} `{Ed25519}.
Context (entries : list VerifiedAccountEntry) (Hseq : ∀ e, e ∈ entries → 0 ≤ ah_seq (va_header e)).
Local Abbreviation col := (collect entries).
Local Abbreviation cands := (cl_candidates (collect entries)).

(** The effective entries are entries. *)
Lemma effective_count_bounded exclusions r :
  exclusions_ok cands exclusions → fold_account_pass entries exclusions false = Some r →
  0 ≤ hi_effective_count (pr_history r) ≤ Z.of_nat (length entries) ∧
  ∀ h e, hi_outcomes (pr_history r) !! h = Some (OutEffective e) → 0 ≤ e < hi_effective_count (pr_history r).
Proof using Hseq.
  intros Hok Hr. destruct (find_genesis cands) as [genesis|] eqn:Hfind.
  - destruct (rooted_pass entries exclusions false genesis r Hfind Hr) as (out & disc & _ & Ho & Hc & _). split.
    + rewrite Hc, normalize_insert_all. simpl. unfold len. split; [lia|]. apply inj_le.
      rewrite <- (length_fmap fst). etrans; [|apply candidates_length]. rewrite <- (length_fmap fc_hash cands).
      apply submseteq_length, NoDup_submseteq; [apply effective_list_keys|]. intros h Hh%effective_list_key.
      rewrite <- normalize_effective, <- Ho in Hh.
      destruct (final_effective entries Hseq exclusions false r genesis Hok Hr Hfind h Hh) as (c & <- & Hce).
      apply list_elem_of_fmap_2. by destruct Hce.
    + intros h e. rewrite Ho, Hc, normalized_epoch, normalize_insert_all. simpl. unfold len.
      intros [He Hl%lookup_lt_Some]. rewrite length_fmap in Hl. lia.
  - unfold fold_account_pass in Hr. rewrite Hfind in Hr. injection Hr as <-. split; [simpl; lia|].
    intros h e Hh. exfalso. pose proof (rootless_not_effective entries h) as Hne. unfold effective_in in Hne.
    by rewrite Hh in Hne.
Qed.
End Bounds.

(** The depth at which an account is contested is that of some candidate's author. *)
Section Contested.
Context `{Minicbor} `{Sha256} `{Ed25519}.
Context (candidates : list FoldCandidate) (incs : Incarnations) (view : HeaderView).

Lemma contested_depth rows p outcomes k :
  NoDup (fc_hash <$> candidates) → (∀ row c, row ∈ rows → c ∈ row.2 → c ∈ candidates) → dp_classification p = Live →
  dp_classification (fold_depths candidates incs view rows p outcomes).1 = Contested k → k ∈ rows.*1.
Proof using Type.
  intros Hnd. revert p outcomes. induction rows as [|[d idxs] rows IH]; intros p outcomes Hin Hlive; cbn [fold_depths].
  { simpl. by rewrite Hlive. }
  pose proof (fold_depth_spec candidates incs view d idxs p outcomes Hnd (λ c, Hin (d, idxs) c ltac:(by left))) as Hd.
  destruct (fold_depth _ _ _ _ _ _ _) as [[q o]|q].
  - destruct Hd as (q' & regs & Hk & Hr). intros Hc. right. apply IH in Hc; [done|intros row c Hrow; apply Hin; by right|].
    unfold run_effect_pass in Hr. destruct (effect_pass _ _ _ _ _). simplify_eq. simpl. by rewrite (sk_classification _ _ _ Hk).
  - destruct Hd as (q' & Hk & ->). simpl. intros [= <-]. by left.
Qed.
End Contested.

(** ** The history of a fold is well formed *)

Record history_wf (h : AccountAuthHistory) : Prop := {
  hw_facts : facts_wf (hi_facts h);
  hw_count : sql_ok (hi_effective_count h);
  hw_known_roster r : is_Some (af_roster_refs (hi_facts h) !! r) → is_known h r = true;
  hw_known_owner o : is_Some (af_owner_incarnations (hi_facts h) !! o) → is_known h o = true;
  hw_depth : match hi_classification h with Contested d => sql_ok (Z.of_nat d) | Live => True end;
  hw_once r r' f f' : af_roster_refs (hi_facts h) !! r = Some f → af_roster_refs (hi_facts h) !! r' = Some f' →
    rr_device_fingerprint (rf_authority f) = rr_device_fingerprint (rf_authority f') → r = r';
}.

(** What an entry read from the store has. *)
Definition entry_wf (e : VerifiedAccountEntry) : Prop :=
  hash_ok (va_entry_hash e) ∧ hash_ok (ah_device_fingerprint (va_header e)) ∧ 0 ≤ ah_seq (va_header e).

Section WellFormed.
Context `{MinicborLaws} `{Sha256} `{Ed25519}.

Lemma decoded_op_ok t bs op : ops_decode t bs = Ok (KnownOp op) → account_op_ok op ∧ ops_canonicalize op = Ok op.
Proof using All.
  unfold ops_decode. destruct (known_decoder t) as [d|] eqn:Hd; intros Hrun; inv_ok; [|congruence].
  match goal with H : run d bs = Ok ?o |- _ => apply run_Ok in H as [r Hrd]; rename o into op' end.
  case_bool_decide; inv_ok. by apply (known_decoder_sound t d Hd) in Hrd as (_ & ? & ?).
Qed.

Lemma canonical_revoke_cuts st g gr cuts reason :
  ops_canonicalize (StreamRevoke st g gr cuts reason) = Ok (StreamRevoke st g gr cuts reason) →
  NoDup (dc_device_fingerprint <$> cuts).
Proof using Type.
  unfold ops_canonicalize. intros Hc. inv_ok.
  match goal with H : canonical_device_cuts _ = Ok _ |- _ => apply canonical_cuts_Ok in H as [[Hs _] _] end.
  by apply strict_NoDup in Hs.
Qed.

Context (entries : list VerifiedAccountEntry) (Hwf : Forall entry_wf entries).
Local Abbreviation cands := (cl_candidates (collect entries)).

Lemma candidate_wf c :
  c ∈ cands → entry_wf (fc_entry c) ∧ account_op_ok (fc_op c) ∧ ops_canonicalize (fc_op c) = Ok (fc_op c).
Proof using All.
  intros (He & _ & Hd)%(col_candidate _ _ (collect_collected entries)). split; [by eapply Forall_forall in Hwf|].
  by eapply decoded_op_ok.
Qed.

Lemma pass_registers_ok exclusions genesis :
  cut_registers_ok (dp_registers (pass_depths cands (cl_headers (collect entries)) (cl_outcomes (collect entries)) exclusions genesis).1).
Proof using All.
  apply traced_registers_all.
  - intros c key cut coord (_ & Hop & _)%candidate_wf Hin. unfold cut_op_registers, device_register, owner_register in Hin.
    destruct (fc_op c); rewrite ?elem_of_cons, ?elem_of_nil in Hin; simpl in Hop; naive_solver.
  - intros c key cut coord held (_ & Hop & _)%candidate_wf Hc _. unfold cut_extend_register in Hc.
    destruct (fc_op c); try done. simpl in Hop. repeat case_match; simplify_eq/=; naive_solver.
Qed.

Lemma derived_wf outcomes registers facts count :
  cut_registers_ok registers → sql_ok count →
  (∀ h e, outcomes !! h = Some (OutEffective e) → 0 ≤ e < count) →
  derive_authority_facts cands outcomes registers = Some facts →
  facts_wf facts ∧
  (∀ r, is_Some (af_roster_refs facts !! r) → is_Some (outcomes !! r)) ∧
  (∀ o, is_Some (af_owner_incarnations facts !! o) → is_Some (outcomes !! o)).
Proof using All.
  intros Hr Hcount He. unfold derive_authority_facts. destruct (fact_loop _ _ _) as [s|] eqn:Hl; [|done]. intros [= <-].
  assert (∀ c e, (c, e) ∈ effective_rows cands outcomes → c ∈ cands ∧ outcomes !! fc_hash c = Some (OutEffective e)) as Hrows.
  { intros c e. unfold effective_rows. rewrite sort_by_key_perm. intros (x & Hx & Ho)%list_elem_of_omap.
    destruct (outcomes !! fc_hash x) as [[]|] eqn:Hxo; by simplify_eq. }
  assert (∀ h, h ∈ fc_hash ∘ fst <$> effective_rows cands outcomes → is_Some (outcomes !! h)) as Hknown.
  { intros h ([c e] & -> & [_ Ho]%Hrows)%list_elem_of_fmap. by eexists. }
  apply fact_loop_wf with (don := λ _, False) in Hl as [[Hro Hown Hun Hst Hg Hc] Hkr Hki _ _ _ _];
    [split; [split; try done; simpl|split]|done|split; simpl..| |].
  - intros r f. rewrite lookup_fmap. intros (f0 & Hf0 & ->)%fmap_Some. destruct (Hro r f0 Hf0) as [? []]. split; [done|].
    unfold project_registers. set (device := rr_device_fingerprint _).
    assert (∀ log held, boundary_ok held → boundary_ok (match device_register_of registers log device with
      | Some cut => boundary_from_cut cut | None => held end)) as Hb.
    { intros log held Hh. unfold device_register_of. destruct (List.find _ _) as [[key cut]|] eqn:Hfind; [|done]. simpl.
      apply List.find_some in Hfind as [Hfind _]. apply list_elem_of_In, elem_of_map_to_list in Hfind.
      by eapply boundary_from_cut_wf, Hr. }
    assert (∀ log held, held ≠ BoundaryOpen → match device_register_of registers log device with
      | Some cut => boundary_from_cut cut | None => held end ≠ BoundaryOpen) as Hno.
    { intros log held Hh. destruct (device_register_of registers log device) as [[]|]; done. }
    split; simpl; try done; try (by apply Hb). intros Hclosed. destruct (rw_bounded0 Hclosed). split; by apply Hno.
  - intros o x Hx Hu. destruct (Hun o x Hx Hu) as (r & f & Hf & ? & ?). exists r, (project_registers registers f).
    by rewrite lookup_fmap, Hf.
  - intros r. simpl. rewrite lookup_fmap, fmap_is_Some. intros [?|?]%Hkr; [done|auto].
  - intros o [?|?]%Hki; [done|auto].
  - split; simpl; apply map_Forall_empty.
  - intros r. rewrite lookup_empty. by intros [].
  - intros r. rewrite lookup_empty. by intros [].
  - intros r. rewrite lookup_empty. by intros [].
  - intros d r. by rewrite lookup_empty.
  - intros d r. by rewrite lookup_empty.
  - intros d. rewrite lookup_empty. by intros [].
  - intros c e [Hc Ho]%Hrows. split; [|by intros ?]. destruct (candidate_wf c Hc) as ((Hh & Hd & _) & Hop & Hcan). split_and!; [done| |done|done|].
    + apply He in Ho. unfold sql_ok in *. lia.
    + destruct (fc_op c); try done. by eapply canonical_revoke_cuts.
  - unfold effective_rows. rewrite sort_by_key_perm.
    assert (NoDup (fc_hash <$> cands)) as Hnd by apply cands_NoDup. clear -Hnd.
    induction (cands) as [|c l IH]; [constructor|]. apply NoDup_cons in Hnd as [Hnin Hnd]. cbn [omap list_omap].
    destruct (outcomes !! fc_hash c) as [[]|]; try by apply IH. constructor; [|by apply IH].
    intros ([x e] & Hx & Hin)%list_elem_of_fmap. simpl in Hx. apply list_elem_of_omap in Hin as (y & Hy & Ho).
    destruct (outcomes !! fc_hash y) as [[]|]; simplify_eq. apply Hnin. rewrite Hx. by apply list_elem_of_fmap_2.
Qed.

Lemma no_facts_wf : facts_wf no_facts.
Proof using Type. split; simpl; apply map_Forall_empty. Qed.

(** The fold of entries read from a store has a well-formed history. *)
Lemma fold_history_wf :
  len entries ≤ sql_int_max → ∃ h, fold_account entries = Some h ∧ history_wf h.
Proof using All.
  intros Hlen. assert (∀ e, e ∈ entries → 0 ≤ ah_seq (va_header e)) as Hseq.
  { intros e He. eapply Forall_forall in Hwf as (_ & _ & ?); done. }
  destruct (fold_enrollments entries Hseq) as (exclusions & r & Hok & Hr & Hh & _ & Honce).
  exists (pr_history r). split; [done|].
  destruct (effective_count_bounded entries Hseq exclusions r Hok Hr) as [Hcount He].
  assert (sql_ok (hi_effective_count (pr_history r))) as Hsql by (unfold sql_ok, len in *; lia).
  destruct (find_genesis cands) as [genesis|] eqn:Hfind.
  2: { unfold fold_account_pass in Hr. rewrite Hfind in Hr. injection Hr as <-. split; try done; intros x [? Hx]; simpl in Hx; by rewrite lookup_empty in Hx. }
  destruct (rooted_pass entries exclusions false genesis r Hfind Hr) as (out & disc & _ & Ho & _ & Hcl & _ & Hf & _).
  rewrite <- Ho in Hf. destruct (derived_wf _ _ _ _ (pass_registers_ok _ _) Hsql He Hf) as (Hwff & Hkr & Hko).
  split; [done|done| | | |done].
  - intros x Hx. by apply bool_decide_eq_true, Hkr.
  - intros x Hx. by apply bool_decide_eq_true, Hko.
  - rewrite Hcl. destruct (dp_classification _) as [|k] eqn:Hk; [done|]. unfold pass_depths in Hk.
    apply contested_depth in Hk; [| |intros [d idxs] c Hrow Hc; by eapply btree_candidate; [apply pass_strata_spec| |]|done];
      [|apply cands_NoDup].
    apply list_elem_of_fmap in Hk as ([d idxs] & -> & Hrow). simpl.
    pose proof (proj1 (pass_strata_spec (cl_outcomes (collect entries)) exclusions genesis cands)) as Hs.
    assert (∃ c, c ∈ idxs) as [c Hc].
    { destruct (proj1 (btree_elem _ _ _ _ _ _ Hs d idxs) Hrow) as [_ Hne]. destruct idxs; [done|]. eexists. by left. }
    destruct (btree_candidate _ _ _ _ _ _ Hs d idxs c Hrow Hc) as [_ (_ & _ & Hd)%placed_spec].
    destruct (author_depth_spec _ ∅ c (memo_ok_empty (pass_incs cands genesis))) as [Had _].
    unfold depth_of in Hd. rewrite Hd in Had. unfold author_depth_is in Had.
    destruct (author_incarnation_id c) as [inc|]; [|done].
    assert (d < length entries)%nat; [|unfold sql_ok, len in *; lia].
    eapply depth_bounded. unfold pass_incs in Had. by apply Had.
Qed.
End WellFormed.
