(* ===== verification/AuthRefine.v ===== *)
(** * The stored projection answers what the fold says ([account/storage.rs])

    The rewrite of [AuthStore] leaves in the tables exactly the facts of a history, with the columns
    the code computes for them, and no row of another account is touched.  The keyed reads of such
    tables then return what the queries of the fold return on the history, except that the reads of
    an open reference name a wrong subject before they look at the closing of the fact: the tables
    refine the fold, and no read fails on its own projection. *)

From S2P Require Import Prelude Cbor Minicbor Hash Op Device Entry Stream Branch Envelope Candidate AccountOps FoldTypes Snapshot Fold FoldDepth FoldTotal FoldPass FoldReplay FoldRooted FoldSafety FoldPerm FoldRegisters FoldFacts Refold Keywrap Acceptance SecretsOps Secrets SecretsFold SecretsSafety AuthStore.

Local Open Scope Z_scope.

(** ** Loops over rows *)

Lemma fold_rows_app {S A} (f : S → A → result AnyError S) l l' s :
  fold_rows f (l ++ l') s = (s' ← fold_rows f l s; fold_rows f l' s').
Proof. revert s. induction l as [|a l IH]; intros s; simpl; [done|]. destruct (f s a); simpl; [apply IH|done]. Qed.

Lemma fold_rows_ext {S A} (f g : S → A → result AnyError S) l s :
  (∀ s a, a ∈ l → f s a = g s a) → fold_rows f l s = fold_rows g l s.
Proof.
  revert s. induction l as [|a l IH]; intros s Hfg; simpl; [done|]. rewrite Hfg by left. destruct (g s a); simpl; [|done].
  apply IH. intros s' b Hb. apply Hfg. by right.
Qed.

Lemma fold_rows_fmap {S A B} (f : S → B → result AnyError S) (g : A → B) l s :
  fold_rows f (g <$> l) s = fold_rows (λ s a, f s (g a)) l s.
Proof. revert s. induction l as [|a l IH]; intros s; simpl; [done|]. destruct (f s (g a)); simpl; [apply IH|done]. Qed.

(** The rows of a nested loop. *)
Definition nested {K K' X V} (items : X → list (K' * V)) (l : list (K * X)) : list ((K * K') * V) :=
  l ≫= λ row, (λ p, ((row.1, p.1), p.2)) <$> items row.2.

Lemma fold_rows_nested {S K K' X V} (f : S → (K * K') * V → result AnyError S) (items : X → list (K' * V)) l s :
  fold_rows (λ s row, fold_rows (λ s p, f s ((row.1, p.1), p.2)) (items row.2) s) l s = fold_rows f (nested items l) s.
Proof.
  revert s. induction l as [|row l IH]; intros s; [done|]. cbn [fold_rows]. unfold nested. cbn [mbind list_bind].
  rewrite fold_rows_app, fold_rows_fmap. destruct (fold_rows _ (items row.2) s); simpl; [apply IH|done].
Qed.

Lemma elem_of_nested {K K' X V} (items : X → list (K' * V)) (l : list (K * X)) k k' v :
  ((k, k'), v) ∈ nested items l ↔ ∃ x, (k, x) ∈ l ∧ (k', v) ∈ items x.
Proof.
  unfold nested. rewrite list_elem_of_bind. split.
  - intros ([k0 x] & Hin & Hl). apply list_elem_of_fmap in Hin as ([k1 v1] & [= -> -> ->] & Hin). by exists x.
  - intros (x & Hl & Hin). exists (k, x). split; [|done]. apply list_elem_of_fmap. by exists (k', v).
Qed.

Lemma nested_NoDup {K K' X V} (items : X → list (K' * V)) (l : list (K * X)) :
  NoDup l.*1 → (∀ k x, (k, x) ∈ l → NoDup (items x).*1) → NoDup (nested items l).*1.
Proof.
  induction l as [|[k x] l IH]; intros Hnd Hitems; [constructor|]. unfold nested. cbn [mbind list_bind]. rewrite fmap_app.
  rewrite fmap_cons in Hnd. apply NoDup_cons in Hnd as [Hk Hnd]. apply NoDup_app. split; [|split].
  - rewrite <- list_fmap_compose. assert (NoDup (items x).*1) as Hx by (apply (Hitems k); left).
    rewrite (list_fmap_ext _ (pair k ∘ fst) (items x)) by done. rewrite list_fmap_compose. by apply (NoDup_fmap_2 (pair k)).
  - intros p (([k1 k2] & v) & -> & Hin)%list_elem_of_fmap ([[k3 k4] v'] & Heq & Hin')%list_elem_of_fmap. simpl in Heq.
    apply list_elem_of_fmap in Hin as (? & [= -> -> ->] & _). injection Heq as <- <-.
    apply elem_of_nested in Hin' as (y & Hy & _). apply Hk. by apply (list_elem_of_fmap_2 fst _ _ Hy).
  - apply IH; [done|]. intros k' y Hy. apply (Hitems k'). by right.
Qed.

Lemma find_unique {A K} `{EqDecision K} (key : A → K) (l : list A) (a : A) :
  NoDup (key <$> l) → a ∈ l → List.find (λ x, bool_decide (key x = key a)) l = Some a.
Proof.
  intros Hnd Ha. destruct (List.find _ l) as [x|] eqn:Hf.
  - apply List.find_some in Hf as [Hx Hk%bool_decide_eq_true]. apply list_elem_of_In in Hx. f_equal.
    by apply (NoDup_fmap_inj key l).
  - apply list_elem_of_In in Ha. apply (List.find_none _ _ Hf) in Ha. by rewrite bool_decide_eq_true_2 in Ha.
Qed.

(** ** A table of facts *)

Section Tables.
Context {K F R : Type} `{Countable K} (owner_of : R → bytes) (columns : F → result AnyError R).

(** The rows of the account are those of the facts. *)
Definition holds (account : AccountId) (facts : K → option F) (table : gmap K R) : Prop :=
  ∀ k, Ok <$> keyed owner_of account k table = columns <$> facts k.

Lemma insert_row_Ok (k : K) (r : R) (t t' : gmap K R) : insert_row k r t = Ok t' ↔ t !! k = None ∧ t' = <[k := r]> t.
Proof using Type.
  unfold insert_row. case_bool_decide as Hk.
  - split; [done|]. intros [Hn _]. rewrite Hn in Hk. by destruct Hk.
  - apply eq_None_not_Some in Hk. split; [by intros [= <-]|by intros [_ ->]].
Qed.

Lemma write_fact_Ok (t t' : gmap K R) (row : K * F) :
  write_fact columns t row = Ok t' ↔ ∃ r, columns row.2 = Ok r ∧ t !! row.1 = None ∧ t' = <[row.1 := r]> t.
Proof using Type. unfold write_fact. rewrite result_bind_Ok. split; intros (r & Hr & Hi); exists r; by rewrite insert_row_Ok in *. Qed.

Lemma keyed_Some account k (t : gmap K R) r : keyed owner_of account k t = Some r ↔ t !! k = Some r ∧ owner_of r = account.
Proof using Type. unfold keyed. destruct (t !! k) as [x|]; simpl; [case_bool_decide|]; split; intros Hx; destruct_and?; simplify_eq; done. Qed.

Lemma write_facts_lookup (l : list (K * F)) (t t' : gmap K R) :
  NoDup l.*1 → fold_rows (write_fact columns) l t = Ok t' →
  (∀ k f, (k, f) ∈ l → t !! k = None ∧ ∃ r, columns f = Ok r ∧ t' !! k = Some r) ∧
  (∀ k, k ∉ l.*1 → t' !! k = t !! k).
Proof using Type.
  revert t. induction l as [|[k f] l IH]; intros t Hnd Hl; cbn [fold_rows] in Hl.
  { injection Hl as <-. split; [by intros ? ? ?%elem_of_nil|done]. }
  rewrite fmap_cons in Hnd. apply NoDup_cons in Hnd as [Hk Hnd]. simpl in Hk. inv_ok.
  match goal with Hi : write_fact _ _ _ = Ok _ |- _ => apply write_fact_Ok in Hi as (row & Hcol & Hnone & ->); simpl in Hnone end.
  destruct (IH _ Hnd Hl) as [Hin Hout]. split.
  - intros k' f' [[= -> ->]|Hk']%elem_of_cons.
    + split; [done|]. exists row. split; [done|]. by rewrite (Hout k Hk), lookup_insert_eq.
    + assert (k' ≠ k) as Hne. { intros ->. apply Hk. by apply (list_elem_of_fmap_2 fst _ _ Hk'). }
      destruct (Hin k' f' Hk') as [Ht ?]. rewrite lookup_insert_ne in Ht by done. done.
  - intros k' Hni. rewrite fmap_cons, not_elem_of_cons in Hni. destruct Hni as [? Hni]. rewrite (Hout k' Hni). by apply lookup_insert_ne.
Qed.

Lemma write_facts_total (l : list (K * F)) (t : gmap K R) :
  NoDup l.*1 → (∀ k f, (k, f) ∈ l → t !! k = None ∧ ∃ r, columns f = Ok r) → ∃ t', fold_rows (write_fact columns) l t = Ok t'.
Proof using Type.
  revert t. induction l as [|[k f] l IH]; intros t Hnd Hl; [by exists t|]. rewrite fmap_cons in Hnd.
  apply NoDup_cons in Hnd as [Hk Hnd]. destruct (Hl k f) as (Ht & r & Hr); [by left|]. cbn [fold_rows].
  rewrite (proj2 (write_fact_Ok t _ (k, f)) (ex_intro _ r (conj Hr (conj Ht eq_refl)))). simpl. apply IH; [done|].
  intros k' f' Hk'. destruct (Hl k' f') as [? ?]; [by right|]. split; [|done]. rewrite lookup_insert_ne; [done|].
  intros ->. apply Hk. by apply (list_elem_of_fmap_2 fst _ _ Hk').
Qed.

(** The loop over the facts of an account on a table without rows of the account. *)
Lemma write_facts_hold account (facts : K → option F) (l : list (K * F)) (t t' : gmap K R) :
  NoDup l.*1 → (∀ k f, (k, f) ∈ l ↔ facts k = Some f) → (∀ f r, columns f = Ok r → owner_of r = account) →
  (∀ k, keyed owner_of account k t = None) → fold_rows (write_fact columns) l t = Ok t' →
  holds account facts t' ∧ ∀ other k, other ≠ account → keyed owner_of other k t' = keyed owner_of other k t.
Proof using Type.
  intros Hnd Hl Hown Hclear Hw. destruct (write_facts_lookup _ _ _ Hnd Hw) as [Hin Hout].
  assert (∀ k, facts k = None → t' !! k = t !! k) as Hsame.
  { intros k Hk. apply Hout. intros ([k0 f] & -> & Hkf)%list_elem_of_fmap. apply Hl in Hkf. simpl in Hk. congruence. }
  split.
  - intros k. destruct (facts k) as [f|] eqn:Hf.
    + apply Hl, Hin in Hf as (_ & r & Hr & Ht'). rewrite (proj2 (keyed_Some account k t' r)); [by simpl; rewrite Hr|]. split; [done|by eapply Hown].
    + unfold keyed. rewrite (Hsame k Hf). specialize (Hclear k). unfold keyed in Hclear. by rewrite Hclear.
  - intros other k Hne. unfold keyed. destruct (facts k) as [f|] eqn:Hf; [|by rewrite (Hsame k Hf)].
    apply Hl, Hin in Hf as (Ht & r & Hr & Ht'). rewrite Ht, Ht'. simpl. rewrite bool_decide_eq_false_2; [done|].
    rewrite (Hown f r Hr). congruence.
Qed.

(** [DELETE .. WHERE account]. *)
Lemma keyed_deleted account (t : gmap K R) k : keyed owner_of account k (filter (λ row, owner_of row.2 ≠ account) t) = None.
Proof using Type.
  apply eq_None_not_Some. intros [r [Hr Ho]%keyed_Some]. by apply map_lookup_filter_Some in Hr as [_ ?].
Qed.

Lemma keyed_kept account other (t : gmap K R) k :
  other ≠ account → keyed owner_of other k (filter (λ row, owner_of row.2 ≠ account) t) = keyed owner_of other k t.
Proof using Type.
  intros Hne. apply option_eq. intros r. rewrite !keyed_Some, map_lookup_filter_Some. simpl. split; [tauto|].
  intros [? <-]. done.
Qed.
End Tables.

(** ** The rewrite *)

Definition content_row (account : AccountId) (b : AuthorityBoundary) : result AnyError ContentBoundaryRow :=
  match b with
  | BoundaryCut seq hash => Ok (mkContentBoundaryRow account (be_bytes 8 seq) hash)
  | BoundaryOpen | BoundaryClosed => Err malformed_boundary
  end.
Definition cut_row (account : AccountId) (cut : DeviceCut) : result AnyError GrantCutRow :=
  Ok (mkGrantCutRow account (be_bytes 8 (dc_seq cut)) (dc_hash cut)).

(** The content boundaries and the grant cuts of a history, by the keys of their tables. *)
Definition content_of (facts : AuthorityFacts) (key : RosterRef * StreamId) : option AuthorityBoundary :=
  fact ← af_roster_refs facts !! key.1; rf_content_boundaries fact !! key.2.
Definition cut_of (facts : AuthorityFacts) (key : GrantId * DeviceFingerprint) : option DeviceCut :=
  cuts ← af_grant_cuts facts !! key.1; List.find (λ c, bool_decide (dc_device_fingerprint c = key.2)) cuts.

Definition content_items (fact : RosterFact) : list (StreamId * AuthorityBoundary) := map_to_list (rf_content_boundaries fact).
Definition cut_items (cuts : list DeviceCut) : list (DeviceFingerprint * DeviceCut) := (λ c, (dc_device_fingerprint c, c)) <$> cuts.
Definition content_list (facts : AuthorityFacts) := nested content_items (map_to_list (af_roster_refs facts)).
Definition cut_list (facts : AuthorityFacts) := nested cut_items (map_to_list (af_grant_cuts facts)).

Definition enqueue_step (account : AccountId) (now_ms : Z) (work : TableSyncWork) (row : RosterRef * RosterFact)
    : result AnyError TableSyncWork :=
  match rf_closed_at row.2 with
  | Some closed_at => enqueue_readoption_for_closed_fact account row.1 row.2 closed_at now_ms work
  | None => Ok work
  end.

Definition write_contents (account : AccountId) (t : gmap (RosterRef * StreamId) ContentBoundaryRow) (row : RosterRef * RosterFact) :=
  fold_rows (write_content_boundary account row.1) (content_items row.2) t.

Lemma write_roster_fact_Ok account now_ms tables work row s :
  write_roster_fact account now_ms (tables, work) row = Ok s ↔
  ∃ roster content work', write_fact (roster_row account) (at_roster tables) row = Ok roster ∧
    write_contents account (at_content tables) row = Ok content ∧ enqueue_step account now_ms work row = Ok work' ∧
    s = (set_content content (set_roster roster tables), work').
Proof.
  destruct row as [r f]. unfold write_roster_fact, write_fact, write_contents, enqueue_step, content_items. simpl. split.
  - intros (work' & Hw & (x & Hx & (roster & Hr & (content & Hc & [= <-])%result_bind_Ok)%result_bind_Ok)%result_bind_Ok)%result_bind_Ok.
    exists roster, content, work'. rewrite result_bind_Ok. split_and!; [by exists x|done..].
  - intros (roster & content & work' & (x & Hx & Hr)%result_bind_Ok & Hc & Hw & ->). rewrite Hw, Hx. simpl. rewrite Hr. simpl. by rewrite Hc.
Qed.

Lemma write_rosters_Ok account now_ms l tables work s :
  fold_rows (write_roster_fact account now_ms) l (tables, work) = Ok s ↔
  ∃ roster content work', fold_rows (write_fact (roster_row account)) l (at_roster tables) = Ok roster ∧
    fold_rows (write_contents account) l (at_content tables) = Ok content ∧
    fold_rows (enqueue_step account now_ms) l work = Ok work' ∧
    s = (set_content content (set_roster roster tables), work').
Proof.
  revert tables work. induction l as [|row l IH]; intros tables work; cbn [fold_rows].
  { split; [intros [= <-]; exists (at_roster tables), (at_content tables), work; by destruct tables|].
    intros (? & ? & ? & [= <-] & [= <-] & [= <-] & ->). by destruct tables. }
  rewrite result_bind_Ok. split.
  - intros ([t1 w1] & (ro & co & wo & Hr & Hc & Hw & [= -> ->])%write_roster_fact_Ok & (ro' & co' & wo' & ? & ? & ? & ->)%IH).
    exists ro', co', wo'. rewrite Hr, Hc, Hw. done.
  - intros (ro' & co' & wo' & (ro & Hr & ?)%result_bind_Ok & (co & Hc & ?)%result_bind_Ok & (wo & Hw & ?)%result_bind_Ok & ->).
    exists (set_content co (set_roster ro tables), wo). rewrite write_roster_fact_Ok, IH. split; [by exists ro, co, wo|].
    by exists ro', co', wo'.
Qed.

Section Rewrite.
Context (account : AccountId) (history : AccountAuthHistory) (Hwf : facts_wf (hi_facts history)).
Local Abbreviation facts := (hi_facts history).

Lemma write_contents_list t :
  fold_rows (write_contents account) (map_to_list (af_roster_refs facts)) t =
  fold_rows (write_fact (content_row account)) (content_list facts) t.
Proof using Hwf.
  unfold content_list. rewrite <- fold_rows_nested. apply fold_rows_ext. intros s [r f] Hrf. unfold write_contents.
  apply fold_rows_ext. intros s' [st b] Hb. simpl. apply elem_of_map_to_list in Hrf. apply elem_of_map_to_list in Hb.
  destruct (fw_roster _ Hwf r f Hrf) as [_ Hf]. destruct (rw_content _ Hf st b Hb) as (_ & ? & ?).
  unfold write_content_boundary, write_fact. simpl. by destruct b.
Qed.

Lemma write_cuts_list t :
  fold_rows (λ t row, fold_rows (write_cut account row.1) row.2 t) (map_to_list (af_grant_cuts facts)) t =
  fold_rows (write_fact (cut_row account)) (cut_list facts) t.
Proof using Type.
  unfold cut_list. rewrite <- fold_rows_nested. apply fold_rows_ext. intros s [g cuts] _. unfold cut_items. by rewrite fold_rows_fmap.
Qed.

Lemma content_list_spec :
  NoDup (content_list facts).*1 ∧ ∀ k b, (k, b) ∈ content_list facts ↔ content_of facts k = Some b.
Proof using Type.
  split; [apply nested_NoDup; [apply NoDup_fst_map_to_list|]; intros k x _; apply NoDup_fst_map_to_list|].
  intros [r st] b. unfold content_list, content_of. rewrite elem_of_nested, bind_Some. simpl.
  unfold content_items. split; intros (f & Hf & Hb); exists f; rewrite ?elem_of_map_to_list in *; done.
Qed.

Lemma cut_list_spec :
  NoDup (cut_list facts).*1 ∧ ∀ k c, (k, c) ∈ cut_list facts ↔ cut_of facts k = Some c.
Proof using Hwf.
  assert (∀ g cuts, af_grant_cuts facts !! g = Some cuts → NoDup (dc_device_fingerprint <$> cuts)) as Hnd.
  { intros g cuts Hg. by destruct (fw_cuts _ Hwf g cuts Hg) as (_ & _ & ?). }
  split.
  - apply nested_NoDup; [apply NoDup_fst_map_to_list|]. intros g cuts Hg%elem_of_map_to_list. unfold cut_items.
    rewrite <- list_fmap_compose. by apply (Hnd g).
  - intros [g d] c. unfold cut_list, cut_of. rewrite elem_of_nested, bind_Some. simpl.
    split; intros (cuts & Hg & Hc); exists cuts; rewrite elem_of_map_to_list in *; (split; [done|]).
    + unfold cut_items in Hc. apply list_elem_of_fmap in Hc as (c' & [= -> ->] & Hc).
      by apply (find_unique dc_device_fingerprint); [eapply Hnd|].
    + apply List.find_some in Hc as [Hc ?%bool_decide_eq_true]. subst d. unfold cut_items. apply list_elem_of_fmap. exists c.
      by rewrite list_elem_of_In.
Qed.

(** The tables hold the history of the account. *)
Record projects (t : AuthTables) : Prop := {
  pj_state : Ok <$> at_state t !! account = Some (state_row history);
  pj_roster : holds ro_account (roster_row account) account (λ r, af_roster_refs (hi_facts history) !! r) (at_roster t);
  pj_content : holds cb_account (content_row account) account (content_of (hi_facts history)) (at_content t);
  pj_incarnations : holds ir_account (incarnation_row account) account (λ o, af_owner_incarnations (hi_facts history) !! o) (at_incarnations t);
  pj_ownership : holds os_account (ownership_row account) account (λ s, af_stream_ownership (hi_facts history) !! s) (at_ownership t);
  pj_grants : holds gr_owner (grant_row account) account (λ g, af_grants (hi_facts history) !! g) (at_grants t);
  pj_cuts : holds gc_owner (cut_row account) account (cut_of (hi_facts history)) (at_cuts t);
}.

(** What the keyed reads of another account see. *)
Record same_rows (other : AccountId) (t t' : AuthTables) : Prop := {
  sr_state : at_state t' !! other = at_state t !! other;
  sr_roster k : keyed ro_account other k (at_roster t') = keyed ro_account other k (at_roster t);
  sr_content k : keyed cb_account other k (at_content t') = keyed cb_account other k (at_content t);
  sr_incarnations k : keyed ir_account other k (at_incarnations t') = keyed ir_account other k (at_incarnations t);
  sr_ownership k : keyed os_account other k (at_ownership t') = keyed os_account other k (at_ownership t);
  sr_grants k : keyed gr_owner other k (at_grants t') = keyed gr_owner other k (at_grants t);
  sr_cuts k : keyed gc_owner other k (at_cuts t') = keyed gc_owner other k (at_cuts t);
}.

(** The writes of the facts, each to its table. *)
Lemma rewrite_Ok now_ms tables work s :
  rewrite_authority_projection account history now_ms tables work = Ok s ↔
  ∃ state roster content incarnations ownership grants cuts work',
    state_row history = Ok state ∧
    fold_rows (write_fact (roster_row account)) (map_to_list (af_roster_refs facts)) (at_roster (clear_account account tables)) = Ok roster ∧
    fold_rows (write_fact (content_row account)) (content_list facts) (at_content (clear_account account tables)) = Ok content ∧
    fold_rows (write_fact (incarnation_row account)) (map_to_list (af_owner_incarnations facts)) (at_incarnations (clear_account account tables)) = Ok incarnations ∧
    fold_rows (write_fact (ownership_row account)) (map_to_list (af_stream_ownership facts)) (at_ownership (clear_account account tables)) = Ok ownership ∧
    fold_rows (write_fact (grant_row account)) (map_to_list (af_grants facts)) (at_grants (clear_account account tables)) = Ok grants ∧
    fold_rows (write_fact (cut_row account)) (cut_list facts) (at_cuts (clear_account account tables)) = Ok cuts ∧
    fold_rows (enqueue_step account now_ms) (map_to_list (af_roster_refs facts)) work = Ok work' ∧
    s = (mkAuthTables (<[account := state]> (delete account (at_state tables))) roster content incarnations ownership grants cuts, work').
Proof using Hwf.
  unfold rewrite_authority_projection. split.
  - intros (state & Hst & Hrun)%result_bind_Ok. apply result_bind_Ok in Hrun as (states & [_ ->]%insert_row_Ok & Hrun).
    apply result_bind_Ok in Hrun as ([t1 w1] & (ro & co & wo & Hr & Hc & Hw & [= -> ->])%write_rosters_Ok & Hrun).
    apply result_bind_Ok in Hrun as (inc & Hi & Hrun). apply result_bind_Ok in Hrun as (own & Ho & Hrun).
    apply result_bind_Ok in Hrun as (gr & Hg & Hrun). apply result_bind_Ok in Hrun as (cu & Hcu & [= <-]).
    rewrite write_contents_list in Hc by done. rewrite write_cuts_list in Hcu.
    exists state, ro, co, inc, own, gr, cu, wo. done.
  - intros (state & ro & co & inc & own & gr & cu & wo & Hst & Hr & Hc & Hi & Ho & Hg & Hcu & Hw & ->).
    assert (insert_row account state (at_state (clear_account account tables)) = Ok (<[account := state]> (delete account (at_state tables))))
      as Hins by (apply insert_row_Ok; split; [apply lookup_delete_eq|done]).
    rewrite Hst. cbn [mbind result_bind]. rewrite Hins. cbn [mbind result_bind].
    rewrite <- write_contents_list in Hc by done. rewrite <- write_cuts_list in Hcu.
    rewrite result_bind_Ok. eexists. split; [apply write_rosters_Ok; exists ro, co, wo; by split_and!|].
    simpl in Hi, Ho, Hg, Hcu |- *. rewrite Hi. simpl. rewrite Ho. simpl. rewrite Hg. simpl. by rewrite Hcu.
Qed.

(** The columns of a fact say whose it is. *)
Lemma roster_row_account f r : roster_row account f = Ok r → ro_account r = account.
Proof using Type. unfold roster_row. intros Hr. by inv_ok. Qed.
Lemma content_row_account b r : content_row account b = Ok r → cb_account r = account.
Proof using Type. unfold content_row. destruct b; by intros [= <-]. Qed.
Lemma incarnation_row_account f r : incarnation_row account f = Ok r → ir_account r = account.
Proof using Type. unfold incarnation_row. intros Hr. by inv_ok. Qed.
Lemma ownership_row_account f r : ownership_row account f = Ok r → os_account r = account.
Proof using Type. unfold ownership_row. intros Hr. by inv_ok. Qed.
Lemma grant_row_account f r : grant_row account f = Ok r → gr_owner r = account.
Proof using Type. unfold grant_row. intros Hr. by inv_ok. Qed.
Lemma cut_row_account c r : cut_row account c = Ok r → gc_owner r = account.
Proof using Type. by intros [= <-]. Qed.

(** The loop over the facts, on the rows a deletion leaves. *)
Lemma write_list_hold {K F R} `{Countable K} (owner_of : R → bytes) (columns : F → result AnyError R) facts l (t t' : gmap K R) :
  (∀ f r, columns f = Ok r → owner_of r = account) → NoDup l.*1 ∧ (∀ k f, (k, f) ∈ l ↔ facts k = Some f) →
  fold_rows (write_fact columns) l (filter (λ row, owner_of row.2 ≠ account) t) = Ok t' →
  holds owner_of columns account facts t' ∧ ∀ other k, other ≠ account → keyed owner_of other k t' = keyed owner_of other k t.
Proof using Type.
  intros Hown [Hnd Hl] Hw.
  destruct (write_facts_hold owner_of columns account facts l _ t' Hnd Hl Hown (keyed_deleted owner_of account t) Hw) as [Hh Ho].
  split; [done|]. intros other k Hne. rewrite Ho by done. by apply keyed_kept.
Qed.

Lemma map_list_spec {K F} `{Countable K} (m : gmap K F) :
  NoDup (map_to_list m).*1 ∧ ∀ k f, (k, f) ∈ map_to_list m ↔ m !! k = Some f.
Proof using Type. split; [apply NoDup_fst_map_to_list|apply elem_of_map_to_list]. Qed.

Lemma rewrite_holds now_ms tables work t' work' :
  rewrite_authority_projection account history now_ms tables work = Ok (t', work') →
  projects t' ∧ ∀ other, other ≠ account → same_rows other tables t'.
Proof using Hwf.
  intros (st & ro & co & inc & own & gr & cu & wo & Hst & Hr & Hc & Hi & Ho & Hg & Hcu & _ & [= -> ->])%rewrite_Ok.
  destruct (write_list_hold ro_account _ (λ r, _ !! r) _ _ _ roster_row_account (map_list_spec _) Hr) as [? ?].
  destruct (write_list_hold cb_account _ _ _ _ _ content_row_account content_list_spec Hc) as [? ?].
  destruct (write_list_hold ir_account _ (λ r, _ !! r) _ _ _ incarnation_row_account (map_list_spec _) Hi) as [? ?].
  destruct (write_list_hold os_account _ (λ r, _ !! r) _ _ _ ownership_row_account (map_list_spec _) Ho) as [? ?].
  destruct (write_list_hold gr_owner _ (λ r, _ !! r) _ _ _ grant_row_account (map_list_spec _) Hg) as [? ?].
  destruct (write_list_hold gc_owner _ _ _ _ _ cut_row_account cut_list_spec Hcu) as [? ?].
  split; [split; try done; simpl; by rewrite lookup_insert_eq, Hst|].
  intros other Hne. split; simpl; try (intros k; auto). by rewrite lookup_insert_ne, lookup_delete_ne.
Qed.

(** Whatever the arrival order of other accounts, a key of the facts is free. *)
Definition keys_free (tables : AuthTables) : Prop :=
  let t := clear_account account tables in
  (∀ r, is_Some (af_roster_refs facts !! r) → at_roster t !! r = None) ∧
  (∀ k, is_Some (content_of facts k) → at_content t !! k = None) ∧
  (∀ o, is_Some (af_owner_incarnations facts !! o) → at_incarnations t !! o = None) ∧
  (∀ s, is_Some (af_stream_ownership facts !! s) → at_ownership t !! s = None) ∧
  (∀ g, is_Some (af_grants facts !! g) → at_grants t !! g = None) ∧
  (∀ k, is_Some (cut_of facts k) → at_cuts t !! k = None).

(** The streams of a directory are 32 bytes wide. *)
Definition streams_ok (w : TableSyncWork) : Prop := ∀ row, row ∈ ts_streams w → hash_ok row.2.

Lemma to_column_sql n : sql_ok n → to_column n = Ok n.
Proof using Type. unfold sql_ok, sql_int_max, to_column. intros ?. by rewrite bool_decide_eq_true_2 by lia. Qed.
Lemma from_column_sql n : sql_ok n → from_column n = Ok n.
Proof using Type. unfold sql_ok, from_column. intros ?. by rewrite bool_decide_eq_true_2 by lia. Qed.
Lemma transpose_sql (f : Z → result AnyError Z) o : (∀ n, sql_ok n → f n = Ok n) → opt_ok sql_ok o → transpose f o = Ok o.
Proof using Type. intros Hf Ho. destruct o as [n|]; simpl in *; [|done]. by rewrite Hf. Qed.

Lemma roster_row_Ok f : roster_fact_wf f → roster_row account f =
  Ok (mkRosterRow account (rr_device_fingerprint (rf_authority f)) (DeviceRole_as_db_str (rr_current_role (rf_authority f)))
        (rf_effective_at f) (rf_closed_at f) (stored_boundary (rf_control_boundary f)) (stored_boundary (rf_secrets_boundary f))).
Proof using Type.
  intros Hf. unfold roster_row. rewrite to_column_sql by apply Hf. simpl. by rewrite (transpose_sql _ _ to_column_sql) by apply Hf.
Qed.
Lemma incarnation_row_Ok f : owner_fact_wf f → incarnation_row account f =
  Ok (mkIncarnationRow account (oa_device_fingerprint (of_authority f)) (of_effective_at f) (of_closed_at f)
        (stored_boundary (of_control_boundary f)) (stored_boundary (of_secrets_boundary f))).
Proof using Type.
  intros Hf. unfold incarnation_row. rewrite to_column_sql by apply Hf. simpl. by rewrite (transpose_sql _ _ to_column_sql) by apply Hf.
Qed.
Lemma ownership_row_Ok f : ownership_wf f → ownership_row account f = Ok (mkOwnershipRow account (sf_own_id f) (sf_effective_at f)).
Proof using Type. intros [_ Hf]. unfold ownership_row. by rewrite to_column_sql. Qed.
Lemma grant_row_Ok f : grant_fact_wf f → grant_row account f =
  Ok (mkGrantRow account (ga_stream_id (gf_authority f)) (ga_grantee_account_id (gf_authority f))
        (GrantRole_as_db_str (ga_role (gf_authority f))) (gf_effective_at f) (gf_closed_at f)).
Proof using Type.
  intros (_ & _ & He & Hc). unfold grant_row. rewrite to_column_sql by done. simpl. by rewrite (transpose_sql _ _ to_column_sql).
Qed.
Lemma content_row_Ok k b : content_of facts k = Some b → ∃ r, content_row account b = Ok r.
Proof using Hwf.
  unfold content_of. intros (f & Hf & Hb)%bind_Some. destruct (fw_roster _ Hwf _ f Hf) as [_ Hr].
  destruct (rw_content _ Hr _ b Hb) as (_ & ? & ?). destruct b; [done| |done]. by eexists.
Qed.

Lemma enqueue_total device stream roster_ref epoch now_ms w :
  sql_ok epoch → ∃ w', enqueue_readoption_work account device stream roster_ref epoch now_ms w = Ok w' ∧ ts_streams w' = ts_streams w.
Proof using Type. intros He. unfold enqueue_readoption_work. rewrite to_column_sql by done. simpl. by eexists. Qed.

(** A loop whose steps keep an invariant and succeed. *)
Lemma fold_rows_total {S A} (f : S → A → result AnyError S) (I : S → Prop) l s :
  I s → (∀ s a, I s → a ∈ l → ∃ s', f s a = Ok s' ∧ I s') → ∃ s', fold_rows f l s = Ok s' ∧ I s'.
Proof using Type.
  revert s. induction l as [|a l IH]; intros s Hs Hf; [by exists s|]. cbn [fold_rows].
  destruct (Hf s a Hs) as (s1 & Hs1 & Hi); [left|]. rewrite Hs1. simpl. apply IH; [done|]. intros s2 b ? ?. apply Hf; [done|by right].
Qed.

Lemma enqueue_step_total now_ms l w :
  (∀ row, row ∈ l → roster_fact_wf row.2) → streams_ok w → ∃ w', fold_rows (enqueue_step account now_ms) l w = Ok w' ∧ streams_ok w'.
Proof using Type.
  intros Hl Hw. apply (fold_rows_total _ streams_ok); [done|]. intros s [r f] Hs Hin. unfold enqueue_step. simpl.
  destruct (rf_closed_at f) as [epoch|] eqn:Hc; [|by exists s].
  assert (sql_ok epoch) as He. { pose proof (rw_closed _ (Hl _ Hin)) as Hx. simpl in Hx. by rewrite Hc in Hx. }
  unfold enqueue_readoption_for_closed_fact. destruct (context_streams account s) as [|st streams] eqn:Hst.
  - destruct (enqueue_total (rr_device_fingerprint (rf_authority f)) PRECONTEXT r epoch now_ms s He) as (w' & Hw' & Heq). exists w'.
    split; [done|]. unfold streams_ok. by rewrite Heq.
  - apply (fold_rows_total _ streams_ok); [done|]. intros s1 st1 Hs1 Hin1.
    assert (hash_ok st1) as Hlen.
    { rewrite <- Hst in Hin1. unfold context_streams, sort_unstable in Hin1. rewrite sort_by_key_perm in Hin1.
      apply list_elem_of_fmap in Hin1 as (row & -> & [_ Hrow]%list_elem_of_filter). by apply Hs, elem_of_elements. }
    rewrite (proj2 (id_fixed_Ok 32 st1 st1) (conj Hlen eq_refl)). simpl.
    destruct (enqueue_total (rr_device_fingerprint (rf_authority f)) st1 r epoch now_ms s1 He) as (w' & Hw' & Heq). exists w'.
    split; [done|]. unfold streams_ok. by rewrite Heq.
Qed.

Lemma state_row_Ok : sql_ok (hi_effective_count history) →
  match hi_classification history with Contested d => sql_ok (Z.of_nat d) | Live => True end → ∃ r, state_row history = Ok r.
Proof using Type.
  intros Hc Hd. unfold state_row. destruct (hi_classification history) as [|d]; [|rewrite to_column_sql by done]; simpl;
    rewrite to_column_sql by done; by eexists.
Qed.

(** The rewrite of a well-formed history fails only on a key another account holds. *)
Lemma rewrite_total now_ms tables work :
  history_wf history → keys_free tables → streams_ok work →
  ∃ s, rewrite_authority_projection account history now_ms tables work = Ok s.
Proof using Hwf.
  intros Hh (Kr & Kc & Ki & Ko & Kg & Kt) Hw. destruct (state_row_Ok (hw_count _ Hh) (hw_depth _ Hh)) as [st Hst].
  destruct (write_facts_total (roster_row account) (map_to_list (af_roster_refs facts)) (at_roster (clear_account account tables))) as [ro Hr];
    [apply NoDup_fst_map_to_list| |].
  { intros r f Hf%elem_of_map_to_list. split; [by apply Kr|]. rewrite roster_row_Ok; [by eexists|by apply (fw_roster _ Hwf r)]. }
  destruct (write_facts_total (content_row account) (content_list facts) (at_content (clear_account account tables))) as [co Hc];
    [apply content_list_spec| |].
  { intros k b Hb. apply (proj2 content_list_spec) in Hb. split; [by apply Kc|by eapply content_row_Ok]. }
  destruct (write_facts_total (incarnation_row account) (map_to_list (af_owner_incarnations facts)) (at_incarnations (clear_account account tables))) as [inc Hi];
    [apply NoDup_fst_map_to_list| |].
  { intros o f Hf%elem_of_map_to_list. split; [by apply Ki|]. rewrite incarnation_row_Ok; [by eexists|by apply (fw_owners _ Hwf o)]. }
  destruct (write_facts_total (ownership_row account) (map_to_list (af_stream_ownership facts)) (at_ownership (clear_account account tables))) as [own Ho];
    [apply NoDup_fst_map_to_list| |].
  { intros s f Hf%elem_of_map_to_list. split; [by apply Ko|]. rewrite ownership_row_Ok; [by eexists|by apply (fw_ownership _ Hwf s)]. }
  destruct (write_facts_total (grant_row account) (map_to_list (af_grants facts)) (at_grants (clear_account account tables))) as [gr Hg];
    [apply NoDup_fst_map_to_list| |].
  { intros g f Hf%elem_of_map_to_list. split; [by apply Kg|]. rewrite grant_row_Ok; [by eexists|by apply (fw_grants _ Hwf g)]. }
  destruct (write_facts_total (cut_row account) (cut_list facts) (at_cuts (clear_account account tables))) as [cu Hcu]; [by apply cut_list_spec| |].
  { intros k c Hk. apply (proj2 (cut_list_spec)) in Hk. split; [by apply Kt|by eexists]. }
  destruct (enqueue_step_total now_ms (map_to_list (af_roster_refs facts)) work) as (wo & Hwo & _); [|done|].
  { intros [r f] Hf%elem_of_map_to_list. by apply (fw_roster _ Hwf r). }
  eexists. apply rewrite_Ok. exists st, ro, co, inc, own, gr, cu, wo. by split_and!.
Qed.
End Rewrite.

(** ** Columns read back *)

Lemma role_roundtrip r : DeviceRole_from_db_str (DeviceRole_as_db_str r) = Ok r.
Proof. by destruct r. Qed.
Lemma grant_role_roundtrip r : GrantRole_from_db_str (GrantRole_as_db_str r) = Ok r.
Proof. by destruct r. Qed.

Lemma id_fixed_hash h : hash_ok h → id_fixed 32 h = Ok h.
Proof. intros Hh. by apply id_fixed_Ok. Qed.

Lemma id_fixed_seq n : id_fixed 8 (be_bytes 8 n) = Ok (be_bytes 8 n).
Proof. apply id_fixed_Ok. by rewrite length_be_bytes. Qed.

Lemma be_value_seq n : 0 ≤ n ≤ u64_max → be_value (be_bytes 8 n) = n.
Proof. intros ?. apply be_value_be_bytes. unfold u64_max in *. lia. Qed.

Lemma parse_stored b : boundary_ok b → parse_stored_boundary (stored_boundary b) = Ok b.
Proof.
  destruct b as [|seq hash|]; [done| |done]. intros [Hseq Hhash]. unfold parse_stored_boundary, stored_boundary.
  cbn [sb_seq sb_hash sb_kind]. rewrite bool_decide_eq_true_2 by done. rewrite id_fixed_seq. cbn [mbind result_bind].
  rewrite id_fixed_hash by done. cbn [mbind result_bind]. by rewrite be_value_seq.
Qed.

(** The closure a boundary is stored with agrees with it. *)
Lemma decode_stored b closed allow_closed_open allow_open_bounded :
  boundary_ok b → (b = BoundaryOpen → is_Some closed → allow_closed_open = true) →
  (b ≠ BoundaryOpen → closed = None → allow_open_bounded = true) →
  decode_stored_boundary (stored_boundary b) closed allow_closed_open allow_open_bounded = Ok b.
Proof.
  intros Hb Ho Hc. unfold decode_stored_boundary. rewrite parse_stored by done. simpl.
  destruct closed, b; simpl; rewrite ?Ho, ?Hc by (done || by eexists); done.
Qed.

Lemma validated_open_sql {T} (a : T) e c : sql_ok e → opt_ok sql_ok c →
  validated_fact a e c = Ok (Effective a) ∧
  validated_open_fact a e c = Ok (if bool_decide (is_Some c) then Invalid ReferencedEntryNotEffective else Effective a).
Proof.
  intros He Hc. assert (validated_fact a e c = Ok (Effective a)) as Hv.
  { unfold validated_fact. rewrite from_column_sql by done. simpl. by rewrite (transpose_sql _ _ from_column_sql). }
  split; [done|]. unfold validated_open_fact. by rewrite Hv.
Qed.

Lemma holds_Some {K F R} `{Countable K} (owner_of : R → bytes) (columns : F → result AnyError R) account facts (t : gmap K R) k f row :
  holds owner_of columns account facts t → facts k = Some f → columns f = Ok row → keyed owner_of account k t = Some row.
Proof.
  intros Hh Hf Hc. specialize (Hh k). rewrite Hf in Hh. simpl in Hh. rewrite Hc in Hh.
  by apply fmap_Some in Hh as (r & ? & [= ->]).
Qed.

Lemma holds_None {K F R} `{Countable K} (owner_of : R → bytes) (columns : F → result AnyError R) account facts (t : gmap K R) k :
  holds owner_of columns account facts t → facts k = None → keyed owner_of account k t = None.
Proof. intros Hh Hf. specialize (Hh k). rewrite Hf in Hh. by apply fmap_None in Hh. Qed.

(** ** The reads *)

Section Reads.
Context (account : AccountId) (history : AccountAuthHistory) (Hh : history_wf history) (Haccount : hash_ok account).
Context (db : AccountDb) (Hproj : projects account history (db_auth db)).
Context (Hpolicy : require_foldable_account_control db account = Ok tt).
Local Abbreviation facts := (hi_facts history).

(** The entry of a reference is held for the account exactly when the fold knows it. *)
Definition held_as (reference : AccountEntryHash) : Prop :=
  match db_entries db !! reference with
  | Some row => er_account row = account ∧ is_known history reference = true
  | None => is_known history reference = false
  end.

Lemma missing_held {T} reference :
  held_as reference →
  missing_reference db account reference =
    Ok (if is_known history reference then Invalid (T := T) ReferencedEntryNotEffective else UnknownQuery).
Proof using Haccount.
  unfold held_as, missing_reference. destruct (db_entries db !! reference) as [row|]; [|by intros ->].
  intros [Hrow ->]. rewrite Hrow, id_fixed_hash by done. simpl. by rewrite bool_decide_eq_false_2 by (intros ?; done).
Qed.

Definition stored_roster (f : RosterFact) : RosterRow :=
  mkRosterRow account (rr_device_fingerprint (rf_authority f)) (DeviceRole_as_db_str (rr_current_role (rf_authority f)))
    (rf_effective_at f) (rf_closed_at f) (stored_boundary (rf_control_boundary f)) (stored_boundary (rf_secrets_boundary f)).

Lemma roster_wf r f : af_roster_refs facts !! r = Some f → roster_fact_wf f.
Proof using Hh. intros Hf. by apply (fw_roster _ (hw_facts _ Hh) r). Qed.

Lemma keyed_roster r : keyed ro_account account r (at_roster (db_auth db)) = stored_roster <$> af_roster_refs facts !! r.
Proof using Hh Hproj.
  destruct (af_roster_refs facts !! r) as [f|] eqn:Hf; simpl.
  - eapply holds_Some; [apply Hproj|done|]. by apply roster_row_Ok, (roster_wf r).
  - by eapply holds_None; [apply Hproj|].
Qed.

Lemma load_roster r :
  load_roster_fact db account r = Ok ((λ f, (rf_authority f, rf_effective_at f, rf_closed_at f)) <$> af_roster_refs facts !! r).
Proof using Hh Hproj Hpolicy.
  unfold load_roster_fact. rewrite Hpolicy. cbn [mbind result_bind]. rewrite keyed_roster.
  destruct (af_roster_refs facts !! r) as [f|] eqn:Hf; simpl; [|done].
  rewrite id_fixed_hash by apply (roster_wf r f Hf). simpl. rewrite role_roundtrip. simpl. by destruct (rf_authority f).
Qed.

Lemma keyed_content r f st :
  af_roster_refs facts !! r = Some f →
  match keyed cb_account account (r, st) (at_content (db_auth db)) with
  | Some cut => seq ← id_fixed 8 (cb_seq cut); hash ← id_fixed 32 (cb_hash cut); Ok (BoundaryCut (be_value seq) hash)
  | None => Ok (if bool_decide (rf_closed_at f = None) then BoundaryOpen else BoundaryClosed)
  end =
  Ok match rf_content_boundaries f !! st with
     | Some b => b
     | None => if bool_decide (rf_closed_at f = None) then BoundaryOpen else BoundaryClosed
     end.
Proof using Hh Hproj.
  intros Hf. assert (content_of facts (r, st) = rf_content_boundaries f !! st) as Hc by (unfold content_of; simpl; by rewrite Hf).
  destruct (rf_content_boundaries f !! st) as [b|] eqn:Hb.
  - destruct (rw_content _ (roster_wf r f Hf) st b Hb) as (Hok & ? & ?). destruct b as [|seq hash|]; try done. destruct Hok as [? ?].
    erewrite holds_Some; [|apply Hproj|exact Hc|done]. cbn [cb_seq cb_hash]. rewrite id_fixed_seq. cbn [mbind result_bind].
    rewrite id_fixed_hash by done. cbn [mbind result_bind]. by rewrite be_value_seq.
  - by erewrite holds_None; [|apply Hproj|exact Hc].
Qed.

Lemma roster_content_read (r : RosterRef) device st :
  held_as r → stored_roster_content_authority db account r device st = Ok (roster_content_authority history r device st).
Proof using All.
  intros Hr. unfold stored_roster_content_authority, roster_content_authority. rewrite load_roster. cbn [mbind result_bind].
  destruct (af_roster_refs facts !! r) as [f|] eqn:Hf; simpl.
  - unfold require_subject. destruct (decide (rr_device_fingerprint (rf_authority f) = device)) as [Hd|Hd].
    2: { by rewrite (bool_decide_eq_true_2 (_ ≠ _)), (bool_decide_eq_false_2 (_ = device)). }
    rewrite (bool_decide_eq_false_2 (_ ≠ _)), (bool_decide_eq_true_2 (_ = device)) by auto. cbn [mbind result_bind].
    pose proof (roster_wf r f Hf) as Hwf. rewrite from_column_sql by apply Hwf. simpl.
    rewrite (transpose_sql _ _ from_column_sql) by apply Hwf. cbn [mbind result_bind].
    rewrite keyed_content with (f := f) by done. done.
  - by apply missing_held.
Qed.

(** A closed reference of another device: the fold says it is not effective, the tables that the
    subject is wrong. *)
Lemma roster_ref_read (r : RosterRef) device :
  held_as r → stored_roster_ref_effective db account r device =
    Ok match af_roster_refs facts !! r with
       | Some f => if bool_decide (rr_device_fingerprint (rf_authority f) ≠ device) then Invalid WrongSubject
                   else roster_ref_effective history r device
       | None => roster_ref_effective history r device
       end.
Proof using All.
  intros Hr. unfold stored_roster_ref_effective, roster_ref_effective. rewrite load_roster. cbn [mbind result_bind].
  destruct (af_roster_refs facts !! r) as [f|] eqn:Hf; simpl.
  - case_bool_decide as Hd; [done|]. pose proof (roster_wf r f Hf) as Hwf.
    destruct (validated_open_sql (rf_authority f) (rf_effective_at f) (rf_closed_at f) (rw_effective _ Hwf) (rw_closed _ Hwf)) as [_ ->].
    unfold query_fact. destruct (rf_closed_at f) eqn:Hc; simpl.
    + unfold resolve_fact. simpl. by rewrite (hw_known_roster _ Hh r) by by eexists.
    + unfold require_subject. by rewrite bool_decide_eq_true_2.
  - by apply missing_held.
Qed.

(** *** Owner incarnations *)

Lemma roster_fact_of_spec device f :
  roster_fact_of history device = Some f ↔ ∃ r, af_roster_refs facts !! r = Some f ∧ rr_device_fingerprint (rf_authority f) = device.
Proof using Hh.
  assert (∀ x, x ∈ (map_to_list (af_roster_refs facts)).*2 → ∃ r, af_roster_refs facts !! r = Some x) as Hin.
  { intros x ([r y] & -> & Hy%elem_of_map_to_list)%list_elem_of_fmap. by exists r. }
  unfold roster_fact_of. split.
  - intros [Hf Hd%bool_decide_eq_true]%List.find_some. apply list_elem_of_In, Hin in Hf as [r Hr]. by exists r.
  - intros (r & Hr & Hd). destruct (List.find _ _) as [x|] eqn:Hfind.
    + apply List.find_some in Hfind as [Hx Hdx%bool_decide_eq_true]. apply list_elem_of_In, Hin in Hx as [r' Hr'].
      assert (r = r') as -> by (eapply (hw_once _ Hh); [done..|congruence]). congruence.
    + assert (In f (map_to_list (af_roster_refs facts)).*2) as Hf.
      { apply list_elem_of_In. apply elem_of_map_to_list in Hr. by apply (list_elem_of_fmap_2 snd _ _ Hr). }
      apply (List.find_none _ _ Hfind) in Hf. by rewrite bool_decide_eq_true_2 in Hf.
Qed.

(** The join finds the row of the fact the fold finds. *)
Lemma joined_roster device : joined_roster_row db account device = stored_roster <$> roster_fact_of history device.
Proof using Hh Hproj.
  assert (∀ row, row ∈ (map_to_list (at_roster (db_auth db))).*2 → ro_account row = account → ro_device row = device →
    ∃ f, roster_fact_of history device = Some f ∧ row = stored_roster f) as Hrow.
  { intros row ([r x] & -> & Hx%elem_of_map_to_list)%list_elem_of_fmap Ha Hd. simpl in *. pose proof (keyed_roster r) as Hk.
    rewrite (proj2 (keyed_Some _ _ _ _ _) (conj Hx Ha)) in Hk. symmetry in Hk. apply fmap_Some in Hk as (f & Hf & ->).
    exists f. split; [|done]. apply roster_fact_of_spec. by exists r. }
  unfold joined_roster_row. destruct (List.find _ _) as [row|] eqn:Hfind.
  - apply List.find_some in Hfind as [Hx [Ha%bool_decide_eq_true Hd%bool_decide_eq_true]%andb_true_iff].
    apply list_elem_of_In in Hx. destruct (Hrow row Hx Ha Hd) as (f & -> & ->). done.
  - destruct (roster_fact_of history device) as [f|] eqn:Hf; [|done]. apply roster_fact_of_spec in Hf as (r & Hr & Hd).
    pose proof (keyed_roster r) as Hk. rewrite Hr in Hk. apply keyed_Some in Hk as [Hk _].
    assert (In (stored_roster f) (map_to_list (at_roster (db_auth db))).*2) as Hin.
    { apply list_elem_of_In. apply elem_of_map_to_list in Hk. by apply (list_elem_of_fmap_2 snd _ _ Hk). }
    apply (List.find_none _ _ Hfind) in Hin. simpl in Hin. by rewrite !bool_decide_eq_true_2 in Hin.
Qed.

Lemma owner_wf o f : af_owner_incarnations facts !! o = Some f → owner_fact_wf f.
Proof using Hh. intros Hf. by apply (fw_owners _ (hw_facts _ Hh) o). Qed.

Lemma keyed_owner o f :
  af_owner_incarnations facts !! o = Some f →
  keyed ir_account account o (at_incarnations (db_auth db)) =
    Some (mkIncarnationRow account (oa_device_fingerprint (of_authority f)) (of_effective_at f) (of_closed_at f)
            (stored_boundary (of_control_boundary f)) (stored_boundary (of_secrets_boundary f))).
Proof using Hh Hproj. intros Hf. eapply holds_Some; [apply Hproj|done|]. by apply incarnation_row_Ok, (owner_wf o). Qed.

(** The boundary of the device on a chain. *)
Definition device_boundary_of (device : DeviceFingerprint) (chain : AuthorityChain) : AuthorityBoundary :=
  match roster_fact_of history device with Some fact => roster_boundary fact chain | None => BoundaryClosed end.

Lemma device_boundary_read device chain :
  match joined_roster_row db account device with
  | Some r => decode_stored_boundary (roster_columns chain r) (ro_closed_at r) false true
  | None => Ok BoundaryClosed
  end = Ok (device_boundary_of device chain).
Proof using Hh Hproj.
  rewrite joined_roster. unfold device_boundary_of. destruct (roster_fact_of history device) as [f|] eqn:Hf; simpl; [|done].
  apply roster_fact_of_spec in Hf as (r & Hr & _). pose proof (roster_wf r f Hr) as Hwf.
  destruct chain; simpl; apply decode_stored; try apply Hwf; try done;
    intros Hopen Hclosed; by destruct (rw_bounded _ Hwf Hclosed).
Qed.

Lemma incarnation_boundary_read o f chain :
  af_owner_incarnations facts !! o = Some f →
  decode_stored_boundary (stored_boundary (incarnation_boundary f chain)) (of_closed_at f)
    (match device_boundary_of (oa_device_fingerprint (of_authority f)) chain with BoundaryOpen => false | _ => true end) false =
  Ok (incarnation_boundary f chain).
Proof using Hh.
  intros Ho. pose proof (owner_wf o f Ho) as Hwf. apply decode_stored; [destruct chain; apply Hwf| |].
  - intros Hopen Hclosed. assert (unbounded f) as Hu by (split; [done|]; destruct chain; simpl in Hopen; auto).
    destruct (fw_unbounded _ (hw_facts _ Hh) o f Ho Hu) as (r & x & Hr & Hd & Hcl).
    unfold device_boundary_of. rewrite (proj2 (roster_fact_of_spec _ x)) by by exists r.
    destruct (rw_bounded _ (roster_wf r x Hr) Hcl). by destruct chain; simpl; case_match.
  - intros Hb Hopen. destruct (ow_open _ Hwf Hopen). by destruct chain.
Qed.

Lemma joined_columns device :
  transpose from_column (ro_effective_at <$> joined_roster_row db account device) = Ok (rf_effective_at <$> roster_fact_of history device) ∧
  transpose from_column (joined_roster_row db account device ≫= ro_closed_at) = Ok (roster_fact_of history device ≫= rf_closed_at).
Proof using Hh Hproj.
  rewrite joined_roster. destruct (roster_fact_of history device) as [f|] eqn:Hf; [|done].
  apply roster_fact_of_spec in Hf as (r & Hr & _). pose proof (roster_wf r f Hr) as Hwf.
  split; apply (transpose_sql _ _ from_column_sql); apply Hwf.
Qed.

Lemma owner_chain_hit (o : OwnerId) f device chain :
  af_owner_incarnations facts !! o = Some f →
  stored_owner_chain_authority db account o device chain = Ok (owner_chain_authority history o device chain).
Proof using Hh Hproj Hpolicy.
  intros Hf. unfold stored_owner_chain_authority, owner_chain_authority. rewrite Hpolicy. cbn [mbind result_bind].
  rewrite Hf, (keyed_owner o f Hf). cbn [ir_device ir_effective_at ir_closed_at]. pose proof (owner_wf o f Hf) as Hwf.
  rewrite id_fixed_hash by apply Hwf. cbn [mbind result_bind]. unfold require_subject. simpl.
  destruct (decide (oa_device_fingerprint (of_authority f) = device)) as [Hd|Hd].
  2: { by rewrite (bool_decide_eq_true_2 (_ ≠ _)), (bool_decide_eq_false_2 (_ = device)). }
  rewrite (bool_decide_eq_false_2 (_ ≠ _)), (bool_decide_eq_true_2 (_ = device)) by auto. cbn [mbind result_bind].
  rewrite from_column_sql by apply Hwf. cbn [mbind result_bind]. rewrite (transpose_sql _ (of_closed_at f) from_column_sql) by apply Hwf.
  cbn [mbind result_bind]. destruct (joined_columns (oa_device_fingerprint (of_authority f))) as [-> ->]. cbn [mbind result_bind].
  rewrite device_boundary_read. cbn [mbind result_bind].
  assert (∀ row, incarnation_columns chain (mkIncarnationRow account row (of_effective_at f) (of_closed_at f)
    (stored_boundary (of_control_boundary f)) (stored_boundary (of_secrets_boundary f))) =
    stored_boundary (incarnation_boundary f chain)) as -> by by destruct chain.
  rewrite (incarnation_boundary_read o f chain Hf). simpl. unfold device_boundary_of. rewrite Hd. by rewrite <- Hd; destruct (of_authority f).
Qed.

Lemma owner_chain_miss (o : OwnerId) device chain :
  af_owner_incarnations facts !! o = None → stored_owner_chain_authority db account o device chain = missing_reference db account o.
Proof using Hproj Hpolicy.
  intros Hf. unfold stored_owner_chain_authority. rewrite Hpolicy. cbn [mbind result_bind].
  by rewrite (holds_None _ _ _ _ _ _ (pj_incarnations _ _ _ Hproj) Hf).
Qed.

Lemma owner_chain_read (o : OwnerId) device chain :
  held_as o → stored_owner_chain_authority db account o device chain = Ok (owner_chain_authority history o device chain).
Proof using All.
  intros Ho. destruct (af_owner_incarnations facts !! o) as [f|] eqn:Hf; [by eapply owner_chain_hit|].
  rewrite owner_chain_miss by done. unfold owner_chain_authority. rewrite Hf. by apply missing_held.
Qed.

(** Only a fact of the history makes the read say effective. *)
Lemma owner_chain_effective (o : OwnerId) device chain authority :
  stored_owner_chain_authority db account o device chain = Ok (Effective authority) →
  owner_chain_authority history o device chain = Effective authority.
Proof using Hh Hproj Hpolicy.
  destruct (af_owner_incarnations facts !! o) as [f|] eqn:Hf; [rewrite (owner_chain_hit o f) by done; congruence|].
  rewrite owner_chain_miss by done. unfold missing_reference. destruct (db_entries db !! _); [|done].
  intros (x & _ & Hx)%result_bind_Ok. done.
Qed.

Lemma owner_incarnation_read (o : OwnerId) device :
  held_as o → stored_owner_incarnation_effective db account o device =
    Ok match af_owner_incarnations facts !! o with
       | Some f => if bool_decide (oa_device_fingerprint (of_authority f) ≠ device) then Invalid WrongSubject
                   else owner_incarnation_effective history o device
       | None => owner_incarnation_effective history o device
       end.
Proof using All.
  intros Ho. unfold stored_owner_incarnation_effective, owner_incarnation_effective. rewrite Hpolicy. cbn [mbind result_bind].
  destruct (af_owner_incarnations facts !! o) as [f|] eqn:Hf.
  - rewrite (keyed_owner o f Hf). cbn [ir_device ir_effective_at ir_closed_at]. pose proof (owner_wf o f Hf) as Hwf.
    rewrite id_fixed_hash by apply Hwf. cbn [mbind result_bind]. case_bool_decide as Hd; [done|].
    destruct (validated_open_sql (mkOwnerAuthority (oa_device_fingerprint (of_authority f))) (of_effective_at f) (of_closed_at f)
      (ow_effective _ Hwf) (ow_closed _ Hwf)) as [_ ->].
    unfold query_fact. simpl. destruct (of_closed_at f) eqn:Hc; simpl.
    + unfold resolve_fact. simpl. by rewrite (hw_known_owner _ Hh o) by by eexists.
    + unfold require_subject. rewrite bool_decide_eq_true_2 by done. simpl. by destruct (of_authority f).
  - rewrite (holds_None _ _ _ _ _ _ (pj_incarnations _ _ _ Hproj) Hf). by apply missing_held.
Qed.

(** *** Grants and ownership *)

Lemma keyed_grant g f :
  af_grants facts !! g = Some f → grant_fact_wf f ∧
  keyed gr_owner account g (at_grants (db_auth db)) =
    Some (mkGrantRow account (ga_stream_id (gf_authority f)) (ga_grantee_account_id (gf_authority f))
            (GrantRole_as_db_str (ga_role (gf_authority f))) (gf_effective_at f) (gf_closed_at f)).
Proof using Hh Hproj.
  intros Hf. assert (grant_fact_wf f) as Hwf by by apply (fw_grants _ (hw_facts _ Hh) g). split; [done|].
  eapply holds_Some; [apply Hproj|done|]. by apply grant_row_Ok.
Qed.

Lemma load_grant_read g :
  load_grant db account g = Ok ((λ f, (gf_authority f, gf_effective_at f, gf_closed_at f)) <$> af_grants facts !! g).
Proof using Hh Hproj.
  unfold load_grant. destruct (af_grants facts !! g) as [f|] eqn:Hf; simpl.
  - destruct (keyed_grant g f Hf) as [(Hs & Hg & _) ->]. cbn [gr_stream gr_grantee gr_role]. rewrite id_fixed_hash by done.
    cbn [mbind result_bind]. rewrite id_fixed_hash by done. simpl. rewrite grant_role_roundtrip. simpl. by destruct (gf_authority f).
  - by rewrite (holds_None _ _ _ _ _ _ (pj_grants _ _ _ Hproj) Hf).
Qed.

Lemma grant_subject (a : GrantAuthority) stream grantee :
  bool_decide (ga_stream_id a ≠ stream) || bool_decide (ga_grantee_account_id a ≠ grantee) =
  negb (bool_decide ((ga_stream_id a, ga_grantee_account_id a) = (stream, grantee))).
Proof using Type.
  destruct (decide (ga_stream_id a = stream)) as [Hs|Hs]; destruct (decide (ga_grantee_account_id a = grantee)) as [Hg|Hg];
    repeat case_bool_decide; simplify_eq; done.
Qed.

Lemma grant_read (g : GrantId) stream grantee :
  require_foldable_account_control db grantee = Ok tt → held_as g →
  stored_grant_effective db account g stream grantee = Ok (grant_effective history g stream grantee).
Proof using All.
  intros Hgp Hg. unfold stored_grant_effective, grant_effective. rewrite Hpolicy, Hgp. cbn [mbind result_bind].
  rewrite load_grant_read. cbn [mbind result_bind]. destruct (af_grants facts !! g) as [f|] eqn:Hf; simpl; [|by apply missing_held].
  rewrite grant_subject. unfold require_subject. case_bool_decide; simpl; [|done].
  destruct (keyed_grant g f Hf) as [(_ & _ & He & Hc) _]. by destruct (validated_open_sql (gf_authority f) _ _ He Hc) as [-> _].
Qed.

(** What the cut of a device says of a grant. *)
Definition grant_boundary_of (g : GrantId) (f : GrantFact) (device : DeviceFingerprint) : GrantDeviceBoundary :=
  match gf_closed_at f with
  | None => GrantOpen
  | Some _ => match cut_of facts (g, device) with Some cut => GrantCut cut | None => GrantClosed end
  end.

Definition grant_device_authority (g : GrantId) (stream : StreamId) (grantee : AccountId) (device : DeviceFingerprint)
    : AuthorityQuery GrantDeviceAuthority :=
  answer (
    fact ← resolve_fact (af_grants facts !! g) (is_known history g);
    _ ← require_subject (ga_stream_id (gf_authority fact), ga_grantee_account_id (gf_authority fact)) (stream, grantee);
    Ok (Effective (mkGrantDeviceAuthority (gf_authority fact) (grant_boundary_of g fact device)))).

Lemma grant_cut_read g device : load_grant_device_cut db account g device = Ok (cut_of facts (g, device)).
Proof using Hh Hproj.
  unfold load_grant_device_cut. destruct (cut_of facts (g, device)) as [cut|] eqn:Hc.
  - erewrite holds_Some; [|apply Hproj|exact Hc|done]. cbn [transpose gc_seq gc_hash].
    assert (device_cut_ok cut ∧ dc_device_fingerprint cut = device) as [(_ & Hseq & Hhash) <-].
    { unfold cut_of in Hc. apply bind_Some in Hc as (cuts & Hg & [Hin Hd%bool_decide_eq_true]%List.find_some).
      destruct (fw_cuts _ (hw_facts _ Hh) _ cuts Hg) as (_ & Hok & _). split; [|done]. eapply Forall_forall; [exact Hok|].
      by apply list_elem_of_In. }
    rewrite id_fixed_seq. cbn [mbind result_bind]. rewrite id_fixed_hash by done. cbn [mbind result_bind].
    rewrite be_value_seq by done. by destruct cut.
  - by rewrite (holds_None _ _ _ _ _ _ (pj_cuts _ _ _ Hproj) Hc).
Qed.

Lemma open_grant_uncut g f device : af_grants facts !! g = Some f → gf_closed_at f = None → cut_of facts (g, device) = None.
Proof using Hh.
  intros Hf Ho. unfold cut_of. simpl. destruct (af_grant_cuts facts !! g) as [cuts|] eqn:Hg; [|done].
  destruct (fw_cuts _ (hw_facts _ Hh) g cuts Hg) as [[e He] _]. rewrite Hf in He. simpl in He. congruence.
Qed.

Lemma grant_device_read (g : GrantId) stream grantee device :
  require_foldable_account_control db grantee = Ok tt → held_as g →
  stored_grant_effective_for_device db account g stream grantee device = Ok (grant_device_authority g stream grantee device).
Proof using All.
  intros Hgp Hg. unfold stored_grant_effective_for_device, grant_device_authority. rewrite Hpolicy, Hgp. cbn [mbind result_bind].
  rewrite load_grant_read. cbn [mbind result_bind]. destruct (af_grants facts !! g) as [f|] eqn:Hf; simpl; [|by apply missing_held].
  rewrite grant_subject. unfold require_subject. case_bool_decide; simpl; [|done].
  destruct (keyed_grant g f Hf) as [(_ & _ & He & Hc) _]. destruct (validated_open_sql (gf_authority f) _ _ He Hc) as [-> _].
  cbn [mbind result_bind]. rewrite grant_cut_read. cbn [mbind result_bind]. unfold grant_boundary_of.
  destruct (gf_closed_at f) eqn:Hcl; [|by rewrite (open_grant_uncut g f device Hf Hcl)]. by destruct (cut_of facts (g, device)).
Qed.

Lemma stream_owner_read stream : stored_stream_owner_effective db account stream = Ok (stream_owner_effective history stream).
Proof using Hh Hproj Hpolicy.
  unfold stored_stream_owner_effective, stream_owner_effective. rewrite Hpolicy. cbn [mbind result_bind].
  destruct (af_stream_ownership facts !! stream) as [f|] eqn:Hf.
  - destruct (fw_ownership _ (hw_facts _ Hh) stream f Hf) as [Hown He].
    erewrite holds_Some; [|apply Hproj|exact Hf|by apply ownership_row_Ok]. cbn [os_own_id os_effective_at].
    rewrite id_fixed_hash by done. cbn [mbind result_bind]. by apply (validated_open_sql _ _ None He I).
  - by rewrite (holds_None _ _ _ _ _ _ (pj_ownership _ _ _ Hproj) Hf).
Qed.

Lemma state_read :
  stored_account_is_contested db account = Ok match hi_classification history with Contested _ => true | Live => false end ∧
  account_effective_count db account = Ok (hi_effective_count history).
Proof using Hh Hproj Hpolicy.
  unfold stored_account_is_contested, account_effective_count. rewrite Hpolicy. cbn [mbind result_bind].
  pose proof (pj_state _ _ _ Hproj) as Hs. apply fmap_Some in Hs as (row & -> & Hrow). simpl.
  unfold state_row in Hrow. symmetry in Hrow. rewrite (to_column_sql (hi_effective_count history)) in Hrow by apply Hh.
  pose proof (hw_count _ Hh) as Hc. pose proof (hw_depth _ Hh) as Hd. destruct (hi_classification history) as [|d].
  - simplify_eq/=. by rewrite from_column_sql.
  - rewrite to_column_sql in Hrow by done. simplify_eq/=. by rewrite from_column_sql.
Qed.
End Reads.

(** ** The tables after a fold *)

Section Refinement.
Context `{MinicborLaws} `{Sha256} `{Ed25519}.
Context (entries : list VerifiedAccountEntry) (Hwf : Forall entry_wf entries) (Hlen : len entries ≤ sql_int_max).
Context (account : AccountId) (Haccount : hash_ok account).

(** C10.  The rewrite of a fold succeeds unless another account holds one of its keys; then the tables
    hold the history, and the keyed reads of every other account are what they were. *)
Theorem fold_rewrite_holds :
  ∃ h, fold_account entries = Some h ∧ ∀ now_ms tables work,
    keys_free account h tables → streams_ok work →
    ∃ tables' work', rewrite_authority_projection account h now_ms tables work = Ok (tables', work') ∧
      projects account h tables' ∧ ∀ other, other ≠ account → same_rows other tables tables'.
Proof using All.
  destruct (fold_history_wf entries Hwf Hlen) as (h & Hf & Hh). exists h. split; [done|]. intros now_ms tables work Hk Hs.
  destruct (rewrite_total account h (hw_facts _ Hh) now_ms tables work Hh Hk Hs) as [[t w] Hr]. exists t, w. split; [done|].
  by eapply rewrite_holds; [apply Hh|].
Qed.

(** C7.  The reads of the tables a fold wrote are the queries of the fold: none of them fails on a row
    the rewrite wrote.  The content authority of a roster reference, the authority of an owner on a
    chain, a grant and its device bound, the owner of a stream, the contest and the effective count
    are what the history answers.  The reads of an open roster reference and of an open owner
    incarnation look at the subject first: for a fact of another device they answer that the subject
    is wrong, where the history says of a closed one that it is not effective; in every other case
    they too answer what the history does. *)
Theorem stored_reads_refine_fold :
  ∃ h, fold_account entries = Some h ∧ ∀ now_ms tables work work' db,
    rewrite_authority_projection account h now_ms tables work = Ok (db_auth db, work') →
    require_foldable_account_control db account = Ok tt →
    (∀ reference device stream, held_as account h db reference →
       stored_roster_content_authority db account reference device stream = Ok (roster_content_authority h reference device stream)) ∧
    (∀ owner device chain, held_as account h db owner →
       stored_owner_chain_authority db account owner device chain = Ok (owner_chain_authority h owner device chain)) ∧
    (∀ grant stream grantee device, require_foldable_account_control db grantee = Ok tt → held_as account h db grant →
       stored_grant_effective db account grant stream grantee = Ok (grant_effective h grant stream grantee) ∧
       stored_grant_effective_for_device db account grant stream grantee device =
         Ok (grant_device_authority h grant stream grantee device)) ∧
    (∀ stream, stored_stream_owner_effective db account stream = Ok (stream_owner_effective h stream)) ∧
    stored_account_is_contested db account = Ok match hi_classification h with Contested _ => true | Live => false end ∧
    account_effective_count db account = Ok (hi_effective_count h) ∧
    (∀ reference device, held_as account h db reference →
       stored_roster_ref_effective db account reference device =
         Ok match af_roster_refs (hi_facts h) !! reference with
            | Some f => if bool_decide (rr_device_fingerprint (rf_authority f) ≠ device) then Invalid WrongSubject
                        else roster_ref_effective h reference device
            | None => roster_ref_effective h reference device
            end) ∧
    (∀ owner device, held_as account h db owner →
       stored_owner_incarnation_effective db account owner device =
         Ok match af_owner_incarnations (hi_facts h) !! owner with
            | Some f => if bool_decide (oa_device_fingerprint (of_authority f) ≠ device) then Invalid WrongSubject
                        else owner_incarnation_effective h owner device
            | None => owner_incarnation_effective h owner device
            end).
Proof using All.
  destruct (fold_history_wf entries Hwf Hlen) as (h & Hf & Hh). exists h. split; [done|]. intros now_ms tables work work' db Hr Hp.
  apply rewrite_holds in Hr as [Hproj _]; [|apply Hh].
  split_and!; [..|by eapply state_read|by eapply state_read|intros; by apply roster_ref_read|intros; by apply owner_incarnation_read].
  - intros. by apply roster_content_read.
  - intros. by apply owner_chain_read.
  - intros. split; [by apply grant_read|by apply grant_device_read].
  - intros. by apply stream_owner_read.
Qed.

(** C9.  An entry the secrets refold accepts on the tables of a fold is authorized by the fold: its
    incarnation is one of the history, minted for the signing device, the history bounds it on the
    secrets chain, the account is live, and it wraps a key only for a stream the history owns. *)
Theorem accepted_secret_authorized_by_fold :
  ∃ h, fold_account entries = Some h ∧ ∀ now_ms tables work work' db rows sdb sdb' hash,
    rewrite_authority_projection account h now_ms tables work = Ok (db_auth db, work') →
    require_foldable_account_control db account = Ok tt →
    NoDup rows.*1 → refold_secrets_log (H1 := stored_snapshot db) account rows sdb = Some (Ok sdb') →
    hash ∈ sd_accepted sdb' → hash ∉ sd_accepted sdb →
    hi_classification h = Live ∧
    ∃ headers header payload owner_id owner, load_secrets_headers rows = Ok headers ∧ (hash, header, payload) ∈ headers ∧
      ah_authority_ref header = Some owner_id ∧
      owner_secrets_authority h owner_id (ah_device_fingerprint header) = Effective owner ∧
      Forall (boundary_admits (ah_seq header) hash (ancestry_relation (secrets_view headers))) (owner_boundaries owner) ∧
      ∃ subject op, evaluable_subject header payload = Some (subject, op) ∧
        ∀ s, subject = Some s → ∃ own_id, stream_owner_effective h s = Effective own_id.
Proof using All.
  destruct (fold_history_wf entries Hwf Hlen) as (h & Hf & Hh). exists h. split; [done|].
  intros now_ms tables work work' db rows sdb sdb' hash Hr Hp Hnd Hrun Ha Hna.
  apply rewrite_holds in Hr as [Hproj _]; [|apply Hh].
  destruct (newly_accepted_authorized account rows sdb sdb' hash Hnd Hrun Ha Hna) as (headers & header & payload & Hl & Hauth).
  destruct (state_read account h Hh db Hproj Hp) as [Hc _]. split.
  { pose proof (ea_contested _ _ _ _ _ Hauth) as Hc'. simpl in Hc'. rewrite Hc in Hc'. by destruct (hi_classification h). }
  destruct (ea_owner _ _ _ _ _ Hauth) as (owner_id & owner & Href & Hown & Hb). exists headers, header, payload, owner_id, owner.
  split_and!; [done|apply Hauth|done|by eapply owner_chain_effective|done|].
  destruct (ea_subject _ _ _ _ _ Hauth) as (subject & op & Hs & Hst). exists subject, op. split; [done|]. intros s Hsub.
  destruct (Hst s Hsub) as [own_id Hown']. exists own_id. simpl in Hown'.
  rewrite (stream_owner_read account h Hh db Hproj Hp) in Hown'. by injection Hown'.
Qed.
End Refinement.

(** ** A stored account

    The account of [FoldSafety], written to empty tables: its founder is removed, its second owner
    announces a repository in the secrets log. *)

Definition empty_tables : AuthTables := mkAuthTables ∅ ∅ ∅ ∅ ∅ ∅ ∅.
Definition empty_work : TableSyncWork := mkTableSyncWork ∅ ∅ ∅.

Definition ref_account : AccountId := FoldSafety.wit_account.
Definition ref_entries : list VerifiedAccountEntry := FoldSafety.wit_entries.
Definition ref_row (e : VerifiedAccountEntry) : AccountEntryHash * EntryRow :=
  (va_entry_hash e, mkEntryRow ref_account CONTROL_LOG (ah_device_fingerprint (va_header e)) (ah_seq (va_header e)) 0 []).
Definition ref_history : AccountAuthHistory :=
  match fold_account ref_entries with Some h => h | None => mkAccountAuthHistory ∅ Live None 0 no_facts ∅ None end.
Definition ref_written : AuthTables * TableSyncWork :=
  match rewrite_authority_projection ref_account ref_history 7 empty_tables empty_work with Ok s => s | Err _ => (empty_tables, empty_work) end.
Definition ref_db : AccountDb := mkAccountDb (list_to_map (ref_row <$> ref_entries)) None false ref_written.1 ref_written.2.

Lemma ref_entries_wf : Forall entry_wf ref_entries.
Proof. repeat constructor; simpl; lia. Qed.
Lemma ref_entries_len : len ref_entries ≤ sql_int_max.
Proof. by vm_compute. Qed.
Lemma ref_account_ok : hash_ok ref_account.
Proof. by vm_compute. Qed.
Lemma ref_folds h : fold_account ref_entries = Some h → h = ref_history.
Proof. intros Hf. unfold ref_history. by rewrite Hf. Qed.
Lemma ref_writes : rewrite_authority_projection ref_account ref_history 7 empty_tables empty_work = Ok (db_auth ref_db, ref_written.2).
Proof. vm_compute. reflexivity. Qed.
Lemma ref_policy : require_foldable_account_control ref_db ref_account = Ok tt.
Proof. vm_compute. reflexivity. Qed.

Lemma empty_keys_free history : keys_free ref_account history empty_tables.
Proof. split_and!; intros; simpl; by rewrite map_filter_empty. Qed.

Lemma empty_streams_ok : streams_ok empty_work.
Proof. intros row Hrow. by apply not_elem_of_empty in Hrow. Qed.

Lemma fold_rewrite_holds_witness :
  ∃ tables' work', rewrite_authority_projection ref_account ref_history 7 empty_tables empty_work = Ok (tables', work') ∧
    projects ref_account ref_history tables' ∧ ∀ other, other ≠ ref_account → same_rows other empty_tables tables'.
Proof.
  destruct (fold_rewrite_holds ref_entries ref_entries_wf ref_entries_len ref_account ref_account_ok) as (h & Hf & Hw).
  rewrite (ref_folds h Hf) in Hw. exact (Hw 7 empty_tables empty_work (empty_keys_free _) empty_streams_ok).
Defined.

Lemma ref_held : held_as ref_account ref_history ref_db (FoldSafety.wit_hash x01).
Proof. vm_compute. split; reflexivity. Qed.

(** The removed founder's enrollment is bounded by the cut of its removal. *)
Lemma stored_reads_refine_fold_witness :
  stored_owner_chain_authority ref_db ref_account (FoldSafety.wit_hash x01) FoldSafety.wit_founder ChainControl =
    Ok (Effective (mkOwnerChainAuthority (mkOwnerAuthority FoldSafety.wit_founder) (BoundaryCut 1 (FoldSafety.wit_hash x02)) BoundaryOpen)) ∧
  stored_owner_chain_authority ref_db ref_account (FoldSafety.wit_hash x01) FoldSafety.wit_founder ChainControl =
    Ok (owner_chain_authority ref_history (FoldSafety.wit_hash x01) FoldSafety.wit_founder ChainControl).
Proof.
  split; [vm_compute; reflexivity|].
  destruct (stored_reads_refine_fold ref_entries ref_entries_wf ref_entries_len ref_account ref_account_ok) as (h & Hf & Hw).
  rewrite (ref_folds h Hf) in Hw. destruct (Hw 7 empty_tables empty_work ref_written.2 ref_db ref_writes ref_policy) as (_ & Hc & _).
  exact (Hc _ _ _ ref_held).
Defined.

(** The second owner announces a repository. *)
Definition ref_announcement : SignedAccountEntry :=
  let header := mkAccountEntryHeader ref_account SECRETS_LOG FoldSafety.wit_second_device 0 None None REPO_INCARNATION SUPPORTED_OP_VERSION
                  0 3 None (Some (FoldSafety.wit_hash x02)) in
  match (payload ← encode_repo_incarnation (mkRepoIncarnation (lit "repo") None);
         map_err (fun _ => Message "") (sign_account_entry (mkDeviceSecret (replicate 32 x08)) header payload)) with
  | Ok s => s
  | Err _ => mkSignedAccountEntry header [] [] [] [] [] []
  end.
Definition ref_rows : list (bytes * bytes) := [(sa_entry_hash ref_announcement, sa_signed_bytes ref_announcement)].
Definition ref_sdb : SecretsDb := mkSecretsDb ∅ ∅ ∅ ∅.
Definition ref_sdb' : SecretsDb :=
  match refold_secrets_log (H1 := stored_snapshot ref_db) ref_account ref_rows ref_sdb with Some (Ok db) => db | _ => ref_sdb end.

Lemma ref_rows_NoDup : NoDup ref_rows.*1.
Proof. apply NoDup_singleton. Qed.
Lemma ref_refolds : refold_secrets_log (H1 := stored_snapshot ref_db) ref_account ref_rows ref_sdb = Some (Ok ref_sdb').
Proof. vm_compute. reflexivity. Qed.
Lemma ref_accepted : bool_decide (sa_entry_hash ref_announcement ∈ sd_accepted ref_sdb') = true.
Proof. vm_compute. reflexivity. Qed.

Lemma accepted_secret_authorized_by_fold_witness :
  ∃ header owner_id owner, ah_authority_ref header = Some owner_id ∧
    owner_secrets_authority ref_history owner_id (ah_device_fingerprint header) = Effective owner.
Proof.
  destruct (accepted_secret_authorized_by_fold ref_entries ref_entries_wf ref_entries_len ref_account ref_account_ok) as (h & Hf & Hw).
  rewrite (ref_folds h Hf) in Hw.
  destruct (Hw 7 empty_tables empty_work ref_written.2 ref_db ref_rows ref_sdb ref_sdb' (sa_entry_hash ref_announcement)
    ref_writes ref_policy ref_rows_NoDup ref_refolds (bool_decide_eq_true_1 _ ref_accepted) (not_elem_of_empty _))
    as (_ & headers & header & payload & owner_id & owner & _ & _ & Href & How & _).
  exact (ex_intro _ header (ex_intro _ owner_id (ex_intro _ owner (conj Href How)))).
Defined.
