(* ===== verification/Ingest.v ===== *)
(** * Ingest of account entries ([account/storage.rs], [account/pre_verify.rs])

    An envelope from a peer is decoded, its signer resolved from the keys the stored entries certify,
    its signature checked, and the entry put among the candidates of its account within admission
    budgets.  An envelope whose signer is unknown is parked, and retried when an entry that may
    certify a device arrives.  What follows an insertion, the refold, rewrites derived tables and
    no candidate; [IngestRefold] is where it starts.  [expiry_now_ms] is the wall clock the budgets
    judge reservations by, read once for an ingest. *)

From S2P Require Import Prelude Cbor Minicbor Hash Op Device Entry Stream Branch Envelope Candidate AccountOps FoldTypes Snapshot AuthStore SecretsOps ControlV2 Fold AccountProjection Annex FoldFacts.

Local Open Scope Z_scope.

(** ** Limits *)

Definition PRE_VERIFY_PER_ACCOUNT_MAX : Z := 64.
Definition PRE_VERIFY_GLOBAL_MAX : Z := 256.
Definition CANDIDATES_PER_ACCOUNT_MAX : Z := 4096.
Definition CANDIDATES_GLOBAL_MAX : Z := 16384.
Definition CANDIDATE_BYTES_PER_ACCOUNT_MAX : Z := 16 * 1024 * 1024.
Definition CANDIDATE_BYTES_GLOBAL_MAX : Z := 64 * 1024 * 1024.
Definition REVOCATION_FLOOR_ENTRIES : Z := 64.
Definition REVOCATION_FLOOR_BYTES : Z := 1024 * 1024.
Definition REVOCATION_SIGNER_ENTRIES : Z := REVOCATION_FLOOR_ENTRIES / 4.
Definition REVOCATION_SIGNER_BYTES : Z := REVOCATION_FLOOR_BYTES / 4.
Definition ORDINARY_CANDIDATES_PER_ACCOUNT_MAX : Z := CANDIDATES_PER_ACCOUNT_MAX - REVOCATION_FLOOR_ENTRIES.
Definition ORDINARY_CANDIDATE_BYTES_PER_ACCOUNT_MAX : Z := CANDIDATE_BYTES_PER_ACCOUNT_MAX - REVOCATION_FLOOR_BYTES.

(** ** Data *)

(** A row of [account_entries], without the derived [accepted]. *)
Record CandidateEntry : Type := mkCandidateEntry {
  ce_account_id : AccountId;
  ce_log_id : Z;
  ce_device_fingerprint : DeviceFingerprint;
  ce_seq : Z;
  ce_prev_hash : option AccountEntryHash;
  ce_parent_ref : option AccountEntryHash;
  ce_authority_ref : option AccountEntryHash;
  ce_entry_type : Z;
  ce_signed_bytes : bytes;
  ce_received_at_ms : Z;
  ce_cited_view_digest : option bytes;
}.

Record ReservationRow : Type := mkReservationRow {
  rv_account_id : AccountId;
  rv_reserved_entries : Z;
  rv_reserved_bytes : Z;
  rv_expires_at_ms : Z;
}.

(** A row of [account_pre_verify]; its key is the hash of the envelope. *)
Record PreVerifyRow : Type := mkPreVerifyRow {
  pv_entry_hash : AccountEntryHash;
  pv_claimed_account_id : AccountId;
  pv_claimed_fingerprint : bytes;
  pv_raw_bytes : bytes;
  pv_received_at_ms : Z;
}.

(** [account_entries], [account_candidate_reservations], [account_pre_verify] and
    [account_entry_status]. *)
Record CandidateDb : Type := mkCandidateDb {
  cd_entries : gmap AccountEntryHash CandidateEntry;
  cd_reservations : gmap bytes ReservationRow;
  cd_pre_verify : gmap bytes PreVerifyRow;
  cd_status : gmap AccountEntryHash string;
}.

Inductive CapacityScope : Type :=
| PreVerifyAccount | PreVerifyGlobal | CandidateAccount | CandidateGlobal | CandidateAccountBytes | CandidateGlobalBytes.

Inductive CandidateInsert : Type :=
| Inserted
| AlreadyPresent
| AtCapacity (scope : CapacityScope).

Inductive PreVerifyInsert : Type :=
| Parked (evicted : list CapacityScope)
| PreVerifyAtCapacity (scope : CapacityScope).

Record PromotionOutcome : Type := mkPromotionOutcome {
  po_scope : option CapacityScope;
  po_entry_hashes : list AccountEntryHash;
}.
Definition no_promotions : PromotionOutcome := mkPromotionOutcome None [].

(** Without the outcome of the content promotions, which the refold computes. *)
Inductive IngestOutcome : Type :=
| IngestRejected (reason : AnyError)
| IngestPreVerify
| IngestPreVerifyWithEviction (scopes : list CapacityScope)
| IngestCapacityReached (scope : CapacityScope)
| IngestIngested (status : string) (account_promotions : PromotionOutcome).

(** An outcome, or the refold of an account that now holds the entry. *)
Inductive IngestStep : Type :=
| IngestDone (outcome : IngestOutcome)
| IngestRefold (account_id : AccountId) (entry_hash : AccountEntryHash) (introduces_device : bool) (account_promotions : PromotionOutcome).

Definition set_entries (m : gmap AccountEntryHash CandidateEntry) (db : CandidateDb) : CandidateDb :=
  mkCandidateDb m (cd_reservations db) (cd_pre_verify db) (cd_status db).
Definition set_pre_verify (m : gmap bytes PreVerifyRow) (db : CandidateDb) : CandidateDb :=
  mkCandidateDb (cd_entries db) (cd_reservations db) m (cd_status db).

(** ** The shape of a header *)

Definition header_is_genesis (h : AccountEntryHeader) : bool :=
  bool_decide (ah_log_id h = CONTROL_LOG) && bool_decide (ah_entry_type h = ACCOUNT_GENESIS).
Definition current_plaintext (log_id : Z) (h : AccountEntryHeader) : bool :=
  bool_decide (ah_log_id h = log_id) && bool_decide (ah_crypto_suite h = 0) && bool_decide (ah_op_version h = SUPPORTED_OP_VERSION).
Definition is_current_control_plaintext (h : AccountEntryHeader) : bool := current_plaintext CONTROL_LOG h.
Definition is_current_secrets_plaintext (h : AccountEntryHeader) : bool := current_plaintext SECRETS_LOG h.
Definition is_current_annex_plaintext (h : AccountEntryHeader) : bool := current_plaintext ANNEX_LOG h.
Definition is_view_manifest (h : AccountEntryHeader) : bool :=
  is_current_annex_plaintext h && bool_decide (ah_entry_type h = VIEW_MANIFEST).
Definition is_removal_cut (h : AccountEntryHeader) : bool :=
  bool_decide (ah_log_id h = CONTROL_LOG) && bool_decide (ah_crypto_suite h = 0) &&
  (bool_decide (ah_op_version h = SUPPORTED_OP_VERSION) || bool_decide (ah_op_version h = CONTROL_VERSION)) &&
  bool_decide (ah_entry_type h = DEVICE_REMOVE).
Definition is_sealed_snapshot (h : AccountEntryHeader) : bool :=
  bool_decide (ah_log_id h = ANNEX_LOG) && bool_decide (ah_entry_type h = SNAPSHOT) && bool_decide (ah_crypto_suite h ≠ 0).
Definition is_device_add (v : VerifiedAccountEntry) : bool :=
  bool_decide (ah_log_id (va_header v) = CONTROL_LOG) && bool_decide (ah_entry_type (va_header v) = DEVICE_ADD).
Definition introduces_device (v : VerifiedAccountEntry) : bool := header_is_genesis (va_header v) || is_device_add v.

Abbreviation DeviceKeys := (gmap DeviceFingerprint bytes).

Section Ingest.
Context `{Minicbor} `{Sha256} `{Ed25519}.

Definition cited_view_digest (h : AccountEntryHeader) (payload : bytes) : option bytes :=
  if bool_decide (ah_log_id h ≠ CONTROL_LOG) || bool_decide (ah_crypto_suite h ≠ 0) || bool_decide (ah_op_version h ≠ CONTROL_VERSION)
  then None
  else match control_decode (ah_entry_type h) payload with Ok op => cv_pre_cut_view op | Err _ => None end.

(** [DevicePublic::from_bytes(..).is_ok_and(|key| key.fingerprint() == device)]. *)
Definition key_has_fingerprint (pubkey : bytes) (device : DeviceFingerprint) : bool :=
  match public_from_bytes pubkey with Ok key => bool_decide (fingerprint key = device) | Err _ => false end.

(** ** Structural checks *)

Definition validate_genesis_binding (h : AccountEntryHeader) (payload : bytes) : result AnyError unit :=
  if negb (is_current_control_plaintext h) || negb (header_is_genesis h) then Ok tt
  else if bool_decide (account_id_from_genesis_payload payload ≠ ah_account_id h)
  then Err (Bail "genesis payload does not hash to its account_id")
  else
    match ops_decode (ah_entry_type h) payload with
    | Ok (KnownOp (AccountGenesis ed _ _ _ _)) =>
        if key_has_fingerprint ed (ah_device_fingerprint h) then Ok tt
        else Err (Bail "genesis founder key does not match signer fingerprint")
    | _ => Err (Bail "genesis founder key does not match signer fingerprint")
    end.

Definition validate_storable_header_payload (h : AccountEntryHeader) (payload : bytes) : result AnyError unit :=
  _ ← ensure (bool_decide (ah_seq h ≤ sql_int_max)) "account seq exceeds SQLite INTEGER range";
  if is_current_control_plaintext h then
    _ ← map_err (Wrapped "op payload decode failed") (ops_decode (ah_entry_type h) payload);
    validate_genesis_binding h payload
  else if is_current_secrets_plaintext h then
    map_err (Wrapped "secrets op payload decode failed") (validate_storable_secrets_payload (ah_entry_type h) payload)
  else if is_sealed_snapshot h then Err (Bail "snapshot manifests must be plaintext-signed (crypto_suite 0)")
  else if is_current_annex_plaintext h then
    map_err (Wrapped "annex op payload decode failed") (validate_storable_annex_payload (ah_entry_type h) payload)
  else Ok tt.

Definition validate_authenticated_entry (v : VerifiedAccountEntry) : result AnyError unit :=
  validate_genesis_binding (va_header v) (va_payload v).

Definition authenticate_entry (signed_bytes pubkey_bytes : bytes) : result AnyError VerifiedAccountEntry :=
  pubkey ← map_err (fun _ => Bail "resolved device key is not a valid point") (public_from_bytes pubkey_bytes);
  verified ← verify_account_signed signed_bytes pubkey;
  _ ← validate_authenticated_entry verified;
  Ok verified.

(** ** Device keys *)

(** The key an entry certifies: of its signer for a genesis, of the added device for a device add. *)
Definition certified_key (h : AccountEntryHeader) (payload : bytes) : option (DeviceFingerprint * bytes) :=
  if negb (is_current_control_plaintext h) then None
  else
    match ops_decode (ah_entry_type h) payload with
    | Ok (KnownOp (AccountGenesis ed _ _ _ _)) =>
        if key_has_fingerprint ed (ah_device_fingerprint h) then Some (ah_device_fingerprint h, ed) else None
    | Ok (KnownOp (DeviceAdd device ed _ _ _)) => Some (device, ed)
    | _ => None
    end.

Definition add_self_pubkey (keys : DeviceKeys) (h : AccountEntryHeader) (payload : bytes) : DeviceKeys :=
  match certified_key h payload with Some (device, pubkey) => <[device := pubkey]> keys | None => keys end.

Definition self_certifies_signer (h : AccountEntryHeader) (payload : bytes) : bool :=
  bool_decide (is_Some (add_self_pubkey ∅ h payload !! ah_device_fingerprint h)).

Definition account_rows (db : CandidateDb) (account : AccountId) : list (AccountEntryHash * CandidateEntry) :=
  sort_by_key fst (filter (fun row => ce_account_id row.2 = account) (map_to_list (cd_entries db))).

(** The query names no order; it matters only between two keys of one fingerprint. *)
Definition key_rows (db : CandidateDb) (account : AccountId) : list CandidateEntry :=
  filter (fun row => ce_log_id row = CONTROL_LOG ∧ (ce_entry_type row = ACCOUNT_GENESIS ∨ ce_entry_type row = DEVICE_ADD))
    (snd <$> account_rows db account).

Definition add_row_key (keys : DeviceKeys) (row : CandidateEntry) : DeviceKeys :=
  match decode_account_signed (ce_signed_bytes row) with
  | Ok signed => add_self_pubkey keys (sa_header signed) (sa_payload signed)
  | Err _ => keys
  end.

Definition stored_device_pubkeys (db : CandidateDb) (account : AccountId) : DeviceKeys :=
  foldl add_row_key ∅ (key_rows db account).

(** ** Admission of a candidate *)

Definition rows_bytes (rows : list CandidateEntry) : Z := foldr (fun row n => len (ce_signed_bytes row) + n) 0 rows.
Definition i64_saturating_add (a b : Z) : Z := Z.max (- 2 ^ 63) (Z.min (2 ^ 63 - 1) (a + b)).

Definition is_revocation_row (device : DeviceFingerprint) (row : CandidateEntry) : Prop :=
  ce_device_fingerprint row = device ∧
  (ce_log_id row = ANNEX_LOG ∧ ce_entry_type row = VIEW_MANIFEST ∨ ce_log_id row = CONTROL_LOG ∧ ce_entry_type row = DEVICE_REMOVE).
#[export] Instance is_revocation_row_dec device row : Decision (is_revocation_row device row).
Proof. unfold is_revocation_row. apply _. Defined.

Definition revocation_rows (db : CandidateDb) (account : AccountId) (device : DeviceFingerprint) : list CandidateEntry :=
  filter (is_revocation_row device) (snd <$> account_rows db account).

Definition signer_is_under_its_revocation_share (db : CandidateDb) (h : AccountEntryHeader) (incoming_bytes : Z) : bool :=
  let rows := revocation_rows db (ah_account_id h) (ah_device_fingerprint h) in
  bool_decide (len rows < REVOCATION_SIGNER_ENTRIES) &&
  bool_decide (i64_saturating_add (rows_bytes rows) incoming_bytes ≤ REVOCATION_SIGNER_BYTES).

Definition a_stored_cut_cites (db : CandidateDb) (account : AccountId) (payload : bytes) : bool :=
  existsb (fun row => bool_decide (ce_cited_view_digest row.2 = Some (sha256 payload))) (account_rows db account).

Definition is_revocation_candidate (db : CandidateDb) (v : VerifiedAccountEntry) (incoming_bytes : Z) : bool :=
  let h := va_header v in
  (is_removal_cut h || is_view_manifest h && a_stored_cut_cites db (ah_account_id h) (va_payload v)) &&
  signer_is_under_its_revocation_share db h incoming_bytes.

(** The unexpired reservations, of one account or of all. *)
Definition reservations (db : CandidateDb) (account : option AccountId) (expiry_now_ms : Z) : list ReservationRow :=
  filter (fun r => expiry_now_ms < rv_expires_at_ms r ∧ (account = None ∨ account = Some (rv_account_id r)))
    (snd <$> map_to_list (cd_reservations db)).
Definition reserved_entries (rs : list ReservationRow) : Z := foldr (fun r n => rv_reserved_entries r + n) 0 rs.
Definition reserved_bytes (rs : list ReservationRow) : Z := foldr (fun r n => rv_reserved_bytes r + n) 0 rs.

Definition account_charge (db : CandidateDb) (account : AccountId) (expiry_now_ms : Z) : Z * Z :=
  let rows := snd <$> account_rows db account in
  let rs := reservations db (Some account) expiry_now_ms in
  (len rows + reserved_entries rs, rows_bytes rows + reserved_bytes rs).
Definition global_charge (db : CandidateDb) (expiry_now_ms : Z) : Z * Z :=
  let rows := snd <$> map_to_list (cd_entries db) in
  let rs := reservations db None expiry_now_ms in
  (len rows + reserved_entries rs, rows_bytes rows + reserved_bytes rs).

Definition candidate_row (v : VerifiedAccountEntry) (signed_bytes : bytes) (now_ms : Z) : CandidateEntry :=
  let h := va_header v in
  mkCandidateEntry (ah_account_id h) (ah_log_id h) (ah_device_fingerprint h) (ah_seq h) (ah_prev_hash h) (ah_parent_ref h)
    (ah_authority_ref h) (ah_entry_type h) signed_bytes now_ms (cited_view_digest h (va_payload v)).

(** The budget that is exhausted, if one is. *)
Definition candidate_capacity (db : CandidateDb) (v : VerifiedAccountEntry) (incoming_bytes expiry_now_ms : Z) : option CapacityScope :=
  let '(entries_max, bytes_max) :=
    if is_revocation_candidate db v incoming_bytes then (CANDIDATES_PER_ACCOUNT_MAX, CANDIDATE_BYTES_PER_ACCOUNT_MAX)
    else (ORDINARY_CANDIDATES_PER_ACCOUNT_MAX, ORDINARY_CANDIDATE_BYTES_PER_ACCOUNT_MAX) in
  let '(count, bytes) := account_charge db (ah_account_id (va_header v)) expiry_now_ms in
  let '(global_count, global_bytes) := global_charge db expiry_now_ms in
  if bool_decide (entries_max ≤ count) then Some CandidateAccount
  else if bool_decide (bytes_max < i64_saturating_add bytes incoming_bytes) then Some CandidateAccountBytes
  else if bool_decide (CANDIDATES_GLOBAL_MAX ≤ global_count) then Some CandidateGlobal
  else if bool_decide (CANDIDATE_BYTES_GLOBAL_MAX < i64_saturating_add global_bytes incoming_bytes) then Some CandidateGlobalBytes
  else None.

(** The [None] is the panic of [expect] on a sequence number the column cannot hold. *)
Definition insert_candidate (db : CandidateDb) (v : VerifiedAccountEntry) (signed_bytes : bytes) (now_ms expiry_now_ms : Z)
    : Run (CandidateInsert * CandidateDb) :=
  if bool_decide (is_Some (cd_entries db !! va_entry_hash v)) then run_ret (AlreadyPresent, db)
  else
    match candidate_capacity db v (len signed_bytes) expiry_now_ms with
    | Some scope => run_ret (AtCapacity scope, db)
    | None =>
        if bool_decide (sql_int_max < ah_seq (va_header v)) then None
        else run_ret (Inserted, set_entries (<[va_entry_hash v := candidate_row v signed_bytes now_ms]> (cd_entries db)) db)
    end.

(** ** The pre-verify queue *)

Definition queue_order (row : bytes * PreVerifyRow) : Z * bytes := (pv_received_at_ms row.2, row.1).

Definition queue_rows (owner : option AccountId) (queue : gmap bytes PreVerifyRow) : list (bytes * PreVerifyRow) :=
  filter (fun row => owner = None ∨ owner = Some (pv_claimed_account_id row.2)) (map_to_list queue).

(** The queue without its oldest rows over [limit], and how many went. *)
Definition evict_oldest (owner : option AccountId) (limit : Z) (queue : gmap bytes PreVerifyRow) : gmap bytes PreVerifyRow * Z :=
  let rows := sort_by_key queue_order (queue_rows owner queue) in
  if bool_decide (len rows ≤ limit) then (queue, 0)
  else
    let victims := take (Z.to_nat (len rows - limit)) rows in
    (foldl (fun queue row => delete row.1 queue) queue victims, len victims).

Fixpoint enforce_budgets (budgets : list (option AccountId * Z * CapacityScope)) (inserted : bytes) (evicted : list CapacityScope)
    (queue : gmap bytes PreVerifyRow) : PreVerifyInsert * gmap bytes PreVerifyRow :=
  match budgets with
  | [] => (Parked evicted, queue)
  | (owner, max, scope) :: budgets =>
      let '(queue, gone) := evict_oldest owner max queue in
      let evicted := if bool_decide (0 < gone) then evicted ++ [scope] else evicted in
      if bool_decide (is_Some (queue !! inserted)) then enforce_budgets budgets inserted evicted queue
      else (PreVerifyAtCapacity scope, queue)
  end.

Definition enforce_pre_verify_budget (account : AccountId) (inserted : bytes) (queue : gmap bytes PreVerifyRow)
    : PreVerifyInsert * gmap bytes PreVerifyRow :=
  enforce_budgets [(Some account, PRE_VERIFY_PER_ACCOUNT_MAX, PreVerifyAccount); (None, PRE_VERIFY_GLOBAL_MAX, PreVerifyGlobal)]
    inserted [] queue.

Definition insert_pre_verify (db : CandidateDb) (entry_hash : AccountEntryHash) (account : AccountId) (device : DeviceFingerprint)
    (signed_bytes : bytes) (now_ms : Z) : PreVerifyInsert * CandidateDb :=
  let signed_hash := sha256 signed_bytes in
  if bool_decide (is_Some (cd_pre_verify db !! signed_hash)) then (Parked [], db)
  else
    let '(parked, queue) := enforce_pre_verify_budget account signed_hash
      (<[signed_hash := mkPreVerifyRow entry_hash account device signed_bytes now_ms]> (cd_pre_verify db)) in
    (parked, set_pre_verify queue db).

(** *** Promotion *)

Record PromotionState : Type := mkPromotionState {
  ps_db : CandidateDb;
  ps_keys : DeviceKeys;
  ps_outcome : PromotionOutcome;
  ps_promoted_any : bool;
}.

Definition unpark (signed_hash : bytes) (db : CandidateDb) : CandidateDb := set_pre_verify (delete signed_hash (cd_pre_verify db)) db.

(** The entry of a parked envelope, when it is valid under the key. *)
Definition promotable (raw_bytes pubkey_bytes : bytes) : option VerifiedAccountEntry :=
  match public_from_bytes pubkey_bytes with
  | Err _ => None
  | Ok pubkey =>
      match verify_account_signed raw_bytes pubkey with
      | Err _ => None
      | Ok v =>
          match validate_storable_header_payload (va_header v) (va_payload v), validate_authenticated_entry v with
          | Ok _, Ok _ => Some v
          | _, _ => None
          end
      end
  end.

Definition add_refusal (scope : CapacityScope) (hash : AccountEntryHash) (o : PromotionOutcome) : PromotionOutcome :=
  mkPromotionOutcome (match po_scope o with Some s => Some s | None => Some scope end) (po_entry_hashes o ++ [hash]).

Definition promote_row (now_ms expiry_now_ms : Z) (s : PromotionState) (row : bytes * PreVerifyRow) : Run PromotionState :=
  let '(signed_hash, parked) := row in
  match id_fixed 32 (pv_claimed_fingerprint parked) with
  | Err e => Some (Err e)
  | Ok device =>
      match ps_keys s !! device with
      | None => run_ret s
      | Some pubkey_bytes =>
          match promotable (pv_raw_bytes parked) pubkey_bytes with
          | None => run_ret (mkPromotionState (unpark signed_hash (ps_db s)) (ps_keys s) (ps_outcome s) (ps_promoted_any s))
          | Some v =>
              run_bind (insert_candidate (ps_db s) v (pv_raw_bytes parked) now_ms expiry_now_ms) (fun '(inserted, db) =>
              match inserted with
              | AtCapacity scope =>
                  run_ret (mkPromotionState (unpark signed_hash db) (ps_keys s) (add_refusal scope (va_entry_hash v) (ps_outcome s))
                             (ps_promoted_any s))
              | Inserted | AlreadyPresent =>
                  run_ret (mkPromotionState (unpark signed_hash db) (add_self_pubkey (ps_keys s) (va_header v) (va_payload v))
                             (ps_outcome s) true)
              end)
          end
      end
  end.

Definition pending_rows (db : CandidateDb) (account : AccountId) : list (bytes * PreVerifyRow) :=
  sort_by_key fst (queue_rows (Some account) (cd_pre_verify db)).

(** The rounds, until one promotes nothing.  The outer [None] is also an exhausted fuel. *)
Fixpoint promote_rounds (fuel : nat) (account : AccountId) (now_ms expiry_now_ms : Z) (db : CandidateDb) (keys : DeviceKeys)
    (outcome : PromotionOutcome) : Run (CandidateDb * PromotionOutcome) :=
  match fuel with
  | O => None
  | S fuel =>
      run_bind (run_foldl (promote_row now_ms expiry_now_ms) (mkPromotionState db keys outcome false) (pending_rows db account)) (fun s =>
      if ps_promoted_any s then promote_rounds fuel account now_ms expiry_now_ms (ps_db s) (ps_keys s) (ps_outcome s)
      else run_ret (ps_db s, ps_outcome s))
  end.

Definition promote_pre_verify (db : CandidateDb) (account : AccountId) (now_ms expiry_now_ms : Z) : Run (CandidateDb * PromotionOutcome) :=
  promote_rounds (S (size (cd_pre_verify db))) account now_ms expiry_now_ms db (stored_device_pubkeys db account) no_promotions.

(** ** Ingest *)

Definition park_outcome (p : PreVerifyInsert) : IngestOutcome :=
  match p with
  | Parked [] => IngestPreVerify
  | Parked evicted => IngestPreVerifyWithEviction evicted
  | PreVerifyAtCapacity scope => IngestCapacityReached scope
  end.

Definition store_verified (db : CandidateDb) (v : VerifiedAccountEntry) (signed_bytes : bytes) (now_ms expiry_now_ms : Z)
    : Run (IngestStep * CandidateDb) :=
  let account := ah_account_id (va_header v) in
  run_bind (insert_candidate db v signed_bytes now_ms expiry_now_ms) (fun '(inserted, db) =>
  match inserted, cd_status db !! va_entry_hash v with
  | AtCapacity scope, _ => run_ret (IngestDone (IngestCapacityReached scope), db)
  | AlreadyPresent, Some status => run_ret (IngestDone (IngestIngested status no_promotions), db)
  | _, _ =>
      run_bind (if introduces_device v then promote_pre_verify db account now_ms expiry_now_ms else run_ret (db, no_promotions))
        (fun '(db, promotions) => run_ret (IngestRefold account (va_entry_hash v) (introduces_device v) promotions, db))
  end).

Definition account_ingest_decoded_in_tx (db : CandidateDb) (signed : SignedAccountEntry) (signed_bytes : bytes) (now_ms expiry_now_ms : Z)
    (optimistic_verified : option VerifiedAccountEntry) : Run (IngestStep * CandidateDb) :=
  let h := sa_header signed in
  match optimistic_verified with
  | Some v => store_verified db v signed_bytes now_ms expiry_now_ms
  | None =>
      match add_self_pubkey (stored_device_pubkeys db (ah_account_id h)) h (sa_payload signed) !! ah_device_fingerprint h with
      | None =>
          let '(parked, db) :=
            insert_pre_verify db (sa_entry_hash signed) (ah_account_id h) (ah_device_fingerprint h) signed_bytes now_ms in
          run_ret (IngestDone (park_outcome parked), db)
      | Some pubkey_bytes =>
          match authenticate_entry signed_bytes pubkey_bytes with
          | Err e => run_ret (IngestDone (IngestRejected e), db)
          | Ok v => store_verified db v signed_bytes now_ms expiry_now_ms
          end
      end
  end.

Definition account_ingest_in_tx (db : CandidateDb) (signed_bytes : bytes) (now_ms expiry_now_ms : Z) : Run (IngestStep * CandidateDb) :=
  match decode_account_signed signed_bytes with
  | Err e => run_ret (IngestDone (IngestRejected e), db)
  | Ok signed =>
      match validate_storable_header_payload (sa_header signed) (sa_payload signed) with
      | Err e => run_ret (IngestDone (IngestRejected e), db)
      | Ok _ => account_ingest_decoded_in_tx db signed signed_bytes now_ms expiry_now_ms None
      end
  end.

Definition stored_status_for_exact_envelope (db : CandidateDb) (entry_hash : AccountEntryHash) (signed_bytes : bytes) : option string :=
  row ← cd_entries db !! entry_hash;
  if bool_decide (ce_signed_bytes row = signed_bytes) then cd_status db !! entry_hash else None.

(** [seen] is the store the reads before the transaction find, [db] the store in the transaction. *)
Definition account_ingest (seen db : CandidateDb) (signed_bytes : bytes) (now_ms expiry_now_ms : Z) : Run (IngestStep * CandidateDb) :=
  match decode_account_signed signed_bytes with
  | Err e => run_ret (IngestDone (IngestRejected e), db)
  | Ok signed =>
      let h := sa_header signed in
      match validate_storable_header_payload h (sa_payload signed) with
      | Err e => run_ret (IngestDone (IngestRejected e), db)
      | Ok _ =>
          match stored_status_for_exact_envelope seen (sa_entry_hash signed) signed_bytes with
          | Some status => run_ret (IngestDone (IngestIngested status no_promotions), db)
          | None =>
              match add_self_pubkey (stored_device_pubkeys seen (ah_account_id h)) h (sa_payload signed) !! ah_device_fingerprint h with
              | None => account_ingest_decoded_in_tx db signed signed_bytes now_ms expiry_now_ms None
              | Some pubkey_bytes =>
                  match authenticate_entry signed_bytes pubkey_bytes with
                  | Err e => run_ret (IngestDone (IngestRejected e), db)
                  | Ok v => account_ingest_decoded_in_tx db signed signed_bytes now_ms expiry_now_ms (Some v)
                  end
              end
          end
      end
  end.

(** The columns [load_candidate] reads of an account, ordered by hash. *)
Definition candidate_columns (db : CandidateDb) (account : AccountId) : list (bytes * bytes * Z * bytes) :=
  (fun row => (row.1, ce_device_fingerprint row.2, ce_seq row.2, ce_signed_bytes row.2)) <$> account_rows db account.
End Ingest.
