(* ===== verification/IngestSafety.v ===== *)
(** * What ingest keeps of the store ([account/storage.rs], [account/pre_verify.rs])

    Every step returns, and keeps the invariant [store_ok]: each stored row is the entry of a valid
    envelope, signed under a key an entry of its account certifies; each parked row is of an envelope
    that passed the structural checks and whose signer no stored entry certifies.  The envelopes are
    a list [submitted], on which SHA-256 is assumed to be free of collisions. *)

From S2P Require Import Prelude Cbor Minicbor Hash Op Device Entry Stream Branch Envelope Candidate AccountOps FoldTypes Snapshot AuthStore SecretsOps ControlV2 Fold AccountProjection Annex FoldFacts Ingest.

Local Open Scope Z_scope.

(** ** Runs that return *)

Definition returns {A} (m : Run A) (P : A → Prop) : Prop := ∃ a, m = Some (Ok a) ∧ P a.

Lemma returns_ret {A} (a : A) (P : A → Prop) : P a → returns (run_ret a) P.
Proof. intros. by exists a. Qed.

Lemma returns_bind {A B} (m : Run A) (f : A → Run B) (P : A → Prop) (Q : B → Prop) :
  returns m P → (∀ a, P a → returns (f a) Q) → returns (run_bind m f) Q.
Proof. intros (a & -> & Ha) Hf. exact (Hf a Ha). Qed.

Lemma returns_mono {A} (m : Run A) (P Q : A → Prop) : returns m P → (∀ a, P a → Q a) → returns m Q.
Proof. intros (a & ? & ?) HPQ. exists a. auto. Qed.

(** A loop: [I] holds of what is done and of the state, before and after each element. *)
Lemma returns_foldl {A B} (f : B → A → Run B) (I : list A → B → Prop) (l : list A) (b : B) :
  I [] b → (∀ done a rest b, l = done ++ a :: rest → I done b → returns (f b a) (I (done ++ [a]))) →
  returns (run_foldl f b l) (I l).
Proof.
  intros H0 Hstep.
  assert (∀ rest done b, l = done ++ rest → I done b → returns (run_foldl f b rest) (I l)) as Hgen.
  { induction rest as [|a rest IH]; intros pre b' Hl Hb; simpl.
    - apply returns_ret. rewrite app_nil_r in Hl. by subst.
    - eapply returns_bind; [by eapply Hstep|]. intros b'' Hb''. eapply IH; [|done]. by rewrite <- app_assoc. }
  by eapply (Hgen l []).
Qed.

Section IngestSafety.
Context `{MinicborLaws} `{Sha256} `{Ed25519}.

(** ** Keys *)

Lemma verify_decodes (bs : bytes) key v :
  verify_account_signed bs key = Ok v →
  ∃ signed, decode_account_signed bs = Ok signed ∧ va_header v = sa_header signed ∧ va_payload v = sa_payload signed ∧
    va_entry_hash v = sa_entry_hash signed ∧ ah_device_fingerprint (va_header v) = fingerprint key.
Proof.
  unfold verify_account_signed. intros Hv. inv_ok. case_bool_decide as Hfp; inv_ok. eexists. by split_and!.
Qed.

Lemma key_has_fingerprint_true pubkey device : key_has_fingerprint pubkey device = true → device = sha256 pubkey.
Proof.
  unfold key_has_fingerprint. destruct (public_from_bytes pubkey) as [key|] eqn:Hk; [|done].
  rewrite bool_decide_eq_true. intros <-. unfold public_from_bytes in Hk. by repeat (case_match; inv_ok).
Qed.

(** A certified key is of the device it certifies, and its entry introduces a device. *)
Lemma certified_key_fingerprint h payload device pubkey :
  certified_key h payload = Some (device, pubkey) → device = sha256 pubkey.
Proof.
  unfold certified_key. case_match; [done|]. destruct (ops_decode _ _) as [[op|]|] eqn:Hop; [|done..].
  destruct op; try done.
  - case_match eqn:Hkey; [|done]. intros [= <- <-]. by apply key_has_fingerprint_true.
  - intros [= <- <-]. apply ops_decode_known_inv in Hop as [(_ & _ & Hcan) _]. simpl in Hcan. inv_ok. congruence.
Qed.

Lemma certified_key_introduces v device pubkey :
  certified_key (va_header v) (va_payload v) = Some (device, pubkey) → introduces_device v = true.
Proof.
  unfold certified_key, introduces_device, header_is_genesis, is_device_add, is_current_control_plaintext, current_plaintext.
  destruct (_ && _) eqn:Hcur; [|done]. simpl. rewrite !andb_true_iff, !bool_decide_eq_true in Hcur.
  destruct Hcur as [[Hlog _] _]. rewrite (bool_decide_eq_true_2 _ Hlog). simpl.
  destruct (ops_decode _ _) as [[op|]|] eqn:Hop; [|done..]. apply ops_decode_known_inv in Hop as [(Ht & _) _].
  rewrite <- Ht. by destruct op.
Qed.

Lemma add_self_lookup keys h payload device pubkey :
  add_self_pubkey keys h payload !! device = Some pubkey →
  keys !! device = Some pubkey ∨ certified_key h payload = Some (device, pubkey).
Proof.
  unfold add_self_pubkey. destruct (certified_key h payload) as [[d p]|]; [|by left].
  rewrite lookup_insert_Some. intros [[-> ->]|[_ ?]]; [by right|by left].
Qed.

Lemma add_self_None keys h payload device :
  add_self_pubkey keys h payload !! device = None ↔
  keys !! device = None ∧ ∀ pubkey, certified_key h payload ≠ Some (device, pubkey).
Proof.
  unfold add_self_pubkey. destruct (certified_key h payload) as [[d p]|].
  - rewrite lookup_insert_None. split; [intros [? Hne]; split; [done|congruence]|intros [? Hne]; split; [done|]].
    intros ->. by eapply Hne.
  - split; [by split|by intros [? _]].
Qed.

(** An entry of the store certifies the key. *)
Definition certifies (row : CandidateEntry) (device : DeviceFingerprint) (pubkey : bytes) : Prop :=
  ∃ signed, decode_account_signed (ce_signed_bytes row) = Ok signed ∧
    certified_key (sa_header signed) (sa_payload signed) = Some (device, pubkey).

Definition certified_in (entries : gmap AccountEntryHash CandidateEntry) (account : AccountId) (device : DeviceFingerprint)
    (pubkey : bytes) : Prop :=
  ∃ hash row, entries !! hash = Some row ∧ ce_account_id row = account ∧ certifies row device pubkey.

Lemma certified_in_mono entries entries' account device pubkey :
  entries ⊆ entries' → certified_in entries account device pubkey → certified_in entries' account device pubkey.
Proof. intros Hsub (hash & row & Hrow & ?). exists hash, row. split; [by eapply lookup_weaken|done]. Qed.

Lemma elem_of_account_rows db account hash row :
  (hash, row) ∈ account_rows db account ↔ cd_entries db !! hash = Some row ∧ ce_account_id row = account.
Proof.
  unfold account_rows. rewrite (sort_by_key_perm fst _), list_elem_of_filter, elem_of_map_to_list.
  simpl. tauto.
Qed.

Lemma elem_of_key_rows db account row :
  row ∈ key_rows db account →
  ∃ hash, cd_entries db !! hash = Some row ∧ ce_account_id row = account.
Proof.
  unfold key_rows. rewrite list_elem_of_filter, list_elem_of_fmap. intros [_ ([hash row'] & -> & Hrow)].
  exists hash. by apply elem_of_account_rows.
Qed.

Lemma add_row_keys_lookup rows keys device pubkey :
  foldl add_row_key keys rows !! device = Some pubkey →
  keys !! device = Some pubkey ∨ ∃ row, row ∈ rows ∧ certifies row device pubkey.
Proof.
  revert keys. induction rows as [|row rows IH]; intros keys; simpl; [by left|]. intros [Hk|(row' & ? & ?)]%IH.
  - unfold add_row_key in Hk. destruct (decode_account_signed _) as [signed|] eqn:Hd; [|by left].
    apply add_self_lookup in Hk as [?|?]; [by left|right]. exists row. split; [left|by exists signed].
  - right. exists row'. split; [by right|done].
Qed.

Lemma stored_keys_certified db account device pubkey :
  stored_device_pubkeys db account !! device = Some pubkey → certified_in (cd_entries db) account device pubkey.
Proof.
  unfold stored_device_pubkeys. intros [?|(row & (hash & ? & ?)%elem_of_key_rows & ?)]%add_row_keys_lookup; [done|].
  by exists hash, row.
Qed.

(** ** Eviction *)

Lemma foldl_delete_subseteq (rows : list (bytes * PreVerifyRow)) (queue : gmap bytes PreVerifyRow) :
  foldl (fun queue row => delete row.1 queue) queue rows ⊆ queue.
Proof.
  revert queue. induction rows as [|row rows IH]; intros queue; simpl; [done|]. etrans; [apply IH|apply delete_subseteq].
Qed.

Lemma evict_oldest_subseteq owner limit queue : (evict_oldest owner limit queue).1 ⊆ queue.
Proof. unfold evict_oldest. case_bool_decide; [done|apply foldl_delete_subseteq]. Qed.

Lemma evict_none owner limit queue : 0 ≤ limit → (evict_oldest owner limit queue).2 ≤ 0 → (evict_oldest owner limit queue).1 = queue.
Proof.
  unfold evict_oldest. case_bool_decide as Hle; [done|]. simpl. unfold len in *. rewrite length_take. lia.
Qed.

Lemma enforce_budgets_sound budgets inserted evicted queue :
  Forall (λ budget, 0 ≤ budget.1.2) budgets →
  (enforce_budgets budgets inserted evicted queue).2 ⊆ queue ∧
  ((enforce_budgets budgets inserted evicted queue).1 = Parked [] → evicted = [] ∧ (enforce_budgets budgets inserted evicted queue).2 = queue).
Proof.
  intros Hb. revert evicted queue. induction Hb as [|[[owner max] scope] budgets Hmax Hb IH]; intros evicted queue; simpl.
  { split; [done|]. by intros [= ->]. }
  pose proof (evict_oldest_subseteq owner max queue) as Hsub. pose proof (evict_none owner max queue Hmax) as Hnone.
  destruct (evict_oldest owner max queue) as [queue' gone]. simpl in *. case_bool_decide as Hin; [|done].
  destruct (IH (if bool_decide (0 < gone) then evicted ++ [scope] else evicted) queue') as [Hsub' Hpark]. split; [by etrans|].
  intros Hres. destruct (Hpark Hres) as [Hev Hq]. case_bool_decide; [by destruct evicted|]. rewrite Hq. split; [done|]. apply Hnone. lia.
Qed.

(** ** Authentic entries

    The envelopes that reach the store, and what is assumed of SHA-256 on them. *)

Record collision_free (submitted : list bytes) : Prop := {
  cf_envelope bs bs' : bs ∈ submitted → bs' ∈ submitted → sha256 bs = sha256 bs' → bs = bs';
  cf_entry bs bs' s s' :
    bs ∈ submitted → bs' ∈ submitted → decode_account_signed bs = Ok s → decode_account_signed bs' = Ok s' →
    sa_entry_hash s = sa_entry_hash s' → sa_header s = sa_header s' ∧ sa_payload s = sa_payload s';
  cf_key bs bs' s s' device pubkey pubkey' :
    bs ∈ submitted → bs' ∈ submitted → decode_account_signed bs = Ok s → decode_account_signed bs' = Ok s' →
    certified_key (sa_header s) (sa_payload s) = Some (device, pubkey) →
    certified_key (sa_header s') (sa_payload s') = Some (device, pubkey') → pubkey = pubkey';
}.

(** The envelope is storable, and its signature is of the key. *)
Definition valid_under (bs pubkey : bytes) (v : VerifiedAccountEntry) : Prop :=
  ∃ key, public_from_bytes pubkey = Ok key ∧ verify_account_signed bs key = Ok v ∧
    validate_storable_header_payload (va_header v) (va_payload v) = Ok tt.

(** An envelope the structural checks pass. *)
Definition storable (bs : bytes) (signed : SignedAccountEntry) : Prop :=
  decode_account_signed bs = Ok signed ∧ validate_storable_header_payload (sa_header signed) (sa_payload signed) = Ok tt.

(** The envelopes among the submitted ones that a store may come to hold: storable, and signed
    under a key that the entry itself certifies or an admissible entry of its account. *)
Inductive admissible (submitted : list bytes) : bytes → Prop :=
| admissible_self bs signed pubkey v :
    bs ∈ submitted → storable bs signed →
    certified_key (sa_header signed) (sa_payload signed) = Some (ah_device_fingerprint (sa_header signed), pubkey) →
    valid_under bs pubkey v → admissible submitted bs
| admissible_certified bs signed pubkey v bs' signed' :
    bs ∈ submitted → storable bs signed → admissible submitted bs' → storable bs' signed' →
    ah_account_id (sa_header signed') = ah_account_id (sa_header signed) →
    certified_key (sa_header signed') (sa_payload signed') = Some (ah_device_fingerprint (sa_header signed), pubkey) →
    valid_under bs pubkey v → admissible submitted bs.

Section Submitted.
Context (submitted : list bytes) (Hfree : collision_free submitted).
Set Default Proof Using "All".

Definition authentic (entries : gmap AccountEntryHash CandidateEntry) (hash : AccountEntryHash) (row : CandidateEntry) : Prop :=
  ∃ v pubkey, ce_signed_bytes row ∈ submitted ∧ valid_under (ce_signed_bytes row) pubkey v ∧ hash = va_entry_hash v ∧
    row = candidate_row v (ce_signed_bytes row) (ce_received_at_ms row) ∧
    certified_in entries (ah_account_id (va_header v)) (ah_device_fingerprint (va_header v)) pubkey ∧
    admissible submitted (ce_signed_bytes row).

Definition all_authentic (entries : gmap AccountEntryHash CandidateEntry) : Prop := map_Forall (authentic entries) entries.

Lemma valid_under_storable bs pubkey v :
  valid_under bs pubkey v →
  ∃ signed, storable bs signed ∧ va_header v = sa_header signed ∧ va_payload v = sa_payload signed ∧ va_entry_hash v = sa_entry_hash signed ∧
    ah_device_fingerprint (va_header v) = sha256 pubkey.
Proof.
  intros (key & Hkey & (signed & Hd & Hh & Hp & Hhash & Hfp)%verify_decodes & Hval). exists signed. unfold storable.
  rewrite <- Hh, <- Hp. split_and!; try done. rewrite Hfp. unfold public_from_bytes in Hkey. by repeat (case_match; inv_ok).
Qed.

Lemma storable_seq bs signed : storable bs signed → ah_seq (sa_header signed) ≤ sql_int_max.
Proof.
  intros [_ Hval]. unfold validate_storable_header_payload in Hval. by apply ensure_bind in Hval as [?%bool_decide_eq_true _].
Qed.

Lemma storable_header_wf bs signed : storable bs signed → header_wf (sa_header signed).
Proof.
  intros [Hd _]. unfold decode_account_signed in Hd. case_bool_decide; [done|].
  destruct (decode_account_signed_cbor bs) as [s|] eqn:Hs; simpl in Hd; inv_ok. by apply decode_account_cbor_sound in Hs as [? _].
Qed.

(** *** Stored keys are the certified keys *)

Lemma authentic_certified_row entries hash row device pubkey :
  authentic entries hash row → certifies row device pubkey →
  ce_log_id row = CONTROL_LOG ∧ (ce_entry_type row = ACCOUNT_GENESIS ∨ ce_entry_type row = DEVICE_ADD).
Proof.
  intros (v & pk & _ & (key & _ & Hv & _) & _ & Hrow & _) (signed & Hd & Hcert).
  apply verify_decodes in Hv as (signed' & Hd' & Hh & Hp & _). rewrite Hd in Hd'. injection Hd' as <-. rewrite <- Hh, <- Hp in Hcert.
  rewrite Hrow. apply certified_key_introduces in Hcert. unfold introduces_device, header_is_genesis, is_device_add in Hcert.
  rewrite orb_true_iff, !andb_true_iff, !bool_decide_eq_true in Hcert. simpl. tauto.
Qed.

Lemma certified_key_unique entries entries' account account' device pubkey pubkey' :
  all_authentic entries → all_authentic entries' → certified_in entries account device pubkey →
  certified_in entries' account' device pubkey' → pubkey = pubkey'.
Proof.
  intros Hall Hall' (hash & row & Hrow & _ & (s & Hd & Hc)) (hash' & row' & Hrow' & _ & (s' & Hd' & Hc')).
  destruct (Hall _ _ Hrow) as (v & pk & Hin & _), (Hall' _ _ Hrow') as (v' & pk' & Hin' & _).
  exact (cf_key _ Hfree _ _ _ _ _ _ _ Hin Hin' Hd Hd' Hc Hc').
Qed.

Lemma add_row_keys_dom rows keys device :
  is_Some (keys !! device) ∨ (∃ row pubkey, row ∈ rows ∧ certifies row device pubkey) →
  is_Some (foldl add_row_key keys rows !! device).
Proof.
  revert keys. induction rows as [|row rows IH]; intros keys; simpl.
  { by intros [?|(? & ? & ?%elem_of_nil & _)]. }
  intros Hor. apply IH. unfold add_row_key, add_self_pubkey.
  destruct Hor as [Hk|(row' & pk & [->|?]%elem_of_cons & Hc)].
  - left. destruct (decode_account_signed _); [|done]. destruct (certified_key _ _) as [[]|]; [|done].
    rewrite lookup_insert_is_Some. destruct (decide (d = device)); [by left|by right].
  - left. destruct Hc as (signed & -> & ->). by rewrite lookup_insert_eq.
  - right. by exists row', pk.
Qed.

(** Keys of an account: exactly those its entries certify. *)
Definition keys_exact (keys : DeviceKeys) (entries : gmap AccountEntryHash CandidateEntry) (account : AccountId) : Prop :=
  ∀ device pubkey, keys !! device = Some pubkey ↔ certified_in entries account device pubkey.

Lemma stored_keys_exact db account :
  all_authentic (cd_entries db) → keys_exact (stored_device_pubkeys db account) (cd_entries db) account.
Proof.
  intros Hall device pubkey. split; [apply stored_keys_certified|]. intros Hc.
  assert (is_Some (stored_device_pubkeys db account !! device)) as [pk' Hpk'].
  { apply add_row_keys_dom. right. destruct Hc as (hash & row & Hrow & Ha & Hc). exists row, pubkey. split; [|done].
    destruct (authentic_certified_row _ _ _ _ _ (Hall _ _ Hrow) Hc). unfold key_rows.
    apply list_elem_of_filter. split; [done|]. apply list_elem_of_fmap. exists (hash, row). split; [done|]. by apply elem_of_account_rows. }
  rewrite Hpk'. f_equal. eapply certified_key_unique; [done|done|by apply stored_keys_certified|done].
Qed.

(** *** Insertion *)

Lemma storable_valid_unique bs signed signed' : storable bs signed → storable bs signed' → signed = signed'.
Proof. intros [Hd _] [Hd' _]. congruence. Qed.

(** The key of the signer of an entry: certified by a stored entry, or by the entry itself. *)
Definition signer_key (entries : gmap AccountEntryHash CandidateEntry) (h : AccountEntryHeader) (payload pubkey : bytes) : Prop :=
  certified_in entries (ah_account_id h) (ah_device_fingerprint h) pubkey ∨
  certified_key h payload = Some (ah_device_fingerprint h, pubkey).

Definition resolved (entries : gmap AccountEntryHash CandidateEntry) (bs pubkey : bytes) (v : VerifiedAccountEntry) : Prop :=
  bs ∈ submitted ∧ valid_under bs pubkey v ∧ signer_key entries (va_header v) (va_payload v) pubkey.

Definition certifies_more (entries entries' : gmap AccountEntryHash CandidateEntry) (v : VerifiedAccountEntry) : Prop :=
  ∀ account device pubkey, certified_in entries' account device pubkey ↔
    certified_in entries account device pubkey ∨
    (account = ah_account_id (va_header v) ∧ certified_key (va_header v) (va_payload v) = Some (device, pubkey)).

Lemma authentic_mono entries entries' hash row : entries ⊆ entries' → authentic entries hash row → authentic entries' hash row.
Proof. intros Hsub (v & pk & ? & ? & ? & ? & ? & ?). exists v, pk. split_and!; try done. by eapply certified_in_mono. Qed.

Lemma certifies_candidate bs pubkey v now device pk :
  valid_under bs pubkey v →
  certifies (candidate_row v bs now) device pk ↔ certified_key (va_header v) (va_payload v) = Some (device, pk).
Proof.
  intros (signed & [Hd _] & -> & -> & _)%valid_under_storable. unfold certifies. simpl. rewrite Hd. naive_solver.
Qed.

Lemma insert_certifies_more entries bs pubkey v now :
  entries !! va_entry_hash v = None → valid_under bs pubkey v →
  certifies_more entries (<[va_entry_hash v := candidate_row v bs now]> entries) v.
Proof.
  intros Hnone Hv account device pk. split.
  - intros (hash & row & [[<- <-]|[Hne Hrow]]%lookup_insert_Some & Ha & Hc).
    + right. split; [done|]. by eapply certifies_candidate.
    + left. by exists hash, row.
  - intros [Hc|[-> Hc]].
    + eapply certified_in_mono; [by apply insert_subseteq|done].
    + exists (va_entry_hash v), (candidate_row v bs now). rewrite lookup_insert_eq. split_and!; try done. by eapply certifies_candidate.
Qed.

Lemma resolved_admissible entries bs pubkey v : all_authentic entries → resolved entries bs pubkey v → admissible submitted bs.
Proof.
  intros Hall (Hin & Hv & Hkey). pose proof (valid_under_storable _ _ _ Hv) as (signed & Hst & Hh & Hp & _ & _).
  rewrite Hh, Hp in Hkey. destruct Hkey as [(hash & row & Hrow & Ha & (s & Hd & Hc))|Hc]; [|by eapply admissible_self].
  destruct (Hall _ _ Hrow) as (v' & pk' & Hin' & Hv' & _ & Heq & _ & Hadm).
  pose proof (valid_under_storable _ _ _ Hv') as (s' & Hst' & Hh' & _).
  pose proof (proj1 Hst') as Hd'. rewrite Hd in Hd'. injection Hd' as <-.
  eapply (admissible_certified _ bs signed pubkey v _ s); try done. rewrite <- Ha, Heq. by rewrite <- Hh'.
Qed.

Lemma insert_authentic entries bs pubkey v now :
  all_authentic entries → entries !! va_entry_hash v = None → resolved entries bs pubkey v →
  all_authentic (<[va_entry_hash v := candidate_row v bs now]> entries).
Proof.
  intros Hall Hnone Hres hash row [[<- <-]|[Hne Hrow]]%lookup_insert_Some.
  - pose proof Hres as (Hin & Hv & Hkey). exists v, pubkey. split_and!; try done; [|by eapply resolved_admissible].
    apply (insert_certifies_more entries bs pubkey v now Hnone Hv). destruct Hkey; [by left|by right].
  - eapply authentic_mono; [by apply insert_subseteq|by apply Hall].
Qed.

(** An entry stored already certifies what the incoming one would. *)
Lemma stored_certifies entries bs pubkey v row :
  all_authentic entries → entries !! va_entry_hash v = Some row → resolved entries bs pubkey v →
  certifies_more entries entries v.
Proof.
  intros Hall Hrow (Hin & Hv & _) account device pk. split; [by left|]. intros [Hc|[-> Hc]]; [done|].
  destruct (Hall _ _ Hrow) as (v' & pk' & Hin' & Hv' & Hhash & Heq & _).
  apply valid_under_storable in Hv as (s & [Hd _] & Hh & Hp & Hs & _), Hv' as (s' & [Hd' _] & Hh' & Hp' & Hs' & _).
  destruct (cf_entry _ Hfree _ _ s s' Hin Hin' Hd Hd') as [Eh Ep]; [congruence|].
  exists (va_entry_hash v), row. split_and!; [done| |].
  - rewrite Heq. simpl. congruence.
  - exists s'. split; [done|]. by rewrite <- Eh, <- Ep, <- Hh, <- Hp.
Qed.

Definition entry_stored (o : CandidateInsert) : bool := match o with AtCapacity _ => false | _ => true end.

Lemma insert_candidate_returns db bs pubkey v now_ms expiry :
  all_authentic (cd_entries db) → resolved (cd_entries db) bs pubkey v →
  returns (insert_candidate db v bs now_ms expiry) (λ '(o, db'),
    cd_entries db ⊆ cd_entries db' ∧ all_authentic (cd_entries db') ∧ cd_pre_verify db' = cd_pre_verify db ∧
    (o ≠ Inserted → db' = db) ∧
    if entry_stored o then is_Some (cd_entries db' !! va_entry_hash v) ∧ certifies_more (cd_entries db) (cd_entries db') v
    else db' = db).
Proof.
  intros Hall Hres. unfold insert_candidate. case_bool_decide as Hsome.
  { apply returns_ret. destruct Hsome as [row Hrow]. simpl. split_and!; try done. by eapply stored_certifies. }
  apply eq_None_not_Some in Hsome. destruct (candidate_capacity _ _ _ _) as [scope|]; [by apply returns_ret|].
  pose proof Hres as (_ & Hv & _). apply valid_under_storable in Hv as Hv'. destruct Hv' as (signed & Hst & Hh & _).
  apply storable_seq in Hst. rewrite bool_decide_false by (rewrite Hh; lia). apply returns_ret. simpl. split_and!; try done.
  - by apply insert_subseteq.
  - by eapply insert_authentic.
  - rewrite lookup_insert_eq. done.
  - by eapply insert_certifies_more.
Qed.

(** ** The store and its queue *)

Lemma storable_binding h payload : validate_storable_header_payload h payload = Ok tt → validate_genesis_binding h payload = Ok tt.
Proof.
  unfold validate_storable_header_payload. intros [_ Hval]%ensure_bind. destruct (is_current_control_plaintext h) eqn:Hcur.
  - by inv_ok.
  - unfold validate_genesis_binding. by rewrite Hcur.
Qed.

Lemma promotable_iff bs pubkey v : promotable bs pubkey = Some v ↔ valid_under bs pubkey v.
Proof.
  unfold promotable, valid_under, validate_authenticated_entry. split.
  - intros Hp. repeat case_match; simplify_eq. eexists. split_and!; try done. by repeat match goal with u : () |- _ => destruct u end.
  - intros (key & -> & -> & Hval). by rewrite Hval, storable_binding.
Qed.

Lemma authenticate_entry_iff bs pubkey signed v :
  storable bs signed → authenticate_entry bs pubkey = Ok v ↔ valid_under bs pubkey v.
Proof.
  intros [Hd Hval]. unfold authenticate_entry, valid_under, validate_authenticated_entry. split.
  - destruct (public_from_bytes pubkey) as [key|]; intros Ha; simpl in Ha; inv_ok. exists key. split_and!; try done.
    match goal with Hv : verify_account_signed _ _ = Ok _ |- _ => apply verify_decodes in Hv as (s & Hd' & -> & -> & _) end.
    by rewrite Hd in Hd'; injection Hd' as <-.
  - intros (key & -> & Hv & Hstore). simpl. rewrite Hv. simpl. by rewrite storable_binding.
Qed.

(** A parked row repeats its envelope, which passed the structural checks and names another signer
    than the one it may certify. *)
Definition parked_ok (hash : bytes) (r : PreVerifyRow) : Prop :=
  ∃ signed, pv_raw_bytes r ∈ submitted ∧ hash = sha256 (pv_raw_bytes r) ∧ storable (pv_raw_bytes r) signed ∧
    (∀ pubkey, certified_key (sa_header signed) (sa_payload signed) ≠ Some (ah_device_fingerprint (sa_header signed), pubkey)) ∧
    r = mkPreVerifyRow (sa_entry_hash signed) (ah_account_id (sa_header signed)) (ah_device_fingerprint (sa_header signed))
          (pv_raw_bytes r) (pv_received_at_ms r).

(** No stored entry certifies the signer. *)
Definition unresolved (entries : gmap AccountEntryHash CandidateEntry) (r : PreVerifyRow) : Prop :=
  ∀ pubkey, ¬ certified_in entries (pv_claimed_account_id r) (pv_claimed_fingerprint r) pubkey.

Record store_ok (db : CandidateDb) : Prop := {
  so_entries : all_authentic (cd_entries db);
  so_queue : map_Forall parked_ok (cd_pre_verify db);
  so_awake : map_Forall (λ _ r, unresolved (cd_entries db) r) (cd_pre_verify db);
}.

(** The envelope needs no retry: its entry is stored, or its signer's key refutes it. *)
Definition accounted (entries : gmap AccountEntryHash CandidateEntry) (bs : bytes) : Prop :=
  ∃ signed, storable bs signed ∧
    (is_Some (entries !! sa_entry_hash signed) ∨
     ∃ pubkey, signer_key entries (sa_header signed) (sa_payload signed) pubkey ∧ ∀ v, ¬ valid_under bs pubkey v).

Lemma accounted_mono entries entries' bs : entries ⊆ entries' → accounted entries bs → accounted entries' bs.
Proof.
  intros Hsub (signed & Hst & [[row Hrow]|(pk & Hc & Hv)]); exists signed; (split; [done|]).
  - left. exists row. by eapply lookup_weaken.
  - right. exists pk. split; [|done]. destruct Hc; [left|by right]. by eapply certified_in_mono.
Qed.

(** *** Promotion *)

Section Promotion.
Context (now_ms expiry : Z) (account : AccountId) (db0 : CandidateDb) (Hqueue : map_Forall parked_ok (cd_pre_verify db0)).

Record promoting (s : PromotionState) : Prop := {
  pm_entries : all_authentic (cd_entries (ps_db s));
  pm_grow : cd_entries db0 ⊆ cd_entries (ps_db s);
  pm_queue : cd_pre_verify (ps_db s) ⊆ cd_pre_verify db0;
  pm_keys : keys_exact (ps_keys s) (cd_entries (ps_db s)) account;
  pm_others account' device pubkey :
    account' ≠ account → certified_in (cd_entries (ps_db s)) account' device pubkey → certified_in (cd_entries db0) account' device pubkey;
  pm_left hash r :
    cd_pre_verify db0 !! hash = Some r →
    cd_pre_verify (ps_db s) !! hash = Some r ∨ accounted (cd_entries (ps_db s)) (pv_raw_bytes r) ∨ is_Some (po_scope (ps_outcome s));
}.

(** A row stays with its signer unresolved, or leaves. *)
Definition row_done (hash : bytes) (r : PreVerifyRow) (s s' : PromotionState) : Prop :=
  (s' = s ∧ ps_keys s !! pv_claimed_fingerprint r = None) ∨
  (cd_pre_verify (ps_db s') = delete hash (cd_pre_verify (ps_db s)) ∧
   (ps_promoted_any s' = true ∨ ps_promoted_any s' = ps_promoted_any s ∧ ps_keys s' = ps_keys s)).

Lemma add_self_exact keys entries entries' v :
  keys_exact keys entries account → ah_account_id (va_header v) = account → certifies_more entries entries' v →
  all_authentic entries' → keys_exact (add_self_pubkey keys (va_header v) (va_payload v)) entries' account.
Proof.
  intros Hkeys Ha Hmore Hall device pubkey. rewrite (Hmore account device pubkey). unfold add_self_pubkey.
  destruct (certified_key (va_header v) (va_payload v)) as [[d pk]|] eqn:Hc.
  2: { rewrite (Hkeys device pubkey). naive_solver. }
  rewrite lookup_insert_Some, (Hkeys device pubkey). split; [naive_solver|].
  intros [Hold|[_ [= -> ->]]]; [|by left]. destruct (decide (d = device)) as [->|]; [left|by right].
  split; [done|]. eapply (certified_key_unique entries' entries' account account device); [done|done| |].
  - apply Hmore. right. split; [by symmetry|done].
  - apply Hmore. by left.
Qed.

Lemma promoting_left s s' hash0 r0 :
  promoting s → cd_entries (ps_db s) ⊆ cd_entries (ps_db s') →
  cd_pre_verify (ps_db s') = delete hash0 (cd_pre_verify (ps_db s)) → cd_pre_verify db0 !! hash0 = Some r0 →
  (is_Some (po_scope (ps_outcome s)) → is_Some (po_scope (ps_outcome s'))) →
  accounted (cd_entries (ps_db s')) (pv_raw_bytes r0) ∨ is_Some (po_scope (ps_outcome s')) →
  ∀ hash r, cd_pre_verify db0 !! hash = Some r →
    cd_pre_verify (ps_db s') !! hash = Some r ∨ accounted (cd_entries (ps_db s')) (pv_raw_bytes r) ∨ is_Some (po_scope (ps_outcome s')).
Proof.
  intros Hs Hgrow Hdel Hr0 Hscope Hset hash r Hr. destruct (decide (hash = hash0)) as [->|Hne].
  - right. by simplify_eq.
  - rewrite Hdel, lookup_delete_ne by done. destruct (pm_left s Hs hash r Hr) as [?|[?|?]]; [by left|right; left|right; right; auto].
    by eapply accounted_mono.
Qed.

Lemma promote_row_returns s hash r :
  promoting s → cd_pre_verify (ps_db s) !! hash = Some r → pv_claimed_account_id r = account →
  returns (promote_row now_ms expiry s (hash, r)) (λ s', promoting s' ∧ row_done hash r s s').
Proof.
  intros Hs Hr Ha. pose proof (lookup_weaken _ _ _ _ Hr (pm_queue s Hs)) as Hr0.
  destruct (Hqueue _ _ Hr0) as (signed & Hin & Hhash & Hst & _ & Heq). unfold promote_row.
  pose proof Hst as [Hd _].
  assert (id_fixed 32 (pv_claimed_fingerprint r) = Ok (pv_claimed_fingerprint r)) as ->.
  { apply id_fixed_Ok. split; [|done]. rewrite Heq. simpl. by apply (storable_header_wf _ _ Hst). }
  destruct (ps_keys s !! pv_claimed_fingerprint r) as [pubkey|] eqn:Hkey; [|apply returns_ret; split; [done|by left]].
  apply (pm_keys s Hs) in Hkey as Hcert.
  assert (ah_account_id (sa_header signed) = account) as Hacc by (by rewrite <- Ha, Heq).
  assert (pv_claimed_fingerprint r = ah_device_fingerprint (sa_header signed)) as Hfp by (by rewrite Heq).
  rewrite Hfp in Hcert.
  destruct (promotable (pv_raw_bytes r) pubkey) as [v|] eqn:Hp.
  2: { apply returns_ret. split; [|right; split; [done|by right]]. constructor; [apply Hs|apply Hs| |apply Hs|apply Hs|].
    - simpl. etrans; [apply delete_subseteq|apply Hs].
    - apply (promoting_left s _ hash r Hs); simpl; try done. left. exists signed. split; [done|]. right. exists pubkey.
      split; [left; by rewrite Hacc|]. intros v. by rewrite <- promotable_iff, Hp. }
  apply promotable_iff in Hp as Hv. pose proof (valid_under_storable _ _ _ Hv) as (signed' & Hst' & Hh & Hpl & Hs' & _).
  rewrite <- (storable_valid_unique _ _ _ Hst Hst') in *.
  eapply returns_bind.
  { apply (insert_candidate_returns (ps_db s) (pv_raw_bytes r) pubkey v now_ms expiry); [apply Hs|].
    split_and!; [done|done|left]. by rewrite Hh, Hacc. }
  intros [o db] (Hgrow & Hall & Hq & Hsame & Ho).
  destruct (entry_stored o) eqn:Hstored.
  - assert (returns (run_ret (mkPromotionState (unpark hash db) (add_self_pubkey (ps_keys s) (va_header v) (va_payload v)) (ps_outcome s) true))
      (λ s', promoting s' ∧ row_done hash r s s')) as Hgoal.
    { destruct Ho as [Hrow Hmore]. apply returns_ret. split; [|right; split; [simpl; by rewrite Hq|by left]].
      constructor; [done|..].
      - etrans; [apply Hs|done].
      - simpl. rewrite Hq. etrans; [apply delete_subseteq|apply Hs].
      - eapply add_self_exact; [apply Hs|by rewrite Hh|done|done].
      - intros account' device pk Hne [Hc|[-> _]]%Hmore; [by apply (pm_others s Hs)|]. by rewrite Hh in Hne.
      - apply (promoting_left s _ hash r Hs); simpl; try done; [by rewrite Hq|]. left. exists signed. split; [done|]. left. by rewrite <- Hs'. }
    by destruct o.
  - destruct o as [| |scope]; [done|done|]. simpl in Ho. subst db. apply returns_ret.
    split; [|right; split; [done|by right]]. constructor; [apply Hs|apply Hs| |apply Hs|apply Hs|].
    + simpl. etrans; [apply delete_subseteq|apply Hs].
    + apply (promoting_left s _ hash r Hs); simpl; try done; [by destruct (po_scope _)|]. right. by destruct (po_scope _).
Qed.

Lemma elem_of_pending db hash r :
  (hash, r) ∈ pending_rows db account ↔ cd_pre_verify db !! hash = Some r ∧ pv_claimed_account_id r = account.
Proof.
  unfold pending_rows, queue_rows. rewrite (sort_by_key_perm fst _), list_elem_of_filter, elem_of_map_to_list. simpl. naive_solver.
Qed.

Lemma pending_NoDup db : NoDup (fst <$> pending_rows db account).
Proof.
  unfold pending_rows. rewrite (sort_by_key_perm fst _). apply (sublist_NoDup _ (fst <$> map_to_list (cd_pre_verify db))).
  - apply NoDup_fst_map_to_list.
  - apply fmap_sublist, sublist_filter.
Qed.

(** A round: it deletes what it promotes, and without a promotion every resolved row is gone. *)
Record round_of (s0 : PromotionState) (done : list (bytes * PreVerifyRow)) (s : PromotionState) : Prop := {
  ro_promoting : promoting s;
  ro_waiting hash r : cd_pre_verify (ps_db s0) !! hash = Some r → hash ∉ fst <$> done → cd_pre_verify (ps_db s) !! hash = Some r;
  ro_queue : cd_pre_verify (ps_db s) ⊆ cd_pre_verify (ps_db s0);
  ro_promoted : ps_promoted_any s = true → (size (cd_pre_verify (ps_db s)) < size (cd_pre_verify (ps_db s0)))%nat;
  ro_fixpoint :
    ps_promoted_any s = false →
    ps_keys s = ps_keys s0 ∧
    ∀ hash r, hash ∈ fst <$> done → cd_pre_verify (ps_db s) !! hash = Some r → ps_keys s0 !! pv_claimed_fingerprint r = None;
}.

Lemma round_step s0 done hash r s s' :
  round_of s0 done s → hash ∉ fst <$> done → cd_pre_verify (ps_db s) !! hash = Some r → promoting s' → row_done hash r s s' →
  round_of s0 (done ++ [(hash, r)]) s'.
Proof.
  intros [Hp Hw Hq Hn Hf] Hnd Hr Hp' Hdone. constructor; [done|..]; rewrite ?fmap_app; simpl.
  - intros h x Hx [Hh Hne]%not_elem_of_app. rewrite list_elem_of_singleton in Hne. destruct Hdone as [[-> _]|[-> _]]; [by apply Hw|].
    rewrite lookup_delete_ne by done. by apply Hw.
  - destruct Hdone as [[-> _]|[-> _]]; [done|]. etrans; [apply delete_subseteq|done].
  - destruct Hdone as [[-> _]|[-> _]]; [done|]. intros _. pose proof (map_size_delete_Some hash (cd_pre_verify (ps_db s)) (mk_is_Some _ _ Hr)).
    pose proof (map_subseteq_size _ _ Hq). assert (size (cd_pre_verify (ps_db s)) ≠ 0%nat) by (intros Hz%map_size_empty_inv; rewrite Hz in Hr; done). lia.
  - intros Hfalse. destruct Hdone as [[-> Hnone]|(-> & [?|(Hsame & Hkeep)])]; [|congruence|].
    + destruct (Hf Hfalse) as [Hk Hrest]. split; [done|].
      intros h x [Hh|Hh%list_elem_of_singleton]%elem_of_app Hx; [by eapply Hrest|]. rewrite <- Hk. congruence.
    + rewrite Hsame in Hfalse. destruct (Hf Hfalse) as [Hk Hrest]. split; [congruence|].
      intros h x [Hh|Hh%list_elem_of_singleton]%elem_of_app Hx; [|by rewrite Hh, lookup_delete_eq in Hx].
      apply (Hrest h); [done|]. by eapply lookup_weaken; [|apply delete_subseteq].
Qed.

Lemma round_returns s0 :
  promoting s0 → ps_promoted_any s0 = false →
  returns (run_foldl (promote_row now_ms expiry) s0 (pending_rows (ps_db s0) account)) (round_of s0 (pending_rows (ps_db s0) account)).
Proof.
  intros Hs0 Hfalse. apply returns_foldl.
  { constructor; try done. - by rewrite Hfalse. - intros _. split; [done|]. by intros ? ? ?%elem_of_nil. }
  intros pre [hash r] rest s Hl Hround. pose proof (pending_NoDup (ps_db s0)) as Hnd. rewrite Hl, fmap_app in Hnd.
  apply NoDup_app in Hnd as (_ & Hnd & _). assert (hash ∉ fst <$> pre) as Hnew by (intros Hin; apply (Hnd _ Hin); left).
  assert ((hash, r) ∈ pending_rows (ps_db s0) account) as [Hr Ha]%elem_of_pending
    by (rewrite Hl; apply elem_of_app; right; left).
  eapply (ro_waiting _ _ _ Hround) in Hr; [|done].
  eapply returns_mono; [by apply promote_row_returns; [apply Hround|..]|]. intros s' [Hp' Hdone]. by eapply round_step.
Qed.

Definition promoted (db : CandidateDb) (outcome : PromotionOutcome) (keys : DeviceKeys) : Prop :=
  promoting (mkPromotionState db keys outcome false) ∧
  ∀ hash r, cd_pre_verify db !! hash = Some r → pv_claimed_account_id r = account → keys !! pv_claimed_fingerprint r = None.

Lemma promoting_flag db keys outcome flag flag' :
  promoting (mkPromotionState db keys outcome flag) → promoting (mkPromotionState db keys outcome flag').
Proof. by intros []. Qed.

Lemma promote_rounds_returns fuel db keys outcome :
  promoting (mkPromotionState db keys outcome false) → (size (cd_pre_verify db) < fuel)%nat →
  returns (promote_rounds fuel account now_ms expiry db keys outcome) (λ '(db', outcome'), ∃ keys', promoted db' outcome' keys').
Proof.
  revert db keys outcome. induction fuel as [|fuel IH]; intros db keys outcome Hs Hsize; [lia|]. simpl.
  eapply returns_bind; [by apply (round_returns _ Hs)|]. intros s Hround. simpl in Hround.
  destruct s as [db' keys' outcome' flag]. destruct flag; simpl.
  - apply IH; [eapply promoting_flag, Hround|]. pose proof (ro_promoted _ _ _ Hround eq_refl). simpl in *. lia.
  - apply returns_ret. exists keys'. split; [apply Hround|]. intros hash r Hr Ha.
    destruct (ro_fixpoint _ _ _ Hround eq_refl) as [Hkeys Hnone]. simpl in *. rewrite Hkeys. apply (Hnone hash r); [|done].
    apply list_elem_of_fmap. exists (hash, r). split; [done|]. apply elem_of_pending. split; [|done].
    eapply lookup_weaken; [done|]. apply (ro_queue _ _ _ Hround).
Qed.
End Promotion.

Lemma promote_pre_verify_returns now_ms expiry account db :
  all_authentic (cd_entries db) → map_Forall parked_ok (cd_pre_verify db) →
  (∀ hash r, cd_pre_verify db !! hash = Some r → pv_claimed_account_id r ≠ account → unresolved (cd_entries db) r) →
  returns (promote_pre_verify db account now_ms expiry) (λ '(db', outcome),
    store_ok db' ∧ cd_entries db ⊆ cd_entries db' ∧
    ∀ hash r, cd_pre_verify db !! hash = Some r →
      cd_pre_verify db' !! hash = Some r ∨ accounted (cd_entries db') (pv_raw_bytes r) ∨ is_Some (po_scope outcome)).
Proof.
  intros Hall Hqueue Hothers. unfold promote_pre_verify.
  eapply returns_mono; [apply (promote_rounds_returns now_ms expiry account db Hqueue); [|lia]|].
  - constructor; simpl; try done; [by apply stored_keys_exact|by left].
  - intros [db' outcome] (keys & Hp & Hnone). split_and!; [|apply Hp|apply (pm_left _ _ _ Hp)].
    constructor; [apply Hp| |].
    + intros hash r Hr. apply Hqueue. eapply lookup_weaken; [done|apply Hp].
    + intros hash r Hr pk Hc. destruct (decide (pv_claimed_account_id r = account)) as [Ha|Ha].
      * rewrite Ha in Hc. apply (pm_keys _ _ _ Hp) in Hc. discriminate (eq_trans (eq_sym Hc) (Hnone _ _ Hr Ha)).
      * assert (cd_pre_verify db !! hash = Some r) as Hr0 by (eapply lookup_weaken; [done|apply Hp]).
        apply (Hothers _ _ Hr0 Ha pk). by apply (pm_others _ _ _ Hp).
Qed.

(** *** One envelope *)

Definition refused_step (step : IngestStep) : Prop :=
  match step with
  | IngestDone (IngestCapacityReached _) | IngestDone (IngestPreVerifyWithEviction _) => True
  | IngestDone (IngestIngested _ promotions) | IngestRefold _ _ _ promotions => is_Some (po_scope promotions)
  | _ => False
  end.

(** What a step does to the store, and to what the queue held. *)
Record ingested (db db' : CandidateDb) (refused : Prop) : Prop := {
  ig_store : store_ok db';
  ig_grow : cd_entries db ⊆ cd_entries db';
  ig_left hash r :
    cd_pre_verify db !! hash = Some r →
    cd_pre_verify db' !! hash = Some r ∨ accounted (cd_entries db') (pv_raw_bytes r) ∨ refused;
}.

Lemma ingested_refl db refused : store_ok db → ingested db db refused.
Proof. intros. constructor; try done. by left. Qed.

Lemma store_verified_returns db bs pubkey v now_ms expiry :
  store_ok db → resolved (cd_entries db) bs pubkey v →
  returns (store_verified db v bs now_ms expiry) (λ '(step, db'),
    ingested db db' (refused_step step) ∧ (is_Some (cd_entries db' !! va_entry_hash v) ∨ refused_step step)).
Proof.
  intros Hdb Hres. unfold store_verified.
  eapply returns_bind; [apply (insert_candidate_returns db bs pubkey v now_ms expiry); [apply Hdb|done]|].
  intros [o db1] (Hgrow & Hall & Hq & Hsame & Ho). destruct (entry_stored o) eqn:Hstored.
  2: { destruct o; [done|done|]. simpl in Ho. subst db1. apply returns_ret. split; [by apply ingested_refl|by right]. }
  destruct Ho as [Hrow Hmore].
  assert (∀ hash r, cd_pre_verify db1 !! hash = Some r → pv_claimed_account_id r ≠ ah_account_id (va_header v) ∨ introduces_device v = false →
    unresolved (cd_entries db1) r) as Hothers.
  { rewrite Hq. intros hash r Hr Hor pk [Hc|[Ha Hc]]%Hmore; [by eapply (so_awake _ Hdb)|].
    apply certified_key_introduces in Hc. destruct Hor; congruence. }
  assert (map_Forall parked_ok (cd_pre_verify db1)) as Hparked by (rewrite Hq; apply Hdb).
  assert (returns
    (run_bind (if introduces_device v then promote_pre_verify db1 (ah_account_id (va_header v)) now_ms expiry else run_ret (db1, no_promotions))
      (fun '(db, promotions) => run_ret (IngestRefold (ah_account_id (va_header v)) (va_entry_hash v) (introduces_device v) promotions, db)))
    (λ '(step, db'), ingested db db' (refused_step step) ∧ (is_Some (cd_entries db' !! va_entry_hash v) ∨ refused_step step))) as Hrest.
  { destruct (introduces_device v) eqn:Hintro.
    - eapply returns_bind; [apply promote_pre_verify_returns; [done|done|by eauto]|].
      intros [db2 out] (Hdb2 & Hgrow2 & Hleft). apply returns_ret. split.
      + constructor; [done|by etrans|]. intros hash r. rewrite <- Hq. by apply Hleft.
      + left. destruct Hrow as [row Hrow]. exists row. by eapply lookup_weaken.
    - simpl. apply returns_ret. split; [|by left]. constructor; [|done|rewrite Hq; by left].
      constructor; [done|done|]. intros hash r Hr. eapply Hothers; [done|by right]. }
  destruct o as [| |scope]; [exact Hrest| |done]. destruct (cd_status db1 !! va_entry_hash v); [|exact Hrest].
  rewrite (Hsame ltac:(done)) in *. apply returns_ret. split; [by apply ingested_refl|by left].
Qed.

(** *** Parking *)

Lemma insert_pre_verify_sound db signed bs now_ms :
  store_ok db → bs ∈ submitted → storable bs signed →
  (∀ pubkey, ¬ signer_key (cd_entries db) (sa_header signed) (sa_payload signed) pubkey) →
  let '(parked, db') :=
    insert_pre_verify db (sa_entry_hash signed) (ah_account_id (sa_header signed)) (ah_device_fingerprint (sa_header signed)) bs now_ms in
  let refused := refused_step (IngestDone (park_outcome parked)) in
  ingested db db' refused ∧ ((∃ r, cd_pre_verify db' !! sha256 bs = Some r) ∨ refused).
Proof.
  intros Hdb Hin Hst Hun. unfold insert_pre_verify. case_bool_decide as Hsome; [by split; [apply ingested_refl|left]|].
  apply eq_None_not_Some in Hsome. set (row := mkPreVerifyRow _ _ _ _ _). unfold enforce_pre_verify_budget.
  pose proof (enforce_budgets_sound
    [(Some (ah_account_id (sa_header signed)), PRE_VERIFY_PER_ACCOUNT_MAX, PreVerifyAccount); (None, PRE_VERIFY_GLOBAL_MAX, PreVerifyGlobal)]
    (sha256 bs) [] (<[sha256 bs := row]> (cd_pre_verify db))) as [Hsub Hkept].
  { by repeat constructor. }
  destruct (enforce_budgets _ _ _ _) as [parked queue]. simpl in *.
  assert (∀ hash r, <[sha256 bs := row]> (cd_pre_verify db) !! hash = Some r → parked_ok hash r ∧ unresolved (cd_entries db) r) as Hrow.
  { intros hash r [[<- <-]|[_ Hr]]%lookup_insert_Some; [|split; [by apply (so_queue _ Hdb)|by eapply (so_awake _ Hdb)]].
    split; [exists signed; split_and!; try done; intros pk Hpk; apply (Hun pk); by right|intros pk Hpk; apply (Hun pk); by left]. }
  assert (store_ok (set_pre_verify queue db)) as Hok.
  { constructor; simpl; [apply Hdb|..]; intros hash r Hr; eapply Hrow; by eapply lookup_weaken. }
  assert (parked = Parked [] ∨ refused_step (IngestDone (park_outcome parked))) as [->|Href] by (destruct parked as [[]|]; simpl; tauto).
  - destruct (Hkept eq_refl) as [_ ->]. split; [|left; exists row; by rewrite lookup_insert_eq].
    constructor; [done|done|]. intros hash r Hr. left. simpl. rewrite lookup_insert_ne; [done|]. intros <-. by rewrite Hsome in Hr.
  - split; [|by right]. constructor; [done|done|]. by right; right.
Qed.

(** *** Ingest *)

(** The envelope is stored, refuted or parked. *)
Definition kept (db : CandidateDb) (bs : bytes) : Prop :=
  accounted (cd_entries db) bs ∨ is_Some (cd_pre_verify db !! sha256 bs).

Definition ingest_keeps (db : CandidateDb) (bs : bytes) (r : IngestStep * CandidateDb) : Prop :=
  ingested db r.2 (refused_step r.1) ∧ ((∃ signed, storable bs signed) → kept r.2 bs ∨ refused_step r.1).

Lemma store_verified_keeps db bs pubkey v now_ms expiry :
  store_ok db → resolved (cd_entries db) bs pubkey v →
  returns (store_verified db v bs now_ms expiry) (ingest_keeps db bs).
Proof.
  intros Hdb Hres. eapply returns_mono; [by eapply store_verified_returns|]. intros [step db'] [Hi Hs]. split; [done|]. intros _.
  destruct Hs as [Hs|?]; [left; left|by right]. pose proof Hres as (_ & Hv & _).
  apply valid_under_storable in Hv as (signed & Hst & _ & _ & Hh & _). exists signed. split; [done|]. left. by rewrite <- Hh.
Qed.

(** The key an ingest resolves, from the keys of a store whose entries the writer holds. *)
Lemma optimistic_key seen db signed pubkey :
  cd_entries seen ⊆ cd_entries db →
  add_self_pubkey (stored_device_pubkeys seen (ah_account_id (sa_header signed))) (sa_header signed) (sa_payload signed)
    !! ah_device_fingerprint (sa_header signed) = Some pubkey →
  signer_key (cd_entries db) (sa_header signed) (sa_payload signed) pubkey.
Proof.
  intros Hsub [Hk|Hk]%add_self_lookup; [left|by right]. apply stored_keys_certified in Hk. by eapply certified_in_mono.
Qed.

Lemma unresolved_key db signed :
  all_authentic (cd_entries db) →
  add_self_pubkey (stored_device_pubkeys db (ah_account_id (sa_header signed))) (sa_header signed) (sa_payload signed)
    !! ah_device_fingerprint (sa_header signed) = None →
  ∀ pubkey, ¬ signer_key (cd_entries db) (sa_header signed) (sa_payload signed) pubkey.
Proof.
  intros Hall [Hnone Hself]%add_self_None pubkey [Hc|Hc]; [|by eapply Hself].
  apply (stored_keys_exact db _ Hall) in Hc. congruence.
Qed.

Lemma valid_resolved db bs signed pubkey v :
  bs ∈ submitted → storable bs signed → signer_key (cd_entries db) (sa_header signed) (sa_payload signed) pubkey →
  valid_under bs pubkey v → resolved (cd_entries db) bs pubkey v.
Proof.
  intros Hin Hst Hkey Hv. split_and!; [done|done|]. pose proof (valid_under_storable _ _ _ Hv) as (s & Hst' & -> & -> & _).
  by rewrite <- (storable_valid_unique _ _ _ Hst Hst').
Qed.

(** A signature the signer's key refutes accounts for the envelope, and nothing changes. *)
Lemma rejected_keeps db bs signed pubkey e e' :
  store_ok db → storable bs signed → signer_key (cd_entries db) (sa_header signed) (sa_payload signed) pubkey →
  authenticate_entry bs pubkey = Err e → ingest_keeps db bs (IngestDone (IngestRejected e'), db).
Proof.
  intros Hdb Hst Hkey He. split; [by apply ingested_refl|]. intros _. left. left. exists signed. split; [done|]. right. exists pubkey.
  split; [done|]. intros v Hv. apply (authenticate_entry_iff _ _ _ _ Hst) in Hv. congruence.
Qed.

Lemma ingest_decoded_returns db signed bs now_ms expiry :
  store_ok db → bs ∈ submitted → storable bs signed →
  returns (account_ingest_decoded_in_tx db signed bs now_ms expiry None) (ingest_keeps db bs).
Proof.
  intros Hdb Hin Hst. unfold account_ingest_decoded_in_tx.
  destruct (add_self_pubkey _ _ _ !! _) as [pubkey|] eqn:Hkey.
  - apply (optimistic_key db db) in Hkey; [|done]. destruct (authenticate_entry bs pubkey) as [v|e] eqn:Ha.
    + apply (authenticate_entry_iff _ _ _ _ Hst) in Ha. apply (store_verified_keeps _ _ pubkey); [done|]. by eapply valid_resolved.
    + apply returns_ret. by eapply rejected_keeps.
  - pose proof (insert_pre_verify_sound db signed bs now_ms Hdb Hin Hst (unresolved_key _ _ (so_entries _ Hdb) Hkey)) as Hpark.
    destruct (insert_pre_verify _ _ _ _ _ _) as [parked db']. destruct Hpark as [Hi Hk]. apply returns_ret. split; [done|]. intros _.
    destruct Hk as [[r Hr]|?]; [left; right; by exists r|by right].
Qed.

Lemma not_storable_keeps db bs e : store_ok db → (∀ signed, ¬ storable bs signed) → ingest_keeps db bs (IngestDone (IngestRejected e), db).
Proof. intros Hdb Hno. split; [by apply ingested_refl|]. intros [signed Hst]. by destruct (Hno signed). Qed.

Lemma account_ingest_in_tx_returns db bs now_ms expiry :
  store_ok db → bs ∈ submitted → returns (account_ingest_in_tx db bs now_ms expiry) (ingest_keeps db bs).
Proof.
  intros Hdb Hin. unfold account_ingest_in_tx.
  destruct (decode_account_signed bs) as [signed|e] eqn:Hd.
  2: { apply returns_ret, not_storable_keeps; [done|]. intros s [? _]. congruence. }
  destruct (validate_storable_header_payload _ _) as [[]|e] eqn:Hval.
  2: { apply returns_ret, not_storable_keeps; [done|]. intros s [Hd' ?]. rewrite Hd in Hd'. injection Hd' as <-. congruence. }
  by apply ingest_decoded_returns.
Qed.

Lemma account_ingest_returns seen db bs now_ms expiry :
  store_ok db → cd_entries seen ⊆ cd_entries db → bs ∈ submitted →
  returns (account_ingest seen db bs now_ms expiry) (ingest_keeps db bs).
Proof.
  intros Hdb Hseen Hin. unfold account_ingest.
  destruct (decode_account_signed bs) as [signed|e] eqn:Hd.
  2: { apply returns_ret, not_storable_keeps; [done|]. intros s [? _]. congruence. }
  destruct (validate_storable_header_payload _ _) as [[]|e] eqn:Hval.
  2: { apply returns_ret, not_storable_keeps; [done|]. intros s [Hd' ?]. rewrite Hd in Hd'. injection Hd' as <-. congruence. }
  assert (storable bs signed) as Hst by done.
  destruct (stored_status_for_exact_envelope _ _ _) as [status|] eqn:Hstatus.
  { apply returns_ret. split; [by apply ingested_refl|]. intros _. left. left. exists signed. split; [done|]. left.
    unfold stored_status_for_exact_envelope in Hstatus. apply bind_Some in Hstatus as (row & Hrow & _). exists row. by eapply lookup_weaken. }
  destruct (add_self_pubkey _ _ _ !! _) as [pubkey|] eqn:Hkey; [|by apply ingest_decoded_returns].
  apply (optimistic_key seen db) in Hkey; [|done]. destruct (authenticate_entry bs pubkey) as [v|e] eqn:Ha.
  - apply (authenticate_entry_iff _ _ _ _ Hst) in Ha. simpl. apply (store_verified_keeps _ _ pubkey); [done|]. by eapply valid_resolved.
  - apply returns_ret. by eapply rejected_keeps.
Qed.
End Submitted.
End IngestSafety.
