(* ===== verification/IngestConverge.v ===== *)
(** * Reachable stores ([account/storage.rs])

    What ingest guarantees of the store, of the projection the refold derives from it, and of two
    replicas that were sent the same envelopes. *)

From S2P Require Import Prelude Cbor Minicbor Hash Op Device Entry Stream Branch Envelope Candidate AccountOps FoldTypes Snapshot AuthStore SecretsOps ControlV2 Fold FoldTotal FoldSafety AccountProjection Annex FoldFacts Ingest IngestSafety.

Local Open Scope Z_scope.

Section Reachable.
Context `{MinicborLaws} `{Sha256} `{Ed25519}.

(** A step keeps the queue and the entries when it is the refold or an invite: those write derived
    tables and reservations. *)
Definition same_candidates (db db' : CandidateDb) : Prop :=
  cd_entries db' = cd_entries db ∧ cd_pre_verify db' = cd_pre_verify db.

(** The columns are checked to be non-negative. *)
Definition reservations_ok (db : CandidateDb) : Prop :=
  map_Forall (λ _ r, 0 ≤ rv_reserved_entries r ∧ 0 ≤ rv_reserved_bytes r) (cd_reservations db).

(** The stores some envelopes lead to.  What an ingest reads before its transaction is of an earlier
    store: its entries are among those of the store it writes. *)
Inductive reachable (submitted : list bytes) : CandidateDb → Prop :=
| reach_empty db : cd_entries db = ∅ → cd_pre_verify db = ∅ → reservations_ok db → reachable submitted db
| reach_ingest seen db bs now_ms expiry step db' :
    reachable submitted db → cd_entries seen ⊆ cd_entries db → bs ∈ submitted →
    account_ingest seen db bs now_ms expiry = Some (Ok (step, db')) → reachable submitted db'
| reach_ingest_in_tx db bs now_ms expiry step db' :
    reachable submitted db → bs ∈ submitted →
    account_ingest_in_tx db bs now_ms expiry = Some (Ok (step, db')) → reachable submitted db'
| reach_derived db db' : reachable submitted db → same_candidates db db' → reservations_ok db' → reachable submitted db'.

Lemma store_ok_same submitted db db' : store_ok submitted db → same_candidates db db' → store_ok submitted db'.
Proof. intros [He Hq Ha] [Ee Eq]. constructor; by rewrite ?Ee, ?Eq. Qed.

Lemma store_ok_empty submitted db : cd_entries db = ∅ → cd_pre_verify db = ∅ → store_ok submitted db.
Proof. intros He Hq. constructor; rewrite ?He, ?Hq; apply map_Forall_empty. Qed.

Lemma reachable_ok submitted db : collision_free submitted → reachable submitted db → store_ok submitted db.
Proof.
  intros Hfree. induction 1 as [|seen db bs now expiry step db' _ IH Hseen Hin Hrun|db bs now expiry step db' _ IH Hin Hrun|db db' _ IH Hsame].
  - by apply store_ok_empty.
  - destruct (account_ingest_returns submitted Hfree seen db bs now expiry IH Hseen Hin) as ([step' db''] & Heq & Hi & _).
    rewrite Hrun in Heq. injection Heq as <- <-. apply Hi.
  - destruct (account_ingest_in_tx_returns submitted Hfree db bs now expiry IH Hin) as ([step' db''] & Heq & Hi & _).
    rewrite Hrun in Heq. injection Heq as <- <-. apply Hi.
  - by eapply store_ok_same.
Qed.

(** ** The rows the refold loads *)

Definition entry_of (row : CandidateEntry) : option VerifiedAccountEntry :=
  match decode_account_signed (ce_signed_bytes row) with
  | Ok signed => Some (mkVerifiedAccountEntry (sa_header signed) (sa_payload signed) (sa_entry_hash signed))
  | Err _ => None
  end.

Definition columns_of (row : AccountEntryHash * CandidateEntry) : bytes * bytes * Z * bytes :=
  (row.1, ce_device_fingerprint row.2, ce_seq row.2, ce_signed_bytes row.2).

Lemma decoded_hash_length bs signed : decode_account_signed bs = Ok signed → length (sa_entry_hash signed) = 32%nat.
Proof.
  unfold decode_account_signed. case_bool_decide; [done|]. destruct (decode_account_signed_cbor bs) as [s|] eqn:Hs; simpl; [|done].
  intros [= <-]. apply decode_account_steps in Hs as [_ ->]. apply sha256_length.
Qed.

Lemma load_authentic submitted entries hash row :
  collision_free submitted → authentic submitted entries hash row →
  ∃ v, entry_of row = Some v ∧ va_entry_hash v = hash ∧ 0 ≤ ah_seq (va_header v) ∧
    load_candidate (columns_of (hash, row)) = Ok (evidence_row v).
Proof.
  intros Hfree (v & pubkey & _ & Hv & -> & Hrow & _). apply (valid_under_storable _ Hfree) in Hv as (signed & Hst & Hh & Hp & Hhash & _).
  pose proof (storable_header_wf submitted Hfree _ _ Hst) as Hwf. pose proof (storable_seq submitted Hfree _ _ Hst) as Hseq.
  pose proof Hst as [Hd _]. rewrite <- Hh in Hwf, Hseq.
  assert (v = mkVerifiedAccountEntry (sa_header signed) (sa_payload signed) (sa_entry_hash signed)) as -> by (destruct v; simpl in *; congruence).
  eexists. split; [by unfold entry_of; rewrite Hd|]. destruct Hwf as (_ & _ & Hdev & Hs & _). simpl in *. split_and!; [done|apply Hs|].
  assert (ce_device_fingerprint row = ah_device_fingerprint (sa_header signed) ∧ ce_seq row = ah_seq (sa_header signed)) as [Ed Es]
    by (rewrite Hrow; done).
  unfold columns_of, load_candidate. simpl. rewrite Hd, Ed, Es. simpl.
  rewrite (proj2 (id_fixed_Ok 32 _ _) (conj (decoded_hash_length _ _ Hd) eq_refl)), (proj2 (id_fixed_Ok 32 _ _) (conj Hdev eq_refl)).
  simpl. unfold evidence_row, i64_as_u64. simpl. rewrite Z.mod_small; [done|]. unfold sql_int_max in Hseq. lia.
Qed.

(** The signature of a stored entry, and the certified key it is checked with. *)
Lemma stored_signature submitted db hash row :
  collision_free submitted → all_authentic submitted (cd_entries db) → cd_entries db !! hash = Some row →
  ∃ signed pubkey, ce_signed_bytes row ∈ submitted ∧ decode_account_signed (ce_signed_bytes row) = Ok signed ∧
    sa_entry_hash signed = hash ∧ ah_account_id (sa_header signed) = ce_account_id row ∧
    verify_strict pubkey (sa_body_bytes signed) (sa_signature signed) = true ∧
    stored_device_pubkeys db (ce_account_id row) !! ah_device_fingerprint (sa_header signed) = Some pubkey ∧
    ah_device_fingerprint (sa_header signed) = sha256 pubkey.
Proof.
  intros Hfree Hall Hrow. destruct (Hall _ _ Hrow) as (v & pubkey & Hin & Hv & Hh & Heq & Hcert & _).
  pose proof (valid_under_storable submitted Hfree _ _ _ Hv) as (signed & [Hd _] & Eh & _ & Ehash & Hfp).
  assert (ce_account_id row = ah_account_id (va_header v)) as Ea by (rewrite Heq; done).
  exists signed, pubkey. rewrite <- Eh, Ea. split_and!; try done; [congruence| |by apply (stored_keys_exact submitted Hfree)].
  destruct Hv as (key & Hkey & Hver & _). apply verify_account_signed_steps in Hver as (s & Hs & Hlim & _ & Hsig & _).
  unfold decode_account_signed in Hd. case_bool_decide; [done|]. rewrite Hs in Hd. simpl in Hd. injection Hd as <-.
  unfold public_from_bytes in Hkey. by repeat (case_match; inv_ok).
Qed.

(** What a loaded row says of its entry. *)
Definition loads (row : AccountEntryHash * CandidateEntry) (v : VerifiedAccountEntry) : Prop :=
  entry_of row.2 = Some v ∧ va_entry_hash v = row.1 ∧ 0 ≤ ah_seq (va_header v).

Lemma load_account submitted db account :
  collision_free submitted → all_authentic submitted (cd_entries db) →
  ∃ vs, load_candidates (candidate_columns db account) = Ok (evidence_row <$> vs) ∧ Forall2 loads (account_rows db account) vs.
Proof.
  intros Hfree Hall. change (candidate_columns db account) with (columns_of <$> account_rows db account).
  assert (∀ row, row ∈ account_rows db account → cd_entries db !! row.1 = Some row.2) as Hin.
  { intros [hash row] Hrow. by apply elem_of_account_rows in Hrow as [? _]. }
  induction (account_rows db account) as [|[hash row] rows IH]; [by exists []|].
  destruct IH as (vs & Hload & Hvs); [intros; apply Hin; by right|].
  destruct (load_authentic submitted (cd_entries db) hash row Hfree) as (v & Hv & Hh & Hs & Hl); [apply Hall, (Hin (hash, row)); left|].
  exists (v :: vs). rewrite fmap_cons. cbn [load_candidates]. rewrite Hl, Hload. split; [done|]. by constructor.
Qed.

Lemma account_rows_NoDup db account : NoDup ((account_rows db account).*1).
Proof.
  unfold account_rows. rewrite (sort_by_key_perm fst _). apply (sublist_NoDup _ ((map_to_list (cd_entries db)).*1)); [apply NoDup_fst_map_to_list|].
  apply fmap_sublist, sublist_filter.
Qed.

Lemma loaded_hashes rows vs : Forall2 loads rows vs → va_entry_hash <$> vs = rows.*1.
Proof. induction 1 as [|row v rows vs (_ & Hh & _) _ IH]; [done|]. by rewrite !fmap_cons, Hh, IH. Qed.

Lemma loaded_stored db account vs : Forall2 loads (account_rows db account) vs → stored_rows (evidence_row <$> vs).
Proof.
  intros Hvs. split.
  - rewrite <- list_fmap_compose. change (NoDup (va_entry_hash <$> vs)). rewrite (loaded_hashes _ _ Hvs). apply account_rows_NoDup.
  - intros row (v & -> & Hv)%list_elem_of_fmap. split; [done|]. simpl.
    apply list_elem_of_lookup in Hv as [i Hi]. by destruct (Forall2_lookup_r _ _ _ _ _ Hvs Hi) as (row & _ & _ & _ & ?).
Qed.

(** A projection of the rows: total, and its accepted entries are effective. *)
Lemma project_rows rows :
  ∃ p, derive_account_projection rows = Some p ∧
    fold_account (cr_verified <$> unforked rows (ap_forked p)) = Some (ap_history p) ∧
    ∀ hash, hash ∈ ap_accepted p →
      ∃ row, row ∈ unforked rows (ap_forked p) ∧ cr_entry_hash row = hash ∧ effective_in (hi_outcomes (ap_history p)) hash = true.
Proof.
  destruct (derive_account_projection_settles rows) as (p & t & Hp & Hst). exists p. split; [done|]. split.
  - eapply fold_account_of_traced, Hst.
  - intros hash Hh. rewrite (st_accepted _ _ _ _ Hst) in Hh. apply elem_of_effective_hashes in Hh as (row & Hrow & <- & Hf & ?).
    exists row. split; [|done]. unfold unforked. by apply list_elem_of_filter.
Qed.

(** ** Replicas

    The stores that envelopes lead to when no budget refuses or evicts one. *)

Inductive replica : list bytes → CandidateDb → Prop :=
| replica_empty db : cd_entries db = ∅ → cd_pre_verify db = ∅ → replica [] db
| replica_ingest history seen db bs now_ms expiry step db' :
    replica history db → cd_entries seen ⊆ cd_entries db →
    account_ingest seen db bs now_ms expiry = Some (Ok (step, db')) → ¬ refused_step step → replica (bs :: history) db'
| replica_derived history db db' : replica history db → same_candidates db db' → replica history db'.

Lemma admissible_submitted submitted bs : admissible submitted bs → bs ∈ submitted.
Proof. by destruct 1. Qed.

Section Replica.
Context (submitted : list bytes) (Hfree : collision_free submitted).
Set Default Proof Using "All".

Lemma kept_step db db' bs refused :
  store_ok submitted db → ingested submitted db db' refused → ¬ refused → bs ∈ submitted → kept db bs → kept db' bs.
Proof.
  intros Hdb Hi Href Hin [Ha|[r Hr]]; [left; eapply (accounted_mono submitted Hfree); [apply Hi|done]|].
  destruct (so_queue _ _ Hdb _ _ Hr) as (signed & Hraw & Hhash & _).
  destruct (ig_left _ _ _ _ Hi _ _ Hr) as [?|[Ha|?]]; [right; by exists r|left|done].
  by rewrite (cf_envelope _ Hfree _ _ Hin Hraw Hhash).
Qed.

Lemma replica_keeps history db :
  replica history db → history ⊆ submitted →
  store_ok submitted db ∧ ∀ bs, bs ∈ history → (∃ signed, storable bs signed) → kept db bs.
Proof.
  induction 1 as [db He Hq|history seen db bs now expiry step db' _ IH Hseen Hrun Href|history db db' _ IH Hsame]; intros Hsub.
  - split; [by apply store_ok_empty|]. by intros bs ?%elem_of_nil.
  - destruct IH as [Hdb Hkept]; [set_solver|].
    destruct (account_ingest_returns submitted Hfree seen db bs now expiry Hdb Hseen) as ([step' db''] & Heq & Hi & Hk); [set_solver|].
    rewrite Hrun in Heq. injection Heq as <- <-. simpl in *. split; [apply Hi|].
    intros bs' [->|Hold]%elem_of_cons Hst; [by destruct (Hk Hst)|]. eapply kept_step; [done|done|done|set_solver|auto].
  - destruct (IH Hsub) as [Hdb Hkept]. split; [by eapply store_ok_same|]. destruct Hsame as [Ee Eq]. unfold kept. by rewrite Ee, Eq.
Qed.

(** The key of a signer is one key. *)
Lemma signer_key_source entries bs signed pubkey :
  all_authentic submitted entries → bs ∈ submitted → storable bs signed →
  signer_key entries (sa_header signed) (sa_payload signed) pubkey →
  ∃ bs' s', bs' ∈ submitted ∧ decode_account_signed bs' = Ok s' ∧
    certified_key (sa_header s') (sa_payload s') = Some (ah_device_fingerprint (sa_header signed), pubkey).
Proof.
  intros Hall Hin [Hd _] [(hash & row & Hrow & _ & (s & Hs & Hc))|Hc]; [|by exists bs, signed].
  destruct (Hall _ _ Hrow) as (v & pk & Hrin & _). by exists (ce_signed_bytes row), s.
Qed.

Lemma signer_key_unique entries bs signed pubkey pubkey' :
  all_authentic submitted entries → bs ∈ submitted → storable bs signed →
  signer_key entries (sa_header signed) (sa_payload signed) pubkey →
  signer_key entries (sa_header signed) (sa_payload signed) pubkey' → pubkey = pubkey'.
Proof.
  intros Hall Hin Hst (b & s & Hb & Hs & Hc)%(signer_key_source _ bs) (b' & s' & Hb' & Hs' & Hc')%(signer_key_source _ bs); try done.
  exact (cf_key _ Hfree _ _ _ _ _ _ _ Hb Hb' Hs Hs' Hc Hc').
Qed.

Lemma kept_stored db bs signed pubkey v :
  store_ok submitted db → bs ∈ submitted → storable bs signed → kept db bs →
  signer_key (cd_entries db) (sa_header signed) (sa_payload signed) pubkey → valid_under bs pubkey v →
  is_Some (cd_entries db !! sa_entry_hash signed).
Proof.
  intros Hdb Hin Hst [(signed' & Hst' & [Hs|(pk & Hpk & Hno)])|[r Hr]] Hkey Hv.
  - by rewrite (storable_valid_unique submitted Hfree _ _ _ Hst Hst').
  - rewrite <- (storable_valid_unique submitted Hfree _ _ _ Hst Hst') in Hpk.
    rewrite (signer_key_unique _ _ _ _ _ (so_entries _ _ Hdb) Hin Hst Hkey Hpk) in Hv. by destruct (Hno v).
  - destruct (so_queue _ _ Hdb _ _ Hr) as (signed' & Hraw & Hhash & Hst' & Hself & Heq).
    rewrite <- (cf_envelope _ Hfree _ _ Hin Hraw Hhash) in Hst'. rewrite <- (storable_valid_unique submitted Hfree _ _ _ Hst Hst') in *.
    destruct Hkey as [Hc|Hc]; [|by destruct (Hself pubkey)]. destruct (so_awake _ _ Hdb _ _ Hr pubkey). by rewrite Heq.
Qed.

Lemma admissible_stored db bs signed :
  store_ok submitted db → (∀ bs, bs ∈ submitted → (∃ signed, storable bs signed) → kept db bs) →
  admissible submitted bs → storable bs signed → is_Some (cd_entries db !! sa_entry_hash signed).
Proof.
  intros Hdb Hkept Hadm. revert signed.
  induction Hadm as [bs s pubkey v Hin Hs Hc Hv|bs s pubkey v bs' s' Hin Hs Hadm IH Hs' Ha Hc Hv]; intros signed Hst;
    rewrite <- (storable_valid_unique submitted Hfree _ _ _ Hs Hst).
  - eapply kept_stored; [done|done|done|by eauto|by right|done].
  - destruct (IH s' Hs') as [row Hrow]. eapply kept_stored; [done|done|done|by eauto|left|done].
    destruct (stored_signature submitted db _ _ Hfree (so_entries _ _ Hdb) Hrow) as (s1 & _ & Hin1 & Hd1 & Hh1 & Ha1 & _).
    destruct (cf_entry _ Hfree _ _ s1 s' Hin1 (admissible_submitted _ _ Hadm) Hd1 (proj1 Hs') Hh1) as [Eh Ep].
    exists (sa_entry_hash s'), row. split_and!; [done|by rewrite <- Ha1, Eh|]. exists s1. by rewrite Eh, Ep.
Qed.

Lemma stored_admissible db hash row :
  store_ok submitted db → cd_entries db !! hash = Some row →
  ∃ signed, admissible submitted (ce_signed_bytes row) ∧ storable (ce_signed_bytes row) signed ∧ sa_entry_hash signed = hash.
Proof.
  intros Hdb Hrow. destruct (so_entries _ _ Hdb _ _ Hrow) as (v & pk & _ & Hv & Hh & _ & _ & Hadm).
  apply (valid_under_storable submitted Hfree) in Hv as (signed & Hst & _ & _ & Hs & _). exists signed. by rewrite <- Hs.
Qed.
End Replica.

Lemma replica_stored submitted db hash :
  collision_free submitted → replica submitted db →
  is_Some (cd_entries db !! hash) ↔ ∃ bs signed, admissible submitted bs ∧ storable bs signed ∧ sa_entry_hash signed = hash.
Proof.
  intros Hfree Hrep. destruct (replica_keeps _ Hfree _ _ Hrep) as [Hdb Hkept]; [done|]. split.
  - intros [row Hrow]. destruct (stored_admissible _ Hfree _ _ _ Hdb Hrow) as (signed & ?). by exists (ce_signed_bytes row), signed.
  - intros (bs & signed & Hadm & Hst & <-). by eapply (admissible_stored submitted).
Qed.

Lemma admissible_mono submitted submitted' bs : submitted ⊆ submitted' → admissible submitted bs → admissible submitted' bs.
Proof.
  intros Hsub. induction 1; [eapply admissible_self|eapply admissible_certified]; try done; by apply Hsub.
Qed.

Lemma collision_free_mono submitted submitted' : submitted' ⊆ submitted → collision_free submitted → collision_free submitted'.
Proof.
  intros Hsub [He Hs Hk]. constructor.
  - intros. apply He; auto.
  - intros bs bs' s s' ? ?. apply Hs; auto.
  - intros bs bs' s s' device pubkey pubkey' ? ?. apply (Hk bs bs' s s'); auto.
Qed.

(** *** Two stores with the same envelopes *)

Section Same.
Context (submitted : list bytes) (Hfree : collision_free submitted).
Context (db db' : CandidateDb) (Hdb : all_authentic submitted (cd_entries db)) (Hdb' : all_authentic submitted (cd_entries db')).
Context (Hdom : ∀ hash, is_Some (cd_entries db !! hash) ↔ is_Some (cd_entries db' !! hash)).
Set Default Proof Using "All".

Lemma same_entry hash row row' :
  cd_entries db !! hash = Some row → cd_entries db' !! hash = Some row' →
  entry_of row = entry_of row' ∧ ce_account_id row = ce_account_id row'.
Proof.
  intros Hrow Hrow'.
  destruct (stored_signature _ _ _ _ Hfree Hdb Hrow) as (s & _ & Hin & Hd & Hh & <- & _).
  destruct (stored_signature _ _ _ _ Hfree Hdb' Hrow') as (s' & _ & Hin' & Hd' & Hh' & <- & _).
  destruct (cf_entry _ Hfree _ _ s s' Hin Hin' Hd Hd') as [Eh Ep]; [congruence|]. unfold entry_of. rewrite Hd, Hd', Eh, Ep. split; congruence.
Qed.

Lemma same_hashes account : (account_rows db account).*1 = (account_rows db' account).*1.
Proof.
  assert (∀ d, StronglySorted cle ((account_rows d account).*1)) as Hsorted.
  { intros d. apply (proj1 (sorted_by_key_fmap cle fst _)), (sort_by_key_sorted fst). }
  apply (StronglySorted_unique cle); [done|done|]. apply NoDup_Permutation; [apply account_rows_NoDup|apply account_rows_NoDup|].
  intros hash. rewrite !list_elem_of_fmap. split; intros ([h row] & -> & [Hrow Ha]%elem_of_account_rows); simpl.
  - destruct (proj1 (Hdom h)) as [row' Hrow']; [by eexists|]. exists (h, row'). split; [done|]. apply elem_of_account_rows.
    split; [done|]. by destruct (same_entry _ _ _ Hrow Hrow') as [_ <-].
  - destruct (proj2 (Hdom h)) as [row' Hrow']; [by eexists|]. exists (h, row'). split; [done|]. apply elem_of_account_rows.
    split; [done|]. by destruct (same_entry _ _ _ Hrow' Hrow) as [_ ->].
Qed.

Lemma loaded_row d account vs v :
  Forall2 loads (account_rows d account) vs → v ∈ vs →
  ∃ row, cd_entries d !! va_entry_hash v = Some row ∧ entry_of row = Some v.
Proof.
  intros Hvs [i Hi]%list_elem_of_lookup. destruct (Forall2_lookup_r _ _ _ _ _ Hvs Hi) as ([h row] & Hrow & He & Hh & _). simpl in *.
  apply list_elem_of_lookup_2, elem_of_account_rows in Hrow as [Hrow _]. exists row. by rewrite Hh.
Qed.

Lemma same_loaded account vs vs' :
  Forall2 loads (account_rows db account) vs → Forall2 loads (account_rows db' account) vs' → vs = vs'.
Proof.
  intros Hvs Hvs'. apply (fmap_inj_on va_entry_hash); [|by rewrite (loaded_hashes _ _ Hvs), (loaded_hashes _ _ Hvs'), same_hashes].
  intros v v' Hv Hv' Hh. destruct (loaded_row _ _ _ _ Hvs Hv) as (row & Hrow & He), (loaded_row _ _ _ _ Hvs' Hv') as (row' & Hrow' & He').
  rewrite <- Hh in Hrow'. destruct (same_entry _ _ _ Hrow Hrow') as [Heq _]. congruence.
Qed.
End Same.

(** ** Properties *)

(** C14.  Ingest never fails and never forgets: on every store envelopes lead to, whatever was read
    before the transaction, the ingest of an envelope returns (its one panic and its loop included),
    keeps every stored entry, and unless a budget refuses or evicts, a storable envelope is then
    stored, refuted by the key of its signer, or parked, and so is what was parked before. *)
Theorem ingest_returns (submitted : list bytes) (seen db : CandidateDb) (bs : bytes) (now_ms expiry : Z) :
  collision_free submitted → reachable submitted db → cd_entries seen ⊆ cd_entries db → bs ∈ submitted →
  ∃ step db', account_ingest seen db bs now_ms expiry = Some (Ok (step, db')) ∧
    cd_entries db ⊆ cd_entries db' ∧
    (¬ refused_step step →
       (∀ signed, storable bs signed → accounted (cd_entries db') bs ∨ is_Some (cd_pre_verify db' !! sha256 bs)) ∧
       ∀ hash r, cd_pre_verify db !! hash = Some r →
         cd_pre_verify db' !! hash = Some r ∨ accounted (cd_entries db') (pv_raw_bytes r)).
Proof.
  intros Hfree Hreach Hseen Hin.
  destruct (account_ingest_returns submitted Hfree seen db bs now_ms expiry (reachable_ok _ _ Hfree Hreach) Hseen Hin)
    as ([step db'] & Hrun & Hi & Hk). exists step, db'. split; [done|]. split; [apply Hi|]. intros Href. split.
  - intros signed Hst. destruct Hk as [Hk|?]; [by eexists|exact Hk|done].
  - intros hash r Hr. destruct (ig_left _ _ _ _ Hi _ _ Hr) as [?|[?|?]]; [by left|by right|done].
Qed.

(** C12.  What a replica stores is determined by the set of the envelopes it was sent: while no
    budget refuses or evicts, its entries are exactly those of the admissible envelopes, the ones
    whose signer's key a chain of valid certificates among the envelopes resolves, whatever the order
    they arrived in.  None waits in the queue for a signer that has come to be known. *)
Theorem replica_stores_admissible (submitted : list bytes) (db : CandidateDb) :
  collision_free submitted → replica submitted db →
  (∀ hash, is_Some (cd_entries db !! hash) ↔
     ∃ bs signed, admissible submitted bs ∧ storable bs signed ∧ sa_entry_hash signed = hash) ∧
  ∀ signed_hash r, cd_pre_verify db !! signed_hash = Some r →
    ¬ admissible submitted (pv_raw_bytes r) ∧ stored_device_pubkeys db (pv_claimed_account_id r) !! pv_claimed_fingerprint r = None.
Proof.
  intros Hfree Hrep. split; [intros hash; by apply replica_stored|]. intros signed_hash r Hr.
  destruct (replica_keeps _ Hfree _ _ Hrep) as [Hdb Hkept]; [done|].
  assert (stored_device_pubkeys db (pv_claimed_account_id r) !! pv_claimed_fingerprint r = None) as Hnone.
  { apply eq_None_not_Some. intros [pk Hpk]. apply (so_awake _ _ Hdb _ _ Hr pk). by apply stored_keys_certified. }
  split; [|done]. intros Hadm. destruct (so_queue _ _ Hdb _ _ Hr) as (signed & Hin & _ & Hst & Hself & Heq).
  destruct (admissible_stored _ Hfree _ _ signed Hdb Hkept Hadm Hst) as [row Hrow].
  destruct (stored_signature _ _ _ _ Hfree (so_entries _ _ Hdb) Hrow) as (s & pk & Hins & Hd & Hh & Ha & _ & Hkey & _).
  destruct (cf_entry _ Hfree _ _ s signed Hins Hin Hd (proj1 Hst) Hh) as [Eh _].
  rewrite Heq in Hnone. simpl in Hnone. rewrite <- Ha, Eh in Hkey. discriminate (eq_trans (eq_sym Hnone) Hkey).
Qed.

(** C5.  Convergence of replicas: two stores that were sent the same envelopes, in any order, at any
    times and with any repetitions, with refolds in between and no refusal, hold the same entries,
    load the same rows for every account, and so derive the same projection. *)
Theorem replicas_converge (history history' : list bytes) (db db' : CandidateDb) :
  collision_free history → (∀ bs, bs ∈ history ↔ bs ∈ history') → replica history db → replica history' db' →
  dom (cd_entries db) = dom (cd_entries db') ∧
  ∀ account, ∃ rows p,
    load_candidates (candidate_columns db account) = Ok rows ∧ load_candidates (candidate_columns db' account) = Ok rows ∧
    derive_account_projection rows = Some p.
Proof.
  intros Hfree Heq Hrep Hrep'. assert (collision_free history') as Hfree' by (eapply collision_free_mono; [|exact Hfree]; intros ?; apply Heq).
  destruct (replica_keeps _ Hfree _ _ Hrep) as [Hdb _]; [done|].
  destruct (replica_keeps _ Hfree _ _ Hrep') as [Hdb' _]; [intros ?; apply Heq|].
  assert (∀ hash, is_Some (cd_entries db !! hash) ↔ is_Some (cd_entries db' !! hash)) as Hdom.
  { intros hash. rewrite (replica_stored _ _ _ Hfree Hrep), (replica_stored _ _ _ Hfree' Hrep').
    split; intros (bs & signed & Hadm & ?); exists bs, signed; (split; [|done]); (eapply admissible_mono; [|done]); intros ?; apply Heq. }
  split; [apply set_eq; intros hash; rewrite !elem_of_dom; apply Hdom|]. intros account.
  destruct (load_account _ db account Hfree (so_entries _ _ Hdb)) as (vs & Hload & Hvs).
  destruct (load_account _ db' account Hfree (so_entries _ _ Hdb')) as (vs' & Hload' & Hvs').
  rewrite <- (same_loaded _ Hfree _ _ (so_entries _ _ Hdb) (so_entries _ _ Hdb') Hdom _ _ _ Hvs Hvs') in Hload'.
  destruct (project_rows (evidence_row <$> vs)) as (p & Hp & _). by exists (evidence_row <$> vs), p.
Qed.

(** C4.  Authority from the wire: whatever envelopes a store was sent, in whatever order, the rows
    of an account load and project, and every accepted entry is a stored entry of that account whose
    envelope carries a signature of the entry that verifies under the key its account certifies for
    the device the header names; and it has a chain of effective citations down to a genesis. *)
Theorem ingested_authority (submitted : list bytes) (db : CandidateDb) (account : AccountId) :
  collision_free submitted → reachable submitted db →
  ∃ rows p, load_candidates (candidate_columns db account) = Ok rows ∧ derive_account_projection rows = Some p ∧
    ∀ hash, hash ∈ ap_accepted p →
      ∃ row signed pubkey root c e,
        cd_entries db !! hash = Some row ∧ ce_account_id row = account ∧ ce_signed_bytes row ∈ submitted ∧
        decode_account_signed (ce_signed_bytes row) = Ok signed ∧ sa_entry_hash signed = hash ∧
        ah_account_id (sa_header signed) = account ∧
        verify_strict pubkey (sa_body_bytes signed) (sa_signature signed) = true ∧
        stored_device_pubkeys db account !! ah_device_fingerprint (sa_header signed) = Some pubkey ∧
        ah_device_fingerprint (sa_header signed) = sha256 pubkey ∧
        hi_genesis_hash (ap_history p) = Some root ∧ fc_hash c = hash ∧ fc_header c = sa_header signed ∧
        authority_chain (cl_candidates (collect (cr_verified <$> unforked rows (ap_forked p)))) (hi_outcomes (ap_history p)) root c e.
Proof.
  intros Hfree Hreach. pose proof (reachable_ok _ _ Hfree Hreach) as Hdb.
  destruct (load_account submitted db account Hfree (so_entries _ _ Hdb)) as (vs & Hload & Hvs).
  destruct (project_rows (evidence_row <$> vs)) as (p & Hp & Hfold & Hacc).
  exists (evidence_row <$> vs), p. split; [done|]. split; [done|]. intros hash Hh.
  destruct (Hacc hash Hh) as (r & Hr & Hrh & He). pose proof (loaded_stored _ _ _ Hvs) as Hstored.
  destruct (stored_unforked _ (ap_forked p) Hstored) as [Hseq Hunique].
  apply effective_lookup in He as [e He].
  destruct (effective_entry_chain _ _ hash e Hseq Hfold He) as (root & c & Hroot & Hc & Hchain).
  pose proof Hr as Hr'. unfold unforked in Hr'. apply list_elem_of_filter in Hr' as [_ (v & -> & Hv)%list_elem_of_fmap].
  simpl in Hrh. apply list_elem_of_lookup in Hv as [i Hi].
  destruct (Forall2_lookup_r _ _ _ _ _ Hvs Hi) as ([h' row] & Hrow & Hent & Heq & _). simpl in *.
  apply list_elem_of_lookup_2, elem_of_account_rows in Hrow as [Hrow Haccount].
  assert (h' = hash) as -> by congruence.
  destruct (stored_signature _ _ _ _ Hfree (so_entries _ _ Hdb) Hrow) as (signed & pubkey & Hin & Hd & Hsh & Hacc2 & Hver & Hcert & Hfp).
  exists row, signed, pubkey, root, c, e. rewrite Haccount in *. split_and!; try done.
  assert (c ∈ cl_candidates (collect (cr_verified <$> unforked (evidence_row <$> vs) (ap_forked p)))) as Hcand by (by destruct Hchain).
  apply (col_candidate _ _ (collect_collected _)) in Hcand as (Hcand & _).
  assert (fc_entry c = v) as Hcv.
  { apply Hunique; [done| |by rewrite <- Hrh in Hc]. apply list_elem_of_fmap. by exists (evidence_row v). }
  unfold fc_header. rewrite Hcv. unfold entry_of in Hent. rewrite Hd in Hent. by injection Hent as <-.
Qed.
End Reachable.

(** ** Witnesses

    The founder of an account enrolls a second owner, who removes the founder's device.  The
    envelopes arrive last first: two park, and the genesis promotes them. *)

Section Checked.
Context `{MinicborLaws} `{Sha256} `{Ed25519}.

Definition keys_agree (s s' : SignedAccountEntry) : bool :=
  match certified_key (sa_header s) (sa_payload s), certified_key (sa_header s') (sa_payload s') with
  | Some (device, pubkey), Some (device', pubkey') => bool_decide (device ≠ device') || bool_decide (pubkey = pubkey')
  | _, _ => true
  end.

Lemma collision_free_check (entries : list SignedAccountEntry) :
  Forall (λ s, decode_account_signed (sa_signed_bytes s) = Ok s) entries →
  NoDup ((sha256 ∘ sa_signed_bytes) <$> entries) → NoDup (sa_entry_hash <$> entries) →
  forallb (λ s, forallb (keys_agree s) entries) entries = true → collision_free (sa_signed_bytes <$> entries).
Proof.
  rewrite Forall_forall. intros Hd Hsha Hhash Hkeys.
  assert (∀ bs s, bs ∈ sa_signed_bytes <$> entries → decode_account_signed bs = Ok s → s ∈ entries) as Hin.
  { intros bs s (s' & -> & Hs')%list_elem_of_fmap Hs. rewrite (Hd s' Hs') in Hs. by injection Hs as <-. }
  constructor.
  - intros bs bs' (s & -> & Hs)%list_elem_of_fmap (s' & -> & Hs')%list_elem_of_fmap Heq.
    by rewrite (NoDup_fmap_inj (sha256 ∘ sa_signed_bytes) entries s s').
  - intros bs bs' s s' Hb Hb' Hs Hs' Heq. by rewrite (NoDup_fmap_inj sa_entry_hash entries s s' Hhash); eauto.
  - intros bs bs' s s' device pubkey pubkey' Hb Hb' Hs Hs' Hc Hc'.
    apply (Hin _ _ Hb), list_elem_of_In in Hs. apply (Hin _ _ Hb'), list_elem_of_In in Hs'.
    rewrite forallb_forall in Hkeys. specialize (Hkeys s Hs). rewrite forallb_forall in Hkeys. specialize (Hkeys s' Hs').
    unfold keys_agree in Hkeys. rewrite Hc, Hc', bool_decide_false in Hkeys by (intros Hne; by apply Hne). simpl in Hkeys.
    by apply bool_decide_eq_true in Hkeys.
Qed.
End Checked.

Definition wit_owner : DeviceSecret := secret_from_seed (replicate 32 x07).
Definition wit_peer : DeviceSecret := secret_from_seed (replicate 32 x08).
Definition wit_ops (op : AccountOp) : bytes := match ops_encode op with Ok payload => payload | Err _ => [] end.
Definition wit_founding : bytes := wit_ops (AccountGenesis (dp_bytes (secret_public wit_owner)) wit_x (replicate 16 x05) 1234 None).
Definition wit_sign (secret : DeviceSecret) (seq : Z) (prev cited : option bytes) (auth_len entry_type : Z) (payload : bytes) : SignedAccountEntry :=
  match sign_account_entry secret
    (mkAccountEntryHeader (account_id_from_genesis_payload wit_founding) CONTROL_LOG [] seq prev None entry_type 1 0 auth_len None cited) payload with
  | Ok s => s
  | Err _ => mkSignedAccountEntry wit_header [] [] [] [] [] []
  end.
Definition wit_genesis : SignedAccountEntry := wit_sign wit_owner 0 None None 0 ACCOUNT_GENESIS wit_founding.
Definition wit_enroll : SignedAccountEntry :=
  let root := sa_entry_hash wit_genesis in
  wit_sign wit_owner 1 (Some root) (Some root) 1 DEVICE_ADD
    (wit_ops (DeviceAdd (fingerprint (secret_public wit_peer)) (dp_bytes (secret_public wit_peer)) wit_x Owner None)).
Definition wit_remove : SignedAccountEntry :=
  wit_sign wit_peer 0 None (Some (sa_entry_hash wit_enroll)) 2 DEVICE_REMOVE
    (wit_ops (DeviceRemove (fingerprint (secret_public wit_owner)) (CutAt 1 (sa_entry_hash wit_enroll)) CutEmpty [] (lit "lost"))).

Definition wit_arrivals : list SignedAccountEntry := [wit_genesis; wit_enroll; wit_remove].
Definition wit_submitted : list bytes := sa_signed_bytes <$> wit_arrivals.

Lemma wit_submitted_free : collision_free wit_submitted.
Proof.
  apply collision_free_check.
  - repeat (apply Forall_cons_2; [by vm_compute|]). by apply Forall_nil_2.
  - apply (bool_decide_unpack _). by vm_compute.
  - apply (bool_decide_unpack _). by vm_compute.
  - by vm_compute.
Qed.

Definition wit_empty : CandidateDb := mkCandidateDb ∅ ∅ ∅ ∅.
Definition wit_ingest (db : CandidateDb) (bs : bytes) : CandidateDb :=
  match account_ingest db db bs 10 0 with Some (Ok (_, db')) => db' | _ => db end.

(** The run of a witness returns without a refusal. *)
Definition wit_admitted (db : CandidateDb) (bs : bytes) : bool :=
  match account_ingest db db bs 10 0 with
  | Some (Ok (IngestDone IngestPreVerify, _)) => true
  | Some (Ok (IngestRefold _ _ _ promotions, _)) => bool_decide (po_scope promotions = None)
  | _ => false
  end.

Lemma wit_admitted_run db bs :
  wit_admitted db bs = true → ∃ step, account_ingest db db bs 10 0 = Some (Ok (step, wit_ingest db bs)) ∧ ¬ refused_step step.
Proof.
  unfold wit_admitted, wit_ingest. destruct (account_ingest db db bs 10 0) as [[[step db']|e]|]; [|done..]. intros Hstep.
  exists step. split; [done|]. destruct step as [[]|]; simpl in *; try done; [by intros []|].
  apply bool_decide_eq_true in Hstep. rewrite Hstep. by intros [? ?].
Qed.

Lemma replica_admitted history db bs : wit_admitted db bs = true → replica history db → replica (bs :: history) (wit_ingest db bs).
Proof. intros (step & Hrun & Href)%wit_admitted_run Hrep. by eapply replica_ingest. Qed.

Lemma reachable_admitted submitted db bs :
  bs ∈ submitted → wit_admitted db bs = true → reachable submitted db → reachable submitted (wit_ingest db bs).
Proof. intros Hin (step & Hrun & _)%wit_admitted_run Hreach. by eapply reach_ingest. Qed.

(** The last first, and the first first. *)
Definition wit_store : CandidateDb :=
  wit_ingest (wit_ingest (wit_ingest wit_empty (sa_signed_bytes wit_remove)) (sa_signed_bytes wit_enroll)) (sa_signed_bytes wit_genesis).
Definition wit_store_ordered : CandidateDb :=
  wit_ingest (wit_ingest (wit_ingest wit_empty (sa_signed_bytes wit_genesis)) (sa_signed_bytes wit_enroll)) (sa_signed_bytes wit_remove).

Lemma wit_store_reachable : reachable wit_submitted wit_store.
Proof.
  repeat (apply reachable_admitted; [apply (bool_decide_unpack _); by vm_compute|by vm_compute|]).
  apply reach_empty; [done|done|]. apply map_Forall_empty.
Qed.

Lemma wit_store_replica : replica wit_submitted wit_store.
Proof. do 3 (apply replica_admitted; [by vm_compute|]). by apply replica_empty. Qed.

Lemma wit_store_ordered_replica : replica (reverse wit_submitted) wit_store_ordered.
Proof. do 3 (apply replica_admitted; [by vm_compute|]). by apply replica_empty. Qed.

(** The queue has drained, and the removal is accepted. *)
Definition wit_projected : bool :=
  bool_decide (cd_pre_verify wit_store = ∅) &&
  match load_candidates (candidate_columns wit_store (account_id_from_genesis_payload wit_founding)) with
  | Ok rows => match derive_account_projection rows with
               | Some p => bool_decide (sa_entry_hash wit_remove ∈ ap_accepted p)
               | None => false
               end
  | Err _ => false
  end.
Lemma wit_projected_true : wit_projected = true.
Proof. by vm_compute. Qed.

Lemma ingested_authority_witness :
  wit_projected = true ∧
  ∃ rows p, load_candidates (candidate_columns wit_store (account_id_from_genesis_payload wit_founding)) = Ok rows ∧
    derive_account_projection rows = Some p.
Proof.
  split; [exact wit_projected_true|].
  destruct (ingested_authority wit_submitted wit_store (account_id_from_genesis_payload wit_founding) wit_submitted_free wit_store_reachable)
    as (rows & p & Hload & Hp & _). exact (ex_intro _ rows (ex_intro _ p (conj Hload Hp))).
Defined.

Lemma replica_stores_admissible_witness :
  ∃ bs signed, admissible wit_submitted bs ∧ storable bs signed ∧ sa_entry_hash signed = sa_entry_hash wit_remove.
Proof.
  destruct (replica_stores_admissible wit_submitted wit_store wit_submitted_free wit_store_replica) as [Hstored _].
  apply (proj1 (Hstored (sa_entry_hash wit_remove))). apply (bool_decide_unpack _). vm_compute. reflexivity.
Defined.

Lemma replicas_converge_witness : dom (cd_entries wit_store) = dom (cd_entries wit_store_ordered).
Proof.
  apply (replicas_converge wit_submitted (reverse wit_submitted) wit_store wit_store_ordered wit_submitted_free).
  - intros bs. symmetry. apply elem_of_reverse.
  - exact wit_store_replica.
  - exact wit_store_ordered_replica.
Defined.

Lemma ingest_returns_witness :
  ∃ step db', account_ingest wit_empty wit_store (sa_signed_bytes wit_enroll) 20 0 = Some (Ok (step, db')) ∧
    cd_entries wit_store ⊆ cd_entries db'.
Proof.
  destruct (ingest_returns wit_submitted wit_empty wit_store (sa_signed_bytes wit_enroll) 20 0 wit_submitted_free wit_store_reachable)
    as (step & db' & Hrun & Hgrow & _); [apply map_empty_subseteq|apply (bool_decide_unpack _); vm_compute; reflexivity|].
  exact (ex_intro _ step (ex_intro _ db' (conj Hrun Hgrow))).
Defined.
