(* ===== verification/IngestBudget.v ===== *)
(** * The admission budgets ([account/storage.rs], [account/pre_verify.rs])

    No sequence of envelopes takes a store over its budgets, and ordinary traffic never takes the
    room that is kept for revocation. *)

From S2P Require Import Prelude Cbor Minicbor Hash Op Device Entry Stream Branch Envelope Candidate AccountOps FoldTypes Snapshot AuthStore SecretsOps ControlV2 Fold AccountProjection Annex FoldFacts Ingest IngestSafety IngestConverge.

Local Open Scope Z_scope.

(** ** Weights of rows *)

Definition weight {A} (w : A → Z) (l : list A) : Z := foldr (fun a n => w a + n) 0 l.

Section Weight.
Context {A : Type} (w : A → Z) (Hw : ∀ a, 0 ≤ w a).

Lemma weight_app l k : weight w (l ++ k) = weight w l + weight w k.
Proof using Type. unfold weight. induction l as [|a l IH]; simpl; lia. Qed.

Lemma weight_perm l k : l ≡ₚ k → weight w l = weight w k.
Proof using Type. unfold weight. induction 1; simpl; lia. Qed.

#[export] Instance weight_proper : Proper (Permutation ==> eq) (weight w).
Proof using Type. intros l k. apply weight_perm. Qed.

Lemma weight_nonneg l : 0 ≤ weight w l.
Proof using Hw. unfold weight. induction l as [|a l IH]; simpl; [lia|]. specialize (Hw a). lia. Qed.

Lemma weight_filter_split (P : A → Prop) `{!∀ x, Decision (P x)} l : weight w l = weight w (filter P l) + weight w (filter (λ x, ¬ P x) l).
Proof using Type.
  induction l as [|a l IH]; [done|]. rewrite !filter_cons. destruct (decide (P a)).
  - rewrite decide_False by tauto. unfold weight in *. simpl. lia.
  - rewrite decide_True by tauto. unfold weight in *. simpl. lia.
Qed.

(** The weight of elements whose keys are few, when the elements of one key weigh little. *)
Lemma weight_by_key {K} `{EqDecision K} (key : A → K) (keys : list K) (bound : Z) l :
  (∀ x, x ∈ l → key x ∈ keys) → (∀ k, weight w (filter (λ x, key x = k) l) ≤ bound) → weight w l ≤ bound * len keys.
Proof using Hw.
  revert l. induction keys as [|k keys IH]; intros l Hkeys Hbound.
  - destruct l as [|x l]; [unfold len; simpl; lia|]. specialize (Hkeys x). set_solver.
  - rewrite (weight_filter_split (λ x, key x = k)), len_cons. pose proof (Hbound k).
    assert (weight w (filter (λ x, ¬ key x = k) l) ≤ bound * len keys); [|lia]. apply IH.
    + intros x [Hne Hx]%list_elem_of_filter. apply Hkeys in Hx. set_solver.
    + intros k'. etrans; [|apply (Hbound k')].
      rewrite list_filter_filter. rewrite (weight_filter_split (λ x, ¬ key x = k) (filter (λ x, key x = k') l)), list_filter_filter.
      pose proof (weight_nonneg (filter (λ x, ¬ ¬ key x = k) (filter (λ x, key x = k') l))).
      rewrite (list_filter_iff _ (λ x, ¬ key x = k ∧ key x = k')); [lia|]. intros. tauto.
Qed.
End Weight.

Lemma rows_bytes_weight rows : rows_bytes rows = weight (λ row, len (ce_signed_bytes row)) rows.
Proof. done. Qed.
Lemma len_weight {A} (l : list A) : len l = weight (λ _, 1) l.
Proof. unfold len, weight. induction l as [|a l IH]; [done|]. simpl in *. lia. Qed.

(** ** The revocation floor

    Rows within the ordinary cap, and beyond it rows of revocations, no signer's over its share. *)

Section Floor.
Context (w : CandidateEntry → Z) (Hw : ∀ row, 0 ≤ w row) (ordinary share : Z).

Definition signer_rows (device : DeviceFingerprint) (rows : list CandidateEntry) : list CandidateEntry :=
  filter (λ row, ce_device_fingerprint row = device) rows.

Definition floor_split (rows : list CandidateEntry) : Prop :=
  ∃ excess within, rows ≡ₚ excess ++ within ∧ weight w within ≤ ordinary ∧
    Forall (λ row, is_revocation_row (ce_device_fingerprint row) row) excess ∧
    ∀ device, weight w (signer_rows device excess) ≤ share.

Lemma floor_split_ordinary rows : 0 ≤ share → weight w rows ≤ ordinary → floor_split rows.
Proof using Type. intros Hshare Hrows. by exists [], rows. Qed.

(** The rows over the cap are revocations, so a signer's are among its revocations. *)
Lemma signer_excess device excess within :
  Forall (λ row, is_revocation_row (ce_device_fingerprint row) row) excess →
  weight w (signer_rows device excess) ≤ weight w (filter (is_revocation_row device) (excess ++ within)).
Proof using Hw.
  intros Hexcess. rewrite filter_app, weight_app. pose proof (weight_nonneg w Hw (filter (is_revocation_row device) within)).
  assert (signer_rows device excess = filter (is_revocation_row device) excess) as ->; [|lia].
  unfold signer_rows. induction Hexcess as [|row excess Hrow _ IH]; [done|]. rewrite !filter_cons, IH.
  destruct (decide (ce_device_fingerprint row = device)) as [<-|Hne]; [by rewrite decide_True|].
  rewrite decide_False; [done|]. by intros [? _].
Qed.

Lemma floor_split_revocation row rows :
  floor_split rows → is_revocation_row (ce_device_fingerprint row) row →
  weight w (filter (is_revocation_row (ce_device_fingerprint row)) rows) + w row ≤ share → floor_split (row :: rows).
Proof using Hw.
  intros (excess & within & Hperm & Hord & Hrev & Hshare) Hrow Hunder. exists (row :: excess), within. split_and!.
  - by rewrite Hperm.
  - done.
  - by constructor.
  - intros device. unfold signer_rows. rewrite filter_cons. destruct (decide _) as [<-|Hne]; [|apply Hshare].
    pose proof (signer_excess (ce_device_fingerprint row) excess within Hrev) as Hle. rewrite <- Hperm in Hle.
    unfold signer_rows, weight in *. simpl. lia.
Qed.

(** With few other signers over the cap, a signer is limited by its own revocations only. *)
Lemma floor_room rows device others :
  floor_split rows →
  (∀ row, row ∈ rows → is_revocation_row (ce_device_fingerprint row) row →
     ce_device_fingerprint row = device ∨ ce_device_fingerprint row ∈ others) →
  weight w rows ≤ ordinary + weight w (filter (is_revocation_row device) rows) + share * len others.
Proof using Hw.
  intros (excess & within & Hperm & Hord & Hrev & Hshare) Hothers.
  pose proof (signer_excess device excess within Hrev) as Hown.
  rewrite <- Hperm in Hown. rewrite Hperm, weight_app in *.
  rewrite (weight_filter_split w (λ row, ce_device_fingerprint row = device) excess).
  assert (weight w (filter (λ row, ¬ ce_device_fingerprint row = device) excess) ≤ share * len others).
  { apply (weight_by_key w Hw ce_device_fingerprint).
    - intros row [Hne Hin]%list_elem_of_filter. rewrite Forall_forall in Hrev.
      destruct (Hothers row) as [?|?]; [rewrite Hperm; set_solver|by apply Hrev|done|done].
    - intros k. etrans; [|apply (Hshare k)]. unfold signer_rows.
      rewrite (weight_filter_split w (λ row, ¬ ce_device_fingerprint row = device) (filter (λ row, ce_device_fingerprint row = k) excess)).
      pose proof (weight_nonneg w Hw (filter (λ row, ¬ ¬ ce_device_fingerprint row = device) (filter (λ row, ce_device_fingerprint row = k) excess))).
      rewrite !list_filter_filter in *. rewrite (list_filter_iff _ (λ row, ¬ ce_device_fingerprint row = device ∧ ce_device_fingerprint row = k)); [lia|].
      intros. tauto. }
  unfold signer_rows in *. lia.
Qed.
End Floor.

(** ** What an admission adds *)

Section Admission.
Context `{MinicborLaws} `{Sha256} `{Ed25519}.

(** The rows of the store, of one account or of all. *)
Definition rows_of (db : CandidateDb) (account : AccountId) : list CandidateEntry := (account_rows db account).*2.
Definition all_rows (db : CandidateDb) : list CandidateEntry := (map_to_list (cd_entries db)).*2.

(** An entry is admitted: it is new, and within every budget. *)
Definition admits (v : VerifiedAccountEntry) (bs : bytes) (now_ms expiry : Z) (db db' : CandidateDb) : Prop :=
  cd_entries db !! va_entry_hash v = None ∧ candidate_capacity db v (len bs) expiry = None ∧
  db' = set_entries (<[va_entry_hash v := candidate_row v bs now_ms]> (cd_entries db)) db.

Lemma insert_candidate_inv db v bs now_ms expiry o db' :
  insert_candidate db v bs now_ms expiry = Some (Ok (o, db')) → db' = db ∨ admits v bs now_ms expiry db db'.
Proof.
  unfold insert_candidate. case_bool_decide as Hsome; [intros; inv_run; by left|].
  destruct (candidate_capacity _ _ _ _) eqn:Hcap; [intros; inv_run; by left|].
  case_bool_decide; [done|]. intros. inv_run. right. split_and!; [by apply eq_None_not_Some|done|done].
Qed.

Lemma all_rows_insert db hash row :
  cd_entries db !! hash = None → all_rows (set_entries (<[hash := row]> (cd_entries db)) db) ≡ₚ row :: all_rows db.
Proof. intros Hnone. unfold all_rows. simpl. by rewrite map_to_list_insert. Qed.

Lemma rows_of_insert db account hash row :
  cd_entries db !! hash = None →
  rows_of (set_entries (<[hash := row]> (cd_entries db)) db) account ≡ₚ
  (if bool_decide (ce_account_id row = account) then [row] else []) ++ rows_of db account.
Proof.
  intros Hnone. unfold rows_of, account_rows. rewrite !(sort_by_key_perm fst _). simpl.
  rewrite map_to_list_insert by done. rewrite filter_cons. simpl.
  destruct (decide _) as [Ha|Ha]; [rewrite bool_decide_true by done|rewrite bool_decide_false by done]; done.
Qed.

(** *** The budgets of candidates *)

Lemma saturating_le a b m : 0 ≤ a → 0 ≤ b → m < 2 ^ 63 - 1 → i64_saturating_add a b ≤ m → a + b ≤ m.
Proof. unfold i64_saturating_add. lia. Qed.
Lemma saturating_ge a b m : 0 ≤ a → 0 ≤ b → a + b ≤ m → i64_saturating_add a b ≤ m.
Proof. unfold i64_saturating_add. lia. Qed.

Lemma rows_bytes_nonneg rows : 0 ≤ rows_bytes rows.
Proof. rewrite rows_bytes_weight. apply weight_nonneg. intros. apply len_nonneg. Qed.

Lemma reserved_nonneg db account expiry :
  reservations_ok db → 0 ≤ reserved_entries (reservations db account expiry) ∧ 0 ≤ reserved_bytes (reservations db account expiry).
Proof.
  intros Hok. assert (Forall (λ r, 0 ≤ rv_reserved_entries r ∧ 0 ≤ rv_reserved_bytes r) (reservations db account expiry)) as Hall.
  { apply Forall_forall. intros r [_ ([k r'] & -> & Hr%elem_of_map_to_list)%list_elem_of_fmap]%list_elem_of_filter. by apply (Hok k). }
  induction Hall as [|r rs [? ?] _ [? ?]]; simpl; lia.
Qed.

Record candidates_within (db : CandidateDb) : Prop := {
  cw_entries account : floor_split (λ _, 1) ORDINARY_CANDIDATES_PER_ACCOUNT_MAX REVOCATION_SIGNER_ENTRIES (rows_of db account);
  cw_bytes account :
    floor_split (λ row, len (ce_signed_bytes row)) ORDINARY_CANDIDATE_BYTES_PER_ACCOUNT_MAX REVOCATION_SIGNER_BYTES (rows_of db account);
  cw_entries_max account : len (rows_of db account) ≤ CANDIDATES_PER_ACCOUNT_MAX;
  cw_bytes_max account : rows_bytes (rows_of db account) ≤ CANDIDATE_BYTES_PER_ACCOUNT_MAX;
  cw_global : len (all_rows db) ≤ CANDIDATES_GLOBAL_MAX;
  cw_global_bytes : rows_bytes (all_rows db) ≤ CANDIDATE_BYTES_GLOBAL_MAX;
}.

(** What an admission checked, without the reservations it also counted. *)
Lemma admits_room v bs now_ms expiry db db' :
  reservations_ok db → admits v bs now_ms expiry db db' →
  let rows := rows_of db (ah_account_id (va_header v)) in
  len (all_rows db) + 1 ≤ CANDIDATES_GLOBAL_MAX ∧ rows_bytes (all_rows db) + len bs ≤ CANDIDATE_BYTES_GLOBAL_MAX ∧
  if is_revocation_candidate db v (len bs) then
    len rows + 1 ≤ CANDIDATES_PER_ACCOUNT_MAX ∧ rows_bytes rows + len bs ≤ CANDIDATE_BYTES_PER_ACCOUNT_MAX
  else len rows + 1 ≤ ORDINARY_CANDIDATES_PER_ACCOUNT_MAX ∧ rows_bytes rows + len bs ≤ ORDINARY_CANDIDATE_BYTES_PER_ACCOUNT_MAX.
Proof.
  intros Hres (_ & Hcap & _). unfold candidate_capacity, account_charge, global_charge in Hcap.
  destruct (reserved_nonneg db (Some (ah_account_id (va_header v))) expiry Hres) as [He Hb].
  destruct (reserved_nonneg db None expiry Hres) as [Hge Hgb].
  pose proof (rows_bytes_nonneg (rows_of db (ah_account_id (va_header v)))) as Hr. pose proof (rows_bytes_nonneg (all_rows db)) as Hgr.
  pose proof (len_nonneg bs) as Hl. unfold rows_of, all_rows in *.
  destruct (is_revocation_candidate db v (len bs)).
  all: repeat (case_bool_decide; [done|]); unfold ORDINARY_CANDIDATES_PER_ACCOUNT_MAX, ORDINARY_CANDIDATE_BYTES_PER_ACCOUNT_MAX,
      CANDIDATES_GLOBAL_MAX, CANDIDATE_BYTES_GLOBAL_MAX, CANDIDATES_PER_ACCOUNT_MAX, CANDIDATE_BYTES_PER_ACCOUNT_MAX,
      REVOCATION_FLOOR_ENTRIES, REVOCATION_FLOOR_BYTES in *.
  all: repeat match goal with Hs : ¬ _ < i64_saturating_add _ _ |- _ => apply Z.nlt_ge, saturating_le in Hs; [|lia..] end.
  all: lia.
Qed.

Lemma revocation_candidate_row db v bs now_ms :
  is_revocation_candidate db v (len bs) = true →
  let row := candidate_row v bs now_ms in
  is_revocation_row (ce_device_fingerprint row) row ∧
  len (filter (is_revocation_row (ce_device_fingerprint row)) (rows_of db (ce_account_id row))) + 1 ≤ REVOCATION_SIGNER_ENTRIES ∧
  rows_bytes (filter (is_revocation_row (ce_device_fingerprint row)) (rows_of db (ce_account_id row))) + len bs ≤ REVOCATION_SIGNER_BYTES.
Proof.
  unfold is_revocation_candidate, signer_is_under_its_revocation_share. rewrite !andb_true_iff, orb_true_iff, andb_true_iff, !bool_decide_eq_true.
  intros [Hkind [Hn Hb]]. simpl. split_and!.
  - split; [done|]. simpl. destruct Hkind as [Hcut|[Hman _]].
    + unfold is_removal_cut in Hcut. rewrite !andb_true_iff, !bool_decide_eq_true in Hcut. tauto.
    + unfold is_view_manifest, is_current_annex_plaintext, current_plaintext in Hman. rewrite !andb_true_iff, !bool_decide_eq_true in Hman. tauto.
  - unfold revocation_rows in Hn. unfold rows_of. lia.
  - apply saturating_le; [apply rows_bytes_nonneg|apply len_nonneg|by vm_compute|done].
Qed.

(** An admission keeps a split: ordinary rows by their cap, a revocation by its signer's share. *)
Lemma admits_split (w : CandidateEntry → Z) ordinary share v bs now_ms expiry db db' account :
  (∀ row, 0 ≤ w row) → 0 ≤ share → admits v bs now_ms expiry db db' →
  floor_split w ordinary share (rows_of db account) →
  (let row := candidate_row v bs now_ms in
   if is_revocation_candidate db v (len bs)
   then weight w (filter (is_revocation_row (ce_device_fingerprint row)) (rows_of db (ce_account_id row))) + w row ≤ share
   else weight w (rows_of db (ce_account_id row)) + w row ≤ ordinary) →
  floor_split w ordinary share (rows_of db' account).
Proof.
  intros Hw Hshare (Hnone & _ & ->) Hsplit Hroom. set (row := candidate_row v bs now_ms) in *.
  pose proof (rows_of_insert db account (va_entry_hash v) row Hnone) as Hperm. case_bool_decide as Ha; simpl in Hperm.
  2: { destruct Hsplit as (excess & within & Hp & ?). exists excess, within. by rewrite Hperm. }
  subst account. destruct (is_revocation_candidate db v (len bs)) eqn:Hrev.
  - destruct (revocation_candidate_row db v bs now_ms Hrev) as (Hrow & _).
    destruct (floor_split_revocation w Hw ordinary share row (rows_of db (ce_account_id row)) Hsplit Hrow Hroom) as (excess & within & Hp & ?).
    exists excess, within. by rewrite Hperm.
  - apply (floor_split_ordinary w ordinary share); [done|]. rewrite Hperm. cbv zeta in Hroom. unfold weight in *. cbn [foldr]. lia.
Qed.

Lemma admits_within v bs now_ms expiry db db' :
  reservations_ok db → candidates_within db → admits v bs now_ms expiry db db' → candidates_within db'.
Proof.
  intros Hres Hw Had. destruct (admits_room v bs now_ms expiry db db' Hres Had) as (Hg & Hgb & Hroom). cbv zeta in Hroom.
  pose proof (revocation_candidate_row db v bs now_ms) as Hrev. simpl in Hrev. pose proof Had as (Hnone & _ & Hdb').
  assert (all_rows db' ≡ₚ candidate_row v bs now_ms :: all_rows db) as Hall by (rewrite Hdb'; by apply all_rows_insert).
  assert (∀ account, rows_of db' account ≡ₚ (if bool_decide (ah_account_id (va_header v) = account) then [candidate_row v bs now_ms] else []) ++
    rows_of db account) as Hrows by (intros account; rewrite Hdb'; by apply rows_of_insert).
  assert (len (rows_of db (ah_account_id (va_header v))) + 1 ≤ CANDIDATES_PER_ACCOUNT_MAX ∧
    rows_bytes (rows_of db (ah_account_id (va_header v))) + len bs ≤ CANDIDATE_BYTES_PER_ACCOUNT_MAX) as [Hn Hb].
  { destruct (is_revocation_candidate _ _ _); [done|]. unfold ORDINARY_CANDIDATES_PER_ACCOUNT_MAX, ORDINARY_CANDIDATE_BYTES_PER_ACCOUNT_MAX in *.
    unfold REVOCATION_FLOOR_ENTRIES, REVOCATION_FLOOR_BYTES in *. lia. }
  constructor.
  - intros account. eapply (admits_split (λ _, 1)); [lia|by vm_compute|done|apply Hw|]. simpl.
    rewrite <- !len_weight. destruct (is_revocation_candidate _ _ _); [by apply Hrev|apply Hroom].
  - intros account. eapply (admits_split (λ row, len (ce_signed_bytes row))); [intros; apply len_nonneg|by vm_compute|done|apply Hw|]. simpl.
    rewrite <- !rows_bytes_weight. destruct (is_revocation_candidate _ _ _); [by apply Hrev|apply Hroom].
  - intros account. rewrite !len_weight, Hrows, <- len_weight. case_bool_decide as Ha; [subst account|apply Hw]. simpl.
    rewrite len_cons. lia.
  - intros account. rewrite !rows_bytes_weight, Hrows, <- rows_bytes_weight. case_bool_decide as Ha; [subst account|apply Hw]. simpl. lia.
  - rewrite len_weight, Hall, <- len_weight, len_cons. lia.
  - rewrite rows_bytes_weight, Hall, <- rows_bytes_weight. simpl. lia.
Qed.

(** *** The budgets of the queue *)

Definition queue_within (queue : gmap bytes PreVerifyRow) : Prop :=
  (∀ account, len (queue_rows (Some account) queue) ≤ PRE_VERIFY_PER_ACCOUNT_MAX) ∧ len (queue_rows None queue) ≤ PRE_VERIFY_GLOBAL_MAX.

Lemma elem_of_queue_rows owner queue hash r :
  (hash, r) ∈ queue_rows owner queue ↔ queue !! hash = Some r ∧ (owner = None ∨ owner = Some (pv_claimed_account_id r)).
Proof. unfold queue_rows. rewrite list_elem_of_filter, elem_of_map_to_list. simpl. tauto. Qed.

Lemma queue_rows_NoDup owner queue : NoDup (queue_rows owner queue).
Proof. apply NoDup_filter, NoDup_map_to_list. Qed.

Lemma NoDup_len_le {A} (l k : list A) : NoDup l → (∀ x, x ∈ l → x ∈ k) → len l ≤ len k.
Proof. intros Hnd Hin. unfold len. apply inj_le, submseteq_length, NoDup_submseteq; done. Qed.

Lemma queue_rows_mono owner queue queue' : queue ⊆ queue' → len (queue_rows owner queue) ≤ len (queue_rows owner queue').
Proof.
  intros Hsub. apply NoDup_len_le; [apply queue_rows_NoDup|]. intros [hash r]. rewrite !elem_of_queue_rows.
  intros [Hr ?]. split; [by eapply lookup_weaken|done].
Qed.

Lemma queue_within_mono queue queue' : queue ⊆ queue' → queue_within queue' → queue_within queue.
Proof.
  intros Hsub [Ha Hg]. split; [intros account; specialize (Ha account)|]; etrans; try by apply queue_rows_mono. all: done.
Qed.

Lemma foldl_delete_lookup (rows : list (bytes * PreVerifyRow)) (queue : gmap bytes PreVerifyRow) hash r :
  foldl (fun queue row => delete row.1 queue) queue rows !! hash = Some r → hash ∉ rows.*1 ∧ queue !! hash = Some r.
Proof.
  revert queue. induction rows as [|row rows IH]; intros queue; simpl; [split; [apply not_elem_of_nil|done]|].
  intros [Hn Hr]%IH. apply lookup_delete_Some in Hr as [Hne Hr]. split; [|done]. rewrite not_elem_of_cons. naive_solver.
Qed.

Lemma evict_oldest_len owner limit queue : 0 ≤ limit → len (queue_rows owner (evict_oldest owner limit queue).1) ≤ limit.
Proof.
  intros Hlimit. unfold evict_oldest. set (rows := sort_by_key queue_order (queue_rows owner queue)).
  assert (rows ≡ₚ queue_rows owner queue) as Hperm by apply sort_by_key_perm. case_bool_decide as Hle; simpl.
  { unfold len in *. by rewrite <- Hperm. }
  set (n := Z.to_nat (len rows - limit)). trans (len (drop n rows)).
  2: { unfold n, len in *. rewrite length_drop. lia. }
  apply NoDup_len_le; [apply queue_rows_NoDup|]. intros [hash r]. rewrite elem_of_queue_rows. intros [[Hn Hr]%foldl_delete_lookup Ho].
  assert ((hash, r) ∈ rows) as Hin by (rewrite Hperm; by apply elem_of_queue_rows).
  rewrite <- (take_drop n rows), elem_of_app in Hin. destruct Hin as [Hin|]; [|done]. destruct Hn. apply list_elem_of_fmap. by exists (hash, r).
Qed.

Lemma enforce_within queue account hash row :
  queue_within queue → pv_claimed_account_id row = account →
  queue_within (enforce_pre_verify_budget account hash (<[hash := row]> queue)).2.
Proof.
  intros Hq Hrow. unfold enforce_pre_verify_budget. cbn [enforce_budgets].
  pose proof (evict_oldest_subseteq (Some account) PRE_VERIFY_PER_ACCOUNT_MAX (<[hash := row]> queue)) as Hsub1.
  pose proof (evict_oldest_len (Some account) PRE_VERIFY_PER_ACCOUNT_MAX (<[hash := row]> queue) ltac:(done)) as Hlen1.
  destruct (evict_oldest (Some account) _ _) as [queue1 gone1]. simpl in Hsub1, Hlen1.
  pose proof (evict_oldest_subseteq None PRE_VERIFY_GLOBAL_MAX queue1) as Hsub2.
  pose proof (evict_oldest_len None PRE_VERIFY_GLOBAL_MAX queue1 ltac:(done)) as Hlen2.
  destruct (evict_oldest None _ _) as [queue2 gone2]. simpl in Hsub2, Hlen2.
  case_bool_decide as Hin.
  2: { simpl. apply eq_None_not_Some in Hin. eapply queue_within_mono; [|exact Hq]. apply map_subseteq_spec. intros h r Hr.
    pose proof (lookup_weaken _ _ _ _ Hr Hsub1) as Hr'. apply lookup_insert_Some in Hr' as [[-> _]|[_ ?]]; [|done]. congruence. }
  assert (queue_within queue2) as Hgoal; [|by case_bool_decide]. split; [|done]. intros account'.
  etrans; [by apply queue_rows_mono|]. destruct (decide (account' = account)) as [->|Hne]; [done|].
  etrans; [|apply (proj1 Hq account')]. apply NoDup_len_le; [apply queue_rows_NoDup|]. intros [h r]. rewrite !elem_of_queue_rows.
  intros [Hr [|[= Ha]]]; [done|]. split; [|by right; rewrite Ha]. pose proof (lookup_weaken _ _ _ _ Hr Hsub1) as Hr'.
  apply lookup_insert_Some in Hr' as [[_ <-]|[_ ?]]; [congruence|done].
Qed.

(** *** Every step stays within the budgets *)

Record within_budget (db : CandidateDb) : Prop := {
  wb_reservations : reservations_ok db;
  wb_candidates : candidates_within db;
  wb_queue : queue_within (cd_pre_verify db);
}.

(** An admission, or a parked row that leaves. *)
Inductive budget_step (db db' : CandidateDb) : Prop :=
| budget_admits v bs now_ms expiry : admits v bs now_ms expiry db db' → budget_step db db'
| budget_unparks queue : queue ⊆ cd_pre_verify db → db' = set_pre_verify queue db → budget_step db db'.

Lemma budget_step_within db db' : within_budget db → budget_step db db' → within_budget db'.
Proof.
  intros [Hr Hc Hq] [v bs now expiry Had|queue Hsub ->].
  - pose proof Had as (_ & _ & Hdb'). constructor; [by rewrite Hdb'|by eapply admits_within|by rewrite Hdb'].
  - constructor; [done| |by eapply queue_within_mono]. by destruct Hc.
Qed.

Lemma budget_steps_within db db' : rtc budget_step db db' → within_budget db → within_budget db'.
Proof. induction 1; [done|]. intros. by eauto using budget_step_within. Qed.

Lemma insert_candidate_steps db v bs now_ms expiry o db' :
  insert_candidate db v bs now_ms expiry = Some (Ok (o, db')) → rtc budget_step db db'.
Proof. intros [->|?]%insert_candidate_inv; [done|]. by eapply rtc_once, budget_admits. Qed.

Lemma unpark_step hash db : budget_step db (unpark hash db).
Proof. eapply budget_unparks; [apply delete_subseteq|done]. Qed.

Lemma promote_row_steps now_ms expiry s row s' :
  promote_row now_ms expiry s row = Some (Ok s') → rtc budget_step (ps_db s) (ps_db s').
Proof.
  destruct row as [hash r]. unfold promote_row. repeat (case_match; [|done || (intros; inv_run; first [done|apply rtc_once, unpark_step])]).
  all: try (intros; inv_run; done). intros Hrun. inv_run. match goal with Hi : insert_candidate _ _ _ _ _ = _ |- _ => destruct x as [o db]; apply insert_candidate_steps in Hi as Hsteps end.
  destruct o; inv_run; simpl; (etrans; [exact Hsteps|apply rtc_once, unpark_step]).
Qed.

Lemma promote_rounds_steps fuel account now_ms expiry db keys outcome db' outcome' :
  promote_rounds fuel account now_ms expiry db keys outcome = Some (Ok (db', outcome')) → rtc budget_step db db'.
Proof.
  revert db keys outcome. induction fuel as [|fuel IH]; intros db keys outcome; simpl; [done|]. intros Hrun. inv_run.
  match goal with Hf : run_foldl _ ?s _ = _ |- _ =>
    apply (run_foldl_inv _ (λ _ s', rtc budget_step (ps_db s) (ps_db s'))) in Hf as Hsteps; [|done|] end.
  2: { intros ? b a b' Hb _ Hrow. etrans; [exact Hb|by eapply promote_row_steps]. }
  etrans; [exact Hsteps|]. case_match; [by eapply IH|]. by inv_run.
Qed.

Lemma store_verified_steps db v bs now_ms expiry step db' :
  store_verified db v bs now_ms expiry = Some (Ok (step, db')) → rtc budget_step db db'.
Proof.
  unfold store_verified. intros Hrun. inv_run. destruct x as [o db1].
  match goal with Hi : insert_candidate _ _ _ _ _ = _ |- _ => apply insert_candidate_steps in Hi as Hsteps end.
  etrans; [exact Hsteps|].
  assert (∀ r, run_bind (if introduces_device v then promote_pre_verify db1 (ah_account_id (va_header v)) now_ms expiry else run_ret (db1, no_promotions))
    (fun '(db, promotions) => run_ret (IngestRefold (ah_account_id (va_header v)) (va_entry_hash v) (introduces_device v) promotions, db)) = Some (Ok r) →
    rtc budget_step db1 r.2) as Hrefold.
  { intros r Hr. inv_run. destruct x as [db2 out]. inv_run. simpl. case_match; [by eapply promote_rounds_steps|by inv_run]. }
  destruct o; cbv beta iota in Hrun; [by apply Hrefold in Hrun| |by inv_run].
  destruct (cd_status db1 !! va_entry_hash v); [by inv_run|by apply Hrefold in Hrun].
Qed.

Lemma insert_pre_verify_within db hash account device bs now_ms :
  within_budget db → within_budget (insert_pre_verify db hash account device bs now_ms).2.
Proof.
  intros [Hr Hc Hq]. unfold insert_pre_verify. case_bool_decide; [done|].
  pose proof (enforce_within (cd_pre_verify db) account (sha256 bs) (mkPreVerifyRow hash account device bs now_ms) Hq eq_refl) as Hin.
  destruct (enforce_pre_verify_budget _ _ _) as [parked queue]. simpl in *. constructor; [done| |done]. by destruct Hc; constructor.
Qed.

Lemma ingest_decoded_within db signed bs now_ms expiry verified step db' :
  within_budget db → account_ingest_decoded_in_tx db signed bs now_ms expiry verified = Some (Ok (step, db')) → within_budget db'.
Proof.
  intros Hdb. unfold account_ingest_decoded_in_tx. destruct verified as [v|].
  { intros ?%store_verified_steps. by eapply budget_steps_within. }
  destruct (add_self_pubkey _ _ _ !! _) as [pubkey|].
  - destruct (authenticate_entry bs pubkey); [|intros; by inv_run]. intros ?%store_verified_steps. by eapply budget_steps_within.
  - pose proof (insert_pre_verify_within db (sa_entry_hash signed) (ah_account_id (sa_header signed))
      (ah_device_fingerprint (sa_header signed)) bs now_ms Hdb) as Hin.
    destruct (insert_pre_verify _ _ _ _ _ _). intros. by inv_run.
Qed.

Lemma ingest_in_tx_within db bs now_ms expiry step db' :
  within_budget db → account_ingest_in_tx db bs now_ms expiry = Some (Ok (step, db')) → within_budget db'.
Proof.
  intros Hdb. unfold account_ingest_in_tx. destruct (decode_account_signed bs); [|intros; by inv_run].
  destruct (validate_storable_header_payload _ _); [|intros; by inv_run]. by apply ingest_decoded_within.
Qed.

Lemma ingest_within seen db bs now_ms expiry step db' :
  within_budget db → account_ingest seen db bs now_ms expiry = Some (Ok (step, db')) → within_budget db'.
Proof.
  intros Hdb. unfold account_ingest. destruct (decode_account_signed bs); [|intros; by inv_run].
  destruct (validate_storable_header_payload _ _); [|intros; by inv_run].
  destruct (stored_status_for_exact_envelope _ _ _); [intros; by inv_run|].
  destruct (add_self_pubkey _ _ _ !! _) as [pubkey|]; [|by apply ingest_decoded_within].
  destruct (authenticate_entry bs pubkey); [|intros; by inv_run]. by apply ingest_decoded_within.
Qed.

Lemma within_same db db' : within_budget db → same_candidates db db' → reservations_ok db' → within_budget db'.
Proof.
  intros [_ Hc Hq] [Ee Eq] Hr. constructor; [done| |by rewrite Eq]. destruct Hc.
  assert (all_rows db' = all_rows db) as Eall by (unfold all_rows; by rewrite Ee).
  assert (∀ account, rows_of db' account = rows_of db account) as Erows by (intros; unfold rows_of, account_rows; by rewrite Ee).
  constructor; intros; by rewrite ?Eall, ?Erows.
Qed.

Lemma within_empty db : cd_entries db = ∅ → cd_pre_verify db = ∅ → reservations_ok db → within_budget db.
Proof.
  intros He Hq Hr. assert (all_rows db = []) as Eall by (unfold all_rows; by rewrite He, map_to_list_empty).
  assert (∀ account, rows_of db account = []) as Erows by (intros; unfold rows_of, account_rows; by rewrite He, map_to_list_empty).
  constructor; [done| |].
  - constructor; intros; rewrite ?Eall, ?Erows.
    1,2: apply floor_split_ordinary; by vm_compute.
    all: by vm_compute.
  - unfold queue_within, queue_rows. rewrite Hq, map_to_list_empty. split; intros; by vm_compute.
Qed.

Lemma reachable_within submitted db : reachable submitted db → within_budget db.
Proof.
  induction 1; [by apply within_empty|by eapply ingest_within|by eapply ingest_in_tx_within|by eapply within_same].
Qed.

(** ** Properties *)

(** C15.  Admission is bounded: no envelopes, in whatever order, take a store over the candidate
    budgets of an account or of the store, in entries or in bytes, or its queue over its own. *)
Theorem budgets_hold (submitted : list bytes) (db : CandidateDb) (account : AccountId) :
  reachable submitted db →
  len (account_rows db account) ≤ CANDIDATES_PER_ACCOUNT_MAX ∧
  rows_bytes (account_rows db account).*2 ≤ CANDIDATE_BYTES_PER_ACCOUNT_MAX ∧
  len (map_to_list (cd_entries db)) ≤ CANDIDATES_GLOBAL_MAX ∧
  rows_bytes (map_to_list (cd_entries db)).*2 ≤ CANDIDATE_BYTES_GLOBAL_MAX ∧
  len (queue_rows (Some account) (cd_pre_verify db)) ≤ PRE_VERIFY_PER_ACCOUNT_MAX ∧
  len (queue_rows None (cd_pre_verify db)) ≤ PRE_VERIFY_GLOBAL_MAX.
Proof.
  intros [_ Hc [Hq Hqg]]%reachable_within. pose proof (cw_entries_max _ Hc account) as Hn. pose proof (cw_global _ Hc) as Hg.
  unfold rows_of, all_rows, len in Hn, Hg. rewrite length_fmap in Hn, Hg. split_and!; try done; apply Hc.
Qed.

(** C13.  Removal stays possible: whatever an account was flooded with, a device under its own share
    of the revocation floor gets a removal admitted, as long as no more than three other devices
    hold revocations, no invite holds a reservation of the account, and the store as a whole has room. *)
Theorem removal_always_fits (submitted : list bytes) (db : CandidateDb) (v : VerifiedAccountEntry) (bs : bytes) (now_ms expiry : Z)
    (others : list DeviceFingerprint) :
  reachable submitted db → is_removal_cut (va_header v) = true → ah_seq (va_header v) ≤ sql_int_max →
  signer_is_under_its_revocation_share db (va_header v) (len bs) = true → len others ≤ 3 →
  (∀ hash row, (hash, row) ∈ account_rows db (ah_account_id (va_header v)) → is_revocation_row (ce_device_fingerprint row) row →
     ce_device_fingerprint row = ah_device_fingerprint (va_header v) ∨ ce_device_fingerprint row ∈ others) →
  reservations db (Some (ah_account_id (va_header v))) expiry = [] →
  (global_charge db expiry).1 < CANDIDATES_GLOBAL_MAX → (global_charge db expiry).2 + len bs ≤ CANDIDATE_BYTES_GLOBAL_MAX →
  ∃ o db', insert_candidate db v bs now_ms expiry = Some (Ok (o, db')) ∧ is_Some (cd_entries db' !! va_entry_hash v).
Proof.
  intros Hreach Hcut Hseq Hshare Hlen Hothers Hres Hglobal Hbytes. destruct (reachable_within _ _ Hreach) as [Hrok Hc _].
  unfold insert_candidate. case_bool_decide as Hsome; [by eexists _, db|].
  assert (candidate_capacity db v (len bs) expiry = None) as ->.
  2: { rewrite bool_decide_false by lia. eexists _, _. split; [done|]. simpl. by rewrite lookup_insert_eq. }
  assert (is_revocation_candidate db v (len bs) = true) as Hrev by (unfold is_revocation_candidate; by rewrite Hcut, Hshare).
  destruct (revocation_candidate_row db v bs now_ms Hrev) as (_ & Hown & Hownb). simpl in Hown, Hownb.
  assert (∀ row, row ∈ rows_of db (ah_account_id (va_header v)) → is_revocation_row (ce_device_fingerprint row) row →
     ce_device_fingerprint row = ah_device_fingerprint (va_header v) ∨ ce_device_fingerprint row ∈ others) as Hothers'.
  { intros row ([hash row'] & -> & Hin)%list_elem_of_fmap. by eapply Hothers. }
  pose proof (floor_room (λ _, 1) ltac:(lia) _ _ _ (ah_device_fingerprint (va_header v)) others (cw_entries _ Hc _) Hothers') as Hroom.
  pose proof (floor_room _ (λ row, len_nonneg (ce_signed_bytes row)) _ _ _ (ah_device_fingerprint (va_header v)) others (cw_bytes _ Hc _) Hothers') as Hroomb.
  rewrite <- !len_weight in Hroom. change (weight (λ row, len (ce_signed_bytes row))) with rows_bytes in Hroomb.
  pose proof (rows_bytes_nonneg (rows_of db (ah_account_id (va_header v)))). pose proof (len_nonneg bs). pose proof (len_nonneg others).
  destruct (reserved_nonneg db None expiry Hrok) as [_ ?]. pose proof (rows_bytes_nonneg (all_rows db)).
  unfold candidate_capacity. rewrite Hrev. destruct (global_charge db expiry) as [gc gb] eqn:Hgc. unfold account_charge. rewrite Hres.
  simpl in Hglobal, Hbytes. unfold global_charge in Hgc. injection Hgc as <- <-. unfold rows_of, all_rows in *.
  unfold ORDINARY_CANDIDATES_PER_ACCOUNT_MAX, ORDINARY_CANDIDATE_BYTES_PER_ACCOUNT_MAX, REVOCATION_SIGNER_ENTRIES, REVOCATION_SIGNER_BYTES,
    CANDIDATES_PER_ACCOUNT_MAX, CANDIDATE_BYTES_PER_ACCOUNT_MAX, REVOCATION_FLOOR_ENTRIES, REVOCATION_FLOOR_BYTES in *. simpl reserved_entries. simpl reserved_bytes.
  change (64 / 4) with 16 in *. change (1024 * 1024 / 4) with 262144 in *.
  rewrite bool_decide_false by lia. rewrite bool_decide_false by (apply Z.nlt_ge, saturating_ge; lia).
  rewrite bool_decide_false by lia. rewrite bool_decide_false; [done|]. apply Z.nlt_ge, saturating_ge; lia.
Qed.
End Admission.

(** ** Witnesses *)

Lemma budgets_hold_witness : len (account_rows wit_store (account_id_from_genesis_payload wit_founding)) ≤ 4096.
Proof. apply (budgets_hold wit_submitted wit_store (account_id_from_genesis_payload wit_founding) wit_store_reachable). Defined.

(** A second removal by the second device, which holds one revocation. *)
Definition wit_removal : VerifiedAccountEntry :=
  mkVerifiedAccountEntry
    (mkAccountEntryHeader (account_id_from_genesis_payload wit_founding) CONTROL_LOG (fingerprint (secret_public wit_peer)) 1
       (Some (sa_entry_hash wit_remove)) None DEVICE_REMOVE 1 0 3 None (Some (sa_entry_hash wit_enroll)))
    [] (replicate 32 x01).

Definition wit_floor_free : bool :=
  forallb (λ row, bool_decide (¬ is_revocation_row (ce_device_fingerprint row.2) row.2) ||
                  bool_decide (ce_device_fingerprint row.2 = ah_device_fingerprint (va_header wit_removal)))
    (account_rows wit_store (ah_account_id (va_header wit_removal))).

Lemma removal_always_fits_witness :
  ∃ o db', insert_candidate wit_store wit_removal [x00] 20 0 = Some (Ok (o, db')) ∧ is_Some (cd_entries db' !! va_entry_hash wit_removal).
Proof.
  apply (removal_always_fits wit_submitted wit_store wit_removal [x00] 20 0 []).
  - exact wit_store_reachable.
  - vm_compute. reflexivity.
  - vm_compute. discriminate.
  - vm_compute. reflexivity.
  - vm_compute. discriminate.
  - intros hash row Hin Hrow. left. assert (wit_floor_free = true) as Hall by (vm_compute; reflexivity).
    unfold wit_floor_free in Hall. rewrite forallb_forall in Hall. apply list_elem_of_In, Hall in Hin. simpl in Hin.
    apply orb_true_iff in Hin as [Hin|Hin]; apply bool_decide_eq_true in Hin; [by destruct Hin|exact Hin].
  - vm_compute. reflexivity.
  - vm_compute. reflexivity.
  - vm_compute. discriminate.
Defined.
